(* ===== verification/_CoqProject ===== *)
-Q . S2P
Prelude.v
Ranges.v
InfraBitmap.v
InfraPool.v
InfraFifoQueue.v
InfraChecksum.v
InfraMtrie.v
InfraRbTree.v
InfraRbHeap.v
InfraRbInsert.v
InfraRbRemove.v
InfraRbOps.v
InfraRbMap.v
InfraTimerWheel.v
InfraTimerLists.v
InfraTimerProofs.v
InfraTimerPlace.v
InfraTimerTicks.v
InfraTimerOps.v
InfraTimerIds.v
TcpTimers.v
TcpProtocol.v
TcpOptions.v
TcpSegment.v
TcpPacket.v
TcpSack.v
TcpSackProofs.v
IpcCodec.v
IpcMessage.v
SvmOoo.v
SvmOooProofs.v
SvmMemory.v
SvmMemoryProofs.v
SvmFifo.v
SvmBudget.v
SvmChain.v
SvmGrow.v
SvmFifoInv.v
SvmFifoOps.v
SvmFifoRead.v
SvmSegment.v
SvmSegmentProofs.v
SvmLifeBudget.v
SvmFifoLife.v
SvmQueues.v
SvmFamily.v
SvmTheorems.v
SvmPeers.v
SvmDefects.v
SessionRx.v
SessionRxProofs.v
TcpReceive.v
TcpReceiveProofs.v
TcpRecovery.v
TcpSamples.v
TcpRecoveryOps.v
TcpAckOps.v
TcpScoreboard.v
TcpAcks.v
TcpSenderInv.v
TcpSender.v
TcpSenderConn.v
TcpRetransmit.v
TcpSenderRun.v
TcpSenderProps.v
