(* ===== verification/Prelude.v ===== *)
(** * A verification of the netsystem packet stack

    The repository is a VPP-style user-space packet stack in Rust.  The crate
    [hammer-infra] has the data structures, [hammer-core] and [hammer-runtime]
    the buffers, the packet graph and its threads, [hammer-service] interfaces,
    forwarding objects, sessions and congestion control, [hammer-ipc] and
    [hammer-stats] the control channels, and [hammer-plugins] the protocols
    (IP, ICMP, TCP), devices and applications as loadable plugins.  This
    library translates the parts whose behaviour is determined by their own
    code into executable definitions and proves what they promise.

    ** Conventions

    A machine integer is a [Z]; every operation that can wrap, saturate or
    fail in the source writes it out ([wrap], [checked_add], ...).  A vector or
    slice is a list indexed by [Z] through [vget], [vset] and [vslice], which
    are [None] out of range: [None] is a panic throughout, so a theorem that an
    operation returns [Some] says that it does not panic.  Errors the source
    returns are values of the error type it returns.  Debug assertions are
    read as assertions.  Loops are structural where the source's loop runs
    over a list, and otherwise take fuel that the surrounding definition
    computes from the data; the theorems show that this fuel is enough, since
    they conclude a result and not only its shape.

    ** Files

    - This file: tactics, the hint database [netsys], the indexing operations
      with their lemmas, and facts on lists, bits and modular arithmetic.
    - [InfraBitmap] (bitmap.rs), [InfraPool] (pool.rs), [InfraFifoQueue]
      (fifo_queue.rs): containers.  Each is related to a mathematical object
      (a set of bits, a finite map, a sequence), and every operation is shown
      to act on that object as its name says.
    - [InfraChecksum] (checksum.rs, and the lanes of simd.rs): every SIMD width
      computes the RFC 1071 checksum and a filled packet verifies.
    - [InfraMtrie] (mtrie.rs): the trie answers with the longest prefix match.
    - [InfraTimerWheel] (timer_wheel.rs) with its proofs in [InfraTimerLists]
      (linked rings), [InfraTimerProofs] (the invariant), [InfraTimerPlace]
      (slots), [InfraTimerTicks] (cascades), [InfraTimerOps] (operations
      against a map from timers to deadlines) and [InfraTimerIds] (timers named
      by slot and id): a timer fires exactly once, at its deadline, for every
      geometry, as long as its interval does not reach around the coarsest
      ring; two theorems exhibit what happens when it does.
    - [TcpTimers] (tcp timers.rs and the timer part of worker.rs and
      connection.rs): the composition of the wheel, the connection pool and
      the two bit sets of a connection.  Armed bits are backed by the wheel,
      pending bits by the queue; timers fire when due, are handed out once, and
      leave no deadline behind when their connection is released.
    - [TcpProtocol] (tcp protocol/mod.rs): sequence order, cookies, connection
      keys and their hash.
    - [TcpOptions] (protocol/options.rs), [TcpSegment] (protocol/segment.rs),
      [TcpPacket] (tcp segment.rs): reading is total on arbitrary bytes and
      equals a reference parser; a segment written is read back as it was sent.
    - [InfraRbTree] (rbtree.rs) with its proofs in [InfraRbHeap] (the nodes of
      the pool as a tree, what each assignment and rotation does to it),
      [InfraRbInsert] and [InfraRbRemove] (the fix-up loops) and [InfraRbOps]
      (the tree as a sorted list of entries, the class [KeyOrder] of orders it
      accepts): every sequence of calls answers as a sorted list does, the tree
      stays balanced and a lookup takes a logarithmic number of steps.
    - [IpcCodec] (hammer-ipc codec.rs) and [IpcMessage] (the code the message
      macro of hammer-component-macros generates, MsgBuf and dispatch_message):
      the wire format of the Binary API, that decoding inverts encoding, and
      that decoding arbitrary bytes ends in a value or an error.
    - [TcpSack] (tcp sack.rs), a client of the red-black tree, with its proofs
      in [TcpSackProofs] over the tree seen as a finite map ([InfraRbMap]): the
      blocks are exactly the received ranges beyond rcv_nxt, merged, with the
      most recent first, over any number of turns of the sequence space.
    - [Ranges]: byte ranges over unwrapped positions, shared by the two above
      and below.  [SvmOoo] (svm/fifo.rs) with [SvmOooProofs]: the list of
      out-of-order segments of a byte FIFO covers exactly the bytes added to it
      and gives up what the tail reaches.
    - [SvmMemory] (the shared part of svm/fifo_segment.rs and the chunk
      structures of svm/fifo.rs): the mapping as its chunk headers, chunk
      bytes, FIFO headers and slices at their offsets, the bump allocator and
      the lock-free free lists; [SvmMemoryProofs] has its frame lemmas.
    - [SvmFifo] (svm/fifo.rs): a byte FIFO over a chain of chunks, both copy
      variants, the two lookup trees (clients of the red-black tree), writes
      in order, out of order and in pieces, reads, resets and events.
      [SvmChain], [SvmGrow] and [SvmFifoInv] have the invariant of the chain,
      [SvmFifoOps] and [SvmFifoRead] what each operation does under it.
    - [SvmSegment] (svm/fifo_segment.rs): slices, allocation and release of
      FIFOs, attachment, migration and preallocation.  [SvmSegmentProofs] and
      [SvmFifoLife] follow a FIFO from allocation to release.
    - [SvmBudget] and [SvmLifeBudget] bound the memory an operation takes from
      the mapping, so that the theorems also say when it does not fail.
    - [SvmQueues] and [SvmFamily] specify a segment as a family of independent
      bounded byte queues.  [SvmTheorems] shows that every sequence of
      allocations, releases and FIFO calls on a new segment answers as that
      family does, that chunks and headers in use and on the free lists never
      overlap or get lost, and that what is read is what was written.
      [SvmPeers] adds a peer that attaches to a FIFO and consumes from it.
      [SvmDefects] runs the definitions on inputs where the code does something
      else than it means to.
    - [SessionRx] (enqueue_rx of hammer-service session/core.rs), a client of
      the FIFO, with its proofs in [SessionRxProofs]: the payload of a packet, a
      chain of buffers, enters the receive FIFO of a session.
    - [TcpReceive] (the receive path of tcp connection.rs, established.rs,
      rcv_process.rs, syn_sent.rs and lib.rs) puts SACK, session delivery and
      FIFO together.  [TcpReceiveProofs] follows a connection through any
      sequence of arriving segments and reads of the application: what is read
      is the stream the peer sent, what is reported in SACK blocks is stored,
      and nothing that fits is lost.
    - [TcpRecovery] (tcp recovery.rs): the samples of what was sent, a pool
      threaded into a list and indexed by the red-black tree, the scoreboard of
      holes, RACK, tail loss probes and rate reduction; the congestion
      controller is a class with the methods of the trait.  [TcpSamples] has
      the invariant of the list, [TcpRecoveryOps] what only marks samples,
      [TcpAckOps] and [TcpAcks] acknowledgments, [TcpScoreboard] the holes.
    - [TcpSender] (the send path of tcp connection.rs, worker.rs, lib.rs and
      established.rs and of session/core.rs): from the TX FIFO to numbered
      segments, through acknowledgments, retransmissions, probes and timeouts.
      [TcpSenderInv], [TcpSenderConn] and [TcpRetransmit] show what each
      operation keeps, [TcpSenderRun] follows a sender through any sequence of
      writes, bursts, acknowledgments and timers.  [TcpSenderProps] has the
      theorems: the samples are the bytes in flight that were not
      acknowledged, the scoreboard is exact, segments carry the stream, new
      data stays in the peer's window and a timeout resends the oldest byte;
      and runs where a condition of theirs fails.
    ** Bounds and fuel

    The bitmap, pool and queue loops recurse on the words or elements left.
    The loops of the timer wheel take the number of entries as fuel: a ring
    holds each entry at most once ([chain] in [InfraTimerLists]).  The option
    iterator takes the number of option bytes: each step consumes one or ends.
    Searches and fix-up loops of the red-black tree take the number of slots of
    its pool: a path visits each node once.  The decoder of
    the Binary API recurses on the shape of the value it is asked for.
    The loops of [TcpSack] take the number of blocks: each round removes one.
    The loops of [SvmOoo] take the slots of the segment pool.
    The loops of [SvmFifo] and [SvmSegment] take the number of chunks of the
    mapping, twice that where a round may only step to the next chunk.
    The theorems on segments hold for mappings of at most 2^32 bytes (the
    lookup trees store offsets in 32 bits) and FIFOs of at most 2^31 - 2^24
    bytes (positions are compared as signed differences).  In a run a FIFO is
    written past its tail either out of order or in pieces, not both, and
    set_size and overwrite_head are not among the calls: [SvmDefects] shows
    why.
    The theorems on the receive path take segments that carry the bytes of one
    stream and start less than half the sequence space from rcv_nxt; the
    progress theorem asks that the mapping has room for the chunks of every
    input ([inputs_cost]).
    Loops over the samples take the slots of their pool, the loop of a
    retransmission twice the segments it may send plus two: a round sends one
    or drops the pending intent, and both are proved to be enough.
    The theorems on the send path hold while fewer than 2^63 bytes were sent;
    the window of the peer is at most 65535 * 2^14 by its encoding.  That
    segments carry the stream asks that new data is sent only while no
    retransmission is pending; the exact scoreboard asks for an initial
    sequence number below 2^30.  [TcpSenderProps] shows what happens otherwise.
    ** Not modelled

    Code whose correctness is a statement about raw memory, other processes or
    the operating system is left out: the allocators and shared-memory regions
    of [hammer-infra], the packet-buffer arenas of [hammer-core], the threads,
    files and plugin loading of [hammer-runtime], the devices, the procedural
    macros, and the vendored libraries under third_party.  Atomics are outside
    too: the lock-free ring and bihash publish through a weak memory model.
    The shared FIFOs are modelled with one operation running at a time; the
    two sides of a FIFO may take turns in any order, but the interleaving of
    their single loads and stores is not part of the model.  Message queues
    and the table of named segments of svm/fifo_segment.rs are left out with
    the mappings and locks they are made of.
    Of the TCP plugin the connection state machine (opening, closing, FIN and
    RST), the round-trip estimator, the pacer and the arming of timers are left
    out: they read clocks and floating-point rates, or touch every table of the
    worker.  The congestion controllers of hammer-service are floating-point
    arithmetic; the theorems hold for any controller.
    Values that come from elsewhere (the clock, random secrets, buffer
    addresses, hash seeds) are arguments of the definitions that use them. *)

From Stdlib Require Export ZArith Lia.
From stdpp Require Export prelude gmap list sorting.

#[global] Open Scope Z_scope.
#[export] Set Warnings "-clear-no-such-hyp".

(** ** Tactics *)

Create HintDb netsys.

(** Case analysis on every boolean test of the goal or of a hypothesis, with
    the comparison turned into the proposition it decides. *)
Ltac bool_prop :=
  repeat match goal with
  | H : (_ <? _) = true |- _ => apply Z.ltb_lt in H
  | H : (_ <? _) = false |- _ => apply Z.ltb_ge in H
  | H : (_ <=? _) = true |- _ => apply Z.leb_le in H
  | H : (_ <=? _) = false |- _ => apply Z.leb_gt in H
  | H : (_ =? _) = true |- _ => apply Z.eqb_eq in H
  | H : (_ =? _) = false |- _ => apply Z.eqb_neq in H
  | H : (_ && _)%bool = true |- _ => apply andb_prop in H; destruct H
  | H : (_ || _)%bool = false |- _ => apply orb_false_elim in H; destruct H
  | H : negb _ = true |- _ => apply negb_true_iff in H
  | H : negb _ = false |- _ => apply negb_false_iff in H
  end.

(** Turns an equality of boolean tests into an equivalence of propositions. *)
Ltac bool_iff :=
  try apply eq_true_iff_eq;
  rewrite ?andb_true_iff, ?orb_true_iff, ?negb_true_iff, ?Z.leb_le, ?Z.ltb_lt, ?Z.eqb_eq,
    ?Z.ltb_ge, ?Z.leb_gt, ?Z.eqb_neq.

Ltac case_if :=
  match goal with
  | |- context [if ?b then _ else _] => let E := fresh "E" in destruct b eqn:E
  end; bool_prop.

Ltac case_if_in H :=
  match type of H with
  | context [if ?b then _ else _] => let E := fresh "E" in destruct b eqn:E
  end; bool_prop.

(** Linear arithmetic with division and modulus by constants. *)
Ltac zdm := Z.to_euclidean_division_equations; lia.

(** ** Machine integers

    A [w]-bit unsigned integer is a [Z] in [0, 2^w); the wrapping operations
    of the source reduce modulo [2^w]. *)

Definition wrap (w z : Z) : Z := z mod 2 ^ w.
Definition in_word (w z : Z) : Prop := 0 <= z < 2 ^ w.

Definition u8_max : Z := 2 ^ 8 - 1.
Definition u16_max : Z := 2 ^ 16 - 1.
Definition u32_max : Z := 2 ^ 32 - 1.
Definition u64_max : Z := 2 ^ 64 - 1.

(** [checked_add] of a [w]-bit integer. *)
Definition checked_add (w a b : Z) : option Z :=
  if a + b <? 2 ^ w then Some (a + b) else None.

(** [saturating_sub] of unsigned integers. *)
Definition saturating_sub (a b : Z) : Z := Z.max 0 (a - b).

(** [saturating_add] of [w]-bit unsigned integers. *)
Definition saturating_add (w a b : Z) : Z := Z.min (2 ^ w - 1) (a + b).

(** Bitwise complement of a [w]-bit integer. *)
Definition wnot (w x : Z) : Z := Z.ldiff (Z.ones w) x.

(** A [w]-bit pattern read as a two's complement integer. *)
Definition as_signed (w x : Z) : Z := if x <? 2 ^ (w - 1) then x else x - 2 ^ w.

Lemma wrap_bounds w z : 0 <= w -> in_word w (wrap w z).
Proof. intros ?. apply Z.mod_pos_bound. lia. Qed.

Lemma wrap_small w z : in_word w z -> wrap w z = z.
Proof. apply Z.mod_small. Qed.

Lemma wnot_small w x : 0 < w -> in_word w x -> wnot w x = 2 ^ w - 1 - x.
Proof.
  intros Hw [Hx0 Hx]. unfold wnot. rewrite <- Z.sub_nocarry_ldiff.
  - rewrite Z.ones_equiv. lia.
  - apply Z.ldiff_ones_r_low; [done|]. destruct (Z.eq_dec x 0) as [->|].
    + done.
    + apply Z.log2_lt_pow2; lia.
Qed.

Lemma wnot_testbit w x i :
  0 <= w -> 0 <= i -> Z.testbit (wnot w x) i = (i <? w) && negb (Z.testbit x i).
Proof.
  intros Hw Hi. unfold wnot. rewrite Z.ldiff_spec.
  destruct (Z.ltb_spec i w).
  - rewrite Z.ones_spec_low by lia. done.
  - rewrite Z.ones_spec_high by lia. done.
Qed.

(** Packing a field of [n] bits below another one, and taking it apart. *)
Lemma pack_lor a b n : 0 <= n -> 0 <= b < 2 ^ n -> Z.lor (Z.shiftl a n) b = a * 2 ^ n + b.
Proof.
  intros Hn Hb. rewrite <- (Z.shiftl_mul_pow2 a n) by done. symmetry. apply Z.add_nocarry_lor.
  apply Z.bits_inj'. intros i Hi. rewrite Z.land_spec, Z.bits_0, Z.shiftl_spec by done.
  destruct (Z.lt_ge_cases i n); [by rewrite Z.testbit_neg_r by lia|].
  rewrite andb_comm, <- (Z.mod_small b (2 ^ n)) by done. by rewrite Z.mod_pow2_bits_high by lia.
Qed.

Lemma pack_low a b n : 0 <= b < 2 ^ n -> wrap n (a * 2 ^ n + b) = b.
Proof. intros Hb. unfold wrap. rewrite Z.add_comm, Z.mod_add by lia. by apply Z.mod_small. Qed.

Lemma pack_high a b n : 0 <= n -> 0 <= b < 2 ^ n -> Z.shiftr (a * 2 ^ n + b) n = a.
Proof. intros Hn Hb. rewrite Z.shiftr_div_pow2, Z.div_add_l, Z.div_small by lia. lia. Qed.

Lemma pack_bounds a b n m : 0 <= n -> 0 <= a < 2 ^ m -> 0 <= b < 2 ^ n -> 0 <= m -> 0 <= a * 2 ^ n + b < 2 ^ (m + n).
Proof. intros Hn Ha Hb Hm. rewrite Z.pow_add_r by done. nia. Qed.

Lemma wrap_lxor n a b : 0 <= n -> wrap n (Z.lxor a b) = Z.lxor (wrap n a) (wrap n b).
Proof.
  intros Hn. apply Z.bits_inj'. intros i Hi. unfold wrap. rewrite Z.lxor_spec.
  destruct (Z.lt_ge_cases i n).
  - rewrite !Z.mod_pow2_bits_low by lia. by rewrite Z.lxor_spec.
  - by rewrite !Z.mod_pow2_bits_high by lia.
Qed.

(** ** Vectors

    A [Vec] or slice of the source is a list indexed by [Z]; an access out of
    range panics in the source and is [None] here. *)

Section vectors.
Context {A : Type}.
Implicit Types (l : list A) (x : A) (i j : Z).

Definition vlen l : Z := Z.of_nat (length l).

Definition vget l i : option A :=
  if i <? 0 then None else l !! Z.to_nat i.

Definition vset l i x : option (list A) :=
  if (0 <=? i) && (i <? vlen l) then Some (<[Z.to_nat i := x]> l) else None.

Definition vupd l i (f : A -> A) : option (list A) :=
  x ← vget l i; vset l i (f x).

(** [&l[a..b]] *)
Definition vslice l (a b : Z) : option (list A) :=
  if (0 <=? a) && (a <=? b) && (b <=? vlen l)
  then Some (take (Z.to_nat (b - a)) (drop (Z.to_nat a) l))
  else None.

Lemma vget_Some_bounds l i x : vget l i = Some x -> 0 <= i < vlen l.
Proof.
  unfold vget, vlen. intros H. case_if_in H; [done|].
  apply lookup_lt_Some in H. lia.
Qed.

Lemma vget_is_Some l i : is_Some (vget l i) <-> 0 <= i < vlen l.
Proof.
  split.
  - intros [x H]. eauto using vget_Some_bounds.
  - intros H. unfold vget, vlen in *. destruct (Z.ltb_spec i 0); [lia|].
    apply lookup_lt_is_Some. lia.
Qed.

Lemma vget_in_range l i : 0 <= i < vlen l -> exists x, vget l i = Some x.
Proof. intros H. by apply vget_is_Some. Qed.

Lemma vget_None l i : ~ 0 <= i < vlen l -> vget l i = None.
Proof.
  intros H. destruct (vget l i) eqn:E; [|done].
  apply vget_Some_bounds in E. lia.
Qed.

Lemma vset_in_range l i x :
  0 <= i < vlen l -> vset l i x = Some (<[Z.to_nat i := x]> l).
Proof.
  intros H. unfold vset.
  destruct (Z.leb_spec 0 i), (Z.ltb_spec i (vlen l)); try lia. done.
Qed.

Lemma vset_total l i x : 0 <= i < vlen l -> exists l', vset l i x = Some l'.
Proof. intros H. rewrite vset_in_range by done. eauto. Qed.

Lemma vget_Forall (P : A -> Prop) l i x : Forall P l -> vget l i = Some x -> P x.
Proof.
  unfold vget. intros HP H. case_if_in H; [done|]. by eapply Forall_lookup_1.
Qed.

Lemma vset_Forall_2 (P : A -> Prop) l l' i x :
  Forall P l -> P x -> vset l i x = Some l' -> Forall P l'.
Proof.
  unfold vset. intros HP Hx H. case_if_in H; simplify_eq. by apply Forall_insert.
Qed.

Lemma vset_Some_bounds l l' i x : vset l i x = Some l' -> 0 <= i < vlen l.
Proof. unfold vset. intros H. case_if_in H; [|done]. lia. Qed.

Lemma vset_len l l' i x : vset l i x = Some l' -> vlen l' = vlen l.
Proof.
  unfold vset. intros H. case_if_in H; simplify_eq. unfold vlen.
  by rewrite length_insert.
Qed.

Lemma vget_vset l l' i j x :
  vset l i x = Some l' ->
  vget l' j = if decide (i = j) then Some x else vget l j.
Proof.
  intros H. pose proof (vset_Some_bounds _ _ _ _ H).
  unfold vset in H. case_if_in H; simplify_eq. unfold vget, vlen in *.
  case_if; case_decide; subst; try lia.
  - done.
  - apply list_lookup_insert_eq. lia.
  - apply list_lookup_insert_ne. lia.
Qed.

Lemma vupd_Some l i f x :
  vget l i = Some x -> vupd l i f = Some (<[Z.to_nat i := f x]> l).
Proof.
  intros H. unfold vupd. rewrite H. simpl. apply vset_in_range.
  eauto using vget_Some_bounds.
Qed.

Lemma vupd_vset l l' i f :
  vupd l i f = Some l' -> exists x, vget l i = Some x /\ vset l i (f x) = Some l'.
Proof.
  unfold vupd. intros H. destruct (vget l i) eqn:E; [|done]. eauto.
Qed.

Lemma vupd_len l l' i f : vupd l i f = Some l' -> vlen l' = vlen l.
Proof. intros (x & _ & H)%vupd_vset. eauto using vset_len. Qed.

Lemma vget_vupd l l' i j f :
  vupd l i f = Some l' ->
  vget l' j = if decide (i = j) then f <$> vget l i else vget l j.
Proof.
  intros (x & Hx & H)%vupd_vset. rewrite (vget_vset _ _ _ _ _ H), Hx. done.
Qed.

Lemma vlen_app l1 l2 : vlen (l1 ++ l2) = vlen l1 + vlen l2.
Proof. unfold vlen. rewrite length_app. lia. Qed.

Lemma vlen_nonneg l : 0 <= vlen l.
Proof. unfold vlen. lia. Qed.

Lemma vget_app_l l1 l2 i : i < vlen l1 -> vget (l1 ++ l2) i = vget l1 i.
Proof.
  unfold vget, vlen. intros H. case_if; [done|]. apply lookup_app_l. lia.
Qed.

Lemma vget_app_r l1 l2 i :
  vlen l1 <= i -> vget (l1 ++ l2) i = vget l2 (i - vlen l1).
Proof.
  unfold vget, vlen. intros H.
  destruct (Z.ltb_spec i 0), (Z.ltb_spec (i - Z.of_nat (length l1)) 0); try lia.
  rewrite lookup_app_r by lia. f_equal. lia.
Qed.

Lemma vget_snoc l x i :
  vget (l ++ [x]) i = if decide (i = vlen l) then Some x else vget l i.
Proof.
  case_decide as E.
  - rewrite vget_app_r by lia. subst. by rewrite Z.sub_diag.
  - destruct (Z_lt_le_dec i (vlen l)).
    + by apply vget_app_l.
    + rewrite vget_app_r by lia. rewrite (vget_None l) by lia.
      apply vget_None. unfold vlen in *. simpl. lia.
Qed.

Lemma vget_replicate n x i : 0 <= i < Z.of_nat n -> vget (replicate n x) i = Some x.
Proof.
  intros H. unfold vget. destruct (Z.ltb_spec i 0); [lia|].
  apply lookup_replicate. split; [done|lia].
Qed.

Lemma vlen_replicate n x : vlen (replicate n x) = Z.of_nat n.
Proof. unfold vlen. by rewrite length_replicate. Qed.

Lemma list_vget_eq l1 l2 :
  vlen l1 = vlen l2 -> (forall i, 0 <= i < vlen l1 -> vget l1 i = vget l2 i) -> l1 = l2.
Proof.
  unfold vlen. intros Hlen H. apply list_eq. intros i.
  destruct (decide (i < length l1)%nat).
  - specialize (H (Z.of_nat i) ltac:(lia)). unfold vget in H.
    destruct (Z.ltb_spec (Z.of_nat i) 0); [lia|]. by rewrite Nat2Z.id in H.
  - rewrite !lookup_ge_None_2 by lia. done.
Qed.

Lemma vslice_Some l a b :
  0 <= a <= b -> b <= vlen l ->
  vslice l a b = Some (take (Z.to_nat (b - a)) (drop (Z.to_nat a) l)).
Proof.
  intros. unfold vslice.
  destruct (Z.leb_spec 0 a), (Z.leb_spec a b), (Z.leb_spec b (vlen l)); try lia. done.
Qed.

Lemma vslice_len l l' a b : vslice l a b = Some l' -> vlen l' = b - a.
Proof.
  unfold vslice, vlen. intros H. case_if_in H; simplify_eq.
  rewrite length_take, length_drop. unfold vlen in *. lia.
Qed.
End vectors.

#[export] Hint Resolve vget_Some_bounds vlen_nonneg : netsys.

Lemma elem_of_snoc {A} (l : list A) x y : x ∈ l ++ [y] <-> x ∈ l \/ x = y.
Proof. by rewrite elem_of_app, list_elem_of_singleton. Qed.

(** The indices [a, a+1, ..., a+n-1]. *)
Fixpoint zseq (a : Z) (n : nat) : list Z :=
  match n with
  | O => []
  | S n => a :: zseq (a + 1) n
  end.

Lemma elem_of_zseq a n i : i ∈ zseq a n <-> a <= i < a + Z.of_nat n.
Proof.
  revert a. induction n as [|n IH]; intros a; simpl.
  - split; [by intros ?%not_elem_of_nil|lia].
  - rewrite elem_of_cons, IH. lia.
Qed.

Lemma length_zseq a n : length (zseq a n) = n.
Proof. revert a. induction n; intros; simpl; auto. Qed.

Lemma lookup_zseq_lt a n i : (i < n)%nat -> zseq a n !! i = Some (a + Z.of_nat i).
Proof.
  revert a i. induction n as [|n IH]; intros a i Hi; [lia|].
  destruct i as [|i]; simpl; [f_equal; lia|]. rewrite IH by lia. f_equal. lia.
Qed.

Lemma zseq_NoDup a n : NoDup (zseq a n).
Proof.
  revert a. induction n as [|n IH]; intros a; simpl; constructor; auto.
  rewrite elem_of_zseq. lia.
Qed.

Lemma zseq_app a n m : zseq a (n + m) = zseq a n ++ zseq (a + Z.of_nat n) m.
Proof.
  revert a. induction n as [|n IH]; intros a.
  - simpl. f_equal. lia.
  - cbn [Nat.add zseq app]. rewrite IH. do 3 f_equal. lia.
Qed.

Lemma zseq_sorted a n : StronglySorted Z.lt (zseq a n).
Proof.
  revert a. induction n as [|n IH]; intros a; simpl; constructor; auto.
  apply Forall_forall. intros i Hi%elem_of_zseq. lia.
Qed.

Lemma StronglySorted_filter {A} (R : A -> A -> Prop) (P : A -> Prop)
    `{!forall x, Decision (P x)} (l : list A) :
  StronglySorted R l -> StronglySorted R (filter P l).
Proof.
  induction 1 as [|x l Hs IH Hx]; [constructor|].
  rewrite filter_cons. case_decide; [|done]. constructor; [done|].
  apply Forall_forall. intros y [_ Hy]%list_elem_of_filter.
  rewrite Forall_forall in Hx. auto.
Qed.

Lemma length_filter_fmap_iff {A B} (P : B -> Prop) (Q : A -> Prop) (f : A -> B)
    `{!forall x, Decision (P x)} `{!forall x, Decision (Q x)} (l : list A) :
  (forall x, x ∈ l -> P (f x) <-> Q x) -> length (filter P (f <$> l)) = length (filter Q l).
Proof.
  induction l as [|x l IH]; intros Hx; [done|].
  assert (P (f x) <-> Q x) as HPQ by (apply Hx; left).
  assert (length (filter P (f <$> l)) = length (filter Q l)) as HI.
  { apply IH. intros y Hy. apply Hx. by right. }
  cbn [fmap list_fmap]. rewrite !filter_cons.
  do 2 case_decide; cbn [length]; [by rewrite HI|tauto|tauto|done].
Qed.

Lemma zseq_snoc a n : zseq a (S n) = zseq a n ++ [a + Z.of_nat n].
Proof. replace (S n) with (n + 1)%nat by lia. rewrite zseq_app. done. Qed.

(** ** Scans

    [least_from P k p]: [p] is the first position from [k] on where [P] holds. *)

Definition least_from (P : Z -> bool) (start : Z) (p : Z) : Prop :=
  start <= p /\ P p = true /\ forall q, start <= q < p -> P q = false.

Lemma filter_none {A} (P : A -> Prop) `{!forall x, Decision (P x)} (l : list A) :
  (forall x, x ∈ l -> ~ P x) -> filter P l = [].
Proof.
  induction l as [|x l IH]; intros Hn; [done|].
  rewrite filter_cons_False by (apply Hn; left). apply IH. intros. apply Hn. by right.
Qed.

(** The positions of [k, k+n) where [P] holds, in increasing order. *)
Definition sel (P : Z -> bool) (k : Z) (n : nat) : list Z :=
  filter (fun i => P i = true) (zseq k n).

Lemma elem_of_sel P k n i : i ∈ sel P k n <-> P i = true /\ k <= i < k + Z.of_nat n.
Proof. unfold sel. by rewrite list_elem_of_filter, elem_of_zseq. Qed.

Lemma sel_sorted P k n : StronglySorted Z.lt (sel P k n).
Proof. apply StronglySorted_filter, zseq_sorted. Qed.

Lemma sel_least P k n p :
  least_from P k p -> p < k + Z.of_nat n ->
  sel P k n = p :: sel P (p + 1) (Z.to_nat (k + Z.of_nat n - p - 1)).
Proof.
  intros (H1 & H2 & H3) Hp. unfold sel.
  replace n with (Z.to_nat (p - k) + S (Z.to_nat (k + Z.of_nat n - p - 1)))%nat at 1 by lia.
  rewrite zseq_app, filter_app, filter_none.
  - cbn [app zseq]. replace (k + Z.of_nat (Z.to_nat (p - k))) with p by lia.
    by rewrite filter_cons_True.
  - intros q Hq. apply elem_of_zseq in Hq. rewrite H3 by lia. done.
Qed.

Lemma sel_none P k n :
  (forall q, k <= q < k + Z.of_nat n -> P q = false) -> sel P k n = [].
Proof.
  intros H. apply filter_none. intros q Hq%elem_of_zseq. rewrite H by lia. done.
Qed.

(** [std::iter::successors], run for at most [fuel] elements. *)
Fixpoint successors (fuel : nat) (next : Z -> option Z) (cur : option Z) : list Z :=
  match fuel, cur with
  | S fuel, Some c => c :: successors fuel next (next c)
  | _, _ => []
  end.

(** An iterator that looks for the next position where [P] holds enumerates
    exactly those positions. *)
Lemma successors_sel P hi (next_from : Z -> option Z) (next : Z -> option Z) fuel k :
  (forall k, 0 <= k -> match next_from k with
                       | Some p => least_from P k p /\ p < hi
                       | None => forall q, k <= q < hi -> P q = false end) ->
  (forall p, next p = match checked_add 64 p 1 with
                      | Some s => next_from s | None => None end) ->
  hi <= 2 ^ 64 -> 0 <= k <= hi -> hi - k <= Z.of_nat fuel ->
  successors fuel next (next_from k) = sel P k (Z.to_nat (hi - k)).
Proof.
  intros Hfrom Hnext Hhi. revert k. induction fuel as [|fuel IH]; intros k Hk Hf.
  { replace (Z.to_nat _) with O by lia. done. }
  pose proof (Hfrom k ltac:(lia)) as Hn.
  cbn [successors]. destruct (next_from k) as [p|].
  - destruct Hn as [Hl Hp]. pose proof Hl as (Hp1 & _ & _).
    rewrite (sel_least P k _ p) by (done || lia). f_equal.
    replace (k + _ - p - 1) with (hi - (p + 1)) by lia.
    rewrite Hnext. unfold checked_add. case_if.
    + apply IH; lia.
    + replace (Z.to_nat _) with O by lia. by destruct fuel.
  - rewrite sel_none; [done|]. intros. apply Hn. lia.
Qed.

(** ** Bytes and wire integers *)

Definition is_byte (b : Z) : Prop := 0 <= b < 256.
Definition bytes_ok (l : list Z) : Prop := Forall is_byte l.

(** [from_be_bytes] *)
Fixpoint be_combine_acc (acc : Z) (l : list Z) : Z :=
  match l with
  | [] => acc
  | b :: l => be_combine_acc (acc * 256 + b) l
  end.
Definition be_combine (l : list Z) : Z := be_combine_acc 0 l.

(** [to_be_bytes] of an [n]-byte integer. *)
Fixpoint be_split (n : nat) (z : Z) : list Z :=
  match n with
  | O => []
  | S n => Z.shiftr z (8 * Z.of_nat n) mod 256 :: be_split n z
  end.

(** [from_le_bytes] and [to_le_bytes] *)
Fixpoint le_combine (l : list Z) : Z :=
  match l with
  | [] => 0
  | b :: l => b + 256 * le_combine l
  end.

Fixpoint le_split (n : nat) (z : Z) : list Z :=
  match n with
  | O => []
  | S n => z mod 256 :: le_split n (z / 256)
  end.

Lemma be_combine_acc_shift acc l :
  be_combine_acc acc l = acc * 256 ^ Z.of_nat (length l) + be_combine l.
Proof.
  unfold be_combine. revert acc. induction l as [|b l IH]; intros acc; simpl length.
  - simpl. lia.
  - cbn [be_combine_acc]. rewrite IH, (IH (0 * 256 + b)).
    rewrite Nat2Z.inj_succ, Z.pow_succ_r by lia. lia.
Qed.

Lemma be_combine_cons b l :
  be_combine (b :: l) = b * 256 ^ Z.of_nat (length l) + be_combine l.
Proof. unfold be_combine at 1. cbn [be_combine_acc]. rewrite be_combine_acc_shift. lia. Qed.

Lemma be_split_length n z : length (be_split n z) = n.
Proof. induction n; simpl; auto. Qed.

Lemma be_split_bytes n z : bytes_ok (be_split n z).
Proof.
  induction n; simpl; constructor; auto. apply Z.mod_pos_bound. lia.
Qed.

Lemma be_combine_bound l :
  bytes_ok l -> 0 <= be_combine l < 256 ^ Z.of_nat (length l).
Proof.
  induction 1 as [|b l Hb Hl IH]; [done|].
  rewrite be_combine_cons. simpl length.
  rewrite Nat2Z.inj_succ, Z.pow_succ_r by lia. unfold is_byte in Hb. nia.
Qed.

Lemma be_combine_split n z :
  0 <= z < 256 ^ Z.of_nat n -> be_combine (be_split n z) = z.
Proof.
  enough (forall z, 0 <= z -> be_combine (be_split n z) = z mod 256 ^ Z.of_nat n) as H.
  { intros Hz. rewrite H by lia. apply Z.mod_small. lia. }
  clear z. induction n as [|n IH]; intros z Hz; simpl be_split.
  - by rewrite Z.mod_1_r.
  - rewrite be_combine_cons, be_split_length, IH by done.
    rewrite Z.shiftr_div_pow2 by lia.
    replace (2 ^ (8 * Z.of_nat n)) with (256 ^ Z.of_nat n)
      by (rewrite (Z.pow_mul_r 2 8) by lia; done).
    rewrite Nat2Z.inj_succ, Z.pow_succ_r by lia.
    rewrite (Z.mul_comm 256), Z.rem_mul_r by lia. lia.
Qed.

Lemma le_split_length n z : length (le_split n z) = n.
Proof. revert z. induction n; intros; simpl; auto. Qed.

Lemma le_split_bytes n z : bytes_ok (le_split n z).
Proof.
  revert z. induction n as [|n IH]; intros z; simpl; constructor; [|apply IH].
  apply Z.mod_pos_bound. lia.
Qed.

Lemma le_combine_split n z :
  0 <= z < 256 ^ Z.of_nat n -> le_combine (le_split n z) = z.
Proof.
  revert z. induction n as [|n IH]; intros z.
  - simpl. lia.
  - rewrite Nat2Z.inj_succ, Z.pow_succ_r by lia. intros Hz. cbn [le_split le_combine].
    rewrite IH; zdm.
Qed.

(** ** Updates of a map given by a list *)

Section ListMaps.
Context {V : Type}.
Implicit Types (l : list (Z * V)).

Lemma alter_middle (f : V -> V) k v l1 l2 :
  k ∉ l1.*1 -> alter f k (list_to_map (l1 ++ (k, v) :: l2) : gmap Z V) = list_to_map (l1 ++ (k, f v) :: l2).
Proof.
  induction l1 as [|[k' v'] l1 IH]; cbn; [intros _; apply alter_insert_eq|].
  rewrite not_elem_of_cons. intros [Hne Hk]. by rewrite alter_insert_ne, IH.
Qed.

Lemma delete_middle k v l1 l2 :
  k ∉ l1.*1 -> k ∉ l2.*1 -> delete k (list_to_map (l1 ++ (k, v) :: l2) : gmap Z V) = list_to_map (l1 ++ l2).
Proof.
  induction l1 as [|[k' v'] l1 IH]; cbn.
  - intros _ Hk. apply delete_insert_id. by apply not_elem_of_list_to_map_1.
  - rewrite not_elem_of_cons. intros [Hne Hk] Hk2. by rewrite delete_insert_ne, IH.
Qed.

Lemma insert_middle k v l1 l2 :
  k ∉ l1.*1 -> <[k := v]> (list_to_map (l1 ++ l2) : gmap Z V) = list_to_map (l1 ++ (k, v) :: l2).
Proof.
  induction l1 as [|[k' v'] l1 IH]; cbn; [done|].
  rewrite not_elem_of_cons. intros [Hne Hk]. by rewrite insert_insert_ne, IH by done.
Qed.

Lemma lookup_middle k v l1 l2 : k ∉ l1.*1 -> (list_to_map (l1 ++ (k, v) :: l2) : gmap Z V) !! k = Some v.
Proof.
  induction l1 as [|[k' v'] l1 IH]; cbn; [intros _; apply lookup_insert_eq|].
  rewrite not_elem_of_cons. intros [Hne Hk]. by rewrite lookup_insert_ne, IH.
Qed.
End ListMaps.
