(* ===== verification/Ranges.v ===== *)
(** * Ranges of positions

    Sequence numbers of TCP and positions of a byte FIFO are 32-bit counters
    that wrap.  They are written without wrap-around here: [wr] is the counter
    value of an integer and [win] a window of half the counter space.  The rest
    is the algebra of half-open ranges the two components share: overlap, union,
    and [add_range], which merges a range into a list of separated ones. *)

From S2P Require Import Prelude.

Module Ranges.

Definition wr (x : Z) : Z := wrap 32 x.
Definition win (B x : Z) : Prop := B <= x < B + 2 ^ 31.

(** ** Ranges *)

Definition rng : Type := Z * Z.
Implicit Types (a b c m : rng) (rs : list rng).

Definition valid (B : Z) b : Prop := B <= b.1 < b.2 /\ b.2 < B + 2 ^ 31.
Definition apart a b : Prop := a.2 < b.1 \/ b.2 < a.1.
Definition touch a b : bool := (b.1 <=? a.2) && (a.1 <=? b.2).
Definition hull a b : rng := (Z.min a.1 b.1, Z.max a.2 b.2).
Definition covers rs (x : Z) : Prop := exists b, b ∈ rs /\ b.1 <= x < b.2.

Fixpoint separated rs : Prop := match rs with [] => True | b :: rs => Forall (apart b) rs /\ separated rs end.

Lemma apart_sym a b : apart a b -> apart b a.
Proof. unfold apart. tauto. Qed.

Lemma separated_app rs1 rs2 :
  separated (rs1 ++ rs2) <-> separated rs1 /\ separated rs2 /\ (forall a b, a ∈ rs1 -> b ∈ rs2 -> apart a b).
Proof.
  induction rs1 as [|a rs1 IH]; cbn; [split; [intros; split_and!; try done; intros ?? []%not_elem_of_nil|naive_solver]|].
  rewrite IH, Forall_app, !Forall_forall. split.
  - intros [[H1 H2] (H3 & H4 & H5)]. split_and!; try done. intros c b [->|Hc]%elem_of_cons Hb; auto.
  - intros ((H1 & H2) & H3 & H4). split_and!; try done; intros; apply H4; try done; by constructor.
Qed.

Lemma separated_middle rs1 b rs2 :
  separated (rs1 ++ b :: rs2) <-> separated (rs1 ++ rs2) /\ Forall (apart b) (rs1 ++ rs2).
Proof.
  rewrite !separated_app. cbn. rewrite Forall_app, !Forall_forall. split.
  - intros (H1 & [H2 H3] & H4). split_and!; try done; intros; [apply H4; try done; by right|].
    apply apart_sym, H4; [done|by left].
  - intros ((H1 & H2 & H3) & H4 & H5). split_and!; try done. intros c d Hc [->|Hd]%elem_of_cons; [by apply apart_sym, H4|by apply H3].
Qed.

Lemma touch_hull a b c : a.1 < a.2 -> b.1 < b.2 -> c.1 < c.2 -> touch a b = true -> apart c b -> touch (hull a b) c = touch a c.
Proof.
  unfold touch, hull, apart. cbn. rewrite andb_true_iff, !Z.leb_le. intros Ha Hb Hc [H1 H2] H3. apply eq_bool_prop_intro.
  rewrite !andb_True, !Is_true_true, !Z.leb_le. lia.
Qed.

(** ** Merging a range *)

Definition add_range m rs : list rng :=
  foldr (fun b acc => hull acc b) m (List.filter (touch m) rs) :: List.filter (fun b => negb (touch m b)) rs.

Lemma hull_swap a b c : hull (hull a b) c = hull (hull a c) b.
Proof. unfold hull. cbn. f_equal; lia. Qed.

Lemma foldr_hull_middle m l1 b l2 :
  foldr (fun b acc => hull acc b) m (l1 ++ b :: l2) = foldr (fun b acc => hull acc b) (hull m b) (l1 ++ l2).
Proof.
  induction l1 as [|c l1 IH]; cbn.
  - induction l2 as [|c l2 IH]; cbn; [done|]. by rewrite hull_swap, IH.
  - by rewrite IH.
Qed.

Lemma valid_forall B rs b : Forall (valid B) rs -> b ∈ rs -> b.1 < b.2.
Proof. rewrite Forall_forall. intros H Hb. destruct (H b Hb). lia. Qed.

Lemma add_range_absorb B m rs1 b rs2 :
  valid B m -> Forall (valid B) (rs1 ++ b :: rs2) -> separated (rs1 ++ b :: rs2) -> touch m b = true ->
  add_range m (rs1 ++ b :: rs2) = add_range (hull m b) (rs1 ++ rs2).
Proof.
  intros Hm Hv Hs Ht. apply separated_middle in Hs as [_ Ha]. rewrite Forall_forall in Ha. unfold add_range.
  assert (forall c, In c (rs1 ++ rs2) -> touch (hull m b) c = touch m c) as Ht'.
  { intros c Hc%list_elem_of_In. apply touch_hull; [by destruct Hm as [[? ?] _]| | |done|by apply apart_sym, Ha].
    - apply (valid_forall B _ b Hv). apply elem_of_app. right. apply list_elem_of_here.
    - apply (valid_forall B _ c Hv). apply elem_of_app in Hc as [?|?]; apply elem_of_app; [by left|right; by right]. }
  rewrite (List.filter_ext_in (touch (hull m b)) (touch m)) by done.
  rewrite (List.filter_ext_in (fun c => negb (touch (hull m b) c)) (fun c => negb (touch m c))) by (intros c Hc; by rewrite Ht').
  rewrite !List.filter_app. cbn [List.filter]. rewrite Ht. cbn [negb]. by rewrite foldr_hull_middle.
Qed.

Lemma add_range_none m rs : Forall (fun b => touch m b = false) rs -> add_range m rs = m :: rs.
Proof.
  intros Hn. rewrite Forall_forall in Hn. unfold add_range.
  rewrite (List.filter_ext_in (touch m) (fun _ => false)), (List.filter_ext_in (fun c => negb (touch m c)) (fun _ => true)).
  - clear Hn. assert (List.filter (fun _ : rng => false) rs = [] /\ List.filter (fun _ : rng => true) rs = rs) as [-> ->]; [|done].
    split; induction rs as [|b rs IH]; cbn; congruence.
  - intros c Hc%list_elem_of_In. by rewrite (Hn c Hc).
  - intros c Hc%list_elem_of_In. by rewrite (Hn c Hc).
Qed.

Lemma hull_covers m l x :
  m.1 < m.2 -> Forall (fun b => b.1 < b.2 /\ touch m b = true) l ->
  (foldr (fun b acc => hull acc b) m l).1 <= x < (foldr (fun b acc => hull acc b) m l).2 <-> m.1 <= x < m.2 \/ covers l x.
Proof.
  intros Hm Hl. assert (let h := foldr (fun b acc => hull acc b) m l in h.1 <= m.1 /\ m.2 <= h.2 /\
    (h.1 <= x < h.2 <-> m.1 <= x < m.2 \/ covers l x)) as (_ & _ & H); [|done].
  induction Hl as [|b l [Hb Ht] _ IH]; cbn in *.
  - split_and!; [lia..|]. split; [by left|]. intros [?|(c & []%not_elem_of_nil & _)]. done.
  - destruct (foldr _ m l) as [hl hr]. cbn in *. destruct IH as (I1 & I2 & IH).
    unfold touch in Ht. rewrite andb_true_iff, !Z.leb_le in Ht. split_and!; [lia..|].
    assert (covers (b :: l) x <-> b.1 <= x < b.2 \/ covers l x) as ->.
    { unfold covers. setoid_rewrite elem_of_cons. naive_solver. }
    assert (Z.min hl b.1 <= x < Z.max hr b.2 <-> hl <= x < hr \/ b.1 <= x < b.2) as -> by lia. tauto.
Qed.

Lemma add_range_covers B m rs x :
  m.1 < m.2 -> Forall (valid B) rs -> covers (add_range m rs) x <-> m.1 <= x < m.2 \/ covers rs x.
Proof.
  intros Hm Hv. unfold add_range.
  assert (Forall (fun b => b.1 < b.2 /\ touch m b = true) (List.filter (touch m) rs)) as Hf.
  { apply Forall_forall. intros b [Hb Ht]%list_elem_of_In%List.filter_In. split; [|done].
    apply (valid_forall B rs); [done|by apply list_elem_of_In]. }
  pose proof (hull_covers m _ x Hm Hf) as Hh. set (h := foldr _ m _) in *.
  assert (covers rs x <-> covers (List.filter (touch m) rs) x \/ covers (List.filter (fun b => negb (touch m b)) rs) x) as ->.
  { unfold covers. setoid_rewrite list_elem_of_In. setoid_rewrite List.filter_In. split.
    - intros (b & Hb & Hx). destruct (touch m b) eqn:E; [left|right]; exists b; by rewrite ?E.
    - naive_solver. }
  assert (covers (h :: List.filter (fun b => negb (touch m b)) rs) x <->
    h.1 <= x < h.2 \/ covers (List.filter (fun b => negb (touch m b)) rs) x) as ->.
  { unfold covers. setoid_rewrite elem_of_cons. naive_solver. }
  rewrite Hh. tauto.
Qed.

Lemma hull_valid B m b : valid B m -> valid B b -> valid B (hull m b).
Proof. unfold valid, hull. cbn. lia. Qed.

Lemma touch_false m b : m.1 < m.2 -> b.1 < b.2 -> m.2 < b.1 \/ b.2 < m.1 -> touch m b = false.
Proof. unfold touch. intros ? ? ?. apply andb_false_iff. rewrite !Z.leb_gt. lia. Qed.
Lemma touch_false_inv m b : touch m b = false -> m.2 < b.1 \/ b.2 < m.1.
Proof. unfold touch. rewrite andb_false_iff, !Z.leb_gt. lia. Qed.
Lemma touch_true_inv m b : touch m b = true -> b.1 <= m.2 /\ m.1 <= b.2.
Proof. unfold touch. by rewrite andb_true_iff, !Z.leb_le. Qed.

Lemma add_range_length m rs : (length (add_range m rs) <= S (length rs))%nat.
Proof. unfold add_range. cbn. pose proof (List.filter_length_le (fun b => negb (touch m b)) rs). lia. Qed.


End Ranges.
