(* ===== verification/InfraBitmap.v ===== *)
(** * The growable bitmap ([crates/hammer-infra/src/bitmap.rs])

    [Bitmap.t] is the vector of 64-bit words; a bit beyond the vector reads as
    clear.  Every operation of the source is a definition below.  The word
    scans ([first_clear_from], [next_set_from]) recurse on the words that are
    left, so they need no fuel.

    The theorems describe each operation by the characteristic function
    [is_set]: [set] and [clear] change one bit and report its old value, the
    scans return the least bit they look for, and the iterator produces the
    set bits in increasing order, [count_set] many. *)

From S2P Require Import Prelude.

Module Bitmap.

(** ** Data and operations *)

Record t := mk { words : list Z }.

Definition words_for (bits : Z) : Z := (bits + 63) / 64.

Definition new : t := mk [].

Definition with_capacity (bits : Z) : t := mk (replicate (Z.to_nat (words_for bits)) 0).

(** [u64::count_ones] and [u64::trailing_zeros]. *)
Definition count_ones (w : Z) : Z := vlen (filter (fun i => Z.testbit w i = true) (zseq 0 64)).

Fixpoint trailing_zeros_from (n : nat) (i w : Z) : Z :=
  match n with
  | O => i
  | S n => if Z.testbit w i then i else trailing_zeros_from n (i + 1) w
  end.

Definition trailing_zeros (w : Z) : Z := trailing_zeros_from 64 0 w.

Definition count_set (b : t) : Z := foldr Z.add 0 (count_ones <$> words b).

Definition is_empty (b : t) : bool := forallb (fun w => w =? 0) (words b).

Definition clear_all (b : t) : t := mk ((fun _ => 0) <$> words b).

Definition ensure_bit (b : t) (bit : Z) : t :=
  let required := bit / 64 + 1 in
  if required <=? vlen (words b) then b
  else mk (words b ++ replicate (Z.to_nat (required - vlen (words b))) 0).

Definition bit_mask (bit : Z) : Z := Z.shiftl 1 (bit mod 64).

(** Returns the bitmap and whether the bit was newly set. *)
Definition set (b : t) (bit : Z) : option (t * bool) :=
  let b := ensure_bit b bit in
  let word := bit / 64 in
  let mask := bit_mask bit in
  w ← vget (words b) word;
  let was_set := negb (Z.land w mask =? 0) in
  ws ← vset (words b) word (Z.lor w mask);
  Some (mk ws, negb was_set).

(** Returns the bitmap and whether the bit was set before. *)
Definition clear (b : t) (bit : Z) : option (t * bool) :=
  let word := bit / 64 in
  if vlen (words b) <=? word then Some (b, false) else
  let mask := bit_mask bit in
  w ← vget (words b) word;
  let was_set := negb (Z.land w mask =? 0) in
  ws ← vset (words b) word (Z.land w (wnot 64 mask));
  Some (mk ws, was_set).

Definition is_set (b : t) (bit : Z) : bool :=
  match vget (words b) (bit / 64) with
  | None => false
  | Some w => negb (Z.land w (bit_mask bit) =? 0)
  end.

Definition saturating_mul (w a b : Z) : Z := Z.min (2 ^ w - 1) (a * b).

Definition clear_hit (word_index available limit : Z) : option Z :=
  let position :=
    saturating_add 64 (saturating_mul 64 word_index 64) (trailing_zeros available) in
  if position <? limit then Some position else None.

Fixpoint clear_scan (rest : list Z) (word_index available limit : Z) : option Z :=
  if negb (available =? 0) then clear_hit word_index available limit
  else
    word_index ← checked_add 64 word_index 1;
    match rest with
    | [] => clear_hit word_index (wnot 64 0) limit
    | w :: rest => clear_scan rest word_index (wnot 64 w) limit
    end.

Definition first_clear_from (b : t) (start limit : Z) : option Z :=
  if limit <=? start then None else
  let word_index := start / 64 in
  let bit_in_word := start mod 64 in
  let available := wnot 64 (default 0 (vget (words b) word_index)) in
  let available := Z.land available (wrap 64 (Z.shiftl (Z.ones 64) bit_in_word)) in
  clear_scan (drop (Z.to_nat (word_index + 1)) (words b)) word_index available limit.

Definition next_clear_after (b : t) (index limit : Z) : option Z :=
  start ← checked_add 64 index 1;
  first_clear_from b start limit.

Fixpoint set_scan (rest : list Z) (word_index word : Z) : option Z :=
  if negb (word =? 0) then Some (word_index * 64 + trailing_zeros word)
  else
    match rest with
    | [] => None
    | w :: rest => set_scan rest (word_index + 1) w
    end.

Definition next_set_from (b : t) (bit : Z) : option Z :=
  let word_index := bit / 64 in
  match vget (words b) word_index with
  | None => None
  | Some w =>
      let word := Z.land w (wrap 64 (Z.shiftl (Z.ones 64) (bit mod 64))) in
      set_scan (drop (Z.to_nat (word_index + 1)) (words b)) word_index word
  end.

Definition first_set (b : t) : option Z := next_set_from b 0.

Definition next_set (b : t) (index : Z) : option Z :=
  next ← checked_add 64 index 1;
  next_set_from b next.

(** The iterator [SetBits]: [iter_next] is one call of [next]; [iter_collect]
    drains it.  There are at most 64 bits per word, which bounds the fuel. *)
Definition iter_next (b : t) (next : option Z) : option (Z * option Z) :=
  current ← next;
  Some (current, next_set b current).

Fixpoint iter_collect (fuel : nat) (b : t) (next : option Z) : list Z :=
  match fuel with
  | O => []
  | S fuel =>
      match iter_next b next with
      | None => []
      | Some (current, next) => current :: iter_collect fuel b next
      end
  end.

Definition iter_set (b : t) : list Z :=
  iter_collect (64 * length (words b)) b (first_set b).

(** ** Invariant and word-level lemmas *)

Definition wf (b : t) : Prop := Forall (in_word 64) (words b).

Lemma mask_land_eqb w k :
  0 <= k -> negb (Z.land w (Z.shiftl 1 k) =? 0) = Z.testbit w k.
Proof.
  intros Hk. rewrite Z.shiftl_1_l.
  destruct (Z.testbit w k) eqn:E.
  - apply negb_true_iff, Z.eqb_neq. intros H.
    assert (Z.testbit (Z.land w (2 ^ k)) k = false) as H' by (rewrite H; apply Z.testbit_0_l).
    rewrite Z.land_spec, E, Z.pow2_bits_true in H' by lia. done.
  - apply negb_false_iff, Z.eqb_eq, Z.bits_inj'. intros i Hi.
    rewrite Z.testbit_0_l, Z.land_spec, Z.pow2_bits_eqb by lia.
    destruct (Z.eqb_spec k i); subst; rewrite ?E; auto using andb_false_r.
Qed.

Lemma bitmap_is_set_testbit b i :
  is_set b i = match vget (words b) (i / 64) with
               | Some w => Z.testbit w (i mod 64) | None => false end.
Proof.
  unfold is_set, bit_mask. destruct (vget _ _); [|done].
  apply mask_land_eqb. apply Z.mod_pos_bound. lia.
Qed.

Lemma bit_split_eq i j : i / 64 = j / 64 -> i mod 64 = j mod 64 -> i = j.
Proof. intros. zdm. Qed.

Lemma in_word_testbit_high w x i : in_word w x -> 0 <= w <= i -> Z.testbit x i = false.
Proof.
  intros [H1 H2] Hw. destruct (Z.eq_dec x 0) as [->|]; [apply Z.testbit_0_l|].
  apply Z.bits_above_log2; [lia|]. apply Z.log2_lt_pow2; [lia|].
  eapply Z.lt_le_trans; [exact H2|]. apply Z.pow_le_mono_r; lia.
Qed.

Lemma in_word_of_testbit w x :
  0 <= w -> 0 <= x -> (forall i, w <= i -> Z.testbit x i = false) -> in_word w x.
Proof.
  intros Hw Hx H. split; [done|].
  destruct (Z.eq_dec x 0); [subst; lia|].
  apply Z.log2_lt_pow2; [lia|].
  destruct (Z_lt_le_dec (Z.log2 x) w); [done|].
  specialize (H (Z.log2 x) l). rewrite Z.bit_log2 in H by lia. done.
Qed.

Lemma wnot_word w x : 0 <= w -> 0 <= x -> in_word w (wnot w x).
Proof.
  intros Hw Hx. apply in_word_of_testbit; [done| |].
  - unfold wnot. apply Z.ldiff_nonneg. left. rewrite Z.ones_equiv. lia.
  - intros i Hi. rewrite wnot_testbit by lia.
    destruct (Z.ltb_spec i w); [lia|done].
Qed.

Lemma land_word w x y : in_word w x -> 0 <= w -> 0 <= y -> in_word w (Z.land x y).
Proof.
  intros Hx Hw Hy. apply in_word_of_testbit; [done| |].
  - apply Z.land_nonneg. left. apply Hx.
  - intros i Hi. rewrite Z.land_spec, (in_word_testbit_high w) by done. done.
Qed.

Lemma lor_word w x y : in_word w x -> 0 <= w -> in_word w y -> in_word w (Z.lor x y).
Proof.
  intros Hx Hw Hy. apply in_word_of_testbit; [done| |].
  - apply Z.lor_nonneg. split; [apply Hx|apply Hy].
  - intros i Hi. rewrite Z.lor_spec, !(in_word_testbit_high w) by done. done.
Qed.

Lemma bit_mask_word bit : in_word 64 (bit_mask bit).
Proof.
  unfold bit_mask. rewrite Z.shiftl_1_l.
  pose proof (Z.mod_pos_bound bit 64 ltac:(lia)).
  split; [lia|]. apply Z.pow_lt_mono_r; lia.
Qed.

Lemma bit_mask_testbit bit i :
  0 <= i -> Z.testbit (bit_mask bit) i = (bit mod 64 =? i).
Proof.
  intros Hi. unfold bit_mask. rewrite Z.shiftl_1_l.
  pose proof (Z.mod_pos_bound bit 64 ltac:(lia)).
  apply Z.pow2_bits_eqb. lia.
Qed.

(** The mask [!0u64 << k] keeps the bits from [k] on. *)
Lemma high_mask_testbit k i :
  0 <= k -> 0 <= i < 64 ->
  Z.testbit (wrap 64 (Z.shiftl (Z.ones 64) k)) i = (k <=? i).
Proof.
  intros Hk Hi. unfold wrap. rewrite Z.mod_pow2_bits_low, Z.shiftl_spec by lia.
  destruct (Z.leb_spec k i).
  - apply Z.ones_spec_low. lia.
  - apply Z.testbit_neg_r. lia.
Qed.

Lemma high_mask_nonneg k : 0 <= wrap 64 (Z.shiftl (Z.ones 64) k).
Proof. apply wrap_bounds. lia. Qed.

Lemma trailing_zeros_from_spec n i w :
  let p := trailing_zeros_from n i w in
  i <= p <= i + Z.of_nat n /\
  (forall j, i <= j < p -> Z.testbit w j = false) /\
  (p < i + Z.of_nat n -> Z.testbit w p = true).
Proof.
  revert i. induction n as [|n IH]; intros i; cbn [trailing_zeros_from].
  - repeat split; intros; lia.
  - destruct (Z.testbit w i) eqn:E.
    + repeat split; intros; try lia. done.
    + destruct (IH (i + 1)) as (H1 & H2 & H3). split; [lia|]. split.
      * intros j Hj. destruct (Z.eq_dec i j); [by subst|]. apply H2. lia.
      * intros Hp. apply H3. lia.
Qed.

Lemma trailing_zeros_spec w :
  in_word 64 w -> w <> 0 ->
  0 <= trailing_zeros w < 64 /\ Z.testbit w (trailing_zeros w) = true /\
  (forall j, 0 <= j < trailing_zeros w -> Z.testbit w j = false).
Proof.
  intros Hw Hnz. destruct (trailing_zeros_from_spec 64 0 w) as (H1 & H2 & H3).
  fold (trailing_zeros w) in *.
  assert (trailing_zeros w < 64) as Hlt.
  { destruct (Z_lt_le_dec (trailing_zeros w) 64); [done|]. exfalso. apply Hnz.
    apply Z.bits_inj'. intros i Hi. rewrite Z.testbit_0_l.
    destruct (Z_lt_le_dec i 64); [apply H2; lia|].
    by apply (in_word_testbit_high 64). }
  repeat split; try lia; [apply H3; lia|auto].
Qed.

Lemma word_zero_bits w i : w = 0 -> Z.testbit w i = false.
Proof. intros ->. apply Z.testbit_0_l. Qed.

Lemma bitmap_wf_word b i w : wf b -> vget (words b) i = Some w -> in_word 64 w.
Proof.
  unfold wf, vget. intros Hwf H. case_if_in H; [done|].
  eapply Forall_lookup_1; eauto.
Qed.

Lemma vset_Forall {A} (P : A -> Prop) (l l' : list A) i x :
  Forall P l -> P x -> vset l i x = Some l' -> Forall P l'.
Proof.
  intros Hl Hx H. unfold vset in H. case_if_in H; simplify_eq. by apply Forall_insert.
Qed.

(** ** [set], [clear], [ensure_bit] *)

Lemma ensure_bit_is_set b bit i : is_set (ensure_bit b bit) i = is_set b i.
Proof.
  unfold ensure_bit. case_if; [done|].
  rewrite !bitmap_is_set_testbit. cbn [words].
  destruct (Z_lt_le_dec (i / 64) (vlen (words b))).
  - by rewrite vget_app_l.
  - rewrite vget_app_r, (vget_None (words b)) by lia.
    destruct (vget (replicate _ _) _) as [w|] eqn:E'; [|done].
    pose proof (vget_Some_bounds _ _ _ E') as Hb. rewrite vlen_replicate in Hb.
    rewrite vget_replicate in E' by lia. simplify_eq. apply Z.testbit_0_l.
Qed.

Lemma ensure_bit_wf b bit : wf b -> wf (ensure_bit b bit).
Proof.
  intros Hb. unfold ensure_bit. case_if; [done|].
  apply Forall_app. split; [done|]. apply Forall_replicate. split; [done|reflexivity].
Qed.

Lemma ensure_bit_range b bit :
  0 <= bit -> 0 <= bit / 64 < vlen (words (ensure_bit b bit)).
Proof.
  intros Hb. assert (0 <= bit / 64) by (apply Z.div_pos; lia). split; [done|].
  unfold ensure_bit. case_if; [lia|]. cbn [words].
  rewrite vlen_app, vlen_replicate. lia.
Qed.

(** Updating one word of the vector through a per-bit description. *)
Lemma is_set_vset b ws bit w w' :
  vget (words b) (bit / 64) = Some w ->
  vset (words b) (bit / 64) w' = Some ws ->
  forall i, is_set (mk ws) i =
    if decide (i / 64 = bit / 64) then Z.testbit w' (i mod 64) else is_set b i.
Proof.
  intros Hw Hs i. rewrite !bitmap_is_set_testbit. cbn [words].
  rewrite (vget_vset _ _ _ _ _ Hs).
  destruct (decide (bit / 64 = i / 64)), (decide (i / 64 = bit / 64)); congruence.
Qed.

Lemma bitmap_set_total b bit :
  wf b -> 0 <= bit ->
  exists b', set b bit = Some (b', negb (is_set b bit)) /\ wf b' /\
    forall i, is_set b' i = if decide (i = bit) then true else is_set b i.
Proof.
  intros Hwf Hbit. unfold set.
  pose proof (ensure_bit_range b bit Hbit) as Hr.
  pose proof (ensure_bit_wf b bit Hwf) as Hwf'.
  destruct (vget_in_range _ _ Hr) as [w Hw]. rewrite Hw. cbn [mbind option_bind].
  rewrite vset_in_range by done. cbn [mbind option_bind].
  eexists. split; [do 3 f_equal|split].
  - rewrite <- (ensure_bit_is_set b bit). unfold is_set. rewrite Hw. done.
  - unfold wf. cbn [words]. apply Forall_insert; [done|].
    apply lor_word; [eauto using bitmap_wf_word|lia|apply bit_mask_word].
  - intros i. erewrite is_set_vset; [|exact Hw|by apply vset_in_range].
    rewrite (ensure_bit_is_set b bit i).
    pose proof (Z.mod_pos_bound i 64 ltac:(lia)).
    rewrite Z.lor_spec, bit_mask_testbit by lia.
    destruct (decide (i / 64 = bit / 64)) as [E|E], (decide (i = bit)) as [E2|E2];
      subst; try done.
    + by rewrite Z.eqb_refl, orb_true_r.
    + destruct (Z.eqb_spec (bit mod 64) (i mod 64)); [by destruct E2; apply bit_split_eq|].
      rewrite orb_false_r, <- (ensure_bit_is_set b bit i), bitmap_is_set_testbit, E, Hw. done.
Qed.

Lemma bitmap_clear_total b bit :
  wf b -> 0 <= bit ->
  exists b', clear b bit = Some (b', is_set b bit) /\ wf b' /\
    vlen (words b') = vlen (words b) /\
    forall i, is_set b' i = if decide (i = bit) then false else is_set b i.
Proof.
  intros Hwf Hbit. unfold clear.
  assert (0 <= bit / 64) by (apply Z.div_pos; lia).
  destruct (Z.leb_spec (vlen (words b)) (bit / 64)) as [Hge|Hlt].
  { assert (is_set b bit = false) as Hf.
    { unfold is_set. by rewrite vget_None by lia. }
    exists b. rewrite Hf. split; [done|]. split; [done|]. split; [done|].
    intros i. case_decide; [by subst|done]. }
  destruct (vget_in_range (words b) (bit / 64) ltac:(lia)) as [w Hw].
  rewrite Hw. cbn [mbind option_bind].
  rewrite vset_in_range by lia. cbn [mbind option_bind].
  eexists. split; [do 3 f_equal|split; [|split]].
  - unfold is_set. by rewrite Hw.
  - unfold wf. cbn [words]. apply Forall_insert; [done|].
    apply land_word; [eauto using bitmap_wf_word|lia|].
    apply wnot_word; [lia|apply bit_mask_word].
  - cbn [words]. unfold vlen. by rewrite length_insert.
  - intros i. erewrite is_set_vset; [|exact Hw|apply vset_in_range; lia].
    pose proof (Z.mod_pos_bound i 64 ltac:(lia)).
    rewrite Z.land_spec, wnot_testbit, bit_mask_testbit by lia.
    destruct (Z.ltb_spec (i mod 64) 64); [|lia].
    destruct (decide (i / 64 = bit / 64)) as [E|E], (decide (i = bit)) as [E2|E2];
      subst; try done.
    + by rewrite Z.eqb_refl, andb_false_r.
    + destruct (Z.eqb_spec (bit mod 64) (i mod 64)); [by destruct E2; apply bit_split_eq|].
      rewrite andb_true_r, bitmap_is_set_testbit, E, Hw. done.
Qed.

(** ** The word scans *)

Lemma is_set_word b i w :
  vget (words b) (i / 64) = Some w -> is_set b i = Z.testbit w (i mod 64).
Proof. intros H. by rewrite bitmap_is_set_testbit, H. Qed.

Lemma is_set_beyond b i : 64 * vlen (words b) <= i -> is_set b i = false.
Proof.
  intros H. rewrite bitmap_is_set_testbit, vget_None; [done|]. zdm.
Qed.

Lemma drop_cons_vget {A} (l : list A) (k : Z) x rest :
  0 <= k -> drop (Z.to_nat k) l = x :: rest ->
  vget l k = Some x /\ drop (Z.to_nat (k + 1)) l = rest.
Proof.
  intros Hk Hd. split.
  - unfold vget. destruct (Z.ltb_spec k 0); [lia|].
    rewrite <- (Nat.add_0_r (Z.to_nat k)), <- lookup_drop, Hd. done.
  - replace (Z.to_nat (k + 1)) with (Z.to_nat k + 1)%nat by lia.
    rewrite <- drop_drop, Hd. done.
Qed.

Lemma drop_nil_vlen {A} (l : list A) (k : Z) :
  0 <= k -> drop (Z.to_nat k) l = [] -> vlen l <= k.
Proof.
  intros Hk Hd. apply (f_equal length) in Hd. rewrite length_drop in Hd.
  unfold vlen. simpl in Hd. lia.
Qed.

(** The bits of word [k] at or above [lo], as positions of the bitmap. *)
Lemma scan_word_hit (P : Z -> bool) start k word :
  0 <= k -> in_word 64 word -> word <> 0 ->
  (forall q, start <= q < 64 * k -> P q = false) ->
  (forall i, 0 <= i < 64 ->
     Z.testbit word i = (start <=? 64 * k + i) && P (64 * k + i)) ->
  start < 64 * k + 64 ->
  least_from P start (k * 64 + trailing_zeros word).
Proof.
  intros Hk Hw Hnz Hbelow Hbits Hstart.
  destruct (trailing_zeros_spec word Hw Hnz) as (Hr & Ht & Hmin).
  rewrite Hbits in Ht by lia. bool_prop.
  rewrite (Z.mul_comm k). split; [done|split; [done|]].
  intros q Hq. destruct (Z_lt_le_dec q (64 * k)); [apply Hbelow; lia|].
  specialize (Hmin (q - 64 * k) ltac:(lia)). rewrite Hbits in Hmin by lia.
  replace (64 * k + (q - 64 * k)) with q in Hmin by lia.
  destruct (Z.leb_spec start q); [|lia]. done.
Qed.

Lemma scan_word_miss (P : Z -> bool) start k word :
  word = 0 ->
  (forall q, start <= q < 64 * k -> P q = false) ->
  (forall i, 0 <= i < 64 ->
     Z.testbit word i = (start <=? 64 * k + i) && P (64 * k + i)) ->
  forall q, start <= q < 64 * (k + 1) -> P q = false.
Proof.
  intros -> Hbelow Hbits q Hq.
  destruct (Z_lt_le_dec q (64 * k)); [apply Hbelow; lia|].
  specialize (Hbits (q - 64 * k) ltac:(lia)). rewrite Z.testbit_0_l in Hbits.
  replace (64 * k + (q - 64 * k)) with q in Hbits by lia.
  destruct (Z.leb_spec start q); [|lia]. by destruct (P q).
Qed.

Lemma block_index k i : 0 <= i < 64 -> (64 * k + i) / 64 = k /\ (64 * k + i) mod 64 = i.
Proof. intros. split; zdm. Qed.

Lemma set_scan_spec b start rest k word :
  wf b -> 0 <= k -> in_word 64 word ->
  rest = drop (Z.to_nat (k + 1)) (words b) ->
  start < 64 * k + 64 ->
  (forall q, start <= q < 64 * k -> is_set b q = false) ->
  (forall i, 0 <= i < 64 ->
     Z.testbit word i = (start <=? 64 * k + i) && is_set b (64 * k + i)) ->
  match set_scan rest k word with
  | Some p => least_from (is_set b) start p
  | None => forall q, start <= q -> is_set b q = false
  end.
Proof.
  intros Hwf. revert k word. induction rest as [|w rest IH];
    intros k word Hk Hword Hrest Hstart Hbelow Hbits; cbn [set_scan];
    destruct (Z.eqb_spec word 0) as [Hz|Hz]; cbn [negb].
  - symmetry in Hrest. apply drop_nil_vlen in Hrest; [|lia].
    intros q Hq. destruct (Z_lt_le_dec q (64 * (k + 1))).
    + eapply scan_word_miss; eauto.
    + apply is_set_beyond. lia.
  - eapply scan_word_hit; eauto.
  - symmetry in Hrest. apply drop_cons_vget in Hrest as [Hw Hrest]; [|lia].
    apply IH; eauto; try lia.
    + eapply bitmap_wf_word; eauto.
    + eapply scan_word_miss; eauto.
    + intros i Hi. destruct (block_index (k + 1) i Hi) as [E1 E2].
      erewrite (is_set_word b) by (rewrite E1; exact Hw). rewrite E2.
      destruct (Z.leb_spec start (64 * (k + 1) + i)); [done|lia].
  - eapply scan_word_hit; eauto.
Qed.

Lemma next_set_from_least b start :
  wf b -> 0 <= start ->
  match next_set_from b start with
  | Some p => least_from (is_set b) start p
  | None => forall q, start <= q -> is_set b q = false
  end.
Proof.
  intros Hwf Hs. unfold next_set_from.
  assert (0 <= start / 64) by (apply Z.div_pos; lia).
  pose proof (Z.mod_pos_bound start 64 ltac:(lia)) as Hm.
  pose proof (Z.div_mod start 64 ltac:(lia)) as Hdm.
  destruct (vget (words b) (start / 64)) as [w|] eqn:Hw.
  - apply set_scan_spec; try done; [| |intros; lia|].
    + apply land_word; [eauto using bitmap_wf_word|lia|apply high_mask_nonneg].
    + zdm.
    + intros i Hi. destruct (block_index (start / 64) i Hi) as [E1 E2].
      rewrite Z.land_spec, high_mask_testbit by lia.
      erewrite (is_set_word b) by (rewrite E1; exact Hw). rewrite E2, andb_comm. f_equal.
      destruct (Z.leb_spec (start mod 64) i), (Z.leb_spec start (64 * (start / 64) + i)); lia.
  - intros q Hq. apply is_set_beyond.
    assert (vlen (words b) <= start / 64) as Hge.
    { destruct (Z_lt_le_dec (start / 64) (vlen (words b))); [|done].
      destruct (vget_in_range (words b) (start / 64)); [lia|congruence]. }
    zdm.
Qed.

Definition is_clear (b : t) (q : Z) : bool := negb (is_set b q).

Lemma clear_hit_spec b start limit k word :
  0 <= k -> limit <= u64_max -> in_word 64 word -> word <> 0 ->
  (forall q, start <= q < 64 * k -> is_clear b q = false) ->
  (forall i, 0 <= i < 64 ->
     Z.testbit word i = (start <=? 64 * k + i) && is_clear b (64 * k + i)) ->
  start < 64 * k + 64 ->
  match clear_hit k word limit with
  | Some p => least_from (is_clear b) start p /\ p < limit
  | None => forall q, start <= q < limit -> is_clear b q = false
  end.
Proof.
  intros Hk Hlim Hw Hnz Hbelow Hbits Hstart.
  destruct (scan_word_hit _ _ _ _ Hk Hw Hnz Hbelow Hbits Hstart) as (H1 & H2 & H3).
  destruct (trailing_zeros_spec word Hw Hnz) as (Hr & _).
  unfold clear_hit, saturating_add, saturating_mul. unfold u64_max in Hlim.
  destruct (Z.ltb_spec (Z.min (2 ^ 64 - 1) (Z.min (2 ^ 64 - 1) (k * 64) + trailing_zeros word)) limit)
    as [Hlt|Hge].
  - replace (Z.min (2 ^ 64 - 1) (Z.min (2 ^ 64 - 1) (k * 64) + trailing_zeros word))
      with (k * 64 + trailing_zeros word) in * by lia.
    by repeat split.
  - intros q Hq. apply H3. lia.
Qed.

Lemma clear_scan_spec b start limit rest k word :
  wf b -> 0 <= k -> in_word 64 word -> limit <= u64_max ->
  rest = drop (Z.to_nat (k + 1)) (words b) ->
  start < 64 * k + 64 ->
  (forall q, start <= q < 64 * k -> is_clear b q = false) ->
  (forall i, 0 <= i < 64 ->
     Z.testbit word i = (start <=? 64 * k + i) && is_clear b (64 * k + i)) ->
  match clear_scan rest k word limit with
  | Some p => least_from (is_clear b) start p /\ p < limit
  | None => forall q, start <= q < limit -> is_clear b q = false
  end.
Proof.
  intros Hwf. revert k word. induction rest as [|w rest IH];
    intros k word Hk Hword Hlim Hrest Hstart Hbelow Hbits; cbn [clear_scan];
    destruct (Z.eqb_spec word 0) as [Hz|Hz]; cbn [negb];
    try (eapply clear_hit_spec; eauto; fail);
    assert (forall q, start <= q < 64 * (k + 1) -> is_clear b q = false) as Hbelow'
      by (eapply scan_word_miss; eauto);
    unfold checked_add; case_if; cbn [mbind option_bind];
    try (intros q Hq; apply Hbelow'; unfold u64_max in Hlim; lia).
  - symmetry in Hrest. apply drop_nil_vlen in Hrest; [|lia].
    apply clear_hit_spec; try done; try lia.
    intros i Hi. rewrite wnot_testbit, Z.testbit_0_l by lia. unfold is_clear.
    rewrite is_set_beyond by lia.
    destruct (Z.leb_spec start (64 * (k + 1) + i)), (Z.ltb_spec i 64); lia.
  - symmetry in Hrest. apply drop_cons_vget in Hrest as [Hw Hrest]; [|lia].
    pose proof (bitmap_wf_word _ _ _ Hwf Hw) as Hww.
    apply IH; eauto; try lia.
    + apply wnot_word; [lia|apply Hww].
    + intros i Hi. destruct (block_index (k + 1) i Hi) as [E1 E2]. unfold is_clear.
      rewrite wnot_testbit by lia.
      erewrite (is_set_word b) by (rewrite E1; exact Hw). rewrite E2.
      destruct (Z.leb_spec start (64 * (k + 1) + i)), (Z.ltb_spec i 64); try lia. done.
Qed.

Lemma first_clear_from_least b start limit :
  wf b -> 0 <= start -> limit <= u64_max ->
  match first_clear_from b start limit with
  | Some p => least_from (is_clear b) start p /\ p < limit
  | None => forall q, start <= q < limit -> is_clear b q = false
  end.
Proof.
  intros Hwf Hs Hlim. unfold first_clear_from. case_if; [intros; lia|].
  assert (0 <= start / 64) by (apply Z.div_pos; lia).
  pose proof (Z.mod_pos_bound start 64 ltac:(lia)) as Hm.
  pose proof (Z.div_mod start 64 ltac:(lia)) as Hdm.
  assert (forall i, 0 <= i < 64 ->
    is_set b (64 * (start / 64) + i) =
    Z.testbit (default 0 (vget (words b) (start / 64))) i) as Hw.
  { intros i Hi. destruct (block_index (start / 64) i Hi) as [E1 E2].
    rewrite bitmap_is_set_testbit, E1, E2.
    destruct (vget (words b) (start / 64)); [done|]. by rewrite Z.testbit_0_l. }
  apply clear_scan_spec; try done; [| |intros; lia|].
  - apply land_word; [|lia|apply high_mask_nonneg].
    apply wnot_word; [lia|].
    destruct (vget (words b) (start / 64)) eqn:E'; [|done].
    apply (bitmap_wf_word _ _ _ Hwf E').
  - lia.
  - intros i Hi. unfold is_clear. rewrite Hw by done.
    rewrite Z.land_spec, high_mask_testbit, wnot_testbit by lia.
    destruct (Z.ltb_spec i 64); [|lia]. cbn [andb]. rewrite andb_comm. f_equal.
    destruct (Z.leb_spec (start mod 64) i), (Z.leb_spec start (64 * (start / 64) + i)); lia.
Qed.

(** ** The iterator and the population count *)

Definition set_bits (b : t) (k : Z) (n : nat) : list Z := sel (is_set b) k n.

Lemma iter_collect_successors fuel b next :
  iter_collect fuel b next = successors fuel (next_set b) next.
Proof.
  revert next. induction fuel as [|fuel IH]; intros [p|]; try done.
  cbn [iter_collect successors iter_next mbind option_bind]. by rewrite IH.
Qed.

Lemma next_set_from_capacity b k :
  wf b -> 0 <= k ->
  match next_set_from b k with
  | Some p => least_from (is_set b) k p /\ p < 64 * vlen (words b)
  | None => forall q, k <= q < 64 * vlen (words b) -> is_set b q = false
  end.
Proof.
  intros Hwf Hk. pose proof (next_set_from_least b k Hwf Hk) as Hn.
  destruct (next_set_from b k) as [p|]; [|intros; apply Hn; lia].
  split; [done|]. destruct Hn as (_ & Hp & _).
  destruct (Z_lt_le_dec p (64 * vlen (words b))); [done|].
  rewrite is_set_beyond in Hp by lia. done.
Qed.

Lemma iter_set_filter b :
  wf b -> 64 * vlen (words b) <= 2 ^ 64 ->
  iter_set b = set_bits b 0 (Z.to_nat (64 * vlen (words b))).
Proof.
  intros Hwf Hcap. unfold iter_set, first_set. rewrite iter_collect_successors.
  pose proof (vlen_nonneg (words b)). rewrite <- (Z.sub_0_r (64 * vlen (words b))).
  apply successors_sel; try done; [|lia|unfold vlen; lia].
  intros. by apply next_set_from_capacity.
Qed.

Lemma zseq_shift a n : zseq a n = Z.add a <$> zseq 0 n.
Proof.
  enough (forall c, zseq (a + c) n = Z.add a <$> zseq c n) as H.
  { rewrite <- H. f_equal. lia. }
  induction n as [|n IH]; intros c; [done|].
  cbn [zseq fmap list_fmap]. f_equal. rewrite <- Z.add_assoc. apply IH.
Qed.

Lemma set_bits_word b k w :
  vget (words b) k = Some w -> vlen (set_bits b (64 * k) 64) = count_ones w.
Proof.
  intros Hw. unfold set_bits, sel, count_ones, vlen. f_equal. rewrite zseq_shift.
  apply length_filter_fmap_iff. intros i Hi%elem_of_zseq.
  destruct (block_index k i ltac:(lia)) as [E1 E2].
  erewrite (is_set_word b) by (rewrite E1; exact Hw). by rewrite E2.
Qed.

Lemma count_set_suffix b n k :
  0 <= k -> vlen (words b) = k + Z.of_nat n ->
  foldr Z.add 0 (count_ones <$> drop (Z.to_nat k) (words b)) =
  vlen (set_bits b (64 * k) (64 * n)).
Proof.
  revert k. induction n as [|n IH]; intros k Hk Hlen.
  - rewrite drop_ge by (unfold vlen in Hlen; lia). done.
  - destruct (drop (Z.to_nat k) (words b)) as [|w rest] eqn:Hd.
    { apply drop_nil_vlen in Hd; lia. }
    apply drop_cons_vget in Hd as [Hw Hd]; [|lia]. subst rest.
    cbn [fmap list_fmap foldr]. rewrite (IH (k + 1)) by lia.
    unfold set_bits at 2, sel.
    replace (64 * S n)%nat with (64 + 64 * n)%nat by lia.
    rewrite zseq_app, filter_app, vlen_app.
    change (filter _ (zseq (64 * k) 64)) with (set_bits b (64 * k) 64).
    rewrite (set_bits_word _ _ _ Hw). unfold set_bits, sel.
    repeat f_equal; lia.
Qed.

(** ** Properties *)

(** C40: [set] and [clear] never index out of range; each reports the previous
    value of the bit (negated for [set]), changes exactly that bit, and keeps
    every word a 64-bit word. *)
Theorem bitmap_set_clear_correct b bit :
  wf b -> 0 <= bit ->
  (exists b', set b bit = Some (b', negb (is_set b bit)) /\ wf b' /\
     forall i, is_set b' i = if decide (i = bit) then true else is_set b i) /\
  (exists b', clear b bit = Some (b', is_set b bit) /\ wf b' /\
     forall i, is_set b' i = if decide (i = bit) then false else is_set b i).
Proof.
  intros Hwf Hbit. split; [by apply bitmap_set_total|].
  destruct (bitmap_clear_total b bit Hwf Hbit) as (b' & ? & ? & _ & ?). eauto.
Qed.

Lemma bitmap_set_clear_correct_witness :
  let b := mk [5] in
  (exists b', set b 70 = Some (b', true) /\ is_set b' 70 = true) /\
  (exists b', clear b 2 = Some (b', true) /\ is_set b' 2 = false).
Proof.
  destruct (bitmap_set_clear_correct (mk [5]) 70) as [(b1 & H1 & _ & H1') _];
    [repeat constructor; done|lia|].
  destruct (bitmap_set_clear_correct (mk [5]) 2) as [_ (b2 & H2 & _ & H2')];
    [repeat constructor; done|lia|].
  split; [exists b1|exists b2]; (split; [assumption|]).
  - rewrite H1'. reflexivity.
  - rewrite H2'. reflexivity.
Defined.

(** the iterator [iter_set] yields exactly the set bits, each once and in
    increasing order, and [count_set] is how many it yields. *)
Theorem bitmap_iter_set_correct b :
  wf b -> 64 * vlen (words b) <= 2 ^ 64 ->
  (forall i, i ∈ iter_set b <-> is_set b i = true /\ 0 <= i) /\
  StronglySorted Z.lt (iter_set b) /\
  count_set b = vlen (iter_set b).
Proof.
  intros Hwf Hcap. rewrite iter_set_filter by done. split; [|split].
  - intros i. unfold set_bits. rewrite elem_of_sel.
    pose proof (vlen_nonneg (words b)).
    split; intros [H1 H2]; (split; [done|]); [lia|].
    destruct (Z_lt_le_dec i (64 * vlen (words b))); [lia|].
    rewrite is_set_beyond in H1 by lia. done.
  - apply sel_sorted.
  - unfold count_set. pose proof (count_set_suffix b (length (words b)) 0) as H.
    rewrite drop_0 in H. rewrite H by (unfold vlen; lia). do 2 f_equal.
    unfold vlen. lia.
Qed.

Lemma bitmap_iter_set_correct_witness :
  iter_set (mk [5; 8]) = [0; 2; 67] /\ count_set (mk [5; 8]) = vlen (iter_set (mk [5; 8])).
Proof.
  split; [reflexivity|].
  apply (bitmap_iter_set_correct (mk [5; 8])); [repeat constructor; done|].
  vm_compute. discriminate.
Defined.

End Bitmap.
