(* ===== verification/InfraPool.v ===== *)
(** * The index-addressed object pool ([crates/hammer-infra/src/pool.rs])

    [Pool.t T] is the backing vector of [MaybeUninit] slots (a slot is [None]
    when its memory is not initialised), the free bitmap, the stack of free
    indices (its top is the end of the vector), the element limit of a fixed
    pool and the consumer's opaque word.  An operation that would panic or read
    an uninitialised slot is [None].

    [Pool.represents p m] relates a pool to the finite map from index to value
    it stands for; every operation is proved to implement the corresponding
    operation of that map, so no call reads uninitialised memory.  The
    allocator-dependent queries [capacity] and [will_get_grow] are not
    modelled. *)

From S2P Require Import Prelude InfraBitmap.

Module Pool.

Record t (T : Type) := mk {
  vector : list (option T);
  free_bitmap : Bitmap.t;
  free_indices : list Z;
  max_elts : option Z;
  opaque : Z;
}.
Arguments mk {T}.
Arguments vector {T}.
Arguments free_bitmap {T}.
Arguments free_indices {T}.
Arguments max_elts {T}.
Arguments opaque {T}.

Section pool.
Context {T : Type}.
Implicit Types (p : t T) (index position : Z) (v : T).

(** ** Operations *)

Definition new : t T := mk [] Bitmap.new [] None 0.

Definition with_capacity (capacity : Z) : t T :=
  mk [] (Bitmap.with_capacity capacity) [] None 0.

Fixpoint set_bits (b : Bitmap.t) (positions : list Z) : option Bitmap.t :=
  match positions with
  | [] => Some b
  | i :: positions => '(b, _) ← Bitmap.set b i; set_bits b positions
  end.

Definition with_fixed_capacity (max : Z) : option (t T) :=
  let all := zseq 0 (Z.to_nat max) in
  b ← set_bits (Bitmap.with_capacity max) all;
  Some (mk (replicate (Z.to_nat max) None) b (reverse all) (Some max) 0).

Definition len p : Z := saturating_sub (vlen (vector p)) (vlen (free_indices p)).

Definition is_empty p : bool := len p =? 0.

Definition contains_key p index : bool :=
  if index <? vlen (vector p) then negb (Bitmap.is_set (free_bitmap p) index) else false.

(** Takes an index from the free stack, or grows a dynamic pool by one slot. *)
Definition take_index p : option (t T * Z) :=
  if vlen (free_indices p) =? 0 then
    match max_elts p with
    | Some _ => None
    | None =>
        let index := wrap 32 (vlen (vector p)) in
        '(b, _) ← Bitmap.clear (free_bitmap p) index;
        Some (mk (vector p ++ [None]) b (free_indices p) (max_elts p) (opaque p), index)
    end
  else
    let free_len := vlen (free_indices p) in
    index ← vget (free_indices p) (free_len - 1);
    let free := take (Z.to_nat (free_len - 1)) (free_indices p) in
    '(b, _) ← Bitmap.clear (free_bitmap p) index;
    Some (mk (vector p) b free (max_elts p) (opaque p), index).

Definition insert p v : option (t T * Z) :=
  '(p, index) ← take_index p;
  vec ← vset (vector p) index (Some v);
  Some (mk vec (free_bitmap p) (free_indices p) (max_elts p) (opaque p), index).

(** [assume_init_ref] of a slot: undefined on an uninitialised one. *)
Definition assume_init p index : option T :=
  slot ← vget (vector p) index; slot.

Definition get p index : option (option T) :=
  if contains_key p index then v ← assume_init p index; Some (Some v) else Some None.

(** [get_mut], used to apply [f] to the value in place. *)
Definition get_mut p index (f : T -> T) : option (t T * bool) :=
  if contains_key p index then
    v ← assume_init p index;
    vec ← vset (vector p) index (Some (f v));
    Some (mk vec (free_bitmap p) (free_indices p) (max_elts p) (opaque p), true)
  else Some (p, false).

Definition release_index p index position : option (t T) :=
  '(b, _) ← Bitmap.set (free_bitmap p) position;
  Some (mk (vector p) b (free_indices p ++ [index]) (max_elts p) (opaque p)).

(** Moving the value out of (or dropping) a slot leaves it uninitialised. *)
Definition remove p index : option (t T * option T) :=
  if negb (contains_key p index) then Some (p, None) else
  v ← assume_init p index;
  vec ← vset (vector p) index None;
  p ← release_index (mk vec (free_bitmap p) (free_indices p) (max_elts p) (opaque p))
        index index;
  Some (p, Some v).

Definition put_index p index : option (t T) :=
  _ ← assume_init p index;
  vec ← vset (vector p) index None;
  release_index (mk vec (free_bitmap p) (free_indices p) (max_elts p) (opaque p))
    index index.

Fixpoint drop_all p (positions : list Z) : option (t T) :=
  match positions with
  | [] => Some p
  | i :: positions =>
      let index := wrap 32 i in
      p ← (if contains_key p index then '(p, _) ← remove p index; Some p else Some p);
      drop_all p positions
  end.

Definition clear p : option (t T) :=
  p ← drop_all p (zseq 0 (length (vector p)));
  match max_elts p with
  | Some max =>
      Some (mk (vector p) (free_bitmap p) (reverse (zseq 0 (Z.to_nat max))) (Some max) 0)
  | None => Some (mk [] (Bitmap.clear_all (free_bitmap p)) [] None 0)
  end.

Definition set_opaque p (value : Z) : t T :=
  mk (vector p) (free_bitmap p) (free_indices p) (max_elts p) value.

(** [capacity] is the allocated capacity of the vector. *)
Definition will_get_grow p (capacity : Z) : bool :=
  (vlen (free_indices p) =? 0) && (vlen (vector p) =? capacity).

Definition first_index p : option Z :=
  position ← Bitmap.first_clear_from (free_bitmap p) 0 (vlen (vector p));
  Some (wrap 32 position).

Definition next_index p index : option Z :=
  position ← Bitmap.next_clear_after (free_bitmap p) index (vlen (vector p));
  Some (wrap 32 position).

Definition indices p : list Z :=
  successors (length (vector p)) (next_index p) (first_index p).

(** One call of [PoolIter::next]: the item and the iterator's new state. *)
Definition iter_next p (next : option Z) : option (option ((Z * T) * option Z)) :=
  match next with
  | None => Some None
  | Some index =>
      value ← get p index;
      match value with
      | None => Some None
      | Some v => Some (Some ((index, v), next_index p index))
      end
  end.

Fixpoint iter_collect (fuel : nat) p (next : option Z) : option (list (Z * T)) :=
  match fuel with
  | O => Some []
  | S fuel =>
      item ← iter_next p next;
      match item with
      | None => Some []
      | Some (kv, next) => rest ← iter_collect fuel p next; Some (kv :: rest)
      end
  end.

Definition iter p : option (list (Z * T)) :=
  iter_collect (length (vector p)) p (first_index p).

(** [Clone]: copies the occupied slots and leaves the others uninitialised. *)
Fixpoint clone_slots p (positions : list Z) : option (list (option T)) :=
  match positions with
  | [] => Some []
  | i :: positions =>
      slot ← (if Bitmap.is_set (free_bitmap p) i then Some None
              else v ← assume_init p i; Some (Some v));
      rest ← clone_slots p positions;
      Some (slot :: rest)
  end.

Definition clone p : option (t T) :=
  vec ← clone_slots p (zseq 0 (length (vector p)));
  Some (mk vec (free_bitmap p) (free_indices p) (max_elts p) (opaque p)).

(** ** Invariant and representation *)

(** [ok] are the occupied indices whose slot is initialised: all of them,
    except between taking an index and writing its value. *)
Record wf_at (ok : Z -> Prop) p : Prop := {
  wf_bitmap : Bitmap.wf (free_bitmap p);
  wf_len : vlen (vector p) <= 2 ^ 32;
  wf_free : forall i, 0 <= i < vlen (vector p) ->
    Bitmap.is_set (free_bitmap p) i = true <-> i ∈ free_indices p;
  wf_free_range : forall i, i ∈ free_indices p -> 0 <= i < vlen (vector p);
  wf_free_nodup : NoDup (free_indices p);
  wf_init : forall i, 0 <= i < vlen (vector p) -> ok i ->
    Bitmap.is_set (free_bitmap p) i = false -> exists v, vget (vector p) i = Some (Some v);
  wf_fixed : forall max, max_elts p = Some max -> vlen (vector p) = max;
}.

Definition wf p : Prop := wf_at (fun _ => True) p.

(** The value at an index, when the index is occupied. *)
Definition slot p index : option T :=
  if (0 <=? index) && contains_key p index then assume_init p index else None.

Definition represents p (m : gmap Z T) : Prop :=
  wf p /\ forall i, m !! i = slot p i.

Lemma contains_key_eq p index : contains_key p index = (index <? vlen (vector p)) && negb (Bitmap.is_set (free_bitmap p) index).
Proof. done. Qed.

Lemma pool_slot_Some p i v :
  slot p i = Some v -> 0 <= i < vlen (vector p) /\
    Bitmap.is_set (free_bitmap p) i = false /\ vget (vector p) i = Some (Some v).
Proof.
  unfold slot, assume_init. rewrite ?contains_key_eq. intros H. case_if_in H; [|done].
  destruct (vget (vector p) i) as [[]|] eqn:Hv; simplify_eq/=.
  split; [lia|]. done.
Qed.

Lemma pool_slot_intro p i v :
  0 <= i -> Bitmap.is_set (free_bitmap p) i = false -> vget (vector p) i = Some (Some v) ->
  slot p i = Some v.
Proof.
  intros Hi Hb Hv. unfold slot, assume_init. rewrite ?contains_key_eq.
  pose proof (vget_Some_bounds _ _ _ Hv).
  destruct (Z.leb_spec 0 i), (Z.ltb_spec i (vlen (vector p))); try lia.
  rewrite Hb, Hv. done.
Qed.

Lemma pool_slot_None p i :
  wf p -> slot p i = None <->
    ~ (0 <= i < vlen (vector p)) \/ Bitmap.is_set (free_bitmap p) i = true.
Proof.
  intros Hwf. split.
  - intros H. destruct (Bitmap.is_set (free_bitmap p) i) eqn:Hb; [by right|].
    left. intros Hi. destruct (wf_init _ p Hwf i Hi I Hb) as [v Hv].
    rewrite (pool_slot_intro p i v) in H by (done || lia). done.
  - intros H. destruct (slot p i) eqn:E; [|done].
    apply pool_slot_Some in E as (? & ? & ?). destruct H; congruence || lia.
Qed.

Lemma pool_contains_slot p i :
  wf p -> 0 <= i -> contains_key p i = bool_decide (is_Some (slot p i)).
Proof.
  intros Hwf Hi. destruct (slot p i) as [v|] eqn:E.
  - apply pool_slot_Some in E as (? & Hb & _). rewrite contains_key_eq. rewrite Hb.
    destruct (Z.ltb_spec i (vlen (vector p))); [|lia]. done.
  - apply pool_slot_None in E; [|done]. rewrite contains_key_eq.
    destruct (Z.ltb_spec i (vlen (vector p))); [|done].
    destruct E as [?|Hb]; [lia|]. by rewrite Hb.
Qed.

Lemma pool_get_slot p i : wf p -> 0 <= i -> get p i = Some (slot p i).
Proof.
  intros Hwf Hi. unfold get. rewrite pool_contains_slot by done.
  destruct (slot p i) as [v|] eqn:E; [|done].
  apply pool_slot_Some in E as (_ & _ & Hv). unfold assume_init. rewrite Hv. done.
Qed.


(** ** Allocation *)

Definition can_insert p : Prop :=
  free_indices p <> [] \/ (max_elts p = None /\ vlen (vector p) < 2 ^ 32).

Lemma take_index_grow p :
  wf p -> free_indices p = [] -> max_elts p = None -> vlen (vector p) < 2 ^ 32 ->
  exists b, take_index p =
    Some (mk (vector p ++ [None]) b [] None (opaque p), vlen (vector p)) /\
    Bitmap.wf b /\
    forall i, Bitmap.is_set b i =
      if decide (i = vlen (vector p)) then false else Bitmap.is_set (free_bitmap p) i.
Proof.
  intros Hwf Hf Hm Hl. unfold take_index. rewrite Hf, Hm. cbn [vlen length].
  pose proof (vlen_nonneg (vector p)).
  rewrite wrap_small by (split; lia).
  destruct (Bitmap.bitmap_clear_total (free_bitmap p) (vlen (vector p)) (wf_bitmap _ p Hwf))
    as (b & Hb & Hwb & _ & Hs); [done|].
  rewrite Hb. exists b. done.
Qed.

Lemma take_index_reuse p l i :
  wf p -> free_indices p = l ++ [i] ->
  exists b, take_index p = Some (mk (vector p) b l (max_elts p) (opaque p), i) /\
    Bitmap.wf b /\
    forall j, Bitmap.is_set b j = if decide (j = i) then false else Bitmap.is_set (free_bitmap p) j.
Proof.
  intros Hwf Hf. unfold take_index.
  assert (0 <= i) as Hi by (apply (wf_free_range _ p Hwf i); rewrite Hf, elem_of_snoc; tauto).
  replace (vlen (free_indices p) =? 0) with false.
  2:{ symmetry. apply Z.eqb_neq. rewrite Hf, vlen_app. pose proof (vlen_nonneg l).
      unfold vlen in *. simpl. lia. }
  rewrite Hf, vlen_app. change (vlen [i]) with 1.
  replace (vlen l + 1 - 1) with (vlen l) by lia.
  rewrite vget_snoc, decide_True by done. cbn [mbind option_bind].
  destruct (Bitmap.bitmap_clear_total (free_bitmap p) i (wf_bitmap _ p Hwf) Hi)
    as (b & Hb & Hwb & _ & Hs).
  rewrite Hb. unfold vlen. rewrite Nat2Z.id, take_app_length. exists b. done.
Qed.

(** Both ways of taking an index give an index that was not occupied, leave
    it off the free list, and keep every other slot. *)
Lemma take_index_spec p m :
  represents p m -> can_insert p ->
  exists q i, take_index p = Some (q, i) /\ m !! i = None /\
    0 <= i < vlen (vector q) /\ Bitmap.is_set (free_bitmap q) i = false /\
    wf_at (fun j => j <> i) q /\ forall j, j <> i -> slot q j = m !! j.
Proof.
  intros [Hwf Hm] Hc. pose proof Hwf as [Wb Wl Wf Wr Wn Wi Wx].
  pose proof (vlen_nonneg (vector p)) as Hnn.
  destruct (free_indices p) as [|i0 l0 _] eqn:Hf using rev_ind.
  - destruct Hc as [?|[Hmx Hl]]; [congruence|].
    destruct (take_index_grow p Hwf Hf Hmx Hl) as (b & Ht & Hwb & Hs).
    eexists _, _. split; [exact Ht|]. split; [|split; [|split; [|split]]].
    + rewrite Hm. apply pool_slot_None; [done|left; lia].
    + cbn [vector]. rewrite vlen_app. unfold vlen. simpl. lia.
    + cbn [free_bitmap]. by rewrite Hs, decide_True.
    + assert (vlen (vector p ++ [None]) = vlen (vector p) + 1) as Hlen by apply vlen_app.
      constructor; cbn [vector free_bitmap free_indices max_elts]; rewrite ?Hlen; try done; try lia.
      * intros j Hj. rewrite Hs. case_decide; [split; [done|by intros ?%not_elem_of_nil]|].
        apply Wf. lia.
      * by intros j Hj%not_elem_of_nil.
      * intros j Hj Hne Hb. rewrite Hs, decide_False in Hb by done.
        rewrite vget_snoc, decide_False by done. apply Wi; [lia|done|done].
    + intros j Hne. rewrite Hm. unfold slot, assume_init. rewrite ?contains_key_eq.
      cbn [vector free_bitmap]. rewrite Hs, vlen_app, vget_snoc, !decide_False by done.
      change (vlen [None]) with 1.
      destruct (Z.ltb_spec j (vlen (vector p))), (Z.ltb_spec j (vlen (vector p) + 1)); try lia; done.
  - destruct (take_index_reuse p l0 i0 Hwf Hf) as (b & Ht & Hwb & Hs).
    assert (i0 ∉ l0) as Hnin.
    { intros H. apply NoDup_app in Wn as (_ & Wn & _). apply (Wn i0 H). left. }
    pose proof (Wr i0 ltac:(apply elem_of_snoc; tauto)) as Hi.
    eexists _, _. split; [exact Ht|]. split; [|split; [|split; [|split]]].
    + rewrite Hm. apply pool_slot_None; [done|right]. apply Wf; [done|]. apply elem_of_snoc. tauto.
    + done.
    + cbn [free_bitmap]. by rewrite Hs, decide_True.
    + constructor; cbn [vector free_bitmap free_indices max_elts]; try done.
      * intros j Hj. rewrite Hs. case_decide; [by subst|]. rewrite Wf, elem_of_snoc by lia. tauto.
      * intros j Hj. apply Wr, elem_of_snoc. tauto.
      * by apply NoDup_app in Wn as (? & _).
      * intros j Hj Hne Hb. rewrite Hs, decide_False in Hb by done. by apply Wi.
    + intros j Hne. rewrite Hm. unfold slot, assume_init. rewrite ?contains_key_eq.
      cbn [vector free_bitmap]. by rewrite Hs, decide_False by done.
Qed.

(** Writing slot [i] of the vector. *)
Definition with_slot p i (x : option T) : t T :=
  mk (<[Z.to_nat i := x]> (vector p)) (free_bitmap p) (free_indices p) (max_elts p) (opaque p).

Lemma with_slot_vset p i x :
  0 <= i < vlen (vector p) -> vset (vector p) i x = Some (vector (with_slot p i x)).
Proof. apply vset_in_range. Qed.

Lemma with_slot_len p i x : vlen (vector (with_slot p i x)) = vlen (vector p).
Proof. unfold vlen. cbn [with_slot vector]. by rewrite length_insert. Qed.

Lemma with_slot_vget p i x j :
  0 <= i < vlen (vector p) ->
  vget (vector (with_slot p i x)) j = if decide (i = j) then Some x else vget (vector p) j.
Proof. intros Hi. by apply (vget_vset _ _ _ _ _ (with_slot_vset p i x Hi)). Qed.

Lemma with_slot_slot_ne p i x j :
  0 <= i < vlen (vector p) -> j <> i -> slot (with_slot p i x) j = slot p j.
Proof.
  intros Hi Hne. unfold slot, assume_init. rewrite ?contains_key_eq.
  by rewrite with_slot_len, with_slot_vget, decide_False by done.
Qed.

Lemma fill_slot_repr q m i v :
  0 <= i < vlen (vector q) -> Bitmap.is_set (free_bitmap q) i = false ->
  wf_at (fun j => j <> i) q -> (forall j, j <> i -> slot q j = m !! j) ->
  represents (with_slot q i (Some v)) (<[i := v]> m).
Proof.
  intros Hi Hb [Wb Wl Wf Wr Wn Wi Wx] Hs. split.
  - constructor; rewrite ?with_slot_len; try done.
    intros j Hj _ Hbj. rewrite with_slot_vget by done. case_decide; [eauto|]. by apply Wi.
  - intros j. rewrite lookup_insert. case_decide as E.
    + subst j. symmetry. apply pool_slot_intro; [lia|done|].
      by rewrite with_slot_vget, decide_True.
    + by rewrite with_slot_slot_ne, Hs.
Qed.

Lemma pool_insert_repr p m v :
  represents p m -> can_insert p ->
  exists p' i, insert p v = Some (p', i) /\ m !! i = None /\ 0 <= i < 2 ^ 32 /\
    represents p' (<[i := v]> m).
Proof.
  intros Hr Hc. destruct (take_index_spec p m Hr Hc) as (q & i & Ht & Hnone & Hi & Hb & Hw & Hs).
  exists (with_slot q i (Some v)), i. split; [|split; [done|split]].
  - unfold insert. rewrite Ht. cbn [mbind option_bind]. by rewrite with_slot_vset.
  - pose proof (wf_len _ _ Hw). lia.
  - by apply fill_slot_repr.
Qed.

(** A fixed pool with no free index panics on [insert]. *)
Lemma pool_insert_exhausted p v :
  free_indices p = [] -> max_elts p <> None -> insert p v = None.
Proof.
  intros Hf Hm. unfold insert, take_index. rewrite Hf. cbn.
  by destruct (max_elts p).
Qed.

(** ** Reading, updating and releasing *)

Lemma pool_get_mut_repr p m i f :
  represents p m -> 0 <= i ->
  exists p', get_mut p i f = Some (p', bool_decide (is_Some (m !! i))) /\
    represents p' (alter f i m).
Proof.
  intros [Hwf Hm] Hi. unfold get_mut. rewrite pool_contains_slot, Hm by done.
  destruct (slot p i) as [v|] eqn:E; cbn [bool_decide].
  - apply pool_slot_Some in E as (Hr & Hb & Hv).
    rewrite bool_decide_true by eauto. unfold assume_init. rewrite Hv. cbn [mbind option_bind].
    rewrite with_slot_vset by done. eexists. split; [done|].
    assert (alter f i m = <[i := f v]> m) as ->.
    { apply map_eq. intros j. rewrite lookup_alter, lookup_insert.
      case_decide; [|done]. subst. rewrite Hm, (pool_slot_intro p j v) by (done || lia). done. }
    apply fill_slot_repr; try done.
    + destruct Hwf as [Wb Wl Wf Wr Wn Wi Wx]. constructor; try done.
      intros j Hj _. by apply Wi.
  - rewrite bool_decide_false by (by intros [? ?]).
    exists p. split; [done|]. split; [done|]. intros j. rewrite lookup_alter, Hm.
    case_decide; [|done]. subst. by rewrite E.
Qed.

Lemma release_repr p m i v :
  represents p m -> m !! i = Some v ->
  exists p', release_index (with_slot p i None) i i = Some p' /\ represents p' (delete i m).
Proof.
  intros [Hwf Hm] Hv. rewrite Hm in Hv. apply pool_slot_Some in Hv as (Hr & Hb & Hv).
  pose proof Hwf as [Wb Wl Wf Wr Wn Wi Wx]. unfold release_index.
  destruct (Bitmap.bitmap_set_total (free_bitmap p) i Wb ltac:(lia)) as (b & Hset & Hwb & Hs).
  cbn [with_slot free_bitmap]. rewrite Hset. cbn [mbind option_bind].
  eexists. split; [done|]. split.
  - constructor; cbn [with_slot vector free_bitmap free_indices max_elts];
      try (change (<[Z.to_nat i:=None]> (vector p)) with (vector (with_slot p i None));
           rewrite ?with_slot_len); try done.
    + intros j Hj. rewrite Hs. rewrite elem_of_snoc. case_decide; [tauto|]. rewrite Wf by done. tauto.
    + intros j [Hj| ->]%elem_of_snoc; [by apply Wr|done].
    + apply NoDup_app. split; [done|]. split; [|apply NoDup_singleton].
      intros j Hj ->%list_elem_of_singleton. apply Wf in Hj; [congruence|done].
    + intros j Hj _. rewrite Hs. case_decide; [done|]. intros Hbj.
      rewrite with_slot_vget, decide_False by done. by apply Wi.
  - intros j. rewrite lookup_delete, Hm. unfold slot, assume_init. rewrite ?contains_key_eq.
    cbn [with_slot vector free_bitmap].
    change (<[Z.to_nat i:=None]> (vector p)) with (vector (with_slot p i None)).
    rewrite with_slot_len, with_slot_vget, Hs by done.
    destruct (decide (i = j)) as [->|].
    + rewrite decide_True by done. by rewrite !andb_false_r.
    + by rewrite decide_False by done.
Qed.

Lemma pool_remove_repr p m i :
  represents p m -> 0 <= i ->
  exists p', remove p i = Some (p', m !! i) /\ represents p' (delete i m).
Proof.
  intros Hrep Hi. pose proof Hrep as [Hwf Hm]. unfold remove.
  rewrite pool_contains_slot, <- Hm by done.
  destruct (m !! i) as [v|] eqn:E.
  - rewrite bool_decide_true by eauto. cbn [negb].
    rewrite Hm in E. apply pool_slot_Some in E as (Hr & Hb & Hv).
    unfold assume_init. rewrite Hv. cbn [mbind option_bind].
    rewrite with_slot_vset by done. cbn [mbind option_bind].
    destruct (release_repr p m i v Hrep) as (p' & Hp' & Hrep').
    { rewrite Hm. apply pool_slot_intro; [lia|done|done]. }
    change (mk _ _ _ _ _) with (with_slot p i None). rewrite Hp'. exists p'. done.
  - rewrite bool_decide_false by (by intros [? ?]). cbn [negb].
    exists p. split; [done|]. by rewrite delete_id.
Qed.

(** ** Counting and iteration *)

Definition occupied p : list Z := sel (Bitmap.is_clear (free_bitmap p)) 0 (length (vector p)).

Lemma elem_of_occupied p m i :
  represents p m -> i ∈ occupied p <-> is_Some (m !! i).
Proof.
  intros [Hwf Hm]. unfold occupied. rewrite elem_of_sel, Hm. unfold Bitmap.is_clear.
  destruct (slot p i) as [v|] eqn:E.
  - apply pool_slot_Some in E as (Hr & Hb & _). rewrite Hb. unfold vlen in Hr.
    split; [eauto|]. intros _. split; [done|lia].
  - apply pool_slot_None in E; [|done]. unfold vlen in E. split; [|by intros [? ?]].
    intros [Hb Hi]. bool_prop. destruct E; [lia|congruence].
Qed.

Lemma occupied_perm p : wf p -> zseq 0 (length (vector p)) ≡ₚ occupied p ++ free_indices p.
Proof.
  intros [Wb Wl Wf Wr Wn Wi Wx]. apply NoDup_Permutation.
  - apply zseq_NoDup.
  - apply NoDup_app. split; [apply NoDup_filter, zseq_NoDup|]. split; [|done].
    intros i Hi Hf. unfold occupied in Hi. apply elem_of_sel in Hi as [Hi _].
    pose proof (Wr i Hf). apply Wf in Hf; [|done]. unfold Bitmap.is_clear in Hi.
    rewrite Hf in Hi. done.
  - intros i. unfold occupied. rewrite elem_of_app, elem_of_sel, elem_of_zseq.
    unfold Bitmap.is_clear. split.
    + intros Hi. destruct (Bitmap.is_set (free_bitmap p) i) eqn:Hb; [|left; split; [done|lia]].
      right. apply Wf; [unfold vlen; lia|done].
    + intros [[_ ?]|Hf]; [lia|]. pose proof (Wr i Hf). unfold vlen in *. lia.
Qed.

Lemma pool_len_size p m : represents p m -> len p = Z.of_nat (size m).
Proof.
  intros Hrep. pose proof Hrep as [Hwf _].
  pose proof (Permutation_length (occupied_perm p Hwf)) as Hl.
  rewrite length_zseq, length_app in Hl.
  assert (size m = length (occupied p)) as ->.
  { rewrite <- size_dom, <- (size_list_to_set (C := gset Z) (occupied p)).
    - f_equal. apply set_eq. intros i.
      by rewrite elem_of_dom, elem_of_list_to_set, (elem_of_occupied p m).
    - apply NoDup_filter, zseq_NoDup. }
  unfold len, saturating_sub, vlen. lia.
Qed.

Lemma indices_occupied p : wf p -> indices p = occupied p.
Proof.
  intros [Wb Wl Wf Wr Wn Wi Wx]. unfold indices, occupied, first_index.
  pose proof (vlen_nonneg (vector p)) as Hnn.
  replace (length (vector p)) with (Z.to_nat (vlen (vector p) - 0)) at 2 by (unfold vlen; lia).
  apply (successors_sel _ _
    (fun k => position ← Bitmap.first_clear_from (free_bitmap p) k (vlen (vector p));
              Some (wrap 32 position)));
    [|intros i; unfold next_index, Bitmap.next_clear_after; by destruct (checked_add 64 i 1)
     |lia|lia|unfold vlen; lia].
  intros k Hk.
  pose proof (Bitmap.first_clear_from_least (free_bitmap p) k (vlen (vector p)) Wb Hk
    ltac:(unfold u64_max; lia)) as Hl.
  destruct (Bitmap.first_clear_from _ _ _) as [q|]; cbn [mbind option_bind]; [|done].
  pose proof Hl as [(? & _) ?]. by rewrite wrap_small by (split; lia).
Qed.

Lemma iter_collect_spec p m fuel next :
  represents p m ->
  (forall i, i ∈ successors fuel (next_index p) next -> is_Some (m !! i) /\ 0 <= i) ->
  exists l, iter_collect fuel p next = Some l /\
    l.*1 = successors fuel (next_index p) next /\ forall i v, (i, v) ∈ l -> m !! i = Some v.
Proof.
  intros [Hwf Hm]. revert next. induction fuel as [|fuel IH]; intros next Hocc.
  { exists []. split; [done|]. split; [done|]. by intros i v ?%not_elem_of_nil. }
  destruct next as [i|].
  2:{ exists []. split; [done|]. split; [done|]. by intros i v ?%not_elem_of_nil. }
  cbn [successors] in Hocc.
  destruct (Hocc i) as [[v Hv] Hi]; [left|].
  destruct (IH (next_index p i)) as (l & Hl & Hl1 & Hl2).
  { intros j Hj. apply Hocc. by right. }
  exists ((i, v) :: l). cbn [iter_collect iter_next].
  rewrite pool_get_slot, <- Hm, Hv by done. cbn [mbind option_bind]. rewrite Hl.
  split; [done|]. split; [cbn; by rewrite Hl1|].
  intros j w [[= -> ->]|Hin]%elem_of_cons; auto.
Qed.

Lemma pool_iter_repr p m :
  represents p m ->
  exists l, iter p = Some l /\ StronglySorted Z.lt l.*1 /\
    forall i v, (i, v) ∈ l <-> m !! i = Some v.
Proof.
  intros Hrep. pose proof Hrep as [Hwf Hm].
  destruct (iter_collect_spec p m (length (vector p)) (first_index p) Hrep) as (l & Hl & Hl1 & Hl2).
  { fold (indices p). rewrite indices_occupied by done. intros i Hi.
    split; [by apply (elem_of_occupied p m)|]. unfold occupied in Hi.
    apply elem_of_sel in Hi. lia. }
  fold (indices p) in Hl1. rewrite indices_occupied in Hl1 by done.
  exists l. split; [done|]. rewrite Hl1. split; [apply sel_sorted|].
  intros i v. split; [apply Hl2|]. intros Hv.
  assert (i ∈ l.*1) as ([j w] & Hj & Hin)%list_elem_of_fmap.
  { rewrite Hl1. apply (elem_of_occupied p m); eauto. }
  simpl in Hj. subst j. rewrite (Hl2 i w Hin) in Hv. by simplify_eq.
Qed.

(** ** Whole-pool operations *)

Lemma bitmap_clear_all_wf b : Bitmap.wf (Bitmap.clear_all b).
Proof.
  unfold Bitmap.wf, Bitmap.clear_all. cbn [Bitmap.words]. apply Forall_fmap, Forall_true.
  intros. split; [done|reflexivity].
Qed.

(** What an operation leaves alone. *)
Lemma remove_frame p i q r :
  remove p i = Some (q, r) ->
  opaque q = opaque p /\ max_elts q = max_elts p /\ vlen (vector q) = vlen (vector p).
Proof.
  unfold remove. intros Hq. case_if_in Hq; [by simplify_eq|].
  destruct (assume_init p i); [|done]. cbn [mbind option_bind] in Hq.
  destruct (vset _ _ _) eqn:Hv; [|done]. cbn [mbind option_bind] in Hq.
  unfold release_index in Hq. cbn [free_bitmap] in Hq.
  destruct (Bitmap.set _ _) as [[b ?]|]; simplify_eq/=. split_and!; eauto using vset_len.
Qed.

Lemma get_mut_frame p q i f b :
  get_mut p i f = Some (q, b) ->
  opaque q = opaque p /\ max_elts q = max_elts p /\ vlen (vector q) = vlen (vector p).
Proof.
  unfold get_mut. destruct (contains_key p i); [|by intros [= <- _]].
  destruct (assume_init p i); cbn [mbind option_bind]; [|done].
  destruct (vset _ i _) as [l|] eqn:E; cbn [mbind option_bind]; [|done]. intros [= <- _].
  cbn. by apply vset_len in E.
Qed.

Lemma insert_frame p q v i :
  insert p v = Some (q, i) ->
  opaque q = opaque p /\ max_elts q = max_elts p /\
  vlen (vector q) <= Z.max (vlen (vector p)) (len p + 1) /\ i < vlen (vector q).
Proof.
  unfold insert, take_index, len.
  destruct (vlen (free_indices p) =? 0) eqn:E.
  - destruct (max_elts p) eqn:Em; [done|]. destruct (Bitmap.clear _ _) as [[b ?]|]; cbn [mbind option_bind]; [|done].
    cbn [vector]. destruct (vset _ _ _) as [l|] eqn:Ev; cbn [mbind option_bind]; [|done]. intros [= <- <-].
    pose proof (vset_Some_bounds _ _ _ _ Ev). cbn. apply vset_len in Ev. rewrite Ev in *. rewrite vlen_app in *. apply Z.eqb_eq in E. unfold saturating_sub.
    split_and!; [done..| |lia]. rewrite E. unfold vlen at 2. cbn. lia.
  - destruct (vget _ _) as [j|]; cbn [mbind option_bind]; [|done].
    destruct (Bitmap.clear _ _) as [[b ?]|]; cbn [mbind option_bind]; [|done]. cbn [vector].
    destruct (vset _ _ _) as [l|] eqn:Ev; cbn [mbind option_bind]; [|done]. intros [= <- <-].
    pose proof (vset_Some_bounds _ _ _ _ Ev). cbn. apply vset_len in Ev. rewrite Ev in *. split_and!; [done..|lia|lia].
Qed.

Lemma drop_all_repr p m (ps : list Z) :
  represents p m -> Forall (in_word 32) ps ->
  exists p', drop_all p ps = Some p' /\ max_elts p' = max_elts p /\
    vlen (vector p') = vlen (vector p) /\
    represents p' (foldl (fun m i => delete i m) m ps).
Proof.
  revert p m. induction ps as [|i ps IH]; intros p m Hrep Hps.
  { exists p. done. }
  apply Forall_cons in Hps as [Hi Hps]. cbn [drop_all foldl].
  rewrite wrap_small by done.
  assert (exists q, (if contains_key p i then '(q, _) ← remove p i; Some q else Some p) = Some q /\
    max_elts q = max_elts p /\ vlen (vector q) = vlen (vector p) /\ represents q (delete i m))
    as (q & Hq & Hmx & Hvl & Hrq).
  { destruct (contains_key p i) eqn:Hc.
    - destruct (pool_remove_repr p m i Hrep ltac:(apply Hi)) as (q & Hq & Hrq).
      destruct (remove_frame _ _ _ _ Hq) as (_ & ? & ?). rewrite Hq. exists q. done.
    - exists p. split; [done|]. split; [done|]. split; [done|].
      rewrite delete_id; [done|]. destruct Hrep as [Hwf Hm]. rewrite Hm.
      rewrite pool_contains_slot in Hc by (done || apply Hi).
      by apply bool_decide_eq_false, eq_None_not_Some in Hc. }
  rewrite Hq. cbn [mbind option_bind].
  destruct (IH q _ Hrq Hps) as (p' & Hp' & Hmx' & Hvl' & Hr').
  exists p'. split; [done|]. split; [congruence|]. split; [congruence|done].
Qed.

Lemma foldl_delete_lookup (m : gmap Z T) ps i :
  foldl (fun m i => delete i m) m ps !! i = if decide (i ∈ ps) then None else m !! i.
Proof.
  revert m. induction ps as [|j ps IH]; intros m; cbn [foldl].
  { rewrite decide_False by (by intros ?%not_elem_of_nil). done. }
  rewrite IH, lookup_delete. destruct (decide (j = i)) as [->|];
    destruct (decide (i ∈ ps)), (decide (i ∈ _ :: ps)) as [Hin|Hin]; try done;
    rewrite elem_of_cons in Hin; first [by destruct Hin; auto | destruct Hin; congruence].
Qed.

Lemma pool_empty_repr p :
  wf p -> free_indices p ≡ₚ zseq 0 (length (vector p)) -> represents p ∅.
Proof.
  intros Hwf Hp. split; [done|]. intros i. rewrite lookup_empty. symmetry.
  apply pool_slot_None; [done|].
  destruct (decide (0 <= i < vlen (vector p))) as [Hi|]; [|by left].
  right. apply (wf_free _ p Hwf i Hi). rewrite Hp, elem_of_zseq. unfold vlen in Hi. lia.
Qed.

Lemma pool_empty_dynamic_repr b : Bitmap.wf b -> represents (mk [] b [] None 0) ∅.
Proof.
  intros Hb. apply pool_empty_repr; [|done].
  constructor; cbn [vector free_bitmap free_indices max_elts]; try done;
    [intros i; change (vlen []) with 0; lia|by intros i ?%not_elem_of_nil
    |apply NoDup_nil_2|intros i; change (vlen []) with 0; lia].
Qed.

Lemma pool_clear_repr p m :
  represents p m -> exists p', clear p = Some p' /\ opaque p' = 0 /\ represents p' ∅.
Proof.
  intros Hrep. pose proof Hrep as [Hwf Hm]. unfold clear.
  pose proof (wf_len _ _ Hwf) as Hl. pose proof (vlen_nonneg (vector p)) as Hnn.
  destruct (drop_all_repr p m (zseq 0 (length (vector p))) Hrep) as (q & Hq & Hmx & Hvl & Hrq).
  { apply Forall_forall. intros i Hi%elem_of_zseq. unfold vlen in Hl. split; lia. }
  rewrite Hq. cbn [mbind option_bind].
  assert (foldl (fun m i => delete i m) m (zseq 0 (length (vector p))) = ∅) as Hem.
  { apply map_eq. intros i. rewrite foldl_delete_lookup, lookup_empty. case_decide as Hin; [done|].
    rewrite Hm. apply pool_slot_None; [done|left]. rewrite elem_of_zseq in Hin. unfold vlen. lia. }
  rewrite Hem in Hrq. destruct Hrq as [Hwq Hmq]. pose proof Hwq as [Wb Wl Wf Wr Wn Wi Wx].
  destruct (max_elts q) as [max|] eqn:Hmax.
  - eexists. split; [done|]. split; [done|]. apply pool_empty_repr; cbn [free_indices vector].
    + assert (length (vector q) = Z.to_nat max) as Hlen by (pose proof (Wx max eq_refl); unfold vlen in *; lia).
      assert (forall i, i ∈ reverse (zseq 0 (Z.to_nat max)) <-> 0 <= i < vlen (vector q)) as Hel.
      { intros i. rewrite elem_of_reverse, elem_of_zseq, <- Hlen. unfold vlen. lia. }
      constructor; cbn [vector free_bitmap free_indices max_elts]; try done.
      * intros i Hi. rewrite Hel. split; [done|]. intros _.
        specialize (Hmq i). rewrite lookup_empty in Hmq. symmetry in Hmq.
        apply pool_slot_None in Hmq as [?|?]; [lia|done|done].
      * intros i. by rewrite Hel.
      * rewrite reverse_Permutation. apply zseq_NoDup.
    + rewrite reverse_Permutation. pose proof (Wx max eq_refl). unfold vlen in *. by replace (Z.to_nat max) with (length (vector q)) by lia.
  - eexists. split; [done|]. split; [done|]. apply pool_empty_dynamic_repr, bitmap_clear_all_wf.
Qed.

Lemma pool_set_bits_spec b ps :
  Bitmap.wf b -> (forall i, i ∈ ps -> 0 <= i) ->
  exists b', set_bits b ps = Some b' /\ Bitmap.wf b' /\
    forall i, Bitmap.is_set b' i = if decide (i ∈ ps) then true else Bitmap.is_set b i.
Proof.
  revert b. induction ps as [|j ps IH]; intros b Hb Hps; cbn [set_bits].
  { exists b. split; [done|]. split; [done|]. intros i.
    by rewrite decide_False by (by intros ?%not_elem_of_nil). }
  destruct (Bitmap.bitmap_set_total b j Hb) as (b1 & H1 & Hb1 & Hs1); [apply Hps; left|].
  rewrite H1. cbn [mbind option_bind].
  destruct (IH b1 Hb1) as (b2 & H2 & Hb2 & Hs2); [intros i Hi; apply Hps; by right|].
  exists b2. split; [done|]. split; [done|]. intros i. rewrite Hs2, Hs1.
  repeat case_decide; try done; rewrite elem_of_cons in *; tauto.
Qed.

Lemma bitmap_with_capacity_wf c : Bitmap.wf (Bitmap.with_capacity c).
Proof. apply Forall_replicate. split; [done|reflexivity]. Qed.

Lemma pool_with_fixed_capacity_repr max :
  in_word 32 max ->
  exists p, with_fixed_capacity max = Some p /\ vlen (vector p) = max /\
    max_elts p = Some max /\ represents p ∅.
Proof.
  intros [H0 Hmax]. unfold with_fixed_capacity.
  destruct (pool_set_bits_spec (Bitmap.with_capacity max) (zseq 0 (Z.to_nat max)))
    as (b & Hb & Hwb & Hs); [apply bitmap_with_capacity_wf|by intros i [? _]%elem_of_zseq|].
  rewrite Hb. cbn [mbind option_bind]. eexists. split; [done|].
  cbn [vector max_elts]. rewrite vlen_replicate. split; [lia|]. split; [done|].
  apply pool_empty_repr; cbn [vector free_indices]; rewrite ?length_replicate;
    [|apply reverse_Permutation].
  constructor; cbn [vector free_bitmap free_indices max_elts]; rewrite ?vlen_replicate; try done.
  - lia.
  - intros i Hi. rewrite Hs, decide_True by (apply elem_of_zseq; lia).
    rewrite elem_of_reverse, elem_of_zseq. split; [lia|done].
  - intros i. rewrite elem_of_reverse, elem_of_zseq. lia.
  - rewrite reverse_Permutation. apply zseq_NoDup.
  - intros i Hi _ Hf. rewrite Hs, decide_True in Hf by (apply elem_of_zseq; lia). done.
  - intros m [= <-]. lia.
Qed.

Lemma pool_dynamic_empty_repr c :
  represents (with_capacity c) ∅ /\ represents new ∅.
Proof.
  split; apply pool_empty_dynamic_repr; [apply bitmap_with_capacity_wf|constructor].
Qed.

Lemma clone_slots_spec p m ps :
  represents p m -> (forall i, i ∈ ps -> 0 <= i < vlen (vector p)) ->
  clone_slots p ps = Some ((fun i => m !! i) <$> ps).
Proof.
  intros [Hwf Hm] Hps. induction ps as [|i ps IH]; [done|]. cbn [clone_slots fmap list_fmap].
  rewrite IH by (intros j Hj; apply Hps; by right).
  pose proof (Hps i ltac:(left)) as Hi. rewrite Hm.
  destruct (Bitmap.is_set (free_bitmap p) i) eqn:Hb.
  - rewrite (proj2 (pool_slot_None p i Hwf)) by (by right). done.
  - destruct (wf_init _ p Hwf i Hi I Hb) as [v Hv].
    unfold assume_init. rewrite Hv, (pool_slot_intro p i v) by (done || lia). done.
Qed.

Lemma vget_fmap_zseq {A} (f : Z -> A) n i :
  0 <= i < Z.of_nat n -> vget (f <$> zseq 0 n) i = Some (f i).
Proof.
  intros Hi. unfold vget. destruct (Z.ltb_spec i 0); [lia|].
  rewrite list_lookup_fmap.
  enough (zseq 0 n !! Z.to_nat i = Some i) as -> by done.
  enough (forall a k, (k < n)%nat -> zseq a n !! k = Some (a + Z.of_nat k)) as Hz.
  { rewrite Hz by lia. f_equal. lia. }
  clear. induction n as [|n IH]; intros a k Hk; [lia|].
  destruct k as [|k]; simpl; [f_equal; lia|]. rewrite IH by lia. f_equal. lia.
Qed.

Lemma pool_clone_repr p m :
  represents p m -> exists p', clone p = Some p' /\ represents p' m.
Proof.
  intros Hrep. pose proof Hrep as [Hwf Hm]. unfold clone.
  rewrite (clone_slots_spec p m) by (done || intros i Hi%elem_of_zseq; unfold vlen; lia).
  cbn [mbind option_bind]. eexists. split; [done|].
  pose proof Hwf as [Wb Wl Wf Wr Wn Wi Wx].
  set (vec := (fun i => m !! i) <$> zseq 0 (length (vector p))).
  assert (vlen vec = vlen (vector p)) as Hlen.
  { unfold vlen, vec. by rewrite length_fmap, length_zseq. }
  assert (forall i, 0 <= i < vlen (vector p) -> vget vec i = Some (m !! i)) as Hg.
  { intros i Hi. unfold vec. apply (vget_fmap_zseq (fun i => m !! i)). unfold vlen in Hi. lia. }
  split.
  - constructor; cbn [vector free_bitmap free_indices max_elts]; rewrite ?Hlen; try done.
    intros i Hi _ Hb. rewrite Hg, Hm by done. destruct (Wi i Hi I Hb) as [v Hv].
    rewrite (pool_slot_intro p i v) by (done || lia). eauto.
  - intros i. rewrite Hm. unfold slot, assume_init. rewrite ?contains_key_eq. cbn [vector free_bitmap].
    rewrite Hlen. destruct (_ && _) eqn:E; [|done]. bool_prop.
    rewrite Hg, Hm by lia. destruct (Wi i ltac:(lia) I H1) as [v Hv].
    rewrite (pool_slot_intro p i v), Hv by (done || lia). done.
Qed.

End pool.

(** ** Properties *)



(** the iterator visits every occupied index exactly once, in increasing
    order, with its value. *)
Theorem pool_iter_correct {T} (p : t T) (m : gmap Z T) :
  represents p m ->
  exists l, iter p = Some l /\ StronglySorted Z.lt l.*1 /\
    forall i v, (i, v) ∈ l <-> m !! i = Some v.
Proof. apply pool_iter_repr. Qed.

Lemma pool_iter_correct_witness :
  exists l, iter (@with_capacity Z 3) = Some l /\ StronglySorted Z.lt l.*1.
Proof.
  destruct (pool_iter_correct (@with_capacity Z 3) ∅) as (l & H1 & H2 & _).
  { exact (proj1 (pool_dynamic_empty_repr 3)). }
  exists l. split; assumption.
Defined.

(** whole-pool operations: a new fixed pool is empty with its capacity
    reserved, [clear] empties a pool and resets the opaque word, [clone]
    represents the same map, and [insert] into a fixed pool panics exactly
    when it holds its maximum number of values. *)
Theorem pool_lifecycle {T} (p : t T) (m : gmap Z T) :
  represents p m ->
  (exists p', clear p = Some p' /\ opaque p' = 0 /\ represents p' ∅) /\
  (exists p', clone p = Some p' /\ represents p' m) /\
  (forall max v, max_elts p = Some max ->
     insert p v = None <-> Z.of_nat (size m) = max).
Proof.
  intros Hrep. split; [by eapply pool_clear_repr|]. split; [by apply pool_clone_repr|].
  intros max v Hmax. pose proof Hrep as [Hwf _].
  rewrite <- (pool_len_size p m Hrep). pose proof (wf_fixed _ _ Hwf max Hmax) as Hl.
  assert (vlen (free_indices p) <= vlen (vector p)) as Hle.
  { pose proof (Permutation_length (occupied_perm p Hwf)) as Hp.
    rewrite length_zseq, length_app in Hp. unfold vlen. lia. }
  unfold len, saturating_sub. rewrite Hl in *.
  destruct (free_indices p) as [|i l] eqn:Hf.
  - rewrite pool_insert_exhausted by (done || congruence). unfold vlen. simpl.
    pose proof (vlen_nonneg (vector p)). split; [lia|done].
  - destruct (pool_insert_repr p m v Hrep) as (p' & j & Hi & _); [left; congruence|].
    rewrite Hi. unfold vlen in *. simpl in *. split; [done|lia].
Qed.

Lemma pool_lifecycle_witness :
  exists p, with_fixed_capacity (T := Z) 0 = Some p /\ insert p 1 = None.
Proof.
  destruct (pool_with_fixed_capacity_repr (T := Z) 0) as (p & H1 & _ & H2 & H3).
  { split; reflexivity || discriminate. }
  exists p. split; [exact H1|].
  destruct (pool_lifecycle p ∅ H3) as (_ & _ & H). apply (H 0 1 H2). reflexivity.
Defined.

End Pool.
