(* ===== verification/InfraFifoQueue.v ===== *)
(** * The two-vector FIFO queue ([crates/hammer-infra/src/fifo_queue.rs])

    A queue is two vectors: [front], stored in reverse so that the oldest
    element is popped from its end, and [back], to which elements are pushed.
    [FifoQueue.to_list] is the sequence the queue stands for, oldest element
    first; the theorem at the end relates every operation to the operation on
    that sequence.  [None] is a panic (a failed [assert!] or an index out of
    range). *)

From S2P Require Import Prelude.

Module FifoQueue.

Record t (T : Type) := mk { front_vec : list T; back_vec : list T }.
Arguments mk {T}.
Arguments front_vec {T}.
Arguments back_vec {T}.

Section queue.
Context {T : Type}.
Implicit Types (q : t T) (index : Z) (v : T) (l : list T).

(** ** Vector operations of the standard library *)

(** [Vec::pop] *)
Definition vec_pop l : option (list T * T) :=
  x ← last l; Some (take (length l - 1) l, x).

(** [Vec::remove] *)
Definition vec_remove l (i : Z) : option (list T * T) :=
  x ← vget l i; Some (take (Z.to_nat i) l ++ drop (Z.to_nat i + 1) l, x).

(** [slice[a..].rotate_right(1)] *)
Definition rotate_tail_right l (a : Z) : option (list T) :=
  if (0 <=? a) && (a <=? vlen l) then
    let s := drop (Z.to_nat a) l in
    Some (take (Z.to_nat a) l ++ drop (length s - 1) s ++ take (length s - 1) s)
  else None.

(** ** Operations *)

Definition new : t T := mk [] [].

Definition len q : Z := vlen (front_vec q) + vlen (back_vec q).

Definition is_empty q : bool := (vlen (front_vec q) =? 0) && (vlen (back_vec q) =? 0).

Definition push_back q v : t T := mk (front_vec q) (back_vec q ++ [v]).

Definition insert q index v : option (t T) :=
  if len q <? index then None else
  if index =? len q then Some (push_back q v) else
  let front_len := vlen (front_vec q) in
  if index <? front_len then
    let storage_index := front_len - index in
    f ← rotate_tail_right (front_vec q ++ [v]) storage_index;
    Some (mk f (back_vec q))
  else
    let storage_index := index - front_len in
    b ← rotate_tail_right (back_vec q ++ [v]) storage_index;
    Some (mk (front_vec q) b).

Definition front q : option T :=
  match last (front_vec q) with
  | Some v => Some v
  | None => vget (back_vec q) 0
  end.

Definition back q : option T :=
  match last (back_vec q) with
  | Some v => Some v
  | None => vget (front_vec q) 0
  end.

Definition get q index : option T :=
  if len q <=? index then None else
  let front_len := vlen (front_vec q) in
  if index <? front_len then vget (front_vec q) (front_len - 1 - index)
  else vget (back_vec q) (index - front_len).

(** [while let Some(value) = self.back.pop() { self.front.push(value) }], the
    length of [back] being enough fuel. *)
Fixpoint move_loop (fuel : nat) q : t T :=
  match fuel with
  | O => q
  | S fuel =>
      match vec_pop (back_vec q) with
      | None => q
      | Some (b, v) => move_loop fuel (mk (front_vec q ++ [v]) b)
      end
  end.

Definition move_back_to_front q : t T := move_loop (length (back_vec q)) q.

Definition ensure_front q : t T :=
  if vlen (front_vec q) =? 0 then move_back_to_front q else q.

(** [front_mut], used to apply [f] to the oldest element in place. *)
Definition front_mut q (f : T -> T) : t T * bool :=
  let q := ensure_front q in
  match vupd (front_vec q) (vlen (front_vec q) - 1) f with
  | Some l => (mk l (back_vec q), true)
  | None => (q, false)
  end.

(** [get_mut], used to apply [f] to the element at [index]. *)
Definition get_mut q index (f : T -> T) : t T * bool :=
  if len q <=? index then (q, false) else
  let front_len := vlen (front_vec q) in
  if index <? front_len then
    match vupd (front_vec q) (front_len - 1 - index) f with
    | Some l => (mk l (back_vec q), true)
    | None => (q, false)
    end
  else
    match vupd (back_vec q) (index - front_len) f with
    | Some l => (mk (front_vec q) l, true)
    | None => (q, false)
    end.

Definition pop_front q : t T * option T :=
  let q := ensure_front q in
  match vec_pop (front_vec q) with
  | Some (l, v) => (mk l (back_vec q), Some v)
  | None => (q, None)
  end.

Definition remove q index : option (t T * T) :=
  if len q <=? index then None else
  let front_len := vlen (front_vec q) in
  if index <? front_len then
    '(l, v) ← vec_remove (front_vec q) (front_len - 1 - index);
    Some (mk l (back_vec q), v)
  else
    '(l, v) ← vec_remove (back_vec q) (index - front_len);
    Some (mk (front_vec q) l, v).

Definition clear q : t T := mk [] [].

(** [Iter]: what is left of the reversed front slice and of the back slice. *)
Definition iter_next (it : list T * list T) : option (T * (list T * list T)) :=
  match vec_pop (fst it) with
  | Some (front, v) => Some (v, (front, snd it))
  | None =>
      match snd it with
      | v :: back => Some (v, (fst it, back))
      | [] => None
      end
  end.

Fixpoint iter_collect (fuel : nat) (it : list T * list T) : list T :=
  match fuel with
  | O => []
  | S fuel =>
      match iter_next it with
      | Some (v, it) => v :: iter_collect fuel it
      | None => []
      end
  end.

(** The items [iter] yields; the iterator is done after [len] items. *)
Definition iter q : list T := iter_collect (Z.to_nat (len q) + 1) (front_vec q, back_vec q).

(** [for value in queue.iter_mut()] with [f] applied to each item. *)
Definition iter_mut q (f : T -> T) : t T := mk (f <$> front_vec q) (f <$> back_vec q).

(** ** Refinement of the sequence *)

Definition to_list q : list T := reverse (front_vec q) ++ back_vec q.

Lemma queue_len q : len q = vlen (to_list q).
Proof. unfold len, to_list, vlen. rewrite length_app, length_reverse. lia. Qed.

Lemma queue_iter_collect fuel front back :
  (length front + length back < fuel)%nat ->
  iter_collect fuel (front, back) = reverse front ++ back.
Proof.
  revert front back. induction fuel as [|fuel IH]; intros front back Hf; [lia|].
  cbn [iter_collect]. unfold iter_next, vec_pop. cbn [fst snd].
  destruct front as [|v front _] using rev_ind.
  - destruct back as [|v back]; [done|]. simpl in *. rewrite IH; [done|]. simpl. lia.
  - rewrite last_snoc. cbn [mbind option_bind]. rewrite length_app in *. cbn [length] in *.
    rewrite Nat.add_sub, take_app_length, IH by lia. by rewrite reverse_snoc.
Qed.

Lemma queue_iter q : iter q = to_list q.
Proof. apply queue_iter_collect. unfold len, vlen. lia. Qed.

Lemma queue_iter_mut q f : to_list (iter_mut q f) = f <$> to_list q.
Proof. unfold to_list, iter_mut. cbn. by rewrite fmap_app, fmap_reverse. Qed.

Lemma vlen_zero {A} (l : list A) : vlen l = 0 -> l = [].
Proof. unfold vlen. destruct l; simpl; [done|lia]. Qed.

Lemma vec_pop_snoc l v : vec_pop (l ++ [v]) = Some (l, v).
Proof.
  unfold vec_pop. rewrite last_snoc. cbn [mbind option_bind].
  rewrite length_app, Nat.add_sub, take_app_length. done.
Qed.

Lemma vget_reverse l i :
  0 <= i < vlen l -> vget (reverse l) i = vget l (vlen l - 1 - i).
Proof.
  unfold vget, vlen. intros Hi.
  destruct (Z.ltb_spec i 0), (Z.ltb_spec (Z.of_nat (length l) - 1 - i) 0); try lia.
  rewrite reverse_lookup by lia. f_equal. lia.
Qed.

Lemma queue_get q i :
  0 <= i -> get q i = vget (to_list q) i.
Proof.
  intros Hi. unfold get, to_list. pose proof (queue_len q) as Hl. unfold to_list in Hl.
  assert (vlen (reverse (front_vec q)) = vlen (front_vec q)) as Hr
    by (unfold vlen; by rewrite length_reverse).
  case_if; [by rewrite vget_None by lia|]. case_if.
  - rewrite vget_app_l, vget_reverse by lia. done.
  - rewrite vget_app_r, Hr by lia. done.
Qed.

Lemma rotate_tail_snoc l v a :
  0 <= a <= vlen l ->
  rotate_tail_right (l ++ [v]) a = Some (take (Z.to_nat a) l ++ v :: drop (Z.to_nat a) l).
Proof.
  intros Ha. unfold rotate_tail_right. rewrite vlen_app. change (vlen [v]) with 1.
  destruct (Z.leb_spec 0 a), (Z.leb_spec a (vlen l + 1)); try lia. cbn [andb].
  unfold vlen in Ha. rewrite drop_app_le, take_app_le by lia.
  rewrite length_app, Nat.add_sub, drop_app_length, take_app_length. done.
Qed.

Lemma queue_insert q i v :
  0 <= i <= len q ->
  exists q', insert q i v = Some q' /\
    to_list q' = take (Z.to_nat i) (to_list q) ++ v :: drop (Z.to_nat i) (to_list q).
Proof.
  intros Hi. pose proof (queue_len q) as Hl. unfold insert.
  destruct (Z.ltb_spec (len q) i); [lia|].
  pose proof (vlen_nonneg (front_vec q)). pose proof (vlen_nonneg (back_vec q)).
  destruct (Z.eqb_spec i (len q)) as [->|Hne].
  { eexists. split; [done|]. rewrite Hl. unfold vlen. rewrite Nat2Z.id, take_ge, drop_ge by lia.
    unfold to_list. cbn [push_back front_vec back_vec]. by rewrite <- app_assoc. }
  unfold len in *. destruct (Z.ltb_spec i (vlen (front_vec q))).
  - rewrite rotate_tail_snoc by lia. eexists. split; [done|].
    unfold to_list. cbn [front_vec back_vec].
    set (n := Z.to_nat (vlen (front_vec q) - i)).
    assert (length (reverse (drop n (front_vec q))) = Z.to_nat i) as Hn.
    { rewrite length_reverse, length_drop. unfold n, vlen in *. lia. }
    rewrite <- (take_drop n (front_vec q)) at 3 4.
    rewrite !reverse_app, reverse_cons, <- !app_assoc, <- Hn.
    rewrite take_app_length, drop_app_length. done.
  - rewrite rotate_tail_snoc by lia. eexists. split; [done|].
    unfold to_list. cbn [front_vec back_vec].
    rewrite take_app_ge, drop_app_ge by (rewrite length_reverse; unfold vlen in *; lia).
    rewrite length_reverse, <- app_assoc. unfold vlen in *.
    by replace (Z.to_nat (i - Z.of_nat (length (front_vec q))))
      with (Z.to_nat i - length (front_vec q))%nat by lia.
Qed.

Lemma move_loop_spec fuel q :
  (length (back_vec q) <= fuel)%nat ->
  move_loop fuel q = mk (front_vec q ++ reverse (back_vec q)) [].
Proof.
  revert q. induction fuel as [|fuel IH]; intros [f b] Hf; cbn [front_vec back_vec] in *.
  { destruct b; [|simpl in Hf; lia]. by rewrite app_nil_r. }
  cbn [move_loop back_vec]. destruct b as [|v b _] using rev_ind.
  - cbn. by rewrite app_nil_r.
  - rewrite vec_pop_snoc, IH; cbn [front_vec back_vec].
    + by rewrite reverse_snoc, <- app_assoc.
    + rewrite length_app in Hf. simpl in Hf. lia.
Qed.

Lemma ensure_front_list q :
  to_list (ensure_front q) = to_list q /\
  (to_list q <> [] -> front_vec (ensure_front q) <> []).
Proof.
  unfold ensure_front. destruct (Z.eqb_spec (vlen (front_vec q)) 0) as [E|E].
  - apply vlen_zero in E. unfold move_back_to_front. rewrite move_loop_spec by done.
    unfold to_list. cbn [front_vec back_vec]. rewrite E, app_nil_l.
    rewrite reverse_involutive, app_nil_r. split; [done|].
    cbn. intros H H'. apply H. by rewrite <- (reverse_involutive (back_vec q)), H'.
  - split; [done|]. intros _ H. rewrite H in E. done.
Qed.

Lemma queue_pop_front q :
  pop_front q = match to_list q with
                | [] => (ensure_front q, None)
                | v :: _ => (fst (pop_front q), Some v)
                end /\ to_list (fst (pop_front q)) = tail (to_list q).
Proof.
  destruct (ensure_front_list q) as [Hl Hne]. unfold pop_front.
  destruct (front_vec (ensure_front q)) as [|v l _] eqn:Hf using rev_ind.
  - destruct (to_list q) as [|v l] eqn:E; [|by destruct Hne].
    cbn. by rewrite Hl.
  - rewrite vec_pop_snoc. cbn [fst]. rewrite <- Hl. unfold to_list at 1 2 3.
    rewrite Hf, reverse_snoc. cbn. done.
Qed.

(** Removing storage position [n] of the reversed front part. *)
Lemma remove_reversed f b n v :
  f !! n = Some v ->
  reverse (take n f ++ drop (n + 1) f) ++ b =
  take (length f - 1 - n) (reverse f ++ b) ++ drop (length f - 1 - n + 1) (reverse f ++ b).
Proof.
  intros Hn. pose proof (take_drop_middle _ _ _ Hn) as Hs.
  apply lookup_lt_Some in Hn. replace (S n) with (n + 1)%nat in Hs by lia.
  assert (length (drop (n + 1) f) = length f - 1 - n)%nat as Hl by (rewrite length_drop; lia).
  assert (reverse f = reverse (drop (n + 1) f) ++ [v] ++ reverse (take n f)) as Hr.
  { rewrite <- Hs at 1. by rewrite reverse_app, reverse_cons, <- app_assoc. }
  rewrite reverse_app, Hr, <- !app_assoc, <- Hl, <- (length_reverse (drop _ _)).
  rewrite take_app_length, drop_app_ge by lia. by rewrite Nat.add_sub_swap, Nat.sub_diag by lia.
Qed.

Lemma queue_remove q i :
  0 <= i < len q ->
  exists q' v, remove q i = Some (q', v) /\ vget (to_list q) i = Some v /\
    to_list q' = take (Z.to_nat i) (to_list q) ++ drop (Z.to_nat i + 1) (to_list q).
Proof.
  intros Hi. pose proof (queue_get q i ltac:(lia)) as Hg. unfold get in Hg.
  unfold remove. destruct (Z.leb_spec (len q) i); [lia|]. unfold len in *.
  destruct (Z.ltb_spec i (vlen (front_vec q))).
  - destruct (vget_in_range (front_vec q) (vlen (front_vec q) - 1 - i) ltac:(lia)) as [v Hv].
    unfold vec_remove. rewrite Hv. cbn [mbind option_bind].
    eexists _, v. split; [done|]. split; [congruence|].
    unfold to_list. cbn [front_vec back_vec].
    set (n := Z.to_nat (vlen (front_vec q) - 1 - i)) in *.
    assert (front_vec q !! n = Some v) as Hn.
    { unfold vget in Hv. destruct (Z.ltb_spec (vlen (front_vec q) - 1 - i) 0); [done|exact Hv]. }
    apply lookup_lt_Some in Hn as Hlt.
    replace (Z.to_nat i) with (length (front_vec q) - 1 - n)%nat by (unfold n, vlen in *; lia).
    by apply (remove_reversed _ _ _ v).
  - destruct (vget_in_range (back_vec q) (i - vlen (front_vec q)) ltac:(lia)) as [v Hv].
    unfold vec_remove. rewrite Hv. cbn [mbind option_bind].
    eexists _, v. split; [done|]. split; [congruence|].
    unfold to_list. cbn [front_vec back_vec]. unfold vlen in *.
    rewrite take_app_ge, drop_app_ge by (rewrite length_reverse; lia).
    rewrite length_reverse, <- app_assoc.
    do 3 f_equal; lia.
Qed.

Lemma queue_ends q : front q = head (to_list q) /\ back q = last (to_list q).
Proof.
  unfold front, back, to_list. split.
  - destruct (front_vec q) as [|v l _] using rev_ind.
    + cbn. by destruct (back_vec q).
    + by rewrite last_snoc, reverse_snoc.
  - destruct (back_vec q) as [|v l _] using rev_ind.
    + cbn. rewrite app_nil_r. destruct (front_vec q) as [|v l]; [done|].
      by rewrite reverse_cons, last_snoc.
    + by rewrite app_assoc, !last_snoc.
Qed.

(** In-place updates, described by the element they change. *)
Lemma queue_get_mut q i f :
  0 <= i ->
  let '(q', found) := get_mut q i f in
  found = bool_decide (i < len q) /\ len q' = len q /\
  forall j, 0 <= j -> vget (to_list q') j =
    if decide (i = j) then f <$> vget (to_list q) j else vget (to_list q) j.
Proof.
  intros Hi. unfold get_mut.
  assert (forall q' b, len q' = len q -> b = bool_decide (i < len q) ->
    (forall j, 0 <= j -> get q' j = if decide (i = j) then f <$> get q j else get q j) ->
    b = bool_decide (i < len q) /\ len q' = len q /\
    forall j, 0 <= j -> vget (to_list q') j =
      if decide (i = j) then f <$> vget (to_list q) j else vget (to_list q) j) as Hgen.
  { intros q' b Hl -> Hg. split; [done|]. split; [done|].
    intros j Hj. rewrite <- !queue_get by done. auto. }
  destruct (Z.leb_spec (len q) i) as [Hge|Hlt].
  { apply Hgen; clear Hgen; [done|symmetry; apply bool_decide_eq_false; lia|].
    intros j Hj. case_decide; [subst|done]. unfold get.
    destruct (Z.leb_spec (len q) j); [done|lia]. }
  destruct (Z.ltb_spec i (vlen (front_vec q))) as [Hf|Hf].
  - destruct (vget_in_range (front_vec q) (vlen (front_vec q) - 1 - i)) as [v Hv]; [lia|].
    destruct (vupd (front_vec q) _ f) as [l|] eqn:Hu; [|by rewrite (vupd_Some _ _ _ _ Hv) in Hu].
    pose proof (vupd_len _ _ _ _ Hu) as Hlen.
    apply Hgen; clear Hgen; [unfold len; cbn; lia|symmetry; by apply bool_decide_eq_true|].
    intros j Hj. unfold get, len. cbn [front_vec back_vec]. rewrite Hlen.
    repeat case_if; try rewrite (vget_vupd _ _ _ _ _ Hu);
      repeat case_decide; subst; try lia; done.
  - pose proof (vlen_nonneg (front_vec q)). unfold len in Hlt.
    destruct (vget_in_range (back_vec q) (i - vlen (front_vec q))) as [v Hv]; [lia|].
    destruct (vupd (back_vec q) _ f) as [l|] eqn:Hu; [|by rewrite (vupd_Some _ _ _ _ Hv) in Hu].
    pose proof (vupd_len _ _ _ _ Hu) as Hlen.
    apply Hgen; clear Hgen; [unfold len; cbn; lia|symmetry; by apply bool_decide_eq_true|].
    intros j Hj. unfold get, len. cbn [front_vec back_vec]. rewrite Hlen.
    repeat case_if; try rewrite (vget_vupd _ _ _ _ _ Hu);
      repeat case_decide; subst; try lia; done.
Qed.

End queue.

(** ** Property *)

(** C39: the queue implements a sequence: [push_back] appends, [pop_front]
    removes and returns the first element, [insert] and [remove] work at a
    position and panic exactly when the position is out of range, and [front],
    [back], [get], [len] and the iterator read the sequence, and [get_mut]
    and [iter_mut] give access to the one element named and to every element. *)
Theorem fifo_queue_refines_list {T} (q : t T) :
  len q = vlen (to_list q) /\ iter q = to_list q /\
  front q = head (to_list q) /\ back q = last (to_list q) /\
  (forall i, 0 <= i -> get q i = vget (to_list q) i) /\
  (forall v, to_list (push_back q v) = to_list q ++ [v]) /\
  (snd (pop_front q) = head (to_list q) /\ to_list (fst (pop_front q)) = tail (to_list q)) /\
  (forall i v, 0 <= i -> match insert q i v with
     | Some q' => i <= vlen (to_list q) /\
         to_list q' = take (Z.to_nat i) (to_list q) ++ v :: drop (Z.to_nat i) (to_list q)
     | None => vlen (to_list q) < i end) /\
  (forall i, 0 <= i -> match remove q i with
     | Some (q', v) => vget (to_list q) i = Some v /\
         to_list q' = take (Z.to_nat i) (to_list q) ++ drop (Z.to_nat i + 1) (to_list q)
     | None => vlen (to_list q) <= i end) /\
  (forall f, to_list (iter_mut q f) = f <$> to_list q) /\
  (forall i f, 0 <= i -> let '(q', found) := get_mut q i f in
     found = bool_decide (i < len q) /\ len q' = len q /\
     forall j, 0 <= j -> vget (to_list q') j =
       if decide (i = j) then f <$> vget (to_list q) j else vget (to_list q) j).
Proof.
  destruct (queue_ends q) as [Hf Hb]. destruct (queue_pop_front q) as [Hp Hp'].
  split; [apply queue_len|]. split; [apply queue_iter|]. split; [done|]. split; [done|].
  split; [intros; by apply queue_get|].
  split; [intros; unfold to_list; cbn; by rewrite app_assoc|].
  split; [split; [|done]; rewrite Hp; by destruct (to_list q)|].
  rewrite <- queue_len. split; [|split; [|split; [intros f; apply queue_iter_mut|]]]; intros i.
  - intros v Hi. destruct (Z_lt_le_dec (len q) i).
    + unfold insert. destruct (Z.ltb_spec (len q) i); [done|lia].
    + destruct (queue_insert q i v ltac:(lia)) as (q' & -> & ?). done.
  - intros Hi. destruct (Z_lt_le_dec i (len q)).
    + destruct (queue_remove q i ltac:(lia)) as (q' & v & -> & ? & ?). done.
    + unfold remove. destruct (Z.leb_spec (len q) i); [done|lia].
  - intros f Hi. by apply queue_get_mut.
Qed.

End FifoQueue.
