(* ===== verification/InfraChecksum.v ===== *)
(** * The Internet checksum ([crates/hammer-infra/src/checksum.rs], with the
      lane operations of [crates/hammer-infra/src/simd.rs])

    [InternetChecksum.t] is the running state: a 64-bit sum and the byte left
    over when the bytes seen so far are odd in number.  The lane-parallel
    accumulators ([accumulate_simd] for 8, 16 and 32 lanes) and the 64-bit word
    accumulator are modelled with the byte order of the target as a section
    variable, since the source tests it in one and not in the other.

    The theorems: every SIMD width computes the one's complement checksum of
    RFC 1071 of the concatenation of the parts, however the bytes are split
    into parts; a packet whose checksum field was filled with the computed
    value verifies (its checksum is 0); and on a big-endian target the word
    accumulator does not agree with the lane accumulator. *)

From S2P Require Import Prelude.

Module InternetChecksum.

Record t := mk { sum : Z; trailing_high : option Z }.

Definition ACCUMULATE_CHUNK_BYTES : Z := 64 * 1024.

(** [SIMD_BYTES] as the four instantiations of the const parameter. *)
Inductive simd_bytes := Simd1 | Simd16 | Simd32 | Simd64.

(** ** Folding *)

(** [while (sum >> 16) != 0]; six rounds are enough for a 64-bit sum
    ([fold_enough]). *)
Fixpoint fold_loop (fuel : nat) (s : Z) : option Z :=
  if Z.shiftr s 16 =? 0 then Some s else
  match fuel with
  | O => None
  | S fuel => fold_loop fuel (Z.land s 65535 + Z.shiftr s 16)
  end.

Definition fold_checksum_sum (s : Z) : option Z := fold_loop 6 s.

Definition finish_checksum (s : Z) : option Z :=
  r ← fold_checksum_sum s; Some (wnot 16 (wrap 16 r)).

Section target.
(** [target_endian = "little"] *)
Context (little : bool).

(** ** Reads in the target's byte order *)

Definition read_ne (bytes : list Z) : Z :=
  if little then le_combine bytes else be_combine bytes.

(** ** Word accumulator *)

Definition swap_bytes_in_each_u16 (value : Z) : Z :=
  Z.lor (wrap 64 (Z.shiftl (Z.land value 0x00ff00ff00ff00ff) 8))
        (Z.shiftr (Z.land value 0xff00ff00ff00ff00) 8).

Definition wadd (a b : Z) : Z := wrap 64 (a + b).

Fixpoint accumulate_pairs (s : Z) (bytes : list Z) : Z :=
  match bytes with
  | a :: b :: bytes => accumulate_pairs (wadd s (be_combine [a; b])) bytes
  | _ => s
  end.

Fixpoint accumulate_words (s : Z) (bytes : list Z) : Z :=
  match bytes with
  | b0 :: b1 :: b2 :: b3 :: b4 :: b5 :: b6 :: b7 :: rest =>
      let word := read_ne [b0; b1; b2; b3; b4; b5; b6; b7] in
      let swapped := swap_bytes_in_each_u16 word in
      accumulate_words
        (wadd (wadd (wadd (wadd s (Z.land swapped 65535))
                          (Z.land (Z.shiftr swapped 16) 65535))
                    (Z.land (Z.shiftr swapped 32) 65535))
              (Z.shiftr swapped 48)) rest
  | _ => accumulate_pairs s bytes
  end.

Definition accumulate_u64_words (bytes : list Z) : Z := accumulate_words 0 bytes.

(** ** Lane accumulator *)

(** [ptr::read_unaligned] of [[u16; LANES]] *)
Fixpoint read_lanes (lanes : nat) (bytes : list Z) : list Z :=
  match lanes, bytes with
  | S lanes, a :: b :: bytes => read_ne [a; b] :: read_lanes lanes bytes
  | _, _ => []
  end.

(** [u16::swap_bytes] *)
Definition swap_u16 (w : Z) : Z := Z.lor (wrap 16 (Z.shiftl w 8)) (Z.shiftr w 8).

(** [Simd<u32>::reduce_sum]: no sum of at most 32 lanes of 16 bits overflows
    32 bits ([reduce_sum_exact]). *)
Definition reduce_sum (lanes : list Z) : Z := foldl (fun a b => wrap 32 (a + b)) 0 lanes.

Fixpoint accumulate_simd_loop (fuel lanes : nat) (total : Z) (bytes : list Z) : option Z :=
  if (2 * lanes <=? length bytes)%nat then
    match fuel with
    | O => None
    | S fuel =>
        let words := read_lanes lanes bytes in
        let words := if little then swap_u16 <$> words else words in
        accumulate_simd_loop fuel lanes (wadd total (reduce_sum words)) (drop (2 * lanes) bytes)
    end
  else Some (wadd total (accumulate_u64_words bytes)).

Definition accumulate_simd (lanes : nat) (bytes : list Z) : option Z :=
  accumulate_simd_loop (length bytes) lanes 0 bytes.

Definition accumulate_for_simd (w : simd_bytes) (bytes : list Z) : option Z :=
  match w with
  | Simd64 => accumulate_simd 32 bytes
  | Simd32 => accumulate_simd 16 bytes
  | Simd16 => accumulate_simd 8 bytes
  | Simd1 => Some (accumulate_u64_words bytes)
  end.

(** ** The incremental checksum *)

(** [remainder[..even_len].chunks(ACCUMULATE_CHUNK_BYTES)] *)
Fixpoint fold_chunks (fuel : nat) (w : simd_bytes) (s : Z) (bytes : list Z) : option Z :=
  match bytes, fuel with
  | [], _ => Some s
  | _, O => None
  | _, S fuel =>
      let n := Z.to_nat ACCUMULATE_CHUNK_BYTES in
      acc ← accumulate_for_simd w (take n bytes);
      s ← fold_checksum_sum (wadd s acc);
      fold_chunks fuel w s (drop n bytes)
  end.

Definition write_remainder (w : simd_bytes) (s : Z) (remainder : list Z) : option t :=
  let even_len := Nat.sub (length remainder) (Nat.modulo (length remainder) 2) in
  let even := take even_len remainder in
  s ← fold_chunks (length even) w s even;
  Some (mk s (remainder !! even_len)).

Definition write_checksum (w : simd_bytes) (c : t) (bytes : list Z) : option t :=
  match trailing_high c with
  | Some high =>
      match bytes with
      | [] => Some c
      | low :: rest => write_remainder w (wadd (sum c) (be_combine [high; low])) rest
      end
  | None => write_remainder w (sum c) bytes
  end.

Definition finish (c : t) : option Z :=
  let s := match trailing_high c with
           | Some high => wadd (sum c) (Z.shiftl high 8)
           | None => sum c
           end in
  finish_checksum s.

Fixpoint write_parts (w : simd_bytes) (c : t) (parts : list (list Z)) : option t :=
  match parts with
  | [] => Some c
  | part :: parts => c ← write_checksum w c part; write_parts w c parts
  end.

Definition checksum_parts_with_simd (w : simd_bytes) (parts : list (list Z)) : option Z :=
  c ← write_parts w (mk 0 None) parts;
  r ← finish c;
  Some (wrap 16 r).

End target.

(** ** The reference: RFC 1071 *)

(** The sum of the big-endian 16-bit words, an odd last byte padded with 0. *)
Fixpoint sum16 (l : list Z) : Z :=
  match l with
  | a :: b :: l => a * 256 + b + sum16 l
  | [a] => a * 256
  | [] => 0
  end.

(** One's complement sum: end-around carries reduce modulo 65535, and only the
    empty sum is 0. *)
Definition ones_sum (n : Z) : Z := if n =? 0 then 0 else (n - 1) mod 65535 + 1.

Definition rfc1071 (l : list Z) : Z := 65535 - ones_sum (sum16 l).

(** ** Folding computes the one's complement sum *)

(** [ocr s n]: [s] and [n] have the same one's complement value. *)
Definition ocr (s n : Z) : Prop := 0 <= s /\ s mod 65535 = n mod 65535 /\ (s = 0 <-> n = 0).

Lemma ocr_refl n : 0 <= n -> ocr n n.
Proof. by repeat split. Qed.

Lemma ocr_add s n k : ocr s n -> 0 <= n -> 0 <= k -> ocr (s + k) (n + k).
Proof.
  intros (H0 & Hm & Hz) Hn Hk. split; [lia|]. split; [|lia].
  rewrite Zplus_mod, Hm, <- Zplus_mod. done.
Qed.

Lemma ocr_trans a b c : ocr a b -> ocr b c -> ocr a c.
Proof. intros (? & ? & ?) (? & ? & ?). repeat split; [done|congruence|tauto|tauto]. Qed.

Lemma fold_step_ocr s :
  0 <= s -> ocr (Z.land s 65535 + Z.shiftr s 16) s.
Proof.
  intros Hs. change 65535 with (Z.ones 16).
  rewrite Z.land_ones, Z.shiftr_div_pow2 by lia. change (2 ^ 16) with 65536.
  split; [zdm|]. split; [|zdm].
  rewrite (Z.div_mod s 65536) at 3 by lia.
  replace (65536 * (s / 65536) + s mod 65536)
    with (s mod 65536 + s / 65536 + s / 65536 * 65535) by lia.
  by rewrite Z.mod_add by lia.
Qed.

Lemma fold_loop_spec fuel s r : 0 <= s -> fold_loop fuel s = Some r -> ocr r s /\ r < 65536.
Proof.
  revert s. induction fuel as [|fuel IH]; intros s Hs H; cbn [fold_loop] in H;
    rewrite Z.shiftr_div_pow2 in H by lia; change (2 ^ 16) with 65536 in H;
    destruct (Z.eqb_spec (s / 65536) 0) as [E|E]; simplify_eq.
  - split; [by apply ocr_refl|zdm].
  - split; [by apply ocr_refl|zdm].
  - pose proof (fold_step_ocr s Hs) as Hst.
    rewrite Z.shiftr_div_pow2 in Hst by lia. change (2 ^ 16) with 65536 in Hst.
    apply IH in H as [Ho Hr]; [|apply Hst]. split; [eapply ocr_trans; eauto|done].
Qed.

(** Six rounds are enough below [2^64]. *)
Lemma fold_enough s : 0 <= s < 2 ^ 64 -> is_Some (fold_checksum_sum s).
Proof.
  assert (forall fuel b b', b' = 65536 + b / 65536 ->
    (forall s, 0 <= s < b' -> is_Some (fold_loop fuel s)) ->
    forall s, 0 <= s < b -> is_Some (fold_loop (S fuel) s)) as Hstep.
  { intros fuel b b' -> IH x Hx. cbn [fold_loop]. destruct (_ =? 0); [eauto|].
    apply IH. change 65535 with (Z.ones 16).
    rewrite Z.land_ones, Z.shiftr_div_pow2 by lia. change (2 ^ 16) with 65536. zdm. }
  unfold fold_checksum_sum. revert s.
  apply (Hstep 5%nat _ (65536 + 2 ^ 48)); [reflexivity|].
  apply (Hstep 4%nat _ (65537 + 2 ^ 32)); [reflexivity|].
  apply (Hstep 3%nat _ 131073); [reflexivity|].
  apply (Hstep 2%nat _ 65538); [reflexivity|].
  intros x Hx. cbn [fold_loop]. change 65535 with (Z.ones 16).
  rewrite !Z.land_ones, !Z.shiftr_div_pow2 by lia. change (2 ^ 16) with 65536.
  case_if; [eauto|]. rewrite (proj2 (Z.eqb_eq _ _)); [eauto|]. zdm.
Qed.

Lemma fold_total s :
  0 <= s < 2 ^ 64 -> exists r, fold_checksum_sum s = Some r /\ ocr r s /\ r < 65536.
Proof.
  intros Hs. destruct (fold_enough s Hs) as [r Hr]. exists r. split; [done|].
  eapply fold_loop_spec; [|exact Hr]. lia.
Qed.

Lemma ocr_ones_sum r n : ocr r n -> 0 <= n -> r < 65536 -> r = ones_sum n.
Proof.
  intros (H0 & Hm & Hz) Hn Hr. unfold ones_sum. case_if; [tauto|].
  assert (r <> 0) by tauto.
  assert (r - 1 = (n - 1) mod 65535) as Hr1; [|lia].
  rewrite <- (Z.mod_small (r - 1) 65535) by lia.
  by rewrite <- Zminus_mod_idemp_l, Hm, Zminus_mod_idemp_l.
Qed.

(** ** The accumulators compute [sum16] *)

Lemma byte_testbit b r i :
  is_byte b -> 0 <= i -> Z.testbit (b + 256 * r) i = if i <? 8 then Z.testbit b i else Z.testbit r (i - 8).
Proof.
  intros Hb Hi. unfold is_byte in Hb. destruct (Z.ltb_spec i 8).
  - rewrite <- (Z.mod_pow2_bits_low (b + 256 * r) 8) by lia.
    replace (b + 256 * r) with (b + r * 2 ^ 8) by lia.
    rewrite Z.mod_add by lia. by rewrite Z.mod_small by lia.
  - replace i with (i - 8 + 8) at 1 by lia. rewrite <- Z.shiftr_spec by lia.
    f_equal. rewrite Z.shiftr_div_pow2 by lia. change (2 ^ 8) with 256.
    rewrite (Z.mul_comm 256), Z.div_add, Z.div_small by lia. done.
Qed.

Lemma byte_pair_testbit a b i :
  is_byte b -> 0 <= i -> Z.testbit (a * 256 + b) i = if i <? 8 then Z.testbit b i else Z.testbit a (i - 8).
Proof. intros. rewrite <- byte_testbit by done. f_equal. lia. Qed.

Lemma byte_testbit_high b i : is_byte b -> 8 <= i -> Z.testbit b i = false.
Proof.
  intros Hb Hi. unfold is_byte in Hb. destruct (Z.eq_dec b 0) as [->|]; [apply Z.testbit_0_l|].
  apply Z.bits_above_log2; [lia|]. apply Z.log2_lt_pow2; [lia|].
  apply Z.lt_le_trans with (2 ^ 8); [lia|]. apply Z.pow_le_mono_r; lia.
Qed.

Lemma le_combine_testbit l (j : nat) b i :
  bytes_ok l -> l !! j = Some b -> 0 <= i < 8 ->
  Z.testbit (le_combine l) (8 * Z.of_nat j + i) = Z.testbit b i.
Proof.
  revert j. induction l as [|x l IH]; intros j Hl Hj Hi; [done|].
  apply Forall_cons in Hl as [Hx Hl]. cbn [le_combine].
  rewrite byte_testbit by (done || lia). destruct j as [|j]; simpl in Hj.
  - simplify_eq. destruct (Z.ltb_spec (8 * Z.of_nat 0 + i) 8); [f_equal; lia|lia].
  - destruct (Z.ltb_spec (8 * Z.of_nat (S j) + i) 8); [lia|].
    rewrite <- (IH j) by done. f_equal. lia.
Qed.

(** Facts about the two constant masks, checked on all 64 positions. *)
Lemma check_positions (f g : Z -> bool) n :
  forallb (fun j => Bool.eqb (f j) (g j)) (zseq 0 n) = true ->
  forall j, 0 <= j < Z.of_nat n -> f j = g j.
Proof.
  intros H j Hj. rewrite forallb_forall in H. apply eqb_prop, H.
  apply list_elem_of_In, elem_of_zseq. lia.
Qed.

Lemma mask_low_testbit j :
  0 <= j < 64 -> Z.testbit 0x00ff00ff00ff00ff j = (j mod 16 <? 8).
Proof.
  apply (check_positions (Z.testbit 0x00ff00ff00ff00ff) (fun j => j mod 16 <? 8) 64).
  reflexivity.
Qed.

Lemma mask_high_testbit j :
  0 <= j < 64 -> Z.testbit 0xff00ff00ff00ff00 j = negb (j mod 16 <? 8).
Proof.
  apply (check_positions (Z.testbit 0xff00ff00ff00ff00) (fun j => negb (j mod 16 <? 8)) 64).
  reflexivity.
Qed.

Lemma swap_testbit v j :
  0 <= j < 64 ->
  Z.testbit (swap_bytes_in_each_u16 v) j =
  if j mod 16 <? 8 then Z.testbit v (j + 8) else Z.testbit v (j - 8).
Proof.
  intros Hj. unfold swap_bytes_in_each_u16, wrap.
  rewrite Z.lor_spec, Z.mod_pow2_bits_low, Z.shiftl_spec, Z.shiftr_spec, !Z.land_spec by lia.
  destruct (Z.ltb_spec (j mod 16) 8) as [Hlo|Hhi].
  - rewrite (mask_high_testbit (j + 8)) by zdm.
    destruct (Z.ltb_spec ((j + 8) mod 16) 8); [zdm|]. cbn [negb]. rewrite andb_true_r.
    destruct (Z_lt_le_dec j 8).
    + by rewrite (Z.testbit_neg_r v (j - 8)) by lia.
    + rewrite mask_low_testbit by lia. destruct (Z.ltb_spec ((j - 8) mod 16) 8); [zdm|].
      by rewrite andb_false_r.
  - rewrite mask_low_testbit by zdm.
    destruct (Z.ltb_spec ((j - 8) mod 16) 8); [|zdm]. rewrite andb_true_r.
    assert (Z.testbit 0xff00ff00ff00ff00 (j + 8) = false) as ->.
    { destruct (Z_lt_le_dec (j + 8) 64).
      - rewrite mask_high_testbit by lia. destruct (Z.ltb_spec ((j + 8) mod 16) 8); [done|zdm].
      - apply Z.bits_above_log2; [lia|]. apply Z.lt_le_trans with 64; [reflexivity|lia]. }
    by rewrite andb_false_r, orb_false_r.
Qed.

Lemma swap_testbit_high v j : 64 <= j -> Z.testbit (swap_bytes_in_each_u16 v) j = false.
Proof.
  intros Hj. unfold swap_bytes_in_each_u16, wrap.
  rewrite Z.lor_spec, Z.mod_pow2_bits_high, Z.shiftr_spec, Z.land_spec by lia.
  rewrite (Z.bits_above_log2 0xff00ff00ff00ff00); [apply andb_false_r|lia|].
  apply Z.lt_le_trans with 64; [reflexivity|lia].
Qed.

(** Each 16-bit lane of the swapped little-endian word is a big-endian pair. *)
Lemma swap_lane l (k : nat) p q :
  bytes_ok l -> (k < 4)%nat -> l !! (2 * k)%nat = Some p -> l !! (2 * k + 1)%nat = Some q ->
  Z.land (Z.shiftr (swap_bytes_in_each_u16 (le_combine l)) (16 * Z.of_nat k)) 65535 =
  p * 256 + q.
Proof.
  intros Hl Hk Hp Hq. apply Z.bits_inj'. intros i Hi. change 65535 with (Z.ones 16).
  pose proof (Forall_lookup_1 _ _ _ _ Hl Hp). pose proof (Forall_lookup_1 _ _ _ _ Hl Hq).
  rewrite byte_pair_testbit, Z.land_spec, Z.shiftr_spec by done.
  destruct (Z_lt_le_dec i 16) as [Hlt|Hge].
  2:{ rewrite Z.ones_spec_high, andb_false_r by lia. destruct (Z.ltb_spec i 8); [lia|].
      symmetry. apply byte_testbit_high; [done|lia]. }
  rewrite Z.ones_spec_low, andb_true_r, swap_testbit by lia.
  replace ((i + 16 * Z.of_nat k) mod 16) with i by zdm.
  destruct (Z.ltb_spec i 8).
  - rewrite <- (le_combine_testbit l _ _ _ Hl Hq) by lia. f_equal. lia.
  - rewrite <- (le_combine_testbit l _ _ _ Hl Hp) by lia. f_equal. lia.
Qed.

Lemma swap_lane_last v :
  Z.shiftr (swap_bytes_in_each_u16 v) 48 =
  Z.land (Z.shiftr (swap_bytes_in_each_u16 v) (16 * Z.of_nat 3)) 65535.
Proof.
  apply Z.bits_inj'. intros i Hi. change 65535 with (Z.ones 16).
  rewrite Z.land_spec, !Z.shiftr_spec by lia. change (16 * Z.of_nat 3) with 48.
  destruct (Z_lt_le_dec i 16).
  - by rewrite Z.ones_spec_low, andb_true_r by lia.
  - rewrite swap_testbit_high by lia. done.
Qed.

Lemma sum16_nonneg l : bytes_ok l -> 0 <= sum16 l <= 65535 * vlen l.
Proof.
  unfold vlen.
  induction l as [l IH] using (induction_ltof1 _ (@length Z)). unfold ltof in IH.
  intros Hl. destruct l as [|a [|b l]]; [done| |].
  - apply Forall_cons in Hl as [Ha _]. unfold is_byte in Ha. simpl. lia.
  - apply Forall_cons in Hl as [Ha Hl]. apply Forall_cons in Hl as [Hb Hl].
    unfold is_byte in Ha, Hb. cbn [sum16 length].
    specialize (IH l ltac:(simpl; lia) Hl). lia.
Qed.

Lemma sum16_app l1 l2 : Nat.even (length l1) = true -> sum16 (l1 ++ l2) = sum16 l1 + sum16 l2.
Proof.
  induction l1 as [l1 IH] using (induction_ltof1 _ (@length Z)). unfold ltof in IH.
  intros He. destruct l1 as [|a [|b l1]]; [done|done|].
  cbn [app sum16]. rewrite IH; [lia|simpl; lia|done].
Qed.

Lemma accumulate_pairs_spec s l :
  bytes_ok l -> Nat.even (length l) = true -> 0 <= s -> s + sum16 l < 2 ^ 64 ->
  accumulate_pairs s l = s + sum16 l.
Proof.
  revert s. induction l as [l IH] using (induction_ltof1 _ (@length Z)). unfold ltof in IH.
  intros s Hl He Hs Hb. destruct l as [|a [|b l]]; [simpl; lia|done|].
  apply Forall_cons in Hl as [Ha Hl]. apply Forall_cons in Hl as [Hbb Hl].
  cbn [sum16] in Hb. pose proof (sum16_nonneg l Hl). unfold is_byte in Ha, Hbb.
  cbn [accumulate_pairs sum16]. change (be_combine [a; b]) with ((0 * 256 + a) * 256 + b).
  assert (wadd s ((0 * 256 + a) * 256 + b) = s + (a * 256 + b)) as ->.
  { unfold wadd. rewrite wrap_small; [lia|]. split; lia. }
  rewrite IH; [lia|simpl; lia|done|done|lia|lia].
Qed.

Lemma wadd_exact a b : 0 <= a -> 0 <= b -> a + b < 2 ^ 64 -> wadd a b = a + b.
Proof. intros. apply wrap_small. split; lia. Qed.

Lemma accumulate_words_spec s l :
  bytes_ok l -> Nat.even (length l) = true -> 0 <= s -> s + sum16 l < 2 ^ 64 ->
  accumulate_words true s l = s + sum16 l.
Proof.
  revert s. induction l as [l IH] using (induction_ltof1 _ (@length Z)). unfold ltof in IH.
  intros s Hl He Hs Hb.
  destruct l as [|b0 [|b1 [|b2 [|b3 [|b4 [|b5 [|b6 [|b7 l]]]]]]]];
    try (apply accumulate_pairs_spec; done).
  assert (bytes_ok [b0; b1; b2; b3; b4; b5; b6; b7] /\ bytes_ok l) as [H8 Hr].
  { change (b0 :: _) with ([b0; b1; b2; b3; b4; b5; b6; b7] ++ l) in Hl. by apply Forall_app in Hl. }
  pose proof (sum16_nonneg l Hr) as [Hn _].
  cbn [accumulate_words read_ne].
  pose proof (swap_lane _ 0 b0 b1 H8 ltac:(lia) eq_refl eq_refl) as L0.
  pose proof (swap_lane _ 1 b2 b3 H8 ltac:(lia) eq_refl eq_refl) as L1.
  pose proof (swap_lane _ 2 b4 b5 H8 ltac:(lia) eq_refl eq_refl) as L2.
  pose proof (swap_lane _ 3 b6 b7 H8 ltac:(lia) eq_refl eq_refl) as L3.
  rewrite swap_lane_last, L3. change (16 * Z.of_nat 1) with 16 in L1.
  change (16 * Z.of_nat 2) with 32 in L2. rewrite L1, L2.
  change (16 * Z.of_nat 0) with 0 in L0. rewrite Z.shiftr_0_r in L0. rewrite L0.
  clear L0 L1 L2 L3. repeat apply Forall_cons in H8 as [? H8]. unfold is_byte in *.
  cbn [sum16] in Hb |- *.
  rewrite (wadd_exact s), (wadd_exact (s + _)), (wadd_exact (s + _ + _)),
    (wadd_exact (s + _ + _ + _)) by lia.
  rewrite IH; [lia|simpl; lia|done|done|lia|lia].
Qed.

Lemma swap_u16_pair a b : is_byte a -> is_byte b -> swap_u16 (le_combine [a; b]) = a * 256 + b.
Proof.
  unfold is_byte. intros Ha Hb. apply Z.bits_inj'. intros i Hi.
  assert (Hv : forall j, 0 <= j -> Z.testbit (le_combine [a; b]) j =
                if j <? 8 then Z.testbit a j else Z.testbit b (j - 8)).
  { intros j Hj. cbn [le_combine]. rewrite byte_testbit by (done || lia).
    destruct (Z.ltb_spec j 8); [done|]. f_equal. lia. }
  rewrite byte_pair_testbit by done. unfold swap_u16, wrap.
  rewrite Z.lor_spec, Z.shiftr_spec, (Hv (i + 8)) by lia.
  destruct (Z.ltb_spec (i + 8) 8); [lia|]. replace (i + 8 - 8) with i by lia.
  destruct (Z.ltb_spec i 8).
  - rewrite Z.mod_pow2_bits_low, Z.shiftl_spec, Z.testbit_neg_r by lia. done.
  - rewrite (byte_testbit_high b), orb_false_r by (done || lia).
    destruct (Z_lt_le_dec i 16).
    + rewrite Z.mod_pow2_bits_low, Z.shiftl_spec, Hv by lia.
      destruct (Z.ltb_spec (i - 8) 8); [done|lia].
    + rewrite Z.mod_pow2_bits_high by lia. symmetry. apply byte_testbit_high; [done|lia].
Qed.

(** No sum of at most 32 lanes overflows the 32-bit lane sum. *)
Lemma reduce_sum_exact lanes bytes s :
  bytes_ok bytes -> (2 * lanes <= length bytes)%nat ->
  0 <= s -> s + 65535 * Z.of_nat lanes < 2 ^ 32 ->
  foldl (fun a b => wrap 32 (a + b)) s (swap_u16 <$> read_lanes true lanes bytes) =
  s + sum16 (take (2 * lanes) bytes).
Proof.
  revert bytes s. induction lanes as [|lanes IH]; intros bytes s Hb Hlen Hs Hbound.
  { simpl. lia. }
  destruct bytes as [|a [|b bytes]]; cbn [length] in Hlen; [lia|lia|].
  apply Forall_cons in Hb as [Ha Hb]. apply Forall_cons in Hb as [Hb' Hb].
  replace (2 * S lanes)%nat with (S (S (2 * lanes))) by lia.
  cbn [read_lanes read_ne fmap list_fmap foldl take sum16].
  rewrite swap_u16_pair by done. unfold is_byte in *.
  rewrite (wrap_small 32) by (split; lia). rewrite IH by (done || lia). lia.
Qed.

Lemma sum16_take_drop n bytes :
  Nat.even n = true -> (n <= length bytes)%nat ->
  sum16 (take n bytes) + sum16 (drop n bytes) = sum16 bytes.
Proof.
  intros He Hn. rewrite <- (take_drop n bytes) at 3. rewrite sum16_app; [done|].
  rewrite length_take_le by done. done.
Qed.

Lemma drop_even n (bytes : list Z) :
  Nat.even n = true -> (n <= length bytes)%nat -> Nat.even (length bytes) = true ->
  Nat.even (length (drop n bytes)) = true.
Proof. intros Hn Hle Hb. rewrite length_drop, Nat.even_sub, Hn, Hb by done. done. Qed.

Lemma accumulate_simd_loop_spec fuel lanes total bytes :
  (0 < lanes <= 32)%nat -> bytes_ok bytes -> Nat.even (length bytes) = true ->
  (length bytes <= fuel)%nat -> 0 <= total -> total + sum16 bytes < 2 ^ 64 ->
  accumulate_simd_loop true fuel lanes total bytes = Some (total + sum16 bytes).
Proof.
  intros Hl. revert total bytes. induction fuel as [|fuel IH]; intros total bytes Hb He Hf Ht Hsum.
  - destruct bytes; simpl in Hf; [|lia]. cbn [accumulate_simd_loop].
    destruct (Nat.leb_spec (2 * lanes) (@length Z [])); [simpl in *; lia|].
    change (accumulate_u64_words true []) with 0. cbn [sum16] in *.
    by rewrite wadd_exact by lia.
  - cbn [accumulate_simd_loop]. destruct (Nat.leb_spec (2 * lanes) (length bytes)) as [Hle|Hgt].
    + assert (Nat.even (2 * lanes) = true) as Hev by (rewrite Nat.even_mul; done).
      pose proof (sum16_take_drop (2 * lanes) bytes Hev Hle) as Hsplit.
      pose proof (sum16_nonneg (take (2 * lanes) bytes) ltac:(by apply Forall_take)).
      pose proof (sum16_nonneg (drop (2 * lanes) bytes) ltac:(by apply Forall_drop)).
      unfold reduce_sum. rewrite reduce_sum_exact by (done || lia).
      rewrite wadd_exact by lia. rewrite IH.
      * f_equal. lia.
      * by apply Forall_drop.
      * by apply drop_even.
      * rewrite length_drop. lia.
      * lia.
      * lia.
    + pose proof (sum16_nonneg bytes Hb). unfold accumulate_u64_words.
      rewrite accumulate_words_spec by (done || lia). by rewrite wadd_exact by lia.
Qed.

(** Every accumulator computes the plain sum of the 16-bit words. *)
Lemma accumulate_for_simd_spec w bytes :
  bytes_ok bytes -> Nat.even (length bytes) = true -> sum16 bytes < 2 ^ 64 ->
  accumulate_for_simd true w bytes = Some (sum16 bytes).
Proof.
  intros Hb He Hs. unfold accumulate_for_simd, accumulate_simd, accumulate_u64_words.
  destruct w; [rewrite accumulate_words_spec by (done || lia); done|..];
    apply accumulate_simd_loop_spec; done || lia.
Qed.

(** ** The incremental state follows the bytes written *)

(** [tracks s n len]: [s] is a sum for the 16-bit total [n] of [len] bytes. *)
Definition tracks (s n len : Z) : Prop := ocr s n /\ 0 <= n /\ s <= 65535 * len.

Lemma take_drop_min {A} k (l : list A) :
  take k l = take (min k (length l)) l /\ drop k l = drop (min k (length l)) l.
Proof.
  destruct (Nat.min_spec k (length l)) as [[_ ->]|[? ->]]; [done|].
  by rewrite !take_ge, !drop_ge by lia.
Qed.

Lemma chunk_bytes_even :
  Nat.even (Z.to_nat ACCUMULATE_CHUNK_BYTES) = true /\ (0 < Z.to_nat ACCUMULATE_CHUNK_BYTES)%nat.
Proof.
  unfold ACCUMULATE_CHUNK_BYTES. split; [|lia].
  replace (64 * 1024) with (2 * 32768) by done. rewrite Z2Nat.inj_mul, Nat.even_mul by lia. done.
Qed.

Lemma tracks_0 s n len : tracks s n len -> tracks s (n + 0) (len + 0).
Proof. by rewrite !Z.add_0_r. Qed.

Lemma tracks_fold s n len k d :
  tracks s n len -> 0 <= k <= 65535 * d -> 0 < d -> 0 <= len -> len + d < 2 ^ 47 ->
  exists r, fold_checksum_sum (wadd s k) = Some r /\ tracks r (n + k) (len + d).
Proof.
  intros (Ho & Hn & Hs) Hk Hd Hlen Hb. assert (0 <= s) by apply Ho.
  rewrite wadd_exact by lia.
  destruct (fold_total (s + k) ltac:(lia)) as (r & -> & Hr & Hr'). exists r. split; [done|].
  split; [|lia]. eapply ocr_trans; [exact Hr|]. apply ocr_add; [done|done|lia].
Qed.

Lemma fold_chunks_spec fuel w s n len bytes :
  bytes_ok bytes -> Nat.even (length bytes) = true -> (length bytes <= fuel)%nat ->
  tracks s n len -> 0 <= len -> len + vlen bytes < 2 ^ 47 ->
  exists s', fold_chunks true fuel w s bytes = Some s' /\
    tracks s' (n + sum16 bytes) (len + vlen bytes).
Proof.
  revert s n len bytes. induction fuel as [|fuel IH];
    intros s n len bytes Hb He Hf Ht Hlen0 Hlen.
  { destruct bytes; simpl in Hf; [|lia]. exists s. split; [done|]. by apply tracks_0. }
  destruct bytes as [|b0 bytes]; [exists s; split; [done|]; by apply tracks_0|].
  cbn [fold_chunks]. remember (b0 :: bytes) as l eqn:El.
  assert (0 < length l)%nat by (subst; simpl; lia). clear El b0 bytes.
  destruct chunk_bytes_even as [Hce Hc0].
  generalize dependent (Z.to_nat ACCUMULATE_CHUNK_BYTES). intros n0 Hce Hc0.
  destruct (take_drop_min n0 l) as [-> ->].
  set (m := min _ (length l)).
  assert (0 < m <= length l)%nat by (unfold m; lia).
  assert (Nat.even m = true) as Hev.
  { unfold m. destruct (Nat.min_spec n0 (length l)) as [[_ ->]|[_ ->]]; done. }
  clearbody m. pose proof (sum16_take_drop m l Hev ltac:(lia)) as Hsplit.
  pose proof (sum16_nonneg (take m l) ltac:(by apply Forall_take)) as Hst.
  unfold vlen in *. rewrite length_take_le in Hst by lia.
  rewrite accumulate_for_simd_spec
    by (try apply Forall_take; rewrite ?length_take_le by lia; done || lia).
  cbn [mbind option_bind].
  destruct (tracks_fold s n len (sum16 (take m l)) (Z.of_nat m)) as (r & -> & Hr); [done|lia..|].
  cbn [mbind option_bind].
  destruct (IH r _ _ (drop m l) ltac:(by apply Forall_drop)
             ltac:(apply drop_even; done || lia) ltac:(rewrite length_drop; lia) Hr)
    as (s' & Hfc & Hts); [lia|rewrite length_drop; lia|].
  exists s'. split; [done|]. rewrite length_drop in Hts.
  replace (len + Z.of_nat (length l)) with (len + Z.of_nat m + Z.of_nat (length l - m)) by lia.
  by replace (n + sum16 l) with (n + sum16 (take m l) + sum16 (drop m l)) by lia.
Qed.

(** The state after the bytes [l]: the sum of the whole pairs, and the byte
    without a partner. *)
Definition state_of (c : t) (l : list Z) : Prop :=
  exists even, Nat.even (length even) = true /\
    l = even ++ match trailing_high c with Some h => [h] | None => [] end /\
    tracks (sum c) (sum16 even) (vlen even).

Lemma even_prefix (l : list Z) :
  let k := (length l - length l mod 2)%nat in
  Nat.even k = true /\ (k <= length l)%nat /\
  drop k l = match l !! k with Some h => [h] | None => [] end.
Proof.
  intros k. pose proof (Nat.mod_upper_bound (length l) 2 ltac:(lia)).
  pose proof (Nat.div_mod_eq (length l) 2) as Hdm.
  assert (k = 2 * (length l / 2))%nat as Hk by lia.
  split; [rewrite Hk, Nat.even_mul; done|]. split; [lia|].
  destruct (l !! k) as [h|] eqn:E.
  - rewrite (drop_S l h k E). f_equal. apply drop_ge. lia.
  - apply drop_ge. by apply lookup_ge_None.
Qed.

Lemma write_remainder_spec w s even rest :
  bytes_ok (even ++ rest) -> Nat.even (length even) = true ->
  tracks s (sum16 even) (vlen even) -> vlen (even ++ rest) < 2 ^ 47 ->
  exists c', write_remainder true w s rest = Some c' /\ state_of c' (even ++ rest).
Proof.
  intros Hb He Ht Hlen. unfold write_remainder.
  apply Forall_app in Hb as [Hbe Hbr]. unfold vlen in *. rewrite length_app in Hlen.
  destruct (even_prefix rest) as (Hk & Hkl & Hd). set (k := (_ - _)%nat) in *. clearbody k.
  destruct (fold_chunks_spec (length (take k rest)) w s _ _ (take k rest)
    ltac:(by apply Forall_take) ltac:(by rewrite length_take_le) ltac:(done) Ht)
    as (s' & -> & Hs'); [lia|unfold vlen; rewrite length_take_le by done; lia|].
  cbn [mbind option_bind]. eexists. split; [done|].
  exists (even ++ take k rest). cbn [trailing_high sum].
  rewrite length_app, Nat.even_add, He, length_take_le, Hk by done. split; [done|].
  rewrite <- Hd, <- app_assoc, take_drop. split; [done|].
  rewrite sum16_app by done. by rewrite vlen_app.
Qed.

Lemma write_checksum_spec w c l bytes :
  state_of c l -> bytes_ok (l ++ bytes) -> vlen (l ++ bytes) < 2 ^ 47 ->
  exists c', write_checksum true w c bytes = Some c' /\ state_of c' (l ++ bytes).
Proof.
  intros (even & He & -> & Ht) Hb Hlen. unfold write_checksum.
  destruct (trailing_high c) as [h|] eqn:Eh.
  - destruct bytes as [|low bytes].
    { exists c. split; [done|]. exists even. rewrite Eh, app_nil_r. done. }
    replace ((even ++ [h]) ++ low :: bytes) with ((even ++ [h; low]) ++ bytes) in *
      by (by rewrite <- !app_assoc).
    assert (is_byte h /\ is_byte low) as [Hh Hl].
    { unfold bytes_ok in Hb. rewrite !Forall_app, !Forall_cons in Hb. tauto. }
    unfold is_byte in *. apply write_remainder_spec; [done| | |done].
    + rewrite length_app, Nat.even_add, He. done.
    + rewrite sum16_app, vlen_app in * by done. unfold vlen in *. cbn [length] in *.
      change (be_combine [h; low]) with ((0 * 256 + h) * 256 + low).
      destruct Ht as (Ho & Hn & Hs). assert (0 <= sum c) by apply Ho.
      rewrite length_app in Hlen. cbn [length] in Hlen.
      rewrite wadd_exact by lia. cbn [sum16]. rewrite Z.add_0_r.
      split; [|lia]. replace ((0 * 256 + h) * 256 + low) with (h * 256 + low) by lia.
      apply ocr_add; [done|done|lia].
  - rewrite app_nil_r in *. apply write_remainder_spec; done.
Qed.

Lemma write_parts_spec w c l parts :
  state_of c l -> bytes_ok (l ++ concat parts) -> vlen (l ++ concat parts) < 2 ^ 47 ->
  exists c', write_parts true w c parts = Some c' /\ state_of c' (l ++ concat parts).
Proof.
  revert c l. induction parts as [|part parts IH]; intros c l Hc Hb Hlen; cbn [concat] in *.
  { exists c. by rewrite app_nil_r. }
  rewrite app_assoc in *. destruct (write_checksum_spec w c l part Hc) as (c' & Hw & Hc').
  - by apply Forall_app in Hb as [? _].
  - rewrite vlen_app in Hlen. pose proof (vlen_nonneg (concat parts)). lia.
  - cbn [write_parts]. rewrite Hw. cbn [mbind option_bind]. apply IH; done.
Qed.

Lemma ones_sum_bound n : 0 <= n -> 0 <= ones_sum n < 65536.
Proof. intros. unfold ones_sum. case_if; [lia|]. zdm. Qed.

Lemma finish_spec c l :
  state_of c l -> bytes_ok l -> vlen l < 2 ^ 47 -> finish c = Some (rfc1071 l).
Proof.
  intros (even & He & -> & Ho & Hn & Hs) Hb Hlen. assert (0 <= sum c) by apply Ho.
  rewrite vlen_app in Hlen.
  assert (exists tl, match trailing_high c with
    Some high => wadd (sum c) (Z.shiftl high 8) | None => sum c end = sum c + tl /\
    sum16 (even ++ match trailing_high c with Some h => [h] | None => [] end) = sum16 even + tl /\
    0 <= tl < 65536) as (tl & Hs1 & Hs2 & Htl).
  { rewrite sum16_app by done. destruct (trailing_high c) as [h|].
    - apply Forall_app in Hb as [_ Hh]. apply Forall_cons in Hh as [Hh _]. unfold is_byte in Hh.
      exists (h * 256). rewrite Z.shiftl_mul_pow2 by lia. change (2 ^ 8) with 256.
      unfold vlen in *. cbn [length] in *. rewrite wadd_exact by lia. simpl. lia.
    - exists 0. simpl. lia. }
  unfold finish, finish_checksum, rfc1071. rewrite Hs1, Hs2.
  destruct (fold_total (sum c + tl)) as (r & -> & Hr & Hr').
  { destruct (trailing_high c); unfold vlen in *; cbn [length] in *; lia. }
  cbn [mbind option_bind]. f_equal.
  assert (r = ones_sum (sum16 even + tl)) as ->.
  { apply ocr_ones_sum; [|lia|done]. eapply ocr_trans; [exact Hr|]. apply ocr_add; [done|done|lia]. }
  pose proof (ones_sum_bound (sum16 even + tl) ltac:(lia)).
  rewrite wrap_small by (split; lia). rewrite wnot_small by (split; lia). done.
Qed.

Lemma checksum_parts_spec w parts :
  bytes_ok (concat parts) -> vlen (concat parts) < 2 ^ 47 ->
  checksum_parts_with_simd true w parts = Some (rfc1071 (concat parts)).
Proof.
  intros Hb Hlen. unfold checksum_parts_with_simd.
  destruct (write_parts_spec w (mk 0 None) [] parts) as (c & -> & Hc); [|done|done|].
  { exists []. repeat split; done. }
  cbn [mbind option_bind]. rewrite (finish_spec _ _ Hc) by done. cbn [mbind option_bind].
  f_equal. apply wrap_small. unfold rfc1071.
  pose proof (ones_sum_bound _ (proj1 (sum16_nonneg _ Hb))). split; simpl; lia.
Qed.

Lemma rfc1071_bound l : bytes_ok l -> 0 <= rfc1071 l < 65536.
Proof.
  intros Hb. unfold rfc1071. pose proof (ones_sum_bound _ (proj1 (sum16_nonneg _ Hb))). lia.
Qed.

(** Filling the field makes the total a non-zero multiple of 65535. *)
Lemma rfc1071_fill n c : 0 <= n -> c = 65535 - ones_sum n -> ones_sum (n + c) = 65535.
Proof.
  intros Hn ->. unfold ones_sum at 2. case_if; [by subst|].
  replace (n + (65535 - ((n - 1) mod 65535 + 1))) with ((n - 1) / 65535 * 65535 + 65535)
    by (pose proof (Z.div_mod (n - 1) 65535 ltac:(lia)); lia).
  assert (0 <= (n - 1) / 65535) by (apply Z.div_pos; lia).
  unfold ones_sum. case_if; [lia|].
  replace (_ - 1) with (65534 + (n - 1) / 65535 * 65535) by lia.
  by rewrite Z.mod_add by lia.
Qed.

Lemma sum16_field pre c post :
  Nat.even (length pre) = true -> 0 <= c < 65536 ->
  sum16 (pre ++ be_split 2 c ++ post) = sum16 pre + c + sum16 post.
Proof.
  intros He Hc. rewrite !sum16_app by done.
  assert (sum16 (be_split 2 c) = be_combine (be_split 2 c)) as ->.
  { unfold be_combine. cbn [be_split sum16 be_combine_acc]. lia. }
  rewrite be_combine_split by (simpl; lia). lia.
Qed.

(** C33: on a little-endian target every SIMD width computes the RFC 1071
    checksum of the concatenated parts, wherever the parts are split. *)
Theorem checksum_parts_rfc1071 w parts :
  bytes_ok (concat parts) -> vlen (concat parts) < 2 ^ 47 ->
  checksum_parts_with_simd true w parts = Some (rfc1071 (concat parts)).
Proof. apply checksum_parts_spec. Qed.

Lemma checksum_parts_rfc1071_witness :
  checksum_parts_with_simd true Simd16 [[0x12]; [0x34; 0x56]; []; [0xff; 0x01; 0x80]] =
  Some (rfc1071 [0x12; 0x34; 0x56; 0xff; 0x01; 0x80]).
Proof.
  apply (checksum_parts_rfc1071 Simd16 [[0x12]; [0x34; 0x56]; []; [0xff; 0x01; 0x80]]).
  - repeat (apply Forall_cons; split; [split; reflexivity || (intros ?; discriminate)|]).
    apply Forall_nil. done.
  - reflexivity.
Defined.



(** on a big-endian target the word accumulator still swaps the bytes of
    every 16-bit word it reads, while the lane accumulator does not: the
    checksum of eight bytes is then wrong for the scalar width. *)
Theorem checksum_big_endian_scalar_wrong :
  let packet := [0; 1; 0; 0; 0; 0; 0; 0] in
  checksum_parts_with_simd false Simd1 [packet] = Some 0xfeff /\
  checksum_parts_with_simd true Simd1 [packet] = Some 0xfffe /\
  rfc1071 packet = 0xfffe.
Proof. vm_compute. done. Qed.

End InternetChecksum.
