(* ===== verification/InfraMtrie.v ===== *)
(** * The IPv4 multi-way trie ([crates/hammer-infra/src/mtrie.rs])

    [Mtrie.t] is the 16-8-8 trie: a root ply of 65536 slots and a vector of
    256-slot child plies.  Leaves are the tagged 32-bit words of the source
    ([terminal], [non_terminal], [MISS]); every array access is checked, so an
    operation that would index out of range returns [None].

    The theorems: under the ownership invariant [wf] of the plies, [insert] is
    total, preserves [wf] and overwrites exactly the addresses its prefix
    covers; hence [from_entries], which sorts by prefix length, makes [lookup]
    the longest-prefix match, the later of two equal prefixes winning. *)

From S2P Require Import Prelude.

Module Mtrie.

Definition MTRIE_16_BITS : Z := 16.
Definition MTRIE_8_BITS : Z := 8.
Definition MTRIE_16_LEN : Z := Z.shiftl 1 MTRIE_16_BITS.
Definition MTRIE_8_LEN : Z := Z.shiftl 1 MTRIE_8_BITS.

(** ** Leaves: tagged 32-bit words *)

Definition MISS : Z := 0.

Definition terminal (adj_index : Z) : Z := Z.lor (wrap 32 (Z.shiftl adj_index 1)) 1.

(** [ply_index as u32 + 1] overflows, and panics, at the last 32-bit index. *)
Definition non_terminal (ply_index : Z) : option Z :=
  i ← checked_add 32 (wrap 32 ply_index) 1;
  Some (wrap 32 (Z.shiftl i 1)).

Definition is_terminal (leaf : Z) : bool := Z.land leaf 1 =? 1.

Definition adj_index (leaf : Z) : option Z :=
  if Z.land leaf 1 =? 1 then Some (Z.shiftr leaf 1) else None.

Definition ply_index (leaf : Z) : option Z :=
  if negb (leaf =? 0) && (Z.land leaf 1 =? 0) then Some (Z.shiftr leaf 1 - 1) else None.

(** ** Strides *)

Definition root_stride (key : Z) : Z := Z.shiftr key 16.
Definition first_stride (key : Z) : Z := Z.land (Z.shiftr key 8) 0xff.
Definition second_stride (key : Z) : Z := Z.land key 0xff.

(** ** Plies *)

Record ply16 := mk16 { leaves16 : list Z; prefix_lens16 : list Z }.

Record ply8 := mk8 {
  leaves : list Z;
  prefix_lens : list Z;
  n_non_empty : Z;
  base_len : Z;
}.

Definition filled16 (leaf prefix_len : Z) : ply16 :=
  mk16 (replicate (Z.to_nat MTRIE_16_LEN) leaf) (replicate (Z.to_nat MTRIE_16_LEN) prefix_len).

Definition filled8 (inherited base : Z) : ply8 :=
  mk8 (replicate (Z.to_nat MTRIE_8_LEN) inherited) (replicate (Z.to_nat MTRIE_8_LEN) base) 0 base.

Definition stride_span (prefix_bits stride_bits : Z) : Z := Z.shiftl 1 (stride_bits - prefix_bits).

Definition stride_start (base span : Z) : Z := Z.land base (wnot 64 (span - 1)).

(** [for slot in start..end] *)
Fixpoint foldM {A B} (f : A -> B -> option A) (a : A) (l : list B) : option A :=
  match l with
  | [] => Some a
  | b :: l => a ← f a b; foldM f a l
  end.

Definition fill_slot16 (leaf prefix_bits : Z) (p : ply16) (slot : Z) : option ply16 :=
  ls ← vset (leaves16 p) slot leaf;
  ps ← vset (prefix_lens16 p) slot prefix_bits;
  Some (mk16 ls ps).

Definition fill_stride16 (p : ply16) (base prefix_bits stride_bits leaf : Z) : option ply16 :=
  let span := stride_span prefix_bits stride_bits in
  foldM (fill_slot16 leaf prefix_bits) p (zseq (stride_start base span) (Z.to_nat span)).

Definition fill_slot8 (leaf prefix_bits : Z) (p : ply8) (slot : Z) : option ply8 :=
  old ← vget (prefix_lens p) slot;
  let was_empty := old <=? base_len p in
  let now_non_empty := base_len p <? prefix_bits in
  ls ← vset (leaves p) slot leaf;
  ps ← vset (prefix_lens p) slot prefix_bits;
  let n := match was_empty, now_non_empty with
           | true, true => n_non_empty p + 1
           | false, false => n_non_empty p - 1
           | _, _ => n_non_empty p
           end in
  Some (mk8 ls ps n (base_len p)).

Definition fill_stride8 (p : ply8) (base prefix_bits stride_bits leaf : Z) : option ply8 :=
  let span := stride_span prefix_bits stride_bits in
  foldM (fill_slot8 leaf prefix_bits) p (zseq (stride_start base span) (Z.to_nat span)).

(** ** The trie *)

Record t := mk { root : ply16; plies : list ply8 }.

Definition empty : t := mk (filled16 MISS 0) [].

Definition alloc_ply (m : t) (inherited base : Z) : t * Z :=
  (mk (root m) (plies m ++ [filled8 inherited base]), vlen (plies m)).

Definition ensure_root_ply (m : t) (root_slot cover_len : Z) : option (t * Z) :=
  leaf ← vget (leaves16 (root m)) root_slot;
  match ply_index leaf with
  | Some idx => Some (m, idx)
  | None =>
      old ← vget (prefix_lens16 (root m)) root_slot;
      let cover := Z.max old cover_len in
      let '(m, idx) := alloc_ply m leaf cover in
      link ← non_terminal idx;
      ls ← vset (leaves16 (root m)) root_slot link;
      ps ← vset (prefix_lens16 (root m)) root_slot cover_len;
      Some (mk (mk16 ls ps) (plies m), idx)
  end.

Definition ensure_child_ply (m : t) (parent_ply slot cover_len : Z) : option (t * Z) :=
  parent ← vget (plies m) parent_ply;
  leaf ← vget (leaves parent) slot;
  match ply_index leaf with
  | Some idx => Some (m, idx)
  | None =>
      old ← vget (prefix_lens parent) slot;
      let cover := Z.max old cover_len in
      let '(m, idx) := alloc_ply m leaf cover in
      link ← non_terminal idx;
      ls ← vset (leaves parent) slot link;
      ps ← vset (prefix_lens parent) slot cover_len;
      ps' ← vset (plies m) parent_ply
        (mk8 ls ps (n_non_empty parent + 1) (base_len parent));
      Some (mk (root m) ps', idx)
  end.

(** [assert!(prefix_len <= 32)] *)
Definition insert (m : t) (key prefix_len value : Z) : option t :=
  if 32 <? prefix_len then None else
  let leaf := terminal value in
  if prefix_len <=? MTRIE_16_BITS then
    r ← fill_stride16 (root m) (root_stride key) prefix_len MTRIE_16_BITS leaf;
    Some (mk r (plies m))
  else
    '(m, first_ply) ← ensure_root_ply m (root_stride key) MTRIE_16_BITS;
    if prefix_len <=? MTRIE_16_BITS + MTRIE_8_BITS then
      p ← vget (plies m) first_ply;
      p ← fill_stride8 p (first_stride key) (prefix_len - MTRIE_16_BITS) MTRIE_8_BITS leaf;
      ps ← vset (plies m) first_ply p;
      Some (mk (root m) ps)
    else
      '(m, second_ply) ← ensure_child_ply m first_ply (first_stride key)
                            (MTRIE_16_BITS + MTRIE_8_BITS);
      p ← vget (plies m) second_ply;
      p ← fill_stride8 p (second_stride key) (prefix_len - MTRIE_16_BITS - MTRIE_8_BITS)
            MTRIE_8_BITS leaf;
      ps ← vset (plies m) second_ply p;
      Some (mk (root m) ps).

(** [leaf.ply_index().and_then(|idx| self.plies.get(idx))?] *)
Definition child (m : t) (leaf : Z) : option ply8 :=
  idx ← ply_index leaf; vget (plies m) idx.

(** The outer [option] is the checked array access, the inner one the result. *)
Definition lookup (m : t) (key : Z) : option (option Z) :=
  leaf ← vget (leaves16 (root m)) (root_stride key);
  if is_terminal leaf then Some (adj_index leaf) else
  match child m leaf with
  | None => Some None
  | Some ply =>
      leaf ← vget (leaves ply) (first_stride key);
      if is_terminal leaf then Some (adj_index leaf) else
      match child m leaf with
      | None => Some None
      | Some ply => leaf ← vget (leaves ply) (second_stride key); Some (adj_index leaf)
      end
  end.

Definition ply_count (m : t) : Z := vlen (plies m).

(** ** Typed values *)

Class PackedMtrieValue (V : Type) := {
  into_leaf_value : V -> Z;
  from_leaf_value : Z -> V;
}.

#[export] Instance packed_u32 : PackedMtrieValue Z :=
  {| into_leaf_value v := v; from_leaf_value v := v |}.

Record entry (V : Type) := mk_entry { key : Z; prefix_len : Z; value : V }.
Arguments mk_entry {V}.
Arguments key {V}.
Arguments prefix_len {V}.
Arguments value {V}.

(** [sort_by_key(|entry| entry.prefix_len)], the stable sort of the standard
    library. *)
Fixpoint insert_by_len {V} (e : entry V) (l : list (entry V)) : list (entry V) :=
  match l with
  | [] => [e]
  | x :: l => if prefix_len e <=? prefix_len x then e :: x :: l else x :: insert_by_len e l
  end.

Definition sort_by_len {V} (l : list (entry V)) : list (entry V) := foldr insert_by_len [] l.

Definition packed_insert `{PackedMtrieValue V} (m : t) (key prefix_len : Z) (v : V) : option t :=
  insert m key prefix_len (into_leaf_value v).

Definition packed_lookup `{PackedMtrieValue V} (m : t) (key : Z) : option (option V) :=
  r ← lookup m key; Some (fmap (M:=option) from_leaf_value r).

Definition from_entries `{PackedMtrieValue V} (entries : list (entry V)) : option t :=
  foldM (fun m e => packed_insert m (key e) (prefix_len e) (value e)) empty (sort_by_len entries).

(** ** The tags *)

Lemma land_1_mod2 a : Z.land a 1 = a mod 2.
Proof. change 1 with (Z.ones 1). by rewrite Z.land_ones by lia. Qed.

Lemma shiftr_1_div2 a : Z.shiftr a 1 = a / 2.
Proof. by rewrite Z.shiftr_div_pow2 by lia. Qed.

Lemma terminal_eq v : 0 <= v -> terminal v = 2 * wrap 31 v + 1.
Proof.
  intros Hv. unfold terminal, wrap. rewrite Z.shiftl_mul_pow2 by lia. change (2 ^ 1) with 2.
  replace (v * 2 mod 2 ^ 32) with (2 * (v mod 2 ^ 31))
    by (change (2 ^ 32) with (2 * 2 ^ 31); rewrite (Z.mul_comm v), Z.mul_mod_distr_l by lia; done).
  symmetry. rewrite Z.add_nocarry_lxor, Z.lxor_lor; [done|..]; rewrite land_1_mod2; zdm.
Qed.

Lemma terminal_decode v :
  0 <= v -> adj_index (terminal v) = Some (wrap 31 v) /\ ply_index (terminal v) = None.
Proof.
  intros Hv. rewrite terminal_eq by done. unfold adj_index, ply_index.
  rewrite land_1_mod2, shiftr_1_div2. generalize (wrap 31 v). intros w.
  replace ((2 * w + 1) mod 2) with 1 by zdm. replace ((2 * w + 1) / 2) with w by zdm.
  simpl. by rewrite andb_false_r.
Qed.

Lemma non_terminal_decode i :
  0 <= i < 2 ^ 31 - 1 -> exists leaf, non_terminal i = Some leaf /\ ply_index leaf = Some i.
Proof.
  intros Hi. unfold non_terminal, checked_add. rewrite (wrap_small 32 i) by (split; lia).
  rewrite (proj2 (Z.ltb_lt _ _)) by lia. cbn [mbind option_bind]. eexists. split; [done|].
  rewrite Z.shiftl_mul_pow2 by lia. change (2 ^ 1) with 2. rewrite wrap_small by (split; lia).
  unfold ply_index. rewrite land_1_mod2, shiftr_1_div2.
  destruct (Z.eqb_spec ((i + 1) * 2) 0); [lia|].
  destruct (Z.eqb_spec (((i + 1) * 2) mod 2) 0); [|zdm]. simpl. f_equal. zdm.
Qed.

(** ** The trie as two functions

    [R] gives the leaf of a root slot, [P] the leaf of a slot of a child ply;
    [look] is the walk of [lookup] over them. *)

Definition rl (m : t) (r : Z) : Z := default 0 (vget (leaves16 (root m)) r).

Definition pl (m : t) (p s : Z) : Z := default 0 (x ← vget (plies m) p; vget (leaves x) s).

Definition look (R : Z -> Z) (P : Z -> Z -> Z) (k : Z) : option Z :=
  match ply_index (R (root_stride k)) with
  | None => adj_index (R (root_stride k))
  | Some p =>
      match ply_index (P p (first_stride k)) with
      | None => adj_index (P p (first_stride k))
      | Some q => adj_index (P q (second_stride k))
      end
  end.

(** Ownership: a ply hangs off at most one slot, plies of the second level are
    not plies of the first, and they link no further. *)
Record links (R : Z -> Z) (P : Z -> Z -> Z) (n : Z) : Prop := {
  root_link : forall r p, ply_index (R r) = Some p -> 0 <= p < n;
  root_inj : forall r r' p, ply_index (R r) = Some p -> ply_index (R r') = Some p -> r = r';
  child_link : forall r p s q, ply_index (R r) = Some p -> ply_index (P p s) = Some q ->
    0 <= q < n /\ (forall r', ply_index (R r') <> Some q) /\ (forall s', ply_index (P q s') = None);
  child_inj : forall r p s r' p' s' q,
    ply_index (R r) = Some p -> ply_index (P p s) = Some q ->
    ply_index (R r') = Some p' -> ply_index (P p' s') = Some q -> p = p' /\ s = s';
}.

Definition in_ply (s : Z) : bool := (0 <=? s) && (s <? 256).

Section views.
Context (R : Z -> Z) (P : Z -> Z -> Z) (n : Z) (HL : links R P n).

(** Overwriting root slots with a leaf that links nothing. *)
Lemma view_fill_root R' (S : Z -> bool) leaf :
  ply_index leaf = None -> (forall r, R' r = if S r then leaf else R r) ->
  links R' P n /\
  forall k, look R' P k = if S (root_stride k) then adj_index leaf else look R P k.
Proof.
  intros Hleaf HR. assert (forall r p, ply_index (R' r) = Some p -> ply_index (R r) = Some p) as Hold.
  { intros r p. rewrite HR. by destruct (S r); [rewrite Hleaf|]. }
  split.
  - destruct HL as [H1 H2 H3 H4]. split; [by eauto..| |by eauto].
    intros r p s q Hr Hs. destruct (H3 r p s q) as (? & Hn & ?); [by auto|done|].
    split; [done|]. split; [|done]. intros r' Hr'. apply (Hn r'). by apply Hold.
  - intros k. unfold look. rewrite HR. destruct (S (root_stride k)); [by rewrite Hleaf|done].
Qed.

(** Overwriting slots of the ply below root slot [r0]. *)
Lemma view_fill_first P' (S : Z -> bool) leaf r0 p0 :
  ply_index (R r0) = Some p0 -> ply_index leaf = None ->
  (forall p s, P' p s = if (p =? p0) && S s then leaf else P p s) ->
  links R P' n /\
  forall k, look R P' k =
    if (root_stride k =? r0) && S (first_stride k) then adj_index leaf else look R P k.
Proof.
  intros Hr0 Hleaf HP.
  assert (forall p s q, ply_index (P' p s) = Some q -> ply_index (P p s) = Some q) as Hold.
  { intros p s q. rewrite HP. by destruct (_ && _); [rewrite Hleaf|]. }
  split.
  - destruct HL as [H1 H2 H3 H4]. split; [by eauto..| |by eauto].
    intros r p s q Hr Hs. destruct (H3 r p s q) as (? & ? & Hn); [done|by auto|].
    split; [done|]. split; [done|]. intros s'. destruct (ply_index (P' q s')) eqn:E; [|done].
    apply Hold in E. congruence.
  - intros k. unfold look. destruct (Z.eqb_spec (root_stride k) r0) as [->|Hne].
    + rewrite Hr0, HP, Z.eqb_refl. cbn [andb]. destruct (S (first_stride k)); [by rewrite Hleaf|].
      destruct (ply_index (P p0 (first_stride k))) as [q|] eqn:Eq; [|done].
      rewrite HP. destruct (Z.eqb_spec q p0) as [->|]; [|done].
      destruct (child_link _ _ _ HL _ _ _ _ Hr0 Eq) as (_ & Hno & _). by destruct (Hno r0).
    + cbn [andb]. destruct (ply_index (R (root_stride k))) as [p|] eqn:Ep; [|done].
      rewrite HP. destruct (Z.eqb_spec p p0) as [->|].
      { destruct Hne. eapply root_inj; eauto. }
      cbn [andb]. destruct (ply_index (P p (first_stride k))) as [q|] eqn:Eq; [|done].
      rewrite HP. destruct (Z.eqb_spec q p0) as [->|]; [|done].
      destruct (child_link _ _ _ HL _ _ _ _ Ep Eq) as (_ & Hno & _). by destruct (Hno r0).
Qed.

(** Overwriting slots of the ply below slot [s0] of the ply below [r0]. *)
Lemma view_fill_second P' (S : Z -> bool) leaf r0 p0 s0 q0 :
  ply_index (R r0) = Some p0 -> ply_index (P p0 s0) = Some q0 -> ply_index leaf = None ->
  (forall p s, P' p s = if (p =? q0) && S s then leaf else P p s) ->
  links R P' n /\
  forall k, look R P' k =
    if (root_stride k =? r0) && (first_stride k =? s0) && S (second_stride k)
    then adj_index leaf else look R P k.
Proof.
  intros Hr0 Hs0 Hleaf HP.
  destruct (child_link _ _ _ HL _ _ _ _ Hr0 Hs0) as (_ & Hno & Hnone).
  assert (forall p s, ply_index (P' p s) = ply_index (P p s)) as Hsame.
  { intros p s. rewrite HP. destruct (Z.eqb_spec p q0) as [->|]; [|done].
    rewrite Hnone. cbn [andb]. by destruct (S s). }
  assert (forall p s r, ply_index (R r) = Some p -> P' p s = P p s) as Hlevel1.
  { intros p s r Hr. rewrite HP. destruct (Z.eqb_spec p q0) as [->|]; [|done].
    by destruct (Hno r). }
  split.
  - destruct HL as [H1 H2 H3 H4]. split; [by eauto..| |].
    + intros r p s q Hr Hs. rewrite Hsame in Hs.
      destruct (H3 r p s q) as (? & ? & Hn); [done..|].
      split; [done|]. split; [done|]. intros s'. by rewrite Hsame.
    + intros r p s r' p' s' q. rewrite !Hsame. by eauto.
  - intros k. unfold look. destruct (ply_index (R (root_stride k))) as [p|] eqn:Ep.
    2:{ destruct (Z.eqb_spec (root_stride k) r0); [congruence|done]. }
    rewrite Hsame, (Hlevel1 _ _ _ Ep).
    destruct (ply_index (P p (first_stride k))) as [q|] eqn:Eq.
    + rewrite HP. destruct (Z.eqb_spec q q0) as [->|Hne].
      * destruct (child_inj _ _ _ HL _ _ _ _ _ _ _ Ep Eq Hr0 Hs0) as [-> Hs].
        rewrite (proj2 (Z.eqb_eq _ _) (root_inj _ _ _ HL _ _ _ Ep Hr0)).
        rewrite (proj2 (Z.eqb_eq _ _) Hs). cbn [andb]. by destruct (S (second_stride k)).
      * destruct (Z.eqb_spec (root_stride k) r0) as [Hr|]; [|done].
        destruct (Z.eqb_spec (first_stride k) s0) as [Hs|]; [|done]. congruence.
    + destruct (Z.eqb_spec (root_stride k) r0) as [Hr|]; [|done].
      destruct (Z.eqb_spec (first_stride k) s0) as [Hs|]; [|done]. congruence.
Qed.

(** A new ply below an unlinked root slot, filled with the slot's leaf. *)
Lemma view_alloc_root R' P' r0 link :
  ply_index (R r0) = None -> ply_index link = Some n ->
  (forall r, R' r = if r =? r0 then link else R r) ->
  (forall p s, P' p s = if p =? n then (if in_ply s then R r0 else 0) else P p s) ->
  0 <= n ->
  links R' P' (n + 1) /\ forall k, in_ply (first_stride k) = true -> look R' P' k = look R P k.
Proof.
  intros Hr0 Hlink HR HP Hn.
  assert (forall s, ply_index (P' n s) = None) as Hnew.
  { intros s. rewrite HP, Z.eqb_refl. by destruct (in_ply s). }
  assert (forall r p, ply_index (R' r) = Some p ->
            (r = r0 /\ p = n) \/ (r <> r0 /\ p <> n /\ ply_index (R r) = Some p)) as Hroot.
  { intros r p. rewrite HR. destruct (Z.eqb_spec r r0) as [->|Hne]; intros H.
    - left. rewrite Hlink in H. by simplify_eq.
    - right. pose proof (root_link _ _ _ HL _ _ H). repeat split; [done|lia|done]. }
  assert (forall p s, p <> n -> P' p s = P p s) as Hsame.
  { intros p s Hp. rewrite HP. by destruct (Z.eqb_spec p n). }
  split.
  - split.
    + intros r p [[_ ->]|(_ & _ & H)]%Hroot; [lia|]. apply (root_link _ _ _ HL) in H. lia.
    + intros r r' p [[-> ->]|(? & ? & H)]%Hroot [[-> ?]|(? & ? & H')]%Hroot; [done..|].
      by eapply (root_inj _ _ _ HL).
    + intros r p s q [[_ ->]|(? & ? & H)]%Hroot Hs; [by rewrite Hnew in Hs|].
      rewrite Hsame in Hs by done. destruct (child_link _ _ _ HL _ _ _ _ H Hs) as (? & Hno & Hnn).
      split; [lia|]. split.
      * intros r' [[_ ->]|(_ & _ & H')]%Hroot; [lia|by apply (Hno r')].
      * intros s'. rewrite Hsame by lia. done.
    + intros r p s r' p' s' q [[_ ->]|(? & ? & H)]%Hroot Hs [[_ ->]|(? & ? & H')]%Hroot Hs';
        try (by rewrite Hnew in Hs); try (by rewrite Hnew in Hs').
      rewrite Hsame in Hs, Hs' by done. by eapply (child_inj _ _ _ HL).
  - intros k Hk. unfold look. rewrite !HR. destruct (Z.eqb_spec (root_stride k) r0) as [->|].
    + rewrite Hlink, Hnew, Hr0, HP, Z.eqb_refl, Hk. done.
    + destruct (ply_index (R (root_stride k))) as [p|] eqn:Ep; [|done].
      pose proof (root_link _ _ _ HL _ _ Ep). rewrite Hsame by lia.
      destruct (ply_index (P p _)) as [q|] eqn:Eq; [|done].
      destruct (child_link _ _ _ HL _ _ _ _ Ep Eq) as (? & _). by rewrite Hsame by lia.
Qed.

(** A new ply below an unlinked slot of a first-level ply. *)
Lemma view_alloc_child P' r0 p0 s0 link :
  ply_index (R r0) = Some p0 -> ply_index (P p0 s0) = None -> ply_index link = Some n ->
  (forall p s, P' p s = if (p =? p0) && (s =? s0) then link else
                        if p =? n then (if in_ply s then P p0 s0 else 0) else P p s) ->
  links R P' (n + 1) /\ forall k, in_ply (second_stride k) = true -> look R P' k = look R P k.
Proof.
  intros Hr0 Hs0 Hlink HP. pose proof (root_link _ _ _ HL _ _ Hr0) as Hp0.
  assert (forall s, P' n s = if in_ply s then P p0 s0 else 0) as Hnew.
  { intros s. rewrite HP, Z.eqb_refl. by destruct (Z.eqb_spec n p0); [lia|]. }
  assert (forall s, ply_index (P' n s) = None) as Hnone.
  { intros s. rewrite Hnew. by destruct (in_ply s). }
  assert (forall p s, p <> n -> ~ (p = p0 /\ s = s0) -> P' p s = P p s) as Hsame.
  { intros p s Hp Hps. rewrite HP. destruct (Z.eqb_spec p n); [done|].
    destruct (Z.eqb_spec p p0); [|done]. destruct (Z.eqb_spec s s0); [tauto|done]. }
  assert (P' p0 s0 = link) as Hl by (by rewrite HP, !Z.eqb_refl).
  assert (forall r p s q, ply_index (R r) = Some p -> ply_index (P' p s) = Some q ->
    (p = p0 /\ s = s0 /\ q = n) \/ (~ (p = p0 /\ s = s0) /\ ply_index (P p s) = Some q)) as Hlinks.
  { intros r p s q Hr Hs. pose proof (root_link _ _ _ HL _ _ Hr).
    destruct (decide (p = p0 /\ s = s0)) as [[-> ->]|Hne].
    - left. rewrite Hl, Hlink in Hs. by simplify_eq.
    - right. by rewrite Hsame in Hs by (done || lia). }
  split.
  - split.
    + intros r p Hr. apply (root_link _ _ _ HL) in Hr. lia.
    + apply HL.
    + intros r p s q Hr [(-> & -> & ->)|[Hne Hs]]%(Hlinks r); [| |done].
      * split; [lia|]. split; [|done]. intros r' H'. apply (root_link _ _ _ HL) in H'. lia.
      * destruct (child_link _ _ _ HL _ _ _ _ Hr Hs) as (? & Hno & Hnn).
        split; [lia|]. split; [done|]. intros s'. rewrite Hsame; [done|lia|].
        intros [-> _]. by apply (Hno r0).
    + intros r p s r' p' s' q Hr Hs Hr' Hs'.
      destruct (Hlinks _ _ _ _ Hr Hs) as [(-> & -> & ->)|[? Hs1]],
        (Hlinks _ _ _ _ Hr' Hs') as [(-> & -> & ?)|[? Hs1']]; [done| | |].
      * destruct (child_link _ _ _ HL _ _ _ _ Hr' Hs1') as (? & _). lia.
      * destruct (child_link _ _ _ HL _ _ _ _ Hr Hs1) as (? & _). lia.
      * by eapply (child_inj _ _ _ HL).
  - intros k Hk. unfold look. destruct (ply_index (R (root_stride k))) as [p|] eqn:Ep; [|done].
    pose proof (root_link _ _ _ HL _ _ Ep).
    destruct (decide (p = p0 /\ first_stride k = s0)) as [[-> ->]|Hne].
    + rewrite Hl, Hlink, Hs0, Hnew, Hk. done.
    + rewrite Hsame by (done || lia). destruct (ply_index (P p (first_stride k))) as [q|] eqn:Eq; [|done].
      destruct (child_link _ _ _ HL _ _ _ _ Ep Eq) as (? & Hno & _).
      rewrite Hsame; [done|lia|]. intros [-> _]. by apply (Hno r0).
Qed.

End views.

(** ** Well-formed tries *)

Definition ply_dims (p : ply8) : Prop := vlen (leaves p) = 256 /\ vlen (prefix_lens p) = 256.

Record wf (m : t) : Prop := {
  wf_root : vlen (leaves16 (root m)) = 65536 /\ vlen (prefix_lens16 (root m)) = 65536;
  wf_plies : Forall ply_dims (plies m);
  wf_links : links (rl m) (pl m) (vlen (plies m));
}.

Lemma stride_ranges k :
  0 <= k < 2 ^ 32 ->
  0 <= root_stride k < 65536 /\ 0 <= first_stride k < 256 /\ 0 <= second_stride k < 256.
Proof.
  intros Hk. unfold root_stride, first_stride, second_stride. change 0xff with (Z.ones 8).
  rewrite !Z.land_ones, !Z.shiftr_div_pow2 by lia. change (2 ^ 8) with 256. zdm.
Qed.

Lemma in_ply_stride k :
  0 <= k < 2 ^ 32 -> in_ply (first_stride k) = true /\ in_ply (second_stride k) = true.
Proof. intros Hk. pose proof (stride_ranges k Hk). unfold in_ply. split; bool_prop; lia. Qed.

Lemma wf_ply m p : wf m -> 0 <= p < vlen (plies m) ->
  exists x, vget (plies m) p = Some x /\ ply_dims x.
Proof.
  intros Hwf Hp. destruct (vget_in_range _ _ Hp) as [x Hx]. exists x. split; [done|].
  eapply vget_Forall; [apply (wf_plies _ Hwf)|done].
Qed.

Lemma not_terminal_adj leaf : is_terminal leaf = false -> adj_index leaf = None.
Proof. unfold is_terminal, adj_index. by intros ->. Qed.

Lemma terminal_ply leaf : is_terminal leaf = true -> ply_index leaf = None.
Proof.
  unfold is_terminal, ply_index. intros H. apply Z.eqb_eq in H. rewrite H. by rewrite andb_false_r.
Qed.

(** On a well-formed trie [lookup] never indexes out of range. *)
Lemma lookup_look m k : wf m -> 0 <= k < 2 ^ 32 -> lookup m k = Some (look (rl m) (pl m) k).
Proof.
  intros Hwf Hk. pose proof (stride_ranges k Hk) as (Hr & Hf & Hs).
  unfold lookup, look, rl. destruct (vget_in_range (leaves16 (root m)) (root_stride k)) as [l Hl].
  { destruct (wf_root _ Hwf). lia. }
  assert (rl m (root_stride k) = l) as Erl by (unfold rl; by rewrite Hl).
  rewrite Hl. cbn [mbind option_bind default from_option id].
  destruct (is_terminal l) eqn:Et; [by rewrite (terminal_ply _ Et)|].
  unfold child. destruct (ply_index l) as [p|] eqn:Ep; cbn [mbind option_bind].
  2:{ by rewrite not_terminal_adj. }
  assert (ply_index (rl m (root_stride k)) = Some p) as Hp by (by rewrite Erl).
  destruct (wf_ply m p Hwf) as (x & Hx & Hd & _); [by eapply (root_link _ _ _ (wf_links _ Hwf))|].
  destruct (vget_in_range (leaves x) (first_stride k)) as [l1 Hl1]; [lia|].
  assert (pl m p (first_stride k) = l1) as Epl by (unfold pl; rewrite Hx; cbn; by rewrite Hl1).
  rewrite Hx, Epl. cbn [mbind option_bind]. rewrite Hl1. cbn [mbind option_bind].
  destruct (is_terminal l1) eqn:Et1; [by rewrite (terminal_ply _ Et1)|].
  destruct (ply_index l1) as [q|] eqn:Eq; cbn [mbind option_bind]; [|by rewrite not_terminal_adj].
  rewrite <- Epl in Eq. destruct (wf_ply m q Hwf) as (y & Hy & Hd' & _).
  { by eapply (child_link _ _ _ (wf_links _ Hwf)). }
  destruct (vget_in_range (leaves y) (second_stride k)) as [l2 Hl2]; [lia|].
  unfold pl. rewrite Hy. cbn [mbind option_bind]. rewrite Hl2. done.
Qed.

(** ** Filling a stride *)

Definition in_span (a : Z) (n : nat) (s : Z) : bool := (a <=? s) && (s <? a + Z.of_nat n).

Lemma in_span_S a n s : in_span a (S n) s = (s =? a) || in_span (a + 1) n s.
Proof. unfold in_span. bool_iff. lia. Qed.

(** A loop that writes [leaf] to the leaf array [g] of a ply. *)
Lemma foldM_fill {A} (f : A -> Z -> option A) (g : A -> list Z) (ok : A -> Prop) leaf :
  (forall x s, ok x -> 0 <= s < vlen (g x) ->
     exists x', f x s = Some x' /\ ok x' /\ vset (g x) s leaf = Some (g x')) ->
  forall n a x, ok x -> 0 <= a -> a + Z.of_nat n <= vlen (g x) ->
  exists x', foldM f x (zseq a n) = Some x' /\ ok x' /\ vlen (g x') = vlen (g x) /\
    forall s, default 0 (vget (g x') s) =
      if in_span a n s then leaf else default 0 (vget (g x) s).
Proof.
  intros Hf. induction n as [|n IH]; intros a x Hok Ha Hn.
  { exists x. repeat split; [done..|]. intros s. unfold in_span.
    destruct (Z.leb_spec a s), (Z.ltb_spec s (a + Z.of_nat 0)); done || lia. }
  destruct (Hf x a Hok ltac:(lia)) as (x1 & H1 & Hok1 & Hset).
  apply vset_len in Hset as Hlen.
  destruct (IH (a + 1) x1 Hok1 ltac:(lia) ltac:(lia)) as (x' & Hx' & Hok' & Hl & Hv).
  exists x'. cbn [zseq foldM]. rewrite H1. repeat split; [done..|lia|].
  intros s. rewrite Hv, (vget_vset _ _ _ s _ Hset), in_span_S, Z.eqb_sym.
  destruct (in_span (a + 1) n s); [by rewrite orb_true_r|].
  destruct (Z.eqb_spec a s), (decide (a = s)); done.
Qed.

Definition root_dims (p : ply16) : Prop :=
  vlen (leaves16 p) = 65536 /\ vlen (prefix_lens16 p) = 65536.

Lemma fill_slot16_step leaf bits x s :
  root_dims x -> 0 <= s < vlen (leaves16 x) ->
  exists x', fill_slot16 leaf bits x s = Some x' /\ root_dims x' /\
    vset (leaves16 x) s leaf = Some (leaves16 x').
Proof.
  intros [Hl Hp] Hs. unfold fill_slot16.
  destruct (vset_total (leaves16 x) s leaf Hs) as [ls Hls].
  destruct (vset_total (prefix_lens16 x) s bits) as [ps Hps]; [lia|].
  rewrite Hls, Hps. eexists. split; [done|]. split; [|done].
  split; cbn; [rewrite (vset_len _ _ _ _ Hls)|rewrite (vset_len _ _ _ _ Hps)]; done.
Qed.

Lemma fill_slot8_step leaf bits x s :
  ply_dims x -> 0 <= s < vlen (leaves x) ->
  exists x', fill_slot8 leaf bits x s = Some x' /\ ply_dims x' /\
    vset (leaves x) s leaf = Some (leaves x').
Proof.
  intros [Hl Hp] Hs. unfold fill_slot8.
  destruct (vget_in_range (prefix_lens x) s) as [old ->]; [lia|]. cbn [mbind option_bind].
  destruct (vset_total (leaves x) s leaf Hs) as [ls Hls].
  destruct (vset_total (prefix_lens x) s bits) as [ps Hps]; [lia|].
  rewrite Hls, Hps. eexists. split; [done|]. split; [|done].
  split; cbn; [rewrite (vset_len _ _ _ _ Hls)|rewrite (vset_len _ _ _ _ Hps)]; done.
Qed.

(** The slots a prefix of [bits] out of [stride] bits covers. *)
Definition covers (d base s : Z) : bool := s / 2 ^ d =? base / 2 ^ d.

Lemma stride_covers d stride base s :
  0 <= d <= stride -> stride <= 16 -> 0 <= base < 2 ^ stride ->
  let span := stride_span (stride - d) stride in
  0 <= stride_start base span /\ stride_start base span + span <= 2 ^ stride /\ 0 < span /\
  in_span (stride_start base span) (Z.to_nat span) s = covers d base s.
Proof.
  intros Hd Hs Hb span.
  assert (span = 2 ^ d) as ->.
  { unfold span, stride_span. rewrite Z.shiftl_mul_pow2 by lia. rewrite Z.mul_1_l. f_equal. lia. }
  assert (0 < 2 ^ d) as Hpos by (apply Z.pow_pos_nonneg; lia).
  assert (stride_start base (2 ^ d) = base / 2 ^ d * 2 ^ d) as ->.
  { unfold stride_start. replace (2 ^ d - 1) with (Z.ones d) by (rewrite Z.ones_equiv; lia).
    rewrite <- Z.shiftr_div_pow2, <- Z.shiftl_mul_pow2, <- Z.ldiff_ones_r by lia.
    apply Z.bits_inj'. intros i Hi. rewrite Z.land_spec, Z.ldiff_spec, wnot_testbit by lia.
    destruct (Z.ltb_spec i 64); [done|]. cbn [andb].
    assert (Z.testbit base i = false) as ->; [|done].
    destruct (Z.eq_dec base 0) as [->|]; [apply Z.testbit_0_l|].
    apply Z.bits_above_log2; [lia|]. apply Z.log2_lt_pow2; [lia|].
    apply Z.lt_le_trans with (2 ^ stride); [lia|]. apply Z.pow_le_mono_r; lia. }
  pose proof (Z.div_mod base (2 ^ d) ltac:(lia)). pose proof (Z.mod_pos_bound base (2 ^ d) Hpos).
  assert (0 <= base / 2 ^ d) by (apply Z.div_pos; lia).
  split; [lia|]. split.
  - assert (2 ^ stride = 2 ^ (stride - d) * 2 ^ d) as Hpow
      by (rewrite <- Z.pow_add_r by lia; f_equal; lia).
    assert (base / 2 ^ d < 2 ^ (stride - d)); [|nia].
    apply Z.div_lt_upper_bound; lia.
  - split; [done|]. unfold in_span, covers. rewrite Z2Nat.id by lia.
    bool_iff.
    pose proof (Z.div_mod s (2 ^ d) ltac:(lia)). pose proof (Z.mod_pos_bound s (2 ^ d) Hpos).
    split; [|nia]. intros [Hlo Hhi]. assert (s / 2 ^ d < base / 2 ^ d + 1) by nia.
    assert (base / 2 ^ d < s / 2 ^ d + 1) by nia. lia.
Qed.

(** ** Prefixes and strides *)

(** The address [k] is under the prefix of [len] bits of [key]. *)
Definition matches (key len k : Z) : bool := Z.shiftr k (32 - len) =? Z.shiftr key (32 - len).

Lemma matches_root key len k :
  0 <= len <= 16 -> matches key len k = covers (16 - len) (root_stride key) (root_stride k).
Proof.
  intros Hl. unfold matches, covers, root_stride.
  rewrite <- !Z.shiftr_div_pow2, !Z.shiftr_shiftr by lia. by replace (16 + (16 - len)) with (32 - len) by lia.
Qed.

Lemma div_pow_split d a b a' b' :
  0 <= d <= 8 -> 0 <= b < 256 -> 0 <= b' < 256 ->
  (256 * a + b) / 2 ^ d = (256 * a' + b') / 2 ^ d <-> a = a' /\ b / 2 ^ d = b' / 2 ^ d.
Proof.
  intros Hd Hb Hb'. assert (0 < 2 ^ d) by (apply Z.pow_pos_nonneg; lia).
  assert (256 = 2 ^ (8 - d) * 2 ^ d) as Hpow
    by (rewrite <- Z.pow_add_r by lia; replace (8 - d + d) with 8 by lia; done).
  assert (forall x y, (256 * x + y) / 2 ^ d = 2 ^ (8 - d) * x + y / 2 ^ d) as Hdiv.
  { intros x y. rewrite Hpow. replace (2 ^ (8 - d) * 2 ^ d * x + y) with (2 ^ (8 - d) * x * 2 ^ d + y) by lia.
    by rewrite Z.div_add_l by lia. }
  rewrite !Hdiv. assert (0 <= b / 2 ^ d < 2 ^ (8 - d)).
  { split; [apply Z.div_pos; lia|apply Z.div_lt_upper_bound; lia]. }
  assert (0 <= b' / 2 ^ d < 2 ^ (8 - d)).
  { split; [apply Z.div_pos; lia|apply Z.div_lt_upper_bound; lia]. }
  split; [|by intros [-> ->]]. intros Heq. assert (a = a') by nia. subst. lia.
Qed.

Lemma stride_digits k :
  0 <= k -> Z.shiftr k 8 = 256 * root_stride k + first_stride k /\
  k = 256 * Z.shiftr k 8 + second_stride k.
Proof.
  intros Hk. unfold root_stride, first_stride, second_stride. change 0xff with (Z.ones 8).
  rewrite !Z.land_ones, !Z.shiftr_div_pow2 by lia. change (2 ^ 8) with 256. change (2 ^ 16) with (256 * 256).
  rewrite <- Z.div_div by lia.
  split; [apply Z.div_mod|apply Z.div_mod]; lia.
Qed.

Lemma matches_first key len k :
  0 <= key < 2 ^ 32 -> 0 <= k < 2 ^ 32 -> 16 <= len <= 24 ->
  matches key len k =
  (root_stride k =? root_stride key) && covers (24 - len) (first_stride key) (first_stride k).
Proof.
  intros Hkey Hk Hl. unfold matches, covers.
  pose proof (stride_ranges key Hkey). pose proof (stride_ranges k Hk).
  replace (32 - len) with (8 + (24 - len)) by lia.
  rewrite <- !Z.shiftr_shiftr, !(Z.shiftr_div_pow2 _ (24 - len)) by lia.
  rewrite (proj1 (stride_digits key ltac:(lia))), (proj1 (stride_digits k ltac:(lia))).
  bool_iff. apply div_pow_split; lia.
Qed.

Lemma matches_second key len k :
  0 <= key < 2 ^ 32 -> 0 <= k < 2 ^ 32 -> 24 <= len <= 32 ->
  matches key len k =
  (root_stride k =? root_stride key) && (first_stride k =? first_stride key) &&
  covers (32 - len) (second_stride key) (second_stride k).
Proof.
  intros Hkey Hk Hl. unfold matches, covers.
  pose proof (stride_ranges key Hkey). pose proof (stride_ranges k Hk).
  rewrite !Z.shiftr_div_pow2 by lia.
  rewrite (proj2 (stride_digits key ltac:(lia))), (proj2 (stride_digits k ltac:(lia))) at 1.
  bool_iff. rewrite div_pow_split by lia.
  rewrite (proj1 (stride_digits key ltac:(lia))), (proj1 (stride_digits k ltac:(lia))).
  pose proof (div_pow_split 0 (root_stride k) (first_stride k) (root_stride key) (first_stride key)
    ltac:(lia) ltac:(lia) ltac:(lia)) as Hd0. rewrite !Z.div_1_r in Hd0. tauto.
Qed.

(** ** Insertion *)

Lemma rl_mk r p : rl (mk r p) = fun s => default 0 (vget (leaves16 r) s).
Proof. done. Qed.

Lemma fill_root_spec m key d leaf :
  wf m -> 0 <= key < 2 ^ 32 -> 0 <= d <= 16 -> ply_index leaf = None ->
  exists r, fill_stride16 (root m) (root_stride key) (16 - d) 16 leaf = Some r /\
    wf (mk r (plies m)) /\
    forall k, look (rl (mk r (plies m))) (pl m) k =
      if covers d (root_stride key) (root_stride k) then adj_index leaf else look (rl m) (pl m) k.
Proof.
  intros Hwf Hkey Hlen Hleaf. pose proof (stride_ranges key Hkey) as (Hr & _).
  pose proof (stride_covers d 16 (root_stride key)) as Hc. cbv zeta in Hc.
  destruct (Hc 0) as (Hs0 & Hs1 & Hspan & _); [lia..|].
  destruct (foldM_fill (fill_slot16 leaf (16 - d)) leaves16 root_dims leaf
    (fill_slot16_step leaf _) (Z.to_nat (stride_span (16 - d) 16))
    (stride_start (root_stride key) (stride_span (16 - d) 16)) (root m)
    (wf_root _ Hwf)) as (r & Hfold & Hdims & _ & Hv); [done|destruct (wf_root _ Hwf); lia|].
  exists r. split; [done|].
  destruct (view_fill_root _ _ _ (wf_links _ Hwf) (rl (mk r (plies m)))
    (covers d (root_stride key)) leaf Hleaf) as [HL Hlook].
  { intros s. rewrite rl_mk, Hv. destruct (Hc s) as (_ & _ & _ & ->); [lia..|]. done. }
  split; [split; [done|apply Hwf|done]|done].
Qed.

(** Filling part of an existing child ply. *)
Lemma fill_ply_spec m p base d leaf :
  wf m -> 0 <= p < vlen (plies m) -> 0 <= base < 256 -> 0 <= d <= 8 ->
  exists x x' ps, vget (plies m) p = Some x /\
    fill_stride8 x base (8 - d) 8 leaf = Some x' /\ vset (plies m) p x' = Some ps /\
    Forall ply_dims ps /\ vlen ps = vlen (plies m) /\
    forall p' s, pl (mk (root m) ps) p' s =
      if (p' =? p) && covers d base s then leaf else pl m p' s.
Proof.
  intros Hwf Hp Hb Hd. destruct (wf_ply m p Hwf Hp) as (x & Hx & Hdim).
  pose proof (stride_covers d 8 base) as Hc. cbv zeta in Hc.
  destruct (Hc 0) as (Hs0 & Hs1 & Hspan & _); [lia..|].
  destruct (foldM_fill (fill_slot8 leaf (8 - d)) leaves ply_dims leaf
    (fill_slot8_step leaf _) (Z.to_nat (stride_span (8 - d) 8))
    (stride_start base (stride_span (8 - d) 8)) x Hdim)
    as (x' & Hfold & Hdim' & _ & Hv); [done|destruct Hdim; lia|].
  destruct (vset_total (plies m) p x' Hp) as [ps Hps].
  exists x, x', ps. split; [done|]. split; [done|]. split; [done|].
  split; [by eapply vset_Forall_2; [apply (wf_plies _ Hwf)| |]|].
  split; [by eapply vset_len|].
  intros p' s. unfold pl. cbn [plies]. rewrite (vget_vset _ _ _ p' _ Hps).
  destruct (decide (p = p')) as [<-|Hne].
  - rewrite Z.eqb_refl, Hx. cbn. rewrite Hv. by destruct (Hc s) as (_ & _ & _ & ->); [lia..|].
  - by destruct (Z.eqb_spec p' p); [congruence|].
Qed.

Lemma filled8_get inherited base s :
  default 0 (vget (leaves (filled8 inherited base)) s) = if in_ply s then inherited else 0.
Proof.
  unfold in_ply, filled8. change (Z.to_nat MTRIE_8_LEN) with 256%nat.
  destruct (Z.leb_spec 0 s), (Z.ltb_spec s 256); cbn [andb leaves].
  - by rewrite vget_replicate by lia.
  - rewrite vget_None; [done|]. rewrite vlen_replicate. lia.
  - rewrite vget_None; [done|]. lia.
  - rewrite vget_None; [done|]. lia.
Qed.

Lemma filled8_dims inherited base : ply_dims (filled8 inherited base).
Proof. by split; cbn [leaves prefix_lens filled8]; rewrite vlen_replicate. Qed.

(** The slots of a trie with a new ply at the end. *)
Lemma pl_alloc m x p s :
  pl (mk (root m) (plies m ++ [x])) p s =
  if p =? vlen (plies m) then default 0 (vget (leaves x) s) else pl m p s.
Proof.
  unfold pl. cbn [plies]. rewrite vget_snoc.
  destruct (decide (p = vlen (plies m))), (Z.eqb_spec p (vlen (plies m))); done.
Qed.

Lemma ensure_root_ply_spec m key :
  wf m -> 0 <= key < 2 ^ 32 -> vlen (plies m) < 2 ^ 31 - 1 ->
  exists m' p, ensure_root_ply m (root_stride key) 16 = Some (m', p) /\ wf m' /\
    vlen (plies m') <= vlen (plies m) + 1 /\
    ply_index (rl m' (root_stride key)) = Some p /\
    forall k, 0 <= k < 2 ^ 32 -> look (rl m') (pl m') k = look (rl m) (pl m) k.
Proof.
  intros Hwf Hkey Hn. pose proof (stride_ranges key Hkey) as (Hr & _).
  pose proof (wf_root _ Hwf) as [Hd1 Hd2]. unfold ensure_root_ply.
  destruct (vget_in_range (leaves16 (root m)) (root_stride key)) as [leaf Hl]; [lia|].
  assert (rl m (root_stride key) = leaf) as Erl by (unfold rl; by rewrite Hl).
  rewrite Hl. cbn [mbind option_bind]. destruct (ply_index leaf) as [p|] eqn:Ep.
  { exists m, p. rewrite Erl. split_and!; done || lia. }
  destruct (vget_in_range (prefix_lens16 (root m)) (root_stride key)) as [old ->]; [lia|].
  cbn [mbind option_bind alloc_ply]. pose proof (vlen_nonneg (plies m)).
  destruct (non_terminal_decode (vlen (plies m)) ltac:(lia)) as (link & -> & Hlink).
  cbn [mbind option_bind root].
  destruct (vset_total (leaves16 (root m)) (root_stride key) link ltac:(lia)) as [ls Hls].
  destruct (vset_total (prefix_lens16 (root m)) (root_stride key) 16 ltac:(lia)) as [ps Hps].
  rewrite Hls, Hps. cbn [mbind option_bind plies]. eexists _, _. split; [done|].
  set (x := filled8 leaf (Z.max old 16)).
  destruct (view_alloc_root _ _ _ (wf_links _ Hwf) (rl (mk (mk16 ls ps) (plies m ++ [x])))
    (pl (mk (mk16 ls ps) (plies m ++ [x]))) (root_stride key) link) as [HL Hlook].
  - by rewrite Erl.
  - done.
  - intros r. rewrite rl_mk. cbn [leaves16]. rewrite (vget_vset _ _ _ r _ Hls). unfold rl.
    by destruct (decide (root_stride key = r)), (Z.eqb_spec r (root_stride key)).
  - intros p s. change (pl (mk (mk16 ls ps) _)) with (pl (mk (root m) (plies m ++ [x]))).
    rewrite pl_alloc, Erl. unfold x. by rewrite filled8_get.
  - done.
  - split; [split|].
    + cbn. by rewrite (vset_len _ _ _ _ Hls), (vset_len _ _ _ _ Hps).
    + apply Forall_app_2; [apply (wf_plies _ Hwf)|]. apply Forall_singleton, filled8_dims.
    + cbn [plies]. by rewrite vlen_app.
    + cbn [plies]. rewrite vlen_app. split; [unfold vlen; simpl; lia|]. split.
      * rewrite rl_mk. cbn [leaves16]. rewrite (vget_vset _ _ _ _ _ Hls), decide_True by done. done.
      * intros k Hk. apply Hlook. apply (in_ply_stride k Hk).
Qed.

Lemma ensure_child_ply_spec m key p0 :
  wf m -> 0 <= key < 2 ^ 32 -> vlen (plies m) < 2 ^ 31 - 1 ->
  ply_index (rl m (root_stride key)) = Some p0 ->
  exists m' q, ensure_child_ply m p0 (first_stride key) 24 = Some (m', q) /\ wf m' /\
    vlen (plies m') <= vlen (plies m) + 1 /\
    ply_index (rl m' (root_stride key)) = Some p0 /\
    ply_index (pl m' p0 (first_stride key)) = Some q /\
    forall k, 0 <= k < 2 ^ 32 -> look (rl m') (pl m') k = look (rl m) (pl m) k.
Proof.
  intros Hwf Hkey Hn Hp0. pose proof (stride_ranges key Hkey) as (_ & Hf & _).
  pose proof (root_link _ _ _ (wf_links _ Hwf) _ _ Hp0) as Hp0n.
  destruct (wf_ply m p0 Hwf Hp0n) as (par & Hpar & Hd1 & Hd2). unfold ensure_child_ply.
  rewrite Hpar. cbn [mbind option_bind].
  destruct (vget_in_range (leaves par) (first_stride key)) as [leaf Hl]; [lia|].
  assert (pl m p0 (first_stride key) = leaf) as Epl by (unfold pl; rewrite Hpar; cbn; by rewrite Hl).
  rewrite Hl. cbn [mbind option_bind]. destruct (ply_index leaf) as [q|] eqn:Eq.
  { exists m, q. rewrite Epl. split_and!; done || lia. }
  destruct (vget_in_range (prefix_lens par) (first_stride key)) as [old ->]; [lia|].
  cbn [mbind option_bind alloc_ply].
  destruct (non_terminal_decode (vlen (plies m)) ltac:(lia)) as (link & -> & Hlink).
  cbn [mbind option_bind root plies].
  destruct (vset_total (leaves par) (first_stride key) link ltac:(lia)) as [ls Hls].
  destruct (vset_total (prefix_lens par) (first_stride key) 24 ltac:(lia)) as [ps Hps].
  rewrite Hls, Hps. cbn [mbind option_bind].
  set (x := filled8 leaf (Z.max old 24)). set (par' := mk8 ls ps _ _).
  destruct (vset_total (plies m ++ [x]) p0 par') as [pls Hpls]; [rewrite vlen_app; unfold vlen in *; lia|].
  rewrite Hpls. cbn [mbind option_bind]. eexists _, _. split; [done|].
  apply vset_len in Hpls as Hlen. rewrite vlen_app in Hlen. change (vlen [x]) with 1 in Hlen.
  assert (forall p s, pl (mk (root m) pls) p s =
    if (p =? p0) && (s =? first_stride key) then link else
    if p =? vlen (plies m) then (if in_ply s then pl m p0 (first_stride key) else 0)
    else pl m p s) as HP.
  { intros p s. unfold pl at 1. cbn [plies]. rewrite (vget_vset _ _ _ p _ Hpls).
    destruct (decide (p0 = p)) as [<-|Hne].
    - rewrite Z.eqb_refl. cbn. rewrite (vget_vset _ _ _ s _ Hls).
      destruct (Z.eqb_spec p0 (vlen (plies m))); [lia|]. unfold pl. rewrite Hpar. cbn.
      by destruct (decide (first_stride key = s)), (Z.eqb_spec s (first_stride key)).
    - destruct (Z.eqb_spec p p0); [congruence|]. cbn [andb].
      change (default 0 _) with (pl (mk (root m) (plies m ++ [x])) p s).
      rewrite pl_alloc, Epl. unfold x. by rewrite filled8_get. }
  destruct (view_alloc_child _ _ _ (wf_links _ Hwf) (pl (mk (root m) pls)) (root_stride key) p0
    (first_stride key) link) as [HL Hlook]; [done|by rewrite Epl|done|done|].
  split; [split|].
  - apply Hwf.
  - eapply vset_Forall_2; [| |exact Hpls].
    + apply Forall_app_2; [apply (wf_plies _ Hwf)|]. apply Forall_singleton, filled8_dims.
    + split; cbn; [rewrite (vset_len _ _ _ _ Hls)|rewrite (vset_len _ _ _ _ Hps)]; done.
  - cbn [plies]. by rewrite Hlen.
  - cbn [plies]. rewrite Hlen. split; [lia|]. split; [done|]. split.
    + by rewrite HP, !Z.eqb_refl.
    + intros k Hk. apply Hlook. apply (in_ply_stride k Hk).
Qed.

(** [insert] is total, preserves the invariant and overwrites exactly the
    addresses under its prefix. *)
Lemma insert_spec m key len v :
  wf m -> 0 <= key < 2 ^ 32 -> 0 <= len <= 32 -> 0 <= v -> vlen (plies m) + 2 < 2 ^ 31 ->
  exists m', insert m key len v = Some m' /\ wf m' /\ vlen (plies m') <= vlen (plies m) + 2 /\
    forall k, 0 <= k < 2 ^ 32 -> look (rl m') (pl m') k =
      if matches key len k then Some (wrap 31 v) else look (rl m) (pl m) k.
Proof.
  intros Hwf Hkey Hlen Hv Hn. pose proof (stride_ranges key Hkey) as (_ & Hf & Hs).
  destruct (terminal_decode v Hv) as [Hadj Hply]. unfold insert, MTRIE_16_BITS, MTRIE_8_BITS.
  destruct (Z.ltb_spec 32 len); [lia|]. destruct (Z.leb_spec len 16).
  { destruct (fill_root_spec m key (16 - len) (terminal v)) as (r & Hr & Hwf' & Hlook);
      [done|done|lia|done|].
    replace (16 - (16 - len)) with len in Hr by lia. rewrite Hr. eexists. split; [done|].
    split; [done|]. split; [cbn; lia|]. intros k Hk. rewrite matches_root, <- Hadj by lia.
    apply Hlook. }
  destruct (ensure_root_ply_spec m key) as (m1 & p & -> & Hwf1 & Hn1 & Hp & Hlook1);
    [done|done|lia|]. cbn [mbind option_bind].
  pose proof (root_link _ _ _ (wf_links _ Hwf1) _ _ Hp) as Hpn.
  destruct (Z.leb_spec len (16 + 8)).
  { destruct (fill_ply_spec m1 p (first_stride key) (24 - len) (terminal v))
      as (x & x' & ps & -> & Hfill & Hset & Hdims & Hlen' & HP); [done|done|done|lia|].
    replace (8 - (24 - len)) with (len - 16) in Hfill by lia.
    cbn [mbind option_bind]. rewrite Hfill. cbn [mbind option_bind]. rewrite Hset.
    eexists. split; [done|].
    destruct (view_fill_first _ _ _ (wf_links _ Hwf1) _ (covers (24 - len) (first_stride key))
      (terminal v) (root_stride key) p Hp Hply HP) as [HL Hlook].
    split; [split; [apply Hwf1|done|by cbn; rewrite Hlen']|]. split; [cbn; lia|].
    intros k Hk. rewrite matches_first, <- Hlook1, <- Hadj by (done || lia). apply Hlook. }
  destruct (ensure_child_ply_spec m1 key p) as (m2 & q & Hens & Hwf2 & Hn2 & Hp2 & Hq & Hlook2);
    [done|done|lia|done|]. change (16 + 8) with 24. rewrite Hens. cbn [mbind option_bind].
  destruct (child_link _ _ _ (wf_links _ Hwf2) _ _ _ _ Hp2 Hq) as (Hqn & _).
  destruct (fill_ply_spec m2 q (second_stride key) (32 - len) (terminal v))
    as (x & x' & ps & -> & Hfill & Hset & Hdims & Hlen' & HP); [done|done|done|lia|].
  replace (8 - (32 - len)) with (len - 16 - 8) in Hfill by lia.
  cbn [mbind option_bind]. rewrite Hfill. cbn [mbind option_bind]. rewrite Hset.
  eexists. split; [done|].
  destruct (view_fill_second _ _ _ (wf_links _ Hwf2) _ (covers (32 - len) (second_stride key))
    (terminal v) (root_stride key) p (first_stride key) q Hp2 Hq Hply HP) as [HL Hlook].
  split; [split; [apply Hwf2|done|by cbn; rewrite Hlen']|]. split; [cbn; lia|].
  intros k Hk. rewrite matches_second, <- Hlook1, <- Hlook2, <- Hadj by (done || lia). apply Hlook.
Qed.

Lemma ply_index_miss : ply_index MISS = None.
Proof. done. Qed.

Lemma rl_empty r : rl empty r = 0.
Proof.
  unfold rl, empty, filled16, vget. cbn [root leaves16].
  destruct (r <? 0); [done|]. destruct (replicate _ MISS !! Z.to_nat r) eqn:E; [|done].
  apply lookup_replicate in E as [-> _]. done.
Qed.

Lemma empty_wf : wf empty.
Proof.
  assert (vlen (replicate (Z.to_nat MTRIE_16_LEN) 0) = 65536) as Hlen.
  { rewrite vlen_replicate. unfold MTRIE_16_LEN, MTRIE_16_BITS. rewrite Z2Nat.id; [done|by vm_compute]. }
  split; [|by constructor|].
  - unfold empty, filled16, MISS. cbn [root leaves16 prefix_lens16]. split; exact Hlen.
  - split; intros; rewrite ?rl_empty in *; done.
Qed.

Lemma look_empty k : look (rl empty) (pl empty) k = None.
Proof. unfold look. by rewrite rl_empty. Qed.

(** ** Longest-prefix match *)

Section lpm.
Context {V : Type}.
Implicit Types (e : entry V) (es : list (entry V)).

Definition entry_matches e k : bool := matches (key e) (prefix_len e) k.

(** The reference: among the entries that match, one of the greatest prefix
    length, the last of those. *)
Fixpoint lpm es k : option (entry V) :=
  match es with
  | [] => None
  | e :: es =>
      match lpm es k with
      | Some best =>
          if entry_matches e k && (prefix_len best <? prefix_len e) then Some e else Some best
      | None => if entry_matches e k then Some e else None
      end
  end.

(** The last entry of the list that matches. *)
Fixpoint last_match es k : option (entry V) :=
  match es with
  | [] => None
  | e :: es =>
      match last_match es k with
      | Some best => Some best
      | None => if entry_matches e k then Some e else None
      end
  end.

Definition len_sorted : list (entry V) -> Prop :=
  StronglySorted (fun x y => prefix_len x <= prefix_len y).

Lemma insert_by_len_perm e es : insert_by_len e es ≡ₚ e :: es.
Proof.
  induction es as [|x es IH]; simpl; [done|]. case_if; [done|]. rewrite IH. constructor.
Qed.

Lemma sort_by_len_perm es : sort_by_len es ≡ₚ es.
Proof. induction es as [|e es IH]; simpl; [done|]. by rewrite insert_by_len_perm, IH. Qed.

Lemma insert_by_len_sorted e es : len_sorted es -> len_sorted (insert_by_len e es).
Proof.
  induction es as [|x es IH]; intros Hs; simpl; [by repeat constructor|].
  apply StronglySorted_inv in Hs as [Hs Hx]. rewrite Forall_forall in Hx. case_if.
  - constructor; [by constructor; [|apply Forall_forall]|]. constructor; [done|].
    apply Forall_forall. intros y Hy. specialize (Hx y Hy). lia.
  - constructor; [by apply IH|]. apply Forall_forall. intros y.
    rewrite insert_by_len_perm, elem_of_cons. intros [->|Hy]; [lia|by apply Hx].
Qed.

Lemma sort_by_len_sorted es : len_sorted (sort_by_len es).
Proof. induction es; simpl; [constructor|by apply insert_by_len_sorted]. Qed.

Lemma last_match_elem es k e : last_match es k = Some e -> e ∈ es.
Proof.
  revert e. induction es as [|x es IH]; intros e; simpl; [done|].
  destruct (last_match es k); intros; simplify_eq; [right; by apply IH|].
  case_match; simplify_eq. left.
Qed.

Lemma last_match_insert e es k :
  len_sorted es ->
  last_match (insert_by_len e es) k =
  match last_match es k with
  | Some best =>
      if entry_matches e k && (prefix_len best <? prefix_len e) then Some e else Some best
  | None => if entry_matches e k then Some e else None
  end.
Proof.
  induction es as [|x es IH]; intros Hs; [done|].
  apply StronglySorted_inv in Hs as [Hs Hx]. cbn [insert_by_len].
  destruct (Z.leb_spec (prefix_len e) (prefix_len x)) as [Hle|Hgt].
  - cbn [last_match]. destruct (last_match es k) as [b|] eqn:Eb.
    + apply last_match_elem in Eb. rewrite Forall_forall in Hx. specialize (Hx b Eb).
      destruct (Z.ltb_spec (prefix_len b) (prefix_len e)); [lia|]. by rewrite andb_false_r.
    + destruct (entry_matches x k); [|done].
      destruct (Z.ltb_spec (prefix_len x) (prefix_len e)); [lia|]. by rewrite andb_false_r.
  - cbn [last_match]. rewrite IH by done. destruct (last_match es k) as [b|] eqn:Eb.
    + by destruct (entry_matches e k && _).
    + destruct (entry_matches e k), (entry_matches x k); cbn [andb]; try done.
      destruct (Z.ltb_spec (prefix_len x) (prefix_len e)); [done|lia].
Qed.

Lemma last_match_sort es k : last_match (sort_by_len es) k = lpm es k.
Proof.
  induction es as [|e es IH]; [done|]. cbn [sort_by_len foldr lpm].
  rewrite last_match_insert by apply sort_by_len_sorted. unfold sort_by_len in IH. by rewrite IH.
Qed.

(** [lpm] is a longest match, and is [None] only when nothing matches. *)
Lemma lpm_spec es k :
  match lpm es k with
  | Some e => e ∈ es /\ entry_matches e k = true /\
      forall e', e' ∈ es -> entry_matches e' k = true -> prefix_len e' <= prefix_len e
  | None => forall e, e ∈ es -> entry_matches e k = false
  end.
Proof.
  induction es as [|x es IH]; simpl; [intros e He; by apply elem_of_nil in He|].
  destruct (lpm es k) as [b|]; [destruct IH as (Hb & Hm & Hmax)|];
    destruct (entry_matches x k) eqn:Ex; cbn [andb].
  - destruct (Z.ltb_spec (prefix_len b) (prefix_len x)).
    + split; [left|]. split; [done|]. intros e' [->|He']%elem_of_cons Hm'; [lia|].
      specialize (Hmax e' He' Hm'). lia.
    + split; [by right|]. split; [done|]. intros e' [->|He']%elem_of_cons Hm'; [lia|by apply Hmax].
  - split; [by right|]. split; [done|]. intros e' [->|He']%elem_of_cons Hm'; [congruence|by apply Hmax].
  - split; [left|]. split; [done|]. intros e' [->|He']%elem_of_cons Hm'; [lia|].
    rewrite IH in Hm'; done.
  - intros e [->|He]%elem_of_cons; [done|by apply IH].
Qed.

End lpm.

(** ** The theorems *)

Definition entry_ok `{PackedMtrieValue V} (e : entry V) : Prop :=
  0 <= key e < 2 ^ 32 /\ 0 <= prefix_len e <= 32 /\ 0 <= into_leaf_value (value e) < 2 ^ 32.

(** What a leaf keeps of a value: its low 31 bits. *)
Definition leaf_value `{PackedMtrieValue V} (e : entry V) : Z :=
  wrap 31 (into_leaf_value (value e)).

Lemma inserts_spec `{PackedMtrieValue V} (es : list (entry V)) m :
  wf m -> Forall entry_ok es -> vlen (plies m) + 2 * vlen es < 2 ^ 31 ->
  exists m', foldM (fun m e => packed_insert m (key e) (prefix_len e) (value e)) m es = Some m' /\
    wf m' /\ forall k, 0 <= k < 2 ^ 32 -> look (rl m') (pl m') k =
      match last_match es k with
      | Some e => Some (leaf_value e)
      | None => look (rl m) (pl m) k
      end.
Proof.
  revert m. induction es as [|e es IH]; intros m Hwf Hok Hn; [by exists m|].
  apply Forall_cons in Hok as [(Hk & Hl & Hv & _) Hok].
  unfold vlen in *. cbn [length foldM last_match] in *.
  destruct (insert_spec m (key e) (prefix_len e) (into_leaf_value (value e)))
    as (m1 & Hm1 & Hwf1 & Hn1 & Hlook1); [done|done|done|done|unfold vlen; lia|].
  change (packed_insert m (key e) (prefix_len e) (value e) = Some m1) in Hm1. rewrite Hm1.
  destruct (IH m1 Hwf1 Hok) as (m' & Hm' & Hwf' & Hlook'); [unfold vlen in *; lia|].
  exists m'. split; [done|]. split; [done|]. intros k Hk'. rewrite Hlook', Hlook1 by done.
  unfold entry_matches, leaf_value. destruct (last_match es k); [done|]. by case_match.
Qed.

Lemma sort_by_len_ok `{PackedMtrieValue V} (es : list (entry V)) :
  Forall entry_ok es -> Forall entry_ok (sort_by_len es).
Proof. by rewrite sort_by_len_perm. Qed.

(** C18: a trie built from any list of routes answers every address with the
    longest-prefix match: some route of the list matches the address and no
    longer one does, the last such route of the list wins, and a miss is
    reported exactly when no route matches.  Building and looking up never
    index out of range.  Values lose their top bit (leaves hold 31 bits). *)
Theorem mtrie_longest_prefix_match `{PackedMtrieValue V} (es : list (entry V)) :
  Forall entry_ok es -> vlen es < 2 ^ 30 ->
  exists m, from_entries es = Some m /\
    forall k, 0 <= k < 2 ^ 32 ->
      packed_lookup m k =
        Some (fmap (M:=option) (fun e => from_leaf_value (leaf_value e)) (lpm es k)) /\
      match lpm es k with
      | Some e => e ∈ es /\ entry_matches e k = true /\
          forall e', e' ∈ es -> entry_matches e' k = true -> prefix_len e' <= prefix_len e
      | None => forall e, e ∈ es -> entry_matches e k = false
      end.
Proof.
  intros Hok Hn. destruct (inserts_spec (sort_by_len es) empty) as (m & Hm & Hwf & Hlook).
  - apply empty_wf.
  - by apply sort_by_len_ok.
  - unfold vlen in *. rewrite sort_by_len_perm. simpl. lia.
  - exists m. split; [done|]. intros k Hk. split; [|apply lpm_spec]. unfold packed_lookup.
    rewrite lookup_look, Hlook, last_match_sort, look_empty by done. cbn [mbind option_bind].
    by destruct (lpm es k).
Qed.

Lemma mtrie_longest_prefix_match_witness :
  exists m, from_entries [mk_entry 0x0a000000 8 1; mk_entry 0x0a0b0c00 24 2] = Some m /\
    packed_lookup m 0x0a0b0c0d = Some (Some 2) /\ packed_lookup m 0x0a0b0d0d = Some (Some 1) /\
    packed_lookup m 0x0b000000 = Some (None : option Z).
Proof.
  destruct (mtrie_longest_prefix_match [mk_entry 0x0a000000 8 1; mk_entry 0x0a0b0c00 24 2])
    as (m & Hm & H).
  - repeat constructor; vm_compute; discriminate || done.
  - reflexivity.
  - exists m. split; [exact Hm|].
    split; [|split].
    + apply (H 0x0a0b0c0d). split; reflexivity || discriminate.
    + apply (H 0x0a0b0d0d). split; reflexivity || discriminate.
    + apply (H 0x0b000000). split; reflexivity || discriminate.
Defined.

(** on every well-formed trie [insert] succeeds, keeps the trie
    well-formed, and makes exactly the addresses under the prefix answer with
    the new value, whatever longer or shorter routes were there before. *)
Theorem mtrie_insert_overwrites m key len v :
  wf m -> 0 <= key < 2 ^ 32 -> 0 <= len <= 32 -> 0 <= v < 2 ^ 31 -> ply_count m + 2 < 2 ^ 31 ->
  exists m', insert m key len v = Some m' /\ wf m' /\ ply_count m' <= ply_count m + 2 /\
    forall k, 0 <= k < 2 ^ 32 ->
      lookup m' k = if matches key len k then Some (Some v) else lookup m k.
Proof.
  intros Hwf Hk Hl Hv Hn. destruct (insert_spec m key len v) as (m' & Hm' & Hwf' & Hn' & Hlook);
    [done|done|done|lia|done|].
  exists m'. split_and!; [done..|]. intros k Hk'. rewrite !lookup_look, Hlook by done.
  rewrite wrap_small by (split; lia). by destruct (matches key len k).
Qed.

Lemma mtrie_insert_overwrites_witness :
  exists m, insert empty 0xc0a80100 24 5 = Some m /\ lookup m 0xc0a801ff = Some (Some 5).
Proof.
  destruct (mtrie_insert_overwrites empty 0xc0a80100 24 5) as (m & Hm & _ & _ & H).
  - apply empty_wf.
  - split; reflexivity || discriminate.
  - split; discriminate.
  - split; reflexivity || discriminate.
  - reflexivity.
  - exists m. split; [exact Hm|]. apply (H 0xc0a801ff). split; reflexivity || discriminate.
Defined.

(** the count of non-empty slots of a child ply never grows when routes
    are written into it: [fill_stride] compares the stride-relative
    [prefix_bits] (at most 8) with the absolute [base_len] (16 or 24). *)
Theorem mtrie_fill_never_counts p base bits leaf p' :
  MTRIE_16_BITS <= base_len p -> bits <= MTRIE_8_BITS ->
  fill_stride8 p base bits MTRIE_8_BITS leaf = Some p' ->
  n_non_empty p' <= n_non_empty p /\ base_len p' = base_len p.
Proof.
  unfold fill_stride8, MTRIE_16_BITS, MTRIE_8_BITS. generalize (stride_span bits 8). intros span.
  generalize (zseq (stride_start base span) (Z.to_nat span)). intros l. revert p.
  induction l as [|s l IH]; intros p Hb Hbits H; cbn [foldM] in H; [simplify_eq; lia|].
  destruct (fill_slot8 leaf bits p s) as [p1|] eqn:E; [|done]. cbn [mbind option_bind] in H.
  assert (n_non_empty p1 <= n_non_empty p /\ base_len p1 = base_len p) as [Hn1 Hb1].
  { unfold fill_slot8 in E. destruct (vget (prefix_lens p) s) as [old|]; [|done].
    cbn [mbind option_bind] in E. destruct (vset (leaves p) s leaf); [|done].
    cbn [mbind option_bind] in E. destruct (vset (prefix_lens p) s bits); [|done].
    cbn [mbind option_bind] in E. simplify_eq. cbn.
    destruct (Z.ltb_spec (base_len p) bits); [lia|]. split; [|done]. case_match; lia. }
  apply IH in H; lia.
Qed.

Lemma mtrie_fill_never_counts_witness :
  exists p', fill_stride8 (filled8 0 16) 12 8 MTRIE_8_BITS (terminal 7) = Some p' /\
    vget (leaves p') 12 = Some (terminal 7) /\ n_non_empty p' <= 0.
Proof.
  eexists. split; [vm_compute; reflexivity|]. split; [reflexivity|].
  eapply (mtrie_fill_never_counts (filled8 0 16) 12 8 (terminal 7)).
  - discriminate.
  - discriminate.
  - vm_compute. reflexivity.
Defined.

End Mtrie.
