(* ===== verification/InfraRbTree.v ===== *)
(** * The red-black tree ([crates/hammer-infra/src/rbtree.rs])

    The nodes live in an index pool ([InfraPool]); index 0 holds the black
    sentinel that stands for every missing child and whose parent field the
    rotations and the removal overwrite, and the pool's opaque word is the
    root.  An index that is not occupied makes [expect] panic: [None].

    The source writes the left and the right case of a rotation and of both
    fix-up loops one after the other, as mirror images; they are one definition
    here, over the [side] at which the child hangs.  [prefetch_first] and
    [prefetch_node] only hint the processor and are not modelled, nor is the
    allocator-dependent [capacity].

    Loops take the number of slots of the pool as fuel.  [InfraRbHeap] to
    [InfraRbOps] hold the proofs. *)

From S2P Require Import Prelude InfraBitmap InfraPool.

Module RbTree.

Inductive Color : Type := Red | Black.
#[export] Instance color_eq_dec : EqDecision Color.
Proof. solve_decision. Defined.
Definition is_red (c : Color) : bool := match c with Red => true | Black => false end.

Record Node (K V : Type) : Type := mk_node {
  color : Color;
  parent : Z;
  left : Z;
  right : Z;
  key : K;
  value : V
}.
#[global] Arguments mk_node {K V} _ _ _ _ _ _.
#[global] Arguments color {K V} _.
#[global] Arguments parent {K V} _.
#[global] Arguments left {K V} _.
#[global] Arguments right {K V} _.
#[global] Arguments key {K V} _.
#[global] Arguments value {K V} _.

Inductive side : Type := SL | SR.
#[export] Instance side_eq_dec : EqDecision side.
Proof. solve_decision. Defined.
Definition opp (s : side) : side := match s with SL => SR | SR => SL end.

Section Tree.
Context {K V : Type}.
(** [Ord::cmp] and [Default] of the key, [Default] of the value. *)
Variable cmp : K -> K -> comparison.
Variables (key_default : K) (value_default : V).

Definition set_color (c : Color) (n : Node K V) : Node K V :=
  mk_node c (parent n) (left n) (right n) (key n) (value n).
Definition set_parent (i : Z) (n : Node K V) : Node K V :=
  mk_node (color n) i (left n) (right n) (key n) (value n).
Definition set_value (x : V) (n : Node K V) : Node K V :=
  mk_node (color n) (parent n) (left n) (right n) (key n) x.
Definition child (s : side) (n : Node K V) : Z := match s with SL => left n | SR => right n end.
Definition set_child (s : side) (i : Z) (n : Node K V) : Node K V :=
  match s with
  | SL => mk_node (color n) (parent n) i (right n) (key n) (value n)
  | SR => mk_node (color n) (parent n) (left n) i (key n) (value n)
  end.

(** The tree is the pool of its nodes. *)
Definition t : Type := Pool.t (Node K V).

Definition with_capacity (capacity : Z) : option t :=
  let nodes := Pool.with_capacity (Z.max (saturating_add 64 capacity 1) 1) in
  '(nodes, _) ← Pool.insert nodes (mk_node Black 0 0 0 key_default value_default);
  Some (Pool.set_opaque nodes 0).
Definition new : option t := with_capacity 16.

Definition len (p : t) : Z := saturating_sub (Pool.len p) 1.
Definition root (p : t) : Z := Pool.opaque p.
Definition set_root (p : t) (i : Z) : t := Pool.set_opaque p i.
Definition is_empty (p : t) : bool := root p =? 0.

Definition node (p : t) (i : Z) : option (Node K V) :=
  match Pool.get p i with Some (Some n) => Some n | _ => None end.
Definition node_mut (p : t) (i : Z) (f : Node K V -> Node K V) : option t :=
  '(p, occupied) ← Pool.get_mut p i f;
  if occupied : bool then Some p else None.
Definition color_of (p : t) (i : Z) : option Color := n ← node p i; Some (color n).

Definition fuel (p : t) : nat := S (length (Pool.vector p)).

(** ** Searching *)

Fixpoint find_loop (n : nat) (p : t) (k : K) (cursor : Z) : option (option Z) :=
  match n with
  | O => None
  | S n' =>
    if cursor =? 0 then Some None else
    x ← node p cursor;
    match cmp k (key x) with
    | Lt => find_loop n' p k (left x)
    | Gt => find_loop n' p k (right x)
    | Eq => Some (Some cursor)
    end
  end.
Definition find_node (p : t) (k : K) : option (option Z) := find_loop (fuel p) p k (root p).

Definition contains_key (p : t) (k : K) : option bool :=
  i ← find_node p k; Some (match i with Some _ => true | None => false end).

Definition get (p : t) (k : K) : option (option V) :=
  i ← find_node p k;
  match i with
  | None => Some None
  | Some i => n ← node p i; Some (Some (value n))
  end.

Definition get_mut (p : t) (k : K) (f : V -> V) : option (t * bool) :=
  i ← find_node p k;
  match i with
  | None => Some (p, false)
  | Some i => p ← node_mut p i (fun n => set_value (f (value n)) n); Some (p, true)
  end.

Fixpoint extreme_loop (n : nat) (s : side) (p : t) (i : Z) : option Z :=
  match n with
  | O => None
  | S n' =>
    x ← node p i;
    if child s x =? 0 then Some i else extreme_loop n' s p (child s x)
  end.
Definition minimum_index (p : t) (i : Z) : option Z := extreme_loop (fuel p) SL p i.
Definition maximum_index (p : t) (i : Z) : option Z := extreme_loop (fuel p) SR p i.

Definition entry_at (p : t) (i : Z) : option (K * V) := n ← node p i; Some (key n, value n).

Definition first (p : t) : option (option (K * V)) :=
  if root p =? 0 then Some None else
  i ← minimum_index p (root p); e ← entry_at p i; Some (Some e).
Definition last (p : t) : option (option (K * V)) :=
  if root p =? 0 then Some None else
  i ← maximum_index p (root p); e ← entry_at p i; Some (Some e).

Fixpoint predecessor_loop (n : nat) (p : t) (k : K) (cursor candidate : Z) : option Z :=
  match n with
  | O => None
  | S n' =>
    if cursor =? 0 then Some candidate else
    x ← node p cursor;
    match cmp k (key x) with
    | Gt => predecessor_loop n' p k (right x) cursor
    | _ => predecessor_loop n' p k (left x) candidate
    end
  end.
Fixpoint successor_loop (n : nat) (p : t) (k : K) (cursor candidate : Z) : option Z :=
  match n with
  | O => None
  | S n' =>
    if cursor =? 0 then Some candidate else
    x ← node p cursor;
    match cmp k (key x) with
    | Lt => successor_loop n' p k (left x) cursor
    | _ => successor_loop n' p k (right x) candidate
    end
  end.

Definition predecessor (p : t) (k : K) : option (option (K * V)) :=
  c ← predecessor_loop (fuel p) p k (root p) 0;
  if c =? 0 then Some None else e ← entry_at p c; Some (Some e).
Definition successor (p : t) (k : K) : option (option (K * V)) :=
  c ← successor_loop (fuel p) p k (root p) 0;
  if c =? 0 then Some None else e ← entry_at p c; Some (Some e).

(** ** Rotations *)

Definition rotate (s : side) (p : t) (x : Z) : option t :=
  nx ← node p x;
  let y := child (opp s) nx in
  ny ← node p y;
  let y_near := child s ny in
  p ← node_mut p x (set_child (opp s) y_near);
  p ← node_mut p y_near (set_parent x);
  nx ← node p x;
  let x_parent := parent nx in
  p ← node_mut p y (set_parent x_parent);
  p ← (if x_parent =? 0 then Some (set_root p y) else
       np ← node p x_parent;
       if child s np =? x then node_mut p x_parent (set_child s y)
       else node_mut p x_parent (set_child (opp s) y));
  p ← node_mut p y (set_child s x);
  node_mut p x (set_parent y).
Definition rotate_left : t -> Z -> option t := rotate SL.
Definition rotate_right : t -> Z -> option t := rotate SR.

(** ** Insertion *)

(** One round of [insert_fixup] for a parent that is the [s] child of the
    grandparent. *)
Definition insert_fixup_side (s : side) (p : t) (z par grand : Z) : option (t * Z) :=
  ng ← node p grand;
  let uncle := child (opp s) ng in
  cu ← color_of p uncle;
  if is_red cu then
    p ← node_mut p par (set_color Black);
    p ← node_mut p uncle (set_color Black);
    p ← node_mut p grand (set_color Red);
    Some (p, grand)
  else
    np ← node p par;
    '(p, z) ← (if child (opp s) np =? z then p ← rotate s p par; Some (p, par) else Some (p, z));
    nz ← node p z;
    let par := parent nz in
    np ← node p par;
    let grand := parent np in
    p ← node_mut p par (set_color Black);
    p ← node_mut p grand (set_color Red);
    p ← rotate (opp s) p grand;
    Some (p, z).

Fixpoint insert_fixup_loop (n : nat) (p : t) (z : Z) : option t :=
  match n with
  | O => None
  | S n' =>
    nz ← node p z;
    np ← node p (parent nz);
    if is_red (color np) then
      let par := parent nz in
      let grand := parent np in
      ng ← node p grand;
      '(p, z) ← insert_fixup_side (if left ng =? par then SL else SR) p z par grand;
      insert_fixup_loop n' p z
    else Some p
  end.

Definition insert_fixup (p : t) (z : Z) : option t :=
  p ← insert_fixup_loop (fuel p) p z;
  node_mut p (root p) (set_color Black).

(** The descent of [insert]: the parent for a new node, or the node that has
    the key. *)
Fixpoint insert_descend (n : nat) (p : t) (k : K) (par cursor : Z) : option (Z + Z) :=
  match n with
  | O => None
  | S n' =>
    if cursor =? 0 then Some (inl par) else
    x ← node p cursor;
    match cmp k (key x) with
    | Lt => insert_descend n' p k cursor (left x)
    | Gt => insert_descend n' p k cursor (right x)
    | Eq => Some (inr cursor)
    end
  end.

Definition insert (p : t) (k : K) (v : V) : option (t * option V) :=
  d ← insert_descend (fuel p) p k 0 (root p);
  match d with
  | inr cursor =>
    n ← node p cursor;
    p ← node_mut p cursor (set_value v);
    Some (p, Some (value n))
  | inl par =>
    '(p, i) ← Pool.insert p (mk_node Red par 0 0 k v);
    p ← (if par =? 0 then Some (set_root p i) else
         np ← node p par;
         match cmp k (key np) with
         | Lt => node_mut p par (set_child SL i)
         | _ => node_mut p par (set_child SR i)
         end);
    p ← insert_fixup p i;
    Some (p, None)
  end.

(** ** Removal *)

Definition transplant (p : t) (u v : Z) : option t :=
  nu ← node p u;
  let par := parent nu in
  p ← (if par =? 0 then Some (set_root p v) else
       np ← node p par;
       if left np =? u then node_mut p par (set_child SL v) else node_mut p par (set_child SR v));
  node_mut p v (set_parent par).

(** One round of [delete_fixup] for [x] the [s] child of its parent. *)
Definition delete_fixup_side (s : side) (p : t) (par : Z) : option (t * Z) :=
  npar ← node p par;
  let sib := child (opp s) npar in
  cs ← color_of p sib;
  '(p, sib) ← (if is_red cs then
      p ← node_mut p sib (set_color Black);
      p ← node_mut p par (set_color Red);
      p ← rotate s p par;
      npar ← node p par;
      Some (p, child (opp s) npar)
    else Some (p, sib));
  nsib ← node p sib;
  let near := child s nsib in
  let far := child (opp s) nsib in
  cn ← color_of p near;
  cf ← color_of p far;
  if negb (is_red cn) && negb (is_red cf) then
    p ← (if sib =? 0 then Some p else node_mut p sib (set_color Red));
    Some (p, par)
  else
    '(p, sib) ← (if negb (is_red cf) then
        p ← node_mut p near (set_color Black);
        p ← node_mut p sib (set_color Red);
        p ← rotate (opp s) p sib;
        npar ← node p par;
        Some (p, child (opp s) npar)
      else Some (p, sib));
    npar ← node p par;
    p ← node_mut p sib (set_color (color npar));
    p ← node_mut p par (set_color Black);
    nsib ← node p sib;
    p ← node_mut p (child (opp s) nsib) (set_color Black);
    p ← rotate s p par;
    Some (p, root p).

Fixpoint delete_fixup_loop (n : nat) (p : t) (x : Z) : option (t * Z) :=
  match n with
  | O => None
  | S n' =>
    if x =? root p then Some (p, x) else
    cx ← color_of p x;
    if is_red cx then Some (p, x) else
    nx ← node p x;
    let par := parent nx in
    npar ← node p par;
    '(p, x) ← delete_fixup_side (if left npar =? x then SL else SR) p par;
    delete_fixup_loop n' p x
  end.

Definition delete_fixup (p : t) (x : Z) : option t :=
  '(p, x) ← delete_fixup_loop (fuel p) p x;
  node_mut p x (set_color Black).

(** Unlinks the node [z]: the new tree, the child that moved up and the colour
    the tree lost. *)
Definition unlink (p : t) (z : Z) : option (t * Z * Color) :=
  nz ← node p z;
  if left nz =? 0 then
    p ← transplant p z (right nz); Some (p, right nz, color nz)
  else if right nz =? 0 then
    p ← transplant p z (left nz); Some (p, left nz, color nz)
  else
    y ← minimum_index p (right nz);
    ny ← node p y;
    let x := right ny in
    p ← (if parent ny =? z then node_mut p x (set_parent y)
         else
           p ← transplant p y (right ny);
           nz ← node p z;
           p ← node_mut p y (set_child SR (right nz));
           node_mut p (right nz) (set_parent y));
    p ← transplant p z y;
    nz ← node p z;
    p ← node_mut p y (set_child SL (left nz));
    p ← node_mut p (left nz) (set_parent y);
    nz ← node p z;
    p ← node_mut p y (set_color (color nz));
    Some (p, x, color ny).

Definition remove (p : t) (k : K) : option (t * option V) :=
  i ← find_node p k;
  match i with
  | None => Some (p, None)
  | Some z =>
    '(p, x, lost) ← unlink p z;
    p ← (if is_red lost then Some p else delete_fixup p x);
    '(p, removed) ← Pool.remove p z;
    Some (p, option_map value removed)
  end.

(** ** Iteration *)

(** Pushes [cursor] and its left descendants; the top of the stack is its
    head. *)
Fixpoint push_left (n : nat) (p : t) (stack : list Z) (cursor : Z) : option (list Z) :=
  match n with
  | O => None
  | S n' =>
    if cursor =? 0 then Some stack else
    x ← node p cursor;
    push_left n' p (cursor :: stack) (left x)
  end.

Definition iter (p : t) : option (list Z) := push_left (fuel p) p [] (root p).

Definition iter_next (p : t) (stack : list Z) : option (option ((K * V) * list Z)) :=
  match stack with
  | [] => Some None
  | i :: stack =>
    x ← node p i;
    stack ← push_left (fuel p) p stack (right x);
    Some (Some ((key x, value x), stack))
  end.

Fixpoint iter_collect (n : nat) (p : t) (stack : list Z) : option (list (K * V)) :=
  match n with
  | O => None
  | S n' =>
    r ← iter_next p stack;
    match r with
    | None => Some []
    | Some (e, stack) => rest ← iter_collect n' p stack; Some (e :: rest)
    end
  end.

(** The entries the iterator yields. *)
Definition entries (p : t) : option (list (K * V)) :=
  stack ← iter p; iter_collect (fuel p) p stack.

End Tree.

End RbTree.
