(* ===== verification/InfraRbHeap.v ===== *)
(** * Red-black trees in the node pool

    A [tree] is a binary tree whose nodes carry their pool index.  [tree_in p t
    q g] says that the pool [p] of [InfraRbTree] holds exactly the nodes of
    [t], linked as [t] says, the sentinel with parent field [q], and the
    detached nodes [g].  A context [ctx] is the path from a subtree up to the
    root ([plug]); the steps of the source (rotation, recolouring, linking,
    transplanting) are described by what they do to the tree, in any context.
    Colours and keys play no role here. *)

From S2P Require Import Prelude InfraBitmap InfraPool InfraRbTree.

Module RbHeap.
Import RbTree.

Section Heap.
Context {K V : Type}.

(** ** The pool as a map *)

Definition slots (p : t) : Z := vlen (Pool.vector (p : Pool.t (Node K V))).

Record heap (p : @t K V) (m : gmap Z (Node K V)) (r : Z) : Prop := mk_heap {
  heap_repr : Pool.represents p m;
  heap_root : Pool.opaque p = r;
  heap_grows : Pool.max_elts p = None
}.

Lemma heap_index p m r i n : heap p m r -> m !! i = Some n -> 0 <= i.
Proof.
  intros [[_ Hm] _ _] Hi. rewrite Hm in Hi. apply Pool.pool_slot_Some in Hi. tauto || lia.
Qed.

Lemma heap_node p m r i n : heap p m r -> m !! i = Some n -> node p i = Some n.
Proof.
  intros Hh Hi. pose proof (heap_index _ _ _ _ _ Hh Hi). destruct Hh as [[Hwf Hm] _ _].
  unfold node. rewrite Pool.pool_get_slot, <- Hm, Hi by done. done.
Qed.

Lemma alter_as_insert (m : gmap Z (Node K V)) i n f : m !! i = Some n -> alter f i m = <[i := f n]> m.
Proof.
  intros Hi. apply map_eq. intros j. rewrite lookup_alter, lookup_insert.
  case_decide; [|done]. subst. by rewrite Hi.
Qed.

Lemma heap_node_mut p m r i n f :
  heap p m r -> m !! i = Some n ->
  exists p', node_mut p i f = Some p' /\ heap p' (<[i := f n]> m) r /\ slots p' = slots p.
Proof.
  intros Hh Hi. pose proof (heap_index _ _ _ _ _ Hh Hi) as H0. destruct Hh as [Hr Ho Hg].
  destruct (Pool.pool_get_mut_repr p m i f Hr H0) as (p' & E & Hr').
  destruct (Pool.get_mut_frame p p' i f _ E) as (E1 & E2 & E3). exists p'. unfold node_mut. rewrite E.
  cbn [mbind option_bind]. rewrite bool_decide_true by eauto. split_and!; [done| |done].
  constructor; [|congruence..]. by rewrite <- (alter_as_insert m i n f Hi).
Qed.

Lemma heap_set_root p m r i : heap p m r -> heap (set_root p i) m i /\ slots (set_root p i) = slots p.
Proof.
  intros [[[] Hm] Ho Hg]. split; [|done]. constructor; [|done|done]. split; [|exact Hm]. by constructor.
Qed.

(** ** Trees and contexts *)

Inductive tree : Type :=
  | Leaf
  | T (c : Color) (l : tree) (i : Z) (k : K) (v : V) (r : tree).

Definition idx (a : tree) : Z := match a with Leaf => 0 | T _ _ i _ _ _ => i end.
Definition tcolor (a : tree) : Color := match a with Leaf => Black | T c _ _ _ _ _ => c end.

Fixpoint indices (a : tree) : list Z :=
  match a with Leaf => [] | T _ l i _ _ r => i :: indices l ++ indices r end.

Fixpoint inorder (a : tree) : list (K * V) :=
  match a with Leaf => [] | T _ l _ k v r => inorder l ++ (k, v) :: inorder r end.

(** A node with its child on side [s] first. *)
Definition join (s : side) (c : Color) (near : tree) (i : Z) (k : K) (v : V) (far : tree) : tree :=
  match s with SL => T c near i k v far | SR => T c far i k v near end.
Definition dir_node (s : side) (c : Color) (par near far : Z) (k : K) (v : V) : Node K V :=
  match s with SL => mk_node c par near far k v | SR => mk_node c par far near k v end.

Inductive frame : Type := F (s : side) (c : Color) (i : Z) (k : K) (v : V) (sib : tree).
Definition ctx : Type := list frame.

Fixpoint plug (C : ctx) (a : tree) : tree :=
  match C with [] => a | F s c i k v sib :: C' => plug C' (join s c a i k v sib) end.

Definition cpar (C : ctx) : Z := match C with [] => 0 | F _ _ i _ _ _ :: _ => i end.
Fixpoint cidx (C : ctx) : list Z :=
  match C with [] => [] | F _ _ i _ _ sib :: C' => i :: indices sib ++ cidx C' end.

Lemma plug_app C D a : plug (D ++ C) a = plug C (plug D a).
Proof. revert a. induction D as [|[]]; intros a; cbn; auto. Qed.

Lemma idx_join s c a i k v b : idx (join s c a i k v b) = i.
Proof. by destruct s. Qed.

Lemma indices_join s c a i k v b : indices (join s c a i k v b) ≡ₚ i :: indices a ++ indices b.
Proof. destruct s; cbn [join indices]; [done|]. by rewrite (Permutation_app_comm (indices b)). Qed.

Lemma indices_plug C a : indices (plug C a) ≡ₚ indices a ++ cidx C.
Proof.
  revert a. induction C as [|[s c i k v sib] C IH]; intros a; cbn [plug cidx]; [by rewrite app_nil_r|].
  rewrite IH, indices_join. cbn [app]. rewrite <- app_assoc. apply Permutation_middle.
Qed.

(** ** Trees in a map *)

Fixpoint is_tree (m : gmap Z (Node K V)) (par : Z) (a : tree) : Prop :=
  match a with
  | Leaf => True
  | T c l i k v r =>
    i <> 0 /\ m !! i = Some (mk_node c par (idx l) (idx r) k v) /\ is_tree m i l /\ is_tree m i r
  end.

(** The nodes of the context, the subtree in the hole having root [h]. *)
Fixpoint is_ctx (m : gmap Z (Node K V)) (C : ctx) (h : Z) : Prop :=
  match C with
  | [] => True
  | F s c i k v sib :: C' =>
    i <> 0 /\ m !! i = Some (dir_node s c (cpar C') h (idx sib) k v) /\ is_tree m i sib /\ is_ctx m C' i
  end.

Lemma is_tree_join m par s c a i k v b :
  is_tree m par (join s c a i k v b) <->
  i <> 0 /\ m !! i = Some (dir_node s c par (idx a) (idx b) k v) /\ is_tree m i a /\ is_tree m i b.
Proof. destruct s; cbn; tauto. Qed.

Lemma is_tree_plug m C a : is_tree m 0 (plug C a) <-> is_ctx m C (idx a) /\ is_tree m (cpar C) a.
Proof.
  revert a. induction C as [|[s c i k v sib] C IH]; intros a; cbn [plug is_ctx cpar]; [tauto|].
  rewrite IH, is_tree_join, idx_join. tauto.
Qed.

Lemma is_tree_agree m m' par a :
  (forall i, i ∈ indices a -> m' !! i = m !! i) -> is_tree m par a -> is_tree m' par a.
Proof.
  revert par. induction a as [|c l IHl i k v r IHr]; intros par Hm; cbn; [done|].
  intros (H0 & Hi & Hl & Hr). split; [done|]. split.
  - rewrite Hm by (cbn; set_solver). done.
  - split; [apply IHl; [|done]|apply IHr; [|done]]; intros j Hj; apply Hm; cbn; set_solver.
Qed.

Lemma is_ctx_agree m m' C h :
  (forall i, i ∈ cidx C -> m' !! i = m !! i) -> is_ctx m C h -> is_ctx m' C h.
Proof.
  revert h. induction C as [|[s c i k v sib] C IH]; intros h Hm; cbn; [done|].
  intros (H0 & Hi & Hs & Hc). split; [done|]. split; [rewrite Hm by (cbn; set_solver); done|].
  split; [eapply is_tree_agree; [|done]|apply IH; [|done]]; intros j Hj; apply Hm; cbn; set_solver.
Qed.

Lemma is_tree_insert_ne m par a j n : j ∉ indices a -> is_tree m par a -> is_tree (<[j := n]> m) par a.
Proof. intros Hj. apply is_tree_agree. intros i Hi. apply lookup_insert_ne. by intros ->. Qed.

Lemma is_ctx_insert_ne m C h j n : j ∉ cidx C -> is_ctx m C h -> is_ctx (<[j := n]> m) C h.
Proof. intros Hj. apply is_ctx_agree. intros i Hi. apply lookup_insert_ne. by intros ->. Qed.

Lemma is_tree_nonzero m par a i : is_tree m par a -> i ∈ indices a -> i <> 0.
Proof.
  revert par. induction a as [|c l IHl j k v r IHr]; intros par; cbn; [set_solver|].
  intros (H0 & _ & Hl & Hr) [->|[H|H]%elem_of_app]%elem_of_cons; eauto.
Qed.

Lemma is_tree_dom m par a i : is_tree m par a -> i ∈ indices a -> is_Some (m !! i).
Proof.
  revert par. induction a as [|c l IHl j k v r IHr]; intros par; cbn; [set_solver|].
  intros (H0 & Hj & Hl & Hr) [->|[H|H]%elem_of_app]%elem_of_cons; eauto.
Qed.

(** Giving the root of a subtree another parent. *)
Lemma is_tree_reparent m par a q n :
  NoDup (indices a) -> m !! idx a = Some n -> is_tree m par a -> is_tree (<[idx a := set_parent q n]> m) q a.
Proof.
  destruct a as [|c l i k v r]; [done|]. cbn [idx indices is_tree]. rewrite NoDup_cons, NoDup_app.
  intros [Hi _] Hn (H0 & Hn' & Hl & Hr). rewrite Hn in Hn'. injection Hn' as ->.
  split; [done|]. split; [by rewrite lookup_insert_eq|].
  split; apply is_tree_insert_ne; done || set_solver.
Qed.

(** The child of a node on either side, after the child of side [s] changes. *)
Lemma set_child_dir s c par a b k v x : set_child s x (dir_node s c par a b k v) = dir_node s c par x b k v.
Proof. by destruct s. Qed.
Lemma set_child_opp s c par a b k v x :
  set_child (opp s) x (dir_node s c par a b k v) = dir_node s c par a x k v.
Proof. by destruct s. Qed.
Lemma set_parent_dir s c par a b k v x : set_parent x (dir_node s c par a b k v) = dir_node s c x a b k v.
Proof. by destruct s. Qed.
Lemma set_color_dir s c par a b k v x : set_color x (dir_node s c par a b k v) = dir_node s x par a b k v.
Proof. by destruct s. Qed.
Lemma child_dir s c par a b k v : child s (dir_node s c par a b k v) = a.
Proof. by destruct s. Qed.
Lemma child_opp s c par a b k v : child (opp s) (dir_node s c par a b k v) = b.
Proof. by destruct s. Qed.
Lemma parent_dir s c par a b k v : parent (dir_node s c par a b k v) = par.
Proof. by destruct s. Qed.
Lemma color_dir s c par a b k v : color (dir_node s c par a b k v) = c.
Proof. by destruct s. Qed.

(** ** Trees in the pool *)

Record layout (m : gmap Z (Node K V)) (a : tree) (nil : Node K V) (g : list (Z * Node K V)) : Prop := {
  lay_tree : is_tree m 0 a;
  lay_nodup : NoDup (0 :: g.*1 ++ indices a);
  lay_nil : m !! 0 = Some nil;
  lay_black : color nil = Black;
  lay_left : left nil = 0;
  lay_right : right nil = 0;
  lay_garbage : forall i n, (i, n) ∈ g -> m !! i = Some n;
  lay_dom : forall i, is_Some (m !! i) -> i ∈ 0 :: g.*1 ++ indices a
}.

Definition tree_in (p : @t K V) (a : tree) (q : Z) (g : list (Z * Node K V)) : Prop :=
  exists m nil, heap p m (idx a) /\ layout m a nil g /\ parent nil = q.

Lemma idx_plug C a b : C <> [] -> idx (plug C a) = idx (plug C b).
Proof.
  revert a b. induction C as [|[s c i k v sib] C IH]; intros a b; [done|]. intros _. cbn [plug].
  destruct C as [|f C]; [cbn; by rewrite !idx_join|]. by apply IH.
Qed.

Lemma idx_plug_root C a : idx (plug C a) = match C with [] => idx a | _ => idx (plug C Leaf) end.
Proof. destruct C as [|f C]; [done|]. by apply idx_plug. Qed.

Lemma cpar_0 m C h : is_ctx m C h -> cpar C = 0 -> C = [].
Proof. destruct C as [|[]]; [done|]. intros (H0 & _) H. by destruct H0. Qed.

Lemma cpar_in C : C <> [] -> cpar C ∈ cidx C.
Proof. destruct C as [|[]]; [done|]. intros _. cbn. set_solver. Qed.

Lemma idx_in a : idx a <> 0 -> idx a ∈ indices a.
Proof. destruct a; cbn; [done|]. set_solver. Qed.

(** Hanging another subtree into the hole of a context: the test on the
    parent's child that rotations and [transplant] share. *)
Definition relink (s : side) (p : @t K V) (par u v : Z) : option (@t K V) :=
  if par =? 0 then Some (set_root p v) else
  np ← node p par;
  if child s np =? u then node_mut p par (set_child s v) else node_mut p par (set_child (opp s) v).

Lemma relink_spec s p m r C u v :
  heap p m r -> is_ctx m C u -> u <> 0 -> u ∉ cidx C -> NoDup (cidx C) ->
  exists p' m', relink s p (cpar C) u v = Some p' /\
    heap p' m' (match C with [] => v | _ => r end) /\ is_ctx m' C v /\ slots p' = slots p /\
    (forall j, j ∉ cidx C -> m' !! j = m !! j) /\ (forall j, is_Some (m' !! j) -> is_Some (m !! j)).
Proof.
  intros Hh Hc Hu Hnin Hnd. unfold relink. destruct (Z.eqb_spec (cpar C) 0) as [E|E].
  { rewrite (cpar_0 m C u Hc E). destruct (heap_set_root p m r v Hh) as [Hh' Hsl].
    exists (set_root p v), m. by split_and!. }
  destruct C as [|[s' c i k x sib] C]; [done|]. cbn [cpar is_ctx cidx] in *.
  destruct Hc as (H0 & Hi & Hs & Hc). rewrite (heap_node _ _ _ _ _ Hh Hi). cbn [mbind option_bind].
  assert ((if child s (dir_node s' c (cpar C) u (idx sib) k x) =? u
     then node_mut p i (set_child s v) else node_mut p i (set_child (opp s) v)) =
    node_mut p i (set_child s' v)) as ->.
  { assert (idx sib <> u) as Hsu.
    { intros Heq. destruct (decide (idx sib = 0)) as [|Hne]; [congruence|]. apply Hnin.
      apply idx_in in Hne. rewrite Heq in Hne. set_solver. }
    destruct s, s'; cbn [child dir_node opp left right]; rewrite ?Z.eqb_refl; try done;
      by rewrite (proj2 (Z.eqb_neq _ _)) by done. }
  destruct (heap_node_mut p m r i _ (set_child s' v) Hh Hi) as (p' & -> & Hh' & Hsl).
  rewrite set_child_dir in Hh'. rewrite NoDup_cons, NoDup_app in Hnd. destruct Hnd as (Hni & _ & Hdis & _).
  eexists p', _. split; [done|]. split; [exact Hh'|]. split; [|split; [done|split]].
  - split; [done|]. rewrite lookup_insert_eq. split; [done|].
    split; [apply is_tree_insert_ne|apply is_ctx_insert_ne]; set_solver.
  - intros j Hj. apply lookup_insert_ne. set_solver.
  - intros j. destruct (decide (i = j)) as [->|]; [by rewrite Hi|]. by rewrite lookup_insert_ne.
Qed.

(** The parts of a tree in a context. *)
Lemma nodup_plug C a (g : list Z) : NoDup (0 :: g ++ indices (plug C a)) <-> NoDup (0 :: g ++ cidx C ++ indices a).
Proof.
  assert (indices (plug C a) ≡ₚ cidx C ++ indices a) as ->; [|done].
  rewrite indices_plug. apply Permutation_app_comm.
Qed.

Lemma nodup_join (g : list Z) s c a i k v b :
  NoDup (0 :: g ++ indices (join s c a i k v b)) <-> NoDup (0 :: g ++ i :: indices a ++ indices b).
Proof. by rewrite indices_join. Qed.

(** Lists that partition a duplicate-free list can be told apart by a
    function. *)
Lemma regions (segs : list (list Z)) :
  NoDup (concat segs) -> exists rg : Z -> nat, forall k s j, segs !! k = Some s -> j ∈ s -> rg j = k.
Proof.
  induction segs as [|s segs IH]; cbn [concat]; [by exists (fun _ => O)|].
  intros (_ & Hdis & Hnd)%NoDup_app. destruct (IH Hnd) as [rg Hrg].
  exists (fun j => if decide (j ∈ s) then O else S (rg j)). intros [|k] s' j Hk Hj; cbn in Hk.
  - injection Hk as ->. by rewrite decide_True.
  - rewrite decide_False; [f_equal; by eapply Hrg|]. intros Hjs. apply (Hdis j Hjs).
    apply list_elem_of_In, in_concat. exists s'. split; [|by apply list_elem_of_In].
    apply list_elem_of_In. by eapply list_elem_of_lookup_2.
Qed.

Ltac region R H :=
  first [apply (R 0%nat _ _ eq_refl) in H | apply (R 1%nat _ _ eq_refl) in H | apply (R 2%nat _ _ eq_refl) in H
        | apply (R 3%nat _ _ eq_refl) in H | apply (R 4%nat _ _ eq_refl) in H | apply (R 5%nat _ _ eq_refl) in H
        | apply (R 6%nat _ _ eq_refl) in H | apply (R 7%nat _ _ eq_refl) in H | apply (R 8%nat _ _ eq_refl) in H
        | apply (R 9%nat _ _ eq_refl) in H ].
(** Closes a goal that follows from two indices lying in different regions. *)
Ltac apart R :=
  repeat intro; subst; try contradiction;
  repeat match goal with H : _ ∈ _ |- _ => region R H end; congruence.

Lemma root_node m par a nil : m !! 0 = Some nil -> is_tree m par a -> exists n, m !! idx a = Some n.
Proof. destruct a; cbn; [eauto|]. intros _ (_ & H & _). eauto. Qed.

Definition nil_like (n n' : Node K V) : Prop := color n' = color n /\ left n' = left n /\ right n' = right n.

Lemma layout_step m m' a a' nil nil' g :
  layout m a nil g -> is_tree m' 0 a' -> indices a' ≡ₚ indices a -> m' !! 0 = Some nil' -> nil_like nil nil' ->
  (forall i, i ∈ g.*1 -> m' !! i = m !! i) -> (forall j, is_Some (m' !! j) -> is_Some (m !! j)) ->
  layout m' a' nil' g.
Proof.
  intros [] Ht Hp Hn (N1 & N2 & N3) Hg Hd. constructor; try done; try congruence.
  - by rewrite Hp.
  - intros i n Hi. rewrite Hg; [eauto|]. apply list_elem_of_fmap. by exists (i, n).
  - intros j Hj. rewrite Hp. auto.
Qed.

(** A subtree whose root got another parent, in a map that agrees elsewhere. *)
Lemma is_tree_moved m m' par q a n :
  is_tree m par a -> NoDup (indices a) -> m !! idx a = Some n -> (a <> Leaf -> m' !! idx a = Some (set_parent q n)) ->
  (forall j, j ∈ indices a -> j <> idx a -> m' !! j = m !! j) -> is_tree m' q a.
Proof.
  intros Ha Hnd Hn Hi Hm. destruct (decide (idx a = 0)) as [E|E].
  { destruct a; [done|]. by destruct Ha as [[] _]. }
  eapply is_tree_agree; [|by apply (is_tree_reparent m par a q n)].
  intros j Hj. destruct (decide (j = idx a)) as [->|Hne].
  - rewrite lookup_insert_eq. apply Hi. by intros ->.
  - rewrite lookup_insert_ne by done. by apply Hm.
Qed.

(** A rotation at [x] towards side [s]. *)
Lemma rotate_spec s C cx a x kx vx cy b y ky vy d p q g :
  tree_in p (plug C (join s cx a x kx vx (join s cy b y ky vy d))) q g ->
  exists p', rotate s p x = Some p' /\ slots p' = slots p /\
    tree_in p' (plug C (join s cy (join s cx a x kx vx b) y ky vy d)) (if idx b =? 0 then x else q) g.
Proof.
  intros (m & nil & Hh & L & Hq). pose proof (lay_nodup _ _ _ _ L) as ND.
  rewrite nodup_plug, indices_join, indices_join in ND.
  assert (exists rg : Z -> nat, forall k s' j,
    [[0]; g.*1; cidx C; [x]; indices a; [y]; indices b; indices d] !! k = Some s' -> j ∈ s' -> rg j = k) as [rg R].
  { apply regions. cbn [concat app]. by rewrite app_nil_r. }
  pose proof (R 0%nat _ 0 eq_refl (list_elem_of_here _ _)) as R0.
  pose proof (R 3%nat _ x eq_refl (list_elem_of_here _ _)) as Rx.
  pose proof (R 5%nat _ y eq_refl (list_elem_of_here _ _)) as Ry.
  pose proof (lay_tree _ _ _ _ L) as HT. rewrite is_tree_plug, is_tree_join, is_tree_join, !idx_join in HT.
  destruct HT as (Hc & Hx0 & Hx & Ha & Hy0 & Hy & Hb & Hd).
  destruct (root_node m y b nil (lay_nil _ _ _ _ L) Hb) as [nb Hnb].
  assert (rg (idx b) = 0%nat \/ rg (idx b) = 6%nat) as Rb.
  { destruct (decide (idx b = 0)) as [->|Hne%idx_in]; [by left|]. right. by region R Hne. }
  unfold rotate. rewrite (heap_node _ _ _ _ _ Hh Hx). cbn [mbind option_bind].
  rewrite child_opp, (heap_node _ _ _ _ _ Hh Hy). cbn [mbind option_bind]. rewrite child_dir.
  destruct (heap_node_mut p m _ x _ (set_child (opp s) (idx b)) Hh Hx) as (p1 & -> & H1 & S1).
  cbn [mbind option_bind]. rewrite set_child_opp in H1.
  destruct (heap_node_mut p1 _ _ (idx b) nb (set_parent x) H1) as (p2 & -> & H2 & S2).
  { rewrite lookup_insert_ne; [done|]. intros E. destruct Rb; congruence. }
  cbn [mbind option_bind].
  erewrite (heap_node p2 _ _ x); [|exact H2|].
  2: { rewrite lookup_insert_ne, lookup_insert_eq; [done|]. intros E. destruct Rb; congruence. }
  cbn [mbind option_bind]. rewrite parent_dir.
  destruct (heap_node_mut p2 _ _ y (dir_node s cy x (idx b) (idx d) ky vy) (set_parent (cpar C)) H2)
    as (p3 & -> & H3 & S3).
  { rewrite !lookup_insert_ne; [exact Hy| |]; intros E; [congruence|destruct Rb; congruence]. }
  cbn [mbind option_bind]. rewrite set_parent_dir in H3.
  fold (relink s p3 (cpar C) x y).
  destruct (relink_spec s p3 _ _ C x y H3) as (p4 & m4 & -> & H4 & Hc4 & S4 & Hfr4 & Hdom4).
  { repeat apply is_ctx_insert_ne; [apart R|..|apart R|done]. intros E. region R E. destruct Rb; congruence. }
  { done. } { apart R. }
  { apply NoDup_cons in ND as [_ ND]. by apply NoDup_app in ND as (_ & _ & (? & _)%NoDup_app). }
  cbn [mbind option_bind].
  assert ((x ∉ cidx C) /\ (y ∉ cidx C) /\ (idx b ∉ cidx C) /\ (0 ∉ cidx C)) as (Cx & Cy & Cb & C0).
  { split_and!; [apart R..| |apart R]. intros E. region R E. destruct Rb; congruence. }
  assert (idx b <> x /\ idx b <> y /\ x <> y) as (Bx & By & Bxy).
  { split_and!; [intros E; destruct Rb; congruence..|congruence]. }
  destruct (heap_node_mut p4 _ _ y (dir_node s cy (cpar C) (idx b) (idx d) ky vy) (set_child s x) H4)
    as (p5 & -> & H5 & S5); [by rewrite Hfr4, lookup_insert_eq|].
  cbn [mbind option_bind]. rewrite set_child_dir in H5.
  destruct (heap_node_mut p5 _ _ x (dir_node s cx (cpar C) (idx a) (idx b) kx vx) (set_parent y) H5)
    as (p6 & E6 & H6 & S6).
  { by rewrite lookup_insert_ne, Hfr4, !lookup_insert_ne, lookup_insert_eq by done. }
  rewrite set_parent_dir in H6. exists p6. split; [done|]. split; [congruence|].
  set (m6 := <[x := _]> (<[y := _]> m4)) in H6.
  assert (forall j, j ∉ cidx C -> j <> x -> j <> y -> j <> idx b -> m6 !! j = m !! j) as Fr.
  { intros j ? ? ? ?. subst m6. by rewrite !lookup_insert_ne, Hfr4, !lookup_insert_ne by done. }
  assert (m6 !! idx b = Some (set_parent x nb)) as Hb6.
  { subst m6. by rewrite !lookup_insert_ne, Hfr4, lookup_insert_ne, lookup_insert_eq by done. }
  exists m6, (if idx b =? 0 then set_parent x nil else nil). split; [|split].
  - replace (idx (plug C _)) with (match C with [] => y | _ :: _ =>
      idx (plug C (join s cx a x kx vx (join s cy b y ky vy d))) end); [done|].
    destruct C; [symmetry; apply idx_join|]. by apply idx_plug.
  - eapply layout_step; [exact L|..].
    + rewrite is_tree_plug, is_tree_join, is_tree_join, !idx_join. split_and!; try done.
      * subst m6. by repeat apply is_ctx_insert_ne.
      * subst m6. by rewrite lookup_insert_ne, lookup_insert_eq.
      * subst m6. by rewrite lookup_insert_eq.
      * eapply is_tree_agree; [|exact Ha]. intros j Hj. apply Fr; apart R || idtac.
        region R Hj. intros ->. destruct Rb; congruence.
      * apply (is_tree_moved m m6 y x b nb); [done|..|done|done|].
        { apply NoDup_cons in ND as [_ ND]. apply NoDup_app in ND as (_ & _ & (_ & _ & ND)%NoDup_app).
          apply NoDup_cons in ND as [_ (_ & _ & ND)%NoDup_app].
          by apply NoDup_cons in ND as [_ (? & _)%NoDup_app]. }
        intros j Hj Hne. apply Fr; apart R || done.
      * eapply is_tree_agree; [|exact Hd]. intros j Hj. apply Fr; apart R || idtac.
        region R Hj. intros ->. destruct Rb; congruence.
    + rewrite !indices_plug, !indices_join. solve_Permutation.
    + destruct (Z.eqb_spec (idx b) 0) as [E|E].
      * rewrite <- E, Hb6. rewrite E, (lay_nil _ _ _ _ L) in Hnb. congruence.
      * rewrite Fr by congruence. apply (lay_nil _ _ _ _ L).
    + destruct (idx b =? 0); done.
    + intros j Hj. apply Fr; apart R || idtac. region R Hj. intros ->. destruct Rb; congruence.
    + intros j Hj. destruct (decide (j = x)) as [->|]; [by rewrite Hx|].
      destruct (decide (j = y)) as [->|]; [by rewrite Hy|]. subst m6. rewrite !lookup_insert_ne in Hj by done.
      apply Hdom4 in Hj. rewrite lookup_insert_ne in Hj by done.
      destruct (decide (j = idx b)) as [->|]; [by rewrite Hnb|]. by rewrite !lookup_insert_ne in Hj by done.
  - destruct (idx b =? 0); done.
Qed.

(** ** Reading and recolouring *)

Lemma tree_in_node p C s c a i k v b q g :
  tree_in p (plug C (join s c a i k v b)) q g ->
  node p i = Some (dir_node s c (cpar C) (idx a) (idx b) k v) /\ i <> 0.
Proof.
  intros (m & nil & Hh & L & _). pose proof (lay_tree _ _ _ _ L) as HT.
  rewrite is_tree_plug, is_tree_join in HT. destruct HT as (_ & H0 & Hi & _).
  split; [by apply (heap_node _ _ _ _ _ Hh)|done].
Qed.

Lemma tree_in_nil p a q g :
  tree_in p a q g -> exists n, node p 0 = Some n /\ color n = Black /\ parent n = q /\ left n = 0 /\ right n = 0.
Proof.
  intros (m & nil & Hh & L & Hq). exists nil. destruct L. split_and!; try done. by apply (heap_node _ _ _ _ _ Hh).
Qed.

Lemma tree_in_root p a q g : tree_in p a q g -> root p = idx a.
Proof. intros (m & nil & [_ Ho _] & _). done. Qed.

Lemma join_eta a : a <> Leaf -> exists c l k v r, a = T c l (idx a) k v r.
Proof. destruct a; [done|]. intros _. cbn. eauto 10. Qed.

Lemma tree_in_color p C a q g : tree_in p (plug C a) q g -> color_of p (idx a) = Some (tcolor a).
Proof.
  intros H. unfold color_of. destruct a as [|c l i k v r]; cbn [idx tcolor].
  - destruct (tree_in_nil _ _ _ _ H) as (n & -> & Hc & _). cbn. by rewrite Hc.
  - by destruct (tree_in_node p C SL c l i k v r q g H) as [-> _].
Qed.

(** Updating a node without moving it. *)
Lemma tree_in_touch p C s c a i k v b q g f c' v' :
  (forall par x y, f (dir_node s c par x y k v) = dir_node s c' par x y k v') ->
  tree_in p (plug C (join s c a i k v b)) q g ->
  exists p', node_mut p i f = Some p' /\ slots p' = slots p /\ tree_in p' (plug C (join s c' a i k v' b)) q g.
Proof.
  intros Hf (m & nil & Hh & L & Hq). pose proof (lay_nodup _ _ _ _ L) as ND.
  rewrite nodup_plug, indices_join in ND.
  assert (exists rg : Z -> nat, forall x s' j,
    [[0]; g.*1; cidx C; [i]; indices a; indices b] !! x = Some s' -> j ∈ s' -> rg j = x) as [rg R].
  { apply regions. cbn [concat app]. by rewrite app_nil_r. }
  pose proof (R 0%nat _ 0 eq_refl (list_elem_of_here _ _)) as R0.
  pose proof (R 3%nat _ i eq_refl (list_elem_of_here _ _)) as Ri.
  pose proof (lay_tree _ _ _ _ L) as HT. rewrite is_tree_plug, is_tree_join, !idx_join in HT.
  destruct HT as (Hc & H0 & Hi & Ha & Hb).
  destruct (heap_node_mut p m _ i _ f Hh Hi) as (p' & -> & Hh' & Hs). rewrite Hf in Hh'.
  exists p'. split; [done|]. split; [done|]. eexists _, nil. split; [|split; [|done]].
  - replace (idx (plug C (join s c' a i k v' b))) with (idx (plug C (join s c a i k v b))); [exact Hh'|].
    destruct C; [cbn; by rewrite !idx_join|]. by apply idx_plug.
  - eapply layout_step; [exact L|..].
    + rewrite is_tree_plug, is_tree_join, !idx_join. split_and!; [|done|by rewrite lookup_insert_eq|..].
      * apply is_ctx_insert_ne; [apart R|done].
      * apply is_tree_insert_ne; [apart R|done].
      * apply is_tree_insert_ne; [apart R|done].
    + by rewrite !indices_plug, !indices_join.
    + rewrite lookup_insert_ne by congruence. apply (lay_nil _ _ _ _ L).
    + done.
    + intros j Hj. apply lookup_insert_ne. apart R.
    + intros j. rewrite lookup_insert. case_decide; [subst; by rewrite Hi|done].
Qed.

Lemma tree_in_recolor p C s c c' a i k v b q g :
  tree_in p (plug C (join s c a i k v b)) q g ->
  exists p', node_mut p i (set_color c') = Some p' /\ slots p' = slots p /\
    tree_in p' (plug C (join s c' a i k v b)) q g.
Proof. apply tree_in_touch. intros. apply set_color_dir. Qed.

Lemma tree_in_blacken_nil p a q g :
  tree_in p a q g ->
  exists p', node_mut p 0 (set_color Black) = Some p' /\ slots p' = slots p /\ tree_in p' a q g.
Proof.
  intros (m & nil & Hh & L & Hq).
  destruct (heap_node_mut p m _ 0 nil (set_color Black) Hh (lay_nil _ _ _ _ L)) as (p' & -> & Hh' & Hs).
  exists p'. split; [done|]. split; [done|]. assert (set_color Black nil = nil) as E.
  { destruct L as [_ _ _ Hb _ _ _ _], nil; cbn in *. by rewrite Hb. }
  rewrite E, insert_id in Hh' by apply (lay_nil _ _ _ _ L). by exists m, nil.
Qed.

Definition blacken (a : tree) : tree := match a with Leaf => Leaf | T _ l i k v r => T Black l i k v r end.

Lemma tree_in_blacken p C a q g :
  tree_in p (plug C a) q g ->
  exists p', node_mut p (idx a) (set_color Black) = Some p' /\ slots p' = slots p /\
    tree_in p' (plug C (blacken a)) q g.
Proof.
  destruct a as [|c l i k v r]; [apply tree_in_blacken_nil|].
  apply (tree_in_recolor p C SL c Black l i k v r q g).
Qed.

(** ** Linking a new node *)

Lemma tree_in_size p a q g : tree_in p a q g -> Pool.len p = 1 + vlen g + vlen (indices a).
Proof.
  intros (m & nil & [Hr _ _] & L & _). rewrite (Pool.pool_len_size p m Hr).
  assert (dom m = list_to_set (0 :: g.*1 ++ indices a)) as Hd.
  { apply set_eq. intros j. rewrite elem_of_dom, elem_of_list_to_set. split; [apply (lay_dom _ _ _ _ L)|].
    destruct L. intros [->|[Hj|Hj]%elem_of_app]%elem_of_cons; [eauto|..|by eapply is_tree_dom].
    apply list_elem_of_fmap in Hj as ([i n] & -> & Hin). eauto. }
  rewrite <- size_dom, Hd, size_list_to_set by apply (lay_nodup _ _ _ _ L).
  unfold vlen. cbn [length]. rewrite length_app, length_fmap. lia.
Qed.


(** A node fresh from the pool is detached. *)
Lemma tree_in_alloc p a q g n :
  tree_in p a q g -> Pool.len p < 2 ^ 32 ->
  exists p' i, Pool.insert p n = Some (p', i) /\ i <> 0 /\ slots p' <= Z.max (slots p) (Pool.len p + 1) /\
    tree_in p' a q ((i, n) :: g).
Proof.
  intros (m & nil & Hh & L & Hq) Hlen. pose proof Hh as [Hr Ho Hg].
  destruct (Pool.pool_insert_repr p m n Hr) as (p' & i & E & Hi & Hb & Hr').
  { unfold Pool.can_insert. destruct (Pool.free_indices p) eqn:Ef; [right|by left]. split; [done|].
    unfold Pool.len in Hlen. rewrite Ef in Hlen. unfold saturating_sub in Hlen.
    change (vlen (@Datatypes.nil Z)) with 0 in Hlen. pose proof (vlen_nonneg (Pool.vector p)). lia. }
  destruct (Pool.insert_frame p p' n i E) as (F1 & F2 & F3 & _).
  assert (i <> 0) as Hi0 by (intros ->; rewrite (lay_nil _ _ _ _ L) in Hi; done).
  exists p', i. split; [done|]. split; [done|]. split; [done|]. exists (<[i := n]> m), nil.
  assert (i ∉ 0 :: g.*1 ++ indices a) as Hnin.
  { intros Hin. assert (is_Some (m !! i)) as [? ?]; [|congruence]. destruct L.
    apply elem_of_cons in Hin as [->|[Hin|Hin]%elem_of_app]; [done|..|by eapply is_tree_dom].
    apply list_elem_of_fmap in Hin as ([j x] & -> & Hin). eauto. }
  split; [constructor; [done|congruence..]|]. split; [|done].
  rewrite not_elem_of_cons in Hnin. destruct Hnin as [_ Hnin].
  rewrite elem_of_app in Hnin. destruct L. constructor; try done.
  - apply is_tree_insert_ne; tauto.
  - cbn [fmap list_fmap fst app]. apply NoDup_cons in lay_nodup0 as [N0 N1].
    apply NoDup_cons. rewrite not_elem_of_cons. split; [by split|].
    apply NoDup_cons. by rewrite elem_of_app.
  - by rewrite lookup_insert_ne.
  - intros j x [[= -> ->]|Hj]%elem_of_cons; [apply lookup_insert_eq|].
    rewrite lookup_insert_ne; [eauto|]. intros ->. apply Hnin. left. apply list_elem_of_fmap. by exists (j, x).
  - intros j. destruct (decide (i = j)) as [->|Hne]; [intros _; cbn; rewrite !elem_of_cons; auto|].
    rewrite lookup_insert_ne by done. intros Hj%lay_dom0. cbn. rewrite !elem_of_cons in *. tauto.
Qed.

(** Hanging a detached node without children into an empty place. *)
Definition hang (s : side) (p : @t K V) (par i : Z) : option (@t K V) :=
  if par =? 0 then Some (set_root p i) else node_mut p par (set_child s i).

Definition hole_side (C : ctx) : side := match C with [] => SL | F s _ _ _ _ _ :: _ => s end.

Lemma tree_in_hang p C i c k v q g :
  tree_in p (plug C Leaf) q ((i, mk_node c (cpar C) 0 0 k v) :: g) ->
  exists p', hang (hole_side C) p (cpar C) i = Some p' /\ slots p' = slots p /\
    tree_in p' (plug C (T c Leaf i k v Leaf)) q g.
Proof.
  intros (m & nil & Hh & L & Hq). pose proof (lay_nodup _ _ _ _ L) as ND. rewrite nodup_plug in ND.
  assert (exists rg : Z -> nat, forall x s' j,
    [[0]; [i]; g.*1; cidx C] !! x = Some s' -> j ∈ s' -> rg j = x) as [rg R].
  { apply regions. cbn [concat app]. rewrite app_nil_r. cbn in ND. by rewrite app_nil_r in ND. }
  pose proof (R 0%nat _ 0 eq_refl (list_elem_of_here _ _)) as R0.
  pose proof (R 1%nat _ i eq_refl (list_elem_of_here _ _)) as Ri.
  pose proof (lay_tree _ _ _ _ L) as HT. rewrite is_tree_plug in HT. destruct HT as (Hc & _).
  pose proof (lay_garbage _ _ _ _ L i _ (list_elem_of_here _ _)) as Hi.
  assert (exists p' m', hang (hole_side C) p (cpar C) i = Some p' /\ slots p' = slots p /\
    heap p' m' (idx (plug C (T c Leaf i k v Leaf))) /\ is_ctx m' C i /\
    (forall j, j ∉ cidx C -> m' !! j = m !! j) /\ (forall j, is_Some (m' !! j) -> is_Some (m !! j)))
    as (p' & m' & E & Hs & Hh' & Hc' & Hfr & Hdom).
  { unfold hang. destruct C as [|[s cj j kj vj sib] C]; cbn [cpar hole_side] in *.
    { destruct (heap_set_root p m _ i Hh) as [H1 H2]. exists (set_root p i), m. by split_and!. }
    cbn [is_ctx] in Hc. destruct Hc as (Hj0 & Hj & Hsib & Hc). rewrite (proj2 (Z.eqb_neq _ _)) by done.
    destruct (heap_node_mut p m _ j _ (set_child s i) Hh Hj) as (p' & -> & Hh' & Hs).
    rewrite set_child_dir in Hh'. cbn [cidx app] in *.
    assert (NoDup (j :: indices sib ++ cidx C)) as [Nj Nr]%NoDup_cons.
    { apply NoDup_cons in ND as [_ ND]. apply NoDup_app in ND as (_ & _ & ND). by rewrite app_nil_r in ND. }
    rewrite elem_of_app in Nj. eexists p', _. split; [done|]. split; [done|]. split; [|split; [|split]].
    - erewrite (idx_plug _ _ Leaf) by done. exact Hh'.
    - split; [done|]. split; [by rewrite lookup_insert_eq|].
      split; [apply is_tree_insert_ne|apply is_ctx_insert_ne]; tauto.
    - intros x Hx. apply lookup_insert_ne. intros ->. apply Hx. by left.
    - intros x. rewrite lookup_insert. case_decide; [subst; by rewrite Hj|done]. }
  exists p'. split; [done|]. split; [done|]. exists m', nil. split; [done|]. split; [|done].
  assert (forall x, x ∉ cidx C -> m' !! x = m !! x) as Hfr' by done.
  destruct L. constructor; try done.
  - rewrite is_tree_plug. split; [done|]. cbn. split_and!; try done; [congruence|]. by rewrite Hfr by apart R.
  - rewrite nodup_plug. cbn [indices app fmap list_fmap fst] in *.
    assert (0 :: g.*1 ++ cidx C ++ [i] ≡ₚ 0 :: i :: g.*1 ++ cidx C ++ []) as -> by solve_Permutation. done.
  - by rewrite Hfr by apart R.
  - intros j x Hj. rewrite Hfr; [apply lay_garbage0; by right|].
    assert (j ∈ g.*1) as Hin by (apply list_elem_of_fmap; by exists (j, x)). apart R.
  - intros j Hj%Hdom%lay_dom0. rewrite indices_plug in *. cbn [indices app fmap list_fmap fst] in *.
    rewrite !elem_of_cons, !elem_of_app, ?elem_of_cons in *. tauto.
Qed.


(** ** Unlinking *)

Lemma transplant_relink p u v :
  transplant p u v = (nu ← node p u; p ← relink SL p (parent nu) u v; node_mut p v (set_parent (parent nu))).
Proof. done. Qed.

(** A node with at most one subtree [x] gives its place to [x]. *)
Lemma tree_in_transplant p C s c x z k v q g :
  tree_in p (plug C (join s c x z k v Leaf)) q g ->
  exists p', transplant p z (idx x) = Some p' /\ slots p' = slots p /\
    tree_in p' (plug C x) (if idx x =? 0 then cpar C else q) ((z, dir_node s c (cpar C) (idx x) 0 k v) :: g).
Proof.
  intros (m & nil & Hh & L & Hq). pose proof (lay_nodup _ _ _ _ L) as ND.
  rewrite nodup_plug, indices_join in ND.
  assert (exists rg : Z -> nat, forall i s' j,
    [[0]; g.*1; cidx C; [z]; indices x] !! i = Some s' -> j ∈ s' -> rg j = i) as [rg R].
  { apply regions. cbn [concat app indices] in *. exact ND. }
  pose proof (R 0%nat _ 0 eq_refl (list_elem_of_here _ _)) as R0.
  pose proof (R 3%nat _ z eq_refl (list_elem_of_here _ _)) as Rz.
  pose proof (lay_tree _ _ _ _ L) as HT. rewrite is_tree_plug, is_tree_join, !idx_join in HT.
  destruct HT as (Hc & Hz0 & Hz & Hx & _).
  destruct (root_node m z x nil (lay_nil _ _ _ _ L) Hx) as [nx Hnx].
  assert (rg (idx x) = 0%nat \/ rg (idx x) = 4%nat) as Rx.
  { destruct (decide (idx x = 0)) as [->|Hne%idx_in]; [by left|]. right. by region R Hne. }
  assert (NoDup (cidx C) /\ NoDup (indices x)) as [NDC NDx].
  { apply NoDup_cons in ND as [_ ND]. apply NoDup_app in ND as (_ & _ & (? & _ & ND)%NoDup_app).
    apply NoDup_cons in ND as [_ ND]. by rewrite app_nil_r in ND. }
  rewrite transplant_relink, (heap_node _ _ _ _ _ Hh Hz). cbn [mbind option_bind]. rewrite parent_dir.
  destruct (relink_spec SL p m _ C z (idx x) Hh Hc Hz0) as (p1 & m1 & -> & H1 & Hc1 & S1 & Fr1 & D1);
    [apart R|done|]. cbn [mbind option_bind].
  assert (idx x ∉ cidx C) as Cx by (intros E; region R E; destruct Rx; congruence).
  destruct (heap_node_mut p1 m1 _ (idx x) nx (set_parent (cpar C)) H1) as (p2 & -> & H2 & S2); [by rewrite Fr1|].
  exists p2. split; [done|]. split; [congruence|].
  exists (<[idx x := set_parent (cpar C) nx]> m1), (if idx x =? 0 then set_parent (cpar C) nil else nil).
  split; [|split].
  - replace (idx (plug C x)) with (match C with [] => idx x | _ :: _ => idx (plug C (join s c x z k v Leaf)) end); [done|].
    destruct C; [done|]. by apply idx_plug.
  - assert (forall j, j ∉ cidx C -> j <> idx x -> <[idx x := set_parent (cpar C) nx]> m1 !! j = m !! j) as Fr.
    { intros j ? ?. by rewrite lookup_insert_ne, Fr1 by done. }
    assert (idx x <> z) as Hxz by (intros E; destruct Rx; congruence).
    pose proof (lay_dom _ _ _ _ L) as Hdom. destruct L as [_ _ Ln Lb Ll Lr Lg _]. constructor.
    + rewrite is_tree_plug. split; [by apply is_ctx_insert_ne|].
      apply (is_tree_moved m _ z _ x nx); [done..|intros _; apply lookup_insert_eq|].
      intros j Hj Hne. apply Fr; [apart R|done].
    + rewrite nodup_plug. cbn [fmap list_fmap fst].
      assert (0 :: (z :: g.*1) ++ cidx C ++ indices x ≡ₚ 0 :: g.*1 ++ cidx C ++ z :: indices x ++ indices Leaf)
        as -> by (cbn [indices]; solve_Permutation). done.
    + destruct (Z.eqb_spec (idx x) 0) as [E|E].
      * rewrite E in *. rewrite lookup_insert_eq. rewrite Ln in Hnx. congruence.
      * rewrite Fr; [done|apart R|done].
    + by destruct (idx x =? 0).
    + by destruct (idx x =? 0).
    + by destruct (idx x =? 0).
    + intros i n [[= -> ->]|Hi]%elem_of_cons.
      * by rewrite Fr by (apart R || done).
      * assert (i ∈ g.*1) as Hin by (apply list_elem_of_fmap; by exists (i, n)).
        rewrite Fr; [by apply Lg|apart R|]. intros ->. region R Hin. destruct Rx; congruence.
    + intros j Hj. assert (is_Some (m !! j)) as Hm.
      { rewrite lookup_insert in Hj. case_decide; [subst; by rewrite Hnx|auto]. }
      apply Hdom in Hm. rewrite indices_plug, indices_join in Hm. rewrite indices_plug. cbn [indices fmap list_fmap fst] in *.
      rewrite !elem_of_cons, !elem_of_app, !elem_of_cons, ?elem_of_app, ?elem_of_nil in *. tauto.
  - by destruct (idx x =? 0).
Qed.


(** The second half of [unlink] for a node [z] with two subtrees: its
    successor [y] takes its place, its left subtree and its colour. *)
Definition take_over (p : @t K V) (z y : Z) : option (@t K V) :=
  p ← transplant p z y;
  nz ← node p z;
  p ← node_mut p y (set_child SL (left nz));
  p ← node_mut p (left nz) (set_parent y);
  nz ← node p z;
  node_mut p y (set_color (color nz)).

Lemma take_over_spec p m r0 C cz l z rz kz vz cy py ly y ky vy r :
  heap p m r0 -> is_ctx m C z -> z <> 0 -> y <> 0 -> l <> Leaf ->
  m !! z = Some (mk_node cz (cpar C) (idx l) rz kz vz) -> is_tree m z l ->
  m !! y = Some (mk_node cy py ly (idx r) ky vy) -> is_tree m y r ->
  NoDup (concat [[0]; cidx C; [z]; indices l; [y]; indices r]) ->
  exists p' m', take_over p z y = Some p' /\ slots p' = slots p /\
    heap p' m' (match C with [] => y | _ => r0 end) /\ is_tree m' 0 (plug C (T cz l y ky vy r)) /\
    (forall j, j ∉ cidx C -> j <> y -> j <> idx l -> m' !! j = m !! j) /\
    (forall j, is_Some (m' !! j) -> is_Some (m !! j)).
Proof.
  intros Hh Hc Hz0 Hy0 Hl Hz Htl Hy Htr ND. destruct (regions _ ND) as [rg R].
  pose proof (R 0%nat _ 0 eq_refl (list_elem_of_here _ _)) as R0.
  pose proof (R 2%nat _ z eq_refl (list_elem_of_here _ _)) as Rz.
  pose proof (R 4%nat _ y eq_refl (list_elem_of_here _ _)) as Ry.
  assert (idx l ∈ indices l) as Hil by (destruct l; [done|]; cbn; apply list_elem_of_here).
  pose proof (R 3%nat _ _ eq_refl Hil) as Rl.
  destruct (is_tree_dom m z l _ Htl Hil) as [nl Hnl].
  assert (NoDup (cidx C) /\ NoDup (indices l)) as [NDC NDl].
  { cbn [concat] in ND. apply NoDup_app in ND as (_ & _ & (? & _ & (_ & _ & (? & _)%NoDup_app)%NoDup_app)%NoDup_app). done. }
  unfold take_over. rewrite transplant_relink, (heap_node _ _ _ _ _ Hh Hz). cbn [mbind option_bind parent].
  destruct (relink_spec SL p m _ C z y Hh Hc Hz0) as (p1 & m1 & -> & H1 & Hc1 & S1 & Fr1 & D1); [apart R|done|].
  cbn [mbind option_bind].
  destruct (heap_node_mut p1 m1 _ y (mk_node cy py ly (idx r) ky vy) (set_parent (cpar C)) H1) as (p2 & -> & H2 & S2); [rewrite Fr1 by apart R; exact Hy|].
  cbn [mbind option_bind set_parent color left right key value] in *.
  assert (forall m2 : gmap Z (Node K V), (forall j, j ∉ cidx C -> j <> y -> j <> idx l -> m2 !! j = m1 !! j) ->
    m2 !! z = Some (mk_node cz (cpar C) (idx l) rz kz vz)) as Hz2.
  { intros m2 E. rewrite E, Fr1; [done|apart R..]. }
  erewrite (heap_node p2 _ _ z); [|exact H2|apply Hz2; intros; by rewrite lookup_insert_ne].
  cbn [mbind option_bind left].
  destruct (heap_node_mut p2 _ _ y (mk_node cy (cpar C) ly (idx r) ky vy) (set_child SL (idx l)) H2) as (p3 & -> & H3 & S3); [apply lookup_insert_eq|].
  cbn [mbind option_bind set_child color parent right key value] in *.
  destruct (heap_node_mut p3 _ _ (idx l) nl (set_parent y) H3) as (p4 & -> & H4 & S4).
  { rewrite !lookup_insert_ne, Fr1; [done|apart R|apart R..]. }
  cbn [mbind option_bind].
  erewrite (heap_node p4 _ _ z); [|exact H4|apply Hz2; intros; by rewrite !lookup_insert_ne].
  cbn [mbind option_bind color].
  destruct (heap_node_mut p4 _ _ y (mk_node cy (cpar C) (idx l) (idx r) ky vy) (set_color cz) H4) as (p5 & E5 & H5 & S5).
  { rewrite lookup_insert_ne, lookup_insert_eq; [done|apart R]. }
  cbn [set_color parent left right key value] in H5. eexists p5, _. split; [done|]. split; [congruence|].
  split; [exact H5|].
  match type of H5 with heap _ ?M _ => set (m5 := M) in * end.
  assert (forall j, j ∉ cidx C -> j <> y -> j <> idx l -> m5 !! j = m !! j) as Fr.
  { intros j ? ? ?. subst m5. by rewrite !lookup_insert_ne, Fr1 by done. }
  split; [|split; [done|]].
  - rewrite is_tree_plug. split; [|split; [done|split; [apply lookup_insert_eq|split]]].
    + subst m5. repeat (apply is_ctx_insert_ne; [apart R|]). done.
    + apply (is_tree_moved m m5 z y l nl); try done.
      * intros _. subst m5. rewrite lookup_insert_ne, lookup_insert_eq; [done|apart R].
      * intros j Hj Hne. apply Fr; [apart R..|done].
    + eapply is_tree_agree; [|exact Htr]. intros j Hj. apply Fr; apart R.
  - intros j. destruct (decide (j = y)) as [->|Hjy]; [by rewrite Hy|].
    destruct (decide (j = idx l)) as [->|Hjl]; [by rewrite Hnl|]. subst m5. rewrite !lookup_insert_ne by done. apply D1.
Qed.

(** [y] hangs directly below [z]. *)
Definition adopt_child (p : @t K V) (x y z : Z) : option (@t K V) :=
  p ← node_mut p x (set_parent y); take_over p z y.

Lemma tree_in_adopt_child p C cz l z kz vz cy y ky vy x q g :
  l <> Leaf ->
  tree_in p (plug C (T cz l z kz vz (T cy Leaf y ky vy x))) q g ->
  exists p', adopt_child p (idx x) y z = Some p' /\ slots p' = slots p /\
    tree_in p' (plug C (T cz l y ky vy x)) (if idx x =? 0 then y else q)
      ((z, mk_node cz (cpar C) (idx l) y kz vz) :: g).
Proof.
  intros Hl (m & nil & Hh & L & Hq). pose proof (lay_nodup _ _ _ _ L) as ND.
  rewrite nodup_plug in ND. cbn [indices app] in ND.
  assert (NoDup (g.*1 ++ concat [[0]; cidx C; [z]; indices l; [y]; indices x])) as ND'.
  { cbn [concat app]. rewrite app_nil_r, <- Permutation_middle. exact ND. }
  assert (exists rg : Z -> nat, forall i s' j,
    [g.*1; [0]; cidx C; [z]; indices l; [y]; indices x] !! i = Some s' -> j ∈ s' -> rg j = i) as [rg R]
    by by apply regions.
  pose proof (R 1%nat _ 0 eq_refl (list_elem_of_here _ _)) as R0.
  pose proof (R 3%nat _ z eq_refl (list_elem_of_here _ _)) as Rz.
  pose proof (R 5%nat _ y eq_refl (list_elem_of_here _ _)) as Ry.
  assert (idx l ∈ indices l) as Hil by (destruct l; [done|]; cbn; apply list_elem_of_here).
  pose proof (R 4%nat _ _ eq_refl Hil) as Rl.
  pose proof (lay_tree _ _ _ _ L) as HT. rewrite is_tree_plug in HT. cbn [is_tree idx] in HT.
  destruct HT as (Hc & Hz0 & Hz & Htl & Hy0 & Hy & _ & Htx).
  destruct (root_node m y x nil (lay_nil _ _ _ _ L) Htx) as [nx Hnx].
  assert (rg (idx x) = 1%nat \/ rg (idx x) = 6%nat) as Rx.
  { destruct (decide (idx x = 0)) as [->|Hne%idx_in]; [by left|]. right. by region R Hne. }
  assert (idx x <> z /\ idx x <> y /\ idx x <> idx l /\ (idx x ∉ cidx C) /\ (idx x ∉ indices l)) as (X1 & X2 & X3 & X4 & X5).
  { split_and!; intros E; try (region R E); destruct Rx; congruence. }
  unfold adopt_child.
  destruct (heap_node_mut p m _ (idx x) nx (set_parent y) Hh Hnx) as (p1 & -> & H1 & S1). cbn [mbind option_bind].
  set (m1 := <[idx x := set_parent y nx]> m) in *.
  apply NoDup_app in ND' as (_ & _ & ND').
  destruct (take_over_spec p1 m1 _ C cz l z y kz vz cy z 0 y ky vy x H1) as (p2 & m2 & -> & S2 & H2 & HT2 & Fr2 & D2);
    try done.
  { by apply is_ctx_insert_ne. } { subst m1. by rewrite lookup_insert_ne. } { by apply is_tree_insert_ne. }
  { subst m1. by rewrite lookup_insert_ne. }
  { apply (is_tree_moved m m1 y y x nx); try done.
    - cbn [concat] in ND'. rewrite app_nil_r in ND'.
      apply NoDup_app in ND' as (_ & _ & (_ & _ & (_ & _ & (_ & _ & (_ & _ & ?)%NoDup_app)%NoDup_app)%NoDup_app)%NoDup_app). done.
    - intros _. apply lookup_insert_eq.
    - intros j _ Hne. by apply lookup_insert_ne. }
  exists p2. split; [done|]. split; [congruence|].
  exists m2, (if idx x =? 0 then set_parent y nil else nil). split; [|split].
  - replace (idx (plug C (T cz l y ky vy x))) with
      (match C with [] => y | _ :: _ => idx (plug C (T cz l z kz vz (T cy Leaf y ky vy x))) end); [done|].
    destruct C; [done|]. by apply idx_plug.
  - pose proof (lay_dom _ _ _ _ L) as Hdom. destruct L as [_ _ Ln Lb Ll Lr Lg _].
    assert (forall j, j ∉ cidx C -> j <> y -> j <> idx l -> j <> idx x -> m2 !! j = m !! j) as Fr.
    { intros j ? ? ? ?. rewrite Fr2 by done. by apply lookup_insert_ne. }
    constructor.
    + done.
    + rewrite nodup_plug. cbn [fmap list_fmap fst indices].
      assert (0 :: (z :: g.*1) ++ cidx C ++ y :: indices l ++ indices x ≡ₚ
        0 :: g.*1 ++ cidx C ++ z :: indices l ++ y :: indices x) as -> by solve_Permutation. done.
    + destruct (Z.eqb_spec (idx x) 0) as [E|E].
      * rewrite Fr2 by apart R. subst m1. rewrite E in *. rewrite lookup_insert_eq. congruence.
      * rewrite Fr; [done|apart R..|done].
    + by destruct (idx x =? 0).
    + by destruct (idx x =? 0).
    + by destruct (idx x =? 0).
    + intros i n [[= -> ->]|Hi]%elem_of_cons; [by rewrite Fr by (apart R || done)|].
      assert (i ∈ g.*1) as Hin by (apply list_elem_of_fmap; by exists (i, n)).
      rewrite Fr; [by apply Lg|apart R..|]. intros ->. region R Hin. destruct Rx; congruence.
    + intros j Hj%D2. assert (is_Some (m !! j)) as Hm.
      { subst m1. rewrite lookup_insert in Hj. case_decide; [subst; by rewrite Hnx|done]. }
      apply Hdom in Hm. rewrite indices_plug in *. cbn [indices fmap list_fmap fst app] in *.
      rewrite !elem_of_cons, !elem_of_app, ?elem_of_cons, ?elem_of_app, ?elem_of_cons, ?elem_of_nil in *. tauto.
  - by destruct (idx x =? 0).
Qed.


(** [y] was below [z], is already unlinked, and gets both subtrees of [z]. *)
Definition adopt_far (p : @t K V) (y z : Z) : option (@t K V) :=
  nz ← node p z;
  p ← node_mut p y (set_child SR (right nz));
  p ← node_mut p (right nz) (set_parent y);
  take_over p z y.

Lemma tree_in_adopt_far p C cz l z kz vz r y cy py ly ry ky vy q g :
  l <> Leaf -> r <> Leaf ->
  tree_in p (plug C (T cz l z kz vz r)) q ((y, mk_node cy py ly ry ky vy) :: g) ->
  exists p', adopt_far p y z = Some p' /\ slots p' = slots p /\
    tree_in p' (plug C (T cz l y ky vy r)) q ((z, mk_node cz (cpar C) (idx l) (idx r) kz vz) :: g).
Proof.
  intros Hl Hr (m & nil & Hh & L & Hq). pose proof (lay_nodup _ _ _ _ L) as ND.
  rewrite nodup_plug in ND. cbn [indices app fmap list_fmap fst] in ND.
  assert (NoDup (g.*1 ++ concat [[0]; cidx C; [z]; indices l; [y]; indices r])) as ND'.
  { cbn [concat app]. rewrite app_nil_r.
    assert (g.*1 ++ 0 :: cidx C ++ z :: indices l ++ y :: indices r ≡ₚ
      0 :: y :: g.*1 ++ cidx C ++ z :: indices l ++ indices r) as -> by solve_Permutation. exact ND. }
  assert (exists rg : Z -> nat, forall i s' j,
    [g.*1; [0]; cidx C; [z]; indices l; [y]; indices r] !! i = Some s' -> j ∈ s' -> rg j = i) as [rg R]
    by by apply regions.
  pose proof (R 1%nat _ 0 eq_refl (list_elem_of_here _ _)) as R0.
  pose proof (R 3%nat _ z eq_refl (list_elem_of_here _ _)) as Rz.
  pose proof (R 5%nat _ y eq_refl (list_elem_of_here _ _)) as Ry.
  assert (idx l ∈ indices l) as Hil by (destruct l; [done|]; cbn; apply list_elem_of_here).
  assert (idx r ∈ indices r) as Hir by (destruct r; [done|]; cbn; apply list_elem_of_here).
  pose proof (R 4%nat _ _ eq_refl Hil) as Rl. pose proof (R 6%nat _ _ eq_refl Hir) as Rr.
  pose proof (lay_tree _ _ _ _ L) as HT. rewrite is_tree_plug in HT. cbn [is_tree idx] in HT.
  destruct HT as (Hc & Hz0 & Hz & Htl & Htr).
  pose proof (lay_garbage _ _ _ _ L y _ (list_elem_of_here _ _)) as Hy.
  destruct (is_tree_dom m z r _ Htr Hir) as [nr Hnr].
  unfold adopt_far. rewrite (heap_node _ _ _ _ _ Hh Hz). cbn [mbind option_bind right].
  destruct (heap_node_mut p m _ y _ (set_child SR (idx r)) Hh Hy) as (p1 & -> & H1 & S1).
  cbn [mbind option_bind set_child color parent left key value] in *.
  destruct (heap_node_mut p1 _ _ (idx r) nr (set_parent y) H1) as (p2 & -> & H2 & S2);
    [rewrite lookup_insert_ne; [done|apart R]|].
  cbn [mbind option_bind]. set (m2 := <[idx r := _]> (<[y := _]> m)) in *.
  apply NoDup_app in ND' as (_ & _ & ND').
  assert (forall j, j <> y -> j <> idx r -> m2 !! j = m !! j) as Fm2 by (intros; subst m2; by rewrite !lookup_insert_ne).
  destruct (take_over_spec p2 m2 _ C cz l z (idx r) kz vz cy py ly y ky vy r H2) as (p3 & m3 & -> & S3 & H3 & HT3 & Fr3 & D3);
    try done.
  { subst m2. apply is_ctx_insert_ne; [apart R|]. apply is_ctx_insert_ne; [apart R|done]. }
  { apart R. } { rewrite Fm2; [done|apart R..]. }
  { eapply is_tree_agree; [|exact Htl]. intros j Hj. apply Fm2; apart R. }
  { subst m2. rewrite lookup_insert_ne, lookup_insert_eq; [done|apart R]. }
  { apply (is_tree_moved m m2 z y r nr); try done.
    - cbn [concat] in ND'. rewrite app_nil_r in ND'.
      apply NoDup_app in ND' as (_ & _ & (_ & _ & (_ & _ & (_ & _ & (_ & _ & ?)%NoDup_app)%NoDup_app)%NoDup_app)%NoDup_app). done.
    - intros _. apply lookup_insert_eq.
    - intros j Hj Hne. apply Fm2; [apart R|done]. }
  exists p3. split; [done|]. split; [congruence|]. exists m3, nil. split; [|split; [|done]].
  - replace (idx (plug C (T cz l y ky vy r))) with
      (match C with [] => y | _ :: _ => idx (plug C (T cz l z kz vz r)) end); [done|].
    destruct C; [done|]. by apply idx_plug.
  - pose proof (lay_dom _ _ _ _ L) as Hdom. destruct L as [_ _ Ln Lb Ll Lr Lg _].
    assert (forall j, j ∉ cidx C -> j <> y -> j <> idx l -> j <> idx r -> m3 !! j = m !! j) as Fr.
    { intros j ? ? ? ?. rewrite Fr3 by done. by apply Fm2. }
    constructor; try done.
    + rewrite nodup_plug. cbn [fmap list_fmap fst indices].
      assert (0 :: (z :: g.*1) ++ cidx C ++ y :: indices l ++ indices r ≡ₚ
        0 :: y :: g.*1 ++ cidx C ++ z :: indices l ++ indices r) as -> by solve_Permutation. done.
    + rewrite Fr; [done|apart R..].
    + intros i n [[= -> ->]|Hi]%elem_of_cons; [by rewrite Fr by apart R|].
      assert (i ∈ g.*1) as Hin by (apply list_elem_of_fmap; by exists (i, n)).
      rewrite Fr; [apply Lg; by right|apart R..].
    + intros j Hj%D3. assert (is_Some (m !! j)) as Hm.
      { destruct (decide (j = y)) as [->|]; [by rewrite Hy|]. destruct (decide (j = idx r)) as [->|]; [by rewrite Hnr|].
        by rewrite Fm2 in Hj by done. }
      apply Hdom in Hm. rewrite indices_plug in *. cbn [indices fmap list_fmap fst app] in *.
      rewrite !elem_of_cons, !elem_of_app, ?elem_of_cons, ?elem_of_app, ?elem_of_cons, ?elem_of_nil in *. tauto.
Qed.

(** ** Giving a detached node back to the pool *)

Lemma tree_in_release p a q z n g :
  tree_in p a q ((z, n) :: g) ->
  exists p', Pool.remove p z = Some (p', Some n) /\ slots p' = slots p /\ tree_in p' a q g.
Proof.
  intros (m & nil & Hh & L & Hq). pose proof (lay_garbage _ _ _ _ L z n (list_elem_of_here _ _)) as Hz.
  pose proof (heap_index _ _ _ _ _ Hh Hz) as Hz0. destruct Hh as [Hr Ho Hg].
  destruct (Pool.pool_remove_repr p m z Hr Hz0) as (p' & E & Hr'). rewrite Hz in E.
  destruct (Pool.remove_frame p z p' _ E) as (F1 & F2 & F3).
  exists p'. split; [done|]. split; [done|]. exists (delete z m), nil.
  split; [constructor; [done|congruence..]|]. split; [|done].
  pose proof (lay_nodup _ _ _ _ L) as ND. cbn [fmap list_fmap fst app] in ND.
  rewrite !NoDup_cons, not_elem_of_cons, !elem_of_app in ND. destruct ND as [[N0 N1] [N2 N3]].
  destruct L. constructor; try done.
  - eapply is_tree_agree; [|done]. intros j Hj. rewrite lookup_delete_ne; [done|]. intros ->. tauto.
  - apply NoDup_cons. by rewrite elem_of_app.
  - by rewrite lookup_delete_ne.
  - intros i x Hi. rewrite lookup_delete_ne; [apply lay_garbage0; by right|]. intros ->. apply N2. left.
    apply list_elem_of_fmap. by exists (i, x).
  - intros j. destruct (decide (j = z)) as [->|Hne]; [rewrite lookup_delete_eq; by intros [? ?]|].
    rewrite lookup_delete_ne by done. intros Hj%lay_dom0. cbn [fmap list_fmap fst app] in Hj.
    rewrite !elem_of_cons in *. tauto.
Qed.

End Heap.
End RbHeap.
