(* ===== verification/InfraRbInsert.v ===== *)
(** * Balance and insertion of the red-black tree

    The colour invariant: [rbt red_ok n a] says that no red node of [a] has a
    red child, that every path to a leaf has [n] black nodes, and that the root
    is red only if [red_ok].  [rctx] is the same for a context.  The fix-up loop
    of an insertion is shown to end and to restore the invariant without
    changing the entries. *)

From S2P Require Import Prelude InfraBitmap InfraPool InfraRbTree InfraRbHeap.

Module RbInsert.
Import RbTree RbHeap.

Section Insert.
Context {K V : Type}.
Implicit Types (a b l r u x : @tree K V) (C D : @ctx K V) (p : @t K V).

(** ** The colour invariant *)

Fixpoint rbt (red_ok : bool) (n : nat) (a : @tree K V) : Prop :=
  match a with
  | Leaf => n = O
  | T Red l _ _ _ r => red_ok = true /\ rbt false n l /\ rbt false n r
  | T Black l _ _ _ r => match n with S n' => rbt true n' l /\ rbt true n' r | O => False end
  end.

Definition allows_red (C : @ctx K V) : bool :=
  match C with F _ Black _ _ _ _ :: _ => true | _ => false end.

(** The subtree in the hole may have [n] black nodes on its paths. *)
Fixpoint rctx (C : @ctx K V) (n : nat) : Prop :=
  match C with
  | [] => True
  | F _ Red _ _ _ sib :: C' => rbt false n sib /\ allows_red C' = true /\ rctx C' n
  | F _ Black _ _ _ sib :: C' => rbt true n sib /\ rctx C' (S n)
  end.

Lemma rbt_mono n a : rbt false n a -> rbt true n a.
Proof. destruct a as [|[] l i k v r]; cbn; naive_solver. Qed.

Lemma rbt_black_root n a : rbt true n a -> tcolor a = Black -> rbt false n a.
Proof. destruct a as [|[] l i k v r]; cbn; done. Qed.

Lemma rbt_join_red red_ok n s a i k v x :
  rbt red_ok n (join s Red a i k v x) <-> red_ok = true /\ rbt false n a /\ rbt false n x.
Proof. destruct s; cbn; tauto. Qed.

Lemma rbt_join_black red_ok n s a i k v x :
  rbt red_ok (S n) (join s Black a i k v x) <-> rbt true n a /\ rbt true n x.
Proof. destruct s; cbn; tauto. Qed.

Lemma plug_rbt C n a : rctx C n -> rbt (allows_red C) n a -> exists h, rbt false h (plug C a).
Proof.
  revert n a. induction C as [|[s [] i k v sib] C IH]; intros n a; cbn [rctx allows_red plug].
  - eauto.
  - intros (Hs & Ha & Hc) Hr. apply (IH n); [done|]. rewrite Ha. by apply rbt_join_red.
  - intros (Hs & Hc) Hr. apply (IH (S n)); [done|]. apply rbt_join_black. split; [|done].
    by destruct (allows_red C).
Qed.

Lemma blacken_rbt n a : rbt true n a -> exists h, rbt false h (blacken a).
Proof.
  destruct a as [|[] l i k v r]; cbn; [by exists O|..].
  - intros (_ & Hl & Hr). exists (S n). by split; apply rbt_mono.
  - intros H. by exists n.
Qed.

(** ** Entries and sides *)

Lemma join_opp s c a i k v b : join (opp s) c a i k v b = join s c b i k v a.
Proof. by destruct s. Qed.

Lemma opp_opp s : opp (opp s) = s.
Proof. by destruct s. Qed.

Lemma join_SL c l i k v r : T c l i k v r = join SL c l i k v r.
Proof. done. Qed.

Lemma inorder_plug C a b : inorder a = inorder b -> inorder (plug C a) = inorder (plug C b).
Proof.
  revert a b. induction C as [|[s c i k v sib] C IH]; intros a b E; [done|]. cbn [plug]. apply IH.
  destruct s; cbn; by rewrite E.
Qed.

Lemma inorder_join s c a i k v b :
  inorder (join s c a i k v b) =
    match s with SL => inorder a ++ (k, v) :: inorder b | SR => inorder b ++ (k, v) :: inorder a end.
Proof. by destruct s. Qed.

Lemma inorder_blacken a : inorder (blacken a) = inorder a.
Proof. by destruct a. Qed.

Lemma indices_blacken a : indices (blacken a) = indices a.
Proof. by destruct a. Qed.

Lemma tree_in_nodup p a q g : tree_in p a q g -> NoDup (0 :: g.*1 ++ indices a).
Proof. intros (m & nil & _ & L & _). apply (lay_nodup _ _ _ _ L). Qed.

Lemma tree_in_siblings p C s c a i k v b q g :
  tree_in p (plug C (join s c a i k v b)) q g -> a <> Leaf -> idx b <> idx a.
Proof.
  intros H Ha E. apply tree_in_nodup in H. rewrite nodup_plug, indices_join in H.
  apply NoDup_cons in H as [H0 H]. apply NoDup_app in H as (_ & _ & (_ & _ & H)%NoDup_app).
  apply NoDup_cons in H as [_ (_ & H & _)%NoDup_app].
  assert (idx a ∈ indices a) as Hin by (destruct a; [done|]; cbn; apply list_elem_of_here).
  destruct (decide (idx b = 0)) as [E0|Hne%idx_in].
  - apply H0. rewrite !elem_of_app, elem_of_cons, elem_of_app. do 3 right. left. by rewrite <- E0, E.
  - apply (H _ Hin). by rewrite <- E.
Qed.

Lemma length_ctx C : (length C <= length (cidx C))%nat.
Proof. induction C as [|[s c i k v sib] C IH]; cbn; [lia|]. rewrite length_app. lia. Qed.

(** The fuel of every loop exceeds the depth of any node. *)
Lemma fuel_enough p C a q g : tree_in p (plug C a) q g -> (length C + length (indices a) < fuel p)%nat.
Proof.
  intros H. pose proof (tree_in_size p _ q g H) as Hl. unfold fuel.
  assert (Pool.len p <= vlen (Pool.vector p)) as Hle.
  { unfold Pool.len, saturating_sub. pose proof (vlen_nonneg (Pool.vector p)).
    pose proof (vlen_nonneg (Pool.free_indices p)). lia. }
  assert (length (indices (plug C a)) = (length (indices a) + length (cidx C))%nat) as Hi
    by (by rewrite indices_plug, length_app).
  pose proof (length_ctx C). pose proof (vlen_nonneg g). unfold vlen in *. lia.
Qed.

(** ** One round of the fix-up *)

Lemma insert_red_uncle p C s s2 zt i ki vi sib j kj vj u q g z :
  tree_in p (plug C (join s2 Black (join s Red zt i ki vi sib) j kj vj u)) q g -> tcolor u = Red ->
  exists p', insert_fixup_side s2 p z i j = Some (p', j) /\ slots p' = slots p /\
    tree_in p' (plug C (join s2 Red (join s Black zt i ki vi sib) j kj vj (blacken u))) q g.
Proof.
  intros H Hu. unfold insert_fixup_side.
  destruct (tree_in_node _ _ _ _ _ _ _ _ _ _ _ H) as [-> _]. cbn [mbind option_bind]. rewrite child_opp.
  assert (tree_in p (plug (F (opp s2) Black j kj vj (join s Red zt i ki vi sib) :: C) u) q g) as H'
    by (cbn [plug]; by rewrite join_opp).
  rewrite (tree_in_color _ _ _ _ _ H'), Hu. cbn [mbind option_bind is_red].
  destruct (tree_in_recolor p (F s2 Black j kj vj u :: C) s Red Black zt i ki vi sib q g H) as (p1 & -> & S1 & H1).
  cbn [mbind option_bind plug] in *.
  assert (tree_in p1 (plug (F (opp s2) Black j kj vj (join s Black zt i ki vi sib) :: C) u) q g) as H1'
    by (cbn [plug]; by rewrite join_opp).
  destruct (tree_in_blacken p1 _ u q g H1') as (p2 & -> & S2 & H2). cbn [mbind option_bind plug] in *.
  rewrite join_opp in H2.
  destruct (tree_in_recolor p2 C s2 Black Red _ j kj vj _ q g H2) as (p3 & -> & S3 & H3). cbn [mbind option_bind].
  exists p3. split; [done|]. split; [congruence|done].
Qed.

(** The last rotation, for a red node [z] on the outer side. *)
Definition rotate_grand (s : side) (p : @t K V) (z : Z) : option (@t K V * Z) :=
  nz ← node p z;
  let par := parent nz in
  np ← node p par;
  let grand := parent np in
  p ← node_mut p par (set_color Black);
  p ← node_mut p grand (set_color Red);
  p ← rotate (opp s) p grand;
  Some (p, z).

Lemma insert_outer p C s zz i ki vi sib j kj vj u q g :
  zz <> Leaf -> tree_in p (plug C (join s Black (join s Red zz i ki vi sib) j kj vj u)) q g ->
  exists p' q', rotate_grand s p (idx zz) = Some (p', idx zz) /\ slots p' = slots p /\
    tree_in p' (plug (F s Black i ki vi (join (opp s) Red u j kj vj sib) :: C) zz) q' g.
Proof.
  intros Hz H. unfold rotate_grand. destruct zz as [|cz l z k v r]; [done|]. cbn [idx].
  destruct (tree_in_node p (F s Red i ki vi sib :: F s Black j kj vj u :: C) SL cz l z k v r q g H) as [-> _].
  cbn [mbind option_bind]. rewrite parent_dir. cbn [cpar].
  destruct (tree_in_node p (F s Black j kj vj u :: C) s Red _ i ki vi sib q g H) as [-> _].
  cbn [mbind option_bind]. rewrite parent_dir. cbn [cpar].
  destruct (tree_in_recolor p (F s Black j kj vj u :: C) s Red Black _ i ki vi sib q g H) as (p1 & -> & S1 & H1).
  cbn [mbind option_bind plug] in *.
  destruct (tree_in_recolor p1 C s Black Red _ j kj vj u q g H1) as (p2 & -> & S2 & H2). cbn [mbind option_bind].
  rewrite <- (join_opp s Red u), <- (join_opp s Black sib) in H2.
  destruct (rotate_spec (opp s) C _ u j kj vj _ sib i ki vi _ p2 q g H2) as (p3 & -> & S3 & H3). cbn [mbind option_bind].
  rewrite (join_opp s Black) in H3. eexists p3, _. split; [done|]. split; [congruence|]. cbn [plug]. exact H3.
Qed.

(** What the fix-up loop is about: a red node whose subtrees are balanced,
    anywhere in a balanced context. *)
Definition red_at (p : @t K V) (C : @ctx K V) (zz : @tree K V) (n : nat) (q : Z) (g : list (Z * Node K V)) : Prop :=
  tree_in p (plug C zz) q g /\ rctx C n /\
  exists l z k v r, zz = T Red l z k v r /\ rbt false n l /\ rbt false n r.

Lemma red_at_join p C s a z k v b n q g :
  tree_in p (plug C (join s Red a z k v b)) q g -> rctx C n -> rbt false n a -> rbt false n b ->
  red_at p C (join s Red a z k v b) n q g.
Proof. intros H Hc Ha Hb. split; [done|]. split; [done|]. destruct s; cbn; eauto 10. Qed.

Lemma insert_outer_red p C s zz i ki vi sib j kj vj u n q g :
  red_at p (F s Red i ki vi sib :: F s Black j kj vj u :: C) zz n q g -> tcolor u = Black ->
  exists p' q' C', rotate_grand s p (idx zz) = Some (p', idx zz) /\ slots p' = slots p /\
    red_at p' C' zz n q' g /\ length C' = S (length C) /\
    inorder (plug C' zz) = inorder (plug (F s Red i ki vi sib :: F s Black j kj vj u :: C) zz).
Proof.
  intros (H & (Hsib & _ & Hu & Hc) & l & z & k & v & r & -> & Hl & Hr) Hcu.
  destruct (insert_outer p C s (T Red l z k v r) i ki vi sib j kj vj u q g ltac:(done) H) as (p' & q' & E & S' & H').
  exists p', q', (F s Black i ki vi (join (opp s) Red u j kj vj sib) :: C). split; [done|]. split; [done|].
  split; [|split; [done|]].
  - split; [done|]. split; [|eauto 10]. split; [|done]. apply rbt_join_red.
    split; [done|]. split; [by apply rbt_black_root|done].
  - cbn [plug]. apply inorder_plug. destruct s; cbn; by rewrite <- !app_assoc.
Qed.

Lemma insert_inner_red p C s zz i ki vi sib j kj vj u n q g :
  red_at p (F (opp s) Red i ki vi sib :: F s Black j kj vj u :: C) zz n q g ->
  exists p' q' zz' ii kk vv d, rotate s p i = Some p' /\ slots p' = slots p /\ idx zz' = i /\
    red_at p' (F s Red ii kk vv d :: F s Black j kj vj u :: C) zz' n q' g /\
    inorder (plug (F s Red ii kk vv d :: F s Black j kj vj u :: C) zz') =
    inorder (plug (F (opp s) Red i ki vi sib :: F s Black j kj vj u :: C) zz).
Proof.
  intros (H & (Hsib & Ha & Hu & Hc) & l & z & k & v & r & -> & Hl & Hr).
  assert (exists b d, T Red l z k v r = join s Red b z k v d /\ rbt false n b /\ rbt false n d) as (b & d & E & Hb & Hd).
  { destruct s; [by exists l, r|by exists r, l]. }
  rewrite E in *. cbn [plug] in *. rewrite join_opp in *.
  destruct (rotate_spec s (F s Black j kj vj u :: C) _ sib i ki vi _ b z k v d p q g H) as (p' & E' & S' & H').
  eexists p', _, (join s Red sib i ki vi b), z, k, v, d. split; [done|]. split; [done|]. split; [by destruct s|].
  split; [apply red_at_join; [exact H'|by cbn|done|done]|].
  apply inorder_plug. destruct s; cbn; by rewrite <- ?app_assoc; cbn; rewrite <- ?app_assoc.
Qed.

Lemma insert_side_black p C s s2 zz i ki vi sib j kj vj u n q g :
  red_at p (F s Red i ki vi sib :: F s2 Black j kj vj u :: C) zz n q g -> tcolor u = Black ->
  exists p' q' C' zz', insert_fixup_side s2 p (idx zz) i j = Some (p', idx zz') /\ slots p' = slots p /\
    red_at p' C' zz' n q' g /\ length C' = S (length C) /\
    inorder (plug C' zz') = inorder (plug (F s Red i ki vi sib :: F s2 Black j kj vj u :: C) zz).
Proof.
  intros Hred Hcu. pose proof Hred as (H & _ & l & z & k & v & r & Ezz & _).
  unfold insert_fixup_side.
  destruct (tree_in_node p C s2 Black _ j kj vj u q g H) as [-> _]. cbn [mbind option_bind]. rewrite child_opp.
  assert (tree_in p (plug (F (opp s2) Black j kj vj (join s Red zz i ki vi sib) :: C) u) q g) as H'
    by (cbn [plug]; by rewrite join_opp).
  rewrite (tree_in_color _ _ _ _ _ H'), Hcu. cbn [mbind option_bind is_red].
  destruct (tree_in_node p (F s2 Black j kj vj u :: C) s Red _ i ki vi sib q g H) as [-> _]. cbn [mbind option_bind].
  assert (idx sib <> idx zz) as Hne.
  { apply (tree_in_siblings p (F s2 Black j kj vj u :: C) s Red zz i ki vi sib q g H). by rewrite Ezz. }
  destruct (decide (s = s2)) as [->|Hs].
  - rewrite child_opp, (proj2 (Z.eqb_neq _ _)) by done. cbn [mbind option_bind].
    destruct (insert_outer_red p C s2 zz i ki vi sib j kj vj u n q g Hred Hcu) as (p' & q' & C' & E & S' & R').
    exists p', q', C', zz. split; [exact E|]. by split.
  - assert (s = opp s2) as -> by (by destruct s, s2). rewrite child_dir, Z.eqb_refl.
    destruct (insert_inner_red p C s2 zz i ki vi sib j kj vj u n q g Hred)
      as (p1 & q1 & zz' & ii & kk & vv & d & -> & S1 & Ei & R1 & O1). cbn [mbind option_bind].
    destruct (insert_outer_red p1 C s2 zz' ii kk vv d j kj vj u n q1 g R1 Hcu) as (p' & q' & C' & E & S' & R' & Hl & O').
    rewrite <- Ei. exists p', q', C', zz'. split; [exact E|]. split; [congruence|]. split; [done|]. split; [done|congruence].
Qed.

Lemma insert_side_red p C s s2 zz i ki vi sib j kj vj u n q g :
  red_at p (F s Red i ki vi sib :: F s2 Black j kj vj u :: C) zz n q g -> tcolor u = Red ->
  exists p' zz', insert_fixup_side s2 p (idx zz) i j = Some (p', idx zz') /\ slots p' = slots p /\
    red_at p' C zz' (S n) q g /\
    inorder (plug C zz') = inorder (plug (F s Red i ki vi sib :: F s2 Black j kj vj u :: C) zz).
Proof.
  intros (H & (Hsib & _ & Hu & Hc) & l & z & k & v & r & -> & Hl & Hr) Hcu.
  destruct (insert_red_uncle p C s s2 _ i ki vi sib j kj vj u q g z H Hcu) as (p' & E & S' & H').
  exists p', (join s2 Red (join s Black (T Red l z k v r) i ki vi sib) j kj vj (blacken u)).
  rewrite idx_join. split; [done|]. split; [done|]. split.
  - apply red_at_join; [done|done|..].
    + apply rbt_join_black. split; [by cbn|by apply rbt_mono].
    + destruct u as [|[] ul ui uk uv ur]; [done| |done]. cbn in Hu |- *. destruct Hu as (_ & ? & ?).
      split; by apply rbt_mono.
  - cbn [plug]. apply inorder_plug. by rewrite !(inorder_join s2), !(inorder_join s), inorder_blacken.
Qed.

(** ** The loop *)

Lemma insert_fixup_loop_spec fuel0 p C zz n q g :
  red_at p C zz n q g -> (length C < fuel0)%nat ->
  exists p' a q' h, insert_fixup_loop fuel0 p (idx zz) = Some p' /\ slots p' = slots p /\
    tree_in p' a q' g /\ rbt true h a /\ inorder a = inorder (plug C zz).
Proof.
  revert p C zz n q. induction fuel0 as [|fuel0 IH]; intros p C zz n q Hred Hf; [lia|].
  pose proof Hred as (H & Hc & l & z & k & v & r & -> & Hl & Hr). cbn [insert_fixup_loop idx].
  destruct (tree_in_node p C SL Red l z k v r q g H) as [-> _]. cbn [mbind option_bind]. rewrite parent_dir.
  assert (rbt true n (T Red l z k v r)) as Hrz by (by cbn).
  destruct C as [|[s c i ki vi sib] C]; cbn [cpar].
  { destruct (tree_in_nil p _ q g H) as (nil & -> & Hb & _). cbn [mbind option_bind]. rewrite Hb. cbn [is_red].
    exists p, (T Red l z k v r), q, n. by split_and!. }
  destruct (tree_in_node p C s c _ i ki vi sib q g H) as [-> _]. cbn [mbind option_bind].
  rewrite color_dir, !parent_dir. destruct c; cbn [is_red].
  2: { destruct (plug_rbt (F s Black i ki vi sib :: C) n _ Hc Hrz) as [h Hh].
       eexists p, _, q, h. split; [done|]. split; [done|]. split; [exact H|]. split; [by apply rbt_mono|done]. }
  destruct Hc as (Hsib & Ha & Hc). destruct C as [|[s2 [] j kj vj u] C]; [done..|]. cbn [cpar].
  destruct (tree_in_node p C s2 Black _ j kj vj u q g H) as [E2 _]. rewrite E2. cbn [mbind option_bind].
  assert ((if left (dir_node s2 Black (cpar C) (idx (join s Red (T Red l z k v r) i ki vi sib)) (idx u) kj vj) =? i
    then SL else SR) = s2) as ->.
  { rewrite idx_join. destruct s2; cbn [dir_node left]; [by rewrite Z.eqb_refl|].
    rewrite (proj2 (Z.eqb_neq _ _)); [done|]. rewrite <- (idx_join s Red (T Red l z k v r) i ki vi sib).
    apply (tree_in_siblings p C SR Black _ j kj vj u q g H). by destruct s. }
  destruct (tcolor u) eqn:Hcu.
  - destruct (insert_side_red p C s s2 _ i ki vi sib j kj vj u n q g Hred Hcu) as (p1 & zz' & E & S1 & R1 & O1).
    cbn [idx] in E. rewrite E. cbn [mbind option_bind].
    destruct (IH p1 C zz' (S n) q R1) as (p' & a & q' & h & E' & S' & H' & Hb' & O'); [cbn in Hf; lia|].
    exists p', a, q', h. split_and!; try done; congruence.
  - destruct (insert_side_black p C s s2 _ i ki vi sib j kj vj u n q g Hred Hcu)
      as (p1 & q1 & C' & zz' & E & S1 & R1 & Hlen & O1).
    cbn [idx] in E. rewrite E. cbn [mbind option_bind].
    destruct (IH p1 C' zz' n q1 R1) as (p' & a & q' & h & E' & S' & H' & Hb' & O'); [cbn in Hf; lia|].
    exists p', a, q', h. split_and!; try done; congruence.
Qed.

Lemma insert_fixup_spec p C zz n q g :
  red_at p C zz n q g ->
  exists p' a q' h, insert_fixup p (idx zz) = Some p' /\ slots p' = slots p /\
    tree_in p' a q' g /\ rbt false h a /\ inorder a = inorder (plug C zz).
Proof.
  intros Hred. unfold insert_fixup.
  destruct (insert_fixup_loop_spec (fuel p) p C zz n q g Hred) as (p1 & a & q1 & h & -> & S1 & H1 & Hb & O1).
  { pose proof (fuel_enough p C zz q g (proj1 Hred)). lia. }
  cbn [mbind option_bind]. rewrite (tree_in_root p1 a q1 g H1).
  destruct (tree_in_blacken p1 [] a q1 g H1) as (p2 & -> & S2 & H2). destruct (blacken_rbt h a Hb) as [h' Hh'].
  eexists p2, _, q1, h'. split; [done|]. split; [congruence|]. split; [exact H2|]. split; [done|].
  cbn. by rewrite inorder_blacken.
Qed.

End Insert.
End RbInsert.
