(* ===== verification/InfraRbRemove.v ===== *)
(** * Removal from the red-black tree

    [short_at] is the situation the fix-up of a removal starts from and keeps:
    a subtree [x] that has one black node too few for its context.  Each round
    moves the defect up, or repairs it by rotations; blackening the node at
    which the loop stops restores the invariant of [InfraRbInsert]. *)

From S2P Require Import Prelude InfraBitmap InfraPool InfraRbTree InfraRbHeap InfraRbInsert.

Module RbRemove.
Import RbTree RbHeap RbInsert.

Section Remove.
Context {K V : Type}.
Implicit Types (a b l r u x near far : @tree K V) (C D : @ctx K V) (p : @t K V).

(** [x] lacks a black node, which blackening a red root would add. *)
Definition short (n : nat) (x : @tree K V) : Prop :=
  tcolor x = Black /\ rbt false n x \/ tcolor x = Red /\ rbt false (S n) (blacken x).

Lemma rbt_short n x : rbt true n x -> short n x.
Proof.
  destruct x as [|[] l i k v r]; cbn; intros H; [by left| |by left].
  right. destruct H as (_ & ? & ?). split; [done|]. by split; apply rbt_mono.
Qed.

Definition short_at (p : @t K V) (C : @ctx K V) (x : @tree K V) (n : nat) (q : Z) (g : list (Z * Node K V)) : Prop :=
  tree_in p (plug C x) q g /\ rctx C (S n) /\ short n x /\ (x = Leaf -> q = cpar C).

Lemma rbt_false_nonleaf red_ok n a : rbt red_ok (S n) a -> a <> Leaf.
Proof. by intros H ->. Qed.

Lemma split_side s a : a <> Leaf -> exists c near i k v far, a = join s c near i k v far /\ idx a = i /\ tcolor a = c.
Proof. destruct a as [|c l i k v r]; [done|]. intros _. destruct s; cbn; eauto 15. Qed.

(** ** The cases of one round, for a black sibling *)

Definition recolor_sibling (s : side) (p : @t K V) (par sib : Z) : option (@t K V * Z) :=
  npar ← node p par;
  p ← node_mut p sib (set_color (color npar));
  p ← node_mut p par (set_color Black);
  nsib ← node p sib;
  p ← node_mut p (child (opp s) nsib) (set_color Black);
  p ← rotate s p par;
  Some (p, root p).

(** The far nephew is red: one rotation repairs the tree. *)
Lemma delete_far_red p C s c x i ki vi near j kj vj far q g :
  tree_in p (plug C (join s c x i ki vi (join s Black near j kj vj far))) q g ->
  exists p' q', recolor_sibling s p i j = Some (p', root p') /\ slots p' = slots p /\
    tree_in p' (plug C (join s c (join s Black x i ki vi near) j kj vj (blacken far))) q' g.
Proof.
  intros H. unfold recolor_sibling. destruct (tree_in_node _ _ _ _ _ _ _ _ _ _ _ H) as [-> _].
  cbn [mbind option_bind]. rewrite color_dir.
  assert (tree_in p (plug (F (opp s) c i ki vi x :: C) (join s Black near j kj vj far)) q g) as Hs
    by (cbn [plug]; by rewrite join_opp).
  destruct (tree_in_recolor p _ s Black c near j kj vj far q g Hs) as (p1 & -> & S1 & H1).
  cbn [mbind option_bind plug] in *. rewrite join_opp in H1.
  destruct (tree_in_recolor p1 C s c Black _ i ki vi _ q g H1) as (p2 & -> & S2 & H2). cbn [mbind option_bind].
  assert (tree_in p2 (plug (F (opp s) Black i ki vi x :: C) (join s c near j kj vj far)) q g) as H2'
    by (cbn [plug]; by rewrite join_opp).
  destruct (tree_in_node _ _ _ _ _ _ _ _ _ _ _ H2') as [-> _]. cbn [mbind option_bind]. rewrite child_opp.
  assert (tree_in p2 (plug (F (opp s) c j kj vj near :: F (opp s) Black i ki vi x :: C) far) q g) as H2''
    by (cbn [plug] in *; by rewrite (join_opp s c far)).
  destruct (tree_in_blacken p2 _ far q g H2'') as (p3 & -> & S3 & H3). cbn [mbind option_bind plug] in *.
  rewrite (join_opp s c (blacken far)), join_opp in H3.
  destruct (rotate_spec s C Black x i ki vi c near j kj vj (blacken far) p3 q g H3) as (p4 & -> & S4 & H4).
  cbn [mbind option_bind]. eexists p4, _. split; [done|]. split; [congruence|exact H4].
Qed.

(** The near nephew is red and the far one black: a rotation at the sibling
    makes the far nephew red. *)
Lemma delete_near_red p C s c x i ki vi n1 m km vm n2 j kj vj far q g :
  tree_in p (plug C (join s c x i ki vi (join s Black (join s Red n1 m km vm n2) j kj vj far))) q g ->
  exists p' q',
    (p ← node_mut p m (set_color Black); p ← node_mut p j (set_color Red);
     p ← rotate (opp s) p j; npar ← node p i; Some (p, child (opp s) npar)) = Some (p', m) /\
    slots p' = slots p /\
    tree_in p' (plug C (join s c x i ki vi (join s Black n1 m km vm (join s Red n2 j kj vj far)))) q' g.
Proof.
  intros H.
  assert (tree_in p (plug (F s Black j kj vj far :: F (opp s) c i ki vi x :: C) (join s Red n1 m km vm n2)) q g) as Hn
    by (cbn [plug]; by rewrite join_opp).
  destruct (tree_in_recolor p _ s Red Black n1 m km vm n2 q g Hn) as (p1 & -> & S1 & H1). cbn [mbind option_bind].
  destruct (tree_in_recolor p1 (F (opp s) c i ki vi x :: C) s Black Red _ j kj vj far q g H1) as (p2 & -> & S2 & H2).
  cbn [mbind option_bind]. rewrite <- (join_opp s Red far), <- (join_opp s Black n2) in H2.
  destruct (rotate_spec (opp s) _ Red far j kj vj Black n2 m km vm n1 p2 q g H2) as (p3 & -> & S3 & H3).
  cbn [mbind option_bind plug] in *. rewrite !(join_opp s) in H3.
  destruct (tree_in_node _ _ _ _ _ _ _ _ _ _ _ H3) as [-> _]. cbn [mbind option_bind].
  rewrite child_opp, idx_join. eexists p3, _. split; [done|]. split; [congruence|exact H3].
Qed.

(** The second half of [delete_fixup_side], which starts with a black sibling. *)
Definition black_sibling (s : side) (p : @t K V) (par sib : Z) : option (@t K V * Z) :=
  nsib ← node p sib;
  let near := child s nsib in
  let far := child (opp s) nsib in
  cn ← color_of p near;
  cf ← color_of p far;
  if negb (is_red cn) && negb (is_red cf) then
    p ← (if sib =? 0 then Some p else node_mut p sib (set_color Red));
    Some (p, par)
  else
    '(p, sib) ← (if negb (is_red cf) then
        p ← node_mut p near (set_color Black);
        p ← node_mut p sib (set_color Red);
        p ← rotate (opp s) p sib;
        npar ← node p par;
        Some (p, child (opp s) npar)
      else Some (p, sib));
    recolor_sibling s p par sib.

Lemma delete_fixup_side_split s p par :
  delete_fixup_side s p par =
    (npar ← node p par;
     let sib := child (opp s) npar in
     cs ← color_of p sib;
     '(p, sib) ← (if is_red cs then
         p ← node_mut p sib (set_color Black);
         p ← node_mut p par (set_color Red);
         p ← rotate s p par;
         npar ← node p par;
         Some (p, child (opp s) npar)
       else Some (p, sib));
     black_sibling s p par sib).
Proof. done. Qed.

(** The tree after a repair is balanced. *)
Lemma repaired_rbt C s c n x i ki vi near j kj vj far :
  rctx (F s c i ki vi (join s Black near j kj vj far) :: C) (S n) -> rbt true n x -> rbt true n near ->
  rbt false (S n) (blacken far) ->
  exists h, rbt false h (plug C (join s c (join s Black x i ki vi near) j kj vj (blacken far))).
Proof.
  intros Hc Hx Hn Hf. assert (rbt false (S n) (join s Black x i ki vi near)) as Hl by (by apply rbt_join_black).
  destruct c; cbn [rctx] in Hc.
  - destruct Hc as (_ & Ha & Hc). apply (plug_rbt C (S n)); [done|]. rewrite Ha. by apply rbt_join_red.
  - destruct Hc as (_ & Hc). apply (plug_rbt C (S (S n))); [done|]. apply rbt_join_black.
    split; by apply rbt_mono.
Qed.

Lemma balanced_short p a h q g : tree_in p a q g -> rbt false h a -> a <> Leaf -> short_at p [] a h q g.
Proof.
  intros H Hb Ha. split; [done|]. split; [done|]. split; [|done]. left. split; [|done].
  destruct a as [|[] l i k v r]; [done| |done]. by destruct Hb.
Qed.

(** How many more rounds there can be: a red node ends the loop. *)
Definition rounds (C : @ctx K V) (x : @tree K V) : nat := if is_red (tcolor x) then O else length C.

Definition round_spec (r : option (@t K V * Z)) (p : @t K V) (a : @tree K V) (len : nat) (g : list (Z * Node K V)) : Prop :=
  exists p' C' X n' q', r = Some (p', idx X) /\ slots p' = slots p /\ short_at p' C' X n' q' g /\
    (rounds C' X <= len)%nat /\ inorder (plug C' X) = inorder a.

Lemma repair_round p C s c x i ki vi near j kj vj far n q g :
  tree_in p (plug C (join s c x i ki vi (join s Black near j kj vj far))) q g ->
  rctx (F s c i ki vi (join s Black near j kj vj far) :: C) (S n) -> rbt true n x -> rbt true n near ->
  rbt true n far -> tcolor far = Red ->
  round_spec (recolor_sibling s p i j) p (plug C (join s c x i ki vi (join s Black near j kj vj far))) 0 g.
Proof.
  intros H Hc Hx Hn Hf Hcf.
  destruct (delete_far_red p C s c x i ki vi near j kj vj far q g H) as (p' & q' & E & S' & H').
  assert (rbt false (S n) (blacken far)) as Hbf.
  { destruct far as [|[] fl fi fk fv fr]; [done| |done]. destruct Hf as (_ & ? & ?). by split; apply rbt_mono. }
  destruct (repaired_rbt C s c n x i ki vi near j kj vj far Hc Hx Hn Hbf) as [h Hh].
  eexists p', [], _, h, q'. split; [by rewrite E, (tree_in_root p' _ q' g H')|]. split; [done|].
  split; [apply balanced_short; [exact H'|done|]|split; [unfold rounds; cbn; by destruct (is_red _)|]].
  - intros E0. apply (f_equal indices) in E0. assert (length (@nil Z) = 0%nat) as Hl by done.
    change (@nil Z) with (@indices K V Leaf) in Hl. rewrite <- E0, indices_plug, indices_join in Hl. done.
  - cbn [plug]. apply inorder_plug. destruct s; cbn; rewrite ?inorder_blacken; by rewrite <- ?app_assoc; cbn; rewrite <- ?app_assoc.
Qed.

Lemma black_sibling_round p C s c x i ki vi sib n q g :
  short_at p (F s c i ki vi sib :: C) x n q g -> tcolor x = Black -> tcolor sib = Black ->
  round_spec (black_sibling s p i (idx sib)) p (plug (F s c i ki vi sib :: C) x)
    (match c with Red => 0 | Black => length C end) g.
Proof.
  intros (H & Hc & Hx & _) Hcx Hcs. destruct Hx as [[_ Hx]|[Hx _]]; [|congruence].
  assert (rbt true (S n) sib) as Hs by (destruct c; destruct Hc as [Hs _]; [by apply rbt_mono|done]).
  destruct (split_side s sib (rbt_false_nonleaf _ _ _ Hs)) as (cs & near & j & kj & vj & far & -> & -> & Hcs').
  assert (cs = Black) as -> by congruence. clear Hcs Hcs'. apply rbt_join_black in Hs as [Hn Hf].
  cbn [plug] in H |- *. unfold black_sibling.
  assert (tree_in p (plug (F (opp s) c i ki vi x :: C) (join s Black near j kj vj far)) q g) as Hsib
    by (cbn [plug]; by rewrite join_opp).
  destruct (tree_in_node _ _ _ _ _ _ _ _ _ _ _ Hsib) as [-> Hj0]. cbn [mbind option_bind]. rewrite child_dir, child_opp.
  rewrite (tree_in_color p (F s Black j kj vj far :: F (opp s) c i ki vi x :: C) near q g Hsib). cbn [mbind option_bind].
  assert (tree_in p (plug (F (opp s) Black j kj vj near :: F (opp s) c i ki vi x :: C) far) q g) as Hfar
    by (cbn [plug] in *; by rewrite (join_opp s Black far)).
  rewrite (tree_in_color p _ far q g Hfar). cbn [mbind option_bind].
  destruct (tcolor far) eqn:Ecf; cbn [is_red negb]; [rewrite andb_false_r; cbn [mbind option_bind]|].
  { destruct (repair_round p C s c x i ki vi near j kj vj far n q g) as (p' & C' & X & n' & q' & ? & ? & ? & ? & ?);
      try done; [by apply rbt_mono|]. exists p', C', X, n', q'. split_and!; try done. lia. }
  destruct (tcolor near) eqn:Ecn; cbn [is_red negb andb].
  - destruct near as [|cn nl ni nk nv nr]; [done|]. cbn in Ecn. subst cn.
    assert (exists n1 n2, T Red nl ni nk nv nr = join s Red n1 ni nk nv n2 /\ rbt false n n1 /\ rbt false n n2)
      as (n1 & n2 & En & Hn1 & Hn2).
    { destruct Hn as (_ & ? & ?). destruct s; [by exists nl, nr|by exists nr, nl]. }
    cbn [idx]. rewrite En in *.
    destruct (delete_near_red p C s c x i ki vi n1 ni nk nv n2 j kj vj far q g H) as (p1 & q1 & -> & S1 & H1).
    cbn [mbind option_bind].
    destruct (repair_round p1 C s c x i ki vi n1 ni nk nv (join s Red n2 j kj vj far) n q1 g H1)
      as (p' & C' & X & n' & q' & E & S' & Hsh & Hlen & O).
    + assert (rbt false (S n) (join s Black n1 ni nk nv (join s Red n2 j kj vj far))) as Hnew.
      { apply rbt_join_black. split; [by apply rbt_mono|]. apply rbt_join_red. split_and!; [done..|].
        by apply rbt_black_root. }
      destruct c; cbn [rctx] in *; [|split; [by apply rbt_mono|tauto]]. tauto.
    + by apply rbt_mono.
    + by apply rbt_mono.
    + apply rbt_join_red. split_and!; [done..|]. by apply rbt_black_root.
    + by destruct s.
    + exists p', C', X, n', q'. split; [done|]. split; [congruence|]. split; [done|]. split; [lia|]. rewrite O.
      apply inorder_plug. destruct s; cbn; by rewrite <- ?app_assoc; cbn; rewrite <- ?app_assoc.
  - rewrite (proj2 (Z.eqb_neq _ _)) by done.
    destruct (tree_in_recolor p _ s Black Red near j kj vj far q g Hsib) as (p1 & -> & S1 & H1).
    cbn [mbind option_bind plug] in *. rewrite join_opp in H1.
    assert (rbt true n (join s Red near j kj vj far)) as Hr.
    { apply rbt_join_red. split_and!; [done|..]; by apply rbt_black_root. }
    exists p1, C, (join s c x i ki vi (join s Red near j kj vj far)), (match c with Red => n | Black => S n end), q.
    rewrite idx_join. split; [done|]. split; [done|]. split; [|split; [unfold rounds; by destruct s, c|]].
    + split; [done|]. split; [destruct c; cbn in Hc; tauto|]. split; [|by destruct s].
      destruct c; [right|left].
      * split; [by destruct s|]. assert (rbt false (S n) (join s Black x i ki vi (join s Red near j kj vj far))) as Hb.
        { apply rbt_join_black. split; [by apply rbt_mono|done]. } by destruct s.
      * split; [by destruct s|]. apply rbt_join_black. split; [by apply rbt_mono|done].
    + apply inorder_plug. by destruct s.
Qed.
(** ** The loop *)

Lemma delete_side_round p C s c x i ki vi sib n q g :
  short_at p (F s c i ki vi sib :: C) x n q g -> tcolor x = Black ->
  round_spec (delete_fixup_side s p i) p (plug (F s c i ki vi sib :: C) x) (length C) g.
Proof.
  intros Hsh Hcx. pose proof Hsh as (H & Hc & Hx & Hq). rewrite delete_fixup_side_split. cbn [plug] in H.
  destruct (tree_in_node _ _ _ _ _ _ _ _ _ _ _ H) as [-> _]. cbn [mbind option_bind]. rewrite child_opp.
  assert (tree_in p (plug (F (opp s) c i ki vi x :: C) sib) q g) as Hs by (cbn [plug]; by rewrite join_opp).
  rewrite (tree_in_color p _ sib q g Hs). cbn [mbind option_bind].
  destruct (tcolor sib) eqn:Ecs; cbn [is_red].
  2: { cbn [mbind option_bind].
       destruct (black_sibling_round p C s c x i ki vi sib n q g Hsh Hcx Ecs) as (p' & C' & X & n' & q' & E & S' & Hs' & Hl & O).
       exists p', C', X, n', q'. split_and!; try done. destruct c; lia. }
  destruct (split_side s sib) as (cs & near & j & kj & vj & far & -> & Ej & Ec).
  { intros ->. done. }
  rewrite Ecs in Ec. subst cs. rewrite idx_join. clear Ej.
  assert (c = Black /\ rbt false (S n) near /\ rbt false (S n) far /\ rctx C (S (S n))) as (-> & Hn & Hf & HC).
  { destruct c; cbn [rctx] in Hc; destruct Hc as (Hr & Hc); apply rbt_join_red in Hr as (? & ? & ?); [done|].
    by split_and!. }
  destruct (tree_in_recolor p _ s Red Black near j kj vj far q g Hs) as (p1 & -> & S1 & H1).
  cbn [mbind option_bind plug] in *. rewrite join_opp in H1.
  destruct (tree_in_recolor p1 C s Black Red x i ki vi _ q g H1) as (p2 & -> & S2 & H2). cbn [mbind option_bind].
  destruct (rotate_spec s C Red x i ki vi Black near j kj vj far p2 q g H2) as (p3 & -> & S3 & H3).
  cbn [mbind option_bind].
  destruct (tree_in_node p3 (F s Black j kj vj far :: C) s Red x i ki vi near _ g H3) as [-> _].
  cbn [mbind option_bind]. rewrite child_opp.
  assert (tcolor near = Black) as Hcn by (destruct near as [|[] ? ? ? ? ?]; [done|by destruct Hn|done]).
  assert (idx near <> 0) as Hn0.
  { destruct near as [|cn nl ni nk nv nr]; [done|].
    exact (proj2 (tree_in_node p3 (F (opp s) Red i ki vi x :: F s Black j kj vj far :: C) SL cn nl ni nk nv nr _ g
      ltac:(cbn [plug]; rewrite join_opp; exact H3))). }
  rewrite (proj2 (Z.eqb_neq _ _)) in H3 by done.
  destruct (black_sibling_round p3 (F s Black j kj vj far :: C) s Red x i ki vi near n q g)
    as (p' & C' & X & n' & q' & E & S' & Hs' & Hl & O).
  - split; [exact H3|]. split; [|split; [done|exact Hq]]. cbn [rctx allows_red]. split_and!; try done. by apply rbt_mono.
  - done.
  - done.
  - exists p', C', X, n', q'. split; [done|]. split; [congruence|]. split; [done|]. split; [lia|]. rewrite O.
    cbn [plug]. apply inorder_plug. destruct s; cbn; by rewrite <- ?app_assoc; cbn; rewrite <- ?app_assoc.
Qed.

Lemma root_in_ctx C x : C <> [] -> idx (plug C x) ∈ cidx C.
Proof.
  revert x. induction C as [|[s c i k v sib] C IH]; intros x; [done|]. intros _. cbn [plug cidx].
  destruct C as [|f C]; [cbn [plug]; rewrite idx_join; apply list_elem_of_here|].
  apply list_elem_of_further, elem_of_app. right. by apply IH.
Qed.

Lemma not_root p C x q g : tree_in p (plug C x) q g -> C <> [] -> idx x <> root p.
Proof.
  intros H HC E. pose proof (tree_in_nodup p _ q g H) as ND. rewrite (tree_in_root p _ q g H) in E.
  pose proof (root_in_ctx C x HC) as Hin. rewrite <- E in Hin. rewrite nodup_plug in ND.
  apply NoDup_cons in ND as [N0 ND]. rewrite !elem_of_app in N0.
  apply NoDup_app in ND as (_ & _ & (_ & Hd & _)%NoDup_app).
  destruct (decide (idx x = 0)) as [E0|Hne%idx_in]; [rewrite E0 in Hin; tauto|by apply (Hd _ Hin)].
Qed.

Lemma delete_fixup_loop_spec fuel0 p C x n q g :
  short_at p C x n q g -> (rounds C x < fuel0)%nat ->
  exists p' C' X q' h, delete_fixup_loop fuel0 p (idx x) = Some (p', idx X) /\ slots p' = slots p /\
    tree_in p' (plug C' X) q' g /\ rbt false h (plug C' (blacken X)) /\ inorder (plug C' X) = inorder (plug C x).
Proof.
  revert p C x n q. induction fuel0 as [|fuel0 IH]; intros p C x n q Hsh Hf; [lia|].
  pose proof Hsh as (H & Hc & Hx & Hq). cbn [delete_fixup_loop].
  destruct C as [|[s c i ki vi sib] C].
  { cbn [plug] in H. rewrite (tree_in_root p x q g H), Z.eqb_refl.
    destruct Hx as [[Hb Hx]|[_ Hx]]; [|by exists p, [], x, q, (S n)].
    exists p, [], x, q, n. split_and!; try done. by destruct x as [|[] ? ? ? ? ?]. }
  rewrite (proj2 (Z.eqb_neq _ _)) by (by apply (not_root p (F s c i ki vi sib :: C) x q g)).
  rewrite (tree_in_color p (F s c i ki vi sib :: C) x q g H). cbn [mbind option_bind].
  destruct Hx as [[Hb Hx]|[Hb Hx]]; rewrite Hb; cbn [is_red].
  2: { destruct (plug_rbt (F s c i ki vi sib :: C) (S n) (blacken x) Hc) as [h Hh].
       { destruct (allows_red _); [by apply rbt_mono|done]. }
       by exists p, (F s c i ki vi sib :: C), x, q, h. }
  assert (exists nx, node p (idx x) = Some nx /\ parent nx = i) as (nx & -> & Hpx).
  { destruct x as [|cx l z k v r]; cbn [idx].
    - destruct (tree_in_nil p _ q g H) as (nil & E & _ & Ep & _). exists nil. split; [done|]. rewrite Ep. by apply Hq.
    - destruct (tree_in_node p (F s c i ki vi sib :: C) SL cx l z k v r q g H) as [E _]. eexists. by split. }
  cbn [mbind option_bind]. rewrite Hpx.
  destruct (tree_in_node p C s c x i ki vi sib q g H) as [E _]. rewrite E. cbn [mbind option_bind].
  assert ((if left (dir_node s c (cpar C) (idx x) (idx sib) ki vi) =? idx x then SL else SR) = s) as ->.
  { destruct s; cbn [dir_node left]; [by rewrite Z.eqb_refl|]. rewrite (proj2 (Z.eqb_neq _ _)); [done|].
    assert (sib <> Leaf) as Hs.
    { destruct c; destruct Hc as [Hc _]; by apply rbt_false_nonleaf in Hc. }
    intros Eq. assert (tree_in p (plug C (join (opp SR) c sib i ki vi x)) q g) as H' by exact H.
    by apply (tree_in_siblings p C (opp SR) c sib i ki vi x q g H' Hs). }
  destruct (delete_side_round p C s c x i ki vi sib n q g Hsh Hb) as (p1 & C1 & X1 & n1 & q1 & -> & S1 & Hs1 & Hl & O1).
  cbn [mbind option_bind]. unfold rounds in Hf at 1. rewrite Hb in Hf. cbn in Hf.
  destruct (IH p1 C1 X1 n1 q1 Hs1) as (p' & C' & X & q' & h & E' & S' & H' & Hb' & O'); [lia|].
  exists p', C', X, q', h. split_and!; try done; congruence.
Qed.

Lemma delete_fixup_spec p C x n q g :
  short_at p C x n q g ->
  exists p' a q' h, delete_fixup p (idx x) = Some p' /\ slots p' = slots p /\
    tree_in p' a q' g /\ rbt false h a /\ inorder a = inorder (plug C x).
Proof.
  intros Hsh. unfold delete_fixup.
  destruct (delete_fixup_loop_spec (fuel p) p C x n q g Hsh) as (p1 & C1 & X & q1 & h & -> & S1 & H1 & Hb & O).
  { pose proof (fuel_enough p C x q g (proj1 Hsh)). unfold rounds. destruct (is_red _); lia. }
  cbn [mbind option_bind]. destruct (tree_in_blacken p1 C1 X q1 g H1) as (p2 & -> & S2 & H2).
  eexists p2, _, q1, h. split; [done|]. split; [congruence|]. split; [exact H2|]. split; [done|].
  rewrite <- O. apply inorder_plug, inorder_blacken.
Qed.

(** ** Unlinking a node *)

Lemma plug_rbt_inv C a h : rbt false h (plug C a) -> exists n, rctx C n /\ rbt (allows_red C) n a.
Proof.
  revert a. induction C as [|[s c i k v sib] C IH]; intros a H; cbn [plug rctx allows_red] in *; [by exists h|].
  destruct (IH _ H) as (n & Hc & Hr). destruct c.
  - apply rbt_join_red in Hr as (? & ? & ?). by exists n.
  - destruct n as [|n]; [by destruct s|]. apply rbt_join_black in Hr as (? & ?). by exists n.
Qed.

(** The context with another node at the place of [z]. *)
Lemma rctx_rename D s c z kz vz y ky vy l C n :
  rctx (D ++ F s c z kz vz l :: C) n -> rctx (D ++ F s c y ky vy l :: C) n.
Proof.
  revert n. induction D as [|[s' c' i k v sib] D IH]; intros n; [done|]. cbn [app rctx]. destruct c'.
  - intros (? & Ha & ?). split; [done|]. split; [by destruct D|auto].
  - intros (? & ?). auto.
Qed.

Lemma allows_red_rename D s c z kz vz y ky vy l C :
  allows_red (D ++ F s c z kz vz l :: C) = allows_red (D ++ F s c y ky vy l :: C).
Proof. by destruct D. Qed.

Lemma leftmost (r : @tree K V) :
  r <> Leaf -> exists D c y k v x S, r = plug D (T c Leaf y k v x) /\
    (forall a, inorder (plug D a) = inorder a ++ S) /\
    (forall p C q g fuel0, tree_in p (plug C r) q g -> (length D < fuel0)%nat ->
       extreme_loop fuel0 SL p (idx r) = Some y).
Proof.
  induction r as [|c l IH i k v r _]; [done|]. intros _. destruct l as [|cl ll il kl vl rl].
  - exists [], c, i, k, v, r, []. split; [done|]. split; [intros; by rewrite app_nil_r|].
    intros p C q g [|fuel0] H Hf; [lia|]. cbn [extreme_loop idx].
    destruct (tree_in_node p C SL c Leaf i k v r q g H) as [-> _]. done.
  - destruct IH as (D & c' & y & k' & v' & x & S & E & HS & Hl); [done|].
    exists (D ++ [F SL c i k v r]), c', y, k', v', x, (S ++ (k, v) :: inorder r).
    split; [rewrite plug_app, <- E; done|]. split.
    { intros a. rewrite plug_app. cbn [plug join inorder]. by rewrite HS, <- app_assoc. }
    intros p C q g [|fuel0] H Hf; [lia|]. rewrite length_app in Hf. cbn [length] in Hf.
    cbn [extreme_loop]. change (idx (T c (T cl ll il kl vl rl) i k v r)) with i.
    destruct (tree_in_node p C SL c _ i k v r q g H) as [-> _].
    cbn [mbind option_bind]. rewrite child_dir.
    assert (idx (T cl ll il kl vl rl) <> 0) as Hne
      by (apply (tree_in_node p (F SL c i k v r :: C) SL cl ll il kl vl rl q g H)).
    rewrite (proj2 (Z.eqb_neq _ _)) by done. apply (Hl p (F SL c i k v r :: C) q g); [exact H|lia].
Qed.

Definition unlink_two (p : @t K V) (z y : Z) (ny : Node K V) : option (@t K V) :=
  if parent ny =? z then adopt_child p (right ny) y z else p ← transplant p y (right ny); adopt_far p y z.

Lemma bind_assoc_option {A B X} (m : option A) (f : A -> option B) (k : B -> option X) :
  ((m ≫= f) ≫= k) = (m ≫= (fun e => f e ≫= k)).
Proof. by destruct m. Qed.

Lemma unlink_two_eq p z nz y ny :
  node p z = Some nz -> left nz <> 0 -> right nz <> 0 -> minimum_index p (right nz) = Some y -> node p y = Some ny ->
  unlink p z = (p ← unlink_two p z y ny; Some (p, right ny, color ny)).
Proof.
  intros Hz Hl Hr Hm Hy. unfold unlink. rewrite Hz. cbn [mbind option_bind].
  rewrite !(proj2 (Z.eqb_neq _ _)) by done. rewrite Hm. cbn [mbind option_bind]. rewrite Hy. cbn [mbind option_bind].
  unfold unlink_two, adopt_child, adopt_far, take_over. destruct (parent ny =? z).
  - repeat (rewrite ?bind_assoc_option; cbn [mbind option_bind];
      match goal with |- (?m ≫= _) = (?m ≫= _) => destruct m; cbn [mbind option_bind]; [|done] end). done.
  - repeat (rewrite ?bind_assoc_option; cbn [mbind option_bind];
      match goal with |- (?m ≫= _) = (?m ≫= _) => destruct m; cbn [mbind option_bind]; [|done] end). done.
Qed.

Lemma inorder_ctx (C : @ctx K V) : exists L R, forall a, inorder (plug C a) = L ++ inorder a ++ R.
Proof.
  induction C as [|[s c i k v sib] C (L & R & IH)]; [exists [], []; intros; by rewrite app_nil_r|].
  destruct s; cbn [plug].
  - exists L, ((k, v) :: inorder sib ++ R). intros a. rewrite IH. cbn. by rewrite <- !app_assoc.
  - exists (L ++ inorder sib ++ [(k, v)]), R. intros a. rewrite IH. cbn. by rewrite <- !app_assoc.
Qed.

(** The state between the unlinking of [z] and the fix-up. *)
Definition unlinked (p : @t K V) (z : Z) (v : V) (lost : Color) (x : Z) (entries : list (K * V)) (g : list (Z * Node K V)) : Prop :=
  exists zn C X q, x = idx X /\ value zn = v /\ inorder (plug C X) = entries /\
    tree_in p (plug C X) q ((z, zn) :: g) /\
    match lost with
    | Red => exists h, rbt false h (plug C X)
    | Black => exists n, short_at p C X n q ((z, zn) :: g)
    end.

Lemma unlinked_intro p z v lost X C q zn n g :
  value zn = v -> tree_in p (plug C X) q ((z, zn) :: g) -> (X = Leaf -> q = cpar C) ->
  match lost with Red => rctx C n /\ rbt false n X | Black => rctx C (S n) /\ rbt true n X end ->
  unlinked p z v lost (idx X) (inorder (plug C X)) g.
Proof.
  intros Hv H Hq Hb. exists zn, C, X, q. split_and!; try done. destruct lost.
  - destruct Hb as [Hc Hr]. apply (plug_rbt C n); [done|]. destruct (allows_red C); [by apply rbt_mono|done].
  - exists n. destruct Hb as [Hc Hr]. split_and!; try done. by apply rbt_short.
Qed.

Lemma value_dir s c par (a b : Z) (k : K) (v : V) : value (dir_node s c par a b k v) = v.
Proof. by destruct s. Qed.

Lemma unlink_one p C s c x z k v h q g :
  tree_in p (plug C (join s c x z k v Leaf)) q g -> rbt false h (plug C (join s c x z k v Leaf)) ->
  exists p', transplant p z (idx x) = Some p' /\ slots p' = slots p /\
    unlinked p' z v c (idx x) (inorder (plug C x)) g.
Proof.
  intros H Hb. destruct (tree_in_transplant p C s c x z k v q g H) as (p' & E & S' & H').
  exists p'. split; [done|]. split; [done|]. destruct (plug_rbt_inv C _ h Hb) as (n & Hc & Hr).
  destruct c.
  - apply rbt_join_red in Hr as (_ & Hx & _).
    apply (unlinked_intro p' z v Red x C _ _ n g (value_dir s Red (cpar C) (idx x) 0 k v) H'); [by intros ->|done].
  - destruct n as [|n]; [by destruct s|]. apply rbt_join_black in Hr as (Hx & _).
    apply (unlinked_intro p' z v Black x C _ _ n g (value_dir s Black (cpar C) (idx x) 0 k v) H'); [by intros ->|done].
Qed.

Lemma unlink_two_spec p C D cz l z kz vz cy y ky vy x h q g :
  l <> Leaf ->
  tree_in p (plug (D ++ F SR cz z kz vz l :: C) (T cy Leaf y ky vy x)) q g ->
  rbt false h (plug (D ++ F SR cz z kz vz l :: C) (T cy Leaf y ky vy x)) ->
  exists p' ny, node p y = Some ny /\ right ny = idx x /\ color ny = cy /\
    unlink_two p z y ny = Some p' /\ slots p' = slots p /\
    unlinked p' z vz cy (idx x) (inorder (plug (D ++ F SR cz y ky vy l :: C) x)) g.
Proof.
  intros Hl H Hb. set (C0 := D ++ F SR cz z kz vz l :: C) in *.
  destruct (tree_in_node p C0 SL cy Leaf y ky vy x q g H) as [Hny Hy0].
  destruct (plug_rbt_inv C0 _ h Hb) as (n & Hc & Hr).
  assert (forall p' q' zn, value zn = vz -> tree_in p' (plug (D ++ F SR cz y ky vy l :: C) x) q' ((z, zn) :: g) ->
    (x = Leaf -> q' = cpar (D ++ F SR cz y ky vy l :: C)) ->
    unlinked p' z vz cy (idx x) (inorder (plug (D ++ F SR cz y ky vy l :: C) x)) g) as Hfin.
  { intros p' q' zn Hv H' Hq. apply (rctx_rename D SR cz z kz vz y ky vy l C n) in Hc. destruct cy.
    - destruct Hr as (_ & _ & Hr). by apply (unlinked_intro p' z vz Red x _ q' zn n g Hv H' Hq).
    - destruct n as [|n]; [done|]. destruct Hr as (_ & Hr).
      by apply (unlinked_intro p' z vz Black x _ q' zn n g Hv H' Hq). }
  rewrite Hny. cbn [dir_node].
  destruct D as [|f D]; subst C0.
  - cbn [app plug join cpar] in *.
    destruct (tree_in_adopt_child p C cz l z kz vz cy y ky vy x q g Hl H) as (p' & E & S' & H').
    exists p', (mk_node cy z 0 (idx x) ky vy). split_and!; try done.
    + unfold unlink_two. cbn [parent right]. by rewrite Z.eqb_refl.
    + eapply Hfin; [|exact H'|by intros ->]. done.
  - destruct (tree_in_transplant p (f :: D ++ F SR cz z kz vz l :: C) SR cy x y ky vy q g H) as (p1 & E1 & S1 & H1).
    assert (plug (f :: D) x <> Leaf) as HrD.
    { destruct f as [s' c' i' k' v' sib']. cbn [plug]. intros E0. apply (f_equal indices) in E0.
      assert (length (indices (plug D (join s' c' x i' k' v' sib'))) = 0%nat) as Hlen by (by rewrite E0).
      by rewrite indices_plug, indices_join in Hlen. }
    cbn [app] in H1 |- *. rewrite app_comm_cons, plug_app in H1. cbn [plug join] in H1.
    assert (cpar (f :: D ++ F SR cz z kz vz l :: C) <> z) as Hpz.
    { intros E0. apply tree_in_nodup in H. rewrite nodup_plug in H.
      apply NoDup_cons in H as [_ H]. apply NoDup_app in H as (_ & _ & (H & _)%NoDup_app).
      destruct f as [s' c' i' k' v' sib']. cbn [cpar] in E0. subst i'. cbn [cidx] in H.
      apply NoDup_cons in H as [H _]. apply H, elem_of_app. right. clear.
      induction D as [|[] D IH]; cbn [app cidx]; [apply list_elem_of_here|].
      apply list_elem_of_further, elem_of_app. by right. }
    destruct (tree_in_adopt_far p1 C cz l z kz vz (plug (f :: D) x) y _ _ _ _ ky vy _ g Hl HrD H1) as (p2 & E2 & S2 & H2).
    eexists p2, _. split; [done|]. split; [done|]. split; [done|].
    split; [unfold unlink_two; cbn [parent right]; rewrite (proj2 (Z.eqb_neq _ _)) by exact Hpz; by rewrite E1|].
    split; [congruence|]. eapply Hfin; [|cbn [app]; rewrite app_comm_cons, plug_app; exact H2|].
    + done.
    + intros ->. by destruct f.
Qed.

Lemma leaf_or (a : @tree K V) : a = Leaf \/ a <> Leaf.
Proof. destruct a; [by left|by right]. Qed.

Lemma unlink_spec p C c l z k v r h q g :
  tree_in p (plug C (T c l z k v r)) q g -> rbt false h (plug C (T c l z k v r)) ->
  exists p' (xi : Z) lost L R, unlink p z = Some (p', xi, lost) /\ slots p' = slots p /\
    inorder (plug C (T c l z k v r)) = L ++ (k, v) :: R /\ unlinked p' z v lost xi (L ++ R) g.
Proof.
  intros H Hb. destruct (inorder_ctx C) as (L & R & HLR).
  destruct (tree_in_node p C SL c l z k v r q g H) as [Hz _]. cbn [dir_node] in Hz.
  destruct (leaf_or l) as [->|Hl].
  { destruct (unlink_one p C SR c r z k v h q g H Hb) as (p' & E & S' & U).
    exists p', (idx r), c, L, (inorder r ++ R). unfold unlink. rewrite Hz. cbn [mbind option_bind left right color idx].
    rewrite Z.eqb_refl, E. split; [done|]. split; [done|]. rewrite !HLR in *. by cbn. }
  destruct (leaf_or r) as [->|Hr].
  { destruct (unlink_one p C SL c l z k v h q g H Hb) as (p' & E & S' & U).
    assert (idx l <> 0) as Hl0.
    { destruct l as [|cl ll il kl vl rl]; [done|].
      apply (tree_in_node p (F SL c z k v Leaf :: C) SL cl ll il kl vl rl q g H). }
    exists p', (idx l), c, (L ++ inorder l), R. unfold unlink. rewrite Hz. cbn [mbind option_bind left right color].
    rewrite (proj2 (Z.eqb_neq _ _)), Z.eqb_refl, E by done. split; [done|]. split; [done|].
    rewrite !HLR in *. cbn. rewrite <- !app_assoc. split; [done|]. by rewrite <- app_assoc in U || done. }
  destruct (leftmost r Hr) as (D & cy & y & ky & vy & x & S & -> & HS & Hmin).
  assert (idx l <> 0 /\ idx (plug D (T cy Leaf y ky vy x)) <> 0) as [Hl0 Hr0].
  { split.
    - destruct l as [|cl ll il kl vl rl]; [done|].
      apply (tree_in_node p (F SL c z k v (plug D (T cy Leaf y ky vy x)) :: C) SL cl ll il kl vl rl q g H).
    - destruct (plug D (T cy Leaf y ky vy x)) as [|cr lr ir kr vr rr]; [done|].
      apply (tree_in_node p (F SR c z k v l :: C) SL cr lr ir kr vr rr q g H). }
  assert (plug C (T c l z k v (plug D (T cy Leaf y ky vy x))) =
    plug (D ++ F SR c z k v l :: C) (T cy Leaf y ky vy x)) as Eplug by (by rewrite plug_app).
  pose proof H as H0. rewrite Eplug in H, Hb.
  destruct (unlink_two_spec p C D c l z k v cy y ky vy x h q g Hl H Hb) as (p' & ny & Hny & Hnr & Hnc & E & S' & U).
  exists p', (idx x), cy, (L ++ inorder l), ((ky, vy) :: inorder x ++ S ++ R).
  rewrite (unlink_two_eq p z _ y ny Hz Hl0 Hr0).
  - rewrite E. cbn [mbind option_bind]. rewrite Hnr, Hnc. split; [done|]. split; [done|]. rewrite HLR. cbn [inorder].
    rewrite HS. cbn [inorder app]. rewrite <- !app_assoc. cbn [app]. rewrite <- !app_assoc. split; [done|].
    rewrite plug_app in U. cbn [plug join] in U. rewrite HLR in U. cbn [inorder] in U.
    rewrite HS, <- !app_assoc in U. cbn [app] in U. by rewrite <- app_assoc in U.
  - cbn [right]. unfold minimum_index. apply (Hmin p (F SR c z k v l :: C) q g); [exact H0|].
    pose proof (fuel_enough p _ _ q g H) as Hf. rewrite length_app in Hf. lia.
  - done.
Qed.

(** The rest of [remove], once the node is found. *)
Definition remove_at (p : @t K V) (z : Z) : option (@t K V * option V) :=
  '(p, x, lost) ← unlink p z;
  p ← (if is_red lost then Some p else delete_fixup p x);
  '(p, removed) ← Pool.remove p z;
  Some (p, option_map value removed).

Lemma remove_at_spec p C c l z k v r h q g :
  tree_in p (plug C (T c l z k v r)) q g -> rbt false h (plug C (T c l z k v r)) ->
  exists p' a q' h' L R, remove_at p z = Some (p', Some v) /\ slots p' = slots p /\
    tree_in p' a q' g /\ rbt false h' a /\
    inorder (plug C (T c l z k v r)) = L ++ (k, v) :: R /\ inorder a = L ++ R.
Proof.
  intros H Hb. unfold remove_at.
  destruct (unlink_spec p C c l z k v r h q g H Hb) as (p1 & x & lost & L & R & -> & S1 & HO & U).
  cbn [mbind option_bind]. destruct U as (zn & C1 & X & q1 & -> & Hv & HO1 & H1 & Hbal).
  assert (forall p2 a q2 h2, slots p2 = slots p1 -> tree_in p2 a q2 ((z, zn) :: g) -> rbt false h2 a -> inorder a = L ++ R ->
    exists p' a q' h' L R, ('(p, removed) ← Pool.remove p2 z; Some (p, option_map value removed)) = Some (p', Some v) /\
    slots p' = slots p /\ tree_in p' a q' g /\ rbt false h' a /\
    inorder (plug C (T c l z k v r)) = L ++ (k, v) :: R /\ inorder a = L ++ R) as Hfin.
  { intros p2 a q2 h2 S2 H2 Hb2 HO2. destruct (tree_in_release p2 a q2 z zn g H2) as (p3 & -> & S3 & H3).
    cbn [mbind option_bind option_map]. exists p3, a, q2, h2, L, R. split_and!; try done; [by rewrite Hv|by rewrite S3, S2]. }
  destruct lost; cbn [is_red mbind option_bind].
  - destruct Hbal as [h1 Hb1]. by apply (Hfin p1 (plug C1 X) q1 h1).
  - destruct Hbal as [n Hsh].
    destruct (delete_fixup_spec p1 C1 X n q1 _ Hsh) as (p2 & a & q2 & h2 & -> & S2 & H2 & Hb2 & O2).
    apply (Hfin p2 a q2 h2); try done. congruence.
Qed.

End Remove.
End RbRemove.
