(* ===== verification/InfraRbOps.v ===== *)
(** * The red-black tree as an ordered map

    What [crates/hammer-infra/src/rbtree.rs] promises its callers: a tree
    stands for the list of its entries in key order ([entries_of]), and every
    public operation acts on that list as the obvious operation on a sorted
    list.  Searches, neighbours, insertion, removal and iteration are related to
    the shape of the tree here; the rotations and the fix-up loops are in
    [InfraRbHeap], [InfraRbInsert] and [InfraRbRemove].

    The keys are ordered by [cmp] on a domain [dom] only: sequence numbers of
    TCP compare modulo 2^32, which orders a window and not the whole type. *)

From S2P Require Import Prelude InfraBitmap InfraPool InfraRbTree InfraRbHeap InfraRbInsert InfraRbRemove.

Module RbOps.
Import RbTree RbHeap RbInsert RbRemove.

(** What [Ord] has to promise on the keys in use. *)
Class KeyOrder {K : Type} (cmp : K -> K -> comparison) (dom : K -> Prop) : Prop := {
  key_eq : forall x y, dom x -> dom y -> cmp x y = Eq <-> x = y;
  key_swap : forall x y, dom x -> dom y -> cmp y x = CompOpp (cmp x y);
  key_trans : forall x y z, dom x -> dom y -> dom z -> cmp x y = Lt -> cmp y z = Lt -> cmp x z = Lt
}.

Section Ops.
Context {K V : Type} (cmp : K -> K -> comparison) (dom : K -> Prop) `{Ord : !KeyOrder cmp dom}.
Implicit Types (a l r : @tree K V) (C D : @ctx K V) (p : @t K V) (k : K) (v : V) (es L R : list (K * V)).

(** ** Sorted lists of entries *)

Definition sorted es : Prop := StronglySorted (fun e f => cmp e.1 f.1 = Lt) es.
Definition keys_in es : Prop := Forall (fun e => dom e.1) es.

(** [L] is below the key and [R] above it. *)
Definition below k es : Prop := Forall (fun e => cmp k e.1 = Gt) es.
Definition above k es : Prop := Forall (fun e => cmp k e.1 = Lt) es.

Fixpoint lookup_in k es : option V :=
  match es with
  | [] => None
  | (k', v) :: es => match cmp k k' with Eq => Some v | _ => lookup_in k es end
  end.
Fixpoint insert_in k v es : list (K * V) :=
  match es with
  | [] => [(k, v)]
  | (k', v') :: es =>
    match cmp k k' with
    | Lt => (k, v) :: (k', v') :: es
    | Eq => (k', v) :: es
    | Gt => (k', v') :: insert_in k v es
    end
  end.
Fixpoint update_in k (f : V -> V) es : list (K * V) :=
  match es with
  | [] => []
  | (k', v) :: es => match cmp k k' with Eq => (k', f v) :: es | _ => (k', v) :: update_in k f es end
  end.
Definition remove_in k es : list (K * V) := filter (fun e => cmp k e.1 <> Eq) es.
Definition less_in k es : list (K * V) := filter (fun e => cmp k e.1 = Gt) es.
Definition greater_in k es : list (K * V) := filter (fun e => cmp k e.1 = Lt) es.

Lemma sorted_app L R : sorted (L ++ R) <-> sorted L /\ sorted R /\ (forall e f, e ∈ L -> f ∈ R -> cmp e.1 f.1 = Lt).
Proof.
  unfold sorted. induction L as [|e L IH]; cbn.
  - split; [intros; split_and!; [constructor|done|]; intros ?? []%not_elem_of_nil|naive_solver].
  - rewrite !StronglySorted_cons, IH, Forall_app, !Forall_forall. split.
    + intros [[H1 H2] (H3 & H4 & H5)]. split_and!; try done. intros e' f [->|He]%elem_of_cons Hf; auto.
    + intros ((H1 & H2) & H3 & H4). split_and!; try done.
      * intros f Hf. apply H4; [by apply elem_of_cons; left|done].
      * intros e' f He Hf. apply H4; [by apply elem_of_cons; right|done].
Qed.

Lemma keys_in_app L R : keys_in (L ++ R) <-> keys_in L /\ keys_in R.
Proof. apply Forall_app. Qed.

Lemma cmp_refl k : dom k -> cmp k k = Eq.
Proof. intros. by apply (key_eq (dom := dom)). Qed.

Lemma cmp_gt k k' : dom k -> dom k' -> cmp k k' = Gt <-> cmp k' k = Lt.
Proof. intros H H'. rewrite (key_swap (dom := dom) k' k) by done. by destruct (cmp k' k). Qed.

(** A key compared with a root compares with one of its subtrees too. *)
Lemma above_right k k' v' es :
  dom k -> keys_in ((k', v') :: es) -> sorted ((k', v') :: es) -> cmp k k' <> Gt -> above k es.
Proof.
  intros Hk [Hk' Hd]%Forall_cons [Hr _]%StronglySorted_cons Hc. apply Forall_forall. intros e He.
  rewrite Forall_forall in Hr. specialize (Hr e He). cbn in Hr, Hk'.
  unfold keys_in in Hd. rewrite Forall_forall in Hd. specialize (Hd e He). destruct (cmp k k') eqn:E; [|..|done].
  - apply (key_eq (dom := dom)) in E as ->; done.
  - by apply (key_trans (dom := dom) k k' e.1).
Qed.

Lemma below_left k k' v' es :
  dom k -> keys_in (es ++ [(k', v')]) -> sorted (es ++ [(k', v')]) -> cmp k k' <> Lt -> below k es.
Proof.
  intros Hk [Hd [Hk' _]%Forall_cons]%Forall_app (_ & _ & Hl)%sorted_app Hc. apply Forall_forall. intros e He.
  specialize (Hl e (k', v') He (list_elem_of_here _ _)). cbn in Hl, Hk'.
  rewrite Forall_forall in Hd. specialize (Hd e He). apply cmp_gt; [done..|]. destruct (cmp k k') eqn:E; [|done|].
  - apply (key_eq (dom := dom)) in E as ->; done.
  - apply (key_trans (dom := dom) e.1 k' k); try done. by apply cmp_gt.
Qed.

Lemma insert_in_skip k v L R : below k L -> insert_in k v (L ++ R) = L ++ insert_in k v R.
Proof. induction 1 as [|[k' v'] L Hc _ IH]; [done|]. cbn in *. by rewrite Hc, IH. Qed.
Lemma update_in_skip k f L R : below k L -> update_in k f (L ++ R) = L ++ update_in k f R.
Proof. induction 1 as [|[k' v'] L Hc _ IH]; [done|]. cbn in *. by rewrite Hc, IH. Qed.
Lemma lookup_in_skip k L R : below k L -> lookup_in k (L ++ R) = lookup_in k R.
Proof. induction 1 as [|[k' v'] L Hc _ IH]; [done|]. cbn in *. by rewrite Hc, IH. Qed.

Lemma lookup_in_above k R : above k R -> lookup_in k R = None.
Proof. induction 1 as [|[k' v'] R Hc _ IH]; [done|]. cbn in *. by rewrite Hc. Qed.
Lemma insert_in_above k v R : above k R -> insert_in k v R = (k, v) :: R.
Proof. destruct 1 as [|[k' v'] R Hc _]; [done|]. cbn in *. by rewrite Hc. Qed.
Lemma update_in_above k f R : above k R -> update_in k f R = R.
Proof. induction 1 as [|[k' v'] R Hc _ IH]; [done|]. cbn in *. by rewrite Hc, IH. Qed.

Lemma remove_in_id k es : Forall (fun e => cmp k e.1 <> Eq) es -> remove_in k es = es.
Proof.
  induction 1 as [|e es He _ IH]; [done|]. unfold remove_in in *. by rewrite filter_cons_True, IH.
Qed.

Lemma below_not_eq k es : below k es -> Forall (fun e => cmp k e.1 <> Eq) es.
Proof. intros H. eapply Forall_impl; [exact H|]. by intros e ->. Qed.
Lemma above_not_eq k es : above k es -> Forall (fun e => cmp k e.1 <> Eq) es.
Proof. intros H. eapply Forall_impl; [exact H|]. by intros e ->. Qed.

Lemma remove_in_split k v L R : dom k -> below k L -> above k R -> remove_in k (L ++ (k, v) :: R) = L ++ R.
Proof.
  intros Hk HL HR. unfold remove_in. rewrite filter_app, filter_cons_False by (intros Hn; by apply Hn, cmp_refl).
  f_equal; apply remove_in_id; [by apply below_not_eq|by apply above_not_eq].
Qed.

(** The entries around a key that is present. *)
Lemma split_found k v L R :
  keys_in (L ++ (k, v) :: R) -> sorted (L ++ (k, v) :: R) -> dom k /\ below k L /\ above k R.
Proof.
  intros Hd Hs. assert (dom k) as Hk.
  { apply keys_in_app in Hd as [_ [Hk _]%Forall_cons]. done. }
  split; [done|]. rewrite (cons_middle (k, v) L R), app_assoc in Hd, Hs. split.
  - apply (below_left k k v L Hk); [by apply keys_in_app in Hd as [? _]|by apply sorted_app in Hs as [? _]|].
    by rewrite (cmp_refl k).
  - rewrite <- app_assoc in Hd, Hs. apply (above_right k k v R Hk); [by apply keys_in_app in Hd as [_ ?]|by apply sorted_app in Hs as (_ & ? & _)|].
    by rewrite (cmp_refl k).
Qed.

(** ** Searching *)

(** The search for [k] takes the turns of the context. *)
Fixpoint path k C : Prop :=
  match C with
  | [] => True
  | F s _ _ k' _ _ :: C => cmp k k' = (match s with SL => Lt | SR => Gt end) /\ path k C
  end.

Lemma path_app k C D : path k (D ++ C) <-> path k D /\ path k C.
Proof. induction D as [|[s c i k' v' sib] D IH]; cbn; [tauto|]. rewrite IH. tauto. Qed.

Lemma locate k a :
  keys_in (inorder a) -> dom k ->
  (exists D c l i v r, a = plug D (T c l i k v r) /\ path k D) \/ (exists D, a = plug D Leaf /\ path k D).
Proof.
  intros Hd Hk. induction a as [|c l IHl i k' v' r IHr]; [right; by exists []|]. cbn in Hd.
  apply keys_in_app in Hd as [Hl [Hk' Hr]%Forall_cons]. destruct (cmp k k') eqn:E.
  - apply (key_eq (dom := dom)) in E as <-; [|done..]. left. by exists [], c, l, i, v', r.
  - destruct (IHl Hl) as [(D & c1 & l1 & i1 & v1 & r1 & -> & HD)|(D & -> & HD)]; [left|right].
    + exists (D ++ [F SL c i k' v' r]), c1, l1, i1, v1, r1. rewrite plug_app, path_app. by cbn.
    + exists (D ++ [F SL c i k' v' r]). rewrite plug_app, path_app. by cbn.
  - destruct (IHr Hr) as [(D & c1 & l1 & i1 & v1 & r1 & -> & HD)|(D & -> & HD)]; [left|right].
    + exists (D ++ [F SR c i k' v' l]), c1, l1, i1, v1, r1. rewrite plug_app, path_app. by cbn.
    + exists (D ++ [F SR c i k' v' l]). rewrite plug_app, path_app. by cbn.
Qed.

(** What the turns say of the entries around the hole. *)
Lemma path_inorder k C x :
  path k C -> dom k -> keys_in (inorder (plug C x)) -> sorted (inorder (plug C x)) ->
  exists L R, (forall y, inorder (plug C y) = L ++ inorder y ++ R) /\ below k L /\ above k R.
Proof.
  revert x. induction C as [|[s c i k' v' sib] C IH]; intros x HP Hk Hd Hs.
  { exists [], []. split; [intros; by rewrite app_nil_r|]. split; constructor. }
  destruct HP as [Hc HP]. cbn [plug] in *. destruct (IH _ HP Hk Hd Hs) as (L & R & E & HL & HR).
  rewrite E in Hd, Hs. apply keys_in_app in Hd as [_ [Hd _]%keys_in_app].
  apply sorted_app in Hs as (_ & (Hs & _)%sorted_app & _). destruct s; cbn [join inorder] in Hd, Hs.
  - apply keys_in_app in Hd as [_ Hd]. apply sorted_app in Hs as (_ & Hs & _).
    exists L, ((k', v') :: inorder sib ++ R). split; [intros y; rewrite E; cbn; by rewrite <- !app_assoc|].
    split; [done|]. constructor; [done|]. apply Forall_app. split; [|done].
    apply (above_right k k' v'); try done. by rewrite Hc.
  - rewrite cons_middle, app_assoc in Hd, Hs. apply keys_in_app in Hd as [Hd _]. apply sorted_app in Hs as (Hs & _).
    exists (L ++ inorder sib ++ [(k', v')]), R. split; [intros y; rewrite E; cbn; by rewrite <- !app_assoc|].
    split; [|done]. apply Forall_app. split; [done|]. apply Forall_app. split; [|by constructor].
    apply (below_left k k' v'); try done. by rewrite Hc.
Qed.

Lemma find_loop_path n p C D x k q g :
  tree_in p (plug C (plug D x)) q g -> path k D ->
  find_loop cmp (length D + n) p k (idx (plug D x)) = find_loop cmp n p k (idx x).
Proof.
  revert C. induction D as [|[s c i k' v' sib] D IH] using rev_ind; intros C H HP; [done|].
  rewrite plug_app in H |- *. apply path_app in HP as [HP [Hc _]]. cbn [plug] in *.
  rewrite length_app, Nat.add_1_r. cbn [plus find_loop]. rewrite idx_join.
  destruct (tree_in_node p C s c _ i k' v' sib q g H) as [-> Hi]. rewrite (proj2 (Z.eqb_neq _ _)) by done.
  cbn [mbind option_bind]. rewrite <- (IH (F s c i k' v' sib :: C) H HP).
  destruct s; cbn [dir_node key left right]; by rewrite Hc.
Qed.

Lemma insert_descend_path n p C D x k q g :
  tree_in p (plug C (plug D x)) q g -> path k D ->
  insert_descend cmp (length D + n) p k (cpar C) (idx (plug D x)) = insert_descend cmp n p k (cpar (D ++ C)) (idx x).
Proof.
  revert C. induction D as [|[s c i k' v' sib] D IH] using rev_ind; intros C H HP; [done|].
  rewrite plug_app in H |- *. apply path_app in HP as [HP [Hc _]]. cbn [plug] in *.
  rewrite length_app, Nat.add_1_r. cbn [plus insert_descend]. rewrite idx_join.
  destruct (tree_in_node p C s c _ i k' v' sib q g H) as [-> Hi]. rewrite (proj2 (Z.eqb_neq _ _)) by done.
  cbn [mbind option_bind]. rewrite <- app_assoc. cbn [app].
  rewrite <- (IH (F s c i k' v' sib :: C) H HP).
  destruct s; cbn [dir_node key left right cpar]; by rewrite Hc.
Qed.

(** The two outcomes of a search, with the entries around the key. *)
Lemma find_outcome n p a q g k :
  tree_in p a q g -> keys_in (inorder a) -> sorted (inorder a) -> dom k ->
  (forall D x, a = plug D x -> (length D < n)%nat) ->
  (exists D c l i v r L R, a = plug D (T c l i k v r) /\ find_loop cmp n p k (root p) = Some (Some i) /\
    insert_descend cmp n p k 0 (root p) = Some (inr i) /\
    (forall v', inorder (plug D (T c l i k v' r)) = L ++ (k, v') :: R) /\ below k L /\ above k R) \/
  (exists D L R, a = plug D Leaf /\ find_loop cmp n p k (root p) = Some None /\
    insert_descend cmp n p k 0 (root p) = Some (inl (cpar D)) /\ path k D /\
    (forall y, inorder (plug D y) = L ++ inorder y ++ R) /\ below k L /\ above k R).
Proof.
  intros H Hd Hs Hk Hn. rewrite (tree_in_root p a q g H).
  destruct (locate k a Hd Hk) as [(D & c & l & i & v & r & -> & HP)|(D & -> & HP)].
  - left. pose proof (Hn D _ eq_refl) as Hlt. replace n with (length D + S (n - length D - 1))%nat by lia.
    rewrite (find_loop_path _ p [] D _ k q g H HP), (insert_descend_path _ p [] D _ k q g H HP : _ = _).
    destruct (tree_in_node p D SL c l i k v r q g H) as [E Hi]. cbn [find_loop insert_descend idx].
    rewrite (proj2 (Z.eqb_neq _ _)), E by done. cbn [mbind option_bind dir_node key]. rewrite (cmp_refl k) by done.
    destruct (path_inorder k D _ HP Hk Hd Hs) as (L & R & EI & HL & HR). rewrite EI in Hd, Hs. cbn [inorder] in Hd, Hs.
    exists D, c, l, i, v, r, (L ++ inorder l), (inorder r ++ R). do 3 (split; [done|]).
    split; [intros v'; rewrite EI; cbn [inorder]; by rewrite <- !app_assoc|].
    rewrite <- !app_assoc in Hd, Hs. cbn [app] in Hd, Hs. rewrite app_assoc in Hd, Hs. by apply (split_found k v).
  - right. pose proof (Hn D _ eq_refl) as Hlt. replace n with (length D + S (n - length D - 1))%nat by lia.
    rewrite (find_loop_path _ p [] D _ k q g H HP), (insert_descend_path _ p [] D _ k q g H HP : _ = _).
    destruct (path_inorder k D _ HP Hk Hd Hs) as (L & R & EI & HL & HR).
    exists D, L, R. rewrite app_nil_r. by split_and!.
Qed.
(** ** The map a tree stands for *)

Definition entries_of p es : Prop :=
  exists a q h, tree_in p a q [] /\ rbt false h a /\ inorder a = es /\ sorted es /\ keys_in es.

Lemma path_fuel p a q g : tree_in p a q g -> forall D x, a = plug D x -> (length D < fuel p)%nat.
Proof. intros H D x ->. pose proof (fuel_enough p D x q g H). lia. Qed.

Lemma length_inorder a : length (inorder a) = length (indices a).
Proof. induction a as [|c l IHl i k v r IHr]; [done|]. cbn. rewrite !length_app. cbn. lia. Qed.

Lemma entries_len p es : entries_of p es -> Pool.len p = 1 + vlen es /\ len p = vlen es /\ is_empty p = bool_decide (es = []).
Proof.
  intros (a & q & h & H & _ & <- & _). pose proof (tree_in_size p a q [] H) as Hl. change (vlen []) with 0 in Hl.
  assert (vlen (indices a) = vlen (inorder a)) as E by (unfold vlen; by rewrite length_inorder). rewrite E in Hl.
  pose proof (vlen_nonneg (inorder a)). split; [lia|]. split; [unfold len, saturating_sub; lia|].
  unfold is_empty. rewrite (tree_in_root p a q [] H). destruct a as [|c l i k v r]; [done|].
  destruct (tree_in_node p [] SL c l i k v r q [] H) as [_ Hi]. cbn [idx]. rewrite (proj2 (Z.eqb_neq _ _)) by done.
  rewrite bool_decide_false; [done|]. cbn. by destruct (inorder l).
Qed.

Lemma rb_find_node_spec p es k :
  entries_of p es -> dom k ->
  exists i, find_node cmp p k = Some i /\
    match i with None => lookup_in k es = None | Some j => exists v, lookup_in k es = Some v /\ entry_at p j = Some (k, v) end.
Proof.
  intros (a & q & h & H & Hb & <- & Hs & Hd) Hk. unfold find_node.
  destruct (find_outcome (fuel p) p a q [] k H Hd Hs Hk (path_fuel p a q [] H))
    as [(D & c & l & i & v & r & L & R & -> & -> & _ & EI & HL & HR)|(D & L & R & -> & -> & _ & _ & EI & HL & HR)].
  - exists (Some i). split; [done|]. exists v. rewrite EI, lookup_in_skip by done. cbn. rewrite (cmp_refl k) by done.
    split; [done|]. unfold entry_at. by destruct (tree_in_node p D SL c l i k v r q [] H) as [-> _].
  - exists None. split; [done|]. rewrite EI, lookup_in_skip by done. by apply lookup_in_above.
Qed.

Lemma rb_get_spec p es k : entries_of p es -> dom k -> get cmp p k = Some (lookup_in k es).
Proof.
  intros H Hk. unfold get. destruct (rb_find_node_spec p es k H Hk) as ([j|] & -> & E); cbn [mbind option_bind]; [|by rewrite E].
  destruct E as (v & -> & E). unfold entry_at in E. destruct (node p j) as [n|]; [|done]. cbn in E. by simplify_eq.
Qed.

Lemma rb_contains_key_spec p es k :
  entries_of p es -> dom k -> contains_key cmp p k = Some (bool_decide (is_Some (lookup_in k es))).
Proof.
  intros H Hk. unfold contains_key. destruct (rb_find_node_spec p es k H Hk) as ([j|] & -> & E); cbn [mbind option_bind].
  - destruct E as (v & -> & _). done.
  - by rewrite E.
Qed.

Lemma sorted_replace L k v v' R : sorted (L ++ (k, v) :: R) -> sorted (L ++ (k, v') :: R).
Proof.
  rewrite !sorted_app. unfold sorted. rewrite !StronglySorted_cons. cbn. intros (H1 & [H2 H3] & H4). split_and!; try done.
  intros e f He [->|Hf]%elem_of_cons; [apply (H4 e (k, v) He); by left|apply H4; [done|by right]].
Qed.

Lemma keys_in_replace L k v v' R : keys_in (L ++ (k, v) :: R) -> keys_in (L ++ (k, v') :: R).
Proof. unfold keys_in. rewrite !Forall_app, !Forall_cons. done. Qed.

Lemma sorted_delete L e R : sorted (L ++ e :: R) -> sorted (L ++ R).
Proof.
  rewrite !sorted_app. unfold sorted. rewrite !StronglySorted_cons. intros (H1 & [H2 H3] & H4). split_and!; try done.
  intros f f' He Hf. apply H4; [done|by right].
Qed.

Lemma sorted_insert L k v R : keys_in (L ++ R) -> dom k -> below k L -> above k R -> sorted (L ++ R) -> sorted (L ++ (k, v) :: R).
Proof.
  intros [Hd _]%keys_in_app Hk HL HR (H1 & H2 & H3)%sorted_app. apply sorted_app. unfold sorted. rewrite StronglySorted_cons. split_and!; try done.
  unfold below, keys_in in *. rewrite Forall_forall in Hd, HL. intros e f He [->|Hf]%elem_of_cons; [|by apply H3]. cbn.
  apply cmp_gt; auto.
Qed.

(** Changing the value of a node. *)
Lemma replace_value p D c l i k v r h q v' L R (f : Node K V -> Node K V) :
  (forall n : Node K V, value n = v -> f n = set_value v' n) ->
  tree_in p (plug D (T c l i k v r)) q [] -> rbt false h (plug D (T c l i k v r)) ->
  (forall v', inorder (plug D (T c l i k v' r)) = L ++ (k, v') :: R) ->
  sorted (L ++ (k, v) :: R) -> keys_in (L ++ (k, v) :: R) ->
  exists p', node_mut p i f = Some p' /\ slots p' = slots p /\ entries_of p' (L ++ (k, v') :: R).
Proof.
  intros Hf H Hb HI Hs Hd.
  destruct (tree_in_touch p D SL c l i k v r q [] f c v') as (p' & E & S' & H'); [|exact H|].
  { intros par x y. by rewrite Hf. }
  exists p'. split; [done|]. split; [done|]. destruct (plug_rbt_inv D _ h Hb) as (n & Hc & Hr).
  destruct (plug_rbt D n (T c l i k v' r) Hc Hr) as [h' Hb'].
  exists (plug D (T c l i k v' r)), q, h'. split_and!; [done..|by eapply sorted_replace|by eapply keys_in_replace].
Qed.

Lemma rb_get_mut_spec p es k f :
  entries_of p es -> dom k ->
  exists p', get_mut cmp p k f = Some (p', bool_decide (is_Some (lookup_in k es))) /\ slots p' = slots p /\
    entries_of p' (update_in k f es).
Proof.
  intros H0 Hk. pose proof H0 as (a & q & h & H & Hb & <- & Hs & Hd). unfold get_mut, find_node.
  destruct (find_outcome (fuel p) p a q [] k H Hd Hs Hk (path_fuel p a q [] H))
    as [(D & c & l & i & v & r & L & R & -> & -> & _ & EI & HL & HR)|(D & L & R & -> & -> & _ & _ & EI & HL & HR)];
    cbn [mbind option_bind]; rewrite EI in Hs, Hd |- *; rewrite lookup_in_skip, update_in_skip by done; cbn [lookup_in update_in].
  - rewrite (cmp_refl k) by done.
    destruct (replace_value p D c l i k v r h q (f v) L R (fun n => set_value (f (value n)) n)) as (p' & -> & S' & H'); try done.
    { by intros n ->. }
    by exists p'.
  - exists p. rewrite lookup_in_above, update_in_above by done. split; [done|]. split; [done|].
    exists (plug D Leaf), q, h. by rewrite EI.
Qed.

(** ** Insertion and removal *)

Lemma hang_path p C k i q g n :
  tree_in p (plug C Leaf) q ((i, n) :: g) -> path k C ->
  (if cpar C =? 0 then Some (set_root p i) else
   np ← node p (cpar C);
   match cmp k (key np) with
   | Lt => node_mut p (cpar C) (set_child SL i)
   | _ => node_mut p (cpar C) (set_child SR i)
   end) = hang (hole_side C) p (cpar C) i.
Proof.
  intros H HP. unfold hang. destruct C as [|[s c j k' v' sib] C]; [done|]. cbn [cpar hole_side].
  destruct (tree_in_node p C s c Leaf j k' v' sib q _ H) as [-> Hj]. rewrite (proj2 (Z.eqb_neq _ _)) by done.
  cbn [mbind option_bind]. destruct HP as [Hc _]. destruct s; cbn [dir_node key]; by rewrite Hc.
Qed.

Lemma rb_insert_spec p es k v :
  entries_of p es -> dom k -> vlen es + 1 < 2 ^ 32 ->
  exists p', insert cmp p k v = Some (p', lookup_in k es) /\ slots p' <= Z.max (slots p) (vlen es + 2) /\
    entries_of p' (insert_in k v es).
Proof.
  intros H0 Hk Hcap. pose proof (entries_len p es H0) as (Hsz & _). pose proof H0 as (a & q & h & H & Hb & <- & Hs & Hd). unfold insert.
  destruct (find_outcome (fuel p) p a q [] k H Hd Hs Hk (path_fuel p a q [] H))
    as [(D & c & l & i & v0 & r & L & R & -> & _ & -> & EI & HL & HR)|(D & L & R & -> & _ & -> & HP & EI & HL & HR)];
    cbn [mbind option_bind]; rewrite EI in Hs, Hd |- *; rewrite lookup_in_skip, insert_in_skip by done; cbn [lookup_in insert_in].
  - rewrite (cmp_refl k) by done. destruct (tree_in_node p D SL c l i k v0 r q [] H) as [-> _]. cbn [mbind option_bind].
    destruct (replace_value p D c l i k v0 r h q v L R (set_value v)) as (p' & -> & S' & H'); try done.
    exists p'. split; [done|]. split; [lia|done].
  - rewrite lookup_in_above, insert_in_above by done.
    destruct (tree_in_alloc p _ q [] (mk_node Red (cpar D) 0 0 k v) H) as (p1 & i & -> & Hi & S1 & H1); [lia|].
    cbn [mbind option_bind]. rewrite (hang_path p1 D k i q [] _ H1 HP).
    destruct (tree_in_hang p1 D i Red k v q [] H1) as (p2 & -> & S2 & H2). cbn [mbind option_bind].
    destruct (plug_rbt_inv D Leaf h Hb) as (n & Hc & Hr). assert (n = O) as -> by (by destruct (allows_red D)).
    destruct (insert_fixup_spec p2 D (T Red Leaf i k v Leaf) 0 q []) as (p3 & a & q3 & h3 & E & S3 & H3 & Hb3 & O3).
    { split; [done|]. split; [done|]. by exists Leaf, i, k, v, Leaf. }
    cbn [idx] in E. rewrite E. cbn [mbind option_bind]. exists p3. split; [done|]. rewrite EI in Hsz. cbn [inorder app] in *. split; [lia|].
    exists a, q3, h3. rewrite O3, EI. split_and!; [done..|by apply sorted_insert|].
    apply keys_in_app in Hd as [? ?]. apply keys_in_app. split; [done|]. by constructor.
Qed.

Lemma rb_remove_spec p es k :
  entries_of p es -> dom k ->
  exists p', remove cmp p k = Some (p', lookup_in k es) /\ slots p' = slots p /\ entries_of p' (remove_in k es).
Proof.
  intros H0 Hk. pose proof H0 as (a & q & h & H & Hb & <- & Hs & Hd). unfold remove, find_node.
  destruct (find_outcome (fuel p) p a q [] k H Hd Hs Hk (path_fuel p a q [] H))
    as [(D & c & l & i & v & r & L & R & -> & -> & _ & EI & HL & HR)|(D & L & R & -> & -> & _ & _ & EI & HL & HR)];
    cbn [mbind option_bind]; rewrite EI in Hs, Hd |- *; rewrite lookup_in_skip by done; cbn [lookup_in].
  - rewrite (cmp_refl k), remove_in_split by done.
    destruct (remove_at_spec p D c l i k v r h q [] H Hb) as (p' & a & q' & h' & L' & R' & E & S' & H' & Hb' & O & O').
    exists p'. split; [exact E|]. split; [done|]. exists a, q', h'. rewrite EI in O.
    assert (L ++ R = L' ++ R') as EQ.
    { pose proof (f_equal (remove_in k) O) as O2. rewrite O in Hs, Hd.
      destruct (split_found k v L' R' Hd Hs) as (_ & HL' & HR'). by rewrite !remove_in_split in O2. }
    rewrite EQ, O'. rewrite O in Hs, Hd. split_and!; [done..|by eapply sorted_delete|].
    apply keys_in_app in Hd as [? [_ ?]%Forall_cons]. apply keys_in_app. by split.
  - exists p. rewrite lookup_in_above by done. split; [done|]. split; [done|]. cbn [inorder app] in *.
    rewrite remove_in_id by (apply Forall_app; split; [by apply below_not_eq|by apply above_not_eq]).
    exists (plug D Leaf), q, h. by rewrite EI.
Qed.

(** ** Neighbours and extremes *)

Lemma predecessor_loop_spec n p C a q g k cand :
  tree_in p (plug C a) q g -> keys_in (inorder a) -> sorted (inorder a) -> dom k -> (length (indices a) < n)%nat ->
  exists i, predecessor_loop cmp n p k (idx a) cand = Some i /\
    match list.last (less_in k (inorder a)) with
    | None => i = cand
    | Some e => i <> 0 /\ entry_at p i = Some e
    end.
Proof.
  revert C a cand. induction n as [|n IH]; intros C a cand H Hd Hs Hk Hn; [lia|]. destruct a as [|c l i k' v' r].
  { by exists cand. }
  cbn [predecessor_loop idx]. destruct (tree_in_node p C SL c l i k' v' r q g H) as [E Hi].
  rewrite (proj2 (Z.eqb_neq _ _)), E by done. cbn [mbind option_bind dir_node key left right].
  cbn [inorder indices length] in Hd, Hs, Hn. rewrite length_app in Hn. pose proof Hd as [Hdl Hdr]%keys_in_app.
  pose proof Hs as (Hsl & Hsr & _)%sorted_app. pose proof Hdr as [Hk' Hdr']%Forall_cons.
  pose proof Hsr as [_ Hsr']%StronglySorted_cons. cbn [inorder]. unfold less_in. rewrite filter_app.
  destruct (decide (cmp k k' = Gt)) as [Hc|Hc].
  - rewrite Hc, filter_cons_True by done.
    destruct (IH (F SR c i k' v' l :: C) r i H Hdr' Hsr' Hk ltac:(lia)) as (j & -> & Hj). exists j. split; [done|].
    fold (less_in k (inorder r)). rewrite last_app_cons, last_cons. destruct (list.last (less_in k (inorder r))); [done|].
    subst j. split; [done|]. unfold entry_at. by rewrite E.
  - rewrite filter_cons_False by done.
    assert (filter (fun e => cmp k e.1 = Gt) (inorder r) = []) as ->.
    { pose proof (above_right k k' v' (inorder r) Hk Hdr Hsr Hc) as HA. apply filter_none.
      intros e He. by rewrite (proj1 (Forall_forall _ _) HA e He). }
    rewrite app_nil_r. destruct (IH (F SL c i k' v' r :: C) l cand H Hdl Hsl Hk ltac:(lia)) as (j & Ej & Hj).
    exists j. split; [|done]. by destruct (cmp k k').
Qed.

Lemma successor_loop_spec n p C a q g k cand :
  tree_in p (plug C a) q g -> keys_in (inorder a) -> sorted (inorder a) -> dom k -> (length (indices a) < n)%nat ->
  exists i, successor_loop cmp n p k (idx a) cand = Some i /\
    match head (greater_in k (inorder a)) with
    | None => i = cand
    | Some e => i <> 0 /\ entry_at p i = Some e
    end.
Proof.
  revert C a cand. induction n as [|n IH]; intros C a cand H Hd Hs Hk Hn; [lia|]. destruct a as [|c l i k' v' r].
  { by exists cand. }
  cbn [successor_loop idx]. destruct (tree_in_node p C SL c l i k' v' r q g H) as [E Hi].
  rewrite (proj2 (Z.eqb_neq _ _)), E by done. cbn [mbind option_bind dir_node key left right].
  cbn [inorder indices length] in Hd, Hs, Hn. rewrite length_app in Hn. pose proof Hd as [Hdl Hdr]%keys_in_app.
  pose proof Hs as (Hsl & Hsr & _)%sorted_app. pose proof Hdr as [Hk' Hdr']%Forall_cons.
  pose proof Hsr as [_ Hsr']%StronglySorted_cons. cbn [inorder]. unfold greater_in. rewrite filter_app.
  destruct (decide (cmp k k' = Lt)) as [Hc|Hc].
  - rewrite Hc, filter_cons_True by done.
    destruct (IH (F SL c i k' v' r :: C) l i H Hdl Hsl Hk ltac:(lia)) as (j & -> & Hj). exists j. split; [done|].
    fold (greater_in k (inorder l)). destruct (greater_in k (inorder l)); [|done]. cbn [head app] in *.
    subst j. split; [done|]. unfold entry_at. by rewrite E.
  - rewrite filter_cons_False by done.
    assert (filter (fun e => cmp k e.1 = Lt) (inorder l) = []) as ->.
    { rewrite cons_middle, app_assoc in Hd, Hs. apply keys_in_app in Hd as [Hd _]. apply sorted_app in Hs as [Hs _].
      pose proof (below_left k k' v' (inorder l) Hk Hd Hs Hc) as HA. apply filter_none.
      intros e He. by rewrite (proj1 (Forall_forall _ _) HA e He). }
    cbn [app]. destruct (IH (F SR c i k' v' l :: C) r cand H Hdr' Hsr' Hk ltac:(lia)) as (j & Ej & Hj).
    exists j. split; [|done]. by destruct (cmp k k').
Qed.

Lemma rb_predecessor_spec p es k : entries_of p es -> dom k -> predecessor cmp p k = Some (list.last (less_in k es)).
Proof.
  intros (a & q & h & H & _ & <- & Hs & Hd) Hk. unfold predecessor. rewrite (tree_in_root p a q [] H).
  destruct (predecessor_loop_spec (fuel p) p [] a q [] k 0 H Hd Hs Hk) as (i & -> & Hi).
  { pose proof (fuel_enough p [] a q [] H). lia. }
  cbn [mbind option_bind]. destruct (list.last (less_in k (inorder a))) as [e|]; [|by subst i].
  destruct Hi as [Hi He]. by rewrite (proj2 (Z.eqb_neq _ _)), He by done.
Qed.

Lemma rb_successor_spec p es k : entries_of p es -> dom k -> successor cmp p k = Some (head (greater_in k es)).
Proof.
  intros (a & q & h & H & _ & <- & Hs & Hd) Hk. unfold successor. rewrite (tree_in_root p a q [] H).
  destruct (successor_loop_spec (fuel p) p [] a q [] k 0 H Hd Hs Hk) as (i & -> & Hi).
  { pose proof (fuel_enough p [] a q [] H). lia. }
  cbn [mbind option_bind]. destruct (head (greater_in k (inorder a))) as [e|]; [|by subst i].
  destruct Hi as [Hi He]. by rewrite (proj2 (Z.eqb_neq _ _)), He by done.
Qed.

Definition extreme (s : side) es : option (K * V) := match s with SL => head es | SR => list.last es end.

Lemma extreme_loop_spec n s p C a q g :
  tree_in p (plug C a) q g -> a <> Leaf -> (length (indices a) < n)%nat ->
  exists i, extreme_loop n s p (idx a) = Some i /\ entry_at p i = extreme s (inorder a).
Proof.
  revert C a. induction n as [|n IH]; intros C a H Ha Hn; [lia|].
  destruct (split_side s a Ha) as (c & near & i & k & v & far & -> & _). cbn [extreme_loop].
  rewrite idx_join. destruct (tree_in_node p C s c near i k v far q g H) as [E _]. rewrite E. cbn [mbind option_bind].
  assert (length (indices near) < length (indices (join s c near i k v far)))%nat as Hlen.
  { destruct s; cbn; rewrite length_app; lia. }
  rewrite child_dir. destruct (leaf_or near) as [->|Hnear]; cbn [idx].
  - exists i. split; [done|]. unfold entry_at. rewrite E. destruct s; cbn; [done|]. by rewrite last_app_cons.
  - destruct (IH (F s c i k v far :: C) near H Hnear ltac:(lia)) as (j & Ej & Hj).
    exists j. assert (idx near <> 0) as H0.
    { destruct near as [|c1 l1 i1 k1 v1 r1]; [done|]. apply (tree_in_node p (F s c i k v far :: C) SL c1 l1 i1 k1 v1 r1 q g H). }
    rewrite (proj2 (Z.eqb_neq _ _)) by done. split; [done|]. rewrite Hj.
    assert (inorder near <> []) as Hne by (destruct near as [|??? ?? ?]; [done|]; cbn; by destruct (inorder near1)).
    destruct s; cbn [extreme join inorder].
    + by destruct (inorder near).
    + rewrite last_app_cons, last_cons. by destruct (list.last (inorder near)) eqn:El; [|apply last_None in El].
Qed.

Lemma rb_first_spec p es : entries_of p es -> first p = Some (head es).
Proof.
  intros H0. pose proof (entries_len p es H0) as (_ & _ & He). destruct H0 as (a & q & h & H & _ & <- & _).
  unfold first, minimum_index. fold (is_empty p). rewrite He. destruct (leaf_or a) as [->|Ha]; [done|].
  pose proof (fuel_enough p [] a q [] H).
  destruct (extreme_loop_spec (fuel p) SL p [] a q [] H Ha ltac:(lia)) as (i & Ei & Hi). rewrite (tree_in_root p a q [] H), Ei.
  cbn [mbind option_bind]. rewrite Hi. cbn [extreme]. by destruct (inorder a).
Qed.

Lemma rb_last_spec p es : entries_of p es -> last p = Some (list.last es).
Proof.
  intros H0. pose proof (entries_len p es H0) as (_ & _ & He). destruct H0 as (a & q & h & H & _ & <- & _).
  unfold last, maximum_index. fold (is_empty p). rewrite He. destruct (leaf_or a) as [->|Ha]; [done|].
  pose proof (fuel_enough p [] a q [] H).
  destruct (extreme_loop_spec (fuel p) SR p [] a q [] H Ha ltac:(lia)) as (i & Ei & Hi). rewrite (tree_in_root p a q [] H), Ei.
  cbn [mbind option_bind]. rewrite Hi. cbn [extreme].
  destruct (inorder a) eqn:E; [done|]. by destruct (list.last (p0 :: l)) eqn:El; [|apply last_None in El].
Qed.

(** ** Iteration *)

(** The entries a stack of the iterator still has to yield. *)
Fixpoint stacked (A : @tree K V) (stack : list Z) es : Prop :=
  match stack with
  | [] => es = []
  | i :: stack => exists C c l k v r es', A = plug C (T c l i k v r) /\
      es = (k, v) :: inorder r ++ es' /\ stacked A stack es'
  end.

Lemma push_left_spec n p A C a q g stack es :
  tree_in p A q g -> A = plug C a -> stacked A stack es -> (length (indices a) < n)%nat ->
  exists stack', push_left n p stack (idx a) = Some stack' /\ stacked A stack' (inorder a ++ es).
Proof.
  intros H. revert C a stack es. induction n as [|n IH]; intros C a stack es -> Hst Hn; [lia|].
  destruct a as [|c l i k v r]; [by exists stack|]. cbn [push_left idx].
  destruct (tree_in_node p C SL c l i k v r q g H) as [-> Hi]. rewrite (proj2 (Z.eqb_neq _ _)) by done.
  cbn [mbind option_bind dir_node left]. cbn [indices length] in Hn. rewrite length_app in Hn.
  destruct (IH (F SL c i k v r :: C) l (i :: stack) ((k, v) :: inorder r ++ es) eq_refl) as (st' & E & H'); [|lia|].
  - by exists C, c, l, k, v, r, es.
  - exists st'. split; [done|]. cbn [inorder]. by rewrite <- app_assoc.
Qed.

Lemma iter_collect_stack n p A q g stack es :
  tree_in p A q g -> stacked A stack es -> (length es < n)%nat -> iter_collect n p stack = Some es.
Proof.
  intros H. revert stack es. induction n as [|n IH]; intros stack es Hst Hn; [lia|]. cbn [iter_collect].
  destruct stack as [|i stack]; [by rewrite Hst|]. destruct Hst as (C & c & l & k & v & r & es' & -> & -> & Hst).
  cbn [iter_next]. destruct (tree_in_node p C SL c l i k v r q g H) as [-> _]. cbn [mbind option_bind dir_node key value right].
  destruct (push_left_spec (fuel p) p _ (F SR c i k v l :: C) r q g stack es' H eq_refl Hst) as (st' & -> & H').
  { pose proof (fuel_enough p (F SR c i k v l :: C) r q g H). lia. }
  cbn [mbind option_bind]. rewrite (IH st' _ H'); [done|]. cbn in Hn. lia.
Qed.

Lemma rb_entries_spec p es : entries_of p es -> entries p = Some es.
Proof.
  intros (a & q & h & H & _ & <- & _). unfold entries, iter. rewrite (tree_in_root p a q [] H).
  pose proof (fuel_enough p [] a q [] H) as Hf.
  destruct (push_left_spec (fuel p) p a [] a q [] [] [] H eq_refl eq_refl ltac:(lia)) as (st & -> & Hst).
  cbn [mbind option_bind]. rewrite app_nil_r in Hst. apply (iter_collect_stack _ _ a q []); [done..|].
  rewrite length_inorder. lia.
Qed.

(** ** Construction and balance *)

Lemma rb_with_capacity_spec (kd : K) (vd : V) c :
  exists p, with_capacity kd vd c = Some p /\ slots p <= 1 /\ entries_of p [].
Proof.
  unfold with_capacity. set (p0 := Pool.with_capacity _). set (n0 := mk_node Black 0 0 0 kd vd).
  destruct (Pool.pool_dynamic_empty_repr (T := Node K V) (Z.max (saturating_add 64 c 1) 1)) as [Hr _]. fold p0 in Hr.
  destruct (Pool.pool_insert_repr p0 ∅ n0 Hr) as (p & i & E & _ & Hi & Hr'); [by right|].
  destruct (Pool.insert_frame p0 p n0 i E) as (F1 & F2 & F3 & _).
  assert (i = 0) as ->.
  { destruct (Pool.take_index_grow p0 (proj1 Hr) eq_refl eq_refl eq_refl) as (b & Et & _).
    unfold Pool.insert in E. rewrite Et in E. cbn [mbind option_bind] in E.
    destruct (vset _ _ _); cbn [mbind option_bind] in E; [|done]. injection E as _ <-. done. }
  rewrite E. cbn [mbind option_bind]. eexists. split; [reflexivity|]. split; [exact F3|].
  exists Leaf, 0, 0%nat. split; [|split_and!; [done|done|constructor|constructor]].
  exists (<[0 := n0]> ∅), n0. split; [|split; [|done]].
  - apply (heap_set_root p _ (Pool.opaque p)). by constructor.
  - constructor; try done.
    + apply NoDup_singleton.
    + intros i n []%not_elem_of_nil.
    + intros i [x [[<- _]|[_ []%lookup_empty_Some]]%lookup_insert_Some]. apply list_elem_of_here.
Qed.

Fixpoint height a : nat := match a with Leaf => O | T _ l _ _ _ r => S (Nat.max (height l) (height r)) end.

Lemma height_plug C a : (length C + height a <= height (plug C a))%nat.
Proof.
  revert a. induction C as [|[s c i k v sib] C IH]; intros a; [done|]. cbn [plug length].
  specialize (IH (join s c a i k v sib)). destruct s; cbn in *; lia.
Qed.

Lemma rbt_height red_ok n a :
  rbt red_ok n a -> (height a <= 2 * n + (if red_ok then 1 else 0))%nat /\ (2 ^ n <= S (length (indices a)))%nat.
Proof.
  revert red_ok n. induction a as [|[] l IHl i k v r IHr]; intros red_ok n H.
  - cbn in H. subst n. cbn. lia.
  - destruct H as (-> & Hl & Hr). apply IHl in Hl as [? ?]. apply IHr in Hr as [? ?]. cbn. rewrite length_app. lia.
  - destruct n as [|n]; [done|]. destruct H as [Hl Hr]. apply IHl in Hl as [? ?]. apply IHr in Hr as [? ?].
    cbn [height indices length]. rewrite length_app. cbn [Nat.pow]. destruct red_ok; lia.
Qed.

(** The number of nodes a search may look at. *)
Definition search_bound es : nat := S (2 * Nat.log2 (S (length es))).

Lemma search_bound_spec p a q g h es :
  tree_in p a q g -> rbt false h a -> inorder a = es -> forall D x, a = plug D x -> (length D < search_bound es)%nat.
Proof.
  intros H Hb <- D x E. unfold search_bound. rewrite length_inorder.
  destruct (rbt_height false h a Hb) as [Hh Hs]. apply Nat.log2_le_mono in Hs. rewrite Nat.log2_pow2 in Hs by lia.
  pose proof (height_plug D x). rewrite <- E in *. lia.
Qed.

(** ** Sequences of calls *)

Inductive call : Type :=
| CGet (k : K) | CContains (k : K) | CInsert (k : K) (v : V) | CRemove (k : K) | CUpdate (k : K) (f : V -> V)
| CFirst | CLast | CPredecessor (k : K) | CSuccessor (k : K) | CIter | CLen | CIsEmpty.

Inductive answer : Type :=
| AValue (v : option V) | ABool (b : bool) | AEntry (e : option (K * V)) | AEntries (es : list (K * V)) | ALen (n : Z).

Definition serve p (c : call) : option (@t K V * answer) :=
  match c with
  | CGet k => v ← get cmp p k; Some (p, AValue v)
  | CContains k => b ← contains_key cmp p k; Some (p, ABool b)
  | CInsert k v => '(p, old) ← insert cmp p k v; Some (p, AValue old)
  | CRemove k => '(p, old) ← remove cmp p k; Some (p, AValue old)
  | CUpdate k f => '(p, found) ← get_mut cmp p k f; Some (p, ABool found)
  | CFirst => e ← first p; Some (p, AEntry e)
  | CLast => e ← last p; Some (p, AEntry e)
  | CPredecessor k => e ← predecessor cmp p k; Some (p, AEntry e)
  | CSuccessor k => e ← successor cmp p k; Some (p, AEntry e)
  | CIter => es ← entries p; Some (p, AEntries es)
  | CLen => Some (p, ALen (len p))
  | CIsEmpty => Some (p, ABool (is_empty p))
  end.

Definition serve_spec es (c : call) : list (K * V) * answer :=
  match c with
  | CGet k => (es, AValue (lookup_in k es))
  | CContains k => (es, ABool (bool_decide (is_Some (lookup_in k es))))
  | CInsert k v => (insert_in k v es, AValue (lookup_in k es))
  | CRemove k => (remove_in k es, AValue (lookup_in k es))
  | CUpdate k f => (update_in k f es, ABool (bool_decide (is_Some (lookup_in k es))))
  | CFirst => (es, AEntry (head es))
  | CLast => (es, AEntry (list.last es))
  | CPredecessor k => (es, AEntry (list.last (less_in k es)))
  | CSuccessor k => (es, AEntry (head (greater_in k es)))
  | CIter => (es, AEntries es)
  | CLen => (es, ALen (vlen es))
  | CIsEmpty => (es, ABool (bool_decide (es = [])))
  end.

Definition call_key (c : call) : option K :=
  match c with
  | CGet k | CContains k | CInsert k _ | CRemove k | CUpdate k _ | CPredecessor k | CSuccessor k => Some k
  | _ => None
  end.
Definition call_ok (c : call) : Prop := forall k, call_key c = Some k -> dom k.

Fixpoint run p (cs : list call) : option (@t K V * list answer) :=
  match cs with
  | [] => Some (p, [])
  | c :: cs => '(p, x) ← serve p c; '(p, xs) ← run p cs; Some (p, x :: xs)
  end.
Fixpoint run_spec es (cs : list call) : list (K * V) * list answer :=
  match cs with
  | [] => (es, [])
  | c :: cs => let '(es, x) := serve_spec es c in let '(es, xs) := run_spec es cs in (es, x :: xs)
  end.

Lemma insert_in_len k v es : vlen (insert_in k v es) <= vlen es + 1.
Proof.
  induction es as [|[k' v'] es IH]; [done|]; cbn [insert_in update_in]; destruct (cmp k k'); unfold vlen in *; cbn [length]; lia.
Qed.
Lemma update_in_len k f es : vlen (update_in k f es) = vlen es.
Proof. induction es as [|[k' v'] es IH]; [done|]; cbn [insert_in update_in]; destruct (cmp k k'); unfold vlen in *; cbn [length]; lia. Qed.
Lemma remove_in_len k es : vlen (remove_in k es) <= vlen es.
Proof. unfold remove_in, vlen. apply Nat2Z.inj_le, length_filter. Qed.

Lemma serve_refines p es c :
  entries_of p es -> call_ok c -> vlen es + 1 < 2 ^ 32 ->
  exists p', serve p c = Some (p', (serve_spec es c).2) /\ entries_of p' (serve_spec es c).1 /\
    vlen (serve_spec es c).1 <= vlen es + 1.
Proof.
  intros H Hok Hn. pose proof (entries_len p es H) as (_ & Hl & He).
  assert (forall x : answer, Some (p, x) = Some (p, x) /\ entries_of p es /\ vlen es <= vlen es + 1) as Hsame by (intros; split_and!; [done..|lia]).
  destruct c as [k|k|k v|k|k f| | |k|k| | |]; cbn [serve serve_spec fst snd]; try (pose proof (Hok k eq_refl) as Hk).
  - exists p. rewrite (rb_get_spec p es k H Hk). apply Hsame.
  - exists p. rewrite (rb_contains_key_spec p es k H Hk). apply Hsame.
  - destruct (rb_insert_spec p es k v H Hk Hn) as (p' & -> & _ & H'). exists p'. pose proof (insert_in_len k v es). split_and!; done.
  - destruct (rb_remove_spec p es k H Hk) as (p' & -> & _ & H'). exists p'. pose proof (remove_in_len k es). split_and!; [done..|lia].
  - destruct (rb_get_mut_spec p es k f H Hk) as (p' & -> & _ & H'). exists p'. pose proof (update_in_len k f es). split_and!; [done..|lia].
  - exists p. rewrite (rb_first_spec p es H). apply Hsame.
  - exists p. rewrite (rb_last_spec p es H). apply Hsame.
  - exists p. rewrite (rb_predecessor_spec p es k H Hk). apply Hsame.
  - exists p. rewrite (rb_successor_spec p es k H Hk). apply Hsame.
  - exists p. rewrite (rb_entries_spec p es H). apply Hsame.
  - exists p. rewrite Hl. apply Hsame.
  - exists p. rewrite He. apply Hsame.
Qed.

Lemma run_refines p es cs :
  entries_of p es -> Forall call_ok cs -> vlen es + vlen cs < 2 ^ 32 ->
  exists p', run p cs = Some (p', (run_spec es cs).2) /\ entries_of p' (run_spec es cs).1.
Proof.
  revert p es. induction cs as [|c cs IH]; intros p es H Hok Hn; [by exists p|].
  apply Forall_cons in Hok as [Hc Hok]. assert (vlen (c :: cs) = 1 + vlen cs) as Hc1 by (unfold vlen; cbn [length]; lia). pose proof (vlen_nonneg cs).
  destruct (serve_refines p es c H Hc ltac:(lia)) as (p1 & E & H1 & Hl). cbn [run run_spec]. rewrite E.
  destruct (serve_spec es c) as [es1 x]. cbn [fst snd mbind option_bind] in *.
  destruct (IH p1 es1 H1 Hok ltac:(lia)) as (p2 & -> & H2). destruct (run_spec es1 cs) as [es2 xs]. by exists p2.
Qed.

Lemma find_loop_more n m p k i (o : option Z) : (n <= m)%nat -> find_loop cmp n p k i = Some o -> find_loop cmp m p k i = Some o.
Proof.
  revert m i. induction n as [|n IH]; intros [|m] i Hm; [done|done|lia|]. cbn [find_loop].
  destruct (i =? 0); [done|]. destruct (node p i) as [x|]; [|done]. cbn [mbind option_bind].
  destruct (cmp k (key x)); [done|..]; apply IH; lia.
Qed.

End Ops.

(** The integers, as keys. *)
#[export] Instance Z_key_order : KeyOrder Z.compare (fun _ => True).
Proof.
  constructor.
  - intros x y _ _. apply Z.compare_eq_iff.
  - intros x y _ _. by rewrite Z.compare_antisym.
  - intros x y z _ _ _. rewrite !Z.compare_lt_iff. lia.
Qed.

(** ** The contract *)

(** C1: Every sequence of calls on a new tree (lookups, membership, insertion,
    removal, update in place, first, last, predecessor, successor, iteration,
    length) runs without panic, whatever rotations and fix-ups it triggers, and
    gives exactly the answers of a list of entries kept sorted by key; at the
    end the iterator yields that list. *)
Theorem rb_tree_refines_sorted_map {K V : Type} (cmp : K -> K -> comparison) (dom : K -> Prop) `{!KeyOrder cmp dom}
  (kd : K) (vd : V) (c : Z) (cs : list call) :
  Forall (call_ok dom) cs -> vlen cs < 2 ^ 32 ->
  exists p p', with_capacity kd vd c = Some p /\ run cmp p cs = Some (p', (run_spec cmp [] cs).2) /\
    entries p' = Some (run_spec cmp [] cs).1.
Proof.
  intros Hok Hn. destruct (rb_with_capacity_spec cmp dom kd vd c) as (p & -> & _ & H).
  destruct (run_refines cmp dom p [] cs H Hok Hn) as (p' & E & H'). exists p, p'. split_and!; [done..|].
  by apply (rb_entries_spec cmp dom).
Qed.

Definition calls_example : list (@call Z Z) :=
  ((fun k => CInsert k (10 * k)) <$> [5; 3; 8; 1; 4; 7; 9; 2; 6]) ++
  [CRemove 5; CRemove 1; CUpdate 7 (Z.add 1); CInsert 8 0; CPredecessor 5; CSuccessor 9; CFirst; CLast; CGet 7; CIter].

Lemma rb_tree_refines_sorted_map_witness :
  exists p p', with_capacity 0 0 16 = Some p /\ run Z.compare p calls_example = Some (p', (run_spec Z.compare [] calls_example).2) /\
    entries p' = Some [(2, 20); (3, 30); (4, 40); (6, 60); (7, 71); (8, 0); (9, 90)].
Proof. apply (rb_tree_refines_sorted_map Z.compare (fun _ => True) 0 0 16 calls_example); [by apply Forall_true|done]. Defined.

(** C30: After any sequence of calls the tree is a red-black tree: the root is
    black, no red node has a red child, every path to a leaf has the same number
    of black nodes, and the parent, child and root fields describe one tree
    that accounts for every node of the pool. *)
Theorem rb_tree_balanced {K V : Type} (cmp : K -> K -> comparison) (dom : K -> Prop) `{!KeyOrder cmp dom}
  (kd : K) (vd : V) (c : Z) (cs : list call) p p' xs :
  Forall (call_ok dom) cs -> vlen cs < 2 ^ 32 ->
  with_capacity kd vd c = Some p -> run cmp p cs = Some (p', xs) ->
  exists (a : @tree K V) q h, tree_in p' a q [] /\ rbt false h a /\ len p' = vlen (indices a).
Proof.
  intros Hok Hn Ep Er. destruct (rb_with_capacity_spec cmp dom kd vd c) as (p0 & E0 & _ & H). simplify_eq.
  destruct (run_refines cmp dom p [] cs H Hok Hn) as (p1 & E & H'). simplify_eq.
  pose proof (entries_len cmp dom _ _ H') as (_ & Hl & _). destruct H' as (a & q & h & Ht & Hb & Ha & _).
  exists a, q, h. split_and!; [done..|]. rewrite Hl, <- Ha. unfold vlen. by rewrite length_inorder.
Qed.

Lemma rb_tree_balanced_witness :
  exists p xs, run Z.compare (default (Pool.new) (with_capacity 0 0 16)) calls_example = Some (p, xs) /\
  exists (a : @tree Z Z) q h, tree_in p a q [] /\ rbt false h a /\ len p = vlen (indices a).
Proof.
  eexists _, _. split; [vm_compute; reflexivity|].
  eapply (rb_tree_balanced Z.compare (fun _ => True) 0 0 16 calls_example); [by apply Forall_true|done|vm_compute; reflexivity..].
Defined.

(** C31: A lookup in a tree of [n] entries looks at no more than
    [2 * log2 (n + 1) + 1] nodes: with that many rounds the search loop already
    has its answer. *)
Theorem rb_tree_search_logarithmic {K V : Type} (cmp : K -> K -> comparison) (dom : K -> Prop) `{!KeyOrder cmp dom}
  (p : @t K V) es k :
  entries_of cmp dom p es -> dom k ->
  find_loop cmp (S (2 * Nat.log2 (S (length es)))) p k (root p) = find_node cmp p k /\ is_Some (find_node cmp p k).
Proof.
  intros (a & q & h & H & Hb & Ha & Hs & Hd) Hk. rewrite <- Ha in Hs, Hd. unfold find_node.
  pose proof (search_bound_spec p a q [] h es H Hb Ha) as Hn.
  assert (exists r, find_loop cmp (search_bound es) p k (root p) = Some r) as [r Er].
  { destruct (find_outcome cmp dom _ p a q [] k H Hd Hs Hk Hn)
      as [(D & c & l & i & v & r & L & R & Ea & -> & _)|(D & L & R & Ea & -> & _)]; eauto. }
  assert (exists r, find_loop cmp (fuel p) p k (root p) = Some r) as [r' Er'].
  { destruct (find_outcome cmp dom _ p a q [] k H Hd Hs Hk (path_fuel p a q [] H))
      as [(D & c & l & i & v & r0 & L & R & Ea & -> & _)|(D & L & R & Ea & -> & _)]; eauto. }
  fold (search_bound es). rewrite Er, Er'. split; [|done].
  apply (find_loop_more cmp _ (search_bound es + fuel p)) in Er, Er'; [|lia..]. congruence.
Qed.

Lemma rb_tree_search_logarithmic_witness :
  exists (p : @t Z Z) es, entries_of Z.compare (fun _ => True) p es /\ length es = 7%nat /\
    find_loop Z.compare 7 p 7 (root p) = find_node Z.compare p 7 /\ is_Some (find_node Z.compare p 7).
Proof.
  destruct (rb_with_capacity_spec Z.compare (fun _ => True) 0 0 16) as (p0 & _ & _ & H).
  destruct (run_refines Z.compare (fun _ => True) p0 [] calls_example H) as (p & _ & H');
    [by apply Forall_true|done|].
  exists p, (run_spec Z.compare [] calls_example).1. split; [done|]. split; [reflexivity|].
  apply (rb_tree_search_logarithmic Z.compare (fun _ => True) p _ 7 H' I).
Defined.

End RbOps.
