(* ===== verification/InfraRbMap.v ===== *)
(** * The red-black tree as a finite map

    The contract of [InfraRbOps] for a client that does not care for the list
    of entries: the tree holds a finite map, [first], [predecessor] and
    [successor] pick entries of it by their keys. *)

From S2P Require Import Prelude InfraBitmap InfraPool InfraRbTree InfraRbHeap InfraRbOps.

Module RbMap.
Import RbTree RbOps.

Section Maps.
Context {K V : Type} `{Countable K} (cmp : K -> K -> comparison) (dom : K -> Prop) `{Ord : !KeyOrder cmp dom}.
Implicit Types (p : @t K V) (k : K) (v : V) (es : list (K * V)) (m : gmap K V).

Definition holds p m : Prop := exists es, entries_of cmp dom p es /\ list_to_map es = m.

Lemma entries_facts p es : entries_of cmp dom p es -> sorted cmp es /\ keys_in dom es.
Proof. by intros (a & q & h & _ & _ & _ & Hs & Hd). Qed.

Lemma sorted_nodup es : sorted cmp es -> keys_in dom es -> NoDup es.*1.
Proof.
  induction es as [|[k v] es IH]; [constructor|]. intros [Hk Hs]%StronglySorted_cons [Hd Hds]%Forall_cons. cbn.
  apply NoDup_cons. split; [|by apply IH]. intros ([k' v'] & E & Hin)%list_elem_of_fmap. cbn in E. subst k'.
  rewrite Forall_forall in Hk. specialize (Hk _ Hin). cbn in *. by rewrite (cmp_refl cmp dom) in Hk.
Qed.

Lemma lookup_in_map k es : keys_in dom es -> dom k -> lookup_in cmp k es = (list_to_map es : gmap K V) !! k.
Proof.
  intros Hd Hk. induction es as [|[k' v] es IH]; [symmetry; apply lookup_empty|]. apply Forall_cons in Hd as [Hk' Hd]. cbn in *.
  destruct (decide (k = k')) as [->|Hne].
  - rewrite (cmp_refl cmp dom) by done. by rewrite lookup_insert_eq.
  - rewrite lookup_insert_ne, <- IH by done. destruct (cmp k k') eqn:E; [|done..].
    by apply (key_eq (dom := dom)) in E.
Qed.

Lemma insert_in_map k v es : keys_in dom es -> dom k -> sorted cmp es ->
  (list_to_map (insert_in cmp k v es) : gmap K V) = <[k := v]> (list_to_map es).
Proof.
  intros Hd Hk Hs. induction es as [|[k' v'] es IH]; [done|]. apply Forall_cons in Hd as [Hk' Hd]. cbn in *.
  apply StronglySorted_cons in Hs as [_ Hs]. destruct (cmp k k') eqn:E; [|done|].
  - apply (key_eq (dom := dom)) in E as ->; [|done..]. cbn. by rewrite insert_insert_eq.
  - cbn. rewrite IH by done. apply insert_insert_ne. intros ->. by rewrite (cmp_refl cmp dom) in E.
Qed.

Lemma update_in_map k f es : keys_in dom es -> dom k ->
  (list_to_map (update_in cmp k f es) : gmap K V) = alter f k (list_to_map es).
Proof.
  intros Hd Hk. induction es as [|[k' v'] es IH]; [symmetry; apply alter_empty|]. apply Forall_cons in Hd as [Hk' Hd]. cbn in *.
  destruct (decide (k = k')) as [->|Hne].
  - rewrite (cmp_refl cmp dom) by done. cbn. by rewrite alter_insert_eq.
  - rewrite alter_insert_ne, <- IH by done. destruct (cmp k k') eqn:E; [|done..]. by apply (key_eq (dom := dom)) in E.
Qed.

Lemma remove_in_map k es : keys_in dom es -> dom k ->
  (list_to_map (remove_in cmp k es) : gmap K V) = delete k (list_to_map es).
Proof.
  intros Hd Hk. unfold remove_in. induction es as [|[k' v'] es IH]; [symmetry; apply delete_empty|]. apply Forall_cons in Hd as [Hk' Hd].
  destruct (decide (k = k')) as [->|Hne].
  - rewrite filter_cons_False by (intros Hn; by apply Hn, (cmp_refl cmp dom)). cbn. rewrite delete_insert_eq. by apply IH.
  - rewrite filter_cons_True by (cbn; intros E; by apply (key_eq (dom := dom)) in E). cbn. rewrite delete_insert_ne by done. by rewrite IH.
Qed.

Lemma elem_map es k v : sorted cmp es -> keys_in dom es -> (k, v) ∈ es <-> (list_to_map es : gmap K V) !! k = Some v.
Proof. intros Hs Hd. apply elem_of_list_to_map. by apply sorted_nodup. Qed.

(** ** The operations *)

Lemma holds_dom p m k v : holds p m -> m !! k = Some v -> dom k.
Proof.
  intros (es & H1 & <-) Hk. apply entries_facts in H1 as [Hs Hd]. apply elem_map in Hk; [|done..].
  unfold keys_in in Hd. rewrite Forall_forall in Hd. by apply (Hd (k, v)).
Qed.

Lemma holds_len p m : holds p m -> len p = Z.of_nat (size m) /\ is_empty p = bool_decide (m = ∅).
Proof.
  intros (es & H1 & <-). pose proof (entries_len cmp dom p es H1) as (_ & -> & ->). apply entries_facts in H1 as [Hs Hd]. split.
  - unfold vlen. by rewrite map_size_list_to_map by (by apply sorted_nodup).
  - apply bool_decide_ext. destruct es as [|[k v] es]; [done|]. split; [done|]. cbn. intros E.
    by apply insert_non_empty in E.
Qed.

Lemma holds_get p m k : holds p m -> dom k -> get cmp p k = Some (m !! k).
Proof.
  intros (es & H1 & <-) Hk. rewrite (rb_get_spec cmp dom p es k H1 Hk). apply entries_facts in H1 as [Hs Hd]. by rewrite lookup_in_map.
Qed.

Lemma holds_contains p m k : holds p m -> dom k -> contains_key cmp p k = Some (bool_decide (is_Some (m !! k))).
Proof.
  intros (es & H1 & <-) Hk. rewrite (rb_contains_key_spec cmp dom p es k H1 Hk). apply entries_facts in H1 as [Hs Hd].
  by rewrite lookup_in_map.
Qed.

Lemma holds_insert p m k v :
  holds p m -> dom k -> Z.of_nat (size m) + 1 < 2 ^ 32 ->
  exists p', insert cmp p k v = Some (p', m !! k) /\ holds p' (<[k := v]> m).
Proof.
  intros H0 Hk Hn. destruct (holds_len p m H0) as [Hl _]. destruct H0 as (es & H1 & <-).
  pose proof (entries_len cmp dom p es H1) as (_ & Hl' & _). pose proof (entries_facts _ _ H1) as [Hs Hd].
  destruct (rb_insert_spec cmp dom p es k v H1 Hk ltac:(lia)) as (p' & -> & _ & H'). rewrite lookup_in_map by done.
  exists p'. split; [done|]. exists (insert_in cmp k v es). split; [done|]. by rewrite insert_in_map.
Qed.

Lemma holds_remove p m k :
  holds p m -> dom k -> exists p', remove cmp p k = Some (p', m !! k) /\ holds p' (delete k m).
Proof.
  intros (es & H1 & <-) Hk. pose proof (entries_facts _ _ H1) as [Hs Hd].
  destruct (rb_remove_spec cmp dom p es k H1 Hk) as (p' & -> & _ & H'). rewrite lookup_in_map by done.
  exists p'. split; [done|]. exists (remove_in cmp k es). split; [done|]. by rewrite remove_in_map.
Qed.

Lemma holds_get_mut p m k f :
  holds p m -> dom k -> exists p' b, get_mut cmp p k f = Some (p', b) /\ holds p' (alter f k m).
Proof.
  intros (es & H1 & <-) Hk. pose proof (entries_facts _ _ H1) as [Hs Hd].
  destruct (rb_get_mut_spec cmp dom p es k f H1 Hk) as (p' & -> & _ & H').
  exists p'. eexists. split; [done|]. exists (update_in cmp k f es). split; [done|]. by rewrite update_in_map.
Qed.

Lemma holds_new (kd : K) (vd : V) c : exists p, with_capacity kd vd c = Some p /\ holds p ∅.
Proof. destruct (rb_with_capacity_spec cmp dom kd vd c) as (p & -> & _ & H'). exists p. split; [done|]. by exists []. Qed.

Lemma holds_first p m :
  holds p m -> exists e, first p = Some e /\
    match e with
    | None => m = ∅
    | Some (k, v) => m !! k = Some v /\ forall k' v', m !! k' = Some v' -> k' = k \/ cmp k k' = Lt
    end.
Proof.
  intros (es & H1 & <-). rewrite (rb_first_spec cmp dom p es H1). apply entries_facts in H1 as [Hs Hd].
  exists (head es). split; [done|]. destruct es as [|[k v] es]; [done|]. cbn [head].
  split; [apply lookup_insert_eq|]. intros k' v' Hk'. apply elem_map in Hk'; [|done..].
  apply elem_of_cons in Hk' as [[= -> ->]|Hin]; [by left|right]. apply StronglySorted_cons in Hs as [Hs _].
  rewrite Forall_forall in Hs. by apply (Hs (k', v')).
Qed.

Lemma holds_predecessor p m k :
  holds p m -> dom k -> exists e, predecessor cmp p k = Some e /\
    match e with
    | None => forall k' v', m !! k' = Some v' -> cmp k k' <> Gt
    | Some (k0, v0) => m !! k0 = Some v0 /\ cmp k k0 = Gt /\
        forall k' v', m !! k' = Some v' -> cmp k k' = Gt -> k' = k0 \/ cmp k' k0 = Lt
    end.
Proof.
  intros (es & H1 & <-) Hk. rewrite (rb_predecessor_spec cmp dom p es k H1 Hk). apply entries_facts in H1 as [Hs Hd].
  exists (list.last (less_in cmp k es)). split; [done|]. unfold less_in.
  destruct (list.last _) as [[k0 v0]|] eqn:E.
  - apply last_Some in E as [l' E]. assert ((k0, v0) ∈ filter (fun e => cmp k e.1 = Gt) es) as Hin.
    { rewrite E. apply elem_of_app. right. apply list_elem_of_here. }
    apply list_elem_of_filter in Hin as [Hc Hin]. split; [by apply elem_map|]. split; [done|].
    intros k' v' Hk' Hc'. apply elem_map in Hk'; [|done..].
    assert ((k', v') ∈ filter (fun e => cmp k e.1 = Gt) es) as Hin' by (by apply list_elem_of_filter).
    rewrite E in Hin'. apply elem_of_app in Hin' as [Hin'|[= -> ->]%list_elem_of_singleton]; [right|by left].
    assert (sorted cmp (filter (fun e => cmp k e.1 = Gt) es)) as Hsf by (by apply StronglySorted_filter).
    rewrite E in Hsf. apply sorted_app in Hsf as (_ & _ & Hsf). apply (Hsf (k', v') (k0, v0) Hin'), list_elem_of_here.
  - apply last_None in E. intros k' v' Hk' Hc'. apply elem_map in Hk'; [|done..].
    assert ((k', v') ∈ filter (fun e => cmp k e.1 = Gt) es) as Hin' by (by apply list_elem_of_filter).
    rewrite E in Hin'. by apply not_elem_of_nil in Hin'.
Qed.

Lemma holds_successor p m k :
  holds p m -> dom k -> exists e, successor cmp p k = Some e /\
    match e with
    | None => forall k' v', m !! k' = Some v' -> cmp k k' <> Lt
    | Some (k0, v0) => m !! k0 = Some v0 /\ cmp k k0 = Lt /\
        forall k' v', m !! k' = Some v' -> cmp k k' = Lt -> k' = k0 \/ cmp k0 k' = Lt
    end.
Proof.
  intros (es & H1 & <-) Hk. rewrite (rb_successor_spec cmp dom p es k H1 Hk). apply entries_facts in H1 as [Hs Hd].
  exists (head (greater_in cmp k es)). split; [done|]. unfold greater_in.
  destruct (filter (fun e => cmp k e.1 = Lt) es) as [|[k0 v0] l] eqn:E; cbn [head].
  - intros k' v' Hk' Hc'. apply elem_map in Hk'; [|done..].
    assert ((k', v') ∈ filter (fun e => cmp k e.1 = Lt) es) as Hin' by (by apply list_elem_of_filter).
    rewrite E in Hin'. by apply not_elem_of_nil in Hin'.
  - assert ((k0, v0) ∈ filter (fun e => cmp k e.1 = Lt) es) as Hin by (rewrite E; apply list_elem_of_here).
    apply list_elem_of_filter in Hin as [Hc Hin]. split; [by apply elem_map|]. split; [done|].
    intros k' v' Hk' Hc'. apply elem_map in Hk'; [|done..].
    assert ((k', v') ∈ filter (fun e => cmp k e.1 = Lt) es) as Hin' by (by apply list_elem_of_filter).
    rewrite E in Hin'. apply elem_of_cons in Hin' as [[= -> ->]|Hin']; [by left|right].
    assert (sorted cmp (filter (fun e => cmp k e.1 = Lt) es)) as Hsf by (by apply StronglySorted_filter).
    rewrite E in Hsf. apply StronglySorted_cons in Hsf as [Hsf _]. rewrite Forall_forall in Hsf. by apply (Hsf (k', v')).
Qed.

End Maps.
End RbMap.
