(* ===== verification/InfraTimerWheel.v ===== *)
(** * The timer wheel ([crates/hammer-infra/src/timer_wheel.rs])

    This file translates the wheel: its entries, the doubly linked rings, the
    start/stop/update/expire operations and the layer that names timers by
    connection slot and timer id.  The const generics of the source are the
    record [geometry].  The code is read as a debug build: an index out of
    range, a failed [assert!], [debug_assert!] or [expect] gives [None].
    [InfraTimerLists], [InfraTimerProofs] and [InfraTimerIds] hold the proofs. *)

From S2P Require Import Prelude InfraBitmap.

Module TimerWheel.

Definition INVALID_INDEX : Z := u32_max.

Inductive start_error := ZeroInterval | IntervalOutOfRange.

Record entry (T : Type) := mk_entry {
  next : Z;
  prev : Z;
  payload : option T;
  live : bool;
  fast_ring_offset : Z;
  slow_ring_offset : Z;
  expiration_tick : Z;
}.
Arguments mk_entry {T}.
Arguments next {T}.
Arguments prev {T}.
Arguments payload {T}.
Arguments live {T}.
Arguments fast_ring_offset {T}.
Arguments slow_ring_offset {T}.
Arguments expiration_tick {T}.

Definition list_head {T} (index : Z) : entry T := mk_entry index index None false 0 0 0.

Definition timer {T} (p : T) (expiration : Z) : entry T :=
  mk_entry INVALID_INDEX INVALID_INDEX (Some p) true 0 0 expiration.

(** Assignments to one field of an entry. *)
Definition with_next {T} (v : Z) (e : entry T) : entry T :=
  mk_entry v (prev e) (payload e) (live e) (fast_ring_offset e) (slow_ring_offset e)
    (expiration_tick e).
Definition with_prev {T} (v : Z) (e : entry T) : entry T :=
  mk_entry (next e) v (payload e) (live e) (fast_ring_offset e) (slow_ring_offset e)
    (expiration_tick e).
Definition with_fast {T} (v : Z) (e : entry T) : entry T :=
  mk_entry (next e) (prev e) (payload e) (live e) v (slow_ring_offset e) (expiration_tick e).
Definition with_slow {T} (v : Z) (e : entry T) : entry T :=
  mk_entry (next e) (prev e) (payload e) (live e) (fast_ring_offset e) v (expiration_tick e).
Definition with_expiration {T} (v : Z) (e : entry T) : entry T :=
  mk_entry (next e) (prev e) (payload e) (live e) (fast_ring_offset e) (slow_ring_offset e) v.
(** [free_timer]'s assignments. *)
Definition freed {T} (e : entry T) : entry T :=
  mk_entry INVALID_INDEX INVALID_INDEX None false (fast_ring_offset e) (slow_ring_offset e)
    (expiration_tick e).

(** The const generics. *)
Record geometry := mk_geometry {
  WHEELS : Z;
  SLOTS : Z;
  FAST_BITMAP : bool;
  OVERFLOW : bool;
  DUPLICATE_STOP : bool;
}.

Definition TimerWheel1t1w32sl : geometry := mk_geometry 1 32 false false true.
Definition TimerWheel1w32FastHint : geometry := mk_geometry 1 32 true false true.
Definition TimerWheel1t2w32sl : geometry := mk_geometry 2 32 false false true.
Definition TimerWheel2t1w2048sl : geometry := mk_geometry 1 2048 false false true.
Definition TimerWheel1t2w2048sl : geometry := mk_geometry 2 2048 false false true.
Definition TimerWheel1t3w1024slOv : geometry := mk_geometry 3 1024 true true true.

Record t (T : Type) := mk {
  current_tick : Z;
  current_index : list Z;
  slot_heads : list Z;
  overflow_head : Z;
  entries : list (entry T);
  free : list Z;
  fast_slot_bitmap : Bitmap.t;
  slot_generations : list Z;
  timer_slots : list Z;
  timer_bitmap : Bitmap.t;
  timers_per_slot : Z;
  len : Z;
  max_expirations : Z;
}.
Arguments mk {T}.
Arguments current_tick {T}.
Arguments current_index {T}.
Arguments slot_heads {T}.
Arguments overflow_head {T}.
Arguments entries {T}.
Arguments free {T}.
Arguments fast_slot_bitmap {T}.
Arguments slot_generations {T}.
Arguments timer_slots {T}.
Arguments timer_bitmap {T}.
Arguments timers_per_slot {T}.
Arguments len {T}.
Arguments max_expirations {T}.

(** Assignments to fields of the wheel. *)
Definition set_tick {T} (tick : Z) (index : list Z) (w : t T) : t T :=
  mk tick index (slot_heads w) (overflow_head w) (entries w) (free w) (fast_slot_bitmap w)
    (slot_generations w) (timer_slots w) (timer_bitmap w) (timers_per_slot w) (len w)
    (max_expirations w).
Definition set_entries {T} (es : list (entry T)) (w : t T) : t T :=
  mk (current_tick w) (current_index w) (slot_heads w) (overflow_head w) es (free w)
    (fast_slot_bitmap w) (slot_generations w) (timer_slots w) (timer_bitmap w)
    (timers_per_slot w) (len w) (max_expirations w).
Definition set_alloc {T} (es : list (entry T)) (fr : list Z) (n : Z) (w : t T) : t T :=
  mk (current_tick w) (current_index w) (slot_heads w) (overflow_head w) es fr
    (fast_slot_bitmap w) (slot_generations w) (timer_slots w) (timer_bitmap w)
    (timers_per_slot w) n (max_expirations w).
Definition set_fast_bitmap {T} (b : Bitmap.t) (w : t T) : t T :=
  mk (current_tick w) (current_index w) (slot_heads w) (overflow_head w) (entries w) (free w)
    b (slot_generations w) (timer_slots w) (timer_bitmap w) (timers_per_slot w) (len w)
    (max_expirations w).
Definition set_ids {T} (gens slots : list Z) (b : Bitmap.t) (w : t T) : t T :=
  mk (current_tick w) (current_index w) (slot_heads w) (overflow_head w) (entries w) (free w)
    (fast_slot_bitmap w) gens slots b (timers_per_slot w) (len w) (max_expirations w).
Definition set_timers_per_slot {T} (n : Z) (w : t T) : t T :=
  mk (current_tick w) (current_index w) (slot_heads w) (overflow_head w) (entries w) (free w)
    (fast_slot_bitmap w) (slot_generations w) (timer_slots w) (timer_bitmap w) n (len w)
    (max_expirations w).

Section wheel.
Context (g : geometry) {T : Type}.
Implicit Types (w : t T) (es : list (entry T)).

(** ** Geometry *)

Definition ring_shift : Z := Bitmap.trailing_zeros (SLOTS g).

Definition ring_mask : Z := SLOTS g - 1.

Fixpoint horizon_loop (n : nat) (h : Z) : option Z :=
  match n with
  | O => Some h
  | S n => if h * SLOTS g <? 2 ^ 64 then horizon_loop n (h * SLOTS g) else None
  end.

Definition horizon : option Z := horizon_loop (Z.to_nat (WHEELS g)) 1.

Definition max_direct_interval : option Z :=
  if WHEELS g =? 1 then Some (SLOTS g) else h ← horizon; Some (h - 1).

Definition validate_geometry : option unit :=
  if (1 <=? WHEELS g) && (WHEELS g <=? 3) && (0 <? SLOTS g) &&
     (Z.land (SLOTS g) (SLOTS g - 1) =? 0) && (SLOTS g <? 2 ^ 32)
  then _ ← horizon; Some tt else None.

(** ** Construction *)

Definition push_list_head es : option (list (entry T) * Z) :=
  if vlen es <? 2 ^ 32 then Some (es ++ [list_head (vlen es)], vlen es) else None.

Fixpoint push_heads (n : nat) es (heads : list Z) : option (list (entry T) * list Z) :=
  match n with
  | O => Some (es, heads)
  | S n => '(es, h) ← push_list_head es; push_heads n es (heads ++ [h])
  end.

Definition new (max : Z) : option (t T) :=
  _ ← validate_geometry;
  '(es, heads) ← push_heads (Z.to_nat (WHEELS g * SLOTS g)) [] [];
  '(es, ovf) ← (if OVERFLOW g then push_list_head es else Some (es, INVALID_INDEX));
  let bitmap := if FAST_BITMAP g then Bitmap.with_capacity (SLOTS g) else Bitmap.new in
  Some (mk 0 [0; 0; 0] heads ovf es [] bitmap [] [] Bitmap.new 0 0 max).

Definition is_empty w : bool := len w =? 0.

(** ** The rings *)

Definition slot_head w (ring slot : Z) : option Z :=
  if (ring <? WHEELS g) && (slot <? SLOTS g)
  then vget (slot_heads w) (ring * SLOTS g + slot) else None.

Definition add_to_list w (head slot : Z) : option (t T) :=
  e ← vget (entries w) slot;
  if negb (live e) then None else
  h ← vget (entries w) head;
  let first := next h in
  es ← vupd (entries w) slot (with_next first);
  es ← vupd es slot (with_prev head);
  es ← vupd es first (with_prev slot);
  es ← vupd es head (with_next slot);
  Some (set_entries es w).

Definition add_to_fast_slot w (fast_offset slot : Z) : option (t T) :=
  head ← slot_head w 0 fast_offset;
  w ← add_to_list w head slot;
  if FAST_BITMAP g then
    '(b, _) ← Bitmap.set (fast_slot_bitmap w) fast_offset; Some (set_fast_bitmap b w)
  else Some w.

Definition detach_entry w (slot : Z) : option (t T) :=
  es ← vupd (entries w) slot (with_next INVALID_INDEX);
  es ← vupd es slot (with_prev INVALID_INDEX);
  Some (set_entries es w).

Definition unlink w (slot : Z) : option (t T) :=
  e ← vget (entries w) slot;
  let p := prev e in
  let n := next e in
  if (p =? INVALID_INDEX) || (n =? INVALID_INDEX) then None else
  es ← vupd (entries w) p (with_next n);
  es ← vupd es n (with_prev p);
  detach_entry (set_entries es w) slot.

Definition take_list w (head : Z) : option (t T * Z) :=
  h ← vget (entries w) head;
  es ← vupd (entries w) head (with_next head);
  es ← vupd es head (with_prev head);
  Some (set_entries es w, next h).

(** ** Placement *)

Definition idx w (ring : Z) : option Z := vget (current_index w) ring.

Definition timer_offsets w (interval : Z) : option (Z * Z * Z) :=
  c0 ← idx w 0; c1 ← idx w 1; c2 ← idx w 2;
  let shift := ring_shift in
  let mask := ring_mask in
  let '(glacier, remaining) :=
    if 2 <? WHEELS g
    then (Z.shiftr interval (shift * 2),
          interval - Z.shiftl (Z.shiftr interval (shift * 2)) (shift * 2))
    else (0, interval) in
  let '(slow, remaining) :=
    if 1 <? WHEELS g
    then (Z.shiftr remaining shift, remaining - Z.shiftl (Z.shiftr remaining shift) shift)
    else (0, remaining) in
  let fast := Z.land remaining mask + c0 in
  let carry := SLOTS g <=? fast in
  let fast := Z.land fast mask in
  let '(slow, carry) :=
    if 1 <? WHEELS g
    then let s := slow + (c1 + Z.b2z carry) in (Z.land s mask, SLOTS g <=? s)
    else (slow, carry) in
  let glacier :=
    if 2 <? WHEELS g then Z.land (glacier + (c2 + Z.b2z carry)) mask else glacier in
  Some (wrap 32 fast, wrap 32 slow, wrap 32 glacier).

Definition should_overflow w (interval : Z) : option bool :=
  if negb (OVERFLOW g && (WHEELS g =? 3)) then Some false else
  h ← horizon;
  let phase := Z.land (current_tick w) (h - 1) in
  Some (h <=? saturating_add 64 interval phase).

Definition place_timer_direct w (slot interval : Z) : option (t T) :=
  '(fast, slow, glacier) ← timer_offsets w interval;
  c1 ← idx w 1; c2 ← idx w 2;
  if (2 <? WHEELS g) && negb (glacier =? c2) then
    es ← vupd (entries w) slot (with_slow slow);
    es ← vupd es slot (with_fast fast);
    let w := set_entries es w in
    head ← slot_head w 2 glacier;
    add_to_list w head slot
  else if (1 <? WHEELS g) && negb (slow =? c1) then
    es ← vupd (entries w) slot (with_fast fast);
    let w := set_entries es w in
    head ← slot_head w 1 slow;
    add_to_list w head slot
  else add_to_fast_slot w fast slot.

Definition place_timer w (slot interval : Z) : option (t T) :=
  o ← should_overflow w interval;
  if (o : bool) then add_to_list w (overflow_head w) slot
  else place_timer_direct w slot interval.

(** ** Allocation *)

Definition allocate_timer w (p : T) (expiration : Z) : option (t T * Z) :=
  match last (free w) with
  | Some slot =>
      es ← vset (entries w) slot (timer p expiration);
      Some (set_alloc es (take (length (free w) - 1) (free w)) (len w + 1) w, slot)
  | None =>
      let slot := vlen (entries w) in
      if slot <? 2 ^ 32
      then Some (set_alloc (entries w ++ [timer p expiration]) (free w) (len w + 1) w, slot)
      else None
  end.

(** [len -= 1] panics at 0. *)
Definition free_timer w (slot : Z) : option (t T) :=
  e ← vget (entries w) slot;
  if negb (live e) then None else
  es ← vupd (entries w) slot freed;
  if len w =? 0 then None else
  Some (set_alloc es (free w ++ [slot]) (len w - 1) w).

Definition live_slot w (handle : Z) : option Z :=
  e ← vget (entries w) handle;
  if live e then Some handle else None.

Definition handle_is_live w (handle : Z) : bool :=
  match live_slot w handle with Some _ => true | None => false end.

(** ** Start, stop, update *)

(** The outer [option] is a panic, the inner sum the [Result]. *)
Definition validate_interval w (interval : Z) : option (start_error + unit) :=
  if interval =? 0 then Some (inl ZeroInterval) else
  match checked_add 64 (current_tick w) interval with
  | None => Some (inl IntervalOutOfRange)
  | Some _ =>
      if OVERFLOW g && (WHEELS g =? 3) then Some (inr tt) else
      m ← max_direct_interval;
      if m <? interval then Some (inl IntervalOutOfRange) else Some (inr tt)
  end.

Definition start w (p : T) (interval : Z) : option (t T * (start_error + Z)) :=
  v ← validate_interval w interval;
  match v with
  | inl e => Some (w, inl e)
  | inr _ =>
      match checked_add 64 (current_tick w) interval with
      | None => Some (w, inl IntervalOutOfRange)
      | Some expiration =>
          '(w, slot) ← allocate_timer w p expiration;
          w ← place_timer w slot interval;
          Some (w, inr slot)
      end
  end.

Definition stop w (handle : Z) : option (t T * bool) :=
  match live_slot w handle with
  | None => if DUPLICATE_STOP g then Some (w, false) else None
  | Some slot =>
      w ← unlink w slot;
      w ← free_timer w slot;
      Some (w, true)
  end.

Definition update w (handle interval : Z) : option (t T * (start_error + bool)) :=
  v ← validate_interval w interval;
  match v with
  | inl e => Some (w, inl e)
  | inr _ =>
      match checked_add 64 (current_tick w) interval with
      | None => Some (w, inl IntervalOutOfRange)
      | Some expiration =>
          match live_slot w handle with
          | None => Some (w, inr false)
          | Some slot =>
              w ← unlink w slot;
              es ← vupd (entries w) slot (with_expiration expiration);
              w ← place_timer (set_entries es w) slot interval;
              Some (w, inr true)
          end
      end
  end.

(** ** Expiration *)

Definition expire_timer w (slot : Z) (expired : list T) : option (t T * list T) :=
  e ← vget (entries w) slot;
  if negb (live e) then None else
  p ← payload e;
  w ← free_timer w slot;
  Some (w, expired ++ [p]).

(** The four loops of the source that empty a ring: [while next != head], the
    successor read and the entry detached before [body] runs. *)
Fixpoint drain (fuel : nat) (body : t T -> Z -> list T -> option (t T * list T))
    (head nxt : Z) w (expired : list T) : option (t T * list T) :=
  if nxt =? head then Some (w, expired) else
  match fuel with
  | O => None
  | S fuel =>
      let slot := nxt in
      e ← vget (entries w) slot;
      let nxt := next e in
      w ← detach_entry w slot;
      '(w, expired) ← body w slot expired;
      drain fuel body head nxt w expired
  end.

Definition drain_ring body (head : Z) w (expired : list T) : option (t T * list T) :=
  '(w, nxt) ← take_list w head;
  drain (length (entries w)) body head nxt w expired.

Definition overflow_body w (slot : Z) (expired : list T) : option (t T * list T) :=
  e ← vget (entries w) slot;
  let expiration := expiration_tick e in
  if expiration <=? current_tick w then expire_timer w slot expired else
  let interval := expiration - current_tick w in
  o ← should_overflow w interval;
  w ← (if (o : bool) then add_to_list w (overflow_head w) slot
       else place_timer_direct w slot interval);
  Some (w, expired).

Definition process_overflow w (expired : list T) : option (t T * list T) :=
  if negb (OVERFLOW g) then None else drain_ring overflow_body (overflow_head w) w expired.

Definition glacier_body w (slot : Z) (expired : list T) : option (t T * list T) :=
  e ← vget (entries w) slot;
  let slow := slow_ring_offset e in
  let fast := fast_ring_offset e in
  c0 ← idx w 0; c1 ← idx w 1;
  if (slow =? c1) && (fast =? c0) then expire_timer w slot expired
  else if slow =? c1 then w ← add_to_fast_slot w fast slot; Some (w, expired)
  else head ← slot_head w 1 slow; w ← add_to_list w head slot; Some (w, expired).

Definition cascade_glacier w (expired : list T) : option (t T * list T) :=
  c2 ← idx w 2;
  head ← slot_head w 2 c2;
  drain_ring glacier_body head w expired.

Definition slow_body w (slot : Z) (expired : list T) : option (t T * list T) :=
  e ← vget (entries w) slot;
  let fast := fast_ring_offset e in
  c0 ← idx w 0;
  if fast =? c0 then expire_timer w slot expired
  else w ← add_to_fast_slot w fast slot; Some (w, expired).

Definition cascade_slow w (expired : list T) : option (t T * list T) :=
  c1 ← idx w 1;
  head ← slot_head w 1 c1;
  drain_ring slow_body head w expired.

Definition expire_fast_slot w (expired : list T) : option (t T * list T) :=
  c0 ← idx w 0;
  head ← slot_head w 0 c0;
  '(w, expired) ← drain_ring expire_timer head w expired;
  w ← (if FAST_BITMAP g then '(b, _) ← Bitmap.clear (fast_slot_bitmap w) c0;
                             Some (set_fast_bitmap b w)
       else Some w);
  Some (w, expired).

Definition advance_ring w (ring : Z) : option (t T * bool) :=
  c ← idx w ring;
  let nxt := c + 1 in
  let wrapped := nxt =? SLOTS g in
  index ← vset (current_index w) ring (if wrapped then 0 else nxt);
  Some (set_tick (current_tick w) index w, wrapped).

Definition advance_one_tick w (expired : list T) : option (t T * list T) :=
  tick ← checked_add 64 (current_tick w) 1;
  let w := set_tick tick (current_index w) w in
  '(w, fast_wrapped) ← advance_ring w 0;
  '(w, slow_wrapped) ← (if (fast_wrapped : bool) && (1 <? WHEELS g) then advance_ring w 1
                        else Some (w, false));
  '(w, glacier_wrapped) ← (if (slow_wrapped : bool) && (2 <? WHEELS g) then advance_ring w 2
                           else Some (w, false));
  '(w, expired) ← (if (glacier_wrapped : bool) && OVERFLOW g then process_overflow w expired
                   else Some (w, expired));
  '(w, expired) ← (if (slow_wrapped : bool) && (2 <? WHEELS g) then cascade_glacier w expired
                   else Some (w, expired));
  '(w, expired) ← (if (fast_wrapped : bool) && (1 <? WHEELS g) then cascade_slow w expired
                   else Some (w, expired));
  expire_fast_slot w expired.

Definition expiration_budget w : Z := if max_expirations w =? 0 then u64_max else max_expirations w.

(** [for _ in 0..ticks], leaving the loop when the budget is used up. *)
Fixpoint expire_loop (ticks : nat) w (initial_len budget : Z) (expired : list T) :
    option (t T * list T) :=
  match ticks with
  | O => Some (w, expired)
  | S ticks =>
      if budget <=? vlen expired - initial_len then Some (w, expired) else
      '(w, expired) ← advance_one_tick w expired;
      expire_loop ticks w initial_len budget expired
  end.

Definition expire w (ticks : Z) (expired : list T) : option (t T * list T * Z) :=
  let initial_len := vlen expired in
  '(w, expired) ← expire_loop (Z.to_nat ticks) w initial_len (expiration_budget w) expired;
  Some (w, expired, vlen expired - initial_len).

Fixpoint first_scan (n : nat) w (current offset : Z) : Z :=
  match n with
  | O => wrap 32 (SLOTS g)
  | S n =>
      let slot := Z.land (current + offset) (SLOTS g - 1) in
      if Bitmap.is_set (fast_slot_bitmap w) slot then wrap 32 offset
      else first_scan n w current (offset + 1)
  end.

Definition first_expires_in_ticks w : option (option Z) :=
  if negb (FAST_BITMAP g) then Some None else
  current ← idx w 0;
  Some (Some (first_scan (Z.to_nat (SLOTS g)) w current 0)).

End wheel.

(** ** Timers named by slot and timer id ([TimerWheel<u32, ..>]) *)

Section timer_ids.
Context (g : geometry).
Implicit Types w : t Z.

Definition with_timer_ids (max per_slot : Z) : option (t Z) :=
  w ← new g max;
  if 0 <? per_slot then Some (set_timers_per_slot per_slot w) else None.

Definition timer_flat_index w (slot timer_id : Z) : option Z :=
  if (0 <? timers_per_slot w) && (timer_id <? timers_per_slot w)
  then Some (slot * timers_per_slot w + timer_id) else None.

Definition clear_timer_slot w (flat : Z) : option (t Z) :=
  '(b, _) ← Bitmap.clear (timer_bitmap w) flat;
  slots ← vset (timer_slots w) flat INVALID_INDEX;
  Some (set_ids (slot_generations w) slots b w).

(** [for flat in start..end] *)
Fixpoint reset_loop (flats : list Z) w : option (t Z) :=
  match flats with
  | [] => Some w
  | flat :: flats =>
      if negb (Bitmap.is_set (timer_bitmap w) flat) then reset_loop flats w else
      handle ← vget (timer_slots w) flat;
      w ← clear_timer_slot w flat;
      '(w, _) ← stop g w handle;
      reset_loop flats w
  end.

Definition reset_slot w (slot : Z) : option (t Z) :=
  if timers_per_slot w =? 0 then Some w else
  let start := slot * timers_per_slot w in
  let end_ := start + timers_per_slot w in
  if vlen (timer_slots w) <? end_ then Some w
  else reset_loop (zseq start (Z.to_nat (timers_per_slot w))) w.

(** [while v.len() < n { v.push(x) }] *)
Definition extend_to (v : list Z) (n x : Z) : list Z := v ++ replicate (Z.to_nat (n - vlen v)) x.

Definition prepare_slot w (slot generation : Z) : option (t Z) :=
  if negb (0 <? timers_per_slot w) then None else
  let w :=
    if vlen (slot_generations w) <=? slot then
      set_ids (extend_to (slot_generations w) (slot + 1) 0)
        (extend_to (timer_slots w) ((slot + 1) * timers_per_slot w) INVALID_INDEX)
        (timer_bitmap w) w
    else w in
  old ← vget (slot_generations w) slot;
  if old =? generation then Some w else
  w ← reset_slot w slot;
  gens ← vset (slot_generations w) slot generation;
  Some (set_ids gens (timer_slots w) (timer_bitmap w) w).

Definition cancel_timer w (slot generation timer_id : Z) : option (t Z * bool) :=
  if timers_per_slot w =? 0 then Some (w, false) else
  match vget (slot_generations w) slot with
  | None => Some (w, false)
  | Some old =>
      if negb (old =? generation) then Some (w, false) else
      flat ← timer_flat_index w slot timer_id;
      if negb (Bitmap.is_set (timer_bitmap w) flat) then Some (w, false) else
      handle ← vget (timer_slots w) flat;
      w ← clear_timer_slot w flat;
      stop g w handle
  end.

Definition arm_timer w (slot generation timer_id interval : Z) :
    option (t Z * (start_error + unit)) :=
  w ← prepare_slot w slot generation;
  flat ← timer_flat_index w slot timer_id;
  '(w, _) ← cancel_timer w slot generation timer_id;
  '(w, r) ← start g w (wrap 32 flat) interval;
  match r with
  | inl e => Some (w, inl e)
  | inr handle =>
      slots ← vset (timer_slots w) flat handle;
      '(b, _) ← Bitmap.set (timer_bitmap w) flat;
      Some (set_ids (slot_generations w) slots b w, inr tt)
  end.

Definition update_timer w (slot generation timer_id interval : Z) :
    option (t Z * (start_error + unit)) :=
  w ← prepare_slot w slot generation;
  flat ← timer_flat_index w slot timer_id;
  if Bitmap.is_set (timer_bitmap w) flat then
    handle ← vget (timer_slots w) flat;
    '(w, r) ← update g w handle interval;
    match r with
    | inl e => Some (w, inl e)
    | inr true => Some (w, inr tt)
    | inr false => w ← clear_timer_slot w flat; arm_timer w slot generation timer_id interval
    end
  else arm_timer w slot generation timer_id interval.

Definition take_expired_timer w (flat : Z) : option (t Z * option (Z * Z * Z)) :=
  if timers_per_slot w =? 0 then Some (w, None) else
  if (vlen (timer_slots w) <=? flat) || negb (Bitmap.is_set (timer_bitmap w) flat)
  then Some (w, None) else
  let slot := flat / timers_per_slot w in
  let timer_id := wrap 32 (flat mod timers_per_slot w) in
  match vget (slot_generations w) slot with
  | None => Some (w, None)
  | Some generation =>
      w ← clear_timer_slot w flat;
      Some (w, Some (wrap 32 slot, generation, timer_id))
  end.

End timer_ids.
End TimerWheel.
