(* ===== verification/InfraTimerLists.v ===== *)
(** * Circular doubly linked lists in an array

    The rings of the timer wheel ([InfraTimerWheel]) are circular lists whose
    links are indices into one entry array.  [chain] relates the [next] and
    [prev] links of the array to the list of its members; the lemmas give the
    effect of the three list operations of the source ([add_to_list],
    [unlink], [take_list]) on it.  [family] is the disjointness of the lists:
    every entry is in at most one place. *)

From stdpp Require Import functions.
From S2P Require Import Prelude.

Module TimerLists.

(** ** Chains *)

Section chains.
Implicit Types (N P : Z -> option Z) (l : list Z).

(** [N] and [P] read the [next] and [prev] links; the list [l] lies between
    [x] and [y]. *)
Fixpoint chain N P (x : Z) l (y : Z) : Prop :=
  match l with
  | [] => N x = Some y /\ P y = Some x
  | a :: l => N x = Some a /\ P a = Some x /\ chain N P a l y
  end.

Definition ring N P (h : Z) l : Prop := chain N P h l h.

(** The [next] links alone, as a loop over a taken list follows them. *)
Fixpoint next_chain N (first : Z) l (last : Z) : Prop :=
  match l with
  | [] => first = last
  | a :: l => first = a /\ exists n, N a = Some n /\ next_chain N n l last
  end.

Lemma chain_frame N P N' P' x l y :
  (forall i, i = x \/ i ∈ l -> N' i = N i) -> (forall i, i = y \/ i ∈ l -> P' i = P i) ->
  chain N P x l y -> chain N' P' x l y.
Proof.
  revert x. induction l as [|a l IH]; intros x HN HP; simpl.
  - intros [? ?]. by rewrite HN, HP by auto.
  - intros (? & ? & ?). rewrite HN, HP by (rewrite elem_of_cons; auto).
    split; [done|]. split; [done|]. apply IH; [..|done];
      intros i Hi; [apply HN|apply HP]; rewrite elem_of_cons; naive_solver.
Qed.

Lemma next_chain_frame N N' first l last :
  (forall i, i ∈ l -> N' i = N i) -> next_chain N first l last -> next_chain N' first l last.
Proof.
  revert first. induction l as [|a l IH]; intros first HN; simpl; [done|].
  intros (-> & n & Hn & Hl). split; [done|]. exists n.
  rewrite HN by left. split; [done|]. apply IH; [|done]. intros i Hi. apply HN. by right.
Qed.

Lemma chain_next_chain N P x l y :
  chain N P x l y -> exists first, N x = Some first /\ next_chain N first l y.
Proof.
  revert x. induction l as [|a l IH]; intros x; simpl.
  - intros [? _]. by exists y.
  - intros (? & _ & H). exists a. split; [done|]. split; [done|]. by apply IH.
Qed.

(** ** Insertion after the head *)

Lemma ring_add N P N' P' h l s first :
  ring N P h l -> N h = Some first -> NoDup l -> h ∉ l -> s ∉ l -> s <> h ->
  (forall i, N' i = if decide (i = h) then Some s else if decide (i = s) then Some first else N i) ->
  (forall i, P' i = if decide (i = first) then Some s else if decide (i = s) then Some h else P i) ->
  ring N' P' h (s :: l).
Proof.
  intros Hr Hf Hnd Hh Hs Hsh HN HP. unfold ring in *. cbn [chain].
  assert (first ∈ l \/ first = h) as Hfirst.
  { destruct l; simpl in Hr; destruct Hr as [Hr _]; simplify_eq; [by right|left; left]. }
  assert (first <> s) by (intros ->; destruct Hfirst; congruence).
  split; [by rewrite HN, decide_True|].
  split; [rewrite HP, decide_False, decide_True by congruence; done|].
  assert (N' s = Some first) as HNs by (rewrite HN, decide_False, decide_True by done; done).
  assert (P' first = Some s) as HPf by (rewrite HP, decide_True by done; done).
  destruct l as [|a l]; cbn [chain] in *.
  - destruct Hr as [Hr _]. simplify_eq. done.
  - destruct Hr as (Ha & _ & Hr). simplify_eq. split; [done|]. split; [done|].
    apply NoDup_cons in Hnd as [Ha' Hnd]. rewrite not_elem_of_cons in Hh, Hs.
    revert Hr. apply chain_frame; intros i Hi.
    + rewrite HN, !decide_False; [done|..]; intros ->; naive_solver.
    + rewrite HP, !decide_False; [done|..]; intros ->; naive_solver.
Qed.

(** ** Removal *)

Lemma chain_split N P x l1 s l2 y :
  chain N P x (l1 ++ s :: l2) y -> chain N P x l1 s /\ chain N P s l2 y.
Proof.
  revert x. induction l1 as [|a l1 IH]; intros x; simpl; [naive_solver|].
  intros (? & ? & H). apply IH in H as [? ?]. auto.
Qed.

Lemma chain_last_prev N P x l y : chain N P x l y -> P y = last (x :: l).
Proof.
  revert x. induction l as [|a l IH]; intros x; [by intros [_ ?]|].
  intros (_ & _ & H). rewrite (IH _ H). done.
Qed.

Lemma chain_head_next N P x l y : chain N P x l y -> N x = head (l ++ [y]).
Proof. destruct l; simpl; [by intros [? _]|by intros (? & _)]. Qed.

Lemma chain_join N P N' P' x l1 s l2 y p n :
  chain N P x l1 s -> chain N P s l2 y ->
  NoDup (x :: l1 ++ s :: l2) -> y ∉ l1 ++ s :: l2 ->
  last (x :: l1) = Some p -> head (l2 ++ [y]) = Some n ->
  (forall i, i <> s -> N' i = if decide (i = p) then Some n else N i) ->
  (forall i, i <> s -> P' i = if decide (i = n) then Some p else P i) ->
  chain N' P' x (l1 ++ l2) y.
Proof.
  intros H1 H2 Hnd Hy Hp Hn HN HP. revert x H1 Hnd Hp.
  induction l1 as [|a l1 IH]; intros x H1 Hnd Hp.
  - simpl in Hp, Hnd, Hy |- *. simplify_eq. destruct H1 as [HNp HPs].
    rewrite NoDup_cons, not_elem_of_cons, NoDup_cons in Hnd. rewrite not_elem_of_cons in Hy.
    destruct Hnd as ((Hps & Hp) & Hs & Hnd). destruct Hy as [Hys Hy].
    destruct l2 as [|b l2]; simpl in Hn |- *; simplify_eq.
    + by rewrite HN, HP, !decide_True by done.
    + rewrite NoDup_cons in Hnd. rewrite not_elem_of_cons in *.
      rewrite HN, HP, !decide_True by naive_solver. split; [done|]. split; [done|].
      destruct H2 as (_ & _ & H2). revert H2.
      apply chain_frame; intros i Hi; [rewrite HN|rewrite HP]; rewrite ?decide_False; naive_solver.
  - simpl in H1, Hnd, Hy |- *. destruct H1 as (Hx & Ha & H1).
    rewrite NoDup_cons in Hnd. destruct Hnd as [Hxn Hnd].
    rewrite not_elem_of_cons in Hxn, Hy. destruct Hxn as [Hxa Hxn]. destruct Hy as [Hya Hy].
    assert (p ∈ a :: l1) as Hpin by (eapply last_Some_elem_of; exact Hp).
    assert (n = y \/ n ∈ l2) as Hnin.
    { destruct l2; simpl in Hn; simplify_eq; [by left|right; left]. }
    rewrite elem_of_app, elem_of_cons in Hxn.
    rewrite HN, HP.
    + rewrite !decide_False. { split; [done|]. split; [done|]. by apply IH. }
      * intros ->. destruct Hnin as [->|Hnin]; [done|].
        apply NoDup_cons in Hnd as [Hnd _]. apply Hnd, elem_of_app. right. by right.
      * intros ->. apply elem_of_cons in Hpin as [->|?]; tauto.
    + intros ->. apply NoDup_cons in Hnd as [Hnd _]. apply Hnd, elem_of_app. right. left.
    + tauto.
Qed.

End chains.

(** ** Families of disjoint lists

    [None] is the place of entries that are in no ring. *)

Definition family (L : option Z -> list Z) : Prop :=
  (forall o, NoDup (L o)) /\ (forall o o' s, s ∈ L o -> s ∈ L o' -> o = o').

Lemma family_add L o s :
  family L -> (forall o', s ∉ L o') -> family (<[o := s :: L o]> L).
Proof.
  intros [H1 H2] Hs.
  assert (forall o' x, x ∈ (<[o := s :: L o]> L : option Z -> list Z) o' ->
            (x = s /\ o' = o) \/ (x <> s /\ x ∈ L o')) as Hin.
  { intros o' x. destruct (decide (o = o')) as [<-|].
    - rewrite fn_lookup_insert, elem_of_cons. intros [->|Hx]; [by left|].
      right. split; [|done]. intros ->. by apply (Hs o).
    - rewrite fn_lookup_insert_ne by done. intros Hx. right. split; [|done].
      intros ->. by apply (Hs o'). }
  split.
  - intros o'. destruct (decide (o = o')) as [<-|].
    + rewrite fn_lookup_insert. constructor; auto.
    + by rewrite fn_lookup_insert_ne.
  - intros o1 o2 x [[-> ->]|[? ?]]%Hin [[? ->]|[? ?]]%Hin; [done|done|done|eauto].
Qed.

Lemma family_remove L o l1 s l2 :
  family L -> L o = l1 ++ s :: l2 ->
  family (<[o := l1 ++ l2]> L) /\ forall o', s ∉ (<[o := l1 ++ l2]> L : option Z -> list Z) o'.
Proof.
  intros [H1 H2] Ho.
  pose proof (H1 o) as Hnd. rewrite Ho in Hnd.
  assert (NoDup (s :: l1 ++ l2)) as Hnd' by (by rewrite Permutation_middle).
  apply NoDup_cons in Hnd' as [Hs Hnd'].
  assert (forall o' x, x ∈ (<[o := l1 ++ l2]> L : option Z -> list Z) o' -> x ∈ L o' /\ x <> s) as Hin.
  { intros o' x. destruct (decide (o = o')) as [<-|].
    - rewrite fn_lookup_insert. intros Hx. split; [|by intros ->].
      rewrite Ho, elem_of_app, elem_of_cons. apply elem_of_app in Hx. tauto.
    - rewrite fn_lookup_insert_ne by done. intros Hx. split; [done|]. intros ->.
      assert (o = o'); [|done]. apply (H2 o o' s); [|done]. rewrite Ho, elem_of_app. right. left. }
  split; [split|].
  - intros o'. destruct (decide (o = o')) as [<-|].
    + by rewrite fn_lookup_insert.
    + by rewrite fn_lookup_insert_ne.
  - intros o1 o2 x [? _]%Hin [? _]%Hin. eauto.
  - intros o' [_ ?]%Hin. done.
Qed.

(** Emptying the ring [h] into the empty place [None]. *)
Lemma family_take L h :
  family L -> L None = [] -> family (<[Some h := []]> (<[None := L (Some h)]> L)).
Proof.
  intros [H1 H2] Hn.
  set (L' := <[Some h := []]> (<[None := L (Some h)]> L) : option Z -> list Z).
  assert (L' None = L (Some h)) as HN.
  { unfold L'. rewrite fn_lookup_insert_ne by done. by rewrite fn_lookup_insert. }
  assert (L' (Some h) = []) as HH by (unfold L'; by rewrite fn_lookup_insert).
  assert (forall k, k <> h -> L' (Some k) = L (Some k)) as HO.
  { intros k Hk. unfold L'. by rewrite !fn_lookup_insert_ne by congruence. }
  clearbody L'.
  assert (forall o x, x ∈ L' o -> o <> Some h /\ x ∈ L (default (Some h) (Some <$> o))) as Hin.
  { intros [k|] x; simpl; [|by rewrite HN].
    destruct (decide (k = h)) as [->|]; [rewrite HH; by intros ?%elem_of_nil|].
    rewrite HO by done. split; [congruence|done]. }
  split.
  - intros [k|]; [|by rewrite HN]. destruct (decide (k = h)) as [->|]; [rewrite HH; constructor|by rewrite HO].
  - intros o o' x [Ho Hx]%Hin [Ho' Hx']%Hin. specialize (H2 _ _ _ Hx Hx').
    destruct o, o'; simpl in H2; congruence.
Qed.

End TimerLists.
