(* ===== verification/InfraTimerProofs.v ===== *)
(** * Correctness of the timer wheel

    The invariant [inv] relates the wheel of [InfraTimerWheel] to a finite map
    from entry slots to payloads and expiration ticks, and says in which ring
    slot a timer may wait.  The theorems: every operation is total on a wheel
    in the invariant and preserves it; [start], [stop] and [update] act on the
    map as their names say; a tick expires exactly the timers that are due at
    that tick, each once. *)

From stdpp Require Import functions.
From S2P Require Import Prelude InfraBitmap InfraTimerWheel InfraTimerLists.

Module TimerProofs.
Import TimerWheel TimerLists.

(** ** Links and contents of entries *)

Section entries.
Context {T : Type}.
Implicit Types (es : list (entry T)) (e : entry T).

Definition nx es (i : Z) : option Z := next <$> vget es i.
Definition pv es (i : Z) : option Z := prev <$> vget es i.

(** What the list operations leave alone. *)
Definition core e := (payload e, live e, fast_ring_offset e, slow_ring_offset e, expiration_tick e).

Definition same_core es es' : Prop :=
  vlen es' = vlen es /\ forall i, core <$> vget es' i = core <$> vget es i.

(** The timer an entry holds. *)
Definition tm es (s : Z) : option (T * Z) :=
  e ← vget es s; p ← payload e; Some (p, expiration_tick e).

Lemma core_fields e e' : core e = core e' ->
  payload e = payload e' /\ live e = live e' /\ fast_ring_offset e = fast_ring_offset e' /\
  slow_ring_offset e = slow_ring_offset e' /\ expiration_tick e = expiration_tick e'.
Proof. unfold core. intros H. split_and!; congruence. Qed.

Lemma same_core_refl es : same_core es es.
Proof. done. Qed.

Lemma same_core_trans es1 es2 es3 :
  same_core es1 es2 -> same_core es2 es3 -> same_core es1 es3.
Proof. intros [H1 H2] [H3 H4]. split; [lia|]. intros i. by rewrite H4. Qed.

Lemma same_core_get es es' i e' :
  same_core es es' -> vget es' i = Some e' -> exists e, vget es i = Some e /\ core e = core e'.
Proof.
  intros [_ H] He. specialize (H i). rewrite He in H. symmetry in H.
  by apply fmap_Some in H as (e & ? & ?); exists e.
Qed.

Lemma same_core_tm es es' s : same_core es es' -> tm es' s = tm es s.
Proof.
  intros [_ H]. unfold tm. specialize (H s).
  destruct (vget es' s) as [e'|], (vget es s) as [e|]; simpl in *; unfold core in H; [|done..].
  assert (payload e' = payload e /\ expiration_tick e' = expiration_tick e) as [-> ->]
    by (split; congruence). done.
Qed.

Lemma vupd_total es i f : 0 <= i < vlen es -> exists es', vupd es i f = Some es'.
Proof.
  intros Hi. destruct (vget_in_range es i Hi) as [e He]. unfold vupd. rewrite He.
  by apply vset_total.
Qed.

Lemma vupd_core es i f es' :
  vupd es i f = Some es' -> (forall e, core (f e) = core e) -> same_core es es'.
Proof.
  intros H Hf. split; [by eapply vupd_len|]. intros j. rewrite (vget_vupd _ _ _ j _ H).
  destruct (decide (i = j)) as [<-|]; [|done]. destruct (vget es i); [|done].
  simpl. by rewrite Hf.
Qed.

Lemma vupd_with_next es i v es' :
  vupd es i (with_next v) = Some es' ->
  same_core es es' /\ (forall j, nx es' j = if decide (j = i) then Some v else nx es j) /\
  (forall j, pv es' j = pv es j).
Proof.
  intros H. split; [by eapply vupd_core|].
  assert (exists e, vget es i = Some e) as [e He].
  { apply vupd_vset in H as [e [He _]]. eauto. }
  split; intros j; unfold nx, pv; rewrite (vget_vupd _ _ _ j _ H);
    destruct (decide (i = j)) as [<-|]; rewrite ?decide_True, ?decide_False by congruence;
    rewrite ?He; done.
Qed.

Lemma vupd_with_prev es i v es' :
  vupd es i (with_prev v) = Some es' ->
  same_core es es' /\ (forall j, nx es' j = nx es j) /\
  (forall j, pv es' j = if decide (j = i) then Some v else pv es j).
Proof.
  intros H. split; [by eapply vupd_core|].
  assert (exists e, vget es i = Some e) as [e He].
  { apply vupd_vset in H as [e [He _]]. eauto. }
  split; intros j; unfold nx, pv; rewrite (vget_vupd _ _ _ j _ H);
    destruct (decide (i = j)) as [<-|]; rewrite ?decide_True, ?decide_False by congruence;
    rewrite ?He; done.
Qed.

Lemma nx_get es i v : nx es i = Some v -> exists e, vget es i = Some e /\ next e = v.
Proof. unfold nx. destruct (vget es i) as [e|]; [|done]. simpl. intros. simplify_eq. eauto. Qed.

Lemma pv_get es i v : pv es i = Some v -> exists e, vget es i = Some e /\ prev e = v.
Proof. unfold pv. destruct (vget es i) as [e|]; [|done]. simpl. intros. simplify_eq. eauto. Qed.

Lemma nx_range es i v : nx es i = Some v -> 0 <= i < vlen es.
Proof. intros (e & He & _)%nx_get. by eapply vget_Some_bounds. Qed.

Lemma pv_range es i v : pv es i = Some v -> 0 <= i < vlen es.
Proof. intros (e & He & _)%pv_get. by eapply vget_Some_bounds. Qed.

End entries.

(** ** Timers due at a tick *)

Section due.
Context {T : Type}.
Implicit Types m : gmap Z (T * Z).

(** [due_run t m ps m']: timers of [m] that expire at [t] leave it one after
    the other, with payloads [ps]. *)
Inductive due_run (t : Z) : gmap Z (T * Z) -> list T -> gmap Z (T * Z) -> Prop :=
| due_nil m : due_run t m [] m
| due_cons m s p ps m' :
    m !! s = Some (p, t) -> due_run t (delete s m) ps m' -> due_run t m (p :: ps) m'.

Lemma due_run_app t m1 ps1 m2 ps2 m3 :
  due_run t m1 ps1 m2 -> due_run t m2 ps2 m3 -> due_run t m1 (ps1 ++ ps2) m3.
Proof. induction 1; simpl; [done|]. intros. econstructor; eauto. Qed.

Lemma due_run_one t m s p : m !! s = Some (p, t) -> due_run t m [p] (delete s m).
Proof. intros. econstructor; [done|constructor]. Qed.

(** The timers due at [t] and the others. *)
Definition due_at (t : Z) m : gmap Z (T * Z) := filter (fun kv => kv.2.2 = t) m.
Definition not_due_at (t : Z) m : gmap Z (T * Z) := filter (fun kv => kv.2.2 <> t) m.

Definition payloads m : list T := (fun kv => kv.2.1) <$> map_to_list m.

(** A run after which nothing is due expires exactly the timers due. *)
Lemma due_run_all t m ps m' :
  due_run t m ps m' -> (forall s p e, m' !! s = Some (p, e) -> e <> t) ->
  m' = not_due_at t m /\ ps ≡ₚ payloads (due_at t m).
Proof.
  induction 1 as [m|m s p ps m' Hs Hr IH]; intros Hn.
  - split.
    + symmetry. apply map_filter_id. intros s [p e] Hm. simpl. by eapply Hn.
    + unfold payloads. assert (due_at t m = ∅) as ->; [|by rewrite map_to_list_empty].
      apply map_empty. intros s. apply map_lookup_filter_None_2. right.
      intros [p e] Hm. simpl. intros ->. by eapply Hn.
  - destruct (IH Hn) as [-> ->]. split.
    + apply map_eq. intros i. unfold not_due_at.
      destruct (decide (s = i)) as [<-|Hne].
      * rewrite (map_lookup_filter_None_2 _ (delete s m)) by (left; apply lookup_delete_eq).
        symmetry. apply map_lookup_filter_None_2. right. intros x Hx. simplify_eq/=. tauto.
      * rewrite !map_lookup_filter, lookup_delete_ne by done. done.
    + unfold payloads, due_at.
      rewrite <- (insert_delete_id m s (p, t)) at 2 by done.
      rewrite map_filter_insert_True by done.
      rewrite map_to_list_insert; [done|].
      apply map_lookup_filter_None_2. left. apply lookup_delete_eq.
Qed.

End due.

(** ** The invariant *)

Definition geometry_ok (g : geometry) : Prop :=
  1 <= WHEELS g <= 3 /\ (exists K, 0 <= K < 32 /\ SLOTS g = 2 ^ K) /\
  SLOTS g ^ WHEELS g < 2 ^ 64.

Section wheel.
Context (g : geometry) {T : Type}.
Implicit Types (w : t T) (es : list (entry T)) (m : gmap Z (T * Z)) (L : option Z -> list Z)
  (due : Z -> bool).

(** List heads: one per ring slot, and one for the overflow list. *)
Definition heads : Z := WHEELS g * SLOTS g + Z.b2z (OVERFLOW g).

(** Digit [r] of a tick in base [SLOTS]. *)
Definition digit (r x : Z) : Z := (x / SLOTS g ^ r) mod SLOTS g.

Definition index_of (tick : Z) : list Z :=
  [digit 0 tick; if 1 <? WHEELS g then digit 1 tick else 0;
   if 2 <? WHEELS g then digit 2 tick else 0].

(** [fits tick due r k E fast slow]: a timer that expires at [E] may wait in
    slot [k] of ring [r].  In the middle of a tick a ring is [due] until its
    current slot has been emptied. *)
Definition fits (tick : Z) (due : bool) (r k E fast slow : Z) : Prop :=
  (if due then tick / SLOTS g ^ r <= E / SLOTS g ^ r else tick / SLOTS g ^ r < E / SLOTS g ^ r) /\
  E / SLOTS g ^ r <= tick / SLOTS g ^ r + SLOTS g /\
  (1 < WHEELS g \/ due = true -> E / SLOTS g ^ r < tick / SLOTS g ^ r + SLOTS g) /\
  k = digit r E /\ (1 <= r -> fast = digit 0 E) /\ (2 <= r -> slow = digit 1 E).

Definition fits_overflow (tick : Z) (due : bool) (E : Z) : Prop :=
  OVERFLOW g = true /\ WHEELS g = 3 /\
  if due then tick / SLOTS g ^ 3 <= E / SLOTS g ^ 3 else tick / SLOTS g ^ 3 < E / SLOTS g ^ 3.

Definition place (tick : Z) due (h E fast slow : Z) : Prop :=
  (exists r k, 0 <= r < WHEELS g /\ 0 <= k < SLOTS g /\ h = r * SLOTS g + k /\
     fits tick (due r) r k E fast slow) \/
  (h = WHEELS g * SLOTS g /\ fits_overflow tick (due 3) E).

Definition entry_place (tick : Z) due (h : Z) (e : entry T) : Prop :=
  place tick due h (expiration_tick e) (fast_ring_offset e) (slow_ring_offset e).

Definition bitmap_ok w L : Prop :=
  Bitmap.wf (fast_slot_bitmap w) /\
  (FAST_BITMAP g = true -> forall k, 0 <= k < SLOTS g -> L (Some k) <> [] ->
     Bitmap.is_set (fast_slot_bitmap w) k = true).

(** [L] gives the members of every ring, and under [None] the live entries
    that are in no ring at the moment; [m] is the abstract content. *)
Record inv w L m due : Prop := {
  inv_tick : 0 <= current_tick w < 2 ^ 64;
  inv_index : current_index w = index_of (current_tick w);
  inv_heads : slot_heads w = zseq 0 (Z.to_nat (WHEELS g * SLOTS g));
  inv_overflow : OVERFLOW g = true -> overflow_head w = WHEELS g * SLOTS g;
  inv_family : family L;
  inv_ring : forall h, 0 <= h < heads -> ring (nx (entries w)) (pv (entries w)) h (L (Some h));
  inv_dom : forall h, ~ 0 <= h < heads -> L (Some h) = [];
  inv_slots : forall s, (exists o, s ∈ L o) <-> is_Some (m !! s);
  inv_range : forall s, is_Some (m !! s) -> heads <= s < vlen (entries w);
  inv_size : heads <= vlen (entries w) < 2 ^ 32;
  inv_repr : forall s, m !! s = tm (entries w) s;
  inv_live : forall s e, vget (entries w) s = Some e -> live e = bool_decide (is_Some (payload e));
  inv_place : forall h s e, s ∈ L (Some h) -> vget (entries w) s = Some e ->
    entry_place (current_tick w) due h e;
  inv_future : forall s p E, m !! s = Some (p, E) -> current_tick w <= E < 2 ^ 64;
  inv_free : NoDup (free w) /\
    forall s, s ∈ free w <-> heads <= s < vlen (entries w) /\ m !! s = None;
  inv_len : len w = Z.of_nat (size m);
  inv_bitmap : bitmap_ok w L;
}.

(** Between two operations nothing is pending and no ring is due. *)
Definition settled w m : Prop := exists L, inv w L m (fun _ => false) /\ L None = [].

(** ** Consequences of the invariant *)

Section facts.
Context (Hg : geometry_ok g).

Lemma slots_pos : 0 < SLOTS g.
Proof. destruct Hg as (_ & (K & HK & ->) & _). apply Z.pow_pos_nonneg; lia. Qed.

Lemma pow_slots_pos r : 0 <= r -> 0 < SLOTS g ^ r.
Proof. intros. apply Z.pow_pos_nonneg; [apply slots_pos|done]. Qed.

Lemma digit_range r x : 0 <= digit r x < SLOTS g.
Proof. apply Z.mod_pos_bound, slots_pos. Qed.

Lemma ring_head_range r k :
  0 <= r < WHEELS g -> 0 <= k < SLOTS g -> 0 <= r * SLOTS g + k < WHEELS g * SLOTS g.
Proof. pose proof slots_pos. nia. Qed.

Lemma heads_range h : 0 <= h < WHEELS g * SLOTS g -> 0 <= h < heads.
Proof. unfold heads. destruct (OVERFLOW g); simpl; lia. Qed.

Lemma place_head tick due h E f s : place tick due h E f s -> 0 <= h < heads.
Proof.
  intros [(r & k & Hr & Hk & -> & _)|(-> & Ho & _)].
  - by apply heads_range, ring_head_range.
  - unfold heads. rewrite Ho. pose proof slots_pos. destruct Hg as ([? _] & _). simpl. nia.
Qed.

(** Waiting in a ring that is not due is waiting for a later tick. *)
Lemma place_later tick h E f s : 0 <= tick -> place tick (fun _ => false) h E f s -> tick < E.
Proof.
  intros Ht [(r & k & Hr & _ & _ & Hlt & _)|(_ & _ & _ & Hlt)].
  - apply Z.nle_gt. intros Hle. pose proof (pow_slots_pos r ltac:(lia)).
    apply (Z.div_le_mono _ _ (SLOTS g ^ r)) in Hle; lia.
  - apply Z.nle_gt. intros Hle. pose proof (pow_slots_pos 3 ltac:(lia)).
    apply (Z.div_le_mono _ _ (SLOTS g ^ 3)) in Hle; lia.
Qed.

Section inv_facts.
Context {w L m due} (HI : inv w L m due).

Lemma inv_member s o : s ∈ L o ->
  heads <= s < vlen (entries w) /\ exists e p, vget (entries w) s = Some e /\
    live e = true /\ payload e = Some p /\ m !! s = Some (p, expiration_tick e).
Proof.
  intros Hs. destruct (proj1 (inv_slots _ _ _ _ HI s) ltac:(eauto)) as [[p E] Hm].
  split; [apply (inv_range _ _ _ _ HI); eauto|].
  pose proof (inv_repr _ _ _ _ HI s) as Hr. rewrite Hm in Hr. unfold tm in Hr.
  destruct (vget (entries w) s) as [e|] eqn:He; [|done]. cbn [mbind option_bind] in Hr.
  destruct (payload e) as [p'|] eqn:Hp; [|done]. simplify_eq/=.
  exists e, p'. rewrite (inv_live _ _ _ _ HI _ _ He), Hp.
  rewrite bool_decide_eq_true_2 by eauto. done.
Qed.

Lemma inv_head_in_range h : 0 <= h < heads -> 0 <= h < vlen (entries w).
Proof. pose proof (inv_size _ _ _ _ HI). lia. Qed.

Lemma inv_head_not_member h o : 0 <= h < heads -> h ∉ L o.
Proof. intros Hh Hin. apply inv_member in Hin as [? _]. lia. Qed.

Lemma inv_pending_not_ring s h : s ∈ L None -> s ∉ L (Some h).
Proof.
  intros H1 H2. pose proof (proj2 (inv_family _ _ _ _ HI) _ _ _ H1 H2). discriminate.
Qed.

Lemma inv_slot_head r k :
  0 <= r < WHEELS g -> 0 <= k < SLOTS g -> slot_head g w r k = Some (r * SLOTS g + k).
Proof.
  intros Hr Hk. unfold slot_head.
  rewrite (proj2 (Z.ltb_lt _ _)), (proj2 (Z.ltb_lt k _)) by lia. cbn [andb].
  rewrite (inv_heads _ _ _ _ HI). pose proof (ring_head_range r k Hr Hk).
  unfold vget. destruct (Z.ltb_spec (r * SLOTS g + k) 0); [lia|].
  rewrite lookup_zseq_lt by lia. f_equal. lia.
Qed.

Lemma inv_idx0 : idx w 0 = Some (digit 0 (current_tick w)).
Proof. unfold idx. by rewrite (inv_index _ _ _ _ HI). Qed.

Lemma inv_idx1 : idx w 1 = Some (if 1 <? WHEELS g then digit 1 (current_tick w) else 0).
Proof. unfold idx. by rewrite (inv_index _ _ _ _ HI). Qed.

Lemma inv_idx2 : idx w 2 = Some (if 2 <? WHEELS g then digit 2 (current_tick w) else 0).
Proof. unfold idx. by rewrite (inv_index _ _ _ _ HI). Qed.

End inv_facts.

(** ** Operations that only change links *)

Lemma inv_relink w L m due es' L' due' :
  inv w L m due -> same_core (entries w) es' -> family L' ->
  (forall h, 0 <= h < heads -> ring (nx es') (pv es') h (L' (Some h))) ->
  (forall h, ~ 0 <= h < heads -> L' (Some h) = []) ->
  (forall s, (exists o, s ∈ L' o) <-> (exists o, s ∈ L o)) ->
  (forall h s e, s ∈ L' (Some h) -> vget es' s = Some e -> entry_place (current_tick w) due' h e) ->
  bitmap_ok w L' ->
  inv (set_entries es' w) L' m due'.
Proof.
  intros HI [Hlen Hcore] Hfam Hring Hdom Hmem Hplace Hbm.
  split; cbn [current_tick current_index slot_heads overflow_head entries free len set_entries];
    try apply HI; try done.
  - intros s. rewrite Hmem. apply HI.
  - rewrite Hlen. apply HI.
  - rewrite Hlen. apply HI.
  - intros s. rewrite (same_core_tm (entries w)) by done. apply HI.
  - intros s e He. destruct (same_core_get _ _ _ _ (conj Hlen Hcore) He) as (e0 & He0 & Hc).
    apply core_fields in Hc as (Hp & Hl & _). rewrite <- Hl, <- Hp.
    by apply (inv_live _ _ _ _ HI) in He0.
  - rewrite Hlen. apply HI.
Qed.

(** The rings of a family survive a change of links outside of them. *)
Lemma ring_frame w L m due es' h :
  inv w L m due -> 0 <= h < heads ->
  (forall i, i = h \/ i ∈ L (Some h) -> nx es' i = nx (entries w) i /\ pv es' i = pv (entries w) i) ->
  ring (nx es') (pv es') h (L (Some h)).
Proof.
  intros HI Hh Hsame. eapply chain_frame; [| |apply (inv_ring _ _ _ _ HI h Hh)];
    intros i Hi; by apply Hsame.
Qed.

Lemma heads_nonneg : 0 <= heads.
Proof. unfold heads. pose proof slots_pos. destruct Hg. destruct (OVERFLOW g); simpl; nia. Qed.

Lemma entry_place_core tick due h (e e' : entry T) :
  core e = core e' -> entry_place tick due h e -> entry_place tick due h e'.
Proof. unfold entry_place. intros (_ & _ & -> & -> & ->)%core_fields. done. Qed.

Lemma detach_inv w L m due s :
  inv w L m due -> s ∈ L None ->
  exists es', detach_entry w s = Some (set_entries es' w) /\
    inv (set_entries es' w) L m due /\ same_core (entries w) es' /\
    (forall i, i <> s -> vget es' i = vget (entries w) i).
Proof.
  intros HI Hs. destruct (inv_member HI _ _ Hs) as [Hr _].
  pose proof heads_nonneg.
  destruct (vupd_total (entries w) s (with_next INVALID_INDEX)) as [es1 H1]; [lia|].
  destruct (vupd_with_next _ _ _ _ H1) as (Hc1 & Hn1 & Hp1).
  destruct (vupd_total es1 s (with_prev INVALID_INDEX)) as [es2 H2]; [destruct Hc1; lia|].
  destruct (vupd_with_prev _ _ _ _ H2) as (Hc2 & Hn2 & Hp2).
  pose proof (same_core_trans _ _ _ Hc1 Hc2) as Hc.
  exists es2. unfold detach_entry. rewrite H1. cbn [mbind option_bind]. rewrite H2.
  split; [done|]. split; [|split; [done|]].
  - apply (inv_relink _ _ _ _ _ _ _ HI Hc); [apply HI| |apply HI|done| |apply HI].
    + intros h Hh. apply (ring_frame _ _ _ _ _ _ HI Hh). intros i Hi.
      assert (i <> s) as Hne.
      { intros ->. destruct Hi as [->|Hi]; [lia|].
        by apply (inv_pending_not_ring HI s h). }
      by rewrite Hn2, Hn1, Hp2, Hp1, !decide_False.
    + intros h s' e Hs' He. destruct (same_core_get _ _ _ _ Hc He) as (e0 & He0 & Hcore).
      apply (entry_place_core _ _ _ _ _ Hcore). by eapply (inv_place _ _ _ _ HI).
  - intros i Hi. rewrite (vget_vupd _ _ _ i _ H2), (vget_vupd _ _ _ i _ H1), !decide_False; done.
Qed.

(** The four assignments of [add_to_list]. *)
Lemma add_links es (h s first : Z) :
  0 <= h < vlen es -> 0 <= s < vlen es -> 0 <= first < vlen es ->
  exists es', (es ← vupd es s (with_next first); es ← vupd es s (with_prev h);
               es ← vupd es first (with_prev s); vupd es h (with_next s)) = Some es' /\
    same_core es es' /\
    (forall i, nx es' i = if decide (i = h) then Some s else
                          if decide (i = s) then Some first else nx es i) /\
    (forall i, pv es' i = if decide (i = first) then Some s else
                          if decide (i = s) then Some h else pv es i) /\
    (forall i, i <> h -> i <> s -> i <> first -> vget es' i = vget es i).
Proof.
  intros Hh Hs Hf.
  destruct (vupd_total es s (with_next first)) as [es1 H1]; [lia|].
  destruct (vupd_with_next _ _ _ _ H1) as (Hc1 & Hn1 & Hp1).
  destruct (vupd_total es1 s (with_prev h)) as [es2 H2]; [destruct Hc1; lia|].
  destruct (vupd_with_prev _ _ _ _ H2) as (Hc2 & Hn2 & Hp2).
  destruct (vupd_total es2 first (with_prev s)) as [es3 H3]; [destruct Hc1, Hc2; lia|].
  destruct (vupd_with_prev _ _ _ _ H3) as (Hc3 & Hn3 & Hp3).
  destruct (vupd_total es3 h (with_next s)) as [es4 H4]; [destruct Hc1, Hc2, Hc3; lia|].
  destruct (vupd_with_next _ _ _ _ H4) as (Hc4 & Hn4 & Hp4).
  exists es4. rewrite H1. cbn [mbind option_bind]. rewrite H2. cbn [mbind option_bind].
  rewrite H3. cbn [mbind option_bind]. split; [done|].
  split; [by eauto using same_core_trans|].
  split; [intros i; by rewrite Hn4, Hn3, Hn2, Hn1|].
  split; [intros i; by rewrite Hp4, Hp3, Hp2, Hp1|].
  intros i ???. rewrite (vget_vupd _ _ _ i _ H4), (vget_vupd _ _ _ i _ H3),
    (vget_vupd _ _ _ i _ H2), (vget_vupd _ _ _ i _ H1), !decide_False by congruence. done.
Qed.

(** The first entry of a ring, or its head. *)
Lemma ring_first w L m due h :
  inv w L m due -> 0 <= h < heads ->
  exists e, vget (entries w) h = Some e /\ (next e ∈ L (Some h) \/ next e = h) /\
    0 <= next e < vlen (entries w).
Proof.
  intros HI Hh. pose proof (inv_ring _ _ _ _ HI h Hh) as Hring. unfold ring in Hring.
  pose proof (chain_head_next _ _ _ _ _ Hring) as Hhd. pose proof heads_nonneg.
  destruct (chain_next_chain _ _ _ _ _ Hring) as (first & Hfirst & _).
  rewrite Hfirst in Hhd. apply nx_get in Hfirst as (e & He & <-). exists e. split; [done|].
  assert (next e ∈ L (Some h) \/ next e = h) as Hin.
  { destruct (L (Some h)); simpl in Hhd; simplify_eq; [by right|left; left]. }
  split; [done|]. destruct Hin as [Hin| ->].
  - apply (inv_member HI) in Hin as [? _]. lia.
  - by apply (inv_head_in_range HI).
Qed.

(** The family after a pending entry joined ring [h]. *)
Definition joined L (h s : Z) (rest : list Z) : option Z -> list Z :=
  <[Some h := s :: L (Some h)]> (<[None := rest]> L).

Lemma joined_None L h s rest : joined L h s rest None = rest.
Proof. unfold joined. by rewrite fn_lookup_insert_ne, fn_lookup_insert. Qed.

Lemma joined_Some L h s rest k :
  joined L h s rest (Some k) = if decide (k = h) then s :: L (Some h) else L (Some k).
Proof.
  unfold joined. destruct (decide (k = h)) as [->|]; [by rewrite fn_lookup_insert|].
  by rewrite !fn_lookup_insert_ne by congruence.
Qed.

Lemma joined_elem L h s rest x :
  L None = s :: rest -> (exists o, x ∈ joined L h s rest o) <-> (exists o, x ∈ L o).
Proof.
  intros HN. split.
  - intros [[k|] Hx].
    + rewrite joined_Some in Hx. destruct (decide (k = h)) as [->|]; [|by eexists].
      apply elem_of_cons in Hx as [->|Hx]; [exists None; rewrite HN; left|by eexists].
    + rewrite joined_None in Hx. exists None. rewrite HN. by right.
  - intros [[k|] Hx].
    + exists (Some k). rewrite joined_Some. destruct (decide (k = h)) as [->|]; [by right|done].
    + rewrite HN in Hx. apply elem_of_cons in Hx as [->|Hx].
      * exists (Some h). rewrite joined_Some, decide_True by done. left.
      * exists None. by rewrite joined_None.
Qed.

Lemma joined_family L h s rest : family L -> L None = s :: rest -> family (joined L h s rest).
Proof.
  intros Hf HN. destruct (family_remove L None [] s rest Hf HN) as [Hf' Hs].
  unfold joined. replace (L (Some h)) with ((<[None := rest]> L : option Z -> list Z) (Some h))
    by (by rewrite fn_lookup_insert_ne).
  by apply family_add.
Qed.

(** [add_to_list] moves a pending entry to the front of ring [h]. *)
Lemma add_to_list_inv w L m due h s rest e :
  inv w L m due -> L None = s :: rest -> vget (entries w) s = Some e ->
  entry_place (current_tick w) due h e ->
  (FAST_BITMAP g = true -> h < SLOTS g -> Bitmap.is_set (fast_slot_bitmap w) h = true) ->
  exists es', add_to_list w h s = Some (set_entries es' w) /\
    inv (set_entries es' w) (joined L h s rest) m due /\ vlen es' = vlen (entries w) /\
    (forall i, i ∈ rest -> vget es' i = vget (entries w) i).
Proof.
  intros HI HN He Hpl Hbit. pose proof (place_head _ _ _ _ _ _ Hpl) as Hh.
  pose proof (inv_family _ _ _ _ HI) as Hfam. pose proof heads_nonneg.
  assert (s ∈ L None) as Hs by (rewrite HN; left).
  destruct (inv_member HI _ _ Hs) as (Hsr & e' & p & He' & Hlive & _). simplify_eq.
  destruct (ring_first _ _ _ _ _ HI Hh) as (eh & Heh & Hfin & Hfr).
  pose proof (inv_pending_not_ring HI _ h Hs) as Hsh.
  destruct (add_links (entries w) h s (next eh)) as (es' & Hes & Hc & HN' & HP' & Hsame);
    [by apply (inv_head_in_range HI)|lia|done|].
  exists es'. unfold add_to_list. rewrite He. cbn [mbind option_bind]. rewrite Hlive. cbn [negb].
  rewrite Heh. cbn [mbind option_bind] in Hes |- *. split.
  { repeat (match type of Hes with context [vupd ?a ?b ?c] => destruct (vupd a b c) end;
      [cbn [mbind option_bind] in Hes |- *|done]). by simplify_eq. }
  assert (forall i o, i ∈ L o -> o <> Some h -> i <> s -> i <> h /\ i <> s /\ i <> next eh) as Hout.
  { intros i o Hi Ho Hne. split; [intros ->; by apply (inv_head_not_member HI h o)|].
    split; [done|]. intros ->. destruct Hfin as [Hin|Heq].
    - destruct Ho. by apply (proj2 Hfam _ _ (next eh)).
    - rewrite Heq in Hi. by apply (inv_head_not_member HI h o). }
  split; [|split; [apply Hc|]].
  2:{ intros i Hi. destruct (Hout i None) as (? & ? & ?); [rewrite HN; by right|done| |by apply Hsame].
      intros ->. pose proof (proj1 Hfam None) as Hnd. rewrite HN in Hnd. by apply NoDup_cons in Hnd as []. }
  apply (inv_relink _ _ _ _ _ _ _ HI Hc); [by apply joined_family| | | | |].
  - intros k Hk. rewrite joined_Some. destruct (decide (k = h)) as [->|Hkh].
    + eapply (ring_add _ _ _ _ _ _ _ _ (inv_ring _ _ _ _ HI h Hh)); [|apply Hfam| | | |done|done].
      * unfold nx. by rewrite Heh.
      * by apply (inv_head_not_member HI).
      * done.
      * intros ->. lia.
    + apply (ring_frame _ _ _ _ _ _ HI Hk). intros i Hi.
      assert (i <> h /\ i <> s /\ i <> next eh) as (? & ? & ?).
      { destruct Hi as [->|Hi].
        - split; [done|]. split; [lia|]. intros Heq. destruct Hfin as [Hin|?]; [|congruence].
          rewrite <- Heq in Hin. by apply (inv_head_not_member HI k _ Hk) in Hin.
        - eapply Hout; [done|congruence|]. intros ->. by apply (inv_pending_not_ring HI s k). }
      by rewrite HN', HP', !decide_False.
  - intros k Hk. rewrite joined_Some. rewrite decide_False by (intros ->; done). by apply (inv_dom _ _ _ _ HI).
  - intros x. by apply joined_elem.
  - intros k x ex Hx Hex. destruct (same_core_get _ _ _ _ Hc Hex) as (e0 & He0 & Hcore).
    apply (entry_place_core _ _ _ _ _ Hcore). rewrite joined_Some in Hx.
    destruct (decide (k = h)) as [->|]; [|by eapply (inv_place _ _ _ _ HI)].
    apply elem_of_cons in Hx as [->|Hx]; [by simplify_eq|by eapply (inv_place _ _ _ _ HI)].
  - split; [apply (inv_bitmap _ _ _ _ HI)|]. intros HF k Hk Hne. rewrite joined_Some in Hne.
    destruct (decide (k = h)) as [->|]; [apply Hbit; [done|lia]|by apply (inv_bitmap _ _ _ _ HI)].
Qed.

(** ** Unlinking *)

(** The three assignments of [unlink] that matter and the detachment. *)
Lemma unlink_links es (p n s : Z) :
  0 <= p < vlen es -> 0 <= n < vlen es -> 0 <= s < vlen es ->
  exists es1 es', vupd es p (with_next n) = Some es1 /\
    (es ← vupd es1 n (with_prev p); es ← vupd es s (with_next INVALID_INDEX);
     vupd es s (with_prev INVALID_INDEX)) = Some es' /\
    same_core es es' /\
    (forall i, i <> s -> nx es' i = if decide (i = p) then Some n else nx es i) /\
    (forall i, i <> s -> pv es' i = if decide (i = n) then Some p else pv es i).
Proof.
  intros Hp Hn Hs.
  destruct (vupd_total es p (with_next n)) as [es1 H1]; [lia|].
  destruct (vupd_with_next _ _ _ _ H1) as (Hc1 & Hn1 & Hp1).
  destruct (vupd_total es1 n (with_prev p)) as [es2 H2]; [destruct Hc1; lia|].
  destruct (vupd_with_prev _ _ _ _ H2) as (Hc2 & Hn2 & Hp2).
  destruct (vupd_total es2 s (with_next INVALID_INDEX)) as [es3 H3]; [destruct Hc1, Hc2; lia|].
  destruct (vupd_with_next _ _ _ _ H3) as (Hc3 & Hn3 & Hp3).
  destruct (vupd_total es3 s (with_prev INVALID_INDEX)) as [es4 H4]; [destruct Hc1, Hc2, Hc3; lia|].
  destruct (vupd_with_prev _ _ _ _ H4) as (Hc4 & Hn4 & Hp4).
  exists es1, es4. split; [done|]. rewrite H2. cbn [mbind option_bind]. rewrite H3. cbn [mbind option_bind].
  split; [done|]. split; [by eauto using same_core_trans|].
  split; intros i Hi.
  - by rewrite Hn4, Hn3, decide_False, Hn2, Hn1.
  - by rewrite Hp4, decide_False, Hp3, Hp2, Hp1.
Qed.

(** The family after [s] left ring [h]. *)
Definition left_ring L (h s : Z) (l1 l2 : list Z) : option Z -> list Z :=
  <[Some h := l1 ++ l2]> (<[None := [s]]> L).

Lemma left_ring_None L h s l1 l2 : left_ring L h s l1 l2 None = [s].
Proof. unfold left_ring. by rewrite fn_lookup_insert_ne, fn_lookup_insert. Qed.

Lemma left_ring_Some L h s l1 l2 k :
  left_ring L h s l1 l2 (Some k) = if decide (k = h) then l1 ++ l2 else L (Some k).
Proof.
  unfold left_ring. destruct (decide (k = h)) as [->|]; [by rewrite fn_lookup_insert|].
  by rewrite !fn_lookup_insert_ne by congruence.
Qed.

Lemma left_ring_elem L h s l1 l2 x :
  L None = [] -> L (Some h) = l1 ++ s :: l2 ->
  (exists o, x ∈ left_ring L h s l1 l2 o) <-> (exists o, x ∈ L o).
Proof.
  intros HN Hh. split.
  - intros [[k|] Hx].
    + rewrite left_ring_Some in Hx. destruct (decide (k = h)) as [->|]; [|by eexists].
      exists (Some h). rewrite Hh, elem_of_app, elem_of_cons. apply elem_of_app in Hx. tauto.
    + rewrite left_ring_None in Hx. apply list_elem_of_singleton in Hx as ->.
      exists (Some h). rewrite Hh, elem_of_app. right. left.
  - intros [[k|] Hx]; [|by rewrite HN in Hx; apply elem_of_nil in Hx].
    destruct (decide (k = h)) as [->|].
    + rewrite Hh, elem_of_app, elem_of_cons in Hx.
      destruct (decide (x = s)) as [->|].
      * exists None. rewrite left_ring_None. left.
      * exists (Some h). rewrite left_ring_Some, decide_True, elem_of_app by done. tauto.
    + exists (Some k). by rewrite left_ring_Some, decide_False.
Qed.

Lemma left_ring_family L h s l1 l2 :
  family L -> L None = [] -> L (Some h) = l1 ++ s :: l2 -> family (left_ring L h s l1 l2).
Proof.
  intros Hf HN Hh. destruct (family_remove L (Some h) l1 s l2 Hf Hh) as [Hf' Hs].
  set (L' := <[Some h := l1 ++ l2]> L : option Z -> list Z) in *.
  assert (L' None = []) as HN' by (unfold L'; by rewrite fn_lookup_insert_ne).
  pose proof (family_add L' None s Hf' Hs) as Hf2. rewrite HN' in Hf2. clear Hs.
  destruct Hf2 as [Hnd Hd].
  assert (forall o, (<[None := [s]]> L' : option Z -> list Z) o = left_ring L h s l1 l2 o) as Heq.
  { intros [k|].
    - rewrite fn_lookup_insert_ne, left_ring_Some by done. unfold L'.
      destruct (decide (k = h)) as [->|]; [by rewrite fn_lookup_insert|].
      by rewrite fn_lookup_insert_ne by congruence.
    - by rewrite fn_lookup_insert, left_ring_None. }
  split.
  - intros o. rewrite <- Heq. apply Hnd.
  - intros o o' x. rewrite <- !Heq. apply Hd.
Qed.

Lemma unlink_inv w L m due s h :
  inv w L m due -> L None = [] -> s ∈ L (Some h) ->
  exists es' l1 l2, L (Some h) = l1 ++ s :: l2 /\ unlink w s = Some (set_entries es' w) /\
    same_core (entries w) es' /\ inv (set_entries es' w) (left_ring L h s l1 l2) m due.
Proof.
  intros HI HN Hs. pose proof heads_nonneg.
  assert (0 <= h < heads) as Hh.
  { destruct (decide (0 <= h < heads)); [done|]. rewrite (inv_dom _ _ _ _ HI) in Hs by done.
    by apply elem_of_nil in Hs. }
  pose proof (inv_family _ _ _ _ HI) as Hfam.
  destruct (list_elem_of_split _ _ Hs) as (l1 & l2 & Hl). pose proof (inv_ring _ _ _ _ HI h Hh) as Hring.
  unfold ring in Hring. rewrite Hl in Hring. apply chain_split in Hring as [Hr1 Hr2].
  assert (NoDup (h :: l1 ++ s :: l2)) as Hnd.
  { rewrite <- Hl. constructor; [by apply (inv_head_not_member HI)|apply Hfam]. }
  assert (h ∉ l1 ++ s :: l2) as Hhl by (rewrite <- Hl; by apply (inv_head_not_member HI)).
  assert (forall x, x = h \/ x ∈ l1 ++ s :: l2 -> 0 <= x < vlen (entries w) /\ x <> INVALID_INDEX) as Hin.
  { pose proof (inv_size _ _ _ _ HI). unfold INVALID_INDEX, u32_max. intros x [->|Hx]; [lia|].
    rewrite <- Hl in Hx. apply (inv_member HI) in Hx as [? _]. lia. }
  pose proof (chain_last_prev _ _ _ _ _ Hr1) as Hprev.
  pose proof (chain_head_next _ _ _ _ _ Hr2) as Hnext.
  destruct (last (h :: l1)) as [p|] eqn:Hp; [|by apply last_None in Hp].
  destruct (head (l2 ++ [h])) as [n|] eqn:Hn; [|by destruct l2].
  assert (p = h \/ p ∈ l1 ++ s :: l2) as Hpin.
  { apply last_Some_elem_of, elem_of_cons in Hp as [->|?]; [by left|right; apply elem_of_app; by left]. }
  assert (n = h \/ n ∈ l1 ++ s :: l2) as Hnin.
  { destruct l2; simpl in Hn; simplify_eq; [by left|right]. apply elem_of_app. right. right. left. }
  destruct (Hin p Hpin) as [Hpr Hpi]. destruct (Hin n Hnin) as [Hnr Hni].
  destruct (Hin s) as [Hsr _]; [right; apply elem_of_app; right; left|].
  destruct (unlink_links (entries w) p n s Hpr Hnr Hsr) as (es1 & es' & H1 & H2 & Hc & HN' & HP').
  exists es', l1, l2. split; [done|]. split; [|split; [done|]].
  { apply nx_get in Hnext as (e & He & Hen). apply pv_get in Hprev as (e' & He' & Hep).
    assert (e' = e) as -> by congruence.
    unfold unlink. rewrite He. cbn [mbind option_bind]. rewrite Hen, Hep.
    destruct (Z.eqb_spec p INVALID_INDEX); [done|].
    destruct (Z.eqb_spec n INVALID_INDEX); [done|]. cbn [orb].
    rewrite H1. cbn [mbind option_bind].
    destruct (vupd es1 n (with_prev p)) as [es2|]; [|done].
    cbn [mbind option_bind] in H2 |- *. unfold detach_entry. cbn [entries set_entries].
    destruct (vupd es2 s (with_next INVALID_INDEX)) as [es3|]; [|done].
    cbn [mbind option_bind] in H2 |- *. by rewrite H2. }
  apply (inv_relink _ _ _ _ _ _ _ HI Hc); [by apply left_ring_family| | | | |].
  - intros k Hk. rewrite left_ring_Some. destruct (decide (k = h)) as [->|Hkh].
    + by eapply (chain_join _ _ _ _ _ l1 s l2 _ p n Hr1 Hr2).
    + apply (ring_frame _ _ _ _ _ _ HI Hk). intros i Hi.
      assert (i <> h /\ i ∉ L (Some h)) as [Hih Hil].
      { destruct Hi as [->|Hi]; [split; [done|by apply (inv_head_not_member HI)]|].
        split; [intros ->; by apply (inv_head_not_member HI h (Some k))|].
        intros Hi'. pose proof (proj2 Hfam _ _ _ Hi Hi'). congruence. }
      rewrite Hl in Hil.
      rewrite HN', HP', !decide_False; [done|..]; intros ->; try (by destruct Hnin); try (by destruct Hpin);
        apply Hil, elem_of_app; right; left.
  - intros k Hk. rewrite left_ring_Some, decide_False by (intros ->; done). by apply (inv_dom _ _ _ _ HI).
  - intros x. by apply left_ring_elem.
  - intros k x ex Hx Hex. destruct (same_core_get _ _ _ _ Hc Hex) as (e0 & He0 & Hcore).
    apply (entry_place_core _ _ _ _ _ Hcore). rewrite left_ring_Some in Hx.
    destruct (decide (k = h)) as [->|]; [|by eapply (inv_place _ _ _ _ HI)].
    eapply (inv_place _ _ _ _ HI); [|done]. rewrite Hl, elem_of_app, elem_of_cons.
    apply elem_of_app in Hx. tauto.
  - split; [apply (inv_bitmap _ _ _ _ HI)|]. intros HF k Hk Hne. rewrite left_ring_Some in Hne.
    apply (inv_bitmap _ _ _ _ HI); [done|done|]. destruct (decide (k = h)) as [->|]; [|done].
    rewrite Hl. by destruct l1.
Qed.

(** ** Taking a whole ring *)

Definition taken L (h : Z) : option Z -> list Z := <[Some h := []]> (<[None := L (Some h)]> L).

Lemma taken_None L h : taken L h None = L (Some h).
Proof. unfold taken. by rewrite fn_lookup_insert_ne, fn_lookup_insert. Qed.

Lemma taken_Some L h k : taken L h (Some k) = if decide (k = h) then [] else L (Some k).
Proof.
  unfold taken. destruct (decide (k = h)) as [->|]; [by rewrite fn_lookup_insert|].
  by rewrite !fn_lookup_insert_ne by congruence.
Qed.

Lemma taken_elem L h x : L None = [] -> (exists o, x ∈ taken L h o) <-> (exists o, x ∈ L o).
Proof.
  intros HN. split.
  - intros [[k|] Hx]; [|rewrite taken_None in Hx; by eexists].
    rewrite taken_Some in Hx. destruct (decide (k = h)); [by apply elem_of_nil in Hx|by eexists].
  - intros [[k|] Hx]; [|by rewrite HN in Hx; apply elem_of_nil in Hx].
    destruct (decide (k = h)) as [->|].
    + exists None. by rewrite taken_None.
    + exists (Some k). by rewrite taken_Some, decide_False.
Qed.

(** Afterwards the ring is empty and its former members are pending, still
    chained by their [next] links; other rings may stop being due. *)
Lemma take_list_inv w L m due h due' :
  inv w L m due -> L None = [] -> 0 <= h < heads ->
  (forall k s e, k <> h -> s ∈ L (Some k) -> vget (entries w) s = Some e ->
     entry_place (current_tick w) due' k e) ->
  exists es' first, take_list w h = Some (set_entries es' w, first) /\
    inv (set_entries es' w) (taken L h) m due' /\ same_core (entries w) es' /\
    next_chain (nx es') first (L (Some h)) h.
Proof.
  intros HI HN Hh Hpl. pose proof (inv_head_in_range HI h Hh) as Hhr.
  pose proof (inv_ring _ _ _ _ HI h Hh) as Hring.
  destruct (chain_next_chain _ _ _ _ _ Hring) as (first & Hfirst & Hchain).
  destruct (vupd_total (entries w) h (with_next h)) as [es1 H1]; [lia|].
  destruct (vupd_with_next _ _ _ _ H1) as (Hc1 & Hn1 & Hp1).
  destruct (vupd_total es1 h (with_prev h)) as [es2 H2]; [destruct Hc1; lia|].
  destruct (vupd_with_prev _ _ _ _ H2) as (Hc2 & Hn2 & Hp2).
  pose proof (same_core_trans _ _ _ Hc1 Hc2) as Hc.
  apply nx_get in Hfirst as (e & He & <-). exists es2, (next e). split; [|split; [|split; [done|]]].
  - unfold take_list. rewrite He. cbn [mbind option_bind]. rewrite H1. cbn [mbind option_bind].
    by rewrite H2.
  - apply (inv_relink _ _ _ _ _ _ _ HI Hc); [by apply family_take; [apply HI|]| | | | |].
    + intros k Hk. rewrite taken_Some. destruct (decide (k = h)) as [->|Hkh].
      * unfold ring. cbn [chain]. by rewrite Hn2, Hn1, Hp2, !decide_True.
      * apply (ring_frame _ _ _ _ _ _ HI Hk). intros i Hi.
        assert (i <> h) as Hih.
        { destruct Hi as [->|Hi]; [done|]. intros ->. by apply (inv_head_not_member HI h (Some k)). }
        by rewrite Hn2, Hn1, Hp2, Hp1, !decide_False.
    + intros k Hk. rewrite taken_Some, decide_False by (intros ->; done). by apply (inv_dom _ _ _ _ HI).
    + intros x. by apply taken_elem.
    + intros k x ex Hx Hex. rewrite taken_Some in Hx.
      destruct (decide (k = h)); [by apply elem_of_nil in Hx|].
      destruct (same_core_get _ _ _ _ Hc Hex) as (e0 & He0 & Hcore).
      apply (entry_place_core _ _ _ _ _ Hcore). by eapply Hpl.
    + split; [apply (inv_bitmap _ _ _ _ HI)|]. intros HF k Hk Hne. rewrite taken_Some in Hne.
      destruct (decide (k = h)); [done|]. by apply (inv_bitmap _ _ _ _ HI).
  - revert Hchain. apply next_chain_frame. intros i Hi. rewrite Hn2, Hn1, decide_False; [done|].
    intros ->. by apply (inv_head_not_member HI h (Some h)).
Qed.

(** ** Freeing and allocating entries *)

Definition dropped L (rest : list Z) : option Z -> list Z := <[None := rest]> L.

Lemma dropped_Some L rest k : dropped L rest (Some k) = L (Some k).
Proof. unfold dropped. by rewrite fn_lookup_insert_ne. Qed.

Lemma dropped_None L rest : dropped L rest None = rest.
Proof. unfold dropped. by rewrite fn_lookup_insert. Qed.

Lemma tm_vupd_freed es s es' x :
  vupd es s freed = Some es' -> tm es' x = if decide (x = s) then None else tm es x.
Proof.
  intros H. unfold tm. rewrite (vget_vupd _ _ _ x _ H).
  destruct (decide (s = x)) as [<-|]; [rewrite decide_True by done|by rewrite decide_False by congruence].
  by destruct (vget es s).
Qed.

Lemma free_timer_inv w L m due s rest :
  inv w L m due -> L None = s :: rest ->
  exists w', free_timer w s = Some w' /\ inv w' (dropped L rest) (delete s m) due /\
    current_tick w' = current_tick w /\ vlen (entries w') = vlen (entries w) /\
    (forall i, i <> s -> vget (entries w') i = vget (entries w) i).
Proof.
  intros HI HN. assert (s ∈ L None) as Hs by (rewrite HN; left).
  destruct (inv_member HI _ _ Hs) as (Hsr & e & p & He & Hlive & Hpay & Hm). pose proof heads_nonneg.
  destruct (vupd_total (entries w) s freed) as [es' Hes]; [lia|].
  assert (forall i, i <> s -> vget es' i = vget (entries w) i) as Hsame.
  { intros i Hi. by rewrite (vget_vupd _ _ _ i _ Hes), decide_False by congruence. }
  assert (vlen es' = vlen (entries w)) as Hlen by (by eapply vupd_len).
  assert (0 < size m)%nat as Hsize.
  { destruct (size m) eqn:E; [|lia]. apply map_size_empty_inv in E. by rewrite E, lookup_empty in Hm. }
  unfold free_timer. rewrite He. cbn [mbind option_bind]. rewrite Hlive, Hes. cbn [negb mbind option_bind].
  rewrite (inv_len _ _ _ _ HI). destruct (Z.eqb_spec (Z.of_nat (size m)) 0); [lia|].
  eexists. split; [done|]. split; [|done].
  destruct (family_remove L None [] s rest (inv_family _ _ _ _ HI) HN) as [Hfam Hnot].
  assert (forall h i, 0 <= h < heads -> i = h \/ i ∈ L (Some h) -> i <> s) as Hring_ne.
  { intros h i Hh Hi ->. destruct Hi as [->|Hi]; [lia|]. by apply (inv_pending_not_ring HI s h). }
  split; cbn [current_tick current_index slot_heads overflow_head entries free len set_alloc];
    rewrite ?Hlen; try apply HI.
  - done.
  - intros h Hh. rewrite dropped_Some. apply (ring_frame _ _ _ _ _ _ HI Hh). intros i Hi.
    unfold nx, pv. by rewrite Hsame by (by eapply Hring_ne).
  - intros x. rewrite lookup_delete_is_Some, <- (inv_slots _ _ _ _ HI). split.
    + intros [o Hx]. split; [intros ->; by apply (Hnot o)|]. destruct o as [k|].
      * rewrite dropped_Some in Hx. by eexists.
      * rewrite dropped_None in Hx. exists None. rewrite HN. by right.
    + intros [Hne [[k|] Hx]]; [exists (Some k); by rewrite dropped_Some|].
      exists None. rewrite dropped_None. rewrite HN in Hx. by apply elem_of_cons in Hx as [?|?].
  - intros x [_ Hx]%lookup_delete_is_Some. by apply (inv_range _ _ _ _ HI).
  - intros x. rewrite (tm_vupd_freed _ _ _ _ Hes). destruct (decide (x = s)) as [->|].
    + apply lookup_delete_eq.
    + rewrite lookup_delete_ne by done. apply HI.
  - intros x ex Hx. rewrite (vget_vupd _ _ _ x _ Hes) in Hx. destruct (decide (s = x)) as [<-|].
    + rewrite He in Hx. by simplify_eq/=.
    + by apply (inv_live _ _ _ _ HI) in Hx.
  - intros h x ex Hx Hex. rewrite dropped_Some in Hx.
    eapply (inv_place _ _ _ _ HI); [done|]. rewrite <- Hsame; [done|].
    intros ->. by apply (inv_pending_not_ring HI s h).
  - intros x q E Hx. apply lookup_delete_Some in Hx as [_ Hx]. by apply (inv_future _ _ _ _ HI) in Hx.
  - destruct (inv_free _ _ _ _ HI) as [Hnd Hfree]. split.
    + apply NoDup_app. split; [done|]. split; [|apply NoDup_singleton].
      intros x Hx ->%list_elem_of_singleton. apply Hfree in Hx as [_ Hx]. congruence.
    + intros x. rewrite elem_of_snoc, Hfree, lookup_delete_None. split.
      * intros [[? ?]| ->]; [tauto|]. split; [lia|by left].
      * intros [? [<-|?]]; [by right|left; tauto].
  - rewrite map_size_delete_Some by eauto. lia.
Qed.

Lemma allocate_timer_inv w L m due p E :
  inv w L m due -> L None = [] -> vlen (entries w) + 1 < 2 ^ 32 -> current_tick w <= E < 2 ^ 64 ->
  exists w' s, allocate_timer w p E = Some (w', s) /\ m !! s = None /\
    inv w' (dropped L [s]) (<[s := (p, E)]> m) due /\
    current_tick w' = current_tick w /\ vget (entries w') s = Some (timer p E) /\
    vlen (entries w') <= vlen (entries w) + 1.
Proof.
  intros HI HN Hcap HE. pose proof heads_nonneg. pose proof (inv_size _ _ _ _ HI) as Hsz.
  destruct (inv_free _ _ _ _ HI) as [Hnd Hfree].
  (* both branches yield an entry array that differs from the old one at [s] only *)
  assert (exists s es' fr, allocate_timer w p E = Some (set_alloc es' fr (len w + 1) w, s) /\
    m !! s = None /\ heads <= s < vlen es' /\ vlen (entries w) <= vlen es' <= vlen (entries w) + 1 /\
    vget es' s = Some (timer p E) /\ (forall i, i <> s -> vget es' i = vget (entries w) i) /\
    NoDup fr /\ forall x, x ∈ fr <-> x <> s /\ heads <= x < vlen es' /\ m !! x = None)
    as (s & es' & fr & Halloc & Hms & Hsr & Hlen & Hget & Hsame & Hnd' & Hfree').
  { unfold allocate_timer. destruct (last (free w)) as [s|] eqn:Hl.
    - apply last_Some in Hl as [fr Hfr]. rewrite Hfr in *.
      assert (s ∈ fr ++ [s]) as Hsin by (apply elem_of_snoc; by right).
      apply Hfree in Hsin as [Hs Hms].
      destruct (vset_total (entries w) s (timer p E)) as [es' Hes]; [lia|]. rewrite Hes.
      cbn [mbind option_bind]. rewrite length_app, Nat.add_sub, take_app_length.
      apply NoDup_app in Hnd as (Hndf & Hnin & _).
      exists s, es', fr. split; [done|]. rewrite (vset_len _ _ _ _ Hes). split_and!; [done|lia..| | |done|].
      + by rewrite (vget_vset _ _ _ s _ Hes), decide_True.
      + intros i Hi. by rewrite (vget_vset _ _ _ i _ Hes), decide_False by congruence.
      + intros x. rewrite <- Hfree, elem_of_snoc. split; [|tauto].
        intros Hx. split; [|by left]. intros ->. apply (Hnin s Hx), list_elem_of_singleton. done.
    - apply last_None in Hl. rewrite Hl in *.
      destruct (Z.ltb_spec (vlen (entries w)) (2 ^ 32)); [|lia].
      assert (m !! vlen (entries w) = None) as Hms.
      { destruct (m !! vlen (entries w)) eqn:E1; [|done].
        assert (heads <= vlen (entries w) < vlen (entries w)); [|lia].
        apply (inv_range _ _ _ _ HI). eauto. }
      eexists _, _, []. split; [done|]. rewrite vlen_app. change (vlen [timer p E]) with 1.
      split_and!; [done|lia..| | |constructor|].
      + by rewrite vget_snoc, decide_True.
      + intros i Hi. by rewrite vget_snoc, decide_False.
      + intros x. split; [by intros ?%elem_of_nil|]. intros (Hne & Hx & Hm).
        rewrite Hfree. split; [lia|done]. }
  exists (set_alloc es' fr (len w + 1) w), s. split_and!; [done..| |done|done|cbn; lia].
  assert (forall o, s ∉ L o) as Hnot.
  { intros o Ho. apply (inv_member HI) in Ho as (_ & e & q & _ & _ & _ & Hm). congruence. }
  split; cbn [current_tick current_index slot_heads overflow_head entries free len set_alloc];
    try apply HI.
  - pose proof (family_add L None s (inv_family _ _ _ _ HI) Hnot) as Hf. by rewrite HN in Hf.
  - intros h Hh. rewrite dropped_Some. apply (ring_frame _ _ _ _ _ _ HI Hh). intros i Hi.
    unfold nx, pv. rewrite Hsame; [done|]. intros ->. destruct Hi as [->|Hi]; [lia|by apply (Hnot (Some h))].
  - intros x. rewrite lookup_insert_is_Some, <- (inv_slots _ _ _ _ HI). split.
    + intros [[k|] Hx]; [rewrite dropped_Some in Hx|rewrite dropped_None in Hx].
      * right. split; [|by eexists]. intros ->. by apply (Hnot (Some k)).
      * apply list_elem_of_singleton in Hx as ->. by left.
    + intros [<-|[Hne [[k|] Hx]]].
      * exists None. rewrite dropped_None. left.
      * exists (Some k). by rewrite dropped_Some.
      * rewrite HN in Hx. by apply elem_of_nil in Hx.
  - intros x [<-|[_ Hx]]%lookup_insert_is_Some; [done|]. apply (inv_range _ _ _ _ HI) in Hx. lia.
  - lia.
  - intros x. unfold tm. destruct (decide (s = x)) as [<-|Hne].
    + rewrite lookup_insert_eq, Hget. done.
    + rewrite lookup_insert_ne, Hsame by congruence. apply HI.
  - intros x ex Hx. destruct (decide (s = x)) as [<-|Hne].
    + rewrite Hget in Hx. by simplify_eq/=.
    + rewrite Hsame in Hx by congruence. by apply (inv_live _ _ _ _ HI) in Hx.
  - intros h x ex Hx Hex. rewrite dropped_Some in Hx. eapply (inv_place _ _ _ _ HI); [done|].
    rewrite <- Hsame; [done|]. intros ->. by apply (Hnot (Some h)).
  - intros x q E' [[<- Hx]|[_ Hx]]%lookup_insert_Some; [by simplify_eq|by apply (inv_future _ _ _ _ HI) in Hx].
  - split; [done|]. intros x. rewrite Hfree', lookup_insert_None. naive_solver.
  - rewrite map_size_insert_None, (inv_len _ _ _ _ HI) by done. lia.
Qed.

End facts.
End wheel.
End TimerProofs.
