(* ===== verification/InfraTimerPlace.v ===== *)
(** * Placement of timers in the rings

    [timer_offsets] computes the digits of the expiration tick; a timer placed
    by [place_timer] waits where the invariant of [InfraTimerProofs] allows
    it, provided the interval does not reach around the coarsest ring. *)

From stdpp Require Import functions.
From S2P Require Import Prelude InfraBitmap InfraTimerWheel InfraTimerLists InfraTimerProofs.

Module TimerPlace.
Import TimerWheel TimerLists TimerProofs.

(** ** Digits and carries *)

Lemma carry_div S a b c :
  0 < S -> 0 <= c <= 1 ->
  let s := b mod S + (a mod S + c) in
  (a + b + c) / S = a / S + b / S + Z.b2z (S <=? s) /\ (a + b + c) mod S = s mod S.
Proof.
  intros HS Hc s. pose proof (Z.mod_pos_bound a S HS). pose proof (Z.mod_pos_bound b S HS).
  pose proof (Z.div_mod a S ltac:(lia)). pose proof (Z.div_mod b S ltac:(lia)).
  replace (a + b + c) with ((a / S + b / S) * S + s) by (unfold s; lia).
  split; [|by rewrite Z.add_comm, Z.mod_add by lia].
  rewrite Z.div_add_l by lia. f_equal.
  destruct (Z.leb_spec S s); simpl.
  - symmetry. apply (Z.div_unique s S 1 (s - S)); unfold s in *; lia.
  - apply Z.div_small. unfold s in *; lia.
Qed.

(** Two ticks in one block of a coarser ring are close in the finer one. *)
Lemma block_close S a b : 0 < S -> a / S = b / S -> a < b + S.
Proof.
  intros HS H. pose proof (Z.div_mod a S ltac:(lia)). pose proof (Z.div_mod b S ltac:(lia)).
  pose proof (Z.mod_pos_bound a S HS). pose proof (Z.mod_pos_bound b S HS). nia.
Qed.

Lemma mod_eq_close S a b :
  0 < S -> b <= a < b + S -> a mod S = b mod S -> a = b.
Proof.
  intros HS Hab H. pose proof (Z.div_mod a S ltac:(lia)). pose proof (Z.div_mod b S ltac:(lia)).
  assert (a - b = S * (a / S - b / S)) by lia.
  assert (a / S - b / S = 0) by nia. lia.
Qed.

Lemma trailing_zeros_pow2 K : 0 <= K < 64 -> Bitmap.trailing_zeros (2 ^ K) = K.
Proof.
  intros HK. destruct (Bitmap.trailing_zeros_spec (2 ^ K)) as (Hr & Hb & _).
  - split; [apply Z.pow_nonneg; lia|]. apply Z.pow_lt_mono_r; lia.
  - pose proof (Z.pow_pos_nonneg 2 K). lia.
  - rewrite Z.pow2_bits_eqb in Hb by lia. apply Z.eqb_eq in Hb. lia.
Qed.

Section place.
Context (g : geometry) {T : Type} (Hg : geometry_ok g).
Implicit Types (w : t T) (m : gmap Z (T * Z)) (L : option Z -> list Z) (due : Z -> bool).

(** The shift and mask of the source are division and remainder. *)
Lemma slots_shift :
  (forall x, Z.shiftr x (ring_shift g) = x / SLOTS g) /\
  (forall x, Z.shiftl x (ring_shift g) = x * SLOTS g) /\
  (forall x, Z.shiftr x (ring_shift g * 2) = x / SLOTS g / SLOTS g) /\
  (forall x, Z.shiftl x (ring_shift g * 2) = x * (SLOTS g * SLOTS g)) /\
  (forall x, Z.land x (ring_mask g) = x mod SLOTS g).
Proof.
  destruct Hg as (_ & (K & HK & HS) & _). unfold ring_shift, ring_mask.
  rewrite HS, trailing_zeros_pow2 by lia.
  split_and!; intros x;
    rewrite ?Z.shiftr_div_pow2, ?Z.shiftl_mul_pow2, ?Z.pow_mul_r, ?Z.pow_2_r by lia; [done..| | |].
  - rewrite Z.div_div; [done|..]; apply Z.pow_pos_nonneg || apply Z.pow_nonzero; lia.
  - done.
  - rewrite <- Z.land_ones, Z.ones_equiv by lia. done.
Qed.

Lemma wrap_digit r x : wrap 32 (digit g r x) = digit g r x.
Proof.
  apply wrap_small. pose proof (digit_range g Hg r x). destruct Hg as (_ & (K & HK & HS) & _).
  split; [lia|]. apply Z.lt_le_trans with (SLOTS g); [lia|]. rewrite HS. apply Z.pow_le_mono_r; lia.
Qed.

(** The offsets on plain numbers, for one, two and three rings. *)
Lemma offsets_arith S tick i :
  0 < S -> 0 <= i ->
  let c := S <=? i mod S + tick mod S in
  let s := (i / S) mod S + ((tick / S) mod S + Z.b2z c) in
  (tick + i) mod S = (i mod S + tick mod S) mod S /\
  (tick + i) / S = tick / S + i / S + Z.b2z c /\
  ((tick + i) / S) mod S = s mod S /\
  ((tick + i) / S) / S = (tick / S) / S + (i / S) / S + Z.b2z (S <=? s).
Proof.
  intros HS Hi c s. destruct (carry_div S tick i 0 HS ltac:(lia)) as [H1 H2].
  rewrite !Z.add_0_r in H1, H2. fold c in H1.
  destruct (carry_div S (tick / S) (i / S) (Z.b2z c) HS) as [H3 H4]; [destruct c; simpl; lia|].
  rewrite H1. done.
Qed.

Lemma mod_square S i :
  0 < S ->
  let r := i - i / S / S * (S * S) in
  r / S = (i / S) mod S /\ r - (i / S) mod S * S = i mod S.
Proof.
  intros HS r. assert (r = i mod S + (i / S) mod S * S) as ->.
  { unfold r. rewrite Z.div_div by lia.
    pose proof (Z.div_mod i (S * S) ltac:(nia)). rewrite Z.rem_mul_r in H by lia. nia. }
  rewrite Z.div_add, (Z.div_small (i mod S)) by (try apply Z.mod_pos_bound; lia). lia.
Qed.

(** [timer_offsets] are the digits of the expiration tick. *)
Lemma timer_offsets_digits w L m due interval :
  inv g w L m due -> 0 <= interval ->
  let E := current_tick w + interval in
  timer_offsets g w interval =
  Some (digit g 0 E, if 1 <? WHEELS g then digit g 1 E else 0,
        if 2 <? WHEELS g then digit g 2 E else 0).
Proof.
  intros HI Hi E. unfold timer_offsets.
  rewrite (inv_idx0 g HI), (inv_idx1 g HI), (inv_idx2 g HI). cbn [mbind option_bind].
  pose proof (slots_pos g Hg) as HS. destruct slots_shift as (Hsh & Hsl & Hsh2 & Hsl2 & Hm).
  pose proof (wrap_digit 0 E) as W0. pose proof (wrap_digit 1 E) as W1. pose proof (wrap_digit 2 E) as W2.
  unfold digit in *. rewrite Z.pow_0_r, Z.pow_1_r, !Z.div_1_r, Z.pow_2_r in *.
  rewrite <- !Z.div_div in * by lia.
  destruct (offsets_arith (SLOTS g) (current_tick w) interval HS Hi) as (A0 & A1 & A2 & A3).
  fold E in A0, A1, A2, A3.
  destruct (Z.ltb_spec 2 (WHEELS g)), (Z.ltb_spec 1 (WHEELS g)); try lia; cbv beta iota.
  - rewrite Hsh2, Hsl2, Hsh, Hsl. destruct (mod_square (SLOTS g) interval HS) as [-> ->].
    rewrite !Hm, Z.mod_mod, <- A0, <- A2, W0, W1 by lia.
    rewrite A3 in W2 |- *. set (x := Z.b2z (SLOTS g <=? _ + (_ + _))) in *. clearbody x.
    replace (interval / SLOTS g / SLOTS g + ((current_tick w / SLOTS g / SLOTS g) mod SLOTS g + x))
      with ((current_tick w / SLOTS g / SLOTS g) mod SLOTS g + (interval / SLOTS g / SLOTS g + x)) by lia.
    rewrite Z.add_mod_idemp_l, Z.add_assoc, W2 by lia. done.
  - rewrite Hsh, Hsl, !Hm.
    replace (interval - interval / SLOTS g * SLOTS g) with (interval mod SLOTS g)
      by (pose proof (Z.div_mod interval (SLOTS g)); lia).
    rewrite Z.mod_mod, <- A0, W0 by lia.
    rewrite <- Z.add_mod_idemp_l, <- A2, W1 by lia. done.
  - rewrite !Hm, <- A0, W0. done.
Qed.

(** ** Where a timer is placed *)

Lemma horizon_loop_eq n h : 0 < h -> h * SLOTS g ^ Z.of_nat n < 2 ^ 64 ->
  horizon_loop g n h = Some (h * SLOTS g ^ Z.of_nat n).
Proof.
  pose proof (slots_pos g Hg). revert h. induction n as [|n IH]; intros h Hh Hb.
  - simpl. f_equal. lia.
  - rewrite Nat2Z.inj_succ, Z.pow_succ_r in * by lia. cbn [horizon_loop].
    pose proof (pow_slots_pos g Hg (Z.of_nat n) ltac:(lia)).
    destruct (Z.ltb_spec (h * SLOTS g) (2 ^ 64)); [|nia].
    rewrite IH by nia. f_equal. lia.
Qed.

Lemma horizon_eq : horizon g = Some (SLOTS g ^ WHEELS g).
Proof.
  destruct Hg as (HW & _ & Hb). unfold horizon.
  rewrite horizon_loop_eq; rewrite ?Z2Nat.id by lia; [f_equal|..]; lia.
Qed.

(** The timer leaves the current turn of the three rings. *)
Definition leaves_turn (tick interval : Z) : bool :=
  OVERFLOW g && (WHEELS g =? 3) && (tick / SLOTS g ^ 3 <? (tick + interval) / SLOTS g ^ 3).

Lemma div_block B a b : 0 < B -> (a + b) / B = a / B + (a mod B + b) / B.
Proof.
  intros HB. rewrite (Z.div_mod a B) at 1 by lia.
  replace (B * (a / B) + a mod B + b) with (a / B * B + (a mod B + b)) by lia.
  by rewrite Z.div_add_l by lia.
Qed.

Lemma should_overflow_spec w L m due interval :
  inv g w L m due -> 0 <= interval ->
  should_overflow g w interval = Some (leaves_turn (current_tick w) interval).
Proof.
  intros HI Hi. unfold should_overflow, leaves_turn.
  destruct (OVERFLOW g); [|done]. destruct (Z.eqb_spec (WHEELS g) 3) as [HW|]; [|done].
  cbn [negb andb]. rewrite horizon_eq. cbn [mbind option_bind]. rewrite HW. f_equal.
  pose proof (pow_slots_pos g Hg 3 ltac:(lia)) as HB.
  assert (SLOTS g ^ 3 < 2 ^ 64) as HB64 by (destruct Hg as (_ & _ & ?); congruence).
  assert (Z.land (current_tick w) (SLOTS g ^ 3 - 1) = current_tick w mod SLOTS g ^ 3) as ->.
  { destruct Hg as (_ & (K & HK & ->) & _). rewrite <- Z.pow_mul_r, <- Z.land_ones, Z.ones_equiv by lia. done. }
  rewrite (div_block _ (current_tick w) interval HB). unfold saturating_add.
  pose proof (Z.mod_pos_bound (current_tick w) _ HB).
  set (r := current_tick w mod SLOTS g ^ 3) in *. bool_iff. split.
  - intros Hle. assert (1 <= (r + interval) / SLOTS g ^ 3); [|lia].
    apply Z.div_le_lower_bound; lia.
  - intros Hlt. assert (1 <= (r + interval) / SLOTS g ^ 3) as Hq by lia.
    apply (Z.mul_le_mono_nonneg_l _ _ (SLOTS g ^ 3)) in Hq; [|lia].
    pose proof (Z.mul_div_le (r + interval) (SLOTS g ^ 3) HB). lia.
Qed.

(** The interval does not reach around the coarsest ring. *)
Definition direct_ok (tick interval : Z) : Prop :=
  if WHEELS g =? 1 then interval <= SLOTS g
  else interval + tick mod SLOTS g ^ (WHEELS g - 1) < SLOTS g ^ WHEELS g.

Lemma fits_strict tick (b : bool) r E f s :
  tick / SLOTS g ^ r < E / SLOTS g ^ r < tick / SLOTS g ^ r + SLOTS g ->
  (1 <= r -> f = digit g 0 E) -> (2 <= r -> s = digit g 1 E) ->
  fits g tick b r (digit g r E) E f s.
Proof. intros H1 H2 H3. unfold fits. split_and!; [destruct b|..]; auto; lia. Qed.

Lemma div_pow_succ r x : 0 <= r -> x / SLOTS g ^ (r + 1) = x / SLOTS g ^ r / SLOTS g.
Proof.
  intros Hr. pose proof (slots_pos g Hg). pose proof (pow_slots_pos g Hg r Hr).
  by rewrite Z.pow_add_r, Z.pow_1_r, Z.div_div by lia.
Qed.

(** Moving to a finer ring: same block above, so close below. *)
Lemma finer_ring r tick E :
  0 <= r -> E / SLOTS g ^ (r + 1) = tick / SLOTS g ^ (r + 1) ->
  E / SLOTS g ^ r < tick / SLOTS g ^ r + SLOTS g.
Proof. intros Hr. rewrite !div_pow_succ by done. apply block_close, slots_pos, Hg. Qed.

Lemma ring_later r tick E :
  0 <= r -> tick <= E -> E / SLOTS g ^ r < tick / SLOTS g ^ r + SLOTS g ->
  (digit g r E = digit g r tick -> E / SLOTS g ^ r = tick / SLOTS g ^ r) /\
  (digit g r E <> digit g r tick -> tick / SLOTS g ^ r < E / SLOTS g ^ r).
Proof.
  intros Hr Hle Hclose. pose proof (pow_slots_pos g Hg r Hr). pose proof (slots_pos g Hg).
  assert (tick / SLOTS g ^ r <= E / SLOTS g ^ r) by (apply Z.div_le_mono; lia).
  unfold digit. split; intros Hd.
  - apply (mod_eq_close (SLOTS g)); [done|lia|done].
  - destruct (Z.eq_dec (E / SLOTS g ^ r) (tick / SLOTS g ^ r)) as [Heq|]; [by rewrite Heq in Hd|lia].
Qed.

Lemma direct_close tick interval :
  1 < WHEELS g -> direct_ok tick interval ->
  (tick + interval) / SLOTS g ^ (WHEELS g - 1) < tick / SLOTS g ^ (WHEELS g - 1) + SLOTS g.
Proof.
  intros HW Hd. unfold direct_ok in Hd. destruct (Z.eqb_spec (WHEELS g) 1); [lia|].
  set (B := SLOTS g ^ (WHEELS g - 1)) in *.
  assert (0 < B) as HB by (apply pow_slots_pos; [done|lia]).
  assert (SLOTS g ^ WHEELS g = B * SLOTS g) as HBS.
  { unfold B. rewrite <- (Z.pow_1_r (SLOTS g)) at 3. rewrite <- Z.pow_add_r by lia. f_equal. lia. }
  rewrite div_block by done. apply Z.add_lt_mono_l, Z.div_lt_upper_bound; lia.
Qed.

(** The ring [place_timer_direct] chooses. *)
Definition glacier_case (tick E : Z) : bool :=
  (2 <? WHEELS g) && negb (digit g 2 E =? digit g 2 tick).
Definition slow_case (tick E : Z) : bool :=
  (1 <? WHEELS g) && negb (digit g 1 E =? digit g 1 tick).

Lemma direct_fits tick interval due :
  0 <= tick -> 1 <= interval -> direct_ok tick interval -> (WHEELS g = 1 -> due 0 = false) ->
  let E := tick + interval in
  if glacier_case tick E then fits g tick (due 2) 2 (digit g 2 E) E (digit g 0 E) (digit g 1 E)
  else if slow_case tick E then
    forall s, fits g tick (due 1) 1 (digit g 1 E) E (digit g 0 E) s
  else forall f s, fits g tick (due 0) 0 (digit g 0 E) E f s.
Proof.
  intros Ht Hi Hd Hdue E. pose proof (direct_close tick interval) as Hclose. fold E in Hclose.
  assert (tick <= E) as HtE by lia. pose proof Hg as (HW & _).
  assert (WHEELS g = 1 \/ WHEELS g = 2 \/ WHEELS g = 3) as Hcases by lia.
  assert (E / SLOTS g ^ 1 = tick / SLOTS g ^ 1 -> forall f s, fits g tick (due 0) 0 (digit g 0 E) E f s)
    as Hfast.
  { intros H1 f s. apply fits_strict; [|lia..]. rewrite !Z.pow_0_r, !Z.div_1_r. split; [lia|].
    pose proof (finer_ring 0 tick E ltac:(lia) H1) as Hf. by rewrite !Z.pow_0_r, !Z.div_1_r in Hf. }
  assert (E / SLOTS g ^ 1 < tick / SLOTS g ^ 1 + SLOTS g -> 1 < WHEELS g ->
    if slow_case tick E then forall s, fits g tick (due 1) 1 (digit g 1 E) E (digit g 0 E) s
    else forall f s, fits g tick (due 0) 0 (digit g 0 E) E f s) as Hslow.
  { intros Hc H1. destruct (ring_later 1 tick E ltac:(lia) HtE Hc) as [Heq Hne].
    unfold slow_case. rewrite (proj2 (Z.ltb_lt _ _) H1).
    destruct (Z.eqb_spec (digit g 1 E) (digit g 1 tick)) as [Hdg|Hdg]; cbn [negb andb].
    - by apply Hfast, Heq.
    - intros s. apply fits_strict; [|done|lia]. split; [by apply Hne|done]. }
  unfold glacier_case. destruct Hcases as [H1|[H2|H3]].
  - unfold slow_case, direct_ok in *. rewrite H1 in *. cbn. intros f s. unfold fits.
    rewrite Hdue, H1, !Z.pow_0_r, !Z.div_1_r by done. cbn in Hd. split_and!; intros; lia || done.
  - rewrite H2. cbn [Z.ltb Z.compare andb]. apply Hslow; [|lia].
    specialize (Hclose ltac:(lia) Hd). by rewrite H2 in Hclose.
  - specialize (Hclose ltac:(lia) Hd). rewrite H3 in Hclose. change (3 - 1) with 2 in Hclose.
    destruct (ring_later 2 tick E ltac:(lia) HtE Hclose) as [Heq Hne].
    rewrite H3. cbn [Z.ltb Z.compare andb]. change (2 <? 3) with true. cbn [andb].
    destruct (Z.eqb_spec (digit g 2 E) (digit g 2 tick)) as [Hdg|Hdg]; cbn [negb].
    + apply Hslow; [|lia]. apply (finer_ring 1 tick E); [lia|]. by apply Heq.
    + apply fits_strict; [|done|done]. split; [by apply Hne|done].
Qed.

(** ** The placing operations preserve the invariant *)

(** What a step leaves of the rest of the wheel. *)
Definition keeps (w w' : t T) (rest : list Z) : Prop :=
  current_tick w' = current_tick w /\ vlen (entries w') = vlen (entries w) /\
  forall i, i ∈ rest -> vget (entries w') i = vget (entries w) i.

Lemma keeps_trans w1 w2 w3 rest : keeps w1 w2 rest -> keeps w2 w3 rest -> keeps w1 w3 rest.
Proof.
  intros (H1 & H2 & H3) (H4 & H5 & H6). split; [congruence|]. split; [congruence|].
  intros i Hi. by rewrite H6, H3.
Qed.

Lemma set_bitmap_inv w L m due b :
  inv g w L m due -> bitmap_ok g (set_fast_bitmap b w) L -> inv g (set_fast_bitmap b w) L m due.
Proof. intros HI Hb. split; try apply HI. done. Qed.

Lemma add_to_list_bitmap w b h s w' :
  add_to_list (set_fast_bitmap b w) h s = Some w' ->
  exists w1, add_to_list w h s = Some w1 /\ fast_slot_bitmap w1 = fast_slot_bitmap w /\
    w' = set_fast_bitmap b w1.
Proof.
  unfold add_to_list. cbn [entries set_fast_bitmap]. intros H.
  repeat match type of H with
  | (mbind _ ?x) = _ => destruct x; [cbn [mbind option_bind] in H |- *|done]
  | (if ?x then _ else _) = _ => destruct x; [done|]
  end. simplify_eq. eexists. done.
Qed.

Lemma add_to_fast_slot_inv w L m due k s rest e :
  inv g w L m due -> L None = s :: rest -> vget (entries w) s = Some e -> 0 <= k < SLOTS g ->
  fits g (current_tick w) (due 0) 0 k (expiration_tick e) (fast_ring_offset e) (slow_ring_offset e) ->
  exists w', add_to_fast_slot g w k s = Some w' /\ inv g w' (joined L k s rest) m due /\
    keeps w w' rest.
Proof.
  intros HI HN He Hk Hfit. pose proof Hg as (HW & _).
  assert (entry_place g (current_tick w) due k e) as Hpl.
  { left. exists 0, k. split_and!; [lia..|done]. }
  unfold add_to_fast_slot. rewrite (inv_slot_head g Hg HI) by lia. cbn [mbind option_bind].
  replace (0 * SLOTS g + k) with k by lia.
  destruct (FAST_BITMAP g) eqn:HF.
  - destruct (inv_bitmap _ _ _ _ _ HI) as [Hwf Hbits].
    destruct (Bitmap.bitmap_set_total (fast_slot_bitmap w) k Hwf) as (b & Hset & Hwf' & Hb); [lia|].
    assert (inv g (set_fast_bitmap b w) L m due) as HI'.
    { apply set_bitmap_inv; [done|]. split; [done|]. intros _ i Hi Hne. cbn. rewrite Hb.
      destruct (decide (i = k)); [done|by apply Hbits]. }
    destruct (add_to_list_inv g Hg _ _ _ _ k s rest e HI' HN He Hpl) as (es' & Hadd & HI2 & Hlen & Hrest).
    { intros _ _. cbn. by rewrite Hb, decide_True. }
    destruct (add_to_list_bitmap _ _ _ _ _ Hadd) as (w1 & -> & Hb1 & Hw1).
    cbn [mbind option_bind]. rewrite Hb1, Hset. cbn [mbind option_bind]. rewrite <- Hw1.
    eexists. split; [done|]. split; [done|]. by split_and!.
  - destruct (add_to_list_inv g Hg _ _ _ _ k s rest e HI HN He Hpl) as (es' & -> & HI2 & Hlen & Hrest).
    { by rewrite HF. }
    cbn [mbind option_bind]. eexists. split; [done|]. split; [done|]. by split_and!.
Qed.

Definition offsets_only (f : entry T -> entry T) : Prop :=
  forall e, next (f e) = next e /\ prev (f e) = prev e /\ payload (f e) = payload e /\
    live (f e) = live e /\ expiration_tick (f e) = expiration_tick e.

(** Recording ring offsets in a pending entry. *)
Lemma set_offsets_inv w L m due s f es' :
  inv g w L m due -> s ∈ L None -> vupd (entries w) s f = Some es' ->
  offsets_only f -> inv g (set_entries es' w) L m due.
Proof.
  intros HI Hs Hes Hf.
  assert (forall i, vget es' i = (if decide (s = i) then f <$> vget (entries w) s else vget (entries w) i))
    as Hget by (intros i; by apply vget_vupd).
  assert (vlen es' = vlen (entries w)) as Hlen by (by eapply vupd_len).
  assert (forall h x, x ∈ L (Some h) -> s <> x) as Hne.
  { intros h x Hx ->. by apply (inv_pending_not_ring g HI x h). }
  split; cbn [current_tick current_index slot_heads overflow_head entries free len set_entries];
    rewrite ?Hlen; try apply HI.
  - intros h Hh. apply (ring_frame g _ _ _ _ _ _ HI Hh). intros i _. unfold nx, pv. rewrite Hget.
    destruct (decide (s = i)) as [<-|]; [|done].
    destruct (vget (entries w) s) as [e|]; [|done]. simpl. by destruct (Hf e) as (-> & -> & _).
  - intros x. rewrite (inv_repr _ _ _ _ _ HI x). unfold tm. rewrite Hget.
    destruct (decide (s = x)) as [<-|]; [|done]. destruct (vget (entries w) s) as [e|]; [|done].
    simpl. by destruct (Hf e) as (_ & _ & -> & _ & ->).
  - intros x ex. rewrite Hget. destruct (decide (s = x)) as [<-|]; [|apply HI].
    destruct (vget (entries w) s) as [e|] eqn:He; [|done]. simpl. intros. simplify_eq.
    destruct (Hf e) as (_ & _ & -> & -> & _). by apply (inv_live _ _ _ _ _ HI) in He.
  - intros h x ex Hx. rewrite Hget, decide_False by (by eapply Hne). by apply (inv_place _ _ _ _ _ HI).
Qed.

Lemma set_offsets_step w L m due s rest f e :
  inv g w L m due -> L None = s :: rest -> vget (entries w) s = Some e -> offsets_only f ->
  exists es', vupd (entries w) s f = Some es' /\ inv g (set_entries es' w) L m due /\
    vget es' s = Some (f e) /\ keeps w (set_entries es' w) rest.
Proof.
  intros HI HN He Hf. assert (s ∈ L None) as Hs by (rewrite HN; left).
  destruct (vupd_total (entries w) s f) as [es' Hes]; [by eapply vget_Some_bounds|].
  exists es'. split; [done|]. split; [by eapply set_offsets_inv|].
  split; [by rewrite (vget_vupd _ _ _ s _ Hes), decide_True, He by done|].
  split; [done|]. split; [by eapply vupd_len|]. intros i Hi. cbn.
  rewrite (vget_vupd _ _ _ i _ Hes), decide_False; [done|]. intros ->.
  pose proof (proj1 (inv_family _ _ _ _ _ HI) None) as Hnd. rewrite HN in Hnd.
  by apply NoDup_cons in Hnd as [].
Qed.

(** The entry waits in a slot of a coarser ring. *)
Lemma add_to_ring_inv w L m due r k s rest e :
  inv g w L m due -> L None = s :: rest -> vget (entries w) s = Some e ->
  1 <= r < WHEELS g -> 0 <= k < SLOTS g ->
  fits g (current_tick w) (due r) r k (expiration_tick e) (fast_ring_offset e) (slow_ring_offset e) ->
  slot_head g w r k = Some (r * SLOTS g + k) /\
  exists w', add_to_list w (r * SLOTS g + k) s = Some w' /\
    inv g w' (joined L (r * SLOTS g + k) s rest) m due /\ keeps w w' rest.
Proof.
  intros HI HN He Hr Hk Hfit. split; [apply (inv_slot_head g Hg HI); lia|].
  destruct (add_to_list_inv g Hg _ _ _ _ (r * SLOTS g + k) s rest e HI HN He) as (es' & -> & HI2 & Hlen & Hrest).
  - left. exists r, k. split_and!; [lia..|done].
  - intros _ ?. nia.
  - eexists. split; [done|]. split; [done|]. by split_and!.
Qed.

Lemma place_slow_inv w L m due s rest e :
  inv g w L m due -> L None = s :: rest -> vget (entries w) s = Some e -> 1 < WHEELS g ->
  (forall sl, fits g (current_tick w) (due 1) 1 (digit g 1 (expiration_tick e)) (expiration_tick e)
     (digit g 0 (expiration_tick e)) sl) ->
  exists w' L', (es ← vupd (entries w) s (with_fast (digit g 0 (expiration_tick e)));
     let w := set_entries es w in
     head ← slot_head g w 1 (digit g 1 (expiration_tick e)); add_to_list w head s) = Some w' /\
    inv g w' L' m due /\ L' None = rest /\ keeps w w' rest.
Proof.
  intros HI HN He HW Hfit.
  destruct (set_offsets_step w L m due s rest (with_fast (digit g 0 (expiration_tick e))) e HI HN He)
    as (es' & -> & HI1 & He1 & Hk1); [done|]. cbn [mbind option_bind].
  destruct (add_to_ring_inv _ _ _ _ 1 (digit g 1 (expiration_tick e)) s rest _ HI1 HN He1)
    as (-> & w' & Hadd & HI2 & Hk2); [lia|by apply digit_range|apply Hfit|].
  cbn [mbind option_bind]. exists w'. eexists. split; [exact Hadd|]. split; [done|].
  split; [apply joined_None|by eapply keeps_trans].
Qed.

Lemma place_glacier_inv w L m due s rest e :
  inv g w L m due -> L None = s :: rest -> vget (entries w) s = Some e -> 2 < WHEELS g ->
  fits g (current_tick w) (due 2) 2 (digit g 2 (expiration_tick e)) (expiration_tick e)
     (digit g 0 (expiration_tick e)) (digit g 1 (expiration_tick e)) ->
  exists w' L', (es ← vupd (entries w) s (with_slow (digit g 1 (expiration_tick e)));
     es ← vupd es s (with_fast (digit g 0 (expiration_tick e)));
     let w := set_entries es w in
     head ← slot_head g w 2 (digit g 2 (expiration_tick e)); add_to_list w head s) = Some w' /\
    inv g w' L' m due /\ L' None = rest /\ keeps w w' rest.
Proof.
  intros HI HN He HW Hfit.
  destruct (set_offsets_step w L m due s rest (with_slow (digit g 1 (expiration_tick e))) e HI HN He)
    as (es1 & -> & HI1 & He1 & Hk1); [done|]. cbn [mbind option_bind].
  destruct (set_offsets_step _ L m due s rest (with_fast (digit g 0 (expiration_tick e))) _ HI1 HN He1)
    as (es2 & Hes2 & HI2 & He2 & Hk2); [done|]. cbn [entries set_entries] in Hes2. rewrite Hes2.
  cbn [mbind option_bind].
  destruct (add_to_ring_inv _ _ _ _ 2 (digit g 2 (expiration_tick e)) s rest _ HI2 HN He2)
    as (Hh & w' & Hadd & HI3 & Hk3); [lia|by apply digit_range|apply Hfit|].
  change (set_entries es2 (set_entries es1 w)) with (set_entries es2 w) in *. rewrite Hh.
  cbn [mbind option_bind]. exists w'. eexists. split; [exact Hadd|]. split; [done|].
  split; [apply joined_None|]. eapply keeps_trans; [exact Hk1|]. by eapply keeps_trans; [exact Hk2|].
Qed.

Lemma place_timer_direct_inv w L m due s rest e interval :
  inv g w L m due -> L None = s :: rest -> vget (entries w) s = Some e ->
  1 <= interval -> expiration_tick e = current_tick w + interval ->
  direct_ok (current_tick w) interval -> (WHEELS g = 1 -> due 0 = false) ->
  exists w' L', place_timer_direct g w s interval = Some w' /\ inv g w' L' m due /\
    L' None = rest /\ keeps w w' rest.
Proof.
  intros HI HN He Hi HE Hd Hdue. pose proof (inv_tick _ _ _ _ _ HI) as Ht.
  pose proof (direct_fits (current_tick w) interval due ltac:(lia) Hi Hd Hdue) as Hfits. cbv zeta in Hfits.
  rewrite <- HE in Hfits. unfold place_timer_direct.
  rewrite (timer_offsets_digits _ _ _ _ _ HI), <- HE by lia.
  rewrite (inv_idx1 g HI), (inv_idx2 g HI). cbn [mbind option_bind].
  assert (((2 <? WHEELS g) && negb ((if 2 <? WHEELS g then digit g 2 (expiration_tick e) else 0) =?
             (if 2 <? WHEELS g then digit g 2 (current_tick w) else 0)))
    = glacier_case (current_tick w) (expiration_tick e)) as ->.
  { unfold glacier_case. by destruct (2 <? WHEELS g). }
  assert (((1 <? WHEELS g) && negb ((if 1 <? WHEELS g then digit g 1 (expiration_tick e) else 0) =?
             (if 1 <? WHEELS g then digit g 1 (current_tick w) else 0)))
    = slow_case (current_tick w) (expiration_tick e)) as ->.
  { unfold slow_case. by destruct (1 <? WHEELS g). }
  destruct (glacier_case (current_tick w) (expiration_tick e)) eqn:Eg.
  - unfold glacier_case in Eg. bool_prop. rewrite (proj2 (Z.ltb_lt 2 _)), (proj2 (Z.ltb_lt 1 _)) by lia.
    by apply (place_glacier_inv w L m due s rest e HI HN He).
  - destruct (slow_case (current_tick w) (expiration_tick e)) eqn:Es.
    + unfold slow_case in Es. bool_prop. rewrite (proj2 (Z.ltb_lt 1 _)) by lia.
      by apply (place_slow_inv w L m due s rest e HI HN He).
    + destruct (add_to_fast_slot_inv w L m due (digit g 0 (expiration_tick e)) s rest e HI HN He)
        as (w' & Hadd & HI' & Hk'); [by apply digit_range|apply Hfits|].
      exists w'. eexists. split; [done|]. split; [done|]. split; [apply joined_None|done].
Qed.

(** An interval the wheel can hold: beyond the last ring only with overflow. *)
Definition placeable (tick interval : Z) : Prop :=
  leaves_turn tick interval = false -> direct_ok tick interval.

Lemma place_timer_inv w L m due s rest e interval :
  inv g w L m due -> L None = s :: rest -> vget (entries w) s = Some e ->
  1 <= interval -> expiration_tick e = current_tick w + interval ->
  placeable (current_tick w) interval -> (WHEELS g = 1 -> due 0 = false) ->
  exists w' L', place_timer g w s interval = Some w' /\ inv g w' L' m due /\
    L' None = rest /\ keeps w w' rest.
Proof.
  intros HI HN He Hi HE Hpl Hdue. unfold place_timer.
  rewrite (should_overflow_spec _ _ _ _ _ HI) by lia. cbn [mbind option_bind].
  unfold placeable in Hpl. destruct (leaves_turn (current_tick w) interval) eqn:El.
  - unfold leaves_turn in El. bool_prop.
    assert (overflow_head w = WHEELS g * SLOTS g) as -> by (by apply (inv_overflow _ _ _ _ _ HI)).
    destruct (add_to_list_inv g Hg w L m due (WHEELS g * SLOTS g) s rest e HI HN He)
      as (es' & -> & HI' & Hlen & Hrest).
    + right. split; [done|]. split; [done|]. split; [done|]. rewrite HE. destruct (due 3); lia.
    + pose proof (slots_pos g Hg). intros _ ?. nia.
    + eexists _, _. split; [done|]. split; [done|]. split; [apply joined_None|]. by split_and!.
  - by apply (place_timer_direct_inv w L m due s rest e); auto.
Qed.

End place.
End TimerPlace.
