(* ===== verification/InfraTimerTicks.v ===== *)
(** * Ticks and operations of the timer wheel

    The loops that empty a ring, the cascade of a tick, and the theorems about
    [start], [stop], [update] and [expire] against the abstract map. *)

From stdpp Require Import functions.
From S2P Require Import Prelude InfraBitmap InfraTimerWheel InfraTimerLists InfraTimerProofs.
From S2P Require Import InfraTimerPlace.

Module TimerTicks.
Import TimerWheel TimerLists TimerProofs TimerPlace.

Section ticks.
Context (g : geometry) {T : Type} (Hg : geometry_ok g).
Implicit Types (w : t T) (m : gmap Z (T * Z)) (L : option Z -> list Z) (due : Z -> bool)
  (e : entry T).

(** ** Emptying a ring *)

Section drain.
Context (body : t T -> Z -> list T -> option (t T * list T)) (head tick : Z) (due : Z -> bool).
Context (C : Z -> Z -> Z -> Prop) (I : (option Z -> list Z) -> Prop).

(** What a loop body does with one detached entry: it expires it, if due, or
    puts it into another ring. *)
Definition body_ok : Prop := forall w L m s rest e x,
  inv g w L m due -> I L -> L None = s :: rest -> vget (entries w) s = Some e ->
  C (expiration_tick e) (fast_ring_offset e) (slow_ring_offset e) -> current_tick w = tick ->
  exists w' L' m' ps, body w s x = Some (w', x ++ ps) /\ inv g w' L' m' due /\ I L' /\
    L' None = rest /\ keeps w w' rest /\ due_run tick m ps m'.

Lemma drain_inv l fuel w L m nxt x :
  body_ok -> 0 <= head < heads g ->
  inv g w L m due -> I L -> L None = l -> next_chain (nx (entries w)) nxt l head ->
  (forall s e, s ∈ l -> vget (entries w) s = Some e ->
     C (expiration_tick e) (fast_ring_offset e) (slow_ring_offset e)) ->
  current_tick w = tick -> (length l <= fuel)%nat ->
  exists w' L' m' ps, drain fuel body head nxt w x = Some (w', x ++ ps) /\ inv g w' L' m' due /\
    I L' /\ L' None = [] /\ current_tick w' = tick /\ due_run tick m ps m'.
Proof.
  intros Hbody Hh. revert fuel w L m nxt x.
  induction l as [|s l IH]; intros fuel w L m nxt x HI HIL HN Hc HC Ht Hf.
  { simpl in Hc. subst nxt. exists w, L, m, []. rewrite app_nil_r.
    split_and!; [|done..|constructor]. destruct fuel; cbn [drain]; by rewrite Z.eqb_refl. }
  destruct Hc as (-> & n & Hn & Hc). destruct fuel as [|fuel]; [simpl in Hf; lia|].
  assert (s ∈ L None) as Hs by (rewrite HN; left).
  destruct (inv_member g HI _ _ Hs) as (Hsr & _).
  apply nx_get in Hn as (e & He & <-). cbn [drain].
  destruct (Z.eqb_spec s head); [lia|]. rewrite He. cbn [mbind option_bind].
  destruct (detach_inv g Hg _ _ _ _ _ HI Hs) as (es1 & -> & HI1 & Hcore & Hsame).
  cbn [mbind option_bind].
  assert (s ∉ l) as Hsl.
  { pose proof (proj1 (inv_family _ _ _ _ _ HI) None) as Hnd. rewrite HN in Hnd.
    by apply NoDup_cons in Hnd as []. }
  destruct (vget es1 s) as [e1|] eqn:He1.
  2:{ destruct Hcore as [_ Hcore]. specialize (Hcore s). by rewrite He1, He in Hcore. }
  destruct (same_core_get _ _ _ _ Hcore He1) as (e' & He' & Hcc).
  assert (e' = e) as -> by congruence.
  apply core_fields in Hcc as (_ & _ & Hcf & Hcs & Hce).
  destruct (Hbody _ _ _ s l e1 x HI1 HIL HN He1) as (w2 & L2 & m2 & ps & -> & HI2 & HIL2 & HN2 & Hk & Hrun).
  { rewrite <- Hcf, <- Hcs, <- Hce. apply (HC s); [left|done]. }
  { done. }
  cbn [mbind option_bind]. destruct Hk as (Hkt & _ & Hk). cbn [entries set_entries] in Hk.
  assert (forall i, i ∈ l -> vget (entries w2) i = vget (entries w) i) as Hkeep.
  { intros i Hi. rewrite Hk, Hsame; [done|by intros ->|done]. }
  destruct (IH fuel w2 L2 m2 (next e) (x ++ ps) HI2 HIL2 HN2)
    as (w' & L' & m' & ps' & Hd & HI' & HIL' & HN' & Ht' & Hrun').
  - eapply next_chain_frame; [|exact Hc]. intros i Hi. unfold nx. by rewrite Hkeep.
  - intros i ei Hi. rewrite Hkeep by done. apply HC. by right.
  - by rewrite Hkt.
  - simpl in Hf. lia.
  - exists w', L', m', (ps ++ ps'). rewrite app_assoc. split_and!; [done..|].
    by eapply due_run_app.
Qed.

End drain.

(** A list of entries is no longer than the entry array. *)
Lemma members_length w L m due o : inv g w L m due -> (length (L o) <= length (entries w))%nat.
Proof.
  intros HI. rewrite <- (length_zseq 0 (length (entries w))). apply submseteq_length.
  apply NoDup_submseteq; [apply (inv_family _ _ _ _ _ HI)|]. intros s Hs.
  apply (inv_member g HI) in Hs as [Hr _]. pose proof (heads_nonneg g Hg).
  apply elem_of_zseq. unfold vlen in Hr. lia.
Qed.

Lemma drain_ring_inv body h w L m due due' (C : Z -> Z -> Z -> Prop) (I : (option Z -> list Z) -> Prop) x :
  body_ok body (current_tick w) due' C I -> I (taken L h) ->
  inv g w L m due -> L None = [] -> 0 <= h < heads g ->
  (forall k s e, k <> h -> s ∈ L (Some k) -> vget (entries w) s = Some e ->
     entry_place g (current_tick w) due' k e) ->
  (forall s e, s ∈ L (Some h) -> vget (entries w) s = Some e ->
     C (expiration_tick e) (fast_ring_offset e) (slow_ring_offset e)) ->
  exists w' L' m' ps, drain_ring body h w x = Some (w', x ++ ps) /\ inv g w' L' m' due' /\
    I L' /\ L' None = [] /\ current_tick w' = current_tick w /\ due_run (current_tick w) m ps m'.
Proof.
  intros Hbody HIL HI HN Hh Hpl HC.
  destruct (take_list_inv g w L m due h due' HI HN Hh Hpl) as (es & first & Ht & HI1 & Hcore & Hchain).
  unfold drain_ring. rewrite Ht. cbn [mbind option_bind].
  eapply (drain_inv body h (current_tick w) due' C I (L (Some h))); try done.
  - intros s e Hs He. destruct (same_core_get _ _ _ _ Hcore He) as (e0 & He0 & Hcc).
    apply core_fields in Hcc as (_ & _ & <- & <- & <-). by eapply HC.
  - cbn. destruct Hcore as [Hlen _]. unfold vlen in Hlen.
    pose proof (members_length w L m due (Some h) HI). lia.
Qed.

(** ** The loop bodies *)

Lemma expire_timer_inv w L m due s rest e x :
  inv g w L m due -> L None = s :: rest -> vget (entries w) s = Some e ->
  expiration_tick e = current_tick w ->
  exists w' p, expire_timer w s x = Some (w', x ++ [p]) /\
    inv g w' (dropped L rest) (delete s m) due /\ keeps w w' rest /\
    due_run (current_tick w) m [p] (delete s m).
Proof.
  intros HI HN He HE. assert (s ∈ L None) as Hs by (rewrite HN; left).
  destruct (inv_member g HI _ _ Hs) as (_ & e' & p & He' & Hlive & Hpay & Hm). simplify_eq.
  destruct (free_timer_inv g Hg _ _ _ _ _ _ HI HN) as (w' & Hfree & HI' & Ht & Hlen & Hsame).
  exists w', p. unfold expire_timer. rewrite He. cbn [mbind option_bind].
  rewrite Hlive, Hpay. cbn [negb mbind option_bind]. rewrite Hfree. split; [done|].
  split; [done|]. split; [|apply due_run_one; congruence].
  split; [done|]. split; [done|]. intros i Hi. apply Hsame. intros ->.
  pose proof (proj1 (inv_family _ _ _ _ _ HI) None) as Hnd. rewrite HN in Hnd.
  by apply NoDup_cons in Hnd as [].
Qed.

Lemma expire_body_ok tick due h :
  body_ok expire_timer tick due (fun E _ _ => E = tick) (fun L => L (Some h) = []).
Proof.
  intros w L m s rest e x HI HIL HN He HE <-.
  destruct (expire_timer_inv w L m due s rest e x HI HN He HE) as (w' & p & Hex & HI' & Hk & Hrun).
  eexists _, _, _, [p]. split_and!; [done|done|by rewrite dropped_Some|apply dropped_None|done|done].
Qed.

Lemma slow_body_ok tick due :
  1 < WHEELS g -> 
  body_ok (slow_body g) tick due
    (fun E f _ => E / SLOTS g ^ 1 = tick / SLOTS g ^ 1 /\ f = digit g 0 E) (fun _ => True).
Proof.
  intros HW w L m s rest e x HI _ HN He [HE Hf] <-. unfold slow_body.
  rewrite He. cbn [mbind option_bind]. rewrite (inv_idx0 g HI). cbn [mbind option_bind].
  assert (s ∈ L None) as Hs by (rewrite HN; left).
  destruct (inv_member g HI _ _ Hs) as (_ & e' & p & He' & _ & _ & Hm).
  assert (e' = e) as -> by congruence.
  apply (inv_future _ _ _ _ _ HI) in Hm as Hfut.
  pose proof (finer_ring g Hg 0 _ _ ltac:(lia) HE) as Hclose.
  destruct (ring_later g Hg 0 (current_tick w) (expiration_tick e) ltac:(lia) ltac:(lia) Hclose)
    as [Heq Hne].
  rewrite Hf. destruct (Z.eqb_spec (digit g 0 (expiration_tick e)) (digit g 0 (current_tick w))) as [Hd|Hd].
  - apply Heq in Hd. rewrite !Z.pow_0_r, !Z.div_1_r in Hd.
    destruct (expire_timer_inv w L m due s rest e x HI HN He Hd) as (w' & q & Hex & HI' & Hk & Hrun).
    eexists _, _, _, [q]. split_and!; [done..|apply dropped_None|done|done].
  - destruct (add_to_fast_slot_inv g Hg w L m due (digit g 0 (expiration_tick e)) s rest e HI HN He)
      as (w' & -> & HI' & Hk); [by apply digit_range|apply fits_strict; [split; auto|lia..]|].
    cbn [mbind option_bind]. eexists _, _, _, []. rewrite app_nil_r.
    split_and!; [done..|apply joined_None|done|constructor].
Qed.

Lemma glacier_body_ok tick due :
  2 < WHEELS g ->
  body_ok (glacier_body g) tick due
    (fun E f sl => E / SLOTS g ^ 2 = tick / SLOTS g ^ 2 /\ f = digit g 0 E /\ sl = digit g 1 E)
    (fun _ => True).
Proof.
  intros HW w L m s rest e x HI _ HN He (HE & Hf & Hsl) <-. unfold glacier_body.
  rewrite He. cbn [mbind option_bind]. rewrite (inv_idx0 g HI), (inv_idx1 g HI). cbn [mbind option_bind].
  rewrite (proj2 (Z.ltb_lt 1 _)) by lia.
  assert (s ∈ L None) as Hs by (rewrite HN; left).
  destruct (inv_member g HI _ _ Hs) as (_ & e' & p & He' & _ & _ & Hm).
  assert (e' = e) as -> by congruence. apply (inv_future _ _ _ _ _ HI) in Hm as Hfut.
  pose proof (finer_ring g Hg 1 _ _ ltac:(lia) HE) as Hclose1.
  destruct (ring_later g Hg 1 (current_tick w) (expiration_tick e) ltac:(lia) ltac:(lia) Hclose1)
    as [Heq1 Hne1].
  rewrite Hf, Hsl.
  destruct (Z.eqb_spec (digit g 1 (expiration_tick e)) (digit g 1 (current_tick w))) as [Hd1|Hd1];
    cbn [andb].
  - apply Heq1 in Hd1. pose proof (finer_ring g Hg 0 _ _ ltac:(lia) Hd1) as Hclose.
    destruct (ring_later g Hg 0 (current_tick w) (expiration_tick e) ltac:(lia) ltac:(lia) Hclose)
      as [Heq Hne].
    destruct (Z.eqb_spec (digit g 0 (expiration_tick e)) (digit g 0 (current_tick w))) as [Hd|Hd].
    + apply Heq in Hd. rewrite !Z.pow_0_r, !Z.div_1_r in Hd.
      destruct (expire_timer_inv w L m due s rest e x HI HN He Hd) as (w' & q & Hex & HI' & Hk & Hrun).
      eexists _, _, _, [q]. split_and!; [done..|apply dropped_None|done|done].
    + destruct (add_to_fast_slot_inv g Hg w L m due (digit g 0 (expiration_tick e)) s rest e HI HN He)
        as (w' & -> & HI' & Hk); [by apply digit_range|apply fits_strict; [split; auto|lia..]|].
      cbn [mbind option_bind]. eexists _, _, _, []. rewrite app_nil_r.
      split_and!; [done..|apply joined_None|done|constructor].
  - destruct (add_to_ring_inv g Hg w L m due 1 (digit g 1 (expiration_tick e)) s rest e HI HN He)
      as (-> & w' & Hadd & HI' & Hk);
      [lia|by apply digit_range|apply fits_strict; [split; auto|done|lia]|].
    cbn [mbind option_bind]. rewrite Hadd. cbn [mbind option_bind]. eexists _, _, _, [].
    rewrite app_nil_r. split_and!; [done..|apply joined_None|done|constructor].
Qed.

(** With an overflow list every interval can be placed. *)
Lemma placeable_overflow tick interval :
  OVERFLOW g = true -> WHEELS g = 3 -> 0 <= interval -> placeable g tick interval.
Proof.
  intros HO HW Hi. unfold placeable, leaves_turn, direct_ok. rewrite HO, HW. cbn [andb Z.eqb Pos.eqb].
  intros Hl. apply Z.ltb_ge in Hl. change (3 - 1) with 2.
  pose proof (pow_slots_pos g Hg 3 ltac:(lia)) as HB. pose proof (pow_slots_pos g Hg 2 ltac:(lia)) as HB2.
  rewrite (div_block _ tick interval HB) in Hl.
  pose proof (Z.mod_pos_bound tick _ HB). pose proof (Z.mod_pos_bound tick _ HB2).
  assert (tick mod SLOTS g ^ 3 + interval < SLOTS g ^ 3) as Hlt.
  { apply Z.nle_gt. intros Hge. assert (1 <= (tick mod SLOTS g ^ 3 + interval) / SLOTS g ^ 3); [|lia].
    apply Z.div_le_lower_bound; lia. }
  assert (tick mod SLOTS g ^ 2 <= tick mod SLOTS g ^ 3); [|lia].
  replace (SLOTS g ^ 3) with (SLOTS g ^ 2 * SLOTS g) by lia.
  pose proof (slots_pos g Hg). rewrite Z.rem_mul_r by lia.
  pose proof (Z.mod_pos_bound (tick / SLOTS g ^ 2) (SLOTS g) ltac:(lia)). nia.
Qed.

Lemma overflow_body_ok tick due :
  OVERFLOW g = true -> WHEELS g = 3 ->
  body_ok (overflow_body g) tick due (fun _ _ _ => True) (fun _ => True).
Proof.
  intros HO HW w L m s rest e x HI _ HN He _ <-. unfold overflow_body. rewrite He. cbn [mbind option_bind].
  assert (s ∈ L None) as Hs by (rewrite HN; left).
  destruct (inv_member g HI _ _ Hs) as (_ & e' & p & He' & _ & _ & Hm).
  assert (e' = e) as -> by congruence. apply (inv_future _ _ _ _ _ HI) in Hm as Hfut.
  destruct (Z.leb_spec (expiration_tick e) (current_tick w)).
  - destruct (expire_timer_inv w L m due s rest e x HI HN He ltac:(lia)) as (w' & q & Hex & HI' & Hk & Hrun).
    eexists _, _, _, [q]. split_and!; [done..|apply dropped_None|done|done].
  - destruct (place_timer_inv g Hg w L m due s rest e (expiration_tick e - current_tick w) HI HN He)
      as (w' & L' & Hpl & HI' & HN' & Hk); [lia|lia|apply placeable_overflow; done || lia|lia|].
    unfold place_timer in Hpl. rewrite (should_overflow_spec g Hg _ _ _ _ _ HI) in Hpl |- * by lia.
    cbn [mbind option_bind] in Hpl |- *. rewrite Hpl. cbn [mbind option_bind].
    eexists _, _, _, []. rewrite app_nil_r. split_and!; [done..|constructor].
Qed.

(** ** Rings that stop being due *)

Lemma head_split r k r' k' :
  0 <= k < SLOTS g -> 0 <= k' < SLOTS g -> r * SLOTS g + k = r' * SLOTS g + k' -> r = r' /\ k = k'.
Proof. intros Hk Hk' H. assert (r = r') by nia. subst. split; [done|lia]. Qed.

(** Outside its current slot a due ring holds only later timers. *)
Lemma place_settle tick due due' r h E f s :
  0 <= r < 3 -> (forall r', r' <> r -> due' r' = due r') -> due' r = false ->
  h <> r * SLOTS g + digit g r tick -> place g tick due h E f s -> place g tick due' h E f s.
Proof.
  intros Hr Hsame Hd Hh [(r' & k & Hr' & Hk & -> & Hfit)|(-> & Hov)].
  2:{ right. split; [done|]. by rewrite Hsame by lia. }
  left. exists r', k. split_and!; [lia..|done|].
  destruct (decide (r' = r)) as [->|Hne]; [|by rewrite Hsame].
  rewrite Hd. destruct (due r); [|done]. destruct Hfit as (H1 & H2 & H3 & H4 & H5 & H6).
  unfold fits. split_and!; try done; [|by intros [?|?]; [apply H3; by left|]].
  destruct (Z.eq_dec (E / SLOTS g ^ r) (tick / SLOTS g ^ r)) as [Heq|]; [|lia].
  exfalso. apply Hh. f_equal. rewrite H4. unfold digit. by rewrite Heq.
Qed.

(** In its current slot a due ring holds the timers of the current block. *)
Lemma place_current tick due r E f s :
  0 <= r < WHEELS g -> due r = true -> place g tick due (r * SLOTS g + digit g r tick) E f s ->
  E / SLOTS g ^ r = tick / SLOTS g ^ r /\ (1 <= r -> f = digit g 0 E) /\ (2 <= r -> s = digit g 1 E).
Proof.
  intros Hr Hd [(r' & k & Hr' & Hk & Hh & Hfit)|(Hh & _)].
  - apply head_split in Hh as [<- <-]; [|by apply digit_range|done].
    rewrite Hd in Hfit. destruct Hfit as (H1 & H2 & H3 & H4 & H5 & H6).
    split; [|done]. apply (mod_eq_close (SLOTS g)); [by apply slots_pos| |done].
    split; [done|]. apply H3. by right.
  - pose proof (digit_range g Hg r tick). nia.
Qed.

(** The overflow list stops being due. *)
Lemma place_settle_overflow tick due due' h E f s :
  (forall r, r < 3 -> due' r = due r) -> due' 3 = false -> h <> WHEELS g * SLOTS g ->
  WHEELS g <= 3 -> place g tick due h E f s -> place g tick due' h E f s.
Proof.
  intros Hsame Hd Hh HW [(r & k & Hr & Hk & -> & Hfit)|(-> & _)]; [|done].
  left. exists r, k. split_and!; [lia..|done|]. by rewrite Hsame by lia.
Qed.

(** ** Advancing the clock *)

(** Ring [r] reaches a new slot when the tick after [tick] begins. *)
Definition turns (tick r : Z) : bool := negb ((tick + 1) / SLOTS g ^ r =? tick / SLOTS g ^ r).

(** The rings below [n] that turned are still due. *)
Definition stage (tick n r : Z) : bool := turns tick r && (r <? n).

Lemma turns_spec tick r :
  0 <= r ->
  if turns tick r then (tick + 1) / SLOTS g ^ r = tick / SLOTS g ^ r + 1
  else (tick + 1) / SLOTS g ^ r = tick / SLOTS g ^ r.
Proof.
  intros Hr. unfold turns. pose proof (pow_slots_pos g Hg r Hr) as HB.
  destruct (Z.eqb_spec ((tick + 1) / SLOTS g ^ r) (tick / SLOTS g ^ r)) as [|Hne]; [done|]. cbn [negb].
  assert (tick / SLOTS g ^ r <= (tick + 1) / SLOTS g ^ r) by (apply Z.div_le_mono; lia).
  assert ((tick + 1) / SLOTS g ^ r <= (tick + SLOTS g ^ r) / SLOTS g ^ r) as Hle
    by (apply Z.div_le_mono; lia).
  rewrite <- (Z.mul_1_l (SLOTS g ^ r)) in Hle at 2. rewrite Z.div_add in Hle by lia. lia.
Qed.

Lemma turns_0 tick : turns tick 0 = true.
Proof. unfold turns. rewrite !Z.pow_0_r, !Z.div_1_r. apply negb_true_iff, Z.eqb_neq. lia. Qed.

Lemma digit_step tick r :
  0 <= r -> turns tick r = true ->
  (digit g r tick + 1 =? SLOTS g) = turns tick (r + 1) /\
  digit g r (tick + 1) = if turns tick (r + 1) then 0 else digit g r tick + 1.
Proof.
  intros Hr Ht. pose proof (turns_spec tick r Hr) as Hx. rewrite Ht in Hx.
  unfold turns, digit. rewrite !(div_pow_succ g Hg) by done. rewrite Hx.
  pose proof (slots_pos g Hg) as HS. set (x := tick / SLOTS g ^ r). set (S := SLOTS g) in *.
  pose proof (Z.div_mod x S ltac:(lia)). pose proof (Z.mod_pos_bound x S HS).
  destruct (Z.eqb_spec (x mod S + 1) S) as [He|He].
  - assert ((x + 1) / S = x / S + 1) as ->
      by (symmetry; apply (Z.div_unique _ _ _ 0); lia).
    destruct (Z.eqb_spec (x / S + 1) (x / S)); [lia|]. split; [done|]. cbn [negb].
    symmetry. apply (Z.mod_unique _ _ (x / S + 1)); lia.
  - assert ((x + 1) / S = x / S) as ->
      by (symmetry; apply (Z.div_unique _ _ _ (x mod S + 1)); lia).
    rewrite Z.eqb_refl. split; [done|]. cbn [negb].
    symmetry. apply (Z.mod_unique _ _ (x / S)); lia.
Qed.

Lemma digit_same tick r :
  0 <= r -> turns tick r = false ->
  digit g r (tick + 1) = digit g r tick /\ turns tick (r + 1) = false.
Proof.
  intros Hr Ht. pose proof (turns_spec tick r Hr) as Hx. rewrite Ht in Hx.
  unfold turns, digit. rewrite !(div_pow_succ g Hg) by done. rewrite Hx, Z.eqb_refl. done.
Qed.

Lemma advance_ring_at w tick a b c :
  let turn x := if x + 1 =? SLOTS g then 0 else x + 1 in
  advance_ring g (set_tick tick [a; b; c] w) 0 = Some (set_tick tick [turn a; b; c] w, a + 1 =? SLOTS g) /\
  advance_ring g (set_tick tick [a; b; c] w) 1 = Some (set_tick tick [a; turn b; c] w, b + 1 =? SLOTS g) /\
  advance_ring g (set_tick tick [a; b; c] w) 2 = Some (set_tick tick [a; b; turn c] w, c + 1 =? SLOTS g).
Proof. done. Qed.

(** The digit of one ring after a tick, as [advance_ring] computes it. *)
Lemma digit_advance tick r :
  0 <= r ->
  digit g r (tick + 1) =
  (if turns tick r then if digit g r tick + 1 =? SLOTS g then 0 else digit g r tick + 1
   else digit g r tick) /\
  turns tick (r + 1) = turns tick r && (digit g r tick + 1 =? SLOTS g).
Proof.
  intros Hr. destruct (turns tick r) eqn:Et.
  - destruct (digit_step tick r Hr Et) as [-> ->]. done.
  - by apply digit_same.
Qed.

(** The three [advance_ring] calls leave the digits of the new tick. *)
Lemma advance_rings_spec w L m due :
  inv g w L m due ->
  let tick := current_tick w in
  let w0 := set_tick (tick + 1) (current_index w) w in
  exists w1 w2,
    advance_ring g w0 0 = Some (w1, turns tick 1) /\
    (if turns tick 1 && (1 <? WHEELS g) then advance_ring g w1 1 else Some (w1, false))
      = Some (w2, turns tick 2 && (1 <? WHEELS g)) /\
    (if (turns tick 2 && (1 <? WHEELS g)) && (2 <? WHEELS g) then advance_ring g w2 2
     else Some (w2, false))
      = Some (set_tick (tick + 1) (index_of g (tick + 1)) w, turns tick 3 && (2 <? WHEELS g)).
Proof.
  intros HI tick w0. unfold w0. rewrite (inv_index _ _ _ _ _ HI). fold tick. unfold index_of.
  destruct (digit_advance tick 0 ltac:(lia)) as [-> T1]. destruct (digit_advance tick 1 ltac:(lia)) as [-> T2].
  destruct (digit_advance tick 2 ltac:(lia)) as [-> T3].
  change (0 + 1) with 1 in T1. change (1 + 1) with 2 in T2. change (2 + 1) with 3 in T3.
  rewrite turns_0 in T1 |- *. cbn [andb] in T1.
  rewrite (proj1 (advance_ring_at _ _ _ _ _)), <- T1.
  exists (set_tick (tick + 1) [if turns tick 1 then 0 else digit g 0 tick + 1;
    if 1 <? WHEELS g then digit g 1 tick else 0; if 2 <? WHEELS g then digit g 2 tick else 0] w).
  destruct (turns tick 1) eqn:E1; rewrite T2 in *; cbn [andb].
  2:{ eexists. rewrite T3. split_and!; done. }
  destruct (1 <? WHEELS g) eqn:HW1; cbn [andb].
  2:{ assert ((2 <? WHEELS g) = false) as -> by (apply Z.ltb_ge in HW1; apply Z.ltb_ge; lia).
      eexists. rewrite !andb_false_r. split_and!; done. }
  eexists. rewrite (proj1 (proj2 (advance_ring_at _ _ _ _ _))), andb_true_r. split; [done|]. split; [done|].
  rewrite T3. destruct (digit g 1 tick + 1 =? SLOTS g) eqn:E2; cbn [andb]; [|done].
  destruct (2 <? WHEELS g) eqn:HW2; [|by rewrite andb_false_r].
  rewrite (proj2 (proj2 (advance_ring_at _ _ _ _ _))). by rewrite andb_true_r.
Qed.

(** A timer placed before the tick is placed, possibly due, after it. *)
Lemma place_tick tick h E f s :
  WHEELS g <= 3 ->
  place g tick (fun _ => false) h E f s -> place g (tick + 1) (stage tick 4) h E f s.
Proof.
  intros HW [(r & k & Hr & Hk & -> & H1 & H2 & H3 & H4 & H5)|(-> & HO & HW3 & H1)].
  - left. exists r, k. split_and!; [lia..|done|]. unfold stage.
    rewrite (proj2 (Z.ltb_lt r 4)), andb_true_r by lia.
    pose proof (turns_spec tick r ltac:(lia)) as Ht. unfold fits.
    destruct (turns tick r); rewrite Ht; split_and!; [lia|lia|lia|done|apply H5|apply H5|lia|lia| |done|apply H5..].
    intros [?|?]; [apply H3; by left|done].
  - right. split; [done|]. split; [done|]. split; [done|]. unfold stage. change (3 <? 4) with true.
    rewrite andb_true_r. pose proof (turns_spec tick 3 ltac:(lia)) as Ht.
    destruct (turns tick 3); rewrite Ht; lia.
Qed.

Lemma settled_later w m s p E :
  settled g w m -> m !! s = Some (p, E) -> current_tick w < E.
Proof.
  intros (L & HI & HN) Hm. destruct (proj2 (inv_slots _ _ _ _ _ HI s)) as [[h|] Ho]; [by eexists| |].
  - destruct (inv_member g HI _ _ Ho) as (_ & e & q & He & _ & _ & Hm'). simplify_eq.
    eapply (place_later g Hg _ h); [apply (inv_tick _ _ _ _ _ HI)|]. by eapply (inv_place _ _ _ _ _ HI).
  - rewrite HN in Ho. by apply elem_of_nil in Ho.
Qed.

Lemma tick_inv w L m :
  inv g w L m (fun _ => false) -> L None = [] -> current_tick w + 1 < 2 ^ 64 ->
  inv g (set_tick (current_tick w + 1) (index_of g (current_tick w + 1)) w) L m
    (stage (current_tick w) 4).
Proof.
  intros HI HN Ht. pose proof (inv_tick _ _ _ _ _ HI). destruct Hg as ([_ HW] & _).
  split; cbn [current_tick current_index slot_heads overflow_head entries free len set_tick];
    try apply HI; try done; [lia|..].
  - intros h s e Hs He. apply place_tick; [done|]. by eapply (inv_place _ _ _ _ _ HI).
  - intros s p E Hm. pose proof (inv_future _ _ _ _ _ HI _ _ _ Hm).
    pose proof (settled_later w m s p E ltac:(by exists L) Hm). lia.
Qed.

(** ** The stages of a tick *)

Lemma inv_due_ext w L m due due' :
  inv g w L m due ->
  (forall h E f s, place g (current_tick w) due h E f s -> place g (current_tick w) due' h E f s) ->
  inv g w L m due'.
Proof.
  intros HI Hpl. split; try apply HI. intros h s e Hs He. by apply Hpl, (inv_place _ _ _ _ _ HI _ s).
Qed.

(** A stage turns a wheel whose rings below [n + 1] are due into one whose
    rings below [n] are, expiring timers of the current tick only. *)
Definition stage_ok (tick n : Z) (f : t T -> list T -> option (t T * list T)) : Prop :=
  forall w L m x, inv g w L m (stage tick (n + 1)) -> L None = [] -> current_tick w = tick + 1 ->
  exists w' L' m' ps, f w x = Some (w', x ++ ps) /\ inv g w' L' m' (stage tick n) /\
    L' None = [] /\ current_tick w' = tick + 1 /\ due_run (tick + 1) m ps m'.

Lemma stage_other tick n r : r <> n -> stage tick (n + 1) r = stage tick n r.
Proof. intros Hne. unfold stage. f_equal. bool_iff. lia. Qed.

Lemma stage_self tick n : stage tick n n = false.
Proof. unfold stage. rewrite Z.ltb_irrefl. apply andb_false_r. Qed.

Lemma stage_next tick n : stage tick (n + 1) n = turns tick n.
Proof. unfold stage. rewrite (proj2 (Z.ltb_lt _ _)) by lia. apply andb_true_r. Qed.

(** A ring that did not turn needs no stage. *)
Lemma stage_skip w L m tick n :
  inv g w L m (stage tick (n + 1)) ->
  (turns tick n = false \/
   (n < 3 /\ WHEELS g <= n) \/ (n = 3 /\ (OVERFLOW g = false \/ WHEELS g <> 3))) ->
  WHEELS g <= 3 -> inv g w L m (stage tick n).
Proof.
  intros HI Hn HW. apply (inv_due_ext _ _ _ _ _ HI). intros h E f s Hpl.
  destruct (decide (turns tick n = false)) as [Ht|Ht].
  - assert (forall r, stage tick (n + 1) r = stage tick n r) as Heq.
    { intros r. destruct (decide (r = n)) as [->|]; [|by apply stage_other].
      by rewrite stage_next, stage_self. }
    destruct Hpl as [(r & k & Hr & Hk & -> & Hfit)|(-> & Hov)].
    + left. exists r, k. by rewrite <- Heq.
    + right. by rewrite <- Heq.
  - destruct Hn as [?|[[Hn3 Hn]|[-> Hn]]]; [done|..].
    + destruct Hpl as [(r & k & Hr & Hk & -> & Hfit)|(-> & Hov)].
      * left. exists r, k. by rewrite <- stage_other by lia.
      * right. by rewrite <- stage_other by lia.
    + destruct Hpl as [(r & k & Hr & Hk & -> & Hfit)|(-> & HO & HW3 & _)].
      * left. exists r, k. by rewrite <- stage_other by lia.
      * destruct Hn; congruence.
Qed.

Lemma ring_stage tick r body (C : Z -> Z -> Z -> Prop) (I : (option Z -> list Z) -> Prop) w L m x :
  0 <= r < WHEELS g -> WHEELS g <= 3 -> turns tick r = true ->
  body_ok body (tick + 1) (stage tick r) C I -> I (taken L (r * SLOTS g + digit g r (tick + 1))) ->
  (forall E f s, tick + 1 <= E -> E / SLOTS g ^ r = (tick + 1) / SLOTS g ^ r ->
     (1 <= r -> f = digit g 0 E) -> (2 <= r -> s = digit g 1 E) -> C E f s) ->
  inv g w L m (stage tick (r + 1)) -> L None = [] -> current_tick w = tick + 1 ->
  exists w' L' m' ps, drain_ring body (r * SLOTS g + digit g r (tick + 1)) w x = Some (w', x ++ ps) /\
    inv g w' L' m' (stage tick r) /\ I L' /\ L' None = [] /\ current_tick w' = tick + 1 /\
    due_run (tick + 1) m ps m'.
Proof.
  intros Hr HW Ht Hbody HIL HC HI HN Htick. rewrite <- Htick in *.
  apply (drain_ring_inv body _ w L m (stage tick (r + 1)) (stage tick r) C I); try done.
  - apply heads_range, ring_head_range; [done|done|by apply digit_range].
  - intros k s e Hk Hs He. eapply (place_settle _ (stage tick (r + 1)) _ r); [lia| |apply stage_self|done|].
    + intros r' Hr'. symmetry. by apply stage_other.
    + by eapply (inv_place _ _ _ _ _ HI).
  - intros s e Hs He. pose proof (inv_place _ _ _ _ _ HI _ _ _ Hs He) as Hpl.
    apply place_current in Hpl as (H1 & H2 & H3); [|done|by rewrite stage_next].
    apply HC; try done. destruct (inv_member g HI _ _ Hs) as (_ & e' & p & He' & _ & _ & Hm).
    assert (e' = e) as -> by congruence. apply (inv_future _ _ _ _ _ HI) in Hm. lia.
Qed.

Lemma overflow_stage tick :
  stage_ok tick 3 (fun w x =>
    if (turns tick 3 && (2 <? WHEELS g)) && OVERFLOW g then process_overflow g w x else Some (w, x)).
Proof.
  intros w L m x HI HN Ht. pose proof Hg as ([_ HW] & _).
  destruct ((turns tick 3 && (2 <? WHEELS g)) && OVERFLOW g) eqn:E.
  - bool_prop. assert (WHEELS g = 3) as HW3 by lia. unfold process_overflow.
    match goal with H : OVERFLOW g = true |- _ => rename H into HO end. rewrite HO. cbn [negb].
    rewrite (inv_overflow _ _ _ _ _ HI HO). rewrite <- Ht.
    destruct (drain_ring_inv (overflow_body g) (WHEELS g * SLOTS g) w L m (stage tick (3 + 1)) (stage tick 3)
      (fun _ _ _ => True) (fun _ => True) x) as (w' & L' & m' & ps & Hd1 & Hd2 & _ & Hd3 & Hd4 & Hd5); try done.
    + by apply overflow_body_ok.
    + unfold heads. rewrite HO. pose proof (slots_pos g Hg). simpl. nia.
    + intros k s e Hk Hs He. eapply (place_settle_overflow _ (stage tick (3 + 1))); [|apply stage_self|done|done|].
      * intros r Hr. symmetry. apply stage_other. lia.
      * by eapply (inv_place _ _ _ _ _ HI).
    + exists w', L', m', ps. done.
  - exists w, L, m, []. rewrite app_nil_r. split_and!; [done| |done|done|constructor].
    apply stage_skip; [done| |done].
    destruct (turns tick 3); [|by left]. right. right. split; [done|].
    destruct (OVERFLOW g); [|by left]. right. cbn [andb] in E. rewrite andb_true_r in E.
    apply Z.ltb_ge in E. lia.
Qed.

Lemma glacier_stage tick :
  stage_ok tick 2 (fun w x =>
    if (turns tick 2 && (1 <? WHEELS g)) && (2 <? WHEELS g) then cascade_glacier g w x else Some (w, x)).
Proof.
  intros w L m x HI HN Ht. pose proof Hg as ([_ HW] & _).
  destruct ((turns tick 2 && (1 <? WHEELS g)) && (2 <? WHEELS g)) eqn:E.
  - bool_prop. unfold cascade_glacier. rewrite (inv_idx2 g HI), (proj2 (Z.ltb_lt 2 _)) by lia.
    cbn [mbind option_bind]. rewrite (inv_slot_head g Hg HI) by (try apply digit_range; done || lia).
    cbn [mbind option_bind]. rewrite Ht.
    destruct (ring_stage tick 2 (glacier_body g)
      (fun E f sl => E / SLOTS g ^ 2 = (tick + 1) / SLOTS g ^ 2 /\ f = digit g 0 E /\ sl = digit g 1 E)
      (fun _ => True) w L m x) as (w' & L' & m' & ps & Hd1 & Hd2 & _ & Hd3 & Hd4 & Hd5); try done.
    + by apply glacier_body_ok.
    + intros E f s _ HE Hf Hs. split_and!; [done|apply Hf; lia|apply Hs; lia].
    + exists w', L', m', ps. done.
  - exists w, L, m, []. rewrite app_nil_r. split_and!; [done| |done|done|constructor].
    apply stage_skip; [done| |done].
    destruct (turns tick 2); [|by left]. right. left. cbn [andb] in E. split; [lia|].
    destruct (Z.ltb_spec 2 (WHEELS g)); [|lia]. rewrite (proj2 (Z.ltb_lt 1 _)) in E by lia. done.
Qed.

Lemma slow_stage tick :
  stage_ok tick 1 (fun w x =>
    if turns tick 1 && (1 <? WHEELS g) then cascade_slow g w x else Some (w, x)).
Proof.
  intros w L m x HI HN Ht. pose proof Hg as ([_ HW] & _).
  destruct (turns tick 1 && (1 <? WHEELS g)) eqn:E.
  - bool_prop. unfold cascade_slow. rewrite (inv_idx1 g HI), (proj2 (Z.ltb_lt 1 _)) by lia.
    cbn [mbind option_bind]. rewrite (inv_slot_head g Hg HI) by (try apply digit_range; done || lia).
    cbn [mbind option_bind]. rewrite Ht.
    destruct (ring_stage tick 1 (slow_body g)
      (fun E f _ => E / SLOTS g ^ 1 = (tick + 1) / SLOTS g ^ 1 /\ f = digit g 0 E)
      (fun _ => True) w L m x) as (w' & L' & m' & ps & Hd1 & Hd2 & _ & Hd3 & Hd4 & Hd5); try done.
    + by apply slow_body_ok.
    + intros E f s _ HE Hf Hs. split; [done|apply Hf; lia].
    + exists w', L', m', ps. done.
  - exists w, L, m, []. rewrite app_nil_r. split_and!; [done| |done|done|constructor].
    apply stage_skip; [done| |done].
    destruct (turns tick 1); [|by left]. right. left. cbn [andb] in E. apply Z.ltb_ge in E. lia.
Qed.

Lemma clear_bit_inv w L m due k b :
  inv g w L m due -> L (Some k) = [] ->
  Bitmap.wf b -> (forall i, Bitmap.is_set b i = if decide (i = k) then false
                            else Bitmap.is_set (fast_slot_bitmap w) i) ->
  inv g (set_fast_bitmap b w) L m due.
Proof.
  intros HI Hk Hwf Hb. apply set_bitmap_inv; [done|]. split; [done|].
  intros HF i Hi Hne. cbn. rewrite Hb. destruct (decide (i = k)) as [->|]; [done|].
  by apply (inv_bitmap _ _ _ _ _ HI).
Qed.

Lemma fast_stage tick : stage_ok tick 0 (expire_fast_slot g).
Proof.
  intros w L m x HI HN Ht. pose proof Hg as (HW & _). pose proof (slots_pos g Hg).
  unfold expire_fast_slot. rewrite (inv_idx0 g HI). cbn [mbind option_bind].
  rewrite (inv_slot_head g Hg HI) by (try apply digit_range; done || lia). cbn [mbind option_bind].
  rewrite Ht.
  destruct (ring_stage tick 0 expire_timer (fun E _ _ => E = tick + 1)
    (fun L => L (Some (0 * SLOTS g + (digit g 0 (tick + 1)))) = []) w L m x)
    as (w' & L' & m' & ps & -> & HI' & HL' & HN' & Ht' & Hrun); try done.
  - lia.
  - lia.
  - apply turns_0.
  - apply expire_body_ok.
  - by rewrite taken_Some, decide_True.
  - intros E f s _ HE _ _. by rewrite !Z.pow_0_r, !Z.div_1_r in HE.
  - cbn [mbind option_bind]. destruct (FAST_BITMAP g).
    2:{ exists w', L', m', ps. done. }
    destruct (Bitmap.bitmap_clear_total (fast_slot_bitmap w') (digit g 0 (tick + 1))) as (b & -> & Hwf & _ & Hb).
    { apply (inv_bitmap _ _ _ _ _ HI'). }
    { by apply digit_range. }
    cbn [mbind option_bind]. eexists _, L', m', ps. split; [done|].
    split; [|done]. by apply (clear_bit_inv _ _ _ _ (digit g 0 (tick + 1))).
Qed.

Lemma stage_0_settled w L m tick :
  inv g w L m (stage tick 0) -> inv g w L m (fun _ => false).
Proof.
  intros HI. assert (forall r, 0 <= r -> stage tick 0 r = false) as H0.
  { intros r Hr. unfold stage. rewrite (proj2 (Z.ltb_ge _ _)) by lia. apply andb_false_r. }
  apply (inv_due_ext _ _ _ _ _ HI). intros h E f s [(r & k & Hr & Hk & -> & Hfit)|(-> & Hov)].
  - left. exists r, k. rewrite H0 in Hfit by lia. done.
  - right. rewrite H0 in Hov by lia. done.
Qed.

(** One tick: the timers due at the new tick, and only those, expire. *)
Lemma advance_one_tick_spec w m x :
  settled g w m -> current_tick w + 1 < 2 ^ 64 ->
  exists w' ps, advance_one_tick g w x = Some (w', x ++ ps) /\
    settled g w' (not_due_at (current_tick w + 1) m) /\
    current_tick w' = current_tick w + 1 /\ ps ≡ₚ payloads (due_at (current_tick w + 1) m).
Proof.
  intros (L & HI & HN) Ht. unfold advance_one_tick, checked_add.
  rewrite (proj2 (Z.ltb_lt (current_tick w + 1) _)) by done. cbn [mbind option_bind].
  destruct (advance_rings_spec _ _ _ _ HI) as (w1 & w2 & -> & Hw2 & Hw3). cbn [mbind option_bind].
  rewrite Hw2. cbn [mbind option_bind]. rewrite Hw3. cbn [mbind option_bind].
  pose proof (tick_inv w L m HI HN Ht) as HI0. set (tick := current_tick w) in *.
  destruct (overflow_stage tick _ _ _ x HI0 HN eq_refl) as (wa & La & ma & pa & -> & HIa & HNa & Hta & Ra).
  cbn [mbind option_bind].
  destruct (glacier_stage tick _ _ _ (x ++ pa) HIa HNa Hta) as (wb & Lb & mb & pb & -> & HIb & HNb & Htb & Rb).
  cbn [mbind option_bind].
  destruct (slow_stage tick _ _ _ ((x ++ pa) ++ pb) HIb HNb Htb) as (wc & Lc & mc & pc & -> & HIc & HNc & Htc & Rc).
  cbn [mbind option_bind].
  destruct (fast_stage tick _ _ _ (((x ++ pa) ++ pb) ++ pc) HIc HNc Htc)
    as (wd & Ld & md & pd & -> & HId & HNd & Htd & Rd).
  exists wd, (pa ++ pb ++ pc ++ pd). rewrite !app_assoc. split; [done|].
  assert (settled g wd md) as Hs by (exists Ld; split; [by eapply stage_0_settled|done]).
  destruct (due_run_all (tick + 1) m (((pa ++ pb) ++ pc) ++ pd) md) as [<- Hps].
  - eauto using due_run_app.
  - intros s p E Hm ->. apply (settled_later _ _ _ _ _ Hs) in Hm. lia.
  - done.
Qed.

End ticks.
End TimerTicks.
