(* ===== verification/InfraTimerOps.v ===== *)
(** * The operations of the timer wheel against the abstract map

    [settled w m] (from [InfraTimerProofs]) says that the wheel [w] holds the
    timers of the map [m].  The theorems of this file state what [new],
    [start], [stop], [update], [expire] and [first_expires_in_ticks] do to the
    map, and exhibit the intervals for which the wheel fires early. *)

From stdpp Require Import functions.
From S2P Require Import Prelude InfraBitmap InfraTimerWheel InfraTimerLists InfraTimerProofs.
From S2P Require Import InfraTimerPlace InfraTimerTicks.

Module TimerOps.
Import TimerWheel TimerLists TimerProofs TimerPlace TimerTicks.

Section ops.
Context (g : geometry) {T : Type}.
Implicit Types (w : t T) (m : gmap Z (T * Z)).

(** ** Which intervals are accepted *)

Definition max_interval : Z := if WHEELS g =? 1 then SLOTS g else SLOTS g ^ WHEELS g - 1.

Definition interval_error (tick interval : Z) : option start_error :=
  if interval =? 0 then Some ZeroInterval
  else if 2 ^ 64 <=? tick + interval then Some IntervalOutOfRange
  else if OVERFLOW g && (WHEELS g =? 3) then None
  else if max_interval <? interval then Some IntervalOutOfRange
  else None.

(** An accepted interval that wraps around the coarsest ring of a wheel of two
    or three rings without overflow list. *)
Definition reaches_around (tick interval : Z) : bool :=
  (1 <? WHEELS g) && negb (OVERFLOW g && (WHEELS g =? 3)) &&
  (SLOTS g ^ WHEELS g <=? interval + tick mod SLOTS g ^ (WHEELS g - 1)).

Context (Hg : geometry_ok g).

Lemma validate_interval_spec w interval :
  validate_interval g w interval =
  Some (match interval_error (current_tick w) interval with Some e => inl e | None => inr tt end).
Proof.
  unfold validate_interval, interval_error, checked_add.
  destruct (interval =? 0); [done|].
  destruct (Z.ltb_spec (current_tick w + interval) (2 ^ 64)), (Z.leb_spec (2 ^ 64) (current_tick w + interval));
    try lia; [|done].
  destruct (OVERFLOW g && (WHEELS g =? 3)); [done|].
  assert (max_direct_interval g = Some max_interval) as ->.
  { unfold max_direct_interval, max_interval. rewrite (horizon_eq g Hg). by destruct (WHEELS g =? 1). }
  cbn [mbind option_bind]. by destruct (max_interval <? interval).
Qed.

Lemma accepted_placeable tick interval :
  0 <= interval -> interval_error tick interval = None -> reaches_around tick interval = false ->
  1 <= interval /\ tick + interval < 2 ^ 64 /\ placeable g tick interval.
Proof.
  intros Hi He Hr. unfold interval_error in He.
  destruct (Z.eqb_spec interval 0); [done|].
  destruct (Z.leb_spec (2 ^ 64) (tick + interval)); [done|]. split; [lia|]. split; [done|].
  unfold reaches_around in Hr. pose proof Hg as (HW & _).
  destruct (OVERFLOW g && (WHEELS g =? 3)) eqn:HO.
  - bool_prop. apply placeable_overflow; done || lia.
  - destruct (Z.ltb_spec max_interval interval); [done|]. intros _. unfold direct_ok, max_interval in *.
    destruct (Z.eqb_spec (WHEELS g) 1); [done|]. rewrite (proj2 (Z.ltb_lt 1 _)) in Hr by lia.
    cbn [negb andb] in Hr. by apply Z.leb_gt in Hr.
Qed.

(** ** Start, stop and update *)

Lemma settled_start w m p interval :
  settled g w m -> 0 <= interval -> vlen (entries w) + 1 < 2 ^ 32 ->
  interval_error (current_tick w) interval = None ->
  reaches_around (current_tick w) interval = false ->
  exists w' s, start g w p interval = Some (w', inr s) /\ m !! s = None /\
    settled g w' (<[s := (p, current_tick w + interval)]> m) /\
    current_tick w' = current_tick w /\ vlen (entries w') <= vlen (entries w) + 1.
Proof.
  intros (L & HI & HN) Hi Hcap He Hr.
  destruct (accepted_placeable _ _ Hi He Hr) as (Hi1 & Hb & Hpl).
  unfold start. rewrite validate_interval_spec, He. cbn [mbind option_bind].
  unfold checked_add. rewrite (proj2 (Z.ltb_lt (current_tick w + interval) _)) by done.
  destruct (allocate_timer_inv g Hg w L m _ p (current_tick w + interval) HI HN Hcap ltac:(lia))
    as (w1 & s & -> & Hms & HI1 & Ht1 & Hget & Hlen1). cbn [mbind option_bind].
  destruct (place_timer_inv g Hg w1 _ _ _ s [] _ interval HI1 (dropped_None _ _) Hget)
    as (w2 & L2 & -> & HI2 & HN2 & Hk & Hlen2 & _).
  - done.
  - cbn. lia.
  - by rewrite Ht1.
  - done.
  - cbn [mbind option_bind]. exists w2, s. split_and!; [done|done|by exists L2|congruence|lia].
Qed.

Lemma settled_live w m h :
  settled g w m -> live_slot w h = if decide (is_Some (m !! h)) then Some h else None.
Proof.
  intros (L & HI & HN). unfold live_slot. pose proof (inv_repr _ _ _ _ _ HI h) as Hr. unfold tm in Hr.
  destruct (vget (entries w) h) as [e|] eqn:He; cbn [mbind option_bind] in *.
  - rewrite (inv_live _ _ _ _ _ HI _ _ He). destruct (payload e) as [p|]; cbn [mbind option_bind] in Hr.
    + rewrite decide_True by eauto. by rewrite bool_decide_eq_true_2 by eauto.
    + rewrite decide_False by (rewrite Hr; by intros [? ?]).
      by rewrite bool_decide_eq_false_2 by (by intros [? ?]).
  - rewrite decide_False; [done|]. rewrite Hr. by intros [? ?].
Qed.

Lemma settled_ring w L m s :
  inv g w L m (fun _ => false) -> L None = [] -> is_Some (m !! s) -> exists h, s ∈ L (Some h).
Proof.
  intros HI HN Hs. destruct (proj2 (inv_slots _ _ _ _ _ HI s) Hs) as [[h|] Ho]; [by exists h|].
  rewrite HN in Ho. by apply elem_of_nil in Ho.
Qed.

Lemma settled_stop w m h :
  settled g w m -> DUPLICATE_STOP g = true \/ is_Some (m !! h) ->
  exists w', stop g w h = Some (w', bool_decide (is_Some (m !! h))) /\
    settled g w' (delete h m) /\ current_tick w' = current_tick w /\
    vlen (entries w') = vlen (entries w).
Proof.
  intros Hs Hd. pose proof (settled_live w m h Hs) as Hl. unfold stop. rewrite Hl.
  destruct (decide (is_Some (m !! h))) as [Hm|Hm].
  - rewrite bool_decide_eq_true_2 by done. destruct Hs as (L & HI & HN).
    destruct (settled_ring _ _ _ _ HI HN Hm) as [k Hk].
    destruct (unlink_inv g Hg w L m _ h k HI HN Hk) as (es' & l1 & l2 & Hl' & -> & Hcore & HI1).
    cbn [mbind option_bind].
    destruct (free_timer_inv g Hg _ _ _ _ h [] HI1 (left_ring_None _ _ _ _ _))
      as (w' & -> & HI2 & Ht & Hlen & _).
    cbn [mbind option_bind]. exists w'. split; [done|]. split; [|split; [done|]].
    + eexists. split; [exact HI2|]. apply dropped_None.
    + rewrite Hlen. apply Hcore.
  - rewrite bool_decide_eq_false_2 by done. destruct Hd as [->|]; [|done]. exists w.
    rewrite delete_id by (by apply eq_None_not_Some). done.
Qed.

(** Rewriting the expiration tick of a pending entry. *)
Lemma set_expiration_inv w L m due s rest e p E :
  inv g w L m due -> L None = s :: rest -> vget (entries w) s = Some e -> payload e = Some p ->
  current_tick w <= E < 2 ^ 64 ->
  exists es', vupd (entries w) s (with_expiration E) = Some es' /\
    inv g (set_entries es' w) L (<[s := (p, E)]> m) due /\
    vget es' s = Some (with_expiration E e) /\ vlen es' = vlen (entries w).
Proof.
  intros HI HN He Hp HE. assert (s ∈ L None) as Hs by (rewrite HN; left).
  destruct (vupd_total (entries w) s (with_expiration E)) as [es' Hes]; [by eapply vget_Some_bounds|].
  assert (forall i, vget es' i = if decide (s = i) then Some (with_expiration E e) else vget (entries w) i)
    as Hget.
  { intros i. rewrite (vget_vupd _ _ _ i _ Hes), He. done. }
  assert (vlen es' = vlen (entries w)) as Hlen by (by eapply vupd_len).
  assert (is_Some (m !! s)) as Hm by (apply (inv_slots _ _ _ _ _ HI); by exists None).
  exists es'. split; [done|]. split; [|split; [by rewrite Hget, decide_True|done]].
  split; cbn [current_tick current_index slot_heads overflow_head entries free len set_entries];
    rewrite ?Hlen; try apply HI.
  - intros h Hh. apply (ring_frame g _ _ _ _ _ _ HI Hh). intros i _. unfold nx, pv. rewrite Hget.
    destruct (decide (s = i)) as [<-|]; [|done]. by rewrite He.
  - intros x. rewrite (inv_slots _ _ _ _ _ HI x), lookup_insert_is_Some.
    split; [|by intros [<-|[_ ?]]]. intros. destruct (decide (s = x)); [by left|by right].
  - intros x. rewrite lookup_insert_is_Some. intros [<-|[_ Hx]]; by apply (inv_range _ _ _ _ _ HI).
  - intros x. unfold tm. rewrite Hget. destruct (decide (s = x)) as [<-|Hne].
    + rewrite lookup_insert_eq. cbn. by rewrite Hp.
    + rewrite lookup_insert_ne by done. apply HI.
  - intros x ex. rewrite Hget. destruct (decide (s = x)) as [<-|]; [|apply HI].
    intros. simplify_eq. by apply (inv_live _ _ _ _ _ HI) in He.
  - intros h x ex Hx. rewrite Hget, decide_False; [by apply (inv_place _ _ _ _ _ HI)|].
    intros ->. by apply (inv_pending_not_ring g HI x h).
  - intros x q E' [[<- Hx]|[_ Hx]]%lookup_insert_Some; [by simplify_eq|by apply (inv_future _ _ _ _ _ HI) in Hx].
  - destruct (inv_free _ _ _ _ _ HI) as [Hnd Hfree]. split; [done|]. intros x.
    rewrite Hfree, lookup_insert_None. split; [|tauto]. intros [? Hx]. split; [done|]. split; [done|].
    intros ->. rewrite Hx in Hm. by destruct Hm.
  - rewrite map_size_insert_Some by done. apply HI.
Qed.

Lemma settled_update w m h interval :
  settled g w m -> 0 <= interval ->
  interval_error (current_tick w) interval = None ->
  reaches_around (current_tick w) interval = false ->
  exists w', update g w h interval = Some (w', inr (bool_decide (is_Some (m !! h)))) /\
    settled g w' (alter (fun pe => (pe.1, current_tick w + interval)) h m) /\
    current_tick w' = current_tick w /\ vlen (entries w') = vlen (entries w).
Proof.
  intros Hs Hi He Hr. destruct (accepted_placeable _ _ Hi He Hr) as (Hi1 & Hb & Hpl).
  unfold update. rewrite validate_interval_spec, He. cbn [mbind option_bind].
  unfold checked_add. rewrite (proj2 (Z.ltb_lt (current_tick w + interval) _)) by done.
  rewrite (settled_live w m h Hs). destruct (decide (is_Some (m !! h))) as [Hm|Hm].
  2:{ rewrite bool_decide_eq_false_2 by done. exists w.
      rewrite alter_id; [done|]. intros x Hx. destruct Hm. eauto. }
  rewrite bool_decide_eq_true_2 by done. destruct Hs as (L & HI & HN).
  destruct (settled_ring _ _ _ _ HI HN Hm) as [k Hk].
  destruct (unlink_inv g Hg w L m _ h k HI HN Hk) as (es' & l1 & l2 & Hl' & -> & Hcore & HI1).
  cbn [mbind option_bind].
  pose proof (left_ring_None L k h l1 l2) as HN1.
  assert (h ∈ left_ring L k h l1 l2 None) as Hin by (rewrite HN1; left).
  destruct (inv_member g HI1 _ _ Hin) as (_ & e & p & He1 & _ & Hp & Hme).
  destruct (set_expiration_inv _ _ _ _ h [] e p (current_tick w + interval) HI1 HN1 He1 Hp)
    as (es2 & Hes2 & HI2 & He2 & Hlen2); [pose proof (inv_tick _ _ _ _ _ HI); cbn; lia|].
  rewrite Hes2. cbn [mbind option_bind].
  destruct (place_timer_inv g Hg _ _ _ _ h [] _ interval HI2 HN1 He2)
    as (w' & L' & -> & HI' & HN' & Ht & Hlen & _); [done|done|done|done|].
  cbn [mbind option_bind]. exists w'. split; [done|]. split; [|split; [done|]].
  - exists L'. split; [|done]. replace (alter _ h m) with (<[h := (p, current_tick w + interval)]> m); [done|].
    apply map_eq. intros i. destruct (decide (h = i)) as [<-|].
    + rewrite lookup_insert_eq, lookup_alter_eq, Hme. done.
    + by rewrite lookup_insert_ne, lookup_alter_ne.
  - cbn in Hlen2. rewrite Hlen. cbn. rewrite Hlen2. apply Hcore.
Qed.

(** ** Construction *)

Lemma push_heads_spec n es hs :
  vlen es + Z.of_nat n <= 2 ^ 32 ->
  push_heads (T:=T) n es hs = Some (es ++ (list_head <$> zseq (vlen es) n), hs ++ zseq (vlen es) n).
Proof.
  revert es hs. induction n as [|n IH]; intros es hs Hb; cbn [push_heads zseq fmap list_fmap].
  { by rewrite !app_nil_r. }
  unfold push_list_head. rewrite (proj2 (Z.ltb_lt _ _)) by lia. cbn [mbind option_bind].
  rewrite IH; rewrite vlen_app; [|unfold vlen in *; simpl; lia].
  change (vlen [list_head (T:=T) (vlen es)]) with 1. by rewrite <- !app_assoc.
Qed.

Lemma validate_geometry_ok : validate_geometry g = Some tt.
Proof.
  pose proof (slots_pos g Hg). unfold validate_geometry. rewrite (horizon_eq g Hg).
  destruct Hg as (HW & (K & HK & HS) & _).
  assert (Z.land (SLOTS g) (SLOTS g - 1) = 0) as ->.
  { rewrite HS. replace (2 ^ K - 1) with (Z.ones K) by (rewrite Z.ones_equiv; lia).
    rewrite Z.land_ones by lia. apply Z.mod_same. pose proof (Z.pow_pos_nonneg 2 K). lia. }
  assert (SLOTS g < 2 ^ 32) by (rewrite HS; apply Z.pow_lt_mono_r; lia).
  rewrite !(proj2 (Z.leb_le _ _)), !(proj2 (Z.ltb_lt _ _)) by lia. done.
Qed.

(** The entries of a fresh wheel: one list head per index. *)
Lemma new_entries max :
  heads g < 2 ^ 32 ->
  exists w, new g max = Some w /\ current_tick w = 0 /\ current_index w = [0; 0; 0] /\
    slot_heads w = zseq 0 (Z.to_nat (WHEELS g * SLOTS g)) /\
    (OVERFLOW g = true -> overflow_head w = WHEELS g * SLOTS g) /\
    entries w = (list_head <$> zseq 0 (Z.to_nat (heads g)) : list (entry T)) /\
    free w = [] /\ len w = 0 /\ Bitmap.wf (fast_slot_bitmap w) /\
    max_expirations w = max /\ slot_generations w = [] /\ timer_slots w = [] /\
    timer_bitmap w = Bitmap.new /\ timers_per_slot w = 0.
Proof.
  intros Hh. pose proof (slots_pos g Hg). pose proof Hg as (HW & _).
  assert (0 <= WHEELS g * SLOTS g) by nia. unfold new, heads in *. rewrite validate_geometry_ok.
  assert (Bitmap.wf (if FAST_BITMAP g then Bitmap.with_capacity (SLOTS g) else Bitmap.new)) as Hwf.
  { destruct (FAST_BITMAP g); [|constructor]. apply Forall_replicate. by split. }
  cbn [mbind option_bind].
  rewrite push_heads_spec by (unfold vlen; destruct (OVERFLOW g); simpl in *; lia).
  cbn [mbind option_bind app]. change (vlen (@nil (entry T))) with 0.
  destruct (OVERFLOW g); cbn [Z.b2z] in *.
  - unfold push_list_head.
    assert (vlen (list_head (T:=T) <$> zseq 0 (Z.to_nat (WHEELS g * SLOTS g))) = WHEELS g * SLOTS g) as Hlen.
    { unfold vlen. rewrite length_fmap, length_zseq. lia. }
    rewrite Hlen, (proj2 (Z.ltb_lt _ _)) by lia. cbn [mbind option_bind].
    eexists. split; [done|]. cbn. split_and!; try done.
    replace (Z.to_nat (WHEELS g * SLOTS g + 1)) with (Z.to_nat (WHEELS g * SLOTS g) + 1)%nat by lia.
    rewrite zseq_app, fmap_app. f_equal. cbn. rewrite Z2Nat.id by lia. done.
  - cbn [mbind option_bind]. eexists. split; [done|]. cbn. rewrite Z.add_0_r. split_and!; done.
Qed.

Lemma vget_heads n i :
  vget (list_head <$> zseq 0 n : list (entry T)) i =
  if decide (0 <= i < Z.of_nat n) then Some (list_head i) else None.
Proof.
  unfold vget. destruct (Z.ltb_spec i 0); [by rewrite decide_False by lia|].
  rewrite list_lookup_fmap. destruct (decide (0 <= i < Z.of_nat n)).
  - rewrite lookup_zseq_lt by lia. cbn. do 2 f_equal. lia.
  - rewrite lookup_ge_None_2; [done|]. rewrite length_zseq. lia.
Qed.

Lemma new_settled max :
  heads g < 2 ^ 32 -> exists w, new g max = Some w /\ settled g w ∅ /\ current_tick w = 0 /\
    vlen (entries w) = heads g /\ max_expirations w = max /\ slot_generations w = [] /\
    timer_slots w = [] /\ timer_bitmap w = Bitmap.new /\ timers_per_slot w = 0.
Proof.
  intros Hh. pose proof (heads_nonneg g Hg) as H0. pose proof (slots_pos g Hg).
  destruct (new_entries max Hh) as (w & -> & Ht & Hi & Hs & Ho & He & Hf & Hl & Hb & Hids).
  exists w. split; [done|].
  assert (vlen (entries w) = heads g) as Hlen.
  { rewrite He. unfold vlen. rewrite length_fmap, length_zseq. lia. }
  split_and!; try tauto. exists (fun _ => []). split; [|done].
  assert (forall i, vget (entries w) i = if decide (0 <= i < heads g) then Some (list_head i) else None) as Hget.
  { intros i. rewrite He, vget_heads, Z2Nat.id by lia. done. }
  split; try done.
  - rewrite Ht. lia.
  - rewrite Hi, Ht. unfold index_of, digit. rewrite !Zdiv_0_l, !Zmod_0_l.
    by destruct (1 <? WHEELS g), (2 <? WHEELS g).
  - split; [constructor|]. intros o o' s Hx. by apply elem_of_nil in Hx.
  - intros h Hh'. unfold ring. cbn [chain]. unfold nx, pv. rewrite Hget, decide_True by done. done.
  - intros s. rewrite lookup_empty. split; [|by intros [? ?]]. intros [o Hx]. by apply elem_of_nil in Hx.
  - intros s. rewrite lookup_empty. by intros [? ?].
  - rewrite Hlen. lia.
  - intros s. unfold tm. rewrite Hget. by destruct (decide _).
  - intros s e. rewrite Hget. intros Hx. destruct (decide _); [|done]. by simplify_eq/=.
  - intros h s e Hx. by apply elem_of_nil in Hx.
  - rewrite Hf. split; [constructor|]. intros s. rewrite Hlen. split; [by intros ?%elem_of_nil|lia].
Qed.

(** ** Expiration over several ticks *)

Definition expired_by (tick : Z) m : gmap Z (T * Z) := filter (fun kv => kv.2.2 <= tick) m.
Definition waiting_after (tick : Z) m : gmap Z (T * Z) := filter (fun kv => tick < kv.2.2) m.

Lemma waiting_after_twice t1 t2 m :
  t1 <= t2 -> waiting_after t2 (waiting_after t1 m) = waiting_after t2 m.
Proof.
  intros Ht. apply map_eq. intros i. apply option_eq. intros [p E]. unfold waiting_after.
  rewrite !map_lookup_filter_Some. cbn. split; intros Hx; split_and!; naive_solver lia.
Qed.

Lemma expired_by_split t1 t2 m :
  t1 <= t2 ->
  payloads (expired_by t2 m) ≡ₚ payloads (expired_by t1 m) ++ payloads (expired_by t2 (waiting_after t1 m)).
Proof.
  intros Ht. unfold payloads. rewrite <- fmap_app. apply fmap_Permutation, NoDup_Permutation.
  - apply NoDup_map_to_list.
  - apply NoDup_app. split; [apply NoDup_map_to_list|]. split; [|apply NoDup_map_to_list].
    intros [i [p E]]. rewrite !elem_of_map_to_list. unfold expired_by, waiting_after.
    rewrite !map_lookup_filter_Some. cbn. lia.
  - intros [i [p E]]. rewrite elem_of_app, !elem_of_map_to_list. unfold expired_by, waiting_after.
    rewrite !map_lookup_filter_Some. cbn. destruct (decide (E <= t1)); naive_solver lia.
Qed.

(** One tick in terms of the two filters. *)
Lemma due_next w m :
  settled g w m -> due_at (current_tick w + 1) m = expired_by (current_tick w + 1) m /\
  not_due_at (current_tick w + 1) m = waiting_after (current_tick w + 1) m.
Proof.
  intros Hs. split; apply map_filter_ext; intros s [p E] Hm;
    apply (settled_later g Hg w m s p E Hs) in Hm; cbn; lia.
Qed.

Lemma waiting_settled w m : settled g w m -> waiting_after (current_tick w) m = m.
Proof.
  intros Hs. apply map_filter_id. intros s [p E] Hm. cbn. by eapply settled_later.
Qed.

Lemma expired_settled w m : settled g w m -> payloads (expired_by (current_tick w) m) = [].
Proof.
  intros Hs. unfold payloads. assert (expired_by (current_tick w) m = ∅) as ->; [|by rewrite map_to_list_empty].
  apply map_empty. intros s. apply map_lookup_filter_None_2. right. intros [p E] Hm. cbn.
  apply (settled_later g Hg w m s p E Hs) in Hm. lia.
Qed.

(** The loop runs tick by tick until its ticks or its budget are used up. *)
Lemma expire_loop_spec n w m init budget x :
  settled g w m -> current_tick w + Z.of_nat n < 2 ^ 64 ->
  exists w' ps k, expire_loop g n w init budget x = Some (w', x ++ ps) /\
    0 <= k <= Z.of_nat n /\ current_tick w' = current_tick w + k /\
    settled g w' (waiting_after (current_tick w + k) m) /\
    ps ≡ₚ payloads (expired_by (current_tick w + k) m) /\
    (k < Z.of_nat n -> budget <= vlen (x ++ ps) - init).
Proof.
  revert w m x. induction n as [|n IH]; intros w m x Hs Ht; cbn [expire_loop].
  { exists w, [], 0. rewrite app_nil_r, Z.add_0_r, waiting_settled, expired_settled by done.
    split_and!; done || lia. }
  destruct (Z.leb_spec budget (vlen x - init)) as [Hb|Hb].
  { exists w, [], 0. rewrite app_nil_r, Z.add_0_r, waiting_settled, expired_settled by done.
    split_and!; done || lia. }
  destruct (advance_one_tick_spec g Hg w m x Hs ltac:(lia)) as (w1 & ps1 & -> & Hs1 & Ht1 & Hps1).
  cbn [mbind option_bind].
  destruct (IH w1 _ (x ++ ps1) Hs1 ltac:(lia)) as (w' & ps & k & -> & Hk & Htk & Hs' & Hps & Hbud).
  exists w', (ps1 ++ ps), (k + 1). rewrite app_assoc. split; [done|]. split; [lia|]. split; [lia|].
  rewrite Ht1 in *.
  replace (current_tick w + 1 + k) with (current_tick w + (k + 1)) in * by lia.
  destruct (due_next w m Hs) as [Hdue Hnot]. rewrite Hdue in Hps1. rewrite Hnot in Hs', Hps.
  rewrite waiting_after_twice in Hs' by lia. split; [done|]. split.
  - rewrite (expired_by_split (current_tick w + 1)) by lia. by rewrite Hps1, Hps.
  - intros Hlt. apply Hbud. lia.
Qed.

(** ** The next expiration *)

Lemma first_scan_le n w current offset o :
  0 <= offset -> offset <= o < offset + Z.of_nat n -> offset + Z.of_nat n <= 2 ^ 32 ->
  Bitmap.is_set (fast_slot_bitmap w) (Z.land (current + o) (SLOTS g - 1)) = true ->
  0 <= first_scan g n w current offset <= o.
Proof.
  revert offset. induction n as [|n IH]; intros offset H0 Ho Hb Hset; [lia|]. cbn [first_scan].
  destruct (Bitmap.is_set _ (Z.land (current + offset) _)) eqn:E.
  - rewrite wrap_small by (split; lia). lia.
  - assert (o <> offset) by (intros ->; congruence). apply IH; lia || done.
Qed.

Lemma first_scan_range n w current offset :
  0 <= offset -> offset + Z.of_nat n = SLOTS g -> SLOTS g < 2 ^ 32 ->
  0 <= first_scan g n w current offset <= SLOTS g.
Proof.
  revert offset. induction n as [|n IH]; intros offset H0 Hn HS; cbn [first_scan].
  - rewrite wrap_small by (split; lia). lia.
  - destruct (Bitmap.is_set _ _); [rewrite wrap_small by (split; lia); lia|]. apply IH; lia.
Qed.

Lemma slots_small : SLOTS g < 2 ^ 32.
Proof. destruct Hg as (_ & (K & HK & ->) & _). apply Z.pow_lt_mono_r; lia. Qed.

(** A timer of the current turn of the fast ring waits in the fast ring. *)
Lemma same_turn_fast tick h E f s :
  place g tick (fun _ => false) h E f s -> E / SLOTS g = tick / SLOTS g ->
  h = digit g 0 E /\ 0 <= h < SLOTS g.
Proof.
  intros Hpl Heq. pose proof (slots_pos g Hg).
  assert (forall r, 1 <= r -> E / SLOTS g ^ r = tick / SLOTS g ^ r) as Hsame.
  { intros r Hr. replace r with (1 + (r - 1)) by lia. pose proof (pow_slots_pos g Hg (r - 1) ltac:(lia)).
    rewrite Z.pow_add_r, Z.pow_1_r, <- !Z.div_div, Heq by lia. done. }
  destruct Hpl as [(r & k & Hr & Hk & -> & Hlt & _ & _ & -> & _)|(_ & _ & _ & Hlt)].
  - destruct (Z_le_gt_dec 1 r) as [H1|]; [rewrite (Hsame r H1) in Hlt; lia|].
    assert (r = 0) as -> by lia. pose proof (digit_range g Hg 0 E). lia.
  - rewrite Hsame in Hlt by lia. lia.
Qed.

Lemma first_expires_spec w m :
  settled g w m -> FAST_BITMAP g = true ->
  exists r, first_expires_in_ticks g w = Some (Some r) /\ 0 <= r <= SLOTS g /\
    forall s p E, m !! s = Some (p, E) ->
      Z.min r (SLOTS g - current_tick w mod SLOTS g) <= E - current_tick w.
Proof.
  intros Hs HF. pose proof Hs as (L & HI & HN). pose proof (slots_pos g Hg) as HS. pose proof slots_small.
  unfold first_expires_in_ticks. rewrite HF, (inv_idx0 g HI). cbn [negb mbind option_bind].
  eexists. split; [done|]. split; [apply first_scan_range; lia|].
  intros s p E Hm. pose proof (settled_later g Hg w m s p E Hs Hm) as Hlater.
  assert (digit g 0 (current_tick w) = current_tick w mod SLOTS g) as ->
    by (unfold digit; by rewrite Z.pow_0_r, Z.div_1_r).
  set (c := current_tick w mod SLOTS g). pose proof (Z.mod_pos_bound (current_tick w) _ HS) as Hc. fold c in Hc.
  destruct (Z_le_gt_dec (SLOTS g - c) (E - current_tick w)); [lia|].
  destruct (settled_ring w L m s HI HN ltac:(eauto)) as [h Hh].
  destruct (inv_member g HI _ _ Hh) as (_ & e & q & He & _ & _ & Hme). simplify_eq.
  assert (h = digit g 0 (expiration_tick e) /\ 0 <= h < SLOTS g) as [Hhd Hhr].
  { apply (same_turn_fast (current_tick w)) with (fast_ring_offset e) (slow_ring_offset e).
    - by apply (inv_place _ _ _ _ _ HI _ s).
    - pose proof (Z.div_mod (current_tick w) (SLOTS g) ltac:(lia)). fold c in H0.
      symmetry. apply (Z.div_unique _ _ _ (c + (expiration_tick e - current_tick w))); lia. }
  assert (Bitmap.is_set (fast_slot_bitmap w) h = true) as Hbit.
  { apply (inv_bitmap _ _ _ _ _ HI); [done|done|]. intros Hnil. rewrite Hnil in Hh. by apply elem_of_nil in Hh. }
  assert (0 <= first_scan g (Z.to_nat (SLOTS g)) w c 0 <= expiration_tick e - current_tick w); [|lia].
  apply first_scan_le; [lia|lia|lia|].
  destruct (slots_shift g Hg) as (_ & _ & _ & _ & Hmask). unfold ring_mask in Hmask. rewrite Hmask.
  unfold c. rewrite Z.add_mod_idemp_l by lia.
  replace (current_tick w + (expiration_tick e - current_tick w)) with (expiration_tick e) by lia.
  rewrite Hhd in Hbit. unfold digit in Hbit. by rewrite Z.pow_0_r, Z.div_1_r in Hbit.
Qed.

End ops.

(** ** The theorems *)

Lemma geometry_1t2w2048sl : geometry_ok TimerWheel1t2w2048sl.
Proof. split; [done|]. split; [|done]. by exists 11. Qed.

Lemma geometry_1t3w1024slOv : geometry_ok TimerWheel1t3w1024slOv.
Proof. split; [done|]. split; [|done]. by exists 10. Qed.

Lemma geometry_1t2w32sl : geometry_ok TimerWheel1t2w32sl.
Proof. split; [done|]. split; [|done]. by exists 5. Qed.

(** [start] on a wheel that holds the timers [m]: it refuses exactly the
    intervals [interval_error] names and then changes nothing; an accepted
    interval that does not reach around the coarsest ring gets a fresh slot,
    and the wheel holds [m] with the new timer at [current_tick + interval]. *)
Theorem wheel_start_correct {T} g (w : t T) m p interval :
  geometry_ok g -> settled g w m -> 0 <= interval -> vlen (entries w) + 1 < 2 ^ 32 ->
  reaches_around g (current_tick w) interval = false ->
  match interval_error g (current_tick w) interval with
  | Some e => start g w p interval = Some (w, inl e)
  | None => exists w' s, start g w p interval = Some (w', inr s) /\ m !! s = None /\
      settled g w' (<[s := (p, current_tick w + interval)]> m) /\ current_tick w' = current_tick w
  end.
Proof.
  intros Hg Hs Hi Hcap Hr. destruct (interval_error g (current_tick w) interval) as [e|] eqn:He.
  - unfold start. by rewrite validate_interval_spec, He.
  - destruct (settled_start g Hg w m p interval Hs Hi Hcap He Hr) as (w' & s & ? & ? & ? & ? & _). eauto 6.
Qed.

Lemma wheel_start_correct_witness :
  exists (w w' : t Z) s, new TimerWheel1t2w32sl 0 = Some w /\
    start TimerWheel1t2w32sl w 7 1000 = Some (w', inr s) /\
    settled TimerWheel1t2w32sl w' (<[s := (7, 1000)]> ∅).
Proof.
  destruct (new_settled (T:=Z) TimerWheel1t2w32sl geometry_1t2w32sl 0) as (w & Hw & Hs & Ht & Hl & _);
    [done|]. exists w.
  pose proof (wheel_start_correct TimerWheel1t2w32sl w ∅ 7 1000 geometry_1t2w32sl Hs ltac:(done)) as H.
  rewrite Hl, Ht in H. destruct (H eq_refl eq_refl) as (w' & s & H1 & _ & H2 & _).
  exists w', s. exact (conj Hw (conj H1 H2)).
Defined.

(** [stop] removes the timer of a live handle and reports whether the
    handle was live; every other timer stays. *)
Theorem wheel_stop_correct {T} g (w : t T) m handle :
  geometry_ok g -> settled g w m -> DUPLICATE_STOP g = true \/ is_Some (m !! handle) ->
  exists w', stop g w handle = Some (w', bool_decide (is_Some (m !! handle))) /\
    settled g w' (delete handle m) /\ current_tick w' = current_tick w.
Proof.
  intros Hg Hs Hd. destruct (settled_stop g Hg w m handle Hs Hd) as (w' & ? & ? & ? & _). eauto.
Qed.

Lemma wheel_stop_correct_witness :
  exists w w' : t Z, new TimerWheel1t2w32sl 0 = Some w /\
    stop TimerWheel1t2w32sl w 64 = Some (w', false) /\ settled TimerWheel1t2w32sl w' ∅.
Proof.
  destruct (new_settled (T:=Z) TimerWheel1t2w32sl geometry_1t2w32sl 0) as (w & Hw & Hs & _); [done|].
  destruct (wheel_stop_correct TimerWheel1t2w32sl w ∅ 64) as (w' & H1 & H2 & _);
    [apply geometry_1t2w32sl|done|by left|].
  exists w, w'. rewrite delete_id in H2 by apply lookup_empty. exact (conj Hw (conj H1 H2)).
Defined.

(** [update] reschedules the timer of a live handle to
    [current_tick + interval], keeps its payload and every other timer, and
    reports whether the handle was live; refused intervals change nothing. *)
Theorem wheel_update_correct {T} g (w : t T) m handle interval :
  geometry_ok g -> settled g w m -> 0 <= interval ->
  reaches_around g (current_tick w) interval = false ->
  match interval_error g (current_tick w) interval with
  | Some e => update g w handle interval = Some (w, inl e)
  | None => exists w',
      update g w handle interval = Some (w', inr (bool_decide (is_Some (m !! handle)))) /\
      settled g w' (alter (fun pe => (pe.1, current_tick w + interval)) handle m) /\
      current_tick w' = current_tick w
  end.
Proof.
  intros Hg Hs Hi Hr. destruct (interval_error g (current_tick w) interval) as [e|] eqn:He.
  - unfold update. by rewrite validate_interval_spec, He.
  - destruct (settled_update g Hg w m handle interval Hs Hi He Hr) as (w' & ? & ? & ? & _). eauto.
Qed.

Lemma wheel_update_correct_witness :
  exists w w' : t Z, new TimerWheel1t2w32sl 0 = Some w /\
    update TimerWheel1t2w32sl w 64 5 = Some (w', inr false) /\ settled TimerWheel1t2w32sl w' ∅.
Proof.
  destruct (new_settled (T:=Z) TimerWheel1t2w32sl geometry_1t2w32sl 0) as (w & Hw & Hs & Ht & _); [done|].
  pose proof (wheel_update_correct TimerWheel1t2w32sl w ∅ 64 5 geometry_1t2w32sl Hs ltac:(done)) as H.
  rewrite Ht in H. destruct (H eq_refl) as (w' & H1 & H2 & _).
  exists w, w'. rewrite alter_id in H2 by (intros x Hx; by rewrite lookup_empty in Hx).
  exact (conj Hw (conj H1 H2)).
Defined.





(** with the fast-slot bitmap, no timer expires before the number of ticks
    [first_expires_in_ticks] reports or the end of the fast ring's turn,
    whichever is first. *)
Theorem wheel_first_expires_lower_bound {T} g (w : t T) m :
  geometry_ok g -> settled g w m -> FAST_BITMAP g = true ->
  exists r, first_expires_in_ticks g w = Some (Some r) /\ 0 <= r <= SLOTS g /\
    forall s p e, m !! s = Some (p, e) ->
      Z.min r (SLOTS g - current_tick w mod SLOTS g) <= e - current_tick w.
Proof. intros Hg Hs HF. by apply first_expires_spec. Qed.

Lemma wheel_first_expires_lower_bound_witness :
  exists (w : t Z) r, new TimerWheel1t3w1024slOv 0 = Some w /\
    first_expires_in_ticks TimerWheel1t3w1024slOv w = Some (Some r) /\ 0 <= r <= 1024.
Proof.
  destruct (new_settled (T:=Z) TimerWheel1t3w1024slOv geometry_1t3w1024slOv 0) as (w & Hw & Hs & _); [done|].
  destruct (wheel_first_expires_lower_bound TimerWheel1t3w1024slOv w ∅) as (r & H1 & H2 & _);
    [apply geometry_1t3w1024slOv|done|done|]. exists w, r. exact (conj Hw (conj H1 H2)).
Defined.

(** a fresh wheel is built without panic for every geometry whose list
    heads fit 32 bits, and holds no timer. *)
Theorem wheel_new_empty {T} g max :
  geometry_ok g -> heads g < 2 ^ 32 ->
  exists w : t T, new g max = Some w /\ settled g w ∅ /\ current_tick w = 0 /\ is_empty w = true.
Proof.
  intros Hg Hh. destruct (new_settled (T:=T) g Hg max Hh) as (w & H1 & H2 & H3 & _).
  exists w. split_and!; [done..|]. destruct H2 as (L & HI & _). unfold is_empty.
  by rewrite (inv_len _ _ _ _ _ HI), map_size_empty.
Qed.

Lemma wheel_new_empty_witness :
  exists w : t Z, new TimerWheel1t2w2048sl 256 = Some w /\ settled TimerWheel1t2w2048sl w ∅.
Proof.
  destruct (wheel_new_empty (T:=Z) TimerWheel1t2w2048sl 256) as (w & H1 & H2 & _);
    [apply geometry_1t2w2048sl|done|]. exists w. exact (conj H1 H2).
Defined.

(** Start one timer after [before] ticks, then run [after] ticks. *)
Definition wheel_run (g : geometry) (before interval after : Z) : option (Z * list Z) :=
  w ← new g 0;
  '(w, x, _) ← expire g w before [];
  '(w, _) ← start g w 7 interval;
  '(w, x, _) ← expire g w after [];
  Some (current_tick w, x).

(** without an overflow list an accepted interval that reaches around the
    coarsest ring fires early: on the two-ring wheel a timer started at tick 1
    for 1023 ticks, the longest interval [start] accepts, expires 31 ticks
    later, while one tick less waits its full 1022 ticks. *)
Theorem wheel_wraparound_fires_early :
  interval_error TimerWheel1t2w32sl 1 1023 = None /\
  reaches_around TimerWheel1t2w32sl 1 1023 = true /\
  wheel_run TimerWheel1t2w32sl 1 1023 31 = Some (32, [7]) /\
  wheel_run TimerWheel1t2w32sl 1 1022 1021 = Some (1022, []) /\
  wheel_run TimerWheel1t2w32sl 1 1022 1022 = Some (1023, [7]).
Proof. vm_compute. done. Qed.

(** What [first_expires_in_ticks] says at the end of a turn of the fast ring. *)
Definition wheel_hint (g : geometry) (before interval : Z) : option (option Z) :=
  w ← new g 0;
  '(w, x, _) ← expire g w before ([] : list Z);
  '(w, _) ← start g w 7 interval;
  first_expires_in_ticks g w.

(** [first_expires_in_ticks] can overshoot: a timer due in two ticks that
    waits in the slow ring is reported as 1024 ticks away when the fast ring
    is empty, so the file poller may sleep past it. *)
Theorem wheel_first_expires_overshoots :
  wheel_hint TimerWheel1t3w1024slOv 1023 2 = Some (Some 1024) /\
  wheel_run TimerWheel1t3w1024slOv 1023 2 2 = Some (1025, [7]).
Proof. vm_compute. done. Qed.

End TimerOps.
