(* ===== verification/InfraTimerIds.v ===== *)
(** * Timers named by slot and timer id

    The [TimerWheel<u32, ..>] layer keeps, for every (slot, timer id) pair, the
    entry slot of its timer and a bit that says whether it is armed.  The
    invariant [ids_ok] ties these tables to the abstract map of
    [InfraTimerOps]: every timer of the wheel is the one recorded for its
    (slot, id) pair, so a pair has at most one timer.  The theorems give the
    effect of [arm_timer], [update_timer], [cancel_timer], [expire] and
    [take_expired_timer] on the armed pairs. *)

From stdpp Require Import functions.
From S2P Require Import Prelude InfraBitmap InfraTimerWheel InfraTimerLists InfraTimerProofs.
From S2P Require Import InfraTimerPlace InfraTimerTicks InfraTimerOps.

Module TimerIds.
Import TimerWheel TimerLists TimerProofs TimerPlace TimerTicks TimerOps.

(** ** The wheel operations leave the tables alone *)

Section frame.
Context (g : geometry) {T : Type}.
Implicit Types w : t T.

Definition ids w :=
  (slot_generations w, timer_slots w, timer_bitmap w, timers_per_slot w, max_expirations w).

(** Runs through the binds and tests of an operation that returned. *)
Ltac run_op H :=
  repeat match type of H with
  | Some _ = Some _ => simplify_eq
  | None = Some _ => discriminate H
  | mbind _ ?x = Some _ => let E := fresh "E" in destruct x eqn:E; cbn [mbind option_bind] in H
  | (let '(_, _) := ?x in _) = Some _ => destruct x
  | (if ?x then _ else _) = Some _ => destruct x
  | match ?x with Some _ => _ | None => _ end = Some _ => destruct x eqn:?
  | match ?x with inl _ => _ | inr _ => _ end = Some _ => destruct x eqn:?
  end; simplify_eq.

Lemma add_to_list_ids w h s w' : add_to_list w h s = Some w' -> ids w' = ids w.
Proof. unfold add_to_list. intros H. by run_op H. Qed.

Lemma detach_ids w s w' : detach_entry w s = Some w' -> ids w' = ids w.
Proof. unfold detach_entry. intros H. by run_op H. Qed.

Lemma unlink_ids w s w' : unlink w s = Some w' -> ids w' = ids w.
Proof.
  unfold unlink. intros H. run_op H. by apply detach_ids in H.
Qed.

Lemma free_timer_ids w s w' : free_timer w s = Some w' -> ids w' = ids w.
Proof. unfold free_timer. intros H. by run_op H. Qed.

Lemma allocate_ids w p E w' s : allocate_timer w p E = Some (w', s) -> ids w' = ids w.
Proof. unfold allocate_timer. intros H. by run_op H. Qed.

Lemma add_to_fast_slot_ids w k s w' : add_to_fast_slot g w k s = Some w' -> ids w' = ids w.
Proof.
  unfold add_to_fast_slot. intros H. run_op H; by match goal with E : add_to_list _ _ _ = _ |- _ => apply add_to_list_ids in E end.
Qed.

Lemma place_direct_ids w s i w' : place_timer_direct g w s i = Some w' -> ids w' = ids w.
Proof.
  unfold place_timer_direct. intros H. run_op H;
    first [by apply add_to_list_ids in H|by apply add_to_fast_slot_ids in H].
Qed.

Lemma place_timer_ids w s i w' : place_timer g w s i = Some w' -> ids w' = ids w.
Proof.
  unfold place_timer. intros H. run_op H; [by apply add_to_list_ids in H|by apply place_direct_ids in H].
Qed.

Lemma start_ids w p i w' r : start g w p i = Some (w', r) -> ids w' = ids w.
Proof.
  unfold start. intros H. run_op H; try done.
  match goal with E : place_timer _ _ _ _ = _ |- _ => apply place_timer_ids in E; rewrite E end.
  by match goal with E : allocate_timer _ _ _ = _ |- _ => apply allocate_ids in E end.
Qed.

Lemma stop_ids w h w' b : stop g w h = Some (w', b) -> ids w' = ids w.
Proof.
  unfold stop. intros H. run_op H; try done.
  match goal with E : free_timer _ _ = _ |- _ => apply free_timer_ids in E; rewrite E end.
  by match goal with E : unlink _ _ = _ |- _ => apply unlink_ids in E end.
Qed.

Lemma update_ids w h i w' r : update g w h i = Some (w', r) -> ids w' = ids w.
Proof.
  unfold update. intros H. run_op H; try done.
  match goal with E : place_timer _ _ _ _ = _ |- _ => apply place_timer_ids in E; rewrite E end.
  by match goal with E : unlink _ _ = _ |- _ => apply unlink_ids in E end.
Qed.

Lemma expire_timer_ids w s x w' x' : expire_timer w s x = Some (w', x') -> ids w' = ids w.
Proof.
  unfold expire_timer. intros H. run_op H.
  by match goal with E : free_timer _ _ = _ |- _ => apply free_timer_ids in E end.
Qed.

Lemma drain_ids fuel body h n w x w' x' :
  (forall w s x w' x', body w s x = Some (w', x') -> ids w' = ids w) ->
  drain fuel body h n w x = Some (w', x') -> ids w' = ids w.
Proof.
  intros Hb. revert n w x. induction fuel as [|fuel IH]; intros n w x H; cbn [drain] in H;
    destruct (n =? h); simplify_eq; try done.
  run_op H. apply IH in H. rewrite H.
  match goal with E : body _ _ _ = _ |- _ => apply Hb in E; rewrite E end.
  by match goal with E : detach_entry _ _ = _ |- _ => apply detach_ids in E end.
Qed.

Lemma drain_ring_ids body h w x w' x' :
  (forall w s x w' x', body w s x = Some (w', x') -> ids w' = ids w) ->
  drain_ring body h w x = Some (w', x') -> ids w' = ids w.
Proof.
  intros Hb H. unfold drain_ring in H. run_op H. apply drain_ids in H; [|done]. rewrite H.
  match goal with E : take_list _ _ = _ |- _ => unfold take_list in E; by run_op E end.
Qed.

Lemma advance_ring_ids w r w' b : advance_ring g w r = Some (w', b) -> ids w' = ids w.
Proof. unfold advance_ring. intros H. by run_op H. Qed.

Lemma overflow_body_ids w s x w' x' : overflow_body g w s x = Some (w', x') -> ids w' = ids w.
Proof.
  unfold overflow_body. intros H. run_op H; [by apply expire_timer_ids in H|].
  match goal with E : (if ?b then _ else _) = Some _ |- _ =>
    destruct b; [by apply add_to_list_ids in E|by apply place_direct_ids in E] end.
Qed.

Lemma glacier_body_ids w s x w' x' : glacier_body g w s x = Some (w', x') -> ids w' = ids w.
Proof.
  unfold glacier_body. intros H. run_op H; [by apply expire_timer_ids in H| |];
    first [by match goal with E : add_to_list _ _ _ = _ |- _ => apply add_to_list_ids in E end
          |by match goal with E : add_to_fast_slot _ _ _ _ = _ |- _ => apply add_to_fast_slot_ids in E end].
Qed.

Lemma slow_body_ids w s x w' x' : slow_body g w s x = Some (w', x') -> ids w' = ids w.
Proof.
  unfold slow_body. intros H. run_op H; [by apply expire_timer_ids in H|].
  by match goal with E : add_to_fast_slot _ _ _ _ = _ |- _ => apply add_to_fast_slot_ids in E end.
Qed.

Lemma expire_fast_ids w x w' x' : expire_fast_slot g w x = Some (w', x') -> ids w' = ids w.
Proof.
  unfold expire_fast_slot. intros H. run_op H.
  match goal with E : drain_ring _ _ _ _ = _ |- _ =>
    apply drain_ring_ids in E; [|apply expire_timer_ids]; rewrite <- E end.
  match goal with E : (if _ then _ else _) = Some _ |- _ => by run_op E end.
Qed.

Lemma advance_one_tick_ids w x w' x' : advance_one_tick g w x = Some (w', x') -> ids w' = ids w.
Proof.
  unfold advance_one_tick. intros H.
  destruct (checked_add 64 (current_tick w) 1) as [tick|]; [|done]. cbn [mbind option_bind] in H.
  destruct (advance_ring g _ 0) as [[w1 f1]|] eqn:E1; [|done]. cbn [mbind option_bind] in H.
  apply advance_ring_ids in E1. change (ids w1 = ids w) in E1. rewrite <- E1. clear E1.
  destruct (if f1 && (1 <? WHEELS g) then advance_ring g w1 1 else Some (w1, false)) as [[w2 f2]|] eqn:E2; [|done].
  assert (ids w2 = ids w1) as <-.
  { destruct (f1 && _); [by apply advance_ring_ids in E2|by simplify_eq]. }
  clear E2. cbn [mbind option_bind] in H.
  destruct (if f2 && (2 <? WHEELS g) then advance_ring g w2 2 else Some (w2, false)) as [[w3 f3]|] eqn:E3; [|done].
  assert (ids w3 = ids w2) as <-.
  { destruct (f2 && _); [by apply advance_ring_ids in E3|by simplify_eq]. }
  clear E3. cbn [mbind option_bind] in H.
  destruct (if f3 && OVERFLOW g then process_overflow g w3 x else Some (w3, x)) as [[w4 x4]|] eqn:E4; [|done].
  assert (ids w4 = ids w3) as <-.
  { destruct (f3 && _); [|by simplify_eq]. unfold process_overflow in E4. destruct (negb _); [done|].
    apply drain_ring_ids in E4; [done|apply overflow_body_ids]. }
  clear E4. cbn [mbind option_bind] in H.
  destruct (if f2 && (2 <? WHEELS g) then cascade_glacier g w4 x4 else Some (w4, x4)) as [[w5 x5]|] eqn:E5; [|done].
  assert (ids w5 = ids w4) as <-.
  { destruct (f2 && _); [|by simplify_eq]. unfold cascade_glacier in E5. run_op E5.
    apply drain_ring_ids in E5; [done|apply glacier_body_ids]. }
  clear E5. cbn [mbind option_bind] in H.
  destruct (if f1 && (1 <? WHEELS g) then cascade_slow g w5 x5 else Some (w5, x5)) as [[w6 x6]|] eqn:E6; [|done].
  assert (ids w6 = ids w5) as <-.
  { destruct (f1 && _); [|by simplify_eq]. unfold cascade_slow in E6. run_op E6.
    apply drain_ring_ids in E6; [done|apply slow_body_ids]. }
  cbn [mbind option_bind] in H. by apply expire_fast_ids in H.
Qed.

Lemma expire_loop_ids n w i b x w' x' : expire_loop g n w i b x = Some (w', x') -> ids w' = ids w.
Proof.
  revert w x. induction n as [|n IH]; intros w x H; cbn [expire_loop] in H; [by simplify_eq|].
  destruct (b <=? _); [by simplify_eq|].
  destruct (advance_one_tick g w x) as [[w1 x1]|] eqn:E; [|done]. cbn [mbind option_bind] in H.
  apply IH in H. rewrite H. by apply advance_one_tick_ids in E.
Qed.

End frame.

(** ** The tables and the abstract timers *)

Section named.
Context (g : geometry) (Hg : geometry_ok g).
Implicit Types (w : t Z) (m : gmap Z (Z * Z)) (X : list Z).

(** [X] are the ids whose timer has expired but has not been taken yet. *)
Record ids_ok w m X : Prop := {
  ids_per : 0 < timers_per_slot w;
  ids_wf : Bitmap.wf (timer_bitmap w);
  ids_len : vlen (timer_slots w) = vlen (slot_generations w) * timers_per_slot w;
  ids_small : vlen (timer_slots w) <= 2 ^ 32;
  ids_timer : forall h f E, m !! h = Some (f, E) ->
    Bitmap.is_set (timer_bitmap w) f = true /\ vget (timer_slots w) f = Some h;
  ids_set : forall f, Bitmap.is_set (timer_bitmap w) f = true ->
    0 <= f < vlen (timer_slots w) /\ (f ∈ X \/ exists h E, m !! h = Some (f, E));
  ids_taken : forall f, f ∈ X ->
    Bitmap.is_set (timer_bitmap w) f = true /\ forall h E, m !! h <> Some (f, E);
}.

Definition named w m X : Prop := settled g w m /\ ids_ok w m X.

(** Dropping the timers of an id, or of a set of ids. *)
Definition without (P : Z -> bool) m : gmap Z (Z * Z) := filter (fun kv => P kv.2.1 = false) m.

Definition gen_of w (slot : Z) : Z := default 0 (vget (slot_generations w) slot).

Definition flat_of w (slot timer_id : Z) : Z := slot * timers_per_slot w + timer_id.

Lemma settled_set_ids w m a b c : settled g w m -> settled g (set_ids a b c w) m.
Proof. intros (L & HI & HN). exists L. split; [|done]. split; apply HI. Qed.

Lemma ids_ok_frame w w' m X : ids w' = ids w -> ids_ok w m X -> ids_ok w' m X.
Proof.
  unfold ids. intros Heq H.
  assert (slot_generations w' = slot_generations w /\ timer_slots w' = timer_slots w /\
    timer_bitmap w' = timer_bitmap w /\ timers_per_slot w' = timers_per_slot w) as (E1 & E2 & E3 & E4)
    by (split_and!; congruence).
  split; rewrite ?E1, ?E2, ?E3, ?E4; apply H.
Qed.

(** Two timers never carry the same id. *)
Lemma ids_unique w m X h h' f E E' :
  ids_ok w m X -> m !! h = Some (f, E) -> m !! h' = Some (f, E') -> h = h'.
Proof.
  intros H H1 H2. apply (ids_timer _ _ _ H) in H1 as [_ H1]. apply (ids_timer _ _ _ H) in H2 as [_ H2].
  congruence.
Qed.

Lemma without_one w m X h f E :
  ids_ok w m X -> m !! h = Some (f, E) -> delete h m = without (Z.eqb f) m.
Proof.
  intros H Hm. apply map_eq. intros i. apply option_eq. intros [f' E'].
  unfold without. rewrite map_lookup_filter_Some, lookup_delete_Some. cbn. rewrite Z.eqb_neq.
  split; intros [H1 H2]; split; [done| |intros ->; congruence|done].
  intros ->. apply H1. by eapply ids_unique.
Qed.

Lemma without_none m P : (forall h f E, m !! h = Some (f, E) -> P f = false) -> without P m = m.
Proof. intros H. apply map_filter_id. intros h [f E] Hm. cbn. by eapply H. Qed.

Lemma without_lookup m P h f E :
  without P m !! h = Some (f, E) <-> m !! h = Some (f, E) /\ P f = false.
Proof. unfold without. by rewrite map_lookup_filter_Some. Qed.

Lemma without_without m P Q : without P (without Q m) = without (fun f => P f || Q f) m.
Proof.
  apply map_eq. intros i. apply option_eq. intros [f E]. rewrite !without_lookup, orb_false_iff. tauto.
Qed.

Lemma without_ext m P Q : (forall f, P f = Q f) -> without P m = without Q m.
Proof.
  intros H. apply map_eq. intros i. apply option_eq. intros [f E]. by rewrite !without_lookup, H.
Qed.

(** Forgetting the recorded entry of an id. *)
Lemma clear_timer_slot_spec w m X h f E :
  named w m X -> m !! h = Some (f, E) ->
  exists w', clear_timer_slot w f = Some w' /\ settled g w' m /\
    ids_ok w' (without (Z.eqb f) m) X /\ current_tick w' = current_tick w /\
    entries w' = entries w /\ slot_generations w' = slot_generations w /\
    timers_per_slot w' = timers_per_slot w.
Proof.
  intros [Hs H] Hm. pose proof (ids_timer _ _ _ H _ _ _ Hm) as [Hset Hget].
  pose proof (vget_Some_bounds _ _ _ Hget) as Hf.
  destruct (Bitmap.bitmap_clear_total (timer_bitmap w) f (ids_wf _ _ _ H) ltac:(lia))
    as (b & Hb & Hwf & _ & Hbits).
  destruct (vset_total (timer_slots w) f INVALID_INDEX Hf) as [sl Hsl].
  unfold clear_timer_slot. rewrite Hb. cbn [mbind option_bind]. rewrite Hsl. cbn [mbind option_bind].
  eexists. split; [done|]. split; [by apply settled_set_ids|]. split; [|done].
  split; cbn [timers_per_slot timer_bitmap timer_slots slot_generations set_ids];
    rewrite ?(vset_len _ _ _ _ Hsl); try apply H; [done|..].
  - intros h' f' E' [Hm' Hne]%without_lookup. apply Z.eqb_neq in Hne.
    rewrite Hbits, (vget_vset _ _ _ f' _ Hsl), !decide_False by congruence. by apply (ids_timer _ _ _ H) in Hm'.
  - intros f'. rewrite Hbits. destruct (decide (f' = f)) as [->|Hne]; [done|]. intros Hf'.
    apply (ids_set _ _ _ H) in Hf' as [? [?|(h' & E' & Hm')]]; split; [done|by left|done|].
    right. exists h', E'. apply without_lookup. split; [done|]. apply Z.eqb_neq. congruence.
  - intros f' Hf'. destruct (ids_taken _ _ _ H f' Hf') as [Hset' Hno].
    assert (f' <> f) by (intros ->; by eapply Hno). rewrite Hbits, decide_False by done.
    split; [done|]. intros h' E' [Hm' _]%without_lookup. by eapply Hno.
Qed.

(** Clearing the record and stopping the recorded entry removes the timer. *)
Lemma clear_and_stop w m X h f E :
  named w m X -> m !! h = Some (f, E) ->
  exists w1 w2, clear_timer_slot w f = Some w1 /\ stop g w1 h = Some (w2, true) /\
    named w2 (without (Z.eqb f) m) X /\ current_tick w2 = current_tick w /\
    vlen (entries w2) = vlen (entries w) /\ slot_generations w2 = slot_generations w /\
    timers_per_slot w2 = timers_per_slot w /\ vlen (timer_slots w2) = vlen (timer_slots w).
Proof.
  intros HN Hm. destruct (clear_timer_slot_spec w m X h f E HN Hm)
    as (w1 & H1 & Hs1 & Hi1 & Ht1 & He1 & Hg1 & Hp1). exists w1.
  destruct (settled_stop g Hg w1 m h Hs1) as (w2 & Hstop & Hs2 & Ht2 & Hl2); [right; eauto|].
  rewrite bool_decide_eq_true_2 in Hstop by eauto. exists w2. split; [done|]. split; [done|].
  apply stop_ids in Hstop as Hids. pose proof Hids as Hids'. unfold ids in Hids'. injection Hids' as Eg Es Eb Ep Em.
  rewrite (without_one w m X h f E) in Hs2 by (done || apply HN).
  split; [split; [done|by eapply ids_ok_frame]|]. rewrite Ht2, Hl2, He1, Eg, Ep, Es.
  split_and!; try done. unfold clear_timer_slot in H1.
  destruct (Bitmap.clear _ _) as [[b ?]|]; [|done]. cbn [mbind option_bind] in H1.
  destruct (vset (timer_slots w) f INVALID_INDEX) as [sl|] eqn:Hsl; [|done]. cbn in H1. simplify_eq.
  by eapply vset_len.
Qed.

(** What an operation on the tables keeps. *)
Definition same_frame w w' : Prop :=
  current_tick w' = current_tick w /\ vlen (entries w') = vlen (entries w) /\
  timers_per_slot w' = timers_per_slot w /\ vlen (slot_generations w') = vlen (slot_generations w).

Lemma cancel_timer_spec w m slot generation id :
  named w m [] -> 0 <= slot < vlen (slot_generations w) -> 0 <= id < timers_per_slot w ->
  gen_of w slot = generation ->
  exists w' b, cancel_timer g w slot generation id = Some (w', b) /\
    named w' (without (Z.eqb (flat_of w slot id)) m) [] /\ same_frame w w' /\
    slot_generations w' = slot_generations w /\
    (b = true <-> exists h E, m !! h = Some (flat_of w slot id, E)).
Proof.
  intros [Hs H] Hslot Hid Hgen. unfold cancel_timer, flat_of in *. pose proof (ids_per _ _ _ H) as Hper.
  destruct (Z.eqb_spec (timers_per_slot w) 0); [lia|].
  destruct (vget_in_range (slot_generations w) slot Hslot) as [old Hold].
  unfold gen_of in Hgen. rewrite Hold in Hgen |- *. cbn in Hgen. subst old. rewrite Z.eqb_refl. cbn [negb].
  unfold timer_flat_index. rewrite !(proj2 (Z.ltb_lt _ _)) by lia. cbn [andb mbind option_bind].
  set (f := slot * timers_per_slot w + id). destruct (Bitmap.is_set (timer_bitmap w) f) eqn:Hset; cbn [negb].
  - destruct (ids_set _ _ _ H f Hset) as [Hr [Hx|(h & E & Hm)]]; [by apply elem_of_nil in Hx|].
    pose proof (ids_timer _ _ _ H _ _ _ Hm) as [_ Hget]. rewrite Hget. cbn [mbind option_bind].
    destruct (clear_and_stop w m [] h f E (conj Hs H) Hm)
      as (w1 & w2 & -> & Hstop & HN2 & Ht & Hl & Hg' & Hp & _). cbn [mbind option_bind].
    exists w2, true. split; [done|]. split; [done|]. split; [split_and!; done || by rewrite Hg'|].
    split; [done|]. split; eauto.
  - exists w, false. rewrite without_none.
    + split; [done|]. split; [done|]. split; [by split_and!|]. split; [done|].
      split; [done|]. intros (h & E & Hm). apply (ids_timer _ _ _ H) in Hm as [Hset' _]. congruence.
    + intros h f' E Hm. apply Z.eqb_neq. intros <-. apply (ids_timer _ _ _ H) in Hm as [Hset' _]. congruence.
Qed.

(** [reset_loop] drops the timers of the ids it visits. *)
Lemma reset_loop_spec flats w m :
  named w m [] ->
  exists w', reset_loop g flats w = Some w' /\
    named w' (without (fun f => bool_decide (f ∈ flats)) m) [] /\ same_frame w w' /\
    slot_generations w' = slot_generations w /\ vlen (timer_slots w') = vlen (timer_slots w).
Proof.
  revert w m. induction flats as [|f flats IH]; intros w m HN; cbn [reset_loop].
  { exists w. rewrite without_none; [done|]. intros. apply bool_decide_eq_false_2. by intros ?%elem_of_nil. }
  pose proof HN as [Hs H]. destruct (Bitmap.is_set (timer_bitmap w) f) eqn:Hset; cbn [negb].
  - destruct (ids_set _ _ _ H f Hset) as [Hr [Hx|(h & E & Hm)]]; [by apply elem_of_nil in Hx|].
    pose proof (ids_timer _ _ _ H _ _ _ Hm) as [_ Hget]. rewrite Hget. cbn [mbind option_bind].
    destruct (clear_and_stop w m [] h f E HN Hm)
      as (w1 & w2 & -> & Hstop & HN2 & Ht & Hl & Hg' & Hp & Hts). cbn [mbind option_bind]. rewrite Hstop.
    cbn [mbind option_bind]. destruct (IH w2 _ HN2) as (w' & -> & HN' & (F1 & F2 & F3 & F4) & Hg2 & Hts2).
    exists w'. split; [done|]. rewrite without_without in HN'. split; [|split; [split_and!; congruence|split; congruence]].
    erewrite without_ext; [exact HN'|]. intros f'. cbn.
    destruct (Z.eqb_spec f f') as [->|Hne].
    + rewrite orb_true_r. apply bool_decide_eq_true_2. left.
    + rewrite orb_false_r. apply bool_decide_ext. rewrite elem_of_cons. split; [intros [->|]; done|by right].
  - destruct (IH w m HN) as (w' & -> & HN' & Hfr & Hg2 & Hts2). exists w'. split; [done|].
    split; [|done]. replace (without _ m) with (without (fun f => bool_decide (f ∈ flats)) m); [done|].
    apply map_eq. intros i. apply option_eq. intros [f' E]. rewrite !without_lookup.
    split; intros [Hm Hb]; (split; [done|]); apply bool_decide_eq_false in Hb; apply bool_decide_eq_false_2.
    + rewrite elem_of_cons. intros [->|?]; [|done]. apply (ids_timer _ _ _ H) in Hm as [Hx _]. congruence.
    + intros Hin. apply Hb. by right.
Qed.

Lemma vlen_extend_to v n x : vlen (extend_to v n x) = Z.max (vlen v) n.
Proof. unfold extend_to. rewrite vlen_app, vlen_replicate. pose proof (vlen_nonneg v). lia. Qed.

Lemma vget_extend_to v n x i :
  0 <= i -> vget (extend_to v n x) i = if decide (i < vlen v) then vget v i else
    if decide (i < n) then Some x else None.
Proof.
  intros Hi. unfold extend_to. pose proof (vlen_nonneg v). destruct (decide (i < vlen v)).
  - by rewrite vget_app_l.
  - rewrite vget_app_r by lia. destruct (decide (i < n)).
    + rewrite vget_replicate; [done|]. lia.
    + apply vget_None. rewrite vlen_replicate. lia.
Qed.

Lemma extend_default v n i : default 0 (vget (extend_to v n 0) i) = default 0 (vget v i).
Proof.
  destruct (Z.ltb_spec i 0); [by rewrite !vget_None by lia|]. rewrite vget_extend_to by done.
  destruct (decide (i < vlen v)); [done|]. rewrite (vget_None v) by lia. by destruct (decide (i < n)).
Qed.

(** Growing the tables. *)
Lemma extend_ids_ok w m slot :
  named w m [] -> 0 <= slot -> (slot + 1) * timers_per_slot w <= 2 ^ 32 ->
  vlen (slot_generations w) <= slot ->
  named (set_ids (extend_to (slot_generations w) (slot + 1) 0)
    (extend_to (timer_slots w) ((slot + 1) * timers_per_slot w) INVALID_INDEX) (timer_bitmap w) w) m [].
Proof.
  intros [Hs H] Hslot Hb Hge. pose proof (ids_per _ _ _ H). pose proof (ids_len _ _ _ H) as Hlen.
  pose proof (ids_small _ _ _ H).
  split; [by apply settled_set_ids|].
  split; cbn [timers_per_slot timer_bitmap timer_slots slot_generations set_ids]; rewrite ?vlen_extend_to;
    try apply H.
  - rewrite !Z.max_r; [done|lia|nia].
  - lia.
  - intros h f E Hm. apply (ids_timer _ _ _ H) in Hm as [? Hget]. split; [done|].
    pose proof (vget_Some_bounds _ _ _ Hget). rewrite vget_extend_to, decide_True by lia. done.
  - intros f Hf. apply (ids_set _ _ _ H) in Hf as [? ?]. split; [lia|done].
Qed.

(** The ids of a slot. *)
Definition in_slot w (slot f : Z) : bool := f / timers_per_slot w =? slot.

Lemma in_slot_zseq w slot f :
  0 < timers_per_slot w ->
  in_slot w slot f =
  bool_decide (f ∈ zseq (slot * timers_per_slot w) (Z.to_nat (timers_per_slot w))).
Proof.
  intros Hp. unfold in_slot. apply eq_true_iff_eq. rewrite bool_decide_eq_true, elem_of_zseq, Z.eqb_eq.
  rewrite Z2Nat.id by lia. split.
  - intros <-. pose proof (Z.div_mod f (timers_per_slot w)). pose proof (Z.mod_pos_bound f (timers_per_slot w)). lia.
  - intros Hf. symmetry. apply (Z.div_unique _ _ _ (f - slot * timers_per_slot w)); lia.
Qed.

(** After [prepare_slot] the slot has the generation asked for; a change of
    generation drops the timers of the slot. *)
Definition prepared w m (slot generation : Z) : gmap Z (Z * Z) :=
  if gen_of w slot =? generation then m else without (in_slot w slot) m.

Lemma prepare_slot_spec w m slot generation :
  named w m [] -> 0 <= slot -> (slot + 1) * timers_per_slot w <= 2 ^ 32 ->
  exists w', prepare_slot g w slot generation = Some w' /\ named w' (prepared w m slot generation) [] /\
    current_tick w' = current_tick w /\ vlen (entries w') = vlen (entries w) /\
    timers_per_slot w' = timers_per_slot w /\ slot < vlen (slot_generations w') /\
    (forall s, gen_of w' s = if s =? slot then generation else gen_of w s).
Proof.
  intros HN Hslot Hb. pose proof HN as [_ H]. pose proof (ids_per _ _ _ H) as Hper.
  unfold prepare_slot. rewrite (proj2 (Z.ltb_lt _ _)) by done. cbn [negb].
  set (w0 := if vlen (slot_generations w) <=? slot then _ else w).
  assert (named w0 m [] /\ current_tick w0 = current_tick w /\ entries w0 = entries w /\
    timers_per_slot w0 = timers_per_slot w /\ slot < vlen (slot_generations w0) /\
    vget (slot_generations w0) slot = Some (gen_of w slot) /\ (forall s, gen_of w0 s = gen_of w s))
    as (HN0 & Ht0 & He0 & Hp0 & Hl0 & Hg0 & Hgs0).
  { unfold w0. destruct (Z.leb_spec (vlen (slot_generations w)) slot).
    - split; [by apply extend_ids_ok|]. cbn. unfold gen_of. cbn. rewrite vlen_extend_to, vget_extend_to by done.
      rewrite decide_False, decide_True by lia. rewrite (vget_None _ slot) by lia. split_and!; try done; [lia|].
      intros s. apply extend_default.
    - unfold gen_of. destruct (vget_in_range (slot_generations w) slot) as [x Hx]; [lia|]. rewrite Hx. split_and!; done. }
  clearbody w0. rewrite Hg0. cbn [mbind option_bind]. unfold prepared.
  destruct (Z.eqb_spec (gen_of w slot) generation) as [Hgen|Hgen].
  { exists w0. split_and!; try done; [by rewrite He0|]. intros s. rewrite Hgs0.
    by destruct (Z.eqb_spec s slot) as [->|]. }
  pose proof HN0 as [_ H0]. unfold reset_slot. rewrite Hp0. destruct (Z.eqb_spec (timers_per_slot w) 0); [lia|].
  pose proof (ids_len _ _ _ H0) as Hlen0. rewrite Hp0 in Hlen0.
  destruct (Z.ltb_spec (vlen (timer_slots w0)) (slot * timers_per_slot w + timers_per_slot w)); [nia|].
  destruct (reset_loop_spec (zseq (slot * timers_per_slot w) (Z.to_nat (timers_per_slot w))) w0 m HN0)
    as (w1 & -> & HN1 & (F1 & F2 & F3 & F4) & Hg1 & Hts1).
  cbn [mbind option_bind]. destruct (vset_total (slot_generations w1) slot generation) as [gens Hgens]; [lia|].
  rewrite Hgens. cbn [mbind option_bind]. eexists. split; [done|].
  assert (without (in_slot w slot) m =
    without (fun f => bool_decide (f ∈ zseq (slot * timers_per_slot w) (Z.to_nat (timers_per_slot w)))) m) as ->
    by (apply without_ext; intros; by apply in_slot_zseq).
  split; [|cbn; rewrite (vset_len _ _ _ _ Hgens); split_and!; [congruence|by rewrite F2, He0|congruence|lia|]].
  2:{ intros s. rewrite <- Hgs0. unfold gen_of. cbn. rewrite (vget_vset _ _ _ s _ Hgens), Hg1.
      destruct (Z.eqb_spec s slot); [by rewrite decide_True|by rewrite decide_False]. }
  destruct HN1 as [Hs1 Hi1]. split; [by apply settled_set_ids|].
  split; cbn [timers_per_slot timer_bitmap timer_slots slot_generations set_ids];
    rewrite ?(vset_len _ _ _ _ Hgens); apply Hi1.
Qed.

(** Recording a freshly started timer under its id. *)
Lemma record_timer w m h f E :
  settled g w (<[h := (f, E)]> m) -> ids_ok w m [] -> m !! h = None ->
  0 <= f < vlen (timer_slots w) -> (forall h' E', m !! h' <> Some (f, E')) ->
  exists sl b old, vset (timer_slots w) f h = Some sl /\ Bitmap.set (timer_bitmap w) f = Some (b, old) /\
    named (set_ids (slot_generations w) sl b w) (<[h := (f, E)]> m) [].
Proof.
  intros Hs H Hh Hf Hno.
  destruct (vset_total (timer_slots w) f h Hf) as [sl Hsl].
  destruct (Bitmap.bitmap_set_total (timer_bitmap w) f (ids_wf _ _ _ H) ltac:(lia)) as (b & Hb & Hwf & Hbits).
  exists sl, b. eexists. split; [done|]. split; [done|]. split; [by apply settled_set_ids|].
  split; cbn [timers_per_slot timer_bitmap timer_slots slot_generations set_ids];
    rewrite ?(vset_len _ _ _ _ Hsl); try apply H; [done|..].
  - intros h' f' E' [[<- Heq]|[Hne Hm]]%lookup_insert_Some.
    + simplify_eq. by rewrite Hbits, (vget_vset _ _ _ f' _ Hsl), !decide_True.
    + assert (f' <> f) by (intros ->; by eapply Hno).
      rewrite Hbits, (vget_vset _ _ _ f' _ Hsl), !decide_False by congruence. by apply (ids_timer _ _ _ H) in Hm.
  - intros f'. rewrite Hbits. destruct (decide (f' = f)) as [->|Hne]; intros Hset.
    + split; [done|]. right. exists h, E. apply lookup_insert_eq.
    + apply (ids_set _ _ _ H) in Hset as [? [Hx|(h' & E' & Hm)]]; [by apply elem_of_nil in Hx|].
      split; [done|]. right. exists h', E'. rewrite lookup_insert_ne; [done|]. intros ->. congruence.
  - intros f' Hx. by apply elem_of_nil in Hx.
Qed.

Lemma flat_in_slot w slot id :
  0 <= id < timers_per_slot w -> in_slot w slot (flat_of w slot id) = true.
Proof.
  intros Hid. unfold in_slot, flat_of. apply Z.eqb_eq.
  rewrite Z.div_add_l, Z.div_small by lia. lia.
Qed.

Lemma flat_range w m X slot id :
  ids_ok w m X -> 0 <= slot < vlen (slot_generations w) -> 0 <= id < timers_per_slot w ->
  0 <= flat_of w slot id < vlen (timer_slots w).
Proof. intros H Hs Hid. rewrite (ids_len _ _ _ H). unfold flat_of. nia. Qed.

(** [arm_timer] on a prepared wheel: the id's old timer goes, the new one is
    started and recorded. *)
Lemma arm_timer_spec w m slot generation id interval :
  named w m [] -> 0 <= slot -> 0 <= id < timers_per_slot w ->
  (slot + 1) * timers_per_slot w <= 2 ^ 32 -> vlen (entries w) + 1 < 2 ^ 32 -> 0 <= interval ->
  reaches_around g (current_tick w) interval = false ->
  let f := flat_of w slot id in
  let m1 := without (Z.eqb f) (prepared w m slot generation) in
  match interval_error g (current_tick w) interval with
  | Some e => exists w', arm_timer g w slot generation id interval = Some (w', inl e) /\ named w' m1 []
  | None => exists w' h, arm_timer g w slot generation id interval = Some (w', inr tt) /\
      m1 !! h = None /\ named w' (<[h := (f, current_tick w + interval)]> m1) []
  end /\
  forall w' r, arm_timer g w slot generation id interval = Some (w', r) ->
    current_tick w' = current_tick w /\ vlen (entries w') <= vlen (entries w) + 1 /\
    timers_per_slot w' = timers_per_slot w /\
    (forall s, gen_of w' s = if s =? slot then generation else gen_of w s).
Proof.
  intros HN Hslot Hid Hb Hcap Hi Hr f m1. unfold arm_timer.
  destruct (prepare_slot_spec w m slot generation HN Hslot Hb) as (w1 & -> & HN1 & Ht1 & Hl1 & Hp1 & Hs1 & Hg1).
  cbn [mbind option_bind]. assert (flat_of w1 slot id = f) as Hf1 by (unfold f, flat_of; by rewrite Hp1).
  unfold timer_flat_index. rewrite Hp1. pose proof HN1 as [_ H1]. pose proof (ids_per _ _ _ H1).
  rewrite !(proj2 (Z.ltb_lt _ _)) by lia. cbn [andb mbind option_bind]. fold (flat_of w slot id). fold f.
  assert (gen_of w1 slot = generation) as Hgen1 by (by rewrite Hg1, Z.eqb_refl).
  destruct (cancel_timer_spec w1 _ slot generation id HN1 ltac:(lia) ltac:(lia) Hgen1)
    as (w2 & b & -> & HN2 & (F1 & F2 & F3 & F4) & Hgens & _). cbn [mbind option_bind].
  rewrite Hf1 in HN2. fold m1 in HN2. pose proof HN2 as [Hs2 H2].
  pose proof (flat_range w2 _ _ slot id H2 ltac:(lia) ltac:(lia)) as Hfr.
  assert (flat_of w2 slot id = f) as Hf2 by (unfold f, flat_of; congruence). rewrite Hf2 in Hfr.
  rewrite wrap_small by (pose proof (ids_small _ _ _ H2); split; lia).
  assert (current_tick w2 = current_tick w) as Ht2 by congruence. rewrite <- Ht2 in Hr |- *.
  destruct (interval_error g (current_tick w2) interval) as [e|] eqn:He.
  - unfold start. rewrite (validate_interval_spec g Hg), He. cbn [mbind option_bind].
    split; [by exists w2|]. intros w' r ?. simplify_eq. split_and!; [done|lia|congruence|].
    intros s. rewrite <- Hg1. unfold gen_of. by rewrite Hgens.
  - destruct (settled_start g Hg w2 m1 f interval Hs2 Hi ltac:(lia) He Hr)
      as (w3 & h & Hst & Hh & Hs3 & Ht3 & Hl3). rewrite Hst. cbn [mbind option_bind].
    apply start_ids in Hst as Hids. pose proof (ids_ok_frame _ _ _ _ Hids H2) as H3.
    unfold ids in Hids. injection Hids as Eg Es Eb Ep Em.
    destruct (record_timer w3 m1 h f _ Hs3 H3 Hh) as (sl & bm & old & -> & Hset & HN3).
    { by rewrite Es. }
    { intros h' E'. unfold m1. rewrite without_lookup, Z.eqb_refl. by intros [_ ?]. }
    cbn [mbind option_bind]. rewrite Hset. cbn [mbind option_bind]. split.
    + eexists _, h. split_and!; [done..|]. done.
    + intros w' r ?. simplify_eq. cbn. split_and!; [congruence|lia|congruence|].
      intros s. rewrite <- Hg1. unfold gen_of. cbn. congruence.
Qed.

Lemma without_idem m P : without P (without P m) = without P m.
Proof. rewrite without_without. apply without_ext. intros. apply orb_diag. Qed.

(** Moving the timer recorded for an id is starting it afresh at its entry. *)
Lemma move_timer w m h f E E' :
  ids_ok w m [] -> m !! h = Some (f, E) ->
  let m1 := without (Z.eqb f) m in
  m1 !! h = None /\ <[h := (f, E')]> m1 = alter (fun pe => (pe.1, E')) h m /\
  ids_ok w (<[h := (f, E')]> m1) [].
Proof.
  intros H Hm m1. unfold m1. rewrite <- (without_one w m [] h f E) by done.
  split; [by rewrite lookup_delete_eq|]. rewrite insert_delete_eq.
  split.
  { apply map_eq. intros i. destruct (decide (h = i)) as [<-|].
    - by rewrite lookup_insert_eq, lookup_alter_eq, Hm.
    - by rewrite lookup_insert_ne, lookup_alter_ne. }
  split; try apply H.
  - intros h' f' E0 [[<- Heq]|[Hne Hm']]%lookup_insert_Some; simplify_eq; by eapply (ids_timer _ _ _ H).
  - intros f' Hf'. destruct (ids_set _ _ _ H f' Hf') as [? [?|(h' & E0 & Hm')]]; split; [done|by left|done|].
    right. destruct (decide (h = h')) as [<-|]; [|exists h', E0; by rewrite lookup_insert_ne].
    exists h, E'. simplify_eq. by rewrite lookup_insert_eq.
  - intros f' []%elem_of_nil.
Qed.

(** [update_timer] moves an armed timer and arms one that is not. *)
Lemma update_timer_spec w m slot generation id interval :
  named w m [] -> 0 <= slot -> 0 <= id < timers_per_slot w ->
  (slot + 1) * timers_per_slot w <= 2 ^ 32 -> vlen (entries w) + 1 < 2 ^ 32 -> 0 <= interval ->
  reaches_around g (current_tick w) interval = false ->
  let f := flat_of w slot id in
  let m1 := prepared w m slot generation in
  exists w', current_tick w' = current_tick w /\ vlen (entries w') <= vlen (entries w) + 1 /\
    timers_per_slot w' = timers_per_slot w /\
    (forall s, gen_of w' s = if s =? slot then generation else gen_of w s) /\
    match interval_error g (current_tick w) interval with
    | Some e => update_timer g w slot generation id interval = Some (w', inl e) /\ named w' m1 []
    | None => exists h, update_timer g w slot generation id interval = Some (w', inr tt) /\
        without (Z.eqb f) m1 !! h = None /\
        named w' (<[h := (f, current_tick w + interval)]> (without (Z.eqb f) m1)) []
    end.
Proof.
  intros HN Hslot Hid Hb Hcap Hi Hr f m1. unfold update_timer.
  destruct (prepare_slot_spec w m slot generation HN Hslot Hb) as (w1 & -> & HN1 & Ht1 & Hl1 & Hp1 & Hs1 & Hg1).
  cbn [mbind option_bind]. fold m1 in HN1. assert (flat_of w1 slot id = f) as Hf1 by (unfold f, flat_of; by rewrite Hp1).
  unfold timer_flat_index. rewrite Hp1. pose proof HN1 as [Hset1 H1]. pose proof (ids_per _ _ _ H1).
  rewrite !(proj2 (Z.ltb_lt _ _)) by lia. cbn [andb mbind option_bind]. fold (flat_of w slot id). fold f.
  destruct (Bitmap.is_set (timer_bitmap w1) f) eqn:Hbit.
  - destruct (ids_set _ _ _ H1 f Hbit) as [Hrng [[]%elem_of_nil|(h & E & Hm)]].
    pose proof (ids_timer _ _ _ H1 _ _ _ Hm) as [_ ->]. cbn [mbind option_bind]. rewrite <- Ht1 in Hr |- *.
    destruct (interval_error g (current_tick w1) interval) as [e|] eqn:He.
    + unfold update. rewrite (validate_interval_spec g Hg), He. cbn [mbind option_bind].
      exists w1. split_and!; done || lia.
    + destruct (settled_update g Hg w1 m1 h interval Hset1 Hi He Hr) as (w2 & Hup & Hs2 & Ht2 & Hl2).
      rewrite bool_decide_eq_true_2 in Hup by eauto. rewrite Hup. cbn [mbind option_bind].
      apply update_ids in Hup as Hids. destruct (move_timer w1 m1 h f E (current_tick w1 + interval) H1 Hm) as (Hn & Heq & Hok).
      exists w2. split; [congruence|]. split; [lia|]. split; [unfold ids in Hids; congruence|].
      split; [intros s; rewrite <- Hg1; unfold gen_of, ids in *; congruence|].
      exists h. split; [done|]. split; [done|]. split; [by rewrite Heq|by eapply ids_ok_frame].
  - assert (without (Z.eqb f) m1 = m1) as Hwo.
    { apply without_none. intros h f' E Hm. apply Z.eqb_neq. intros <-.
      apply (ids_timer _ _ _ H1) in Hm as [? _]. congruence. }
    destruct (arm_timer_spec w1 m1 slot generation id interval HN1) as [Harm Hfr]; [lia|lia|by rewrite Hp1|lia|lia|by rewrite Ht1|].
    rewrite Hf1 in Harm. unfold prepared in Harm. rewrite Hg1, !Z.eqb_refl, Hwo, Ht1 in Harm. rewrite Hwo.
    assert (forall w', (forall s, gen_of w' s = if s =? slot then generation else gen_of w1 s) ->
      forall s, gen_of w' s = if s =? slot then generation else gen_of w s) as Hgg.
    { intros w' Hw' s. rewrite Hw', Hg1. by destruct (s =? slot). }
    destruct (interval_error g (current_tick w) interval) as [e|].
    + destruct Harm as (w' & Hw & HN'). destruct (Hfr _ _ Hw) as (F1 & F2 & F3 & F4). exists w'.
      split_and!; congruence || done || lia || by apply Hgg.
    + destruct Harm as (w' & h & Hw & Hh & HN'). destruct (Hfr _ _ Hw) as (F1 & F2 & F3 & F4). exists w'.
      split; [congruence|]. split; [lia|]. split; [congruence|]. split; [by apply Hgg|]. by exists h.
Qed.

Lemma elem_of_payloads m f : f ∈ payloads m <-> exists h E, m !! h = Some (f, E).
Proof.
  unfold payloads. rewrite list_elem_of_fmap. split.
  - intros ([h [f' E]] & -> & Hin%elem_of_map_to_list). eauto.
  - intros (h & E & Hm). exists (h, (f, E)). split; [done|]. by apply elem_of_map_to_list.
Qed.

(** Timers with distinct payloads expire distinct payloads. *)
Lemma payloads_NoDup m :
  (forall h h' f E E', m !! h = Some (f, E) -> m !! h' = Some (f, E') -> h = h') -> NoDup (payloads m).
Proof.
  intros H. unfold payloads. apply NoDup_fmap_2_strong; [|apply NoDup_map_to_list].
  intros [h [f E]] [h' [f' E']] Hh Hh' Heq. cbn in Heq. subst f'.
  apply elem_of_map_to_list in Hh, Hh'.
  assert (h = h') as -> by (by eapply H). congruence.
Qed.

Lemma expired_elem m tick f :
  f ∈ payloads (expired_by tick m) <-> exists h E, m !! h = Some (f, E) /\ E <= tick.
Proof.
  rewrite elem_of_payloads. unfold expired_by. setoid_rewrite map_lookup_filter_Some. done.
Qed.

(** Expiring moves the ids of the expired timers to the list still to be
    taken. *)
Lemma expire_ids_ok w m tick ps :
  ids_ok w m [] -> ps ≡ₚ payloads (expired_by tick m) ->
  ids_ok w (waiting_after tick m) ps /\ NoDup ps /\
  (forall f, f ∈ ps <-> exists h E, m !! h = Some (f, E) /\ E <= tick).
Proof.
  intros H Hps. assert (forall f, f ∈ ps <-> exists h E, m !! h = Some (f, E) /\ E <= tick) as Hin.
  { intros f. rewrite Hps. apply expired_elem. }
  split_and!; [split; try apply H|rewrite Hps|done].
  - intros h f E [Hm _]%map_lookup_filter_Some. by eapply (ids_timer _ _ _ H).
  - intros f Hf. destruct (ids_set _ _ _ H f Hf) as [Hr [[]%elem_of_nil|(h & E & Hm)]]. split; [done|].
    destruct (decide (E <= tick)); [left; apply Hin; eauto|right].
    exists h, E. apply map_lookup_filter_Some. cbn. split; [done|lia].
  - intros f (h & E & Hm & HE)%Hin. split; [by eapply (ids_timer _ _ _ H)|].
    intros h' E' [Hm' HE']%map_lookup_filter_Some. cbn in HE'.
    assert (h = h') as <- by (by eapply ids_unique). simplify_eq. lia.
  - apply payloads_NoDup. intros h h' f E E' [Hm _]%map_lookup_filter_Some [Hm' _]%map_lookup_filter_Some.
    by eapply ids_unique.
Qed.

Lemma expire_named w m ticks x :
  named w m [] -> 0 <= ticks -> current_tick w + ticks < 2 ^ 64 ->
  exists w' ps k, expire g w ticks x = Some (w', x ++ ps, vlen ps) /\
    0 <= k <= ticks /\ current_tick w' = current_tick w + k /\ ids w' = ids w /\
    named w' (waiting_after (current_tick w + k) m) ps /\ NoDup ps /\
    (forall f, f ∈ ps <-> exists h E, m !! h = Some (f, E) /\ E <= current_tick w + k) /\
    (k < ticks -> expiration_budget w <= vlen ps).
Proof.
  intros [Hs H] Hn Ht. unfold expire.
  destruct (expire_loop_spec g Hg (Z.to_nat ticks) w m (vlen x) (expiration_budget w) x)
    as (w' & ps & k & Hrun & Hk & H1 & H2 & H3 & H4); [done|lia|]. rewrite Hrun.
  cbn [mbind option_bind]. exists w', ps, k. rewrite vlen_app in *. apply expire_loop_ids in Hrun.
  destruct (expire_ids_ok w m _ ps H H3) as (Hok & Hnd & Hin).
  split; [do 2 f_equal; lia|]. split_and!; try done; try lia.
  split; [done|by eapply ids_ok_frame].
Qed.

(** Taking an expired id returns the slot, its generation and the id, and
    frees the pair. *)
Lemma take_expired_spec w m f X :
  named w m (f :: X) -> NoDup (f :: X) ->
  exists w', take_expired_timer w f =
      Some (w', Some (f / timers_per_slot w, gen_of w (f / timers_per_slot w), f mod timers_per_slot w)) /\
    named w' m X /\ same_frame w w' /\ slot_generations w' = slot_generations w /\ entries w' = entries w.
Proof.
  intros [Hs H] [Hnin _]%NoDup_cons. destruct (ids_taken _ _ _ H f) as [Hset Hno]; [left|].
  destruct (ids_set _ _ _ H f Hset) as [Hf _]. pose proof (ids_per _ _ _ H) as Hp.
  pose proof (ids_len _ _ _ H) as Hlen. pose proof (ids_small _ _ _ H) as Hsm.
  unfold take_expired_timer. destruct (Z.eqb_spec (timers_per_slot w) 0); [lia|].
  destruct (Z.leb_spec (vlen (timer_slots w)) f); [lia|]. rewrite Hset. cbn [orb negb].
  assert (0 <= f / timers_per_slot w < vlen (slot_generations w)) as Hslot
    by (split; [apply Z.div_pos; lia|apply Z.div_lt_upper_bound; lia]).
  destruct (vget_in_range _ _ Hslot) as [gen Hgen]. rewrite Hgen.
  destruct (Bitmap.bitmap_clear_total (timer_bitmap w) f (ids_wf _ _ _ H) ltac:(lia))
    as (b & Hb & Hwf & _ & Hbits).
  destruct (vset_total (timer_slots w) f INVALID_INDEX Hf) as [sl Hsl].
  unfold clear_timer_slot. rewrite Hb. cbn [mbind option_bind]. rewrite Hsl. cbn [mbind option_bind].
  pose proof (Z.mod_pos_bound f _ Hp). pose proof (Z.div_le_upper_bound f _ f Hp ltac:(nia)).
  pose proof (Z.mod_le f _ (proj1 Hf) Hp).
  eexists. split; [unfold gen_of; rewrite Hgen, !wrap_small by (split; lia); done|].
  split; [split; [by apply settled_set_ids|]|by cbn].
  split; cbn [timers_per_slot timer_bitmap timer_slots slot_generations set_ids];
    rewrite ?(vset_len _ _ _ _ Hsl); try apply H; [done|..].
  - intros h f' E Hm. assert (f' <> f) by (intros ->; by eapply Hno).
    rewrite Hbits, (vget_vset _ _ _ f' _ Hsl), !decide_False by congruence. by apply (ids_timer _ _ _ H) in Hm.
  - intros f'. rewrite Hbits. destruct (decide (f' = f)) as [->|Hne]; [done|]. intros Hf'.
    apply (ids_set _ _ _ H) in Hf' as [? [[->|?]%elem_of_cons|?]]; done || (split; [done|auto]).
  - intros f' Hf'. rewrite Hbits, decide_False by (intros ->; done).
    apply (ids_taken _ _ _ H). by right.
Qed.

Lemma cancel_other_generation w slot generation id :
  gen_of w slot <> generation -> cancel_timer g w slot generation id = Some (w, false).
Proof.
  intros Hgen. unfold cancel_timer, gen_of in *. destruct (timers_per_slot w =? 0); [done|].
  destruct (vget (slot_generations w) slot) as [old|]; [|done]. cbn in Hgen.
  by destruct (Z.eqb_spec old generation).
Qed.

Lemma cancel_unknown_slot w slot generation id :
  vlen (slot_generations w) <= slot -> cancel_timer g w slot generation id = Some (w, false).
Proof.
  intros Hlen. unfold cancel_timer. destruct (timers_per_slot w =? 0); [done|].
  by rewrite vget_None by lia.
Qed.

(** ** The abstract state: one deadline per armed id *)

(** [a] gives the deadline of every armed flat id; [X] are the ids that have
    expired and are waiting to be taken. *)
Definition by_id (a : gmap Z Z) m : Prop := forall f E, a !! f = Some E <-> exists h, m !! h = Some (f, E).

Definition tracks w (a : gmap Z Z) X : Prop := exists m, named w m X /\ by_id a m.

Definition drop (P : Z -> bool) (a : gmap Z Z) : gmap Z Z := filter (fun kv => P kv.1 = false) a.

Lemma by_id_without a m P : by_id a m -> by_id (drop P a) (without P m).
Proof.
  intros H f E. unfold drop. rewrite map_lookup_filter_Some, (H f E). setoid_rewrite without_lookup. naive_solver.
Qed.

Lemma drop_one a f : drop (Z.eqb f) a = delete f a.
Proof.
  apply map_eq. intros i. apply option_eq. intros E. unfold drop.
  rewrite map_lookup_filter_Some, lookup_delete_Some. cbn. rewrite Z.eqb_neq. naive_solver.
Qed.

Lemma by_id_insert a m f h E :
  by_id a m -> without (Z.eqb f) m !! h = None ->
  by_id (<[f := E]> a) (<[h := (f, E)]> (without (Z.eqb f) m)).
Proof.
  intros H Hh f' E'. rewrite lookup_insert_Some. split.
  - intros [[<- <-]|[Hne Ha]]; [exists h; by rewrite lookup_insert_eq|].
    apply H in Ha as [h' Hm]. exists h'. assert (without (Z.eqb f) m !! h' = Some (f', E')) as Hw.
    { apply without_lookup. split; [done|]. by apply Z.eqb_neq. }
    rewrite lookup_insert_ne; [done|]. intros ->. congruence.
  - intros [h' [[<- Heq]|[Hne [Hm Hf]%without_lookup]]%lookup_insert_Some]; [naive_solver|].
    right. split; [by apply Z.eqb_neq|]. apply H. eauto.
Qed.

(** Arming or updating under another generation drops the slot's timers. *)
Definition prepare w (slot generation : Z) (a : gmap Z Z) : gmap Z Z :=
  if gen_of w slot =? generation then a else drop (in_slot w slot) a.

Lemma by_id_prepare w slot generation a m :
  by_id a m -> by_id (prepare w slot generation a) (prepared w m slot generation).
Proof. unfold prepare, prepared. intros H. destruct (_ =? _); [done|by apply by_id_without]. Qed.

(** The frame every operation on one id keeps. *)
Definition id_frame (slot generation : Z) w w' : Prop :=
  current_tick w' = current_tick w /\ vlen (entries w') <= vlen (entries w) + 1 /\
  timers_per_slot w' = timers_per_slot w /\
  forall s, gen_of w' s = if s =? slot then generation else gen_of w s.

(** What an operation on one id needs: a representable id, room for one more
    entry and an interval that does not reach around the coarsest ring. *)
Definition id_request w (slot id interval : Z) : Prop :=
  0 <= slot /\ 0 <= id < timers_per_slot w /\ (slot + 1) * timers_per_slot w <= 2 ^ 32 /\
  vlen (entries w) + 1 < 2 ^ 32 /\ 0 <= interval /\ reaches_around g (current_tick w) interval = false.

Lemma tracks_arm w a slot generation id interval :
  tracks w a [] -> id_request w slot id interval ->
  let f := flat_of w slot id in
  exists w', id_frame slot generation w w' /\
  match interval_error g (current_tick w) interval with
  | Some e => arm_timer g w slot generation id interval = Some (w', inl e) /\
      tracks w' (delete f (prepare w slot generation a)) []
  | None => arm_timer g w slot generation id interval = Some (w', inr tt) /\
      tracks w' (<[f := current_tick w + interval]> (prepare w slot generation a)) []
  end.
Proof.
  intros (m & HN & Ha) (H1 & H2 & H3 & H4 & H5 & H6) f. apply (by_id_prepare w slot generation) in Ha.
  destruct (arm_timer_spec w m slot generation id interval HN H1 H2 H3 H4 H5 H6) as [Harm Hfr].
  destruct (interval_error g (current_tick w) interval) as [e|].
  - destruct Harm as (w' & Hw & HN'). exists w'. split; [by eapply Hfr|]. split; [done|].
    eexists. split; [done|]. rewrite <- drop_one. by apply by_id_without.
  - destruct Harm as (w' & h & Hw & Hh & HN'). exists w'. split; [by eapply Hfr|]. split; [done|].
    eexists. split; [done|]. by apply by_id_insert.
Qed.

Lemma tracks_update w a slot generation id interval :
  tracks w a [] -> id_request w slot id interval ->
  let f := flat_of w slot id in
  exists w', id_frame slot generation w w' /\
  match interval_error g (current_tick w) interval with
  | Some e => update_timer g w slot generation id interval = Some (w', inl e) /\
      tracks w' (prepare w slot generation a) []
  | None => update_timer g w slot generation id interval = Some (w', inr tt) /\
      tracks w' (<[f := current_tick w + interval]> (prepare w slot generation a)) []
  end.
Proof.
  intros (m & HN & Ha) (H1 & H2 & H3 & H4 & H5 & H6) f. apply (by_id_prepare w slot generation) in Ha.
  destruct (update_timer_spec w m slot generation id interval HN H1 H2 H3 H4 H5 H6)
    as (w' & F1 & F2 & F3 & F4 & Hup).
  exists w'. split; [by split_and!|].
  destruct (interval_error g (current_tick w) interval) as [e|].
  - destruct Hup as [Hw HN']. split; [done|]. by eexists.
  - destruct Hup as (h & Hw & Hh & HN'). split; [done|]. eexists. split; [done|]. by apply by_id_insert.
Qed.

Lemma tracks_bounds w a X f E : tracks w a X -> a !! f = Some E -> 0 <= f < vlen (slot_generations w) * timers_per_slot w.
Proof.
  intros (m & [_ H] & Ha) Hf. apply Ha in Hf as [h Hm]. apply (ids_timer _ _ _ H) in Hm as [Hset _].
  apply (ids_set _ _ _ H) in Hset as [? _]. rewrite (ids_len _ _ _ H) in *. done.
Qed.

Lemma tracks_cancel w a slot generation id :
  tracks w a [] -> 0 <= slot -> 0 <= id < timers_per_slot w ->
  let f := flat_of w slot id in
  exists w', same_frame w w' /\ slot_generations w' = slot_generations w /\
    if gen_of w slot =? generation
    then cancel_timer g w slot generation id = Some (w', bool_decide (is_Some (a !! f))) /\ tracks w' (delete f a) []
    else cancel_timer g w slot generation id = Some (w', false) /\ w' = w.
Proof.
  intros HT Hslot Hid f. destruct (Z.eqb_spec (gen_of w slot) generation) as [Hgen|Hgen].
  2:{ exists w. split; [by split_and!|]. split; [done|]. by rewrite cancel_other_generation. }
  destruct (Z.ltb_spec slot (vlen (slot_generations w))) as [Hlt|Hge].
  - destruct HT as (m & HN & Ha).
    destruct (cancel_timer_spec w m slot generation id HN) as (w' & b & Hc & HN' & Hfr & Hgs & Hb); [lia|lia|done|].
    exists w'. split; [done|]. split; [done|]. rewrite Hc. split.
    + do 2 f_equal. symmetry. apply eq_true_iff_eq. rewrite bool_decide_eq_true, Hb. fold f.
      split; [intros [E [h Hh]%Ha]; eauto|intros (h & E & Hh); exists E; apply Ha; eauto].
    + eexists. split; [done|]. rewrite <- drop_one. by apply by_id_without.
  - assert (a !! f = None) as Hf.
    { destruct (a !! f) eqn:Hf; [|done]. apply (tracks_bounds _ _ _ _ _ HT) in Hf. unfold f, flat_of in Hf. nia. }
    exists w. split; [by split_and!|]. split; [done|]. rewrite cancel_unknown_slot by done.
    rewrite bool_decide_eq_false_2 by (rewrite Hf; by intros []). split; [done|]. by rewrite delete_id.
Qed.

(** Deadlines that are past, and those that are not. *)
Definition still_armed (tick : Z) (a : gmap Z Z) : gmap Z Z := filter (fun kv => tick < kv.2) a.

Lemma tracks_expire w a ticks x :
  tracks w a [] -> 0 <= ticks -> current_tick w + ticks < 2 ^ 64 ->
  exists w' ps k, expire g w ticks x = Some (w', x ++ ps, vlen ps) /\
    0 <= k <= ticks /\ current_tick w' = current_tick w + k /\ ids w' = ids w /\
    tracks w' (still_armed (current_tick w + k) a) ps /\ NoDup ps /\
    (forall f, f ∈ ps <-> exists E, a !! f = Some E /\ E <= current_tick w + k) /\
    (k < ticks -> expiration_budget w <= vlen ps).
Proof.
  intros (m & HN & Ha) Hn Ht.
  destruct (expire_named w m ticks x HN Hn Ht) as (w' & ps & k & H1 & H2 & H3 & H4 & H5 & H6 & H7 & H8).
  exists w', ps, k. split_and!; try done; try lia.
  - eexists. split; [done|]. intros f E. unfold still_armed, waiting_after.
    rewrite map_lookup_filter_Some, (Ha f E). setoid_rewrite map_lookup_filter_Some. naive_solver.
  - intros f. rewrite H7. split.
    + intros (h & E & Hm & HE). exists E. split; [|done]. apply Ha. eauto.
    + intros (E & [h Hm]%Ha & HE). eauto.
Qed.

Lemma tracks_take w a f X :
  tracks w a (f :: X) -> NoDup (f :: X) ->
  exists w', take_expired_timer w f =
      Some (w', Some (f / timers_per_slot w, gen_of w (f / timers_per_slot w), f mod timers_per_slot w)) /\
    tracks w' a X /\ same_frame w w' /\ slot_generations w' = slot_generations w.
Proof.
  intros (m & HN & Ha) Hnd. destruct (take_expired_spec w m f X HN Hnd) as (w' & H1 & H2 & H3 & H4 & _).
  exists w'. split; [done|]. split; [|done]. by exists m.
Qed.

Lemma with_timer_ids_tracks max per :
  heads g < 2 ^ 32 -> 0 < per ->
  exists w, with_timer_ids g max per = Some w /\ tracks w ∅ [] /\ current_tick w = 0 /\
    timers_per_slot w = per /\ vlen (entries w) = heads g /\ max_expirations w = max /\
    forall s, gen_of w s = 0.
Proof.
  intros Hh Hp. destruct (new_settled (T:=Z) g Hg max Hh) as (w & Hw & Hs & Ht & He & Hm & Hgens & Hts & Hb & _).
  unfold with_timer_ids. rewrite Hw. cbn [mbind option_bind]. rewrite (proj2 (Z.ltb_lt _ _)) by done.
  eexists. split; [done|]. split.
  - exists ∅. split; [|intros f E; rewrite lookup_empty; split; [done|intros [h Hx]; by rewrite lookup_empty in Hx]].
    split; [destruct Hs as (L & HI & HN); exists L; split; [split; apply HI|done]|].
    split; cbn; rewrite ?Hts, ?Hgens, ?Hb; try done; try by (intros f []%elem_of_nil).
    + by constructor.
    + intros f Hf. exfalso. unfold Bitmap.is_set in Hf. cbn in Hf. rewrite vget_None in Hf; [done|unfold vlen; cbn; lia].
  - split; [exact Ht|]. split; [done|]. split; [exact He|]. split; [exact Hm|].
    intros s. unfold gen_of. cbn. rewrite Hgens. rewrite vget_None; [done|unfold vlen; cbn; lia].
Qed.

End named.

(** ** Refinement of one deadline per id *)

(** The operations on one (slot, timer id) pair. *)
Inductive id_op :=
  | Arm (slot generation timer_id interval : Z)
  | Update (slot generation timer_id interval : Z)
  | Cancel (slot generation timer_id : Z).

Definition run_id_op (g : geometry) (w : t Z) (op : id_op) : option (t Z * (start_error + bool)) :=
  match op with
  | Arm s gen i d => '(w, r) ← arm_timer g w s gen i d; Some (w, sum_map id (const true) r)
  | Update s gen i d => '(w, r) ← update_timer g w s gen i d; Some (w, sum_map id (const true) r)
  | Cancel s gen i => '(w, b) ← cancel_timer g w s gen i; Some (w, inr b)
  end.

(** What the operation does to the deadlines. *)
Definition id_step (g : geometry) (w : t Z) (op : id_op) (a : gmap Z Z) :
    gmap Z Z * (start_error + bool) :=
  match op with
  | Arm s gen i d =>
      let a := prepare w s gen a in
      match interval_error g (current_tick w) d with
      | Some e => (delete (flat_of w s i) a, inl e)
      | None => (<[flat_of w s i := current_tick w + d]> a, inr true)
      end
  | Update s gen i d =>
      let a := prepare w s gen a in
      match interval_error g (current_tick w) d with
      | Some e => (a, inl e)
      | None => (<[flat_of w s i := current_tick w + d]> a, inr true)
      end
  | Cancel s gen i =>
      if gen_of w s =? gen
      then (delete (flat_of w s i) a, inr (bool_decide (is_Some (a !! flat_of w s i))))
      else (a, inr false)
  end.

Definition id_op_ok (g : geometry) (w : t Z) (op : id_op) : Prop :=
  match op with
  | Arm s _ i d | Update s _ i d => id_request g w s i d
  | Cancel s _ i => 0 <= s /\ 0 <= i < timers_per_slot w
  end.



(** Taking every id of a list of expired ones. *)
Fixpoint take_all (fs : list Z) (w : t Z) : option (t Z * list (option (Z * Z * Z))) :=
  match fs with
  | [] => Some (w, [])
  | f :: fs => '(w, r) ← take_expired_timer w f; '(w, rs) ← take_all fs w; Some (w, r :: rs)
  end.

Lemma take_all_spec g w a fs :
  tracks g w a fs -> NoDup fs ->
  exists w', take_all fs w = Some (w', (fun f => Some (f / timers_per_slot w,
      gen_of w (f / timers_per_slot w), f mod timers_per_slot w)) <$> fs) /\
    tracks g w' a [].
Proof.
  revert w. induction fs as [|f fs IH]; intros w HT Hnd; cbn [take_all]; [by exists w|].
  destruct (tracks_take g w a f fs HT Hnd) as (w1 & -> & HT1 & (_ & _ & Hp & _) & Hgens). cbn [mbind option_bind].
  apply NoDup_cons in Hnd as [_ Hnd]. destruct (IH w1 HT1 Hnd) as (w' & -> & HT'). cbn [mbind option_bind].
  exists w'. split; [|done]. rewrite fmap_cons, Hp. do 3 f_equal.
  apply list_fmap_ext. intros i x _. unfold gen_of. by rewrite Hgens.
Qed.



End TimerIds.
