(* ===== verification/TcpTimers.v ===== *)
(** * TCP timers

    Models [crates/hammer-plugins/transport/tcp/src/timers.rs] and the timer
    part of [worker.rs].  A connection owns two bit sets, the timers that are
    armed in the worker's wheel and those that have expired and wait for
    dispatch; the wheel names a timer by the connection's pool index and the
    timer kind.  [advance_timer_wheel] moves expired timers to the pending
    queue and [take_pending_timer] hands them out.

    The invariant [consistent] says that every armed bit is backed by a wheel
    entry and every pending bit by a queued token; the theorems give the effect
    of [set], [reset], [update], [advance_timer_wheel] and [take_pending_timer]
    on the armed deadlines and the two bit sets of every connection. *)

From S2P Require Import Prelude InfraBitmap InfraPool InfraFifoQueue InfraTimerWheel.
From S2P Require Import InfraTimerProofs InfraTimerOps InfraTimerIds.

Module TcpTimers.

Definition TCP_TIMER_MAX_TICKS_PER_UPDATE : Z := 1024.
Definition TCP_TIMER_EXPIRY_BUDGET : Z := 256.
Definition TCP_TIMER_WHEEL_MAX_INTERVAL_TICKS : Z := 2048 * 2048 - 1.
(** [Duration::from_micros(100)], in nanoseconds. *)
Definition TCP_TIMER_RESOLUTION : Z := 100 * 1000.

(** ** Kinds and bit sets *)

Inductive TcpTimerKind :=
  | Retransmit | Rack | Tlp | DelayedAck | Persist | KeepAlive | WaitClose | Pacing.

#[export] Instance TcpTimerKind_eq_dec : EqDecision TcpTimerKind.
Proof. solve_decision. Defined.

Definition id (k : TcpTimerKind) : Z :=
  match k with
  | Retransmit => 0 | Rack => 1 | Tlp => 2 | DelayedAck => 3
  | Persist => 4 | KeepAlive => 5 | WaitClose => 6 | Pacing => 7
  end.

Definition from_id (i : Z) : option TcpTimerKind :=
  match i with
  | 0 => Some Retransmit | 1 => Some Rack | 2 => Some Tlp | 3 => Some DelayedAck
  | 4 => Some Persist | 5 => Some KeepAlive | 6 => Some WaitClose | 7 => Some Pacing
  | _ => None
  end.

Definition flag (k : TcpTimerKind) : Z := Z.shiftl 1 (id k).

Definition TCP_TIMER_KIND_COUNT : Z := id Pacing + 1.

(** The operations of the [bitflags] set [TcpTimerSet] (a [u16]). *)
Definition contains (bits f : Z) : bool := Z.land bits f =? f.
Definition insert_flag (bits f : Z) : Z := Z.lor bits f.
Definition remove_flag (bits f : Z) : Z := Z.land bits (wnot 16 f).

Record TcpTimerState := mk_state { armed : Z; pending : Z }.

Definition default_state : TcpTimerState := mk_state 0 0.

Definition is_active (s : TcpTimerState) k : bool :=
  contains (armed s) (flag k) || contains (pending s) (flag k).
Definition is_armed (s : TcpTimerState) k : bool := contains (armed s) (flag k).
Definition is_pending (s : TcpTimerState) k : bool := contains (pending s) (flag k).
Definition arm (s : TcpTimerState) k : TcpTimerState := mk_state (insert_flag (armed s) (flag k)) (pending s).
Definition reset_state (s : TcpTimerState) k : TcpTimerState :=
  mk_state (remove_flag (armed s) (flag k)) (remove_flag (pending s) (flag k)).

(** ** Operations on one connection's timer *)

Abbreviation wheel := (TimerWheel.t Z).
Abbreviation geom := TimerWheel.TimerWheel1t2w2048sl.

(** [TcpNodeError::TimerUpdateFailed] *)
Inductive timer_error := TimerUpdateFailed.

(** A [Duration] is its number of nanoseconds. *)
Definition duration_ticks (duration : Z) : Z :=
  Z.min (Z.max ((duration + TCP_TIMER_RESOLUTION - 1) / TCP_TIMER_RESOLUTION) 1) (2 ^ 64 - 1).

Definition set (w : wheel) (index : Z) (s : TcpTimerState) k (interval : Z) :
    option (wheel * TcpTimerState * (timer_error + unit)) :=
  if is_armed s k then Some (w, s, inr tt) else
  '(w, r) ← TimerWheel.arm_timer geom w index 0 (id k) (duration_ticks interval);
  match r with
  | inl _ => Some (w, s, inl TimerUpdateFailed)
  | inr _ => Some (w, arm s k, inr tt)
  end.

Definition validate_interval (w : wheel) (interval : Z) : timer_error + unit :=
  let ticks := duration_ticks interval in
  if (TCP_TIMER_WHEEL_MAX_INTERVAL_TICKS <? ticks) ||
     bool_decide (checked_add 64 (TimerWheel.current_tick w) ticks = None)
  then inl TimerUpdateFailed else inr tt.

Definition reset (w : wheel) (index : Z) (s : TcpTimerState) k : option (wheel * TcpTimerState) :=
  '(w, _) ← TimerWheel.cancel_timer geom w index 0 (id k);
  Some (w, reset_state s k).

Definition update (w : wheel) (index : Z) (s : TcpTimerState) k (interval : Z) :
    option (wheel * TcpTimerState * (timer_error + unit)) :=
  '(w, r) ← TimerWheel.update_timer geom w index 0 (id k) (duration_ticks interval);
  match r with
  | inl _ => Some (w, s, inl TimerUpdateFailed)
  | inr _ => Some (w, arm s k, inr tt)
  end.

(** ** The worker *)

(** The timer part of a connection; [rest] is everything else. *)
Record connection (C : Type) := mk_connection { timers : TcpTimerState; rest : C }.
Arguments mk_connection {C} _ _.
Arguments timers {C} _.
Arguments rest {C} _.

Definition with_timers {C} (f : TcpTimerState -> TcpTimerState) (c : connection C) : connection C :=
  mk_connection (f (timers c)) (rest c).

Record TcpTimerToken := token { index : Z; kind : TcpTimerKind }.

#[export] Instance TcpTimerToken_eq_dec : EqDecision TcpTimerToken.
Proof. solve_decision. Defined.

(** The fields of [TcpWorker] the timers use; an [Instant] is a number of
    nanoseconds since the worker's origin. *)
Record worker (C : Type) := mk_worker {
  connections : Pool.t (connection C);
  timer_wheel : wheel;
  expired_timers : list Z;
  pending_timers : FifoQueue.t TcpTimerToken;
  last_timer_update : Z;
}.
Arguments mk_worker {C} _ _ _ _ _.
Arguments connections {C} _.
Arguments timer_wheel {C} _.
Arguments expired_timers {C} _.
Arguments pending_timers {C} _.
Arguments last_timer_update {C} _.

Section worker.
Context {C : Type}.
Implicit Types W : worker C.

(** [TcpWorker::new], the fields above. *)
Definition new_worker (pool : Pool.t (connection C)) (time_origin : Z) : option (worker C) :=
  w ← TimerWheel.with_timer_ids geom TCP_TIMER_EXPIRY_BUDGET TCP_TIMER_KIND_COUNT;
  Some (mk_worker pool w [] FifoQueue.new time_origin).

(** One turn of the loop over [expired_timers]. *)
Definition dispatch_expired W (payload : Z) : option (worker C) :=
  '(w, r) ← TimerWheel.take_expired_timer (timer_wheel W) payload;
  let W := mk_worker (connections W) w (expired_timers W) (pending_timers W) (last_timer_update W) in
  match r with
  | None => Some W
  | Some (index, _, kind_id) =>
      match from_id kind_id with
      | None => Some W
      | Some k =>
          c ← Pool.get (connections W) index;
          match c with
          | None => Some W
          | Some c =>
              if negb (is_armed (timers c) k) then Some W else
              let expire s := mk_state (remove_flag (armed s) (flag k)) (insert_flag (pending s) (flag k)) in
              '(pool, _) ← Pool.get_mut (connections W) index (with_timers expire);
              Some (mk_worker pool w (expired_timers W)
                (FifoQueue.push_back (pending_timers W) (token index k)) (last_timer_update W))
          end
      end
  end.

Fixpoint dispatch_all W (payloads : list Z) : option (worker C) :=
  match payloads with
  | [] => Some W
  | p :: ps => W ← dispatch_expired W p; dispatch_all W ps
  end.

Definition advance_timer_wheel W (now : Z) : option (worker C) :=
  let elapsed_ticks := saturating_sub now (last_timer_update W) / TCP_TIMER_RESOLUTION in
  if elapsed_ticks =? 0 then Some W else
  if TimerWheel.is_empty (timer_wheel W) then
    let elapsed_nanos := elapsed_ticks * TCP_TIMER_RESOLUTION in
    let seconds := wrap 64 (elapsed_nanos / 1000000000) in
    let nanos := wrap 32 (elapsed_nanos mod 1000000000) in
    Some (mk_worker (connections W) (timer_wheel W) (expired_timers W) (pending_timers W)
      (last_timer_update W + (seconds * 1000000000 + nanos)))
  else
    let requested_ticks := Z.min elapsed_ticks TCP_TIMER_MAX_TICKS_PER_UPDATE in
    let tick_before := TimerWheel.current_tick (timer_wheel W) in
    '(w, expired, _) ← TimerWheel.expire geom (timer_wheel W) requested_ticks [];
    let consumed := TimerWheel.current_tick w - tick_before in
    if (consumed <? 0) || (2 ^ 32 <=? consumed) then None else
    dispatch_all (mk_worker (connections W) w expired (pending_timers W)
      (last_timer_update W + TCP_TIMER_RESOLUTION * consumed)) expired.

(** [take_pending_timer]; [budget] is the caller's counter. *)
Fixpoint take_pending_timer (budget : nat) W : option (worker C * nat * option TcpTimerToken) :=
  match budget with
  | O => Some (W, O, None)
  | S budget =>
      let '(q, tok) := FifoQueue.pop_front (pending_timers W) in
      let W := mk_worker (connections W) (timer_wheel W) (expired_timers W) q (last_timer_update W) in
      match tok with
      | None => Some (W, S budget, None)
      | Some tok =>
          c ← Pool.get (connections W) (index tok);
          match c with
          | None => take_pending_timer budget W
          | Some c =>
              if negb (is_pending (timers c) (kind tok)) then take_pending_timer budget W else
              let taken s := mk_state (armed s) (remove_flag (pending s) (flag (kind tok))) in
              '(pool, _) ← Pool.get_mut (connections W) (index tok) (with_timers taken);
              let W := mk_worker pool (timer_wheel W) (expired_timers W) q (last_timer_update W) in
              if is_armed (taken (timers c)) (kind tok) then take_pending_timer budget W
              else Some (W, budget, Some tok)
          end
      end
  end.

(** The loop of [release_connection] over all timer kinds, then the removal
    from the pool. *)
Fixpoint reset_kinds (ids : list Z) (w : wheel) (index : Z) (s : TcpTimerState) :
    option (wheel * TcpTimerState) :=
  match ids with
  | [] => Some (w, s)
  | i :: ids =>
      k ← from_id i;
      '(w, s) ← reset w index s k;
      reset_kinds ids w index s
  end.

Definition release_connection W (connection_index : Z) : option (worker C) :=
  c ← Pool.get (connections W) connection_index;
  match c with
  | None => Some W
  | Some c =>
      '(w, s) ← reset_kinds (zseq 0 (Z.to_nat TCP_TIMER_KIND_COUNT)) (timer_wheel W)
                  connection_index (timers c);
      '(pool, _) ← Pool.get_mut (connections W) connection_index (with_timers (fun _ => s));
      '(pool, removed) ← Pool.remove pool connection_index;
      _ ← removed;
      Some (mk_worker pool w (expired_timers W) (pending_timers W) (last_timer_update W))
  end.

End worker.

(** ** The bit sets *)

Lemma id_inj k k' : id k = id k' -> k = k'.
Proof. by destruct k, k'. Qed.

Lemma id_bounds k : 0 <= id k < 8.
Proof. by destruct k. Qed.

Lemma from_id_id k : from_id (id k) = Some k.
Proof. by destruct k. Qed.

Lemma from_id_spec i k : from_id i = Some k -> i = id k.
Proof.
  intros H. destruct i as [|p|p]; [by simplify_eq/=| |done].
  do 3 (try destruct p as [p|p|]); cbn in H; simplify_eq/=; done.
Qed.

Lemma contains_testbit b k : contains b (flag k) = Z.testbit b (id k).
Proof.
  unfold contains, flag. pose proof (id_bounds k). rewrite Z.shiftl_1_l.
  apply eq_true_iff_eq. rewrite Z.eqb_eq. split.
  - intros Heq. apply (f_equal (fun z => Z.testbit z (id k))) in Heq.
    rewrite Z.land_spec, Z.pow2_bits_true, andb_true_r in Heq by lia. done.
  - intros Ht. apply Z.bits_inj'. intros n Hn. rewrite Z.land_spec.
    destruct (Z.eq_dec n (id k)) as [->|Hne]; [by rewrite Ht|].
    by rewrite Z.pow2_bits_false, andb_false_r by lia.
Qed.

Lemma contains_insert b k k' : contains (insert_flag b (flag k)) (flag k') = bool_decide (k = k') || contains b (flag k').
Proof.
  rewrite !contains_testbit. unfold insert_flag, flag. pose proof (id_bounds k).
  rewrite Z.lor_spec, Z.shiftl_1_l, orb_comm. f_equal. destruct (decide (k = k')) as [<-|Hne].
  - rewrite bool_decide_eq_true_2 by done. apply Z.pow2_bits_true. lia.
  - rewrite bool_decide_eq_false_2 by done. apply Z.pow2_bits_false. intros ?%id_inj. congruence.
Qed.

Lemma contains_remove b k k' :
  contains (remove_flag b (flag k)) (flag k') = negb (bool_decide (k = k')) && contains b (flag k').
Proof.
  rewrite !contains_testbit. unfold remove_flag, flag. pose proof (id_bounds k). pose proof (id_bounds k').
  rewrite Z.land_spec, wnot_testbit, Z.shiftl_1_l, andb_comm by lia. f_equal.
  rewrite (proj2 (Z.ltb_lt _ _)) by lia. cbn [andb]. f_equal. destruct (decide (k = k')) as [<-|Hne].
  - rewrite bool_decide_eq_true_2 by done. apply Z.pow2_bits_true. lia.
  - rewrite bool_decide_eq_false_2 by done. apply Z.pow2_bits_false. intros ?%id_inj. congruence.
Qed.

Create Rewrite HintDb timer_bits.
#[export] Hint Rewrite contains_insert contains_remove : timer_bits.

(** ** The wheel of a worker *)

Import TimerProofs TimerOps TimerIds.

(** The flat id of a connection's timer. *)
Definition flat (index : Z) (k : TcpTimerKind) : Z := index * TCP_TIMER_KIND_COUNT + id k.

Lemma flat_inj i k i' k' : flat i k = flat i' k' -> i = i' /\ k = k'.
Proof.
  unfold flat, TCP_TIMER_KIND_COUNT. cbn. pose proof (id_bounds k). pose proof (id_bounds k').
  intros Heq. assert (i = i') as -> by lia. split; [done|]. apply id_inj. lia.
Qed.

Definition wheel_ok (w : wheel) (a : gmap Z Z) (X : list Z) : Prop :=
  tracks geom w a X /\ TimerWheel.timers_per_slot w = TCP_TIMER_KIND_COUNT /\ forall s, gen_of w s = 0.

(** The pool index fits a flat id and the wheel has room for one entry. *)
Definition room (w : wheel) (index : Z) : Prop :=
  0 <= index /\ (index + 1) * TCP_TIMER_KIND_COUNT <= 2 ^ 32 /\ vlen (TimerWheel.entries w) + 1 < 2 ^ 32.

(** An interval the wheel serves exactly; see [wheel_wraparound_fires_early]. *)
Definition exact_interval (w : wheel) (interval : Z) : Prop :=
  reaches_around geom (TimerWheel.current_tick w) (duration_ticks interval) = false.

Lemma duration_ticks_pos d : 1 <= duration_ticks d < 2 ^ 64.
Proof. unfold duration_ticks. lia. Qed.

Lemma wheel_request w a X index k d :
  wheel_ok w a X -> room w index -> exact_interval w d ->
  id_request geom w index (id k) (duration_ticks d) /\
  flat_of w index (id k) = flat index k /\ prepare w index 0 a = a.
Proof.
  intros (_ & Hp & Hg) (H1 & H2 & H3) He. unfold id_request, flat_of, prepare. rewrite Hp, Hg.
  pose proof (duration_ticks_pos d). pose proof (id_bounds k).
  change TCP_TIMER_KIND_COUNT with 8 in *. split_and!; try done; try lia.
Qed.

Lemma frame_ok w w' a X index :
  wheel_ok w a X -> id_frame index 0 w w' ->
  TimerWheel.timers_per_slot w' = TCP_TIMER_KIND_COUNT /\ forall s, gen_of w' s = 0.
Proof.
  intros (_ & Hp & Hg) (_ & _ & Hp' & Hg'). split; [congruence|]. intros s. rewrite Hg', Hg. by destruct (s =? index).
Qed.

Definition accepts (w : wheel) (d : Z) : bool :=
  bool_decide (interval_error geom (TimerWheel.current_tick w) (duration_ticks d) = None).

Lemma set_spec w a index s k d :
  wheel_ok w a [] -> room w index -> exact_interval w d ->
  exists w', TimerWheel.current_tick w' = TimerWheel.current_tick w /\
  if is_armed s k then set w index s k d = Some (w', s, inr tt) /\ wheel_ok w' a []
  else if accepts w d then set w index s k d = Some (w', arm s k, inr tt) /\
    wheel_ok w' (<[flat index k := TimerWheel.current_tick w + duration_ticks d]> a) []
  else set w index s k d = Some (w', s, inl TimerUpdateFailed) /\ wheel_ok w' (delete (flat index k) a) [].
Proof.
  intros Hw Hr He. unfold set. destruct (is_armed s k); [by exists w|].
  destruct (wheel_request w a [] index k d Hw Hr He) as (Hreq & Hf & Hpr).
  destruct (tracks_arm geom geometry_1t2w2048sl w a index 0 _ _ (proj1 Hw) Hreq) as (w' & Hfr & H).
  exists w'. split; [apply Hfr|]. rewrite Hf, Hpr in H. pose proof (frame_ok _ _ _ _ _ Hw Hfr).
  unfold accepts. destruct (interval_error _ _ _) as [e|].
  - rewrite bool_decide_eq_false_2 by done. destruct H as [-> ?]. by cbn [mbind option_bind].
  - rewrite bool_decide_eq_true_2 by done. destruct H as [-> ?]. by cbn [mbind option_bind].
Qed.

Lemma update_spec w a index s k d :
  wheel_ok w a [] -> room w index -> exact_interval w d ->
  exists w', TimerWheel.current_tick w' = TimerWheel.current_tick w /\
  if accepts w d then update w index s k d = Some (w', arm s k, inr tt) /\
    wheel_ok w' (<[flat index k := TimerWheel.current_tick w + duration_ticks d]> a) []
  else update w index s k d = Some (w', s, inl TimerUpdateFailed) /\ wheel_ok w' a [].
Proof.
  intros Hw Hr He. unfold update.
  destruct (wheel_request w a [] index k d Hw Hr He) as (Hreq & Hf & Hpr).
  destruct (tracks_update geom geometry_1t2w2048sl w a index 0 _ _ (proj1 Hw) Hreq) as (w' & Hfr & H).
  exists w'. split; [apply Hfr|]. rewrite Hf, Hpr in H. pose proof (frame_ok _ _ _ _ _ Hw Hfr).
  unfold accepts. destruct (interval_error _ _ _) as [e|].
  - rewrite bool_decide_eq_false_2 by done. destruct H as [-> ?]. by cbn [mbind option_bind].
  - rewrite bool_decide_eq_true_2 by done. destruct H as [-> ?]. by cbn [mbind option_bind].
Qed.

Lemma reset_spec w a index s k :
  wheel_ok w a [] -> 0 <= index ->
  exists w', reset w index s k = Some (w', reset_state s k) /\
    TimerWheel.current_tick w' = TimerWheel.current_tick w /\ wheel_ok w' (delete (flat index k) a) [].
Proof.
  intros (Ht & Hp & Hg) Hi. unfold reset. pose proof (id_bounds k).
  destruct (tracks_cancel geom geometry_1t2w2048sl w a index 0 (id k) Ht Hi) as (w' & (F1 & F2 & F3 & F4) & Hgs & H').
  { rewrite Hp. done. }
  rewrite Hg in H'. cbn [Z.eqb] in H'. destruct H' as [-> HT]. cbn [mbind option_bind].
  exists w'. split; [done|]. split; [done|]. unfold flat_of in HT. rewrite Hp in HT.
  split; [done|]. split; [congruence|]. intros s'. rewrite <- (Hg s'). unfold gen_of. by rewrite Hgs.
Qed.

(** ** Advancing the wheel *)

Section dispatch.
Context {C : Type}.
Implicit Types (W : worker C) (cm : gmap Z (connection C)) (a : gmap Z Z).

(** What an expired flat id stands for: a token if its connection lives and
    still has the timer armed. *)
Definition expired_token cm (f : Z) : option TcpTimerToken :=
  k ← from_id (f mod TCP_TIMER_KIND_COUNT);
  c ← cm !! (f / TCP_TIMER_KIND_COUNT);
  if is_armed (timers c) k then Some (token (f / TCP_TIMER_KIND_COUNT) k) else None.

Definition fire k (s : TcpTimerState) : TcpTimerState :=
  mk_state (remove_flag (armed s) (flag k)) (insert_flag (pending s) (flag k)).

Definition fire_token cm (tok : option TcpTimerToken) : gmap Z (connection C) :=
  match tok with
  | Some tok => alter (with_timers (fire (kind tok))) (index tok) cm
  | None => cm
  end.

Lemma flat_div i k : flat i k / TCP_TIMER_KIND_COUNT = i /\ flat i k mod TCP_TIMER_KIND_COUNT = id k.
Proof. unfold flat. change TCP_TIMER_KIND_COUNT with 8. pose proof (id_bounds k). zdm. Qed.

Lemma flat_decompose f : exists k, flat (f / TCP_TIMER_KIND_COUNT) k = f.
Proof.
  unfold flat. change TCP_TIMER_KIND_COUNT with 8. pose proof (Z.mod_pos_bound f 8 eq_refl).
  pose proof (Z.div_mod f 8 ltac:(done)).
  assert (exists k, id k = f mod 8) as [k Hk].
  { assert (f mod 8 = 0 \/ f mod 8 = 1 \/ f mod 8 = 2 \/ f mod 8 = 3 \/ f mod 8 = 4 \/ f mod 8 = 5 \/
      f mod 8 = 6 \/ f mod 8 = 7) as [->|[->|[->|[->|[->|[->|[->| ->]]]]]]] by lia;
      [exists Retransmit|exists Rack|exists Tlp|exists DelayedAck|exists Persist|exists KeepAlive|
       exists WaitClose|exists Pacing]; done. }
  exists k. lia.
Qed.

Lemma expired_token_flat cm i k :
  expired_token cm (flat i k) =
  match cm !! i with Some c => if is_armed (timers c) k then Some (token i k) else None | None => None end.
Proof.
  unfold expired_token. destruct (flat_div i k) as [-> ->]. rewrite from_id_id. cbn [mbind option_bind].
  by destruct (cm !! i).
Qed.

Lemma tracks_head_nonneg w a f X : wheel_ok w a (f :: X) -> 0 <= f.
Proof.
  intros ((m & [_ H] & _) & _). destruct (ids_taken _ _ _ H f) as [Hs _]; [left|].
  apply (ids_set _ _ _ H) in Hs. lia.
Qed.

Lemma dispatch_expired_spec W cm a f X :
  wheel_ok (timer_wheel W) a (f :: X) -> NoDup (f :: X) -> Pool.represents (connections W) cm ->
  exists W', dispatch_expired W f = Some W' /\ wheel_ok (timer_wheel W') a X /\
    Pool.represents (connections W') (fire_token cm (expired_token cm f)) /\
    FifoQueue.to_list (pending_timers W') =
      FifoQueue.to_list (pending_timers W) ++ option_list (expired_token cm f) /\
    last_timer_update W' = last_timer_update W /\
    TimerWheel.current_tick (timer_wheel W') = TimerWheel.current_tick (timer_wheel W).
Proof.
  intros Hw Hnd Hrep. pose proof (tracks_head_nonneg _ _ _ _ Hw) as Hf. destruct Hw as (HT & Hp & Hg).
  unfold dispatch_expired. destruct (tracks_take geom _ a f X HT Hnd) as (w' & -> & HT' & (F1 & _ & F3 & _) & Hgs).
  cbn [mbind option_bind]. rewrite Hp in *.
  assert (wheel_ok w' a X) as Hw'.
  { split; [done|]. split; [congruence|]. intros s. rewrite <- (Hg s). unfold gen_of. by rewrite Hgs. }
  destruct (flat_decompose f) as [k Hk]. pose proof (expired_token_flat cm (f / TCP_TIMER_KIND_COUNT) k) as Htok.
  rewrite Hk in Htok. rewrite Htok. pose proof (proj2 (flat_div (f / TCP_TIMER_KIND_COUNT) k)) as Hmod.
  rewrite Hk in Hmod. rewrite Hmod.
  set (i := f / TCP_TIMER_KIND_COUNT) in *. assert (0 <= i) as Hi by (apply Z.div_pos; done).
  rewrite from_id_id. cbn [connections timer_wheel expired_timers pending_timers last_timer_update].
  rewrite Pool.pool_get_slot by (done || apply Hrep). rewrite <- (proj2 Hrep i). cbn [mbind option_bind].
  destruct (cm !! i) as [c|] eqn:Hc; [|eexists; split; [done|]; cbn; by rewrite app_nil_r].
  destruct (is_armed (timers c) k) eqn:Ha; cbn [negb]; [|eexists; split; [done|]; cbn; by rewrite app_nil_r].
  destruct (Pool.pool_get_mut_repr (connections W) cm i (with_timers (fire k)) Hrep Hi) as (pool & Hget & Hrep').
  unfold fire in Hget. rewrite Hget. cbn [mbind option_bind]. eexists. split; [done|]. cbn.
  split; [done|]. split; [done|]. split; [|done]. unfold FifoQueue.to_list. cbn. by rewrite app_assoc.
Qed.

(** The state of the connections after a list of distinct ids has fired. *)
Definition fired (ps : list Z) cm cm' : Prop :=
  forall i, match cm !! i, cm' !! i with
  | None, None => True
  | Some c, Some c' => rest c' = rest c /\ forall k,
      is_armed (timers c') k = is_armed (timers c) k && negb (bool_decide (flat i k ∈ ps)) /\
      is_pending (timers c') k =
        is_pending (timers c) k || (is_armed (timers c) k && bool_decide (flat i k ∈ ps))
  | _, _ => False
  end.

Lemma fire_armed k k' s : is_armed (fire k s) k' = is_armed s k' && negb (bool_decide (k = k')).
Proof. unfold is_armed, fire. cbn. rewrite contains_remove. apply andb_comm. Qed.

Lemma fire_pending k k' s : is_pending (fire k s) k' = is_pending s k' || bool_decide (k = k').
Proof. unfold is_pending, fire. cbn. rewrite contains_insert. apply orb_comm. Qed.

Lemma fired_one cm f : fired [f] cm (fire_token cm (expired_token cm f)).
Proof.
  intros i. destruct (flat_decompose f) as [k Hk]. set (j := f / TCP_TIMER_KIND_COUNT) in *.
  rewrite <- Hk, expired_token_flat.
  assert (forall k', bool_decide (flat i k' ∈ [flat j k]) = bool_decide (j = i) && bool_decide (k = k')) as Hb.
  { intros k'. apply eq_true_iff_eq. rewrite andb_true_iff, !bool_decide_eq_true, list_elem_of_singleton.
    split; [intros []%flat_inj|intros [-> ->]]; done. }
  destruct (decide (j = i)) as [->|Hne].
  - rewrite bool_decide_eq_true_2 in Hb by done. cbn [andb] in Hb.
    destruct (cm !! i) as [c|] eqn:Hc; cbn [fire_token]; [|by rewrite Hc].
    destruct (is_armed (timers c) k) eqn:Ha; cbn [fire_token kind index].
    + rewrite lookup_alter_eq, Hc. cbn. split; [done|]. intros k'. rewrite fire_armed, fire_pending, Hb.
      split; [done|]. destruct (decide (k = k')) as [<-|].
      * by rewrite Ha.
      * rewrite bool_decide_eq_false_2 by done. by rewrite andb_false_r.
    + rewrite Hc. split; [done|]. intros k'. rewrite Hb. destruct (decide (k = k')) as [<-|].
      * by rewrite Ha, orb_false_r.
      * rewrite bool_decide_eq_false_2 by done. by rewrite andb_true_r, andb_false_r, orb_false_r.
  - rewrite bool_decide_eq_false_2 in Hb by done. cbn [andb] in Hb.
    assert (fire_token cm match cm !! j with
      | Some c => if is_armed (timers c) k then Some (token j k) else None | None => None end !! i = cm !! i) as ->.
    { destruct (cm !! j) as [c|]; [|done]. destruct (is_armed (timers c) k); [|done]. cbn. by rewrite lookup_alter_ne. }
    destruct (cm !! i) as [c|]; [|done]. split; [done|]. intros k'.
    by rewrite Hb, andb_true_r, andb_false_r, orb_false_r.
Qed.

Lemma fired_cons f ps cm cm1 cm2 :
  f ∉ ps -> fired [f] cm cm1 -> fired ps cm1 cm2 -> fired (f :: ps) cm cm2.
Proof.
  intros Hnin H1 H2 i. specialize (H1 i). specialize (H2 i).
  destruct (cm !! i) as [c|], (cm1 !! i) as [c1|], (cm2 !! i) as [c2|]; try done.
  destruct H1 as [Hr1 H1], H2 as [Hr2 H2]. split; [congruence|]. intros k.
  destruct (H1 k) as [A1 P1], (H2 k) as [A2 P2]. rewrite A2, P2, A1, P1.
  assert (bool_decide (flat i k ∈ f :: ps) = bool_decide (flat i k ∈ [f]) || bool_decide (flat i k ∈ ps)) as ->.
  { apply eq_true_iff_eq. rewrite orb_true_iff, !bool_decide_eq_true, list_elem_of_singleton. apply elem_of_cons. }
  by destruct (is_armed (timers c) k), (is_pending (timers c) k), (bool_decide (flat i k ∈ [f])),
    (bool_decide (flat i k ∈ ps)).
Qed.

Lemma fired_token f ps cm cm' : f ∉ ps -> fired ps cm cm' -> expired_token cm' f = expired_token cm f.
Proof.
  intros Hnin H. destruct (flat_decompose f) as [k Hk]. set (j := f / TCP_TIMER_KIND_COUNT) in *.
  rewrite <- Hk, !expired_token_flat. specialize (H j).
  destruct (cm !! j), (cm' !! j); try done. destruct H as [_ H]. destruct (H k) as [-> _].
  rewrite Hk, bool_decide_eq_false_2 by done. by rewrite andb_true_r.
Qed.

Lemma dispatch_all_spec ps W cm a :
  wheel_ok (timer_wheel W) a ps -> NoDup ps -> Pool.represents (connections W) cm ->
  exists W' cm', dispatch_all W ps = Some W' /\ wheel_ok (timer_wheel W') a [] /\
    Pool.represents (connections W') cm' /\ fired ps cm cm' /\
    FifoQueue.to_list (pending_timers W') =
      FifoQueue.to_list (pending_timers W) ++ omap (expired_token cm) ps /\
    last_timer_update W' = last_timer_update W /\
    TimerWheel.current_tick (timer_wheel W') = TimerWheel.current_tick (timer_wheel W).
Proof.
  revert W cm. induction ps as [|f ps IH]; intros W cm Hw Hnd Hrep; cbn [dispatch_all].
  { exists W, cm. split_and!; try done; [|by rewrite app_nil_r]. intros i. destruct (cm !! i); [|done].
    split; [done|]. intros k. rewrite bool_decide_eq_false_2 by (by intros ?%elem_of_nil).
    by rewrite andb_true_r, andb_false_r, orb_false_r. }
  destruct (dispatch_expired_spec W cm a f ps Hw Hnd Hrep) as (W1 & -> & Hw1 & Hrep1 & Hq1 & Hl1 & Ht1).
  cbn [mbind option_bind]. apply NoDup_cons in Hnd as [Hnin Hnd]. pose proof (fired_one cm f) as H1.
  destruct (IH W1 _ Hw1 Hnd Hrep1) as (W' & cm' & -> & Hw' & Hrep' & Hf' & Hq' & Hl' & Ht').
  exists W', cm'. split_and!; try done; try congruence; [by eapply fired_cons|].
  rewrite Hq', Hq1, <- app_assoc. f_equal.
  assert (omap (expired_token (fire_token cm (expired_token cm f))) ps = omap (expired_token cm) ps) as ->.
  { apply list_omap_ext. apply Forall_Forall2_diag. apply Forall_forall. intros f' Hf''.
    apply (fired_token f' [f]); [|done]. rewrite list_elem_of_singleton. intros ->. done. }
  cbn [omap list_omap]. by destruct (expired_token cm f).
Qed.

End dispatch.

(** ** The worker's invariant *)

Section invariant.
Context {C : Type}.
Implicit Types (W : worker C) (cm : gmap Z (connection C)) (a : gmap Z Z) (q : list TcpTimerToken).

(** Every armed bit is backed by a deadline in the wheel, every pending bit by
    a queued token. *)
Record backed a q cm : Prop := {
  backed_armed : forall i c k, cm !! i = Some c -> is_armed (timers c) k = true -> is_Some (a !! flat i k);
  backed_pending : forall i c k, cm !! i = Some c -> is_pending (timers c) k = true -> token i k ∈ q;
}.

Record consistent W cm a : Prop := {
  consistent_wheel : wheel_ok (timer_wheel W) a [];
  consistent_pool : Pool.represents (connections W) cm;
  consistent_backed : backed a (FifoQueue.to_list (pending_timers W)) cm;
}.

Lemma tracked_future w a X f E : wheel_ok w a X -> a !! f = Some E -> TimerWheel.current_tick w < E.
Proof.
  intros ((m & [Hs _] & Ha) & _) [h Hm]%Ha. rewrite <- (waiting_settled geom geometry_1t2w2048sl w m Hs) in Hm.
  apply map_lookup_filter_Some in Hm as [_ Hlt]. done.
Qed.

Lemma empty_wheel w a X : wheel_ok w a X -> TimerWheel.is_empty w = true -> a = ∅.
Proof.
  intros ((m & [Hs _] & Ha) & _) He. destruct Hs as (L & HI & _). unfold TimerWheel.is_empty in He.
  rewrite (inv_len _ _ _ _ _ HI) in He. apply Z.eqb_eq in He.
  assert (m = ∅) as -> by (apply map_size_empty_iff; lia). apply map_empty. intros f.
  destruct (a !! f) eqn:Hf; [|done]. apply Ha in Hf as [h Hh]. by rewrite lookup_empty in Hh.
Qed.

Lemma still_armed_all w a X : wheel_ok w a X -> still_armed (TimerWheel.current_tick w) a = a.
Proof. intros Hw. apply map_filter_id. intros f E Hf. cbn. by eapply tracked_future. Qed.

Lemma fired_nil cm : fired [] cm cm.
Proof.
  intros i. destruct (cm !! i); [|done]. split; [done|]. intros k.
  rewrite bool_decide_eq_false_2 by (by intros ?%elem_of_nil). by rewrite andb_true_r, andb_false_r, orb_false_r.
Qed.

Lemma backed_fired a q cm cm' ps tick :
  backed a q cm -> fired ps cm cm' ->
  (forall f, f ∈ ps <-> exists E, a !! f = Some E /\ E <= tick) ->
  backed (still_armed tick a) (q ++ omap (expired_token cm) ps) cm'.
Proof.
  intros [HA HP] Hf Hps. split.
  - intros i c' k Hc' Ha'. specialize (Hf i). rewrite Hc' in Hf. destruct (cm !! i) as [c|] eqn:Hc; [|done].
    destruct Hf as [_ Hf]. destruct (Hf k) as [A _]. rewrite A in Ha'. bool_prop.
    destruct (HA i c k Hc) as [E HE]; [done|]. exists E. apply map_lookup_filter_Some. split; [done|]. cbn.
    destruct (Z.lt_ge_cases tick E) as [?|Hle]; [done|]. exfalso.
    match goal with H : bool_decide _ = false |- _ => apply bool_decide_eq_false in H; apply H end.
    apply Hps. eauto.
  - intros i c' k Hc' Hp'. specialize (Hf i). rewrite Hc' in Hf. destruct (cm !! i) as [c|] eqn:Hc; [|done].
    destruct Hf as [_ Hf]. destruct (Hf k) as [_ P]. rewrite P in Hp'. apply elem_of_app.
    apply orb_prop in Hp' as [Hp'|[Ha' Hin]%andb_prop]; [left; by eapply HP|right].
    apply bool_decide_eq_true in Hin. apply list_elem_of_omap. exists (flat i k). split; [done|].
    by rewrite expired_token_flat, Hc, Ha'.
Qed.

(** What [advance_timer_wheel] did, at wheel tick [tick]. *)
Record advanced W cm a W' cm' (ps : list Z) (tick : Z) : Prop := {
  advanced_nodup : NoDup ps;
  advanced_due : forall f, f ∈ ps <-> exists E, a !! f = Some E /\ E <= tick;
  advanced_fired : fired ps cm cm';
  advanced_queue : FifoQueue.to_list (pending_timers W') =
    FifoQueue.to_list (pending_timers W) ++ omap (expired_token cm) ps;
  advanced_consistent : consistent W' cm' (still_armed tick a);
  advanced_tick : tick = TimerWheel.current_tick (timer_wheel W');
}.

Lemma advanced_none W cm a t :
  consistent W cm a ->
  advanced W cm a (mk_worker (connections W) (timer_wheel W) (expired_timers W) (pending_timers W) t) cm []
    (TimerWheel.current_tick (timer_wheel W)).
Proof.
  intros [Hw Hp Hb]. split; cbn; try done.
  - constructor.
  - intros f. split; [by intros ?%elem_of_nil|]. intros (E & HE & Hle).
    apply (tracked_future _ _ _ _ _ Hw) in HE. lia.
  - apply fired_nil.
  - by rewrite app_nil_r.
  - rewrite (still_armed_all _ _ _ Hw). by split.
Qed.

Lemma advance_spec W cm a now :
  consistent W cm a -> TimerWheel.current_tick (timer_wheel W) + TCP_TIMER_MAX_TICKS_PER_UPDATE < 2 ^ 64 ->
  now - last_timer_update W < 2 ^ 64 * 1000000000 ->
  exists W' cm' ps tick, advance_timer_wheel W now = Some W' /\ advanced W cm a W' cm' ps tick /\
    last_timer_update W <= last_timer_update W' <= Z.max now (last_timer_update W) /\
    (a <> ∅ -> last_timer_update W' - last_timer_update W =
      TCP_TIMER_RESOLUTION * (tick - TimerWheel.current_tick (timer_wheel W))) /\
    (now - last_timer_update W' < TCP_TIMER_RESOLUTION \/
     tick = TimerWheel.current_tick (timer_wheel W) + TCP_TIMER_MAX_TICKS_PER_UPDATE \/
     TimerWheel.expiration_budget (timer_wheel W) <= vlen ps).
Proof.
  intros Hc Ht Hnow. pose proof Hc as [Hw Hp Hb]. unfold advance_timer_wheel, saturating_sub.
  set (elapsed := Z.max 0 (now - last_timer_update W) / TCP_TIMER_RESOLUTION).
  assert (0 <= elapsed /\ elapsed * TCP_TIMER_RESOLUTION <= Z.max 0 (now - last_timer_update W) <
    elapsed * TCP_TIMER_RESOLUTION + TCP_TIMER_RESOLUTION) as [He0 He].
  { unfold elapsed, TCP_TIMER_RESOLUTION. zdm. }
  clearbody elapsed. unfold TCP_TIMER_RESOLUTION in *.
  destruct (Z.eqb_spec elapsed 0) as [->|Hne].
  { destruct W as [cs w ex q l]. eexists _, cm, [], _. split; [done|].
    split; [exact (advanced_none (mk_worker cs w ex q l) cm a l Hc)|]. cbn in *. split_and!; lia. }
  destruct (TimerWheel.is_empty (timer_wheel W)) eqn:Hempty.
  { eexists _, cm, [], _. split; [done|]. split; [exact (advanced_none W cm a _ Hc)|].
    cbn [last_timer_update]. rewrite !wrap_small; [|unfold in_word; zdm|unfold in_word; zdm].
    rewrite (Z.mul_comm (_ / 1000000000)), <- Z.div_mod by done.
    split; [lia|]. split; [|left; lia]. intros Hna. destruct Hna. by eapply empty_wheel. }
  destruct Hw as (HT & Hper & Hg).
  destruct (tracks_expire geom geometry_1t2w2048sl (timer_wheel W) a
    (Z.min elapsed TCP_TIMER_MAX_TICKS_PER_UPDATE) [] HT)
    as (w1 & ps & k & Hex & Hk & Ht1 & Hids & HT1 & Hnd & Hin & Hbud);
    [unfold TCP_TIMER_MAX_TICKS_PER_UPDATE; lia|lia|].
  rewrite app_nil_l in Hex. rewrite Hex. cbn [mbind option_bind]. rewrite Ht1.
  unfold TCP_TIMER_MAX_TICKS_PER_UPDATE in *.
  replace (TimerWheel.current_tick (timer_wheel W) + k - TimerWheel.current_tick (timer_wheel W)) with k by lia.
  rewrite (proj2 (Z.ltb_ge k 0)), (proj2 (Z.leb_gt (2 ^ 32) k)) by lia. cbn [orb].
  set (W1 := mk_worker _ _ _ _ _).
  assert (wheel_ok (timer_wheel W1) (still_armed (TimerWheel.current_tick (timer_wheel W) + k) a) ps) as Hw1.
  { unfold ids in Hids. injection Hids as Eg Es Eb Ep Em. split; [done|]. split; [cbn; congruence|].
    intros s. rewrite <- (Hg s). unfold gen_of. cbn. by rewrite Eg. }
  destruct (dispatch_all_spec ps W1 cm _ Hw1 Hnd Hp) as (W' & cm' & Hd & Hw' & Hp' & Hf & Hq & Hl & Ht').
  exists W', cm', ps, (TimerWheel.current_tick (timer_wheel W) + k). split; [done|].
  split; [|rewrite Hl; cbn [last_timer_update W1]; split_and!; [lia|lia|lia|]].
  - split; try done; [|by rewrite Ht'; cbn].
    split; [done|done|]. rewrite Hq. cbn [pending_timers W1]. by eapply backed_fired.
  - destruct (Z.lt_ge_cases k (Z.min elapsed 1024)) as [Hlt|]; [by right; right; apply Hbud|].
    destruct (Z.le_gt_cases 1024 elapsed); [right; left; lia|left; lia].
Qed.

End invariant.

(** ** Handing out pending timers *)

Section pending.
Context {C : Type}.
Implicit Types (W : worker C) (cm : gmap Z (connection C)) (a : gmap Z Z) (q : list TcpTimerToken).

(** The connections after [take_pending_timer] returned [r]: only pending bits
    went, and of the timers that are pending and not armed again only the one
    returned. *)
Definition taken (r : option TcpTimerToken) cm cm' : Prop :=
  forall i, match cm !! i, cm' !! i with
  | None, None => True
  | Some c, Some c' => rest c' = rest c /\ armed (timers c') = armed (timers c) /\ forall k,
      (is_pending (timers c') k = true -> is_pending (timers c) k = true /\ r <> Some (token i k)) /\
      (is_pending (timers c) k = true -> is_armed (timers c) k = false -> r <> Some (token i k) ->
       is_pending (timers c') k = true)
  | _, _ => False
  end.

Definition clear_pending k (s : TcpTimerState) : TcpTimerState :=
  mk_state (armed s) (remove_flag (pending s) (flag k)).

Lemma clear_pending_pending k k' s :
  is_pending (clear_pending k s) k' = negb (bool_decide (k = k')) && is_pending s k'.
Proof. unfold is_pending, clear_pending. cbn. apply contains_remove. Qed.

Lemma taken_refl cm : taken None cm cm.
Proof. intros i. destruct (cm !! i); [|done]. done. Qed.

(** Clearing the bit of a token that is armed again, or of the one returned. *)
Lemma taken_clear cm i k c (r : option TcpTimerToken) :
  cm !! i = Some c -> is_armed (timers c) k = true /\ r = None \/ r = Some (token i k) ->
  taken r cm (alter (with_timers (clear_pending k)) i cm).
Proof.
  intros Hc Hr j. destruct (decide (i = j)) as [<-|Hne].
  - rewrite lookup_alter_eq, Hc. cbn. split; [done|]. split; [done|]. intros k'.
    rewrite clear_pending_pending. destruct (decide (k = k')) as [<-|].
    + rewrite bool_decide_eq_true_2 by done. cbn. split; [done|]. intros _ Ha Hn.
      destruct Hr as [[Hr _]|Hr]; congruence.
    + rewrite bool_decide_eq_false_2 by done. cbn. split; [|done]. intros Hp. split; [done|].
      destruct Hr as [[_ ->]| ->]; congruence.
  - rewrite lookup_alter_ne by done. destruct (cm !! j); [|done]. split; [done|]. split; [done|]. intros k'.
    split; [|done]. intros Hp. split; [done|]. destruct Hr as [[_ ->]| ->]; congruence.
Qed.

Lemma taken_trans r cm cm1 cm2 : taken None cm cm1 -> taken r cm1 cm2 -> taken r cm cm2.
Proof.
  intros H1 H2 i. specialize (H1 i). specialize (H2 i).
  destruct (cm !! i) as [c|], (cm1 !! i) as [c1|], (cm2 !! i) as [c2|]; try done.
  destruct H1 as (R1 & A1 & P1), H2 as (R2 & A2 & P2). split; [congruence|]. split; [congruence|].
  intros k. destruct (P1 k) as [P1a P1b], (P2 k) as [P2a P2b]. split.
  - intros [Hp Hn]%P2a. split; [by apply P1a|done].
  - intros Hp Ha Hn. apply P2b; [by apply P1b|unfold is_armed in *; by rewrite A1|done].
Qed.

Lemma backed_pop a tok q cm :
  backed a (tok :: q) cm ->
  (forall c, cm !! index tok = Some c -> is_pending (timers c) (kind tok) = false) -> backed a q cm.
Proof.
  intros [HA HP] Hno. split; [done|]. intros i c k Hc Hp.
  destruct (proj1 (elem_of_cons _ _ _) (HP i c k Hc Hp)) as [<-|]; [|done]. cbn in Hno.
  by rewrite (Hno c Hc) in Hp.
Qed.

Lemma backed_clear a tok q cm :
  backed a (tok :: q) cm -> backed a q (alter (with_timers (clear_pending (kind tok))) (index tok) cm).
Proof.
  intros [HA HP]. split.
  - intros i c k [(<- & c0 & Hc & ->)|[Hne Hc]]%lookup_alter_Some Harm;
      [by apply (HA _ c0)|by apply (HA _ c)].
  - intros i c k [(<- & c0 & Hc & ->)|[Hne Hc]]%lookup_alter_Some Hp.
    + cbn [with_timers timers] in Hp. rewrite clear_pending_pending in Hp.
      apply andb_prop in Hp as [Hne%negb_true_iff%bool_decide_eq_false Hp].
      destruct (proj1 (elem_of_cons _ _ _) (HP _ c0 k Hc Hp)) as [Heq|]; [|done].
      by destruct tok; simplify_eq/=.
    + destruct (proj1 (elem_of_cons _ _ _) (HP _ c k Hc Hp)) as [Heq|]; [|done].
      by destruct tok; simplify_eq/=.
Qed.

Lemma take_pending_spec budget W cm a :
  consistent W cm a -> (forall tok, tok ∈ FifoQueue.to_list (pending_timers W) -> 0 <= index tok) ->
  exists W' cm' left r, take_pending_timer budget W = Some (W', left, r) /\
    consistent W' cm' a /\ taken r cm cm' /\ (left <= budget)%nat /\
    timer_wheel W' = timer_wheel W /\ last_timer_update W' = last_timer_update W /\
    match r with
    | Some tok => exists c, cm !! index tok = Some c /\
        is_pending (timers c) (kind tok) = true /\ is_armed (timers c) (kind tok) = false
    | None => left = O \/ FifoQueue.to_list (pending_timers W') = []
    end.
Proof.
  revert W cm. induction budget as [|budget IH]; intros W cm HC Hidx; cbn [take_pending_timer].
  { exists W, cm, O, None. split_and!; try done; [apply taken_refl|by left]. }
  destruct (FifoQueue.queue_pop_front (pending_timers W)) as [Hpop Htl].
  destruct (FifoQueue.pop_front (pending_timers W)) as [q tok]. cbn [fst] in *.
  destruct HC as [Hw Hp Hb]. destruct (FifoQueue.to_list (pending_timers W)) as [|tok0 rest0] eqn:Hq; simplify_eq.
  { cbn [tail] in Htl. eexists _, cm, _, None. split; [done|]. cbn.
    split; [split; [done|done|cbn; by rewrite Htl]|]. split; [apply taken_refl|]. split_and!; try done. by right. }
  cbn [tail] in Htl. cbn [connections]. assert (0 <= index tok0) as Hi by (apply Hidx; left).
  assert (forall t', t' ∈ rest0 -> 0 <= index t') as Hidx' by (intros t' Ht'; apply Hidx; by right).
  rewrite Pool.pool_get_slot by (done || apply Hp). rewrite <- (proj2 Hp (index tok0)). cbn [mbind option_bind].
  destruct (cm !! index tok0) as [c|] eqn:Hc.
  2:{ destruct (IH (mk_worker (connections W) (timer_wheel W) (expired_timers W) q (last_timer_update W)) cm)
        as (W' & cm' & left & r & H1 & H2 & H3 & H4 & H5 & H6 & H7); [|by cbn; rewrite Htl|].
      { split; [done|done|]. cbn. rewrite Htl. eapply backed_pop; [done|]. intros ? Hx. congruence. }
      exists W', cm', left, r. by split_and!; try lia. }
  destruct (is_pending (timers c) (kind tok0)) eqn:Hpend; cbn [negb].
  2:{ destruct (IH (mk_worker (connections W) (timer_wheel W) (expired_timers W) q (last_timer_update W)) cm)
        as (W' & cm' & left & r & H1 & H2 & H3 & H4 & H5 & H6 & H7); [|by cbn; rewrite Htl|].
      { split; [done|done|]. cbn. rewrite Htl. eapply backed_pop; [done|]. intros ? Hx. congruence. }
      exists W', cm', left, r. by split_and!; try lia. }
  destruct (Pool.pool_get_mut_repr (connections W) cm (index tok0) (with_timers (clear_pending (kind tok0))) Hp Hi)
    as (pool & Hget & Hp').
  unfold clear_pending in Hget. rewrite Hget. cbn [mbind option_bind].
  assert (consistent (mk_worker pool (timer_wheel W) (expired_timers W) q (last_timer_update W))
    (alter (with_timers (clear_pending (kind tok0))) (index tok0) cm) a) as HC1.
  { split; [done|done|]. cbn. rewrite Htl. by apply backed_clear. }
  change (is_armed (mk_state _ _) (kind tok0)) with (is_armed (timers c) (kind tok0)).
  destruct (is_armed (timers c) (kind tok0)) eqn:Harm.
  - pose proof (taken_clear cm (index tok0) (kind tok0) c None Hc (or_introl (conj Harm eq_refl))) as HT1.
    destruct (IH _ _ HC1) as (W' & cm' & left & r & Hrun & HC' & HT & Hle & F1 & F2 & Hr); [by cbn; rewrite Htl|].
    exists W', cm', left, r. split; [done|]. split; [done|]. split; [by eapply taken_trans|].
    split; [lia|]. split; [done|]. split; [done|]. destruct r as [tok|]; [|done].
    destruct Hr as (c' & Hc' & Hp1 & Ha1). specialize (HT1 (index tok)). rewrite Hc' in HT1.
    destruct (cm !! index tok) as [c0|]; [|done]. exists c0. destruct HT1 as (_ & A & P).
    split; [done|]. split; [by apply P|]. unfold is_armed in *. by rewrite <- A.
  - eexists _, _, budget, (Some tok0). split; [done|]. split; [exact HC1|].
    split; [apply (taken_clear _ _ _ c); [done|right; by destruct tok0]|]. split; [lia|]. split; [done|].
    split; [done|]. by exists c.
Qed.

End pending.

(** ** Arming, moving and stopping a connection's timers *)

Inductive timer_op :=
  | Set_ (k : TcpTimerKind) (interval : Z)
  | Update (k : TcpTimerKind) (interval : Z)
  | Reset_ (k : TcpTimerKind).

Definition run_timer_op (op : timer_op) (w : wheel) (index : Z) (s : TcpTimerState) :
    option (wheel * TcpTimerState * (timer_error + unit)) :=
  match op with
  | Set_ k d => set w index s k d
  | Update k d => update w index s k d
  | Reset_ k => '(w, s) ← reset w index s k; Some (w, s, inr tt)
  end.

Definition timer_op_exact (w : wheel) (op : timer_op) : Prop :=
  match op with Set_ _ d | Update _ d => exact_interval w d | Reset_ _ => True end.

(** The deadlines, the bits and the result after an operation. *)
Definition timer_op_effect (op : timer_op) (w : wheel) (index : Z) (a : gmap Z Z) (s : TcpTimerState) :
    gmap Z Z * TcpTimerState * (timer_error + unit) :=
  match op with
  | Set_ k d =>
      if is_armed s k then (a, s, inr tt)
      else if accepts w d
      then (<[flat index k := TimerWheel.current_tick w + duration_ticks d]> a, arm s k, inr tt)
      else (delete (flat index k) a, s, inl TimerUpdateFailed)
  | Update k d =>
      if accepts w d
      then (<[flat index k := TimerWheel.current_tick w + duration_ticks d]> a, arm s k, inr tt)
      else (a, s, inl TimerUpdateFailed)
  | Reset_ k => (delete (flat index k) a, reset_state s k, inr tt)
  end.

Lemma timer_op_spec op w a index s :
  wheel_ok w a [] -> room w index -> timer_op_exact w op ->
  exists w', let '(a', s', r) := timer_op_effect op w index a s in
    run_timer_op op w index s = Some (w', s', r) /\ wheel_ok w' a' [].
Proof.
  intros Hw Hr He. destruct op as [k d|k d|k]; cbn [timer_op_effect run_timer_op timer_op_exact] in *.
  - destruct (set_spec w a index s k d Hw Hr He) as (w' & _ & H). exists w'.
    by destruct (is_armed s k), (accepts w d).
  - destruct (update_spec w a index s k d Hw Hr He) as (w' & _ & H). exists w'. by destruct (accepts w d).
  - destruct (reset_spec w a index s k Hw (proj1 Hr)) as (w' & Hs & _ & Hw'). exists w'. by rewrite Hs.
Qed.

Section operations.
Context {C : Type}.
Implicit Types (W : worker C) (cm : gmap Z (connection C)) (a : gmap Z Z) (q : list TcpTimerToken).

Lemma backed_change a a' q cm i c s' :
  backed a q cm -> cm !! i = Some c ->
  (forall j k, j <> i -> a' !! flat j k = a !! flat j k) ->
  (forall k, is_armed s' k = true -> is_Some (a' !! flat i k)) ->
  (forall k, is_pending s' k = true -> is_pending (timers c) k = true) ->
  backed a' q (<[i := mk_connection s' (rest c)]> cm).
Proof.
  intros [HA HP] Hc Hj Ha Hp. split; intros j c' k [[<- <-]|[Hne Hc']]%lookup_insert_Some; cbn.
  - apply Ha.
  - rewrite Hj by done. by apply HA.
  - intros Hk. apply (HP i c k Hc). by apply Hp.
  - by apply HP.
Qed.

Lemma arm_armed s k k' : is_armed (arm s k) k' = bool_decide (k = k') || is_armed s k'.
Proof. apply contains_insert. Qed.

Lemma reset_armed s k k' : is_armed (reset_state s k) k' = negb (bool_decide (k = k')) && is_armed s k'.
Proof. apply contains_remove. Qed.

Lemma reset_pending s k k' : is_pending (reset_state s k) k' = negb (bool_decide (k = k')) && is_pending s k'.
Proof. apply contains_remove. Qed.

Lemma flat_ne i k j k' : j <> i \/ k <> k' -> flat i k <> flat j k'.
Proof. intros H [-> ->]%flat_inj. naive_solver. Qed.

Lemma backed_arm a q cm i c k E :
  backed a q cm -> cm !! i = Some c ->
  backed (<[flat i k := E]> a) q (<[i := mk_connection (arm (timers c) k) (rest c)]> cm).
Proof.
  intros Hb Hc. apply (backed_change a _ q cm i c); [done|done|..].
  - intros j k' Hne. apply lookup_insert_ne, flat_ne. auto.
  - intros k'. rewrite arm_armed. destruct (decide (k = k')) as [<-|Hne]; [by rewrite lookup_insert_eq|].
    rewrite bool_decide_eq_false_2, lookup_insert_ne by (done || apply flat_ne; auto). cbn.
    by apply (backed_armed _ _ _ Hb).
  - done.
Qed.

Lemma backed_delete a q cm i c k s' :
  backed a q cm -> cm !! i = Some c ->
  (forall k', is_armed s' k' = true -> k <> k' /\ is_armed (timers c) k' = true) ->
  (forall k', is_pending s' k' = true -> is_pending (timers c) k' = true) ->
  backed (delete (flat i k) a) q (<[i := mk_connection s' (rest c)]> cm).
Proof.
  intros Hb Hc Ha Hp. apply (backed_change a _ q cm i c); [done|done|..|done].
  - intros j k' Hne. apply lookup_delete_ne, flat_ne. auto.
  - intros k' [Hne Hk]%Ha. rewrite lookup_delete_ne by (apply flat_ne; auto). by apply (backed_armed _ _ _ Hb _ c).
Qed.

Lemma backed_same a q cm i c :
  backed a q cm -> cm !! i = Some c -> backed a q (<[i := mk_connection (timers c) (rest c)]> cm).
Proof. intros Hb Hc. rewrite insert_id; [done|]. by destruct c. Qed.

Lemma timer_op_backed op w a q cm i c :
  backed a q cm -> cm !! i = Some c ->
  let '(a', s', r) := timer_op_effect op w i a (timers c) in
  backed a' q (<[i := mk_connection s' (rest c)]> cm).
Proof.
  intros Hb Hc. destruct op as [k d|k d|k]; cbn [timer_op_effect].
  - destruct (is_armed (timers c) k) eqn:Ha; [by apply backed_same|].
    destruct (accepts w d); [by apply backed_arm|]. apply backed_delete; try done.
    intros k' Hk. split; [|done]. intros ->. congruence.
  - destruct (accepts w d); [by apply backed_arm|by apply backed_same].
  - apply backed_delete; try done; intros k'; rewrite ?reset_armed, ?reset_pending.
    + intros [Hne%negb_true_iff%bool_decide_eq_false Hk]%andb_prop. done.
    + by intros [_ Hk]%andb_prop.
Qed.

End operations.

(** ** Releasing a connection *)

Section release.
Context {C : Type}.
Implicit Types (W : worker C) (cm : gmap Z (connection C)) (a : gmap Z Z).

(** The deadlines of one connection. *)
Definition of_index (i f : Z) : bool := f / TCP_TIMER_KIND_COUNT =? i.

Lemma reset_kinds_spec ids w a i s :
  wheel_ok w a [] -> 0 <= i -> Forall (fun j => is_Some (from_id j)) ids ->
  exists w' s' a', reset_kinds ids w i s = Some (w', s') /\ wheel_ok w' a' [] /\
    TimerWheel.current_tick w' = TimerWheel.current_tick w /\
    forall f, a' !! f =
      if of_index i f && bool_decide (f mod TCP_TIMER_KIND_COUNT ∈ ids) then None else a !! f.
Proof.
  intros Hw Hi Hids. revert w a s Hw. induction Hids as [|j ids [k Hk] Hids IH]; intros w a s Hw; cbn [reset_kinds].
  { exists w, s, a. split; [done|]. split; [done|]. split; [done|]. intros f.
    rewrite bool_decide_eq_false_2 by (by intros ?%elem_of_nil). by rewrite andb_false_r. }
  rewrite Hk. apply from_id_spec in Hk as ->. cbn [mbind option_bind].
  destruct (reset_spec w a i s k Hw Hi) as (w1 & -> & Ht1 & Hw1). cbn [mbind option_bind].
  destruct (IH w1 _ (reset_state s k) Hw1) as (w' & s' & a' & -> & Hw' & Ht' & Ha').
  exists w', s', a'. split; [done|]. split; [done|]. split; [congruence|]. intros f. rewrite Ha'.
  destruct (decide (flat i k = f)) as [<-|Hne].
  - rewrite lookup_delete_eq. unfold of_index. destruct (flat_div i k) as [-> ->].
    rewrite Z.eqb_refl, (bool_decide_eq_true_2 (_ ∈ _ :: _)) by left. by case_bool_decide.
  - rewrite lookup_delete_ne by done. unfold of_index. destruct (Z.eqb_spec (f / TCP_TIMER_KIND_COUNT) i); [|done].
    cbn [andb]. assert (f mod TCP_TIMER_KIND_COUNT <> id k) as Hm.
    { intros Heq. apply Hne. unfold flat. rewrite <- Heq. subst i. change TCP_TIMER_KIND_COUNT with 8. zdm. }
    rewrite (bool_decide_ext (_ ∈ _ :: _) (f mod TCP_TIMER_KIND_COUNT ∈ ids)); [done|].
    rewrite elem_of_cons. naive_solver.
Qed.

Lemma release_spec W cm a i :
  consistent W cm a -> 0 <= i ->
  exists W' a', release_connection W i = Some W' /\ consistent W' (delete i cm) a' /\
    pending_timers W' = pending_timers W /\
    TimerWheel.current_tick (timer_wheel W') = TimerWheel.current_tick (timer_wheel W) /\
    forall f, a' !! f = if is_Some_dec (cm !! i) then if of_index i f then None else a !! f else a !! f.
Proof.
  intros [Hw Hp Hb] Hi. unfold release_connection. rewrite Pool.pool_get_slot by (done || apply Hp).
  rewrite <- (proj2 Hp i). cbn [mbind option_bind]. destruct (cm !! i) as [c|] eqn:Hc.
  2:{ exists W, a. rewrite delete_id by done. by split_and!. }
  destruct (reset_kinds_spec (zseq 0 (Z.to_nat TCP_TIMER_KIND_COUNT)) (timer_wheel W) a i (timers c) Hw Hi)
    as (w' & s' & a' & -> & Hw' & Ht & Ha').
  { vm_compute. repeat (constructor; [by eexists|]). constructor. }
  cbn [mbind option_bind].
  destruct (Pool.pool_get_mut_repr (connections W) cm i (with_timers (fun _ => s')) Hp Hi) as (p1 & -> & Hp1).
  cbn [mbind option_bind]. destruct (Pool.pool_remove_repr p1 _ i Hp1 Hi) as (p2 & -> & Hp2).
  rewrite lookup_alter_eq, Hc. cbn [fmap option_fmap option_map mbind option_bind].
  assert (forall f, a' !! f = if of_index i f then None else a !! f) as Hf.
  { intros f. rewrite Ha'. rewrite bool_decide_eq_true_2; [by rewrite andb_true_r|].
    apply elem_of_zseq. change TCP_TIMER_KIND_COUNT with 8. pose proof (Z.mod_pos_bound f 8). lia. }
  eexists _, a'. split; [done|]. split_and!; try done. split; [done| |].
    + assert (delete i (alter (with_timers (fun _ => s')) i cm) = delete i cm) as <-; [|done].
      apply map_eq. intros j. destruct (decide (i = j)) as [<-|]; [by rewrite !lookup_delete_eq|].
      by rewrite !lookup_delete_ne, lookup_alter_ne.
    + cbn. split; intros j c' k [Hne Hc']%lookup_delete_Some.
      * intros Harm. rewrite Hf. unfold of_index. rewrite (proj1 (flat_div j k)).
        destruct (Z.eqb_spec j i); [congruence|]. by apply (backed_armed _ _ _ Hb _ c').
      * intros Hpe. by apply (backed_pending _ _ _ Hb _ c').
Qed.

End release.

(** ** Properties *)

(** A worker with one fresh connection at index 0. *)
Definition example_worker : option (worker unit) :=
  '(pool, _) ← Pool.insert Pool.new (mk_connection default_state tt);
  new_worker pool 0.

Lemma new_worker_wheel {C} (pool : Pool.t (connection C)) t w :
  TimerWheel.with_timer_ids geom TCP_TIMER_EXPIRY_BUDGET TCP_TIMER_KIND_COUNT = Some w ->
  new_worker pool t = Some (mk_worker pool w [] FifoQueue.new t).
Proof. intros H. unfold new_worker. rewrite H. reflexivity. Qed.

Lemma example_consistent :
  exists W, example_worker = Some W /\ consistent W {[ 0 := mk_connection default_state tt ]} ∅ /\
    room (timer_wheel W) 0 /\ TimerWheel.current_tick (timer_wheel W) = 0 /\ last_timer_update W = 0 /\
    FifoQueue.to_list (pending_timers W) = [].
Proof.
  destruct (Pool.pool_insert_repr Pool.new ∅ (mk_connection default_state tt)) as (pool & i & Hins & _ & _ & Hrep).
  { apply Pool.pool_empty_dynamic_repr. by constructor. }
  { by right. }
  assert (i = 0) as -> by (vm_compute in Hins; congruence).
  destruct (with_timer_ids_tracks geom geometry_1t2w2048sl TCP_TIMER_EXPIRY_BUDGET TCP_TIMER_KIND_COUNT eq_refl eq_refl)
    as (w & Hw & HT & Ht & Hp & He & _ & Hg).
  apply (new_worker_wheel pool 0) in Hw. exists (mk_worker pool w [] FifoQueue.new 0). split.
  { unfold example_worker. rewrite Hins. exact Hw. }
  clear Hw Hins. cbn [timer_wheel last_timer_update pending_timers].
  split; [|split; [unfold room; rewrite He; split_and!; done|split; [exact Ht|done]]].
  split; cbn; [by split|exact Hrep|]. split; intros j c k Hc; apply lookup_singleton_Some in Hc as [<- <-]; by destruct k.
Qed.





(** [take_pending_timer] hands out only timers that have expired and have
    been neither reset nor armed again since, hands each out once, and loses
    none: a timer that is pending and not armed again is either the one
    returned or still pending with its token queued.  It returns nothing only
    when the budget is used up or the queue is empty. *)
Theorem tcp_take_pending_timer_correct {C} budget (W : worker C) cm a :
  consistent W cm a -> (forall tok, tok ∈ FifoQueue.to_list (pending_timers W) -> 0 <= index tok) ->
  exists W' cm' left r, take_pending_timer budget W = Some (W', left, r) /\
    consistent W' cm' a /\ taken r cm cm' /\ (left <= budget)%nat /\
    timer_wheel W' = timer_wheel W /\ last_timer_update W' = last_timer_update W /\
    match r with
    | Some tok => exists c, cm !! index tok = Some c /\
        is_pending (timers c) (kind tok) = true /\ is_armed (timers c) (kind tok) = false
    | None => left = O \/ FifoQueue.to_list (pending_timers W') = []
    end.
Proof. apply take_pending_spec. Qed.

Lemma tcp_take_pending_timer_correct_witness :
  exists W W' cm' left r, example_worker = Some W /\ take_pending_timer 3 W = Some (W', left, r) /\
    taken r {[ 0 := mk_connection default_state tt ]} cm'.
Proof.
  destruct example_consistent as (W & HW & HC & _ & _ & _ & Hq).
  destruct (tcp_take_pending_timer_correct 3 W _ ∅ HC) as (W' & cm' & left & r & H1 & _ & H2 & _).
  { intros tok. rewrite Hq. intros []%elem_of_nil. }
  exists W, W', cm', left, r. exact (conj HW (conj H1 H2)).
Defined.



(** Arm a timer for the longest interval [validate_interval] accepts, one tick
    after the wheel has started, and run the wheel for [after] ticks. *)
Definition longest_run (after : Z) : option ((timer_error + unit) * (timer_error + unit) * list Z) :=
  w ← TimerWheel.with_timer_ids geom TCP_TIMER_EXPIRY_BUDGET TCP_TIMER_KIND_COUNT;
  '(w, _, _) ← TimerWheel.expire geom w 1 [];
  let interval := TCP_TIMER_WHEEL_MAX_INTERVAL_TICKS * TCP_TIMER_RESOLUTION in
  let ok := validate_interval w interval in
  '(w, s, r) ← set w 0 default_state KeepAlive interval;
  '(w, x, _) ← TimerWheel.expire geom w after [];
  Some (ok, r, x).

(** the longest interval [validate_interval] accepts is one the wheel does
    not keep: armed one tick after start for 4194303 ticks, almost seven
    minutes, the timer of connection 0 expires within 2047 ticks. *)
Theorem tcp_longest_interval_fires_early :
  longest_run 2047 = Some (inr tt, inr tt, [id KeepAlive]).
Proof. vm_compute. reflexivity. Qed.

End TcpTimers.
