(* ===== verification/TcpProtocol.v ===== *)
(** * TCP protocol values

    Models [crates/hammer-plugins/transport/tcp/src/protocol/mod.rs]: the ECN
    code point, fast-open cookies, sequence numbers and their modular order,
    the connection key and the hash the session lookup uses for it.

    The theorems: the sequence order is the order of offsets inside any window
    of half the sequence space and is not antisymmetric at its antipode; the
    constant-time comparison of cookies decides equality; the connection key
    keeps its parts and [reverse] swaps them; the IPv4 key hash separates keys
    that share scope and local address. *)

From S2P Require Import Prelude.

Module TcpProtocol.

(** ** ECN code points, states and reasons *)

Inductive TcpEcnCodepoint := NotEct | Ect1 | Ect0 | Ce.

Definition ecn_from_u8 (value : Z) : TcpEcnCodepoint :=
  match value with 1 => Ect1 | 2 => Ect0 | 3 => Ce | _ => NotEct end.

Definition ecn_to_u8 (e : TcpEcnCodepoint) : Z :=
  match e with NotEct => 0 | Ect1 => 1 | Ect0 => 2 | Ce => 3 end.

Inductive TcpError :=
  | WrongThread | Length | NoListener | LookupDrops | Dispatch | SegmentInvalid | AckInvalid
  | InvalidConnection | ConnectionClosed | Options | Paws | RcvWnd.

Inductive TcpControlPacketParseError :=
  | EmptyPacket | UnsupportedIpVersion | PacketTooShort | InvalidCursor | InvalidHeaderLength.

Definition from_parse_error (e : TcpControlPacketParseError) : TcpError :=
  match e with
  | EmptyPacket | PacketTooShort | InvalidCursor | InvalidHeaderLength => Length
  | UnsupportedIpVersion => SegmentInvalid
  end.

Inductive TcpState :=
  | Closed | Listen | SynSent | SynRcvd | Established | FinWait1 | FinWait2 | CloseWait
  | Closing | LastAck | TimeWait.

Definition state_index (s : TcpState) : Z :=
  match s with
  | Closed => 0 | Listen => 1 | SynSent => 2 | SynRcvd => 3 | Established => 4 | FinWait1 => 5
  | FinWait2 => 6 | CloseWait => 7 | Closing => 8 | LastAck => 9 | TimeWait => 10
  end.

Definition state_count : Z := 11.

(** [TcpSegmentFlags], a [bitflags] set over [u16]. *)
Definition FIN : Z := 0x01.
Definition SYN : Z := 0x02.
Definition RST : Z := 0x04.
Definition PSH : Z := 0x08.
Definition ACK : Z := 0x10.
Definition URG : Z := 0x20.
Definition ECE : Z := 0x40.
Definition CWR : Z := 0x80.
Definition NS : Z := 0x100.

Definition flag_contains (bits f : Z) : bool := Z.land bits f =? f.

(** [set(flag, value)] of [bitflags]. *)
Definition flag_set (bits f : Z) (value : bool) : Z :=
  if value then Z.lor bits f else Z.land bits (wnot 16 f).

(** ** Sequence numbers *)

(** [TcpSeq] is its raw [u32]. *)
Definition advance (s by_ : Z) : Z := wrap 32 (s + by_).
Definition distance_to (s other : Z) : Z := wrap 32 (other - s).

Definition seq_cmp (s other : Z) : comparison :=
  if s =? other then Eq
  else if as_signed 32 (wrap 32 (s - other)) <? 0 then Lt
  else Gt.

(** The comparison operators [PartialOrd] derives from it. *)
Definition seq_lt s other : bool := match seq_cmp s other with Lt => true | _ => false end.
Definition seq_le s other : bool := match seq_cmp s other with Gt => false | _ => true end.

(** ** Fast-open cookies *)

Definition MIN_LEN : Z := 4.
Definition MAX_LEN : Z := 16.

Record TcpFastOpenCookie := mk_cookie { bytes : list Z; cookie_len : Z }.

Definition is_empty (c : TcpFastOpenCookie) : bool := cookie_len c =? 0.

(** [&self.bytes[..self.len()]] *)
Definition as_slice (c : TcpFastOpenCookie) : list Z := take (Z.to_nat (cookie_len c)) (bytes c).

Definition u32_from_be_bytes (b : list Z) : Z :=
  foldl (fun acc x => Z.lor (Z.shiftl acc 8) x) 0 b.

Definition epoch (c : TcpFastOpenCookie) : option Z :=
  b0 ← vget (bytes c) 0;
  if (cookie_len c =? MAX_LEN) && (b0 =? 1)
  then Some (u32_from_be_bytes (take 4 (drop 1 (bytes c)))) else None.

(** The loop of [constant_time_eq]: [diff |= lhs[i] ^ rhs[i]]. *)
Fixpoint diff_loop (lhs rhs : list Z) (diff : Z) : Z :=
  match lhs, rhs with
  | x :: lhs, y :: rhs => diff_loop lhs rhs (Z.lor diff (Z.lxor x y))
  | _, _ => diff
  end.

Definition constant_time_eq (c other : TcpFastOpenCookie) : bool :=
  let lhs := as_slice c in
  let rhs := as_slice other in
  if negb (vlen lhs =? vlen rhs) then false else diff_loop lhs rhs 0 =? 0.

Definition is_valid_len (len : Z) : bool :=
  (MIN_LEN <=? len) && (len <=? MAX_LEN) && (len mod 2 =? 0).

(** [cookie.bytes[index] = value[index]] for every index. *)
Fixpoint copy_loop (dst : list Z) (index : Z) (value : list Z) : option (list Z) :=
  match value with
  | [] => Some dst
  | x :: value => dst ← vset dst index x; copy_loop dst (index + 1) value
  end.

(** [TryFrom<&[u8]>]; the outer [option] is a panic. *)
Definition cookie_try_from (value : list Z) : option (option TcpFastOpenCookie) :=
  if negb (is_valid_len (vlen value)) then Some None else
  b ← copy_loop (replicate (Z.to_nat MAX_LEN) 0) 0 value;
  Some (Some (mk_cookie b (wrap 8 (vlen value)))).

Definition cookie_from_array (b : list Z) : TcpFastOpenCookie := mk_cookie b MAX_LEN.

(** ** Connection keys *)

(** [IpAddr]; an IPv4 address is a [u32], an IPv6 address a [u128]. *)
Inductive IpAddr := V4 (a : Z) | V6 (a : Z).

Record SocketAddr := socket_addr { ip : IpAddr; port : Z }.

Record TransportConnectionKey (A : Type) := mk_key {
  scope_id : Z;
  local_addr : A;
  remote_addr : A;
  ports : Z;
}.
Arguments mk_key {A} _ _ _ _.
Arguments scope_id {A} _.
Arguments local_addr {A} _.
Arguments remote_addr {A} _.
Arguments ports {A} _.

Section key.
Context {A : Type}.
Implicit Types k : TransportConnectionKey A.

Definition key_new (scope : Z) (la : A) (local_port : Z) (ra : A) (remote_port : Z) : TransportConnectionKey A :=
  mk_key scope la ra (Z.lor (Z.shiftl local_port 16) remote_port).

Definition local_port k : Z := wrap 16 (Z.shiftr (ports k) 16).
Definition remote_port k : Z := wrap 16 (ports k).

Definition reverse_key k : TransportConnectionKey A :=
  key_new (scope_id k) (remote_addr k) (remote_port k) (local_addr k) (local_port k).
End key.

Definition from_socket_addrs (scope : Z) (local remote : SocketAddr) : option (TransportConnectionKey IpAddr) :=
  match ip local, ip remote with
  | V4 la, V4 ra => Some (key_new scope (V4 la) (port local) (V4 ra) (port remote))
  | V6 la, V6 ra => Some (key_new scope (V6 la) (port local) (V6 ra) (port remote))
  | _, _ => None
  end.

(** ** Hashing *)

Definition splitmix64 (value : Z) : Z :=
  let value := wrap 64 (value + 0x9e3779b97f4a7c15) in
  let value := wrap 64 (Z.lxor value (Z.shiftr value 30) * 0xbf58476d1ce4e5b9) in
  let value := wrap 64 (Z.lxor value (Z.shiftr value 27) * 0x94d049bb133111eb) in
  Z.lxor value (Z.shiftr value 31).

Definition fold_u128 (value : Z) : Z := Z.lxor (wrap 64 value) (wrap 64 (Z.shiftr value 64)).

Definition rotate_left64 (x n : Z) : Z := Z.lor (wrap 64 (Z.shiftl x n)) (Z.shiftr x (64 - n)).

Definition hash_words (words : list Z) : Z :=
  splitmix64 (foldl (fun state word =>
    rotate_left64 (Z.lxor state (splitmix64 (Z.lxor word state))) 13) 0x9e3779b97f4a7c15 words).

Definition hash_v4 (k : TransportConnectionKey Z) : Z :=
  let packed := Z.lor (Z.lor (Z.lor (Z.shiftl (scope_id k) 96) (Z.shiftl (local_addr k) 64))
    (Z.shiftl (remote_addr k) 32)) (ports k) in
  splitmix64 (wrap 64 (Z.lxor packed (Z.shiftr packed 64))).

Definition hash_v6 (k : TransportConnectionKey Z) : Z :=
  hash_words [fold_u128 (local_addr k); fold_u128 (remote_addr k); scope_id k; ports k].

(** ** Order of sequence numbers *)

Lemma as_signed_neg x : in_word 32 x -> (as_signed 32 x <? 0) = (2 ^ 31 <=? x).
Proof.
  intros Hx. unfold as_signed, in_word in *. change (32 - 1) with 31.
  destruct (Z.ltb_spec x (2 ^ 31)); destruct (Z.leb_spec (2 ^ 31) x); lia.
Qed.

(** [a < b] exactly when [b] is at most half the space ahead of [a]. *)
Lemma seq_cmp_distance a b :
  in_word 32 a -> in_word 32 b ->
  seq_cmp a b = if distance_to a b =? 0 then Eq else if distance_to a b <=? 2 ^ 31 then Lt else Gt.
Proof.
  intros Ha Hb. unfold seq_cmp, distance_to. rewrite as_signed_neg by (apply wrap_bounds; lia).
  unfold wrap, in_word in *. change (2 ^ 32) with 4294967296 in *. change (2 ^ 31) with 2147483648.
  destruct (Z.eqb_spec a b); destruct (Z.eqb_spec ((b - a) mod 4294967296) 0); try done; try zdm.
  destruct (Z.leb_spec 2147483648 ((a - b) mod 4294967296)), (Z.leb_spec ((b - a) mod 4294967296) 2147483648);
    try done; zdm.
Qed.

Lemma distance_advance base x y :
  in_word 32 base -> distance_to (advance base x) (advance base y) = wrap 32 (y - x).
Proof.
  intros Hb. unfold distance_to, advance, wrap. rewrite <- Zminus_mod. f_equal. lia.
Qed.

Lemma seq_cmp_advance base x y :
  in_word 32 base -> 0 <= x < 2 ^ 31 -> 0 <= y < 2 ^ 31 ->
  seq_cmp (advance base x) (advance base y) = (x ?= y).
Proof.
  intros Hb Hx Hy. rewrite seq_cmp_distance by (apply wrap_bounds; lia). rewrite distance_advance by done.
  unfold wrap. change (2 ^ 32) with 4294967296. change (2 ^ 31) with 2147483648 in *.
  destruct (Z.compare_spec x y) as [->|Hlt|Hgt].
  - by rewrite Z.sub_diag.
  - rewrite Z.mod_small by lia. destruct (Z.eqb_spec (y - x) 0); [lia|]. by rewrite (proj2 (Z.leb_le _ _)) by lia.
  - replace ((y - x) mod 4294967296) with (y - x + 4294967296) by zdm.
    destruct (Z.eqb_spec (y - x + 4294967296) 0); [lia|]. by rewrite (proj2 (Z.leb_gt _ _)) by lia.
Qed.

(** inside any window of half the sequence space the order of sequence
    numbers is the order of their offsets from the window's start, wherever in
    the [u32] space the window lies; the order is antisymmetric except between
    numbers exactly half the space apart, where each is less than the other. *)
Theorem tcp_seq_order_correct :
  (forall base x y, in_word 32 base -> 0 <= x < 2 ^ 31 -> 0 <= y < 2 ^ 31 ->
     seq_cmp (advance base x) (advance base y) = (x ?= y)) /\
  (forall a b, in_word 32 a -> in_word 32 b -> distance_to a b <> 2 ^ 31 ->
     seq_cmp b a = CompOpp (seq_cmp a b)) /\
  (forall a b, in_word 32 a -> in_word 32 b -> distance_to a b = 2 ^ 31 ->
     seq_lt a b = true /\ seq_lt b a = true) /\
  (forall a b, in_word 32 a -> in_word 32 b -> advance a (distance_to a b) = b).
Proof.
  split; [intros; by apply seq_cmp_advance|]. split; [|split].
  - intros a b Ha Hb Hd. rewrite !seq_cmp_distance by done. unfold distance_to, wrap, in_word in *.
    change (2 ^ 32) with 4294967296 in *. change (2 ^ 31) with 2147483648 in *.
    destruct (Z.eqb_spec ((a - b) mod 4294967296) 0), (Z.eqb_spec ((b - a) mod 4294967296) 0),
      (Z.leb_spec ((a - b) mod 4294967296) 2147483648), (Z.leb_spec ((b - a) mod 4294967296) 2147483648);
      try done; zdm.
  - intros a b Ha Hb Hd. unfold seq_lt. rewrite !seq_cmp_distance, Hd by done.
    assert (distance_to b a = 2 ^ 31) as ->; [|done]. unfold distance_to, wrap in *.
    change (2 ^ 32) with 4294967296 in *. change (2 ^ 31) with 2147483648 in *. zdm.
  - intros a b Ha Hb. unfold advance, distance_to, wrap, in_word in *. change (2 ^ 32) with 4294967296 in *. zdm.
Qed.

(** ** Cookies *)

Lemma lor_zero_iff a b : Z.lor a b = 0 <-> a = 0 /\ b = 0.
Proof. apply Z.lor_eq_0_iff. Qed.

Lemma diff_loop_spec lhs rhs diff :
  length lhs = length rhs -> diff_loop lhs rhs diff = 0 <-> diff = 0 /\ lhs = rhs.
Proof.
  revert rhs diff. induction lhs as [|x lhs IH]; intros [|y rhs] diff Hlen; try done; cbn [diff_loop]; [naive_solver|].
  rewrite IH by (by injection Hlen). rewrite lor_zero_iff, Z.lxor_eq_0_iff. naive_solver.
Qed.

Lemma copy_loop_spec value dst i :
  0 <= i -> i + vlen value <= vlen dst ->
  copy_loop dst i value = Some (take (Z.to_nat i) dst ++ value ++ drop (Z.to_nat (i + vlen value)) dst).
Proof.
  revert dst i. induction value as [|x value IH]; intros dst i Hi Hlen; cbn [copy_loop].
  { unfold vlen. cbn. rewrite Z.add_0_r, take_drop. done. }
  unfold vlen in Hlen. cbn [length] in Hlen. unfold vset, vlen. rewrite (proj2 (Z.leb_le 0 i)), (proj2 (Z.ltb_lt _ _)) by lia.
  cbn [andb mbind option_bind]. rewrite IH; [|lia|unfold vlen; rewrite length_insert; lia]. f_equal.
  replace (Z.to_nat (i + 1)) with (S (Z.to_nat i)) by lia.
  rewrite (take_S_r _ _ x) by (apply list_lookup_insert_eq; lia).
  rewrite take_insert_ge, <- app_assoc by lia. cbn [app]. do 3 f_equal.
  rewrite drop_insert_lt by (unfold vlen; lia). unfold vlen. cbn [length]. f_equal. lia.
Qed.

Lemma cookie_try_from_spec value :
  exists r, cookie_try_from value = Some r /\
    match r with
    | Some c => is_valid_len (vlen value) = true /\ as_slice c = value /\ cookie_len c = vlen value
    | None => is_valid_len (vlen value) = false
    end.
Proof.
  unfold cookie_try_from. destruct (is_valid_len (vlen value)) eqn:Hv; cbn [negb]; [|by exists None].
  unfold is_valid_len, MIN_LEN, MAX_LEN in Hv. bool_prop.
  rewrite copy_loop_spec by (rewrite ?vlen_replicate; unfold MAX_LEN; lia). cbn [mbind option_bind].
  eexists. split; [done|]. split; [done|]. rewrite wrap_small by (split; lia). unfold as_slice, vlen.
  cbn [bytes cookie_len]. split; [|done]. rewrite Nat2Z.id. change (take (Z.to_nat 0) _) with (@nil Z).
  rewrite app_nil_l. apply take_app_length.
Qed.

(** a fast-open cookie is built from exactly the slices of even length 4
    to 16, keeps their bytes, and the constant-time comparison of two cookies
    decides whether their bytes are equal. *)
Theorem tcp_cookie_correct :
  (forall value, exists r, cookie_try_from value = Some r /\
     match r with
     | Some c => is_valid_len (vlen value) = true /\ as_slice c = value /\ cookie_len c = vlen value
     | None => is_valid_len (vlen value) = false
     end) /\
  (forall c other, constant_time_eq c other = bool_decide (as_slice c = as_slice other)).
Proof.
  split.
  - apply cookie_try_from_spec.
  - intros c other. unfold constant_time_eq. apply eq_true_iff_eq. rewrite bool_decide_eq_true.
    destruct (Z.eqb_spec (vlen (as_slice c)) (vlen (as_slice other))) as [He|He]; cbn [negb].
    + rewrite Z.eqb_eq, diff_loop_spec by (unfold vlen in He; lia). naive_solver.
    + split; [done|]. intros Heq. by rewrite Heq in He.
Qed.

(** ** Connection keys *)

Lemma key_ports {A} scope (la ra : A) lp rp :
  in_word 16 lp -> in_word 16 rp ->
  local_port (key_new scope la lp ra rp) = lp /\ remote_port (key_new scope la lp ra rp) = rp.
Proof.
  intros Hl Hr. unfold local_port, remote_port, key_new. cbn [ports]. rewrite pack_lor by (done || lia).
  rewrite pack_high, pack_low by (done || lia). split; [by apply wrap_small|done].
Qed.

(** the connection key keeps the scope, addresses and ports it is built
    from, [reverse] swaps the two ends and undoes itself, and
    [from_socket_addrs] refuses exactly the pairs of mixed address families. *)
Theorem tcp_connection_key_correct :
  (forall A scope (la ra : A) lp rp, in_word 16 lp -> in_word 16 rp ->
     let k := key_new scope la lp ra rp in
     scope_id k = scope /\ local_addr k = la /\ remote_addr k = ra /\ local_port k = lp /\
     remote_port k = rp /\ reverse_key k = key_new scope ra rp la lp /\ reverse_key (reverse_key k) = k) /\
  (forall scope local remote, in_word 16 (port local) -> in_word 16 (port remote) ->
     match from_socket_addrs scope local remote with
     | Some k => local_addr k = ip local /\ remote_addr k = ip remote /\
         from_socket_addrs scope remote local = Some (reverse_key k)
     | None => match ip local, ip remote with V4 _, V6 _ | V6 _, V4 _ => True | _, _ => False end
     end).
Proof.
  assert (forall A scope (la ra : A) lp rp, in_word 16 lp -> in_word 16 rp ->
    reverse_key (key_new scope la lp ra rp) = key_new scope ra rp la lp) as Hrev.
  { intros A scope la ra lp rp Hl Hr. unfold reverse_key. by destruct (key_ports scope la ra lp rp Hl Hr) as [-> ->]. }
  split.
  - intros A scope la ra lp rp Hl Hr k. destruct (key_ports scope la ra lp rp Hl Hr) as [H1 H2].
    split_and!; try done; [by apply Hrev|]. unfold k. by rewrite !Hrev.
  - intros scope [[la|la] lp] [[ra|ra] rp]; cbn [ip port]; intros Hl Hr; unfold from_socket_addrs; cbn [ip port];
      try done; by rewrite Hrev.
Qed.

(** ** The hash of a key *)

Lemma xorshift_inj x y s :
  0 < s -> 0 <= x -> 0 <= y -> Z.lxor x (Z.shiftr x s) = Z.lxor y (Z.shiftr y s) -> x = y.
Proof.
  intros Hs Hx Hy Heq. set (d := Z.lxor x y).
  assert (0 <= d) as Hd by (apply Z.lxor_nonneg; lia).
  assert (d = Z.shiftr d s) as Hsh.
  { unfold d. rewrite Z.shiftr_lxor. apply Z.bits_inj'. intros i Hi.
    apply (f_equal (fun z => Z.testbit z i)) in Heq. rewrite !Z.lxor_spec in *.
    by destruct (Z.testbit x i), (Z.testbit y i), (Z.testbit (Z.shiftr x s) i), (Z.testbit (Z.shiftr y s) i). }
  rewrite Z.shiftr_div_pow2 in Hsh by lia. assert (1 < 2 ^ s) by (apply Z.pow_gt_1; lia).
  assert (d = 0) as Hd0.
  { destruct (Z.eq_dec d 0) as [|Hne]; [done|]. pose proof (Z.div_lt d (2 ^ s)). lia. }
  by apply Z.lxor_eq.
Qed.

Lemma xorshift_word x s : 0 < s -> in_word 64 x -> in_word 64 (Z.lxor x (Z.shiftr x s)).
Proof.
  intros Hs Hx. assert (in_word 64 (Z.shiftr x s)) as Hy.
  { destruct Hx as [Hx0 Hx1]. rewrite Z.shiftr_div_pow2 by lia. pose proof (Z.pow_pos_nonneg 2 s).
    split; [apply Z.div_pos; lia|]. pose proof (Z.div_le_upper_bound x (2 ^ s) x). nia. }
  rewrite <- (wrap_small 64 x Hx) at 1. rewrite <- (wrap_small 64 (Z.shiftr x s) Hy).
  rewrite <- wrap_lxor by lia. apply wrap_bounds. lia.
Qed.

Lemma wrap_mul_inj m inv x y :
  wrap 64 (m * inv) = 1 -> in_word 64 x -> in_word 64 y -> wrap 64 (x * m) = wrap 64 (y * m) -> x = y.
Proof.
  intros Hinv Hx Hy Heq.
  assert (forall z, in_word 64 z -> wrap 64 (wrap 64 (z * m) * inv) = z) as H.
  { intros z Hz. unfold wrap in *. rewrite Zmult_mod_idemp_l.
    rewrite <- Z.mul_assoc, <- Zmult_mod_idemp_r, Hinv, Z.mul_1_r. by apply Z.mod_small. }
  rewrite <- (H x Hx), <- (H y Hy). by rewrite Heq.
Qed.

(** [splitmix64] never merges two values. *)
Lemma splitmix64_inj x y : in_word 64 x -> in_word 64 y -> splitmix64 x = splitmix64 y -> x = y.
Proof.
  intros Hx Hy Heq. unfold splitmix64 in Heq. assert (forall z, in_word 64 (wrap 64 z)) as Hw by (intros; apply wrap_bounds; lia).
  apply xorshift_inj in Heq; [|lia|apply Hw|apply Hw].
  apply (wrap_mul_inj 0x94d049bb133111eb 3573116690164977347) in Heq; [|done|by apply xorshift_word|by apply xorshift_word].
  apply xorshift_inj in Heq; [|lia|apply Hw|apply Hw].
  apply (wrap_mul_inj 0xbf58476d1ce4e5b9 10871156337175269513) in Heq; [|done|by apply xorshift_word|by apply xorshift_word].
  apply xorshift_inj in Heq; [|lia|apply Hw|apply Hw].
  unfold wrap, in_word in *. change (2 ^ 64) with 18446744073709551616 in *. zdm.
Qed.

Record v4_key_ok (k : TransportConnectionKey Z) : Prop := {
  v4_scope : in_word 32 (scope_id k);
  v4_local : in_word 32 (local_addr k);
  v4_remote : in_word 32 (remote_addr k);
  v4_ports : in_word 32 (ports k);
}.

(** The two words the packed key folds. *)
Definition v4_high (k : TransportConnectionKey Z) : Z := scope_id k * 2 ^ 32 + local_addr k.
Definition v4_low (k : TransportConnectionKey Z) : Z := remote_addr k * 2 ^ 32 + ports k.

Lemma hash_v4_fold k :
  v4_key_ok k -> in_word 64 (v4_high k) /\ in_word 64 (v4_low k) /\
  hash_v4 k = splitmix64 (Z.lxor (v4_low k) (v4_high k)).
Proof.
  intros [H1 H2 H3 H4]. unfold in_word in *. assert (in_word 64 (v4_high k) /\ in_word 64 (v4_low k)) as [Hh Hl].
  { unfold in_word, v4_high, v4_low. change (2 ^ 64) with (2 ^ (32 + 32)). split; apply pack_bounds; lia. }
  split; [done|]. split; [done|]. unfold hash_v4. f_equal.
  assert (Z.lor (Z.lor (Z.lor (Z.shiftl (scope_id k) 96) (Z.shiftl (local_addr k) 64)) (Z.shiftl (remote_addr k) 32)) (ports k)
    = v4_high k * 2 ^ 64 + v4_low k) as ->.
  { rewrite <- (pack_lor (v4_high k)) by (done || lia). unfold v4_high, v4_low. rewrite <- !pack_lor by (done || lia).
    rewrite !Z.shiftl_lor, !Z.shiftl_shiftl by lia. rewrite !Z.lor_assoc. done. }
  rewrite pack_high by (done || lia). rewrite wrap_lxor, pack_low by (done || lia).
  by rewrite (wrap_small 64 (v4_high k)).
Qed.

(** the hash of an IPv4 connection key loses nothing but what its fold
    loses: two keys collide exactly when the xor of their packed halves
    agrees, so connections with the same scope and local address never
    collide, and neither do those with the same remote address and ports. *)
Theorem tcp_hash_v4_collisions k k' :
  v4_key_ok k -> v4_key_ok k' ->
  (hash_v4 k = hash_v4 k' <-> Z.lxor (v4_low k) (v4_high k) = Z.lxor (v4_low k') (v4_high k')) /\
  (scope_id k = scope_id k' -> local_addr k = local_addr k' -> hash_v4 k = hash_v4 k' -> k = k') /\
  (remote_addr k = remote_addr k' -> ports k = ports k' -> hash_v4 k = hash_v4 k' -> k = k').
Proof.
  intros Hk Hk'. destruct (hash_v4_fold k Hk) as (Hh & Hl & ->), (hash_v4_fold k' Hk') as (Hh' & Hl' & ->).
  assert (forall a b, in_word 64 a -> in_word 64 b -> in_word 64 (Z.lxor a b)) as Hx.
  { intros a b Ha Hb. rewrite <- (wrap_small 64 a Ha), <- (wrap_small 64 b Hb), <- wrap_lxor by lia. apply wrap_bounds. lia. }
  assert (splitmix64 (Z.lxor (v4_low k) (v4_high k)) = splitmix64 (Z.lxor (v4_low k') (v4_high k')) <->
    Z.lxor (v4_low k) (v4_high k) = Z.lxor (v4_low k') (v4_high k')) as Hiff.
  { split; [apply splitmix64_inj; by apply Hx|by intros ->]. }
  assert (forall a a' b, Z.lxor a b = Z.lxor a' b -> a = a') as Hc.
  { intros a a' b Heq. apply (f_equal (fun z => Z.lxor z b)) in Heq.
    by rewrite !Z.lxor_assoc, !Z.lxor_nilpotent, !Z.lxor_0_r in Heq. }
  rewrite Hiff. split; [done|]. destruct k as [s l r p], k' as [s' l' r' p'], Hk, Hk'.
  unfold v4_high, v4_low, in_word in *. cbn in *. split; intros -> -> Heq.
  - apply Hc in Heq. assert (r = r' /\ p = p') as [-> ->] by lia. done.
  - rewrite !(Z.lxor_comm (_ + p')) in Heq. apply Hc in Heq. assert (s = s' /\ l = l') as [-> ->] by lia. done.
Qed.

Lemma tcp_hash_v4_collisions_witness :
  hash_v4 (mk_key 0 0x0a000001 0x0a000002 5) <> hash_v4 (mk_key 0 0x0a000001 0x0a000002 6).
Proof.
  destruct (tcp_hash_v4_collisions (mk_key 0 0x0a000001 0x0a000002 5) (mk_key 0 0x0a000001 0x0a000002 6))
    as (_ & H & _); [by split|by split|]. intros Heq. specialize (H eq_refl eq_refl Heq). discriminate H.
Defined.

End TcpProtocol.
