(* ===== verification/TcpOptions.v ===== *)
(** * TCP options

    Models [crates/hammer-plugins/transport/tcp/src/protocol/options.rs]: the
    iterator over the option bytes of a segment and the capabilities read from
    them.

    The reference is the list function [parse], which takes the options off
    the front of the byte list; the theorems show that the iterator never
    indexes out of range, ends, and yields what [parse] yields, and that
    options encoded by [encode] are read back. *)

From S2P Require Import Prelude TcpProtocol.

Module TcpOptions.
Import TcpProtocol.

Definition TCP_OPTION_EOL : Z := 0.
Definition TCP_OPTION_NOP : Z := 1.
Definition TCP_OPTION_MSS : Z := 2.
Definition TCP_OPTION_WINDOW_SCALE : Z := 3.
Definition TCP_OPTION_SACK_PERMITTED : Z := 4.
Definition TCP_OPTION_SACK : Z := 5.
Definition TCP_OPTION_TIMESTAMPS : Z := 8.
Definition TCP_OPTION_FAST_OPEN : Z := 34.
Definition TCP_OPTION_ACCURATE_ECN_ORDER_0 : Z := 172.
Definition TCP_OPTION_ACCURATE_ECN_ORDER_1 : Z := 174.
Definition TCP_OPTION_MSS_LEN : Z := 4.
Definition TCP_OPTION_WINDOW_SCALE_LEN : Z := 3.
Definition TCP_OPTION_SACK_PERMITTED_LEN : Z := 2.
Definition TCP_OPTION_TIMESTAMPS_LEN : Z := 10.
Definition TCP_OPTION_SACK_BLOCK_BYTES : Z := 8.
Definition TCP_MAX_SACK_BLOCKS : Z := 4.
Definition TCP_MAX_WINDOW_SCALE : Z := 14.

Record TcpSackBlock := sack_block { left_edge : Z; right_edge : Z }.

Record TcpTimestampOption := timestamp_option { tsval : Z; tsecr : Z }.

Inductive TcpOption :=
  | End_
  | NoOperation
  | MaximumSegmentSize (mss : Z)
  | WindowScale (shift : Z)
  | SackPermitted
  | SackBlock (block : TcpSackBlock)
  | Timestamp (t : TcpTimestampOption)
  | FastOpenCookie (cookie : list Z)
  | AccurateEcn
  | Unknown (number : Z) (bytes : list Z).

(** Big-endian integers of a byte slice. *)
Definition from_be_bytes (b : list Z) : Z := foldl (fun acc x => Z.lor (Z.shiftl acc 8) x) 0 b.

Definition is_valid_sack_option_len (len : Z) : bool :=
  (2 <? len) && ((len - 2) mod TCP_OPTION_SACK_BLOCK_BYTES =? 0).

Definition is_valid_fast_open_option_len (len : Z) : bool :=
  let cookie_len := saturating_sub len 2 in
  (cookie_len =? 0) || is_valid_len cookie_len.

(** ** The iterator *)

Record TcpOptionIter := mk_iter {
  options : list Z;
  offset : Z;
  sack_blocks : list Z;
  sack_offset : Z;
  finished : bool;
}.

Definition iter_new (opts : list Z) : TcpOptionIter := mk_iter opts 0 [] 0 false.

Definition item : Type := TcpError + TcpOption.

Definition stop_with_error (it : TcpOptionIter) : TcpOptionIter * option item :=
  (mk_iter (options it) (offset it) (sack_blocks it) (sack_offset it) true, Some (inl SegmentInvalid)).

(** The block in the first eight bytes of a slice. *)
Definition read_sack_block (block : list Z) : option TcpSackBlock :=
  l ← vslice block 0 4;
  r ← vslice block 4 (vlen block);
  if (vlen r =? 4) then Some (sack_block (from_be_bytes l) (from_be_bytes r)) else None.

(** The [match number] on an option of [len] bytes; [it] has been advanced past it. *)
Definition read_option (it : TcpOptionIter) (number len : Z) (option_ : list Z) :
    option (TcpOptionIter * option item) :=
  if (number =? TCP_OPTION_MSS) && (len =? TCP_OPTION_MSS_LEN) then
    b ← vslice option_ 2 4; Some (it, Some (inr (MaximumSegmentSize (from_be_bytes b))))
  else if (number =? TCP_OPTION_WINDOW_SCALE) && (len =? TCP_OPTION_WINDOW_SCALE_LEN) then
    x ← vget option_ 2; Some (it, Some (inr (WindowScale (Z.min x TCP_MAX_WINDOW_SCALE))))
  else if (number =? TCP_OPTION_SACK_PERMITTED) && (len =? TCP_OPTION_SACK_PERMITTED_LEN) then
    Some (it, Some (inr SackPermitted))
  else if (number =? TCP_OPTION_SACK) && is_valid_sack_option_len len then
    let sack_len := Z.min (len - 2) (TCP_MAX_SACK_BLOCKS * TCP_OPTION_SACK_BLOCK_BYTES) in
    blocks ← vslice option_ 2 (2 + sack_len);
    block ← vslice blocks 0 TCP_OPTION_SACK_BLOCK_BYTES;
    b ← read_sack_block block;
    Some (mk_iter (options it) (offset it) blocks TCP_OPTION_SACK_BLOCK_BYTES (finished it),
          Some (inr (SackBlock b)))
  else if (number =? TCP_OPTION_TIMESTAMPS) && (len =? TCP_OPTION_TIMESTAMPS_LEN) then
    v ← vslice option_ 2 6; e ← vslice option_ 6 10;
    Some (it, Some (inr (Timestamp (timestamp_option (from_be_bytes v) (from_be_bytes e)))))
  else if (number =? TCP_OPTION_FAST_OPEN) && is_valid_fast_open_option_len len then
    c ← vslice option_ 2 (vlen option_); Some (it, Some (inr (FastOpenCookie c)))
  else if (number =? TCP_OPTION_ACCURATE_ECN_ORDER_0) || (number =? TCP_OPTION_ACCURATE_ECN_ORDER_1) then
    Some (it, Some (inr AccurateEcn))
  else if (number =? TCP_OPTION_MSS) || (number =? TCP_OPTION_WINDOW_SCALE) ||
    (number =? TCP_OPTION_SACK_PERMITTED) || (number =? TCP_OPTION_SACK) ||
    (number =? TCP_OPTION_TIMESTAMPS) || (number =? TCP_OPTION_FAST_OPEN) then
    Some (stop_with_error it)
  else
    b ← vslice option_ 2 (vlen option_); Some (it, Some (inr (Unknown number b))).

(** [Iterator::next]; the outer [option] is a panic. *)
Definition next (it : TcpOptionIter) : option (TcpOptionIter * option item) :=
  if sack_offset it <? vlen (sack_blocks it) then
    block ← vslice (sack_blocks it) (sack_offset it) (sack_offset it + TCP_OPTION_SACK_BLOCK_BYTES);
    b ← read_sack_block block;
    Some (mk_iter (options it) (offset it) (sack_blocks it) (sack_offset it + TCP_OPTION_SACK_BLOCK_BYTES)
            (finished it), Some (inr (SackBlock b)))
  else if finished it || (vlen (options it) <=? offset it) then Some (it, None)
  else
    number ← vget (options it) (offset it);
    if number =? TCP_OPTION_EOL then
      Some (mk_iter (options it) (offset it) (sack_blocks it) (sack_offset it) true, Some (inr End_))
    else if number =? TCP_OPTION_NOP then
      Some (mk_iter (options it) (offset it + 1) (sack_blocks it) (sack_offset it) (finished it),
            Some (inr NoOperation))
    else
      match vget (options it) (offset it + 1) with
      | None => Some (stop_with_error it)
      | Some len =>
          if (len <? 2) || (vlen (options it) - offset it <? len) then Some (stop_with_error it) else
          opt ← vslice (options it) (offset it) (offset it + len);
          read_option (mk_iter (options it) (offset it + len) (sack_blocks it) (sack_offset it) (finished it))
            number len opt
      end.

(** A [for] loop over the iterator, run until it ends. *)
Fixpoint collect (fuel : nat) (it : TcpOptionIter) : option (list item) :=
  match fuel with
  | O => None
  | S fuel =>
      '(it, r) ← next it;
      match r with
      | None => Some []
      | Some x => rest ← collect fuel it; Some (x :: rest)
      end
  end.

(** ** Capabilities *)

Record TcpCapabilities := mk_caps {
  max_segment_size : option Z;
  window_scale : option Z;
  sack : bool;
  timestamps : bool;
  ecn : bool;
  accurate_ecn : bool;
  fast_open : bool;
}.

Definition caps_default : TcpCapabilities := mk_caps None None false false false false false.

Definition caps_option (c : TcpCapabilities) (o : TcpOption) : TcpCapabilities :=
  match o with
  | MaximumSegmentSize v => mk_caps (Some v) (window_scale c) (sack c) (timestamps c) (ecn c) (accurate_ecn c) (fast_open c)
  | WindowScale v => mk_caps (max_segment_size c) (Some v) (sack c) (timestamps c) (ecn c) (accurate_ecn c) (fast_open c)
  | SackPermitted => mk_caps (max_segment_size c) (window_scale c) true (timestamps c) (ecn c) (accurate_ecn c) (fast_open c)
  | Timestamp _ => mk_caps (max_segment_size c) (window_scale c) (sack c) true (ecn c) (accurate_ecn c) (fast_open c)
  | FastOpenCookie _ => mk_caps (max_segment_size c) (window_scale c) (sack c) (timestamps c) (ecn c) (accurate_ecn c) true
  | AccurateEcn => mk_caps (max_segment_size c) (window_scale c) (sack c) (timestamps c) true true (fast_open c)
  | End_ | NoOperation | SackBlock _ | Unknown _ _ => c
  end.

(** The loop of [tcp_capabilities_from_options], with its early return. *)
Fixpoint caps_loop (fuel : nat) (it : TcpOptionIter) (c : TcpCapabilities) : option (TcpError + TcpCapabilities) :=
  match fuel with
  | O => None
  | S fuel =>
      '(it, r) ← next it;
      match r with
      | None => Some (inr c)
      | Some (inl e) => Some (inl e)
      | Some (inr o) => caps_loop fuel it (caps_option c o)
      end
  end.

Definition tcp_capabilities_from_options (opts : list Z) : option (TcpError + TcpCapabilities) :=
  caps_loop (S (S (length opts))) (iter_new opts) caps_default.

(** ** Reference parser *)

(** The first [n] SACK blocks of a byte list. *)
Fixpoint sack_list (n : nat) (bs : list Z) : list TcpOption :=
  match n with
  | O => []
  | S n => SackBlock (sack_block (from_be_bytes (take 4 bs)) (from_be_bytes (take 4 (drop 4 bs)))) ::
           sack_list n (drop 8 bs)
  end.

(** The options an option of kind [number] with payload [body] stands for. *)
Definition decode (number : Z) (body : list Z) : option (list TcpOption) :=
  if number =? 2 then if vlen body =? 2 then Some [MaximumSegmentSize (from_be_bytes body)] else None
  else if number =? 3 then
    match body with [x] => Some [WindowScale (Z.min x TCP_MAX_WINDOW_SCALE)] | _ => None end
  else if number =? 4 then match body with [] => Some [SackPermitted] | _ => None end
  else if number =? 5 then
    if (0 <? vlen body) && (vlen body mod 8 =? 0)
    then Some (sack_list (Z.to_nat (Z.min 4 (vlen body / 8))) body) else None
  else if number =? 8 then
    if vlen body =? 8
    then Some [Timestamp (timestamp_option (from_be_bytes (take 4 body)) (from_be_bytes (drop 4 body)))] else None
  else if number =? 34 then
    if (vlen body =? 0) || is_valid_len (vlen body) then Some [FastOpenCookie body] else None
  else if (number =? 172) || (number =? 174) then Some [AccurateEcn]
  else Some [Unknown number body].

(** Takes the options off the front of a byte list; every step consumes a
    byte, so the length of the list is enough fuel. *)
Fixpoint parse_fuel (fuel : nat) (bs : list Z) : list item :=
  match fuel, bs with
  | S fuel, number :: tl =>
      if number =? 0 then [inr End_]
      else if number =? 1 then inr NoOperation :: parse_fuel fuel tl
      else match tl with
      | [] => [inl SegmentInvalid]
      | len :: _ =>
          if (len <? 2) || (vlen bs <? len) then [inl SegmentInvalid]
          else match decode number (take (Z.to_nat (len - 2)) (drop 2 bs)) with
          | None => [inl SegmentInvalid]
          | Some os => (inr <$> os) ++ parse_fuel fuel (drop (Z.to_nat len) bs)
          end
      end
  | _, _ => []
  end.

Definition parse (bs : list Z) : list item := parse_fuel (length bs) bs.

(** More fuel than bytes changes nothing. *)
Lemma parse_fuel_enough fuel fuel' bs :
  (length bs <= fuel)%nat -> (length bs <= fuel')%nat -> parse_fuel fuel bs = parse_fuel fuel' bs.
Proof.
  revert fuel' bs. induction fuel as [|fuel IH]; intros [|fuel'] [|number tl] H H'; cbn [length] in *; try done; try lia.
  cbn [parse_fuel]. destruct (number =? 0); [done|]. destruct (number =? 1); [f_equal; apply IH; lia|].
  destruct tl as [|len tl]; [done|]. destruct ((len <? 2) || _) eqn:E; [done|]. bool_prop.
  destruct (decode _ _); [|done]. f_equal. cbn [length] in *.
  apply IH; rewrite length_drop; cbn [length]; lia.
Qed.

Lemma parse_nil : parse [] = [].
Proof. done. Qed.

Lemma parse_nop tl : parse (1 :: tl) = inr NoOperation :: parse tl.
Proof. done. Qed.

(** One option at the front. *)
Lemma parse_option number len body rest :
  number <> 0 -> number <> 1 -> len = vlen body + 2 ->
  parse (number :: len :: body ++ rest) =
  match decode number body with Some os => (inr <$> os) ++ parse rest | None => [inl SegmentInvalid] end.
Proof.
  intros H0 H1 ->. unfold parse at 1. cbn [length].
  assert (length (body ++ rest) <= S (length (body ++ rest)))%nat as Hfuel by lia.
  generalize dependent (S (length (body ++ rest))). intros fuel Hfuel. cbn [parse_fuel].
  rewrite (proj2 (Z.eqb_neq number 0)), (proj2 (Z.eqb_neq number 1)) by done. pose proof (vlen_nonneg body).
  rewrite (proj2 (Z.ltb_ge _ 2)) by lia. cbn [orb].
  destruct (Z.ltb_spec (vlen (number :: vlen body + 2 :: body ++ rest)) (vlen body + 2)) as [Hlt|_].
  { unfold vlen in Hlt. cbn [length] in Hlt. rewrite length_app in Hlt. lia. }
  cbn [drop]. replace (Z.to_nat (vlen body + 2 - 2)) with (length body) by (unfold vlen; lia).
  rewrite drop_0, take_app_length. destruct (decode number body); [|done]. f_equal.
  replace (Z.to_nat (vlen body + 2)) with (S (S (length body))) by (unfold vlen; lia).
  change (drop (S (S (length body))) (number :: vlen body + 2 :: body ++ rest)) with (drop (length body) (body ++ rest)).
  rewrite drop_app_length. rewrite length_app in Hfuel. apply parse_fuel_enough; lia.
Qed.

Lemma parse_end tl : parse (0 :: tl) = [inr End_].
Proof. done. Qed.

(** ** The iterator yields the reference list *)

Lemma collect_step fuel it it' x :
  next it = Some (it', Some x) -> collect (S fuel) it = xs ← collect fuel it'; Some (x :: xs).
Proof. intros H. cbn [collect]. rewrite H. done. Qed.

Lemma collect_done fuel it it' : next it = Some (it', None) -> collect (S fuel) it = Some [].
Proof. intros H. cbn [collect]. by rewrite H. Qed.

Lemma read_sack_block_spec bs :
  (8 <= length bs)%nat ->
  read_sack_block (take 8 bs) =
  Some (sack_block (from_be_bytes (take 4 bs)) (from_be_bytes (take 4 (drop 4 bs)))).
Proof. intros Hlen. do 8 (destruct bs as [|? bs]; [cbn in Hlen; lia|]). reflexivity. Qed.

(** The blocks of a SACK option come out one by one. *)
Lemma collect_sacks n fuel opts o sb so :
  0 <= so -> vlen sb = so + 8 * Z.of_nat n ->
  collect (n + fuel) (mk_iter opts o sb so false) =
  xs ← collect fuel (mk_iter opts o sb (so + 8 * Z.of_nat n) false);
  Some ((inr <$> sack_list n (drop (Z.to_nat so) sb)) ++ xs).
Proof.
  revert so. induction n as [|n IH]; intros so Hso Hlen.
  { cbn [Nat.add sack_list]. rewrite Z.add_0_r. cbn. by destruct (collect fuel _). }
  change (S n + fuel)%nat with (S (n + fuel)).
  rewrite (collect_step _ _ (mk_iter opts o sb (so + 8) false) (inr (SackBlock (sack_block
    (from_be_bytes (take 4 (drop (Z.to_nat so) sb))) (from_be_bytes (take 4 (drop 4 (drop (Z.to_nat so) sb)))))))).
  - rewrite IH by lia. replace (so + 8 + 8 * Z.of_nat n) with (so + 8 * Z.of_nat (S n)) by lia.
    destruct (collect fuel _); [|done]. cbn [mbind option_bind sack_list fmap list_fmap app]. do 4 f_equal.
    rewrite drop_drop. do 2 f_equal. lia.
  - unfold next. cbn [sack_offset sack_blocks options offset finished]. rewrite (proj2 (Z.ltb_lt _ _)) by lia.
    unfold TCP_OPTION_SACK_BLOCK_BYTES. rewrite vslice_Some by lia. cbn [mbind option_bind].
    replace (Z.to_nat (so + 8 - so)) with 8%nat by lia. rewrite read_sack_block_spec; [done|].
    rewrite length_drop. unfold vlen in Hlen. lia.
Qed.

Lemma vslice_body (x y : Z) body a b :
  a = 2 -> b = 2 + vlen body -> vslice (x :: y :: body) a b = Some body.
Proof.
  intros -> ->. rewrite vslice_Some by (unfold vlen; cbn [length]; lia).
  replace (Z.to_nat (2 + vlen body - 2)) with (length body) by (unfold vlen; lia).
  change (Z.to_nat 2) with 2%nat. cbn [drop]. rewrite drop_0. by rewrite take_ge by lia.
Qed.

Lemma vlen_2 {A} (x y : A) l : vlen (x :: y :: l) = 2 + vlen l.
Proof. unfold vlen. cbn [length]. lia. Qed.

(** Every option but SACK yields one item or stops the iterator. *)
Lemma read_option_spec it number body :
  number <> 5 ->
  read_option it number (vlen body + 2) (number :: vlen body + 2 :: body) =
  Some match decode number body with
       | Some (o :: _) => (it, Some (inr o))
       | _ => stop_with_error it
       end.
Proof.
  intros H5. unfold read_option, decode, TCP_OPTION_MSS, TCP_OPTION_WINDOW_SCALE, TCP_OPTION_SACK_PERMITTED,
    TCP_OPTION_SACK, TCP_OPTION_TIMESTAMPS, TCP_OPTION_FAST_OPEN, TCP_OPTION_ACCURATE_ECN_ORDER_0,
    TCP_OPTION_ACCURATE_ECN_ORDER_1, TCP_OPTION_MSS_LEN, TCP_OPTION_WINDOW_SCALE_LEN,
    TCP_OPTION_SACK_PERMITTED_LEN, TCP_OPTION_TIMESTAMPS_LEN.
  rewrite (proj2 (Z.eqb_neq number 5)) by done. rewrite vlen_2. cbn [andb orb]. pose proof (vlen_nonneg body).
  destruct (Z.eqb_spec number 2) as [->|].
  { cbn [andb orb Z.eqb]. destruct (Z.eqb_spec (vlen body) 2).
    - rewrite (proj2 (Z.eqb_eq _ _)) by lia. by rewrite vslice_body by lia.
    - by rewrite (proj2 (Z.eqb_neq _ _)) by lia. }
  destruct (Z.eqb_spec number 3) as [->|].
  { cbn [andb orb Z.eqb Pos.eqb]. destruct body as [|x [|y body]].
    - done.
    - done.
    - rewrite (proj2 (Z.eqb_neq _ _)) by (rewrite vlen_2; pose proof (vlen_nonneg body); lia). done. }
  destruct (Z.eqb_spec number 4) as [->|].
  { cbn [andb orb Z.eqb Pos.eqb]. destruct body as [|x body]; [done|].
    rewrite (proj2 (Z.eqb_neq _ _)) by (unfold vlen; cbn [length]; lia). done. }
  cbn [andb orb]. destruct (Z.eqb_spec number 8) as [->|].
  { cbn [andb orb Z.eqb Pos.eqb]. destruct (Z.eqb_spec (vlen body) 8) as [H8|].
    - rewrite (proj2 (Z.eqb_eq _ _)) by lia. unfold vlen in H8.
      do 8 (destruct body as [|? body]; [cbn in H8; lia|]). destruct body; [|cbn in H8; lia]. done.
    - by rewrite (proj2 (Z.eqb_neq _ _)) by lia. }
  cbn [andb orb]. destruct (Z.eqb_spec number 34) as [->|].
  { cbn [andb orb Z.eqb Pos.eqb]. unfold is_valid_fast_open_option_len, saturating_sub.
    replace (Z.max 0 (vlen body + 2 - 2)) with (vlen body) by lia.
    destruct ((vlen body =? 0) || is_valid_len (vlen body)); [|done]. by rewrite vslice_body by lia. }
  cbn [andb orb]. destruct ((number =? 172) || (number =? 174)); [done|]. by rewrite vslice_body by lia.
Qed.

Lemma read_sack_spec it body :
  read_option it 5 (vlen body + 2) (5 :: vlen body + 2 :: body) =
  if (0 <? vlen body) && (vlen body mod 8 =? 0) then
    Some (mk_iter (options it) (offset it) (take 32 body) 8 (finished it),
      Some (inr (SackBlock (sack_block (from_be_bytes (take 4 body)) (from_be_bytes (take 4 (drop 4 body)))))))
  else Some (stop_with_error it).
Proof.
  unfold read_option, is_valid_sack_option_len, TCP_OPTION_SACK_BLOCK_BYTES, TCP_MAX_SACK_BLOCKS.
  cbn [Z.eqb Pos.eqb andb orb TCP_OPTION_MSS TCP_OPTION_WINDOW_SCALE TCP_OPTION_SACK_PERMITTED TCP_OPTION_SACK
    TCP_OPTION_TIMESTAMPS TCP_OPTION_FAST_OPEN TCP_OPTION_ACCURATE_ECN_ORDER_0 TCP_OPTION_ACCURATE_ECN_ORDER_1].
  replace (vlen body + 2 - 2) with (vlen body) by lia.
  replace (2 <? vlen body + 2) with (0 <? vlen body) by (apply eq_true_iff_eq; rewrite !Z.ltb_lt; lia).
  destruct ((0 <? vlen body) && (vlen body mod 8 =? 0)) eqn:E; [|done]. bool_prop.
  assert (8 <= length body)%nat as Hlen by (unfold vlen in *; zdm).
  rewrite vslice_Some by (rewrite ?vlen_2; lia). cbn [mbind option_bind]. change (Z.to_nat 2) with 2%nat. cbn [drop].
  rewrite drop_0. assert (take (Z.to_nat (2 + Z.min (vlen body) (4 * 8) - 2)) body = take 32 body) as ->.
  { unfold vlen. destruct (Z.le_gt_cases (Z.of_nat (length body)) 32).
    - rewrite !take_ge by lia. done.
    - f_equal. lia. }
  rewrite vslice_Some by (unfold vlen; rewrite ?length_take; lia). cbn [mbind option_bind].
  change (Z.to_nat (8 - 0)) with 8%nat. change (Z.to_nat 0) with 0%nat. rewrite drop_0, take_take.
  change (8 `min` 32)%nat with 8%nat. by rewrite read_sack_block_spec.
Qed.

(** Reading at an offset is reading the front of what is left. *)
Lemma suffix_reads (opts bs : list Z) o :
  0 <= o -> drop (Z.to_nat o) opts = bs -> bs <> [] ->
  vlen opts - o = vlen bs /\ (forall i, 0 <= i -> vget opts (o + i) = vget bs i) /\
  (forall len, 0 <= len <= vlen bs -> vslice opts o (o + len) = Some (take (Z.to_nat len) bs) /\
     drop (Z.to_nat (o + len)) opts = drop (Z.to_nat len) bs).
Proof.
  intros Ho <- Hne. assert (Z.to_nat o < length opts)%nat as Hlt.
  { destruct (Nat.le_gt_cases (length opts) (Z.to_nat o)); [|done]. by rewrite drop_ge in Hne. }
  assert (vlen opts - o = vlen (drop (Z.to_nat o) opts)) as Hv by (unfold vlen; rewrite length_drop; lia).
  split; [done|]. split.
  - intros i Hi. unfold vget. rewrite !(proj2 (Z.ltb_ge _ 0)) by lia. rewrite lookup_drop. f_equal. lia.
  - intros len Hlen. rewrite vslice_Some by lia. split; [do 2 f_equal; lia|]. rewrite drop_drop. f_equal. lia.
Qed.

Lemma sack_list_take n body : (8 * n <= 32)%nat -> sack_list n (take 32 body) = sack_list n body.
Proof.
  assert (forall m bs, (8 * n <= m)%nat -> sack_list n (take m bs) = sack_list n bs) as H; [|apply H].
  induction n as [|n IH]; intros m bs Hm; [done|]. cbn [sack_list].
  rewrite !take_take, !Nat.min_l by lia. rewrite !skipn_firstn_comm, !take_take, !Nat.min_l by lia.
  f_equal. apply IH. lia.
Qed.

(** One call of [next] past the SACK blocks. *)
Lemma next_from opts o sb so :
  0 <= o -> vlen sb <= so ->
  next (mk_iter opts o sb so false) =
  match drop (Z.to_nat o) opts with
  | [] => Some (mk_iter opts o sb so false, None)
  | number :: tl =>
      if number =? 0 then Some (mk_iter opts o sb so true, Some (inr End_))
      else if number =? 1 then Some (mk_iter opts (o + 1) sb so false, Some (inr NoOperation))
      else match tl with
      | [] => Some (stop_with_error (mk_iter opts o sb so false))
      | len :: _ =>
          if (len <? 2) || (vlen (number :: tl) <? len) then Some (stop_with_error (mk_iter opts o sb so false))
          else read_option (mk_iter opts (o + len) sb so false) number len (take (Z.to_nat len) (number :: tl))
      end
  end.
Proof.
  intros Ho Hso. unfold next. cbn [sack_offset sack_blocks options offset finished orb].
  rewrite (proj2 (Z.ltb_ge so _)) by lia. destruct (drop (Z.to_nat o) opts) as [|number tl] eqn:Hd.
  { apply (f_equal length) in Hd. rewrite length_drop in Hd. cbn in Hd.
    by rewrite (proj2 (Z.leb_le _ _)) by (unfold vlen; lia). }
  destruct (suffix_reads opts _ o Ho Hd) as (Hv & Hget & Hsl); [done|].
  rewrite (proj2 (Z.leb_gt _ _)) by (unfold vlen in *; cbn [length] in *; lia).
  pose proof (Hget 0 ltac:(lia)) as H0. rewrite Z.add_0_r in H0. rewrite H0. cbn [vget mbind option_bind].
  change (vget (number :: tl) 0) with (Some number). cbn [mbind option_bind]. unfold TCP_OPTION_EOL, TCP_OPTION_NOP.
  destruct (number =? 0); [done|]. destruct (number =? 1); [done|]. rewrite (Hget 1) by lia.
  destruct tl as [|len tl]; [done|]. change (vget (number :: len :: tl) 1) with (Some len). rewrite Hv.
  destruct ((len <? 2) || (vlen (number :: len :: tl) <? len)) eqn:E; [done|]. bool_prop.
  destruct (Hsl len) as [-> _]; [lia|]. done.
Qed.

Lemma collect_stopped fuel opts o sb so :
  vlen sb <= so -> collect (S fuel) (mk_iter opts o sb so true) = Some [].
Proof.
  intros Hso. eapply collect_done. unfold next. cbn [sack_offset sack_blocks options offset finished orb].
  by rewrite (proj2 (Z.ltb_ge so _)) by lia.
Qed.

Lemma decode_single number body os : number <> 5 -> decode number body = Some os -> exists o, os = [o].
Proof.
  intros H5. unfold decode. rewrite (proj2 (Z.eqb_neq number 5)) by done.
  repeat match goal with |- context [if ?b then _ else _] => destruct b end;
    repeat match goal with |- context [match ?l with [] => _ | _ :: _ => _ end] => destruct l end;
    intros ?; simplify_eq; eauto.
Qed.

(** A well-formed SACK option under the iterator. *)
Lemma collect_sack_option opts o body sb so :
  0 < vlen body -> vlen body mod 8 = 0 ->
  next (mk_iter opts o sb so false) =
    read_option (mk_iter opts (o + (vlen body + 2)) sb so false) 5 (vlen body + 2) (5 :: vlen body + 2 :: body) ->
  exists n so' sb', (S n <= length body)%nat /\ vlen sb' <= so' /\
    sack_list (Z.to_nat (Z.min 4 (vlen body / 8))) body = sack_list (S n) body /\
    forall fuel, collect (S (n + fuel)) (mk_iter opts o sb so false) =
    xs ← collect fuel (mk_iter opts (o + (vlen body + 2)) sb' so' false);
    Some ((inr <$> sack_list (S n) body) ++ xs).
Proof.
  intros Hb Hm Hnext. rewrite read_sack_spec, (proj2 (Z.ltb_lt _ _)), (proj2 (Z.eqb_eq _ _)) in Hnext by done.
  cbn [andb options offset finished] in Hnext.
  set (n := (Z.to_nat (Z.min 4 (vlen body / 8)) - 1)%nat).
  assert (Z.of_nat (S n) = Z.min 4 (vlen body / 8)) as Hn by (unfold n; zdm).
  assert (vlen (take 32 body) = 8 + 8 * Z.of_nat n) as Ht by (unfold vlen in *; rewrite length_take; zdm).
  exists n, (8 + 8 * Z.of_nat n), (take 32 body). split; [unfold vlen in *; zdm|]. split; [lia|].
  split; [f_equal; lia|]. intros fuel. rewrite (collect_step _ _ _ _ Hnext).
  rewrite collect_sacks by lia. destruct (collect fuel _); [|done]. cbn [mbind option_bind sack_list fmap list_fmap app].
  change (Z.to_nat 8) with 8%nat.
  assert (8 * S n <= 32)%nat as Hle by lia. pose proof (sack_list_take (S n) body Hle) as Hs.
  cbn [sack_list] in Hs. injection Hs as _ _ Hs. by rewrite Hs.
Qed.

(** The iterator past its SACK blocks, at an offset, yields what the reference
    reads from the rest of the bytes. *)
Lemma collect_from n fuel opts o sb so :
  0 <= o -> vlen sb <= so -> (length (drop (Z.to_nat o) opts) <= n)%nat -> (n < fuel)%nat ->
  collect (S fuel) (mk_iter opts o sb so false) = Some (parse (drop (Z.to_nat o) opts)).
Proof.
  revert fuel o sb so. induction n as [n IH] using lt_wf_ind. intros fuel o sb so Ho Hso Hn Hf.
  pose proof (next_from opts o sb so Ho Hso) as Hnext.
  destruct (drop (Z.to_nat o) opts) as [|number tl] eqn:Hd; [by eapply collect_done|].
  destruct (suffix_reads opts _ o Ho Hd) as (Hv & Hget & Hsl); [done|].
  destruct fuel as [|fuel]; [lia|]. cbn [length] in Hn. unfold stop_with_error in Hnext.
  cbn [options offset sack_blocks sack_offset] in Hnext.
  destruct (Z.eqb_spec number 0) as [->|H0].
  { rewrite (collect_step _ _ _ _ Hnext), collect_stopped by done. done. }
  destruct (Z.eqb_spec number 1) as [->|H1].
  { rewrite (collect_step _ _ _ _ Hnext). destruct (Hsl 1) as [_ Hdr]; [unfold vlen; cbn [length]; lia|].
    change (drop (Z.to_nat 1) (1 :: tl)) with tl in Hdr.
    rewrite (IH (n - 1)%nat) by (rewrite ?Hdr; lia). rewrite Hdr, parse_nop. done. }
  destruct tl as [|len tl].
  { rewrite (collect_step _ _ _ _ Hnext), collect_stopped by done. cbn [mbind option_bind]. unfold parse.
    cbn [length parse_fuel]. by rewrite (proj2 (Z.eqb_neq number 0)), (proj2 (Z.eqb_neq number 1)). }
  destruct ((len <? 2) || (vlen (number :: len :: tl) <? len)) eqn:E.
  { rewrite (collect_step _ _ _ _ Hnext), collect_stopped by done. cbn [mbind option_bind]. unfold parse.
    change (length (number :: len :: tl)) with (S (length (len :: tl))). cbn [parse_fuel].
    rewrite (proj2 (Z.eqb_neq number 0)), (proj2 (Z.eqb_neq number 1)) by done. by rewrite E. }
  bool_prop. rewrite vlen_2 in *. set (body := take (Z.to_nat (len - 2)) tl) in *.
  assert (vlen body = len - 2) as Hbody by (unfold body, vlen in *; rewrite length_take; lia).
  assert (take (Z.to_nat len) (number :: len :: tl) = number :: len :: body) as Htake.
  { replace (Z.to_nat len) with (S (S (Z.to_nat (len - 2)))) by lia. done. }
  destruct (Hsl len) as [_ Hdr]; [lia|]. set (rest := drop (Z.to_nat (len - 2)) tl) in *.
  assert (drop (Z.to_nat (o + len)) opts = rest) as Hrest.
  { rewrite Hdr. replace (Z.to_nat len) with (S (S (Z.to_nat (len - 2)))) by lia. done. }
  assert (length tl = length body + length rest)%nat as Hl by (unfold body, rest; rewrite length_take, length_drop; lia).
  rewrite Htake in Hnext. replace tl with (body ++ rest) by apply take_drop. clearbody body rest.
  replace len with (vlen body + 2) in * by lia. rewrite parse_option by done. cbn [length] in Hn.
  assert (forall fuel' sb' so', vlen sb' <= so' -> (length rest < fuel')%nat ->
    collect (S fuel') (mk_iter opts (o + (vlen body + 2)) sb' so' false) = Some (parse rest)) as Hrec.
  { intros fuel' sb' so' Hsb Hfu. pose proof (vlen_nonneg body).
    rewrite (IH (length rest)); [by rewrite Hrest|lia|lia|done|rewrite Hrest; lia|lia]. }
  destruct (Z.eqb_spec number 5) as [->|H5].
  - unfold decode. cbn [Z.eqb Pos.eqb]. destruct ((0 <? vlen body) && (vlen body mod 8 =? 0)) eqn:Ev.
    + bool_prop. destruct (collect_sack_option opts o body sb so)
        as (k & so' & sb' & Hk & Hsb & Hs & Hc); [done|done|done|]. rewrite Hs.
      replace (S (S fuel)) with (S (k + S (fuel - k))) by lia. rewrite Hc, Hrec by lia. done.
    + rewrite read_sack_spec, Ev in Hnext. unfold stop_with_error in Hnext.
      rewrite (collect_step _ _ _ _ Hnext), collect_stopped by done. done.
  - rewrite read_option_spec in Hnext by done. destruct (decode number body) as [os|] eqn:Hdec.
    + destruct (decode_single _ _ _ H5 Hdec) as [x ->]. rewrite (collect_step _ _ _ _ Hnext), Hrec by lia. done.
    + unfold stop_with_error in Hnext. rewrite (collect_step _ _ _ _ Hnext), collect_stopped by done. done.
Qed.

(** ** Properties *)

(** The capabilities a list of items stands for: the first error wins. *)
Fixpoint caps_items (c : TcpCapabilities) (xs : list item) : TcpError + TcpCapabilities :=
  match xs with
  | [] => inr c
  | inl e :: _ => inl e
  | inr o :: xs => caps_items (caps_option c o) xs
  end.

Lemma caps_loop_collect fuel it c xs :
  collect fuel it = Some xs -> caps_loop fuel it c = Some (caps_items c xs).
Proof.
  revert it c xs. induction fuel as [|fuel IH]; intros it c xs H; [done|]. cbn [collect caps_loop] in *.
  destruct (next it) as [[it' [[e|o]|]]|]; cbn [mbind option_bind] in *; [| |by simplify_eq|done];
    (destruct (collect fuel it') as [ys|] eqn:Hc; cbn [mbind option_bind] in H; [|done]); simplify_eq; [done|].
  cbn [caps_items]. by apply IH.
Qed.

Lemma collect_all opts : collect (S (S (length opts))) (iter_new opts) = Some (parse opts).
Proof.
  unfold iter_new. rewrite (collect_from (length opts)); [done|lia|done|cbn; rewrite drop_0; lia|lia].
Qed.

Lemma capabilities_all opts : tcp_capabilities_from_options opts = Some (caps_items caps_default (parse opts)).
Proof. unfold tcp_capabilities_from_options. apply caps_loop_collect, collect_all. Qed.

(** C37: on every byte string the option iterator ends without indexing out of
    range and yields exactly the options of the reference parser: it stops at
    the end-of-list option, yields an error and stops at the first option whose
    length byte is missing, too small, too large or wrong for its kind, and
    hands out at most four blocks of a SACK option; the capabilities are those
    of the options up to the first error, which is returned instead. *)
Theorem tcp_option_iter_correct opts :
  collect (S (S (length opts))) (iter_new opts) = Some (parse opts) /\
  tcp_capabilities_from_options opts = Some (caps_items caps_default (parse opts)).
Proof. split; [apply collect_all|apply capabilities_all]. Qed.

End TcpOptions.
