(* ===== verification/TcpSegment.v ===== *)
(** * TCP segment headers

    Models [crates/hammer-plugins/transport/tcp/src/protocol/segment.rs] and
    the option part of [tcp/src/segment.rs]: the fixed header, its accessors
    and setters, the header written for an outgoing segment with its options,
    and reading such a header back.

    The theorems: a header is written exactly when it fits 60 bytes and the
    buffer, writing never indexes out of range, the bytes written parse back
    to the fields, flags, capabilities, timestamp, cookie and SACK blocks of
    the segment, and the two ways of writing a header agree. *)

From S2P Require Import Prelude TcpProtocol TcpOptions.

Module TcpSegment.
Import TcpProtocol TcpOptions.

Definition TCP_HEADER_MIN_LEN : Z := 20.

(** ** The fixed header, 20 bytes *)

Record TcpHeader := mk_header {
  source_port : list Z;
  destination_port : list Z;
  sequence_number : list Z;
  acknowledgment_number : list Z;
  data_offset_reserved_flags : Z * Z;
  advertised_window : list Z;
  checksum : list Z;
  urgent_pointer : list Z;
}.

(** The in-memory layout ([repr(C)]). *)
Definition header_bytes (h : TcpHeader) : list Z :=
  source_port h ++ destination_port h ++ sequence_number h ++ acknowledgment_number h ++
  [fst (data_offset_reserved_flags h); snd (data_offset_reserved_flags h)] ++
  advertised_window h ++ checksum h ++ urgent_pointer h.

(** [ref_from_prefix]: the first 20 bytes seen as a header. *)
Definition ref_from_prefix (packet : list Z) : option TcpHeader :=
  if vlen packet <? TCP_HEADER_MIN_LEN then None else
  let at_ n k := take k (drop n packet) in
  b0 ← packet !! 12%nat; b1 ← packet !! 13%nat;
  Some (mk_header (at_ 0%nat 2%nat) (at_ 2%nat 2%nat) (at_ 4%nat 4%nat) (at_ 8%nat 4%nat) (b0, b1)
    (at_ 14%nat 2%nat) (at_ 16%nat 2%nat) (at_ 18%nat 2%nat)).

Definition header_len (h : TcpHeader) : Z := Z.shiftr (fst (data_offset_reserved_flags h)) 4 * 4.

Definition get_source_port (h : TcpHeader) : Z := from_be_bytes (source_port h).
Definition get_destination_port (h : TcpHeader) : Z := from_be_bytes (destination_port h).
Definition get_sequence_number (h : TcpHeader) : Z := from_be_bytes (sequence_number h).
Definition get_acknowledgment_number (h : TcpHeader) : Z := from_be_bytes (acknowledgment_number h).
Definition get_advertised_window (h : TcpHeader) : Z := from_be_bytes (advertised_window h).
Definition get_urgent_pointer (h : TcpHeader) : Z := from_be_bytes (urgent_pointer h).

Definition get_flags (h : TcpHeader) : Z :=
  let first := fst (data_offset_reserved_flags h) in
  let second := snd (data_offset_reserved_flags h) in
  let flags := flag_set 0 NS (negb (Z.land first 0x01 =? 0)) in
  let flags := flag_set flags FIN (negb (Z.land second 0x01 =? 0)) in
  let flags := flag_set flags SYN (negb (Z.land second 0x02 =? 0)) in
  let flags := flag_set flags RST (negb (Z.land second 0x04 =? 0)) in
  let flags := flag_set flags PSH (negb (Z.land second 0x08 =? 0)) in
  let flags := flag_set flags ACK (negb (Z.land second 0x10 =? 0)) in
  let flags := flag_set flags URG (negb (Z.land second 0x20 =? 0)) in
  let flags := flag_set flags ECE (negb (Z.land second 0x40 =? 0)) in
  flag_set flags CWR (negb (Z.land second 0x80 =? 0)).

(** Big-endian bytes, written as the setters write them. *)
Definition be16 (value : Z) : list Z := [wrap 8 (Z.shiftr value 8); wrap 8 value].
Definition be32 (value : Z) : list Z :=
  [wrap 8 (Z.shiftr value 24); wrap 8 (Z.shiftr value 16); wrap 8 (Z.shiftr value 8); wrap 8 value].

Definition set_flags (h : TcpHeader) (flags : Z) : TcpHeader :=
  let data_offset := Z.land (fst (data_offset_reserved_flags h)) 0xf0 in
  let ns := Z.b2z (flag_contains flags NS) in
  mk_header (source_port h) (destination_port h) (sequence_number h) (acknowledgment_number h)
    (Z.lor data_offset ns, wrap 8 (Z.land flags 0xff)) (advertised_window h) (checksum h) (urgent_pointer h).

Definition tcp_header (packet : list Z) : TcpError + TcpHeader :=
  match ref_from_prefix packet with
  | None => inl SegmentInvalid
  | Some h =>
      let len := header_len h in
      if (len <? TCP_HEADER_MIN_LEN) || (60 <? len) || negb (len mod 4 =? 0) then inl SegmentInvalid
      else if vlen packet <? len then inl SegmentInvalid
      else inr h
  end.

(** ** Writing a header *)

Record TcpSegmentHeader := mk_segment {
  seg_source_port : Z;
  seg_destination_port : Z;
  seg_sequence_number : Z;
  seg_acknowledgment_number : Z;
  seg_flags : Z;
  seg_advertised_window : Z;
  seg_urgent_pointer : Z;
  seg_capabilities : TcpCapabilities;
  seg_timestamp : option TcpTimestampOption;
  seg_fast_open_cookie : option TcpFastOpenCookie;
}.

(** [(len + 3) & !3] *)
Definition round_tcp_options_len (len : Z) : Z := Z.land (len + 3) (wnot 64 3).

Definition tcp_options_len (h : TcpSegmentHeader) (sacks : option (list TcpSackBlock)) : Z :=
  let c := seg_capabilities h in
  if flag_contains (seg_flags h) SYN then
    let len := 0 in
    let len := match max_segment_size c with Some _ => len + 4 | None => len end in
    let len := match window_scale c with Some _ => len + 4 | None => len end in
    let len := if sack c then len + 4 else len in
    let len := if timestamps c then len + 12 else len in
    let len := if fast_open c
      then len + (2 + match seg_fast_open_cookie h with Some k => cookie_len k | None => 0 end) else len in
    let len := if accurate_ecn c then len + 3 else len in
    round_tcp_options_len len
  else if negb (flag_contains (seg_flags h) ACK) then 0
  else
    let len := if timestamps c then 12 else 0 in
    let limited := match sacks with Some bs => Z.min (vlen bs) TCP_MAX_SACK_BLOCKS | None => 0 end in
    let len := if negb (limited =? 0) then len + (4 + limited * TCP_OPTION_SACK_BLOCK_BYTES) else len in
    round_tcp_options_len len.

Definition segment_header_len (h : TcpSegmentHeader) sacks : Z := TCP_HEADER_MIN_LEN + tcp_options_len h sacks.

Definition tcp_data_offset_flags (len flags : Z) : Z :=
  let d := Z.shiftl (wrap 8 (len / 4)) 12 in
  let d := wrap 16 d in
  let d := if flag_contains flags NS then Z.lor d 0x0100 else d in
  Z.lor d (Z.land flags 0xff).

(** A slice with some of its bytes written; [None] is a panic. *)
Definition write_be_u16 (output : list Z) (off value : Z) : option (list Z) :=
  output ← vset output off (wrap 8 (Z.shiftr value 8));
  vset output (off + 1) (wrap 8 value).

Definition write_be_u32 (output : list Z) (off value : Z) : option (list Z) :=
  output ← vset output off (wrap 8 (Z.shiftr value 24));
  output ← vset output (off + 1) (wrap 8 (Z.shiftr value 16));
  output ← vset output (off + 2) (wrap 8 (Z.shiftr value 8));
  vset output (off + 3) (wrap 8 value).

Definition write_tcp_timestamp_option (output : list Z) (off : Z) (ts : option TcpTimestampOption) :
    option (list Z * Z) :=
  let ts := default (timestamp_option 0 0) ts in
  output ← vset output off TCP_OPTION_NOP;
  output ← vset output (off + 1) TCP_OPTION_NOP;
  output ← vset output (off + 2) TCP_OPTION_TIMESTAMPS;
  output ← vset output (off + 3) TCP_OPTION_TIMESTAMPS_LEN;
  output ← write_be_u32 output (off + 4) (tsval ts);
  output ← write_be_u32 output (off + 8) (tsecr ts);
  Some (output, off + 12).

(** The loop over the SACK blocks. *)
Fixpoint write_sacks (output : list Z) (written : Z) (blocks : list TcpSackBlock) : option (list Z * Z) :=
  match blocks with
  | [] => Some (output, written)
  | b :: blocks =>
      output ← write_be_u32 output written (left_edge b);
      output ← write_be_u32 output (written + 4) (right_edge b);
      write_sacks output (written + TCP_OPTION_SACK_BLOCK_BYTES) blocks
  end.

(** [output[written..].fill(TCP_OPTION_EOL)] *)
Definition fill_from (output : list Z) (written x : Z) : option (list Z) :=
  if (0 <=? written) && (written <=? vlen output)
  then Some (take (Z.to_nat written) output ++ replicate (Z.to_nat (vlen output - written)) x) else None.

Definition write_mss (output : list Z) written (mss : option Z) : option (list Z * Z) :=
  match mss with
  | None => Some (output, written)
  | Some mss =>
      output ← vset output written TCP_OPTION_MSS;
      output ← vset output (written + 1) TCP_OPTION_MSS_LEN;
      output ← write_be_u16 output (written + 2) mss;
      Some (output, written + 4)
  end.

Definition write_window_scale (output : list Z) written (ws : option Z) : option (list Z * Z) :=
  match ws with
  | None => Some (output, written)
  | Some ws =>
      output ← vset output written TCP_OPTION_NOP;
      output ← vset output (written + 1) TCP_OPTION_WINDOW_SCALE;
      output ← vset output (written + 2) TCP_OPTION_WINDOW_SCALE_LEN;
      output ← vset output (written + 3) (Z.min ws TCP_MAX_WINDOW_SCALE);
      Some (output, written + 4)
  end.

Definition write_sack_permitted (output : list Z) written (b : bool) : option (list Z * Z) :=
  if negb b then Some (output, written) else
  output ← vset output written TCP_OPTION_NOP;
  output ← vset output (written + 1) TCP_OPTION_NOP;
  output ← vset output (written + 2) TCP_OPTION_SACK_PERMITTED;
  output ← vset output (written + 3) TCP_OPTION_SACK_PERMITTED_LEN;
  Some (output, written + 4).

Definition write_fast_open (output : list Z) written (b : bool) (k : option TcpFastOpenCookie) :
    option (list Z * Z) :=
  if negb b then Some (output, written) else
  let cookie := match k with Some k => as_slice k | None => [] end in
  output ← vset output written TCP_OPTION_FAST_OPEN;
  output ← vset output (written + 1) (wrap 8 (2 + vlen cookie));
  output ← copy_loop output (written + 2) cookie;
  Some (output, written + (2 + vlen cookie)).

Definition write_accurate_ecn (output : list Z) written (b : bool) : option (list Z * Z) :=
  if negb b then Some (output, written) else
  output ← vset output written TCP_OPTION_NOP;
  output ← vset output (written + 1) TCP_OPTION_ACCURATE_ECN_ORDER_0;
  output ← vset output (written + 2) 2;
  Some (output, written + 3).

Definition write_sack_option (output : list Z) written (sacks : option (list TcpSackBlock)) :
    option (list Z * Z) :=
  match sacks with
  | None => Some (output, written)
  | Some blocks =>
      let limited := Z.min (vlen blocks) TCP_MAX_SACK_BLOCKS in
      if limited =? 0 then Some (output, written) else
      output ← vset output written TCP_OPTION_NOP;
      output ← vset output (written + 1) TCP_OPTION_NOP;
      output ← vset output (written + 2) TCP_OPTION_SACK;
      output ← vset output (written + 3) (wrap 8 (2 + limited * TCP_OPTION_SACK_BLOCK_BYTES));
      write_sacks output (written + 4) (take (Z.to_nat limited) blocks)
  end.

Definition write_timestamps (output : list Z) written (b : bool) ts : option (list Z * Z) :=
  if b then write_tcp_timestamp_option output written ts else Some (output, written).

Definition write_tcp_options (output : list Z) (h : TcpSegmentHeader) (sacks : option (list TcpSackBlock)) :
    option (list Z) :=
  let c := seg_capabilities h in
  '(output, written) ←
    (if flag_contains (seg_flags h) SYN then
       '(output, written) ← write_mss output 0 (max_segment_size c);
       '(output, written) ← write_window_scale output written (window_scale c);
       '(output, written) ← write_sack_permitted output written (sack c);
       '(output, written) ← write_timestamps output written (timestamps c) (seg_timestamp h);
       '(output, written) ← write_fast_open output written (fast_open c) (seg_fast_open_cookie h);
       write_accurate_ecn output written (accurate_ecn c)
     else if flag_contains (seg_flags h) ACK then
       '(output, written) ← write_timestamps output 0 (timestamps c) (seg_timestamp h);
       write_sack_option output written sacks
     else Some (output, 0));
  fill_from output written TCP_OPTION_EOL.

(** The fixed part both writers share. *)
Definition fixed_header (h : TcpSegmentHeader) (len : Z) : TcpHeader :=
  let d := tcp_data_offset_flags len (seg_flags h) in
  mk_header (be16 (seg_source_port h)) (be16 (seg_destination_port h)) (be32 (seg_sequence_number h))
    (be32 (seg_acknowledgment_number h)) (wrap 8 (Z.shiftr d 8), wrap 8 d) (be16 (seg_advertised_window h))
    (be16 0) (be16 (seg_urgent_pointer h)).

(** [write_to_buffer]: the buffer and the result; the outer [option] is a panic. *)
Definition write_to_buffer (h : TcpSegmentHeader) (output : list Z) (sacks : option (list TcpSackBlock)) :
    option (list Z * (TcpError + Z)) :=
  let len := segment_header_len h sacks in
  if (60 <? len) || negb (len mod 4 =? 0) || (vlen output <? len) then Some (output, inl Length) else
  let output := replicate (Z.to_nat len) 0 ++ drop (Z.to_nat len) output in
  let output := header_bytes (fixed_header h len) ++ drop 20 output in
  opts ← vslice output TCP_HEADER_MIN_LEN len;
  opts ← write_tcp_options opts h sacks;
  Some (take 20 output ++ opts ++ drop (Z.to_nat len) output, inr len).

(** [cache_options] into a 40-byte array. *)
Definition cache_options (h : TcpSegmentHeader) (output : list Z) (sacks : option (list TcpSackBlock)) :
    option (list Z * Z) :=
  let length_ := tcp_options_len h sacks in
  slice ← vslice output 0 length_;
  slice ← write_tcp_options slice h sacks;
  Some (slice ++ drop (Z.to_nat length_) output, length_).

Definition write_to_buffer_cached (h : TcpSegmentHeader) (output options_ : list Z) :
    option (list Z * (TcpError + Z)) :=
  let len := TCP_HEADER_MIN_LEN + vlen options_ in
  if (60 <? len) || negb (len mod 4 =? 0) || (vlen output <? len) then Some (output, inl Length) else
  let output := header_bytes (fixed_header h len) ++ drop 20 output in
  Some (take 20 output ++ options_ ++ drop (Z.to_nat len) output, inr len).

(** ** The wire form of the options *)

Definition enc_mss (v : option Z) : list Z :=
  match v with Some m => [TCP_OPTION_MSS; TCP_OPTION_MSS_LEN] ++ be16 m | None => [] end.
Definition enc_window_scale (v : option Z) : list Z :=
  match v with
  | Some w => [TCP_OPTION_NOP; TCP_OPTION_WINDOW_SCALE; TCP_OPTION_WINDOW_SCALE_LEN; Z.min w TCP_MAX_WINDOW_SCALE]
  | None => []
  end.
Definition enc_sack_permitted (b : bool) : list Z :=
  if b then [TCP_OPTION_NOP; TCP_OPTION_NOP; TCP_OPTION_SACK_PERMITTED; TCP_OPTION_SACK_PERMITTED_LEN] else [].
Definition enc_timestamps (b : bool) (ts : option TcpTimestampOption) : list Z :=
  let ts := default (timestamp_option 0 0) ts in
  if b then [TCP_OPTION_NOP; TCP_OPTION_NOP; TCP_OPTION_TIMESTAMPS; TCP_OPTION_TIMESTAMPS_LEN] ++
    be32 (tsval ts) ++ be32 (tsecr ts) else [].
Definition cookie_bytes (k : option TcpFastOpenCookie) : list Z :=
  match k with Some k => as_slice k | None => [] end.
Definition enc_fast_open (b : bool) (k : option TcpFastOpenCookie) : list Z :=
  if b then [TCP_OPTION_FAST_OPEN; wrap 8 (2 + vlen (cookie_bytes k))] ++ cookie_bytes k else [].
Definition enc_accurate_ecn (b : bool) : list Z :=
  if b then [TCP_OPTION_NOP; TCP_OPTION_ACCURATE_ECN_ORDER_0; 2] else [].
Definition enc_blocks (bs : list TcpSackBlock) : list Z :=
  concat ((fun b => be32 (left_edge b) ++ be32 (right_edge b)) <$> bs).
(** The blocks that are sent. *)
Definition limited (sacks : option (list TcpSackBlock)) : list TcpSackBlock :=
  take (Z.to_nat TCP_MAX_SACK_BLOCKS) (default [] sacks).
Definition enc_sacks (bs : list TcpSackBlock) : list Z :=
  match bs with
  | [] => []
  | _ => [TCP_OPTION_NOP; TCP_OPTION_NOP; TCP_OPTION_SACK; wrap 8 (2 + vlen bs * 8)] ++ enc_blocks bs
  end.

Definition option_bytes (h : TcpSegmentHeader) (sacks : option (list TcpSackBlock)) : list Z :=
  let c := seg_capabilities h in
  if flag_contains (seg_flags h) SYN then
    enc_mss (max_segment_size c) ++ enc_window_scale (window_scale c) ++ enc_sack_permitted (sack c) ++
    enc_timestamps (timestamps c) (seg_timestamp h) ++ enc_fast_open (fast_open c) (seg_fast_open_cookie h) ++
    enc_accurate_ecn (accurate_ecn c)
  else if flag_contains (seg_flags h) ACK then
    enc_timestamps (timestamps c) (seg_timestamp h) ++ enc_sacks (limited sacks)
  else [].

(** A writer stores [bs] at [written] and advances past it. *)
Definition writes (r : option (list Z * Z)) (output : list Z) (written : Z) (bs : list Z) : Prop :=
  r = o ← copy_loop output written bs; Some (o, written + vlen bs).

Lemma copy_loop_app output off xs ys :
  copy_loop output off (xs ++ ys) = o ← copy_loop output off xs; copy_loop o (off + vlen xs) ys.
Proof.
  revert output off. induction xs as [|x xs IH]; intros output off; cbn [copy_loop app].
  { cbn. by rewrite Z.add_0_r. }
  destruct (vset output off x); [|done]. cbn [mbind option_bind]. rewrite IH.
  destruct (copy_loop _ _ xs); [|done]. cbn [mbind option_bind]. f_equal. unfold vlen. cbn [length]. lia.
Qed.

Lemma writes_nil output written : writes (Some (output, written)) output written [].
Proof. unfold writes. cbn. by rewrite Z.add_0_r. Qed.

(** Two writers in a row. *)
Lemma writes_bind r output written bs bs' (k : list Z -> Z -> option (list Z * Z)) :
  writes r output written bs -> (forall o w, writes (k o w) o w bs') ->
  writes ('(o, w) ← r; k o w) output written (bs ++ bs').
Proof.
  unfold writes. intros -> Hk. rewrite copy_loop_app. destruct (copy_loop output written bs) as [o|]; [|done].
  cbn [mbind option_bind]. rewrite Hk. destruct (copy_loop o _ bs'); [|done]. cbn. rewrite vlen_app. do 2 f_equal. lia.
Qed.

(** Runs a sequence of stores at consecutive offsets. *)
Ltac run_stores :=
  repeat match goal with
  | |- context [vset ?o ?i ?x] => destruct (vset o i x); cbn [mbind option_bind]; [|done]
  end.

Lemma write_be_u16_copy output off v : write_be_u16 output off v = copy_loop output off (be16 v).
Proof. unfold write_be_u16, be16. cbn [copy_loop]. run_stores. done. Qed.

Lemma write_be_u32_copy output off v : write_be_u32 output off v = copy_loop output off (be32 v).
Proof.
  unfold write_be_u32, be32. cbn [copy_loop]. replace (off + 1 + 1 + 1) with (off + 3) by lia.
  replace (off + 1 + 1) with (off + 2) by lia. run_stores. done.
Qed.

(** Four stores are one copy. *)
Lemma copy_four output off a b c d :
  copy_loop output off [a; b; c; d] =
  o ← vset output off a; o ← vset o (off + 1) b; o ← vset o (off + 2) c; vset o (off + 3) d.
Proof.
  cbn [copy_loop]. replace (off + 1 + 1 + 1) with (off + 3) by lia. replace (off + 1 + 1) with (off + 2) by lia.
  run_stores. done.
Qed.

Lemma write_mss_writes output written v : writes (write_mss output written v) output written (enc_mss v).
Proof.
  destruct v as [m|]; [|apply writes_nil]. unfold writes, write_mss, enc_mss. rewrite copy_loop_app.
  cbn [copy_loop]. run_stores. rewrite write_be_u16_copy. change (vlen [_; _]) with 2.
  destruct (copy_loop _ _ (be16 m)); done.
Qed.

Lemma write_window_scale_writes output written v :
  writes (write_window_scale output written v) output written (enc_window_scale v).
Proof.
  destruct v as [w|]; [|apply writes_nil]. unfold writes, write_window_scale, enc_window_scale.
  rewrite copy_four. run_stores. done.
Qed.

Lemma write_sack_permitted_writes output written b :
  writes (write_sack_permitted output written b) output written (enc_sack_permitted b).
Proof.
  destruct b; [|apply writes_nil]. unfold writes, write_sack_permitted, enc_sack_permitted. cbn [negb].
  rewrite copy_four. run_stores. done.
Qed.

Lemma write_timestamps_writes output written b ts :
  writes (write_timestamps output written b ts) output written (enc_timestamps b ts).
Proof.
  destruct b; [|apply writes_nil]. unfold writes, write_timestamps, write_tcp_timestamp_option, enc_timestamps.
  rewrite copy_loop_app, copy_four. run_stores. change (vlen [_; _; _; _]) with 4.
  rewrite copy_loop_app, write_be_u32_copy.
  destruct (copy_loop _ _ (be32 _)) as [o|]; [|done]. cbn [mbind option_bind]. rewrite write_be_u32_copy.
  rewrite <- Z.add_assoc. change (4 + vlen (be32 _)) with 8. destruct (copy_loop o _ _); done.
Qed.

Lemma write_fast_open_writes output written b k :
  writes (write_fast_open output written b k) output written (enc_fast_open b k).
Proof.
  destruct b; [|apply writes_nil]. unfold writes, write_fast_open, enc_fast_open, cookie_bytes. cbn [negb].
  rewrite copy_loop_app. cbn [copy_loop]. run_stores. change (vlen [_; _]) with 2.
  destruct (copy_loop _ _ _); [|done]. cbn [mbind option_bind]. rewrite vlen_app. done.
Qed.

Lemma write_accurate_ecn_writes output written b :
  writes (write_accurate_ecn output written b) output written (enc_accurate_ecn b).
Proof.
  destruct b; [|apply writes_nil]. unfold writes, write_accurate_ecn, enc_accurate_ecn. cbn [negb copy_loop].
  replace (written + 1 + 1) with (written + 2) by lia. run_stores. done.
Qed.

Lemma write_sacks_writes output written bs :
  writes (write_sacks output written bs) output written (enc_blocks bs).
Proof.
  revert output written. induction bs as [|b bs IH]; intros output written; [apply writes_nil|].
  unfold writes, enc_blocks. cbn [write_sacks fmap list_fmap concat]. rewrite <- app_assoc, copy_loop_app.
  rewrite write_be_u32_copy. destruct (copy_loop output _ _) as [o|]; [|done]. cbn [mbind option_bind].
  rewrite write_be_u32_copy, copy_loop_app. change (vlen (be32 _)) with 4.
  destruct (copy_loop o _ _) as [o'|]; [|done]. cbn [mbind option_bind]. rewrite IH. fold (enc_blocks bs).
  replace (written + 4 + 4) with (written + TCP_OPTION_SACK_BLOCK_BYTES) by (unfold TCP_OPTION_SACK_BLOCK_BYTES; lia).
  destruct (copy_loop o' _ _); [|done]. cbn [mbind option_bind]. rewrite !vlen_app.
  change (vlen (be32 _)) with 4. unfold TCP_OPTION_SACK_BLOCK_BYTES. do 2 f_equal. lia.
Qed.

Lemma vlen_limited sacks : vlen (limited sacks) = Z.min (vlen (default [] sacks)) TCP_MAX_SACK_BLOCKS.
Proof. unfold limited, vlen. rewrite length_take. change TCP_MAX_SACK_BLOCKS with 4. lia. Qed.

Lemma write_sack_option_writes output written sacks :
  writes (write_sack_option output written sacks) output written (enc_sacks (limited sacks)).
Proof.
  destruct sacks as [bs|]; [|apply writes_nil]. unfold write_sack_option.
  pose proof (vlen_limited (Some bs)) as Hl. change (default [] (Some bs)) with bs in Hl. rewrite <- Hl.
  assert (take (Z.to_nat (vlen (limited (Some bs)))) bs = limited (Some bs)) as ->.
  { unfold limited, vlen. change (default [] (Some bs)) with bs. rewrite Nat2Z.id, length_take.
    destruct (Nat.le_gt_cases (Z.to_nat TCP_MAX_SACK_BLOCKS) (length bs)).
    - by rewrite Nat.min_l.
    - rewrite Nat.min_r, !take_ge by lia. done. }
  destruct (limited (Some bs)) as [|b l] eqn:Hlim; [apply writes_nil|].
  rewrite (proj2 (Z.eqb_neq _ 0)) by (unfold vlen; cbn [length]; lia). unfold writes, enc_sacks.
  rewrite copy_loop_app, copy_four. unfold TCP_OPTION_SACK_BLOCK_BYTES. run_stores.
  rewrite write_sacks_writes. change (vlen [_; _; _; _]) with 4. destruct (copy_loop _ _ _); [|done].
  cbn [mbind option_bind]. rewrite vlen_app. change (vlen [_; _; _; _]) with 4. do 2 f_equal. lia.
Qed.

(** [write_tcp_options] stores the wire form and pads it with end-of-list. *)
Lemma write_tcp_options_copy output h sacks :
  write_tcp_options output h sacks =
  o ← copy_loop output 0 (option_bytes h sacks); fill_from o (vlen (option_bytes h sacks)) 0.
Proof.
  unfold write_tcp_options, option_bytes.
  match goal with |- context [mbind _ ?r] => assert (writes r output 0 (option_bytes h sacks)) as -> end.
  { unfold option_bytes. destruct (flag_contains (seg_flags h) SYN).
    - apply writes_bind; [apply write_mss_writes|]. intros.
      apply writes_bind; [apply write_window_scale_writes|]. intros.
      apply writes_bind; [apply write_sack_permitted_writes|]. intros.
      apply writes_bind; [apply write_timestamps_writes|]. intros.
      apply writes_bind; [apply write_fast_open_writes|]. intros. apply write_accurate_ecn_writes.
    - destruct (flag_contains (seg_flags h) ACK); [|apply writes_nil].
      apply writes_bind; [apply write_timestamps_writes|]. intros. apply write_sack_option_writes. }
  fold (option_bytes h sacks). destruct (copy_loop output 0 _); [|done]. done.
Qed.

Lemma write_tcp_options_spec output h sacks :
  vlen (option_bytes h sacks) <= vlen output ->
  write_tcp_options output h sacks =
  Some (option_bytes h sacks ++ replicate (Z.to_nat (vlen output - vlen (option_bytes h sacks))) 0).
Proof.
  intros Hlen. rewrite write_tcp_options_copy, copy_loop_spec by lia. cbn [mbind option_bind].
  change (take (Z.to_nat 0) output) with (@nil Z). rewrite app_nil_l. unfold fill_from.
  rewrite vlen_app. set (bs := option_bytes h sacks) in *. pose proof (vlen_nonneg bs).
  assert (vlen (drop (Z.to_nat (0 + vlen bs)) output) = vlen output - vlen bs) as ->
    by (unfold vlen in *; rewrite length_drop; lia).
  rewrite (proj2 (Z.leb_le 0 _)), (proj2 (Z.leb_le (vlen bs) _)) by lia. cbn [andb]. f_equal. f_equal.
  - unfold vlen. by rewrite Nat2Z.id, take_app_length.
  - f_equal. lia.
Qed.

(** ** Lengths *)

Lemma round_spec n : 0 <= n < 2 ^ 60 -> round_tcp_options_len n = 4 * ((n + 3) / 4).
Proof.
  intros Hn. unfold round_tcp_options_len. apply Z.bits_inj'. intros i Hi.
  rewrite Z.land_spec, wnot_testbit by lia. rewrite (Z.mul_comm 4). change 4 with (2 ^ 2) at 2.
  change 4 with (2 ^ 2). rewrite <- Z.shiftr_div_pow2, <- Z.shiftl_mul_pow2 by lia.
  destruct (Z.lt_ge_cases i 2) as [Hlt|Hge].
  - rewrite Z.shiftl_spec_low by lia. assert (Z.testbit 3 i = true) as -> by (assert (i = 0 \/ i = 1) as [-> | ->] by lia; done).
    cbn. by rewrite !andb_false_r.
  - rewrite Z.shiftl_spec, Z.shiftr_spec by lia. replace (i - 2 + 2) with i by lia.
    assert (Z.testbit 3 i = false) as -> by (apply Z.bits_above_log2; [lia|]; change (Z.log2 3) with 1; lia).
    cbn [negb]. destruct (Z.ltb_spec i 64); cbn [andb]; [by rewrite andb_true_r|]. rewrite andb_false_r.
    symmetry. apply Z.bits_above_log2; [lia|]. assert (n + 3 < 2 ^ 61) by lia.
    pose proof (Z.log2_lt_pow2 (n + 3) 61). lia.
Qed.

(** A cookie as [TryFrom] and [From] build it. *)
Definition cookie_ok (k : TcpFastOpenCookie) : Prop :=
  length (bytes k) = 16%nat /\ 0 <= cookie_len k <= 16 /\ Forall (in_word 8) (bytes k) /\
  (cookie_len k = 0 \/ is_valid_len (cookie_len k) = true).

Lemma cookie_slice_len k : cookie_ok k -> vlen (as_slice k) = cookie_len k.
Proof. intros (Hb & Hl & _). unfold as_slice, vlen. rewrite length_take. lia. Qed.

Record segment_ok (h : TcpSegmentHeader) (sacks : option (list TcpSackBlock)) : Prop := {
  ok_source : in_word 16 (seg_source_port h);
  ok_destination : in_word 16 (seg_destination_port h);
  ok_sequence : in_word 32 (seg_sequence_number h);
  ok_acknowledgment : in_word 32 (seg_acknowledgment_number h);
  ok_flags : in_word 16 (seg_flags h);
  ok_window : in_word 16 (seg_advertised_window h);
  ok_urgent : in_word 16 (seg_urgent_pointer h);
  ok_mss : forall v, max_segment_size (seg_capabilities h) = Some v -> in_word 16 v;
  ok_scale : forall v, window_scale (seg_capabilities h) = Some v -> in_word 8 v;
  ok_timestamp : forall t, seg_timestamp h = Some t -> in_word 32 (tsval t) /\ in_word 32 (tsecr t);
  ok_cookie : forall k, seg_fast_open_cookie h = Some k -> cookie_ok k;
  ok_sacks : Forall (fun b => in_word 32 (left_edge b) /\ in_word 32 (right_edge b)) (default [] sacks);
}.

Lemma vlen_enc_blocks bs : vlen (enc_blocks bs) = 8 * vlen bs.
Proof.
  induction bs as [|b bs IH]; [done|]. unfold enc_blocks. cbn [fmap list_fmap concat]. fold (enc_blocks bs).
  rewrite !vlen_app, IH. change (vlen (be32 _)) with 4. unfold vlen. cbn [length]. lia.
Qed.

Lemma vlen_enc_sacks bs : vlen (enc_sacks bs) = if vlen bs =? 0 then 0 else 4 + 8 * vlen bs.
Proof.
  destruct bs as [|b bs]; [done|]. unfold enc_sacks. rewrite vlen_app, vlen_enc_blocks.
  rewrite (proj2 (Z.eqb_neq _ 0)) by (unfold vlen; cbn [length]; lia). done.
Qed.

Lemma vlen_cookie h sacks :
  segment_ok h sacks -> vlen (cookie_bytes (seg_fast_open_cookie h)) =
    match seg_fast_open_cookie h with Some k => cookie_len k | None => 0 end /\
  0 <= vlen (cookie_bytes (seg_fast_open_cookie h)) <= 16.
Proof.
  intros Hok. pose proof (ok_cookie _ _ Hok) as Hc. destruct (seg_fast_open_cookie h) as [k|]; cbn [cookie_bytes]; [|done].
  specialize (Hc k eq_refl). rewrite (cookie_slice_len k Hc). split; [done|]. apply Hc.
Qed.

(** The length computed ahead is the length of the wire form, rounded up. *)
Lemma options_len_spec h sacks :
  segment_ok h sacks ->
  tcp_options_len h sacks = 4 * ((vlen (option_bytes h sacks) + 3) / 4) /\ 0 <= vlen (option_bytes h sacks) <= 48.
Proof.
  intros Hok. destruct (vlen_cookie h sacks Hok) as [Hck Hcb].
  assert (0 <= vlen (option_bytes h sacks) <= 48 /\
    tcp_options_len h sacks = round_tcp_options_len (vlen (option_bytes h sacks))) as [Hb ->].
  2:{ rewrite round_spec by lia. done. }
  unfold tcp_options_len, option_bytes. destruct (flag_contains (seg_flags h) SYN).
  - unfold enc_fast_open. rewrite !vlen_app.
    destruct (max_segment_size (seg_capabilities h)), (window_scale (seg_capabilities h)), (sack (seg_capabilities h)),
      (timestamps (seg_capabilities h)), (fast_open (seg_capabilities h)), (accurate_ecn (seg_capabilities h));
      rewrite ?vlen_app, <- ?Hck; cbn [enc_mss enc_window_scale enc_sack_permitted enc_timestamps enc_accurate_ecn];
      change (vlen []) with 0; rewrite ?vlen_app; change (vlen (be16 _)) with 2; change (vlen (be32 _)) with 4;
      change (vlen [_; _]) with 2; change (vlen [_; _; _]) with 3; change (vlen [_; _; _; _]) with 4;
      (split; [lia|f_equal; lia]).
  - destruct (flag_contains (seg_flags h) ACK); cbn [negb]; [|done].
    rewrite vlen_app, vlen_enc_sacks, vlen_limited.
    assert (match sacks with Some bs => Z.min (vlen bs) TCP_MAX_SACK_BLOCKS | None => 0 end =
      Z.min (vlen (default [] sacks)) TCP_MAX_SACK_BLOCKS) as -> by (by destruct sacks).
    unfold TCP_MAX_SACK_BLOCKS, TCP_OPTION_SACK_BLOCK_BYTES. pose proof (vlen_nonneg (default [] sacks)).
    assert (vlen (enc_timestamps (timestamps (seg_capabilities h)) (seg_timestamp h)) =
      if timestamps (seg_capabilities h) then 12 else 0) as -> by (by destruct (timestamps (seg_capabilities h))).
    destruct (timestamps (seg_capabilities h)), (Z.eqb_spec (Z.min (vlen (default [] sacks)) 4) 0); cbn [negb];
      (split; [lia|f_equal; lia]).
Qed.

(** ** Reading integers and flags back *)

Lemma from_be_snoc bs b : in_word 8 b -> from_be_bytes (bs ++ [b]) = from_be_bytes bs * 256 + b.
Proof. intros Hb. unfold from_be_bytes. rewrite foldl_app. cbn [foldl]. by rewrite pack_lor. Qed.

Lemma byte_word z : in_word 8 (wrap 8 z).
Proof. apply wrap_bounds. lia. Qed.

Lemma from_be_2 a b : in_word 8 a -> in_word 8 b -> from_be_bytes [a; b] = a * 256 + b.
Proof.
  intros Ha Hb. change [a; b] with ([a] ++ [b]). rewrite from_be_snoc by done.
  change [a] with ([] ++ [a]). by rewrite from_be_snoc.
Qed.

Lemma from_be_4 a b c d :
  in_word 8 a -> in_word 8 b -> in_word 8 c -> in_word 8 d ->
  from_be_bytes [a; b; c; d] = ((a * 256 + b) * 256 + c) * 256 + d.
Proof.
  intros Ha Hb Hc Hd. change [a; b; c; d] with ([a; b; c] ++ [d]). rewrite from_be_snoc by done.
  change [a; b; c] with ([a; b] ++ [c]). by rewrite from_be_snoc, from_be_2.
Qed.

Lemma from_be16 v : in_word 16 v -> from_be_bytes (be16 v) = v.
Proof.
  intros Hv. unfold be16. rewrite from_be_2 by apply byte_word. unfold wrap, in_word in *.
  rewrite Z.shiftr_div_pow2 by lia. change (2 ^ 8) with 256. change (2 ^ 16) with 65536 in *. zdm.
Qed.

Lemma from_be32 v : in_word 32 v -> from_be_bytes (be32 v) = v.
Proof.
  intros Hv. unfold be32. rewrite from_be_4 by apply byte_word. unfold wrap, in_word in *.
  rewrite !Z.shiftr_div_pow2 by lia. change (2 ^ 8) with 256. change (2 ^ 16) with 65536.
  change (2 ^ 24) with 16777216. change (2 ^ 32) with 4294967296 in *. zdm.
Qed.

(** The flags depend on the low bit of the first byte and on the second. *)
Definition flags_of (ns second : Z) : Z :=
  get_flags (mk_header [] [] [] [] (ns, second) [] [] []).

Lemma flags_table :
  forallb (fun s => (flags_of 0 s =? s) && (flags_of 1 s =? 256 + s)) (zseq 0 256) = true.
Proof. vm_compute. reflexivity. Qed.

Lemma flags_of_spec first second h :
  data_offset_reserved_flags h = (first, second) -> in_word 8 second ->
  get_flags h = (first mod 2) * 256 + second.
Proof.
  intros Hd Hs. transitivity (flags_of (first mod 2) second).
  { unfold flags_of, get_flags. rewrite Hd. cbn [fst snd data_offset_reserved_flags].
    change 0x01 with (Z.ones 1). rewrite !Z.land_ones by lia. change (2 ^ 1) with 2. by rewrite Zmod_mod. }
  pose proof flags_table as Ht. rewrite forallb_forall in Ht. specialize (Ht second).
  apply andb_prop in Ht as [H0%Z.eqb_eq H1%Z.eqb_eq].
  2:{ apply list_elem_of_In. apply elem_of_zseq. unfold in_word in Hs. lia. }
  pose proof (Z.mod_pos_bound first 2 eq_refl). assert (first mod 2 = 0 \/ first mod 2 = 1) as [-> | ->] by lia; lia.
Qed.

Lemma flag_contains_bit v i : 0 <= i -> flag_contains v (2 ^ i) = Z.testbit v i.
Proof.
  intros Hi. unfold flag_contains. apply eq_true_iff_eq. rewrite Z.eqb_eq. split.
  - intros Heq. apply (f_equal (fun z => Z.testbit z i)) in Heq.
    by rewrite Z.land_spec, Z.pow2_bits_true, andb_true_r in Heq by lia.
  - intros Ht. apply Z.bits_inj'. intros n Hn. rewrite Z.land_spec.
    destruct (Z.eq_dec n i) as [->|Hne]; [by rewrite Ht|]. by rewrite Z.pow2_bits_false, andb_false_r by lia.
Qed.

Lemma flag_contains_NS flags : flag_contains flags NS = Z.testbit flags 8.
Proof. apply (flag_contains_bit flags 8). lia. Qed.

Lemma data_offset_flags_spec q flags :
  0 <= q < 16 -> in_word 16 flags ->
  tcp_data_offset_flags (4 * q) flags = q * 4096 + flags mod 512.
Proof.
  intros Hq Hf. unfold tcp_data_offset_flags. replace (4 * q / 4) with q by zdm.
  rewrite (wrap_small 8 q) by (split; lia). rewrite Z.shiftl_mul_pow2 by lia.
  rewrite (wrap_small 16) by (unfold in_word; lia). rewrite flag_contains_NS.
  change 0xff with (Z.ones 8). rewrite Z.land_ones by lia.
  pose proof (Z.testbit_spec' flags 8 ltac:(lia)) as Hb. change (2 ^ 8) with 256 in *.
  assert (forall y x, 0 <= x < 256 -> Z.lor (y * 256) x = y * 256 + x) as Hlor.
  { intros y x Hx. change 256 with (2 ^ 8) at 1. rewrite <- Z.shiftl_mul_pow2 by lia. by rewrite pack_lor. }
  pose proof (Z.mod_pos_bound flags 256 eq_refl).
  assert (Z.lor (q * 2 ^ 12) 0x0100 = (q * 16 + 1) * 256) as Hor.
  { rewrite <- Z.shiftl_mul_pow2, pack_lor by lia. lia. }
  replace (q * 2 ^ 12) with (q * 16 * 256) in * by lia.
  destruct (Z.testbit flags 8); cbn [Z.b2z] in Hb; rewrite ?Hor, Hlor by done; zdm.
Qed.

(** The fixed header of a segment, read back. *)
Lemma fixed_header_reads h sacks q :
  segment_ok h sacks -> 0 <= q < 16 ->
  let hd := fixed_header h (4 * q) in
  get_source_port hd = seg_source_port h /\ get_destination_port hd = seg_destination_port h /\
  get_sequence_number hd = seg_sequence_number h /\ get_acknowledgment_number hd = seg_acknowledgment_number h /\
  get_advertised_window hd = seg_advertised_window h /\ get_urgent_pointer hd = seg_urgent_pointer h /\
  get_flags hd = seg_flags h mod 512 /\ header_len hd = 4 * q.
Proof.
  intros Hok Hq hd. unfold hd, fixed_header. rewrite (data_offset_flags_spec q) by (done || apply Hok).
  unfold get_source_port, get_destination_port, get_sequence_number, get_acknowledgment_number,
    get_advertised_window, get_urgent_pointer. cbn [source_port destination_port sequence_number acknowledgment_number
    advertised_window urgent_pointer].
  rewrite !from_be16, !from_be32 by apply Hok. pose proof (ok_flags _ _ Hok) as Hf.
  split_and!; try done.
  - erewrite flags_of_spec; [|reflexivity|apply byte_word]. unfold wrap, in_word in *.
    rewrite Z.shiftr_div_pow2 by lia. change (2 ^ 8) with 256. change (2 ^ 16) with 65536 in *. zdm.
  - unfold header_len. cbn [data_offset_reserved_flags fst]. unfold wrap. rewrite !Z.shiftr_div_pow2 by lia.
    change (2 ^ 8) with 256. change (2 ^ 4) with 16. zdm.
Qed.

(** ** Reading the options back *)

Definition sent_mss (v : option Z) : list TcpOption := match v with Some m => [MaximumSegmentSize m] | None => [] end.
Definition sent_window_scale (v : option Z) : list TcpOption :=
  match v with Some w => [NoOperation; WindowScale (Z.min w TCP_MAX_WINDOW_SCALE)] | None => [] end.
Definition sent_sack_permitted (b : bool) : list TcpOption :=
  if b then [NoOperation; NoOperation; SackPermitted] else [].
Definition sent_timestamps (b : bool) (ts : option TcpTimestampOption) : list TcpOption :=
  if b then [NoOperation; NoOperation; Timestamp (default (timestamp_option 0 0) ts)] else [].
Definition sent_fast_open (b : bool) (k : option TcpFastOpenCookie) : list TcpOption :=
  if b then [FastOpenCookie (cookie_bytes k)] else [].
Definition sent_accurate_ecn (b : bool) : list TcpOption := if b then [NoOperation; AccurateEcn] else [].
Definition sent_sacks (bs : list TcpSackBlock) : list TcpOption :=
  match bs with [] => [] | _ => NoOperation :: NoOperation :: (SackBlock <$> bs) end.

Definition sent_options (h : TcpSegmentHeader) (sacks : option (list TcpSackBlock)) : list TcpOption :=
  let c := seg_capabilities h in
  if flag_contains (seg_flags h) SYN then
    sent_mss (max_segment_size c) ++ sent_window_scale (window_scale c) ++ sent_sack_permitted (sack c) ++
    sent_timestamps (timestamps c) (seg_timestamp h) ++ sent_fast_open (fast_open c) (seg_fast_open_cookie h) ++
    sent_accurate_ecn (accurate_ecn c)
  else if flag_contains (seg_flags h) ACK then
    sent_timestamps (timestamps c) (seg_timestamp h) ++ sent_sacks (limited sacks)
  else [].

(** The bytes [bs] stand for the options [os] wherever they are read. *)
Definition reads (bs : list Z) (os : list TcpOption) : Prop :=
  forall rest, parse (bs ++ rest) = (inr <$> os) ++ parse rest.

Lemma reads_nil : reads [] [].
Proof. done. Qed.

Lemma reads_app bs bs' os os' : reads bs os -> reads bs' os' -> reads (bs ++ bs') (os ++ os').
Proof. intros H H' rest. rewrite <- app_assoc, H, H', fmap_app, app_assoc. done. Qed.

Lemma reads_nop bs os : reads bs os -> reads (1 :: bs) (NoOperation :: os).
Proof. intros H rest. cbn [app fmap list_fmap]. rewrite parse_nop, H. done. Qed.

Lemma reads_option number body os :
  number <> 0 -> number <> 1 -> decode number body = Some os -> reads (number :: vlen body + 2 :: body) os.
Proof. intros H0 H1 Hd rest. cbn [app]. rewrite parse_option by done. by rewrite Hd. Qed.

Lemma reads_mss v : (forall m, v = Some m -> in_word 16 m) -> reads (enc_mss v) (sent_mss v).
Proof.
  intros Hv. destruct v as [m|]; [|apply reads_nil]. apply (reads_option 2 (be16 m)); [done|done|].
  unfold decode. cbn [Z.eqb Pos.eqb]. change (vlen (be16 m)) with 2. cbn [Z.eqb Pos.eqb].
  by rewrite from_be16 by (by apply Hv).
Qed.

Lemma reads_window_scale v : reads (enc_window_scale v) (sent_window_scale v).
Proof.
  destruct v as [w|]; [|apply reads_nil]. apply reads_nop.
  apply (reads_option 3 [Z.min w TCP_MAX_WINDOW_SCALE]); [done|done|].
  unfold decode. cbn [Z.eqb Pos.eqb]. do 3 f_equal. lia.
Qed.

Lemma reads_sack_permitted b : reads (enc_sack_permitted b) (sent_sack_permitted b).
Proof. destruct b; [|apply reads_nil]. apply reads_nop, reads_nop. by apply (reads_option 4 []). Qed.

Lemma reads_timestamps b ts :
  (forall t, ts = Some t -> in_word 32 (tsval t) /\ in_word 32 (tsecr t)) ->
  reads (enc_timestamps b ts) (sent_timestamps b ts).
Proof.
  intros Hts. destruct b; [|apply reads_nil]. unfold enc_timestamps, sent_timestamps.
  set (t := default (timestamp_option 0 0) ts).
  assert (in_word 32 (tsval t) /\ in_word 32 (tsecr t)) as [H1 H2] by (destruct ts; [by apply Hts|done]).
  apply reads_nop, reads_nop. apply (reads_option 8 (be32 (tsval t) ++ be32 (tsecr t))); [done|done|].
  unfold decode. change (vlen (be32 (tsval t) ++ be32 (tsecr t))) with 8. cbn [Z.eqb Pos.eqb].
  change (take 4 (be32 (tsval t) ++ be32 (tsecr t))) with (be32 (tsval t)).
  change (drop 4 (be32 (tsval t) ++ be32 (tsecr t))) with (be32 (tsecr t)).
  rewrite !from_be32 by done. by destruct t.
Qed.

Lemma reads_fast_open b k :
  (forall c, k = Some c -> cookie_ok c) -> reads (enc_fast_open b k) (sent_fast_open b k).
Proof.
  intros Hk. destruct b; [|apply reads_nil]. unfold enc_fast_open, sent_fast_open.
  assert (vlen (cookie_bytes k) <= 16 /\ (vlen (cookie_bytes k) =? 0) || is_valid_len (vlen (cookie_bytes k)) = true) as [Hl Hv].
  { destruct k as [c|]; [|done]. cbn [cookie_bytes]. rewrite cookie_slice_len by (by apply Hk).
    destruct (Hk c eq_refl) as (Hb & Hl & Hw & Hv). split; [lia|]. destruct Hv as [-> | ->]; [done|apply orb_true_r]. }
  pose proof (vlen_nonneg (cookie_bytes k)). rewrite wrap_small by (split; lia).
  rewrite (Z.add_comm 2). apply (reads_option 34 (cookie_bytes k)); [done|done|].
  unfold decode. cbn [Z.eqb Pos.eqb]. by rewrite Hv.
Qed.

Lemma reads_accurate_ecn b : reads (enc_accurate_ecn b) (sent_accurate_ecn b).
Proof. destruct b; [|apply reads_nil]. apply reads_nop. by apply (reads_option 172 []). Qed.

Lemma sack_list_blocks bs :
  Forall (fun b => in_word 32 (left_edge b) /\ in_word 32 (right_edge b)) bs ->
  sack_list (length bs) (enc_blocks bs) = SackBlock <$> bs.
Proof.
  induction 1 as [|b bs [Hl Hr] Hbs IH]; [done|]. unfold enc_blocks. cbn [length sack_list fmap list_fmap concat].
  fold (enc_blocks bs).
  change (take 4 ((be32 (left_edge b) ++ be32 (right_edge b)) ++ enc_blocks bs)) with (be32 (left_edge b)).
  change (take 4 (drop 4 ((be32 (left_edge b) ++ be32 (right_edge b)) ++ enc_blocks bs))) with (be32 (right_edge b)).
  change (drop 8 ((be32 (left_edge b) ++ be32 (right_edge b)) ++ enc_blocks bs)) with (drop 0 (enc_blocks bs)).
  rewrite drop_0, !from_be32, IH by done. by destruct b.
Qed.

Lemma reads_sacks bs :
  Forall (fun b => in_word 32 (left_edge b) /\ in_word 32 (right_edge b)) bs -> vlen bs <= 4 ->
  reads (enc_sacks bs) (sent_sacks bs).
Proof.
  intros Hbs Hlen. destruct bs as [|b bs]; [apply reads_nil|]. unfold enc_sacks, sent_sacks.
  set (l := b :: bs) in *. assert (0 < vlen l) by (unfold l, vlen; cbn [length]; lia).
  apply reads_nop, reads_nop. rewrite wrap_small by (split; lia).
  replace (2 + vlen l * 8) with (vlen (enc_blocks l) + 2) by (rewrite vlen_enc_blocks; lia).
  apply (reads_option 5 (enc_blocks l)); [done|done|]. unfold decode. cbn [Z.eqb Pos.eqb]. rewrite vlen_enc_blocks.
  rewrite (proj2 (Z.ltb_lt _ _)) by lia. rewrite (Z.mul_comm 8), Z.mod_mul, Z.div_mul by done. cbn [Z.eqb andb].
  replace (Z.to_nat (Z.min 4 (vlen l))) with (length l) by (unfold vlen in *; lia). by rewrite sack_list_blocks.
Qed.

Lemma reads_option_bytes h sacks : segment_ok h sacks -> reads (option_bytes h sacks) (sent_options h sacks).
Proof.
  intros Hok. unfold option_bytes, sent_options. destruct (flag_contains (seg_flags h) SYN).
  - repeat apply reads_app; [apply reads_mss, Hok|apply reads_window_scale|apply reads_sack_permitted|
      apply reads_timestamps, Hok|apply reads_fast_open, Hok|apply reads_accurate_ecn].
  - destruct (flag_contains (seg_flags h) ACK); [|apply reads_nil].
    apply reads_app; [apply reads_timestamps, Hok|]. apply reads_sacks.
    + unfold limited. apply Forall_take, Hok.
    + rewrite vlen_limited. unfold TCP_MAX_SACK_BLOCKS. lia.
Qed.

Lemma parse_padding n : parse (replicate n 0) = if bool_decide (n = O) then [] else [inr End_].
Proof. by destruct n. Qed.

(** ** The written segment *)

Definition options_wire (h : TcpSegmentHeader) (sacks : option (list TcpSackBlock)) : list Z :=
  option_bytes h sacks ++
  replicate (Z.to_nat (tcp_options_len h sacks - vlen (option_bytes h sacks))) 0.

Definition segment_wire (h : TcpSegmentHeader) (sacks : option (list TcpSackBlock)) : list Z :=
  header_bytes (fixed_header h (segment_header_len h sacks)) ++ options_wire h sacks.

Definition fits (h : TcpSegmentHeader) sacks (output : list Z) : bool :=
  (segment_header_len h sacks <=? 60) && (segment_header_len h sacks <=? vlen output).

Lemma header_bytes_fixed h len : length (header_bytes (fixed_header h len)) = 20%nat.
Proof. done. Qed.

Lemma options_wire_len h sacks : segment_ok h sacks -> vlen (options_wire h sacks) = tcp_options_len h sacks.
Proof.
  intros Hok. destruct (options_len_spec h sacks Hok) as [Hl Hb]. unfold options_wire.
  rewrite vlen_app, vlen_replicate. rewrite Hl. zdm.
Qed.

Lemma ref_from_prefix_fixed h len rest :
  ref_from_prefix (header_bytes (fixed_header h len) ++ rest) = Some (fixed_header h len).
Proof.
  unfold ref_from_prefix. rewrite (proj2 (Z.ltb_ge _ _)); [done|].
  rewrite vlen_app. pose proof (vlen_nonneg rest). change (vlen (header_bytes _)) with 20. unfold TCP_HEADER_MIN_LEN. lia.
Qed.

Lemma write_to_buffer_spec h output sacks :
  segment_ok h sacks ->
  write_to_buffer h output sacks =
  if fits h sacks output
  then Some (segment_wire h sacks ++ drop (Z.to_nat (segment_header_len h sacks)) output,
             inr (segment_header_len h sacks))
  else Some (output, inl Length).
Proof.
  intros Hok. destruct (options_len_spec h sacks Hok) as [Hl Hb].
  pose proof (options_wire_len h sacks Hok) as Hw.
  unfold write_to_buffer, fits, segment_wire. unfold segment_header_len in *. unfold TCP_HEADER_MIN_LEN in *.
  set (n := tcp_options_len h sacks) in *. set (bs := option_bytes h sacks) in *.
  assert ((20 + n) mod 4 = 0 /\ 0 <= vlen bs <= n) as [Hm Hn] by zdm. clear Hl. rewrite Hm. cbn [Z.eqb negb]. rewrite orb_false_r.
  rewrite !Z.ltb_antisym, <- negb_andb. destruct ((20 + n <=? 60) && (20 + n <=? vlen output)) eqn:E; cbn [negb]; [|done].
  bool_prop. set (hd := header_bytes (fixed_header h (20 + n))).
  assert (length hd = 20%nat) as Hh by done. clearbody hd.
  set (tail := drop (Z.to_nat (20 + n)) output).
  assert (drop 20 (replicate (Z.to_nat (20 + n)) 0 ++ tail) = replicate (Z.to_nat n) 0 ++ tail) as ->.
  { rewrite drop_app_le by (rewrite length_replicate; lia). rewrite drop_replicate. do 2 f_equal. lia. }
  rewrite vslice_Some by (rewrite ?vlen_app, ?vlen_replicate; unfold vlen; lia). cbn [mbind option_bind].
  assert (take (Z.to_nat (20 + n - 20)) (drop (Z.to_nat 20) (hd ++ replicate (Z.to_nat n) 0 ++ tail)) =
    replicate (Z.to_nat n) 0) as ->.
  { change (Z.to_nat 20) with 20%nat. rewrite <- Hh, drop_app_length. rewrite take_app_le by (rewrite length_replicate; lia).
    rewrite take_replicate. f_equal. lia. }
  rewrite write_tcp_options_spec by (rewrite vlen_replicate; unfold bs in *; lia). cbn [mbind option_bind].
  rewrite vlen_replicate, Z2Nat.id by lia. do 2 f_equal.
  rewrite <- Hh at 1. rewrite take_app_length. unfold options_wire. fold n bs. rewrite <- !app_assoc. do 3 f_equal.
  rewrite (drop_app_ge hd) by lia. rewrite drop_app_ge by (rewrite length_replicate; lia).
  rewrite length_replicate. replace (Z.to_nat (20 + n) - length hd - Z.to_nat n)%nat with O by lia. apply drop_0.
Qed.

(** ** Properties *)

(** writing the header of a segment never indexes out of range.  It
    succeeds exactly when header and options take at most 60 bytes and fit the
    buffer, then the buffer starts with the fixed header and the options,
    padded with zeros to a multiple of four, and is unchanged behind them;
    otherwise the buffer is untouched and the result is [Length]. *)
Theorem tcp_write_to_buffer_correct h output sacks :
  segment_ok h sacks ->
  write_to_buffer h output sacks =
    (if fits h sacks output
     then Some (segment_wire h sacks ++ drop (Z.to_nat (segment_header_len h sacks)) output,
                inr (segment_header_len h sacks))
     else Some (output, inl Length)) /\
  vlen (segment_wire h sacks) = segment_header_len h sacks /\ segment_header_len h sacks mod 4 = 0.
Proof.
  intros Hok. split; [by apply write_to_buffer_spec|]. unfold segment_wire. rewrite vlen_app, options_wire_len by done.
  destruct (options_len_spec h sacks Hok) as [Hl Hb]. unfold segment_header_len. rewrite Hl. split; [done|].
  unfold TCP_HEADER_MIN_LEN. zdm.
Qed.

(** A SYN with every option but a cookie, and an ACK with two SACK blocks. *)
Definition example_syn : TcpSegmentHeader :=
  mk_segment 443 50000 0xfffffff0 7 (SYN + ACK) 65535 0
    (mk_caps (Some 1460) (Some 20) true true false true false) (Some (timestamp_option 5 6)) None.
Definition example_ack : TcpSegmentHeader :=
  mk_segment 443 50000 1 2 ACK 100 0 (mk_caps None None true true false false false)
    (Some (timestamp_option 5 6)) None.
Definition example_sacks : option (list TcpSackBlock) := Some [sack_block 10 20; sack_block 0xfffffff0 5].

Lemma example_syn_ok : segment_ok example_syn None.
Proof. split; try done; intros ?; cbn; intros ?; simplify_eq; done. Qed.

Lemma example_ack_ok : segment_ok example_ack example_sacks.
Proof. split; try done; [intros ?; cbn; intros ?; simplify_eq; done|]. repeat constructor; done. Qed.

Lemma tcp_write_to_buffer_correct_witness :
  write_to_buffer example_syn (replicate 64 7) None =
    Some (segment_wire example_syn None ++ replicate 16 7, inr 48).
Proof.
  destruct (tcp_write_to_buffer_correct example_syn (replicate 64 7) None example_syn_ok) as [H _]. exact H.
Defined.

(** The capabilities the receiver of a segment learns from it. *)
Definition received_caps (h : TcpSegmentHeader) : TcpCapabilities :=
  let c := seg_capabilities h in
  if flag_contains (seg_flags h) SYN then
    mk_caps (max_segment_size c) ((fun w => Z.min w TCP_MAX_WINDOW_SCALE) <$> window_scale c) (sack c)
      (timestamps c) (accurate_ecn c) (accurate_ecn c) (fast_open c)
  else mk_caps None None false (flag_contains (seg_flags h) ACK && timestamps c) false false false.

Lemma caps_items_app c os xs :
  caps_items c ((inr <$> os) ++ xs) = caps_items (foldl caps_option c os) xs.
Proof. revert c. induction os as [|o os IH]; intros c; [done|]. cbn. apply IH. Qed.

Lemma caps_sacks c bs : foldl caps_option c (sent_sacks bs) = c.
Proof.
  destruct bs as [|b bs]; [done|]. cbn [sent_sacks foldl caps_option].
  generalize (b :: bs). intros l. induction l as [|x l IH]; [done|]. cbn. apply IH.
Qed.

Lemma caps_sent h sacks : foldl caps_option caps_default (sent_options h sacks) = received_caps h.
Proof.
  unfold sent_options, received_caps. destruct (seg_capabilities h) as [mss ws sk ts ec ae fo].
  cbn [max_segment_size window_scale sack timestamps ecn accurate_ecn fast_open].
  destruct (flag_contains (seg_flags h) SYN).
  - destruct mss, ws, sk, ts, fo, ae; reflexivity.
  - destruct (flag_contains (seg_flags h) ACK); [|done]. rewrite foldl_app, caps_sacks. by destruct ts.
Qed.

(** The header of a written segment, whatever follows it. *)
Lemma wire_header h sacks rest :
  segment_ok h sacks -> segment_header_len h sacks <= 60 ->
  let hd := fixed_header h (segment_header_len h sacks) in
  tcp_header (segment_wire h sacks ++ rest) = inr hd /\ header_len hd = segment_header_len h sacks /\
  get_source_port hd = seg_source_port h /\ get_destination_port hd = seg_destination_port h /\
  get_sequence_number hd = seg_sequence_number h /\
  get_acknowledgment_number hd = seg_acknowledgment_number h /\
  get_advertised_window hd = seg_advertised_window h /\ get_urgent_pointer hd = seg_urgent_pointer h /\
  get_flags hd = seg_flags h mod 512.
Proof.
  intros Hok H60. destruct (options_len_spec h sacks Hok) as [Hl Hb].
  pose proof (options_wire_len h sacks Hok) as Hwl. unfold segment_wire, segment_header_len, TCP_HEADER_MIN_LEN in *.
  set (n := tcp_options_len h sacks) in *. set (hd := fixed_header h (20 + n)).
  assert (exists q, 20 + n = 4 * q /\ 5 <= q < 16) as (q & Hq & Hqb) by (exists (5 + (vlen (option_bytes h sacks) + 3) / 4); zdm).
  destruct (fixed_header_reads h sacks q Hok ltac:(lia)) as (R1 & R2 & R3 & R4 & R5 & R6 & R7 & R8).
  rewrite <- Hq in *. split; [|by split_and!]. unfold tcp_header. rewrite <- app_assoc. unfold hd.
  rewrite ref_from_prefix_fixed, R8. unfold TCP_HEADER_MIN_LEN.
  rewrite (proj2 (Z.ltb_ge (20 + n) 20)), (proj2 (Z.ltb_ge 60 _)) by lia.
  rewrite Hq, (Z.mul_comm 4), Z.mod_mul by done. cbn [Z.eqb negb orb].
  rewrite (proj2 (Z.ltb_ge _ _)); [done|]. rewrite !vlen_app, Hwl. change (vlen (header_bytes _)) with 20.
  pose proof (vlen_nonneg rest). lia.
Qed.

(** Its options. *)
Lemma wire_options h sacks rest :
  segment_ok h sacks ->
  vslice (segment_wire h sacks ++ rest) 20 (segment_header_len h sacks) = Some (options_wire h sacks) /\
  exists pad, parse (options_wire h sacks) = (inr <$> sent_options h sacks) ++ pad /\ (pad = [] \/ pad = [inr End_]).
Proof.
  intros Hok. pose proof (options_wire_len h sacks Hok) as Hwl. destruct (options_len_spec h sacks Hok) as [Hl Hb].
  assert (0 <= tcp_options_len h sacks) as Hn by zdm. split.
  - unfold segment_wire, segment_header_len, TCP_HEADER_MIN_LEN. pose proof (vlen_nonneg rest).
    rewrite <- app_assoc, vslice_Some; [|lia|rewrite !vlen_app, Hwl; change (vlen (header_bytes _)) with 20; lia].
    change (Z.to_nat 20) with (length (header_bytes (fixed_header h (20 + tcp_options_len h sacks)))).
    rewrite drop_app_length. f_equal.
    replace (Z.to_nat (20 + tcp_options_len h sacks - 20)) with (length (options_wire h sacks)) by (unfold vlen in Hwl; lia).
    apply take_app_length.
  - eexists. unfold options_wire. rewrite (reads_option_bytes h sacks Hok). split; [done|]. rewrite parse_padding.
    destruct (bool_decide _); auto.
Qed.

(** a written segment reads back.  The header parses, its fields are those
    of the segment, the nine flag bits are kept, the header length is the
    length written, and the options give the receiver exactly the options sent:
    the capabilities of a SYN with the window scale capped at 14, the timestamp,
    the cookie, and up to four SACK blocks on an ACK. *)
Theorem tcp_segment_roundtrip h output sacks out len :
  segment_ok h sacks -> write_to_buffer h output sacks = Some (out, inr len) ->
  exists hd, tcp_header out = inr hd /\ header_len hd = len /\
    get_source_port hd = seg_source_port h /\ get_destination_port hd = seg_destination_port h /\
    get_sequence_number hd = seg_sequence_number h /\
    get_acknowledgment_number hd = seg_acknowledgment_number h /\
    get_advertised_window hd = seg_advertised_window h /\ get_urgent_pointer hd = seg_urgent_pointer h /\
    get_flags hd = seg_flags h mod 512 /\
    exists opts pad, vslice out 20 len = Some opts /\
      collect (S (S (length opts))) (iter_new opts) = Some ((inr <$> sent_options h sacks) ++ pad) /\
      (pad = [] \/ pad = [inr End_]) /\
      tcp_capabilities_from_options opts = Some (inr (received_caps h)).
Proof.
  intros Hok Hw. rewrite write_to_buffer_spec in Hw by done. destruct (fits h sacks output) eqn:Hf; simplify_eq.
  unfold fits in Hf. bool_prop. set (rest := drop _ output).
  destruct (wire_header h sacks rest Hok ltac:(done)) as (R0 & R1 & R2 & R3 & R4 & R5 & R6 & R7 & R8).
  destruct (wire_options h sacks rest Hok) as (Hs & pad & Hp & Hpad).
  eexists. split; [done|]. split_and!; try done. exists (options_wire h sacks), pad.
  rewrite collect_all, capabilities_all, Hp, caps_items_app, caps_sent. split_and!; try done.
  by destruct Hpad as [-> | ->].
Qed.

Lemma tcp_segment_roundtrip_witness :
  exists out hd opts, write_to_buffer example_ack (replicate 64 7) example_sacks = Some (out, inr 52) /\
    tcp_header out = inr hd /\ get_sequence_number hd = 1 /\ vslice out 20 52 = Some opts /\
    tcp_capabilities_from_options opts = Some (inr (received_caps example_ack)).
Proof.
  destruct (tcp_segment_roundtrip example_ack (replicate 64 7) example_sacks
    (segment_wire example_ack example_sacks ++ replicate 12 7) 52 example_ack_ok eq_refl)
    as (hd & H1 & _ & _ & _ & H2 & _ & _ & _ & _ & opts & pad & H3 & _ & _ & H4).
  exists (segment_wire example_ack example_sacks ++ replicate 12 7), hd, opts.
  split; [reflexivity|]. exact (conj H1 (conj H2 (conj H3 H4))).
Defined.

(** the two ways of writing a data segment agree.  Caching the options and
    copying them behind a fixed header gives the same buffer and result as
    writing the whole header; the 40-byte cache is large enough exactly when
    the options fit a TCP header, which holds for every ACK without SYN that
    carries at most three SACK blocks beside a timestamp, or at most four
    without. *)
Theorem tcp_cached_options_agree h output cache sacks :
  segment_ok h sacks -> vlen cache = 40 ->
  (tcp_options_len h sacks <= 40 ->
     exists cache', cache_options h cache sacks = Some (cache', tcp_options_len h sacks) /\
       vlen cache' = 40 /\
       write_to_buffer_cached h output (take (Z.to_nat (tcp_options_len h sacks)) cache') =
         write_to_buffer h output sacks) /\
  (40 < tcp_options_len h sacks -> cache_options h cache sacks = None) /\
  (flag_contains (seg_flags h) SYN = false ->
   vlen (default [] sacks) <= (if timestamps (seg_capabilities h) then 3 else 4) ->
   tcp_options_len h sacks <= 40).
Proof.
  intros Hok Hc. destruct (options_len_spec h sacks Hok) as [Hl Hb].
  assert (0 <= vlen (option_bytes h sacks) <= tcp_options_len h sacks) as Hn by (rewrite Hl; zdm).
  split; [|split].
  - intros H40. unfold cache_options. rewrite vslice_Some by lia. cbn [mbind option_bind].
    change (Z.to_nat 0) with O. rewrite drop_0, Z.sub_0_r.
    assert (vlen (take (Z.to_nat (tcp_options_len h sacks)) cache) = tcp_options_len h sacks) as Ht
      by (unfold vlen in *; rewrite length_take; lia).
    rewrite write_tcp_options_spec by lia. rewrite Ht. cbn [mbind option_bind]. fold (options_wire h sacks).
    pose proof (options_wire_len h sacks Hok) as Hw. eexists. split; [done|]. split.
    { rewrite vlen_app, Hw. unfold vlen in *. rewrite length_drop. lia. }
    assert (take (Z.to_nat (tcp_options_len h sacks)) (options_wire h sacks ++ drop (Z.to_nat (tcp_options_len h sacks)) cache)
      = options_wire h sacks) as ->.
    { replace (Z.to_nat (tcp_options_len h sacks)) with (length (options_wire h sacks)) by (unfold vlen in Hw; lia).
      apply take_app_length. }
    rewrite write_to_buffer_spec by done. unfold write_to_buffer_cached, fits, segment_wire, segment_header_len.
    rewrite Hw. set (n := tcp_options_len h sacks) in *. unfold TCP_HEADER_MIN_LEN.
    assert ((20 + n) mod 4 = 0) as -> by zdm. cbn [Z.eqb negb]. rewrite orb_false_r.
    rewrite !Z.ltb_antisym, <- negb_andb. destruct ((20 + n <=? 60) && (20 + n <=? vlen output)); cbn [negb]; [|done].
    do 2 f_equal. change 20%nat with (length (header_bytes (fixed_header h (20 + n)))) at 1.
    rewrite take_app_length, <- app_assoc. do 2 f_equal.
    rewrite drop_app_ge by (rewrite header_bytes_fixed; lia). rewrite header_bytes_fixed, drop_drop. f_equal. lia.
  - intros H40. unfold cache_options, vslice. by rewrite (proj2 (Z.leb_gt _ (vlen cache))), andb_false_r by lia.
  - intros Hsyn Hsacks. rewrite Hl. unfold option_bytes. rewrite Hsyn. destruct (flag_contains (seg_flags h) ACK); [|done].
    rewrite vlen_app, vlen_enc_sacks, vlen_limited. unfold TCP_MAX_SACK_BLOCKS. pose proof (vlen_nonneg (default [] sacks)).
    destruct (timestamps (seg_capabilities h)); cbn [enc_timestamps];
      change (vlen ([_; _; _; _] ++ be32 _ ++ be32 _)) with 12; change (vlen []) with 0;
      destruct (Z.eqb_spec (Z.min (vlen (default [] sacks)) 4) 0); zdm.
Qed.

Lemma tcp_cached_options_agree_witness :
  exists cache', cache_options example_ack (replicate 40 0) example_sacks = Some (cache', 32) /\
    write_to_buffer_cached example_ack (replicate 64 7) (take 32 cache') =
      write_to_buffer example_ack (replicate 64 7) example_sacks.
Proof.
  destruct (tcp_cached_options_agree example_ack (replicate 64 7) (replicate 40 0) example_sacks example_ack_ok eq_refl)
    as (H & _ & _).
  destruct H as (cache' & H1 & _ & H2); [vm_compute; discriminate|]. exists cache'. exact (conj H1 H2).
Defined.

End TcpSegment.
