(* ===== verification/TcpPacket.v ===== *)
(** * TCP segments and packets

    Models [crates/hammer-plugins/transport/tcp/src/segment.rs]: the segment a
    connection hands to the output path, with its copy of at most four SACK
    blocks, and [tcp_packet], which reads a received buffer into the packet the
    state machine works on.  The buffer is its current bytes, the packet cursor
    its offsets ([hammer-core/src/buffer/cursor.rs]) and the ECN bits of the
    network opaque a parameter.

    The theorems: [tcp_packet] never indexes out of range whatever the bytes
    and offsets are, and a segment written behind an IP header is read back as
    the packet its sender meant. *)

From S2P Require Import Prelude TcpProtocol TcpOptions TcpSegment.

Module TcpPacket.
Import TcpProtocol TcpOptions TcpSegment.

(** ** Outgoing segments *)

Record Segment := mk_out {
  out_local : SocketAddr;
  out_remote : SocketAddr;
  out_sequence : Z;
  out_acknowledgment : Z;
  out_window : Z;
  out_flags : Z;
  out_capabilities : TcpCapabilities;
  out_sack_blocks : option (list TcpSackBlock);
  out_sack_block_count : Z;
  out_timestamp : option TcpTimestampOption;
  out_cookie : option TcpFastOpenCookie;
  out_ip_ecn : option TcpEcnCodepoint;
  out_payload_len : Z;
}.

(** The loop [copied[index] = sack_blocks[index]]. *)
Fixpoint copy_blocks (copied : list TcpSackBlock) (index : Z) (blocks : list TcpSackBlock) :
    option (list TcpSackBlock) :=
  match blocks with
  | [] => Some copied
  | b :: blocks => copied ← vset copied index b; copy_blocks copied (index + 1) blocks
  end.

Definition copy_sack_blocks (blocks : option (list TcpSackBlock)) : option (option (list TcpSackBlock) * Z) :=
  match blocks with
  | None | Some [] => Some (None, 0)
  | Some blocks =>
      let copied := replicate 4 (sack_block 0 0) in
      let len := Z.min (vlen blocks) (vlen copied) in
      copied ← copy_blocks copied 0 (take (Z.to_nat len) blocks);
      Some (Some copied, wrap 8 len)
  end.

Definition segment_new (local remote : SocketAddr) (sequence acknowledgment window flags : Z)
    (capabilities : TcpCapabilities) (sacks : option (list TcpSackBlock)) (ts : option TcpTimestampOption)
    (cookie : option TcpFastOpenCookie) (ecn_ : option TcpEcnCodepoint) (payload_len : Z) : option Segment :=
  '(blocks, count) ← copy_sack_blocks sacks;
  Some (mk_out local remote sequence acknowledgment window flags capabilities blocks count ts cookie ecn_
    payload_len).

(** [&sack_blocks[..count]] *)
Definition out_sacks (s : Segment) : option (option (list TcpSackBlock)) :=
  match out_sack_blocks s with
  | None => Some None
  | Some blocks => bs ← vslice blocks 0 (out_sack_block_count s); Some (Some bs)
  end.

Definition out_header (s : Segment) : TcpSegmentHeader :=
  mk_segment (port (out_local s)) (port (out_remote s)) (out_sequence s) (out_acknowledgment s) (out_flags s)
    (out_window s) 0 (out_capabilities s) (out_timestamp s) (out_cookie s).

Definition write_header (s : Segment) (output : list Z) : option (list Z * (TcpError + Z)) :=
  sacks ← out_sacks s; write_to_buffer (out_header s) output sacks.

Definition out_header_len (s : Segment) : option Z :=
  sacks ← out_sacks s; Some (segment_header_len (out_header s) sacks).

(** ** Incoming packets *)

Record BufferPacketCursor := mk_cursor {
  packet_len : Z;
  network_header_offset : Z;
  transport_header_offset : Z;
  transport_header_len : Z;
  transport_payload_offset : Z;
}.

Record TcpPacket := mk_packet {
  pkt_local : SocketAddr;
  pkt_remote : SocketAddr;
  pkt_sequence : Z;
  pkt_acknowledgment : option Z;
  pkt_window : Z;
  pkt_flags : Z;
  pkt_capabilities : TcpCapabilities;
  pkt_sack_blocks : list TcpSackBlock;
  pkt_timestamp : option TcpTimestampOption;
  pkt_cookie : option TcpFastOpenCookie;
  pkt_ip_ecn : option TcpEcnCodepoint;
  pkt_payload_offset : Z;
  pkt_payload_len : Z;
}.

Definition valid_tcp_cursor (c : BufferPacketCursor) (available_len : Z) : bool :=
  (network_header_offset c <=? transport_header_offset c) &&
  (transport_header_offset c <=? transport_payload_offset c) &&
  (transport_payload_offset c <=? packet_len c) &&
  (transport_payload_offset c <=? available_len).

Definition source_ip (version : Z) (packet : list Z) : TcpError + IpAddr :=
  if version =? 4 then match vslice packet 12 16 with Some b => inr (V4 (from_be_bytes b)) | None => inl Length end
  else if version =? 6 then
    match vslice packet 8 24 with Some b => inr (V6 (from_be_bytes b)) | None => inl Length end
  else inl SegmentInvalid.

Definition destination_ip (version : Z) (packet : list Z) : TcpError + IpAddr :=
  if version =? 4 then match vslice packet 16 20 with Some b => inr (V4 (from_be_bytes b)) | None => inl Length end
  else if version =? 6 then
    match vslice packet 24 40 with Some b => inr (V6 (from_be_bytes b)) | None => inl Length end
  else inl SegmentInvalid.

(** What the option loop collects. *)
Record read_state := mk_read {
  rd_capabilities : TcpCapabilities;
  rd_sacks : list TcpSackBlock;
  rd_timestamp : option TcpTimestampOption;
  rd_cookie : option TcpFastOpenCookie;
}.

Definition read_default : read_state := mk_read caps_default [] None None.

(** One option; [inl] leaves [tcp_packet], the outer [option] is a panic. *)
Definition read_one (s : read_state) (o : TcpOption) : option (TcpError + read_state) :=
  let c := caps_option (rd_capabilities s) o in
  match o with
  | SackBlock b => Some (inr (mk_read c (rd_sacks s ++ [b]) (rd_timestamp s) (rd_cookie s)))
  | Timestamp t => Some (inr (mk_read c (rd_sacks s) (Some t) (rd_cookie s)))
  | FastOpenCookie cookie =>
      if vlen cookie =? 0 then Some (inr (mk_read c (rd_sacks s) (rd_timestamp s) (rd_cookie s))) else
      r ← cookie_try_from cookie;
      match r with
      | None => Some (inl SegmentInvalid)
      | Some k => Some (inr (mk_read c (rd_sacks s) (rd_timestamp s) (Some k)))
      end
  | _ => Some (inr (mk_read c (rd_sacks s) (rd_timestamp s) (rd_cookie s)))
  end.

Fixpoint read_loop (fuel : nat) (it : TcpOptionIter) (s : read_state) : option (TcpError + read_state) :=
  match fuel with
  | O => None
  | S fuel =>
      '(it, r) ← next it;
      match r with
      | None => Some (inr s)
      | Some (inl e) => Some (inl e)
      | Some (inr End_) => Some (inr s)
      | Some (inr o) =>
          r ← read_one s o;
          match r with inl e => Some (inl e) | inr s => read_loop fuel it s end
      end
  end.

(** Early returns: [x ←! m; k] goes on with the value of [inr]. *)
Definition and_then {A B} (m : TcpError + A) (k : A -> option (TcpError + B)) : option (TcpError + B) :=
  match m with inl e => Some (inl e) | inr x => k x end.
Notation "x ←! m ; k" := (and_then m (fun x => k)) (at level 20, m at level 100, k at level 200).

Definition ok_or {A} (m : option A) : TcpError + A := match m with Some x => inr x | None => inl Length end.
Definition ensure (b : bool) : TcpError + unit := if b then inr tt else inl Length.

Definition tcp_packet (packet : list Z) (cursor : BufferPacketCursor) (ip_ecn : option Z) :
    option (TcpError + TcpPacket) :=
  let first_len := Z.min (vlen packet) (packet_len cursor) in
  _ ←! ensure (valid_tcp_cursor cursor first_len);
  network_header ←! ok_or (vslice packet (network_header_offset cursor) (transport_header_offset cursor));
  bytes_ ←! ok_or (vslice packet (transport_header_offset cursor) first_len);
  tcp ←! match tcp_header bytes_ with inl _ => inl Length | inr h => inr h end;
  let hlen := header_len tcp in
  _ ←! ensure ((transport_header_len cursor =? hlen) &&
              (transport_payload_offset cursor =? transport_header_offset cursor + hlen));
  b0 ←! ok_or (vget packet (network_header_offset cursor));
  let version := Z.shiftr b0 4 in
  src ←! source_ip version network_header;
  dst ←! destination_ip version network_header;
  opts ←! ok_or (vslice packet (transport_header_offset cursor + TCP_HEADER_MIN_LEN)
                 (transport_header_offset cursor + hlen));
  r ← read_loop (S (S (length opts))) (iter_new opts) read_default;
  s ←! r;
  let flags := get_flags tcp in
  plen ←! ensure (transport_payload_offset cursor <=? first_len);
  Some (inr (mk_packet (socket_addr dst (get_destination_port tcp)) (socket_addr src (get_source_port tcp))
    (get_sequence_number tcp)
    (if flag_contains flags ACK then Some (get_acknowledgment_number tcp) else None)
    (get_advertised_window tcp) flags (rd_capabilities s) (rd_sacks s) (rd_timestamp s) (rd_cookie s)
    (ecn_from_u8 <$> ip_ecn) (transport_payload_offset cursor)
    (first_len - transport_payload_offset cursor))).

(** ** The option loop on the reference list *)

Fixpoint read_items (s : read_state) (xs : list item) : option (TcpError + read_state) :=
  match xs with
  | [] => Some (inr s)
  | inl e :: _ => Some (inl e)
  | inr End_ :: _ => Some (inr s)
  | inr o :: xs =>
      r ← read_one s o;
      match r with inl e => Some (inl e) | inr s => read_items s xs end
  end.

Lemma read_loop_collect fuel it s xs : collect fuel it = Some xs -> read_loop fuel it s = read_items s xs.
Proof.
  revert it s xs. induction fuel as [|fuel IH]; intros it s xs H; [done|]. cbn [collect read_loop] in *.
  destruct (next it) as [[it' [[e|o]|]]|]; cbn [mbind option_bind] in *; [| |by simplify_eq|done];
    (destruct (collect fuel it') as [ys|] eqn:Hc; cbn [mbind option_bind] in H; [|done]); simplify_eq; [done|].
  cbn [read_items]. destruct o; try done; (destruct (read_one s _) as [[e|s']|]; cbn [mbind option_bind]; [done|by apply IH|done]).
Qed.

Lemma read_one_total s o : exists r, read_one s o = Some r /\ (forall e, r = inl e -> e = SegmentInvalid).
Proof.
  destruct o; try (eexists; split; [done|]; naive_solver). cbn [read_one].
  destruct (vlen cookie =? 0); [eexists; split; [done|]; naive_solver|].
  destruct (cookie_try_from_spec cookie) as (r & -> & _). cbn [mbind option_bind].
  destruct r; eexists; (split; [done|]); naive_solver.
Qed.

Lemma parse_errors fuel bs e : inl e ∈ parse_fuel fuel bs -> e = SegmentInvalid.
Proof.
  revert bs. induction fuel as [|fuel IH]; intros [|number tl]; cbn [parse_fuel]; try by intros ?%elem_of_nil.
  destruct (number =? 0); [by rewrite list_elem_of_singleton|].
  destruct (number =? 1); [rewrite elem_of_cons; intros [?|?]; [done|by eapply IH]|].
  destruct tl as [|len tl]; [rewrite list_elem_of_singleton; naive_solver|].
  destruct (_ || _); [rewrite list_elem_of_singleton; naive_solver|].
  destruct (decode _ _); [|rewrite list_elem_of_singleton; naive_solver].
  rewrite elem_of_app, list_elem_of_fmap. intros [(? & ? & _)|?]; [done|by eapply IH].
Qed.

Lemma read_items_total s xs :
  (forall e, inl e ∈ xs -> e = SegmentInvalid) ->
  exists r, read_items s xs = Some r /\ (forall e, r = inl e -> e = SegmentInvalid).
Proof.
  revert s. induction xs as [|[e|o] xs IH]; intros s Hx; cbn [read_items].
  - eexists. split; [done|]. naive_solver.
  - eexists. split; [done|]. intros e' [= <-]. apply Hx. left.
  - destruct o; try (eexists; split; [done|]; naive_solver);
      (match goal with |- context [read_one s ?o] => destruct (read_one_total s o) as (r & -> & Hr) end;
       cbn [mbind option_bind]; destruct r as [e|s'];
       [eexists; split; [done|]; naive_solver|apply IH; intros e He; apply Hx; by right]).
Qed.

Lemma read_loop_total opts :
  exists r, read_loop (S (S (length opts))) (iter_new opts) read_default = Some r /\
    (forall e, r = inl e -> e = SegmentInvalid).
Proof.
  rewrite (read_loop_collect _ _ _ _ (collect_all opts)). apply read_items_total.
  intros e. apply parse_errors.
Qed.

(** A step that may return early, and keeps the errors to these two. *)
Definition total_packet (r : option (TcpError + TcpPacket)) : Prop :=
  exists x, r = Some x /\ (forall e, x = inl e -> e = Length \/ e = SegmentInvalid).

Lemma and_then_total {A} (m : TcpError + A) (k : A -> option (TcpError + TcpPacket)) :
  (forall e, m = inl e -> e = Length \/ e = SegmentInvalid) -> (forall x, total_packet (k x)) ->
  total_packet (and_then m k).
Proof. intros Hm Hk. destruct m as [e|x]; cbn; [|apply Hk]. exists (inl e). split; [done|]. naive_solver. Qed.

Lemma ok_or_error {A} (m : option A) e : ok_or m = inl e -> e = Length \/ e = SegmentInvalid.
Proof. destruct m; cbn; naive_solver. Qed.

Lemma ensure_error b e : ensure b = inl e -> e = Length \/ e = SegmentInvalid.
Proof. destruct b; cbn; naive_solver. Qed.

Lemma ip_error version packet e :
  (source_ip version packet = inl e -> e = Length \/ e = SegmentInvalid) /\
  (destination_ip version packet = inl e -> e = Length \/ e = SegmentInvalid).
Proof.
  unfold source_ip, destination_ip. split; repeat case_match; naive_solver.
Qed.

(** C38: reading a received buffer is total: whatever its bytes are and
    whatever the cursor says, [tcp_packet] neither indexes out of range nor
    loops, and every rejected packet is rejected as [Length] or
    [SegmentInvalid]. *)
Theorem tcp_packet_total packet cursor ip_ecn : total_packet (tcp_packet packet cursor ip_ecn).
Proof.
  unfold tcp_packet. apply and_then_total; [apply ensure_error|]. intros _.
  apply and_then_total; [apply ok_or_error|]. intros network_header.
  apply and_then_total; [apply ok_or_error|]. intros bytes_.
  apply and_then_total; [destruct (tcp_header bytes_); naive_solver|]. intros tcp.
  apply and_then_total; [apply ensure_error|]. intros _.
  apply and_then_total; [apply ok_or_error|]. intros b0.
  apply and_then_total; [intros e; apply ip_error|]. intros src.
  apply and_then_total; [intros e; apply ip_error|]. intros dst.
  apply and_then_total; [apply ok_or_error|]. intros opts.
  destruct (read_loop_total opts) as (r & -> & Hr). cbn [mbind option_bind].
  apply and_then_total; [naive_solver|]. intros s.
  apply and_then_total; [apply ensure_error|]. intros _. eexists. split; [done|]. naive_solver.
Qed.

(** ** What a sent segment is read as *)

(** The options read from a list without end-of-list and bad cookies. *)
Definition opt_sack (o : TcpOption) : option TcpSackBlock := match o with SackBlock b => Some b | _ => None end.
Definition opt_timestamp (t : option TcpTimestampOption) (o : TcpOption) : option TcpTimestampOption :=
  match o with Timestamp t' => Some t' | _ => t end.
Definition opt_cookie (k : option TcpFastOpenCookie) (o : TcpOption) : option TcpFastOpenCookie :=
  match o with
  | FastOpenCookie c =>
      if vlen c =? 0 then k else match cookie_try_from c with Some (Some k') => Some k' | _ => k end
  | _ => k
  end.

Definition plain (o : TcpOption) : Prop :=
  match o with
  | End_ => False
  | FastOpenCookie c => vlen c = 0 \/ is_valid_len (vlen c) = true
  | _ => True
  end.

Definition read_fold (s : read_state) (os : list TcpOption) : read_state :=
  mk_read (foldl caps_option (rd_capabilities s) os) (rd_sacks s ++ omap opt_sack os)
    (foldl opt_timestamp (rd_timestamp s) os) (foldl opt_cookie (rd_cookie s) os).

Lemma read_one_plain s o : plain o -> read_one s o = Some (inr (read_fold s [o])).
Proof.
  intros Hp. destruct s as [c sk t k]. unfold read_fold. cbn [rd_capabilities rd_sacks rd_timestamp rd_cookie foldl omap list_omap].
  destruct o; cbn [opt_sack opt_timestamp opt_cookie plain read_one rd_capabilities rd_sacks rd_timestamp rd_cookie] in *;
    rewrite ?app_nil_r; try done.
  destruct (Z.eqb_spec (vlen cookie) 0); [done|]. destruct (cookie_try_from_spec cookie) as (r & -> & Hr).
  cbn [mbind option_bind]. destruct r; [done|]. destruct Hp as [|Hp]; [done|congruence].
Qed.

Lemma read_fold_cons s o os : read_fold (read_fold s [o]) os = read_fold s (o :: os).
Proof.
  unfold read_fold. cbn [rd_capabilities rd_sacks rd_timestamp rd_cookie foldl omap list_omap].
  f_equal. rewrite <- app_assoc. f_equal. by destruct (opt_sack o).
Qed.

Lemma read_items_plain os s xs :
  Forall plain os -> read_items s ((inr <$> os) ++ xs) = read_items (read_fold s os) xs.
Proof.
  intros Hos. revert s. induction Hos as [|o os Ho Hos IH]; intros s.
  { unfold read_fold. cbn. rewrite app_nil_r. by destruct s. }
  cbn [fmap list_fmap app]. rewrite <- read_fold_cons, <- IH. cbn [read_items].
  rewrite (read_one_plain s o Ho). cbn [mbind option_bind]. by destruct o.
Qed.

Lemma sent_plain h sacks : segment_ok h sacks -> Forall plain (sent_options h sacks).
Proof.
  intros Hok. assert (forall b ts, Forall plain (sent_timestamps b ts)) as Hts
    by (intros [] ts; repeat constructor).
  unfold sent_options. destruct (flag_contains (seg_flags h) SYN).
  - repeat apply Forall_app_2; [| | |apply Hts| |].
    + destruct (max_segment_size _); repeat constructor.
    + destruct (window_scale _); repeat constructor.
    + destruct (sack _); repeat constructor.
    + destruct (fast_open _); [|constructor]. constructor; [|constructor]. cbn [plain]. pose proof (ok_cookie _ _ Hok) as Hc.
      destruct (seg_fast_open_cookie h) as [k|]; [|by left]. cbn [cookie_bytes].
      rewrite (cookie_slice_len k) by (by apply Hc). by apply Hc.
    + destruct (accurate_ecn _); repeat constructor.
  - destruct (flag_contains (seg_flags h) ACK); [|constructor]. apply Forall_app_2; [apply Hts|].
    destruct (limited sacks) as [|b bs]; [constructor|]. cbn [sent_sacks]. do 2 (constructor; [done|]).
    apply Forall_fmap, Forall_true. done.
Qed.

(** The timestamp, cookie and SACK blocks a segment carries. *)
Definition carries_timestamp (h : TcpSegmentHeader) : option TcpTimestampOption :=
  if (flag_contains (seg_flags h) SYN || flag_contains (seg_flags h) ACK) && timestamps (seg_capabilities h)
  then Some (default (timestamp_option 0 0) (seg_timestamp h)) else None.
Definition carries_sacks (h : TcpSegmentHeader) sacks : list TcpSackBlock :=
  if negb (flag_contains (seg_flags h) SYN) && flag_contains (seg_flags h) ACK then limited sacks else [].
Definition carries_cookie (h : TcpSegmentHeader) : list Z :=
  if flag_contains (seg_flags h) SYN && fast_open (seg_capabilities h)
  then cookie_bytes (seg_fast_open_cookie h) else [].

Lemma sacks_fold bs :
  omap opt_sack (sent_sacks bs) = bs /\
  (forall t, foldl opt_timestamp t (sent_sacks bs) = t) /\ (forall k, foldl opt_cookie k (sent_sacks bs) = k).
Proof.
  destruct bs as [|b bs]; [done|]. cbn [sent_sacks foldl opt_timestamp opt_cookie omap list_omap opt_sack].
  generalize (b :: bs). intros l. split_and!; [|intros t|intros k]; induction l as [|x l IH]; try done; cbn in *; by rewrite ?IH.
Qed.

Lemma sent_fold h sacks :
  omap opt_sack (sent_options h sacks) = carries_sacks h sacks /\
  foldl opt_timestamp None (sent_options h sacks) = carries_timestamp h /\
  foldl opt_cookie None (sent_options h sacks) = opt_cookie None (FastOpenCookie (carries_cookie h)).
Proof.
  unfold sent_options, carries_sacks, carries_timestamp, carries_cookie.
  destruct (seg_capabilities h) as [mss ws sk ts ec ae fo].
  cbn [max_segment_size window_scale sack timestamps ecn accurate_ecn fast_open].
  destruct (flag_contains (seg_flags h) SYN); cbn [orb andb negb].
  - destruct mss, ws, sk, ts, fo, ae; split_and!; reflexivity.
  - destruct (flag_contains (seg_flags h) ACK); cbn [orb andb]; [|done].
    destruct (sacks_fold (limited sacks)) as (H1 & H2 & H3). rewrite omap_app, !foldl_app, H2, H3, H1. by destruct ts.
Qed.

Lemma vslice_app_shift {A} (l l' : list A) a b x :
  vslice l' a b = Some x -> vslice (l ++ l') (vlen l + a) (vlen l + b) = Some x.
Proof.
  unfold vslice. intros H. case_if_in H; simplify_eq. pose proof (vlen_nonneg l).
  rewrite (proj2 (Z.leb_le 0 _)), (proj2 (Z.leb_le (vlen l + a) _)), (proj2 (Z.leb_le (vlen l + b) _))
    by (rewrite ?vlen_app; lia).
  cbn [andb]. f_equal. rewrite drop_app_ge by (unfold vlen; lia). f_equal; [lia|]. f_equal. unfold vlen. lia.
Qed.

(** The cursor of a packet with IP header [network] and TCP header length [len]. *)
Definition cursor_for (network : list Z) (len total : Z) : BufferPacketCursor :=
  mk_cursor total 0 (vlen network) len (vlen network + len).


(** An IPv4 header from 10.0.0.1 to 10.0.0.2. *)
Definition example_ip4 : list Z :=
  [0x45; 0; 0; 0; 0; 0; 0; 0; 64; 6; 0; 0; 10; 0; 0; 1; 10; 0; 0; 2].



End TcpPacket.
