(* ===== verification/TcpSack.v ===== *)
(** * Selective acknowledgment of received ranges ([tcp/src/sack.rs])

    The receiver keeps the ranges that arrived ahead of [rcv_nxt] in a
    red-black tree keyed by their left edge, and threads a list through the
    values of the tree, most recently received first, by naming the left edges
    of the neighbours.  Sequence numbers are compared modulo 2^32, so the tree
    is ordered only as long as the edges lie in a window of 2^31.

    The loops of [prune_delivered] and of the merge remove a block per round:
    their fuel is the number of blocks.  [None] is a panic of the tree (an
    index that is not occupied); [TcpSackProofs] shows that there is none. *)

From S2P Require Import Prelude InfraPool InfraRbTree TcpProtocol TcpOptions.

Module TcpSack.
Import TcpProtocol TcpOptions.

Definition TCP_MAX_SACK_BLOCKS : Z := 255.
Definition TCP_OUTPUT_SACK_BLOCKS : Z := 4.
Definition TCP_OUTPUT_SACK_BLOCKS_WITH_TIMESTAMPS : Z := 3.

Record TcpSackRange : Type := sack_range { rg_left : Z; rg_right : Z }.

Definition to_block (r : TcpSackRange) : TcpSackBlock := sack_block (rg_left r) (rg_right r).

Record TcpSackBlockState : Type := block_state {
  right : Z;
  prev_recent : option Z;
  next_recent : option Z
}.
Definition block_new (right : Z) : TcpSackBlockState := block_state right None None.
Definition block_default : TcpSackBlockState := block_state 0 None None.
Definition range (s : TcpSackBlockState) (left : Z) : TcpSackRange := sack_range left (right s).
Definition with_next (n : option Z) (s : TcpSackBlockState) : TcpSackBlockState :=
  block_state (right s) (prev_recent s) n.
Definition with_prev (n : option Z) (s : TcpSackBlockState) : TcpSackBlockState :=
  block_state (right s) n (next_recent s).

Definition block_tree : Type := @RbTree.t Z TcpSackBlockState.

Record TcpSackState : Type := sack_state {
  blocks : block_tree;
  recent_head : option Z;
  recent_tail : option Z;
  pending_dsack : option TcpSackRange;
  output_pos : Z
}.

Definition set_blocks (b : block_tree) (s : TcpSackState) : TcpSackState :=
  sack_state b (recent_head s) (recent_tail s) (pending_dsack s) (output_pos s).
Definition set_head (h : option Z) (s : TcpSackState) : TcpSackState :=
  sack_state (blocks s) h (recent_tail s) (pending_dsack s) (output_pos s).
Definition set_tail (h : option Z) (s : TcpSackState) : TcpSackState :=
  sack_state (blocks s) (recent_head s) h (pending_dsack s) (output_pos s).
Definition set_dsack (d : option TcpSackRange) (s : TcpSackState) : TcpSackState :=
  sack_state (blocks s) (recent_head s) (recent_tail s) d (output_pos s).
Definition set_pos (n : Z) (s : TcpSackState) : TcpSackState :=
  sack_state (blocks s) (recent_head s) (recent_tail s) (pending_dsack s) n.

(** [TcpSeq] and the block state have [Default]. *)
Definition tree_with_capacity (c : Z) : option block_tree := RbTree.with_capacity 0 block_default c.

Definition default_sack : option TcpSackState :=
  b ← tree_with_capacity 8; Some (sack_state b None None None 0).

Definition block_count (s : TcpSackState) : Z := RbTree.len (blocks s).
Definition reset_output_position (s : TcpSackState) : TcpSackState := set_pos 0 s.

(** [Ord::max] and [Ord::min] of [TcpSeq]. *)
Definition seq_max (a b : Z) : Z := if seq_lt b a then a else b.
Definition seq_min (a b : Z) : Z := if seq_lt b a then b else a.

Definition ranges_overlap_or_touch (l r : TcpSackRange) : bool :=
  seq_le (rg_left r) (rg_right l) && seq_le (rg_left l) (rg_right r).

Definition tree_get (s : TcpSackState) (k : Z) : option (option TcpSackBlockState) :=
  RbTree.get seq_cmp (blocks s) k.
(** [if let Some(x) = self.blocks.get_mut(&k) { f(x) }] *)
Definition tree_update (s : TcpSackState) (k : Z) (f : TcpSackBlockState -> TcpSackBlockState) : option TcpSackState :=
  '(b, _) ← RbTree.get_mut seq_cmp (blocks s) k f; Some (set_blocks b s).

Definition clear_blocks (s : TcpSackState) : option TcpSackState :=
  b ← tree_with_capacity (Z.max (RbTree.len (blocks s)) 1);
  Some (sack_state b None None (pending_dsack s) 0).

Definition reset_if_past (s : TcpSackState) : TcpSackState :=
  if RbTree.len (blocks s) <? output_pos s then set_pos 0 s else s.

Definition detach_recent (s : TcpSackState) (state : TcpSackBlockState) : option TcpSackState :=
  s ← match prev_recent state with
      | Some prev => tree_update s prev (with_next (next_recent state))
      | None => Some (set_head (next_recent state) s)
      end;
  s ← match next_recent state with
      | Some next => tree_update s next (with_prev (prev_recent state))
      | None => Some (set_tail (prev_recent state) s)
      end;
  Some (reset_if_past s).

Definition remove_block (s : TcpSackState) (left : Z) : option (TcpSackState * option TcpSackRange) :=
  g ← tree_get s left;
  match g with
  | None => Some (s, None)
  | Some state =>
    s ← detach_recent s state;
    '(b, removed) ← RbTree.remove seq_cmp (blocks s) left;
    Some (set_blocks b s, option_map (fun st => range st left) removed)
  end.

Definition rename_block_left (s : TcpSackState) (old_left new_left : Z) : option TcpSackState :=
  (* [old_left >= new_left || contains_key], in this order *)
  if negb (seq_lt old_left new_left) then Some s else
  c ← RbTree.contains_key seq_cmp (blocks s) new_left;
  if (c : bool) then Some s else
  '(b, removed) ← RbTree.remove seq_cmp (blocks s) old_left;
  let s := set_blocks b s in
  match removed with
  | None => Some s
  | Some state =>
    '(b, _) ← RbTree.insert seq_cmp (blocks s) new_left state;
    let s := set_blocks b s in
    s ← match prev_recent state with
        | Some prev => tree_update s prev (with_next (Some new_left))
        | None => Some (set_head (Some new_left) s)
        end;
    match next_recent state with
    | Some next => tree_update s next (with_prev (Some new_left))
    | None => Some (set_tail (Some new_left) s)
    end
  end.

Fixpoint prune_loop (n : nat) (s : TcpSackState) (rcv_nxt : Z) : option TcpSackState :=
  match n with
  | O => None
  | S n' =>
    f ← RbTree.first (blocks s);
    match f with
    | None => Some s
    | Some (edge, state) =>
      if seq_le (right state) rcv_nxt then
        '(s, _) ← remove_block s edge; prune_loop n' s rcv_nxt
      else if seq_lt edge rcv_nxt then rename_block_left s edge rcv_nxt
      else Some s
    end
  end.
Definition loop_fuel (s : TcpSackState) : nat := S (Z.to_nat (RbTree.len (blocks s))).
Definition prune_delivered (s : TcpSackState) (rcv_nxt : Z) : option TcpSackState :=
  prune_loop (loop_fuel s) s rcv_nxt.

Definition insert_block_as_most_recent (s : TcpSackState) (block : TcpSackRange) : option TcpSackState :=
  let state := with_next (recent_head s) (block_new (rg_right block)) in
  let previous_head := recent_head s in
  '(b, _) ← RbTree.insert seq_cmp (blocks s) (rg_left block) state;
  let s := set_blocks b s in
  s ← match previous_head with
      | Some head => tree_update s head (with_prev (Some (rg_left block)))
      | None => Some (set_tail (Some (rg_left block)) s)
      end;
  Some (set_pos 0 (set_head (Some (rg_left block)) s)).

Fixpoint trim_loop (n : nat) (s : TcpSackState) : option TcpSackState :=
  match n with
  | O => None
  | S n' =>
    if TCP_MAX_SACK_BLOCKS <? RbTree.len (blocks s) then
      match recent_tail s with
      | None => Some s
      | Some edge => '(s, _) ← remove_block s edge; trim_loop n' s
      end
    else Some s
  end.
Definition trim_block_capacity (s : TcpSackState) : option TcpSackState :=
  s ← trim_loop (loop_fuel s) s; Some (reset_if_past s).

(** Removes a block and widens the range by it; [None] inside is the early
    [return] of the caller. *)
Definition absorb (s : TcpSackState) (merged : TcpSackRange) (left : Z) : option (TcpSackState * option TcpSackRange) :=
  '(s, removed) ← remove_block s left;
  Some (s, option_map (fun r => sack_range (seq_min (rg_left merged) (rg_left r)) (seq_max (rg_right merged) (rg_right r))) removed).

Definition merge_equal (s : TcpSackState) (merged : TcpSackRange) : option (TcpSackState * option TcpSackRange) :=
  existing ← tree_get s (rg_left merged);
  match existing with
  | Some st => if ranges_overlap_or_touch merged (range st (rg_left merged)) then absorb s merged (rg_left merged) else Some (s, Some merged)
  | None => Some (s, Some merged)
  end.

Definition merge_predecessor (s : TcpSackState) (merged : TcpSackRange) : option (TcpSackState * option TcpSackRange) :=
  e ← RbTree.predecessor seq_cmp (blocks s) (rg_left merged);
  match e with
  | Some (edge, st) => if ranges_overlap_or_touch merged (range st edge) then absorb s merged edge else Some (s, Some merged)
  | None => Some (s, Some merged)
  end.

Fixpoint merge_successors (n : nat) (s : TcpSackState) (merged : TcpSackRange) : option (TcpSackState * option TcpSackRange) :=
  match n with
  | O => None
  | S n' =>
    e ← RbTree.successor seq_cmp (blocks s) (rg_left merged);
    match e with
    | None => Some (s, Some merged)
    | Some (edge, st) =>
      if negb (ranges_overlap_or_touch merged (range st edge)) then Some (s, Some merged) else
      '(s, m) ← absorb s merged edge;
      match m with None => Some (s, None) | Some merged => merge_successors n' s merged end
    end
  end.

Definition update_range (s : TcpSackState) (enabled : bool) (rcv_nxt left right : Z) : option TcpSackState :=
  if negb enabled then s ← clear_blocks s; Some (set_dsack None s) else
  s ← prune_delivered s rcv_nxt;
  if seq_le right left then Some s else
  let merged := sack_range (seq_max left rcv_nxt) right in
  if seq_le (rg_right merged) (rg_left merged) then Some s else
  '(s, m) ← merge_equal s merged;
  match m with
  | None => Some s
  | Some merged =>
    '(s, m) ← merge_predecessor s merged;
    match m with
    | None => Some s
    | Some merged =>
      '(s, m) ← merge_successors (loop_fuel s) s merged;
      match m with
      | None => Some s
      | Some merged => s ← insert_block_as_most_recent s merged; trim_block_capacity s
      end
    end
  end.

Definition set_duplicate (s : TcpSackState) (enabled : bool) (left right : Z) : TcpSackState :=
  if negb enabled then set_dsack None s else set_dsack (Some (sack_range left right)) s.

(** ** Output *)

Definition zero_sack_block : TcpSackBlock := sack_block 0 0.

(** The loop that skips [output_pos] blocks; [inl] is the [?] of [get]. *)
Fixpoint skip_loop (n : nat) (s : TcpSackState) (cursor : option Z) : option (unit + TcpSackState * option Z) :=
  match n with
  | O => Some (inr (s, cursor))
  | S n' =>
    match cursor with
    | None => Some (inr (set_pos 0 s, recent_head s))
    | Some edge =>
      g ← tree_get s edge;
      match g with
      | None => Some (inl tt)
      | Some state => skip_loop n' s (next_recent state)
      end
    end
  end.

Fixpoint emit_loop (n : nat) (s : TcpSackState) (cursor : option Z) (limit emitted count : Z) (output : list TcpSackBlock) :
    option (unit + Z * Z * list TcpSackBlock) :=
  match cursor with
  | None => Some (inr (emitted, count, output))
  | Some edge =>
    if (emitted =? limit) || (count =? vlen output) then Some (inr (emitted, count, output)) else
    match n with
    | O => None
    | S n' =>
      g ← tree_get s edge;
      match g with
      | None => Some (inl tt)
      | Some state =>
        output ← vset output count (to_block (range state edge));
        emit_loop n' s (next_recent state) limit (emitted + 1) (count + 1) output
      end
    end
  end.

Definition output_limit (timestamps : bool) : Z :=
  if timestamps then TCP_OUTPUT_SACK_BLOCKS_WITH_TIMESTAMPS else TCP_OUTPUT_SACK_BLOCKS.

Definition take_output (s : TcpSackState) (enabled timestamps : bool) (flags : Z) :
    option (TcpSackState * option (list TcpSackBlock * Z)) :=
  if negb enabled || negb (flag_contains flags ACK) then Some (s, None) else
  let output := replicate 4 zero_sack_block in
  '(output, count) ← match pending_dsack s with
    | Some dsack => o ← vset output 0 (to_block dsack); Some (o, 1)
    | None => Some (output, 0)
    end;
  let s := set_dsack None s in
  let limit := saturating_sub (output_limit timestamps) count in
  let then_some o c := if negb (c =? 0) then Some (o, c) else None in
  if (limit =? 0) || RbTree.is_empty (blocks s) then Some (s, then_some output count) else
  let s := if RbTree.len (blocks s) <=? output_pos s then set_pos 0 s else s in
  sk ← skip_loop (Z.to_nat (output_pos s)) s (recent_head s);
  match sk with
  | inl _ => Some (s, None)
  | inr (s, cursor) =>
    r ← emit_loop 4 s cursor limit 0 count output;
    match r with
    | inl _ => Some (s, None)
    | inr (emitted, count, output) =>
      Some (set_pos (saturating_add 64 (output_pos s) emitted) s, then_some output count)
    end
  end.

Definition has_pending_output (s : TcpSackState) (timestamps : bool) : bool :=
  match pending_dsack s with Some _ => true | None => false end ||
  (output_limit timestamps <? RbTree.len (blocks s)) || (output_pos s <? RbTree.len (blocks s)).

End TcpSack.
