(* ===== verification/TcpSackProofs.v ===== *)
(** * The SACK state refines a list of received ranges

    The edges are written without wrap-around: [wr] is the sequence number of
    an integer, and all edges of a state lie in a window of 2^31 from some base
    [B].  A state stands for the list of its ranges, most recent first
    ([sack_ok]): the tree holds each range under its left edge with the left
    edges of its neighbours in that list.

    The reference operations are [prune], which cuts off what has been
    delivered, and [add_range], which replaces the ranges that overlap or touch
    a new one by their union, put first. *)

From S2P Require Import Prelude Ranges InfraPool InfraRbTree InfraRbOps InfraRbMap TcpProtocol TcpOptions TcpSack.

Module TcpSackProofs.
Import Ranges TcpProtocol TcpOptions TcpSack RbMap RbOps.

(** ** Windows of sequence numbers *)

Definition dom (B k : Z) : Prop := exists x, win B x /\ k = wr x.

Lemma seq_cmp_win B x y : win B x -> win B y -> seq_cmp (wr x) (wr y) = (x ?= y).
Proof.
  intros Hx Hy. unfold win in *. replace (x ?= y) with ((x - B) ?= (y - B)).
  2: { destruct (Z.compare_spec (x - B) (y - B)); destruct (Z.compare_spec x y); try done; lia. }
  rewrite <- (seq_cmp_advance (wr B)); [|by apply wrap_bounds|lia..].
  unfold advance, wr, wrap. rewrite !Zplus_mod_idemp_l. by rewrite !Zplus_minus.
Qed.

Lemma wr_inj B x y : win B x -> win B y -> wr x = wr y -> x = y.
Proof.
  intros Hx Hy E. apply Z.compare_eq. rewrite <- (seq_cmp_win B), E by done. unfold seq_cmp. by rewrite Z.eqb_refl.
Qed.

#[export] Instance window_order B : KeyOrder seq_cmp (dom B).
Proof.
  constructor.
  - intros k k' (x & Hx & ->) (y & Hy & ->). rewrite (seq_cmp_win B) by done. rewrite Z.compare_eq_iff.
    split; [by intros ->|by apply (wr_inj B)].
  - intros k k' (x & Hx & ->) (y & Hy & ->). rewrite !(seq_cmp_win B) by done. apply Z.compare_antisym.
  - intros k k' k'' (x & Hx & ->) (y & Hy & ->) (z & Hz & ->). rewrite !(seq_cmp_win B) by done. rewrite !Z.compare_lt_iff. lia.
Qed.

Lemma seq_lt_win B x y : win B x -> win B y -> seq_lt (wr x) (wr y) = (x <? y).
Proof. intros Hx Hy. unfold seq_lt. by rewrite (seq_cmp_win B). Qed.
Lemma seq_le_win B x y : win B x -> win B y -> seq_le (wr x) (wr y) = (x <=? y).
Proof. intros Hx Hy. unfold seq_le. by rewrite (seq_cmp_win B). Qed.
Lemma seq_max_win B x y : win B x -> win B y -> seq_max (wr x) (wr y) = wr (Z.max x y).
Proof. intros Hx Hy. unfold seq_max. rewrite (seq_lt_win B) by done. destruct (Z.ltb_spec y x); f_equal; lia. Qed.
Lemma seq_min_win B x y : win B x -> win B y -> seq_min (wr x) (wr y) = wr (Z.min x y).
Proof. intros Hx Hy. unfold seq_min. rewrite (seq_lt_win B) by done. destruct (Z.ltb_spec y x); f_equal; lia. Qed.

(** ** Ranges on the wire *)

Implicit Types (a b c m : rng) (rs : list rng).

Definition wire m : TcpSackRange := sack_range (wr m.1) (wr m.2).

Lemma wire_overlap B a b : valid B a -> valid B b -> ranges_overlap_or_touch (wire a) (wire b) = touch a b.
Proof.
  intros Ha Hb. unfold ranges_overlap_or_touch, touch, wire, valid in *. cbn.
  rewrite !(seq_le_win B) by (unfold win; lia). done.
Qed.

(** ** Reference operations *)

Definition cut (rcv : Z) b : option rng := if b.2 <=? rcv then None else Some (Z.max b.1 rcv, b.2).
Definition prune (rcv : Z) rs : list rng := omap (cut rcv) rs.
Lemma prune_covers rcv rs x : covers (prune rcv rs) x <-> covers rs x /\ rcv <= x.
Proof.
  unfold covers, prune, cut. split.
  - intros (b & (c & Hc & E)%list_elem_of_omap & Hx). destruct (Z.leb_spec c.2 rcv); [done|]. injection E as <-. cbn in Hx.
    split; [|lia]. exists c. split; [done|lia].
  - intros ((b & Hb & Hx) & Hr). exists (Z.max b.1 rcv, b.2). cbn. split; [|lia]. apply list_elem_of_omap. exists b. split; [done|].
    rewrite (proj2 (Z.leb_gt _ _)) by lia. done.
Qed.

(** ** The recency list in the tree *)

Definition edge b : Z := wr b.1.
Definition first_edge rs (next : option Z) : option Z := match rs with [] => next | b :: _ => Some (edge b) end.
Definition last_edge (prev : option Z) rs : option Z := foldl (fun _ b => Some (edge b)) prev rs.

(** The blocks of [rs] with their neighbours, [prev] and [next] around them. *)
Fixpoint linked (prev : option Z) rs (next : option Z) : list (Z * TcpSackBlockState) :=
  match rs with
  | [] => []
  | b :: rs => (edge b, block_state (wr b.2) prev (first_edge rs next)) :: linked (Some (edge b)) rs next
  end.
Definition link_map rs : gmap Z TcpSackBlockState := list_to_map (linked None rs None).

Lemma linked_app prev rs1 rs2 next :
  linked prev (rs1 ++ rs2) next = linked prev rs1 (first_edge rs2 next) ++ linked (last_edge prev rs1) rs2 next.
Proof.
  revert prev. induction rs1 as [|b rs1 IH]; intros prev; cbn; [done|]. rewrite IH. do 3 f_equal. by destruct rs1.
Qed.

Lemma linked_edges prev rs next : (linked prev rs next).*1 = edge <$> rs.
Proof. revert prev. induction rs as [|b rs IH]; intros prev; cbn; [done|]. by rewrite IH. Qed.

Lemma last_edge_snoc prev rs b : last_edge prev (rs ++ [b]) = Some (edge b).
Proof. unfold last_edge. by rewrite foldl_app. Qed.

Lemma first_last_edge rs : last_edge None rs = edge <$> list.last rs.
Proof. induction rs as [|b rs _] using rev_ind; [done|]. by rewrite last_edge_snoc, last_snoc. Qed.

(** Changing the [next] of the last block of a segment, the [prev] of the first. *)
Lemma relink_next rs1 x n l2 :
  NoDup (edge <$> rs1) ->
  match last_edge None rs1 with
  | Some p => alter (with_next n) p (list_to_map (linked None rs1 x ++ l2) : gmap Z _) = list_to_map (linked None rs1 n ++ l2)
  | None => rs1 = []
  end.
Proof.
  destruct rs1 as [|b rs1 _] using rev_ind; [done|]. rewrite last_edge_snoc, !linked_app, <- !app_assoc, fmap_app. cbn [linked app first_edge].
  intros (_ & Hn & _)%NoDup_app. apply (alter_middle (with_next n)). rewrite linked_edges. intros Hin. by apply (Hn (edge b)), list_elem_of_here.
Qed.

Lemma relink_prev p p' rs2 l1 :
  (forall k, k ∈ l1.*1 -> k ∉ edge <$> rs2) ->
  match first_edge rs2 None with
  | Some k => alter (with_prev p') k (list_to_map (l1 ++ linked p rs2 None) : gmap Z _) = list_to_map (l1 ++ linked p' rs2 None)
  | None => rs2 = []
  end.
Proof.
  destruct rs2 as [|b rs2]; [done|]. cbn [first_edge linked]. intros Hn. apply (alter_middle (with_prev p')).
  intros Hin. by apply (Hn (edge b)), list_elem_of_here.
Qed.

(** ** The invariant *)

Record sack_ok (B : Z) (s : TcpSackState) rs : Prop := mk_sack_ok {
  ok_tree : holds seq_cmp (dom B) (blocks s) (link_map rs);
  ok_head : recent_head s = first_edge rs None;
  ok_tail : recent_tail s = last_edge None rs;
  ok_valid : Forall (valid B) rs;
  ok_sep : separated rs;
  ok_pos : 0 <= output_pos s
}.

Lemma edge_dom B b : valid B b -> dom B (edge b).
Proof. intros [? ?]. exists b.1. unfold win. split; [lia|done]. Qed.

Lemma edges_nodup B rs : Forall (valid B) rs -> separated rs -> NoDup (edge <$> rs).
Proof.
  induction rs as [|b rs IH]; cbn; [constructor|]. intros [Hb Hv]%Forall_cons [Ha Hs]. constructor; [|by apply IH].
  intros (c & E & Hc)%list_elem_of_fmap. rewrite Forall_forall in Ha, Hv. specialize (Ha c Hc). specialize (Hv c Hc).
  unfold valid, apart in *. apply (wr_inj B) in E; unfold win; lia.
Qed.

Lemma ok_nodup B s rs1 b rs2 : sack_ok B s (rs1 ++ b :: rs2) ->
  NoDup (edge <$> rs1) /\ NoDup (edge <$> rs2) /\ (edge b ∉ edge <$> rs1) /\ (edge b ∉ edge <$> rs2) /\
  (forall k, k ∈ edge <$> rs1 -> k ∉ edge <$> rs2) /\ dom B (edge b) /\ valid B b.
Proof.
  intros [_ _ _ Hv Hs _]. pose proof (edges_nodup B _ Hv Hs) as H. rewrite fmap_app in H. cbn in H.
  apply NoDup_app in H as (H1 & H2 & [H3 H4]%NoDup_cons). apply Forall_app in Hv as [_ [Hb _]%Forall_cons].
  split_and!; try done; [| |by apply edge_dom].
  - intros Hin. by apply (H2 _ Hin), list_elem_of_here.
  - intros k Hk Hk'. apply (H2 _ Hk). by right.
Qed.

Lemma tree_update_spec B s mp k f :
  holds seq_cmp (dom B) (blocks s) mp -> dom B k ->
  exists tr, tree_update s k f = Some (set_blocks tr s) /\ holds seq_cmp (dom B) tr (alter f k mp).
Proof.
  intros H Hk. unfold tree_update. destruct (holds_get_mut seq_cmp (dom B) _ _ k f H Hk) as (tr & x & -> & H'). by exists tr.
Qed.

Lemma ok_len B s rs : sack_ok B s rs -> RbTree.len (blocks s) = vlen rs /\ RbTree.is_empty (blocks s) = bool_decide (rs = []).
Proof.
  intros [Ht _ _ Hv Hs _]. destruct (holds_len seq_cmp (dom B) _ _ Ht) as [-> ->]. unfold link_map. split.
  - rewrite map_size_list_to_map by (rewrite linked_edges; by eapply edges_nodup).
    rewrite <- (length_fmap fst), linked_edges, length_fmap. done.
  - apply bool_decide_ext. destruct rs as [|b rs]; [done|]. split; [cbn; intros E; by apply insert_non_empty in E|done].
Qed.

Lemma ok_lookup B s rs1 b rs2 : sack_ok B s (rs1 ++ b :: rs2) ->
  link_map (rs1 ++ b :: rs2) !! edge b = Some (block_state (wr b.2) (last_edge None rs1) (first_edge rs2 None)).
Proof.
  intros H. destruct (ok_nodup B s rs1 b rs2 H) as (_ & _ & Hn & _). unfold link_map. rewrite linked_app. cbn [linked].
  apply lookup_middle. by rewrite linked_edges.
Qed.

Lemma ok_get B s rs1 b rs2 : sack_ok B s (rs1 ++ b :: rs2) ->
  tree_get s (edge b) = Some (Some (block_state (wr b.2) (last_edge None rs1) (first_edge rs2 None))).
Proof.
  intros H. destruct (ok_nodup B s rs1 b rs2 H) as (_ & _ & _ & _ & _ & Hd & _).
  unfold tree_get. rewrite (holds_get seq_cmp (dom B) _ _ _ (ok_tree _ _ _ H) Hd). by rewrite (ok_lookup B s).
Qed.

(** A key of the tree is the edge of a range. *)
Lemma ok_key B s rs k st : sack_ok B s rs -> link_map rs !! k = Some st ->
  exists rs1 b rs2, rs = rs1 ++ b :: rs2 /\ k = edge b /\ right st = wr b.2.
Proof.
  intros H Hk. assert (k ∈ (linked None rs None).*1) as Hin.
  { apply elem_of_list_to_map_2 in Hk. apply list_elem_of_fmap. by exists (k, st). }
  rewrite linked_edges in Hin. apply list_elem_of_fmap in Hin as (b & -> & Hb).
  apply list_elem_of_split in Hb as (rs1 & rs2 & ->). exists rs1, b, rs2. split_and!; try done.
  rewrite (ok_lookup B s) in Hk by done. by injection Hk as <-.
Qed.
(** ** Removing, renaming and inserting a block *)

(** What the helpers leave alone. *)
Definition same_dsack (s s' : TcpSackState) : Prop := pending_dsack s' = pending_dsack s.

Lemma reset_if_past_ok B s rs : sack_ok B s rs -> sack_ok B (reset_if_past s) rs /\ same_dsack s (reset_if_past s).
Proof. intros [H1 H2 H3 H4 H5 H6]. unfold reset_if_past, same_dsack. destruct (_ <? _); split; try done; by constructor. Qed.

Lemma link_left B s rs1 x n l2 :
  holds seq_cmp (dom B) (blocks s) (list_to_map (linked None rs1 x ++ l2)) -> Forall (valid B) rs1 -> NoDup (edge <$> rs1) ->
  exists tr, match last_edge None rs1 with
    | Some p => tree_update s p (with_next n)
    | None => Some (set_head n s)
    end = Some (set_blocks tr (match rs1 with [] => set_head n s | _ => s end)) /\
    holds seq_cmp (dom B) tr (list_to_map (linked None rs1 n ++ l2)).
Proof.
  intros Ht Hv Hn. pose proof (relink_next rs1 x n l2 Hn) as R. destruct (last_edge None rs1) as [p|] eqn:E.
  - destruct (tree_update_spec B s _ p (with_next n) Ht) as (tr & -> & Htr).
    { rewrite first_last_edge in E. destruct (list.last rs1) as [c|] eqn:El; [|done]. injection E as <-. apply edge_dom.
      apply last_Some_elem_of in El. rewrite Forall_forall in Hv. by apply Hv. }
    rewrite R in Htr. exists tr. by destruct rs1.
  - subst rs1. exists (blocks s). by destruct s.
Qed.

Lemma link_right B s l1 p p' rs2 :
  holds seq_cmp (dom B) (blocks s) (list_to_map (l1 ++ linked p rs2 None)) -> Forall (valid B) rs2 ->
  (forall k, k ∈ l1.*1 -> k ∉ edge <$> rs2) ->
  exists tr, match first_edge rs2 None with
    | Some k => tree_update s k (with_prev p')
    | None => Some (set_tail p' s)
    end = Some (set_blocks tr (match rs2 with [] => set_tail p' s | _ => s end)) /\
    holds seq_cmp (dom B) tr (list_to_map (l1 ++ linked p' rs2 None)).
Proof.
  intros Ht Hv Hn. pose proof (relink_prev p p' rs2 l1 Hn) as R. destruct (first_edge rs2 None) as [k|] eqn:E.
  - destruct (tree_update_spec B s _ k (with_prev p') Ht) as (tr & -> & Htr).
    { destruct rs2 as [|c rs2]; [done|]. injection E as <-. apply edge_dom. by apply Forall_cons in Hv as [? _]. }
    rewrite R in Htr. exists tr. by destruct rs2.
  - subst rs2. exists (blocks s). by destruct s.
Qed.

Lemma detach_spec B s rs1 b rs2 :
  sack_ok B s (rs1 ++ b :: rs2) ->
  exists s', detach_recent s (block_state (wr b.2) (last_edge None rs1) (first_edge rs2 None)) = Some s' /\ same_dsack s s' /\
    holds seq_cmp (dom B) (blocks s') (list_to_map (linked None rs1 (first_edge rs2 None) ++
      (edge b, block_state (wr b.2) (last_edge None rs1) (first_edge rs2 None)) :: linked (last_edge None rs1) rs2 None)) /\
    recent_head s' = first_edge (rs1 ++ rs2) None /\ recent_tail s' = last_edge None (rs1 ++ rs2) /\ 0 <= output_pos s'.
Proof.
  intros H. destruct (ok_nodup B s rs1 b rs2 H) as (N1 & N2 & N3 & N4 & N5 & Hd & _). pose proof H as [Ht Hh Htl Hv Hs Hp].
  apply Forall_app in Hv as [Hv1 [_ Hv2]%Forall_cons].
  unfold detach_recent. cbn [prev_recent next_recent]. unfold link_map in Ht. rewrite linked_app in Ht. cbn [linked first_edge] in Ht.
  set (st := block_state _ _ _) in *.
  destruct (link_left B s rs1 _ (first_edge rs2 None) _ Ht Hv1 N1) as (tr & -> & H1). cbn [mbind option_bind].
  set (s1 := match rs1 with [] => _ | _ => s end).
  rewrite cons_middle, app_assoc in H1.
  destruct (link_right B (set_blocks tr s1) _ _ (last_edge None rs1) rs2 H1 Hv2) as (tr' & -> & H2).
  { rewrite fmap_app, linked_edges. intros k [?| ->%list_elem_of_singleton]%elem_of_app; [by apply N5|done]. }
  cbn [mbind option_bind]. eexists. split; [done|]. rewrite <- app_assoc in H2. cbn [app] in H2.
  assert (recent_head s1 = first_edge (rs1 ++ rs2) None) as Eh by (unfold s1; by destruct rs1).
  assert (last_edge None (rs1 ++ rs2) = match rs2 with [] => last_edge None rs1 | _ => recent_tail s end) as ->.
  { rewrite Htl. unfold last_edge. rewrite !foldl_app. by destruct rs2. }
  assert (recent_tail s1 = recent_tail s /\ output_pos s1 = output_pos s /\ pending_dsack s1 = pending_dsack s) as (E1 & E2 & E3)
    by (unfold s1; by destruct rs1).
  unfold reset_if_past, same_dsack. destruct (_ <? _); destruct rs2; cbn; rewrite ?E1, ?E2, ?E3; by split_and!.
Qed.

Lemma remove_block_spec B s rs1 b rs2 :
  sack_ok B s (rs1 ++ b :: rs2) ->
  exists s', remove_block s (edge b) = Some (s', Some (wire b)) /\ sack_ok B s' (rs1 ++ rs2) /\ same_dsack s s'.
Proof.
  intros H. destruct (ok_nodup B s rs1 b rs2 H) as (N1 & N2 & N3 & N4 & N5 & Hd & Hb). pose proof H as [Ht Hh Htl Hv Hs Hp].
  unfold remove_block. rewrite (ok_get B s rs1 b rs2 H). cbn [mbind option_bind].
  destruct (detach_spec B s rs1 b rs2 H) as (s1 & -> & Hds & H1 & Hh1 & Ht1 & Hp1). cbn [mbind option_bind].
  destruct (holds_remove seq_cmp (dom B) _ _ (edge b) H1 Hd) as (tr & -> & H2). cbn [mbind option_bind].
  rewrite lookup_middle by (by rewrite linked_edges). cbn [option_map].
  rewrite delete_middle in H2 by (by rewrite linked_edges). exists (set_blocks tr s1). split; [done|]. split; [|done].
  apply Forall_app in Hv as [Hv1 [_ Hv2]%Forall_cons]. apply separated_middle in Hs as [Hs _].
  constructor; try done; [|by apply Forall_app]. unfold link_map. by rewrite linked_app.
Qed.

Lemma rename_spec B s rs1 b rs2 l' :
  sack_ok B s (rs1 ++ b :: rs2) -> b.1 < l' < b.2 -> vlen (rs1 ++ rs2) + 1 < 2 ^ 32 ->
  exists s', rename_block_left s (edge b) (wr l') = Some s' /\ sack_ok B s' (rs1 ++ (l', b.2) :: rs2) /\ same_dsack s s'.
Proof.
  intros H Hl Hcap. destruct (ok_nodup B s rs1 b rs2 H) as (N1 & N2 & N3 & N4 & N5 & Hd & Hb). pose proof H as [Ht Hh Htl Hv Hs Hp].
  assert (valid B (l', b.2)) as Hb' by (unfold valid in *; cbn; lia). pose proof (edge_dom B _ Hb') as Hd'. unfold edge in Hd'. cbn in Hd'.
  assert (Forall (valid B) (rs1 ++ (l', b.2) :: rs2)) as Hv' by (rewrite Forall_app, Forall_cons in *; tauto).
  assert (separated (rs1 ++ (l', b.2) :: rs2)) as Hs'.
  { apply separated_middle in Hs as [Hs Ha]. apply separated_middle. split; [done|]. eapply Forall_impl; [exact Ha|].
    unfold apart. cbn. lia. }
  pose proof (edges_nodup B _ Hv' Hs') as N'. rewrite fmap_app in N'. cbn in N'. apply NoDup_app in N' as (_ & N6 & [N7 _]%NoDup_cons).
  assert (wr l' ∉ edge <$> rs1) as N8 by (intros Hin; by apply (N6 _ Hin), list_elem_of_here).
  assert (wr l' <> edge b) as Hne by (intros E; apply (wr_inj B) in E; unfold valid, win in *; lia).
  unfold rename_block_left.
  assert (seq_lt (edge b) (wr l') = true) as ->.
  { unfold edge. rewrite (seq_lt_win B), Z.ltb_lt by (unfold valid, win in *; lia). lia. }
  cbn [negb].
  rewrite (holds_contains seq_cmp (dom B) _ _ _ Ht Hd'). cbn [mbind option_bind].
  rewrite bool_decide_false.
  2: { intros [st E]. destruct (ok_key B s _ _ st H E) as (? & c & ? & Hc & Ec & _).
       assert (wr l' ∈ edge <$> (rs1 ++ b :: rs2)) as Hin by (rewrite Hc, Ec, fmap_app; apply elem_of_app; right; left).
       rewrite fmap_app in Hin. cbn in Hin. rewrite elem_of_app, elem_of_cons in Hin. naive_solver. }
  destruct (holds_remove seq_cmp (dom B) _ _ (edge b) Ht Hd) as (tr & -> & H1). cbn [mbind option_bind].
  rewrite (ok_lookup B s) by done. set (st := block_state _ _ _).
  unfold link_map in H1. rewrite linked_app in H1. cbn [linked first_edge] in H1. rewrite delete_middle in H1 by (by rewrite linked_edges).
  destruct (holds_insert seq_cmp (dom B) _ _ (wr l') st H1 Hd') as (tr1 & E1 & H2).
  { rewrite map_size_list_to_map.
    - rewrite <- (length_fmap fst), fmap_app, !linked_edges, <- fmap_app, length_fmap. unfold vlen in Hcap. lia.
    - rewrite fmap_app, !linked_edges. apply NoDup_app. split_and!; try done. }
  cbn [set_blocks blocks]. rewrite E1. cbn [mbind option_bind prev_recent next_recent st].
  rewrite insert_middle in H2 by (by rewrite linked_edges).
  destruct (link_left B (set_blocks tr1 (set_blocks tr s)) rs1 _ (Some (wr l')) _ H2) as (tr2 & -> & H3);
    [by apply Forall_app in Hv as [? _]|done|]. cbn [mbind option_bind].
  set (s1 := match rs1 with [] => _ | _ => _ end). rewrite cons_middle, app_assoc in H3.
  destruct (link_right B (set_blocks tr2 s1) _ _ (Some (wr l')) rs2 H3) as (tr3 & -> & H4).
  { by apply Forall_app in Hv as [_ [_ ?]%Forall_cons]. }
  { rewrite fmap_app, linked_edges. intros k [?| ->%list_elem_of_singleton]%elem_of_app; [by apply N5|done]. }
  eexists. split; [done|]. rewrite <- app_assoc in H4. cbn [app] in H4.
  assert (recent_head s1 = first_edge (rs1 ++ (l', b.2) :: rs2) None /\ recent_tail s1 = recent_tail s /\
    output_pos s1 = output_pos s /\ pending_dsack s1 = pending_dsack s) as (E2 & E3 & E4 & E5).
  { unfold s1. destruct rs1; cbn; by split_and!. }
  assert (last_edge None (rs1 ++ (l', b.2) :: rs2) = match rs2 with [] => Some (wr l') | _ => recent_tail s end) as Et.
  { rewrite Htl. unfold last_edge. rewrite !foldl_app. by destruct rs2. }
  split; [|destruct rs2; unfold same_dsack; cbn; congruence].
  constructor; try done.
  - unfold link_map. rewrite linked_app. by destruct rs2.
  - rewrite <- E2. by destruct rs2.
  - rewrite Et. by destruct rs2.
  - rewrite <- E4 in Hp. by destruct rs2.
Qed.

Lemma insert_recent_spec B s rs m :
  sack_ok B s rs -> valid B m -> Forall (apart m) rs -> vlen rs + 1 < 2 ^ 32 ->
  exists s', insert_block_as_most_recent s (wire m) = Some s' /\ sack_ok B s' (m :: rs) /\ same_dsack s s'.
Proof.
  intros H Hm Ha Hcap. pose proof H as [Ht Hh Htl Hv Hs Hp]. destruct (ok_len B s rs H) as [Hl _].
  destruct (holds_len seq_cmp (dom B) _ _ Ht) as [Hsz _]. unfold insert_block_as_most_recent. cbn [wire rg_left rg_right block_new].
  set (st := with_next _ _). destruct (holds_insert seq_cmp (dom B) _ _ (edge m) st Ht (edge_dom B m Hm)) as (tr & E & H1); [lia|].
  unfold edge in E. rewrite E. cbn [mbind option_bind].
  assert (st = block_state (wr m.2) None (first_edge rs None)) as Est by (unfold st; by rewrite Hh). rewrite Est in H1. clear Est st E.
  set (st := block_state _ _ _) in *.
  assert (edge m ∉ edge <$> rs) as Hn.
  { assert (NoDup (edge <$> m :: rs)) as N by (apply (edges_nodup B); [by constructor|by cbn]). by apply NoDup_cons in N as [? _]. }
  change (<[edge m:=st]> (link_map rs)) with (list_to_map ([(edge m, st)] ++ linked None rs None) : gmap Z TcpSackBlockState) in H1.
  rewrite Hh. destruct (link_right B (set_blocks tr s) _ _ (Some (edge m)) rs H1 Hv) as (tr' & E' & H2).
  { by intros k ->%list_elem_of_singleton. }
  unfold edge in E' at 1 2. rewrite E'. cbn [mbind option_bind]. eexists. split; [done|]. split; [|by destruct rs].
  constructor.
  - by destruct rs.
  - by destruct rs.
  - destruct rs as [|c rs]; [done|exact Htl].
  - by constructor.
  - by cbn.
  - by destruct rs.
Qed.

(** ** Pruning *)

Lemma elem_split_prune rcv rs1 b rs2 : b.2 <= rcv -> prune rcv (rs1 ++ b :: rs2) = prune rcv (rs1 ++ rs2).
Proof. intros Hb. unfold prune. rewrite !omap_app. cbn. unfold cut at 2. by rewrite (proj2 (Z.leb_le _ _)). Qed.

Lemma prune_id rcv rs : Forall (fun b => rcv <= b.1 < b.2) rs -> prune rcv rs = rs.
Proof.
  induction 1 as [|b rs Hb _ IH]; [done|]. unfold prune in *. cbn. unfold cut at 1.
  rewrite (proj2 (Z.leb_gt _ _)), IH by lia. rewrite Z.max_l by lia. by destruct b.
Qed.

(** The block [first] answers with is left of the others. *)
Lemma first_block B s rs : sack_ok B s rs ->
  match rs with
  | [] => RbTree.first (blocks s) = Some None
  | _ => exists rs1 b rs2 st, rs = rs1 ++ b :: rs2 /\ RbTree.first (blocks s) = Some (Some (edge b, st)) /\ right st = wr b.2 /\
      Forall (fun c => b.2 < c.1) (rs1 ++ rs2)
  end.
Proof.
  intros H. destruct (holds_first seq_cmp (dom B) _ _ (ok_tree _ _ _ H)) as (e & -> & He). destruct e as [[k st]|].
  - destruct He as [Hk Hmin]. destruct (ok_key B s rs k st H Hk) as (rs1 & b & rs2 & -> & -> & Hr).
    assert (exists rs1' b' rs2' st', rs1 ++ b :: rs2 = rs1' ++ b' :: rs2' /\ Some (Some (edge b, st)) = Some (Some (edge b', st')) /\
      right st' = wr b'.2 /\ Forall (fun c => b'.2 < c.1) (rs1' ++ rs2')); [|by destruct (rs1 ++ b :: rs2)].
    exists rs1, b, rs2, st. split_and!; try done. apply Forall_forall. intros c Hc.
    pose proof H as [_ _ _ Hv Hs _]. apply separated_middle in Hs as [_ Ha]. rewrite Forall_forall in Ha. specialize (Ha c Hc).
    assert (c ∈ rs1 ++ b :: rs2) as Hc' by (rewrite elem_of_app, elem_of_cons in *; tauto).
    pose proof (proj1 (Forall_forall _ _) Hv c Hc') as Hvc.
    destruct (ok_nodup B s rs1 b rs2 H) as (_ & _ & N3 & N4 & _ & _ & Hvb).
    apply list_elem_of_split in Hc' as (u & w & E). pose proof H as H'. rewrite E in H'. pose proof (ok_lookup B s u c w H') as Hlk. rewrite <- E in Hlk.
    destruct (Hmin _ _ Hlk) as [Ee|Hlt].
    + exfalso. assert (edge c ∈ edge <$> (rs1 ++ rs2)) as Hin by (by apply list_elem_of_fmap_2). rewrite fmap_app, Ee in Hin.
      apply elem_of_app in Hin as [?|?]; done.
    + unfold edge in Hlt. rewrite (seq_cmp_win B), Z.compare_lt_iff in Hlt by (unfold valid, win in *; lia).
      unfold apart, valid in *. lia.
  - destruct rs as [|b rs]; [done|]. unfold link_map in He. cbn in He. by apply insert_non_empty in He.
Qed.

Lemma prune_loop_spec n B s rs rcv :
  sack_ok B s rs -> win B rcv -> (length rs < n)%nat -> vlen rs + 1 < 2 ^ 32 ->
  exists s', prune_loop n s (wr rcv) = Some s' /\ sack_ok B s' (prune rcv rs) /\ same_dsack s s'.
Proof.
  revert s rs. induction n as [|n IH]; intros s rs H Hr Hn Hcap; [lia|]. cbn [prune_loop].
  pose proof (first_block B s rs H) as Hf. destruct rs as [|b0 rs0] eqn:Ers.
  { rewrite Hf. by exists s. }
  rewrite <- Ers in *. clear b0 rs0 Ers. destruct Hf as (rs1 & b & rs2 & st & -> & -> & Hst & Hmin). cbn [mbind option_bind].
  destruct (ok_nodup B s rs1 b rs2 H) as (_ & _ & _ & _ & _ & _ & Hb). pose proof (ok_valid _ _ _ H) as Hv.
  assert (vlen (rs1 ++ b :: rs2) = 1 + vlen (rs1 ++ rs2)) as Hlen by (unfold vlen; rewrite !length_app; cbn [length]; lia).
  rewrite Hst. unfold edge at 2. rewrite (seq_le_win B), (seq_lt_win B) by (unfold valid, win in *; lia).
  destruct (Z.leb_spec b.2 rcv) as [Hle|Hgt].
  - destruct (remove_block_spec B s rs1 b rs2 H) as (s1 & -> & H1 & D1). cbn [mbind option_bind].
    destruct (IH s1 (rs1 ++ rs2) H1 Hr) as (s2 & -> & H2 & D2); [rewrite length_app in *; cbn in Hn; lia|lia|].
    exists s2. rewrite elem_split_prune by done. split_and!; try done. unfold same_dsack in *. congruence.
  - assert (Forall (fun c => rcv <= c.1 < c.2) (rs1 ++ rs2)) as Hrest.
    { apply Forall_forall. intros c Hc. rewrite Forall_forall in Hmin. specialize (Hmin c Hc).
      assert (c ∈ rs1 ++ b :: rs2) as Hc' by (rewrite elem_of_app, elem_of_cons in *; tauto).
      pose proof (valid_forall B _ c Hv Hc'). lia. }
    apply Forall_app in Hrest as [Hr1 Hr2]. unfold valid in Hb. destruct (Z.ltb_spec b.1 rcv).
    + destruct (rename_spec B s rs1 b rs2 rcv H ltac:(lia) ltac:(lia)) as (s1 & -> & H1 & D1). exists s1. split; [done|]. split; [|done].
      unfold prune. rewrite omap_app. cbn. fold (prune rcv rs1) (prune rcv rs2). unfold cut at 1.
      rewrite (proj2 (Z.leb_gt _ _)), Z.max_r, !prune_id by (done || lia). done.
    + exists s. split; [done|]. split; [|done]. rewrite prune_id; [done|]. apply Forall_app. split; [done|]. constructor; [lia|done].
Qed.

(** ** Merging *)

Lemma ok_member B s rs c : sack_ok B s rs -> c ∈ rs -> exists st, link_map rs !! edge c = Some st /\ valid B c.
Proof.
  intros H Hc. apply list_elem_of_split in Hc as (u & w & ->). rewrite (ok_lookup B s u c w H). eexists. split; [done|].
  by destruct (ok_nodup B s u c w H) as (_ & _ & _ & _ & _ & _ & ?).
Qed.

(** Another range is not the one whose edge it would share. *)
Lemma other_edge B s rs1 b rs2 c : sack_ok B s (rs1 ++ b :: rs2) -> c ∈ rs1 ++ rs2 -> edge c <> edge b /\ apart b c /\ c ∈ rs1 ++ b :: rs2.
Proof.
  intros H Hc. destruct (ok_nodup B s rs1 b rs2 H) as (_ & _ & N3 & N4 & _). pose proof (ok_sep _ _ _ H) as [_ Ha]%separated_middle.
  rewrite Forall_forall in Ha. split; [|split; [by apply Ha|rewrite elem_of_app, elem_of_cons in *; tauto]].
  intros E. rewrite <- E in N3, N4. apply elem_of_app in Hc as [Hc|Hc]; [apply N3|apply N4]; by apply list_elem_of_fmap_2.
Qed.

Lemma predecessor_block B s rs l : sack_ok B s rs -> win B l ->
  (RbTree.predecessor seq_cmp (blocks s) (wr l) = Some None /\ Forall (fun c => l <= c.1) rs) \/
  exists rs1 b rs2 st, rs = rs1 ++ b :: rs2 /\ RbTree.predecessor seq_cmp (blocks s) (wr l) = Some (Some (edge b, st)) /\
    right st = wr b.2 /\ b.1 < l /\ Forall (fun c => l <= c.1 \/ c.2 < b.1) (rs1 ++ rs2).
Proof.
  intros H Hl. destruct (holds_predecessor seq_cmp (dom B) _ _ (wr l) (ok_tree _ _ _ H)) as (e & -> & He); [by exists l|].
  destruct e as [[k st]|]; [right|left].
  - destruct He as (Hk & Hc & Hmax). destruct (ok_key B s rs k st H Hk) as (rs1 & b & rs2 & -> & -> & Hr).
    exists rs1, b, rs2, st. destruct (ok_nodup B s rs1 b rs2 H) as (_ & _ & _ & _ & _ & _ & Hb).
    unfold edge in Hc. rewrite (seq_cmp_win B), Z.compare_gt_iff in Hc by (unfold valid, win in *; lia).
    split_and!; try done. apply Forall_forall. intros c Hin. destruct (other_edge B s rs1 b rs2 c H Hin) as (Hne & Ha & Hc').
    destruct (ok_member B s _ c H Hc') as (st' & Hlk & Hvc). specialize (Hmax _ _ Hlk).
    unfold edge in Hmax, Hne. rewrite !(seq_cmp_win B), Z.compare_gt_iff, Z.compare_lt_iff in Hmax by (unfold valid, win in *; lia).
    destruct (Z.lt_ge_cases c.1 l) as [Hlt|]; [right|by left]. destruct (Hmax Hlt) as [?|?]; [done|]. unfold apart, valid in *. lia.
  - split; [done|]. apply Forall_forall. intros c Hin. destruct (ok_member B s _ c H Hin) as (st' & Hlk & Hvc).
    specialize (He _ _ Hlk). unfold edge in He. rewrite (seq_cmp_win B), Z.compare_gt_iff in He by (unfold valid, win in *; lia). lia.
Qed.

Lemma successor_block B s rs l : sack_ok B s rs -> win B l ->
  (RbTree.successor seq_cmp (blocks s) (wr l) = Some None /\ Forall (fun c => c.1 <= l) rs) \/
  exists rs1 b rs2 st, rs = rs1 ++ b :: rs2 /\ RbTree.successor seq_cmp (blocks s) (wr l) = Some (Some (edge b, st)) /\
    right st = wr b.2 /\ l < b.1 /\ Forall (fun c => c.1 <= l \/ b.2 < c.1) (rs1 ++ rs2).
Proof.
  intros H Hl. destruct (holds_successor seq_cmp (dom B) _ _ (wr l) (ok_tree _ _ _ H)) as (e & -> & He); [by exists l|].
  destruct e as [[k st]|]; [right|left].
  - destruct He as (Hk & Hc & Hmin). destruct (ok_key B s rs k st H Hk) as (rs1 & b & rs2 & -> & -> & Hr).
    exists rs1, b, rs2, st. destruct (ok_nodup B s rs1 b rs2 H) as (_ & _ & _ & _ & _ & _ & Hb).
    unfold edge in Hc. rewrite (seq_cmp_win B), Z.compare_lt_iff in Hc by (unfold valid, win in *; lia).
    split_and!; try done. apply Forall_forall. intros c Hin. destruct (other_edge B s rs1 b rs2 c H Hin) as (Hne & Ha & Hc').
    destruct (ok_member B s _ c H Hc') as (st' & Hlk & Hvc). specialize (Hmin _ _ Hlk).
    unfold edge in Hmin, Hne. rewrite !(seq_cmp_win B), !Z.compare_lt_iff in Hmin by (unfold valid, win in *; lia).
    destruct (Z.lt_ge_cases l c.1) as [Hlt|]; [right|by left]. destruct (Hmin Hlt) as [?|?]; [done|]. unfold apart, valid in *. lia.
  - split; [done|]. apply Forall_forall. intros c Hin. destruct (ok_member B s _ c H Hin) as (st' & Hlk & Hvc).
    specialize (He _ _ Hlk). unfold edge in He. rewrite (seq_cmp_win B), Z.compare_lt_iff in He by (unfold valid, win in *; lia). lia.
Qed.

(** Absorbing a range that touches: the reference result does not change. *)
Lemma absorb_spec B s rs1 b rs2 m :
  sack_ok B s (rs1 ++ b :: rs2) -> valid B m -> touch m b = true ->
  exists s', absorb s (wire m) (edge b) = Some (s', Some (wire (hull m b))) /\ sack_ok B s' (rs1 ++ rs2) /\ same_dsack s s' /\
    add_range m (rs1 ++ b :: rs2) = add_range (hull m b) (rs1 ++ rs2).
Proof.
  intros H Hm Ht. destruct (remove_block_spec B s rs1 b rs2 H) as (s' & E & H' & D).
  destruct (ok_nodup B s rs1 b rs2 H) as (_ & _ & _ & _ & _ & _ & Hb).
  exists s'. unfold absorb. rewrite E. cbn [mbind option_bind option_map wire rg_left rg_right].
  rewrite (seq_min_win B), (seq_max_win B) by (unfold valid, win in *; lia). split_and!; try done.
  apply (add_range_absorb B); [done|apply (ok_valid _ _ _ H)|apply (ok_sep _ _ _ H)|done].
Qed.

(** The outcome of a merging step. *)
Definition merged_to (B : Z) (s : TcpSackState) rs m (r : option (TcpSackState * option TcpSackRange))
    (P : rng -> list rng -> Prop) : Prop :=
  exists s' m' rs', r = Some (s', Some (wire m')) /\ sack_ok B s' rs' /\ valid B m' /\ same_dsack s s' /\
    add_range m rs = add_range m' rs' /\ (length rs' <= length rs)%nat /\ P m' rs'.

Lemma shorter rs1 b rs2 : (length (rs1 ++ rs2) < length (rs1 ++ b :: rs2))%nat.
Proof. rewrite !length_app. cbn. lia. Qed.

Lemma merge_equal_spec B s rs m :
  sack_ok B s rs -> valid B m ->
  merged_to B s rs m (merge_equal s (wire m)) (fun m' rs' => Forall (fun c => c.1 <> m'.1) rs').
Proof.
  intros H Hm. unfold merge_equal, tree_get. cbn [wire rg_left].
  rewrite (holds_get seq_cmp (dom B) _ _ _ (ok_tree _ _ _ H)) by (by apply (edge_dom B m)).
  cbn [mbind option_bind]. destruct (link_map rs !! wr m.1) as [st|] eqn:E.
  - destruct (ok_key B s rs _ st H E) as (rs1 & b & rs2 & -> & Eb & Hr).
    destruct (ok_nodup B s rs1 b rs2 H) as (_ & _ & _ & _ & _ & _ & Hb).
    assert (b.1 = m.1) as Ebm by (symmetry; apply (wr_inj B); unfold valid, win in *; [lia..|done]).
    assert (range st (wr m.1) = wire b) as -> by (unfold range, wire; by rewrite Hr, Eb).
    rewrite (wire_overlap B) by done. assert (touch m b = true) as Ht.
    { unfold touch, valid in *. rewrite andb_true_iff, !Z.leb_le. lia. }
    rewrite Ht. destruct (absorb_spec B s rs1 b rs2 m H Hm Ht) as (s' & E' & H' & D & Ea).
    exists s', (hull m b), (rs1 ++ rs2). rewrite Eb. pose proof (shorter rs1 b rs2). split_and!; try done; [by apply hull_valid|lia|].
    apply Forall_forall. intros c Hc. destruct (other_edge B s rs1 b rs2 c H Hc) as (Hne & _). cbn. unfold edge in Hne.
    intros E2. apply Hne. f_equal. lia.
  - exists s, m, rs. split_and!; try done. apply Forall_forall. intros c Hc Ec. destruct (ok_member B s rs c H Hc) as (st & Hk & _).
    unfold edge in Hk. rewrite Ec in Hk. congruence.
Qed.

Lemma merge_predecessor_spec B s rs m :
  sack_ok B s rs -> valid B m -> Forall (fun c => c.1 <> m.1) rs ->
  merged_to B s rs m (merge_predecessor s (wire m)) (fun m' rs' => Forall (fun c => c.1 <= m'.1 -> touch m' c = false) rs').
Proof.
  intros H Hm Hne. rewrite Forall_forall in Hne. unfold merge_predecessor. cbn [wire rg_left].
  assert (win B m.1) as Hw by (unfold valid, win in *; lia). pose proof (ok_valid _ _ _ H) as Hv.
  destruct (predecessor_block B s rs m.1 H Hw) as [[-> Hall]|(rs1 & b & rs2 & st & -> & -> & Hr & Hlt & Hall)]; cbn [mbind option_bind].
  - exists s, m, rs. split_and!; try done. rewrite Forall_forall in Hall. apply Forall_forall. intros c Hc Hle.
    specialize (Hne c Hc). specialize (Hall c Hc). cbn in *. lia.
  - destruct (ok_nodup B s rs1 b rs2 H) as (_ & _ & _ & _ & _ & _ & Hb).
    assert (range st (edge b) = wire b) as -> by (unfold range, wire; by rewrite Hr).
    rewrite (wire_overlap B) by done. rewrite Forall_forall in Hall. destruct (touch m b) eqn:Ht.
    + destruct (absorb_spec B s rs1 b rs2 m H Hm Ht) as (s' & E' & H' & D & Ea).
      exists s', (hull m b), (rs1 ++ rs2). pose proof (shorter rs1 b rs2). split_and!; try done; [by apply hull_valid|lia|].
      apply Forall_forall. intros c Hc Hle. destruct (other_edge B s rs1 b rs2 c H Hc) as (_ & Ha & Hin).
      pose proof (valid_forall B _ c Hv Hin). pose proof (hull_valid B m b Hm Hb) as [? ?]. specialize (Hall c Hc).
      apply touch_false; [lia|done|]. cbn in Hle |- *. unfold apart in Ha. lia.
    + exists s, m, (rs1 ++ b :: rs2). split_and!; try done. apply Forall_forall. intros c Hc Hle.
      pose proof (valid_forall B _ c Hv Hc). apply touch_false_inv in Ht. unfold valid in *. apply touch_false; [lia|done|].
      specialize (Hne c Hc). rewrite elem_of_app, elem_of_cons in Hc. destruct (decide (c = b)) as [->|]; [lia|].
      destruct (Hall c) as [?|?]; [rewrite elem_of_app; tauto|lia..].
Qed.

Lemma merge_successors_spec n B s rs m :
  sack_ok B s rs -> valid B m -> Forall (fun c => c.1 <= m.1 -> touch m c = false) rs -> (length rs < n)%nat ->
  merged_to B s rs m (merge_successors n s (wire m)) (fun m' rs' => Forall (fun c => touch m' c = false) rs').
Proof.
  revert s rs m. induction n as [|n IH]; intros s rs m H Hm Hle Hn; [lia|]. cbn [merge_successors wire rg_left].
  assert (win B m.1) as Hw by (unfold valid, win in *; lia). pose proof (ok_valid _ _ _ H) as Hv. rewrite Forall_forall in Hle.
  destruct (successor_block B s rs m.1 H Hw) as [[-> Hall]|(rs1 & b & rs2 & st & -> & -> & Hr & Hlt & Hall)]; cbn [mbind option_bind];
    rewrite Forall_forall in Hall.
  - exists s, m, rs. split_and!; try done. apply Forall_forall. intros c Hc. by apply Hle, Hall.
  - destruct (ok_nodup B s rs1 b rs2 H) as (_ & _ & _ & _ & _ & _ & Hb).
    assert (range st (edge b) = wire b) as -> by (unfold range, wire; by rewrite Hr).
    rewrite (wire_overlap B) by done. destruct (touch m b) eqn:Ht; cbn [negb].
    + destruct (absorb_spec B s rs1 b rs2 m H Hm Ht) as (s1 & E1 & H1 & D1 & Ea1). rewrite E1. cbn [mbind option_bind].
      pose proof (shorter rs1 b rs2).
      destruct (IH s1 (rs1 ++ rs2) (hull m b) H1 (hull_valid B m b Hm Hb)) as (s2 & m2 & rs' & -> & H2 & Hm2 & D2 & Ea2 & Hl2 & Hf2); [|lia|].
      * apply Forall_forall. intros c Hc Hc1. destruct (other_edge B s rs1 b rs2 c H Hc) as (_ & Ha & Hin).
        unfold valid in *. rewrite touch_hull; [apply Hle; [done|cbn in Hc1; lia]|lia|lia| |done|by apply apart_sym].
        by apply (valid_forall B _ c Hv).
      * exists s2, m2, rs'. split_and!; try done; [unfold same_dsack in *; congruence|congruence|lia].
    + exists s, m, (rs1 ++ b :: rs2). split_and!; try done. apply Forall_forall. intros c Hc.
      destruct (Z.le_gt_cases c.1 m.1); [by apply Hle|]. pose proof (valid_forall B _ c Hv Hc). apply touch_false_inv in Ht.
      unfold valid in *. apply touch_false; [lia|done|]. rewrite elem_of_app, elem_of_cons in Hc. destruct (decide (c = b)) as [->|]; [lia|].
      destruct (Hall c) as [?|?]; [rewrite elem_of_app; tauto|lia..].
Qed.

(** ** The whole update *)

Lemma loop_fuel_len B s rs : sack_ok B s rs -> loop_fuel s = S (length rs).
Proof. intros H. unfold loop_fuel. destruct (ok_len B s rs H) as [-> _]. unfold vlen. by rewrite Nat2Z.id. Qed.

Lemma trim_loop_spec n B s rs :
  sack_ok B s rs -> (length rs < n)%nat ->
  exists s', trim_loop n s = Some s' /\ sack_ok B s' (take 255 rs) /\ same_dsack s s'.
Proof.
  revert s rs. induction n as [|n IH]; intros s rs H Hn; [lia|]. cbn [trim_loop].
  destruct (ok_len B s rs H) as [-> _]. rewrite (ok_tail _ _ _ H). unfold TCP_MAX_SACK_BLOCKS, vlen. destruct (Z.ltb_spec 255 (Z.of_nat (length rs))).
  - destruct rs as [|b rs _] using rev_ind; [cbn in *; lia|]. rewrite last_edge_snoc.
    destruct (remove_block_spec B s rs b [] H) as (s1 & -> & H1 & D1). cbn [mbind option_bind]. rewrite app_nil_r in H1.
    rewrite length_app in *. cbn in *. destruct (IH s1 rs H1 ltac:(lia)) as (s2 & -> & H2 & D2).
    exists s2. split; [done|]. split; [by rewrite take_app_le by lia|]. unfold same_dsack in *. congruence.
  - exists s. rewrite take_ge by lia. by split_and!.
Qed.

Definition update_ref (rcv l r : Z) rs : list rng :=
  let rs := prune rcv rs in
  if r <=? Z.max l rcv then rs else take 255 (add_range (Z.max l rcv, r) rs).

Lemma prune_length rcv rs : (length (prune rcv rs) <= length rs)%nat.
Proof. induction rs as [|b rs IH]; [done|]. unfold prune in *. cbn. destruct (cut rcv b); cbn; lia. Qed.

Lemma update_range_spec B s rs rcv l r :
  sack_ok B s rs -> (length rs <= 255)%nat -> win B rcv -> win B l -> win B r ->
  exists s', update_range s true (wr rcv) (wr l) (wr r) = Some s' /\ sack_ok B s' (update_ref rcv l r rs) /\ same_dsack s s'.
Proof.
  intros H Hc Hrcv Hl Hr. unfold update_range, update_ref, prune_delivered. cbn [negb].
  destruct (prune_loop_spec (loop_fuel s) B s rs rcv H Hrcv) as (s1 & -> & H1 & D1);
    [rewrite (loop_fuel_len B s rs H); lia|unfold vlen; lia|]. cbn [mbind option_bind].
  pose proof (prune_length rcv rs) as Hpl. set (rs1 := prune rcv rs) in *.
  rewrite (seq_le_win B), (seq_max_win B) by done. assert (win B (Z.max l rcv)) as Hmax by (unfold win in *; lia).
  destruct (Z.leb_spec r l) as [Hrl|Hrl].
  { exists s1. rewrite (proj2 (Z.leb_le _ _)) by lia. by split_and!. }
  cbn [rg_left rg_right]. rewrite (seq_le_win B) by done. destruct (Z.leb_spec r (Z.max l rcv)) as [Hrm|Hrm]; [by exists s1|].
  change (sack_range (wr (Z.max l rcv)) (wr r)) with (wire (Z.max l rcv, r)). set (m := (Z.max l rcv, r)).
  assert (valid B m) as Hm by (unfold valid, win in *; cbn; lia).
  destruct (merge_equal_spec B s1 rs1 m H1 Hm) as (s2 & m2 & rs2 & -> & H2 & Hm2 & D2 & -> & L2 & P2). cbn [mbind option_bind].
  destruct (merge_predecessor_spec B s2 rs2 m2 H2 Hm2 P2) as (s3 & m3 & rs3 & -> & H3 & Hm3 & D3 & -> & L3 & P3). cbn [mbind option_bind].
  destruct (merge_successors_spec (loop_fuel s3) B s3 rs3 m3 H3 Hm3 P3) as (s4 & m4 & rs4 & -> & H4 & Hm4 & D4 & -> & L4 & P4);
    [rewrite (loop_fuel_len B s3 rs3 H3); lia|]. cbn [mbind option_bind].
  destruct (insert_recent_spec B s4 rs4 m4 H4 Hm4) as (s5 & -> & H5 & D5); [|unfold vlen; lia|].
  { eapply Forall_impl; [exact P4|]. intros c Hcc%touch_false_inv. unfold apart. lia. }
  cbn [mbind option_bind]. rewrite add_range_none by done. unfold trim_block_capacity.
  destruct (trim_loop_spec (loop_fuel s5) B s5 (m4 :: rs4) H5) as (s6 & -> & H6 & D6);
    [rewrite (loop_fuel_len B s5 _ H5); cbn; lia|]. cbn [mbind option_bind].
  destruct (reset_if_past_ok B s6 _ H6) as [H7 D7]. exists (reset_if_past s6). split_and!; try done.
  unfold same_dsack in *. congruence.
Qed.

Lemma update_ref_length rcv l r rs : (length rs <= 255)%nat -> (length (update_ref rcv l r rs) <= 255)%nat.
Proof.
  intros H. unfold update_ref. pose proof (prune_length rcv rs). destruct (_ <=? _); [lia|]. rewrite length_take. lia.
Qed.

(** The window follows [rcv_nxt]: the old base is forgotten. *)
Lemma sack_ok_rebase B B' s rs :
  sack_ok B s rs -> Forall (valid B') rs -> sack_ok B' s rs.
Proof.
  intros [Ht Hh Htl Hv Hs Hp] Hv'. constructor; try done. destruct Ht as (es & (a & q & h & H1 & H2 & H3 & H4 & H5) & E).
  exists es. split; [|done]. exists a, q, h. split_and!; try done. apply Forall_forall. intros [k st] Hin.
  assert (link_map rs !! k = Some st) as Hk by (rewrite <- E; by apply (elem_map seq_cmp (dom B))).
  assert (sack_ok B s rs) as Hok by (constructor; try done; exists es; split; [|done]; by exists a, q, h).
  destruct (ok_key B s rs k st Hok Hk) as (rs1 & b & rs2 & -> & -> & _). apply edge_dom.
  by apply Forall_app in Hv' as [_ [? _]%Forall_cons].
Qed.

(** ** What the ranges cover *)

Lemma update_ref_from rcv l r rs : Forall (fun b => rcv <= b.1) (update_ref rcv l r rs).
Proof.
  assert (Forall (fun b => rcv <= b.1) (prune rcv rs)) as Hp.
  { apply Forall_forall. intros b (c & _ & E)%list_elem_of_omap. unfold cut in E. destruct (_ <=? _); [done|]. injection E as <-. cbn. lia. }
  unfold update_ref. destruct (_ <=? _); [done|]. apply Forall_take. unfold add_range. rewrite Forall_forall in Hp. constructor.
  - assert (Forall (fun b => rcv <= b.1) (List.filter (touch (Z.max l rcv, r)) (prune rcv rs))) as Hf.
    { apply Forall_forall. intros b [Hb _]%list_elem_of_In%List.filter_In. by apply Hp, list_elem_of_In. }
    induction Hf as [|b bs Hb _ IH]; cbn in *; lia.
  - apply Forall_forall. intros b [Hb _]%list_elem_of_In%List.filter_In. by apply Hp, list_elem_of_In.
Qed.

Lemma prune_valid B rcv rs : Forall (valid B) rs -> win B rcv -> Forall (valid B) (prune rcv rs).
Proof.
  intros Hv Hr. apply Forall_forall. intros b (c & Hc & E)%list_elem_of_omap. unfold cut in E.
  destruct (Z.leb_spec c.2 rcv); [done|]. injection E as <-. rewrite Forall_forall in Hv. specialize (Hv c Hc).
  unfold valid, win in *. cbn. lia.
Qed.

Lemma update_ref_sound B rcv l r rs x :
  Forall (valid B) rs -> win B rcv -> covers (update_ref rcv l r rs) x -> rcv <= x /\ (covers rs x \/ l <= x < r).
Proof.
  intros Hv Hr. unfold update_ref. destruct (Z.leb_spec r (Z.max l rcv)) as [Hle|Hgt].
  - intros [? ?]%prune_covers. auto.
  - intros (b & Hb%elem_of_take & Hx). destruct Hb as (i & Hb%list_elem_of_lookup_2 & _).
    assert (covers (add_range (Z.max l rcv, r) (prune rcv rs)) x) as Hc by (by exists b).
    apply (add_range_covers B) in Hc as [Hc|[? ?]%prune_covers]; [cbn in Hc; split; [lia|right; lia]|auto|cbn; lia|by apply prune_valid].
Qed.

Lemma update_ref_complete B rcv l r rs x :
  Forall (valid B) rs -> win B rcv -> (length rs < 255)%nat -> rcv <= x -> covers rs x \/ l <= x < r ->
  covers (update_ref rcv l r rs) x.
Proof.
  intros Hv Hr Hn Hx Hc. unfold update_ref. destruct (Z.leb_spec r (Z.max l rcv)) as [Hle|Hgt].
  - apply prune_covers. split; [|done]. destruct Hc as [?|?]; [done|lia].
  - pose proof (add_range_length (Z.max l rcv, r) (prune rcv rs)). pose proof (prune_length rcv rs). rewrite take_ge by lia.
    apply (add_range_covers B); [cbn; lia|by apply prune_valid|]. cbn. rewrite prune_covers. destruct Hc as [?|?]; [auto|left; lia].
Qed.

Lemma clear_ok B s : exists s', clear_blocks s = Some s' /\ sack_ok B s' [] /\ pending_dsack s' = pending_dsack s.
Proof.
  unfold clear_blocks, tree_with_capacity. destruct (holds_new seq_cmp (dom B) 0 block_default (Z.max (RbTree.len (blocks s)) 1)) as (tr & -> & H).
  eexists. split; [done|]. split; [|done]. by constructor.
Qed.

(** After an update [rcv_nxt] is the base of the window. *)
Lemma update_rebase B s rs rcv l r : sack_ok B s (update_ref rcv l r rs) -> win B rcv -> sack_ok rcv s (update_ref rcv l r rs).
Proof.
  intros H Hrcv. apply (sack_ok_rebase B); [done|]. pose proof (ok_valid _ _ _ H) as Hv. apply Forall_forall. intros b Hb. rewrite Forall_forall in Hv. specialize (Hv b Hb).
  pose proof (update_ref_from rcv l r rs) as Hf. rewrite Forall_forall in Hf. specialize (Hf b Hb). unfold valid, win in *. cbn in Hf. lia.
Qed.

(** One update, with or without SACK. *)
Lemma update_step enabled R s rs R' l r :
  sack_ok R s rs -> (length rs <= 255)%nat -> win R R' -> win R l -> win R r ->
  exists s' rs', update_range s enabled (wr R') (wr l) (wr r) = Some s' /\ sack_ok R' s' rs' /\ (length rs' <= 255)%nat /\
    (forall x, covers rs' x -> R' <= x /\ (covers rs x \/ l <= x < r)) /\ (pending_dsack s' = pending_dsack s \/ pending_dsack s' = None).
Proof.
  intros H Hn W1 W2 W3. destruct enabled.
  - destruct (update_range_spec R s rs R' l r H Hn W1 W2 W3) as (s' & E & H' & Hd). exists s', (update_ref R' l r rs). split_and!; [done|by eapply update_rebase|by apply update_ref_length| |by left].
    intros x Hx. by apply (update_ref_sound R) in Hx; [|apply (ok_valid _ _ _ H)|].
  - unfold update_range. cbn [negb]. destruct (clear_ok R' s) as (s' & -> & [C1 C2 C3 C4 C5 C6] & _). cbn [mbind option_bind]. eexists _, []. split; [done|].
    split_and!; [by constructor|cbn; lia|by intros x (b & []%not_elem_of_nil & _)|by right].
Qed.

(** ** Sequences of arrivals *)

(** [rcv_nxt] after an arrival and the range it reported. *)
Definition arrival : Type := Z * Z * Z.
Implicit Types (evs : list arrival).

Fixpoint run_updates (s : TcpSackState) evs : option TcpSackState :=
  match evs with
  | [] => Some s
  | (rcv, l, r) :: evs => s ← update_range s true (wr rcv) (wr l) (wr r); run_updates s evs
  end.

(** Each arrival lies within 2^31 of the [rcv_nxt] before it. *)
Fixpoint arrivals_ok (B : Z) evs : Prop :=
  match evs with
  | [] => True
  | (rcv, l, r) :: evs => win B rcv /\ win B l /\ win B r /\ arrivals_ok rcv evs
  end.
Fixpoint last_rcv (B : Z) evs : Z := match evs with [] => B | (rcv, _, _) :: evs => last_rcv rcv evs end.
Definition received evs (x : Z) : Prop := exists rcv l r, (rcv, l, r) ∈ evs /\ l <= x < r.

Lemma received_cons rcv l r evs x : received ((rcv, l, r) :: evs) x <-> l <= x < r \/ received evs x.
Proof. unfold received. setoid_rewrite elem_of_cons. naive_solver. Qed.

Lemma last_rcv_ge B evs : arrivals_ok B evs -> B <= last_rcv B evs.
Proof.
  revert B. induction evs as [|[[rcv l] r] evs IH]; intros B; cbn; [lia|]. intros (H1 & _ & _ & H2). specialize (IH rcv H2).
  unfold win in *. lia.
Qed.

Lemma run_updates_spec B s rs evs :
  sack_ok B s rs -> (length rs <= 255)%nat -> arrivals_ok B evs ->
  exists s' rs', run_updates s evs = Some s' /\ sack_ok (last_rcv B evs) s' rs' /\ (length rs' <= 255)%nat /\
    (forall x, covers rs' x -> last_rcv B evs <= x /\ (covers rs x \/ received evs x)) /\
    ((length rs + length evs <= 255)%nat ->
      forall x, last_rcv B evs <= x -> covers rs x \/ received evs x -> covers rs' x).
Proof.
  revert B s rs. induction evs as [|[[rcv l] r] evs IH]; intros B s rs H Hn Hok; cbn [run_updates last_rcv].
  - exists s, rs. split_and!; try done.
    + intros x Hx. split; [|by left]. destruct Hx as (b & Hb & Hx). pose proof (ok_valid _ _ _ H) as Hv. rewrite Forall_forall in Hv.
      destruct (Hv b Hb). lia.
    + intros _ x _ [?|(? & ? & ? & []%not_elem_of_nil & _)]. done.
  - destruct Hok as (W1 & W2 & W3 & Hok). destruct (update_range_spec B s rs rcv l r H Hn W1 W2 W3) as (s1 & -> & H1 & _).
    cbn [mbind option_bind]. pose proof (ok_valid _ _ _ H) as Hv. pose proof (ok_valid _ _ _ H1) as Hv1.
    pose proof (update_rebase B s1 rs rcv l r H1 W1) as H1'.
    pose proof (last_rcv_ge rcv evs Hok) as Hge.
    destruct (IH rcv s1 _ H1' (update_ref_length rcv l r rs Hn) Hok) as (s2 & rs2 & -> & H2 & Hn2 & Hs2 & Hc2).
    exists s2, rs2. split_and!; try done.
    + intros x Hx. destruct (Hs2 x Hx) as [? Hor]. split; [done|]. rewrite received_cons.
      destruct Hor as [Hc|?]; [|tauto]. apply (update_ref_sound B) in Hc as [_ ?]; [tauto|done..].
    + intros Hlen x Hx Hor. cbn in Hlen. rewrite received_cons in Hor. assert (length (update_ref rcv l r rs) <= S (length rs))%nat as Hul.
      { unfold update_ref. pose proof (prune_length rcv rs). pose proof (add_range_length (Z.max l rcv, r) (prune rcv rs)).
        destruct (_ <=? _); rewrite ?length_take; lia. }
      apply Hc2; [lia|done|]. destruct (decide (l <= x < r)); [left|destruct Hor as [Hc|[Hc|Hc]]; [left|lia|by right]];
        (apply (update_ref_complete B); [done..|lia|lia|tauto]).
Qed.

Lemma default_ok B : exists s, default_sack = Some s /\ sack_ok B s [] /\ pending_dsack s = None.
Proof.
  unfold default_sack, tree_with_capacity. destruct (holds_new seq_cmp (dom B) 0 block_default 8) as (tr & -> & H).
  eexists. split; [done|]. split; [|done]. by constructor.
Qed.

(** ** Output *)

Definition blocks_of rs : list TcpSackBlock := (fun b => to_block (wire b)) <$> rs.
Definition padded (bs : list TcpSackBlock) : list TcpSackBlock := bs ++ replicate (4 - length bs) zero_sack_block.

Lemma skip_loop_spec B s rs n :
  sack_ok B s rs -> (n <= length rs)%nat ->
  forall k, (k <= n)%nat -> skip_loop k s (first_edge (drop (n - k) rs) None) = Some (inr (s, first_edge (drop n rs) None)).
Proof.
  intros H Hn. induction k as [|k IH]; intros Hk; cbn [skip_loop]; [by rewrite Nat.sub_0_r|].
  destruct (drop (n - S k) rs) as [|b post] eqn:E.
  { apply (f_equal length) in E. rewrite length_drop in E. cbn in E. lia. }
  cbn [first_edge]. pose proof (take_drop (n - S k) rs) as Er. rewrite E in Er. pose proof H as H'. rewrite <- Er in H'.
  rewrite (ok_get B s _ b post H'). cbn [mbind option_bind next_recent]. rewrite <- IH by lia. f_equal. f_equal.
  replace (n - k)%nat with ((n - S k) + 1)%nat by lia. by rewrite <- drop_drop, E.
Qed.

Lemma padded_set bs x : (length bs < 4)%nat -> vset (padded bs) (vlen bs) x = Some (padded (bs ++ [x])).
Proof.
  intros Hn. unfold padded. destruct bs as [|b0 [|b1 [|b2 [|b3 bs]]]]; cbn in Hn |- *; try done. lia.
Qed.

Lemma emit_loop_spec B s n pre post limit emitted bs :
  sack_ok B s (pre ++ post) -> 0 <= emitted <= limit -> (length bs + Z.to_nat (limit - emitted) <= 4)%nat -> (4 <= length bs + n)%nat ->
  let sent := take (Z.to_nat (limit - emitted)) post in
  emit_loop n s (first_edge post None) limit emitted (vlen bs) (padded bs) =
    Some (inr (emitted + vlen sent, vlen bs + vlen sent, padded (bs ++ blocks_of sent))).
Proof.
  revert pre post emitted bs. induction n as [|n IH]; intros pre post emitted bs H He Hl Hn; cbn zeta.
  - assert (limit = emitted) as -> by lia. rewrite Z.sub_diag. cbn [Z.to_nat take blocks_of fmap list_fmap]. rewrite app_nil_r.
    change (vlen (@Datatypes.nil rng)) with 0. rewrite !Z.add_0_r. destruct post as [|b post]; cbn [emit_loop first_edge]; [done|].
    by rewrite Z.eqb_refl.
  - destruct post as [|b post]; cbn [emit_loop first_edge].
    { rewrite take_nil. cbn. by rewrite app_nil_r, !Z.add_0_r. }
    assert (length bs <= 4)%nat as Hbs by lia.
    assert (vlen (padded bs) = 4) as -> by (unfold vlen, padded; rewrite length_app, length_replicate; lia).
    destruct (Z.eqb_spec emitted limit) as [->|Hne]; cbn [orb].
    { rewrite Z.sub_diag. cbn. by rewrite app_nil_r, !Z.add_0_r. }
    rewrite (proj2 (Z.eqb_neq _ _)) by (unfold vlen; lia). rewrite (ok_get B s pre b post H). cbn [mbind option_bind next_recent].
    change (range (block_state (wr b.2) (last_edge None pre) (first_edge post None)) (edge b)) with (wire b).
    rewrite padded_set by lia. cbn [mbind option_bind].
    assert (vlen bs + 1 = vlen (bs ++ [to_block (wire b)])) as -> by (unfold vlen; rewrite length_app; cbn; lia).
    rewrite (IH (pre ++ [b]) post (emitted + 1)) by
      (rewrite ?length_app, <- ?app_assoc; cbn [length app]; (done || lia)).
    replace (Z.to_nat (limit - emitted)) with (S (Z.to_nat (limit - (emitted + 1)))) by lia. cbn [take blocks_of fmap list_fmap].
    rewrite <- app_assoc. cbn [app]. 
    assert (forall l : list rng, vlen (b :: l) = 1 + vlen l) as -> by (intros l; unfold vlen; cbn [length]; lia).
    assert (vlen (bs ++ [to_block (wire b)]) = vlen bs + 1) as -> by (unfold vlen; rewrite length_app; cbn [length]; lia).
    by rewrite <- !Z.add_assoc.
Qed.

Definition dsack_part (s : TcpSackState) : list TcpSackBlock := match pending_dsack s with Some d => [to_block d] | None => [] end.
Definition start_pos (s : TcpSackState) rs : Z := if vlen rs <=? output_pos s then 0 else output_pos s.

(** The ranges an acknowledgment carries besides a duplicate report. *)
Definition sent_ranges (s : TcpSackState) (timestamps : bool) rs : list rng :=
  take (Z.to_nat (output_limit timestamps - vlen (dsack_part s))) (drop (Z.to_nat (start_pos s rs)) rs).
Definition report (bs : list TcpSackBlock) : option (list TcpSackBlock * Z) :=
  if bool_decide (bs = []) then None else Some (padded bs, vlen bs).

Lemma report_eq bs : (if negb (vlen bs =? 0) then Some (padded bs, vlen bs) else None) = report bs.
Proof. unfold report. by destruct bs. Qed.

Lemma take_output_spec B s rs timestamps flags :
  sack_ok B s rs -> (length rs <= 255)%nat -> output_pos s < 2 ^ 32 -> flag_contains flags ACK = true ->
  exists s', take_output s true timestamps flags =
      Some (s', report (dsack_part s ++ blocks_of (sent_ranges s timestamps rs))) /\
    sack_ok B s' rs /\ pending_dsack s' = None /\
    output_pos s' = (if bool_decide (rs = []) then output_pos s else start_pos s rs + vlen (sent_ranges s timestamps rs)).
Proof.
  intros H Hn Hpos Hf. unfold take_output. rewrite Hf. cbn [negb orb].
  assert (match pending_dsack s with
    | Some dsack => o ← vset (replicate 4 zero_sack_block) 0 (to_block dsack); Some (o, 1)
    | None => Some (replicate 4 zero_sack_block, 0) end = Some (padded (dsack_part s), vlen (dsack_part s))) as ->.
  { unfold dsack_part. by destruct (pending_dsack s). }
  cbn [mbind option_bind]. set (ds := dsack_part s). assert (0 <= vlen ds <= 1) as Hds by (unfold ds, dsack_part; by destruct (pending_dsack s)).
  set (lim := output_limit timestamps). assert (3 <= lim <= 4) as Hlim by (unfold lim, output_limit; by destruct timestamps).
  unfold saturating_sub. rewrite Z.max_r by lia.
  set (s0 := set_dsack None s). assert (sack_ok B s0 rs) as H0 by (destruct H; by constructor).
  rewrite (proj2 (Z.eqb_neq (lim - vlen ds) 0)) by lia. cbn [orb].
  change (blocks s0) with (blocks s). destruct (ok_len B s rs H) as [-> ->]. destruct (bool_decide_reflect (rs = [])) as [->|Hne].
  { exists s0. rewrite report_eq. unfold sent_ranges. rewrite drop_nil, take_nil. cbn [blocks_of fmap list_fmap]. rewrite app_nil_r. by split_and!. }
  set (s1 := if vlen rs <=? output_pos s0 then _ else _).
  assert (sack_ok B s1 rs /\ output_pos s1 = start_pos s rs /\ pending_dsack s1 = None) as (H1 & Hp1 & Hd1).
  { unfold s1, start_pos. change (output_pos s0) with (output_pos s). destruct (_ <=? _); split_and!; try done. destruct H; by constructor. }
  assert (0 <= start_pos s rs < vlen rs) as Hsp.
  { unfold start_pos. pose proof (ok_pos _ _ _ H). destruct (Z.leb_spec (vlen rs) (output_pos s)); [|lia].
    destruct rs; [done|]. unfold vlen. cbn. lia. }
  rewrite Hp1, (ok_head _ _ _ H1). pose proof (skip_loop_spec B s1 rs (Z.to_nat (start_pos s rs)) H1) as Hsk.
  specialize (Hsk ltac:(unfold vlen in Hsp; lia) (Z.to_nat (start_pos s rs)) ltac:(lia)). rewrite Nat.sub_diag, drop_0 in Hsk. rewrite Hsk.
  cbn [mbind option_bind]. set (post := drop (Z.to_nat (start_pos s rs)) rs).
  assert (length ds <= 1)%nat as Hds' by (unfold vlen in Hds; lia).
  pose proof (emit_loop_spec B s1 4 (take (Z.to_nat (start_pos s rs)) rs) post (lim - vlen ds) 0 ds) as Hem.
  unfold post in Hem at 1. rewrite take_drop, Z.sub_0_r in Hem. specialize (Hem H1 ltac:(lia) ltac:(unfold vlen in *; lia) ltac:(lia)).
  cbn zeta in Hem. rewrite Hem. cbn [mbind option_bind].
  set (sent := take (Z.to_nat (lim - vlen ds)) post). change (sent_ranges s timestamps rs) with sent.
  assert (vlen (ds ++ blocks_of sent) = vlen ds + vlen sent) as <-.
  { unfold vlen, blocks_of. rewrite length_app, length_fmap. lia. }
  rewrite report_eq, Hp1, Z.add_0_l. eexists. split; [done|]. assert (0 <= vlen sent <= 4) as Hsent.
  { unfold vlen, sent. rewrite length_take. unfold vlen in *. lia. }
  split; [destruct H1; constructor; try done; cbn; unfold saturating_add; lia|]. split; [done|].
  cbn. unfold saturating_add. unfold vlen in Hsp. lia.
Qed.

(** ** The contract *)


(** C26: Recording a received range never panics, whatever rebalancing of the
    tree it causes, and does what the specification says: what [rcv_nxt] has
    passed is cut off, every block that overlaps or touches the new range is
    merged with it, the result becomes the most recent block, the order of the
    others is kept and the least recent is dropped beyond 255.  The blocks stay
    disjoint with gaps between them, the recency links stay consistent, and a
    pending duplicate report is kept.  With SACK off everything is cleared. *)
Theorem sack_update_correct B s rs rcv l r :
  sack_ok B s rs -> (length rs <= 255)%nat -> win B rcv -> win B l -> win B r ->
  (exists s', update_range s true (wr rcv) (wr l) (wr r) = Some s' /\ sack_ok B s' (update_ref rcv l r rs) /\
    (length (update_ref rcv l r rs) <= 255)%nat /\ pending_dsack s' = pending_dsack s) /\
  (exists s', update_range s false (wr rcv) (wr l) (wr r) = Some s' /\ sack_ok B s' [] /\ pending_dsack s' = None).
Proof.
  intros H Hn W1 W2 W3. split.
  - destruct (update_range_spec B s rs rcv l r H Hn W1 W2 W3) as (s' & E & H' & D). exists s'. split_and!; try done.
    by apply update_ref_length.
  - unfold update_range. cbn [negb]. destruct (clear_ok B s) as (s' & -> & H' & _). eexists. split; [done|]. split; [|done].
    destruct H'. by constructor.
Qed.

Lemma sack_update_correct_witness :
  let B := 2 ^ 32 - 100 in
  exists s s', default_sack = Some s /\ update_range s true (wr B) (wr (B + 50)) (wr (B + 150)) = Some s' /\
    sack_ok B s' [(B + 50, B + 150)].
Proof.
  intros B. destruct (default_ok B) as (s & E & H & _). exists s.
  destruct (sack_update_correct B s [] B (B + 50) (B + 150) H) as [(s' & E' & H' & _) _]; [cbn; lia|split; reflexivity || (unfold B; lia)..|].
  exists s'. split; [exact E|]. split; [exact E'|exact H'].
Defined.

(** C15: After any sequence of arrivals, over any number of turns of the sequence
    space, every sequence number a block covers has been received and is not
    below [rcv_nxt]: the receiver never acknowledges data it does not hold.  As
    long as no more than 255 arrivals were recorded nothing is forgotten either:
    every received number from [rcv_nxt] on is covered. *)
Theorem sack_reports_received B evs :
  arrivals_ok B evs ->
  exists s s' rs, default_sack = Some s /\ run_updates s evs = Some s' /\ sack_ok (last_rcv B evs) s' rs /\
    (forall x, covers rs x -> last_rcv B evs <= x /\ received evs x) /\
    ((length evs <= 255)%nat -> forall x, last_rcv B evs <= x -> received evs x -> covers rs x).
Proof.
  intros Hok. destruct (default_ok B) as (s & E & H & _).
  destruct (run_updates_spec B s [] evs H ltac:(cbn; lia) Hok) as (s' & rs & E' & H' & _ & Hs & Hc).
  exists s, s', rs. split_and!; try done.
  - intros x Hx. destruct (Hs x Hx) as [? [(? & []%not_elem_of_nil & _)|?]]. done.
  - intros Hl x Hx Hr. apply Hc; [cbn; lia|done|by right].
Qed.

Definition arrivals_example : list arrival :=
  [(100, 300, 400); (100, 200, 250); (100, 250, 310); (220, 220, 220); (220, 500, 600)].

Lemma sack_reports_received_witness :
  arrivals_ok 100 arrivals_example /\ received arrivals_example 320 /\
  exists s s' rs, default_sack = Some s /\ run_updates s arrivals_example = Some s' /\ sack_ok 220 s' rs /\ covers rs 320.
Proof.
  assert (arrivals_ok 100 arrivals_example) as Hok by (cbn; unfold win; lia).
  assert (received arrivals_example 320) as Hr by (exists 100, 300, 400; split; [left|lia]).
  split; [exact Hok|]. split; [exact Hr|].
  destruct (sack_reports_received 100 arrivals_example Hok) as (s & s' & rs & H1 & H2 & H3 & _ & H4).
  exists s, s', rs. split; [exact H1|]. split; [exact H2|]. split; [exact H3|]. apply H4; [cbn; lia|cbn; lia|exact Hr].
Defined.

(** An acknowledgment carries the pending duplicate report first, exactly
    once, then blocks in recency order from where the previous one stopped
    (from the most recent after a new arrival or when all have been sent), at
    most four in all and three with timestamps; the array is padded with zero
    blocks and nothing is sent when there is nothing to report. *)
Theorem sack_output_correct B s rs timestamps flags :
  sack_ok B s rs -> (length rs <= 255)%nat -> output_pos s < 2 ^ 32 -> flag_contains flags ACK = true ->
  exists s', take_output s true timestamps flags =
      Some (s', report (dsack_part s ++ blocks_of (sent_ranges s timestamps rs))) /\
    sack_ok B s' rs /\ pending_dsack s' = None /\
    output_pos s' = (if bool_decide (rs = []) then output_pos s else start_pos s rs + vlen (sent_ranges s timestamps rs)) /\
    (length (dsack_part s ++ blocks_of (sent_ranges s timestamps rs)) <= Z.to_nat (output_limit timestamps))%nat.
Proof.
  intros H Hn Hp Hf. destruct (take_output_spec B s rs timestamps flags H Hn Hp Hf) as (s' & E & H' & Hd & Ho).
  exists s'. split_and!; try done. unfold blocks_of, sent_ranges. rewrite length_app, length_fmap, length_take.
  assert (length (dsack_part s) <= 1)%nat by (unfold dsack_part; destruct (pending_dsack s); cbn; lia).
  assert (3 <= output_limit timestamps) by (unfold output_limit; by destruct timestamps). unfold vlen. lia.
Qed.

Lemma sack_output_correct_witness :
  exists s s', default_sack = Some s /\
    take_output (set_duplicate s true 5 9) true true ACK = Some (s', Some ([sack_block 5 9; zero_sack_block; zero_sack_block; zero_sack_block], 1)).
Proof.
  destruct (default_ok 0) as (s & E & H & _).
  assert (sack_ok 0 (set_duplicate s true 5 9) []) as H' by (destruct H; constructor; assumption).
  assert (output_pos (set_duplicate s true 5 9) < 2 ^ 32) as Hp.
  { unfold default_sack in E. vm_compute in E. injection E as <-. reflexivity. }
  destruct (sack_output_correct 0 (set_duplicate s true 5 9) [] true ACK H' ltac:(cbn; lia) Hp eq_refl) as (s' & E' & _).
  unfold sent_ranges in E'. rewrite drop_nil, take_nil in E'. exists s, s'. split; [exact E|exact E'].
Defined.

End TcpSackProofs.
