(* ===== verification/IpcCodec.v ===== *)
(** * The Binary API wire format

    Models [crates/hammer-ipc/src/binary_api/codec.rs], the Serde serializer
    and deserializer of API messages, together with the code that
    [#[derive(Api)]] generates for the fields of a message
    ([message_codec] of [hammer-component-macros/src/api.rs]), the dispatch of
    a payload ([dispatch_message] of [binary_api/api.rs]) and the message
    storage it is written to ([encode], [as_bytes] and [decode] of
    [binary_api/memory_shared.rs]).

    The codec sees a value through the Serde calls its [Serialize]
    implementation makes: [value] is the tree of these calls, and [shape] the
    tree of the calls a [Deserialize] implementation makes.  Both machines run
    in a state monad with errors, because a failing field still restores the
    [opaque] flag of its parent.  The byte order of the host is a variable.

    The theorems relate both directions to the reference encoding [wire]: the
    serializer writes exactly these bytes or reports that the output is too
    short, the measured length is their number, decoding them gives the value
    back, and decoding arbitrary bytes never panics. *)

From Stdlib Require Import Strings.String.
From S2P Require Import Prelude.

#[local] Set Warnings "-register-all".

Module IpcCodec.

(** ** Results *)

(** What a [Deserialize] or [Serialize] implementation may ask for and the
    codec refuses. *)
Inductive unsupported : Type :=
  | I128 | U128 | F32 | Char | NoneValue | SomeValue | UnitVariant | NewtypeVariant
  | TupleVariant | StructVariant | Map | CollectStr
  | DeserializeAny | DeserializeSeq | DeserializeEnum | DeserializeIdentifier
  | DeserializeIgnoredAny.

Inductive error : Type :=
  | EncodedLengthOverflow
  | OutputTooShort
  | LengthNotU32
  | LengthRequired
  | Unsupported (u : unsupported)
  | Truncated
  | TruncatedArray
  | ElementCountMismatch
  | ElementWithoutBytes
  | LegacyLengthMismatch
  | InvalidUtf8
  | InvalidLength (index : Z)
  | MissingField (name : string)
  | TrailingPayload
  | NotInitialized.

Inductive outcome (A : Type) : Type :=
  | Ok (a : A)
  | Err (e : error)
  | Panic.
#[global] Arguments Ok {A} a.
#[global] Arguments Err {A} e.
#[global] Arguments Panic {A}.

Definition M (S A : Type) : Type := S -> S * outcome A.

#[export] Instance m_ret S : MRet (M S) := fun A a s => (s, Ok a).
#[export] Instance m_bind S : MBind (M S) := fun A B k m s =>
  match m s with
  | (s', Ok a) => k a s'
  | (s', Err e) => (s', Err e)
  | (s', Panic) => (s', Panic)
  end.
Definition gets {S A} (f : S -> outcome A) : M S A := fun s => (s, f s).
Definition fail {S A} (e : error) : M S A := fun s => (s, Err e).

(** ** Integers *)

Inductive ikind : Type := U8 | U16 | U32 | U64 | I8 | I16 | I32 | I64.
#[export] Instance ikind_eq_dec : EqDecision ikind.
Proof. solve_decision. Defined.

Definition width (k : ikind) : nat :=
  match k with U8 | I8 => 1 | U16 | I16 => 2 | U32 | I32 => 4 | U64 | I64 => 8 end.
Definition signed (k : ikind) : bool :=
  match k with I8 | I16 | I32 | I64 => true | _ => false end.
Definition bits (k : ikind) : Z := 8 * Z.of_nat (width k).
Definition in_range (k : ikind) (z : Z) : bool :=
  if signed k then (- 2 ^ (bits k - 1) <=? z) && (z <? 2 ^ (bits k - 1))
  else (0 <=? z) && (z <? 2 ^ bits k).

Definition to_be_bytes (k : ikind) (z : Z) : list Z := be_split (width k) (wrap (bits k) z).
Definition to_le_bytes (k : ikind) (z : Z) : list Z := le_split (width k) (wrap (bits k) z).
Definition of_word (k : ikind) (w : Z) : Z := if signed k then as_signed (bits k) w else w.
Definition from_be_bytes (k : ikind) (bs : list Z) : Z := of_word k (be_combine bs).
Definition from_le_bytes (k : ikind) (bs : list Z) : Z := of_word k (le_combine bs).

(** ** Values and shapes *)

Inductive value : Type :=
  | VInt (k : ikind) (z : Z)
  | VBool (b : bool)
  | VF64 (bits : Z)
  | VBytes (bs : list Z)
  | VStr (bs : list Z)
  | VSeq (len : option Z) (vs : list value)
  | VTuple (vs : list value)
  | VTupleStruct (vs : list value)
  | VStruct (fs : list (string * value))
  | VNewtypeStruct (v : value)
  | VUnit
  | VUnitStruct
  | VUnsupported (u : unsupported).

Inductive shape : Type :=
  | SInt (k : ikind)
  | SBool
  | SF64
  | SBytes
  | SByteBuf
  | SStr
  | SString
  | STuple (ss : list shape)
  | STupleStruct (ss : list shape)
  | SArray (n : nat) (s : shape)
  | SVec (n : nat) (s : shape)
  | SStruct (fs : list (string * shape))
  | SNewtypeStruct (s : shape)
  | SUnit
  | SUnitStruct
  | SUnsupported (u : unsupported).

Definition is_client_index (name : string) : bool := String.eqb name "client_index".

(** Validity of UTF-8, as [std::str::from_utf8] decides it. *)
Definition cont (b : Z) : bool := (128 <=? b) && (b <? 192).
Definition second_ok (b0 b1 : Z) : bool :=
  if b0 =? 224 then (160 <=? b1) && (b1 <? 192)
  else if b0 =? 237 then (128 <=? b1) && (b1 <? 160)
  else if b0 =? 240 then (144 <=? b1) && (b1 <? 192)
  else if b0 =? 244 then (128 <=? b1) && (b1 <? 144)
  else cont b1.

Fixpoint utf8_valid (l : list Z) : bool :=
  match l with
  | [] => true
  | b0 :: l0 =>
    if (0 <=? b0) && (b0 <? 128) then utf8_valid l0
    else if (194 <=? b0) && (b0 <? 224) then
      match l0 with b1 :: l1 => second_ok b0 b1 && utf8_valid l1 | _ => false end
    else if (224 <=? b0) && (b0 <? 240) then
      match l0 with
      | b1 :: b2 :: l2 => second_ok b0 b1 && cont b2 && utf8_valid l2
      | _ => false
      end
    else if (240 <=? b0) && (b0 <? 245) then
      match l0 with
      | b1 :: b2 :: b3 :: l3 => second_ok b0 b1 && cont b2 && cont b3 && utf8_valid l3
      | _ => false
      end
    else false
  end.

Section Codec.

(** Whether the host is little endian. *)
Variable le : bool.

Definition to_ne_bytes (k : ikind) (z : Z) : list Z := if le then to_le_bytes k z else to_be_bytes k z.
Definition from_ne_bytes (k : ikind) (bs : list Z) : Z :=
  if le then from_le_bytes k bs else from_be_bytes k bs.

(** ** The serializer *)

(** The output is absent when a value is only measured; a byte of it may be
    uninitialised. *)
Record Serializer : Type := mk_ser {
  output : option (list (option Z));
  s_offset : Z;
  s_opaque : bool
}.

Definition set_s_opaque (b : bool) (s : Serializer) : Serializer :=
  mk_ser (output s) (s_offset s) b.

Definition copy_at (o : list (option Z)) (off : Z) (bs : list Z) : list (option Z) :=
  take (Z.to_nat off) o ++ (Some <$> bs) ++ drop (Z.to_nat (off + vlen bs)) o.

Definition write (bs : list Z) : M Serializer unit := fun s =>
  match checked_add 64 (s_offset s) (vlen bs) with
  | None => (s, Err EncodedLengthOverflow)
  | Some end_ =>
    match output s with
    | None => (mk_ser None end_ (s_opaque s), Ok tt)
    | Some o =>
      if vlen o <? end_ then (s, Err OutputTooShort)
      else (mk_ser (Some (copy_at o (s_offset s) bs)) end_ (s_opaque s), Ok tt)
    end
  end.

Definition serialize_integer (k : ikind) (z : Z) : M Serializer unit := fun s =>
  write (if s_opaque s then to_ne_bytes k z else to_be_bytes k z) s.
Definition serialize_bool (b : bool) : M Serializer unit := write [if b then 1 else 0].
Definition serialize_f64 (z : Z) : M Serializer unit := write (to_ne_bytes U64 z).

Definition serialize_bytes (bs : list Z) : M Serializer unit := fun s =>
  if u32_max <? vlen bs then (s, Err LengthNotU32) else
  let continue := (_ ← write (to_be_bytes U32 (vlen bs)); write bs) in
  match output s with
  | None => continue s
  | Some o =>
    if vlen o <? s_offset s then (s, Panic)
    else if (vlen o - s_offset s <? 4) || (vlen o - s_offset s - 4 <? vlen bs) then
      (s, Err OutputTooShort)
    else continue s
  end.
Definition serialize_str (bs : list Z) : M Serializer unit := serialize_bytes bs.
Definition serialize_seq (len : option Z) : M Serializer unit :=
  match len with None => fail LengthRequired | Some _ => mret tt end.

(** [SerializeStruct::serialize_field]: the flag is restored also when the
    field fails. *)
Definition serialize_field (name : string) (field : M Serializer unit) : M Serializer unit := fun s =>
  let '(s', r) := field (set_s_opaque (is_client_index name) s) in
  (set_s_opaque (s_opaque s) s', r).

Definition serialize_elements {A} (f : A -> M Serializer unit) : list A -> M Serializer unit :=
  fix go vs := match vs with [] => mret tt | v :: vs' => _ ← f v; go vs' end.

Fixpoint ser (v : value) : M Serializer unit :=
  match v with
  | VInt k z => serialize_integer k z
  | VBool b => serialize_bool b
  | VF64 z => serialize_f64 z
  | VBytes bs => serialize_bytes bs
  | VStr bs => serialize_str bs
  | VSeq len vs => _ ← serialize_seq len; serialize_elements ser vs
  | VTuple vs => serialize_elements ser vs
  | VTupleStruct vs => serialize_elements ser vs
  | VStruct fs => serialize_elements (fun '(name, x) => serialize_field name (ser x)) fs
  | VNewtypeStruct x => ser x
  | VUnit => mret tt
  | VUnitStruct => mret tt
  | VUnsupported u => fail (Unsupported u)
  end.

Definition finish (r : Serializer * outcome unit) : Serializer * outcome Z :=
  match r with
  | (s, Ok _) => (s, Ok (s_offset s))
  | (s, Err e) => (s, Err e)
  | (s, Panic) => (s, Panic)
  end.

Definition serialize_uninit (v : value) (o : list (option Z)) : Serializer * outcome Z :=
  finish (ser v (mk_ser (Some o) 0 false)).
Definition serialize (v : value) (o : list Z) : Serializer * outcome Z :=
  serialize_uninit v (Some <$> o).
Definition serialized_len (v : value) : outcome Z := (finish (ser v (mk_ser None 0 false))).2.

(** ** The deserializer *)

Record Deserializer : Type := mk_de {
  input : list Z;
  d_offset : Z;
  d_remaining : Z;
  d_fields : list string;
  d_opaque : bool
}.

Definition de_new (inp : list Z) : Deserializer := mk_de inp 0 0 [] false.
Definition set_offset (z : Z) (d : Deserializer) : Deserializer :=
  mk_de (input d) z (d_remaining d) (d_fields d) (d_opaque d).
Definition set_sequence (r : Z) (fs : list string) (d : Deserializer) : Deserializer :=
  mk_de (input d) (d_offset d) r fs (d_opaque d).
Definition set_d_opaque (b : bool) (d : Deserializer) : Deserializer :=
  mk_de (input d) (d_offset d) (d_remaining d) (d_fields d) b.

Definition remaining_bytes : M Deserializer Z := fun d =>
  if vlen (input d) <? d_offset d then (d, Panic) else (d, Ok (vlen (input d) - d_offset d)).

Definition read (len : Z) : M Deserializer (list Z) := fun d =>
  match checked_add 64 (d_offset d) len with
  | None => (d, Err Truncated)
  | Some end_ =>
    if end_ <=? vlen (input d) then
      match vslice (input d) (d_offset d) end_ with
      | Some bs => (set_offset end_ d, Ok bs)
      | None => (d, Panic)
      end
    else (d, Err Truncated)
  end.

(** [SeqAccess::next_element_seed]. *)
Definition next_element_seed {A} (seed : M Deserializer A) : M Deserializer (option A) := fun d =>
  if d_remaining d =? 0 then (d, Ok None) else
  let index := saturating_sub (vlen (d_fields d)) (d_remaining d) in
  let op := match vget (d_fields d) index with Some name => is_client_index name | None => false end in
  let array_element := match d_fields d with [] => true | _ => false end in
  let '(d', r) := seed (set_d_opaque op (set_sequence (d_remaining d - 1) (d_fields d) d)) in
  let d'' := set_d_opaque (d_opaque d) d' in
  match r with
  | Ok a =>
    if array_element && (d_offset d' =? d_offset d) then (d'', Err ElementWithoutBytes)
    else (d'', Ok (Some a))
  | Err e => (d'', Err e)
  | Panic => (d'', Panic)
  end.

(** Restores the parent's sequence and refuses elements the visitor left. *)
Definition end_sequence {A} (d d' : Deserializer) (r : outcome A) : Deserializer * outcome A :=
  let d'' := set_sequence (d_remaining d) (d_fields d) d' in
  match r with
  | Ok a => if d_remaining d' =? 0 then (d'', Ok a) else (d'', Err ElementCountMismatch)
  | Err e => (d'', Err e)
  | Panic => (d'', Panic)
  end.

Definition sequence {A} (len : Z) (fields : list string) (visit_seq : M Deserializer A) :
  M Deserializer A := fun d =>
  let visit := let '(d', r) := visit_seq (set_sequence len fields d) in end_sequence d d' r in
  match fields with
  | [] =>
    match remaining_bytes d with
    | (_, Ok rest) => if rest <? len then (d, Err TruncatedArray) else visit
    | (_, Err e) => (d, Err e)
    | (_, Panic) => (d, Panic)
    end
  | _ => visit
  end.

Definition deserialize_integer (k : ikind) : M Deserializer Z :=
  bs ← read (Z.of_nat (width k));
  gets (fun d => Ok (if d_opaque d then from_ne_bytes k bs else from_be_bytes k bs)).
Definition deserialize_bool : M Deserializer bool :=
  bs ← read 1;
  gets (fun _ => match vget bs 0 with Some b => Ok (negb (b =? 0)) | None => Panic end).
Definition deserialize_f64 : M Deserializer Z := bs ← read 8; mret (from_ne_bytes U64 bs).
Definition deserialize_bytes : M Deserializer (list Z) :=
  bs ← read 4; read (from_be_bytes U32 bs).
Definition deserialize_str : M Deserializer (list Z) :=
  bs ← deserialize_bytes; if utf8_valid bs then mret bs else fail InvalidUtf8.

(** The visitor of [Array<Vec<T>>] and of [Array<[T; N]>]: element [index] is
    read until [n] elements are there. *)
Fixpoint visit_array {A} (n : nat) (index : Z) (element : M Deserializer A) : M Deserializer (list A) :=
  match n with
  | O => mret []
  | S n' =>
    o ← next_element_seed element;
    match o with
    | None => fail (InvalidLength index)
    | Some a => rest ← visit_array n' (index + 1) element; mret (a :: rest)
    end
  end.

(** The visitor of a tuple: one element of each component's type. *)
Definition visit_tuple {A B} (f : A -> M Deserializer B) : Z -> list A -> M Deserializer (list B) :=
  fix go index ss :=
  match ss with
  | [] => mret []
  | s :: ss' =>
    o ← next_element_seed (f s);
    match o with
    | None => fail (InvalidLength index)
    | Some b => rest ← go (index + 1) ss'; mret (b :: rest)
    end
  end.

Fixpoint de (s : shape) : M Deserializer value :=
  match s with
  | SInt k => z ← deserialize_integer k; mret (VInt k z)
  | SBool => b ← deserialize_bool; mret (VBool b)
  | SF64 => z ← deserialize_f64; mret (VF64 z)
  | SBytes => bs ← deserialize_bytes; mret (VBytes bs)
  | SByteBuf => bs ← deserialize_bytes; mret (VBytes bs)
  | SStr => bs ← deserialize_str; mret (VStr bs)
  | SString => bs ← deserialize_str; mret (VStr bs)
  | STuple ss => vs ← sequence (vlen ss) [] (visit_tuple de 0 ss); mret (VTuple vs)
  | STupleStruct ss => vs ← sequence (vlen ss) [] (visit_tuple de 0 ss); mret (VTupleStruct vs)
  | SArray n x => vs ← sequence (Z.of_nat n) [] (visit_array n 0 (de x)); mret (VTuple vs)
  | SVec n x => vs ← sequence (Z.of_nat n) [] (visit_array n 0 (de x)); mret (VSeq (Some (Z.of_nat n)) vs)
  | SStruct fs =>
    vs ← sequence (vlen fs) fs.*1 (visit_tuple (fun '(name, x) => v ← de x; mret (name, v)) 0 fs);
    mret (VStruct vs)
  | SNewtypeStruct x => v ← de x; mret (VNewtypeStruct v)
  | SUnit => mret VUnit
  | SUnitStruct => mret VUnitStruct
  | SUnsupported u => fail (Unsupported u)
  end.

Definition deserialize (s : shape) (inp : list Z) : outcome value := (de s (de_new inp)).2.

(** A tail array whose elements have a fixed wire size. *)
Definition deserialize_legacy (s : shape) (element_size : Z) : M Deserializer (list value) :=
  rest ← remaining_bytes;
  if (element_size =? 0) || negb (rest mod element_size =? 0) then fail LegacyLengthMismatch
  else let n := Z.to_nat (rest / element_size) in
    sequence (Z.of_nat n) [] (visit_array n 0 (de s)).

(** [codec::String::new]. *)
Definition string_new (buf : list Z) : outcome (list Z) :=
  if u32_max <? vlen buf then Err LengthNotU32 else Ok buf.

(** ** The reference encoding *)

Definition concat_wire {A} (f : A -> error + list Z) : list A -> error + list Z :=
  fix go xs :=
  match xs with
  | [] => inr []
  | x :: xs' =>
    match f x with
    | inl e => inl e
    | inr bs => match go xs' with inl e => inl e | inr rest => inr (bs ++ rest) end
    end
  end.

(** The bytes of a value, [op] being the [opaque] flag in force: only the
    integers directly in a field named [client_index] keep the host's order. *)
Fixpoint wire (op : bool) (v : value) : error + list Z :=
  match v with
  | VInt k z => inr (if op then to_ne_bytes k z else to_be_bytes k z)
  | VBool b => inr [if b then 1 else 0]
  | VF64 z => inr (to_ne_bytes U64 z)
  | VBytes bs | VStr bs =>
    if u32_max <? vlen bs then inl LengthNotU32 else inr (to_be_bytes U32 (vlen bs) ++ bs)
  | VSeq None _ => inl LengthRequired
  | VSeq (Some _) vs | VTuple vs | VTupleStruct vs => concat_wire (wire op) vs
  | VStruct fs => concat_wire (fun '(name, x) => wire (is_client_index name) x) fs
  | VNewtypeStruct x => wire op x
  | VUnit | VUnitStruct => inr []
  | VUnsupported u => inl (Unsupported u)
  end.

Definition all2 {A B} (f : A -> B -> bool) : list A -> list B -> bool :=
  fix go xs ys :=
  match xs, ys with
  | [], [] => true
  | x :: xs', y :: ys' => f x y && go xs' ys'
  | _, _ => false
  end.

Definition takes_bytes (v : value) : bool :=
  match wire false v with inr [] => false | _ => true end.

Definition byte_list (bs : list Z) : bool := forallb (fun b => (0 <=? b) && (b <? 256)) bs.

(** The values a shape describes: the calls match, integers are in range,
    array elements take at least one byte, and no array or tuple of integers
    stands in a [client_index] field. *)
Fixpoint fits (op : bool) (v : value) (s : shape) {struct v} : bool :=
  match v, s with
  | VInt k z, SInt k' => bool_decide (k = k') && in_range k z
  | VBool _, SBool => true
  | VF64 z, SF64 => in_range U64 z
  | VBytes bs, (SBytes | SByteBuf) => byte_list bs && (vlen bs <=? u32_max)
  | VStr bs, (SStr | SString) => byte_list bs && utf8_valid bs && (vlen bs <=? u32_max)
  | VSeq (Some len) vs, SVec n x =>
    negb op && (len =? Z.of_nat n) && Nat.eqb (length vs) n
      && forallb (fun v => takes_bytes v && fits false v x) vs
  | VTuple vs, SArray n x =>
    negb op && Nat.eqb (length vs) n && forallb (fun v => takes_bytes v && fits false v x) vs
  | VTuple vs, STuple ss | VTupleStruct vs, STupleStruct ss =>
    negb op && all2 (fun v x => takes_bytes v && fits false v x) vs ss
  | VStruct fs, SStruct gs =>
    all2 (fun '(name, v) '(name', x) =>
            String.eqb name name' && fits (is_client_index name) v x) fs gs
  | VNewtypeStruct v, SNewtypeStruct x => fits op v x
  | VUnit, SUnit | VUnitStruct, SUnitStruct => true
  | _, _ => false
  end.

(** ** Induction on values *)

Lemma value_ind' (P : value -> Prop) :
  (forall k z, P (VInt k z)) -> (forall b, P (VBool b)) -> (forall z, P (VF64 z)) ->
  (forall bs, P (VBytes bs)) -> (forall bs, P (VStr bs)) ->
  (forall len vs, Forall P vs -> P (VSeq len vs)) ->
  (forall vs, Forall P vs -> P (VTuple vs)) -> (forall vs, Forall P vs -> P (VTupleStruct vs)) ->
  (forall fs, Forall (fun f => P f.2) fs -> P (VStruct fs)) ->
  (forall v, P v -> P (VNewtypeStruct v)) -> P VUnit -> P VUnitStruct ->
  (forall u, P (VUnsupported u)) -> forall v, P v.
Proof.
  intros Hi Hb Hf Hby Hs Hseq Ht Hts Hst Hn Hu Hus Hun.
  fix IH 1. intros [ | | | | |len vs|vs|vs|fs|v| | | ].
  - apply Hi. - apply Hb. - apply Hf. - apply Hby. - apply Hs.
  - apply Hseq. induction vs; constructor; auto.
  - apply Ht. induction vs; constructor; auto.
  - apply Hts. induction vs; constructor; auto.
  - apply Hst. induction fs as [|[n x] fs IHf]; constructor; [apply IH|exact IHf].
  - apply Hn, IH. - exact Hu. - exact Hus. - apply Hun.
Qed.

(** ** The serializer writes the reference encoding *)

Definition s_ok (s : Serializer) : Prop :=
  0 <= s_offset s < 2 ^ 64 /\ match output s with Some o => s_offset s <= vlen o | None => True end.

Definition room (s : Serializer) (n : Z) : bool :=
  (s_offset s + n <? 2 ^ 64) &&
  match output s with Some o => s_offset s + n <=? vlen o | None => true end.

Definition advance (s : Serializer) (bs : list Z) : Serializer :=
  mk_ser ((fun o => copy_at o (s_offset s) bs) <$> output s) (s_offset s + vlen bs) (s_opaque s).

(** [m] writes the bytes [w] gives under the current flag, or fails. *)
Definition serializes (m : M Serializer unit) (w : bool -> error + list Z) : Prop :=
  forall s, s_ok s ->
  match w (s_opaque s) with
  | inr bs =>
    if room s (vlen bs) then m s = (advance s bs, Ok tt)
    else exists s' e, m s = (s', Err e) /\
      (e = OutputTooShort \/ 2 ^ 64 <= s_offset s + vlen bs /\ e = EncodedLengthOverflow)
  | inl e0 => exists s' e, m s = (s', Err e) /\
      (e = e0 \/ e = OutputTooShort \/ e = EncodedLengthOverflow)
  end.

Lemma vlen_copy_at o off bs :
  0 <= off -> off + vlen bs <= vlen o -> vlen (copy_at o off bs) = vlen o.
Proof.
  unfold copy_at, vlen. intros H1 H2. rewrite !length_app, length_take, length_fmap, length_drop. lia.
Qed.

Lemma copy_at_nil o off : copy_at o off [] = o.
Proof. unfold copy_at. cbn [fmap list_fmap app]. by rewrite Z.add_0_r, take_drop. Qed.

Lemma copy_at_app o off a b :
  0 <= off -> off + vlen a + vlen b <= vlen o ->
  copy_at (copy_at o off a) (off + vlen a) b = copy_at o off (a ++ b).
Proof.
  unfold copy_at, vlen. intros H1 H2. rewrite fmap_app, !length_app, Nat2Z.inj_add.
  assert (length (take (Z.to_nat off) o ++ (Some <$> a)) = Z.to_nat (off + Z.of_nat (length a))) as Hl.
  { rewrite length_app, length_take, length_fmap. lia. }
  rewrite (app_assoc (take _ o)), take_app_le by lia. rewrite <- Hl at 1. rewrite firstn_all.
  rewrite <- !app_assoc. do 3 f_equal. rewrite (app_assoc (take _ o)), drop_app_ge by lia.
  rewrite drop_drop, Hl. f_equal. lia.
Qed.

Lemma advance_nil s : advance s [] = s.
Proof.
  destruct s as [[o|] off op]; unfold advance; cbn; rewrite ?copy_at_nil, Z.add_0_r; done.
Qed.

Lemma room_mono s n m : 0 <= n <= m -> room s m = true -> room s n = true.
Proof.
  unfold room. intros H. rewrite !andb_true_iff. destruct (output s); bool_iff; lia.
Qed.

Lemma advance_app s a b :
  s_ok s -> room s (vlen (a ++ b)) = true -> advance (advance s a) b = advance s (a ++ b).
Proof.
  unfold room, advance. intros [H0 _] [H1 H2]%andb_prop. rewrite vlen_app in *.
  destruct s as [[o|] off op]; cbn in *; f_equal; try lia. f_equal. apply Z.leb_le in H2.
  apply copy_at_app; lia.
Qed.

Lemma advance_ok s a : s_ok s -> room s (vlen a) = true -> s_ok (advance s a).
Proof.
  unfold s_ok, room, advance. intros [H0 H1] [H3%Z.ltb_lt H2]%andb_prop. pose proof (vlen_nonneg a).
  destruct s as [[o|] off op]; cbn in *; [|lia]. apply Z.leb_le in H2. rewrite vlen_copy_at; lia.
Qed.

Lemma room_advance s a b :
  s_ok s -> room s (vlen a) = true -> room (advance s a) (vlen b) = room s (vlen (a ++ b)).
Proof.
  unfold room. intros [H0 _] [_ H]%andb_prop. rewrite vlen_app, Z.add_assoc.
  destruct s as [[o|] off op]; cbn in *; [|done]. apply Z.leb_le in H. by rewrite vlen_copy_at by lia.
Qed.

Lemma room_0 s : s_ok s -> room s 0 = true.
Proof.
  unfold s_ok, room. intros [H0 H1]. rewrite Z.add_0_r. destruct (output s); bool_iff; lia.
Qed.

Lemma serializes_ret : serializes (mret tt) (fun _ => inr []).
Proof. intros s Hs. change (vlen (@nil Z)) with 0. by rewrite room_0, advance_nil. Qed.

Lemma serializes_fail e : serializes (fail e) (fun _ => inl e).
Proof. intros s Hs. exists s, e. auto. Qed.

Lemma serializes_write (f : bool -> list Z) :
  serializes (fun s => write (f (s_opaque s)) s) (fun op => inr (f op)).
Proof.
  intros s [H0 H1]. unfold write, checked_add, room, advance. cbv zeta.
  set (bs := f (s_opaque s)).
  destruct (s_offset s + vlen bs <? 2 ^ 64) eqn:E64; bool_prop; cbn [andb].
  - destruct (output s) as [o|]; [|done].
    rewrite Z.leb_antisym. destruct (vlen o <? _) eqn:E; cbn [negb]; [|done]. eexists _, _. eauto.
  - eexists _, _. split; [done|]. right. split; [lia|done].
Qed.

Lemma serializes_bind m1 m2 w1 w2 :
  serializes m1 w1 -> serializes m2 w2 ->
  serializes (_ ← m1; m2) (fun op =>
    match w1 op with
    | inl e => inl e
    | inr a => match w2 op with inl e => inl e | inr b => inr (a ++ b) end
    end).
Proof.
  intros H1 H2 s Hs. unfold mbind, m_bind. specialize (H1 s Hs).
  destruct (w1 (s_opaque s)) as [e|a]; [destruct H1 as (s' & e' & -> & He); eauto|].
  destruct (room s (vlen a)) eqn:Ha.
  - rewrite H1. specialize (H2 _ (advance_ok s a Hs Ha)). change (s_opaque (advance s a)) with (s_opaque s) in H2.
    destruct (w2 (s_opaque s)) as [e|b]; [done|]. rewrite room_advance in H2 by done.
    destruct (room s (vlen (a ++ b))) eqn:Hab; [by rewrite H2, advance_app|].
    cbn [advance s_offset] in H2. by rewrite vlen_app, Z.add_assoc.
  - destruct H1 as (s' & e & -> & He). destruct (w2 _) as [e0|b].
    + exists s', e. naive_solver.
    + destruct (room s (vlen (a ++ b))) eqn:Hab.
      { pose proof (room_mono s (vlen a) (vlen (a ++ b))) as Hm. rewrite vlen_app in Hm.
        rewrite Hm in Ha; [done| |by rewrite <- vlen_app]. pose proof (vlen_nonneg a).
        pose proof (vlen_nonneg b). lia. }
      exists s', e. split; [done|]. rewrite vlen_app. pose proof (vlen_nonneg b).
      destruct He as [?|[? ?]]; [by left|right; split; [lia|done]].
Qed.

Lemma serializes_ext m w w' : (forall op, w op = w' op) -> serializes m w -> serializes m w'.
Proof. intros Hw Hm s Hs. rewrite <- Hw. by apply Hm. Qed.

Lemma serializes_elements {A} (f : A -> M Serializer unit) (w : bool -> A -> error + list Z) xs :
  Forall (fun x => serializes (f x) (fun op => w op x)) xs ->
  serializes (serialize_elements f xs) (fun op => concat_wire (w op) xs).
Proof.
  induction 1 as [|x xs Hx _ IH]; cbn [serialize_elements concat_wire]; [apply serializes_ret|].
  by apply (serializes_bind _ _ _ _ Hx IH).
Qed.

Lemma serializes_bytes bs :
  serializes (serialize_bytes bs) (fun _ =>
    if u32_max <? vlen bs then inl LengthNotU32 else inr (to_be_bytes U32 (vlen bs) ++ bs)).
Proof.
  intros s Hs. unfold serialize_bytes. case_if; [eexists _, _; eauto|]. cbv zeta.
  pose proof (serializes_bind _ _ _ _ (serializes_write (fun _ => to_be_bytes U32 (vlen bs)))
    (serializes_write (fun _ => bs)) s Hs) as Hw. cbv beta in Hw.
  destruct (output s) as [o|] eqn:Ho; [|exact Hw].
  pose proof Hs as [H0 H1]. rewrite Ho in H1. rewrite (proj2 (Z.ltb_ge _ _)) by lia.
  destruct (_ || _)%bool eqn:Es; [|exact Hw].
  assert (room s (vlen (to_be_bytes U32 (vlen bs) ++ bs)) = false) as ->; [|eauto].
  unfold room. rewrite Ho, vlen_app. apply andb_false_iff. right. apply Z.leb_gt.
  assert (vlen (to_be_bytes U32 (vlen bs)) = 4) as ->
    by (unfold vlen, to_be_bytes; by rewrite be_split_length).
  apply orb_prop in Es as [Es|Es]; bool_prop; pose proof (vlen_nonneg bs); lia.
Qed.

Lemma serializes_field name m w :
  serializes m w -> serializes (serialize_field name m) (fun _ => w (is_client_index name)).
Proof.
  intros Hm s Hs. unfold serialize_field. specialize (Hm (set_s_opaque (is_client_index name) s) Hs).
  cbn [s_opaque set_s_opaque] in Hm. destruct (w _) as [e|bs].
  - destruct Hm as (s' & e' & -> & He). eauto.
  - change (room (set_s_opaque _ s) ?n) with (room s n) in Hm. destruct (room s _).
    + rewrite Hm. by destruct s.
    + destruct Hm as (s' & e' & -> & He). eauto.
Qed.

Lemma ser_serializes v : serializes (ser v) (fun op => wire op v).
Proof.
  induction v using value_ind'; cbn [ser wire].
  - apply (serializes_write (fun op => if op then to_ne_bytes k z else to_be_bytes k z)).
  - apply (serializes_write (fun _ => [if b then 1 else 0])).
  - apply (serializes_write (fun _ => to_ne_bytes U64 z)).
  - apply serializes_bytes.
  - apply serializes_bytes.
  - destruct len as [len|]; cbn [serialize_seq]; [by apply serializes_elements|].
    intros s Hs. eexists _, _. split; [done|]. auto.
  - by apply serializes_elements.
  - by apply serializes_elements.
  - apply (serializes_elements (fun '(name, x) => serialize_field name (ser x))
      (fun _ '(name, x) => wire (is_client_index name) x)).
    eapply Forall_impl; [done|]. intros [name x] Hx. by apply (serializes_field name _ _ Hx).
  - done.
  - apply serializes_ret.
  - apply serializes_ret.
  - apply serializes_fail.
Qed.

(** ** Integers read back *)

Lemma of_word_wrap k z : in_range k z = true -> of_word k (wrap (bits k) z) = z.
Proof.
  unfold in_range, of_word, as_signed, wrap. assert (0 < bits k) by (by destruct k).
  assert (2 ^ bits k = 2 * 2 ^ (bits k - 1)) as Hp.
  { rewrite <- Z.pow_succ_r by lia. f_equal. lia. }
  destruct (signed k); intros Hr; bool_prop; [|apply Z.mod_small; lia].
  destruct (Z.ltb_spec z 0).
  - rewrite <- (Z.mod_add z 1), Z.mul_1_l, Z.mod_small by lia. case_if; lia.
  - rewrite Z.mod_small by lia. case_if; lia.
Qed.

Lemma wrap_word k z : 0 <= wrap (bits k) z < 256 ^ Z.of_nat (width k).
Proof. change 256 with (2 ^ 8). rewrite <- Z.pow_mul_r by lia. apply wrap_bounds. by destruct k. Qed.

Lemma be_bytes_roundtrip k z : in_range k z = true -> from_be_bytes k (to_be_bytes k z) = z.
Proof.
  intros Hr. unfold from_be_bytes, to_be_bytes. rewrite be_combine_split by apply wrap_word.
  by apply of_word_wrap.
Qed.

Lemma ne_bytes_roundtrip k z : in_range k z = true -> from_ne_bytes k (to_ne_bytes k z) = z.
Proof.
  intros Hr. unfold from_ne_bytes, to_ne_bytes. destruct le; [|by apply be_bytes_roundtrip].
  unfold from_le_bytes, to_le_bytes. rewrite le_combine_split by apply wrap_word. by apply of_word_wrap.
Qed.

Lemma to_be_bytes_len k z : vlen (to_be_bytes k z) = Z.of_nat (width k).
Proof. unfold vlen, to_be_bytes. by rewrite be_split_length. Qed.

Lemma to_ne_bytes_len k z : vlen (to_ne_bytes k z) = Z.of_nat (width k).
Proof.
  unfold to_ne_bytes. destruct le; [|apply to_be_bytes_len].
  unfold vlen, to_le_bytes. by rewrite le_split_length.
Qed.

(** ** The deserializer reads the reference encoding back *)

Definition at_bytes (d : Deserializer) (bs : list Z) : Prop :=
  vlen (input d) < 2 ^ 64 /\ exists pre post, input d = pre ++ bs ++ post /\ d_offset d = vlen pre.

Definition skip (d : Deserializer) (n : Z) : Deserializer := set_offset (d_offset d + n) d.

(** With the flag [op], [m] takes exactly the bytes [bs] off the input and
    returns [a]. *)
Definition decodes {A} (op : bool) (m : M Deserializer A) (bs : list Z) (a : A) : Prop :=
  forall d, d_opaque d = op -> at_bytes d bs -> m d = (skip d (vlen bs), Ok a).

Lemma at_bytes_l d a b : at_bytes d (a ++ b) -> at_bytes d a.
Proof.
  intros (Hl & pre & post & Hi & Ho). split; [done|]. exists pre, (b ++ post). by rewrite Hi, <- !app_assoc.
Qed.

Lemma at_bytes_r d a b : at_bytes d (a ++ b) -> at_bytes (skip d (vlen a)) b.
Proof.
  intros (Hl & pre & post & Hi & Ho). split; [done|]. exists (pre ++ a), post. cbn.
  by rewrite Hi, Ho, vlen_app, <- !app_assoc.
Qed.

Lemma at_bytes_room d bs : at_bytes d bs ->
  0 <= d_offset d /\ d_offset d + vlen bs <= vlen (input d) /\ vlen (input d) < 2 ^ 64.
Proof.
  intros (Hl & pre & post & Hi & Ho). rewrite Ho, Hi, !vlen_app in *.
  pose proof (vlen_nonneg pre). pose proof (vlen_nonneg post). lia.
Qed.

Lemma skip_skip d n m : skip (skip d n) m = skip d (n + m).
Proof. unfold skip, set_offset. cbn. by rewrite Z.add_assoc. Qed.

Lemma skip_0 d : skip d 0 = d.
Proof. destruct d. unfold skip, set_offset. cbn. by rewrite Z.add_0_r. Qed.

Lemma decodes_ret {A} op (a : A) : decodes op (mret a) [] a.
Proof. intros d _ _. change (vlen (@nil Z)) with 0. by rewrite skip_0. Qed.

Lemma decodes_bind {A B} op (m : M Deserializer A) (k : A -> M Deserializer B) b1 b2 a b :
  decodes op m b1 a -> decodes op (k a) b2 b -> decodes op (m ≫= k) (b1 ++ b2) b.
Proof.
  intros H1 H2 d Hop Hat. unfold mbind, m_bind. rewrite (H1 d Hop (at_bytes_l _ _ _ Hat)).
  rewrite (H2 (skip d (vlen b1)) Hop (at_bytes_r _ _ _ Hat)). by rewrite skip_skip, vlen_app.
Qed.

Lemma decodes_fmap {A B} op (m : M Deserializer A) (f : A -> B) bs a :
  decodes op m bs a -> decodes op (x ← m; mret (f x)) bs (f a).
Proof. intros H. rewrite <- (app_nil_r bs). apply (decodes_bind _ _ _ _ _ _ _ H), decodes_ret. Qed.

Lemma decodes_read op bs : decodes op (read (vlen bs)) bs bs.
Proof.
  intros d Hop Hat. unfold read, checked_add. destruct (at_bytes_room d bs Hat) as (H0 & H1 & H2).
  rewrite (proj2 (Z.ltb_lt _ _)) by lia. rewrite (proj2 (Z.leb_le _ _)) by lia.
  destruct Hat as (_ & pre & post & Hi & Ho).
  assert (vslice (input d) (d_offset d) (d_offset d + vlen bs) = Some bs) as ->; [|done].
  pose proof (vlen_nonneg bs). rewrite vslice_Some by lia. f_equal.
  rewrite Hi, Ho. unfold vlen in *. rewrite Nat2Z.id, drop_app_length.
  replace (Z.to_nat _) with (length bs) by lia. apply take_app_length.
Qed.

Lemma decodes_integer op k z :
  in_range k z = true ->
  decodes op (deserialize_integer k) (if op then to_ne_bytes k z else to_be_bytes k z) z.
Proof.
  intros Hr d Hop Hat. unfold deserialize_integer, mbind, m_bind.
  set (bs := if op then _ else _) in *.
  assert (vlen bs = Z.of_nat (width k)) as Hl
    by (subst bs; destruct op; [apply to_ne_bytes_len|apply to_be_bytes_len]).
  rewrite <- Hl, (decodes_read op bs d Hop Hat). unfold gets. cbn [d_opaque skip set_offset].
  rewrite Hop. subst bs. destruct op; by rewrite ?ne_bytes_roundtrip, ?be_bytes_roundtrip.
Qed.

Lemma decodes_bytes op bs :
  vlen bs <= u32_max -> decodes op deserialize_bytes (to_be_bytes U32 (vlen bs) ++ bs) bs.
Proof.
  intros Hl. unfold deserialize_bytes. eapply decodes_bind.
  - replace 4 with (vlen (to_be_bytes U32 (vlen bs))) by apply to_be_bytes_len. apply decodes_read.
  - rewrite be_bytes_roundtrip; [apply decodes_read|]. unfold in_range, bits. cbn.
    pose proof (vlen_nonneg bs). unfold u32_max in Hl. apply andb_true_intro. split; bool_iff; lia.
Qed.

(** ** Sequences read back *)

(** The flag under which the next element of a sequence is read. *)
Definition element_opaque (fields : list string) (remaining : Z) : bool :=
  match vget fields (saturating_sub (vlen fields) remaining) with
  | Some name => is_client_index name
  | None => false
  end.

(** [fields] names the elements [ss] that are left, [nm] being their flags, or
    is empty for arrays and tuples. *)
Definition aligned {A} (fields : list string) (nm : A -> bool) (ss : list A) : Prop :=
  fields = [] /\ (forall s, nm s = false) \/
  exists (g : A -> string) done, fields = done ++ (g <$> ss) /\ forall s, nm s = is_client_index (g s).

Lemma aligned_cons {A} fields (nm : A -> bool) s ss :
  aligned fields nm (s :: ss) ->
  element_opaque fields (vlen (s :: ss)) = nm s /\ aligned fields nm ss.
Proof.
  intros [[-> Hnm]|(g & done & -> & Hnm)].
  - split; [|by left]. unfold element_opaque. rewrite vget_None by (unfold vlen; cbn [length]; lia). by rewrite Hnm.
  - split.
    + unfold element_opaque, saturating_sub.
      rewrite vlen_app. unfold vlen at 2. rewrite length_fmap. fold (vlen (s :: ss)).
      pose proof (vlen_nonneg done). rewrite vget_app_r by lia.
      replace (Z.max 0 _ - vlen done) with 0 by lia. by rewrite Hnm.
    + right. exists g, (done ++ [g s]). by rewrite <- app_assoc.
Qed.

Lemma next_element_decodes {A} (seed : M Deserializer A) op bs a d :
  decodes op seed bs a -> d_remaining d <> 0 ->
  element_opaque (d_fields d) (d_remaining d) = op ->
  (d_fields d = [] -> bs <> []) -> at_bytes d bs ->
  next_element_seed seed d =
    (skip (set_sequence (d_remaining d - 1) (d_fields d) d) (vlen bs), Ok (Some a)).
Proof.
  intros Hd Hr Hop Hne Hat. unfold next_element_seed. rewrite (proj2 (Z.eqb_neq _ _)) by done. cbv zeta.
  fold (element_opaque (d_fields d) (d_remaining d)). rewrite Hop.
  rewrite (Hd (set_d_opaque op (set_sequence (d_remaining d - 1) (d_fields d) d)) eq_refl Hat).
  cbn [skip set_offset set_d_opaque set_sequence d_offset input d_remaining d_fields d_opaque].
  assert ((match d_fields d with [] => true | _ => false end) &&
    (d_offset d + vlen bs =? d_offset d) = false) as ->; [|done].
  destruct (d_fields d); [|done]. cbn [andb]. apply Z.eqb_neq.
  destruct bs; [by destruct (Hne eq_refl)|]. unfold vlen. cbn [length]. lia.
Qed.

Lemma visit_tuple_decodes {A B} (f : A -> M Deserializer B) (nm : A -> bool) fields ss bss vs :
  Forall3 (fun s bs v => decodes (nm s) (f s) bs v /\ (fields = [] -> bs <> [])) ss bss vs ->
  forall index d, aligned fields nm ss -> d_fields d = fields -> d_remaining d = vlen ss ->
  at_bytes d (concat bss) ->
  visit_tuple f index ss d = (skip (set_sequence 0 fields d) (vlen (concat bss)), Ok vs).
Proof.
  induction 1 as [|s bs v ss bss vs [Hs Hne] _ IH]; intros index d Hal Hf Hr Hat.
  - cbn. change (vlen (@nil Z)) with 0. rewrite skip_0. destruct d; cbn in *. by subst.
  - cbn [visit_tuple concat] in *. destruct (aligned_cons _ _ _ _ Hal) as [Hop Hal'].
    unfold mbind, m_bind.
    rewrite (next_element_decodes _ (nm s) bs v d Hs); rewrite ?Hf, ?Hr; try done.
    2: { by apply at_bytes_l in Hat. }
    rewrite (IH (index + 1)); [..|done|done| |].
    + unfold mret, m_ret. rewrite vlen_app, <- skip_skip. done.
    + cbn. unfold vlen. cbn [length]. lia.
    + by apply at_bytes_r in Hat.
Qed.

Lemma concat_len {A B} (P : A -> list Z -> B -> Prop) ss bss vs :
  Forall3 (fun s bs v => P s bs v /\ bs <> []) ss bss vs -> vlen ss <= vlen (concat bss).
Proof.
  induction 1 as [|s bs v ss bss vs [_ Hb] _ IH]; [done|]. cbn [concat]. rewrite vlen_app.
  destruct bs; [done|]. unfold vlen in *. cbn [length]. lia.
Qed.

Lemma decodes_sequence {A B} op (f : A -> M Deserializer B) (nm : A -> bool) fields ss bss vs :
  Forall3 (fun s bs v => decodes (nm s) (f s) bs v /\ (fields = [] -> bs <> [])) ss bss vs ->
  aligned fields nm ss ->
  decodes op (sequence (vlen ss) fields (visit_tuple f 0 ss)) (concat bss) vs.
Proof.
  intros H3 Hal d Hop Hat. unfold sequence.
  rewrite (visit_tuple_decodes f nm fields ss bss vs H3 0 (set_sequence (vlen ss) fields d) Hal) by done.
  cbn. assert (forall x, set_sequence (d_remaining d) (d_fields d) (skip (set_sequence x fields
    (set_sequence (vlen ss) fields d)) (vlen (concat bss))) = skip d (vlen (concat bss))) as Hset
    by (by destruct d).
  destruct fields as [|f0 fields]; [|by rewrite Hset].
  destruct (at_bytes_room d _ Hat) as (H0 & H1 & _). pose proof (vlen_nonneg (concat bss)).
  unfold remaining_bytes. rewrite (proj2 (Z.ltb_ge _ _)) by lia.
  rewrite (proj2 (Z.ltb_ge _ _)), Hset; [done|].
  assert (vlen ss <= vlen (concat bss)); [|lia].
  eapply (concat_len (fun s bs v => decodes (nm s) (f s) bs v)). eapply Forall3_impl; [done|]. naive_solver.
Qed.

Lemma visit_array_tuple n index s :
  visit_array n index (de s) = visit_tuple de index (replicate n s).
Proof.
  revert index. induction n as [|n IH]; intros index; [done|].
  cbn [visit_array visit_tuple replicate]. by rewrite IH.
Qed.

Definition reads_back (v : value) : Prop := forall op s, fits op v s = true ->
  exists bs, wire op v = inr bs /\ decodes op (de s) bs v.

Lemma elements_fit vs ss :
  Forall reads_back vs -> all2 (fun v x => takes_bytes v && fits false v x) vs ss = true ->
  exists bss, concat_wire (wire false) vs = inr (concat bss) /\
    Forall3 (fun s bs v => decodes false (de s) bs v /\ (@nil string = [] -> bs <> [])) ss bss vs.
Proof.
  intros HF. revert ss. induction HF as [|v vs Hv _ IH]; intros [|s ss]; cbn [all2]; try done.
  { intros _. exists []. split; [done|constructor]. }
  intros [[Ht Hs]%andb_prop H]%andb_prop. destruct (Hv _ _ Hs) as (bs & Hw & Hd).
  destruct (IH _ H) as (bss & Hc & H3). exists (bs :: bss). cbn [concat_wire concat].
  rewrite Hw, Hc. split; [done|]. constructor; [|done]. split; [done|]. intros _ ->.
  unfold takes_bytes in Ht. by rewrite Hw in Ht.
Qed.

Lemma fields_fit fs gs :
  Forall (fun f => reads_back f.2) fs ->
  all2 (fun '(name, v) '(name', x) => String.eqb name name' && fits (is_client_index name) v x) fs gs = true ->
  exists bss, concat_wire (fun '(name, x) => wire (is_client_index name) x) fs = inr (concat bss) /\
    Forall3 (fun g bs f => decodes (is_client_index g.1)
      ((fun '(name, x) => v ← de x; mret (name, v)) g) bs f /\ (gs.*1 = [] -> bs <> [])) gs bss fs.
Proof.
  intros HF Hall.
  assert (exists bss, concat_wire (fun '(name, x) => wire (is_client_index name) x) fs = inr (concat bss) /\
    Forall3 (fun g bs f => decodes (is_client_index g.1)
      ((fun '(name, x) => v ← de x; mret (name, v)) g) bs f) gs bss fs) as (bss & Hw & H3).
  { revert gs Hall. induction HF as [|[n v] fs Hv _ IH]; intros [|[n' s] gs]; cbn [all2]; try done.
    { intros _. exists []. split; [done|constructor]. }
    intros [[<-%String.eqb_eq Hs]%andb_prop H]%andb_prop. destruct (Hv _ _ Hs) as (bs & Hw & Hd).
    destruct (IH _ H) as (bss & Hc & H3). exists (bs :: bss). cbn [concat_wire concat].
    cbn in Hw. rewrite Hw, Hc. split; [done|]. constructor; [|done].
    apply (decodes_fmap _ _ (pair n)), Hd. }
  exists bss. split; [done|]. destruct gs as [|g gs]; [inversion H3; constructor|].
  eapply Forall3_impl; [exact H3|]. intros. by split.
Qed.

Lemma all2_replicate vs n x f : length vs = n -> all2 f vs (replicate n x) = forallb (fun v : value => f v (x : shape)) vs.
Proof. intros <-. induction vs as [|v vs IH]; [done|]. cbn. by rewrite IH. Qed.

Lemma decodes_elements op ss bss vs :
  Forall3 (fun s bs v => decodes false (de s) bs v /\ (@nil string = [] -> bs <> [])) ss bss vs ->
  decodes op (sequence (vlen ss) [] (visit_tuple de 0 ss)) (concat bss) vs.
Proof. intros H3. apply (decodes_sequence op de (fun _ => false) [] ss bss vs H3). by left. Qed.

Lemma elements_read_back op vs ss :
  Forall reads_back vs ->
  negb op && all2 (fun v x => takes_bytes v && fits false v x) vs ss = true ->
  exists bs, concat_wire (wire op) vs = inr bs /\
    decodes op (sequence (vlen ss) [] (visit_tuple de 0 ss)) bs vs.
Proof.
  intros HF [Hop%negb_true_iff Ha]%andb_prop. subst op.
  destruct (elements_fit vs ss HF Ha) as (bss & Hw & H3). exists (concat bss).
  split; [done|]. by apply decodes_elements.
Qed.

Lemma array_read_back op vs n x :
  Forall reads_back vs ->
  negb op && Nat.eqb (length vs) n && forallb (fun v => takes_bytes v && fits false v x) vs = true ->
  exists bs, concat_wire (wire op) vs = inr bs /\
    decodes op (sequence (Z.of_nat n) [] (visit_array n 0 (de x))) bs vs.
Proof.
  intros HF [[Hop Hn%Nat.eqb_eq]%andb_prop Ha]%andb_prop.
  rewrite visit_array_tuple, <- (vlen_replicate n x). apply elements_read_back; [done|].
  by rewrite Hop, (all2_replicate vs n x (fun v x => takes_bytes v && fits false v x)).
Qed.

Lemma bytes_read_back op bs :
  vlen bs <= u32_max ->
  exists w, (if u32_max <? vlen bs then inl LengthNotU32 else inr (to_be_bytes U32 (vlen bs) ++ bs)) = inr w /\
    decodes op deserialize_bytes w bs.
Proof.
  intros Hl. rewrite (proj2 (Z.ltb_ge _ _)) by lia. eexists. split; [done|]. by apply decodes_bytes.
Qed.

Lemma str_read_back op bs :
  byte_list bs && utf8_valid bs && (vlen bs <=? u32_max) = true ->
  exists w, (if u32_max <? vlen bs then inl LengthNotU32 else inr (to_be_bytes U32 (vlen bs) ++ bs)) = inr w /\
    decodes op deserialize_str w bs.
Proof.
  intros [[_ Hu]%andb_prop Hl%Z.leb_le]%andb_prop. destruct (bytes_read_back op bs Hl) as (w & Hw & Hd).
  exists w. split; [done|]. unfold deserialize_str. rewrite <- (app_nil_r w).
  eapply decodes_bind; [exact Hd|]. rewrite Hu. apply decodes_ret.
Qed.

Lemma fits_reads_back v : reads_back v.
Proof.
  induction v using value_ind'; intros op s Hf; destruct s; cbn [fits] in Hf; try done;
    try (destruct len; done); cbn [wire de].
  - apply andb_prop in Hf as [->%bool_decide_eq_true Hr]. eexists. split; [done|].
    by apply decodes_fmap, decodes_integer.
  - eexists. split; [done|]. apply decodes_fmap. intros d Hop Hat. unfold deserialize_bool, mbind, m_bind.
    change 1 with (vlen [if b then 1 else 0]) at 1. rewrite (decodes_read op _ d Hop Hat). by destruct b.
  - eexists. split; [done|]. apply decodes_fmap. rewrite <- (app_nil_r (to_ne_bytes U64 z)).
    unfold deserialize_f64. eapply decodes_bind.
    + replace 8 with (vlen (to_ne_bytes U64 z)) by apply to_ne_bytes_len. apply decodes_read.
    + rewrite ne_bytes_roundtrip by done. apply decodes_ret.
  - apply andb_prop in Hf as [_ Hl%Z.leb_le]. destruct (bytes_read_back op bs Hl) as (w & -> & Hd).
    exists w. split; [done|]. by apply decodes_fmap.
  - apply andb_prop in Hf as [_ Hl%Z.leb_le]. destruct (bytes_read_back op bs Hl) as (w & -> & Hd).
    exists w. split; [done|]. by apply decodes_fmap.
  - destruct (str_read_back op bs Hf) as (w & -> & Hd). exists w. split; [done|]. by apply decodes_fmap.
  - destruct (str_read_back op bs Hf) as (w & -> & Hd). exists w. split; [done|]. by apply decodes_fmap.
  - destruct len as [len|]; [|done]. apply andb_prop in Hf as [[[Hop ->%Z.eqb_eq]%andb_prop Hn]%andb_prop Ha].
    destruct (array_read_back op vs n s H) as (w & -> & Hd); [by rewrite Hop, Hn, Ha|].
    exists w. split; [done|]. by apply (decodes_fmap _ _ (VSeq (Some (Z.of_nat n)))).
  - destruct (elements_read_back op vs ss H Hf) as (w & -> & Hd). exists w. split; [done|]. by apply decodes_fmap.
  - destruct (array_read_back op vs n s H Hf) as (w & -> & Hd). exists w. split; [done|]. by apply decodes_fmap.
  - destruct (elements_read_back op vs ss H Hf) as (w & -> & Hd). exists w. split; [done|]. by apply decodes_fmap.
  - destruct (fields_fit fs fs0 H Hf) as (bss & -> & H3). exists (concat bss). split; [done|].
    apply decodes_fmap, (decodes_sequence op _ (fun g => is_client_index g.1) fs0.*1 fs0 bss fs H3).
    right. by exists fst, [].
  - destruct (IHv op s Hf) as (w & -> & Hd). exists w. split; [done|]. by apply decodes_fmap.
  - exists []. split; [done|]. apply decodes_ret.
  - exists []. split; [done|]. apply decodes_ret.
Qed.

(** ** Arbitrary input *)

Lemma shape_ind' (P : shape -> Prop) :
  (forall k, P (SInt k)) -> P SBool -> P SF64 -> P SBytes -> P SByteBuf -> P SStr -> P SString ->
  (forall ss, Forall P ss -> P (STuple ss)) -> (forall ss, Forall P ss -> P (STupleStruct ss)) ->
  (forall n s, P s -> P (SArray n s)) -> (forall n s, P s -> P (SVec n s)) ->
  (forall fs, Forall (fun f => P f.2) fs -> P (SStruct fs)) ->
  (forall s, P s -> P (SNewtypeStruct s)) -> P SUnit -> P SUnitStruct ->
  (forall u, P (SUnsupported u)) -> forall s, P s.
Proof.
  intros H1 H2 H3 H4 H5 H6 H7 H8 H9 H10 H11 H12 H13 H14 H15 H16.
  fix IH 1. intros [ | | | | | | |ss|ss|n s|n s|fs|s| | | ].
  1-7: clear IH; auto. 3-4: first [apply H10|apply H11]; apply IH. 4-7: first [apply H13, IH|clear IH; auto].
  - apply H8. induction ss; constructor; auto.
  - apply H9. induction ss; constructor; auto.
  - apply H12. induction fs as [|[n x] fs IHf]; constructor; [apply IH|exact IHf].
Qed.

Definition d_ok (d : Deserializer) : Prop :=
  0 <= d_offset d <= vlen (input d) /\ 0 <= d_remaining d /\ bytes_ok (input d).

(** [m] does not panic, keeps the input and moves forward inside it. *)
Definition forward {A} (m : M Deserializer A) (d : Deserializer) (d' : Deserializer) (r : outcome A) : Prop :=
  m d = (d', r) /\ r <> Panic /\ input d' = input d /\ d_offset d <= d_offset d' <= vlen (input d) /\
  d_fields d' = d_fields d /\ d_opaque d' = d_opaque d.

Definition safe {A} (m : M Deserializer A) : Prop :=
  forall d, d_ok d -> exists d' r, forward m d d' r /\ d_remaining d' = d_remaining d.

(** A visitor may take elements; those of an array take a byte each. *)
Definition visits {A} (m : M Deserializer A) : Prop :=
  forall d, d_ok d -> exists d' r, forward m d d' r /\ 0 <= d_remaining d' <= d_remaining d /\
    (d_fields d = [] -> forall a, r = Ok a ->
      d_remaining d - d_remaining d' <= d_offset d' - d_offset d).

Ltac fwd := cbn; split_and!; try done; cbn in *; try congruence; try lia.

Lemma forward_ok {A} (m : M Deserializer A) d d' r :
  d_ok d -> forward m d d' r -> 0 <= d_remaining d' -> d_ok d'.
Proof. intros (H0 & H1 & Hby) (_ & _ & Hi & Ho & _) Hr. unfold d_ok. rewrite Hi. split_and!; lia || done. Qed.

Lemma safe_ret {A} (a : A) : safe (mret a).
Proof. intros d (H0 & H1 & Hby). exists d, (Ok a). repeat split; try done; lia. Qed.

Lemma safe_fail {A} e : safe (fail e : M Deserializer A).
Proof. intros d (H0 & H1 & Hby). exists d, (Err e). repeat split; try done; lia. Qed.

Lemma safe_gets {A} (f : Deserializer -> outcome A) : (forall d, f d <> Panic) -> safe (gets f).
Proof. intros Hf d (H0 & H1 & Hby). exists d, (f d). repeat split; try done; lia. Qed.

Lemma safe_bind {A B} (m : M Deserializer A) (k : A -> M Deserializer B) :
  safe m -> (forall d d' a, d_ok d -> m d = (d', Ok a) -> safe (k a)) -> safe (m ≫= k).
Proof.
  intros Hm Hk d Hd. destruct (Hm d Hd) as (d1 & r & Hf & Hr). pose proof Hf as (E & Hp & Hi & Ho & Hfs & Hop).
  unfold mbind, m_bind. unfold forward. rewrite E. destruct r as [a|e|]; [|by eexists _, _; fwd|done].
  destruct (Hk d d1 a Hd E d1) as (d2 & r2 & (E2 & Hp2 & Hi2 & Ho2 & Hfs2 & Hop2) & Hr2).
  { eapply forward_ok; [done..|]. rewrite Hr. apply Hd. }
  exists d2, r2. rewrite Hi in *. split_and!; try done; try congruence; lia.
Qed.

Lemma safe_fmap {A B} (m : M Deserializer A) (f : A -> B) : safe m -> safe (x ← m; mret (f x)).
Proof. intros Hm. apply safe_bind; [done|]. intros. apply safe_ret. Qed.

Lemma safe_read n : 0 <= n -> safe (read n).
Proof.
  intros Hn d (H0 & H1 & Hby). unfold forward, read, checked_add.
  destruct (_ <? _) eqn:E1; [|by eexists _, _; split_and!; try done; lia].
  destruct (Z.leb_spec (d_offset d + n) (vlen (input d))).
  - rewrite vslice_Some by lia. by eexists _, _; split_and!; try done; cbn; lia.
  - by eexists _, _; split_and!; try done; lia.
Qed.

Lemma read_bytes n d d' bs : read n d = (d', Ok bs) -> bytes_ok (input d) -> 0 <= n -> bytes_ok bs /\ vlen bs = n.
Proof.
  unfold read, checked_add. intros H Hb Hn. case_if_in H; [|done]. case_if_in H; [|done].
  destruct (vslice _ _ _) as [l|] eqn:Hs; simplify_eq. split; [|apply vslice_len in Hs; lia].
  unfold vslice in Hs. case_if_in Hs; simplify_eq. by apply Forall_take, Forall_drop.
Qed.

Lemma safe_bytes : safe deserialize_bytes.
Proof.
  unfold deserialize_bytes. apply safe_bind; [by apply safe_read|]. intros d d' bs (_ & _ & Hby) Hr.
  destruct (read_bytes 4 d d' bs Hr Hby) as [Hb _]; [lia|]. apply safe_read.
  unfold from_be_bytes, of_word. cbn [signed]. by apply be_combine_bound.
Qed.

Lemma safe_str : safe deserialize_str.
Proof.
  unfold deserialize_str. apply safe_bind; [apply safe_bytes|]. intros d d' bs _ _.
  destruct (utf8_valid bs); [apply safe_ret|apply safe_fail].
Qed.

Lemma safe_bool : safe deserialize_bool.
Proof.
  unfold deserialize_bool. apply safe_bind; [by apply safe_read|]. intros d d' bs (_ & _ & Hby) Hr.
  destruct (read_bytes 1 d d' bs Hr Hby) as [_ Hl]; [lia|]. apply safe_gets. intros _.
  by destruct (vget_in_range bs 0) as [b ->]; [lia|].
Qed.

Lemma visits_ret {A} (a : A) : visits (mret a).
Proof.
  intros d (H0 & H1 & Hby). exists d, (Ok a). repeat split; try done; lia.
Qed.

Lemma visits_next {A B} (seed : M Deserializer A) (k : A -> M Deserializer B) e :
  safe seed -> (forall a, visits (k a)) ->
  visits (o ← next_element_seed seed; match o with None => fail e | Some a => k a end).
Proof.
  intros Hs Hk d Hd. unfold mbind, m_bind, forward, next_element_seed.
  destruct (Z.eqb_spec (d_remaining d) 0) as [E|E]; cbv zeta.
  { exists d, (Err e). destruct Hd as (? & ? & ?). by repeat split; try done; lia. }
  fold (element_opaque (d_fields d) (d_remaining d)). set (op := element_opaque _ _).
  set (d0 := set_d_opaque op (set_sequence (d_remaining d - 1) (d_fields d) d)).
  assert (d_ok d0) as Hd0 by (destruct Hd as (? & ? & ?); subst d0; unfold d_ok; cbn; split_and!; lia || done).
  destruct (Hs d0 Hd0) as (d1 & r & Hf & Hr). pose proof Hf as (E1 & Hp & Hi & Ho & Hfs & Hop).
  subst d0. cbn in Hr, Hi, Ho, Hfs. rewrite E1. destruct r as [a|e1|]; [|by eexists _, _; destruct Hd as (? & ? & ?); fwd|done].
  destruct (_ && _)%bool eqn:Ez.
  { by eexists _, _; destruct Hd as (? & ? & ?); fwd. }
  destruct (Hk a (set_d_opaque (d_opaque d) d1)) as (d2 & r2 & (E2 & Hp2 & Hi2 & Ho2 & Hfs2 & Hop2) & Hr2 & Hn2).
  { destruct Hd as (? & ? & ?). unfold d_ok. cbn. rewrite Hi, Hr. split_and!; lia || done. }
  exists d2, r2. cbn in *. rewrite Hi, Hfs, Hr in *. split; [split_and!; try done; lia|]. split; [lia|].
  intros Hnil b Hb. specialize (Hn2 Hnil b Hb). rewrite Hnil in Ez. cbn in Ez. apply Z.eqb_neq in Ez. lia.
Qed.

Lemma visits_fmap {A B} (m : M Deserializer A) (f : A -> B) : visits m -> visits (x ← m; mret (f x)).
Proof.
  intros Hm d Hd. destruct (Hm d Hd) as (d1 & r & (E & Hp & Hrest) & Hr & Hn).
  unfold mbind, m_bind, forward. rewrite E. destruct r as [a|e|]; [|by eexists _, _|done].
  exists d1, (Ok (f a)). split; [by split|]. split; [done|]. intros Hnil _ _. by apply (Hn Hnil a).
Qed.

Lemma visits_tuple {A B} (f : A -> M Deserializer B) ss index :
  Forall (fun s => safe (f s)) ss -> visits (visit_tuple f index ss).
Proof.
  intros HF. revert index. induction HF as [|s ss Hs _ IH]; intros index; cbn [visit_tuple].
  - apply visits_ret.
  - apply visits_next; [done|]. intros a. by apply visits_fmap.
Qed.

Lemma safe_sequence {A} n fields (m : M Deserializer A) :
  0 <= n -> visits m -> forall d, d_ok d -> exists d' r,
    forward (sequence n fields m) d d' r /\ d_remaining d' = d_remaining d /\
    (fields = [] -> forall a, r = Ok a -> n <= d_offset d' - d_offset d).
Proof.
  intros Hn Hm d Hd. destruct (Hm (set_sequence n fields d)) as (d1 & r & (E & Hp & Hi & Ho & Hfs & Hop) & Hr & Hb).
  { destruct Hd as (? & ? & ?). unfold d_ok. cbn. split_and!; lia || done. }
  cbn in Hi, Ho, Hfs, Hop, Hr, Hb.
  assert (exists d' r', end_sequence d d1 r = (d', r') /\ (r' <> Panic /\ input d' = input d /\ d_offset d <= d_offset d' <= vlen (input d) /\
      d_fields d' = d_fields d /\ d_opaque d' = d_opaque d) /\ d_remaining d' = d_remaining d /\
      (fields = [] -> forall a, r' = Ok a -> n <= d_offset d' - d_offset d)) as (d' & r' & Hv & Hfw & Hrem & Hcnt).
  { unfold end_sequence. destruct r as [a|e|]; [destruct (Z.eqb_spec (d_remaining d1) 0) as [E0|]| |done];
      eexists _, _; (split; [done|]; split; [by fwd|]; split; [done|]; intros Hnil b Hbb; simplify_eq).
    specialize (Hb Hnil _ eq_refl). cbn. lia. }
  unfold forward, sequence. rewrite E. rewrite Hv.
  destruct fields as [|f0 fields]; [|by exists d', r'].
  destruct Hd as (Hd0 & Hd1 & Hd2). unfold remaining_bytes. rewrite (proj2 (Z.ltb_ge _ _)) by lia.
  destruct (_ <? n); [|by exists d', r']. by eexists _, _; fwd.
Qed.

Lemma sequence_safe {A} n fields (m : M Deserializer A) : 0 <= n -> visits m -> safe (sequence n fields m).
Proof.
  intros Hn Hm d Hd. destruct (safe_sequence n fields m Hn Hm d Hd) as (d' & r & Hf & Hr & _). eauto.
Qed.

Lemma safe_integer k : safe (deserialize_integer k).
Proof. unfold deserialize_integer. apply safe_bind; [apply safe_read; lia|]. intros. by apply safe_gets. Qed.

Lemma de_safe s : safe (de s).
Proof.
  induction s using shape_ind'; cbn [de].
  - apply safe_fmap, safe_integer.
  - apply safe_fmap, safe_bool.
  - apply safe_fmap. unfold deserialize_f64. by apply safe_fmap, safe_read.
  - apply safe_fmap, safe_bytes.
  - apply safe_fmap, safe_bytes.
  - apply safe_fmap, safe_str.
  - apply safe_fmap, safe_str.
  - apply safe_fmap, sequence_safe; [apply vlen_nonneg|by apply visits_tuple].
  - apply safe_fmap, sequence_safe; [apply vlen_nonneg|by apply visits_tuple].
  - apply safe_fmap, sequence_safe; [lia|]. rewrite visit_array_tuple.
    by apply visits_tuple, Forall_replicate.
  - apply (safe_fmap _ (VSeq (Some (Z.of_nat n)))), sequence_safe; [lia|]. rewrite visit_array_tuple.
    by apply visits_tuple, Forall_replicate.
  - apply safe_fmap, sequence_safe; [apply vlen_nonneg|]. apply visits_tuple.
    eapply Forall_impl; [done|]. intros [name x] Hx. by apply (safe_fmap _ (pair name)).
  - by apply safe_fmap.
  - apply safe_ret.
  - apply safe_ret.
  - apply safe_fail.
Qed.

End Codec.

(** ** Theorems *)

Lemma ser_new le v o :
  match wire le false v with
  | inr bs =>
    if room (mk_ser o 0 false) (vlen bs)
    then ser le v (mk_ser o 0 false) = (advance (mk_ser o 0 false) bs, Ok tt)
    else exists s' e, ser le v (mk_ser o 0 false) = (s', Err e) /\
      (e = OutputTooShort \/ 2 ^ 64 <= vlen bs /\ e = EncodedLengthOverflow)
  | inl _ => exists s' e, ser le v (mk_ser o 0 false) = (s', Err e)
  end.
Proof.
  assert (s_ok (mk_ser o 0 false)) as Hs.
  { split; [cbn; lia|]. destruct o as [o|]; [|done]. apply vlen_nonneg. }
  pose proof (ser_serializes le v _ Hs) as H. cbn [s_opaque s_offset] in H. rewrite ?Z.add_0_l in H.
  destruct (wire le false v) as [e0|bs]; [|done]. destruct H as (s' & e & H & _). eauto.
Qed.

(** C27: measuring and writing agree.  When [serialized_len] reports a length,
    [serialize] writes exactly the reference encoding, of that length, at the
    start of every output that has room for it and leaves the rest alone; an
    output without the room is refused as too short.  A value that cannot be
    measured cannot be written either, and neither call panics. *)
Theorem api_serialize_correct le v o :
  (exists bs, wire le false v = inr bs /\ serialized_len le v = Ok (vlen bs) /\
    if vlen bs <=? vlen o
    then (exists s, serialize le v o = (s, Ok (vlen bs)) /\
            output s = Some (Some <$> (bs ++ drop (length bs) o)))
    else (exists s, serialize le v o = (s, Err OutputTooShort))) \/
  (exists e s e', serialized_len le v = Err e /\ serialize le v o = (s, Err e')).
Proof.
  unfold serialized_len, serialize, serialize_uninit, finish.
  pose proof (ser_new le v None) as Hm. pose proof (ser_new le v (Some (Some <$> o))) as Hw.
  destruct (wire le false v) as [e0|bs].
  { destruct Hm as (s1 & e1 & ->), Hw as (s2 & e2 & ->). right. by eexists _, _, _. }
  unfold room in *. cbn [output s_offset] in *. rewrite Z.add_0_l, andb_true_r in *.
  destruct (Z.ltb_spec (vlen bs) (2 ^ 64)) as [Hb|Hb]; cbn [andb] in *.
  - rewrite Hm. left. exists bs. split; [done|]. split; [done|].
    assert (vlen (Some <$> o) = vlen o) as Hl by (unfold vlen; by rewrite length_fmap).
    rewrite Hl in Hw. destruct (vlen bs <=? vlen o).
    + rewrite Hw. eexists. split; [done|]. cbn [output advance fmap option_fmap option_map s_offset]. f_equal.
      unfold copy_at. rewrite fmap_app, fmap_drop, Z.add_0_l. unfold vlen. by rewrite Nat2Z.id.
    + destruct Hw as (s & e & -> & [->|[? _]]); [eauto|lia].
  - destruct Hm as (s1 & e1 & -> & _), Hw as (s2 & e2 & -> & _). right. by eexists _, _, _.
Qed.

(** decoding undoes encoding.  A value that a shape describes has an
    encoding, and decoding any message that starts with it gives the value back
    and consumes exactly the encoding, whatever the host's byte order. *)
Theorem api_codec_roundtrip le v s post :
  fits le false v s = true ->
  exists bs, wire le false v = inr bs /\
    (vlen (bs ++ post) < 2 ^ 64 ->
     deserialize le s (bs ++ post) = Ok v /\ d_offset (de le s (de_new (bs ++ post))).1 = vlen bs).
Proof.
  intros Hf. destruct (fits_reads_back le v false s Hf) as (bs & Hw & Hd). exists bs. split; [done|].
  intros Hl. unfold deserialize. rewrite (Hd (de_new (bs ++ post))); [done..|].
  split; [done|]. by exists [], post.
Qed.

Definition sample_shape : shape :=
  SStruct [("client_index"%string, SInt U32); ("retval"%string, SInt I32);
           ("name"%string, SString); ("addr"%string, SArray 4 (SInt U8))].
Definition sample_value : value :=
  VStruct [("client_index"%string, VInt U32 7); ("retval"%string, VInt I32 (-1));
           ("name"%string, VStr [102; 195; 169]); ("addr"%string, VTuple (VInt U8 <$> [10; 0; 0; 1]))].

Lemma api_codec_roundtrip_witness :
  fits true false sample_value sample_shape = true /\
  wire true false sample_value =
    inr [7; 0; 0; 0; 255; 255; 255; 255; 0; 0; 0; 3; 102; 195; 169; 10; 0; 0; 1] /\
  deserialize true sample_shape
    ([7; 0; 0; 0; 255; 255; 255; 255; 0; 0; 0; 3; 102; 195; 169; 10; 0; 0; 1] ++ [9]) = Ok sample_value.
Proof.
  split; [vm_compute; reflexivity|].
  destruct (api_codec_roundtrip true sample_value sample_shape [9] ltac:(vm_compute; reflexivity)) as (bs & Hw & H).
  assert (bs = [7; 0; 0; 0; 255; 255; 255; 255; 0; 0; 0; 3; 102; 195; 169; 10; 0; 0; 1]) as ->.
  { vm_compute in Hw. congruence. }
  split; [exact Hw|]. apply H. vm_compute. reflexivity.
Defined.

(** C28: decoding is safe on every input.  Whatever the bytes and the shape are,
    the deserializer neither panics nor leaves the input, and a vector whose
    element count comes from the message is returned only if the message has
    at least that many bytes. *)
Theorem api_decode_total le s inp :
  bytes_ok inp ->
  exists d r, de le s (de_new inp) = (d, r) /\ r <> Panic /\ 0 <= d_offset d <= vlen inp /\
    (forall n x v, s = SVec n x -> r = Ok v -> Z.of_nat n <= d_offset d).
Proof.
  intros Hb. assert (d_ok (de_new inp)) as Hd by (pose proof (vlen_nonneg inp); by split_and!).
  destruct (de_safe le s _ Hd) as (d & r & (E & Hp & Hi & Ho & _) & _). exists d, r.
  split_and!; [done..|cbn in *; lia|cbn in *; lia|]. intros n x v -> ->. cbn [de] in E.
  destruct (safe_sequence (Z.of_nat n) [] (visit_array n 0 (de le x)) ltac:(lia)
    ltac:(rewrite visit_array_tuple; apply visits_tuple, Forall_replicate, de_safe) _ Hd)
    as (d1 & r1 & (E1 & _) & _ & Hn).
  unfold mbind, m_bind in E. rewrite E1 in E. destruct r1 as [vs|e|]; [|done..].
  specialize (Hn eq_refl vs eq_refl). unfold mret, m_ret in E. injection E as <- _. cbn in Hn. lia.
Qed.

Lemma api_decode_total_witness :
  bytes_ok [0; 0; 0; 2] /\
  exists d r, de true (SVec 40 (SInt U8)) (de_new [0; 0; 0; 2]) = (d, r) /\ r <> Panic /\
    0 <= d_offset d <= 4.
Proof.
  assert (bytes_ok [0; 0; 0; 2]) as Hb by (repeat constructor; vm_compute; discriminate).
  split; [exact Hb|].
  destruct (api_decode_total true (SVec 40 (SInt U8)) [0; 0; 0; 2] Hb) as (d & r & E & Hp & Ho & _).
  exists d, r. split; [exact E|]. split; [exact Hp|exact Ho].
Defined.

(** the two directions disagree about the [opaque] flag of array elements.
    In a [client_index] field that holds a tuple the serializer writes the
    elements in the host's order while the deserializer reads them in network
    order: on a little-endian host 1 is read back as 2^24.  And an array of
    values without bytes is encoded but cannot be decoded. *)
Theorem api_opaque_tuple_diverges :
  let v := VStruct [("client_index"%string, VTuple [VInt U32 1])] in
  let s := SStruct [("client_index"%string, STuple [SInt U32])] in
  wire true false v = inr [1; 0; 0; 0] /\
  deserialize true s [1; 0; 0; 0] = Ok (VStruct [("client_index"%string, VTuple [VInt U32 (2 ^ 24)])]) /\
  serialized_len true (VTuple [VUnit]) = Ok 0 /\
  deserialize true (STuple [SUnit]) [] = Err TruncatedArray /\
  deserialize true (STuple [SUnit]) [0] = Err ElementWithoutBytes.
Proof. vm_compute. split_and!; reflexivity. Qed.

End IpcCodec.
