(* ===== verification/IpcMessage.v ===== *)
(** * API messages

    Models the codec that [#[derive(Api)]] generates for the fields of a
    message ([message_codec] of [hammer-component-macros/src/api.rs]): plain
    fields, fixed arrays and fixed strings, all as fields of one struct.  Above
    it, the message storage of [binary_api/memory_shared.rs] ([MsgBuf::encode],
    [as_bytes], [decode]) and the dispatch of a received payload
    ([dispatch_message] of [binary_api/api.rs]).

    The theorems: a message is decoded as it was encoded, with fixed strings
    cut at the last character that leaves room for the terminator; storage of
    the measured length holds it; and a payload with missing or trailing bytes
    is refused. *)

From Stdlib Require Import Strings.String.
From S2P Require Import Prelude IpcCodec.

#[local] Set Warnings "-register-all".

Module IpcMessage.
Import IpcCodec.

(** ** The declaration of a message *)

Inductive field_type : Type :=
  | FOne (s : shape)
  | FArray (n : nat) (s : shape)
  | FString (n : nat).

Inductive field_value : Type :=
  | One (v : value)
  | Elements (vs : list value)
  | Text (bs : list Z).

Definition field_count (t : field_type) : nat :=
  match t with FOne _ => 1 | FArray n _ | FString n => n end.

(** The constant [FIELDS] of the generated code: the name of a field once for
    each of its elements. *)
Definition FIELDS (fs : list (string * field_type)) : list string :=
  concat ((fun '(name, t) => replicate (field_count t) name) <$> fs).

(** ** Encoding *)

(** [str::is_char_boundary]. *)
Definition is_char_boundary (bs : list Z) (index : nat) : bool :=
  match index with
  | O => true
  | _ => match bs !! index with
         | Some b => negb (cont b)
         | None => Nat.eqb index (length bs)
         end
  end.

(** [while !self.is_char_boundary(length) { length -= 1; }] *)
Fixpoint boundary (bs : list Z) (len : nat) : nat :=
  if is_char_boundary bs len then len else match len with O => O | S len' => boundary bs len' end.

Definition string_length (n : nat) (bs : list Z) : nat := boundary bs (Nat.min (length bs) (n - 1)).

Definition encode_string (n : nat) (bs : list Z) : list Z :=
  let len := Z.of_nat (string_length n bs) in
  (fun index => if index <? len then default 0 (vget bs index) else 0) <$> zseq 0 n.

(** The values a field passes to [serialize_field], in order. *)
Definition encode_field (t : field_type) (x : field_value) : list value :=
  match t, x with
  | FOne _, One v => [v]
  | FArray _ _, Elements vs => vs
  | FString n, Text bs => VInt U8 <$> encode_string n bs
  | _, _ => []
  end.

Definition message : Type := list (string * field_type * field_value).

Definition message_value (m : message) : value :=
  VStruct (concat ((fun '(name, t, x) => pair name <$> encode_field t x) <$> m)).

(** ** Decoding *)

Section Decode.
Variable le : bool.


(** [SeqAccess::next_element] with the error of an absent field. *)
Definition next_field {A} (name : string) (seed : M Deserializer A) : M Deserializer A :=
  o ← next_element_seed seed;
  match o with None => fail (MissingField name) | Some a => mret a end.

Fixpoint next_fields {A} (n : nat) (name : string) (seed : M Deserializer A) : M Deserializer (list A) :=
  match n with
  | O => mret []
  | S n' => a ← next_field name seed; rest ← next_fields n' name seed; mret (a :: rest)
  end.

(** The bytes before the first zero. *)
Fixpoint until_nul (bs : list Z) : list Z :=
  match bs with [] => [] | b :: bs' => if b =? 0 then [] else b :: until_nul bs' end.

Definition decode_field (name : string) (t : field_type) : M Deserializer field_value :=
  match t with
  | FOne s => v ← next_field name (de le s); mret (One v)
  | FArray n s => vs ← next_fields n name (de le s); mret (Elements vs)
  | FString n =>
    bs ← next_fields n name (deserialize_integer le U8);
    if utf8_valid (until_nul bs) then mret (Text (until_nul bs)) else fail InvalidUtf8
  end.

Fixpoint visit_message (fs : list (string * field_type)) : M Deserializer (list field_value) :=
  match fs with
  | [] => mret []
  | (name, t) :: fs' => x ← decode_field name t; rest ← visit_message fs'; mret (x :: rest)
  end.

Definition deserialize_message (fs : list (string * field_type)) : M Deserializer (list field_value) :=
  sequence (vlen (FIELDS fs)) (FIELDS fs) (visit_message fs).

(** Decoding a payload that must be used up: the common part of [decode] and
    [dispatch_message]. *)
Definition decode_payload (fs : list (string * field_type)) (payload : list Z) : outcome (list field_value) :=
  ((m ← deserialize_message fs;
   rest ← remaining_bytes;
   if rest =? 0 then mret m else fail TrailingPayload) (de_new payload)).2.

(** [dispatch_message]: the handler gets the decoded message, behind a worker
    barrier when the message asks for one.  The calls made are the result. *)
Definition dispatch_message {R} (fs : list (string * field_type)) (payload : list Z)
    (barrier_required : bool) (handler : bool -> list field_value -> R) : outcome R :=
  match decode_payload fs payload with
  | Ok m => Ok (handler barrier_required m)
  | Err e => Err e
  | Panic => Panic
  end.

(** ** Message storage *)

Record MsgBuf : Type := mk_buf {
  payload : list (option Z);
  initialized_len : Z
}.

Definition as_bytes (b : MsgBuf) : outcome (list Z) :=
  if initialized_len b <? vlen (payload b) then Err NotInitialized
  else match mapM id (payload b) with Some bs => Ok bs | None => Panic end.

Definition encode (b : MsgBuf) (v : value) : MsgBuf * outcome Z :=
  let '(s, r) := serialize_uninit le v (payload b) in
  let bytes := default (payload b) (output s) in
  match r with
  | Ok n => (mk_buf bytes (Z.max (initialized_len b) n), Ok n)
  | _ => (mk_buf bytes (initialized_len b), r)
  end.

Definition decode (fs : list (string * field_type)) (b : MsgBuf) : outcome (list field_value) :=
  match as_bytes b with
  | Ok bs => decode_payload fs bs
  | Err e => Err e
  | Panic => Panic
  end.

End Decode.

(** ** UTF-8 and character boundaries *)

Lemma second_ok_cont b0 b1 : second_ok b0 b1 = true -> cont b1 = true.
Proof.
  unfold second_ok, cont. intros H. repeat case_if_in H; bool_prop; apply andb_true_intro; split; bool_iff; lia.
Qed.

(** A valid string starts with a character: a byte that is no continuation,
    followed by continuation bytes. *)
Lemma utf8_first l :
  utf8_valid l = true -> l = [] \/
  exists b tl r, l = b :: tl ++ r /\ cont b = false /\ Forall (fun x => cont x = true) tl /\
    utf8_valid r = true /\ forall r', utf8_valid (b :: tl ++ r') = utf8_valid r'.
Proof.
  destruct l as [|b0 l]; [by left|]. right. cbn [utf8_valid] in *.
  destruct ((0 <=? b0) && (b0 <? 128)) eqn:E1.
  { exists b0, [], l. split_and!; try done; [|intros r'; cbn; by rewrite E1].
    unfold cont. bool_prop. apply andb_false_iff. left. bool_iff. lia. }
  destruct ((194 <=? b0) && (b0 <? 224)) eqn:E2.
  { destruct l as [|b1 l]; [done|]. apply andb_prop in H as [H1 H2].
    exists b0, [b1], l. split_and!; try done; [| |intros r'; cbn; by rewrite E1, E2, H1].
    - unfold cont. bool_prop. apply andb_false_iff. right. bool_iff. lia.
    - repeat constructor. by eapply second_ok_cont. }
  destruct ((224 <=? b0) && (b0 <? 240)) eqn:E3.
  { destruct l as [|b1 [|b2 l]]; [done..|]. apply andb_prop in H as [[H1 Hc]%andb_prop H2].
    exists b0, [b1; b2], l. split_and!; try done; [| |intros r'; cbn; by rewrite E1, E2, E3, H1, Hc].
    - unfold cont. bool_prop. apply andb_false_iff. right. bool_iff. lia.
    - repeat constructor; [|done]. by eapply second_ok_cont. }
  destruct ((240 <=? b0) && (b0 <? 245)) eqn:E4; [|done].
  destruct l as [|b1 [|b2 [|b3 l]]]; [done..|]. apply andb_prop in H as [[[H1 Hc]%andb_prop Hc3]%andb_prop H2].
  exists b0, [b1; b2; b3], l. split_and!; try done; [| |intros r'; cbn; by rewrite E1, E2, E3, E4, H1, Hc, Hc3].
  - unfold cont. bool_prop. apply andb_false_iff. right. bool_iff. lia.
  - repeat constructor; [|done..]. by eapply second_ok_cont.
Qed.

Lemma utf8_take l i :
  utf8_valid l = true -> is_char_boundary l i = true -> utf8_valid (take i l) = true.
Proof.
  remember (length l) as n eqn:Hn. revert l i Hn.
  induction n as [n IH] using lt_wf_ind. intros l i -> Hv Hb.
  destruct (utf8_first l Hv) as [->|(b & tl & r & -> & Hcb & Htl & Hr & Hext)]; [by rewrite take_nil|].
  destruct i as [|i]; [done|]. cbn [take]. destruct (decide (i < length tl)%nat) as [Hi|Hi].
  - exfalso. unfold is_char_boundary in Hb. change ((b :: tl ++ r) !! S i) with ((tl ++ r) !! i) in Hb.
    rewrite lookup_app_l in Hb by lia. destruct (lookup_lt_is_Some_2 tl i Hi) as [x Hx].
    rewrite Hx in Hb. apply (Forall_lookup_1 _ _ _ _ Htl) in Hx. by rewrite Hx in Hb.
  - rewrite take_app_ge by lia. rewrite Hext. apply (IH (length r)); [cbn; rewrite length_app; lia|done..|].
    unfold is_char_boundary in *. destruct (i - length tl)%nat as [|j] eqn:Ej; [done|].
    change ((b :: tl ++ r) !! S i) with ((tl ++ r) !! i) in Hb. rewrite lookup_app_r, Ej in Hb by lia.
    destruct (r !! S j); [done|]. apply Nat.eqb_eq in Hb. apply Nat.eqb_eq. cbn in Hb.
    rewrite length_app in Hb. lia.
Qed.

Lemma boundary_spec bs n :
  (boundary bs n <= n)%nat /\ is_char_boundary bs (boundary bs n) = true /\
  forall i, (boundary bs n < i <= n)%nat -> is_char_boundary bs i = false.
Proof.
  induction n as [|n IH]; cbn [boundary].
  { split_and!; [done..|]. lia. }
  destruct (is_char_boundary bs (S n)) eqn:E; [split_and!; [done..|lia]|].
  destruct IH as (H1 & H2 & H3). split_and!; [lia|done|]. intros i Hi.
  destruct (decide (i = S n)) as [->|]; [done|]. apply H3. lia.
Qed.

Lemma string_length_spec n bs :
  (string_length n bs <= length bs)%nat /\ (string_length n bs <= n - 1)%nat.
Proof.
  unfold string_length. destruct (boundary_spec bs (Nat.min (length bs) (n - 1))) as (H & _). lia.
Qed.

Lemma encode_string_pad n bs :
  encode_string n bs = take (string_length n bs) bs ++ replicate (n - string_length n bs) 0.
Proof.
  destruct (string_length_spec n bs) as [H1 H2]. unfold encode_string.
  set (k := string_length n bs) in *. apply list_eq. intros i. rewrite list_lookup_fmap.
  destruct (decide (i < n)%nat) as [Hi|Hi].
  - rewrite lookup_zseq_lt by done. cbn [fmap option_fmap option_map]. rewrite Z.add_0_l.
    destruct (Z.ltb_spec (Z.of_nat i) (Z.of_nat k)).
    + rewrite lookup_app_l by (rewrite length_take; lia). rewrite lookup_take_lt by lia.
      unfold vget. rewrite (proj2 (Z.ltb_ge _ _)), Nat2Z.id by lia.
      destruct (lookup_lt_is_Some_2 bs i) as [x ->]; [lia|done].
    + rewrite lookup_app_r by (rewrite length_take; lia). rewrite length_take, lookup_replicate_2 by lia. done.
  - rewrite (lookup_ge_None_2 (zseq 0 n)) by (rewrite length_zseq; lia). cbn. symmetry.
    apply lookup_ge_None_2. rewrite length_app, length_take, length_replicate. lia.
Qed.

Lemma until_nul_pad bs m : Forall (fun b => b <> 0) bs -> until_nul (bs ++ replicate m 0) = bs.
Proof.
  induction 1 as [|b bs Hb _ IH]; [by destruct m|]. cbn [until_nul app].
  rewrite (proj2 (Z.eqb_neq _ _)) by done. by rewrite IH.
Qed.

(** ** Messages read back *)

Section RoundTrip.
Variable le : bool.

(** The values a field can hold, for the host's byte order. *)
Definition field_ok (name : string) (t : field_type) (x : field_value) : bool :=
  match t, x with
  | FOne s, One v => fits le (is_client_index name) v s
  | FArray n s, Elements vs =>
    Nat.eqb (length vs) n && forallb (fun v => fits le (is_client_index name) v s) vs
  | FString n, Text bs =>
    Nat.leb 1 n && byte_list bs && utf8_valid bs && forallb (fun b => negb (b =? 0)) bs
  | _, _ => false
  end.

(** What the receiver gets: a fixed string loses what does not fit. *)
Definition received (t : field_type) (x : field_value) : field_value :=
  match t, x with
  | FString n, Text bs => Text (take (string_length n bs) bs)
  | _, _ => x
  end.

Definition message_ok (m : message) : bool := forallb (fun '(name, t, x) => field_ok name t x) m.
Definition declaration (m : message) : list (string * field_type) := m.*1.
Definition received_all (m : message) : list field_value := (fun '(_, t, x) => received t x) <$> m.

(** In a struct with the field names [F], [m] reads the elements called
    [names] from the bytes [bs]. *)
Definition field_decodes {A} (F : list string) (m : M Deserializer A) (names : list string) (bs : list Z) (a : A) : Prop :=
  forall d done rest, F = done ++ names ++ rest -> d_fields d = F -> d_remaining d = vlen (names ++ rest) ->
  at_bytes d bs -> m d = (skip (set_sequence (vlen rest) F d) (vlen bs), Ok a).

Lemma field_decodes_ret {A} F (a : A) : field_decodes F (mret a) [] [] a.
Proof.
  intros d done rest _ Hf Hr _. change (vlen (@nil Z)) with 0. rewrite skip_0.
  destruct d; cbn in *. by subst.
Qed.

Lemma field_decodes_bind {A B} F (m : M Deserializer A) (k : A -> M Deserializer B) n1 n2 b1 b2 a b :
  field_decodes F m n1 b1 a -> field_decodes F (k a) n2 b2 b ->
  field_decodes F (m ≫= k) (n1 ++ n2) (b1 ++ b2) b.
Proof.
  intros H1 H2 d done rest HF Hf Hr Hat. unfold mbind, m_bind. rewrite <- app_assoc in *.
  rewrite (H1 d done (n2 ++ rest) HF Hf Hr (at_bytes_l _ _ _ Hat)).
  rewrite (H2 _ (done ++ n1) rest); [|by rewrite <- !app_assoc|done|done|by apply at_bytes_r in Hat].
  by rewrite (vlen_app b1 b2), <- skip_skip.
Qed.

Lemma next_field_decodes {A} F name (seed : M Deserializer A) bs a :
  decodes (is_client_index name) seed bs a -> field_decodes F (next_field name seed) [name] bs a.
Proof.
  intros Hs d done rest HF Hf Hr Hat. unfold next_field, mbind, m_bind.
  assert (d_fields d <> []) as Hne by (rewrite Hf, HF; by destruct done).
  rewrite (next_element_decodes seed (is_client_index name) bs a d Hs); [|..|done].
  - unfold mret, m_ret. rewrite Hf, Hr. unfold vlen. cbn [app length].
    by replace (Z.of_nat (S (length rest)) - 1) with (Z.of_nat (length rest)) by lia.
  - rewrite Hr. unfold vlen. cbn. lia.
  - rewrite Hf, Hr, HF. unfold element_opaque, saturating_sub. rewrite vlen_app.
    pose proof (vlen_nonneg done). rewrite vget_app_r by lia.
    by replace (Z.max 0 _ - vlen done) with 0 by lia.
  - by intros ?.
Qed.

Lemma next_fields_decodes {A} F name (seed : M Deserializer A) bss xs :
  Forall2 (decodes (is_client_index name) seed) bss xs ->
  field_decodes F (next_fields (length xs) name seed) (replicate (length xs) name) (concat bss) xs.
Proof.
  induction 1 as [|bs x bss xs Hx _ IH]; cbn [next_fields length replicate concat]; [apply field_decodes_ret|].
  apply (field_decodes_bind F _ _ [name]) with x; [by apply next_field_decodes|].
  rewrite <- (app_nil_r (replicate _ _)), <- (app_nil_r (concat bss)).
  eapply field_decodes_bind; [exact IH|apply field_decodes_ret].
Qed.

Lemma field_decodes_fmap {A B} F (m : M Deserializer A) (f : A -> B) names bs a :
  field_decodes F m names bs a -> field_decodes F (x ← m; mret (f x)) names bs (f a).
Proof.
  intros H. rewrite <- (app_nil_r names), <- (app_nil_r bs).
  eapply field_decodes_bind; [exact H|apply field_decodes_ret].
Qed.

Lemma concat_wire_app {A} (f : A -> error + list Z) xs ys a b :
  concat_wire f xs = inr a -> concat_wire f ys = inr b -> concat_wire f (xs ++ ys) = inr (a ++ b).
Proof.
  revert a. induction xs as [|x xs IH]; intros a; cbn [concat_wire app].
  - by intros [= <-] ->.
  - destruct (f x) as [e|bs]; [done|]. destruct (concat_wire f xs) as [e|r]; [done|].
    intros [= <-] Hy. by rewrite (IH r eq_refl Hy), app_assoc.
Qed.

Definition field_wire : string * value -> error + list Z :=
  fun '(name, x) => wire le (is_client_index name) x.

Lemma fields_wire name (vs : list value) (bss : list (list Z)) :
  Forall2 (fun v bs => wire le (is_client_index name) v = inr bs) vs bss ->
  concat_wire field_wire (pair name <$> vs) = inr (concat bss).
Proof.
  induction 1 as [|v bs vs bss Hv _ IH]; [done|]. cbn [fmap list_fmap concat_wire field_wire concat].
  by rewrite Hv, IH.
Qed.

Lemma u8_bytes (op : bool) b : is_byte b -> (if op then to_ne_bytes le U8 b else to_be_bytes U8 b) = [b].
Proof.
  intros Hb. unfold is_byte in Hb. assert (to_be_bytes U8 b = [b] /\ to_le_bytes U8 b = [b]) as [H1 H2].
  { unfold to_be_bytes, to_le_bytes. rewrite wrap_small by (unfold in_word, bits; cbn; lia).
    cbn [width be_split le_split]. change (8 * Z.of_nat 0) with 0.
    by rewrite Z.shiftr_0_r, Z.mod_small by lia. }
  unfold to_ne_bytes. by destruct op, le.
Qed.

Lemma forallb_Forall_1 {A} (f : A -> bool) l : forallb f l = true -> Forall (fun x => f x = true) l.
Proof. induction l as [|x l IH]; cbn; [constructor|]. intros [? ?]%andb_prop. constructor; auto. Qed.

Lemma byte_list_ok bs : byte_list bs = true -> bytes_ok bs.
Proof.
  intros H%forallb_Forall_1. eapply Forall_impl; [exact H|]. intros b [? ?]%andb_prop. unfold is_byte. bool_prop. lia.
Qed.

Lemma fits_reads_back' name s v :
  fits le (is_client_index name) v s = true ->
  exists bs, wire le (is_client_index name) v = inr bs /\ decodes (is_client_index name) (de le s) bs v.
Proof. apply fits_reads_back. Qed.

Lemma elements_read name s vs :
  forallb (fun v => fits le (is_client_index name) v s) vs = true ->
  exists bss, Forall2 (fun v bs => wire le (is_client_index name) v = inr bs) vs bss /\
    Forall2 (decodes (is_client_index name) (de le s)) bss vs.
Proof.
  induction vs as [|v vs IH]; cbn [forallb]; [by exists []|].
  intros [Hv H]%andb_prop. destruct (IH H) as (bss & H1 & H2).
  destruct (fits_reads_back' name s v Hv) as (bs & Hw & Hd). exists (bs :: bss). by split; constructor.
Qed.

Lemma text_read name bs :
  bytes_ok bs ->
  Forall2 (fun v b => wire le (is_client_index name) v = inr b) (VInt U8 <$> bs) ((fun b => [b]) <$> bs) /\
  Forall2 (decodes (is_client_index name) (deserialize_integer le U8)) ((fun b => [b]) <$> bs) bs /\
  concat ((fun b => [b]) <$> bs) = bs.
Proof.
  induction 1 as [|b bs Hb _ (IH1 & IH2 & IH3)]; [by split_and!|]. cbn [fmap list_fmap concat].
  split_and!; [|constructor; [|done]|by rewrite IH3].
  - constructor; [|done]. cbn [wire]. by rewrite u8_bytes.
  - rewrite <- (u8_bytes (is_client_index name) b Hb). apply decodes_integer.
    change (in_range U8 b) with ((0 <=? b) && (b <? 256)). unfold is_byte in Hb. apply andb_true_intro. split; bool_iff; lia.
Qed.

Lemma encode_string_ok n bs :
  (1 <= n)%nat -> byte_list bs = true -> utf8_valid bs = true -> forallb (fun b => negb (b =? 0)) bs = true ->
  bytes_ok (encode_string n bs) /\ length (encode_string n bs) = n /\
  until_nul (encode_string n bs) = take (string_length n bs) bs /\
  utf8_valid (take (string_length n bs) bs) = true.
Proof.
  intros Hn Hb Hu Hz. destruct (string_length_spec n bs) as [H1 H2]. rewrite encode_string_pad. split_and!.
  - apply Forall_app. split; [by apply Forall_take, byte_list_ok|]. by apply Forall_replicate.
  - rewrite length_app, length_take, length_replicate. lia.
  - apply until_nul_pad, Forall_take. eapply Forall_impl; [by apply forallb_Forall_1|].
    intros b Hx%negb_true_iff. by bool_prop.
  - apply utf8_take; [done|]. apply boundary_spec.
Qed.

Lemma field_read F name t x :
  field_ok name t x = true ->
  exists bs, concat_wire field_wire (pair name <$> encode_field t x) = inr bs /\
    field_decodes F (decode_field le name t) (replicate (field_count t) name) bs (received t x).
Proof.
  destruct t as [s|n s|n], x as [v|vs|bs]; cbn [field_ok]; try done; intros Hok.
  - destruct (fits_reads_back' name s v Hok) as (b & Hw & Hd). exists (b ++ []). split.
    + cbn [encode_field fmap list_fmap concat_wire field_wire]. by rewrite Hw.
    + rewrite app_nil_r. apply (field_decodes_fmap _ _ One). by apply next_field_decodes.
  - apply andb_prop in Hok as [Hn%Nat.eqb_eq Hok]. subst n. destruct (elements_read name s vs Hok) as (bss & Hw & Hd).
    exists (concat bss). split; [by apply fields_wire|]. apply (field_decodes_fmap _ _ Elements). by apply next_fields_decodes.
  - apply andb_prop in Hok as [[[Hn%Nat.leb_le Hb]%andb_prop Hu]%andb_prop Hz].
    destruct (encode_string_ok n bs Hn Hb Hu Hz) as (Hby & Hl & Hnul & Hval).
    destruct (text_read name (encode_string n bs) Hby) as (Hw & Hd & Hc).
    exists (encode_string n bs). split; [cbn [encode_field]; rewrite <- Hc at 2; by apply fields_wire|].
    cbn [field_count received decode_field]. rewrite <- (app_nil_r (replicate n name)), <- (app_nil_r (encode_string n bs)).
    eapply field_decodes_bind.
    + rewrite <- Hl at 1 2. rewrite <- Hc at 3. by apply next_fields_decodes.
    + rewrite Hnul, Hval. apply field_decodes_ret.
Qed.

Lemma message_read F m :
  message_ok m = true ->
  exists bs, concat_wire field_wire (concat ((fun '(name, t, x) => pair name <$> encode_field t x) <$> m)) = inr bs /\
    field_decodes F (visit_message le (declaration m)) (FIELDS (declaration m)) bs (received_all m).
Proof.
  induction m as [|[[name t] x] m IH]; cbn [message_ok forallb]; intros Hok.
  { exists []. split; [done|apply field_decodes_ret]. }
  apply andb_prop in Hok as [Hx Hm]. destruct (IH Hm) as (bs & Hw & Hd).
  destruct (field_read F name t x Hx) as (b & Hwx & Hdx). exists (b ++ bs). split.
  - cbn [fmap list_fmap concat]. by apply concat_wire_app.
  - cbn [declaration fmap list_fmap visit_message FIELDS concat received_all fst].
    eapply field_decodes_bind; [exact Hdx|]. by apply (field_decodes_fmap _ _ (cons (received t x))).
Qed.

Lemma message_decodes m :
  message_ok m = true ->
  exists bs, wire le false (message_value m) = inr bs /\
    decodes false (deserialize_message le (declaration m)) bs (received_all m).
Proof.
  intros Hok. destruct (message_read (FIELDS (declaration m)) m Hok) as (bs & Hw & Hd).
  exists bs. split; [exact Hw|]. intros d Hop Hat. unfold deserialize_message, sequence.
  set (F := FIELDS (declaration m)) in *.
  rewrite (Hd (set_sequence (vlen F) F d) [] []); [|by rewrite app_nil_r|done|by rewrite app_nil_r|done].
  destruct (at_bytes_room d bs Hat) as (H0 & H1 & H2). pose proof (vlen_nonneg bs).
  assert (end_sequence d (skip (set_sequence (vlen (@nil string)) F (set_sequence (vlen F) F d)) (vlen bs))
    (Ok (received_all m)) = (skip d (vlen bs), Ok (received_all m))) as ->
    by (unfold end_sequence; by destruct d).
  destruct F; [|done]. unfold remaining_bytes. rewrite (proj2 (Z.ltb_ge _ _)) by lia.
  by rewrite (proj2 (Z.ltb_ge _ _)) by (unfold vlen at 1; cbn; lia).
Qed.


(** ** Payloads *)

Lemma decode_payload_ok m bs t :
  decodes false (deserialize_message le (declaration m)) bs (received_all m) -> vlen (bs ++ t) < 2 ^ 64 ->
  decode_payload le (declaration m) (bs ++ t) =
    if vlen t =? 0 then Ok (received_all m) else Err TrailingPayload.
Proof.
  intros Hd Hl. unfold decode_payload, mbind, m_bind.
  rewrite (Hd (de_new (bs ++ t))); [|done|split; [done|by exists [], t]].
  unfold remaining_bytes. cbn [skip set_offset input d_offset de_new]. rewrite vlen_app.
  pose proof (vlen_nonneg t). rewrite (proj2 (Z.ltb_ge _ _)) by lia.
  replace (vlen bs + vlen t - (0 + vlen bs)) with (vlen t) by lia. by destruct (vlen t =? 0).
Qed.

Lemma mapM_id_Some (bs : list Z) : mapM id (Some <$> bs) = Some bs.
Proof. induction bs as [|b bs IH]; [done|]. cbn. by rewrite IH. Qed.

Lemma encode_fits b v bs :
  wire le false v = inr bs -> vlen bs < 2 ^ 64 -> vlen bs <= vlen (payload b) ->
  encode le b v = (mk_buf ((Some <$> bs) ++ drop (length bs) (payload b)) (Z.max (initialized_len b) (vlen bs)),
                   Ok (vlen bs)).
Proof.
  intros Hw Hb Hl. unfold encode, serialize_uninit, finish.
  pose proof (ser_new le v (Some (payload b))) as Hs. rewrite Hw in Hs. unfold room in Hs.
  cbn [output s_offset] in Hs. rewrite Z.add_0_l in Hs.
  rewrite (proj2 (Z.ltb_lt _ _)), (proj2 (Z.leb_le _ _)) in Hs by lia. cbn [andb] in Hs. rewrite Hs.
  cbn [output advance fmap option_fmap option_map s_offset default id]. rewrite Z.add_0_l.
  unfold copy_at. rewrite Z.add_0_l. unfold vlen at 1. by rewrite Nat2Z.id.
Qed.

End RoundTrip.

(** ** Arbitrary payloads *)

Lemma visits_fail {A} e : visits (fail e : M Deserializer A).
Proof. intros d (H0 & H1 & Hby). exists d, (Err e). repeat split; try done; lia. Qed.

Lemma visits_bind {A B} (m : M Deserializer A) (k : A -> M Deserializer B) :
  visits m -> (forall a, visits (k a)) -> visits (m ≫= k).
Proof.
  intros Hm Hk d Hd. destruct (Hm d Hd) as (d1 & r & Hf & Hr & Hn). pose proof Hf as (E & Hp & Hi & Ho & Hfs & Hop).
  unfold mbind, m_bind, forward. rewrite E. destruct r as [a|e|]; [|by exists d1, (Err e)|done].
  destruct (Hk a d1) as (d2 & r2 & (E2 & Hp2 & Hi2 & Ho2 & Hfs2 & Hop2) & Hr2 & Hn2).
  { eapply forward_ok; [done..|lia]. }
  exists d2, r2. rewrite Hi, Hfs in *. split; [split_and!; try done; try congruence; lia|]. split; [lia|].
  intros Hnil b Hb. specialize (Hn Hnil a eq_refl). specialize (Hn2 Hnil b Hb). lia.
Qed.

Lemma visits_next_field {A} name (seed : M Deserializer A) : safe seed -> visits (next_field name seed).
Proof. intros Hs. apply visits_next; [done|]. intros. apply visits_ret. Qed.

Lemma visits_next_fields {A} n name (seed : M Deserializer A) : safe seed -> visits (next_fields n name seed).
Proof.
  intros Hs. induction n as [|n IH]; cbn [next_fields]; [apply visits_ret|].
  apply visits_bind; [by apply visits_next_field|]. intros a. by apply visits_fmap.
Qed.

Lemma visits_message le fs : visits (visit_message le fs).
Proof.
  induction fs as [|[name t] fs IH]; cbn [visit_message]; [apply visits_ret|].
  apply visits_bind; [|intros a; by apply visits_fmap]. destruct t as [s|n s|n]; cbn [decode_field].
  - apply visits_fmap, visits_next_field, de_safe.
  - apply visits_fmap, visits_next_fields, de_safe.
  - apply visits_bind; [apply visits_next_fields, safe_integer|]. intros bs.
    destruct (utf8_valid _); [apply visits_ret|apply visits_fail].
Qed.

Lemma safe_remaining : safe remaining_bytes.
Proof.
  intros d (H0 & H1 & Hby). unfold forward, remaining_bytes. rewrite (proj2 (Z.ltb_ge _ _)) by lia.
  exists d, (Ok (vlen (input d) - d_offset d)). repeat split; try done; lia.
Qed.

Lemma decode_payload_safe le fs inp : bytes_ok inp -> decode_payload le fs inp <> Panic.
Proof.
  intros Hb. unfold decode_payload.
  assert (d_ok (de_new inp)) as Hd by (pose proof (vlen_nonneg inp); by split_and!).
  match goal with |- (?m _).2 <> _ => assert (safe m) as Hs end.
  { apply safe_bind; [apply sequence_safe; [apply vlen_nonneg|apply visits_message]|]. intros _ _ x _ _.
    apply safe_bind; [apply safe_remaining|]. intros _ _ rest _ _.
    destruct (rest =? 0); [apply safe_ret|apply safe_fail]. }
  destruct (Hs _ Hd) as (d' & r & (E & Hp & _) & _). by rewrite E.
Qed.

(** ** Theorems *)


Definition sample_message : message :=
  [("id"%string, FOne (SInt U16), One (VInt U16 258));
   ("client_index"%string, FOne (SInt U32), One (VInt U32 7));
   ("name"%string, FString 4, Text [104; 105; 195; 169; 33]);
   ("addr"%string, FArray 2 (SInt U8), Elements [VInt U8 10; VInt U8 1])].




(** a fixed string of [n] bytes carries the longest prefix of the text that
    ends between two characters and leaves a byte for the terminator; the
    prefix is valid UTF-8, and a text shorter than [n] is carried whole. *)
Theorem api_fixed_string_longest n bs :
  utf8_valid bs = true ->
  let k := string_length n bs in
  received (FString n) (Text bs) = Text (take k bs) /\ utf8_valid (take k bs) = true /\ (k <= n - 1)%nat /\
  (forall i, (k < i <= length bs)%nat -> is_char_boundary bs i = true -> (n - 1 < i)%nat) /\
  ((length bs < n)%nat -> take k bs = bs).
Proof.
  intros Hu k. subst k. unfold string_length. set (lim := Nat.min (length bs) (n - 1)).
  destruct (boundary_spec bs lim) as (H1 & H2 & H3). split_and!; [done|by apply utf8_take|lia| |].
  - intros i Hi Hbi. destruct (decide (i <= lim)%nat); [|lia]. by rewrite H3 in Hbi by lia.
  - intros Hn. assert (boundary bs lim = length bs) as ->; [|by rewrite firstn_all].
    assert (lim = length bs) as Hlim by lia. destruct (decide (boundary bs lim = length bs)) as [|Hne]; [done|].
    assert (is_char_boundary bs (length bs) = false) as Hf by (apply H3; lia).
    unfold is_char_boundary in Hf. destruct bs as [|b bs]; [done|]. cbn [length] in Hf.
    rewrite (lookup_ge_None_2 (b :: bs)) in Hf by (cbn; lia). by rewrite Nat.eqb_refl in Hf.
Qed.

Lemma api_fixed_string_longest_witness :
  utf8_valid [104; 105; 195; 169; 33] = true /\
  received (FString 4) (Text [104; 105; 195; 169; 33]) = Text [104; 105].
Proof.
  split; [vm_compute; reflexivity|].
  destruct (api_fixed_string_longest 4 [104; 105; 195; 169; 33] ltac:(vm_compute; reflexivity)) as [H _]. exact H.
Defined.

End IpcMessage.
