(* ===== verification/SvmOoo.v ===== *)
(** * Out-of-order segments of a byte FIFO
      ([crates/hammer-infra/src/svm/fifo.rs])

    The producer of a FIFO may write bytes ahead of the tail.  The ranges
    written so are kept in a doubly linked list, sorted by position, whose nodes
    live in an index pool; [add_ooo_segment] merges a range into it and
    [promote_contiguous_from] takes off the ranges the tail has reached.
    Positions are 32-bit counters compared by their signed difference.

    [None] is a panic of an [expect] on a missing node.  Loops take the number
    of slots of the pool as fuel: each round moves along the list or removes a
    node. *)

From S2P Require Import Prelude InfraBitmap InfraPool Ranges.

Module SvmOoo.
Import Ranges.

(** ** Positions *)

Definition f_pos_lt (a b : Z) : bool := as_signed 32 (wrap 32 (a - b)) <? 0.
Definition f_pos_leq (a b : Z) : bool := as_signed 32 (wrap 32 (a - b)) <=? 0.
Definition f_pos_gt (a b : Z) : bool := 0 <? as_signed 32 (wrap 32 (a - b)).
Definition f_pos_geq (a b : Z) : bool := 0 <=? as_signed 32 (wrap 32 (a - b)).

(** ** The list *)

Definition OOO_SEGMENT_INVALID_INDEX : Z := u32_max.

Record OooSegment : Type := ooo_segment { next : Z; prev : Z; start : Z; length_ : Z }.
Definition with_next (i : Z) (s : OooSegment) : OooSegment := ooo_segment i (prev s) (start s) (length_ s).
Definition with_prev (i : Z) (s : OooSegment) : OooSegment := ooo_segment (next s) i (start s) (length_ s).
Definition with_span (b n : Z) (s : OooSegment) : OooSegment := ooo_segment (next s) (prev s) b n.

Record ooo : Type := mk_ooo {
  ooo_segments : Pool.t OooSegment;
  ooos_list_head : Z;
  ooos_newest : Z
}.

Definition wadd32 (a b : Z) : Z := wrap 32 (a + b).
Definition wsub32 (a b : Z) : Z := wrap 32 (a - b).
Definition seg_end (s : OooSegment) : Z := wadd32 (start s) (length_ s).

(** [segments.get(i).expect(..)] and [segments.get_mut(i).expect(..)] *)
Definition seg_at (p : Pool.t OooSegment) (i : Z) : option OooSegment :=
  match Pool.get p i with Some (Some s) => Some s | _ => None end.
Definition seg_upd (p : Pool.t OooSegment) (i : Z) (f : OooSegment -> OooSegment) : option (Pool.t OooSegment) :=
  '(p, found) ← Pool.get_mut p i f; if (found : bool) then Some p else None.

Definition slots (p : Pool.t OooSegment) : nat := S (length (Pool.vector p)).

(** The last segment that starts before [b], and the one after it. *)
Fixpoint walk (n : nat) (p : Pool.t OooSegment) (b previous current : Z) : option (Z * Z) :=
  match n with
  | O => None
  | S n' =>
    if current =? OOO_SEGMENT_INVALID_INDEX then Some (previous, current) else
    s ← seg_at p current;
    if negb (f_pos_lt (start s) b) then Some (previous, current) else walk n' p b current (next s)
  end.

(** The neighbour that overlaps or touches the new range. *)
Definition find_target (p : Pool.t OooSegment) (b e previous current : Z) : option (option Z) :=
  t ← (if negb (previous =? OOO_SEGMENT_INVALID_INDEX) then
         s ← seg_at p previous;
         Some (if f_pos_leq b (seg_end s) then Some previous else None)
       else Some None);
  match t with
  | Some i => Some (Some i)
  | None =>
    g ← Pool.get p current;
    Some (match g with Some s => if f_pos_leq (start s) e then Some current else None | None => None end)
  end.

(** Widens a segment to the new range: its start and length. *)
Definition widened (s : OooSegment) (b e : Z) : Z * Z :=
  let old_end := seg_end s in
  let b' := if f_pos_lt b (start s) then b else start s in
  (b', if f_pos_gt e old_end then wsub32 e b' else wsub32 old_end b').

Definition insert_between (o : ooo) (b len previous current : Z) : option (ooo * Z) :=
  '(p, index) ← Pool.insert (ooo_segments o) (ooo_segment current previous b len);
  '(p, head) ← (if previous =? OOO_SEGMENT_INVALID_INDEX then Some (p, index)
                else p ← seg_upd p previous (with_next index); Some (p, ooos_list_head o));
  p ← (if negb (current =? OOO_SEGMENT_INVALID_INDEX) then seg_upd p current (with_prev index) else Some p);
  Some (mk_ooo p head (ooos_newest o), index).

(** Absorbs the segments the one at [index] has reached. *)
Fixpoint merge_following (n : nat) (p : Pool.t OooSegment) (index : Z) : option (Pool.t OooSegment) :=
  match n with
  | O => None
  | S n' =>
    segment ← seg_at p index;
    let nxt := next segment in
    if nxt =? OOO_SEGMENT_INVALID_INDEX then Some p else
    following ← seg_at p nxt;
    let segment_end := seg_end segment in
    if f_pos_gt (start following) segment_end then Some p else
    let following_end := seg_end following in
    let after := next following in
    p ← seg_upd p index (fun m =>
          with_next after (if f_pos_gt following_end segment_end
                           then with_span (start m) (wsub32 following_end (start m)) m else m));
    p ← (if negb (after =? OOO_SEGMENT_INVALID_INDEX) then seg_upd p after (with_prev index) else Some p);
    '(p, removed) ← Pool.remove p nxt;
    match removed with None => None | Some _ => merge_following n' p index end
  end.

Definition finish_add (o : ooo) (tail index : Z) : option (ooo * option (Z * Z)) :=
  p ← merge_following (slots (ooo_segments o)) (ooo_segments o) index;
  segment ← seg_at p index;
  Some (mk_ooo p (ooos_list_head o) index, Some (wsub32 (start segment) tail, length_ segment)).

Definition add_ooo_segment (o : ooo) (tail offset len : Z) : option (ooo * option (Z * Z)) :=
  let b := wadd32 tail offset in
  let e := wadd32 b len in
  let o := mk_ooo (ooo_segments o) (ooos_list_head o) OOO_SEGMENT_INVALID_INDEX in
  if len =? 0 then Some (o, None) else
  '(previous, current) ← walk (slots (ooo_segments o)) (ooo_segments o) b OOO_SEGMENT_INVALID_INDEX (ooos_list_head o);
  target ← find_target (ooo_segments o) b e previous current;
  match target with
  | Some index =>
    s ← seg_at (ooo_segments o) index;
    let '(b', len') := widened s b e in
    p ← seg_upd (ooo_segments o) index (with_span b' len');
    let o := mk_ooo p (ooos_list_head o) (ooos_newest o) in
    if (b' =? start s) && (len' =? wsub32 (seg_end s) (start s)) then Some (o, None)
    else finish_add o tail index
  | None =>
    '(o, index) ← insert_between o b len previous current;
    finish_add o tail index
  end.

Fixpoint promote_loop (n : nat) (o : ooo) (tail : Z) : option (ooo * Z) :=
  match n with
  | O => None
  | S n' =>
    g ← Pool.get (ooo_segments o) (ooos_list_head o);
    match g with
    | None => Some (o, tail)
    | Some segment =>
      if f_pos_gt (start segment) tail then Some (o, tail) else
      let finish := seg_end segment in
      let tail := if f_pos_gt finish tail then finish else tail in
      let old_head := ooos_list_head o in
      let head := next segment in
      p ← (if negb (head =? OOO_SEGMENT_INVALID_INDEX)
           then seg_upd (ooo_segments o) head (with_prev OOO_SEGMENT_INVALID_INDEX) else Some (ooo_segments o));
      let newest := if ooos_newest o =? old_head then OOO_SEGMENT_INVALID_INDEX else ooos_newest o in
      '(p, removed) ← Pool.remove p old_head;
      match removed with None => None | Some _ => promote_loop n' (mk_ooo p head newest) tail end
    end
  end.

Definition promote_contiguous_from (o : ooo) (base : Z) : option (ooo * Z) :=
  '(o, tail) ← promote_loop (slots (ooo_segments o)) o base;
  Some (o, wsub32 tail base).

Definition ooo_new : ooo := mk_ooo (Pool.with_capacity 4) OOO_SEGMENT_INVALID_INDEX OOO_SEGMENT_INVALID_INDEX.
Definition ooo_head (o : ooo) (tail : Z) : option (option (Z * Z)) :=
  g ← Pool.get (ooo_segments o) (ooos_list_head o);
  Some (option_map (fun s => (wsub32 (start s) tail, length_ s)) g).
Definition ooo_enqueued (o : ooo) : Z := Pool.len (ooo_segments o).

End SvmOoo.
