(* ===== verification/SvmOooProofs.v ===== *)
(** * The out-of-order list holds the ranges written ahead of the tail

    The list of [SvmOoo] is related to a list of ranges in the order of their
    positions ([ooo_ok]); ranges never overlap or touch, so the list is
    determined by the positions it covers.  Adding a range adds exactly its
    positions, and promotion takes off what is contiguous with the tail. *)

From S2P Require Import Prelude InfraBitmap InfraPool Ranges SvmOoo.

Module SvmOooProofs.
Import Ranges SvmOoo.

(** ** Positions *)

Lemma signed_distance x y : - 2 ^ 31 <= x - y < 2 ^ 31 -> as_signed 32 (wrap 32 (wr x - wr y)) = x - y.
Proof.
  intros H. unfold wr, wrap. rewrite <- Zminus_mod. unfold as_signed. change (32 - 1) with 31.
  destruct (Z.ltb_spec ((x - y) mod 2 ^ 32) (2 ^ 31)); zdm.
Qed.

Lemma win_distance B x y : win B x -> win B y -> - 2 ^ 31 <= x - y < 2 ^ 31.
Proof. unfold win. lia. Qed.

Lemma pos_lt_win x y : - 2 ^ 31 <= x - y < 2 ^ 31 -> f_pos_lt (wr x) (wr y) = (x <? y).
Proof. intros H. unfold f_pos_lt. rewrite signed_distance by done. destruct (Z.ltb_spec (x - y) 0), (Z.ltb_spec x y); lia. Qed.
Lemma pos_leq_win x y : - 2 ^ 31 <= x - y < 2 ^ 31 -> f_pos_leq (wr x) (wr y) = (x <=? y).
Proof. intros H. unfold f_pos_leq. rewrite signed_distance by done. destruct (Z.leb_spec (x - y) 0), (Z.leb_spec x y); lia. Qed.
Lemma pos_gt_win x y : - 2 ^ 31 <= x - y < 2 ^ 31 -> f_pos_gt (wr x) (wr y) = (y <? x).
Proof. intros H. unfold f_pos_gt. rewrite signed_distance by done. destruct (Z.ltb_spec 0 (x - y)), (Z.ltb_spec y x); lia. Qed.
Lemma pos_geq_win x y : - 2 ^ 31 <= x - y < 2 ^ 31 -> f_pos_geq (wr x) (wr y) = (y <=? x).
Proof. intros H. unfold f_pos_geq. rewrite signed_distance by done. destruct (Z.leb_spec 0 (x - y)), (Z.leb_spec y x); lia. Qed.

Lemma wadd_wr x n : wadd32 (wr x) n = wr (x + n).
Proof. unfold wadd32, wr, wrap. by rewrite Zplus_mod_idemp_l. Qed.
Lemma wsub_wr x y : 0 <= x - y < 2 ^ 32 -> wsub32 (wr x) (wr y) = x - y.
Proof. intros H. unfold wsub32, wr, wrap. rewrite <- Zminus_mod. by apply Z.mod_small. Qed.

(** ** The list in the pool *)

Record node : Type := mk_node { ix : Z; lo : Z; hi : Z }.
Implicit Types (l ns : list node) (b c : rng) (p : Pool.t OooSegment).

Notation "'INV'" := OOO_SEGMENT_INVALID_INDEX.

Definition first_idx ns (nxt : Z) : Z := match ns with [] => nxt | n :: _ => (ix n) end.
Definition last_idx (prv : Z) ns : Z := foldl (fun _ n => (ix n)) prv ns.
Definition seg (nxt prv : Z) (n : node) : OooSegment := ooo_segment nxt prv (wr (lo n)) (hi n - lo n).

Fixpoint linked (prv : Z) ns (nxt : Z) : list (Z * OooSegment) :=
  match ns with
  | [] => []
  | n :: ns => ((ix n), seg (first_idx ns nxt) prv n) :: linked (ix n) ns nxt
  end.

Lemma seg_linked_app prv l1 l2 nxt :
  linked prv (l1 ++ l2) nxt = linked prv l1 (first_idx l2 nxt) ++ linked (last_idx prv l1) l2 nxt.
Proof. revert prv. induction l1 as [|n l1 IH]; intros prv; cbn; [done|]. rewrite IH. do 3 f_equal. by destruct l1. Qed.

Lemma linked_idx prv ns nxt : (linked prv ns nxt).*1 = ix <$> ns.
Proof. revert prv. induction ns as [|n ns IH]; intros prv; cbn; [done|]. by rewrite IH. Qed.

Lemma last_idx_snoc prv ns n : last_idx prv (ns ++ [n]) = (ix n).
Proof. unfold last_idx. by rewrite foldl_app. Qed.

(** A pool that holds a map, may grow and has not many slots. *)
Record pool_ok p (m : gmap Z OooSegment) : Prop := {
  po_repr : Pool.represents p m;
  po_grows : Pool.max_elts p = None;
  po_slots : vlen (Pool.vector p) <= 2 ^ 31
}.

Lemma pool_ok_index p m i s : pool_ok p m -> m !! i = Some s -> 0 <= i < 2 ^ 31.
Proof.
  intros [[_ Hm] _ Hs] Hi. rewrite Hm in Hi. apply Pool.pool_slot_Some in Hi as (Hr & _). lia.
Qed.

Lemma pool_ok_get p m i : pool_ok p m -> 0 <= i -> Pool.get p i = Some (m !! i).
Proof. intros [[Hw Hm] _ _] Hi. by rewrite Pool.pool_get_slot, Hm. Qed.

Lemma pool_ok_at p m i s : pool_ok p m -> m !! i = Some s -> seg_at p i = Some s.
Proof.
  intros H Hi. pose proof (pool_ok_index p m i s H Hi). unfold seg_at. rewrite (pool_ok_get p m), Hi by (done || lia). done.
Qed.

Lemma pool_ok_upd p m i s f : pool_ok p m -> m !! i = Some s -> exists p', seg_upd p i f = Some p' /\ pool_ok p' (alter f i m).
Proof.
  intros H Hi. pose proof (pool_ok_index p m i s H Hi) as H0. destruct H as [Hr Hg Hs].
  destruct (Pool.pool_get_mut_repr p m i f Hr ltac:(lia)) as (p' & E & Hr'). destruct (Pool.get_mut_frame _ _ _ _ _ E) as (_ & E1 & E2).
  unfold seg_upd. rewrite E. cbn [mbind option_bind]. rewrite bool_decide_true by eauto. exists p'. split; [done|].
  constructor; [done|congruence|lia].
Qed.

Lemma pool_ok_remove p m i s : pool_ok p m -> m !! i = Some s -> exists p', Pool.remove p i = Some (p', Some s) /\ pool_ok p' (delete i m).
Proof.
  intros H Hi. pose proof (pool_ok_index p m i s H Hi) as H0. destruct H as [Hr Hg Hs].
  destruct (Pool.pool_remove_repr p m i Hr ltac:(lia)) as (p' & E & Hr'). destruct (Pool.remove_frame _ _ _ _ E) as (_ & E1 & E2).
  rewrite Hi in E. exists p'. split; [done|]. constructor; [done|congruence|lia].
Qed.

Lemma pool_ok_insert p m s :
  pool_ok p m -> Z.of_nat (size m) < 2 ^ 31 -> exists p' i, Pool.insert p s = Some (p', i) /\ m !! i = None /\ 0 <= i < 2 ^ 31 /\ pool_ok p' (<[i := s]> m).
Proof.
  intros [Hr Hg Hs] Hn. pose proof (Pool.pool_len_size p m Hr) as Hlen.
  destruct (Pool.pool_insert_repr p m s Hr) as (p' & i & E & Hi & Hb & Hr'); [right; split; [done|lia]|].
  destruct (Pool.insert_frame _ _ _ _ E) as (_ & E1 & E2 & E3). exists p', i. split_and!; try done; [lia..|].
  constructor; [done|congruence|lia].
Qed.

Definition list_map ns : gmap Z OooSegment := list_to_map (linked INV ns INV).

Record list_ok p (head : Z) ns : Prop := {
  lo_pool : pool_ok p (list_map ns);
  lo_head : head = first_idx ns INV;
  lo_nodup : NoDup (ix <$> ns)
}.

Lemma lo_lookup p head l1 n l2 : list_ok p head (l1 ++ n :: l2) ->
  list_map (l1 ++ n :: l2) !! (ix n) = Some (seg (first_idx l2 INV) (last_idx INV l1) n).
Proof.
  intros [_ _ Hn]. unfold list_map. rewrite seg_linked_app. cbn [linked]. apply lookup_middle. rewrite linked_idx.
  rewrite fmap_app in Hn. apply NoDup_app in Hn as (_ & Hn & _). intros Hin. by apply (Hn _ Hin), list_elem_of_here.
Qed.

Lemma lo_index p head ns n : list_ok p head ns -> n ∈ ns -> 0 <= (ix n) < 2 ^ 31.
Proof.
  intros H Hn. apply list_elem_of_split in Hn as (l1 & l2 & ->). eapply pool_ok_index; [apply H|by apply (lo_lookup p head)].
Qed.

Lemma lo_at p head l1 n l2 : list_ok p head (l1 ++ n :: l2) ->
  seg_at p (ix n) = Some (seg (first_idx l2 INV) (last_idx INV l1) n).
Proof. intros H. eapply pool_ok_at; [apply H|by apply (lo_lookup p head)]. Qed.

Lemma lo_invalid p head ns : list_ok p head ns -> Pool.get p INV = Some None.
Proof.
  intros H. rewrite (pool_ok_get p (list_map ns) _ (lo_pool _ _ _ H)) by done. destruct (list_map ns !! INV) eqn:E; [|done].
  pose proof (pool_ok_index p _ _ _ (lo_pool _ _ _ H) E). unfold OOO_SEGMENT_INVALID_INDEX, u32_max in *. lia.
Qed.

Lemma lo_not_invalid p head ns n : list_ok p head ns -> n ∈ ns -> ((ix n) =? INV) = false.
Proof. intros H Hn. pose proof (lo_index p head ns n H Hn). apply Z.eqb_neq. unfold OOO_SEGMENT_INVALID_INDEX, u32_max. lia. Qed.

Lemma lo_size p head ns : list_ok p head ns -> (length ns < slots p)%nat /\ size (list_map ns) = length ns.
Proof.
  intros H. pose proof H as [[Hr _ _] _ Hn]. assert (size (list_map ns) = length ns) as E.
  { unfold list_map. rewrite map_size_list_to_map by (by rewrite linked_idx). by rewrite <- (length_fmap fst), linked_idx, length_fmap. }
  split; [|done]. pose proof (Pool.pool_len_size p _ Hr) as Hl. rewrite E in Hl. unfold slots. unfold Pool.len, saturating_sub, vlen in Hl. lia.
Qed.

Lemma first_idx_elem ns nxt : ns <> [] -> exists n, n ∈ ns /\ first_idx ns nxt = (ix n).
Proof. destruct ns as [|n ns]; [done|]. intros _. exists n. split; [left|done]. Qed.
Lemma last_idx_elem ns prv : ns <> [] -> exists n, n ∈ ns /\ last_idx prv ns = (ix n).
Proof.
  destruct ns as [|n ns _] using rev_ind; [done|]. intros _. exists n. rewrite last_idx_snoc. split; [|done]. apply elem_of_app. right. left.
Qed.

(** ** Ordered ranges *)

Definition ordered ns : Prop := StronglySorted (fun n n' : node => (hi n) < (lo n')) ns.
Definition inside (B : Z) ns : Prop := Forall (fun n : node => B <= (lo n) < (hi n) /\ (hi n) < B + 2 ^ 31) ns.
Definition covered ns (x : Z) : Prop := covers ((fun n => (lo n, hi n)) <$> ns) x.

Lemma covered_app l1 l2 x : covered (l1 ++ l2) x <-> covered l1 x \/ covered l2 x.
Proof. unfold covered, covers. rewrite fmap_app. setoid_rewrite elem_of_app. naive_solver. Qed.
Lemma covered_cons n ns x : covered (n :: ns) x <-> (lo n) <= x < (hi n) \/ covered ns x.
Proof. unfold covered, covers. cbn. setoid_rewrite elem_of_cons. naive_solver. Qed.

Lemma ordered_app l1 l2 :
  ordered (l1 ++ l2) <-> ordered l1 /\ ordered l2 /\ (forall n n' : node, n ∈ l1 -> n' ∈ l2 -> (hi n) < (lo n')).
Proof.
  unfold ordered. induction l1 as [|n l1 IH]; cbn.
  - split; [intros; split_and!; [constructor|done|]; intros ?? []%not_elem_of_nil|naive_solver].
  - rewrite !StronglySorted_cons, IH, Forall_app, !Forall_forall. split.
    + intros [[H1 H2] (H3 & H4 & H5)]. split_and!; try done. intros a c [->|Ha]%elem_of_cons Hc; auto.
    + intros ((H1 & H2) & H3 & H4). split_and!; try done; intros; apply H4; try done; by constructor.
Qed.

Lemma inside_elem B ns n : inside B ns -> n ∈ ns -> B <= (lo n) < (hi n) /\ (hi n) < B + 2 ^ 31.
Proof. unfold inside. rewrite Forall_forall. auto. Qed.

(** Separated ranges in a window are few. *)
Lemma ordered_count B ns : inside B ns -> ordered ns -> Z.of_nat (length ns) <= 2 ^ 30.
Proof.
  intros Hi Ho. assert (forall A, A <= B + 2 ^ 31 -> (forall n : node, n ∈ ns -> A <= (lo n)) -> 2 * Z.of_nat (length ns) <= B + 2 ^ 31 - A) as H.
  { induction ns as [|n ns IH]; intros A HA Hall; [cbn; lia|]. apply StronglySorted_cons in Ho as [Hn Ho].
    apply Forall_cons in Hi as [Hn' Hi]. cbn in Hn'. pose proof (Hall n (list_elem_of_here _ _)). cbn [length].
    specialize (IH Hi Ho (A + 2) ltac:(lia)). rewrite Forall_forall in Hn.
    assert (forall c : node, c ∈ ns -> A + 2 <= (lo c)) as Hc by (intros c Hc; specialize (Hn c Hc); cbn in Hn; lia). specialize (IH Hc). lia. }
  specialize (H B ltac:(lia)). assert (forall c : node, c ∈ ns -> B <= (lo c)) as Hc; [|specialize (H Hc); lia].
  intros c Hc. destruct (inside_elem B ns c Hi Hc). lia.
Qed.

(** ** Finding the place *)

Lemma walk_spec p head B l1 l2 s n :
  list_ok p head (l1 ++ l2) -> inside B (l1 ++ l2) -> win B s -> (length l2 < n)%nat ->
  Forall (fun c : node => (lo c) < s) l1 ->
  exists k1 k2, l1 ++ l2 = k1 ++ k2 /\ walk n p (wr s) (last_idx INV l1) (first_idx l2 INV) = Some (last_idx INV k1, first_idx k2 INV) /\
    Forall (fun c : node => (lo c) < s) k1 /\ match k2 with [] => True | c :: _ => s <= (lo c) end.
Proof.
  revert l1 l2. induction n as [|n IH]; intros l1 l2 H Hi Hs Hn Hl; [lia|]. cbn [walk]. destruct l2 as [|c l2].
  - cbn [first_idx]. rewrite Z.eqb_refl. by exists l1, [].
  - cbn [first_idx]. rewrite (lo_not_invalid p head _ c H) by (apply elem_of_app; right; left).
    rewrite (lo_at p head l1 c l2 H). cbn [mbind option_bind seg start next].
    pose proof (inside_elem B _ c Hi ltac:(apply elem_of_app; right; left)) as Hc.
    rewrite pos_lt_win by (unfold win in *; lia). destruct (Z.ltb_spec (lo c) s) as [Hlt|Hge]; cbn [negb].
    + destruct (IH (l1 ++ [c]) l2) as (k1 & k2 & E & Ew & H1 & H2).
      * by rewrite <- app_assoc.
      * by rewrite <- app_assoc.
      * done.
      * cbn in Hn. lia.
      * apply Forall_app. split; [done|]. by constructor.
      * rewrite last_idx_snoc in Ew. exists k1, k2. rewrite <- E, <- app_assoc. by split_and!.
    + exists l1, (c :: l2). by split_and!.
Qed.

(** The range that takes the new one in, if any. *)
Inductive target_spec (s e : Z) l1 l2 : option Z -> Prop :=
| target_prev l1' (n : node) : l1 = l1' ++ [n] -> s <= (hi n) -> target_spec s e l1 l2 (Some (ix n))
| target_next (n : node) l2' : l2 = n :: l2' -> (forall c : node, c ∈ l1 -> (hi c) < s) -> (lo n) <= e -> target_spec s e l1 l2 (Some (ix n))
| target_none : (forall c : node, c ∈ l1 -> (hi c) < s) -> (forall c : node, c ∈ l2 -> e < (lo c)) -> target_spec s e l1 l2 None.

Lemma find_target_spec p head B l1 l2 s e :
  list_ok p head (l1 ++ l2) -> inside B (l1 ++ l2) -> ordered (l1 ++ l2) -> win B s -> win B e ->
  exists t, find_target p (wr s) (wr e) (last_idx INV l1) (first_idx l2 INV) = Some t /\ target_spec s e l1 l2 t.
Proof.
  intros H Hi Ho Hs He. unfold find_target. apply ordered_app in Ho as (Ho1 & Ho2 & Ho3).
  assert (exists t, (if negb (last_idx INV l1 =? INV) then s0 ← seg_at p (last_idx INV l1);
      Some (if f_pos_leq (wr s) (seg_end s0) then Some (last_idx INV l1) else None) else Some None) = Some t /\
      match t with
      | Some i => exists l1' n, l1 = l1' ++ [n] /\ i = (ix n) /\ s <= (hi n)
      | None => forall c : node, c ∈ l1 -> (hi c) < s
      end) as (t & -> & Ht).
  { destruct l1 as [|n l1 _] using rev_ind.
    - cbn [last_idx foldl]. rewrite Z.eqb_refl. exists None. split; [done|]. by intros c ?%not_elem_of_nil.
    - rewrite last_idx_snoc. rewrite <- app_assoc in H, Hi. cbn [app] in H, Hi.
      assert (n ∈ l1 ++ n :: l2) as Hn by (apply elem_of_app; right; left). rewrite (lo_not_invalid p head _ n H Hn). cbn [negb].
      rewrite (lo_at p head l1 n l2 H). cbn [mbind option_bind]. pose proof (inside_elem B _ n Hi Hn) as Hb.
      unfold seg_end, seg. cbn [start length_]. rewrite wadd_wr, Zplus_minus, pos_leq_win by (unfold win in *; lia).
      destruct (Z.leb_spec s (hi n)); eexists; split; try done; [by exists l1, n|].
      intros c [Hc| ->%list_elem_of_singleton]%elem_of_app; [|done]. apply ordered_app in Ho1 as (_ & _ & Ho1).
      specialize (Ho1 c n Hc (list_elem_of_here _ _)). lia. }
  cbn [mbind option_bind]. destruct t as [i|].
  { destruct Ht as (l1' & n & -> & -> & Hle). exists (Some (ix n)). split; [done|]. by eapply target_prev. }
  destruct l2 as [|n l2]; cbn [first_idx].
  - rewrite (lo_invalid p head _ H). cbn [mbind option_bind]. exists None. split; [done|]. apply target_none; [done|]. by intros c ?%not_elem_of_nil.
  - pose proof (lo_lookup p head l1 n l2 H) as Hlk. pose proof (lo_index p head _ n H ltac:(apply elem_of_app; right; left)) as Hx.
    rewrite (pool_ok_get p _ _ (lo_pool _ _ _ H)), Hlk by lia. cbn [mbind option_bind].
    pose proof (inside_elem B _ n Hi ltac:(apply elem_of_app; right; left)) as Hb.
    unfold seg. cbn [start]. rewrite pos_leq_win by (unfold win in *; lia).
    destruct (Z.leb_spec (lo n) e); eexists; split; try done; [by eapply target_next|]. apply target_none; [done|].
    intros c [->|Hc]%elem_of_cons; [done|]. apply StronglySorted_cons in Ho2 as [Ho2 _]. rewrite Forall_forall in Ho2.
    specialize (Ho2 c Hc). cbn in Ho2. lia.
Qed.

(** ** Updating the list *)

Lemma ix_app_nodup l1 n l2 : NoDup (ix <$> l1 ++ n :: l2) ->
  (ix n ∉ ix <$> l1) /\ (ix n ∉ ix <$> l2) /\ NoDup (ix <$> l1 ++ l2) /\ (forall k, k ∈ ix <$> l1 -> k ∉ ix <$> l2).
Proof.
  rewrite !fmap_app. cbn. intros (H1 & H2 & [H3 H4]%NoDup_cons)%NoDup_app. split_and!; try done.
  - intros Hin. by apply (H2 _ Hin), list_elem_of_here.
  - apply NoDup_app. split_and!; try done. intros k Hk Hk'. apply (H2 _ Hk). by right.
  - intros k Hk Hk'. apply (H2 _ Hk). by right.
Qed.

Lemma upd_range p head l1 n l2 a z :
  list_ok p head (l1 ++ n :: l2) ->
  exists p', seg_upd p (ix n) (with_span (wr a) (z - a)) = Some p' /\ list_ok p' head (l1 ++ mk_node (ix n) a z :: l2).
Proof.
  intros H. pose proof H as [Hp Hh Hn]. destruct (ix_app_nodup l1 n l2 Hn) as (N1 & N2 & N3 & N4).
  destruct (pool_ok_upd p _ _ _ (with_span (wr a) (z - a)) Hp (lo_lookup p head l1 n l2 H)) as (p' & E & H'). exists p'. split; [done|].
  constructor.
  - unfold list_map in *. rewrite seg_linked_app in *. cbn [linked] in *. rewrite alter_middle in H' by (by rewrite linked_idx). exact H'.
  - rewrite Hh. by destruct l1.
  - rewrite !fmap_app in *. exact Hn.
Qed.

(** The list after the node at [index] lost its successor. *)
Lemma seg_relink_prev (m1 : list (Z * OooSegment)) p i (i' : Z) l2 :
  pool_ok p (list_to_map (m1 ++ linked i l2 INV)) -> (forall k, k ∈ m1.*1 -> k ∉ ix <$> l2) ->
  (forall n, n ∈ l2 -> (ix n =? INV) = false) ->
  exists p', (if negb (first_idx l2 INV =? INV) then seg_upd p (first_idx l2 INV) (with_prev i') else Some p) = Some p' /\
    pool_ok p' (list_to_map (m1 ++ linked i' l2 INV)).
Proof.
  intros Hp Hn Hv. destruct l2 as [|n l2]; cbn [first_idx].
  - rewrite Z.eqb_refl. by exists p.
  - rewrite (Hv n) by left. cbn [negb linked] in *. assert (ix n ∉ m1.*1) as Hk by (intros Hin; by apply (Hn _ Hin), list_elem_of_here).
    destruct (pool_ok_upd p _ (ix n) _ (with_prev i') Hp (lookup_middle _ _ _ _ Hk)) as (p' & E & H'). exists p'. split; [done|].
    by rewrite alter_middle in H'.
Qed.

Definition absorbing (after following_end segment_end : Z) (m : OooSegment) : OooSegment :=
  with_next after (if f_pos_gt following_end segment_end
                   then with_span (start m) (wsub32 following_end (start m)) m else m).

Lemma merge_step p head B l1 n f l2 :
  list_ok p head (l1 ++ n :: f :: l2) -> inside B (l1 ++ n :: f :: l2) -> lo f <= hi n -> lo n < lo f ->
  exists p', (p ← seg_upd p (ix n) (absorbing (first_idx l2 INV) (wr (hi f)) (wr (hi n)));
    p ← (if negb (first_idx l2 INV =? INV) then seg_upd p (first_idx l2 INV) (with_prev (ix n)) else Some p);
    Pool.remove p (ix f)) = Some (p', Some (seg (first_idx l2 INV) (ix n) f)) /\
    list_ok p' head (l1 ++ mk_node (ix n) (lo n) (Z.max (hi n) (hi f)) :: l2).
Proof.
  intros H Hi Hle Hlt. pose proof H as [Hp Hh Hn]. destruct (ix_app_nodup l1 n (f :: l2) Hn) as (N1 & N2 & N3 & N4).
  destruct (ix_app_nodup l1 f l2 N3) as (N5 & N6 & N7 & N8). cbn in N2. rewrite not_elem_of_cons in N2. destruct N2 as [Nf N2].
  pose proof (inside_elem B _ n Hi ltac:(apply elem_of_app; right; left)) as Bn.
  pose proof (inside_elem B _ f Hi ltac:(apply elem_of_app; right; right; left)) as Bf.
  set (g := absorbing _ _ _). set (n' := mk_node (ix n) (lo n) (Z.max (hi n) (hi f))).
  destruct (pool_ok_upd p _ _ _ g Hp (lo_lookup p head l1 n (f :: l2) H)) as (p1 & -> & H1). cbn [mbind option_bind].
  unfold list_map in H1. rewrite seg_linked_app in H1. cbn [linked] in H1. rewrite alter_middle in H1 by (by rewrite linked_idx).
  assert (g (seg (first_idx (f :: l2) INV) (last_idx INV l1) n) = seg (first_idx l2 INV) (last_idx INV l1) n') as Eg.
  { unfold g, absorbing, seg, with_next, with_span, n'. cbn. rewrite pos_gt_win, wsub_wr by lia. destruct (Z.ltb_spec (hi n) (hi f)); cbn; repeat f_equal; lia. }
  rewrite Eg in H1. change ((ix n, seg (first_idx l2 INV) (last_idx INV l1) n') :: (ix f, seg (first_idx l2 INV) (ix n) f) :: linked (ix f) l2 INV)
    with ([(ix n, seg (first_idx l2 INV) (last_idx INV l1) n'); (ix f, seg (first_idx l2 INV) (ix n) f)] ++ linked (ix f) l2 INV) in H1.
  rewrite app_assoc in H1. destruct (seg_relink_prev _ p1 _ (ix n) l2 H1) as (p2 & -> & H2).
  { rewrite fmap_app, linked_idx. intros k [Hk|Hk]%elem_of_app; [by apply N8|]. cbn in Hk. rewrite !elem_of_cons in Hk.
    destruct Hk as [->|[->|[]%not_elem_of_nil]]; done. }
  { intros c Hc. apply (lo_not_invalid p head _ c H). apply elem_of_app. right. right. by right. }
  cbn [mbind option_bind]. cbn [linked app first_idx] in *.
  assert (ix f ∉ (linked INV l1 (ix n) ++ [(ix n, seg (first_idx l2 INV) (last_idx INV l1) n')]).*1) as Nf1.
  { rewrite fmap_app, linked_idx. intros [?|Hk]%elem_of_app; [done|]. cbn in Hk. apply list_elem_of_singleton in Hk. done. }
  rewrite <- app_assoc in H2. cbn [app] in H2. rewrite cons_middle, app_assoc in H2.
  destruct (pool_ok_remove p2 _ (ix f) _ H2 (lookup_middle _ _ _ _ Nf1)) as (p3 & -> & H3). exists p3. split; [done|].
  rewrite delete_middle in H3 by (done || by rewrite linked_idx). rewrite <- app_assoc in H3. constructor.
  - unfold list_map. rewrite seg_linked_app. exact H3.
  - rewrite Hh. by destruct l1.
  - rewrite fmap_app in *. cbn in *. apply NoDup_app in Hn as (M1 & M2 & [M3 [M4 M5]%NoDup_cons]%NoDup_cons).
    apply NoDup_app. split_and!; [done| |by constructor]. intros k Hk Hk'. apply (M2 k Hk). rewrite !elem_of_cons in *. tauto.
Qed.

Lemma seg_end_seg nxt prv n : seg_end (seg nxt prv n) = wr (hi n).
Proof. unfold seg_end, seg. cbn [start length_]. by rewrite wadd_wr, Zplus_minus. Qed.

Lemma merge_following_spec n0 p head B l1 n l2 :
  list_ok p head (l1 ++ n :: l2) -> inside B (l1 ++ n :: l2) -> ordered l2 -> Forall (fun c : node => lo n < lo c) l2 -> (length l2 < n0)%nat ->
  exists p' n' l2', merge_following n0 p (ix n) = Some p' /\ list_ok p' head (l1 ++ n' :: l2') /\ inside B (l1 ++ n' :: l2') /\
    ix n' = ix n /\ lo n' = lo n /\ hi n <= hi n' /\ ordered (n' :: l2') /\
    (forall x, covered (n' :: l2') x <-> covered (n :: l2) x).
Proof.
  revert p n l2. induction n0 as [|n0 IH]; intros p n l2 H Hi Ho Hl Hn; [lia|]. cbn [merge_following].
  rewrite (lo_at p head l1 n l2 H). cbn [mbind option_bind seg next]. destruct l2 as [|f l2].
  { cbn [first_idx]. rewrite Z.eqb_refl. exists p, n, []. split_and!; try done. repeat constructor. }
  cbn [first_idx]. rewrite (lo_not_invalid p head _ f H) by (apply elem_of_app; right; right; left).
  pose proof H as H'. rewrite cons_middle, app_assoc in H'. rewrite (lo_at p head (l1 ++ [n]) f l2 H'). cbn [mbind option_bind].
  rewrite last_idx_snoc. pose proof (inside_elem B _ n Hi ltac:(apply elem_of_app; right; left)) as Bn.
  pose proof (inside_elem B _ f Hi ltac:(apply elem_of_app; right; right; left)) as Bf.
  cbv zeta. rewrite !seg_end_seg. cbn [seg start next].
  apply StronglySorted_cons in Ho as [Hof Ho]. apply Forall_cons in Hl as [Hlf Hl].
  rewrite pos_gt_win by lia. destruct (Z.ltb_spec (hi n) (lo f)) as [Hlt|Hge].
  { exists p, n, (f :: l2). split_and!; try done. constructor; [by constructor|]. constructor; [done|].
    eapply Forall_impl; [exact Hof|]. cbn. intros c Hc. lia. }
  fold (absorbing (first_idx l2 INV) (wr (hi f)) (wr (hi n))).
  destruct (merge_step p head B l1 n f l2 H Hi Hge Hlf) as (p1 & E & H1).
  destruct (seg_upd p _ _) as [q1|]; cbn [mbind option_bind] in E |- *; [|done].
  destruct (if negb _ then _ else _) as [q2|]; cbn [mbind option_bind] in E |- *; [|done].
  rewrite E. cbn [mbind option_bind]. set (n1 := mk_node (ix n) (lo n) (Z.max (hi n) (hi f))) in *.
  apply Forall_app in Hi as [Hi1 [Hin [Hif Hi2]%Forall_cons]%Forall_cons]. cbn in Hin, Hif.
  assert (inside B (l1 ++ n1 :: l2)) as Hi' by (apply Forall_app; split; [done|]; constructor; [cbn; lia|done]).
  destruct (IH p1 n1 l2 H1 Hi' Ho Hl) as (p' & n' & l2' & E' & H2 & Hi2' & Ex & El & Eh & Ho2 & Hc2); [cbn in Hn; lia|].
  cbn [ix n1] in E'. rewrite E'. exists p', n', l2'. split_and!; try done; [cbn in Eh; lia|].
  intros x. rewrite Hc2, !covered_cons. unfold n1. cbn [lo hi]. rewrite Forall_forall in Hof.
  assert (lo n <= x < Z.max (hi n) (hi f) <-> lo n <= x < hi n \/ lo f <= x < hi f) as -> by lia. tauto.
Qed.

Lemma seg_relink_next p l1 x i (head : Z) (m2 : list (Z * OooSegment)) :
  pool_ok p (list_to_map (linked INV l1 x ++ m2)) -> NoDup (ix <$> l1) -> (forall n, n ∈ l1 -> (ix n =? INV) = false) ->
  exists p', (if last_idx INV l1 =? INV then Some (p, i) else p ← seg_upd p (last_idx INV l1) (with_next i); Some (p, head)) =
      Some (p', match l1 with [] => i | _ => head end) /\
    pool_ok p' (list_to_map (linked INV l1 i ++ m2)).
Proof.
  intros Hp Hn Hv. destruct l1 as [|n l1 _] using rev_ind.
  - cbn [last_idx foldl]. rewrite Z.eqb_refl. by exists p.
  - rewrite last_idx_snoc, (Hv n) by (apply elem_of_app; right; left). rewrite !seg_linked_app, <- !app_assoc in *. cbn [linked app first_idx] in *.
    rewrite fmap_app in Hn. apply NoDup_app in Hn as (_ & Hn & _).
    assert (ix n ∉ (linked INV l1 (ix n)).*1) as Hk by (rewrite linked_idx; intros Hin; by apply (Hn _ Hin), list_elem_of_here).
    destruct (pool_ok_upd p _ (ix n) _ (with_next i) Hp (lookup_middle _ _ _ _ Hk)) as (p' & -> & H'). cbn [mbind option_bind].
    rewrite alter_middle in H' by done. exists p'. split; [by destruct l1|done].
Qed.

Lemma insert_between_spec o l1 l2 s e :
  list_ok (ooo_segments o) (ooos_list_head o) (l1 ++ l2) -> Z.of_nat (length (l1 ++ l2)) < 2 ^ 31 ->
  exists o' i, insert_between o (wr s) (e - s) (last_idx INV l1) (first_idx l2 INV) = Some (o', i) /\
    list_ok (ooo_segments o') (ooos_list_head o') (l1 ++ mk_node i s e :: l2).
Proof.
  intros H Hc. pose proof H as [Hp Hh Hn]. destruct (lo_size _ _ _ H) as [_ Hsz]. unfold insert_between.
  set (v := ooo_segment _ _ _ _). destruct (pool_ok_insert _ _ v Hp ltac:(lia)) as (p1 & i & -> & Hi & Hb & H1). cbn [mbind option_bind].
  assert (i ∉ ix <$> l1 ++ l2) as Hnin.
  { intros Hin. unfold list_map in Hi. apply not_elem_of_list_to_map in Hi. rewrite linked_idx in Hi. done. }
  rewrite fmap_app, not_elem_of_app in Hnin. destruct Hnin as [N1 N2]. rewrite fmap_app in Hn. pose proof Hn as (M1 & M2 & M3)%NoDup_app.
  unfold list_map in H1. rewrite seg_linked_app, insert_middle in H1 by (by rewrite linked_idx).
  assert (forall n, n ∈ l1 ++ l2 -> (ix n =? INV) = false) as Hv by (intros n Hin; by eapply lo_not_invalid).
  destruct (seg_relink_next p1 l1 _ i (ooos_list_head o) _ H1 M1) as (p2 & -> & H2); [intros n Hin; apply Hv, elem_of_app; by left|].
  cbn [mbind option_bind]. rewrite cons_middle, app_assoc in H2.
  destruct (seg_relink_prev _ p2 _ i l2 H2) as (p3 & -> & H3).
  { rewrite fmap_app, linked_idx. intros k [Hk| ->%list_elem_of_singleton]%elem_of_app; [intros Hk'; by apply (M2 k)|done]. }
  { intros n Hin. apply Hv, elem_of_app. by right. }
  cbn [mbind option_bind]. eexists _, i. split; [done|]. rewrite <- app_assoc in H3. cbn [ooo_segments ooos_list_head]. constructor.
  - unfold list_map. rewrite seg_linked_app. exact H3.
  - rewrite Hh. by destruct l1.
  - rewrite fmap_app. cbn. apply NoDup_app. split_and!; try done; [|by constructor]. intros k Hk. rewrite not_elem_of_cons. split; [by intros ->|by apply M2].
Qed.

(** ** Adding a range *)

Record ooo_ok (B : Z) (o : ooo) ns : Prop := {
  oo_list : list_ok (ooo_segments o) (ooos_list_head o) ns;
  oo_inside : inside B ns;
  oo_ordered : ordered ns
}.

Lemma finish_add_spec T o l1 n l2 :
  list_ok (ooo_segments o) (ooos_list_head o) (l1 ++ n :: l2) -> inside T (l1 ++ n :: l2) -> ordered l1 -> ordered l2 ->
  (forall c : node, c ∈ l1 -> hi c < lo n) -> Forall (fun c : node => lo n < lo c) l2 ->
  exists o' ns' n', finish_add o (wr T) (ix n) = Some (o', Some (lo n' - T, hi n' - lo n')) /\ ooo_ok T o' ns' /\ n' ∈ ns' /\
    lo n' = lo n /\ hi n <= hi n' /\ (forall x, covered ns' x <-> covered (l1 ++ n :: l2) x).
Proof.
  intros H Hi Ho1 Ho2 Hl1 Hl2. unfold finish_add. destruct (lo_size _ _ _ H) as [Hsz _]. rewrite length_app in Hsz. cbn in Hsz.
  destruct (merge_following_spec (slots (ooo_segments o)) _ _ T l1 n l2 H Hi Ho2 Hl2) as (p & n' & l2' & -> & H' & Hi' & Ex & El & Eh & Ho & Hc); [lia|].
  cbn [mbind option_bind]. rewrite <- Ex, (lo_at p _ l1 n' l2' H'). cbn [mbind option_bind seg start length_].
  pose proof (inside_elem T _ n' Hi' ltac:(apply elem_of_app; right; left)) as Bn. rewrite wsub_wr by lia.
  eexists _, (l1 ++ n' :: l2'), n'. split; [done|]. split_and!; try done; [|apply elem_of_app; right; left|].
  - constructor; [done|done|]. apply ordered_app. split_and!; try done. intros c d Hc1 [->|Hd]%elem_of_cons; [rewrite El; by apply Hl1|].
    apply StronglySorted_cons in Ho as [Ho _]. rewrite Forall_forall in Ho. specialize (Ho d Hd). specialize (Hl1 c Hc1). cbn in Ho. lia.
  - intros x. rewrite !covered_app, Hc. done.
Qed.

Lemma widened_spec T n nxt prv s e :
  T <= lo n < hi n /\ hi n < T + 2 ^ 31 -> win T s -> win T e ->
  widened (seg nxt prv n) (wr s) (wr e) = (wr (Z.min s (lo n)), Z.max e (hi n) - Z.min s (lo n)).
Proof.
  intros Hn Hs He. unfold widened, win in *. rewrite seg_end_seg. cbn [seg start]. rewrite pos_lt_win, pos_gt_win by lia.
  assert ((if s <? lo n then wr s else wr (lo n)) = wr (Z.min s (lo n))) as -> by (destruct (Z.ltb_spec s (lo n)); f_equal; lia).
  destruct (Z.ltb_spec (hi n) e); rewrite wsub_wr by lia; do 2 f_equal; lia.
Qed.

(** The change to a range that takes the new one in. *)
Lemma extend_spec T o l1 n l2 s e :
  ooo_ok T o (l1 ++ n :: l2) -> T < s < e -> e < T + 2 ^ 31 -> s <= hi n -> lo n <= e -> (forall c : node, c ∈ l1 -> hi c < s) ->
  exists o' r ns', (s0 ← seg_at (ooo_segments o) (ix n);
      let '(b', len') := widened s0 (wr s) (wr e) in
      p ← seg_upd (ooo_segments o) (ix n) (with_span b' len');
      let o := mk_ooo p (ooos_list_head o) (ooos_newest o) in
      if (b' =? start s0) && (len' =? wsub32 (seg_end s0) (start s0)) then Some (o, None) else finish_add o (wr T) (ix n)) = Some (o', r) /\
    ooo_ok T o' ns' /\ (forall x, covered ns' x <-> covered (l1 ++ n :: l2) x \/ s <= x < e) /\
    match r with
    | None => lo n <= s /\ e <= hi n
    | Some (st, len) => exists n', n' ∈ ns' /\ st = lo n' - T /\ len = hi n' - lo n' /\ lo n' <= s /\ e <= hi n'
    end.
Proof.
  intros [H Hi Ho] Hs He Hsn Hne Hl1. rewrite (lo_at _ _ l1 n l2 H). cbn [mbind option_bind].
  pose proof (inside_elem T _ n Hi ltac:(apply elem_of_app; right; left)) as Bn.
  rewrite (widened_spec T) by (unfold win; lia). rewrite seg_end_seg. cbn [seg start]. rewrite wsub_wr by lia.
  set (a := Z.min s (lo n)). set (z := Z.max e (hi n)).
  destruct (upd_range _ _ l1 n l2 a z H) as (p & -> & H'). cbn [mbind option_bind]. set (n1 := mk_node (ix n) a z) in *.
  apply ordered_app in Ho as (Ho1 & [Hn2 Ho2]%StronglySorted_cons & Ho3). apply Forall_app in Hi as [Hi1 [_ Hi2]%Forall_cons].
  assert (inside T (l1 ++ n1 :: l2)) as Hi' by (apply Forall_app; split; [done|]; constructor; [cbn; lia|done]).
  assert (forall x, covered (l1 ++ n1 :: l2) x <-> covered (l1 ++ n :: l2) x \/ s <= x < e) as Hcov.
  { intros x. rewrite !covered_app, !covered_cons. cbn [n1 lo hi]. assert (a <= x < z <-> lo n <= x < hi n \/ s <= x < e) as -> by lia. tauto. }
  destruct ((wr a =? wr (lo n)) && (z - a =? hi n - lo n)) eqn:Eq.
  - apply andb_true_iff in Eq as [E1%Z.eqb_eq E2%Z.eqb_eq].
    assert (a = lo n) as Ea.
    { assert (wsub32 (wr a) (wr T) = wsub32 (wr (lo n)) (wr T)) as E by (by rewrite E1). rewrite !wsub_wr in E by lia. lia. }
    assert (n1 = n) as En by (unfold n1; destruct n; cbn in *; f_equal; lia). rewrite En in *.
    eexists _, None, (l1 ++ n :: l2). split; [done|]. split; [|split; [done|lia]]. constructor; [done|done|].
    apply ordered_app. split_and!; try done. constructor; done.
  - destruct (finish_add_spec T (mk_ooo p (ooos_list_head o) (ooos_newest o)) l1 n1 l2 H' Hi' Ho1 Ho2) as (o' & ns' & n' & E' & Hok & Hin & El & Eh & Hc).
    { intros c Hc. specialize (Hl1 c Hc). specialize (Ho3 c n Hc ltac:(left)). cbn. lia. }
    { eapply Forall_impl; [exact Hn2|]. cbn. lia. }
    cbn [ix n1] in E'. rewrite E'. exists o', (Some (lo n' - T, hi n' - lo n')), ns'. split; [done|]. split; [done|]. split.
    + intros x. by rewrite Hc.
    + exists n'. cbn in El, Eh. split_and!; try done; lia.
Qed.

(** What an addition returns: the merged range, or nothing when all its bytes
    were there already. *)
Definition added T s e ns ns' (r : option (Z * Z)) : Prop :=
  match r with
  | None => forall x, s <= x < e -> covered ns x
  | Some (st, len) => exists n', n' ∈ ns' /\ st = lo n' - T /\ len = hi n' - lo n' /\ lo n' <= s /\ e <= hi n'
  end.

Lemma insert_new_spec T o l1 l2 s e :
  ooo_ok T o (l1 ++ l2) -> T < s < e -> e < T + 2 ^ 31 ->
  (forall c : node, c ∈ l1 -> hi c < s) -> (forall c : node, c ∈ l2 -> e < lo c) ->
  exists o' r ns', ('(o, index) ← insert_between o (wr s) (e - s) (last_idx INV l1) (first_idx l2 INV); finish_add o (wr T) index) = Some (o', r) /\
    ooo_ok T o' ns' /\ (forall x, covered ns' x <-> covered (l1 ++ l2) x \/ s <= x < e) /\ added T s e (l1 ++ l2) ns' r.
Proof.
  intros [H Hi Ho] Hs He Hl1 Hl2. pose proof (ordered_count T _ Hi Ho) as Hc.
  destruct (insert_between_spec o l1 l2 s e H ltac:(lia)) as (o1 & i & -> & H1). cbn [mbind option_bind].
  apply Forall_app in Hi as [Hi1 Hi2]. apply ordered_app in Ho as (Ho1 & Ho2 & _).
  destruct (finish_add_spec T o1 l1 (mk_node i s e) l2 H1) as (o' & ns' & n' & E' & Hok & Hin & El & Eh & Hcv); try done.
  { apply Forall_app. split; [done|]. constructor; [cbn; lia|done]. }
  { apply Forall_forall. intros c Hc'. specialize (Hl2 c Hc'). cbn. lia. }
  cbn [ix] in E'. rewrite E'. exists o', (Some (lo n' - T, hi n' - lo n')), ns'. cbn in El, Eh. split_and!; try done.
  - intros x. rewrite Hcv, !covered_app, covered_cons. cbn. tauto.
  - exists n'. split_and!; try done; lia.
Qed.

Lemma add_ooo_spec T o ns s e :
  ooo_ok T o ns -> T < s < e -> e < T + 2 ^ 31 ->
  exists o' r ns', add_ooo_segment o (wr T) (s - T) (e - s) = Some (o', r) /\ ooo_ok T o' ns' /\
    (forall x, covered ns' x <-> covered ns x \/ s <= x < e) /\ added T s e ns ns' r.
Proof.
  intros H Hs He. unfold add_ooo_segment. rewrite !wadd_wr. replace (T + (s - T)) with s by lia. replace (s + (e - s)) with e by lia.
  rewrite (proj2 (Z.eqb_neq (e - s) 0)) by lia. cbv zeta. set (o1 := mk_ooo _ _ OOO_SEGMENT_INVALID_INDEX).
  assert (ooo_ok T o1 ns) as H1 by (destruct H; by constructor). clearbody o1. clear H o. pose proof H1 as [Hl Hi Ho].
  destruct (walk_spec _ _ T [] ns s (slots (ooo_segments o1)) Hl Hi ltac:(unfold win; lia)) as (l1 & l2 & E & Ew & Hb & Ha); [by eapply lo_size|done|].
  cbn [app last_idx foldl] in E, Ew. rewrite (lo_head _ _ _ Hl), Ew. cbn [mbind option_bind]. rewrite <- (lo_head _ _ _ Hl). subst ns.
  destruct (find_target_spec _ _ T l1 l2 s e Hl Hi Ho ltac:(unfold win; lia) ltac:(unfold win; lia)) as (t & -> & Ht). cbn [mbind option_bind].
  rewrite Forall_forall in Hb. apply ordered_app in Ho as (Ho1 & Ho2 & Ho3). destruct Ht as [l1' n -> Hle|n l2' -> Hlt Hle|Hlt Hgt].
  - rewrite <- app_assoc in H1. cbn [app] in H1. apply ordered_app in Ho1 as (_ & _ & Ho1).
    specialize (Hb n ltac:(apply elem_of_app; right; left)) as Hn. destruct (extend_spec T o1 l1' n l2 s e H1) as (o' & r & ns' & E & Hok & Hc & Hr); try lia.
    { intros c Hin. specialize (Ho1 c n Hin ltac:(left)). lia. }
    rewrite <- app_assoc. cbn [app]. exists o', r, ns'. split_and!; try done. destruct r as [[]|]; [done|]. intros x Hx.
    apply covered_app. right. apply covered_cons. left. lia.
  - destruct (extend_spec T o1 l1 n l2' s e H1) as (o' & r & ns' & E & Hok & Hc & Hr); try done.
    { pose proof (inside_elem T _ n Hi ltac:(apply elem_of_app; right; left)). lia. }
    exists o', r, ns'. split_and!; try done. destruct r as [[]|]; [done|]. intros x Hx. apply covered_app. right. apply covered_cons. left. lia.
  - by apply insert_new_spec.
Qed.

(** ** Taking off the ranges the tail has reached *)

Fixpoint promote ns (tail : Z) : list node * Z :=
  match ns with
  | [] => ([], tail)
  | n :: ns' => if lo n <=? tail then promote ns' (Z.max tail (hi n)) else (ns, tail)
  end.

Lemma list_ok_tail p head n ns :
  list_ok p head (n :: ns) ->
  exists p1 p', (if negb (first_idx ns INV =? INV) then seg_upd p (first_idx ns INV) (with_prev INV) else Some p) = Some p1 /\
    Pool.remove p1 (ix n) = Some (p', Some (seg (first_idx ns INV) INV n)) /\ list_ok p' (first_idx ns INV) ns.
Proof.
  intros H. pose proof H as [Hp Hh Hn]. unfold list_map in Hp. cbn [linked] in Hp. apply NoDup_cons in Hn as [Hn1 Hn2].
  destruct (seg_relink_prev [(ix n, seg (first_idx ns INV) INV n)] p (ix n) INV ns Hp) as (p1 & -> & H1).
  { intros k [->|[]%not_elem_of_nil]%elem_of_cons. done. }
  { intros c Hc. apply (lo_not_invalid _ _ _ _ H). by right. }
  destruct (pool_ok_remove p1 _ (ix n) (seg (first_idx ns INV) INV n) H1) as (p' & E & H').
  { cbn. apply lookup_insert_eq. }
  exists p1, p'. split_and!; try done. constructor; try done.
  change (list_to_map _) with (list_to_map ([] ++ (ix n, seg (first_idx ns INV) INV n) :: linked INV ns INV) : gmap Z OooSegment) in H'.
  rewrite delete_middle in H'; [done|by intros ?%not_elem_of_nil|by rewrite linked_idx].
Qed.

Lemma promote_loop_spec k o ns B tail :
  list_ok (ooo_segments o) (ooos_list_head o) ns -> inside B ns -> B <= tail < B + 2 ^ 31 -> (length ns < k)%nat ->
  exists o', promote_loop k o (wr tail) = Some (o', wr (snd (promote ns tail))) /\
    list_ok (ooo_segments o') (ooos_list_head o') (fst (promote ns tail)).
Proof.
  revert o ns tail. induction k as [|k IH]; intros o ns tail H Hi Ht Hk; [lia|]. cbn [promote_loop]. rewrite (lo_head _ _ _ H).
  destruct ns as [|n ns]; cbn [first_idx promote].
  - rewrite (lo_invalid _ _ _ H). cbn. by exists o.
  - rewrite (pool_ok_get _ _ _ (lo_pool _ _ _ H)) by (eapply lo_index; [exact H|left]).
    change (n :: ns) with ([] ++ n :: ns) at 1. rewrite (lo_lookup _ _ [] n ns H). cbn [mbind option_bind last_idx foldl]. rewrite seg_end_seg. cbn [seg start next].
    pose proof Hi as [Bn Hi']%Forall_cons. rewrite !pos_gt_win by lia.
    destruct (Z.leb_spec (lo n) tail); destruct (Z.ltb_spec tail (lo n)); try lia; [|by exists o].
    destruct (list_ok_tail _ _ n ns H) as (p1 & p' & -> & E & H'). cbn [mbind option_bind]. rewrite E. cbn [mbind option_bind].
    assert ((if tail <? hi n then wr (hi n) else wr tail) = wr (Z.max tail (hi n))) as -> by (destruct (Z.ltb_spec tail (hi n)); f_equal; lia).
    apply IH; cbn [ooo_segments ooos_list_head]; try done; [lia|cbn in Hk; lia].
Qed.

Lemma promote_spec ns tail :
  ordered ns -> (forall n, n ∈ ns -> lo n < hi n) ->
  let ns' := fst (promote ns tail) in let t' := snd (promote ns tail) in
  tail <= t' /\ (forall n, n ∈ ns' -> t' < lo n) /\ ordered ns' /\ (forall n, n ∈ ns' -> n ∈ ns) /\
  (forall x, tail <= x < t' -> covered ns x) /\ (forall x, covered ns' x <-> covered ns x /\ t' <= x) /\
  (t' = tail \/ exists n, n ∈ ns /\ t' = hi n).
Proof.
  revert tail. induction ns as [|n ns IH]; intros tail Ho Hv; cbn [promote].
  { cbn. split_and!; try done; [by intros n ?%not_elem_of_nil|intros; lia| |by left]. intros x. unfold covered. split; [|tauto]. by intros (r & ?%not_elem_of_nil & _). }
  pose proof Ho as [Ho1 Ho2]%StronglySorted_cons. rewrite Forall_forall in Ho1. pose proof (Hv n ltac:(left)) as Bn. destruct (Z.leb_spec (lo n) tail) as [Hle|Hgt].
  - destruct (IH (Z.max tail (hi n)) Ho2 ltac:(intros c Hc; apply Hv; by right)) as (A1 & A2 & A3 & A4 & A5 & A6 & A7).
    split_and!; try done; [lia|intros c Hc; right; by apply A4| | |].
    + intros x Hx. rewrite covered_cons. destruct (decide (x < hi n)); [left; lia|right; apply A5; lia].
    + intros x. rewrite A6, covered_cons. intuition lia.
    + destruct A7 as [E|(c & Hc & E)]; [|right; exists c; split; [by right|done]]. destruct (decide (hi n <= tail)); [left; lia|right; exists n; split; [left|lia]].
  - cbn [fst snd]. split_and!; try done; [| intros; lia| |by left].
    + intros c [->|Hc]%elem_of_cons; [done|]. specialize (Ho1 c Hc). cbn in Ho1. lia.
    + intros x. split; [|tauto]. intros Hx. split; [done|]. apply covered_cons in Hx as [?|(r & (c & -> & Hc)%list_elem_of_fmap & Hr)]; [lia|].
      specialize (Ho1 c Hc). cbn in Ho1, Hr. lia.
Qed.

Lemma promote_from_spec B o ns tail :
  ooo_ok B o ns -> B <= tail < B + 2 ^ 31 ->
  exists o', promote_contiguous_from o (wr tail) = Some (o', snd (promote ns tail) - tail) /\
    ooo_ok (snd (promote ns tail)) o' (fst (promote ns tail)).
Proof.
  intros [Hl Hi Ho] Ht. unfold promote_contiguous_from.
  destruct (promote_loop_spec (slots (ooo_segments o)) o ns B tail Hl Hi Ht) as (o' & -> & H'); [by eapply lo_size|].
  cbn [mbind option_bind]. destruct (promote_spec ns tail Ho) as (A1 & A2 & A3 & A4 & A5 & A6 & A7).
  { intros n Hn. pose proof (inside_elem B _ n Hi Hn). lia. }
  rewrite wsub_wr. 2:{ destruct A7 as [E|(n & Hn & E)]; rewrite E in *; [lia|]. pose proof (inside_elem B _ n Hi Hn). lia. }
  exists o'. split; [done|]. constructor; [done| |done]. apply Forall_forall. intros n Hn. specialize (A2 n Hn). pose proof (inside_elem B _ n Hi (A4 n Hn)). lia.
Qed.

Lemma ooo_new_ok B : ooo_ok B ooo_new [].
Proof.
  constructor; [|by constructor..]. constructor; [|done|constructor]. constructor; [|done|done]. apply Pool.pool_dynamic_empty_repr.
Qed.

(** ** The contract of the list *)

(** C25: Adding a byte range ahead of the tail to a well-formed list of
    out-of-order ranges never panics and leaves a well-formed list (linked both
    ways through the pool, sorted, ranges apart from each other) that covers
    exactly the bytes it covered and the new ones.  The call returns the merged
    range, which contains the new one, or nothing when every byte of it was
    covered before. *)
Theorem ooo_add_correct T o ns s e :
  ooo_ok T o ns -> T < s < e -> e < T + 2 ^ 31 ->
  exists o' r ns', add_ooo_segment o (wr T) (s - T) (e - s) = Some (o', r) /\ ooo_ok T o' ns' /\
    (forall x, covered ns' x <-> covered ns x \/ s <= x < e) /\ added T s e ns ns' r.
Proof. apply add_ooo_spec. Qed.

Lemma ooo_add_correct_witness :
  exists o' r ns', add_ooo_segment ooo_new (wr (2 ^ 32 - 5)) 3 10 = Some (o', r) /\ ooo_ok (2 ^ 32 - 5) o' ns' /\
    (forall x, covered ns' x <-> covered [] x \/ 2 ^ 32 - 2 <= x < 2 ^ 32 + 8) /\
    added (2 ^ 32 - 5) (2 ^ 32 - 2) (2 ^ 32 + 8) [] ns' r.
Proof.
  apply (ooo_add_correct (2 ^ 32 - 5) ooo_new [] (2 ^ 32 - 2) (2 ^ 32 + 8)); [apply ooo_new_ok|lia|lia].
Defined.

(** Promotion from a tail position takes the ranges off that the tail has
    reached and returns by how much the tail moves: every byte up to the new
    tail was covered, no byte at the new tail is, and the list keeps exactly
    the covered bytes past it. *)
Theorem ooo_promote_correct B o ns tail :
  ooo_ok B o ns -> B <= tail < B + 2 ^ 31 ->
  exists o' ns' t', promote_contiguous_from o (wr tail) = Some (o', t' - tail) /\ tail <= t' /\ ooo_ok t' o' ns' /\
    (forall x, tail <= x < t' -> covered ns x) /\ ~ covered ns' t' /\
    (forall x, covered ns' x <-> covered ns x /\ t' <= x).
Proof.
  intros H Ht. destruct (promote_from_spec B o ns tail H Ht) as (o' & E & H').
  destruct (promote_spec ns tail (oo_ordered _ _ _ H)) as (A1 & A2 & A3 & A4 & A5 & A6 & A7).
  { intros n Hn. pose proof (inside_elem B _ n (oo_inside _ _ _ H) Hn). lia. }
  exists o', (fst (promote ns tail)), (snd (promote ns tail)). split_and!; try done.
  intros (r & (c & -> & Hc)%list_elem_of_fmap & Hr). specialize (A2 c Hc). cbn in Hr. lia.
Qed.

Lemma ooo_promote_correct_witness :
  exists o1 r ns, add_ooo_segment ooo_new (wr 0) 3 10 = Some (o1, r) /\ covered ns 3 /\ covered ns 12 /\
    exists o' ns' t', promote_contiguous_from o1 (wr 5) = Some (o', t' - 5) /\ 5 <= t' /\ ooo_ok t' o' ns' /\
      (forall x, 5 <= x < t' -> covered ns x) /\ ~ covered ns' t' /\ (forall x, covered ns' x <-> covered ns x /\ t' <= x).
Proof.
  destruct (add_ooo_spec 0 ooo_new [] 3 13 (ooo_new_ok 0) ltac:(lia) ltac:(lia)) as (o1 & r & ns & E & H & Hc & _).
  exists o1, r, ns. split; [exact E|]. split; [apply Hc; right; lia|]. split; [apply Hc; right; lia|].
  exact (ooo_promote_correct 0 o1 ns 5 H ltac:(lia)).
Defined.

End SvmOooProofs.
