(* ===== verification/SvmMemory.v ===== *)
(** * Memory of a FIFO segment ([crates/hammer-infra/src/svm/fifo.rs] and
      [svm/fifo_segment.rs])

    A segment is a mapping shared by processes: a header with a bump allocator,
    slices with free lists, and, at offsets from the header, the shared headers
    of FIFOs and the chunks their bytes live in.  The headers and the chunk
    headers are typed records at their offsets; the data of the chunks is one
    array of bytes, so two chunks whose regions overlapped would share bytes.

    A call runs alone: [compare_exchange] succeeds on the value just loaded and
    the orderings of the atomics play no role.  [None] is a panic: a failed
    assertion, an overflow the source does not wrap, or an offset at which
    there is no chunk. *)

From S2P Require Import Prelude InfraBitmap InfraPool SvmOoo.

Module SvmMemory.
Import SvmOoo.

Definition FS_MIN_LOG2_CHUNK_SIZE : Z := 12.
Definition FS_MAX_LOG2_CHUNK_SIZE : Z := 22.
Definition FS_CHUNK_VEC_LEN : Z := FS_MAX_LOG2_CHUNK_SIZE - FS_MIN_LOG2_CHUNK_SIZE + 1.
Definition FS_CHUNK_OFFSET_MASK : Z := 0x0000ffffffffffff.
Definition FS_CHUNK_TAG_MASK : Z := 0xffff000000000000.
Definition FS_CHUNK_TAG_INCREMENT : Z := Z.shiftl 1 48.
(** [size_of::<SvmFifoChunk>()] *)
Definition CHUNK_HEADER_SIZE : Z := 24.

Inductive FifoError : Type :=
| InvalidCapacity
| CapacityOutOfRange (capacity : Z)
| SegmentExhausted
| InsufficientCapacity (requested available : Z)
| OutOfOrderDisabled
| OutOfOrderLengthOutOfRange (length : Z)
| OutOfOrderOffsetOverflow (offset length : Z)
| OutOfOrderCapacityExceeded (end_offset available : Z).

(** ** Records in the mapping *)

Record SvmFifoChunk : Type := fifo_chunk {
  c_start_byte : Z;
  c_length : Z;
  c_next : Z;
  c_enq_rb_index : Z;
  c_deq_rb_index : Z
}.
Definition set_c_start (x : Z) (c : SvmFifoChunk) : SvmFifoChunk :=
  fifo_chunk x (c_length c) (c_next c) (c_enq_rb_index c) (c_deq_rb_index c).
Definition set_c_length (x : Z) (c : SvmFifoChunk) : SvmFifoChunk :=
  fifo_chunk (c_start_byte c) x (c_next c) (c_enq_rb_index c) (c_deq_rb_index c).
Definition set_c_next (x : Z) (c : SvmFifoChunk) : SvmFifoChunk :=
  fifo_chunk (c_start_byte c) (c_length c) x (c_enq_rb_index c) (c_deq_rb_index c).

Record SvmFifoSignals : Type := fifo_signals {
  has_event_ : Z;
  want_deq_ntf : Z;
  has_deq_ntf : Z;
  n_subscribers : Z;
  subscribers_ : list Z;
  deq_thresh : Z
}.
Definition signals_new : SvmFifoSignals := fifo_signals 0 0 0 0 (replicate 7 0) 0.

Record SvmFifoShared : Type := fifo_shared {
  h_start_chunk : Z;
  h_end_chunk : Z;
  h_min_alloc : Z;
  h_size : Z;
  h_slice_index : Z;
  h_next : Z;
  h_signals : SvmFifoSignals;
  h_head_chunk : Z;
  h_head : Z;
  h_tail_chunk : Z;
  h_tail : Z
}.
Definition set_start_chunk (x : Z) (h : SvmFifoShared) : SvmFifoShared :=
  fifo_shared x (h_end_chunk h) (h_min_alloc h) (h_size h) (h_slice_index h) (h_next h) (h_signals h) (h_head_chunk h) (h_head h) (h_tail_chunk h) (h_tail h).
Definition set_end_chunk (x : Z) (h : SvmFifoShared) : SvmFifoShared :=
  fifo_shared (h_start_chunk h) x (h_min_alloc h) (h_size h) (h_slice_index h) (h_next h) (h_signals h) (h_head_chunk h) (h_head h) (h_tail_chunk h) (h_tail h).
Definition set_size_ (x : Z) (h : SvmFifoShared) : SvmFifoShared :=
  fifo_shared (h_start_chunk h) (h_end_chunk h) (h_min_alloc h) x (h_slice_index h) (h_next h) (h_signals h) (h_head_chunk h) (h_head h) (h_tail_chunk h) (h_tail h).
Definition set_slice_index_ (x : Z) (h : SvmFifoShared) : SvmFifoShared :=
  fifo_shared (h_start_chunk h) (h_end_chunk h) (h_min_alloc h) (h_size h) x (h_next h) (h_signals h) (h_head_chunk h) (h_head h) (h_tail_chunk h) (h_tail h).
Definition set_h_next (x : Z) (h : SvmFifoShared) : SvmFifoShared :=
  fifo_shared (h_start_chunk h) (h_end_chunk h) (h_min_alloc h) (h_size h) (h_slice_index h) x (h_signals h) (h_head_chunk h) (h_head h) (h_tail_chunk h) (h_tail h).
Definition set_signals (x : SvmFifoSignals) (h : SvmFifoShared) : SvmFifoShared :=
  fifo_shared (h_start_chunk h) (h_end_chunk h) (h_min_alloc h) (h_size h) (h_slice_index h) (h_next h) x (h_head_chunk h) (h_head h) (h_tail_chunk h) (h_tail h).
Definition set_head_chunk (x : Z) (h : SvmFifoShared) : SvmFifoShared :=
  fifo_shared (h_start_chunk h) (h_end_chunk h) (h_min_alloc h) (h_size h) (h_slice_index h) (h_next h) (h_signals h) x (h_head h) (h_tail_chunk h) (h_tail h).
Definition set_head (x : Z) (h : SvmFifoShared) : SvmFifoShared :=
  fifo_shared (h_start_chunk h) (h_end_chunk h) (h_min_alloc h) (h_size h) (h_slice_index h) (h_next h) (h_signals h) (h_head_chunk h) x (h_tail_chunk h) (h_tail h).
Definition set_tail_chunk (x : Z) (h : SvmFifoShared) : SvmFifoShared :=
  fifo_shared (h_start_chunk h) (h_end_chunk h) (h_min_alloc h) (h_size h) (h_slice_index h) (h_next h) (h_signals h) (h_head_chunk h) (h_head h) x (h_tail h).
Definition set_tail (x : Z) (h : SvmFifoShared) : SvmFifoShared :=
  fifo_shared (h_start_chunk h) (h_end_chunk h) (h_min_alloc h) (h_size h) (h_slice_index h) (h_next h) (h_signals h) (h_head_chunk h) (h_head h) (h_tail_chunk h) x.

Record FifoSegmentSlice : Type := segment_slice {
  free_chunks : list Z;
  free_fifos : Z;
  n_fl_chunk_bytes : Z;
  virtual_mem : Z;
  num_chunks : list Z
}.
Definition slice_new : FifoSegmentSlice :=
  segment_slice (replicate (Z.to_nat FS_CHUNK_VEC_LEN) 0) 0 0 0 (replicate (Z.to_nat FS_CHUNK_VEC_LEN) 0).

(** The segment header and the memory behind it. *)
Record segment : Type := mk_segment {
  n_cached_bytes : Z;
  n_active_fifos : Z;
  n_reserved_bytes : Z;
  max_log2_fifo_size : Z;
  pct_first_alloc : Z;
  byte_index : Z;
  max_byte_index : Z;
  start_byte_index : Z;
  slices : list FifoSegmentSlice;
  chunks : gmap Z SvmFifoChunk;
  headers : gmap Z SvmFifoShared;
  bytes : gmap Z Z
}.
Definition set_cached (x : Z) (g : segment) : segment :=
  mk_segment x (n_active_fifos g) (n_reserved_bytes g) (max_log2_fifo_size g) (pct_first_alloc g) (byte_index g) (max_byte_index g) (start_byte_index g) (slices g) (chunks g) (headers g) (bytes g).
Definition set_active (x : Z) (g : segment) : segment :=
  mk_segment (n_cached_bytes g) x (n_reserved_bytes g) (max_log2_fifo_size g) (pct_first_alloc g) (byte_index g) (max_byte_index g) (start_byte_index g) (slices g) (chunks g) (headers g) (bytes g).
Definition set_reserved (x : Z) (g : segment) : segment :=
  mk_segment (n_cached_bytes g) (n_active_fifos g) x (max_log2_fifo_size g) (pct_first_alloc g) (byte_index g) (max_byte_index g) (start_byte_index g) (slices g) (chunks g) (headers g) (bytes g).
Definition set_byte_index (x : Z) (g : segment) : segment :=
  mk_segment (n_cached_bytes g) (n_active_fifos g) (n_reserved_bytes g) (max_log2_fifo_size g) (pct_first_alloc g) x (max_byte_index g) (start_byte_index g) (slices g) (chunks g) (headers g) (bytes g).
Definition set_slices (x : list FifoSegmentSlice) (g : segment) : segment :=
  mk_segment (n_cached_bytes g) (n_active_fifos g) (n_reserved_bytes g) (max_log2_fifo_size g) (pct_first_alloc g) (byte_index g) (max_byte_index g) (start_byte_index g) x (chunks g) (headers g) (bytes g).
Definition set_chunks (x : gmap Z SvmFifoChunk) (g : segment) : segment :=
  mk_segment (n_cached_bytes g) (n_active_fifos g) (n_reserved_bytes g) (max_log2_fifo_size g) (pct_first_alloc g) (byte_index g) (max_byte_index g) (start_byte_index g) (slices g) x (headers g) (bytes g).
Definition set_headers (x : gmap Z SvmFifoShared) (g : segment) : segment :=
  mk_segment (n_cached_bytes g) (n_active_fifos g) (n_reserved_bytes g) (max_log2_fifo_size g) (pct_first_alloc g) (byte_index g) (max_byte_index g) (start_byte_index g) (slices g) (chunks g) x (bytes g).
Definition set_bytes (x : gmap Z Z) (g : segment) : segment :=
  mk_segment (n_cached_bytes g) (n_active_fifos g) (n_reserved_bytes g) (max_log2_fifo_size g) (pct_first_alloc g) (byte_index g) (max_byte_index g) (start_byte_index g) (slices g) (chunks g) (headers g) x.

(** ** Reading and writing memory *)

Definition chunk_at (g : segment) (off : Z) : option SvmFifoChunk := chunks g !! off.
Definition chunk_upd (g : segment) (off : Z) (f : SvmFifoChunk -> SvmFifoChunk) : option segment :=
  c ← chunk_at g off; Some (set_chunks (<[off := f c]> (chunks g)) g).
Definition hdr_at (g : segment) (off : Z) : option SvmFifoShared := headers g !! off.
Definition hdr_upd (g : segment) (off : Z) (f : SvmFifoShared -> SvmFifoShared) : option segment :=
  h ← hdr_at g off; Some (set_headers (<[off := f h]> (headers g)) g).

(** A byte that was never written is 0, as the mapping is when it is made. *)
Definition load (m : gmap Z Z) (a : Z) : Z := default 0 (m !! a).
Fixpoint load_list (m : gmap Z Z) (a : Z) (n : nat) : list Z :=
  match n with O => [] | S n' => load m a :: load_list m (a + 1) n' end.
Fixpoint store_list (m : gmap Z Z) (a : Z) (l : list Z) : gmap Z Z :=
  match l with [] => m | b :: l' => store_list (<[a := b]> m) (a + 1) l' end.

(** Bounds the length of any chain of chunks. *)
Definition chunk_fuel (g : segment) : nat := S (size (chunks g)).

(** ** Offsets and size classes *)

Definition fs_head_offset (head : Z) : Z := Z.land head FS_CHUNK_OFFSET_MASK.
Definition fs_head_with_next (old_head next_offset : Z) : option Z :=
  if next_offset <=? FS_CHUNK_OFFSET_MASK then
    Some (Z.lor next_offset (Z.land (wrap 64 (old_head + FS_CHUNK_TAG_INCREMENT)) FS_CHUNK_TAG_MASK))
  else None.
Definition fs_offset_is_valid (offset max_byte_index : Z) : bool :=
  negb (offset =? 0) && (offset <=? FS_CHUNK_OFFSET_MASK) && (offset <? max_byte_index).

(** [usize::BITS - n.leading_zeros()] *)
Definition bit_length (n : Z) : Z := if n =? 0 then 0 else Z.log2 n + 1.
Definition fs_chunk_class (size : Z) : Z :=
  let size := if size <? Z.shiftl 1 FS_MIN_LOG2_CHUNK_SIZE then Z.shiftl 1 FS_MIN_LOG2_CHUNK_SIZE else size in
  let log2 := bit_length (saturating_sub size 1) in
  let class := saturating_sub log2 FS_MIN_LOG2_CHUNK_SIZE in
  if class <? FS_CHUNK_VEC_LEN then class else FS_CHUNK_VEC_LEN - 1.
Definition chunk_size (size : Z) : Z := Z.shiftl 1 (FS_MIN_LOG2_CHUNK_SIZE + fs_chunk_class size).

(** ** Allocating and releasing chunks *)

(** Sets the head of a free list and moves [delta] bytes into the counters of
    the free lists ([fetch_add] or [fetch_sub], which wrap). *)
Definition set_free_head (g : segment) (slice class new_head delta : Z) : option segment :=
  s ← vget (slices g) slice;
  heads ← vset (free_chunks s) class new_head;
  ss ← vset (slices g) slice
         (segment_slice heads (free_fifos s) (wrap 64 (n_fl_chunk_bytes s + delta)) (virtual_mem s) (num_chunks s));
  Some (set_cached (wrap 64 (n_cached_bytes g + delta)) (set_slices ss g)).

Definition allocate_chunk (g : segment) (slice size start_byte : Z) : option (segment * (Z + FifoError)) :=
  shared ← vget (slices g) slice;
  let class := fs_chunk_class size in
  let physical := chunk_size size in
  head ← vget (free_chunks shared) class;
  if negb (fs_head_offset head =? 0) then
    let offset := fs_head_offset head in
    if negb (fs_offset_is_valid offset (max_byte_index g)) then None else
    chunk ← chunk_at g offset;
    let next := Z.land (c_next chunk) FS_CHUNK_OFFSET_MASK in
    new_head ← fs_head_with_next head next;
    g ← set_free_head g slice class new_head (- c_length chunk);
    g ← chunk_upd g offset (fun c => set_c_next 0 (set_c_length physical (set_c_start start_byte c)));
    Some (g, inl offset)
  else
    match checked_add 64 (byte_index g) 7 with
    | None => Some (g, inr SegmentExhausted)
    | Some value =>
      let aligned := Z.ldiff value 7 in
      match checked_add 64 aligned (CHUNK_HEADER_SIZE + physical) with
      | None => Some (g, inr SegmentExhausted)
      | Some e =>
        if (max_byte_index g <=? e) || (FS_CHUNK_OFFSET_MASK <? e) then Some (g, inr SegmentExhausted) else
        let g := set_byte_index e g in
        Some (set_chunks (<[aligned := fifo_chunk start_byte physical 0 u32_max u32_max]> (chunks g)) g, inl aligned)
      end
    end.

(** [Fifo::release_chunk]; [slice] is the slice index of the FIFO's header. *)
Definition release_chunk (g : segment) (slice chunk_off : Z) : option segment :=
  match vget (slices g) slice with
  | None => Some g
  | Some s =>
    chunk ← chunk_at g chunk_off;
    let length := c_length chunk in
    if negb (fs_offset_is_valid chunk_off (max_byte_index g)) then None else
    let class := fs_chunk_class length in
    head ← vget (free_chunks s) class;
    g ← chunk_upd g chunk_off (set_c_next (fs_head_offset head));
    new_head ← fs_head_with_next head chunk_off;
    set_free_head g slice class new_head length
  end.

(** ** Positions in a chunk *)

Definition f_chunk_end (c : SvmFifoChunk) : Z := wadd32 (c_start_byte c) (c_length c).
Definition f_chunk_includes_pos (c : SvmFifoChunk) (pos : Z) : bool :=
  f_pos_geq pos (c_start_byte c) && f_pos_lt pos (f_chunk_end c).
Definition checked_sub (a b : Z) : option Z := if a <? b then None else Some (a - b).

(** ** Copying across chunks

    The scalar routines and their AVX2 variants.  [src] is the source from the
    position reached on, [len] what is left to copy. *)

Fixpoint copy_to_loop (n : nat) (g : segment) (chunk pos : Z) (src : list Z) (len : Z) : option (segment * Z) :=
  match n with
  | O => None
  | S n' =>
    if len =? 0 then Some (g, chunk) else
    current ← chunk_at g chunk;
    let offset := wsub32 pos (c_start_byte current) in
    available ← checked_sub (c_length current) offset;
    let copied := Z.min available len in
    let g := set_bytes (store_list (bytes g) (chunk + CHUNK_HEADER_SIZE + offset) (take (Z.to_nat copied) src)) g in
    let len := len - copied in
    if len =? 0 then Some (g, chunk) else
    let next := c_next current in
    if next =? 0 then None else
    nc ← chunk_at g next;
    copy_to_loop n' g next (c_start_byte nc) (drop (Z.to_nat copied) src) len
  end.

Definition svm_fifo_copy_to_chunk_scalar (g : segment) (chunk tail_idx : Z) (src : list Z) (len last : Z) : option (segment * Z) :=
  c ← chunk_at g chunk;
  if negb (f_chunk_includes_pos c tail_idx) then None else
  '(g, chunk) ← copy_to_loop (chunk_fuel g) g chunk tail_idx src len;
  Some (g, if negb (last =? 0) then chunk else last).

Fixpoint copy_from_loop (n : nat) (g : segment) (chunk pos : Z) (len : Z) : option (list Z * Z) :=
  match n with
  | O => None
  | S n' =>
    if len =? 0 then Some ([], chunk) else
    current ← chunk_at g chunk;
    let offset := wsub32 pos (c_start_byte current) in
    available ← checked_sub (c_length current) offset;
    let copied := Z.min available len in
    let out := load_list (bytes g) (chunk + CHUNK_HEADER_SIZE + offset) (Z.to_nat copied) in
    let len := len - copied in
    if len =? 0 then Some (out, chunk) else
    let next := c_next current in
    if next =? 0 then None else
    nc ← chunk_at g next;
    '(rest, chunk) ← copy_from_loop n' g next (c_start_byte nc) len;
    Some (out ++ rest, chunk)
  end.

Definition svm_fifo_copy_from_chunk_scalar (g : segment) (chunk head_idx len last : Z) : option (list Z * Z) :=
  c ← chunk_at g chunk;
  if negb (f_chunk_includes_pos c head_idx) then None else
  '(out, chunk) ← copy_from_loop (chunk_fuel g) g chunk head_idx len;
  Some (out, if negb (last =? 0) then chunk else last).

(** 32 bytes at a time, then the rest. *)
Fixpoint store_blocks (n : nat) (m : gmap Z Z) (a : Z) (l : list Z) : gmap Z Z :=
  match n with
  | O => store_list m a l
  | S n' =>
    if 32 <=? vlen l then store_blocks n' (store_list m a (take 32 l)) (a + 32) (drop 32 l)
    else store_list m a l
  end.
Fixpoint load_blocks (n : nat) (m : gmap Z Z) (a : Z) (count : nat) : list Z :=
  match n with
  | O => load_list m a count
  | S n' =>
    if (32 <=? count)%nat then load_list m a 32 ++ load_blocks n' m (a + 32) (count - 32)
    else load_list m a count
  end.

Fixpoint copy_to_loop_avx2 (n : nat) (g : segment) (chunk pos : Z) (src : list Z) (remaining : Z) : option (segment * Z) :=
  match n with
  | O => None
  | S n' =>
    if remaining =? 0 then Some (g, chunk) else
    current ← chunk_at g chunk;
    let offset := wsub32 pos (c_start_byte current) in
    available ← checked_sub (c_length current) offset;
    let count := Z.min available remaining in
    let part := take (Z.to_nat count) src in
    let g := set_bytes (store_blocks (length part) (bytes g) (chunk + CHUNK_HEADER_SIZE + offset) part) g in
    let remaining := remaining - count in
    if remaining =? 0 then Some (g, chunk) else
    let next := c_next current in
    if next =? 0 then None else
    nc ← chunk_at g next;
    copy_to_loop_avx2 n' g next (c_start_byte nc) (drop (Z.to_nat count) src) remaining
  end.

Definition svm_fifo_copy_to_chunk_avx2 (g : segment) (chunk tail_idx : Z) (src : list Z) (len last : Z) : option (segment * Z) :=
  c ← chunk_at g chunk;
  if negb (f_chunk_includes_pos c tail_idx) then None else
  '(g, chunk) ← copy_to_loop_avx2 (chunk_fuel g) g chunk tail_idx src len;
  Some (g, if negb (last =? 0) then chunk else last).

Fixpoint copy_from_loop_avx2 (n : nat) (g : segment) (chunk pos : Z) (remaining : Z) : option (list Z * Z) :=
  match n with
  | O => None
  | S n' =>
    if remaining =? 0 then Some ([], chunk) else
    current ← chunk_at g chunk;
    let offset := wsub32 pos (c_start_byte current) in
    available ← checked_sub (c_length current) offset;
    let count := Z.min available remaining in
    let out := load_blocks (Z.to_nat count) (bytes g) (chunk + CHUNK_HEADER_SIZE + offset) (Z.to_nat count) in
    let remaining := remaining - count in
    if remaining =? 0 then Some (out, chunk) else
    let next := c_next current in
    if next =? 0 then None else
    nc ← chunk_at g next;
    '(rest, chunk) ← copy_from_loop_avx2 n' g next (c_start_byte nc) remaining;
    Some (out ++ rest, chunk)
  end.

Definition svm_fifo_copy_from_chunk_avx2 (g : segment) (chunk head_idx len last : Z) : option (list Z * Z) :=
  c ← chunk_at g chunk;
  if negb (f_chunk_includes_pos c head_idx) then None else
  '(out, chunk) ← copy_from_loop_avx2 (chunk_fuel g) g chunk head_idx len;
  Some (out, if negb (last =? 0) then chunk else last).

(** [march_fn!] selects the variant by the processor. *)
Definition svm_fifo_copy_to_chunk (avx2 : bool) : segment -> Z -> Z -> list Z -> Z -> Z -> option (segment * Z) :=
  if avx2 then svm_fifo_copy_to_chunk_avx2 else svm_fifo_copy_to_chunk_scalar.
Definition svm_fifo_copy_from_chunk (avx2 : bool) : segment -> Z -> Z -> Z -> Z -> option (list Z * Z) :=
  if avx2 then svm_fifo_copy_from_chunk_avx2 else svm_fifo_copy_from_chunk_scalar.

End SvmMemory.
