(* ===== verification/SvmMemoryProofs.v ===== *)
(** * Memory of a FIFO segment: proofs

    Bytes and blocks of bytes, the size classes, and the invariant of a
    segment: its chunks occupy regions apart from each other below the bump
    pointer, and every free list is a chain of chunks of its class. *)

From S2P Require Import Prelude InfraBitmap InfraPool SvmOoo SvmMemory.

Module SvmMemoryProofs.
Import SvmOoo SvmMemory.

(** ** Bytes *)

Lemma load_store m a l b :
  load (store_list m a l) b = if decide (a <= b < a + vlen l) then default 0 (l !! Z.to_nat (b - a)) else load m b.
Proof.
  revert m a. induction l as [|x l IH]; intros m a; cbn [store_list].
  - rewrite decide_False; [done|]. unfold vlen. cbn. lia.
  - rewrite IH. unfold vlen. cbn [length]. destruct (decide (a + 1 <= b < _)).
    + rewrite decide_True by lia. replace (Z.to_nat (b - a)) with (S (Z.to_nat (b - (a + 1)))) by lia. done.
    + unfold load. destruct (decide (b = a)) as [->|Hne].
      * rewrite lookup_insert_eq, decide_True by lia. by rewrite Z.sub_diag.
      * rewrite lookup_insert_ne by done. rewrite decide_False by lia. done.
Qed.

Lemma store_app m a l1 l2 : store_list m a (l1 ++ l2) = store_list (store_list m a l1) (a + vlen l1) l2.
Proof.
  revert m a. induction l1 as [|x l1 IH]; intros m a; cbn; [by rewrite Z.add_0_r|]. rewrite IH. f_equal. unfold vlen. cbn. lia.
Qed.

Lemma load_list_app m a n1 n2 : load_list m a (n1 + n2) = load_list m a n1 ++ load_list m (a + Z.of_nat n1) n2.
Proof.
  revert a. induction n1 as [|n1 IH]; intros a; cbn; [by rewrite Z.add_0_r|]. rewrite IH. do 3 f_equal. lia.
Qed.

Lemma length_load_list m a n : length (load_list m a n) = n.
Proof. revert a. induction n as [|n IH]; intros a; cbn; [done|]. by rewrite IH. Qed.

Lemma store_blocks_eq n m a l : store_blocks n m a l = store_list m a l.
Proof.
  revert m a l. induction n as [|n IH]; intros m a l; [done|]. cbn [store_blocks]. destruct (Z.leb_spec 32 (vlen l)) as [Hl|]; [|done].
  rewrite IH. transitivity (store_list m a (take 32 l ++ drop 32 l)); [|by rewrite take_drop]. rewrite store_app. f_equal.
  unfold vlen in *. rewrite length_take. lia.
Qed.

Lemma load_blocks_eq n m a count : load_blocks n m a count = load_list m a count.
Proof.
  revert a count. induction n as [|n IH]; intros a count; [done|]. cbn [load_blocks]. destruct (Nat.leb_spec 32 count) as [Hl|]; [|done].
  rewrite IH. replace count with (32 + (count - 32))%nat at 2 by lia. by rewrite load_list_app.
Qed.

Lemma copy_to_avx2_eq n g chunk pos src len : copy_to_loop_avx2 n g chunk pos src len = copy_to_loop n g chunk pos src len.
Proof.
  revert g chunk pos src len. induction n as [|n IH]; intros; [done|]. cbn [copy_to_loop_avx2 copy_to_loop].
  destruct (len =? 0); [done|]. destruct (chunk_at g chunk) as [c|]; [|done]. cbn [mbind option_bind].
  destruct (checked_sub _ _) as [av|]; [|done]. cbn [mbind option_bind]. rewrite store_blocks_eq.
  destruct (len - Z.min av len =? 0); [done|]. destruct (c_next c =? 0); [done|]. destruct (chunk_at _ (c_next c)) as [nc|]; [|done]. apply IH.
Qed.

Lemma copy_from_avx2_eq n g chunk pos len : copy_from_loop_avx2 n g chunk pos len = copy_from_loop n g chunk pos len.
Proof.
  revert chunk pos len. induction n as [|n IH]; intros; [done|]. cbn [copy_from_loop_avx2 copy_from_loop].
  destruct (len =? 0); [done|]. destruct (chunk_at g chunk) as [c|]; [|done]. cbn [mbind option_bind].
  destruct (checked_sub _ _) as [av|]; [|done]. cbn [mbind option_bind]. rewrite load_blocks_eq.
  destruct (len - Z.min av len =? 0); [done|]. destruct (c_next c =? 0); [done|]. destruct (chunk_at _ (c_next c)) as [nc|]; [|done].
  cbn [mbind option_bind]. by rewrite IH.
Qed.

Lemma copy_to_selected avx2 g chunk pos src len last :
  svm_fifo_copy_to_chunk avx2 g chunk pos src len last = svm_fifo_copy_to_chunk_scalar g chunk pos src len last.
Proof.
  destruct avx2; [|done]. unfold svm_fifo_copy_to_chunk, svm_fifo_copy_to_chunk_avx2, svm_fifo_copy_to_chunk_scalar.
  destruct (chunk_at g chunk); [|done]. cbn [mbind option_bind]. by rewrite copy_to_avx2_eq.
Qed.

Lemma copy_from_selected avx2 g chunk pos len last :
  svm_fifo_copy_from_chunk avx2 g chunk pos len last = svm_fifo_copy_from_chunk_scalar g chunk pos len last.
Proof.
  destruct avx2; [|done]. unfold svm_fifo_copy_from_chunk, svm_fifo_copy_from_chunk_avx2, svm_fifo_copy_from_chunk_scalar.
  destruct (chunk_at g chunk); [|done]. cbn [mbind option_bind]. by rewrite copy_from_avx2_eq.
Qed.

(** ** Size classes *)

Definition class_size (k : Z) : Z := 2 ^ (12 + k).

Lemma class_range size : 0 <= fs_chunk_class size < 11.
Proof.
  unfold fs_chunk_class, FS_CHUNK_VEC_LEN, FS_MAX_LOG2_CHUNK_SIZE, FS_MIN_LOG2_CHUNK_SIZE, saturating_sub. cbn zeta.
  destruct (Z.ltb_spec (Z.max 0 (bit_length (Z.max 0 ((if size <? Z.shiftl 1 12 then Z.shiftl 1 12 else size) - 1)) - 12)) (22 - 12 + 1)); lia.
Qed.

Lemma chunk_size_class size : chunk_size size = class_size (fs_chunk_class size).
Proof. unfold chunk_size, class_size, FS_MIN_LOG2_CHUNK_SIZE. rewrite Z.shiftl_1_l. done. Qed.

Lemma class_of_size k : 0 <= k < 11 -> fs_chunk_class (class_size k) = k.
Proof.
  intros Hk. assert (k = 0 \/ k = 1 \/ k = 2 \/ k = 3 \/ k = 4 \/ k = 5 \/ k = 6 \/ k = 7 \/ k = 8 \/ k = 9 \/ k = 10) as H by lia.
  by repeat (destruct H as [->|H]; [reflexivity|]); subst k.
Qed.

Lemma class_size_range k : 0 <= k < 11 -> 2 ^ 12 <= class_size k <= 2 ^ 22.
Proof. intros Hk. unfold class_size. split; apply Z.pow_le_mono_r; lia. Qed.

(** A chunk of the class of [size] holds [size] bytes, up to the largest. *)
Lemma chunk_size_covers size : size <= 2 ^ 22 -> size <= chunk_size size.
Proof.
  intros Hs. unfold chunk_size, fs_chunk_class, FS_CHUNK_VEC_LEN, FS_MAX_LOG2_CHUNK_SIZE, FS_MIN_LOG2_CHUNK_SIZE, saturating_sub. cbn zeta.
  change (Z.shiftl 1 12) with 4096. destruct (Z.ltb_spec size 4096) as [Hlt|Hge].
  - match goal with |- _ <= ?x => let y := eval vm_compute in x in change x with y end. lia.
  - unfold bit_length. rewrite (Z.max_r 0 (size - 1)) by lia. rewrite (proj2 (Z.eqb_neq (size - 1) 0)) by lia.
    assert (11 <= Z.log2 (size - 1)) as H1 by (apply (Z.log2_le_pow2 (size - 1) 11); lia).
    assert (Z.log2 (size - 1) < 22) as H2 by (apply Z.log2_lt_pow2; lia).
    rewrite Z.max_r by lia. destruct (Z.ltb_spec (Z.log2 (size - 1) + 1 - 12) (22 - 12 + 1)); [|lia].
    rewrite Z.shiftl_1_l. replace (12 + (Z.log2 (size - 1) + 1 - 12)) with (Z.succ (Z.log2 (size - 1))) by lia.
    pose proof (Z.log2_spec (size - 1) ltac:(lia)). lia.
Qed.

(** ** Tagged free-list heads *)

Lemma head_offset_small o : 0 <= o <= FS_CHUNK_OFFSET_MASK -> fs_head_offset o = o.
Proof.
  intros Ho. unfold fs_head_offset, FS_CHUNK_OFFSET_MASK in *. change 281474976710655 with (Z.ones 48) in *.
  rewrite Z.land_ones by lia. apply Z.mod_small. rewrite Z.ones_equiv in Ho. lia.
Qed.

Lemma head_with_next old o :
  0 <= o <= FS_CHUNK_OFFSET_MASK -> exists hd, fs_head_with_next old o = Some hd /\ fs_head_offset hd = o.
Proof.
  intros Ho. unfold fs_head_with_next. rewrite (proj2 (Z.leb_le _ _)) by lia. eexists. split; [done|]. unfold fs_head_offset.
  rewrite Z.land_lor_distr_l, <- Z.land_assoc. change (Z.land FS_CHUNK_TAG_MASK FS_CHUNK_OFFSET_MASK) with 0.
  rewrite Z.land_0_r, Z.lor_0_r. by apply head_offset_small.
Qed.


(** ** The invariant of a segment *)

(** The free lists: by slice and class, the offsets of their chunks. *)
Definition frees : Type := Z -> Z -> list Z.
Definition upd_free (fr : frees) (s k : Z) (l : list Z) : frees :=
  fun s' k' => if decide (s' = s /\ k' = k) then l else fr s' k'.
Definition is_free (fr : frees) (o : Z) : Prop := exists s k, o ∈ fr s k.

Lemma upd_free_eq fr s k l : upd_free fr s k l s k = l.
Proof. unfold upd_free. by rewrite decide_True. Qed.
Lemma upd_free_ne fr s k l s' k' : ~ (s' = s /\ k' = k) -> upd_free fr s k l s' k' = fr s' k'.
Proof. intros H. unfold upd_free. by rewrite decide_False. Qed.

Fixpoint free_chain (m : gmap Z SvmFifoChunk) (k head : Z) (l : list Z) : Prop :=
  match l with
  | [] => head = 0
  | o :: l' => head = o /\ exists c, m !! o = Some c /\ c_length c = class_size k /\ free_chain m k (c_next c) l'
  end.

Lemma free_chain_ext m m' k head l :
  (forall o, o ∈ l -> m' !! o = m !! o) -> free_chain m k head l -> free_chain m' k head l.
Proof.
  revert head. induction l as [|o l IH]; intros head Hm; cbn; [done|]. intros (-> & c & Hc & Hl & H). split; [done|].
  exists c. rewrite Hm by left. split_and!; try done. apply IH; [|done]. intros o' Ho. apply Hm. by right.
Qed.

Record seg_ok (g : segment) (fr : frees) : Prop := {
  sk_chunk o c : chunks g !! o = Some c ->
    0 < o /\ o + CHUNK_HEADER_SIZE + c_length c <= byte_index g /\ exists k, 0 <= k < 11 /\ c_length c = class_size k;
  sk_apart o c o' c' : chunks g !! o = Some c -> chunks g !! o' = Some c' -> o < o' -> o + CHUNK_HEADER_SIZE + c_length c <= o';
  sk_index : 0 < byte_index g <= max_byte_index g;
  sk_max : max_byte_index g <= 2 ^ 32;
  sk_free s sl k : vget (slices g) s = Some sl -> 0 <= k < 11 ->
    exists hd, vget (free_chunks sl) k = Some hd /\ free_chain (chunks g) k (fs_head_offset hd) (fr s k);
  sk_nodup s k : NoDup (fr s k);
  sk_once o s k s' k' : o ∈ fr s k -> o ∈ fr s' k' -> s = s' /\ k = k';
  sk_known o s k : o ∈ fr s k -> is_Some (chunks g !! o);
  sk_range o s k : o ∈ fr s k -> 0 <= s < vlen (slices g) /\ 0 <= k < 11
}.

Lemma sk_offset g fr o c : seg_ok g fr -> chunks g !! o = Some c ->
  0 < o < 2 ^ 32 /\ o <= FS_CHUNK_OFFSET_MASK /\ o < max_byte_index g /\ 2 ^ 12 <= c_length c <= 2 ^ 22.
Proof.
  intros H Hc. destruct (sk_chunk _ _ H o c Hc) as (H0 & H1 & k & Hk & El). pose proof (class_size_range k Hk).
  pose proof (sk_index _ _ H). pose proof (sk_max _ _ H). unfold CHUNK_HEADER_SIZE, FS_CHUNK_OFFSET_MASK in *. lia.
Qed.

Lemma offset_valid g fr o c : seg_ok g fr -> chunks g !! o = Some c -> fs_offset_is_valid o (max_byte_index g) = true.
Proof.
  intros H Hc. pose proof (sk_offset g fr o c H Hc) as (? & ? & ? & _). unfold fs_offset_is_valid.
  rewrite (proj2 (Z.eqb_neq o 0)), (proj2 (Z.leb_le o _)), (proj2 (Z.ltb_lt o _)) by lia. done.
Qed.

(** What of a segment and its slices FIFO operations do not use. *)
Definition slice_rest (sl : FifoSegmentSlice) : Z * Z * list Z := (free_fifos sl, virtual_mem sl, num_chunks sl).
Definition seg_meta (g : segment) : Z * list (Z * Z * list Z) := (n_active_fifos g, slice_rest <$> slices g).

(** What a call leaves alone besides chunk headers and free lists. *)
Record same_rest (g g' : segment) : Prop := {
  sr_headers : headers g' = headers g;
  sr_bytes : bytes g' = bytes g;
  sr_max : max_byte_index g' = max_byte_index g;
  sr_slices : vlen (slices g') = vlen (slices g);
  sr_meta : seg_meta g' = seg_meta g;
  sr_log2 : max_log2_fifo_size g' = max_log2_fifo_size g;
  sr_pct : pct_first_alloc g' = pct_first_alloc g
}.
#[export] Instance same_rest_preorder : PreOrder same_rest.
Proof. split; [done|]. intros ??? [] []. constructor; congruence. Qed.

(** Chunks keep their regions, and new ones are past the old allocations. *)
Record grows (g g' : segment) : Prop := {
  gr_index : byte_index g <= byte_index g';
  gr_chunk o c' : chunks g' !! o = Some c' -> (exists c, chunks g !! o = Some c /\ c_length c = c_length c') \/ byte_index g <= o
}.
#[export] Instance grows_preorder : PreOrder grows.
Proof.
  split; [intros g; constructor; [done|]; intros o c Hc; left; by exists c|]. intros g1 g2 g3 [A1 A2] [B1 B2]. constructor; [lia|].
  intros o c'' H. destruct (B2 o c'' H) as [(c' & Hc' & <-)|?]; [|right; lia]. by destruct (A2 o c' Hc') as [(c & Hc & <-)|?]; [left; exists c|right].
Qed.
Lemma grows_kept g g' : byte_index g <= byte_index g' -> (forall o c', chunks g' !! o = Some c' -> exists c, chunks g !! o = Some c /\ c_length c = c_length c') -> grows g g'.
Proof. intros Hb Hc. constructor; [done|]. intros o c' H. left. by apply Hc. Qed.

Lemma vset_fmap {A B} (f : A -> B) (l l' : list A) i x y : vget l i = Some y -> vset l i x = Some l' -> f x = f y -> f <$> l' = f <$> l.
Proof.
  intros Hy Hs Hf. apply list_eq. intros j. rewrite !list_lookup_fmap. assert (l' !! j = vget l' (Z.of_nat j) /\ l !! j = vget l (Z.of_nat j)) as [-> ->].
  { unfold vget. rewrite !Nat2Z.id. destruct (Z.ltb_spec (Z.of_nat j) 0); [lia|done]. }
  rewrite (vget_vset _ _ _ _ _ Hs). case_decide as E; [|done]. subst. rewrite Hy. cbn. congruence.
Qed.

Lemma set_free_head_spec g slice sl class hd delta :
  vget (slices g) slice = Some sl -> is_Some (vget (free_chunks sl) class) ->
  exists g' sl', set_free_head g slice class hd delta = Some g' /\ same_rest g g' /\
    chunks g' = chunks g /\ byte_index g' = byte_index g /\
    vget (slices g') slice = Some sl' /\ (forall s, s <> slice -> vget (slices g') s = vget (slices g) s) /\
    vget (free_chunks sl') class = Some hd /\ (forall k, k <> class -> vget (free_chunks sl') k = vget (free_chunks sl) k).
Proof.
  intros Hs Hc. unfold set_free_head. rewrite Hs. cbn [mbind option_bind].
  destruct (vset_total (free_chunks sl) class hd) as [heads Hh]; [by apply vget_is_Some|]. rewrite Hh. cbn [mbind option_bind].
  set (sl' := segment_slice _ _ _ _ _). destruct (vset_total (slices g) slice sl') as [ss Hss]; [by eapply vget_Some_bounds|].
  rewrite Hss. cbn [mbind option_bind]. eexists _, sl'. split; [done|]. split; [constructor; try done; cbn; [by eapply vset_len|unfold seg_meta; cbn; f_equal; by eapply (vset_fmap slice_rest)]|].
  cbn [chunks byte_index slices set_cached set_slices]. split_and!; try done.
  - by rewrite (vget_vset _ _ _ slice _ Hss), decide_True.
  - intros s Hne. by rewrite (vget_vset _ _ _ s _ Hss), decide_False.
  - cbn. by rewrite (vget_vset _ _ _ class _ Hh), decide_True.
  - intros k Hne. cbn. by rewrite (vget_vset _ _ _ k _ Hh), decide_False.
Qed.

(** ** Allocation and release *)

(** A change of the chunks and of one free list keeps the invariant when the
    chunks keep their regions. *)
Lemma seg_ok_relist g g' fr slice k l :
  seg_ok g fr -> same_rest g g' -> byte_index g' = byte_index g -> 0 <= slice < vlen (slices g) -> 0 <= k < 11 ->
  (forall o c', chunks g' !! o = Some c' -> exists c, chunks g !! o = Some c /\ c_length c' = c_length c) ->
  (forall o, is_Some (chunks g !! o) -> is_Some (chunks g' !! o)) ->
  (forall s k' o, ~ (s = slice /\ k' = k) -> o ∈ fr s k' -> chunks g' !! o = chunks g !! o) ->
  (forall s sl k', vget (slices g') s = Some sl -> 0 <= k' < 11 -> ~ (s = slice /\ k' = k) ->
     exists sl0 hd, vget (slices g) s = Some sl0 /\ vget (free_chunks sl0) k' = Some hd /\ vget (free_chunks sl) k' = Some hd) ->
  (forall sl, vget (slices g') slice = Some sl -> exists hd, vget (free_chunks sl) k = Some hd /\ free_chain (chunks g') k (fs_head_offset hd) l) ->
  NoDup l -> (forall o, o ∈ l -> is_Some (chunks g !! o) /\ forall s k', o ∈ fr s k' -> s = slice /\ k' = k) ->
  seg_ok g' (upd_free fr slice k l).
Proof.
  intros H R Hb Hslr Hkr Hc Hd Hsame Hsl Hl Hnd Hin. constructor.
  - intros o c' Ho. destruct (Hc o c' Ho) as (c & Hc' & ->). rewrite Hb. by apply (sk_chunk _ _ H).
  - intros o c o' c' Ho Ho' Hlt. destruct (Hc o c Ho) as (d & Hd1 & ->). destruct (Hc o' c' Ho') as (d' & Hd2 & _). by eapply (sk_apart _ _ H).
  - rewrite Hb, (sr_max _ _ R). apply (sk_index _ _ H).
  - rewrite (sr_max _ _ R). apply (sk_max _ _ H).
  - intros s sl k' Hs Hk. destruct (decide (s = slice /\ k' = k)) as [[-> ->]|Hne]; [rewrite upd_free_eq; by apply Hl|].
    rewrite upd_free_ne by done. destruct (Hsl s sl k' Hs Hk Hne) as (sl0 & hd & Hs0 & Hk0 & Hk1). exists hd. split; [done|].
    destruct (sk_free _ _ H s sl0 k' Hs0 Hk) as (hd' & Hhd & Hch). simplify_eq. eapply free_chain_ext; [|done]. intros o Ho. by eapply Hsame.
  - intros s k'. unfold upd_free. case_decide; [done|]. apply (sk_nodup _ _ H).
  - intros o s1 k1 s2 k2. unfold upd_free. case_decide as E1; case_decide as E2; intros H1 H2.
    + destruct E1 as [-> ->], E2 as [-> ->]. done.
    + destruct (Hin o H1) as [_ Hx]. by destruct E2; apply Hx.
    + destruct (Hin o H2) as [_ Hx]. by destruct E1; apply Hx.
    + by eapply (sk_once _ _ H).
  - intros o s k' Ho. unfold upd_free in Ho. apply Hd. case_decide; [by apply Hin|by eapply (sk_known _ _ H)].
  - intros o s k' Ho. rewrite (sr_slices _ _ R). unfold upd_free in Ho. case_decide as E; [by destruct E as [-> ->]|by eapply (sk_range _ _ H)].
Qed.

Record allocated g (fr : frees) g' (fr' : frees) (o start size : Z) : Prop := {
  al_seg : seg_ok g' fr';
  al_rest : same_rest g g';
  al_grows : grows g g';
  al_chunk : exists c, chunks g' = <[o := c]> (chunks g) /\ c_start_byte c = start /\ c_length c = chunk_size size /\ c_next c = 0;
  al_new : chunks g !! o = None \/ is_free fr o;
  al_free x s k : x ∈ fr' s k <-> x ∈ fr s k /\ x <> o
}.

Lemma pop_spec g fr slice sl class hd o l c size start :
  seg_ok g fr -> vget (slices g) slice = Some sl -> 0 <= class < 11 -> vget (free_chunks sl) class = Some hd ->
  fr slice class = o :: l -> chunks g !! o = Some c -> c_length c = class_size class -> free_chain (chunks g) class (c_next c) l ->
  chunk_size size = class_size class ->
  exists g' fr', (new_head ← fs_head_with_next hd (Z.land (c_next c) FS_CHUNK_OFFSET_MASK);
     g1 ← set_free_head g slice class new_head (- c_length c);
     g1 ← chunk_upd g1 o (fun c => set_c_next 0 (set_c_length (chunk_size size) (set_c_start start c)));
     Some (g1, @inl Z FifoError o)) = Some (g', inl o) /\ allocated g fr g' fr' o start size.
Proof.
  intros H Hs Hk Hhd Hfr Hc Hlen Hch Hsz. pose proof (sk_nodup _ _ H slice class) as Hnd. rewrite Hfr in Hnd. apply NoDup_cons in Hnd as [Hno Hnd].
  assert (0 <= c_next c <= FS_CHUNK_OFFSET_MASK /\ is_Some (vget (free_chunks sl) class)) as [Hnx Hcl].
  { split; [|by eexists]. destruct l as [|o' l']; [rewrite Hch; unfold FS_CHUNK_OFFSET_MASK; lia|]. destruct Hch as (-> & c' & Hc' & _).
    pose proof (sk_offset g fr o' c' H Hc'). lia. }
  change (Z.land (c_next c) FS_CHUNK_OFFSET_MASK) with (fs_head_offset (c_next c)). rewrite (head_offset_small _ Hnx).
  destruct (head_with_next hd (c_next c) Hnx) as (nh & -> & Hnh). cbn [mbind option_bind].
  destruct (set_free_head_spec g slice sl class nh (- c_length c) Hs Hcl) as (g1 & sl1 & -> & R & Hch1 & Hb1 & Hs1 & Hs2 & Hk1 & Hk2).
  cbn [mbind option_bind]. unfold chunk_upd, chunk_at. rewrite Hch1, Hc. cbn [mbind option_bind]. eexists _, (upd_free fr slice class l). split; [done|].
  assert (forall s k o', ~ (s = slice /\ k = class) -> o' ∈ fr s k -> o' <> o) as Hoth.
  { intros s k o' Hne Ho' ->. apply Hne. eapply (sk_once _ _ H); [done|]. rewrite Hfr. left. }
  constructor.
  - eapply seg_ok_relist; cbn [chunks byte_index slices set_chunks]; try done.
    + destruct R. by constructor.
    + by eapply vget_Some_bounds.
    + intros x c' Hx. destruct (decide (x = o)) as [->|Hne].
      * rewrite lookup_insert_eq in Hx. simplify_eq. exists c. split; [done|]. cbn. congruence.
      * rewrite lookup_insert_ne in Hx by done. by exists c'.
    + intros x Hx. apply lookup_insert_is_Some'. by right.
    + intros s k x Hne Hx. apply lookup_insert_ne. intros ->. by eapply (Hoth s k).
    + intros s sl' k Hs' Hk' Hne. destruct (decide (s = slice)) as [->|Hn].
      * rewrite Hs1 in Hs'. simplify_eq. destruct (sk_free _ _ H slice sl k Hs Hk') as (hd' & Hh' & _). exists sl, hd'. rewrite Hk2 by tauto. done.
      * rewrite Hs2 in Hs' by done. destruct (sk_free _ _ H s sl' k Hs' Hk') as (hd' & Hh' & _). by exists sl', hd'.
    + intros sl' Hs'. rewrite Hs1 in Hs'. simplify_eq. exists nh. split; [done|]. rewrite Hnh.
      eapply free_chain_ext; [|done]. intros x Hx. apply lookup_insert_ne. by intros ->.
    + intros x Hx. assert (x ∈ fr slice class) as Hx' by (rewrite Hfr; by right). split; [by eapply (sk_known _ _ H)|].
      intros s k Hx2. by eapply (sk_once _ _ H).
  - destruct R. by constructor.
  - apply grows_kept; cbn; [lia|]. intros x c' [[<- <-]|[Hx Hc']]%lookup_insert_Some; [exists c; split; [done|]; cbn; congruence|by exists c'].
  - eexists. split; [done|]. done.
  - right. exists slice, class. rewrite Hfr. left.
  - intros x s k. unfold upd_free. case_decide as E.
    + destruct E as [-> ->]. rewrite Hfr, elem_of_cons. split; [intros Hx; split; [by right|by intros ->]|tauto].
    + split; [|tauto]. intros Hx. split; [done|by eapply Hoth].
Qed.

Lemma seg_ok_fresh g fr o c e :
  seg_ok g fr -> byte_index g <= o -> o + CHUNK_HEADER_SIZE + c_length c = e -> e <= max_byte_index g ->
  (exists k, 0 <= k < 11 /\ c_length c = class_size k) ->
  chunks g !! o = None /\ seg_ok (set_chunks (<[o := c]> (chunks g)) (set_byte_index e g)) fr.
Proof.
  intros H Ho He Hm (k & Hk & Hlen). pose proof (sk_index _ _ H) as Hi. pose proof (class_size_range k Hk) as Hck. unfold CHUNK_HEADER_SIZE in He.
  assert (chunks g !! o = None) as Hnone.
  { destruct (chunks g !! o) as [d|] eqn:E; [|done]. pose proof (sk_chunk _ _ H o d E) as (_ & Hd & _). pose proof (sk_offset g fr o d H E). unfold CHUNK_HEADER_SIZE in Hd. lia. }
  assert (forall s k' x, x ∈ fr s k' -> x <> o) as Hne.
  { intros s k' x Hx ->. destruct (sk_known _ _ H o s k' Hx) as [d Hd]. by rewrite Hnone in Hd. }
  split; [done|]. constructor; cbn [chunks byte_index max_byte_index slices set_chunks set_byte_index].
  - intros x d [[<- <-]|[Hx Hd]]%lookup_insert_Some; [split_and!; [lia|unfold CHUNK_HEADER_SIZE; lia|by exists k]|].
    destruct (sk_chunk _ _ H x d Hd) as (H1 & H2 & H3). split_and!; [done|lia|done].
  - intros x d x' d' [[<- <-]|[Hx Hd]]%lookup_insert_Some [[<- <-]|[Hx' Hd']]%lookup_insert_Some Hlt; [lia| | |by eapply (sk_apart _ _ H)].
    + pose proof (sk_chunk _ _ H x' d' Hd') as (_ & H2 & _). pose proof (sk_offset g fr x' d' H Hd'). unfold CHUNK_HEADER_SIZE in *. lia.
    + pose proof (sk_chunk _ _ H x d Hd) as (_ & H2 & _). lia.
  - lia.
  - apply (sk_max _ _ H).
  - intros s sl k' Hs Hk'. destruct (sk_free _ _ H s sl k' Hs Hk') as (hd & Hhd & Hch). exists hd. split; [done|].
    eapply free_chain_ext; [|done]. intros x Hx. apply lookup_insert_ne. intros ->. by eapply Hne.
  - apply (sk_nodup _ _ H).
  - apply (sk_once _ _ H).
  - intros x s k' Hx. apply lookup_insert_is_Some'. right. by eapply (sk_known _ _ H).
  - apply (sk_range _ _ H).
Qed.

Lemma align_up x a k : 0 <= k -> a = 2 ^ k -> 0 <= x -> x <= Z.ldiff (x + (a - 1)) (a - 1) <= x + (a - 1).
Proof.
  intros Hk -> Hx. replace (2 ^ k - 1) with (Z.ones k) by (rewrite Z.ones_equiv; lia). rewrite Z.ldiff_ones_r, Z.shiftr_div_pow2, Z.shiftl_mul_pow2 by lia.
  rewrite Z.ones_equiv. assert (0 < 2 ^ k) by lia. pose proof (Z.div_mod (x + Z.pred (2 ^ k)) (2 ^ k) ltac:(lia)). pose proof (Z.mod_pos_bound (x + Z.pred (2 ^ k)) (2 ^ k) ltac:(lia)). lia.
Qed.

Lemma allocate_chunk_spec g fr slice size start :
  seg_ok g fr -> 0 <= slice < vlen (slices g) ->
  exists g' r, allocate_chunk g slice size start = Some (g', r) /\
    match r with
    | inl o => exists fr', allocated g fr g' fr' o start size
    | inr e => g' = g /\ e = SegmentExhausted
    end.
Proof.
  intros H Hs. destruct (vget_in_range _ _ Hs) as [sl Hsl]. unfold allocate_chunk. rewrite Hsl. cbn [mbind option_bind].
  pose proof (class_range size) as Hk. set (class := fs_chunk_class size) in *.
  destruct (sk_free _ _ H slice sl class Hsl Hk) as (hd & Hhd & Hch). rewrite Hhd. cbn [mbind option_bind].
  destruct (fr slice class) as [|o l] eqn:Hfr; cbn [free_chain] in Hch.
  - rewrite Hch. cbn [negb Z.eqb]. unfold checked_add at 1. pose proof (sk_index _ _ H) as Hi. pose proof (sk_max _ _ H) as Hm.
    rewrite (proj2 (Z.ltb_lt _ _)) by lia. cbv zeta.
    set (al := Z.ldiff (byte_index g + 7) 7).
    assert (byte_index g <= al <= byte_index g + 7) as Hal.
    { apply (align_up (byte_index g) 8 3); lia. }
    pose proof (chunk_size_class size) as Hcs. pose proof (class_size_range class Hk) as Hcr. fold class in Hcs. unfold checked_add.
    destruct (al + _ <? _) eqn:E1; [|exists g, (inr SegmentExhausted); done].
    destruct ((max_byte_index g <=? al + (CHUNK_HEADER_SIZE + chunk_size size)) || _) eqn:E2; [exists g, (inr SegmentExhausted); done|].
    apply orb_false_iff in E2 as [E2%Z.leb_gt E3%Z.ltb_ge].
    set (c := fifo_chunk start (chunk_size size) 0 u32_max u32_max). set (e := al + _).
    destruct (seg_ok_fresh g fr al c e H) as [Hnone Hok]; [lia|unfold e; cbn; lia|unfold e; lia|exists class; by rewrite <- Hcs|].
    eexists _, (inl al). split; [done|]. exists fr. constructor; try done.
    + constructor; cbn [byte_index chunks set_chunks set_byte_index]; [unfold e, CHUNK_HEADER_SIZE; lia|]. intros x c' [[<- <-]|[Hx Hc']]%lookup_insert_Some; [right; lia|left; by exists c'].
    + exists c. done.
    + by left.
    + intros x s k. split; [|tauto]. intros Hx. split; [done|]. intros ->. destruct (sk_known _ _ H al s k Hx) as [d Hd]. by rewrite Hnone in Hd.
  - destruct Hch as (Ho & c & Hc & Hlen & Hch). rewrite Ho. pose proof (sk_offset g fr o c H Hc) as (Ho1 & Ho2 & _).
    rewrite (proj2 (Z.eqb_neq o 0)) by lia. cbn [negb]. rewrite (offset_valid g fr o c H Hc). cbn [negb]. unfold chunk_at. rewrite Hc. cbn [mbind option_bind]. cbv zeta.
    destruct (pop_spec g fr slice sl class hd o l c size start H Hsl Hk Hhd Hfr Hc Hlen Hch) as (g' & fr' & E & Hal); [apply chunk_size_class|].
    exists g', (inl o). split; [exact E|]. by exists fr'.
Qed.

Record released g (fr : frees) g' (fr' : frees) (slice o : Z) : Prop := {
  rl_seg : seg_ok g' fr';
  rl_rest : same_rest g g';
  rl_grows : grows g g';
  rl_chunk : exists nxt, chunks g' = alter (set_c_next nxt) o (chunks g);
  rl_free x s k : x ∈ fr' s k <-> x ∈ fr s k \/ (x = o /\ s = slice /\ k = fs_chunk_class (default 0 (c_length <$> chunks g !! o)))
}.

Lemma release_chunk_spec g fr slice o c :
  seg_ok g fr -> 0 <= slice < vlen (slices g) -> chunks g !! o = Some c -> ~ is_free fr o ->
  exists g' fr', release_chunk g slice o = Some g' /\ released g fr g' fr' slice o.
Proof.
  intros H Hs Hc Hf. destruct (vget_in_range _ _ Hs) as [sl Hsl]. unfold release_chunk. rewrite Hsl. unfold chunk_at at 1. rewrite Hc. cbn [mbind option_bind].
  rewrite (offset_valid g fr o c H Hc). cbn [negb]. destruct (sk_chunk _ _ H o c Hc) as (_ & _ & k & Hk & Hlen).
  rewrite Hlen, (class_of_size k Hk). destruct (sk_free _ _ H slice sl k Hsl Hk) as (hd & Hhd & Hch). rewrite Hhd. cbn [mbind option_bind].
  unfold chunk_upd, chunk_at. rewrite Hc. cbn [mbind option_bind]. pose proof (sk_offset g fr o c H Hc) as (Ho1 & Ho2 & _).
  destruct (head_with_next hd o ltac:(lia)) as (nh & -> & Hnh). cbn [mbind option_bind]. set (g0 := set_chunks _ g).
  destruct (set_free_head_spec g0 slice sl k nh (class_size k) Hsl) as (g1 & sl1 & -> & R & Hch1 & Hb1 & Hs1 & Hs2 & Hk1 & Hk2); [by eexists|].
  exists g1, (upd_free fr slice k (o :: fr slice k)). split; [done|].
  assert (forall s k' x, x ∈ fr s k' -> x <> o) as Hne by (intros s k' x Hx ->; apply Hf; by exists s, k').
  assert (same_rest g g1) as R1 by (destruct R; by constructor). constructor; [|done| | |].
  - apply (seg_ok_relist g g1 fr slice k); rewrite ?Hch1; cbn [chunks set_chunks g0]; try done.
    + intros x c' [[<- <-]|[Hx Hc']]%lookup_insert_Some; [by exists c|by exists c'].
    + intros x Hx. apply lookup_insert_is_Some'. by right.
    + intros s k' x _ Hx. apply lookup_insert_ne. intros ->. by eapply Hne.
    + intros s sl' k' Hs' Hk' Hn. destruct (decide (s = slice)) as [->|Hns].
      * rewrite Hs1 in Hs'. injection Hs' as <-. destruct (sk_free _ _ H slice sl k' Hsl Hk') as (hd' & Hh' & _). exists sl, hd'. rewrite Hk2 by tauto. done.
      * rewrite Hs2 in Hs' by done. destruct (sk_free _ _ H s sl' k' Hs' Hk') as (hd' & Hh' & _). by exists sl', hd'.
    + intros sl' Hs'. rewrite Hs1 in Hs'. injection Hs' as <-. exists nh. split; [done|]. rewrite Hnh. cbn [free_chain]. split; [done|].
      eexists. rewrite lookup_insert_eq. split; [done|]. split; [done|]. cbn.
      eapply free_chain_ext; [|exact Hch]. intros x Hx. apply lookup_insert_ne. intros ->. by eapply Hne.
    + apply NoDup_cons. split; [intros Hin; by eapply Hne|apply (sk_nodup _ _ H)].
    + intros x [->|Hx]%elem_of_cons.
      * split; [by eexists|]. intros s k' Hx. by destruct (Hne _ _ _ Hx).
      * split; [by eapply (sk_known _ _ H)|]. intros s k' Hx2. by eapply (sk_once _ _ H).
  - apply grows_kept; [rewrite Hb1; cbn; lia|]. rewrite Hch1. cbn. intros x c' [[<- <-]|[Hx Hc']]%lookup_insert_Some; [by exists c|by exists c'].
  - exists (fs_head_offset hd). rewrite Hch1. cbn. apply map_eq. intros x. destruct (decide (x = o)) as [->|Hx].
    + by rewrite lookup_insert_eq, lookup_alter_eq, Hc.
    + by rewrite lookup_insert_ne, lookup_alter_ne.
  - intros x s k'. rewrite Hc. cbn [default fmap option_fmap option_map]. cbn. rewrite Hlen, (class_of_size k Hk). unfold upd_free. case_decide as E.
    + destruct E as [-> ->]. rewrite elem_of_cons. tauto.
    + split; [tauto|]. intros [Hx|(-> & -> & ->)]; [done|by destruct E].
Qed.


(** ** Ownership

    A caller owns some chunks; a call turns the chunks [own] into [own'].  The
    chunks of others, that is the known ones that are neither owned nor free,
    stay as they are and stay theirs, and no chunk is lost. *)

Record moved (own own' : list Z) g (fr : frees) g' (fr' : frees) : Prop := {
  mv_rest : same_rest g g';
  mv_grows : grows g g';
  mv_keep o c : chunks g !! o = Some c -> o ∉ own -> ~ is_free fr o -> chunks g' !! o = Some c /\ (o ∉ own') /\ ~ is_free fr' o;
  mv_live o : is_Some (chunks g' !! o) -> o ∈ own \/ is_free fr o \/ chunks g !! o = None -> o ∈ own' \/ is_free fr' o
}.

Lemma moved_refl own g fr : moved own own g fr g fr.
Proof. constructor; try done. intros o [c Hc] [?|[?|?]]; [by left|by right|congruence]. Qed.

#[export] Hint Resolve moved_refl : core.

Lemma moved_trans own1 own2 own3 g1 fr1 g2 fr2 g3 fr3 :
  moved own1 own2 g1 fr1 g2 fr2 -> moved own2 own3 g2 fr2 g3 fr3 -> moved own1 own3 g1 fr1 g3 fr3.
Proof.
  intros A B. constructor; [etransitivity; [apply (mv_rest _ _ _ _ _ _ A)|apply (mv_rest _ _ _ _ _ _ B)]|etransitivity; [apply (mv_grows _ _ _ _ _ _ A)|apply (mv_grows _ _ _ _ _ _ B)]| |].
  - intros o c Hc Ho Hf. destruct (mv_keep _ _ _ _ _ _ A o c Hc Ho Hf) as (H1 & H2 & H3). by apply (mv_keep _ _ _ _ _ _ B).
  - intros o H3 Ho. apply (mv_live _ _ _ _ _ _ B o H3). destruct (chunks g2 !! o) as [c|] eqn:E; [|by right; right].
    destruct (mv_live _ _ _ _ _ _ A o ltac:(by eexists) Ho); tauto.
Qed.

(** Only which chunks are owned matters. *)
#[export] Instance moved_proper : Proper ((≡ₚ) ==> (≡ₚ) ==> eq ==> eq ==> eq ==> eq ==> iff) moved.
Proof.
  assert (forall o1 o1' o2 o2' g fr g' fr', o1 ≡ₚ o1' -> o2 ≡ₚ o2' -> moved o1 o2 g fr g' fr' -> moved o1' o2' g fr g' fr') as H.
  { intros o1 o1' o2 o2' g fr g' fr' E1 E2 []. constructor; [done|done| |]; setoid_rewrite <- E1; setoid_rewrite <- E2; done. }
  intros o1 o1' E1 o2 o2' E2 g ? <- fr ? <- g' ? <- fr' ? <-. split; by apply H.
Qed.

Lemma moved_alloc own g fr g' fr' o start size : allocated g fr g' fr' o start size -> moved own (own ++ [o]) g fr g' fr'.
Proof.
  intros [A1 A2 A3 (c & Ec & _) A4 A5]. constructor; [done|done| |].
  - intros x d Hd Hx Hf. assert (x <> o) as Hne by (intros ->; destruct A4 as [A4|A4]; [congruence|done]). rewrite Ec, lookup_insert_ne by done.
    split_and!; [done| |].
    + by rewrite elem_of_app, list_elem_of_singleton; intros [?|?].
    + intros (s & k & Hx'). apply A5 in Hx' as [Hx' _]. apply Hf. by exists s, k.
  - intros x Hk Hx. destruct (decide (x = o)) as [->|Hne]; [left; apply elem_of_app; right; left|]. rewrite Ec, lookup_insert_ne in Hk by done. destruct Hk as [d Hd].
    destruct Hx as [Hx|[(s & k & Hx)|Hx]]; [left; apply elem_of_app; by left| |congruence]. right. exists s, k. by apply A5.
Qed.

Lemma moved_release own g fr g' fr' slice o : released g fr g' fr' slice o -> moved (o :: own) own g fr g' fr'.
Proof.
  intros [A1 A2 A3 (nxt & Ec) A4]. constructor; [done|done| |].
  - intros x d Hd [Hx Hown]%not_elem_of_cons Hf. rewrite Ec, lookup_alter_ne by done. split_and!; [done|done|].
    intros (s & k & [Hx'|(Hx' & _)]%A4); [apply Hf; by exists s, k|done].
  - rewrite Ec. intros x Hk [[->|Hx]%elem_of_cons|[(s & k & Hx)|Hx]]; [right|by left|right; exists s, k; apply A4; by left|].
    2:{ apply lookup_alter_is_Some in Hk as [d Hd]. congruence. }
    eexists slice, _. apply A4. right. split_and!; [done|done|]. reflexivity.
Qed.

Lemma seg_ok_upd g fr o c u :
  seg_ok g fr -> chunks g !! o = Some c -> ~ is_free fr o -> (forall c, c_length (u c) = c_length c) ->
  exists g', chunk_upd g o u = Some g' /\ seg_ok g' fr /\ chunks g' = <[o := u c]> (chunks g) /\
    same_rest g g' /\ (forall own, o ∈ own -> moved own own g fr g' fr).
Proof.
  intros H Hc Hf Hu. unfold chunk_upd, chunk_at. rewrite Hc. cbn [mbind option_bind]. eexists. split; [done|].
  assert (forall s k x, x ∈ fr s k -> x <> o) as Hne by (intros s k x Hx ->; apply Hf; by exists s, k).
  assert (forall x d, <[o := u c]> (chunks g) !! x = Some d -> exists d0, chunks g !! x = Some d0 /\ c_length d = c_length d0) as Hsame.
  { intros x d [[<- <-]|[Hx Hd]]%lookup_insert_Some; [exists c; by rewrite Hu|by exists d]. }
  split_and!.
  - constructor; cbn [chunks byte_index max_byte_index slices set_chunks].
    + intros x d Hd. destruct (Hsame x d Hd) as (d0 & Hd0 & ->). by apply (sk_chunk _ _ H).
    + intros x d x' d' Hd Hd' Hlt. destruct (Hsame x d Hd) as (d0 & Hd0 & ->). destruct (Hsame x' d' Hd') as (d0' & Hd0' & _). by eapply (sk_apart _ _ H).
    + apply (sk_index _ _ H).
    + apply (sk_max _ _ H).
    + intros s sl k Hs Hk. destruct (sk_free _ _ H s sl k Hs Hk) as (hd & Hhd & Hch). exists hd. split; [done|].
      eapply free_chain_ext; [|done]. intros x Hx. apply lookup_insert_ne. intros ->. by eapply Hne.
    + apply (sk_nodup _ _ H).
    + apply (sk_once _ _ H).
    + intros x s k Hx. apply lookup_insert_is_Some'. right. by eapply (sk_known _ _ H).
    + apply (sk_range _ _ H).
  - done.
  - by constructor.
  - intros own Ho. constructor; [by constructor|apply grows_kept; [done|]; intros x d Hd; destruct (Hsame x d Hd) as (d0 & ? & ?); by exists d0| |]. 2:{ intros x [d Hd] [?|[?|Hx]]; [by left|by right|]. destruct (Hsame x d Hd) as (d0 & ? & _). congruence. } intros x d Hd Hx Hfx. cbn. rewrite lookup_insert_ne by (by intros ->). done.
Qed.

End SvmMemoryProofs.
