(* ===== verification/SvmFifo.v ===== *)
(** * The shared-memory byte FIFO ([crates/hammer-infra/src/svm/fifo.rs])

    A FIFO is a chain of chunks of a segment, linked by offsets, and two 32-bit
    byte counters: the consumer's [head] and the producer's [tail].  The
    producer appends chunks at the end of the chain as it needs them, the
    consumer returns the ones it has read to the segment.  A process keeps with
    the shared header its own state: two trees that map positions to chunks and
    the list of segments written ahead of the tail.

    Operations take and return the segment and the process's FIFO state; [None]
    is a panic.  Loops along the chain take the number of chunks of the segment
    as fuel. *)

From S2P Require Import Prelude InfraBitmap InfraPool InfraRbTree SvmOoo SvmMemory.

Module SvmFifo.
Import SvmOoo SvmMemory.

Definition lookup_tree : Type := @RbTree.t Z Z.

Record Fifo : Type := mk_fifo {
  hdr_off : Z;
  ooo_enq_lookup : lookup_tree;
  ooo_deq_lookup : lookup_tree;
  ooo_list : ooo;
  ooo_base : Z
}.
Definition set_enq_lookup (x : lookup_tree) (f : Fifo) : Fifo :=
  mk_fifo (hdr_off f) x (ooo_deq_lookup f) (ooo_list f) (ooo_base f).
Definition set_deq_lookup (x : lookup_tree) (f : Fifo) : Fifo :=
  mk_fifo (hdr_off f) (ooo_enq_lookup f) x (ooo_list f) (ooo_base f).
Definition set_ooo (x : ooo) (f : Fifo) : Fifo :=
  mk_fifo (hdr_off f) (ooo_enq_lookup f) (ooo_deq_lookup f) x (ooo_base f).
Definition set_newest (x : Z) (f : Fifo) : Fifo :=
  set_ooo (mk_ooo (ooo_segments (ooo_list f)) (ooos_list_head (ooo_list f)) x) f.

Definition lookup_insert_ (t : lookup_tree) (k v : Z) : option lookup_tree :=
  '(t, _) ← RbTree.insert Z.compare t k v; Some t.
Definition lookup_remove (t : lookup_tree) (k : Z) : option lookup_tree :=
  '(t, _) ← RbTree.remove Z.compare t k; Some t.

Section Ops.
(** Whether the processor has AVX2. *)
Variable avx2 : bool.

(** ** Lookup trees *)

Fixpoint clear_tree (n : nat) (t : lookup_tree) : option lookup_tree :=
  match n with
  | O => None
  | S n' =>
    e ← RbTree.first t;
    match e with
    | None => Some t
    | Some (key, _) => t ← lookup_remove t key; clear_tree n' t
    end
  end.

Fixpoint index_chunks (n : nat) (g : segment) (enq deq : lookup_tree) (chunk_off : Z) : option (lookup_tree * lookup_tree) :=
  match n with
  | O => None
  | S n' =>
    if chunk_off =? 0 then Some (enq, deq) else
    chunk ← chunk_at g chunk_off;
    enq ← lookup_insert_ enq (c_start_byte chunk) (wrap 32 chunk_off);
    deq ← lookup_insert_ deq (c_start_byte chunk) (wrap 32 chunk_off);
    index_chunks n' g enq deq (c_next chunk)
  end.

Definition initialize_chunk_lookups (g : segment) (f : Fifo) : option Fifo :=
  enq ← clear_tree (RbTree.fuel (ooo_enq_lookup f)) (ooo_enq_lookup f);
  deq ← clear_tree (RbTree.fuel (ooo_deq_lookup f)) (ooo_deq_lookup f);
  h ← hdr_at g (hdr_off f);
  '(enq, deq) ← index_chunks (chunk_fuel g) g enq deq (h_start_chunk h);
  Some (set_deq_lookup deq (set_enq_lookup enq f)).

(** ** The size of the queue *)

Definition f_cursize (head tail : Z) : Z := wsub32 tail head.
Definition f_free_count (h : SvmFifoShared) (head tail : Z) : Z := saturating_sub (h_size h) (f_cursize head tail).

Definition max_dequeue (g : segment) (f : Fifo) : option Z :=
  h ← hdr_at g (hdr_off f); Some (wsub32 (h_tail h) (h_head h)).
Definition max_enqueue (g : segment) (f : Fifo) : option Z :=
  h ← hdr_at g (hdr_off f); checked_sub (h_size h) (wsub32 (h_tail h) (h_head h)).
Definition is_empty (g : segment) (f : Fifo) : option bool := n ← max_dequeue g f; Some (n =? 0).
Definition is_full (g : segment) (f : Fifo) : option bool := n ← max_enqueue g f; Some (n =? 0).
Definition size (g : segment) (f : Fifo) : option Z := h ← hdr_at g (hdr_off f); Some (h_size h).

Definition set_size (g : segment) (f : Fifo) (size : Z) : option (segment * (unit + FifoError)) :=
  if (size =? 0) || (u32_max <? size) then Some (g, inr (CapacityOutOfRange size)) else
  used ← max_dequeue g f;
  if size <? used then Some (g, inr (InsufficientCapacity used size)) else
  g ← hdr_upd g (hdr_off f) (set_size_ (wrap 32 size)); Some (g, inl tt).

(** ** Growing the chain *)

(** Rebases the only chunk of an empty FIFO whose bytes are all read. *)
Definition prepare_empty_tail_chunk (g : segment) (f : Fifo) (tail : Z) : option segment :=
  h ← hdr_at g (hdr_off f);
  let chunk_off := h_tail_chunk h in
  if chunk_off =? 0 then Some g else
  chunk ← chunk_at g chunk_off;
  if negb (c_next chunk =? 0) then Some g else
  let visible_len := wsub32 tail (c_start_byte chunk) in
  if negb (c_start_byte chunk =? tail) && (c_length chunk <=? visible_len)
  then chunk_upd g chunk_off (set_c_start tail) else Some g.

Fixpoint release_list (n : nat) (g : segment) (slice first : Z) : option segment :=
  match n with
  | O => None
  | S n' =>
    if first =? 0 then Some g else
    chunk ← chunk_at g first;
    let next := c_next chunk in
    g ← release_chunk g slice first;
    release_list n' g slice next
  end.

(** The chunks appended so far run from [first] to [last]. *)
Fixpoint grow_loop (n : nat) (g : segment) (slice min_alloc free target first last end_byte : Z)
  : option (segment * ((Z * Z) + FifoError)) :=
  match n with
  | O => None
  | S n' =>
    if negb (f_pos_gt target end_byte) then Some (g, inl (first, last)) else
    let missing := wsub32 target end_byte in
    let requested := Z.min (Z.max (Z.min min_alloc free) missing) (Z.shiftl 1 FS_MAX_LOG2_CHUNK_SIZE) in
    '(g, r) ← allocate_chunk g slice requested end_byte;
    match r with
    | inr source => g ← release_list (chunk_fuel g) g slice first; Some (g, inr source)
    | inl chunk_offset =>
      g ← (if last =? 0 then Some g else chunk_upd g last (set_c_next chunk_offset));
      let first := if last =? 0 then chunk_offset else first in
      chunk ← chunk_at g chunk_offset;
      grow_loop n' g slice min_alloc free target first chunk_offset (f_chunk_end chunk)
    end
  end.

Definition ensure_chunk_capacity (g : segment) (f : Fifo) (head tail len : Z) : option (segment * (unit + FifoError)) :=
  if len =? 0 then Some (g, inl tt) else
  h ← hdr_at g (hdr_off f);
  let old_end_offset := h_end_chunk h in
  old_end ← chunk_at g old_end_offset;
  let end_byte := f_chunk_end old_end in
  let target := wadd32 tail (wrap 32 len) in
  if negb (f_pos_gt target end_byte) then Some (g, inl tt) else
  free ← checked_sub (h_size h) (wsub32 tail head);
  let rounds := Z.to_nat (wsub32 target end_byte / Z.shiftl 1 FS_MIN_LOG2_CHUNK_SIZE + 2) in
  '(g, r) ← grow_loop rounds g (h_slice_index h) (h_min_alloc h) free target 0 0 end_byte;
  match r with
  | inr e => Some (g, inr e)
  | inl (first, last) =>
    g ← chunk_upd g old_end_offset (set_c_next first);
    g ← hdr_upd g (hdr_off f) (set_end_chunk last);
    Some (g, inl tt)
  end.

(** ** Writing *)

Fixpoint append_loop (n : nat) (g : segment) (f : Fifo) (chunk_off offset : Z) (src : list Z) (written : Z) : option (segment * Z) :=
  match n with
  | O => None
  | S n' =>
    match src with
    | [] => Some (g, written)
    | _ =>
      if chunk_off =? 0 then Some (g, written) else
      chunk ← chunk_at g chunk_off;
      let chunk_end := f_chunk_end chunk in
      if f_pos_geq offset chunk_end then
        let next_off := c_next chunk in
        reached ← (if negb (next_off =? 0) then next ← chunk_at g next_off; Some (f_pos_geq offset (c_start_byte next))
                   else Some false);
        if (reached : bool) then
          g ← hdr_upd g (hdr_off f) (set_tail_chunk next_off);
          append_loop n' g f next_off offset src written
        else Some (g, written)
      else if negb (f_chunk_includes_pos chunk offset) && negb (offset =? chunk_end) then Some (g, written)
      else
        let data_off := wsub32 offset (c_start_byte chunk) in
        chunk_avail ← checked_sub (c_length chunk) data_off;
        let to_write := Z.min (vlen src) chunk_avail in
        '(g, _) ← svm_fifo_copy_to_chunk avx2 g chunk_off offset src (wrap 32 to_write) 0;
        append_loop n' g f chunk_off (wadd32 offset (wrap 32 to_write)) (drop (Z.to_nat to_write) src) (written + to_write)
    end
  end.

Definition append_at_tail_without_tail_store (g : segment) (f : Fifo) (offset : Z) (src : list Z) : option (segment * Z) :=
  match src with
  | [] => Some (g, 0)
  | _ => h ← hdr_at g (hdr_off f); append_loop (2 * chunk_fuel g) g f (h_tail_chunk h) offset src 0
  end.

Fixpoint clear_enq_loop (n : nat) (g : segment) (lookup : lookup_tree) (chunk_off end_pos : Z) : option (lookup_tree * Z) :=
  match n with
  | O => None
  | S n' =>
    if chunk_off =? 0 then Some (lookup, chunk_off) else
    chunk ← chunk_at g chunk_off;
    if f_chunk_includes_pos chunk end_pos then Some (lookup, chunk_off) else
    let next := c_next chunk in
    if next =? 0 then Some (lookup, chunk_off) else
    lookup ← lookup_remove lookup (c_start_byte chunk);
    clear_enq_loop n' g lookup next end_pos
  end.

Definition clear_enq_chunks (g : segment) (f : Fifo) (start_chunk end_pos : Z) : option (segment * Fifo) :=
  '(lookup, chunk_off) ← clear_enq_loop (chunk_fuel g) g (ooo_enq_lookup f) start_chunk end_pos;
  if negb (chunk_off =? 0) then
    chunk ← chunk_at g chunk_off;
    lookup ← (if ooos_list_head (ooo_list f) =? OOO_SEGMENT_INVALID_INDEX
              then lookup_remove lookup (c_start_byte chunk) else Some lookup);
    g ← hdr_upd g (hdr_off f) (set_tail_chunk chunk_off);
    Some (g, set_enq_lookup lookup f)
  else Some (g, set_enq_lookup lookup f).

(** The end of every in-order write: the tail moves over the new bytes and
    over the out-of-order segments they reach. *)
Definition publish_tail (g : segment) (f : Fifo) (old_tail_chunk new_tail : Z) : option (segment * Fifo * Z) :=
  '(o, collected) ← promote_contiguous_from (ooo_list f) new_tail;
  let f := set_ooo o f in
  let final_tail := wadd32 new_tail collected in
  '(g, f) ← clear_enq_chunks g f old_tail_chunk final_tail;
  g ← hdr_upd g (hdr_off f) (set_tail final_tail);
  Some (g, f, collected).

Definition enqueue_in_order (g : segment) (f : Fifo) (src : list Z) : option (segment * Fifo * (Z * Z)) :=
  let f := set_newest OOO_SEGMENT_INVALID_INDEX f in
  match src with
  | [] => Some (g, f, (0, 0))
  | _ =>
    h ← hdr_at g (hdr_off f);
    let head := h_head h in
    let tail := h_tail h in
    g ← (if head =? tail then prepare_empty_tail_chunk g f tail else Some g);
    let used := wsub32 tail head in
    free ← checked_sub (h_size h) used;
    let to_write := Z.min (vlen src) free in
    if to_write =? 0 then Some (g, f, (0, 0)) else
    '(g, r) ← ensure_chunk_capacity g f head tail to_write;
    to_write ← match r with
               | inl _ => Some to_write
               | inr _ =>
                 h ← hdr_at g (hdr_off f);
                 last ← chunk_at g (h_end_chunk h);
                 Some (Z.min to_write (wsub32 (f_chunk_end last) tail))
               end;
    if to_write =? 0 then Some (g, f, (0, 0)) else
    h ← hdr_at g (hdr_off f);
    let old_tail_chunk := h_tail_chunk h in
    '(g, written) ← append_at_tail_without_tail_store g f tail (take (Z.to_nat to_write) src);
    if written =? 0 then Some (g, f, (0, 0)) else
    let new_tail := wadd32 tail (wrap 32 written) in
    '(g, f, collected) ← publish_tail g f old_tail_chunk new_tail;
    Some (g, f, (written, collected))
  end.

Definition enqueue (g : segment) (f : Fifo) (src : list Z) : option (segment * Fifo * Z) :=
  '(g, f, (copied, promoted)) ← enqueue_in_order g f src; Some (g, f, copied + promoted).

Definition enqueue_nocopy (g : segment) (f : Fifo) (len : Z) : option (segment * Fifo * (unit + FifoError)) :=
  let f := set_newest OOO_SEGMENT_INVALID_INDEX f in
  available ← max_enqueue g f;
  if available <? len then Some (g, f, inr (InsufficientCapacity len available)) else
  h ← hdr_at g (hdr_off f);
  '(g, f, _) ← publish_tail g f (h_tail_chunk h) (wadd32 (h_tail h) (wrap 32 len));
  Some (g, f, inl tt).

Fixpoint enqueue_segments_loop (g : segment) (f : Fifo) (total copied : Z) (segments : list (list Z)) : option (segment * (Z + FifoError)) :=
  match segments with
  | [] => Some (g, inl copied)
  | source :: segments' =>
    match checked_add 64 copied (vlen source) with
    | None => Some (g, inr (CapacityOutOfRange u64_max))
    | Some next =>
      if total <? next then Some (g, inr SegmentExhausted) else
      h ← hdr_at g (hdr_off f);
      '(g, written) ← append_at_tail_without_tail_store g f (wadd32 (h_tail h) (wrap 32 copied)) source;
      if negb (written =? vlen source) then Some (g, inr SegmentExhausted)
      else enqueue_segments_loop g f total (copied + written) segments'
    end
  end.

Definition enqueue_segments (g : segment) (f : Fifo) (total : Z) (segments : list (list Z)) : option (segment * Fifo * (Z + FifoError)) :=
  available ← max_enqueue g f;
  if available <? total then Some (g, f, inr (InsufficientCapacity total available)) else
  h ← hdr_at g (hdr_off f);
  g ← (if h_head h =? h_tail h then prepare_empty_tail_chunk g f (h_tail h) else Some g);
  '(g, r) ← ensure_chunk_capacity g f (h_head h) (h_tail h) total;
  match r with
  | inr e => Some (g, f, inr e)
  | inl _ =>
    '(g, r) ← enqueue_segments_loop g f total 0 segments;
    match r with
    | inr e => Some (g, f, inr e)
    | inl copied =>
      if negb (copied =? total) then Some (g, f, inr SegmentExhausted) else
      '(g, f, r) ← enqueue_nocopy g f total;
      Some (g, f, match r with inr e => inr e | inl _ => inl copied end)
    end
  end.

(** ** Writing ahead of the tail *)

Fixpoint seek_loop (n : nat) (g : segment) (chunk_off offset : Z) : option Z :=
  match n with
  | O => None
  | S n' =>
    if chunk_off =? 0 then Some chunk_off else
    chunk ← chunk_at g chunk_off;
    if f_chunk_includes_pos chunk offset then Some chunk_off else seek_loop n' g (c_next chunk) offset
  end.

Fixpoint write_loop (n : nat) (g : segment) (chunk_off offset : Z) (src : list Z) (written : Z) : option (segment * Z) :=
  match n with
  | O => None
  | S n' =>
    match src with
    | [] => Some (g, written)
    | _ =>
      if chunk_off =? 0 then Some (g, written) else
      chunk ← chunk_at g chunk_off;
      if f_chunk_includes_pos chunk offset then
        let data_off := wsub32 offset (c_start_byte chunk) in
        chunk_avail ← checked_sub (c_length chunk) data_off;
        let to_write := Z.min (vlen src) chunk_avail in
        '(g, _) ← svm_fifo_copy_to_chunk avx2 g chunk_off offset src (wrap 32 to_write) 0;
        write_loop n' g (c_next chunk) (wadd32 offset (wrap 32 to_write)) (drop (Z.to_nat to_write) src) (written + to_write)
      else write_loop n' g (c_next chunk) offset src written
    end
  end.

(** The chunk the lookup tree gives for a position, or the tail chunk. *)
Definition seek_start (g : segment) (f : Fifo) (offset : Z) : option Z :=
  h ← hdr_at g (hdr_off f);
  exact ← RbTree.get Z.compare (ooo_enq_lookup f) offset;
  hit ← match exact with
        | Some v => Some (Some v)
        | None => e ← RbTree.predecessor Z.compare (ooo_enq_lookup f) offset; Some (option_map snd e)
        end;
  let chunk_off := default 0 hit in
  chunk_off ← (if negb (chunk_off =? 0) then
                 chunk ← chunk_at g chunk_off; Some (if negb (f_chunk_includes_pos chunk offset) then 0 else chunk_off)
               else Some chunk_off);
  Some (if chunk_off =? 0 then h_tail_chunk h else chunk_off).

Definition write_at_without_tail_store (g : segment) (f : Fifo) (offset : Z) (src : list Z) : option (segment * Z) :=
  match src with
  | [] => Some (g, 0)
  | _ =>
    chunk_off ← seek_start g f offset;
    chunk_off ← seek_loop (chunk_fuel g) g chunk_off offset;
    write_loop (chunk_fuel g) g chunk_off offset src 0
  end.

Record OooResult : Type := ooo_result { accepted : Z; delivered : Z; res_start : option Z; res_len : Z }.

Definition enqueue_ooo (g : segment) (f : Fifo) (offset : Z) (src : list Z) : option (segment * Fifo * (OooResult + FifoError)) :=
  if u32_max <? vlen src then Some (g, f, inr (OutOfOrderLengthOutOfRange (vlen src))) else
  let length := vlen src in
  if offset =? 0 then
    '(g, f, (a, d)) ← enqueue_in_order g f src;
    Some (g, f, inl (ooo_result (wrap 32 a) (wrap 32 d) None 0))
  else
    available ← max_enqueue g f;
    if (available <? offset) || (saturating_sub available offset <? vlen src) then
      Some (g, f, inr (OutOfOrderCapacityExceeded (wadd32 offset length) available)) else
    h ← hdr_at g (hdr_off f);
    let tail := h_tail h in
    '(g, r) ← ensure_chunk_capacity g f (h_head h) tail (offset + vlen src);
    match r with
    | inr e => Some (g, f, inr e)
    | inl _ =>
      let abs_start := wadd32 tail offset in
      '(g, written) ← write_at_without_tail_store g f abs_start src;
      if negb (written =? vlen src) then Some (g, f, inr SegmentExhausted) else
      '(o, newest) ← add_ooo_segment (ooo_list f) tail offset length;
      Some (g, set_ooo o f, inl (ooo_result length 0 (option_map fst newest) (match newest with Some (_, len) => len | None => 0 end)))
    end.

Definition enqueue_with_offset (g : segment) (f : Fifo) (offset len : Z) (src : list Z) : option (segment * Fifo * (Z + FifoError)) :=
  let requested := Z.min len (vlen src) in
  '(g, f, r) ← enqueue_ooo g f offset (take (Z.to_nat requested) src);
  Some (g, f, match r with inl r => inl (accepted r) | inr e => inr e end).

Definition promote_contiguous (g : segment) (f : Fifo) : option (segment * Fifo * Z) :=
  h ← hdr_at g (hdr_off f);
  let tail := h_tail h in
  let old_tail_chunk := h_tail_chunk h in
  '(o, collected) ← promote_contiguous_from (ooo_list f) tail;
  let f := set_ooo o f in
  if negb (collected =? 0) then
    let final_tail := wadd32 tail collected in
    '(g, f) ← clear_enq_chunks g f old_tail_chunk final_tail;
    g ← hdr_upd g (hdr_off f) (set_tail final_tail);
    Some (g, f, collected)
  else Some (g, f, collected).

Definition overwrite_head (g : segment) (f : Fifo) (src : list Z) : option (segment * Z) :=
  h ← hdr_at g (hdr_off f); write_at_without_tail_store g f (h_head h) src.

(** ** Reading *)

Fixpoint peek_loop (n : nat) (g : segment) (chunk_off pos left_ copied : Z) : option (list Z * Z) :=
  match n with
  | O => None
  | S n' =>
    if (left_ =? 0) || (chunk_off =? 0) then Some ([], copied) else
    chunk ← chunk_at g chunk_off;
    if f_chunk_includes_pos chunk pos then
      let used := wsub32 pos (c_start_byte chunk) in
      chunk_avail ← checked_sub (c_length chunk) used;
      let to_read := Z.min left_ chunk_avail in
      '(out, _) ← svm_fifo_copy_from_chunk avx2 g chunk_off pos (wrap 32 to_read) 0;
      '(rest, copied) ← peek_loop n' g (c_next chunk) (wadd32 pos (wrap 32 to_read)) (left_ - to_read) (copied + to_read);
      Some (out ++ rest, copied)
    else peek_loop n' g (c_next chunk) pos left_ copied
  end.

(** Returns the destination after the call and the number of bytes copied to
    its beginning. *)
Definition peek (g : segment) (f : Fifo) (offset len : Z) (dst : list Z) : option (list Z * Z) :=
  h ← hdr_at g (hdr_off f);
  let head := h_head h in
  let available := wsub32 (h_tail h) head in
  if available <=? offset then Some (dst, 0) else
  let to_copy := Z.min (Z.min len (vlen dst)) (available - offset) in
  if to_copy =? 0 then Some (dst, 0) else
  let logical_pos := wadd32 head (wrap 32 offset) in
  '(out, copied) ← peek_loop (chunk_fuel g) g (h_head_chunk h) logical_pos to_copy 0;
  Some (out ++ drop (length out) dst, copied).

(** Slices are the offset of their first byte and their length.  The flag says
    whether the source returns them: the bytes are all covered, or the output
    is full. *)
Fixpoint more_segments (n : nat) (g : segment) (chunk_off remaining room : Z) : option (list (Z * Z) * bool) :=
  match n with
  | O => None
  | S n' =>
    if (chunk_off =? 0) || (remaining =? 0) then Some ([], remaining =? 0) else
    if room =? 0 then Some ([], true) else
    next ← chunk_at g chunk_off;
    let next_len := Z.min remaining (c_length next) in
    '(rest, ok) ← more_segments n' g (c_next next) (remaining - next_len) (room - 1);
    Some ((chunk_off + CHUNK_HEADER_SIZE, next_len) :: rest, ok)
  end.

Definition readable_segments (g : segment) (f : Fifo) (offset output_len : Z) : option (list (Z * Z) + FifoError) :=
  if output_len =? 0 then Some (inr InvalidCapacity) else
  h ← hdr_at g (hdr_off f);
  let head := h_head h in
  let available := wsub32 (h_tail h) head in
  if available <=? offset then Some (inl []) else
  let to_read := available - offset in
  logical_pos ← checked_add 32 head (wrap 32 offset);
  chunk_off ← seek_loop (chunk_fuel g) g (h_head_chunk h) logical_pos;
  if chunk_off =? 0 then Some (inr SegmentExhausted) else
  chunk ← chunk_at g chunk_off;
  let data_off := wsub32 logical_pos (c_start_byte chunk) in
  chunk_avail ← checked_sub (c_length chunk) data_off;
  let first_len := Z.min to_read chunk_avail in
  let first := (chunk_off + CHUNK_HEADER_SIZE + data_off, first_len) in
  let remaining := to_read - first_len in
  if remaining =? 0 then Some (inl [first]) else
  '(rest, ok) ← more_segments (chunk_fuel g) g (c_next chunk) remaining (output_len - 1);
  if (ok : bool) then Some (inl (first :: rest)) else Some (inr SegmentExhausted).

Fixpoint drop_loop (n : nat) (g : segment) (f : Fifo) (chunk_off new_head tail : Z) : option (segment * Fifo) :=
  match n with
  | O => None
  | S n' =>
    if chunk_off =? 0 then Some (g, f) else
    chunk ← chunk_at g chunk_off;
    let chunk_end := f_chunk_end chunk in
    if f_pos_geq new_head chunk_end then
      if negb (f_pos_gt tail chunk_end) then Some (g, f) else
      h ← hdr_at g (hdr_off f);
      if chunk_off =? h_tail_chunk h then Some (g, f) else
      let next_off := c_next chunk in
      if next_off =? 0 then Some (g, f) else
      g ← hdr_upd g (hdr_off f) (fun h => set_start_chunk next_off (set_head_chunk next_off h));
      deq ← lookup_remove (ooo_deq_lookup f) (c_start_byte chunk);
      let f := set_deq_lookup deq f in
      g ← release_chunk g (h_slice_index h) chunk_off;
      drop_loop n' g f next_off new_head tail
    else Some (g, f)
  end.

Definition drop_dequeue (g : segment) (f : Fifo) (len : Z) : option (segment * Fifo * Z) :=
  h ← hdr_at g (hdr_off f);
  let head := h_head h in
  let tail := h_tail h in
  let available := wsub32 tail head in
  let to_drop := Z.min len available in
  if to_drop =? 0 then Some (g, f, 0) else
  let new_head := wadd32 head (wrap 32 to_drop) in
  '(g, f) ← drop_loop (chunk_fuel g) g f (h_head_chunk h) new_head tail;
  g ← hdr_upd g (hdr_off f) (set_head new_head);
  Some (g, f, to_drop).

Definition dequeue (g : segment) (f : Fifo) (len : Z) (dst : list Z) : option (segment * Fifo * (list Z * Z)) :=
  '(dst, copied) ← peek g f 0 len dst;
  '(g, f, dropped) ← drop_dequeue g f copied;
  Some (g, f, (dst, dropped)).

Definition dequeue_drop_all (g : segment) (f : Fifo) : option (segment * Fifo * Z) :=
  n ← max_dequeue g f; drop_dequeue g f n.

(** ** Resetting *)

Fixpoint clear_segments (n : nat) (p : Pool.t OooSegment) : option (Pool.t OooSegment) :=
  match n with
  | O => None
  | S n' =>
    entries ← Pool.iter p;
    match entries with
    | [] => Some p
    | (index, _) :: _ => '(p, _) ← Pool.remove p index; clear_segments n' p
    end
  end.

Definition clear (g : segment) (f : Fifo) : option (segment * Fifo) :=
  h ← hdr_at g (hdr_off f);
  let first_chunk := h_start_chunk h in
  if first_chunk =? 0 then None else
  first ← chunk_at g first_chunk;
  let chunk_off := c_next first in
  g ← chunk_upd g first_chunk (set_c_next 0);
  g ← release_list (chunk_fuel g) g (h_slice_index h) chunk_off;
  g ← chunk_upd g first_chunk (set_c_start 0);
  g ← hdr_upd g (hdr_off f) (fun h =>
        set_signals (fifo_signals 0 0 0 (n_subscribers (h_signals h)) (subscribers_ (h_signals h)) (deq_thresh (h_signals h)))
          (set_end_chunk first_chunk (set_start_chunk first_chunk (set_tail_chunk first_chunk (set_head_chunk first_chunk
            (set_tail 0 (set_head 0 h)))))));
  p ← clear_segments (slots (ooo_segments (ooo_list f))) (ooo_segments (ooo_list f));
  let f := set_ooo (mk_ooo p OOO_SEGMENT_INVALID_INDEX OOO_SEGMENT_INVALID_INDEX) f in
  f ← initialize_chunk_lookups g f;
  Some (g, f).

Fixpoint rebase_loop (n : nat) (g : segment) (chunk_off start : Z) : option segment :=
  match n with
  | O => None
  | S n' =>
    if chunk_off =? 0 then Some g else
    current ← chunk_at g chunk_off;
    g ← chunk_upd g chunk_off (set_c_start start);
    rebase_loop n' g (c_next current) (wadd32 start (c_length current))
  end.

Definition init_pointers (g : segment) (f : Fifo) (head tail : Z) : option (segment * Fifo) :=
  g ← hdr_upd g (hdr_off f) (fun h => set_tail tail (set_head head h));
  h ← hdr_at g (hdr_off f);
  g ← rebase_loop (chunk_fuel g) g (h_head_chunk h) head;
  f ← initialize_chunk_lookups g f;
  Some (g, f).

Definition enable_ooo (g : segment) (f : Fifo) : option Fifo :=
  h ← hdr_at g (hdr_off f);
  Some (mk_fifo (hdr_off f) (ooo_enq_lookup f) (ooo_deq_lookup f) (ooo_list f) (h_tail h)).

(** ** Inspection *)

Definition n_ooo_segments (f : Fifo) : Z := ooo_enqueued (ooo_list f).
Definition has_ooo_data (f : Fifo) : bool := negb (n_ooo_segments f =? 0).
Definition first_ooo_segment (f : Fifo) : option (option OooSegment) :=
  Pool.get (ooo_segments (ooo_list f)) (ooos_list_head (ooo_list f)).

(** The source gives up after [size + 1] chunks, in case the chain has a
    cycle. *)
Fixpoint count_chunks (n : nat) (g : segment) (limit chunk_off count : Z) : option Z :=
  match n with
  | O => None
  | S n' =>
    if chunk_off =? 0 then Some count else
    chunk ← chunk_at g chunk_off;
    if limit <? count + 1 then Some (count + 1) else count_chunks n' g limit (c_next chunk) (count + 1)
  end.
Definition n_chunks (g : segment) (f : Fifo) : option Z :=
  h ← hdr_at g (hdr_off f);
  count_chunks (chunk_fuel g) g (saturating_add 64 (h_size h) 1) (h_start_chunk h) 0.
Definition is_sane (g : segment) (f : Fifo) : option bool :=
  h ← hdr_at g (hdr_off f);
  n ← n_chunks g f;
  Some ((f_cursize (h_head h) (h_tail h) <=? wrap 32 (h_size h)) && negb (n =? 0)).

(** ** Events and notifications *)

Definition sig_upd (g : segment) (f : Fifo) (u : SvmFifoSignals -> SvmFifoSignals) : option segment :=
  hdr_upd g (hdr_off f) (fun h => set_signals (u (h_signals h)) h).
Definition set_has_event (x : Z) (s : SvmFifoSignals) : SvmFifoSignals :=
  fifo_signals x (want_deq_ntf s) (has_deq_ntf s) (n_subscribers s) (subscribers_ s) (deq_thresh s).
Definition set_want_ntf (x : Z) (s : SvmFifoSignals) : SvmFifoSignals :=
  fifo_signals (has_event_ s) x (has_deq_ntf s) (n_subscribers s) (subscribers_ s) (deq_thresh s).
Definition set_has_ntf (x : Z) (s : SvmFifoSignals) : SvmFifoSignals :=
  fifo_signals (has_event_ s) (want_deq_ntf s) x (n_subscribers s) (subscribers_ s) (deq_thresh s).

Definition needs_deq_notification (g : segment) (f : Fifo) (dropped : Z) : option (segment * bool) :=
  if dropped =? 0 then Some (g, false) else
  h ← hdr_at g (hdr_off f);
  if want_deq_ntf (h_signals h) =? 1 then g ← sig_upd g f (set_want_ntf 0); Some (g, true) else Some (g, false).
Definition has_event (g : segment) (f : Fifo) : option bool :=
  h ← hdr_at g (hdr_off f); Some (negb (has_event_ (h_signals h) =? 0)).
Definition set_event (g : segment) (f : Fifo) : option (segment * bool) :=
  h ← hdr_at g (hdr_off f);
  g ← sig_upd g f (set_has_event 1); Some (g, has_event_ (h_signals h) =? 0).
Definition unset_event (g : segment) (f : Fifo) : option segment := sig_upd g f (set_has_event 0).
Definition want_deq_notification (g : segment) (f : Fifo) : option segment := sig_upd g f (set_want_ntf 1).
Definition clear_deq_notification (g : segment) (f : Fifo) : option segment := sig_upd g f (set_want_ntf 0).
Definition deq_threshold (g : segment) (f : Fifo) : option Z := h ← hdr_at g (hdr_off f); Some (deq_thresh (h_signals h)).
Definition has_deq_notification (g : segment) (f : Fifo) : option bool :=
  h ← hdr_at g (hdr_off f); Some (negb (has_deq_ntf (h_signals h) =? 0)).
Definition clear_deq_notification_flag (g : segment) (f : Fifo) : option segment := sig_upd g f (set_has_ntf 0).
Definition subscribers (g : segment) (f : Fifo) : option (list Z) :=
  h ← hdr_at g (hdr_off f); vslice (subscribers_ (h_signals h)) 0 (n_subscribers (h_signals h)).

End Ops.

(** ** Creating the process's state *)

Definition new_state (hdr_offset : Z) : option Fifo :=
  enq ← RbTree.with_capacity 0 0 4;
  deq ← RbTree.with_capacity 0 0 4;
  Some (mk_fifo hdr_offset enq deq ooo_new 0).

(** [size_of::<SvmFifoShared>()] *)
Definition FIFO_HEADER_SIZE : Z := 256.

(** [fs_offset] is the offset of the segment header in the mapping, whose size
    is [ssvm_size]. *)
Definition init_at_svm_shared (g : segment) (fs_offset ssvm_size hdr_offset capacity start_chunk end_chunk : Z)
  : option (segment * (Fifo + FifoError)) :=
  if (capacity =? 0) || (u32_max <? capacity) then Some (g, inr InvalidCapacity) else
  let max := max_byte_index g in
  if negb (fs_offset_is_valid hdr_offset max) || negb (fs_offset_is_valid start_chunk max) || negb (fs_offset_is_valid end_chunk max)
  then Some (g, inr SegmentExhausted) else
  if match checked_add 64 hdr_offset FIFO_HEADER_SIZE with None => true | Some e => max <? e end then Some (g, inr SegmentExhausted) else
  first_chunk ← chunk_at g start_chunk;
  let min_alloc := c_length first_chunk in
  if min_alloc =? 0 then Some (g, inr InvalidCapacity) else
  let layout_end := e ← checked_add 64 fs_offset end_chunk; checked_add 64 e CHUNK_HEADER_SIZE in
  if match layout_end with None => true | Some e => ssvm_size <? e end then Some (g, inr SegmentExhausted) else
  let h := fifo_shared start_chunk end_chunk min_alloc (wrap 32 capacity) 0 0 signals_new start_chunk 0 start_chunk 0 in
  let g := set_headers (<[hdr_offset := h]> (headers g)) g in
  f ← new_state hdr_offset;
  f ← initialize_chunk_lookups g f;
  Some (g, inl f).

(** The state of another process that maps the segment. *)
Definition attach_at_svm_shared (g : segment) (hdr_offset : Z) : option (Fifo + FifoError) :=
  let max := max_byte_index g in
  if negb (fs_offset_is_valid hdr_offset max) then Some (inr SegmentExhausted) else
  if match checked_add 64 hdr_offset FIFO_HEADER_SIZE with None => true | Some e => max <? e end then Some (inr SegmentExhausted) else
  h ← hdr_at g hdr_offset;
  if (h_size h =? 0) || negb (fs_offset_is_valid (h_start_chunk h) max) || negb (fs_offset_is_valid (h_end_chunk h) max)
  then Some (inr SegmentExhausted) else
  f ← new_state hdr_offset;
  f ← initialize_chunk_lookups g f;
  Some (inl f).

(** *** A FIFO with its chunks right behind its header *)

Definition chunk_data_size (capacity : Z) : Z := 4096.
Definition fifo_layout_bytes (capacity : Z) : Z + FifoError :=
  if capacity =? 0 then inr InvalidCapacity else
  if u32_max <? capacity then inr (CapacityOutOfRange capacity) else
  let data := chunk_data_size capacity in
  let chunk_count := (capacity + data - 1) / data in
  let chunks_bytes := chunk_count * (CHUNK_HEADER_SIZE + data) in
  if u64_max <? chunks_bytes then inr (CapacityOutOfRange capacity) else
  match checked_add 64 FIFO_HEADER_SIZE chunks_bytes with
  | None => inr (CapacityOutOfRange capacity)
  | Some bytes => inl bytes
  end.

(** [n] chunks are left to write, of which the first has number [index]. *)
Fixpoint write_own_chunks (n : nat) (g : segment) (chunk_off stride data index : Z) : segment :=
  match n with
  | O => g
  | S n' =>
    let next := match n' with O => 0 | _ => chunk_off + stride end in
    let g := set_chunks (<[chunk_off := fifo_chunk (wrap 32 (index * data)) data next u32_max u32_max]> (chunks g)) g in
    write_own_chunks n' g (chunk_off + stride) stride data (index + 1)
  end.

(** [fs_offset] is where offsets of the mapping start. *)
Definition init_at_svm (g : segment) (fs_offset ssvm_size hdr_offset capacity : Z) : option (segment * (Fifo + FifoError)) :=
  match fifo_layout_bytes capacity with
  | inr e => Some (g, inr e)
  | inl layout =>
    match e ← checked_add 64 fs_offset hdr_offset; checked_add 64 e layout with
    | None => Some (g, inr (CapacityOutOfRange capacity))
    | Some e =>
      if ssvm_size <? e then Some (g, inr SegmentExhausted) else
      let data := chunk_data_size capacity in
      let chunk_count := (capacity + data - 1) / data in
      let first := hdr_offset + FIFO_HEADER_SIZE in
      let h := fifo_shared first first data (wrap 32 capacity) 0 0 signals_new first 0 first 0 in
      let g := set_headers (<[hdr_offset := h]> (headers g)) g in
      let g := write_own_chunks (Z.to_nat chunk_count) g first (CHUNK_HEADER_SIZE + data) data 0 in
      f ← new_state hdr_offset;
      f ← initialize_chunk_lookups g f;
      Some (g, inl f)
    end
  end.

(** A copy of the process's state over the same shared header. *)
Definition duplicate (f : Fifo) : Fifo :=
  mk_fifo (hdr_off f) (ooo_enq_lookup f) (ooo_deq_lookup f) (ooo_list f) (ooo_base f).

End SvmFifo.
