(* ===== verification/SvmBudget.v ===== *)
(** * How much of a segment an operation takes

    Memory comes off the end of the used part of the segment, [byte_index],
    when no free chunk fits.  Only the growth of a chain takes any, and it
    takes at most [grow_cost] of the bytes asked for: when that much is left,
    the chain does grow.  Every other operation leaves [byte_index] where it
    is. *)

From S2P Require Import Prelude Ranges InfraBitmap InfraPool InfraRbTree SvmOoo SvmOooProofs SvmMemory SvmMemoryProofs SvmFifo.

Module SvmBudget.
Import Ranges SvmOoo SvmOooProofs SvmMemory SvmMemoryProofs SvmFifo.

Definition top (g : segment) : Z * Z := (byte_index g, max_byte_index g).

(** The most a chunk takes, with its header and its alignment. *)
Definition CHUNK_COST : Z := 2 ^ 22 + 31.
(** The most a chain takes to grow by [len] bytes. *)
Definition grow_cost (len : Z) : Z := (len + 2 ^ 22 - 1) / 2 ^ 22 * CHUNK_COST.

(** [cost] more bytes fit. *)
Definition room (g : segment) (cost : Z) : Prop :=
  0 <= byte_index g /\ byte_index g + cost < max_byte_index g /\ max_byte_index g <= 2 ^ 32.
(** [g'] has taken at most [cost] bytes of [g]. *)
Definition took (cost : Z) (g g' : segment) : Prop :=
  byte_index g <= byte_index g' <= byte_index g + cost /\ max_byte_index g' = max_byte_index g.

Implicit Types (g : segment) (f : Fifo).

Lemma top_took g g' : top g' = top g -> took 0 g g'.
Proof. unfold top, took. intros [= -> ->]. lia. Qed.
Lemma took_trans c d g1 g2 g3 : took c g1 g2 -> took d g2 g3 -> took (c + d) g1 g3.
Proof. unfold took. lia. Qed.
Lemma took_weaken c d g g' : c <= d -> took c g g' -> took d g g'.
Proof. unfold took. lia. Qed.
Lemma took_top c g g1 g' : took c g g1 -> top g' = top g1 -> took c g g'.
Proof. unfold top, took. intros H [= -> ->]. done. Qed.
Lemma took_from c g g1 g' : top g1 = top g -> took c g1 g' -> took c g g'.
Proof. unfold top, took. intros [= -> ->]. done. Qed.
Lemma top_room c g g' : top g' = top g -> room g c -> room g' c.
Proof. unfold top, room. by intros [= -> ->]. Qed.
Lemma room_took c d g g' : room g (c + d) -> took c g g' -> room g' d.
Proof. unfold room, took. lia. Qed.
Lemma room_weaken c d g : d <= c -> room g c -> room g d.
Proof. unfold room. lia. Qed.

Lemma grow_cost_mono a b : 0 <= a <= b -> 0 <= grow_cost a <= grow_cost b.
Proof.
  intros H. unfold grow_cost, CHUNK_COST. pose proof (Z.div_le_mono (a + 2 ^ 22 - 1) (b + 2 ^ 22 - 1) (2 ^ 22) ltac:(lia) ltac:(lia)).
  pose proof (Z.div_pos (a + 2 ^ 22 - 1) (2 ^ 22) ltac:(lia) ltac:(lia)). nia.
Qed.
Lemma grow_cost_nonneg n : 0 <= n -> 0 <= grow_cost n.
Proof. intros H. pose proof (grow_cost_mono 0 n ltac:(lia)). lia. Qed.
(** One more chunk of [size] bytes pays for itself: it is the last, or as
    large as chunks get. *)
Lemma grow_cost_step d size : 0 < d -> size <= 2 ^ 22 -> d <= size \/ size = 2 ^ 22 -> 31 + size + grow_cost (Z.max 0 (d - size)) <= grow_cost d.
Proof.
  intros Hd Hs H. unfold grow_cost. assert (1 <= (d + 2 ^ 22 - 1) / 2 ^ 22) by (apply Z.div_le_lower_bound; lia). destruct (Z.le_gt_cases d size) as [Hle|Hgt].
  - rewrite Z.max_l by lia. change ((0 + 2 ^ 22 - 1) / 2 ^ 22) with 0. unfold CHUNK_COST. nia.
  - destruct H as [|E]; [lia|]. rewrite E, Z.max_r by lia. replace (d + 2 ^ 22 - 1) with (d - 2 ^ 22 + 2 ^ 22 - 1 + 1 * 2 ^ 22) by lia. rewrite Z.div_add by lia. unfold CHUNK_COST. lia.
Qed.

(** Takes a computation that returned apart, bind by bind. *)
Ltac bind_inv := repeat match goal with
  | H : mbind _ _ = Some _ |- _ => apply bind_Some in H as (? & ? & H)
  | H : (let '(_, _) := ?p in _) = Some _ |- _ => destruct p
  | H : (if ?b then _ else _) = Some _ |- _ => destruct b eqn:?
  | H : match ?x with _ => _ end = Some _ |- _ => destruct x eqn:?
  | H : Some _ = Some _ |- _ => injection H as H; subst
  | H : None = Some _ |- _ => discriminate H
  end.

(** ** Operations that take nothing *)

Lemma chunk_upd_top g o u g' : chunk_upd g o u = Some g' -> top g' = top g.
Proof. unfold chunk_upd. intros H. bind_inv. done. Qed.
Lemma hdr_upd_top g o u g' : hdr_upd g o u = Some g' -> top g' = top g.
Proof. unfold hdr_upd. intros H. bind_inv. done. Qed.
Lemma set_free_head_top g slice class hd d g' : set_free_head g slice class hd d = Some g' -> top g' = top g.
Proof. unfold set_free_head. intros H. bind_inv. done. Qed.

Ltac top_of H := first [apply chunk_upd_top in H | apply hdr_upd_top in H | apply set_free_head_top in H].
Ltac tops := bind_inv; repeat match goal with H : _ = Some _ |- _ => top_of H end; congruence.

Lemma release_chunk_top g slice o g' : release_chunk g slice o = Some g' -> top g' = top g.
Proof. unfold release_chunk. intros H. tops. Qed.

Lemma release_list_top n g slice first g' : release_list n g slice first = Some g' -> top g' = top g.
Proof.
  revert g first. induction n as [|n IH]; intros g first H; [done|]. cbn [release_list] in H. bind_inv; [done|]. apply IH in H.
  match goal with E : release_chunk _ _ _ = Some _ |- _ => apply release_chunk_top in E end. congruence.
Qed.

Lemma prepare_top g f tail g' : prepare_empty_tail_chunk g f tail = Some g' -> top g' = top g.
Proof. unfold prepare_empty_tail_chunk. intros H. tops. Qed.

Lemma copy_to_loop_top n g chunk pos src len g' c : copy_to_loop n g chunk pos src len = Some (g', c) -> top g' = top g.
Proof. revert g chunk pos src len. induction n as [|n IH]; intros g chunk pos src len H; [done|]. cbn [copy_to_loop] in H. bind_inv; try done. by apply IH in H. Qed.
Lemma copy_to_loop_avx2_top n g chunk pos src len g' c : copy_to_loop_avx2 n g chunk pos src len = Some (g', c) -> top g' = top g.
Proof. revert g chunk pos src len. induction n as [|n IH]; intros g chunk pos src len H; [done|]. cbn [copy_to_loop_avx2] in H. bind_inv; try done. by apply IH in H. Qed.
Lemma copy_to_top avx2 g chunk t src len last g' c : svm_fifo_copy_to_chunk avx2 g chunk t src len last = Some (g', c) -> top g' = top g.
Proof.
  unfold svm_fifo_copy_to_chunk. destruct avx2; [unfold svm_fifo_copy_to_chunk_avx2|unfold svm_fifo_copy_to_chunk_scalar]; intros H; bind_inv; first [by eapply copy_to_loop_avx2_top|by eapply copy_to_loop_top].
Qed.

Ltac top_of H ::= first [apply chunk_upd_top in H | apply hdr_upd_top in H | apply set_free_head_top in H | apply release_chunk_top in H | apply release_list_top in H |
  apply prepare_top in H | apply copy_to_top in H].


(** ** Growing *)

Lemma allocate_chunk_took g slice size start g' r :
  allocate_chunk g slice size start = Some (g', r) -> room g (31 + chunk_size size) ->
  exists o c, r = inl o /\ took (31 + chunk_size size) g g' /\ chunks g' !! o = Some c /\ c_start_byte c = start /\ c_length c = chunk_size size.
Proof.
  intros H (R0 & R1 & R2). pose proof (class_size_range _ (class_range size)) as Hc. rewrite <- chunk_size_class in Hc.
  pose proof (align_up (byte_index g) 8 3 ltac:(lia) eq_refl R0) as Ha. change (8 - 1) with 7 in Ha. unfold allocate_chunk, checked_add, CHUNK_HEADER_SIZE, FS_CHUNK_OFFSET_MASK in H.
  rewrite (proj2 (Z.ltb_lt (byte_index g + 7) _)) in H by lia. cbv zeta in H. rewrite (proj2 (Z.ltb_lt (Z.ldiff _ _ + _) _)) in H by lia.
  rewrite (proj2 (Z.leb_gt (max_byte_index g) _)), (proj2 (Z.ltb_ge _ (Z.ldiff _ _ + _))) in H by lia. cbn [orb] in H. bind_inv.
  - match goal with E : set_free_head _ _ _ _ _ = Some ?a |- _ => apply set_free_head_top in E end. unfold chunk_upd in *. bind_inv.
    eexists _, _. split; [done|]. split; [eapply took_weaken, top_took; [lia|done]|]. cbn. rewrite lookup_insert_eq. done.
  - eexists _, _. split; [done|]. split; [split; cbn; lia|]. cbn. by rewrite lookup_insert_eq.
Qed.

Lemma grow_loop_took n g slice min_alloc free tg e first last g' r :
  grow_loop n g slice min_alloc free (wr tg) first last (wr e) = Some (g', r) -> - 2 ^ 22 <= tg - e < 2 ^ 31 -> room g (grow_cost (Z.max 0 (tg - e))) ->
  (exists x, r = inl x) /\ took (grow_cost (Z.max 0 (tg - e))) g g'.
Proof.
  revert g e first last. induction n as [|n IH]; intros g e first last H Hd Hr; [done|]. cbn [grow_loop] in H. rewrite pos_gt_win in H by lia.
  destruct (Z.ltb_spec e tg) as [Hlt|Hge]; cbn [negb] in H.
  2:{ bind_inv. split; [by eexists|]. rewrite Z.max_l by lia. by apply top_took. }
  rewrite wsub_wr in H by lia. change (Z.shiftl 1 FS_MAX_LOG2_CHUNK_SIZE) with (2 ^ 22) in H. set (req := Z.min _ _) in H. rewrite Z.max_r in * by lia.
  pose proof (chunk_size_covers req ltac:(lia)) as Hcov. pose proof (class_size_range _ (class_range req)) as Hc. rewrite <- chunk_size_class in Hc.
  pose proof (grow_cost_step (tg - e) (chunk_size req) ltac:(lia) ltac:(lia) ltac:(lia)) as Hstep.
  pose proof (grow_cost_mono 0 (Z.max 0 (tg - e - chunk_size req)) ltac:(lia)) as Hm. replace (tg - e - chunk_size req) with (tg - (e + chunk_size req)) in * by lia.
  apply bind_Some in H as ([g1 r1] & Ea & H).
  destruct (allocate_chunk_took _ _ _ _ _ _ Ea) as (o & c & -> & Ht & Hch & Hs & Hl); [eapply room_weaken; [|exact Hr]; lia|].
  apply bind_Some in H as (g2 & E2 & H). apply bind_Some in H as (c2 & E3 & H).
  assert (top g2 = top g1 /\ f_chunk_end c2 = wr (e + chunk_size req)) as [Htop Ee].
  { destruct (last =? 0); [injection E2 as <-; split; [done|]|split; [by eapply chunk_upd_top|]; unfold chunk_upd in E2; bind_inv; unfold chunk_at in *; cbn in E3].
    - unfold chunk_at in E3. simplify_eq. unfold f_chunk_end. by rewrite Hs, Hl, wadd_wr.
    - destruct (decide (last = o)) as [->|Hne]; [rewrite lookup_insert_eq in E3|rewrite lookup_insert_ne in E3 by done]; simplify_eq; unfold f_chunk_end; cbn; by rewrite Hs, Hl, wadd_wr. }
  rewrite Ee in H. pose proof (took_top _ _ _ _ Ht Htop) as Ht2.
  destruct (IH _ _ _ _ H ltac:(lia)) as [Hx Ht3]; [eapply room_took; [|exact Ht2]; by eapply room_weaken|]. split; [done|].
  eapply took_weaken, took_trans; [exact Hstep|done..].
Qed.


Lemma ensure_took g f h ch hd T len e g' r :
  ensure_chunk_capacity g f hd (wr T) len = Some (g', r) -> hdr_at g (hdr_off f) = Some h -> chunk_at g (h_end_chunk h) = Some ch -> f_chunk_end ch = wr e ->
  T <= e -> 0 <= len < 2 ^ 31 -> e - T < 2 ^ 31 -> room g (grow_cost len) -> r = inl tt /\ took (grow_cost len) g g'.
Proof.
  intros H Hh Hc Ee HT Hl Hw Hr. pose proof (grow_cost_mono 0 len ltac:(lia)) as Hm. change (grow_cost 0) with 0 in Hm. unfold ensure_chunk_capacity in H.
  destruct (len =? 0) eqn:E0; [bind_inv; split; [done|]; eapply took_weaken, top_took; [lia|done]|]. rewrite Hh in H. cbn [mbind option_bind] in H. rewrite Hc in H. cbn [mbind option_bind] in H.
  rewrite Ee, (wrap_small 32 len), wadd_wr in H by (unfold in_word; lia). rewrite pos_gt_win in H by lia. destruct (Z.ltb_spec e (T + len)) as [Hlt|Hge]; cbn [negb] in H.
  2:{ bind_inv. split; [done|]. eapply took_weaken, top_took; [lia|done]. }
  apply bind_Some in H as (free & _ & H). apply bind_Some in H as ([g1 r1] & Eg & H).
  pose proof (grow_cost_mono (Z.max 0 (T + len - e)) len ltac:(lia)) as Hle.
  destruct (grow_loop_took _ _ _ _ _ _ _ _ _ _ _ Eg ltac:(lia)) as [[[a b] ->] Ht]; [eapply room_weaken; [|exact Hr]; lia|]. split; [by bind_inv|].
  eapply took_weaken; [apply Hle|]. eapply took_top; [exact Ht|]. tops.
Qed.

Section Ops.
Context (avx2 : bool).

Lemma append_loop_top n g f c offset src w g' k : append_loop avx2 n g f c offset src w = Some (g', k) -> top g' = top g.
Proof.
  revert g c offset src w. induction n as [|n IH]; intros g c offset src w H; [done|]. cbn [append_loop] in H. bind_inv; try done; apply IH in H; tops.
Qed.
Lemma append_top g f offset src g' k : append_at_tail_without_tail_store avx2 g f offset src = Some (g', k) -> top g' = top g.
Proof. unfold append_at_tail_without_tail_store. intros H. bind_inv; [done|]. by eapply append_loop_top. Qed.

Lemma publish_top g f c t g' f' k : publish_tail g f c t = Some (g', f', k) -> top g' = top g.
Proof. unfold publish_tail, clear_enq_chunks. intros H. tops. Qed.

Lemma write_loop_top n g c offset src w g' k : write_loop avx2 n g c offset src w = Some (g', k) -> top g' = top g.
Proof. revert g c offset src w. induction n as [|n IH]; intros g c offset src w H; [done|]. cbn [write_loop] in H. bind_inv; try done; apply IH in H; tops. Qed.
Lemma write_at_top g f offset src g' k : write_at_without_tail_store avx2 g f offset src = Some (g', k) -> top g' = top g.
Proof. unfold write_at_without_tail_store. intros H. bind_inv; [done|]. by eapply write_loop_top. Qed.

Lemma segments_loop_top g f total copied segs g' r : enqueue_segments_loop avx2 g f total copied segs = Some (g', r) -> top g' = top g.
Proof.
  revert g copied. induction segs as [|l segs IH]; intros g copied H; cbn [enqueue_segments_loop] in H; bind_inv; try done.
  - by eapply append_top.
  - apply IH in H. rewrite H. by eapply append_top.
Qed.
Lemma nocopy_top g f len g' f' r : enqueue_nocopy g f len = Some (g', f', r) -> top g' = top g.
Proof. unfold enqueue_nocopy. intros H. bind_inv; [done|]. by eapply publish_top. Qed.

Lemma drop_loop_top n g f c h t g' f' : drop_loop n g f c h t = Some (g', f') -> top g' = top g.
Proof. revert g f c. induction n as [|n IH]; intros g f c H; [done|]. cbn [drop_loop] in H. bind_inv; try done; apply IH in H; tops. Qed.
Lemma drop_top g f len g' f' n : drop_dequeue g f len = Some (g', f', n) -> top g' = top g.
Proof.
  unfold drop_dequeue. intros H. bind_inv; [done|]. match goal with E : drop_loop _ _ _ _ _ _ = Some _ |- _ => apply drop_loop_top in E end. tops.
Qed.
Lemma dequeue_top g f len dst g' f' r : dequeue avx2 g f len dst = Some (g', f', r) -> top g' = top g.
Proof. unfold dequeue. intros H. bind_inv. by eapply drop_top. Qed.

End Ops.

End SvmBudget.
