(* ===== verification/SvmChain.v ===== *)
(** * Chains of chunks

    The chunks of a FIFO cover consecutive positions.  Positions are unwrapped
    integers here, the 32-bit counters of the code are their remainders; a
    chain spans less than 2^31 bytes, so the signed comparisons of the code
    order its positions.  The file shows what seeking, copying and reading
    along a chain do. *)

From S2P Require Import Prelude Ranges InfraBitmap InfraPool InfraRbTree SvmOoo SvmOooProofs SvmMemory SvmMemoryProofs SvmFifo.

Module SvmChain.
Import Ranges SvmOoo SvmOooProofs SvmMemory SvmMemoryProofs SvmFifo.

Record cnode : Type := mk_cnode { coff : Z; clo : Z; clen : Z }.
Definition chi (c : cnode) : Z := clo c + clen c.
Definition addr (c : cnode) (x : Z) : Z := coff c + CHUNK_HEADER_SIZE + (x - clo c).

Implicit Types (g : segment) (fr : frees) (c d : cnode) (cs : list cnode) (m : gmap Z Z) (x : Z).

Definition first_off cs (nxt : Z) : Z := match cs with [] => nxt | c :: _ => coff c end.

(** [ch] is the header of [c] when [nxt] follows. *)
Definition heads c (nxt : Z) (ch : SvmFifoChunk) : Prop :=
  c_start_byte ch = wr (clo c) /\ c_length ch = clen c /\ c_next ch = nxt.

Fixpoint links (cm : gmap Z SvmFifoChunk) cs (nxt : Z) : Prop :=
  match cs with
  | [] => True
  | c :: cs' => (exists ch, cm !! coff c = Some ch /\ heads c (first_off cs' nxt) ch) /\ links cm cs' nxt
  end.

Fixpoint contig (s : Z) cs (e : Z) : Prop :=
  match cs with
  | [] => s = e
  | c :: cs' => clo c = s /\ 0 < clen c /\ contig (chi c) cs' e
  end.

Lemma first_off_app l1 l2 nxt : first_off (l1 ++ l2) nxt = first_off l1 (first_off l2 nxt).
Proof. by destruct l1. Qed.

Lemma links_app cm l1 l2 nxt : links cm (l1 ++ l2) nxt <-> links cm l1 (first_off l2 nxt) /\ links cm l2 nxt.
Proof. induction l1 as [|c l1 IH]; cbn; [tauto|]. rewrite IH, first_off_app. tauto. Qed.

Lemma links_ext cm cm' cs nxt : (forall c, c ∈ cs -> cm' !! coff c = cm !! coff c) -> links cm cs nxt -> links cm' cs nxt.
Proof.
  induction cs as [|c cs IH]; intros Hm; cbn; [done|]. intros [(ch & Hch & Hh) H]. split.
  - exists ch. split; [rewrite Hm; [done|left]|done].
  - apply IH; [|done]. intros d Hd. apply Hm. by right.
Qed.

Lemma links_elem cm cs nxt c : links cm cs nxt -> c ∈ cs -> is_Some (cm !! coff c).
Proof. intros H (l1 & l2 & ->)%list_elem_of_split. apply links_app in H as [_ [(ch & Hch & _) _]]. by eexists. Qed.

Lemma links_fuel g cs nxt : links (chunks g) cs nxt -> NoDup (coff <$> cs) -> (length cs < chunk_fuel g)%nat.
Proof.
  intros H Hn. unfold chunk_fuel. rewrite <- (length_fmap coff cs). rewrite <- size_dom.
  assert (list_to_set (coff <$> cs) ⊆@{gset Z} dom (chunks g)) as Hsub.
  { intros o. rewrite elem_of_list_to_set. intros (c & -> & Hc)%list_elem_of_fmap. apply elem_of_dom. by eapply links_elem. }
  apply subseteq_size in Hsub. rewrite size_list_to_set in Hsub by done. lia.
Qed.

Lemma contig_app s l1 l2 e : contig s (l1 ++ l2) e <-> exists b, contig s l1 b /\ contig b l2 e.
Proof.
  revert s. induction l1 as [|c l1 IH]; intros s; cbn.
  - split; [intros H; by exists s|by intros (b & -> & H)].
  - rewrite IH. split; [intros (H1 & H2 & b & H3 & H4); by exists b|intros (b & (H1 & H2 & H3) & H4); split_and!; try done; by exists b].
Qed.

Lemma contig_le s cs e : contig s cs e -> s <= e.
Proof.
  revert s. induction cs as [|c cs IH]; intros s; cbn; [lia|]. intros (<- & Hl & H). apply IH in H. unfold chi in H. lia.
Qed.

Lemma contig_end s cs e e' : contig s cs e -> contig s cs e' -> e = e'.
Proof. revert s. induction cs as [|c cs IH]; intros s; cbn; [congruence|]. intros (_ & _ & H1) (_ & _ & H2). by eapply IH. Qed.

Lemma contig_elem s cs e c : contig s cs e -> c ∈ cs -> s <= clo c < chi c /\ chi c <= e.
Proof.
  intros H Hc. apply list_elem_of_split in Hc as (l1 & l2 & ->). apply contig_app in H as (b & H1 & <- & Hl & H2).
  apply contig_le in H1, H2. unfold chi in *. lia.
Qed.

Lemma contig_find s cs e x : contig s cs e -> s <= x < e -> exists l1 c l2, cs = l1 ++ c :: l2 /\ clo c <= x < chi c.
Proof.
  revert s. induction cs as [|c cs IH]; intros s; cbn; [lia|]. intros (<- & Hl & H) Hx. destruct (decide (x < chi c)).
  - exists [], c, cs. split; [done|lia].
  - destruct (IH (chi c) H ltac:(lia)) as (l1 & d & l2 & -> & Hd). by exists (c :: l1), d, l2.
Qed.

(** A position belongs to one chunk. *)
Lemma contig_unique s cs e c d x : contig s cs e -> c ∈ cs -> d ∈ cs -> clo c <= x < chi c -> clo d <= x < chi d -> c = d.
Proof.
  intros H Hc Hd. apply list_elem_of_split in Hc as (l1 & l2 & ->). apply contig_app in H as (b & H1 & <- & Hl & H2).
  intros Hx Hy. apply elem_of_app in Hd as [Hd|[->|Hd]%elem_of_cons]; [|done|].
  - pose proof (contig_elem _ _ _ d H1 Hd). lia.
  - pose proof (contig_elem _ _ _ d H2 Hd). lia.
Qed.

(** ** A chain of chunks of a segment *)

Record chain_ok g fr cs (s e : Z) : Prop := {
  ch_seg : seg_ok g fr;
  ch_links : links (chunks g) cs 0;
  ch_contig : contig s cs e;
  ch_nodup : NoDup (coff <$> cs);
  ch_own c : c ∈ cs -> ~ is_free fr (coff c);
  ch_span : e - s < 2 ^ 31
}.

(** Steps that touch neither chunk headers nor the allocator. *)
Record data_step (off : Z) g g' : Prop := {
  ds_chunks : chunks g' = chunks g;
  ds_index : byte_index g' = byte_index g;
  ds_max : max_byte_index g' = max_byte_index g;
  ds_slices : slices g' = slices g;
  ds_active : n_active_fifos g' = n_active_fifos g;
  ds_log2 : max_log2_fifo_size g' = max_log2_fifo_size g;
  ds_pct : pct_first_alloc g' = pct_first_alloc g;
  ds_headers o : o <> off -> headers g' !! o = headers g !! o
}.
#[export] Instance data_step_preorder off : PreOrder (data_step off).
Proof.
  split; [intros g; by constructor|]. intros g1 g2 g3 [A1 A2 A3 A4 A5 A6 A7 A8] [B1 B2 B3 B4 B5 B6 B7 B8].
  constructor; [congruence..|]. intros o Ho. by rewrite B8, A8.
Qed.

Lemma seg_ok_data off g g' fr : data_step off g g' -> seg_ok g fr -> seg_ok g' fr.
Proof. intros [E1 E2 E3 E4 _ _ _ _] []. constructor; rewrite ?E1, ?E2, ?E3, ?E4; done. Qed.

Lemma chain_ok_data off g g' fr cs s e : data_step off g g' -> chain_ok g fr cs s e -> chain_ok g' fr cs s e.
Proof. intros D []. constructor; try done; [by eapply seg_ok_data|]. by rewrite (ds_chunks _ _ _ D). Qed.

Lemma hdr_upd_spec g off h u : hdr_at g off = Some h ->
  exists g', hdr_upd g off u = Some g' /\ data_step off g g' /\ hdr_at g' off = Some (u h) /\ bytes g' = bytes g.
Proof.
  intros Hh. unfold hdr_upd. rewrite Hh. cbn [mbind option_bind]. eexists. split; [done|]. split; [|split; [apply lookup_insert_eq|done]].
  constructor; try done. intros o Ho. cbn. by rewrite lookup_insert_ne.
Qed.

Section Chain.
Context (g : segment) (fr : frees) (cs : list cnode) (s e : Z) (Hok : chain_ok g fr cs s e).

Lemma chain_at l1 c l2 : cs = l1 ++ c :: l2 ->
  exists ch, chunk_at g (coff c) = Some ch /\ heads c (first_off l2 0) ch.
Proof. intros ->. pose proof (ch_links _ _ _ _ _ Hok) as H. apply links_app in H as [_ [H _]]. exact H. Qed.

Lemma chain_elem c : c ∈ cs -> exists ch, chunks g !! coff c = Some ch /\ c_start_byte ch = wr (clo c) /\ c_length ch = clen c.
Proof. intros (l1 & l2 & E)%list_elem_of_split. destruct (chain_at l1 c l2 E) as (ch & Hch & H1 & H2 & _). by exists ch. Qed.

Lemma chain_bounds c : c ∈ cs ->
  0 < coff c < 2 ^ 32 /\ coff c < max_byte_index g /\ 2 ^ 12 <= clen c <= 2 ^ 22 /\ s <= clo c < chi c /\ chi c <= e.
Proof.
  intros Hc. destruct (chain_elem c Hc) as (ch & Hch & _ & El). pose proof (sk_offset _ _ _ _ (ch_seg _ _ _ _ _ Hok) Hch).
  pose proof (contig_elem _ _ _ c (ch_contig _ _ _ _ _ Hok) Hc). rewrite El in *. lia.
Qed.

Lemma chain_nonzero c : c ∈ cs -> (coff c =? 0) = false.
Proof. intros Hc. pose proof (chain_bounds c Hc). apply Z.eqb_neq. lia. Qed.

Lemma chain_fuel : (length cs < chunk_fuel g)%nat.
Proof. eapply links_fuel; [apply (ch_links _ _ _ _ _ Hok)|apply (ch_nodup _ _ _ _ _ Hok)]. Qed.

Lemma chain_same c d : c ∈ cs -> d ∈ cs -> coff c = coff d -> c = d.
Proof.
  intros Hc Hd E. pose proof (ch_nodup _ _ _ _ _ Hok) as Hn. apply list_elem_of_lookup in Hc as [i Hi], Hd as [j Hj].
  assert (i = j) as ->; [|congruence]. eapply (NoDup_lookup _ i j (coff c) Hn); rewrite list_lookup_fmap, ?Hi, ?Hj; cbn; congruence.
Qed.

(** Data of different chunks lies apart. *)
Lemma chain_apart c d a : c ∈ cs -> d ∈ cs ->
  coff c + CHUNK_HEADER_SIZE <= a < coff c + CHUNK_HEADER_SIZE + clen c ->
  coff d + CHUNK_HEADER_SIZE <= a < coff d + CHUNK_HEADER_SIZE + clen d -> c = d.
Proof.
  intros Hc Hd Ha Hb. destruct (chain_elem c Hc) as (ch & Hch & _ & El). destruct (chain_elem d Hd) as (dh & Hdh & _ & Dl).
  pose proof (sk_apart _ _ (ch_seg _ _ _ _ _ Hok)) as Hap. unfold CHUNK_HEADER_SIZE in *. apply chain_same; try done.
  destruct (Z.lt_trichotomy (coff c) (coff d)) as [Hl|[?|Hl]]; [|done|].
  - specialize (Hap _ _ _ _ Hch Hdh Hl). lia.
  - specialize (Hap _ _ _ _ Hdh Hch Hl). lia.
Qed.

(** ** Positions *)

Lemma chunk_end_eq c nxt ch : heads c nxt ch -> f_chunk_end ch = wr (chi c).
Proof. intros (E1 & E2 & _). unfold f_chunk_end, chi. rewrite E1, E2. apply wadd_wr. Qed.

Lemma includes_eq c nxt ch x : c ∈ cs -> heads c nxt ch -> s <= x <= e ->
  f_chunk_includes_pos ch (wr x) = (clo c <=? x) && (x <? chi c).
Proof.
  intros Hc Hh Hx. unfold f_chunk_includes_pos. rewrite (chunk_end_eq c nxt ch Hh). destruct Hh as (-> & _).
  pose proof (chain_bounds c Hc). pose proof (ch_span _ _ _ _ _ Hok). rewrite pos_geq_win, pos_lt_win by lia. done.
Qed.

Lemma pos_in_chunk c x : c ∈ cs -> clo c <= x <= chi c -> wsub32 (wr x) (wr (clo c)) = x - clo c.
Proof. intros Hc Hx. pose proof (chain_bounds c Hc). unfold chi in *. apply wsub_wr. lia. Qed.

(** Seeking along the chain finds the chunk of a position. *)
Lemma seek_spec n l1 c l2 x l0 :
  cs = l0 ++ l1 ++ c :: l2 -> clo c <= x < chi c -> (length l1 < n)%nat ->
  seek_loop n g (first_off (l1 ++ c :: l2) 0) (wr x) = Some (coff c).
Proof.
  intros E Hx. assert (c ∈ cs) as Hc by (rewrite E; apply elem_of_app; right; apply elem_of_app; right; left). pose proof (chain_bounds c Hc) as Bc.
  revert l0 l1 E. induction n as [|n IH]; intros l0 l1 E Hn; [lia|]. cbn [seek_loop]. destruct l1 as [|d l1]; cbn [app first_off] in *.
  - rewrite (chain_nonzero c Hc). destruct (chain_at l0 c l2 E) as (ch & -> & Hh). cbn [mbind option_bind].
    rewrite (includes_eq c _ ch x Hc Hh) by lia. by rewrite (proj2 (Z.leb_le _ _)), (proj2 (Z.ltb_lt _ _)) by lia.
  - assert (d ∈ cs) as Hd by (rewrite E; apply elem_of_app; right; left). rewrite (chain_nonzero d Hd).
    destruct (chain_at l0 d _ E) as (ch & -> & Hh). cbn [mbind option_bind]. rewrite (includes_eq d _ ch x Hd Hh) by lia.
    assert (d <> c) as Hne.
    { intros ->. pose proof (ch_nodup _ _ _ _ _ Hok) as Hnd. rewrite E, fmap_app in Hnd. apply NoDup_app in Hnd as (_ & _ & Hnd). cbn in Hnd.
      apply NoDup_cons in Hnd as [Hnd _]. apply Hnd. apply list_elem_of_fmap. exists c. split; [done|]. apply elem_of_app. right. left. }
    destruct (Z.leb_spec (clo d) x), (Z.ltb_spec x (chi d)); cbn [andb];
      try (destruct Hne; by eapply (contig_unique s cs e d c x (ch_contig _ _ _ _ _ Hok)); [done..|lia|lia]);
      destruct Hh as (_ & _ & ->); apply (IH (l0 ++ [d]) l1); try (rewrite <- app_assoc; done); cbn in Hn; lia.
Qed.

End Chain.


(** ** Writing *)

(** [m'] is [m] after [src] was written from position [x] on. *)
Record wrote cs m (x : Z) (src : list Z) m' : Prop := {
  wt_in c y : c ∈ cs -> clo c <= y < chi c ->
    load m' (addr c y) = if decide (x <= y < x + vlen src) then default 0 (src !! Z.to_nat (y - x)) else load m (addr c y);
  wt_out a : (forall c, c ∈ cs -> ~ (coff c + CHUNK_HEADER_SIZE <= a < coff c + CHUNK_HEADER_SIZE + clen c)) -> load m' a = load m a
}.

Lemma wrote_nil cs m x : wrote cs m x [] m.
Proof. constructor; [|done]. intros c y _ _. rewrite decide_False; [done|]. unfold vlen. cbn. lia. Qed.

Lemma wrote_app cs m x src1 m1 src2 m2 :
  wrote cs m x src1 m1 -> wrote cs m1 (x + vlen src1) src2 m2 -> wrote cs m x (src1 ++ src2) m2.
Proof.
  intros [A1 A2] [B1 B2]. constructor; [|intros a Ha; by rewrite B2, A2]. intros c y Hc Hy. rewrite B1, A1 by done. rewrite vlen_app.
  pose proof (vlen_nonneg src1). pose proof (vlen_nonneg src2). unfold vlen in *. destruct (decide (x + Z.of_nat (length src1) <= y < _)).
  - rewrite decide_True by lia. rewrite lookup_app_r by lia. do 2 f_equal. lia.
  - destruct (decide (x <= y < x + Z.of_nat (length src1))).
    + rewrite decide_True by lia. rewrite lookup_app_l by lia. done.
    + by rewrite decide_False by lia.
Qed.

Lemma wrote_one g fr cs s e m c x src :
  chain_ok g fr cs s e -> c ∈ cs -> clo c <= x -> x + vlen src <= chi c -> wrote cs m x src (store_list m (addr c x) src).
Proof.
  intros Hok Hc Hx Hl. constructor.
  - intros d y Hd Hy. rewrite load_store. unfold addr in *. destruct (decide (x <= y < x + vlen src)).
    + assert (d = c) as ->. { eapply (contig_unique _ _ _ d c y (ch_contig _ _ _ _ _ Hok)); try done. lia. }
      rewrite decide_True by lia. do 2 f_equal. lia.
    + rewrite decide_False; [done|]. intros Ha.
      assert (d = c) as ->; [|lia]. unfold chi in *. apply (chain_apart _ _ _ _ _ Hok d c (coff d + CHUNK_HEADER_SIZE + (y - clo d))); [done..| |]; lia.
  - intros a Ha. rewrite load_store, decide_False; [done|]. intros Hr. apply (Ha c Hc). unfold addr, chi in *. lia.
Qed.

Lemma vlen_take {A} (l : list A) n : 0 <= n <= vlen l -> vlen (take (Z.to_nat n) l) = n.
Proof. intros H. unfold vlen in *. rewrite length_take. lia. Qed.
Lemma vlen_drop {A} (l : list A) n : 0 <= n <= vlen l -> vlen (drop (Z.to_nat n) l) = vlen l - n.
Proof. intros H. unfold vlen in *. rewrite length_drop. lia. Qed.

(** A copy that stays within one chunk. *)
Lemma copy_to_spec avx2 g fr cs s e l1 c l2 x src n :
  chain_ok g fr cs s e -> cs = l1 ++ c :: l2 -> clo c <= x < chi c -> 0 < n -> x + n <= chi c ->
  svm_fifo_copy_to_chunk avx2 g (coff c) (wr x) src n 0 =
    Some (set_bytes (store_list (bytes g) (addr c x) (take (Z.to_nat n) src)) g, 0).
Proof.
  intros Hok E Hx Hn Hl. assert (c ∈ cs) as Hc by (rewrite E; apply elem_of_app; right; left). rewrite copy_to_selected. unfold svm_fifo_copy_to_chunk_scalar.
  destruct (chain_at _ _ _ _ _ Hok l1 c l2 E) as (ch & Hch & Hh). rewrite Hch. cbn [mbind option_bind].
  pose proof (chain_bounds _ _ _ _ _ Hok c Hc) as Bc. rewrite (includes_eq _ _ _ _ _ Hok c _ ch x Hc Hh) by lia.
  rewrite (proj2 (Z.leb_le _ _)), (proj2 (Z.ltb_lt _ _)) by lia. cbn [andb negb]. unfold chunk_fuel. cbn [copy_to_loop].
  rewrite (proj2 (Z.eqb_neq n 0)) by lia. rewrite Hch. cbn [mbind option_bind]. destruct Hh as (-> & -> & _).
  rewrite (pos_in_chunk _ _ _ _ _ Hok c x Hc) by lia. unfold checked_sub, chi in *. destruct (Z.ltb_spec (clen c) (x - clo c)); [lia|].
  cbn [mbind option_bind]. rewrite Z.min_r by lia. by rewrite Z.sub_diag.
Qed.

(** The part of a write that falls into the chunk of its position. *)
Lemma chunk_write avx2 g fr cs s e l1 c l2 x src ch :
  chain_ok g fr cs s e -> cs = l1 ++ c :: l2 -> heads c (first_off l2 0) ch -> clo c <= x < chi c -> 0 < vlen src ->
  let k := Z.min (vlen src) (chi c - x) in let m' := store_list (bytes g) (addr c x) (take (Z.to_nat k) src) in
  checked_sub (c_length ch) (wsub32 (wr x) (c_start_byte ch)) = Some (chi c - x) /\ 0 < k <= vlen src /\ wrap 32 k = k /\
  svm_fifo_copy_to_chunk avx2 g (coff c) (wr x) src k 0 = Some (set_bytes m' g, 0) /\
  wrote cs (bytes g) x (take (Z.to_nat k) src) m'.
Proof.
  intros Hok E (E1 & E2 & _) Hx Hpos k m'. assert (c ∈ cs) as Hc by (rewrite E; apply elem_of_app; right; left).
  pose proof (chain_bounds _ _ _ _ _ Hok c Hc) as Bc. rewrite E1, E2, (pos_in_chunk _ _ _ _ _ Hok c x Hc) by lia.
  assert (0 < k <= vlen src /\ x + k <= chi c) as [Hk Hke] by lia. unfold checked_sub, chi in *.
  destruct (Z.ltb_spec (clen c) (x - clo c)); [lia|]. split_and!; [f_equal; lia|lia|lia|apply wrap_small; unfold in_word; lia| |].
  - unfold m'. apply (copy_to_spec avx2 g fr cs s e l1 c l2); try done; unfold chi; lia.
  - apply (wrote_one g fr cs s e); try done; [lia|]. rewrite vlen_take by lia. unfold chi. lia.
Qed.

(** Where a write that filled a chunk goes on. *)
Lemma chain_next g fr cs s e l1 c l2 : chain_ok g fr cs s e -> cs = l1 ++ c :: l2 -> chi c < e ->
  exists d l2', l2 = d :: l2' /\ clo d = chi c /\ clo d < chi d.
Proof.
  intros Hok E He. pose proof (ch_contig _ _ _ _ _ Hok) as Hct. rewrite E in Hct. apply contig_app in Hct as (b & _ & _ & _ & Hct).
  destruct l2 as [|d l2']; cbn in Hct; [lia|]. exists d, l2'. destruct Hct as (Ed & Hd & _). split_and!; [done|done|]. unfold chi in *. lia.
Qed.

(** Writing along the chain from the chunk of the position. *)
Lemma write_loop_spec avx2 g fr cs s e n l0 l x src w :
  chain_ok g fr cs s e -> cs = l0 ++ l -> (src <> [] -> exists c l', l = c :: l' /\ clo c <= x < chi c) -> x + vlen src <= e -> (length l < n)%nat ->
  exists m', write_loop avx2 n g (first_off l 0) (wr x) src w = Some (set_bytes m' g, w + vlen src) /\ wrote cs (bytes g) x src m'.
Proof.
  revert g l0 l x src w. induction n as [|n IH]; intros g l0 l x src w Hok E Hf He Hn; [lia|]. cbn [write_loop]. destruct src as [|b src0].
  { exists (bytes g). unfold vlen. cbn. rewrite Z.add_0_r. split; [by destruct g|apply wrote_nil]. }
  set (src := b :: src0) in *. assert (0 < vlen src) as Hpos by (unfold vlen; cbn; lia). destruct (Hf ltac:(done)) as (c & l' & -> & Hx). cbn [first_off].
  assert (c ∈ cs) as Hc by (rewrite E; apply elem_of_app; right; left). rewrite (chain_nonzero _ _ _ _ _ Hok c Hc).
  destruct (chain_at _ _ _ _ _ Hok l0 c l' E) as (ch & -> & Hh).
  cbn [mbind option_bind]. pose proof (chain_bounds _ _ _ _ _ Hok c Hc) as Bc. rewrite (includes_eq _ _ _ _ _ Hok c _ ch x Hc Hh) by lia.
  rewrite (proj2 (Z.leb_le _ _)), (proj2 (Z.ltb_lt _ _)) by lia. cbn [andb].
  destruct (chunk_write avx2 g fr cs s e l0 c l' x src ch Hok E Hh Hx Hpos) as (-> & Hk & Hw & Hcp & W1). cbn [mbind option_bind].
  set (k := Z.min (vlen src) (chi c - x)) in *. set (m1 := store_list _ _ _) in *. rewrite Hw, Hcp. cbn [mbind option_bind]. rewrite wadd_wr. destruct Hh as (_ & _ & ->).
  assert (chain_ok (set_bytes m1 g) fr cs s e) as Hok' by (eapply (chain_ok_data 0); [|exact Hok]; by constructor).
  destruct (IH (set_bytes m1 g) (l0 ++ [c]) l' (x + k) (drop (Z.to_nat k) src) (w + k) Hok') as (m' & -> & W2).
  - by rewrite <- app_assoc.
  - intros Hne. destruct (decide (k = vlen src)) as [Ek|Hlt].
    { destruct Hne. apply nil_length_inv. rewrite length_drop, Ek. unfold vlen. lia. }
    destruct (chain_next _ _ _ _ _ l0 c l' Hok E ltac:(lia)) as (d & l2 & -> & Ed & Hd). exists d, l2. split; [done|lia].
  - rewrite vlen_drop by lia. lia.
  - cbn in Hn. lia.
  - exists m'. rewrite vlen_drop by lia. split; [do 2 f_equal; lia|].
    rewrite <- (take_drop (Z.to_nat k) src). eapply wrote_app; [exact W1|]. by rewrite vlen_take by lia.
Qed.

(** Each chunk takes a round to fill and one to leave. *)
Definition append_rounds (l2 : list cnode) c x (src : list Z) : nat :=
  match src with [] => 1 | _ => 2 * length l2 + if decide (x < chi c) then 3 else 2 end.

(** Appending from the tail chunk on moves the tail chunk along. *)
Lemma append_loop_spec avx2 f g fr cs s e n l1 c l2 x src w h :
  chain_ok g fr cs s e -> cs = l1 ++ c :: l2 -> clo c <= x <= chi c -> x + vlen src <= e ->
  hdr_at g (hdr_off f) = Some h -> h_tail_chunk h = coff c -> (append_rounds l2 c x src <= n)%nat ->
  exists g' l c' l', append_loop avx2 n g f (coff c) (wr x) src w = Some (g', w + vlen src) /\
    data_step (hdr_off f) g g' /\ hdr_at g' (hdr_off f) = Some (set_tail_chunk (coff c') h) /\
    c :: l2 = l ++ c' :: l' /\ clo c' <= x + vlen src <= chi c' /\ wrote cs (bytes g) x src (bytes g').
Proof.
  revert g l1 c l2 x src w h. induction n as [|n IH]; intros g l1 c l2 x src w h Hok E Hx He Hh Htc Hn; [unfold append_rounds in Hn; destruct src; [lia|case_decide; lia]|]. cbn [append_loop]. destruct src as [|b src0].
  { exists g, [], c, l2. unfold vlen. cbn. rewrite !Z.add_0_r. split_and!; try done; [|lia|lia|apply wrote_nil]. rewrite <- Htc. by destruct h. }
  set (src := b :: src0) in *. assert (0 < vlen src) as Hpos by (unfold vlen; cbn; lia).
  assert (c ∈ cs) as Hc by (rewrite E; apply elem_of_app; right; left). rewrite (chain_nonzero _ _ _ _ _ Hok c Hc).
  destruct (chain_at _ _ _ _ _ Hok l1 c l2 E) as (ch & -> & Hch). cbn [mbind option_bind].
  pose proof (chain_bounds _ _ _ _ _ Hok c Hc) as Bc. pose proof (ch_span _ _ _ _ _ Hok) as Hsp. rewrite (chunk_end_eq c _ ch Hch), pos_geq_win by lia.
  destruct (Z.leb_spec (chi c) x) as [Hge|Hlt].
  - assert (x = chi c) as -> by lia. destruct (chain_next _ _ _ _ _ l1 c l2 Hok E ltac:(lia)) as (d & l2' & -> & Ed & Hd).
    assert (cs = (l1 ++ [c]) ++ d :: l2') as E' by (by rewrite <- app_assoc). assert (d ∈ cs) as Hdc by (rewrite E'; apply elem_of_app; right; left).
    destruct Hch as (_ & _ & ->). cbn [first_off]. rewrite (chain_nonzero _ _ _ _ _ Hok d Hdc). cbn [negb].
    destruct (chain_at _ _ _ _ _ Hok _ d l2' E') as (dh & -> & Hdh). cbn [mbind option_bind]. pose proof Hdh as (-> & _).
    pose proof (chain_bounds _ _ _ _ _ Hok d Hdc) as Bd. rewrite pos_geq_win by lia. rewrite (proj2 (Z.leb_le (clo d) (chi c))) by lia.
    destruct (hdr_upd_spec g (hdr_off f) h (set_tail_chunk (coff d)) Hh) as (g1 & -> & D1 & Hh1 & Eb). cbn [mbind option_bind].
    destruct (IH g1 (l1 ++ [c]) d l2' (chi c) src w (set_tail_chunk (coff d) h)) as (g' & l & c' & l' & -> & D & Hh' & El & Hc' & W).
    + by eapply chain_ok_data.
    + done.
    + lia.
    + done.
    + done.
    + done.
    + unfold append_rounds, src in *. rewrite decide_False in Hn by lia. rewrite decide_True by lia. cbn in Hn. lia.
    + exists g', (c :: l), c', l'. rewrite El, <- Eb. split_and!; try done; [by etransitivity|lia|lia].
  - rewrite (includes_eq _ _ _ _ _ Hok c _ ch x Hc Hch) by lia. rewrite (proj2 (Z.leb_le _ _)), (proj2 (Z.ltb_lt _ _)) by lia. cbn [andb negb].
    destruct (chunk_write avx2 g fr cs s e l1 c l2 x src ch Hok E Hch ltac:(lia) Hpos) as (-> & Hk & Hw & Hcp & W1). cbn [mbind option_bind].
    set (k := Z.min (vlen src) (chi c - x)) in *. set (m1 := store_list _ _ _) in *. rewrite Hw, Hcp. cbn [mbind option_bind]. rewrite wadd_wr.
    assert (data_step (hdr_off f) g (set_bytes m1 g)) as D1 by (by constructor).
    destruct (IH (set_bytes m1 g) l1 c l2 (x + k) (drop (Z.to_nat k) src) (w + k) h) as (g' & l & c' & l' & -> & D & Hh' & El & Hc' & W); try done.
    + by eapply chain_ok_data.
    + lia.
    + rewrite vlen_drop by lia. lia.
    + unfold append_rounds in *. unfold src in Hn. rewrite decide_True in Hn by lia. destruct (drop (Z.to_nat k) src) eqn:Ed; [lia|]. rewrite decide_False; [lia|].
      assert (vlen (drop (Z.to_nat k) src) <> 0) as Hz by (rewrite Ed; unfold vlen; cbn; lia). rewrite vlen_drop in Hz by lia. lia.
    + exists g', l, c', l'. rewrite vlen_drop in * by lia. split_and!; try done; [do 2 f_equal; lia|by etransitivity|lia|lia|].
      rewrite <- (take_drop (Z.to_nat k) src). eapply wrote_app; [exact W1|]. by rewrite vlen_take by lia.
Qed.


(** ** Reading *)

(** The positions in [P] hold the bytes of [B]. *)
Definition content m cs (P : Z -> Prop) (B : Z -> Z) : Prop :=
  forall c y, c ∈ cs -> clo c <= y < chi c -> P y -> load m (addr c y) = B y.

Definition bytes_of (B : Z -> Z) (x n : Z) : list Z := B <$> zseq x (Z.to_nat n).

Lemma bytes_of_app B x n k : 0 <= n -> 0 <= k -> bytes_of B x (n + k) = bytes_of B x n ++ bytes_of B (x + n) k.
Proof.
  intros Hn Hk. unfold bytes_of. rewrite Z2Nat.inj_add, zseq_app, fmap_app by lia. do 3 f_equal. lia.
Qed.

Lemma length_bytes_of B x n : length (bytes_of B x n) = Z.to_nat n.
Proof. unfold bytes_of. by rewrite length_fmap, length_zseq. Qed.

Lemma bytes_of_ext B B' x n : (forall y, x <= y < x + n -> B y = B' y) -> bytes_of B x n = bytes_of B' x n.
Proof.
  intros H. unfold bytes_of. apply list_fmap_ext. intros i y Hy. apply list_elem_of_lookup_2, elem_of_zseq in Hy. apply H. lia.
Qed.

Lemma load_list_bytes m a n B x : (forall i, 0 <= i < Z.of_nat n -> load m (a + i) = B (x + i)) -> load_list m a n = B <$> zseq x n.
Proof.
  revert a x. induction n as [|n IH]; intros a x H; cbn; [done|]. f_equal; [rewrite <- (Z.add_0_r a), <- (Z.add_0_r x); apply H; lia|].
  apply IH. intros i Hi. replace (a + 1 + i) with (a + (1 + i)) by lia. replace (x + 1 + i) with (x + (1 + i)) by lia. apply H. lia.
Qed.

Lemma copy_from_spec avx2 g fr cs s e l1 c l2 x n :
  chain_ok g fr cs s e -> cs = l1 ++ c :: l2 -> clo c <= x < chi c -> 0 < n -> x + n <= chi c ->
  svm_fifo_copy_from_chunk avx2 g (coff c) (wr x) n 0 = Some (load_list (bytes g) (addr c x) (Z.to_nat n), 0).
Proof.
  intros Hok E Hx Hn Hl. assert (c ∈ cs) as Hc by (rewrite E; apply elem_of_app; right; left). rewrite copy_from_selected. unfold svm_fifo_copy_from_chunk_scalar.
  destruct (chain_at _ _ _ _ _ Hok l1 c l2 E) as (ch & Hch & Hh). rewrite Hch. cbn [mbind option_bind].
  pose proof (chain_bounds _ _ _ _ _ Hok c Hc) as Bc. rewrite (includes_eq _ _ _ _ _ Hok c _ ch x Hc Hh) by lia.
  rewrite (proj2 (Z.leb_le _ _)), (proj2 (Z.ltb_lt _ _)) by lia. cbn [andb negb]. unfold chunk_fuel. cbn [copy_from_loop].
  rewrite (proj2 (Z.eqb_neq n 0)) by lia. rewrite Hch. cbn [mbind option_bind]. destruct Hh as (-> & -> & _).
  rewrite (pos_in_chunk _ _ _ _ _ Hok c x Hc) by lia. unfold checked_sub, chi in *. destruct (Z.ltb_spec (clen c) (x - clo c)); [lia|].
  cbn [mbind option_bind]. rewrite Z.min_r by lia. by rewrite Z.sub_diag.
Qed.

Lemma peek_loop_spec avx2 g fr cs s e n l0 l x k cp B :
  chain_ok g fr cs s e -> cs = l0 ++ l -> 0 <= k -> (0 < k -> exists l1 c l2, l = l1 ++ c :: l2 /\ clo c <= x < chi c) -> x + k <= e ->
  content (bytes g) cs (fun y => x <= y < x + k) B -> (length l < n)%nat ->
  peek_loop avx2 n g (first_off l 0) (wr x) k cp = Some (bytes_of B x k, cp + k).
Proof.
  intros Hok. revert l0 l x k cp. induction n as [|n IH]; intros l0 l x k cp E Hk Hf He HB Hn; [lia|]. cbn [peek_loop].
  destruct (Z.eqb_spec k 0) as [->|Hnz]; cbn [orb]; [by rewrite Z.add_0_r|]. destruct (Hf ltac:(lia)) as (l1 & c & l2 & -> & Hx).
  destruct l1 as [|d l1]; cbn [app first_off] in *.
  - assert (c ∈ cs) as Hc by (rewrite E; apply elem_of_app; right; left). rewrite (chain_nonzero _ _ _ _ _ Hok c Hc).
    destruct (chain_at _ _ _ _ _ Hok l0 c l2 E) as (ch & -> & Hh). cbn [mbind option_bind]. pose proof (chain_bounds _ _ _ _ _ Hok c Hc) as Bc.
    rewrite (includes_eq _ _ _ _ _ Hok c _ ch x Hc Hh) by lia. rewrite (proj2 (Z.leb_le _ _)), (proj2 (Z.ltb_lt _ _)) by lia. cbn [andb].
    destruct Hh as (-> & -> & ->). rewrite (pos_in_chunk _ _ _ _ _ Hok c x Hc) by lia. unfold checked_sub.
    assert (clen c = chi c - clo c) as El by (unfold chi; lia). rewrite El. destruct (Z.ltb_spec (chi c - clo c) (x - clo c)); [lia|]. cbn [mbind option_bind].
    set (j := Z.min k (chi c - clo c - (x - clo c))). assert (0 < j <= k /\ x + j <= chi c) as [Hj Hje] by lia.
    rewrite (wrap_small 32 j) by (unfold in_word; lia). rewrite (copy_from_spec avx2 g fr cs s e l0 c l2 x j Hok E) by lia. cbn [mbind option_bind]. rewrite wadd_wr.
    rewrite (IH (l0 ++ [c]) l2 (x + j) (k - j) (cp + j)); cbn [mbind option_bind].
    + assert (bytes_of B x k = bytes_of B x j ++ bytes_of B (x + j) (k - j)) as -> by (rewrite <- bytes_of_app by lia; f_equal; lia).
      rewrite (load_list_bytes _ _ _ B x); [do 2 f_equal; lia|]. intros i Hi. replace (addr c x + i) with (addr c (x + i)) by (unfold addr; lia). apply HB; [done|lia|lia].
    + by rewrite <- app_assoc.
    + lia.
    + intros Hlt. destruct (chain_next _ _ _ _ _ l0 c l2 Hok E ltac:(lia)) as (d & l2' & -> & Ed & Hd). exists [], d, l2'. split; [done|]. lia.
    + lia.
    + intros c' y Hc' Hy Hr. apply HB; [done|done|lia].
    + cbn in Hn. lia.
  - assert (d ∈ cs) as Hd by (rewrite E; apply elem_of_app; right; left). rewrite (chain_nonzero _ _ _ _ _ Hok d Hd).
    destruct (chain_at _ _ _ _ _ Hok l0 d _ E) as (dh & -> & Hh). cbn [mbind option_bind]. pose proof (chain_bounds _ _ _ _ _ Hok d Hd) as Bd.
    assert (c ∈ cs) as Hc by (rewrite E; apply elem_of_app; right; right; apply elem_of_app; right; left). pose proof (chain_bounds _ _ _ _ _ Hok c Hc) as Bc.
    rewrite (includes_eq _ _ _ _ _ Hok d _ dh x Hd Hh) by lia.
    assert (chi d <= x) as Hlt.
    { pose proof (ch_contig _ _ _ _ _ Hok) as Hct. rewrite E in Hct. apply contig_app in Hct as (b & _ & _ & _ & Hct).
      pose proof (contig_elem _ _ _ c Hct ltac:(apply elem_of_app; right; left)). lia. }
    rewrite (proj2 (Z.ltb_ge x (chi d))), andb_false_r by lia. destruct Hh as (_ & _ & ->). apply (IH (l0 ++ [d])); try done.
    + by rewrite <- app_assoc.
    + intros _. by exists l1, c, l2.
    + cbn in Hn. lia.
Qed.

End SvmChain.
