(* ===== verification/SvmGrow.v ===== *)
(** * Growing and shrinking a chain

    The producer takes chunks from the segment and hangs them at the end of
    its chain, the consumer gives the first ones back; when the segment is
    exhausted half way, the chunks taken go back. *)

From S2P Require Import Prelude Ranges InfraBitmap InfraPool InfraRbTree SvmOoo SvmOooProofs SvmMemory SvmMemoryProofs SvmFifo SvmChain.

Module SvmGrow.
Import Ranges SvmOoo SvmOooProofs SvmMemory SvmMemoryProofs SvmFifo SvmChain.
Implicit Types (g : segment) (fr : frees) (c d : cnode) (cs : list cnode) (x : Z).

Notation "'offs' cs" := (coff <$> cs) (at level 9, cs at level 9).

(** ** Chunks outside a FIFO's chain *)

(** A list of linked chunks that no free list holds. *)
Record loose g fr cs : Prop := {
  lc_seg : seg_ok g fr;
  lc_links : links (chunks g) cs 0;
  lc_nodup : NoDup (offs cs);
  lc_own c : c ∈ cs -> ~ is_free fr (coff c)
}.

Lemma loose_bounds g fr cs c : loose g fr cs -> c ∈ cs -> 0 < coff c < 2 ^ 32 /\ 2 ^ 12 <= clen c <= 2 ^ 22 /\ is_Some (chunks g !! coff c).
Proof.
  intros H (l1 & l2 & ->)%list_elem_of_split. pose proof (lc_links _ _ _ H) as Hl. apply links_app in Hl as [_ [(ch & Hch & _ & El & _) _]].
  pose proof (sk_offset _ _ _ _ (lc_seg _ _ _ H) Hch). rewrite El in *. split_and!; try lia. by eexists.
Qed.

Lemma links_other (cm : gmap Z SvmFifoChunk) o v cs nxt : o ∉ offs cs -> links cm cs nxt -> links (<[o := v]> cm) cs nxt.
Proof.
  intros Ho. apply links_ext. intros c Hc. apply lookup_insert_ne. intros ->. apply Ho. apply list_elem_of_fmap. by exists c.
Qed.

Lemma links_alter (cm : gmap Z SvmFifoChunk) o u cs nxt : o ∉ offs cs -> links cm cs nxt -> links (alter u o cm) cs nxt.
Proof.
  intros Ho. apply links_ext. intros c Hc. apply lookup_alter_ne. intros ->. apply Ho. apply list_elem_of_fmap. by exists c.
Qed.

(** Releasing the first chunk of a list. *)
Lemma release_first g fr c cs slice :
  loose g fr (c :: cs) -> 0 <= slice < vlen (slices g) ->
  exists g' fr', release_chunk g slice (coff c) = Some g' /\ released g fr g' fr' slice (coff c) /\ loose g' fr' cs.
Proof.
  intros H Hs. destruct (loose_bounds g fr _ c H ltac:(left)) as (_ & _ & ch & Hch).
  destruct (release_chunk_spec g fr slice (coff c) ch (lc_seg _ _ _ H) Hs Hch) as (g' & fr' & E & R); [apply (lc_own _ _ _ H); left|].
  exists g', fr'. split_and!; try done. pose proof (lc_nodup _ _ _ H) as [Hn1 Hn2]%NoDup_cons. constructor; [apply (rl_seg _ _ _ _ _ _ R)| |done|].
  - destruct (rl_chunk _ _ _ _ _ _ R) as (nxt & ->). apply links_alter; [done|]. apply (lc_links _ _ _ H).
  - intros d Hd (s & k & [Hx|(Hx & _)]%(rl_free _ _ _ _ _ _ R)).
    + apply (lc_own _ _ _ H d); [by right|by exists s, k].
    + apply Hn1. rewrite <- Hx. apply list_elem_of_fmap. by exists d.
Qed.

Lemma release_list_spec n g fr cs slice :
  loose g fr cs -> 0 <= slice < vlen (slices g) -> (length cs < n)%nat ->
  exists g' fr', release_list n g slice (first_off cs 0) = Some g' /\ seg_ok g' fr' /\ moved (offs cs) [] g fr g' fr'.
Proof.
  revert g fr cs. induction n as [|n IH]; intros g fr cs H Hs Hn; [lia|]. cbn [release_list]. destruct cs as [|c cs]; cbn [first_off].
  - exists g, fr. split_and!; [done|apply (lc_seg _ _ _ H)|apply moved_refl].
  - pose proof (loose_bounds g fr _ c H ltac:(left)) as Bc. rewrite (proj2 (Z.eqb_neq (coff c) 0)) by lia.
    pose proof (lc_links _ _ _ H) as [(ch & Hch & _ & _ & Hnx) _]. unfold chunk_at. rewrite Hch. cbn [mbind option_bind]. rewrite Hnx.
    destruct (release_first g fr c cs slice H Hs) as (g1 & fr1 & -> & R & H1). cbn [mbind option_bind]. destruct (rl_rest _ _ _ _ _ _ R) as [_ _ _ Rs _ _ _].
    destruct (IH g1 fr1 cs H1 ltac:(by rewrite Rs) ltac:(cbn in Hn; lia)) as (g' & fr' & -> & Hok & M). exists g', fr'. split_and!; [done..|].
    apply (moved_trans _ (offs cs) _ _ _ g1 fr1); [exact (moved_release (offs cs) _ _ _ _ _ _ R)|exact M].
Qed.

(** ** Growing *)

Definition last_off cs : Z := match list.last cs with Some c => coff c | None => 0 end.

Lemma last_off_snoc cs c : last_off (cs ++ [c]) = coff c.
Proof. unfold last_off. by rewrite last_snoc. Qed.

Lemma exists_last_or {A} (l : list A) : l = [] \/ exists l' (y : A), l = l' ++ [y].
Proof. destruct l as [|y l _] using rev_ind; [by left|right; by exists l, y]. Qed.

(** Hangs a new chunk at the end of a list. *)
Lemma hang g fr g1 fr1 cs o start size :
  loose g fr cs -> allocated g fr g1 fr1 o (wr start) size ->
  exists g', (if last_off cs =? 0 then Some g1 else chunk_upd g1 (last_off cs) (set_c_next o)) = Some g' /\
    loose g' fr1 (cs ++ [mk_cnode o start (chunk_size size)]) /\ moved (offs cs) (offs cs ++ [o]) g fr g' fr1 /\
    chunk_at g' o = chunk_at g1 o /\ vlen (slices g') = vlen (slices g) /\ exists ch, chunk_at g' o = Some ch /\ f_chunk_end ch = wr (start + chunk_size size).
Proof.
  intros H Al. pose proof Al as [A1 A2 _ (ch & Ec & E1 & E2 & E3) A4 A5]. set (d := mk_cnode o start (chunk_size size)).
  assert (o ∉ offs cs) as Hno.
  { intros (c & Eo & Hc)%list_elem_of_fmap. destruct (loose_bounds g fr cs c H Hc) as (_ & _ & ch' & Hch'). destruct A4 as [A4|A4]; [congruence|].
    apply (lc_own _ _ _ H c Hc). by rewrite <- Eo. }
  assert (forall c, c ∈ cs ++ [d] -> ~ is_free fr1 (coff c)) as Hown.
  { intros c [Hc| ->%list_elem_of_singleton]%elem_of_app (s & k & [Hx Hne]%A5); [apply (lc_own _ _ _ H c Hc); by exists s, k|done]. }
  assert (NoDup (offs (cs ++ [d]))) as Hnd.
  { rewrite fmap_app. apply NoDup_app. split_and!; [apply (lc_nodup _ _ _ H)| |apply NoDup_singleton]. intros x Hx ->%list_elem_of_singleton. done. }
  assert (links (chunks g1) cs 0) as Hl by (rewrite Ec; apply links_other; [done|apply (lc_links _ _ _ H)]).
  assert (chunks g1 !! o = Some ch) as Ho by (rewrite Ec; apply lookup_insert_eq).
  assert (f_chunk_end ch = wr (start + chunk_size size)) as Hend by (unfold f_chunk_end; rewrite E1, E2; apply wadd_wr).
  destruct (exists_last_or cs) as [->|(cs0 & c & ->)].
  - exists g1. split_and!; try done; [|by apply (moved_alloc [] g fr g1 fr1 o (wr start) size)|apply (sr_slices _ _ A2)|by exists ch].
    constructor; try done. cbn. split; [|done]. exists ch. by split_and!.
  - rewrite last_off_snoc. destruct (loose_bounds g fr _ c H ltac:(apply elem_of_app; right; left)) as (Bc & _ & chc & Hchc).
    assert (coff c <> o) as Hco by (intros Eo; apply Hno; rewrite fmap_app; apply elem_of_app; right; rewrite <- Eo; left).
    rewrite (proj2 (Z.eqb_neq (coff c) 0)) by lia. assert (chunks g1 !! coff c = Some chc) as Hc1 by (by rewrite Ec, lookup_insert_ne).
    destruct (seg_ok_upd g1 fr1 (coff c) chc (set_c_next o) A1 Hc1) as (g' & -> & Hok & Ech & R & M); [apply Hown, elem_of_app; left; apply elem_of_app; right; left|done|].
    assert (chunks g' !! o = Some ch) as Ho' by (by rewrite Ech, lookup_insert_ne).
    exists g'. split_and!; [done| | | | |by exists ch].
    + constructor; try done. rewrite Ech. apply links_app in Hl as [Hl1 [(ch1 & Hch1 & E4 & E5 & _) _]]. rewrite Hc1 in Hch1. injection Hch1 as <-.
      rewrite <- app_assoc. apply links_app. split.
      * apply links_other; [|exact Hl1]. pose proof (lc_nodup _ _ _ H) as Hn. rewrite fmap_app in Hn. apply NoDup_app in Hn as (_ & Hn & _).
        intros Hin. apply (Hn _ Hin). left.
      * cbn. split; [exists (set_c_next o chc); split; [apply lookup_insert_eq|by split_and!]|]. split; [|done].
        exists ch. split; [by rewrite lookup_insert_ne|by split_and!].
    + eapply moved_trans; [exact (moved_alloc (offs (cs0 ++ [c])) _ _ _ _ _ _ _ Al)|]. apply M. apply elem_of_app. left. rewrite fmap_app. apply elem_of_app. right. left.
    + unfold chunk_at. by rewrite Ho', Ho.
    + rewrite (sr_slices _ _ R). apply (sr_slices _ _ A2).
Qed.


Lemma grow_loop_spec n g fr l slice min_alloc free tg e0 e1 :
  loose g fr l -> contig e0 l e1 -> 0 <= slice < vlen (slices g) -> tg - e1 <= 4096 * (Z.of_nat n - 1) -> (0 < n)%nat ->
  tg - e1 < 2 ^ 31 -> e1 <= Z.max e0 (tg + 2 ^ 22) -> - 2 ^ 31 + 2 ^ 22 <= tg - e0 ->
  exists g' r, grow_loop n g slice min_alloc free (wr tg) (first_off l 0) (last_off l) (wr e1) = Some (g', r) /\
    match r with
    | inl (first, last) => exists fr' l' e', loose g' fr' l' /\ contig e0 l' e' /\ tg <= e' <= Z.max e0 (tg + 2 ^ 22) /\
        first = first_off l' 0 /\ last = last_off l' /\ moved (offs l) (offs l') g fr g' fr'
    | inr er => er = SegmentExhausted /\ exists fr', seg_ok g' fr' /\ moved (offs l) [] g fr g' fr'
    end.
Proof.
  revert g fr l e1. induction n as [|n IH]; intros g fr l e1 H Hct Hs Hn Hpos Hd He1 He0; [lia|]. cbn [grow_loop].
  rewrite pos_gt_win by lia. destruct (Z.ltb_spec e1 tg) as [Hlt|Hge]; cbn [negb].
  2:{ exists g, (inl (first_off l 0, last_off l)). split; [done|]. exists fr, l, e1. split_and!; try done; lia. }
  rewrite wsub_wr by lia. set (req := Z.min _ _). destruct (allocate_chunk_spec g fr slice req (wr e1) (lc_seg _ _ _ H) Hs) as (g1 & r & -> & Hr).
  cbn [mbind option_bind]. pose proof (class_range req) as Hk. pose proof (class_size_range _ Hk) as Hcr. rewrite <- chunk_size_class in Hcr. destruct r as [o|er].
  - destruct Hr as (fr1 & Al). destruct (hang g fr g1 fr1 l o e1 req H Al) as (g2 & -> & H2 & M2 & Ec & Es & ch & Hch & Hend). cbn [mbind option_bind].
    rewrite Hch. cbn [mbind option_bind]. rewrite Hend. set (d := mk_cnode o e1 (chunk_size req)) in *.
    assert ((if last_off l =? 0 then o else first_off l 0) = first_off (l ++ [d]) 0) as ->.
    { destruct (exists_last_or l) as [->|(l0 & c & ->)]; [done|]. rewrite last_off_snoc.
      destruct (loose_bounds g fr _ c H ltac:(apply elem_of_app; right; left)) as (Bc & _). rewrite (proj2 (Z.eqb_neq _ 0)) by lia. by destruct l0. }
    destruct (IH g2 fr1 (l ++ [d]) (e1 + chunk_size req)) as (g' & r & E & Hr); try lia.
    + done.
    + apply contig_app. exists e1. split; [done|]. cbn. unfold chi. cbn. lia.
    + rewrite last_off_snoc in E. exists g', r. split; [exact E|]. rewrite fmap_app in Hr. destruct r as [[first last]|er].
      * destruct Hr as (fr' & l' & e' & A1 & A2 & A3 & A4 & A5 & A6). exists fr', l', e'. split_and!; try done; try lia. by eapply moved_trans.
      * destruct Hr as (-> & fr' & A1 & A2). split; [done|]. exists fr'. split; [done|]. by eapply moved_trans.
  - destruct Hr as [-> ->]. destruct (release_list_spec (chunk_fuel g) g fr l slice H Hs) as (g' & fr' & -> & Hok & M).
    { eapply links_fuel; [apply (lc_links _ _ _ H)|apply (lc_nodup _ _ _ H)]. }
    cbn [mbind option_bind]. exists g', (inr SegmentExhausted). split; [done|]. split; [done|]. by exists fr'.
Qed.


(** ** Frames

    What an operation of the FIFO whose header is at [off] leaves alone: the
    other headers, and the chunks of others with their data. *)
Record apart (off : Z) (own own' : list Z) g fr g' fr' : Prop := {
  fm_headers o : o <> off -> headers g' !! o = headers g !! o;
  fm_max : max_byte_index g' = max_byte_index g;
  fm_slices : vlen (slices g') = vlen (slices g);
  fm_log2 : max_log2_fifo_size g' = max_log2_fifo_size g;
  fm_pct : pct_first_alloc g' = pct_first_alloc g;
  fm_grows : grows g g';
  fm_keep o (ch : SvmFifoChunk) : chunks g !! o = Some ch -> o ∉ own -> ~ is_free fr o ->
    chunks g' !! o = Some ch /\ (o ∉ own') /\ ~ is_free fr' o /\
    forall a, o + CHUNK_HEADER_SIZE <= a < o + CHUNK_HEADER_SIZE + c_length ch -> load (bytes g') a = load (bytes g) a;
  fm_live o : is_Some (chunks g' !! o) -> o ∈ own \/ is_free fr o \/ chunks g !! o = None -> o ∈ own' \/ is_free fr' o
}.

(** An operation of a FIFO also leaves the lists of free headers and
    the counters of FIFOs. *)
Record frame (off : Z) (own own' : list Z) g fr g' fr' : Prop := {
  fm_apart : apart off own own' g fr g' fr';
  fm_meta : seg_meta g' = seg_meta g
}.

Lemma apart_refl off own g fr : apart off own own g fr g fr.
Proof. constructor; try done. intros o [c Hc] [?|[?|?]]; [by left|by right|congruence]. Qed.
Lemma frame_refl off own g fr : frame off own own g fr g fr.
Proof. constructor; [apply apart_refl|done]. Qed.

#[export] Hint Resolve apart_refl frame_refl : core.

Lemma apart_trans off own1 own2 own3 g1 fr1 g2 fr2 g3 fr3 :
  apart off own1 own2 g1 fr1 g2 fr2 -> apart off own2 own3 g2 fr2 g3 fr3 -> apart off own1 own3 g1 fr1 g3 fr3.
Proof.
  intros [A1 A2 A3 A4 A5 Ag A6 A7] [B1 B2 B3 B4 B5 Bg B6 B7]. constructor; try congruence.
  - intros o Ho. by rewrite B1, A1.
  - by etransitivity.
  - intros o c Hc Ho Hf. destruct (A6 o c Hc Ho Hf) as (H1 & H2 & H3 & H4). destruct (B6 o c H1 H2 H3) as (H5 & H6 & H7 & H8).
    split_and!; try done. intros a Ha. by rewrite H8, H4.
  - intros o H3 Ho. apply (B7 o H3). destruct (chunks g2 !! o) as [c|] eqn:E; [|by right; right]. destruct (A7 o ltac:(by eexists) Ho); tauto.
Qed.
Lemma frame_trans off own1 own2 own3 g1 fr1 g2 fr2 g3 fr3 :
  frame off own1 own2 g1 fr1 g2 fr2 -> frame off own2 own3 g2 fr2 g3 fr3 -> frame off own1 own3 g1 fr1 g3 fr3.
Proof. intros [A1 A2] [B1 B2]. constructor; [by eapply apart_trans|congruence]. Qed.

Lemma moved_extra own own' extra g fr g' fr' : moved own own' g fr g' fr' -> moved (extra ++ own) (extra ++ own') g fr g' fr'.
Proof.
  intros [A1 Ag A2 A3]. constructor; [done|done| |].
  - intros o c Hc [He Ho]%not_elem_of_app Hf. destruct (A2 o c Hc Ho Hf) as (H1 & H2 & H3). split_and!; try done. by apply not_elem_of_app.
  - intros o Hk [[He|Ho]%elem_of_app|Hf]; [left; apply elem_of_app; by left| |]; (destruct (A3 o Hk) as [?|?]; [tauto|left; apply elem_of_app; by right|by right]).
Qed.

Lemma frame_moved off own own' g fr g' fr' : moved own own' g fr g' fr' -> frame off own own' g fr g' fr'.
Proof.
  intros [[R1 R2 R3 R4 Rf R5 R6] Ag A2 A3]. constructor; [|done]. constructor; try done; [by rewrite R1|]. intros o c Hc Ho Hf. destruct (A2 o c Hc Ho Hf) as (H1 & H2 & H3).
  rewrite R2. by split_and!.
Qed.

(** Writing into the chain touches no data of others. *)
Lemma frame_data off g fr cs s e g' x src :
  chain_ok g fr cs s e -> data_step off g g' -> wrote cs (bytes g) x src (bytes g') -> frame off (offs cs) (offs cs) g fr g' fr.
Proof.
  intros Hok [D1 D2 D3 D4 Da D5 D6 D7] W. constructor; [|unfold seg_meta; by rewrite D4, Da]. constructor; try done; [by rewrite D4|apply grows_kept; [lia|]; intros o c; rewrite D1; intros Hc; by exists c| |]. 2:{ intros o. rewrite D1. intros [c Hc] [?|[?|?]]; [by left|by right|congruence]. } intros o c Hc Ho Hf. rewrite D1. split_and!; try done.
  intros a Ha. apply (wt_out _ _ _ _ _ W). intros d Hd Hr. destruct (chain_elem _ _ _ _ _ Hok d Hd) as (ch & Hch & _ & El).
  assert (coff d <> o) as Hne by (intros <-; apply Ho, list_elem_of_fmap; by exists d).
  pose proof (sk_apart _ _ (ch_seg _ _ _ _ _ Hok)) as Hap. unfold CHUNK_HEADER_SIZE in *.
  destruct (Z.lt_trichotomy (coff d) o) as [Hl|[?|Hl]]; [|done|].
  - specialize (Hap _ _ _ _ Hch Hc Hl). lia.
  - specialize (Hap _ _ _ _ Hc Hch Hl). lia.
Qed.

Lemma frame_header off g fr cs s e g' : chain_ok g fr cs s e -> data_step off g g' -> bytes g' = bytes g -> frame off (offs cs) (offs cs) g fr g' fr.
Proof. intros Hok D E. apply (frame_data off g fr cs s e g' 0 [] Hok D). rewrite E. apply wrote_nil. Qed.

(** A chain of others is untouched. *)
Lemma chain_ok_apart off own own' g fr g' fr' cs s e :
  chain_ok g fr cs s e -> seg_ok g' fr' -> apart off own own' g fr g' fr' -> (forall c, c ∈ cs -> coff c ∉ own) ->
  chain_ok g' fr' cs s e /\ (forall c, c ∈ cs -> coff c ∉ own') /\ (forall P B, content (bytes g) cs P B -> content (bytes g') cs P B).
Proof.
  intros Hok Hseg F Hdis.
  assert (forall c, c ∈ cs -> exists ch, chunks g !! coff c = Some ch /\ c_length ch = clen c /\ chunks g' !! coff c = Some ch /\ (coff c ∉ own') /\ ~ is_free fr' (coff c) /\
    forall a, coff c + CHUNK_HEADER_SIZE <= a < coff c + CHUNK_HEADER_SIZE + clen c -> load (bytes g') a = load (bytes g) a) as Hc.
  { intros c Hc. destruct (chain_elem _ _ _ _ _ Hok c Hc) as (ch & Hch & _ & El). exists ch.
    destruct (fm_keep _ _ _ _ _ _ _ F _ _ Hch (Hdis c Hc) (ch_own _ _ _ _ _ Hok c Hc)) as (H1 & H2 & H3 & H4). rewrite El in H4. by split_and!. }
  split_and!.
  - constructor; [done| |apply (ch_contig _ _ _ _ _ Hok)|apply (ch_nodup _ _ _ _ _ Hok)| |apply (ch_span _ _ _ _ _ Hok)].
    + eapply links_ext; [|apply (ch_links _ _ _ _ _ Hok)]. intros c Hin. destruct (Hc c Hin) as (ch & -> & _ & -> & _). done.
    + intros c Hin. by destruct (Hc c Hin) as (ch & _ & _ & _ & _ & Hf & _).
  - intros c Hin. by destruct (Hc c Hin) as (ch & _ & _ & _ & Ho & _).
  - intros P B HB c y Hin Hy HP. destruct (Hc c Hin) as (ch & _ & _ & _ & _ & _ & Hl). rewrite Hl; [by apply HB|]. unfold addr, chi in *. lia.
Qed.


Lemma last_off_elem cs : cs <> [] -> exists l c, cs = l ++ [c] /\ last_off cs = coff c.
Proof. intros Hne. destruct (exists_last_or cs) as [->|(l & c & ->)]; [done|]. exists l, c. split; [done|apply last_off_snoc]. Qed.

Lemma contig_snoc s l c e : contig s (l ++ [c]) e -> e = chi c /\ s <= clo c /\ 0 < clen c.
Proof. intros (b & H1 & H2 & H3 & H4)%contig_app. apply contig_le in H1. cbn in H4. by subst. Qed.

Lemma set_end_chunk_id h : set_end_chunk (h_end_chunk h) h = h.
Proof. by destruct h. Qed.
Lemma set_tail_chunk_id h : set_tail_chunk (h_tail_chunk h) h = h.
Proof. by destruct h. Qed.

(** Joining a chain and the chunks hung behind it. *)
Lemma chain_ok_join g fr g' fr' cs l c new s e e' :
  chain_ok g fr cs s e -> cs = l ++ [c] -> loose g' fr' new -> contig e new e' -> e' - s < 2 ^ 31 ->
  (forall d, d ∈ cs -> coff d ∉ offs new) -> (forall d, d ∈ cs -> ~ is_free fr' (coff d)) ->
  (forall d, d ∈ cs -> chunks g' !! coff d = chunks g !! coff d) ->
  exists g2, chunk_upd g' (coff c) (set_c_next (first_off new 0)) = Some g2 /\ chain_ok g2 fr' (cs ++ new) s e' /\ same_rest g' g2 /\
    moved (offs (cs ++ new)) (offs (cs ++ new)) g' fr' g2 fr'.
Proof.
  intros Hok E Hl Hct Hsp Hdis Hown Hsame. assert (c ∈ cs) as Hc by (rewrite E; apply elem_of_app; right; left).
  destruct (chain_at _ _ _ _ _ Hok l c [] E) as (ch & Hch & H1 & H2 & H3). unfold chunk_at in Hch. rewrite <- (Hsame c Hc) in Hch.
  destruct (seg_ok_upd g' fr' (coff c) ch (set_c_next (first_off new 0)) (lc_seg _ _ _ Hl) Hch (Hown c Hc)) as (g2 & -> & Hok2 & Ech & R & M); [done|].
  exists g2. split; [done|]. split_and!; [|done|apply M; rewrite fmap_app; apply elem_of_app; left; apply list_elem_of_fmap; by exists c]. constructor.
  - done.
  - rewrite Ech. apply links_app. split; [|apply links_other; [by apply Hdis|apply (lc_links _ _ _ Hl)]].
    pose proof (ch_links _ _ _ _ _ Hok) as Hlk. pose proof (ch_nodup _ _ _ _ _ Hok) as Hnd. rewrite E in *. apply links_app in Hlk as [Hlk _]. apply links_app. split.
    + apply links_other; [rewrite fmap_app in Hnd; apply NoDup_app in Hnd as (_ & Hnd & _); intros Hin; apply (Hnd _ Hin); left|].
      eapply links_ext; [|exact Hlk]. intros d Hd. apply Hsame. apply elem_of_app. by left.
    + cbn. split; [|done]. eexists. split; [apply lookup_insert_eq|]. by split_and!.
  - apply contig_app. exists e. split; [apply (ch_contig _ _ _ _ _ Hok)|done].
  - rewrite fmap_app. apply NoDup_app. split_and!; [apply (ch_nodup _ _ _ _ _ Hok)| |apply (lc_nodup _ _ _ Hl)].
    intros x (d & -> & Hd)%list_elem_of_fmap. by apply Hdis.
  - intros d [Hd|Hd]%elem_of_app; [by apply Hown|by apply (lc_own _ _ _ Hl)].
  - done.
Qed.

(** What [ensure_chunk_capacity] does to the chain [cs] that ends at [e]. *)
Definition ensured (off : Z) g fr cs (s e need : Z) h g' (r : unit + FifoError) : Prop :=
  bytes g' = bytes g /\
  match r with
  | inl _ => exists fr' new e', chain_ok g' fr' (cs ++ new) s e' /\ need <= e' /\ e <= e' /\ e' <= Z.max e (need + 2 ^ 22) /\
      frame off (offs cs) (offs (cs ++ new)) g fr g' fr' /\ hdr_at g' off = Some (set_end_chunk (last_off (cs ++ new)) h)
  | inr er => er = SegmentExhausted /\ e < need /\ exists fr', chain_ok g' fr' cs s e /\ frame off (offs cs) (offs cs) g fr g' fr' /\ hdr_at g' off = Some h
  end.

Lemma ensure_spec g f fr cs s e h H T len :
  chain_ok g fr cs s e -> cs <> [] -> hdr_at g (hdr_off f) = Some h -> h_end_chunk h = last_off cs -> 0 <= h_slice_index h < vlen (slices g) ->
  0 <= T - H <= h_size h -> h_size h < 2 ^ 32 -> s <= T <= e -> 0 <= len < 2 ^ 31 -> T + len + 2 ^ 22 - s < 2 ^ 31 ->
  exists g' r, ensure_chunk_capacity g f (wr H) (wr T) len = Some (g', r) /\ ensured (hdr_off f) g fr cs s e (T + len) h g' r.
Proof.
  intros Hok Hne Hh Hend Hsl Hsz Hsz' HT Hlen Hsp. unfold ensure_chunk_capacity, ensured. pose proof (ch_span _ _ _ _ _ Hok) as Hspan.
  destruct (Z.eqb_spec len 0) as [->|Hnz].
  { exists g, (inl tt). split; [done|]. split; [done|]. exists fr, [], e. rewrite app_nil_r. split_and!; try done; try lia.
    by rewrite <- Hend, set_end_chunk_id. }
  rewrite Hh. cbn [mbind option_bind]. destruct (last_off_elem cs Hne) as (l & c & E & Elast). rewrite Hend, Elast.
  assert (c ∈ cs) as Hc by (rewrite E; apply elem_of_app; right; left). destruct (chain_at _ _ _ _ _ Hok l c [] E) as (ch & Hch & Hhd). rewrite Hch. cbn [mbind option_bind].
  assert (e = chi c) as Ee by (pose proof (ch_contig _ _ _ _ _ Hok) as Hct; rewrite E in Hct; by apply contig_snoc in Hct as [? _]).
  rewrite (chunk_end_eq c _ ch Hhd), <- Ee, (wrap_small 32 len), wadd_wr by (unfold in_word; lia). rewrite pos_gt_win by lia.
  destruct (Z.ltb_spec e (T + len)) as [Hlt|Hge]; cbn [negb].
  2:{ exists g, (inl tt). split; [done|]. split; [done|]. exists fr, [], e. rewrite app_nil_r. split_and!; try done; try lia.
    by rewrite <- Hend, set_end_chunk_id. }
  rewrite !wsub_wr by lia. unfold checked_sub. destruct (Z.ltb_spec (h_size h) (T - H)); [lia|]. cbn [mbind option_bind]. change (Z.shiftl 1 FS_MIN_LOG2_CHUNK_SIZE) with 4096.
  assert (loose g fr []) as Hl0 by (constructor; [apply (ch_seg _ _ _ _ _ Hok)|done|constructor|by intros d ?%not_elem_of_nil]).
  destruct (grow_loop_spec (Z.to_nat ((T + len - e) / 4096 + 2)) g fr [] (h_slice_index h) (h_min_alloc h) (h_size h - (T - H)) (T + len) e e Hl0)
    as (g1 & r & Eg & Hr); try done; try lia; [zdm|zdm|].
  change (first_off [] 0) with 0 in Eg. change (last_off []) with 0 in Eg. rewrite Eg. cbn [mbind option_bind]. destruct r as [[first last]|er].
  - destruct Hr as (fr' & new & e' & Hl & Hct & He' & -> & -> & M). pose proof M as [R _ Hkeep _].
    assert (forall d, d ∈ cs -> chunks g1 !! coff d = chunks g !! coff d /\ (coff d ∉ offs new) /\ ~ is_free fr' (coff d)) as Hcs.
    { intros d Hd. destruct (chain_elem _ _ _ _ _ Hok d Hd) as (dh & Hdh & _). rewrite Hdh. apply Hkeep; [done|by intros ?%not_elem_of_nil|by apply (ch_own _ _ _ _ _ Hok)]. }
    destruct (chain_ok_join g fr g1 fr' cs l c new s e e' Hok E Hl Hct) as (g2 & -> & Hok2 & R2 & M2); try (intros d Hd; by apply Hcs); [lia|].
    cbn [mbind option_bind]. assert (hdr_at g2 (hdr_off f) = Some h) as Hh2 by (unfold hdr_at; by rewrite (sr_headers _ _ R2), (sr_headers _ _ R)).
    destruct (hdr_upd_spec g2 (hdr_off f) h (set_end_chunk (last_off new)) Hh2) as (g3 & -> & D & Hh3 & Eb3). cbn [mbind option_bind].
    exists g3, (inl tt). split; [done|]. split; [by rewrite Eb3, (sr_bytes _ _ R2), (sr_bytes _ _ R)|]. exists fr', new, e'.
    assert (new <> []) as Hnn by (intros ->; cbn in Hct; lia). destruct (last_off_elem new Hnn) as (l' & c' & En & Elc).
    split_and!; [by eapply chain_ok_data|lia|lia|lia| |].
    + eapply frame_trans; [apply frame_moved, (moved_trans _ (offs (cs ++ new)) _ _ _ g1 fr'); [|exact M2]|].
      * rewrite fmap_app. pose proof (moved_extra _ _ (offs cs) _ _ _ _ M) as M'. rewrite app_nil_r in M'. exact M'.
      * eapply frame_header; [exact Hok2|exact D|exact Eb3].
    + rewrite Hh3. do 2 f_equal. rewrite Elc, En, app_assoc. by rewrite last_off_snoc.
  - destruct Hr as (-> & fr' & Hseg & M). exists g1, (inr SegmentExhausted). split; [done|]. pose proof (mv_rest _ _ _ _ _ _ M) as R. split; [apply (sr_bytes _ _ R)|].
    split; [done|]. split; [lia|]. exists fr'. assert (frame (hdr_off f) (offs []) [] g fr g1 fr') as F by (by apply frame_moved).
    destruct (chain_ok_apart _ _ _ _ _ _ _ cs s e Hok Hseg (fm_apart _ _ _ _ _ _ _ F)) as (Hok1 & _); [intros d _ Hin; by apply not_elem_of_nil in Hin|]. split_and!; [done| |].
    + apply frame_moved. pose proof (moved_extra _ _ (offs cs) _ _ _ _ M) as M'. change (offs []) with (@nil Z) in M'. by rewrite app_nil_r in M'.
    + unfold hdr_at. by rewrite (sr_headers _ _ R).
Qed.

End SvmGrow.
