(* ===== verification/SvmFifoInv.v ===== *)
(** * The invariant of a byte FIFO

    A view of a FIFO: unwrapped head and tail positions, its chain of chunks
    split at the tail chunk, the ranges written ahead of the tail.  The
    invariant relates it to the segment and to the process's state; publishing
    a new tail and preparing an empty FIFO keep it. *)

From S2P Require Import Prelude Ranges InfraBitmap InfraPool InfraRbTree InfraRbOps InfraRbMap.
From S2P Require Import SvmOoo SvmOooProofs SvmMemory SvmMemoryProofs SvmFifo SvmChain SvmGrow.

Module SvmFifoInv.
Import Ranges SvmOoo SvmOooProofs SvmMemory SvmMemoryProofs SvmFifo SvmChain SvmGrow.

(** The lookup trees are ordered by the plain order of 32-bit numbers. *)
#[local] Existing Instance RbOps.Z_key_order.
Definition holds (t : lookup_tree) (m : gmap Z Z) : Prop := RbMap.holds Z.compare (fun _ : Z => True) t m.

Record view : Type := mk_view {
  vh : Z;
  vt : Z;
  vsize : Z;
  vpre : list cnode;
  vtail : cnode;
  vpost : list cnode;
  vooo : list node;
  vs : Z;
  ve : Z;
  (** whether the producer's tree names only chunks of the chain *)
  vix : bool
}.
Definition chain (v : view) : list cnode := vpre v ++ vtail v :: vpost v.
Definition vfirst (v : view) : cnode := match vpre v with [] => vtail v | c :: _ => c end.

Implicit Types (g : segment) (fr : frees) (f : Fifo) (v : view) (c d : cnode) (cs : list cnode) (B : Z -> Z) (h : SvmFifoShared).

(** Positions whose bytes matter. *)
Definition live v (y : Z) : Prop := vh v <= y < vt v \/ covered (vooo v) y.

(** Every entry of the producer's tree is a chunk from the tail chunk on. *)
Definition enq_ok v (m : gmap Z Z) : Prop :=
  forall k o, m !! k = Some o -> exists c, c ∈ vtail v :: vpost v /\ k = wr (clo c) /\ o = coff c /\
    (c = vtail v -> vooo v <> [] \/ vt v = clo (vtail v)).

Record header_ok g v h : Prop := {
  hk_start : h_start_chunk h = coff (vfirst v);
  hk_head_chunk : h_head_chunk h = coff (vfirst v);
  hk_end : h_end_chunk h = last_off (chain v);
  hk_head : h_head h = wr (vh v);
  hk_tail : h_tail h = wr (vt v);
  hk_size : h_size h = vsize v;
  hk_slice : 0 <= h_slice_index h < vlen (slices g)
}.

Record positions v : Prop := {
  ps_head : vs v <= vh v <= chi (vfirst v);
  ps_used : vh v <= vt v <= vh v + vsize v;
  ps_tail : clo (vtail v) <= vt v <= chi (vtail v);
  ps_size : 0 < vsize v <= 2 ^ 31 - 2 ^ 24;
  ps_ahead n : n ∈ vooo v -> vt v < lo n /\ hi n <= vh v + vsize v /\ hi n <= ve v
}.

(** The invariant but for the tail chunk of the header and the data. *)
Record fifo_mid g fr f v h : Prop := {
  fk_chain : chain_ok g fr (chain v) (vs v) (ve v);
  fk_at : hdr_at g (hdr_off f) = Some h;
  fk_hdr : header_ok g v h;
  fk_pos : positions v;
  fk_ooo : ooo_ok (vt v) (ooo_list f) (vooo v);
  fk_enq : exists m, holds (ooo_enq_lookup f) m /\ (vix v = true -> enq_ok v m);
  fk_deq : exists m, holds (ooo_deq_lookup f) m
}.

Record fifo_ok g fr f v B : Prop := {
  fo_mid : exists h, fifo_mid g fr f v h /\ h_tail_chunk h = coff (vtail v);
  fo_data : content (bytes g) (chain v) (live v) B
}.

(** ** The chain of a view *)

Lemma chain_tail v : vtail v ∈ chain v.
Proof. apply elem_of_app. right. left. Qed.
Lemma chain_first v : exists l, chain v = vfirst v :: l.
Proof. unfold chain, vfirst. destruct (vpre v) as [|c l]; cbn; by eexists. Qed.
Lemma first_off_chain v nxt : first_off (chain v) nxt = coff (vfirst v).
Proof. destruct (chain_first v) as [l ->]. done. Qed.
Lemma chain_nonempty v : chain v <> [].
Proof. destruct (chain_first v) as [l ->]. done. Qed.

Section Mid.
Context g fr f v h (HM : fifo_mid g fr f v h).

Lemma mid_first_lo : clo (vfirst v) = vs v.
Proof. pose proof (ch_contig _ _ _ _ _ (fk_chain _ _ _ _ _ HM)) as H. destruct (chain_first v) as [l E]. rewrite E in H. by destruct H. Qed.

Lemma mid_bounds c : c ∈ chain v -> 0 < coff c < 2 ^ 32 /\ 2 ^ 12 <= clen c <= 2 ^ 22 /\ vs v <= clo c < chi c /\ chi c <= ve v /\ ve v - vs v < 2 ^ 31.
Proof.
  intros Hc. pose proof (chain_bounds _ _ _ _ _ (fk_chain _ _ _ _ _ HM) c Hc). pose proof (ch_span _ _ _ _ _ (fk_chain _ _ _ _ _ HM)). lia.
Qed.

(** Keys of different chunks differ. *)
Lemma mid_keys c d : c ∈ chain v -> d ∈ chain v -> wr (clo c) = wr (clo d) -> c = d.
Proof.
  intros Hc Hd E. pose proof (mid_bounds c Hc) as Bc. pose proof (mid_bounds d Hd) as Bd.
  assert (clo c = clo d) as Ec.
  { assert (wsub32 (wr (clo c)) (wr (vs v)) = wsub32 (wr (clo d)) (wr (vs v))) as E2 by (by rewrite E). rewrite !wsub_wr in E2 by lia. lia. }
  eapply (contig_unique _ _ _ c d (clo c) (ch_contig _ _ _ _ _ (fk_chain _ _ _ _ _ HM))); try done; lia.
Qed.

Lemma mid_window n : n ∈ vooo v -> vt v < lo n < hi n /\ hi n <= ve v.
Proof.
  intros Hn. pose proof (inside_elem _ _ n (oo_inside _ _ _ (fk_ooo _ _ _ _ _ HM)) Hn). pose proof (ps_ahead _ (fk_pos _ _ _ _ _ HM) n Hn). lia.
Qed.

Lemma mid_live y : live v y -> vs v <= y < ve v.
Proof.
  pose proof (mid_bounds _ (chain_tail v)). destruct (fk_pos _ _ _ _ _ HM) as [P1 P2 P3 P4 P5].
  intros [Hy|(r & (n & -> & Hn)%list_elem_of_fmap & Hr)]; [lia|]. pose proof (mid_window n Hn). cbn in Hr. lia.
Qed.
End Mid.

(** The list of ranges is empty when its head is the invalid index. *)
Lemma ooo_head_eqb T o ns : ooo_ok T o ns -> (ooos_list_head o =? OOO_SEGMENT_INVALID_INDEX) = bool_decide (ns = []).
Proof.
  intros H. pose proof (oo_list _ _ _ H) as Hl. rewrite (lo_head _ _ _ Hl). destruct ns as [|n ns]; cbn [first_idx]; [done|].
  rewrite (lo_not_invalid _ _ _ n Hl) by left. by rewrite bool_decide_false.
Qed.

(** ** Publishing a tail *)

Lemma clear_enq_loop_spec n g fr cs s e l1 c l2 t m x :
  chain_ok g fr cs s e -> cs = l1 ++ c :: l2 -> clo c <= x <= e -> holds t m -> (length l2 < n)%nat ->
  exists t' m' p c' l2', clear_enq_loop n g t (coff c) (wr x) = Some (t', coff c') /\ holds t' m' /\
    c :: l2 = p ++ c' :: l2' /\ clo c' <= x <= chi c' /\
    (forall k o, m' !! k = Some o -> m !! k = Some o /\ forall d, d ∈ p -> k <> wr (clo d)).
Proof.
  intros Hok. revert l1 c l2 t m. induction n as [|n IH]; intros l1 c l2 t m E Hx Ht Hn; [lia|]. cbn [clear_enq_loop].
  assert (c ∈ cs) as Hc by (rewrite E; apply elem_of_app; right; left). rewrite (chain_nonzero _ _ _ _ _ Hok c Hc).
  destruct (chain_at _ _ _ _ _ Hok l1 c l2 E) as (ch & -> & Hh). cbn [mbind option_bind]. pose proof (chain_bounds _ _ _ _ _ Hok c Hc) as Bc.
  rewrite (includes_eq _ _ _ _ _ Hok c _ ch x Hc Hh) by lia. rewrite (proj2 (Z.leb_le _ _)) by lia. cbn [andb].
  destruct (Z.ltb_spec x (chi c)) as [Hlt|Hge].
  { exists t, m, [], c, l2. split_and!; try done; [lia|lia|]. intros k o Hk. split; [done|]. by intros d ?%not_elem_of_nil. }
  destruct Hh as (-> & _ & ->). destruct l2 as [|d l2]; cbn [first_off].
  { exists t, m, [], c, []. split_and!; try done; [lia| |].
    - pose proof (ch_contig _ _ _ _ _ Hok) as Hct. rewrite E in Hct. apply contig_snoc in Hct as [-> _]. lia.
    - intros k o Hk. split; [done|]. by intros d ?%not_elem_of_nil. }
  assert (cs = (l1 ++ [c]) ++ d :: l2) as E' by (by rewrite <- app_assoc). assert (d ∈ cs) as Hd by (rewrite E'; apply elem_of_app; right; left).
  rewrite (chain_nonzero _ _ _ _ _ Hok d Hd). unfold lookup_remove.
  destruct (RbMap.holds_remove Z.compare (fun _ => True) t m (wr (clo c)) Ht I) as (t1 & -> & Ht1). cbn [mbind option_bind].
  assert (clo d = chi c) as Ed by (pose proof (ch_contig _ _ _ _ _ Hok) as Hct; rewrite E in Hct; by apply contig_app in Hct as (b & _ & _ & _ & Hct & _)).
  destruct (IH (l1 ++ [c]) d l2 t1 (delete (wr (clo c)) m) E' ltac:(lia) Ht1 ltac:(cbn in Hn; lia)) as (t' & m' & p & c' & l2' & -> & Ht' & El & Hx' & Hm).
  exists t', m', (c :: p), c', l2'. rewrite El. split_and!; try done; [lia|lia|]. intros k o Hk. destruct (Hm k o Hk) as [Hk1 Hk2].
  apply lookup_delete_Some in Hk1 as [Hne Hk1]. split; [done|]. intros d' [->|Hd']%elem_of_cons; [done|by apply Hk2].
Qed.


Lemma vfirst_chain v v' : chain v' = chain v -> vfirst v' = vfirst v.
Proof. intros E. destruct (chain_first v) as [l El], (chain_first v') as [l' El']. congruence. Qed.

(** The view after the tail has moved to [tail] and over what it reaches. *)
Record advanced v (tail : Z) v' : Prop := {
  ad_head : vh v' = vh v;
  ad_size : vsize v' = vsize v;
  ad_chain : chain v' = chain v;
  ad_start : vs v' = vs v;
  ad_end : ve v' = ve v;
  ad_tail : vt v' = snd (promote (vooo v) tail);
  ad_ooo : vooo v' = fst (promote (vooo v) tail)
}.

(** Clearing the producer's tree from a chunk [c] up to a new tail; the tree
    stays sound ([ix]) when [c] is the tail chunk. *)
Definition clears_from v (l1 : list cnode) c (l2 : list cnode) (ix : bool) : Prop :=
  chain v = l1 ++ c :: l2 /\ (ix = true -> vix v = true /\ c = vtail v /\ l2 = vpost v).

Lemma clear_enq_spec g fr f v h x l1 c l2 ix :
  fifo_mid g fr f v h -> clears_from v l1 c l2 ix -> clo c <= x <= ve v ->
  forall o ns', ooo_ok x o ns' ->
  exists g' t' m' p c' l2', clear_enq_chunks g (set_ooo o f) (coff c) (wr x) = Some (g', set_enq_lookup t' (set_ooo o f)) /\
    data_step (hdr_off f) g g' /\ bytes g' = bytes g /\ hdr_at g' (hdr_off f) = Some (set_tail_chunk (coff c') h) /\
    c :: l2 = p ++ c' :: l2' /\ clo c' <= x <= chi c' /\ holds t' m' /\
    (ix = true -> forall k a, m' !! k = Some a -> exists d, d ∈ c' :: l2' /\ k = wr (clo d) /\ a = coff d /\ (d = c' -> ns' <> [])).
Proof.
  intros HM [Ev Hix] Hx o ns' Ho. pose proof (fk_chain _ _ _ _ _ HM) as Hok. unfold clear_enq_chunks. destruct (fk_enq _ _ _ _ _ HM) as (m & Hm & Henq).
  destruct (clear_enq_loop_spec (chunk_fuel g) g fr (chain v) (vs v) (ve v) l1 c l2 (ooo_enq_lookup f) m x Hok Ev Hx Hm)
    as (t1 & m1 & p & c' & l2' & E & Ht1 & El & Hc' & Hm1).
  { pose proof (chain_fuel _ _ _ _ _ Hok) as Hf. rewrite Ev, length_app in Hf. cbn in Hf. lia. }
  cbn [ooo_enq_lookup set_ooo]. rewrite E. cbn [mbind option_bind].
  assert (chain v = (l1 ++ p) ++ c' :: l2') as Ech by (by rewrite Ev, El, app_assoc).
  assert (c' ∈ chain v) as Hin by (rewrite Ech; apply elem_of_app; right; left). rewrite (chain_nonzero _ _ _ _ _ Hok c' Hin). cbn [negb].
  destruct (chain_at _ _ _ _ _ Hok _ c' l2' Ech) as (ch & -> & (Es & _)). cbn [mbind option_bind ooo_list set_ooo]. rewrite Es, (ooo_head_eqb x o ns' Ho).
  assert (exists t' m', (if bool_decide (ns' = []) then lookup_remove t1 (wr (clo c')) else Some t1) = Some t' /\ holds t' m' /\
    (forall k a, m' !! k = Some a -> m1 !! k = Some a /\ (ns' = [] -> k <> wr (clo c')))) as (t' & m' & -> & Ht' & Hm').
  { case_bool_decide as Ens.
    - unfold lookup_remove. destruct (RbMap.holds_remove Z.compare (fun _ => True) t1 m1 (wr (clo c')) Ht1 I) as (t2 & -> & Ht2). cbn [mbind option_bind].
      exists t2, (delete (wr (clo c')) m1). split_and!; [done..|]. by intros k a [Hne Hk]%lookup_delete_Some.
    - exists t1, m1. split_and!; [done..|]. intros k a Hk. by split. }
  cbn [mbind option_bind hdr_off set_ooo]. destruct (hdr_upd_spec g (hdr_off f) h (set_tail_chunk (coff c')) (fk_at _ _ _ _ _ HM)) as (g' & -> & D & Hh' & Eb).
  cbn [mbind option_bind]. exists g', t', m', p, c', l2'. split_and!; try done; try lia.
  intros Hb k a Hk. destruct (Hix Hb) as (Hv & -> & ->). destruct (Hm' k a Hk) as [Hk1 Hk2]. destruct (Hm1 k a Hk1) as [Hk3 Hk4].
  destruct (Henq Hv k a Hk3) as (d & Hd & Ek & Ea & _).
  exists d. rewrite El in Hd. apply elem_of_app in Hd as [Hd|Hd]; [by destruct (Hk4 d Hd)|]. split_and!; try done. intros -> ->. by apply Hk2.
Qed.

Lemma publish_spec g fr f v h tail l1 c l2 ix :
  fifo_mid g fr f v h -> clears_from v l1 c l2 ix -> clo c <= tail -> vt v <= tail -> tail <= ve v -> tail <= vh v + vsize v ->
  exists g' f' v', publish_tail g f (coff c) (wr tail) = Some (g', f', vt v' - tail) /\ advanced v tail v' /\ vix v' = ix /\ hdr_off f' = hdr_off f /\
    (forall B, content (bytes g) (chain v) (fun y => vh v <= y < tail \/ covered (vooo v) y) B -> fifo_ok g' fr f' v' B) /\
    frame (hdr_off f) (offs (chain v)) (offs (chain v)) g fr g' fr.
Proof.
  intros HM Hcl Hclo Hlo Hhi Hsz. pose proof (fk_chain _ _ _ _ _ HM) as Hok. pose proof (fk_pos _ _ _ _ _ HM) as [P1 P2 P3 P4 P5]. unfold publish_tail.
  destruct (promote_from_spec (vt v) (ooo_list f) (vooo v) tail (fk_ooo _ _ _ _ _ HM)) as (o & -> & Ho).
  { pose proof (mid_bounds _ _ _ _ _ HM _ (chain_tail v)). lia. }
  cbn [mbind option_bind].
  destruct (promote_spec (vooo v) tail (oo_ordered _ _ _ (fk_ooo _ _ _ _ _ HM))) as (A1 & A2 & A3 & A4 & A5 & A6 & A7).
  { intros n Hn. pose proof (mid_window _ _ _ _ _ HM n Hn). lia. }
  set (T' := snd (promote (vooo v) tail)) in *. set (ns' := fst (promote (vooo v) tail)) in *. rewrite wadd_wr, Zplus_minus.
  assert (T' <= ve v /\ T' <= vh v + vsize v) as [HT1 HT2].
  { destruct A7 as [->|(n & Hn & ->)]; [lia|]. pose proof (P5 n Hn). lia. }
  destruct (clear_enq_spec g fr f v h T' l1 c l2 ix HM Hcl ltac:(lia) o ns' Ho) as (g1 & t' & m' & p & c' & l2' & -> & D1 & Eb1 & Hh1 & El & Hc' & Ht' & Hm').
  cbn [mbind option_bind hdr_off set_enq_lookup set_ooo]. destruct (hdr_upd_spec g1 (hdr_off f) _ (set_tail (wr T')) Hh1) as (g2 & -> & D2 & Hh2 & Eb2).
  cbn [mbind option_bind]. set (v' := mk_view (vh v) T' (vsize v) (l1 ++ p) c' l2' ns' (vs v) (ve v) ix).
  assert (chain v' = chain v) as Ech by (destruct Hcl as [-> _]; unfold chain; cbn; by rewrite El, app_assoc). pose proof (vfirst_chain v v' Ech) as Ef.
  eexists g2, _, v'. split; [done|]. split; [by constructor|]. split; [done|]. split; [done|]. assert (data_step (hdr_off f) g g2) as D by (by etransitivity). split.
  - intros B HB. constructor.
    + exists (set_tail (wr T') (set_tail_chunk (coff c') h)). split; [|done]. constructor; cbn [hdr_off ooo_enq_lookup ooo_deq_lookup ooo_list set_enq_lookup set_ooo].
      * rewrite Ech. by eapply chain_ok_data.
      * exact Hh2.
      * destruct (fk_hdr _ _ _ _ _ HM) as [K1 K2 K3 K4 K5 K6 K7]. constructor; rewrite ?Ef, ?Ech; cbn; try done. by rewrite (ds_slices _ _ _ D).
      * constructor; rewrite ?Ef; cbn; try done; [lia|]. intros n Hn. specialize (A2 n Hn). pose proof (P5 n (A4 n Hn)). lia.
      * exact Ho.
      * exists m'. split; [exact Ht'|]. intros Hb k a Hk. destruct (Hm' Hb k a Hk) as (d & Hd & Ek & Ea & Hne). exists d. split_and!; try done. intros Ed. left. by apply Hne.
      * apply (fk_deq _ _ _ _ _ HM).
    + rewrite Ech. intros d y Hd Hy Hl. rewrite Eb2, Eb1. apply HB; [done..|]. unfold live in Hl. cbn in Hl. destruct Hl as [Hl|[Hl _]%A6]; [|by right].
      destruct (decide (y < tail)); [left; lia|right; apply A5; lia].
  - eapply frame_header; [exact Hok|exact D|congruence].
Qed.

End SvmFifoInv.
