(* ===== verification/SvmFifoOps.v ===== *)
(** * Operations of a byte FIFO

    What each operation does to the view of a FIFO and to the bytes behind its
    positions, and that it keeps the invariant. *)

From S2P Require Import Prelude Ranges InfraBitmap InfraPool InfraRbTree InfraRbOps InfraRbMap.
From S2P Require Import SvmOoo SvmOooProofs SvmMemory SvmMemoryProofs SvmFifo SvmBudget SvmChain SvmGrow SvmFifoInv.

Module SvmFifoOps.
Import Ranges SvmOoo SvmOooProofs SvmMemory SvmMemoryProofs SvmFifo SvmBudget SvmChain SvmGrow SvmFifoInv.

#[local] Existing Instance RbOps.Z_key_order.

Implicit Types (g : segment) (fr : frees) (f : Fifo) (v : view) (c d : cnode) (cs : list cnode) (B : Z -> Z) (h : SvmFifoShared).

(** A change of the chain that keeps positions and ranges. *)
Record steady v v' : Prop := {
  st_head : vh v' = vh v;
  st_tail : vt v' = vt v;
  st_size : vsize v' = vsize v;
  st_ooo : vooo v' = vooo v;
  st_ix : vix v' = vix v
}.
#[export] Instance steady_preorder : PreOrder steady.
Proof. split; [by constructor|]. intros v1 v2 v3 [] []. constructor; congruence. Qed.

(** [B] with the bytes of [l] from [x] on. *)
Definition over B (x : Z) (l : list Z) : Z -> Z :=
  fun y => if decide (x <= y < x + vlen l) then default 0 (l !! Z.to_nat (y - x)) else B y.

Lemma over_nil B x y : over B x [] y = B y.
Proof. unfold over. rewrite decide_False; [done|]. unfold vlen. cbn. lia. Qed.

Lemma over_app B x l1 l2 y : over (over B x l1) (x + vlen l1) l2 y = over B x (l1 ++ l2) y.
Proof.
  unfold over. rewrite vlen_app. pose proof (vlen_nonneg l1). pose proof (vlen_nonneg l2). unfold vlen in *. destruct (decide (x + Z.of_nat (length l1) <= y < _)).
  - rewrite decide_True by lia. rewrite lookup_app_r by lia. do 2 f_equal. lia.
  - destruct (decide (x <= y < x + Z.of_nat (length l1))).
    + rewrite decide_True by lia. by rewrite lookup_app_l by lia.
    + by rewrite decide_False by lia.
Qed.

Lemma content_wrote m cs (P Q : Z -> Prop) B x src m' :
  content m cs P B -> wrote cs m x src m' -> (forall y, Q y -> P y \/ x <= y < x + vlen src) -> content m' cs Q (over B x src).
Proof.
  intros HB W HQ c y Hc Hy Hq. rewrite (wt_in _ _ _ _ _ W c y Hc Hy). unfold over. destruct (decide (x <= y < x + vlen src)); [done|].
  apply HB; [done..|]. by destruct (HQ y Hq).
Qed.

Lemma content_impl m cs (P Q : Z -> Prop) B : content m cs P B -> (forall y, Q y -> P y) -> content m cs Q B.
Proof. intros HB HQ c y Hc Hy Hq. apply HB; auto. Qed.

Lemma wr_eqb x y : - 2 ^ 31 < x - y < 2 ^ 31 -> (wr x =? wr y) = (x =? y).
Proof.
  intros Hd. destruct (Z.eqb_spec x y) as [->|Hne]; [by rewrite Z.eqb_refl|]. apply Z.eqb_neq. intros E.
  assert (wsub32 (wr x) (wr y) = wsub32 (wr y) (wr y)) as E2 by (by rewrite E). unfold wsub32, wr, wrap in *. rewrite <- !Zminus_mod, Z.sub_diag in E2.
  apply Z.mod_divide in E2; [|lia]. destruct E2 as [q Hq]. assert (q = 0) by lia. lia.
Qed.

Section Ops.
Context (avx2 : bool).

Lemma used_eq v : positions v -> wsub32 (wr (vt v)) (wr (vh v)) = vt v - vh v.
Proof. intros [P1 P2 P3 P4 P5]. apply wsub_wr. lia. Qed.

Lemma max_dequeue_spec g fr f v B : fifo_ok g fr f v B -> max_dequeue g f = Some (vt v - vh v).
Proof.
  intros [(h & HM & _) _]. unfold max_dequeue. rewrite (fk_at _ _ _ _ _ HM). cbn [mbind option_bind].
  destruct (fk_hdr _ _ _ _ _ HM) as [_ _ _ -> -> _ _]. by rewrite used_eq by apply (fk_pos _ _ _ _ _ HM).
Qed.

Lemma max_enqueue_spec g fr f v B : fifo_ok g fr f v B -> max_enqueue g f = Some (vsize v - (vt v - vh v)).
Proof.
  intros [(h & HM & _) _]. unfold max_enqueue. rewrite (fk_at _ _ _ _ _ HM). cbn [mbind option_bind]. pose proof (fk_pos _ _ _ _ _ HM) as P.
  destruct (fk_hdr _ _ _ _ _ HM) as [_ _ _ -> -> -> _]. rewrite used_eq by done. destruct P as [P1 P2 P3 P4 P5]. unfold checked_sub.
  destruct (Z.ltb_spec (vsize v) (vt v - vh v)); [lia|done].
Qed.

(** Rebasing the chunk of an empty FIFO. *)
Lemma prepare_spec g fr f v B :
  fifo_ok g fr f v B -> vh v = vt v ->
  exists g' v', prepare_empty_tail_chunk g f (wr (vt v)) = Some g' /\ steady v v' /\ fifo_ok g' fr f v' B /\
    headers g' = headers g /\ frame (hdr_off f) (offs (chain v)) (offs (chain v')) g fr g' fr.
Proof.
  intros Hok Hemp. pose proof Hok as [(h & HM & Htc) HB]. pose proof (fk_chain _ _ _ _ _ HM) as Hch. pose proof (fk_pos _ _ _ _ _ HM) as [P1 P2 P3 P4 P5].
  assert (forall r, r = Some g -> exists g' v', r = Some g' /\ steady v v' /\ fifo_ok g' fr f v' B /\ headers g' = headers g /\
     frame (hdr_off f) (offs (chain v)) (offs (chain v')) g fr g' fr) as Hskip.
  { intros r ->. by exists g, v. }
  unfold prepare_empty_tail_chunk. rewrite (fk_at _ _ _ _ _ HM). cbn [mbind option_bind]. rewrite Htc, (chain_nonzero _ _ _ _ _ Hch _ (chain_tail v)).
  destruct (chain_at _ _ _ _ _ Hch (vpre v) (vtail v) (vpost v) eq_refl) as (ch & Hc & E1 & E2 & E3). rewrite Hc. cbn [mbind option_bind]. rewrite E1, E2, E3.
  pose proof (mid_bounds _ _ _ _ _ HM _ (chain_tail v)) as Bt. rewrite (pos_in_chunk _ _ _ _ _ Hch _ _ (chain_tail v)) by lia. rewrite wr_eqb by lia.
  destruct (vpost v) as [|d post] eqn:Epost; cbn [first_off].
  2:{ rewrite (chain_nonzero _ _ _ _ _ Hch d) by (unfold chain; rewrite Epost; apply elem_of_app; right; right; left). cbn [negb]. exact (Hskip _ eq_refl). }
  cbn [Z.eqb negb]. destruct (Z.eqb_spec (clo (vtail v)) (vt v)) as [|Hne]; cbn [negb andb]; [exact (Hskip _ eq_refl)|].
  destruct (Z.leb_spec (clen (vtail v)) (vt v - clo (vtail v))) as [Hfull|]; [|exact (Hskip _ eq_refl)].
  assert (vpre v = []) as Epre.
  { destruct (vpre v) as [|c pre] eqn:E; [done|]. exfalso. unfold vfirst in P1. rewrite E in P1. pose proof (ch_contig _ _ _ _ _ Hch) as Hct. unfold chain in Hct.
    rewrite E in Hct. cbn in Hct. destruct Hct as (_ & _ & Hct). pose proof (contig_elem _ _ _ (vtail v) Hct ltac:(apply elem_of_app; right; left)). unfold chi in *. lia. }
  assert (vooo v = []) as Eooo.
  { destruct (vooo v) as [|n ns] eqn:E; [done|]. exfalso. pose proof (mid_window _ _ _ _ _ HM n ltac:(rewrite E; left)) as Hw.
    pose proof (ch_contig _ _ _ _ _ Hch) as Hct. unfold chain in Hct. rewrite Epre, Epost in Hct. cbn in Hct. unfold chi in *. lia. }
  destruct (seg_ok_upd g fr (coff (vtail v)) ch (set_c_start (wr (vt v))) (ch_seg _ _ _ _ _ Hch) Hc (ch_own _ _ _ _ _ Hch _ (chain_tail v))) as (g' & -> & Hseg & Ech & R & M); [done|].
  set (c' := mk_cnode (coff (vtail v)) (vt v) (clen (vtail v))). set (v' := mk_view (vh v) (vt v) (vsize v) [] c' [] [] (vt v) (chi c') (vix v)).
  assert (offs (chain v) = [coff (vtail v)]) as Eoff by (unfold chain; by rewrite Epre, Epost).
  exists g', v'. pose proof (sr_headers _ _ R) as Eh. split_and!; try done.
  - constructor.
    + exists h. split; [|done]. constructor.
      * constructor; cbn.
        -- done.
        -- split; [|done]. rewrite Ech. eexists. split; [apply lookup_insert_eq|]. by split_and!.
        -- split_and!; [done|lia|done].
        -- apply NoDup_singleton.
        -- intros c ->%list_elem_of_singleton. apply (ch_own _ _ _ _ _ Hch _ (chain_tail v)).
        -- unfold chi. cbn. lia.
      * unfold hdr_at. rewrite Eh. apply (fk_at _ _ _ _ _ HM).
      * destruct (fk_hdr _ _ _ _ _ HM) as [K1 K2 K3 K4 K5 K6 K7]. unfold chain, vfirst in K1, K2, K3. rewrite Epre, Epost in *. constructor; try done. by rewrite (sr_slices _ _ R).
      * constructor; cbn; unfold chi; cbn; try lia. by intros n ?%not_elem_of_nil.
      * cbn. rewrite <- Eooo. apply (fk_ooo _ _ _ _ _ HM).
      * destruct (fk_enq _ _ _ _ _ HM) as (m & Hm & Henq). exists m. split; [done|]. intros Hix k o Hk. destruct (Henq Hix k o Hk) as (c & Hcin & _ & _ & Himp).
        rewrite Epost in Hcin. apply list_elem_of_singleton in Hcin. destruct (Himp Hcin); [done|]. lia.
      * apply (fk_deq _ _ _ _ _ HM).
    + intros c y _ _ [Hy|(r & Hr & _)]; cbn in *; [lia|]. by apply not_elem_of_nil in Hr.
  - rewrite Eoff. apply frame_moved, M. left.
Qed.


(** Growing the chain keeps the view. *)
Record grown v v' : Prop := {
  gw_steady : steady v v';
  gw_pre : vpre v' = vpre v;
  gw_tail : vtail v' = vtail v;
  gw_start : vs v' = vs v;
  gw_end : ve v <= ve v'
}.

Lemma capacity_spec g fr f v B len :
  fifo_ok g fr f v B -> 0 <= len -> vt v + len <= vh v + vsize v ->
  exists g' r fr' v', ensure_chunk_capacity g f (wr (vh v)) (wr (vt v)) len = Some (g', r) /\ grown v v' /\ fifo_ok g' fr' f v' B /\
    frame (hdr_off f) (offs (chain v)) (offs (chain v')) g fr g' fr' /\
    match r with inl _ => vt v + len <= ve v' | inr er => er = SegmentExhausted /\ v' = v /\ ve v < vt v + len end.
Proof.
  intros [(h & HM & Htc) HB] Hl Hsz. pose proof (fk_chain _ _ _ _ _ HM) as Hch. pose proof (fk_pos _ _ _ _ _ HM) as [P1 P2 P3 P4 P5].
  pose proof (fk_hdr _ _ _ _ _ HM) as [K1 K2 K3 K4 K5 K6 K7]. pose proof (mid_bounds _ _ _ _ _ HM _ (chain_tail v)) as Bt.
  assert (vfirst v ∈ chain v) as Hfst by (destruct (chain_first v) as [l ->]; left). pose proof (mid_bounds _ _ _ _ _ HM _ Hfst) as Bf.
  pose proof (mid_first_lo _ _ _ _ _ HM) as Ef. unfold chi in P1, Bf.
  destruct (ensure_spec g f fr (chain v) (vs v) (ve v) h (vh v) (vt v) len Hch (chain_nonempty v) (fk_at _ _ _ _ _ HM)) as (g' & r & E & Eb & Hr); try done; try lia.
  destruct r as [[]|er].
  - destruct Hr as (fr' & new & e' & Hch' & He1 & He2 & _ & F & Hh'). set (v' := mk_view (vh v) (vt v) (vsize v) (vpre v) (vtail v) (vpost v ++ new) (vooo v) (vs v) e' (vix v)).
    assert (chain v' = chain v ++ new) as Ech by (unfold chain; cbn; by rewrite <- app_assoc).
    exists g', (inl tt), fr', v'. split; [done|]. split; [by constructor|]. split_and!; [|by rewrite Ech|done]. constructor.
    + exists (set_end_chunk (last_off (chain v ++ new)) h). split; [|done]. constructor; rewrite ?Ech; try done.
      * constructor; rewrite ?Ech; try done. by rewrite (fm_slices _ _ _ _ _ _ _ (fm_apart _ _ _ _ _ _ _ F)).
      * constructor; cbn; try done. intros n Hn. pose proof (P5 n Hn). lia.
      * apply (fk_ooo _ _ _ _ _ HM).
      * destruct (fk_enq _ _ _ _ _ HM) as (m & Hm & Henq). exists m. split; [done|]. intros Hix k o Hk. destruct (Henq Hix k o Hk) as (c & Hc & Hrest). exists c. split; [|done].
        cbn. rewrite app_comm_cons. apply elem_of_app. by left.
      * apply (fk_deq _ _ _ _ _ HM).
    + rewrite Ech, Eb. intros c y [Hc|Hc]%elem_of_app Hy Hlive; [by apply HB|]. pose proof (mid_live _ _ _ _ _ HM y Hlive) as Hyl.
      pose proof (ch_contig _ _ _ _ _ Hch') as (b & Hct1 & Hct2)%contig_app. pose proof (contig_elem _ _ _ c Hct2 Hc).
      assert (b = ve v) as Ebv by (eapply contig_end; [exact Hct1|apply (ch_contig _ _ _ _ _ Hch)]). lia.
  - destruct Hr as (-> & Hlt & fr' & Hch' & F & Hh'). exists g', (inr SegmentExhausted), fr', v. split; [done|]. split; [constructor; done|]. split_and!; try done.
    constructor; [|by rewrite Eb]. exists h. split; [|done]. destruct HM. constructor; try done. constructor; try done. by rewrite (fm_slices _ _ _ _ _ _ _ (fm_apart _ _ _ _ _ _ _ F)).
Qed.

(** With room for it, the chain grows. *)
Lemma capacity_room g fr f v B len g' r :
  fifo_ok g fr f v B -> 0 <= len -> vt v + len <= vh v + vsize v -> ensure_chunk_capacity g f (wr (vh v)) (wr (vt v)) len = Some (g', r) ->
  room g (grow_cost len) -> r = inl tt /\ took (grow_cost len) g g'.
Proof.
  intros [(h & HM & Htc) HB] Hl Hsz E Hroom. pose proof (fk_pos _ _ _ _ _ HM) as [P1 P2 P3 P4 P5]. pose proof (ch_span _ _ _ _ _ (fk_chain _ _ _ _ _ HM)) as Hsp.
  pose proof (mid_bounds _ _ _ _ _ HM _ (chain_tail v)) as Bt. destruct (last_off_elem _ (chain_nonempty v)) as (l & c & Ec & El).
  destruct (chain_at _ _ _ _ _ (fk_chain _ _ _ _ _ HM) l c [] Ec) as (ch & Hch & Hh).
  assert (ve v = chi c) as Ee by (pose proof (ch_contig _ _ _ _ _ (fk_chain _ _ _ _ _ HM)) as Hct; rewrite Ec in Hct; by apply contig_snoc in Hct as [? _]).
  apply (ensure_took g f h ch _ _ _ (ve v) _ _ E (fk_at _ _ _ _ _ HM)); try done; try lia; [by rewrite (hk_end _ _ _ (fk_hdr _ _ _ _ _ HM)), El|].
  by rewrite (chunk_end_eq c _ ch Hh), Ee.
Qed.

(** What an in-order write of [w] bytes of [src] does. *)
Record enqueued off g fr v B (src : list Z) (w : Z) g' fr' f' v' : Prop := {
  eq_head : vh v' = vh v;
  eq_size : vsize v' = vsize v;
  eq_tail : vt v' = snd (promote (vooo v) (vt v + w));
  eq_ooo : vooo v' = fst (promote (vooo v) (vt v + w));
  eq_ix : vix v' = vix v;
  eq_ok : fifo_ok g' fr' f' v' (over B (vt v) (take (Z.to_nat w) src));
  eq_off : hdr_off f' = off;
  eq_frame : frame off (offs (chain v)) (offs (chain v')) g fr g' fr'
}.


(** In the middle of a write: the bytes up to [x] are there, the tail is not
    moved yet and the tail chunk of the header may be ahead. *)
Definition appending g fr f v B (x : Z) : Prop :=
  exists h l1 c l2, fifo_mid g fr f v h /\ h_tail_chunk h = coff c /\ chain v = l1 ++ c :: l2 /\ clo c <= x <= chi c /\
    content (bytes g) (chain v) (fun y => live v y \/ vt v <= y < x) B.

Lemma appending_start g fr f v B : fifo_ok g fr f v B -> appending g fr f v B (vt v).
Proof.
  intros [(h & HM & Htc) HB]. exists h, (vpre v), (vtail v), (vpost v). split_and!; try done; [apply (ps_tail _ (fk_pos _ _ _ _ _ HM))..|].
  eapply content_impl; [exact HB|]. intros y [?|?]; [done|lia].
Qed.

Lemma append_step g fr f v B x src :
  appending g fr f v B x -> vt v <= x -> x + vlen src <= ve v ->
  exists g', append_at_tail_without_tail_store avx2 g f (wr x) src = Some (g', vlen src) /\
    appending g' fr f v (over B x src) (x + vlen src) /\ frame (hdr_off f) (offs (chain v)) (offs (chain v)) g fr g' fr.
Proof.
  intros (h & l1 & c & l2 & HM & Htc & Ev & Hx & HB) Hlo Hhi. pose proof (fk_chain _ _ _ _ _ HM) as Hok. unfold append_at_tail_without_tail_store.
  assert (content (bytes g) (chain v) (fun y => live v y \/ vt v <= y < x) (over B x [])) as HB0 by (intros d y Hd Hy Hl; rewrite over_nil; by apply HB).
  destruct src as [|b src0].
  { exists g. change (vlen []) with 0. rewrite Z.add_0_r. split_and!; [done| |apply frame_refl]. by exists h, l1, c, l2. }
  set (src := b :: src0) in *. rewrite (fk_at _ _ _ _ _ HM). cbn [mbind option_bind]. rewrite Htc.
  destruct (append_loop_spec avx2 f g fr (chain v) (vs v) (ve v) (2 * chunk_fuel g) l1 c l2 x src 0 h Hok Ev Hx Hhi (fk_at _ _ _ _ _ HM) Htc)
    as (g' & l & c' & l' & -> & D & Hh' & El & Hc' & W).
  { pose proof (chain_fuel _ _ _ _ _ Hok) as Hf. rewrite Ev, length_app in Hf. unfold append_rounds, src. cbn [length] in Hf. case_decide; lia. }
  exists g'. split; [done|]. split; [|by eapply frame_data]. exists (set_tail_chunk (coff c') h), (l1 ++ l), c', l'. split_and!; try lia.
  - destruct HM as [M1 M2 [K1 K2 K3 K4 K5 K6 K7] M4 M5 M6 M7]. constructor; try done; [by eapply chain_ok_data|]. constructor; try done. by rewrite (ds_slices _ _ _ D).
  - done.
  - by rewrite <- app_assoc, <- El.
  - eapply content_wrote; [exact HB|exact W|]. intros y [Hl|Hy]; [left; by left|]. destruct (decide (y < x)); [left; right; lia|right; lia].
Qed.

(** Publishing what an in-order write has appended. *)
Lemma publish_appended g fr f v B x l1 c l2 ix :
  appending g fr f v B x -> clears_from v l1 c l2 ix -> clo c <= x -> vt v <= x -> x <= ve v -> x <= vh v + vsize v ->
  exists g' f' v', publish_tail g f (coff c) (wr x) = Some (g', f', vt v' - x) /\ advanced v x v' /\ vix v' = ix /\ hdr_off f' = hdr_off f /\
    fifo_ok g' fr f' v' B /\ frame (hdr_off f) (offs (chain v)) (offs (chain v)) g fr g' fr.
Proof.
  intros (h & l1' & c' & l2' & HM & _ & _ & _ & HB) Hcl H1 H2 H3 H4.
  destruct (publish_spec g fr f v h x l1 c l2 ix HM Hcl H1 H2 H3 H4) as (g' & f' & v' & E & A & Hv & Ef & Hok & F).
  exists g', f', v'. split_and!; try done. apply Hok. eapply content_impl; [exact HB|]. unfold live. intros y [Hy|Hy]; [|tauto].
  destruct (decide (y < vt v)); [left; left; lia|right; lia].
Qed.

Lemma promote_none v : positions v -> promote (vooo v) (vt v) = (vooo v, vt v).
Proof.
  intros P. destruct (vooo v) as [|n ns] eqn:E; [done|]. cbn. pose proof (ps_ahead _ P n ltac:(rewrite E; left)).
  destruct (Z.leb_spec (lo n) (vt v)); [lia|done].
Qed.

(** A call that writes nothing. *)
Lemma enqueued_none g fr f v B src g' fr' v' :
  fifo_ok g fr f v B -> steady v v' -> fifo_ok g' fr' f v' B -> frame (hdr_off f) (offs (chain v)) (offs (chain v')) g fr g' fr' ->
  enqueued (hdr_off f) g fr v B src 0 g' fr' f v'.
Proof.
  intros [(h & HM & _) _] [S1 S2 S3 S4 S5] Hok F. pose proof (promote_none v (fk_pos _ _ _ _ _ HM)) as E.
  constructor; try done; rewrite ?Z.add_0_r, ?E; try done. destruct Hok as [HM' HB]. constructor; [done|]. intros c y Hc Hy Hl. cbn. rewrite over_nil. by apply HB.
Qed.

(** The ooo pool's note of the newest range is not part of the invariant. *)
Lemma fifo_ok_newest g fr f v B i : fifo_ok g fr f v B -> fifo_ok g fr (set_newest i f) v B.
Proof. intros [(h & [M1 M2 M3 M4 [O1 O2 O3] M6 M7] & Htc) HB]. constructor; [|done]. exists h. split; [|done]. by constructor. Qed.


(** The start of every in-order write. *)
Lemma start_top g f a t g' : (if a =? t then prepare_empty_tail_chunk g f t else Some g) = Some g' -> top g' = top g.
Proof. destruct (a =? t); [apply prepare_top|by intros [= ->]]. Qed.

Lemma start_write g fr f v B h :
  fifo_ok g fr f v B -> hdr_at g (hdr_off f) = Some h ->
  exists g' v', (if h_head h =? h_tail h then prepare_empty_tail_chunk g f (h_tail h) else Some g) = Some g' /\ steady v v' /\ fifo_ok g' fr f v' B /\
    headers g' = headers g /\ frame (hdr_off f) (offs (chain v)) (offs (chain v')) g fr g' fr.
Proof.
  intros Hok Hh. pose proof Hok as [(h' & HM & _) _]. rewrite (fk_at _ _ _ _ _ HM) in Hh. injection Hh as ->.
  destruct (fk_hdr _ _ _ _ _ HM) as [_ _ _ -> -> _ _]. destruct (fk_pos _ _ _ _ _ HM) as [P1 P2 P3 P4 P5]. rewrite wr_eqb by lia.
  destruct (Z.eqb_spec (vh v) (vt v)) as [E|]; [by apply prepare_spec|by exists g, v].
Qed.

Lemma steady_grown v v1 v2 : steady v v1 -> grown v1 v2 -> steady v v2.
Proof. intros S [G _ _ _ _]. by etransitivity. Qed.

(** Writing [src] at the tail and publishing it, in a chain that has room. *)
Lemma write_publish g fr f v B src :
  fifo_ok g fr f v B -> vt v + vlen src <= ve v -> vt v + vlen src <= vh v + vsize v ->
  exists g1 g' f' v', append_at_tail_without_tail_store avx2 g f (wr (vt v)) src = Some (g1, vlen src) /\
    publish_tail g1 f (coff (vtail v)) (wr (vt v + vlen src)) = Some (g', f', vt v' - (vt v + vlen src)) /\
    enqueued (hdr_off f) g fr v B src (vlen src) g' fr f' v' /\ ve v' = ve v.
Proof.
  intros Hok H1 H2. destruct (append_step g fr f v B (vt v) src (appending_start _ _ _ _ _ Hok) ltac:(lia) H1) as (g1 & E1 & A1 & F1).
  pose proof Hok as [(h & HM & _) _]. pose proof (ps_tail _ (fk_pos _ _ _ _ _ HM)) as Ht. pose proof (vlen_nonneg src).
  destruct (publish_appended g1 fr f v _ _ (vpre v) (vtail v) (vpost v) (vix v) A1) as (g' & f' & v' & E2 & [D1 D2 D3 D4 D5 D6 D7] & Hv & Ef & Hok' & F2); try lia.
  { split; [done|]. intros Hix. by split_and!. }
  exists g1, g', f', v'. split_and!; try done. constructor; try done.
  - unfold vlen. rewrite Nat2Z.id, firstn_all. done.
  - rewrite D3. by eapply frame_trans.
Qed.

(** A tail at the end of the chain has nothing ahead. *)
Lemma promote_at_end g fr f v h : fifo_mid g fr f v h -> snd (promote (vooo v) (ve v)) = ve v.
Proof.
  intros HM. destruct (promote_spec (vooo v) (ve v) (oo_ordered _ _ _ (fk_ooo _ _ _ _ _ HM))) as (A1 & _ & _ & _ & _ & _ & A7).
  { intros n Hn. pose proof (mid_window _ _ _ _ _ HM n Hn). lia. }
  destruct A7 as [->|(n & Hn & E)]; [done|]. pose proof (mid_window _ _ _ _ _ HM n Hn). lia.
Qed.

(** An in-order write takes as many bytes as the capacity allows, or as many as
    the chain holds when the segment has no chunk left. *)
Lemma enqueue_in_order_spec g fr f v B src :
  fifo_ok g fr f v B ->
  exists g' f' fr' v' w, enqueue_in_order avx2 g f src = Some (g', f', (w, vt v' - (vt v + w))) /\
    enqueued (hdr_off f) g fr v B src w g' fr' f' v' /\ 0 <= w <= Z.min (vlen src) (vsize v - (vt v - vh v)) /\
    (w < Z.min (vlen src) (vsize v - (vt v - vh v)) -> vt v' = ve v') /\
    (room g (grow_cost (vlen src)) -> w = Z.min (vlen src) (vsize v - (vt v - vh v)) /\ took (grow_cost (vlen src)) g g').
Proof.
  intros Hok0. unfold enqueue_in_order. set (f1 := set_newest _ f). pose proof (fifo_ok_newest g fr f v B OOO_SEGMENT_INVALID_INDEX Hok0) as Hok. fold f1 in Hok.
  change (hdr_off f) with (hdr_off f1). clearbody f1. clear Hok0 f. rename f1 into f. pose proof (vlen_nonneg src) as Hsn.
  pose proof Hok as [(h & HM & Htc) _]. pose proof (fk_pos _ _ _ _ _ HM) as P. pose proof P as [P1 P2 P3 P4 P5].
  assert (forall g' fr' v', steady v v' -> fifo_ok g' fr' f v' B -> frame (hdr_off f) (offs (chain v)) (offs (chain v')) g fr g' fr' ->
    (0 < Z.min (vlen src) (vsize v - (vt v - vh v)) -> vt v' = ve v') ->
    (room g (grow_cost (vlen src)) -> Z.min (vlen src) (vsize v - (vt v - vh v)) = 0 /\ top g' = top g) ->
    exists g'' f' fr' v' w, Some (g', f, (0, 0)) = Some (g'', f', (w, vt v' - (vt v + w))) /\ enqueued (hdr_off f) g fr v B src w g'' fr' f' v' /\
      0 <= w <= Z.min (vlen src) (vsize v - (vt v - vh v)) /\ (w < Z.min (vlen src) (vsize v - (vt v - vh v)) -> vt v' = ve v') /\
      (room g (grow_cost (vlen src)) -> w = Z.min (vlen src) (vsize v - (vt v - vh v)) /\ took (grow_cost (vlen src)) g g'')) as Hzero.
  { intros g' fr' v' S Hok' F Hfull Hroom. exists g', f, fr', v', 0. destruct S as [S1 S2 S3 S4 S5] eqn:ES. rewrite S2.
    split_and!; try lia; [do 3 f_equal; lia|by apply enqueued_none|]. intros [-> Ht]%Hroom. split; [done|].
    eapply took_weaken, top_took, Ht. by apply grow_cost_nonneg. }
  destruct src as [|b src0] eqn:Esrc; [apply (Hzero g fr v); try done; change (vlen []) with 0; [lia|intros; split; [lia|done]]|]. rewrite <- Esrc in *. clear Esrc.
  rewrite (fk_at _ _ _ _ _ HM). cbn [mbind option_bind]. destruct (start_write g fr f v B h Hok (fk_at _ _ _ _ _ HM)) as (g1 & v1 & Est & S1 & Hok1 & Eh1 & F1).
  pose proof (start_top _ _ _ _ _ Est) as Etop. rewrite Est.
  cbn [mbind option_bind]. pose proof (fk_hdr _ _ _ _ _ HM) as [_ _ _ -> -> -> _]. rewrite used_eq by done. unfold checked_sub.
  destruct (Z.ltb_spec (vsize v) (vt v - vh v)); [lia|]. cbn [mbind option_bind]. set (n := Z.min (vlen src) (vsize v - (vt v - vh v))) in *.
  destruct (Z.eqb_spec n 0) as [Hn0|Hn0]; [apply (Hzero g1 fr v1); try done; lia|].
  assert (room g (grow_cost (vlen src)) -> room g1 (grow_cost n)) as Hroom1.
  { intros Hroom. eapply top_room; [exact Etop|]. eapply room_weaken, Hroom. apply grow_cost_mono. lia. }
  pose proof S1 as [A1 A2 A3 A4 A5].
  destruct (capacity_spec g1 fr f v1 B n Hok1) as (g2 & r & fr2 & v2 & Ecap & G2 & Hok2 & F2 & Hr); [lia..|]. pose proof (fun R => capacity_room g1 fr f v1 B n g2 r Hok1 ltac:(lia) ltac:(lia) Ecap (Hroom1 R)) as Hcap.
  rewrite A1, A2 in Ecap. rewrite Ecap. cbn [mbind option_bind].
  pose proof (steady_grown v v1 v2 S1 G2) as S2. pose proof S2 as [C1 C2 C3 C4 C5]. assert (frame (hdr_off f) (offs (chain v)) (offs (chain v2)) g fr g2 fr2) as F by (by eapply frame_trans).
  pose proof Hok2 as [(h2 & HM2 & Htc2) _]. pose proof (mid_bounds _ _ _ _ _ HM2 _ (chain_tail v2)) as Bt. pose proof (ps_tail _ (fk_pos _ _ _ _ _ HM2)) as Pt.
  assert (exists k, match r with
     | inl _ => Some n
     | inr _ => h3 ← hdr_at g2 (hdr_off f); last ← chunk_at g2 (h_end_chunk h3); Some (Z.min n (wsub32 (f_chunk_end last) (wr (vt v))))
     end = Some k /\ 0 <= k <= n /\ vt v + k <= ve v2 /\ (k < n -> vt v + k = ve v2) /\ (r = inl tt -> k = n)) as (k & -> & Hk & Hke & Hks & Hkn).
  { destruct r as [u|er]; [exists n; split_and!; try done; lia|]. destruct Hr as (_ & -> & Hlt). rewrite (fk_at _ _ _ _ _ HM2). cbn [mbind option_bind].
    rewrite (hk_end _ _ _ (fk_hdr _ _ _ _ _ HM2)). destruct (last_off_elem _ (chain_nonempty v1)) as (l & c & Ec & ->).
    destruct (chain_at _ _ _ _ _ (fk_chain _ _ _ _ _ HM2) l c [] Ec) as (ch & -> & Hh). cbn [mbind option_bind]. rewrite (chunk_end_eq c _ ch Hh).
    assert (ve v1 = chi c) as Ee by (pose proof (ch_contig _ _ _ _ _ (fk_chain _ _ _ _ _ HM2)) as Hct; rewrite Ec in Hct; by apply contig_snoc in Hct as [? _]).
    rewrite wsub_wr by lia. eexists. split; [done|]. split_and!; try done; lia. }
  cbn [mbind option_bind]. destruct (Z.eqb_spec k 0) as [->|Hk0]; [apply (Hzero g2 fr2 v2); try done; [lia|]; intros [Er _]%Hcap; specialize (Hkn Er); lia|].
  rewrite (fk_at _ _ _ _ _ HM2). cbn [mbind option_bind]. rewrite Htc2.
  assert (vlen (take (Z.to_nat k) src) = k) as Hlen by (apply vlen_take; lia).
  destruct (write_publish g2 fr2 f v2 B (take (Z.to_nat k) src) Hok2) as (g3 & g' & f' & v' & E1 & E2 & Q & Hve); [lia..|]. rewrite Hlen in *.
  rewrite C2 in E1, E2. rewrite E1. cbn [mbind option_bind]. rewrite (proj2 (Z.eqb_neq k 0)) by done. rewrite (wrap_small 32 k), wadd_wr by (unfold in_word; lia).
  rewrite E2. cbn [mbind option_bind]. destruct Q as [Q1 Q2 Q3 Q4 Q5 Q6 Q7 Q8].
  exists g', f', fr2, v', k. split_and!; try lia; [done| | |].
  - constructor; try congruence.
    + rewrite C2, take_take in Q6. by replace (Z.to_nat k `min` Z.to_nat k)%nat with (Z.to_nat k) in Q6 by lia.
    + by eapply frame_trans.
  - intros Hlt. specialize (Hks Hlt). rewrite Hve, Q3, C2, Hks. by apply (promote_at_end g2 fr2 f v2 h2).
  - intros Hroom. destruct (Hcap Hroom) as [Er Ht]. split; [by apply Hkn|]. eapply took_weaken; [apply (grow_cost_mono n); lia|].
    apply (took_top _ _ g2); [by apply (took_from _ _ g1)|]. apply publish_top in E2. apply append_top in E1. congruence.
Qed.


(** ** Writing ahead of the tail *)

(** The chunk to start seeking from is not past the position. *)
Lemma seek_start_spec g fr f v B x :
  fifo_ok g fr f v B -> vix v = true -> vt v <= x < ve v ->
  exists c l0 l, seek_start g f (wr x) = Some (coff c) /\ chain v = l0 ++ c :: l /\ clo c <= x.
Proof.
  intros [(h & HM & Htc) _] Hix Hx. pose proof (fk_chain _ _ _ _ _ HM) as Hok. destruct (fk_enq _ _ _ _ _ HM) as (m & Hm & Henq). specialize (Henq Hix).
  pose proof (ps_tail _ (fk_pos _ _ _ _ _ HM)) as Pt. unfold seek_start. rewrite (fk_at _ _ _ _ _ HM). cbn [mbind option_bind].
  rewrite (RbMap.holds_get Z.compare (fun _ => True) _ m (wr x) Hm I). cbn [mbind option_bind].
  assert (exists hit, match m !! wr x with
     | Some a => Some (Some a)
     | None => e ← RbTree.predecessor Z.compare (ooo_enq_lookup f) (wr x); Some (option_map snd e)
     end = Some hit /\ (hit = None \/ exists c, c ∈ vtail v :: vpost v /\ hit = Some (coff c))) as (hit & -> & Hhit).
  { destruct (m !! wr x) as [a|] eqn:E.
    - exists (Some a). split; [done|]. right. destruct (Henq _ _ E) as (c & Hc & _ & -> & _). by exists c.
    - destruct (RbMap.holds_predecessor Z.compare (fun _ => True) _ m (wr x) Hm I) as (e & -> & He). cbn [mbind option_bind]. eexists. split; [done|].
      destruct e as [[k a]|]; [|by left]. right. destruct He as (He & _). destruct (Henq _ _ He) as (c & Hc & _ & -> & _). by exists c. }
  assert (exists l0 l, chain v = l0 ++ vtail v :: l) as (lt0 & lt & Et) by (by exists (vpre v), (vpost v)).
  cbn [mbind option_bind]. destruct Hhit as [->|(c & Hc & ->)]; cbn [default Z.eqb negb mbind option_bind].
  - rewrite Htc. exists (vtail v), lt0, lt. split_and!; [done|done|lia].
  - assert (c ∈ chain v) as Hcin by (apply elem_of_app; by right). cbn [default id]. rewrite (chain_nonzero _ _ _ _ _ Hok c Hcin). cbn [negb].
    apply list_elem_of_split in Hcin as (l0 & l & El). destruct (chain_at _ _ _ _ _ Hok l0 c l El) as (ch & -> & Hh). cbn [mbind option_bind].
    assert (c ∈ chain v) as Hcin by (rewrite El; apply elem_of_app; right; left). pose proof (mid_bounds _ _ _ _ _ HM _ (chain_tail v)) as Bt.
    rewrite (includes_eq _ _ _ _ _ Hok c _ ch x Hcin Hh) by lia. destruct ((clo c <=? x) && (x <? chi c)) eqn:Ein; cbn [negb].
    + apply andb_true_iff in Ein as [Ein%Z.leb_le _]. rewrite (chain_nonzero _ _ _ _ _ Hok c Hcin). by exists c, l0, l.
    + cbn. rewrite Htc. exists (vtail v), lt0, lt. split_and!; [done|done|lia].
Qed.

Lemma write_at_spec g fr f v B x src :
  fifo_ok g fr f v B -> vix v = true -> vt v <= x -> x + vlen src <= ve v ->
  exists m', write_at_without_tail_store avx2 g f (wr x) src = Some (set_bytes m' g, vlen src) /\ wrote (chain v) (bytes g) x src m'.
Proof.
  intros Hok Hix Hlo Hhi. unfold write_at_without_tail_store. destruct src as [|b src0].
  { exists (bytes g). split; [by destruct g|apply wrote_nil]. }
  set (src := b :: src0) in *. assert (0 < vlen src) as Hpos by (unfold vlen; cbn; lia).
  destruct (seek_start_spec g fr f v B x Hok Hix ltac:(lia)) as (c & l0 & l & -> & El & Hc). cbn [mbind option_bind].
  destruct Hok as [(h & HM & Htc) _]. pose proof (fk_chain _ _ _ _ _ HM) as Hok. pose proof (chain_fuel _ _ _ _ _ Hok) as Hf. rewrite El, length_app in Hf.
  pose proof (ch_contig _ _ _ _ _ Hok) as Hct. rewrite El in Hct. apply contig_app in Hct as (b0 & _ & Hct).
  destruct (contig_find _ _ _ x Hct) as (l1 & d & l2 & Ed & Hd); [destruct Hct as (<- & _ & _); lia|].
  assert (coff c = first_off (l1 ++ d :: l2) 0) as -> by (by rewrite <- Ed).
  rewrite (seek_spec g fr (chain v) _ _ Hok (chunk_fuel g) l1 d l2 x l0); [|by rewrite El, Ed|done|].
  2:{ apply (f_equal length) in Ed. rewrite length_app in Ed. cbn in Ed, Hf. lia. }
  cbn [mbind option_bind]. change (coff d) with (first_off (d :: l2) 0).
  destruct (write_loop_spec avx2 g fr (chain v) _ _ (chunk_fuel g) (l0 ++ l1) (d :: l2) x src 0 Hok) as (m' & E & W); try done.
  - by rewrite El, Ed, app_assoc.
  - intros _. by exists d, l2.
  - apply (f_equal length) in Ed. rewrite length_app in Ed. cbn in Ed, Hf. cbn. lia.
  - by exists m'.
Qed.

(** What writing [src] at position [s] ahead of the tail does. *)
Record ooo_written off g fr v B (s : Z) (src : list Z) g' fr' f' v' : Prop := {
  ow_head : vh v' = vh v;
  ow_tail : vt v' = vt v;
  ow_size : vsize v' = vsize v;
  ow_ix : vix v' = vix v;
  ow_cover y : covered (vooo v') y <-> covered (vooo v) y \/ s <= y < s + vlen src;
  ow_ok : fifo_ok g' fr' f' v' (over B s src);
  ow_off : hdr_off f' = off;
  ow_frame : frame off (offs (chain v)) (offs (chain v')) g fr g' fr'
}.

(** Noting the range after its bytes are written. *)
Lemma note_range g fr f v B x src m' :
  fifo_ok g fr f v B -> vix v = true -> vt v < x -> x + vlen src <= ve v -> x + vlen src <= vh v + vsize v -> wrote (chain v) (bytes g) x src m' ->
  exists o r v', add_ooo_segment (ooo_list f) (wr (vt v)) (x - vt v) (vlen src) = Some (o, r) /\
    ooo_written (hdr_off f) g fr v B x src (set_bytes m' g) fr (set_ooo o f) v' /\ (0 < vlen src -> added (vt v) x (x + vlen src) (vooo v) (vooo v') r) /\ (vlen src = 0 -> r = None).
Proof.
  intros Hok0 Hix Hlo Hhi Hsz W. pose proof Hok0 as [(h & HM & Htc) HB]. pose proof (fk_chain _ _ _ _ _ HM) as Hok. pose proof (fk_ooo _ _ _ _ _ HM) as Ho.
  pose proof (fk_pos _ _ _ _ _ HM) as [P1 P2 P3 P4 P5]. pose proof (mid_bounds _ _ _ _ _ HM _ (chain_tail v)) as Bt. pose proof (vlen_nonneg src) as Hsn.
  assert (data_step (hdr_off f) g (set_bytes m' g)) as D by (by constructor).
  assert (frame (hdr_off f) (offs (chain v)) (offs (chain v)) g fr (set_bytes m' g) fr) as F by (by eapply frame_data).
  assert (exists o r ns', add_ooo_segment (ooo_list f) (wr (vt v)) (x - vt v) (vlen src) = Some (o, r) /\ ooo_ok (vt v) o ns' /\
    (forall y, covered ns' y <-> covered (vooo v) y \/ x <= y < x + vlen src) /\ (0 < vlen src -> added (vt v) x (x + vlen src) (vooo v) ns' r) /\ (vlen src = 0 -> r = None) /\
    (ns' = [] -> vooo v = [])) as (o & r & ns' & E & Ho' & Hcov & Hadd & Hnone & Hnil).
  { destruct (decide (vlen src = 0)) as [Hz|Hnz].
    - unfold add_ooo_segment. rewrite Hz. cbn [Z.eqb]. eexists _, None, (vooo v). split; [done|]. split_and!; try done; [destruct Ho; by constructor|]. intros y. split; [tauto|]. intros [?|?]; [done|lia].
    - destruct (add_ooo_spec (vt v) (ooo_list f) (vooo v) x (x + vlen src) Ho ltac:(lia) ltac:(lia)) as (o & r & ns' & E & Ho' & Hcov & Hadd).
      replace (x + vlen src - x) with (vlen src) in E by lia. exists o, r, ns'. split_and!; try done. intros ->. exfalso.
      assert (x <= x < x + vlen src) as Hxx by lia. destruct (proj2 (Hcov x) (or_intror Hxx)) as (y & Hy & _). by apply not_elem_of_nil in Hy. }
  exists o, r, (mk_view (vh v) (vt v) (vsize v) (vpre v) (vtail v) (vpost v) ns' (vs v) (ve v) (vix v)). split; [done|]. split; [|by split].
  constructor; try done. constructor; cbn [hdr_off set_ooo].
  - exists h. split; [|done]. destruct HM as [M1 M2 [K1 K2 K3 K4 K5 K6 K7] M4 M5 M6 M7]. constructor; try done.
    + by eapply chain_ok_data.
    + constructor; try done. cbn. intros n Hn. pose proof (inside_elem _ _ n (oo_inside _ _ _ Ho') Hn) as Bn.
      assert (forall y, lo n <= y < hi n -> vt v < y /\ y < vh v + vsize v /\ y < ve v) as Hy.
      { intros y Hy. assert (covered ns' y) as Hc by (exists (lo n, hi n); split; [apply list_elem_of_fmap; by exists n|done]).
        apply Hcov in Hc as [(q & (n0 & -> & Hn0)%list_elem_of_fmap & Hq)|Hr]; [|lia]. cbn in Hq. pose proof (P5 n0 Hn0). lia. }
      pose proof (Hy (lo n) ltac:(lia)). pose proof (Hy (hi n - 1) ltac:(lia)). lia.
    + destruct M6 as (mm & Hmm & Henq). exists mm. split; [done|]. intros Hb k a Hk. destruct (Henq Hb k a Hk) as (c & Hc & Ek & Ea & Himp). exists c. split_and!; try done.
      intros Ec. destruct (Himp Ec) as [Hne|?]; [left|by right]. intros E0. by apply Hne, Hnil.
  - eapply content_wrote; [exact HB|exact W|]. intros y [Hy|Hy]; [left; by left|]. cbn in Hy. apply Hcov in Hy as [?|?]; [left; by right|by right].
Qed.


(** An out-of-order write: refused when it would not fit, failing when the
    segment has no chunk left, otherwise all of [src] is kept at its place. *)
Lemma enqueue_ooo_spec g fr f v B offset src :
  fifo_ok g fr f v B -> vix v = true -> 0 < offset <= u32_max -> vlen src <= u32_max ->
  exists g' f' fr' v' r, enqueue_ooo avx2 g f offset src = Some (g', f', r) /\ frame (hdr_off f) (offs (chain v)) (offs (chain v')) g fr g' fr' /\
    match r with
    | inl res => offset + vlen src <= vsize v - (vt v - vh v) /\ ooo_written (hdr_off f) g fr v B (vt v + offset) src g' fr' f' v' /\
        accepted res = vlen src /\ delivered res = 0 /\
        (0 < vlen src -> exists newest, added (vt v) (vt v + offset) (vt v + offset + vlen src) (vooo v) (vooo v') newest /\
          res_start res = option_map fst newest /\ res_len res = match newest with Some (_, len) => len | None => 0 end) /\
        (vlen src = 0 -> res_start res = None)
    | inr (OutOfOrderCapacityExceeded req av) =>
        g' = g /\ f' = f /\ fr' = fr /\ v' = v /\ av = vsize v - (vt v - vh v) /\ av < offset + vlen src /\ req = wrap 32 (offset + vlen src)
    | inr e => e = SegmentExhausted /\ f' = f /\ v' = v /\ ve v < vt v + offset + vlen src /\ fifo_ok g' fr' f v B
    end /\
    (room g (grow_cost (offset + vlen src)) -> r <> inr SegmentExhausted /\ took (grow_cost (offset + vlen src)) g g').
Proof.
  intros Hok Hix Hoff Hlen. pose proof (vlen_nonneg src) as Hsn. unfold enqueue_ooo. destruct (Z.ltb_spec u32_max (vlen src)); [lia|].
  rewrite (proj2 (Z.eqb_neq offset 0)) by lia. rewrite (max_enqueue_spec _ _ _ _ _ Hok). cbn [mbind option_bind]. set (av := vsize v - (vt v - vh v)).
  pose proof Hok as [(h & HM & Htc) _]. pose proof (ps_used _ (fk_pos _ _ _ _ _ HM)) as Pu. pose proof (ps_size _ (fk_pos _ _ _ _ _ HM)) as Psz.
  assert (took (grow_cost (offset + vlen src)) g g) as Hself by (eapply took_weaken, top_took; [apply grow_cost_nonneg; lia|done]).
  unfold saturating_sub. destruct (Z.ltb_spec av offset) as [Hlt|Hge]; cbn [orb].
  { exists g, f, fr, v. eexists. split; [done|]. split; [apply frame_refl|]. split_and!; try done. lia. }
  destruct (Z.ltb_spec (Z.max 0 (av - offset)) (vlen src)) as [Hlt|Hge2].
  { exists g, f, fr, v. eexists. split; [done|]. split; [apply frame_refl|]. split_and!; try done. lia. }
  rewrite (fk_at _ _ _ _ _ HM). cbn [mbind option_bind]. rewrite (hk_head _ _ _ (fk_hdr _ _ _ _ _ HM)), (hk_tail _ _ _ (fk_hdr _ _ _ _ _ HM)).
  destruct (capacity_spec g fr f v B (offset + vlen src) Hok) as (g1 & r & fr1 & v1 & Ecap & [S1 G1 G2 G3 G4] & Hok1 & F1 & Hr); [lia..|].
  pose proof (fun R => capacity_room g fr f v B (offset + vlen src) g1 r Hok ltac:(lia) ltac:(lia) Ecap R) as Hcap. rewrite Ecap. cbn [mbind option_bind].
  pose proof S1 as [A1 A2 A3 A4 A5]. destruct r as [u|er].
  2:{ destruct Hr as (-> & -> & Hve). exists g1, f, fr1, v. eexists. split; [done|]. split; [done|]. split_and!; try done; [lia|]. by intros [? _]%Hcap. }
  rewrite wadd_wr. destruct (write_at_spec g1 fr1 f v1 B (vt v + offset) src Hok1) as (m' & -> & W); [congruence|lia..|]. cbn [mbind option_bind].
  rewrite Z.eqb_refl. cbn [negb]. destruct (note_range g1 fr1 f v1 B (vt v + offset) src m' Hok1) as (o & newest & v' & E & Wr & Hadd & Hnone); [congruence|lia..|done|].
  rewrite A2 in E. replace (vt v + offset - vt v) with offset in E by lia. rewrite E. cbn [mbind option_bind]. pose proof Wr as [W1 W2 W3 W4 W5 W6 W7 W8].
  exists (set_bytes m' g1), (set_ooo o f), fr1, v'. eexists. split; [done|]. split; [by eapply frame_trans|]. split; [|by intros [_ Ht]%Hcap]. split; [lia|]. split.
  { constructor; try congruence; [by rewrite <- A4|by eapply frame_trans]. }
  split_and!; try done; [|by intros ->%Hnone]. intros Hpos. exists newest. split_and!; try done. specialize (Hadd Hpos). by rewrite A2, A4 in Hadd.
Qed.


(** ** Writing scattered data *)

Lemma appending_ext g fr f v B B' x : (forall y, B y = B' y) -> appending g fr f v B x -> appending g fr f v B' x.
Proof. intros E (h & l1 & c & l2 & HM & Htc & Ev & Hx & HB). exists h, l1, c, l2. split_and!; try done; [lia..|]. intros d y Hd Hy Hl. rewrite <- E. by apply HB. Qed.

Lemma segments_loop_spec g fr f v B total copied segs :
  appending g fr f v B (vt v + copied) -> 0 <= copied -> copied + vlen (concat segs) = total -> vt v + total <= ve v ->
  exists g', enqueue_segments_loop avx2 g f total copied segs = Some (g', inl total) /\
    appending g' fr f v (over B (vt v + copied) (concat segs)) (vt v + total) /\ frame (hdr_off f) (offs (chain v)) (offs (chain v)) g fr g' fr.
Proof.
  revert g B copied. induction segs as [|s segs IH]; intros g B copied A Hc Ht He; cbn [enqueue_segments_loop concat].
  - change (vlen (concat [])) with 0 in Ht. exists g. split_and!; [do 3 f_equal; lia| |apply frame_refl]. replace (vt v + total) with (vt v + copied) by lia.
    eapply appending_ext; [|exact A]. intros y. by rewrite over_nil.
  - cbn [concat] in Ht. assert (vlen (s ++ concat segs) = vlen s + vlen (concat segs)) as El by (unfold vlen; rewrite length_app; lia). rewrite El in Ht.
    pose proof (vlen_nonneg s). pose proof (vlen_nonneg (concat segs)). pose proof A as (h & l1 & c & l2 & HM & _).
    pose proof (mid_bounds _ _ _ _ _ HM _ (chain_tail v)) as Bt. pose proof (ps_tail _ (fk_pos _ _ _ _ _ HM)) as Pt.
    unfold checked_add. rewrite (proj2 (Z.ltb_lt (copied + vlen s) (2 ^ 64))) by lia. rewrite (proj2 (Z.ltb_ge total (copied + vlen s))) by lia.
    rewrite (fk_at _ _ _ _ _ HM). cbn [mbind option_bind]. rewrite (hk_tail _ _ _ (fk_hdr _ _ _ _ _ HM)), (wrap_small 32 copied), wadd_wr by (unfold in_word; lia).
    destruct (append_step g fr f v B (vt v + copied) s A ltac:(lia) ltac:(lia)) as (g1 & -> & A1 & F1). cbn [mbind option_bind]. rewrite Z.eqb_refl. cbn [negb].
    rewrite <- Z.add_assoc in A1. destruct (IH g1 _ _ A1 ltac:(lia) ltac:(lia) He) as (g' & -> & A' & F'). exists g'. split_and!; [done| |by eapply frame_trans].
    eapply appending_ext; [|exact A']. intros y. rewrite Z.add_assoc. apply over_app.
Qed.

Lemma appending_newest g fr f v B x i : appending g fr f v B x -> appending g fr (set_newest i f) v B x.
Proof.
  intros (h & l1 & c & l2 & [M1 M2 M3 M4 [O1 O2 O3] M6 M7] & Htc & Ev & Hx & HB). exists h, l1, c, l2. split; [by constructor|done].
Qed.

(** Publishing bytes that are already in place. *)
Lemma enqueue_nocopy_spec g fr f v B len :
  appending g fr f v B (vt v + len) -> vix v = false -> 0 <= len -> vt v + len <= ve v -> vt v + len <= vh v + vsize v ->
  exists g' f' v', enqueue_nocopy g f len = Some (g', f', inl tt) /\ advanced v (vt v + len) v' /\ vix v' = false /\ hdr_off f' = hdr_off f /\
    fifo_ok g' fr f' v' B /\ frame (hdr_off f) (offs (chain v)) (offs (chain v)) g fr g' fr.
Proof.
  intros A0 Hix Hl He Hs. unfold enqueue_nocopy. pose proof (appending_newest _ _ _ _ _ _ OOO_SEGMENT_INVALID_INDEX A0) as A.
  pose proof A as (h & l1 & c & l2 & HM & Htc & Ev & Hx & HB). pose proof (fk_pos _ _ _ _ _ HM) as P. pose proof P as [P1 P2 P3 P4 P5]. set (f1 := set_newest _ f) in *.
  assert (max_enqueue g f1 = Some (vsize v - (vt v - vh v))) as ->.
  { unfold max_enqueue. rewrite (fk_at _ _ _ _ _ HM). cbn [mbind option_bind]. destruct (fk_hdr _ _ _ _ _ HM) as [_ _ _ -> -> -> _]. rewrite used_eq by done.
    unfold checked_sub. destruct (Z.ltb_spec (vsize v) (vt v - vh v)); [lia|done]. }
  cbn [mbind option_bind]. rewrite (proj2 (Z.ltb_ge _ len)) by lia. rewrite (fk_at _ _ _ _ _ HM). cbn [mbind option_bind].
  rewrite (hk_tail _ _ _ (fk_hdr _ _ _ _ _ HM)), Htc, (wrap_small 32 len), wadd_wr by (unfold in_word; lia).
  destruct (publish_appended g fr f1 v B (vt v + len) l1 c l2 false A) as (g' & f' & v' & -> & D & Hv & Ef & Hok & F); [by split|lia..|].
  by exists g', f', v'.
Qed.

(** A scattered write whose lengths add up to [total]: everything or nothing.
    The producer's tree is not brought up to date ([vix v = false]). *)
Lemma enqueue_segments_spec g fr f v B total segs :
  fifo_ok g fr f v B -> vix v = false -> total = vlen (concat segs) ->
  exists g' f' fr' v' r, enqueue_segments avx2 g f total segs = Some (g', f', r) /\
    match r with
    | inl n => n = total /\ total <= vsize v - (vt v - vh v) /\ enqueued (hdr_off f) g fr v B (concat segs) total g' fr' f' v'
    | inr (InsufficientCapacity t a) => g' = g /\ f' = f /\ fr' = fr /\ v' = v /\ t = total /\ a = vsize v - (vt v - vh v) /\ a < t
    | inr e => e = SegmentExhausted /\ f' = f /\ steady v v' /\ fifo_ok g' fr' f v' B /\ frame (hdr_off f) (offs (chain v)) (offs (chain v')) g fr g' fr' /\ ve v' < vt v + total
    end /\
    (room g (grow_cost total) -> r <> inr SegmentExhausted /\ took (grow_cost total) g g').
Proof.
  intros Hok Hix Ht. pose proof (vlen_nonneg (concat segs)) as Hn. unfold enqueue_segments. rewrite (max_enqueue_spec _ _ _ _ _ Hok). cbn [mbind option_bind]. set (av := vsize v - (vt v - vh v)).
  destruct (Z.ltb_spec av total) as [Hlt|Hge]; [exists g, f, fr, v; eexists; split; [done|]; split; [by split_and!|]; intros _; split; [done|]; eapply took_weaken, top_took; [apply grow_cost_nonneg; lia|done]|].
  pose proof Hok as [(h & HM & Htc) _]. rewrite (fk_at _ _ _ _ _ HM). cbn [mbind option_bind].
  destruct (start_write g fr f v B h Hok (fk_at _ _ _ _ _ HM)) as (g1 & v1 & Est & S1 & Hok1 & Eh1 & F1). pose proof (start_top _ _ _ _ _ Est) as Etop. rewrite Est. cbn [mbind option_bind]. pose proof S1 as [A1 A2 A3 A4 A5].
  rewrite (hk_head _ _ _ (fk_hdr _ _ _ _ _ HM)), (hk_tail _ _ _ (fk_hdr _ _ _ _ _ HM)). pose proof (ps_used _ (fk_pos _ _ _ _ _ HM)).
  destruct (capacity_spec g1 fr f v1 B total Hok1) as (g2 & r & fr2 & v2 & Ecap & G2 & Hok2 & F2 & Hr); [lia..|].
  pose proof (fun R => capacity_room g1 fr f v1 B total g2 r Hok1 ltac:(lia) ltac:(lia) Ecap (top_room _ _ _ Etop R)) as Hcap. rewrite A1, A2 in Ecap. rewrite Ecap. cbn [mbind option_bind].
  pose proof (steady_grown v v1 v2 S1 G2) as S2. pose proof S2 as [C1 C2 C3 C4 C5]. assert (frame (hdr_off f) (offs (chain v)) (offs (chain v2)) g fr g2 fr2) as F by (by eapply frame_trans).
  destruct r as [u|er].
  2:{ destruct Hr as (-> & -> & Hve). exists g2, f, fr2, v1. eexists. split; [done|]. split; [split_and!; try done; lia|]. by intros [? _]%Hcap. }
  destruct (segments_loop_spec g2 fr2 f v2 B total 0 segs) as (g3 & Eloop & A & F3); [rewrite Z.add_0_r; by apply appending_start|lia..|]. pose proof (segments_loop_top _ _ _ _ _ _ _ _ Eloop) as T3. rewrite Eloop. cbn [mbind option_bind].
  rewrite Z.eqb_refl. cbn [negb]. destruct (enqueue_nocopy_spec g3 fr2 f v2 _ total A) as (g' & f' & v' & Eno & [D1 D2 D3 D4 D5 D6 D7] & Hv & Ef & Hok' & F'); [congruence|lia..|]. pose proof (nocopy_top _ _ _ _ _ _ Eno) as T4. rewrite Eno.
  cbn [mbind option_bind]. exists g', f', fr2, v'. eexists. split; [done|].
  split; [|intros [_ Hk]%Hcap; split; [done|]; apply (took_from _ _ g1 _ Etop), (took_top _ _ g2); [done|congruence]].
  split_and!; [done..|]. constructor; try congruence.
  - rewrite Z.add_0_r, C2 in Hok'. replace (take (Z.to_nat total) (concat segs)) with (concat segs); [done|]. rewrite Ht. unfold vlen. by rewrite Nat2Z.id, firstn_all.
  - rewrite D3. eapply frame_trans; [exact F|]. by eapply frame_trans.
Qed.

End Ops.
End SvmFifoOps.
