(* ===== verification/SvmFifoRead.v ===== *)
(** * Reading from a byte FIFO

    What peeking, dropping and dequeueing do to the view of a FIFO, and the
    slices a reader is given. *)

From S2P Require Import Prelude Ranges InfraBitmap InfraPool InfraRbTree InfraRbOps InfraRbMap.
From S2P Require Import SvmOoo SvmOooProofs SvmMemory SvmMemoryProofs SvmFifo SvmChain SvmGrow SvmFifoInv SvmFifoOps.

Module SvmFifoRead.
Import Ranges SvmOoo SvmOooProofs SvmMemory SvmMemoryProofs SvmFifo SvmChain SvmGrow SvmFifoInv SvmFifoOps.

#[local] Existing Instance RbOps.Z_key_order.
Implicit Types (g : segment) (fr : frees) (f : Fifo) (v : view) (c d : cnode) (cs : list cnode) (B : Z -> Z) (h : SvmFifoShared).

Section Ops.
Context (avx2 : bool).

Lemma chain_find g fr f v h x :
  fifo_mid g fr f v h -> vh v <= x < vt v -> exists l1 c l2, chain v = l1 ++ c :: l2 /\ clo c <= x < chi c.
Proof.
  intros HM Hx. pose proof (fk_pos _ _ _ _ _ HM) as [P1 P2 P3 P4 P5]. pose proof (mid_bounds _ _ _ _ _ HM _ (chain_tail v)) as Bt.
  apply (contig_find _ _ _ x (ch_contig _ _ _ _ _ (fk_chain _ _ _ _ _ HM))). lia.
Qed.

(** Peeking copies the bytes from [offset] past the head on, as many as are
    asked for, fit and are there. *)
Lemma peek_spec g fr f v B offset len dst :
  fifo_ok g fr f v B -> 0 <= offset -> 0 <= len ->
  let n := Z.max 0 (Z.min (Z.min len (vlen dst)) (vt v - vh v - offset)) in
  peek avx2 g f offset len dst = Some (bytes_of B (vh v + offset) n ++ drop (Z.to_nat n) dst, n).
Proof.
  intros [(h & HM & Htc) HB] Ho Hl n. unfold peek. rewrite (fk_at _ _ _ _ _ HM). cbn [mbind option_bind]. pose proof (fk_pos _ _ _ _ _ HM) as P.
  pose proof P as [P1 P2 P3 P4 P5]. pose proof (mid_bounds _ _ _ _ _ HM _ (chain_tail v)) as Bt. pose proof (vlen_nonneg dst).
  destruct (fk_hdr _ _ _ _ _ HM) as [_ -> _ -> -> _ _]. rewrite used_eq by done.
  destruct (Z.leb_spec (vt v - vh v) offset) as [Hle|Hgt]; [by replace n with 0 by lia|].
  replace (Z.min (Z.min len (vlen dst)) (vt v - vh v - offset)) with n by lia. destruct (Z.eqb_spec n 0) as [->|Hnz]; [done|].
  rewrite (wrap_small 32 offset), wadd_wr by (unfold in_word; lia). rewrite <- (first_off_chain v 0).
  rewrite (peek_loop_spec avx2 g fr (chain v) (vs v) (ve v) _ [] (chain v) (vh v + offset) n 0 B (fk_chain _ _ _ _ _ HM)); try done; try lia.
  - cbn [mbind option_bind]. unfold bytes_of at 2. by rewrite length_fmap, length_zseq.
  - intros _. eapply chain_find; [exact HM|lia].
  - eapply content_impl; [exact HB|]. intros y Hy. left. lia.
  - apply (chain_fuel _ _ _ _ _ (fk_chain _ _ _ _ _ HM)).
Qed.

(** ** Dropping *)

(** A FIFO while its first chunks are released: [pre] are those still linked
    before the tail chunk. *)
Record dropping g fr f v (pre : list cnode) (s : Z) h : Prop := {
  dp_chain : chain_ok g fr (pre ++ vtail v :: vpost v) s (ve v);
  dp_at : hdr_at g (hdr_off f) = Some h;
  dp_start : h_start_chunk h = first_off (pre ++ [vtail v]) 0;
  dp_head_chunk : h_head_chunk h = first_off (pre ++ [vtail v]) 0;
  dp_end : h_end_chunk h = last_off (chain v);
  dp_tail : h_tail h = wr (vt v);
  dp_size : h_size h = vsize v;
  dp_slice : 0 <= h_slice_index h < vlen (slices g);
  dp_tail_chunk : h_tail_chunk h = coff (vtail v);
  dp_deq : exists m, holds (ooo_deq_lookup f) m
}.

(** Releasing the first chunk. *)
Lemma drop_first g fr f v c pre s h :
  dropping g fr f v (c :: pre) s h ->
  let next := first_off (pre ++ [vtail v]) 0 in
  let u h := set_start_chunk next (set_head_chunk next h) in
  exists g1 t g' fr', hdr_upd g (hdr_off f) u = Some g1 /\ lookup_remove (ooo_deq_lookup f) (wr (clo c)) = Some t /\
    release_chunk g1 (h_slice_index h) (coff c) = Some g' /\ dropping g' fr' (set_deq_lookup t f) v pre (chi c) (u h) /\ bytes g' = bytes g /\
    frame (hdr_off f) (offs ((c :: pre) ++ vtail v :: vpost v)) (offs (pre ++ vtail v :: vpost v)) g fr g' fr'.
Proof.
  intros [H1 H2 H3 H4 H5 H6 H7 H8 H9 (m & Hm)] next u. cbn [app] in *.
  destruct (hdr_upd_spec g (hdr_off f) h u H2) as (g1 & E1 & D1 & Hh1 & Eb1). pose proof (chain_ok_data _ _ _ _ _ _ _ D1 H1) as C1.
  unfold lookup_remove. destruct (RbMap.holds_remove Z.compare (fun _ => True) _ m (wr (clo c)) Hm I) as (t & -> & Ht). cbn [mbind option_bind].
  assert (loose g1 fr (c :: pre ++ vtail v :: vpost v)) as L by (destruct C1; by constructor).
  destruct (release_first g1 fr c _ (h_slice_index h) L) as (g2 & fr2 & E2 & R & L2); [by rewrite (ds_slices _ _ _ D1)|].
  pose proof (moved_release (offs (pre ++ vtail v :: vpost v)) _ _ _ _ _ _ R) as M. pose proof (rl_rest _ _ _ _ _ _ R) as [R1 R2 R3 R4 _ R5 R6].
  pose proof (ch_contig _ _ _ _ _ C1) as (Es & Hc & Hct). exists g1, t, g2, fr2. split_and!; try done.
  - constructor; try done.
    + destruct L2. constructor; try done. pose proof (ch_span _ _ _ _ _ C1). unfold chi in *. pose proof (loose_bounds _ _ _ c L ltac:(left)). lia.
    + cbn [hdr_off set_deq_lookup]. unfold hdr_at in *. by rewrite R1.
    + rewrite R4, (ds_slices _ _ _ D1). done.
    + by eexists.
  - congruence.
  - eapply frame_trans; [eapply frame_header; [exact H1|exact D1|exact Eb1]|by apply frame_moved].
Qed.

(** Releases the chunks that end at or before the new head [x]. *)
Lemma drop_loop_spec n g fr f v pre s h x :
  dropping g fr f v pre s h -> positions v -> s <= x -> vh v <= x <= vt v -> (length pre < n)%nat ->
  exists g' fr' t pre' s' h', drop_loop n g f (first_off (pre ++ [vtail v]) 0) (wr x) (wr (vt v)) = Some (g', set_deq_lookup t f) /\
    dropping g' fr' (set_deq_lookup t f) v pre' s' h' /\ s' <= x /\ match pre' with [] => x <= chi (vtail v) | c :: _ => x <= chi c end /\
    pre' `suffix_of` pre /\ bytes g' = bytes g /\ frame (hdr_off f) (offs (pre ++ vtail v :: vpost v)) (offs (pre' ++ vtail v :: vpost v)) g fr g' fr'.
Proof.
  revert g fr f pre s h. induction n as [|n IH]; intros g fr f pre s h D P Hs Hx Hn; [lia|]. cbn [drop_loop]. pose proof (dp_chain _ _ _ _ _ _ _ D) as Hok.
  assert (forall c, match pre with [] => c = vtail v | d :: _ => c = d end -> x <= chi c -> exists g' fr' t pre' s' h', Some (g, f) = Some (g', set_deq_lookup t f) /\
    dropping g' fr' (set_deq_lookup t f) v pre' s' h' /\ s' <= x /\ match pre' with [] => x <= chi (vtail v) | c :: _ => x <= chi c end /\
    pre' `suffix_of` pre /\ bytes g' = bytes g /\ frame (hdr_off f) (offs (pre ++ vtail v :: vpost v)) (offs (pre' ++ vtail v :: vpost v)) g fr g' fr') as Hstop.
  { intros c Hc Hxc. assert (set_deq_lookup (ooo_deq_lookup f) f = f) as Ef by (by destruct f).
    exists g, fr, (ooo_deq_lookup f), pre, s, h. rewrite Ef. split_and!; try done. destruct pre; by subst. }
  assert (exists c l, pre ++ vtail v :: vpost v = c :: l /\ first_off (pre ++ [vtail v]) 0 = coff c /\ match pre with [] => c = vtail v | d :: _ => c = d end) as (c & l & El & -> & Hc).
  { destruct pre as [|d pre]; cbn; by eexists _, _. }
  pose proof (chain_bounds _ _ _ _ _ Hok c ltac:(rewrite El; left)) as Bc. pose proof (ch_span _ _ _ _ _ Hok) as Hsp. destruct P as [P1 P2 P3 P4 P5] eqn:EP.
  pose proof (chain_bounds _ _ _ _ _ Hok (vtail v) ltac:(apply elem_of_app; right; left)) as Bt.
  rewrite (proj2 (Z.eqb_neq (coff c) 0)) by lia. destruct (chain_at _ _ _ _ _ Hok [] c l El) as (ch & -> & Hh). cbn [mbind option_bind].
  rewrite (chunk_end_eq c _ ch Hh), pos_geq_win by lia. destruct (Z.leb_spec (chi c) x) as [Hge|Hlt]; [|apply (Hstop c Hc); lia].
  rewrite pos_gt_win by lia. destruct (Z.ltb_spec (chi c) (vt v)) as [Hgt|Hle]; cbn [negb]; [|apply (Hstop c Hc); lia].
  rewrite (dp_at _ _ _ _ _ _ _ D). cbn [mbind option_bind]. rewrite (dp_tail_chunk _ _ _ _ _ _ _ D). destruct pre as [|d pre].
  { subst c. lia. }
  subst d. injection El as El. destruct (Z.eqb_spec (coff c) (coff (vtail v))) as [Ec|Hne].
  { exfalso. assert (c = vtail v) as -> by (eapply chain_same; [exact Hok|left|apply elem_of_app; right; left|done]). lia. }
  destruct Hh as (Hsb & _ & Hnx). rewrite Hnx, <- El, Hsb. assert (first_off (pre ++ vtail v :: vpost v) 0 = first_off (pre ++ [vtail v]) 0) as Efo by (by destruct pre).
  rewrite Efo. assert (first_off (pre ++ [vtail v]) 0 <> 0) as Hnz.
  { destruct pre as [|d pre]; cbn [app first_off]; [lia|]. pose proof (chain_bounds _ _ _ _ _ Hok d ltac:(right; left)). lia. }
  rewrite (proj2 (Z.eqb_neq _ _) Hnz). destruct (drop_first g fr f v c pre s h D) as (g1 & t & g2 & fr2 & -> & E2 & E3 & D2 & Eb & F2). cbn [mbind option_bind].
  rewrite E2. cbn [mbind option_bind]. rewrite E3. cbn [mbind option_bind].
  destruct (IH g2 fr2 _ pre _ _ D2 P Hge Hx ltac:(cbn in Hn; lia)) as (g' & fr' & t' & pre' & s' & h' & -> & D' & Hs' & Hx' & Hsuf & Eb' & F').
  exists g', fr', t', pre', s', h'. split_and!; try done; [by apply suffix_cons_r|congruence|by eapply frame_trans].
Qed.

(** What dropping [k] bytes does. *)
Record dropped off g fr v B (k : Z) g' fr' f' v' : Prop := {
  dd_head : vh v' = vh v + k;
  dd_tail : vt v' = vt v;
  dd_size : vsize v' = vsize v;
  dd_ooo : vooo v' = vooo v;
  dd_ix : vix v' = vix v;
  dd_ok : fifo_ok g' fr' f' v' B;
  dd_off : hdr_off f' = off;
  dd_frame : frame off (offs (chain v)) (offs (chain v')) g fr g' fr'
}.

Lemma dropped_none g fr f v B : fifo_ok g fr f v B -> dropped (hdr_off f) g fr v B 0 g fr f v.
Proof. intros H. constructor; try done. lia. Qed.

Lemma drop_dequeue_spec g fr f v B len :
  fifo_ok g fr f v B -> 0 <= len ->
  let k := Z.min len (vt v - vh v) in
  exists g' fr' f' v', drop_dequeue g f len = Some (g', f', k) /\ dropped (hdr_off f) g fr v B k g' fr' f' v'.
Proof.
  intros Hok0 Hl k. pose proof Hok0 as [(h & HM & Htc) HB]. unfold drop_dequeue. rewrite (fk_at _ _ _ _ _ HM). cbn [mbind option_bind].
  pose proof (fk_pos _ _ _ _ _ HM) as P. pose proof P as [P1 P2 P3 P4 P5]. pose proof (fk_hdr _ _ _ _ _ HM) as [K1 K2 K3 -> -> K6 K7]. rewrite K2, used_eq by done. fold k.
  pose proof (mid_bounds _ _ _ _ _ HM _ (chain_tail v)) as Bt.
  destruct (Z.eqb_spec k 0) as [->|Hk]; [exists g, fr, f, v; split; [done|by apply dropped_none]|].
  rewrite (wrap_small 32 k), wadd_wr by (unfold in_word; lia). assert (coff (vfirst v) = first_off (vpre v ++ [vtail v]) 0) as Ef by (unfold vfirst; by destruct (vpre v)).
  rewrite Ef. rewrite Ef in K1, K2. destruct (drop_loop_spec (chunk_fuel g) g fr f v (vpre v) (vs v) h (vh v + k)) as (g1 & fr1 & t & pre & s & h1 & -> & D & Hs & Hx & Hsuf & Eb & F); try done; try lia.
  { destruct HM as [M1 M2 M3 M4 M5 M6 M7]. constructor; try done; apply M3. }
  { pose proof (chain_fuel _ _ _ _ _ (fk_chain _ _ _ _ _ HM)) as Hf. unfold chain in Hf. rewrite length_app in Hf. cbn in Hf. lia. }
  cbn [mbind option_bind]. set (f1 := set_deq_lookup t f) in *. destruct D as [D1 D2 D3 D4 D5 D6 D7 D8 D9 D10].
  destruct (hdr_upd_spec g1 (hdr_off f1) h1 (set_head (wr (vh v + k))) D2) as (g' & -> & D & Hh & Eb'). cbn [mbind option_bind].
  set (v' := mk_view (vh v + k) (vt v) (vsize v) pre (vtail v) (vpost v) (vooo v) s (ve v) (vix v)).
  exists g', fr1, f1, v'. split; [done|]. constructor; try done.
  2:{ eapply frame_trans; [exact F|]. eapply frame_header; [exact D1|exact D|done]. }
  constructor.
  - exists (set_head (wr (vh v + k)) h1). split; [|done]. assert (coff (vfirst v') = first_off (pre ++ [vtail v]) 0) as Ef' by (unfold vfirst, v'; cbn; by destruct pre).
    destruct HM as [M1 M2 M3 M4 M5 M6 M7]. constructor; try done.
    + by eapply chain_ok_data.
    + constructor; try done; [by rewrite Ef'|by rewrite Ef'| |by rewrite (ds_slices _ _ _ D)]. cbn [h_end_chunk set_head]. rewrite D5. unfold chain, v'. cbn [vpre vtail vpost].
      unfold last_off. rewrite !last_app, !last_cons. by destruct (list.last (vpost v)).
    + constructor; try done; cbn; [split; [done|]; unfold vfirst; cbn; by destruct pre|lia|]. intros n Hn. pose proof (P5 n Hn). lia.
  - rewrite Eb', Eb. intros c y Hc Hy Hlive. apply HB; [|done|].
    + destruct Hsuf as [pp Hpp]. unfold chain in *. cbn in Hc. rewrite Hpp, <- app_assoc. apply elem_of_app. by right.
    + destruct Hlive as [Hlive|Hlive]; [left; cbn in Hlive; lia|by right].
Qed.

(** Dequeueing hands out the oldest bytes and forgets them. *)
Lemma dequeue_spec g fr f v B len dst :
  fifo_ok g fr f v B -> 0 <= len ->
  let k := Z.min (Z.min len (vlen dst)) (vt v - vh v) in
  exists g' fr' f' v', dequeue avx2 g f len dst = Some (g', f', (bytes_of B (vh v) k ++ drop (Z.to_nat k) dst, k)) /\ dropped (hdr_off f) g fr v B k g' fr' f' v'.
Proof.
  intros Hok Hl k. unfold dequeue. pose proof Hok as [(h & HM & _) _]. pose proof (ps_used _ (fk_pos _ _ _ _ _ HM)). pose proof (vlen_nonneg dst).
  rewrite (peek_spec g fr f v B 0 len dst Hok) by lia. cbn [mbind option_bind]. rewrite Z.add_0_r, Z.sub_0_r. fold k. replace (Z.max 0 k) with k by lia.
  destruct (drop_dequeue_spec g fr f v B k Hok ltac:(lia)) as (g' & fr' & f' & v' & -> & D). cbn [mbind option_bind]. replace (Z.min k (vt v - vh v)) with k in * by lia.
  by exists g', fr', f', v'.
Qed.

(** ** Slices of the readable bytes *)

(** The bytes a list of slices names. *)
Definition slices_bytes g (sl : list (Z * Z)) : list Z := sl ≫= fun s => load_list (bytes g) s.1 (Z.to_nat s.2).

Lemma chunk_bytes g cs c B x n :
  content (bytes g) cs (fun y => x <= y < x + n) B -> c ∈ cs -> clo c <= x -> 0 <= n -> x + n <= chi c ->
  load_list (bytes g) (addr c x) (Z.to_nat n) = bytes_of B x n.
Proof.
  intros HB Hc Hx Hn He. unfold bytes_of. apply load_list_bytes. intros i Hi. replace (addr c x + i) with (addr c (x + i)) by (unfold addr; lia).
  apply HB; [done|lia|lia].
Qed.

Lemma more_segments_spec n g fr cs s e l0 l x k room B :
  chain_ok g fr cs s e -> cs = l0 ++ l -> 0 <= k -> 0 <= room -> (0 < k -> exists c l', l = c :: l' /\ clo c = x) -> x + k <= e ->
  content (bytes g) cs (fun y => x <= y < x + k) B -> (length l < n)%nat ->
  exists sl j, more_segments n g (first_off l 0) k room = Some (sl, true) /\ 0 <= j <= k /\ slices_bytes g sl = bytes_of B x j /\
    vlen sl <= room /\ (j < k -> vlen sl = room).
Proof.
  intros Hok. revert l0 l x k room. induction n as [|n IH]; intros l0 l x k room E Hk Hr Hf He HB Hn; [lia|]. cbn [more_segments].
  destruct (Z.eqb_spec k 0) as [->|Hnz].
  { rewrite orb_true_r. exists [], 0. change (vlen []) with 0. split_and!; done || lia. }
  destruct (Hf ltac:(lia)) as (c & l' & -> & Ec). cbn [first_off]. assert (c ∈ cs) as Hc by (rewrite E; apply elem_of_app; right; left).
  rewrite (chain_nonzero _ _ _ _ _ Hok c Hc). cbn [orb]. destruct (Z.eqb_spec room 0) as [->|Hroom].
  { exists [], 0. change (vlen []) with 0. split_and!; done || lia. }
  destruct (chain_at _ _ _ _ _ Hok l0 c l' E) as (ch & -> & _ & El & Hnx). cbn [mbind option_bind]. rewrite El, Hnx. pose proof (chain_bounds _ _ _ _ _ Hok c Hc) as Bc.
  set (j := Z.min k (clen c)). assert (0 < j <= k) as Hj by (unfold chi in *; lia).
  destruct (IH (l0 ++ [c]) l' (x + j) (k - j) (room - 1)) as (sl & j' & -> & Hj' & Hsl & Hlen & Hfull); try lia.
  - by rewrite <- app_assoc.
  - intros Hlt. unfold chi in *. destruct (chain_next _ _ _ _ _ l0 c l' Hok E ltac:(unfold chi; lia)) as (d & l2' & -> & Ed & Hd). exists d, l2'. split; [done|]. unfold chi in *. lia.
  - intros c' y Hc' Hy Hl. apply HB; [done|done|lia].
  - cbn in Hn. lia.
  - cbn [mbind option_bind]. eexists _, (j + j'). split; [done|]. assert (forall a : Z * Z, vlen (a :: sl) = vlen sl + 1) as Hcons by (intros a; unfold vlen; cbn [length]; lia).
    rewrite Hcons. split_and!; try lia. unfold slices_bytes in *. cbn [mbind list_bind fst snd]. rewrite Hsl, bytes_of_app by lia. f_equal.
    replace (coff c + CHUNK_HEADER_SIZE) with (addr c x) by (unfold addr; lia). apply (chunk_bytes g cs); [eapply content_impl; [exact HB|cbn; lia]|done|lia|lia|unfold chi; lia].
Qed.

(** The slices name the readable bytes from [offset] on in order, all of them
    unless the output is full; 32-bit overflow of [head + offset] aside. *)
Lemma readable_segments_spec g fr f v B offset output_len :
  fifo_ok g fr f v B -> 0 <= offset < vt v - vh v -> 0 < output_len -> wr (vh v) + offset < 2 ^ 32 ->
  exists sl j, readable_segments g f offset output_len = Some (inl sl) /\ 0 < j <= vt v - vh v - offset /\
    slices_bytes g sl = bytes_of B (vh v + offset) j /\ vlen sl <= output_len /\ (j < vt v - vh v - offset -> vlen sl = output_len).
Proof.
  intros [(h & HM & Htc) HB] Ho Hout Hov. unfold readable_segments. rewrite (proj2 (Z.eqb_neq output_len 0)) by lia. rewrite (fk_at _ _ _ _ _ HM). cbn [mbind option_bind].
  pose proof (fk_pos _ _ _ _ _ HM) as P. pose proof P as [P1 P2 P3 P4 P5]. pose proof (fk_chain _ _ _ _ _ HM) as Hok. pose proof (mid_bounds _ _ _ _ _ HM _ (chain_tail v)) as Bt.
  destruct (fk_hdr _ _ _ _ _ HM) as [_ -> _ -> -> _ _]. rewrite used_eq by done. rewrite (proj2 (Z.leb_gt (vt v - vh v) offset)) by lia.
  rewrite (wrap_small 32 offset) by (unfold in_word; lia). set (x := vh v + offset). unfold checked_add. rewrite (proj2 (Z.ltb_lt _ _) Hov). cbn [mbind option_bind].
  assert (wr (vh v) + offset = wr x) as ->.
  { unfold x. rewrite <- wadd_wr. unfold wadd32. rewrite wrap_small; [done|]. unfold in_word. pose proof (Z.mod_pos_bound (vh v) (2 ^ 32) ltac:(lia)). unfold wr, wrap in *. lia. }
  rewrite <- (first_off_chain v 0). destruct (chain_find g fr f v h x HM ltac:(lia)) as (l1 & c & l2 & E & Hx). pose proof (chain_fuel _ _ _ _ _ Hok) as Hfu.
  rewrite E. rewrite (seek_spec g fr (chain v) _ _ Hok (chunk_fuel g) l1 c l2 x []); [|done|done|rewrite E, length_app in Hfu; cbn in Hfu; lia]. cbn [mbind option_bind].
  assert (c ∈ chain v) as Hc by (rewrite E; apply elem_of_app; right; left). rewrite (chain_nonzero _ _ _ _ _ Hok c Hc). destruct (chain_at _ _ _ _ _ Hok l1 c l2 E) as (ch & -> & Hs1 & Hl1 & Hn1).
  cbn [mbind option_bind]. rewrite Hs1, Hl1, Hn1, (pos_in_chunk _ _ _ _ _ Hok c x Hc) by lia. unfold checked_sub. unfold chi in Hx. destruct (Z.ltb_spec (clen c) (x - clo c)); [lia|]. cbn [mbind option_bind].
  set (n := vt v - vh v - offset). set (j := Z.min n (clen c - (x - clo c))). assert (0 < j <= n /\ x + j <= chi c) as [Hj Hje] by (unfold chi; lia).
  assert (content (bytes g) (chain v) (fun y => x <= y < x + n) B) as HBn by (eapply content_impl; [exact HB|intros y Hy; left; lia]).
  assert (load_list (bytes g) (addr c x) (Z.to_nat j) = bytes_of B x j) as Hb by (eapply chunk_bytes; [eapply content_impl; [exact HBn|cbn; lia]|done|lia..]).
  fold (addr c x). destruct (Z.eqb_spec (n - j) 0) as [Hz|Hnz].
  - eexists [(addr c x, j)], j. split; [done|]. unfold slices_bytes. cbn [mbind list_bind fst snd]. rewrite Hb, app_nil_r. change (vlen [_]) with 1. split_and!; done || lia.
  - destruct (more_segments_spec (chunk_fuel g) g fr (chain v) (vs v) (ve v) (l1 ++ [c]) l2 (x + j) (n - j) (output_len - 1) B Hok) as (sl & j' & -> & Hj' & Hsl & Hlen & Hfull); try lia.
    + by rewrite <- app_assoc.
    + intros _. destruct (chain_next _ _ _ _ _ l1 c l2 Hok E ltac:(unfold chi; lia)) as (d & l2' & -> & Ed & Hd). exists d, l2'. split; [done|]. unfold chi in *. lia.
    + eapply content_impl; [exact HBn|cbn; lia].
    + rewrite E, length_app in Hfu. cbn in Hfu. lia.
    + cbn [mbind option_bind]. eexists _, (j + j'). split; [done|]. assert (forall a : Z * Z, vlen (a :: sl) = vlen sl + 1) as Hcons by (intros a; unfold vlen; cbn [length]; lia).
      rewrite Hcons. split_and!; try lia. unfold slices_bytes in *. cbn [mbind list_bind fst snd]. by rewrite Hsl, bytes_of_app, Hb by lia.
Qed.

(** ** The capacity *)

(** Changing the capacity keeps the FIFO when no byte written ahead of the
    tail would be past it. *)
Lemma set_size_spec g fr f v B n :
  fifo_ok g fr f v B -> vt v - vh v <= n <= 2 ^ 31 - 2 ^ 24 -> 0 < n -> (forall x, x ∈ vooo v -> hi x <= vh v + n) ->
  exists g', set_size g f n = Some (g', inl tt) /\ frame (hdr_off f) (offs (chain v)) (offs (chain v)) g fr g' fr /\
    fifo_ok g' fr f (mk_view (vh v) (vt v) n (vpre v) (vtail v) (vpost v) (vooo v) (vs v) (ve v) (vix v)) B.
Proof.
  intros Hok Hn Hpos Hooo. unfold set_size. rewrite (max_dequeue_spec _ _ _ _ _ Hok). destruct Hok as [(h & HM & Htc) HB]. rewrite (proj2 (Z.eqb_neq n 0)) by lia.
  rewrite (proj2 (Z.ltb_ge u32_max n)) by (unfold u32_max; lia). cbn [orb mbind option_bind]. rewrite (proj2 (Z.ltb_ge n _)) by lia. rewrite wrap_small by (unfold in_word; lia).
  destruct (hdr_upd_spec g (hdr_off f) h (set_size_ n) (fk_at _ _ _ _ _ HM)) as (g' & -> & D & Hh & Eb). cbn [mbind option_bind]. exists g'. split; [done|].
  split; [by eapply frame_header; [apply (fk_chain _ _ _ _ _ HM)|..]|]. constructor; [|by rewrite Eb]. exists (set_size_ n h). split; [|done].
  destruct HM as [M1 M2 [K1 K2 K3 K4 K5 K6 K7] [P1 P2 P3 P4 P5] M5 M6 M7]. constructor; try done; [by eapply chain_ok_data| |].
  - constructor; try done. by rewrite (ds_slices _ _ _ D).
  - constructor; try done; cbn; [lia|lia|]. intros x Hx. pose proof (P5 x Hx). pose proof (Hooo x Hx). lia.
Qed.

End Ops.
End SvmFifoRead.
