(* ===== verification/SvmSegment.v ===== *)
(** * FIFO segments ([crates/hammer-infra/src/svm/fifo_segment.rs])

    A process's handle on a shared segment: it allocates FIFO headers and
    chunks from the mapping, keeps the FIFOs it uses in one pool per slice, and
    returns headers and chunks to the free lists of a slice when a FIFO is
    freed.  Message queues, which live in the same mapping, are not modelled.

    [None] is a panic; a [Result] is a sum next to the segment as it is left. *)

From S2P Require Import Prelude InfraBitmap InfraPool InfraRbTree SvmOoo SvmMemory SvmFifo.

Module SvmSegment.
Import SvmOoo SvmMemory SvmFifo.

Definition FIFO_SEGMENT_ALIGN : Z := 64.
Definition FIFO_SEGMENT_MIN_FIFO_SIZE : Z := Z.shiftl 1 FS_MIN_LOG2_CHUNK_SIZE.
(** [size_of::<FifoSegmentHeader>()] and [size_of::<FifoSegmentSlice>()] *)
Definition SEGMENT_HEADER_SIZE : Z := 128.
Definition SEGMENT_SLICE_SIZE : Z := 192.

Inductive FifoSegmentFtype : Type := FtypeNone | RxFifo | TxFifo.
Inductive FifoSegmentMemoryStatus : Type := NoPressure | LowPressure | HighPressure | NoMemory.

Record SvmFifoSegmentConfig : Type := segment_config {
  cfg_slices : Z;
  max_fifo_size : Z;
  first_allocation_percent : Z;
  cfg_low_watermark : Z;
  cfg_high_watermark : Z
}.

Definition config_default : SvmFifoSegmentConfig := segment_config 1 (Z.shiftl 1 31) 100 0 0.

Inductive FifoSegmentError : Type :=
| HeaderMissing
| InvalidSliceCount (count : Z)
| HeaderOutOfBounds
| HeapPresent
| NotReady
| InvalidSlice (slice : Z)
| InvalidFifo (fifo : Z)
| InvalidOffset (offset : Z)
| InvalidWatermark
| FifoFailed (source : FifoError).

(** [segment_header] is the address the slice was made for. *)
Record FifoSlicePrivate : Type := slice_private {
  slice_index : Z;
  segment_header : Z;
  fifos : Pool.t Fifo;
  active_fifos : list Z
}.
Definition slice_private_new (slice_index segment_header : Z) : FifoSlicePrivate :=
  slice_private slice_index segment_header Pool.new [].
Definition set_fifos (x : Pool.t Fifo) (p : FifoSlicePrivate) : FifoSlicePrivate :=
  slice_private (slice_index p) (segment_header p) x (active_fifos p).
Definition set_active_fifos (x : list Z) (p : FifoSlicePrivate) : FifoSlicePrivate :=
  slice_private (slice_index p) (segment_header p) (fifos p) x.

(** [seg] is the memory behind [h]; the offset of the segment header in the
    mapping and the size of the mapping are those of [ssvm]. *)
Record SvmFifoSegment : Type := fifo_segment {
  seg : segment;
  ssvm_offset : Z;
  ssvm_size : Z;
  h : Z;
  slices_ : list FifoSlicePrivate;
  max_byte_index_ : Z;
  n_slices : Z;
  preallocated : bool;
  high_watermark : Z;
  low_watermark : Z;
  memory_limit : bool
}.
Definition set_seg (x : segment) (s : SvmFifoSegment) : SvmFifoSegment :=
  fifo_segment x (ssvm_offset s) (ssvm_size s) (h s) (slices_ s) (max_byte_index_ s) (n_slices s) (preallocated s) (high_watermark s) (low_watermark s) (memory_limit s).
Definition set_slices_ (x : list FifoSlicePrivate) (s : SvmFifoSegment) : SvmFifoSegment :=
  fifo_segment (seg s) (ssvm_offset s) (ssvm_size s) (h s) x (max_byte_index_ s) (n_slices s) (preallocated s) (high_watermark s) (low_watermark s) (memory_limit s).
Definition set_preallocated (s : SvmFifoSegment) : SvmFifoSegment :=
  fifo_segment (seg s) (ssvm_offset s) (ssvm_size s) (h s) (slices_ s) (max_byte_index_ s) (n_slices s) true (high_watermark s) (low_watermark s) (memory_limit s).
Definition set_memory_limit (x : bool) (s : SvmFifoSegment) : SvmFifoSegment :=
  fifo_segment (seg s) (ssvm_offset s) (ssvm_size s) (h s) (slices_ s) (max_byte_index_ s) (n_slices s) (preallocated s) (high_watermark s) (low_watermark s) x.

(** ** Results *)

#[local] Notation "'res' A" := (option (SvmFifoSegment * (A + FifoSegmentError))) (at level 10, A at level 9).
Definition ok {A} (s : SvmFifoSegment) (a : A) : res A := Some (s, inl a).
Definition err {A} (s : SvmFifoSegment) (e : FifoSegmentError) : res A := Some (s, inr e).
(** [?] *)
Definition and_then {A B} (m : res A) (k : SvmFifoSegment -> A -> res B) : res B :=
  '(s, r) ← m; match r with inl a => k s a | inr e => err s e end.
(** [expect] *)
Definition expect {A B} (m : res A) (k : SvmFifoSegment -> A -> option B) : option B :=
  '(s, r) ← m; match r with inl a => k s a | inr _ => None end.

(** ** Slices *)

Definition shared_slice (s : SvmFifoSegment) (slice : Z) : FifoSegmentSlice + FifoSegmentError :=
  if n_slices s <=? slice then inr (InvalidSlice slice) else
  match vget (slices (seg s)) slice with Some x => inl x | None => inr (InvalidSlice slice) end.
Definition private_slice_index (s : SvmFifoSegment) (p : FifoSlicePrivate) : Z + FifoSegmentError :=
  if negb (segment_header p =? h s) || (n_slices s <=? slice_index p) then inr (InvalidSlice (slice_index p)) else inl (slice_index p).

Definition set_slice (g : segment) (slice : Z) (f : FifoSegmentSlice -> FifoSegmentSlice) : option segment :=
  ss ← vupd (slices g) slice f; Some (set_slices ss g).
Definition set_free_fifos (x : Z) (sl : FifoSegmentSlice) : FifoSegmentSlice :=
  segment_slice (free_chunks sl) x (n_fl_chunk_bytes sl) (virtual_mem sl) (num_chunks sl).
Definition add_virtual_mem (x : Z) (sl : FifoSegmentSlice) : FifoSegmentSlice :=
  segment_slice (free_chunks sl) (free_fifos sl) (n_fl_chunk_bytes sl) (wrap 64 (virtual_mem sl + x)) (num_chunks sl).
Definition set_num_chunks (x : list Z) (sl : FifoSegmentSlice) : FifoSegmentSlice :=
  segment_slice (free_chunks sl) (free_fifos sl) (n_fl_chunk_bytes sl) (virtual_mem sl) x.

(** ** Allocating from the mapping *)

Definition is_power_of_two (a : Z) : bool := (0 <? a) && (Z.land a (a - 1) =? 0).

Definition allocate_block (s : SvmFifoSegment) (bytes align : Z) : res Z :=
  if (align =? 0) || negb (is_power_of_two align) then err s HeaderOutOfBounds else
  match checked_add 64 (byte_index (seg s)) (align - 1) with
  | None => err s HeaderOutOfBounds
  | Some value =>
    let aligned := Z.ldiff value (align - 1) in
    match checked_add 64 aligned bytes with
    | None => err s HeaderOutOfBounds
    | Some e =>
      if (max_byte_index_ s <=? e) || (FS_CHUNK_OFFSET_MASK <? e)
      then err (set_memory_limit true s) (FifoFailed SegmentExhausted)
      else ok (set_seg (set_byte_index e (seg s)) s) aligned
    end
  end.

Definition push_chunk_list (s : SvmFifoSegment) (slice class first tail bytes count : Z) : res unit :=
  if negb (fs_offset_is_valid first (max_byte_index_ s)) || negb (fs_offset_is_valid tail (max_byte_index_ s)) || (FS_CHUNK_VEC_LEN <=? class)
  then None else
  match shared_slice s slice with
  | inr e => err s e
  | inl shared =>
    head ← vget (free_chunks shared) class;
    g ← chunk_upd (seg s) tail (set_c_next (fs_head_offset head));
    new_head ← fs_head_with_next head first;
    g ← set_free_head g slice class new_head bytes;
    n ← vget (num_chunks shared) class;
    counts ← vset (num_chunks shared) class (wrap 32 (n + count));
    g ← set_slice g slice (set_num_chunks counts);
    ok (set_seg g s) tt
  end.

Definition push_chunk (s : SvmFifoSegment) (slice class offset : Z) : res unit :=
  if negb (fs_offset_is_valid offset (max_byte_index_ s)) then err s (InvalidOffset offset) else
  chunk ← chunk_at (seg s) offset;
  push_chunk_list s slice class offset offset (c_length chunk) 1.

(** A header that was never written is zero, as the mapping is when it is
    made. *)
Definition header_zero : SvmFifoShared := fifo_shared 0 0 0 0 0 0 signals_new 0 0 0 0.

Definition pop_fifo_header (s : SvmFifoSegment) (slice : Z) : res (option Z) :=
  match shared_slice s slice with
  | inr e => err s e
  | inl shared =>
    let head := free_fifos shared in
    if head =? 0 then ok s None else
    if negb (fs_offset_is_valid head (max_byte_index_ s)) then None else
    header ← hdr_at (seg s) head;
    g ← set_slice (seg s) slice (set_free_fifos (h_next header));
    g ← hdr_upd g head (set_h_next 0);
    ok (set_seg g s) (Some head)
  end.

Definition push_fifo_header (s : SvmFifoSegment) (slice offset : Z) : res unit :=
  if negb (fs_offset_is_valid offset (max_byte_index_ s)) then None else
  match shared_slice s slice with
  | inr e => err s e
  | inl shared =>
    g ← hdr_upd (seg s) offset (set_h_next (free_fifos shared));
    g ← set_slice g slice (set_free_fifos offset);
    ok (set_seg g s) tt
  end.

Definition allocate_fifo_header (s : SvmFifoSegment) (slice : Z) : res Z :=
  and_then (pop_fifo_header s slice) (fun s popped =>
  match popped with
  | Some offset => ok s offset
  | None =>
    and_then (allocate_block s FIFO_HEADER_SIZE FIFO_SEGMENT_ALIGN) (fun s offset =>
    ok (set_seg (set_headers (<[offset := header_zero]> (headers (seg s))) (seg s)) s) offset)
  end).

Fixpoint release_chunks (s : SvmFifoSegment) (slice : Z) (chunks : list Z) : res unit :=
  match chunks with
  | [] => ok s tt
  | offset :: chunks' =>
    if negb (fs_offset_is_valid offset (max_byte_index_ s)) then err s (InvalidOffset offset) else
    chunk ← chunk_at (seg s) offset;
    and_then (push_chunk s slice (fs_chunk_class (c_length chunk)) offset) (fun s _ => release_chunks s slice chunks')
  end.

(** ** Creating a FIFO *)

Definition max_capacity (s : SvmFifoSegment) : Z := Z.shiftl 1 (Z.min (max_log2_fifo_size (seg s)) 63).
Definition validate_fifo_capacity (s : SvmFifoSegment) (capacity : Z) : unit + FifoSegmentError :=
  if (capacity <? FIFO_SEGMENT_MIN_FIFO_SIZE) || (max_capacity s <? capacity) then inr (FifoFailed (CapacityOutOfRange capacity)) else inl tt.
Definition validate_chunk_size (s : SvmFifoSegment) (size : Z) : unit + FifoSegmentError :=
  if (size <? FIFO_SEGMENT_MIN_FIFO_SIZE) || (max_capacity s <? size) then inr (FifoFailed (CapacityOutOfRange size)) else inl tt.

(** The chunks allocated, and the error that ended the loop early. *)
Fixpoint alloc_chunks (n : nat) (g : segment) (slice physical index : Z) : option (segment * (list Z * option FifoError)) :=
  match n with
  | O => Some (g, ([], None))
  | S n' =>
    '(g, r) ← allocate_chunk g slice physical (wrap 32 (index * physical));
    match r with
    | inr e => Some (g, ([], Some e))
    | inl offset =>
      '(g, (rest, e)) ← alloc_chunks n' g slice physical (index + 1);
      Some (g, (offset :: rest, e))
    end
  end.

Fixpoint link_chunks (g : segment) (chunks : list Z) : option segment :=
  match chunks with
  | [] => Some g
  | offset :: chunks' =>
    g ← chunk_upd g offset (set_c_next (match chunks' with [] => 0 | next :: _ => next end));
    link_chunks g chunks'
  end.

(** [Fifo::set_slice_index] *)
Definition set_slice_index (g : segment) (f : Fifo) (slice : Z) : option segment :=
  if u8_max <? slice then None else hdr_upd g (hdr_off f) (set_slice_index_ slice).

(** Undoes a failed allocation and reports [e]. *)
Definition abandon_fifo (s : SvmFifoSegment) (slice header_offset : Z) (chunks : list Z) (e : FifoError) : res Fifo :=
  and_then (release_chunks s slice chunks) (fun s _ =>
  and_then (push_fifo_header s slice header_offset) (fun s _ => err s (FifoFailed e))).

Definition allocate_fifo_value (s : SvmFifoSegment) (slice capacity : Z) (ftype : FifoSegmentFtype) : res Fifo :=
  match validate_fifo_capacity s capacity with
  | inr e => err s e
  | inl _ =>
    match ftype with FtypeNone => err s (InvalidFifo u32_max) | _ =>
    match shared_slice s slice with
    | inr e => err s e
    | inl _ =>
      and_then (allocate_fifo_header s slice) (fun s header_offset =>
      let min_alloc := Z.max (capacity * pct_first_alloc (seg s) / 100) FIFO_SEGMENT_MIN_FIFO_SIZE in
      let physical := chunk_size min_alloc in
      let chunk_count := (capacity + physical - 1) / physical in
      '(g, (chunks, failed)) ← alloc_chunks (Z.to_nat chunk_count) (seg s) slice physical 0;
      match failed with
      | Some e => abandon_fifo (set_memory_limit true (set_seg g s)) slice header_offset chunks e
      | None =>
        g ← link_chunks g chunks;
        start ← vget chunks 0;
        last ← list.last chunks;
        '(g, r) ← init_at_svm_shared g (ssvm_offset s) (ssvm_size s) header_offset capacity start last;
        match r with
        | inr e => abandon_fifo (set_seg g s) slice header_offset chunks e
        | inl fifo => g ← set_slice_index g fifo slice; ok (set_seg g s) fifo
        end
      end)
    end end
  end.

Definition record_fifo_allocation (s : SvmFifoSegment) (slice capacity : Z) : option SvmFifoSegment :=
  let g := set_active (wrap 32 (n_active_fifos (seg s) + 1)) (seg s) in
  match shared_slice s slice with
  | inr _ => None
  | inl _ => g ← set_slice g slice (add_virtual_mem capacity); Some (set_seg g s)
  end.

Definition is_rx (ftype : FifoSegmentFtype) : bool := match ftype with RxFifo => true | _ => false end.

(** Adds a FIFO to a pool of the process. *)
Definition private_insert (p : FifoSlicePrivate) (fifo : Fifo) (active : bool) : option (FifoSlicePrivate * Z) :=
  '(pool, index) ← Pool.insert (fifos p) fifo;
  let p := set_fifos pool p in
  Some (if active then set_active_fifos (active_fifos p ++ [index]) p else p, index).

(** Applies [f] to a slice of the process. *)
Definition with_private {A} (s : SvmFifoSegment) (slice : Z) (f : FifoSlicePrivate -> option (FifoSlicePrivate * A)) : option (SvmFifoSegment * A) :=
  p ← vget (slices_ s) slice;
  '(p, a) ← f p;
  ps ← vset (slices_ s) slice p;
  Some (set_slices_ ps s, a).

Definition allocate_fifo (s : SvmFifoSegment) (slice capacity : Z) (ftype : FifoSegmentFtype) : res Z :=
  match vget (slices_ s) slice with
  | None => err s (InvalidSlice slice)
  | Some _ =>
    and_then (allocate_fifo_value s slice capacity ftype) (fun s fifo =>
    '(s, index) ← with_private s slice (fun p => private_insert p fifo (is_rx ftype));
    s ← record_fifo_allocation s slice capacity;
    ok s index)
  end.

Definition allocate_fifo_in (s : SvmFifoSegment) (p : FifoSlicePrivate) (capacity : Z) (ftype : FifoSegmentFtype)
  : option (SvmFifoSegment * FifoSlicePrivate * (Z + FifoSegmentError)) :=
  match private_slice_index s p with
  | inr e => Some (s, p, inr e)
  | inl slice =>
    '(s, r) ← allocate_fifo_value s slice capacity ftype;
    match r with
    | inr e => Some (s, p, inr e)
    | inl fifo =>
      '(p, index) ← private_insert p fifo (is_rx ftype);
      s ← record_fifo_allocation s slice capacity;
      Some (s, p, inl index)
    end
  end.

(** ** Looking FIFOs up *)

Definition fifo (s : SvmFifoSegment) (slice index : Z) : option (option Fifo) :=
  match vget (slices_ s) slice with None => Some None | Some p => Pool.get (fifos p) index end.

Definition fifo_offset (s : SvmFifoSegment) (slice index : Z) : option (Z + FifoSegmentError) :=
  f ← fifo s slice index;
  Some match f with
       | None => inr (InvalidFifo index)
       | Some f => if negb (fs_offset_is_valid (hdr_off f) (max_byte_index_ s)) then inr (InvalidOffset (hdr_off f)) else inl (hdr_off f)
       end.

Definition attach_fifo (s : SvmFifoSegment) (slice offset : Z) : res Z :=
  match vget (slices_ s) slice with
  | None => err s (InvalidSlice slice)
  | Some _ =>
    if negb (fs_offset_is_valid offset (max_byte_index_ s)) then err s (InvalidOffset offset) else
    r ← attach_at_svm_shared (seg s) offset;
    match r with
    | inr e => err s (FifoFailed e)
    | inl f => '(s, index) ← with_private s slice (fun p => private_insert p f false); ok s index
    end
  end.

Definition attach_fifo_in (s : SvmFifoSegment) (p : FifoSlicePrivate) (offset : Z) : option (FifoSlicePrivate * (Z + FifoSegmentError)) :=
  match private_slice_index s p with
  | inr e => Some (p, inr e)
  | inl _ =>
    if negb (fs_offset_is_valid offset (max_byte_index_ s)) then Some (p, inr (InvalidOffset offset)) else
    r ← attach_at_svm_shared (seg s) offset;
    match r with
    | inr e => Some (p, inr (FifoFailed e))
    | inl f => '(p, index) ← private_insert p f false; Some (p, inl index)
    end
  end.

Definition duplicate_fifo (s : SvmFifoSegment) (slice index : Z) : res Z :=
  match vget (slices_ s) slice with
  | None => err s (InvalidSlice slice)
  | Some _ =>
    f ← fifo s slice index;
    match f with
    | None => err s (InvalidFifo index)
    | Some f => '(s, new_index) ← with_private s slice (fun p => private_insert p (duplicate f) false); ok s new_index
    end
  end.

(** ** Freeing a FIFO *)

(** The position of the first occurrence. *)
Fixpoint position (l : list Z) (x : Z) : option nat :=
  match l with
  | [] => None
  | y :: l' => if y =? x then Some O else S <$> position l' x
  end.
(** [Vec::swap_remove] *)
Definition swap_remove (l : list Z) (i : nat) : list Z :=
  match list.last l with
  | None => l
  | Some y => take (length l - 1) (<[i := y]> l)
  end.
Definition without_active (index : Z) (p : FifoSlicePrivate) : FifoSlicePrivate :=
  match position (active_fifos p) index with
  | Some i => set_active_fifos (swap_remove (active_fifos p) i) p
  | None => p
  end.
Definition remove_active (s : SvmFifoSegment) (slice index : Z) : SvmFifoSegment :=
  match vget (slices_ s) slice with
  | None => s
  | Some p => match vset (slices_ s) slice (without_active index p) with Some ps => set_slices_ ps s | None => s end
  end.

Fixpoint validate_chunks (n : nat) (g : segment) (max chunk_offset : Z) : option (unit + FifoSegmentError) :=
  match n with
  | O => None
  | S n' =>
    if chunk_offset =? 0 then Some (inl tt) else
    if negb (fs_offset_is_valid chunk_offset max) then Some (inr (InvalidOffset chunk_offset)) else
    chunk ← chunk_at g chunk_offset;
    validate_chunks n' g max (fs_head_offset (c_next chunk))
  end.
Definition validate_fifo_chunks (s : SvmFifoSegment) (f : Fifo) : option (unit + FifoSegmentError) :=
  header ← hdr_at (seg s) (hdr_off f);
  validate_chunks (chunk_fuel (seg s)) (seg s) (max_byte_index_ s) (h_start_chunk header).

Fixpoint return_chunks (n : nat) (s : SvmFifoSegment) (slice chunk_offset : Z) : option SvmFifoSegment :=
  match n with
  | O => None
  | S n' =>
    if chunk_offset =? 0 then Some s else
    chunk ← chunk_at (seg s) chunk_offset;
    expect (push_chunk s slice (fs_chunk_class (c_length chunk)) chunk_offset) (fun s _ =>
    return_chunks n' s slice (fs_head_offset (c_next chunk)))
  end.

Definition release_fifo_value (s : SvmFifoSegment) (slice : Z) (f : Fifo) : option SvmFifoSegment :=
  header ← hdr_at (seg s) (hdr_off f);
  let capacity := h_size header in
  s ← return_chunks (chunk_fuel (seg s)) s slice (h_start_chunk header);
  g ← hdr_upd (seg s) (hdr_off f) (fun x => set_tail_chunk 0 (set_head_chunk 0 (set_end_chunk 0 (set_start_chunk 0 x))));
  expect (push_fifo_header (set_seg g s) slice (hdr_off f)) (fun s _ =>
  let g := set_active (wrap 32 (n_active_fifos (seg s) - 1)) (seg s) in
  match shared_slice s slice with
  | inr _ => None
  | inl _ => g ← set_slice g slice (add_virtual_mem (- capacity)); Some (set_seg g s)
  end).

Definition free_server_fifo (s : SvmFifoSegment) (slice index : Z) : res unit :=
  match vget (slices_ s) slice with
  | None => err s (InvalidSlice slice)
  | Some p =>
    f ← fifo s slice index;
    match f with
    | None => err s (InvalidFifo index)
    | Some f =>
      v ← validate_fifo_chunks s f;
      match v with
      | inr e => err s e
      | inl _ =>
        '(pool, removed) ← Pool.remove (fifos p) index;
        match removed with
        | None => err s (InvalidFifo index)
        | Some f =>
          ps ← vset (slices_ s) slice (set_fifos pool p);
          let s := remove_active (set_slices_ ps s) slice index in
          s ← release_fifo_value s slice f; ok s tt
        end
      end
    end
  end.

Definition free_server_fifo_in (s : SvmFifoSegment) (p : FifoSlicePrivate) (index : Z)
  : option (SvmFifoSegment * FifoSlicePrivate * (unit + FifoSegmentError)) :=
  match private_slice_index s p with
  | inr e => Some (s, p, inr e)
  | inl slice =>
    f ← Pool.get (fifos p) index;
    match f with
    | None => Some (s, p, inr (InvalidFifo index))
    | Some f =>
      v ← validate_fifo_chunks s f;
      match v with
      | inr e => Some (s, p, inr e)
      | inl _ =>
        '(pool, removed) ← Pool.remove (fifos p) index;
        f ← removed;
        s ← release_fifo_value s slice f;
        Some (s, without_active index (set_fifos pool p), inl tt)
      end
    end
  end.

Definition free_client_fifo_in (s : SvmFifoSegment) (p : FifoSlicePrivate) (index : Z) : option (FifoSlicePrivate * (unit + FifoSegmentError)) :=
  match private_slice_index s p with
  | inr e => Some (p, inr e)
  | inl _ =>
    '(pool, removed) ← Pool.remove (fifos p) index;
    Some (set_fifos pool p, match removed with None => inr (InvalidFifo index) | Some _ => inl tt end)
  end.

Definition free_client_fifo (s : SvmFifoSegment) (slice index : Z) : res unit :=
  match vget (slices_ s) slice with
  | None => err s (InvalidSlice slice)
  | Some _ =>
    '(s, removed) ← with_private s slice (fun p => '(pool, removed) ← Pool.remove (fifos p) index; Some (set_fifos pool p, removed));
    match removed with None => err s (InvalidFifo index) | Some _ => ok s tt end
  end.

(** ** Moving a FIFO to another slice *)

Definition migrate_fifo (s : SvmFifoSegment) (source_slice index destination_slice : Z) : res Z :=
  match vget (slices_ s) source_slice, vget (slices_ s) destination_slice with
  | None, _ => err s (InvalidSlice source_slice)
  | Some _, None => err s (InvalidSlice destination_slice)
  | Some source, Some _ =>
    if source_slice =? destination_slice then ok s index else
    f ← fifo s source_slice index;
    match f with
    | None => err s (InvalidFifo index)
    | Some f =>
      let replacement := duplicate f in
      capacity ← size (seg s) replacement;
      let was_active := bool_decide (index ∈ active_fifos source) in
      '(s, new_index) ← with_private s destination_slice (fun p => private_insert p replacement was_active);
      g ← set_slice_index (seg s) replacement destination_slice;
      '(s, _) ← with_private (set_seg g s) source_slice (fun p => '(pool, removed) ← Pool.remove (fifos p) index; Some (set_fifos pool p, removed));
      let s := remove_active s source_slice index in
      match shared_slice s source_slice with
      | inr e => err s e
      | inl _ =>
        g ← set_slice (seg s) source_slice (add_virtual_mem (- capacity));
        let s := set_seg g s in
        match shared_slice s destination_slice with
        | inr e => err s e
        | inl _ => g ← set_slice (seg s) destination_slice (add_virtual_mem capacity); ok (set_seg g s) new_index
        end
      end
    end
  end.

(** ** Single chunks *)

Definition allocate_chunk_at (s : SvmFifoSegment) (slice size : Z) : res Z :=
  match validate_chunk_size s size with
  | inr e => err s e
  | inl _ =>
    match shared_slice s slice with
    | inr e => err s e
    | inl _ =>
      '(g, r) ← allocate_chunk (seg s) slice size 0;
      let s := set_seg g s in
      match r with
      | inl offset => ok s offset
      | inr SegmentExhausted => err (set_memory_limit true s) (FifoFailed SegmentExhausted)
      | inr e => err s (FifoFailed e)
      end
    end
  end.

Fixpoint collect_chunk (n : nat) (s : SvmFifoSegment) (slice offset : Z) : res unit :=
  match n with
  | O => None
  | S n' =>
    if offset =? 0 then ok s tt else
    if negb (fs_offset_is_valid offset (max_byte_index_ s)) then err s (InvalidOffset offset) else
    chunk ← chunk_at (seg s) offset;
    let next := Z.land (c_next chunk) FS_CHUNK_OFFSET_MASK in
    and_then (push_chunk s slice (fs_chunk_class (c_length chunk)) offset) (fun s _ => collect_chunk n' s slice next)
  end.

Definition chunk_offset (s : SvmFifoSegment) (chunk : Z) : Z + FifoSegmentError :=
  if negb (fs_offset_is_valid chunk (max_byte_index_ s)) then inr (InvalidOffset chunk) else inl chunk.

(** ** Preallocation *)

(** Writes [count] headers from the last to the first; returns the first and
    the last. *)
Fixpoint write_headers (n : nat) (g : segment) (first_offset stride first tail : Z) : segment * (Z * Z) :=
  match n with
  | O => (g, (first, tail))
  | S n' =>
    let offset := first_offset + Z.of_nat n' * stride in
    let tail := if tail =? 0 then offset else tail in
    let g := set_headers (<[offset := set_h_next first header_zero]> (headers g)) g in
    write_headers n' g first_offset stride offset tail
  end.

Definition preallocate_fifo_headers (s : SvmFifoSegment) (slice count : Z) : res unit :=
  match vget (slices_ s) slice with
  | None => err s (InvalidSlice slice)
  | Some _ =>
    if count =? 0 then ok s tt else
    and_then (allocate_block s (Bitmap.saturating_mul 64 FIFO_HEADER_SIZE count) FIFO_SEGMENT_ALIGN) (fun s first_offset =>
    let '(g, (first, tail)) := write_headers (Z.to_nat count) (seg s) first_offset FIFO_HEADER_SIZE 0 0 in
    let s := set_seg g s in
    match shared_slice s slice with
    | inr e => err s e
    | inl shared =>
      g ← hdr_upd g tail (set_h_next (free_fifos shared));
      g ← set_slice g slice (set_free_fifos first);
      ok (set_seg g s) tt
    end)
  end.

Fixpoint write_chunks (n : nat) (g : segment) (first_offset stride physical first tail : Z) : segment * (Z * Z) :=
  match n with
  | O => (g, (first, tail))
  | S n' =>
    let offset := first_offset + Z.of_nat n' * stride in
    let tail := if tail =? 0 then offset else tail in
    let g := set_chunks (<[offset := fifo_chunk 0 physical first u32_max u32_max]> (chunks g)) g in
    write_chunks n' g first_offset stride physical offset tail
  end.

Definition preallocate_chunks (s : SvmFifoSegment) (slice size count : Z) : res unit :=
  match validate_chunk_size s size with
  | inr e => err s e
  | inl _ =>
    match vget (slices_ s) slice with
    | None => err s (InvalidSlice slice)
    | Some _ =>
      if count =? 0 then ok s tt else
      let physical := chunk_size size in
      let stride := CHUNK_HEADER_SIZE + physical in
      and_then (allocate_block s (Bitmap.saturating_mul 64 stride count) 8) (fun s first_offset =>
      let class := fs_chunk_class size in
      let '(g, (first, tail)) := write_chunks (Z.to_nat count) (seg s) first_offset stride physical 0 0 in
      push_chunk_list (set_seg g s) slice class first tail (physical * count) count)
    end
  end.

Definition new_free_bytes (s : SvmFifoSegment) : Z := saturating_sub (max_byte_index_ s) (byte_index (seg s)).

Definition preallocate_fifo_pairs (s : SvmFifoSegment) (slice rx_capacity tx_capacity pairs : Z) : res Z :=
  match validate_fifo_capacity s rx_capacity, validate_fifo_capacity s tx_capacity with
  | inr e, _ => err s e
  | inl _, inr e => err s e
  | inl _, inl _ =>
    let pair_bytes := saturating_add 64 (saturating_add 64 (Bitmap.saturating_mul 64 2 (FIFO_HEADER_SIZE + CHUNK_HEADER_SIZE))
                        (chunk_size rx_capacity)) (chunk_size tx_capacity) in
    let count := Z.min pairs (wrap 32 (new_free_bytes s / Z.max pair_bytes 1)) in
    if count =? 0 then ok s pairs else
    and_then (preallocate_fifo_headers s slice (Bitmap.saturating_mul 32 count 2)) (fun s _ =>
    and_then (preallocate_chunks s slice rx_capacity count) (fun s _ =>
    and_then (preallocate_chunks s slice tx_capacity count) (fun s _ =>
    ok (set_preallocated s) (pairs - count))))
  end.

(** ** Statistics *)

(** Memory for other users of the segment; the offset of the block. *)
Definition allocate_reserved (s : SvmFifoSegment) (bytes align : Z) : res Z :=
  and_then (allocate_block s bytes align) (fun s offset =>
  ok (set_seg (set_reserved (wrap 32 (n_reserved_bytes (seg s) + wrap 32 bytes)) (seg s)) s) offset).

Definition allocated_bytes (s : SvmFifoSegment) : Z := saturating_sub (byte_index (seg s)) (start_byte_index (seg s)).
Definition cached_bytes (s : SvmFifoSegment) : Z := n_cached_bytes (seg s).
Definition available_bytes (s : SvmFifoSegment) : Z := saturating_add 64 (new_free_bytes s) (cached_bytes s).
Definition free_chunk_bytes (s : SvmFifoSegment) : option Z :=
  foldl (fun acc sl => a ← acc; checked_add 64 a (n_fl_chunk_bytes sl)) (Some 0) (slices (seg s)).
Definition freelist_bytes (s : SvmFifoSegment) : option Z := free_chunk_bytes s.
Definition active_fifos_of (s : SvmFifoSegment) (slice : Z) : list Z + FifoSegmentError :=
  match vget (slices_ s) slice with Some p => inl (active_fifos p) | None => inr (InvalidSlice slice) end.
Definition active_fifo_count (s : SvmFifoSegment) : Z := n_active_fifos (seg s).

Fixpoint count_headers (n : nat) (g : segment) (max offset : Z) : option Z :=
  match n with
  | O => None
  | S n' =>
    if offset =? 0 then Some 0 else
    if negb (fs_offset_is_valid offset max) then None else
    header ← hdr_at g offset;
    k ← count_headers n' g max (h_next header);
    Some (k + 1)
  end.
Definition free_fifo_count (s : SvmFifoSegment) : option Z :=
  foldl (fun acc sl => a ← acc; k ← count_headers (S (base.size (headers (seg s)))) (seg s) (max_byte_index_ s) (free_fifos sl); Some (a + k))
    (Some 0) (slices (seg s)).

Fixpoint count_free (n : nat) (g : segment) (max head : Z) : option Z :=
  match n with
  | O => None
  | S n' =>
    let offset := fs_head_offset head in
    if offset =? 0 then Some 0 else
    if negb (fs_offset_is_valid offset max) then None else
    chunk ← chunk_at g offset;
    k ← count_free n' g max (fs_head_offset (c_next chunk));
    Some (k + 1)
  end.
Definition free_chunk_count (s : SvmFifoSegment) (size : Z) : option Z :=
  let class := fs_chunk_class size in
  foldl (fun acc sl => a ← acc; head ← vget (free_chunks sl) class; k ← count_free (chunk_fuel (seg s)) (seg s) (max_byte_index_ s) head; Some (a + k))
    (Some 0) (slices (seg s)).

Definition usage_percent (s : SvmFifoSegment) : Z :=
  let size := saturating_sub (max_byte_index_ s) (n_reserved_bytes (seg s)) in
  if size =? 0 then 0 else
  let in_use := saturating_sub (saturating_sub size (new_free_bytes s)) (cached_bytes s) in
  Z.min (Bitmap.saturating_mul 64 in_use 100 / size) 100.

Definition memory_status (s : SvmFifoSegment) : SvmFifoSegment * FifoSegmentMemoryStatus :=
  if (high_watermark s =? 0) || (low_watermark s =? 0) then (s, NoPressure) else
  let usage := usage_percent s in
  if memory_limit s && (high_watermark s <=? usage) then (s, NoMemory) else
  let s := if memory_limit s then set_memory_limit false s else s in
  (s, if high_watermark s <=? usage then HighPressure else if low_watermark s <=? usage then LowPressure else NoPressure).

(** ** Creating, attaching to and closing a segment *)

Definition validate_config (config : SvmFifoSegmentConfig) : unit + FifoSegmentError :=
  if (cfg_slices config =? 0) || (u8_max <? cfg_slices config) then inr (InvalidSliceCount (cfg_slices config)) else
  if (first_allocation_percent config =? 0) || (100 <? first_allocation_percent config) then inr InvalidWatermark else
  if (max_fifo_size config <? FIFO_SEGMENT_MIN_FIFO_SIZE) || (Z.shiftl 1 31 <? max_fifo_size config) then inr InvalidWatermark else
  if negb (cfg_high_watermark config =? 0) && ((cfg_low_watermark config =? 0) || (cfg_high_watermark config <? cfg_low_watermark config)) then inr InvalidWatermark else
  inl tt.

Definition layout_bytes (n_slices : Z) : Z := SEGMENT_HEADER_SIZE + n_slices * SEGMENT_SLICE_SIZE.
Definition max_log2 (size : Z) : Z := bit_length (Z.max size 1) - 1.

Definition initialize_slices (count header : Z) : list FifoSlicePrivate := (fun i => slice_private_new i header) <$> zseq 0 (Z.to_nat count).
Definition take_private_slices (s : SvmFifoSegment) : SvmFifoSegment * list FifoSlicePrivate := (set_slices_ [] s, slices_ s).

(** A fresh mapping of [size] bytes at address [base], made by this process and
    without a heap; [page_size] is that of the mapping. *)
Definition segment_new (base page_size size : Z) (config : SvmFifoSegmentConfig) : SvmFifoSegment + FifoSegmentError :=
  match validate_config config with
  | inr e => inr e
  | inl _ =>
    match (if page_size * 2 <? 2 ^ 64 then Some (page_size * 2) else None) with
    | None => inr HeaderOutOfBounds
    | Some header_offset =>
      let header_bytes := layout_bytes (cfg_slices config) in
      match checked_add 64 header_offset header_bytes with
      | None => inr HeaderOutOfBounds
      | Some header_end =>
        if (size <=? header_end) || (FS_CHUNK_OFFSET_MASK <? header_end) then inr HeaderOutOfBounds else
        let max_byte_index := size - header_offset in
        let header := base + header_offset in
        let g := mk_segment 0 0 (wrap 32 header_bytes) (max_log2 (max_fifo_size config)) (first_allocation_percent config) header_bytes
                   max_byte_index header_bytes (replicate (Z.to_nat (cfg_slices config)) slice_new) ∅ ∅ ∅ in
        inl (fifo_segment g header_offset size header (initialize_slices (cfg_slices config) header)
               max_byte_index (cfg_slices config) false (cfg_high_watermark config) (cfg_low_watermark config) false)
      end
    end
  end.

(** Another process maps at [base] the segment that [g] describes; the mapping
    records the offset of the segment header once the segment is set up.
    [slices_offset] is the field of the header. *)
Definition segment_attach (g : segment) (slices_offset base : Z) (header_offset : option Z) (ready : bool) (size : Z) (config : SvmFifoSegmentConfig)
  : SvmFifoSegment + FifoSegmentError :=
  match header_offset with
  | None => inr HeaderMissing
  | Some header_offset =>
    if negb ready then inr NotReady else
    match checked_add 64 header_offset SEGMENT_HEADER_SIZE with
    | None => inr HeaderOutOfBounds
    | Some header_end =>
      if negb (header_offset mod 64 =? 0) || (size <? header_end) || (FS_CHUNK_OFFSET_MASK <? header_end) then inr HeaderOutOfBounds else
      let shared_slices := vlen (slices g) in
      if (shared_slices =? 0) || (negb (cfg_slices config =? 0) && negb (cfg_slices config =? shared_slices)) then inr (InvalidSliceCount shared_slices) else
      if (slices_offset <? SEGMENT_HEADER_SIZE) || negb (slices_offset mod 64 =? 0) ||
         match checked_add 64 slices_offset (shared_slices * SEGMENT_SLICE_SIZE) with None => true | Some e => start_byte_index g <? e end ||
         (max_byte_index g <? start_byte_index g) ||
         match checked_add 64 header_offset (max_byte_index g) with None => true | Some e => size <? e end ||
         (FS_CHUNK_OFFSET_MASK <? max_byte_index g)
      then inr HeaderOutOfBounds else
      let header := base + header_offset in
      inl (fifo_segment g header_offset size header (initialize_slices shared_slices header) (max_byte_index g) shared_slices false 0 0 false)
    end
  end.

(** Drops the FIFOs of the process; the shared memory stays as it is. *)
Fixpoint clear_fifos (n : nat) (p : Pool.t Fifo) : option (Pool.t Fifo) :=
  match n with
  | O => None
  | S n' =>
    match Pool.first_index p with
    | None => Some p
    | Some index => '(p, _) ← Pool.remove p index; clear_fifos n' p
    end
  end.
Definition cleanup (s : SvmFifoSegment) : option SvmFifoSegment :=
  ps ← mapM (fun p => pool ← clear_fifos (S (length (Pool.vector (fifos p)))) (fifos p); Some (set_active_fifos [] (set_fifos pool p))) (slices_ s);
  Some (set_slices_ ps s).

End SvmSegment.
