(* ===== verification/SvmSegmentProofs.v ===== *)
(** * Creating and freeing the FIFOs of a segment

    The lists of free FIFO headers, the regions of headers and chunks, and what
    creating or freeing a FIFO does to the segment and to the other FIFOs. *)

From S2P Require Import Prelude Ranges InfraBitmap InfraPool InfraRbTree InfraRbOps InfraRbMap.
From S2P Require Import SvmOoo SvmOooProofs SvmMemory SvmMemoryProofs SvmFifo SvmChain SvmGrow SvmFifoInv SvmFifoOps SvmSegment.

Module SvmSegmentProofs.
Import Ranges SvmOoo SvmOooProofs SvmMemory SvmMemoryProofs SvmFifo SvmChain SvmGrow SvmFifoInv SvmFifoOps SvmSegment.

#[local] Existing Instance RbOps.Z_key_order.
Implicit Types (g : segment) (fr : frees) (f : Fifo) (v : view) (c d : cnode) (cs : list cnode) (B : Z -> Z).

(** ** Allocating the chunks of a FIFO *)

(** Chunks that are allocated but not linked yet. *)
Record laid g fr cs : Prop := {
  ld_seg : seg_ok g fr;
  ld_nodup : NoDup (offs cs);
  ld_own c : c ∈ cs -> ~ is_free fr (coff c);
  ld_chunk c : c ∈ cs -> exists ch : SvmFifoChunk, chunks g !! coff c = Some ch /\ c_start_byte ch = wr (clo c) /\ c_length ch = clen c
}.

Lemma laid_nil g fr : seg_ok g fr -> laid g fr [].
Proof. intros H. constructor; [done|constructor|..]; intros c Hc; by apply not_elem_of_nil in Hc. Qed.

Lemma laid_alloc g fr g' fr' cs o start size :
  laid g fr cs -> allocated g fr g' fr' o (wr start) size -> laid g' fr' (cs ++ [mk_cnode o start (chunk_size size)]).
Proof.
  intros [L1 L2 L3 L4] [A1 A2 A3 (ch & Ec & E1 & E2 & E3) A4 A5].
  assert (forall c, c ∈ cs -> coff c <> o) as Hne.
  { intros c Hc Eo. destruct (L4 c Hc) as (dh & Hdh & _). destruct A4 as [A4|A4]; [congruence|]. apply (L3 c Hc). by rewrite Eo. }
  constructor; [done| | |].
  - rewrite fmap_app. apply NoDup_app. split_and!; [done| |apply NoDup_singleton]. intros x (c & Ex & Hc)%list_elem_of_fmap Ho%list_elem_of_singleton. apply (Hne c Hc). cbn in Ho. congruence.
  - intros c Hc (s & k & [Hx Hx']%A5). apply elem_of_app in Hc as [Hc| ->%list_elem_of_singleton]; [|done]. apply (L3 c Hc). by exists s, k.
  - intros c [Hc| ->%list_elem_of_singleton]%elem_of_app; rewrite Ec.
    + rewrite lookup_insert_ne by (intros ?; by apply (Hne c)). by apply L4.
    + exists ch. by rewrite lookup_insert_eq.
Qed.

Lemma chunk_size_idem size : chunk_size (chunk_size size) = chunk_size size.
Proof. rewrite !chunk_size_class. by rewrite class_of_size by apply class_range. Qed.

Lemma alloc_chunks_spec n g fr acc slice size index physical :
  physical = chunk_size size -> laid g fr acc -> 0 <= slice < vlen (slices g) ->
  exists g' fr' cs e, alloc_chunks n g slice physical index = Some (g', (offs cs, e)) /\ laid g' fr' (acc ++ cs) /\
    contig (index * physical) cs ((index + vlen cs) * physical) /\ moved (offs acc) (offs (acc ++ cs)) g fr g' fr' /\
    match e with None => length cs = n | Some er => er = SegmentExhausted /\ (length cs < n)%nat end.
Proof.
  intros -> L Hs. revert g fr acc index L Hs. induction n as [|n IH]; intros g fr acc index L Hs; cbn [alloc_chunks].
  { exists g, fr, [], None. rewrite app_nil_r. split_and!; try done. cbn. unfold vlen. cbn. lia. }
  destruct (allocate_chunk_spec g fr slice (chunk_size size) (wrap 32 (index * chunk_size size)) (ld_seg _ _ _ L) Hs) as (g1 & r & -> & Hr). cbn [mbind option_bind].
  destruct r as [o|er].
  2:{ destruct Hr as [-> ->]. exists g, fr, [], (Some SegmentExhausted). rewrite app_nil_r. split_and!; try done; [|cbn; lia]. cbn. unfold vlen. cbn. lia. }
  destruct Hr as (fr1 & Al). change (wrap 32 (index * chunk_size size)) with (wr (index * chunk_size size)) in Al. pose proof (laid_alloc _ _ _ _ _ _ _ _ L Al) as L1.
  rewrite chunk_size_idem in L1. set (c := mk_cnode o (index * chunk_size size) (chunk_size size)) in *.
  destruct (IH g1 fr1 (acc ++ [c]) (index + 1) L1) as (g' & fr' & cs & e & -> & L' & Hct & M & He); [by rewrite (sr_slices _ _ (al_rest _ _ _ _ _ _ _ Al))|].
  cbn [mbind option_bind]. exists g', fr', (c :: cs), e. rewrite <- app_assoc in L', M. cbn [app] in L', M. split_and!; try done.
  - cbn. pose proof (class_range size) as Hk. pose proof (class_size_range _ Hk). rewrite <- chunk_size_class in *. split_and!; [done|lia|].
    replace (chi c) with ((index + 1) * chunk_size size) by (unfold chi, c; cbn; lia). replace (index + vlen (c :: cs)) with (index + 1 + vlen cs) by (unfold vlen; cbn; lia). done.
  - eapply moved_trans; [apply (moved_alloc (offs acc) _ _ _ _ _ _ _ Al)|]. change (offs acc ++ [o]) with (offs acc ++ offs [c]). by rewrite <- fmap_app.
  - destruct e; cbn; [split; [apply He|]; destruct He; lia|lia].
Qed.

(** Linking them makes a chain. *)
Lemma link_chunks_spec g fr own l cs :
  laid g fr (l ++ cs) -> (forall o, o ∈ offs (l ++ cs) -> o ∈ own) ->
  exists g', link_chunks g (offs cs) = Some g' /\ laid g' fr (l ++ cs) /\ links (chunks g') cs 0 /\ moved own own g fr g' fr /\
    (forall o, o ∉ offs cs -> chunks g' !! o = chunks g !! o).
Proof.
  revert g l. induction cs as [|c cs IH]; intros g l L Hown; [by exists g|]. cbn [link_chunks fmap list_fmap].
  assert (c ∈ l ++ c :: cs) as Hc by (apply elem_of_app; right; left). destruct (ld_chunk _ _ _ L c Hc) as (ch & Hch & E1 & E2).
  set (nxt := match offs cs with [] => 0 | next :: _ => next end). assert (nxt = first_off cs 0) as Enx by (unfold nxt; by destruct cs).
  destruct (seg_ok_upd g fr (coff c) ch (set_c_next nxt) (ld_seg _ _ _ L) Hch (ld_own _ _ _ L c Hc)) as (g1 & E & Hok1 & Ech & R & M); [done|].
  fold (offs cs). rewrite E. cbn [mbind option_bind].
  assert (laid g1 fr ((l ++ [c]) ++ cs)) as L1.
  { rewrite <- app_assoc. cbn [app]. destruct L as [L1 L2 L3 L4]. constructor; try done. intros d Hd. destruct (L4 d Hd) as (dh & Hdh & D1 & D2). rewrite Ech.
    destruct (decide (coff d = coff c)) as [Ed|Hne]; [|exists dh; by rewrite lookup_insert_ne]. rewrite Ed, lookup_insert_eq. rewrite Ed, Hch in Hdh. injection Hdh as <-.
    by exists (set_c_next nxt ch). }
  destruct (IH g1 (l ++ [c]) L1) as (g' & E' & L' & Hl & M' & Ho); [by rewrite <- app_assoc|]. rewrite <- app_assoc in L'. exists g'. split_and!; try done.
  - cbn [links]. split; [|done]. pose proof (ld_nodup _ _ _ L) as Hnd. rewrite fmap_app in Hnd. apply NoDup_app in Hnd as (_ & _ & [Hnc _]%NoDup_cons).
    exists (set_c_next nxt ch). rewrite Ho, Ech, lookup_insert_eq by done. by split_and!.
  - eapply moved_trans; [apply M|exact M']. apply Hown, list_elem_of_fmap. by exists c.
  - intros o [Hne Hno]%not_elem_of_cons. rewrite Ho, Ech by done. by rewrite lookup_insert_ne.
Qed.

(** ** The lookup trees *)

Lemma fuel_size (t : lookup_tree) m : holds t m -> (base.size m < RbTree.fuel t)%nat.
Proof.
  intros H. destruct (RbMap.holds_len Z.compare (fun _ => True) t m H) as [Hl _]. unfold RbTree.len, Pool.len, saturating_sub in Hl. unfold RbTree.fuel, vlen in *. lia.
Qed.

Lemma clear_tree_spec n (t : lookup_tree) m : holds t m -> (base.size m < n)%nat -> exists t', clear_tree n t = Some t' /\ holds t' ∅.
Proof.
  revert t m. induction n as [|n IH]; intros t m H Hn; [lia|]. cbn [clear_tree].
  destruct (RbMap.holds_first Z.compare (fun _ => True) t m H) as (e & -> & He). cbn [mbind option_bind]. destruct e as [[k o]|]; [|subst; by exists t].
  destruct He as [Hk _]. unfold lookup_remove. destruct (RbMap.holds_remove Z.compare (fun _ => True) t m k H I) as (t1 & -> & H1). cbn [mbind option_bind].
  apply (IH t1 _ H1). rewrite map_size_delete, Hk. assert (base.size m <> 0%nat) by (intros E; apply map_size_empty_inv in E; by rewrite E, lookup_empty in Hk). lia.
Qed.

(** What the chunks of a chain add to a tree. *)
Definition indexes cs (m : gmap Z Z) : Prop := forall k o, m !! k = Some o -> exists c, c ∈ cs /\ k = wr (clo c) /\ o = coff c.

Lemma index_step g fr cs s e c (t : lookup_tree) m :
  chain_ok g fr cs s e -> c ∈ cs -> holds t m -> Z.of_nat (base.size m) + 1 < 2 ^ 32 -> indexes cs m ->
  exists t' m', lookup_insert_ t (wr (clo c)) (wrap 32 (coff c)) = Some t' /\ holds t' m' /\ indexes cs m' /\ (base.size m' <= S (base.size m))%nat.
Proof.
  intros Hok Hc H Hn Hi. unfold lookup_insert_. destruct (RbMap.holds_insert Z.compare (fun _ => True) t m (wr (clo c)) (wrap 32 (coff c)) H I Hn) as (t' & -> & H').
  cbn [mbind option_bind]. pose proof (chain_bounds _ _ _ _ _ Hok c Hc) as Bc. rewrite (wrap_small 32 (coff c)) in * by (unfold in_word; lia).
  eexists _, _. split; [done|]. split; [exact H'|]. split.
  - intros k o [[<- <-]|[_ Hk]]%lookup_insert_Some; [by exists c|by apply Hi].
  - rewrite map_size_insert. case_match; cbn; lia.
Qed.

Lemma index_chunks_spec n g fr cs s e l0 l (enq deq : lookup_tree) me md :
  chain_ok g fr cs s e -> cs = l0 ++ l -> (length l < n)%nat -> holds enq me -> holds deq md -> indexes cs me -> indexes cs md ->
  (base.size me <= length l0)%nat -> (base.size md <= length l0)%nat -> Z.of_nat (length cs) < 2 ^ 32 ->
  exists enq' deq' me' md', index_chunks n g enq deq (first_off l 0) = Some (enq', deq') /\ holds enq' me' /\ holds deq' md' /\ indexes cs me' /\ indexes cs md'.
Proof.
  intros Hok. revert l0 l enq deq me md. induction n as [|n IH]; intros l0 l enq deq me md E Hn He Hd Hie Hid Hse Hsd Hlen; [lia|]. cbn [index_chunks].
  destruct l as [|c l]; cbn [first_off]; [rewrite Z.eqb_refl; by exists enq, deq, me, md|].
  assert (c ∈ cs) as Hc by (rewrite E; apply elem_of_app; right; left). rewrite (chain_nonzero _ _ _ _ _ Hok c Hc).
  destruct (chain_at _ _ _ _ _ Hok l0 c l E) as (ch & -> & Hs1 & _ & Hn1). cbn [mbind option_bind]. rewrite Hs1, Hn1.
  assert (length cs = length l0 + S (length l))%nat as Elen by (rewrite E, length_app; done).
  destruct (index_step g fr cs s e c enq me Hok Hc He ltac:(lia) Hie) as (enq1 & me1 & -> & He1 & Hie1 & Hse1). cbn [mbind option_bind].
  destruct (index_step g fr cs s e c deq md Hok Hc Hd ltac:(lia) Hid) as (deq1 & md1 & -> & Hd1 & Hid1 & Hsd1). cbn [mbind option_bind].
  apply (IH (l0 ++ [c]) l enq1 deq1 me1 md1); try done; [by rewrite <- app_assoc|cbn in Hn; lia|rewrite length_app; cbn; lia..].
Qed.

(** A chain of less than 2^31 bytes has few chunks. *)
Lemma contig_length g fr cs s e : chain_ok g fr cs s e -> Z.of_nat (length cs) * 2 ^ 12 <= e - s.
Proof.
  intros Hok. assert (forall c, c ∈ cs -> 2 ^ 12 <= clen c) as Hb by (intros c Hc; pose proof (chain_bounds _ _ _ _ _ Hok c Hc); lia).
  pose proof (ch_contig _ _ _ _ _ Hok) as Hct. clear Hok. revert s Hct. induction cs as [|c cs IH]; intros s Hct; cbn in *; [subst; lia|].
  destruct Hct as (<- & Hc & Hct). specialize (IH (fun d Hd => Hb d (list_elem_of_further _ _ _ Hd)) _ Hct). specialize (Hb c (list_elem_of_here _ _)). unfold chi in *. lia.
Qed.

(** Both trees name exactly chunks of the chain. *)
Lemma initialize_spec g fr cs s e f hd :
  chain_ok g fr cs s e -> hdr_at g (hdr_off f) = Some hd -> h_start_chunk hd = first_off cs 0 ->
  (exists m, holds (ooo_enq_lookup f) m) -> (exists m, holds (ooo_deq_lookup f) m) ->
  exists enq deq me md, initialize_chunk_lookups g f = Some (set_deq_lookup deq (set_enq_lookup enq f)) /\ holds enq me /\ holds deq md /\ indexes cs me /\ indexes cs md.
Proof.
  intros Hok Hh Hst (m1 & H1) (m2 & H2). unfold initialize_chunk_lookups.
  destruct (clear_tree_spec _ _ m1 H1 (fuel_size _ _ H1)) as (enq & -> & He). destruct (clear_tree_spec _ _ m2 H2 (fuel_size _ _ H2)) as (deq & -> & Hd).
  cbn [mbind option_bind]. rewrite Hh. cbn [mbind option_bind]. rewrite Hst. pose proof (contig_length _ _ _ _ _ Hok). pose proof (ch_span _ _ _ _ _ Hok).
  destruct (index_chunks_spec (chunk_fuel g) g fr cs s e [] cs enq deq ∅ ∅ Hok) as (enq' & deq' & me & md & -> & H3 & H4 & H5 & H6); try done.
  - apply (chain_fuel _ _ _ _ _ Hok).
  - lia.
  - cbn [mbind option_bind]. by exists enq', deq', me, md.
Qed.

(** ** A new FIFO *)

(** The view of a FIFO that was just made over the chain [c :: cs]. *)
Definition fresh_view (capacity : Z) c cs (e : Z) : view := mk_view 0 0 capacity [] c cs [] 0 e true.

Lemma indexes_enq capacity c cs e m : clo c = 0 -> indexes (c :: cs) m -> enq_ok (fresh_view capacity c cs e) m.
Proof. intros Hc Hi k o Hk. destruct (Hi k o Hk) as (d & Hd & -> & ->). exists d. split_and!; try done. intros _. right. cbn. lia. Qed.

(** A FIFO whose chain, header and lookup trees are those of a new one. *)
Lemma fifo_ok_fresh g fr f hd capacity c cs e me md B :
  chain_ok g fr (c :: cs) 0 e -> 0 < capacity <= 2 ^ 31 - 2 ^ 24 -> hdr_at g (hdr_off f) = Some hd ->
  h_start_chunk hd = coff c -> h_head_chunk hd = coff c -> h_tail_chunk hd = coff c -> h_end_chunk hd = last_off (c :: cs) ->
  h_head hd = 0 -> h_tail hd = 0 -> h_size hd = capacity -> 0 <= h_slice_index hd < vlen (slices g) ->
  holds (ooo_enq_lookup f) me -> holds (ooo_deq_lookup f) md -> indexes (c :: cs) me -> ooo_ok 0 (ooo_list f) [] ->
  fifo_ok g fr f (fresh_view capacity c cs e) B.
Proof.
  intros Hok Hcap Hh S1 S2 S3 S4 S5 S6 S7 S8 He Hd Hi Ho. pose proof (ch_contig _ _ _ _ _ Hok) as (Ec & Hc & _). constructor.
  - exists hd. split; [|done]. constructor; try done.
    + constructor; cbn [vh vt vsize vs vtail vooo vfirst vpre fresh_view]; [unfold chi; lia|lia|unfold chi; lia|lia|]. intros n Hn. by apply not_elem_of_nil in Hn.
    + exists me. split; [done|]. intros _. by apply indexes_enq.
    + by exists md.
  - intros d y _ _ [Hy|(q & Hq & _)]; [cbn in Hy; lia|]. by apply not_elem_of_nil in Hq.
Qed.


(** ** FIFO headers *)

(** The free FIFO headers of each slice. *)
Definition hfrees : Type := Z -> list Z.
Implicit Types (hf : hfrees).

Fixpoint hdr_chain (m : gmap Z SvmFifoShared) (head : Z) (l : list Z) : Prop :=
  match l with
  | [] => head = 0
  | o :: l' => head = o /\ exists x, m !! o = Some x /\ hdr_chain m (h_next x) l'
  end.

Lemma hdr_chain_ext m m' head l : (forall o, o ∈ l -> m' !! o = m !! o) -> hdr_chain m head l -> hdr_chain m' head l.
Proof.
  revert head. induction l as [|o l IH]; intros head H; cbn; [done|]. intros (-> & x & Hx & Hc). split; [done|]. exists x. rewrite H by left. split; [done|].
  apply IH; [|done]. intros o' Ho'. apply H. by right.
Qed.

(** Headers and chunks have regions of their own. *)
Record hdrs_ok g hf : Prop := {
  hd_at o x : headers g !! o = Some x -> 0 < o /\ o + FIFO_HEADER_SIZE <= byte_index g;
  hd_apart o x o' x' : headers g !! o = Some x -> headers g !! o' = Some x' -> o < o' -> o + FIFO_HEADER_SIZE <= o';
  hd_chunk o x o' (ch : SvmFifoChunk) : headers g !! o = Some x -> chunks g !! o' = Some ch ->
    o + FIFO_HEADER_SIZE <= o' \/ o' + CHUNK_HEADER_SIZE + c_length ch <= o;
  hd_free s sl : vget (slices g) s = Some sl -> hdr_chain (headers g) (free_fifos sl) (hf s);
  hd_nodup s : NoDup (hf s);
  hd_once o s s' : o ∈ hf s -> o ∈ hf s' -> s = s';
  hd_known o s : o ∈ hf s -> is_Some (headers g !! o);
  hd_range o s : o ∈ hf s -> 0 <= s < vlen (slices g)
}.

Lemma vget_fmap_eq {A C : Type} (p : A -> C) (l l' : list A) i x : p <$> l' = p <$> l -> vget l' i = Some x -> exists y, vget l i = Some y /\ p y = p x.
Proof.
  intros E. unfold vget. destruct (i <? 0); [done|]. intros Hx. assert ((p <$> l') !! Z.to_nat i = (p <$> l) !! Z.to_nat i) as E2 by (by rewrite E).
  rewrite !list_lookup_fmap, Hx in E2. destruct (l !! Z.to_nat i) as [y|]; [|done]. exists y. split; [done|]. cbn in E2. congruence.
Qed.

(** Operations of a FIFO whose header is at [off]. *)
Lemma hdrs_ok_frame g fr hf g' fr' off own own' :
  hdrs_ok g hf -> frame off own own' g fr g' fr' -> is_Some (headers g !! off) -> (forall s, off ∉ hf s) -> is_Some (headers g' !! off) -> hdrs_ok g' hf.
Proof.
  intros [H1 H2 H3 H4 H5 H6 H7 H8] [[A1 A2 A3 A4 A5 [Ai Ac] A6 A7] Em] [x0 Hx0] Hoff [x1 Hx1]. injection Em as _ Es.
  assert (forall o x, headers g' !! o = Some x -> exists y, headers g !! o = Some y) as Hk.
  { intros o x Hx. destruct (decide (o = off)) as [->|Hne]; [by exists x0|]. rewrite A1 in Hx by done. by exists x. }
  constructor; try done.
  - intros o x Hx. destruct (Hk o x Hx) as [y Hy]. pose proof (H1 o y Hy). lia.
  - intros o x o' x' Hx Hx'. destruct (Hk o x Hx) as [y Hy]. destruct (Hk o' x' Hx') as [y' Hy']. by eapply H2.
  - intros o x o' ch Hx Hch. destruct (Hk o x Hx) as [y Hy]. destruct (Ac o' ch Hch) as [(c & Hc & <-)|Hge]; [by eapply H3|]. pose proof (H1 o y Hy). lia.
  - intros s sl Hsl. destruct (vget_fmap_eq slice_rest _ _ s sl Es Hsl) as (sl0 & Hsl0 & E). injection E as <- _ _.
    eapply hdr_chain_ext; [|by apply H4]. intros o Ho. apply A1. intros ->. by eapply Hoff.
  - intros o s Ho. rewrite A1; [by eapply H7|]. intros ->. by eapply Hoff.
  - intros o s Ho. rewrite A3. by eapply H8.
Qed.

(** Steps that touch headers and counters only. *)
Record hdr_step (off : Z) g g' : Prop := {
  hs_headers o : o <> off -> headers g' !! o = headers g !! o;
  hs_chunks : chunks g' = chunks g;
  hs_bytes : bytes g' = bytes g;
  hs_index : byte_index g <= byte_index g';
  hs_max : max_byte_index g' = max_byte_index g;
  hs_bound : byte_index g' <= Z.max (byte_index g) (max_byte_index g);
  hs_lists : free_chunks <$> slices g' = free_chunks <$> slices g;
  hs_log2 : max_log2_fifo_size g' = max_log2_fifo_size g;
  hs_pct : pct_first_alloc g' = pct_first_alloc g
}.
#[export] Instance hdr_step_preorder off : PreOrder (hdr_step off).
Proof.
  split; [intros g; constructor; done || lia|]. intros g1 g2 g3 [A1 A2 A3 A4 A5 A6 A7 A8 A9] [B1 B2 B3 B4 B5 B6 B7 B8 B9]. constructor; try congruence; try lia.
  intros o Ho. by rewrite B1, A1.
Qed.

Lemma seg_ok_hdr off g g' fr : hdr_step off g g' -> seg_ok g fr -> seg_ok g' fr.
Proof.
  intros [A1 A2 A3 A4 A5 A6 A7 A8 A9] [S1 S2 S3 S4 S5 S6 S7 S8 S9]. constructor; rewrite ?A2, ?A5; try done; try lia.
  - intros o c Hc. destruct (S1 o c Hc) as (H1 & H2 & H3). split_and!; [done|lia|done].
  - intros s sl k Hs Hk. destruct (vget_fmap_eq free_chunks _ _ s sl A7 Hs) as (sl0 & Hsl0 & <-). by apply S5.
  - intros o s k Ho. specialize (S9 o s k Ho). apply (f_equal length) in A7. rewrite !length_fmap in A7. unfold vlen in *. lia.
Qed.

Lemma apart_hdr off g g' fr own : hdr_step off g g' -> apart off own own g fr g' fr.
Proof.
  intros [A1 A2 A3 A4 A5 A6 A7 A8 A9]. constructor; rewrite ?A2, ?A3; try done.
  - apply (f_equal length) in A7. rewrite !length_fmap in A7. unfold vlen. lia.
  - apply grows_kept; [done|]. rewrite A2. intros o c Hc. by exists c.
  - intros o [c Hc] [?|[?|?]]; [by left|by right|congruence].
Qed.

Lemma set_slice_spec g slice sl u off :
  vget (slices g) slice = Some sl -> free_chunks (u sl) = free_chunks sl ->
  exists g', set_slice g slice u = Some g' /\ hdr_step off g g' /\ headers g' = headers g /\ byte_index g' = byte_index g /\ n_active_fifos g' = n_active_fifos g /\
    vget (slices g') slice = Some (u sl) /\ (forall s, s <> slice -> vget (slices g') s = vget (slices g) s).
Proof.
  intros Hs Hu. unfold set_slice, vupd. rewrite Hs. cbn [mbind option_bind]. destruct (vset_total (slices g) slice (u sl)) as [ss Hss]; [by eapply vget_Some_bounds|].
  rewrite Hss. cbn [mbind option_bind]. eexists. split; [done|]. split; [constructor; cbn; try done; try lia; by eapply vset_fmap|]. split_and!; try done; cbn.
  - by rewrite (vget_vset _ _ _ slice _ Hss), decide_True.
  - intros s Hne. by rewrite (vget_vset _ _ _ s _ Hss), decide_False.
Qed.

Lemma hdr_upd_step g off x u : hdr_at g off = Some x ->
  exists g', hdr_upd g off u = Some g' /\ hdr_step off g g' /\ headers g' = <[off := u x]> (headers g) /\ slices g' = slices g /\ byte_index g' = byte_index g /\
    n_active_fifos g' = n_active_fifos g.
Proof.
  intros Hx. unfold hdr_upd. rewrite Hx. cbn [mbind option_bind]. eexists. split; [done|]. split; [|done]. constructor; cbn; try done; try lia.
  intros o Ho. by rewrite lookup_insert_ne.
Qed.


(** ** The segment *)

Implicit Types (s : SvmFifoSegment).

Record seg_inv s fr hf : Prop := {
  si_seg : seg_ok (seg s) fr;
  si_hdrs : hdrs_ok (seg s) hf;
  si_max : max_byte_index_ s = max_byte_index (seg s);
  si_slices : n_slices s = vlen (slices (seg s)) /\ n_slices s <= 255;
  si_counts i sl : vget (slices (seg s)) i = Some sl -> vlen (num_chunks sl) = 11;
  si_pct : 1 <= pct_first_alloc (seg s) <= 100;
  si_map : 0 <= ssvm_offset s /\ ssvm_offset s + max_byte_index (seg s) <= ssvm_size s /\ ssvm_size s < 2 ^ 63
}.

(** What the private part of the segment keeps. *)
Record same_handle s s' : Prop := {
  sh_offset : ssvm_offset s' = ssvm_offset s;
  sh_size : ssvm_size s' = ssvm_size s;
  sh_private : slices_ s' = slices_ s;
  sh_max : max_byte_index_ s' = max_byte_index_ s;
  sh_slices : n_slices s' = n_slices s;
  sh_addr : h s' = h s
}.
#[export] Instance same_handle_preorder : PreOrder same_handle.
Proof. split; [done|]. intros ??? [] []. constructor; congruence. Qed.

Lemma shared_slice_spec s fr hf slice : seg_inv s fr hf -> 0 <= slice < n_slices s -> exists sl, shared_slice s slice = inl sl /\ vget (slices (seg s)) slice = Some sl.
Proof.
  intros H Hs. destruct (si_slices _ _ _ H) as [En _]. unfold shared_slice. rewrite (proj2 (Z.leb_gt (n_slices s) slice)) by lia. rewrite En in Hs.
  destruct (vget_in_range _ _ Hs) as [sl Hsl]. exists sl. by rewrite Hsl.
Qed.

Lemma header_valid s fr hf o x : seg_inv s fr hf -> headers (seg s) !! o = Some x -> fs_offset_is_valid o (max_byte_index_ s) = true.
Proof.
  intros H Hx. destruct (hd_at _ _ (si_hdrs _ _ _ H) o x Hx) as [H1 H2]. pose proof (sk_index _ _ (si_seg _ _ _ H)). pose proof (sk_max _ _ (si_seg _ _ _ H)).
  rewrite (si_max _ _ _ H). unfold fs_offset_is_valid, FS_CHUNK_OFFSET_MASK, FIFO_HEADER_SIZE in *.
  rewrite (proj2 (Z.eqb_neq o 0)), (proj2 (Z.leb_le o _)), (proj2 (Z.ltb_lt o _)) by lia. done.
Qed.

(** The rest of the invariant across a step of the headers. *)
Lemma seg_inv_hdr s fr hf g' off :
  seg_inv s fr hf -> hdr_step off (seg s) g' -> num_chunks <$> slices g' = num_chunks <$> slices (seg s) -> forall hf', hdrs_ok g' hf' -> seg_inv (set_seg g' s) fr hf'.
Proof.
  intros [I1 I2 I3 I4 I5 I6 I7] D En hf' Hh. pose proof D as [A1 A2 A3 A4 A5 A6 A7 A8 A9]. constructor; cbn; try done.
  - by eapply seg_ok_hdr.
  - congruence.
  - apply (f_equal length) in A7. rewrite !length_fmap in A7. unfold vlen in *. lia.
  - intros i sl Hsl. destruct (vget_fmap_eq num_chunks _ _ i sl En Hsl) as (sl0 & H0 & <-). by eapply I5.
  - by rewrite A9.
  - by rewrite A5.
Qed.

Lemma set_slice_counts g slice sl u g' : vget (slices g) slice = Some sl -> num_chunks (u sl) = num_chunks sl -> set_slice g slice u = Some g' -> num_chunks <$> slices g' = num_chunks <$> slices g.
Proof.
  intros Hs Hu. unfold set_slice, vupd. rewrite Hs. cbn [mbind option_bind]. destruct (vset (slices g) slice (u sl)) as [ss|] eqn:E; [|done]. cbn. intros [= <-]. cbn. by eapply vset_fmap.
Qed.

Definition upd_hfree hf (i : Z) (l : list Z) : hfrees := fun j => if decide (j = i) then l else hf j.

(** A change of one list of free headers. *)
Lemma hdrs_ok_relist g g' hf slice l sl' :
  hdrs_ok g hf -> chunks g' = chunks g -> byte_index g' = byte_index g -> (forall y, is_Some (headers g' !! y) -> is_Some (headers g !! y)) ->
  (forall y, is_Some (headers g !! y) -> is_Some (headers g' !! y)) -> (forall i y, i <> slice -> y ∈ hf i -> headers g' !! y = headers g !! y) ->
  (forall i, i <> slice -> vget (slices g') i = vget (slices g) i) -> vget (slices g') slice = Some sl' -> hdr_chain (headers g') (free_fifos sl') l ->
  NoDup l -> (forall y, y ∈ l -> is_Some (headers g !! y) /\ forall i, y ∈ hf i -> i = slice) -> vlen (slices g') = vlen (slices g) -> hdrs_ok g' (upd_hfree hf slice l).
Proof.
  intros [H1 H2 H3 H4 H5 H6 H7 H8] Ec Eb Hk Hk' Hsame Hs Hsl Hch Hnd Hin Hlen. constructor; rewrite ?Ec, ?Eb.
  - intros y z Hz. destruct (Hk y ltac:(by eexists)) as [z' Hz']. by eapply H1.
  - intros y z y' z' Hz Hz'. destruct (Hk y ltac:(by eexists)) as [w Hw]. destruct (Hk y' ltac:(by eexists)) as [w' Hw']. by eapply H2.
  - intros y z y' ch Hz Hc. destruct (Hk y ltac:(by eexists)) as [w Hw]. by eapply H3.
  - intros i sl Hi. unfold upd_hfree. case_decide as E; [subst; congruence|]. rewrite Hs in Hi by done. eapply hdr_chain_ext; [|by apply H4]. intros y Hy. by eapply Hsame.
  - intros i. unfold upd_hfree. case_decide; [done|apply H5].
  - intros y i j. unfold upd_hfree. case_decide as Ei; case_decide as Ej; subst; intros Hy Hy'; try done; [symmetry; by apply (proj2 (Hin y Hy))|by apply (proj2 (Hin y Hy'))|by eapply H6].
  - intros y i Hy. apply Hk'. unfold upd_hfree in Hy. case_decide; [apply (proj1 (Hin y Hy))|by eapply H7].
  - intros y i Hy. unfold upd_hfree in Hy. case_decide as Ei; [subst; by eapply vget_Some_bounds|]. rewrite Hlen. by eapply H8.
Qed.

Lemma hdr_step_slices off g g' : hdr_step off g g' -> vlen (slices g') = vlen (slices g).
Proof. intros D. pose proof (hs_lists _ _ _ D) as E. apply (f_equal length) in E. rewrite !length_fmap in E. unfold vlen. lia. Qed.

(** Taking a header off the free list of a slice. *)
Lemma pop_fifo_header_spec s fr hf slice :
  seg_inv s fr hf -> 0 <= slice < n_slices s ->
  match hf slice with
  | [] => pop_fifo_header s slice = Some (s, inl None)
  | o :: l => exists g' x, pop_fifo_header s slice = Some (set_seg g' s, inl (Some o)) /\ seg_inv (set_seg g' s) fr (upd_hfree hf slice l) /\
      hdr_step o (seg s) g' /\ headers g' !! o = Some x /\ n_active_fifos g' = n_active_fifos (seg s)
  end.
Proof.
  intros H Hs. unfold pop_fifo_header. destruct (shared_slice_spec s fr hf slice H Hs) as (sl & -> & Hsl). pose proof (hd_free _ _ (si_hdrs _ _ _ H) slice sl Hsl) as Hc.
  pose proof (hd_nodup _ _ (si_hdrs _ _ _ H) slice) as Hnd. destruct (hf slice) as [|o l] eqn:El; cbn [hdr_chain] in Hc; [by rewrite Hc|].
  destruct Hc as (-> & x & Hx & Hc). destruct (hd_at _ _ (si_hdrs _ _ _ H) o x Hx) as [Ho _]. rewrite (proj2 (Z.eqb_neq o 0)) by lia.
  rewrite (header_valid s fr hf o x H Hx). cbn [negb]. unfold hdr_at at 1. rewrite Hx. cbn [mbind option_bind]. apply NoDup_cons in Hnd as [Hno Hnd].
  destruct (set_slice_spec (seg s) slice sl (set_free_fifos (h_next x)) o Hsl eq_refl) as (g1 & E1 & D1 & Eh1 & Eb1 & Ea1 & Hs1 & Hs2). rewrite E1. cbn [mbind option_bind].
  assert (hdr_at g1 o = Some x) as Hx1 by (unfold hdr_at; by rewrite Eh1).
  destruct (hdr_upd_step g1 o x (set_h_next 0) Hx1) as (g2 & -> & D2 & Eh2 & Es2 & Eb2 & Ea2). cbn [mbind option_bind].
  exists g2, (set_h_next 0 x). split; [done|]. assert (hdr_step o (seg s) g2) as D by (by etransitivity). split; [|rewrite Eh2, lookup_insert_eq; split_and!; [done|done|congruence]].
  eapply seg_inv_hdr; [done|done|rewrite Es2; by eapply (set_slice_counts _ _ sl (set_free_fifos (h_next x)))|].
  assert (forall y, y ∈ l -> y <> o) as Hne by (intros y Hy ->; done).
  apply (hdrs_ok_relist (seg s) g2 hf slice l (set_free_fifos (h_next x) sl) (si_hdrs _ _ _ H)); rewrite ?Es2, ?Eh2, ?Eh1; try done; try congruence.
  - apply (hs_chunks _ _ _ D).
  - intros y [->|Hy]%lookup_insert_is_Some; [by eexists|apply Hy].
  - intros y Hy. apply lookup_insert_is_Some'. by right.
  - intros i y Hi Hy. apply lookup_insert_ne. intros ->. apply Hi. apply (hd_once _ _ (si_hdrs _ _ _ H) y); [done|rewrite El; left].
  - cbn. eapply hdr_chain_ext; [|exact Hc]. intros y Hy. apply lookup_insert_ne. intros ->. by apply Hne in Hy.
  - intros y Hy. assert (y ∈ hf slice) as Hy' by (rewrite El; by right). split; [by eapply (hd_known _ _ (si_hdrs _ _ _ H))|]. intros i Hi. by eapply (hd_once _ _ (si_hdrs _ _ _ H)).
  - by eapply hdr_step_slices.
Qed.

(** Putting a header on the free list of a slice. *)
Lemma push_fifo_header_spec s fr hf slice o x :
  seg_inv s fr hf -> 0 <= slice < n_slices s -> headers (seg s) !! o = Some x -> (forall i, o ∉ hf i) ->
  exists g', push_fifo_header s slice o = Some (set_seg g' s, inl tt) /\ seg_inv (set_seg g' s) fr (upd_hfree hf slice (o :: hf slice)) /\
    hdr_step o (seg s) g' /\ n_active_fifos g' = n_active_fifos (seg s).
Proof.
  intros H Hs Hx Hfree. unfold push_fifo_header. rewrite (header_valid s fr hf o x H Hx). cbn [negb]. destruct (shared_slice_spec s fr hf slice H Hs) as (sl & -> & Hsl).
  destruct (hdr_upd_step (seg s) o x (set_h_next (free_fifos sl)) Hx) as (g1 & -> & D1 & Eh1 & Es1 & Eb1 & Ea1). cbn [mbind option_bind].
  assert (vget (slices g1) slice = Some sl) as Hsl1 by (by rewrite Es1).
  destruct (set_slice_spec g1 slice sl (set_free_fifos o) o Hsl1 eq_refl) as (g2 & E2 & D2 & Eh2 & Eb2 & Ea2 & Hs1 & Hs2). rewrite E2. cbn [mbind option_bind].
  exists g2. split; [done|]. assert (hdr_step o (seg s) g2) as D by (by etransitivity). split; [|split; [done|congruence]].
  eapply seg_inv_hdr; [done|done|rewrite <- Es1; by eapply (set_slice_counts g1 _ sl (set_free_fifos o))|].
  apply (hdrs_ok_relist (seg s) g2 hf slice (o :: hf slice) (set_free_fifos o sl) (si_hdrs _ _ _ H)); rewrite ?Eh2, ?Eh1; try done; try congruence.
  - apply (hs_chunks _ _ _ D).
  - intros y [->|Hy]%lookup_insert_is_Some; [by eexists|apply Hy].
  - intros y Hy. apply lookup_insert_is_Some'. by right.
  - intros i y Hi Hy. apply lookup_insert_ne. intros ->. by eapply Hfree.
  - intros i Hi. by rewrite Hs2, Es1.
  - cbn. split; [done|]. eexists. rewrite lookup_insert_eq. split; [done|]. cbn. eapply hdr_chain_ext; [|by apply (hd_free _ _ (si_hdrs _ _ _ H))].
    intros y Hy. apply lookup_insert_ne. intros ->. by eapply Hfree.
  - apply NoDup_cons. split; [done|apply (hd_nodup _ _ (si_hdrs _ _ _ H))].
  - intros y [->|Hy]%elem_of_cons; [split; [by eexists|]; intros i Hi; by destruct (Hfree i)|].
    split; [by eapply (hd_known _ _ (si_hdrs _ _ _ H))|]. intros i Hi. by eapply (hd_once _ _ (si_hdrs _ _ _ H)).
  - by eapply hdr_step_slices.
Qed.


(** ** Allocating a header *)

Lemma allocate_block_spec s fr hf bytes :
  seg_inv s fr hf -> 0 < bytes < 2 ^ 40 ->
  exists s' r, allocate_block s bytes FIFO_SEGMENT_ALIGN = Some (s', r) /\
    match r with
    | inl o => s' = set_seg (set_byte_index (o + bytes) (seg s)) s /\ byte_index (seg s) <= o /\ o + bytes < max_byte_index (seg s)
    | inr e => e = FifoFailed SegmentExhausted /\ s' = set_memory_limit true s
    end.
Proof.
  intros H Hb. unfold allocate_block. change ((FIFO_SEGMENT_ALIGN =? 0) || _) with false. cbv beta iota. pose proof (sk_index _ _ (si_seg _ _ _ H)) as Hi.
  pose proof (sk_max _ _ (si_seg _ _ _ H)) as Hm. unfold checked_add at 1. rewrite (proj2 (Z.ltb_lt _ _)) by (unfold FIFO_SEGMENT_ALIGN; lia).
  pose proof (align_up (byte_index (seg s)) FIFO_SEGMENT_ALIGN 6 ltac:(lia) eq_refl ltac:(lia)) as Ha. set (o := Z.ldiff _ _) in *. unfold FIFO_SEGMENT_ALIGN in Ha.
  unfold checked_add. rewrite (proj2 (Z.ltb_lt _ _)) by lia. rewrite (si_max _ _ _ H). unfold FS_CHUNK_OFFSET_MASK.
  destruct (Z.leb_spec (max_byte_index (seg s)) (o + bytes)); cbn [orb]; [by eexists _, _|]. rewrite (proj2 (Z.ltb_ge _ (o + bytes))) by lia.
  eexists _, (inl o). split; [done|]. split_and!; [done|lia..].
Qed.

(** A header that no FIFO uses: from the free list, or carved out. *)
Lemma allocate_fifo_header_spec s fr hf slice :
  seg_inv s fr hf -> 0 <= slice < n_slices s ->
  exists s' r, allocate_fifo_header s slice = Some (s', r) /\ same_handle s s' /\
    match r with
    | inl o => exists hf' x, seg_inv s' fr hf' /\ hdr_step o (seg s) (seg s') /\ headers (seg s') !! o = Some x /\ n_active_fifos (seg s') = n_active_fifos (seg s) /\
        (forall i y, y ∈ hf' i <-> y ∈ hf i /\ y <> o) /\ (headers (seg s) !! o = None \/ exists i, o ∈ hf i)
    | inr e => e = FifoFailed SegmentExhausted /\ s' = set_memory_limit true s
    end.
Proof.
  intros H Hs. unfold allocate_fifo_header. pose proof (pop_fifo_header_spec s fr hf slice H Hs) as P. pose proof (hd_nodup _ _ (si_hdrs _ _ _ H) slice) as Hnd.
  pose proof (hd_once _ _ (si_hdrs _ _ _ H)) as Honce. destruct (hf slice) as [|o l] eqn:El.
  2:{ destruct P as (g' & x & -> & H' & D & Hx & Ea). cbn [and_then mbind option_bind]. eexists _, (inl o). split; [done|]. split; [done|]. exists (upd_hfree hf slice l), x. split_and!; try done.
    - apply NoDup_cons in Hnd as [Hno _]. intros i y. unfold upd_hfree. case_decide as E; [subst; rewrite El, elem_of_cons; split; [intros Hy; split; [by right|by intros ->]|tauto]|].
      split; [|tauto]. intros Hy. split; [done|]. intros ->. apply E. apply (Honce o); [done|rewrite El; left].
    - right. exists slice. rewrite El. left. }
  rewrite P. cbn [and_then mbind option_bind]. destruct (allocate_block_spec s fr hf FIFO_HEADER_SIZE H ltac:(unfold FIFO_HEADER_SIZE; lia)) as (s1 & r & -> & Hr).
  cbn [and_then mbind option_bind]. destruct r as [o|e]; [|eexists _, (inr e); split; [done|]; destruct Hr as [-> ->]; by split_and!].
  destruct Hr as (-> & Ho & He). cbn [seg set_seg]. eexists _, (inl o). split; [done|]. split; [done|].
  assert (headers (seg s) !! o = None) as Hnone.
  { destruct (headers (seg s) !! o) as [x|] eqn:Ex; [|done]. pose proof (hd_at _ _ (si_hdrs _ _ _ H) o x Ex). unfold FIFO_HEADER_SIZE in *. lia. }
  assert (forall i y, y ∈ hf i -> y <> o) as Hne by (intros i y Hy ->; destruct (hd_known _ _ (si_hdrs _ _ _ H) o i Hy) as [x Hx]; congruence).
  set (g' := set_headers _ _). assert (hdr_step o (seg s) g') as D.
  { constructor; cbn; try done; [|unfold FIFO_HEADER_SIZE in *; lia..]. intros y Hy. by rewrite lookup_insert_ne. }
  exists hf, header_zero. split_and!; try done; [|apply lookup_insert_eq|intros i y; split; [intros Hy; split; [done|by eapply Hne]|tauto]|by left].
  change (seg_inv (set_seg g' s) fr hf). eapply seg_inv_hdr; [done|done|done|]. pose proof (sk_index _ _ (si_seg _ _ _ H)) as Hi. unfold FIFO_HEADER_SIZE in *.
  destruct (si_hdrs _ _ _ H) as [H1 H2 H3 H4 H5 H6 H7 H8]. constructor; cbn; unfold FIFO_HEADER_SIZE in *; try done.
  - intros y z [[<- <-]|[_ Hz]]%lookup_insert_Some; [lia|]. specialize (H1 y z Hz). lia.
  - intros y z y' z' [[<- <-]|[_ Hz]]%lookup_insert_Some [[<- <-]|[_ Hz']]%lookup_insert_Some Hlt; [lia|specialize (H1 y' z' Hz'); lia|specialize (H1 y z Hz); lia|by eapply H2].
  - intros y z y' ch [[<- <-]|[_ Hz]]%lookup_insert_Some Hch; [right|by eapply H3]. pose proof (sk_chunk _ _ (si_seg _ _ _ H) y' ch Hch). lia.
  - intros i sl Hsl. eapply hdr_chain_ext; [|by apply H4]. intros y Hy. apply lookup_insert_ne. intros ->. by eapply Hne.
  - intros y i Hy. apply lookup_insert_is_Some'. right. by eapply H7.
Qed.


(** ** Returning chunks *)

Lemma hdrs_ok_rest g g' hf : hdrs_ok g hf -> headers g' = headers g -> free_fifos <$> slices g' = free_fifos <$> slices g -> grows g g' -> hdrs_ok g' hf.
Proof.
  intros [H1 H2 H3 H4 H5 H6 H7 H8] Eh Ef [Gi Gc]. constructor; rewrite ?Eh; try done.
  - intros o x Hx. specialize (H1 o x Hx). lia.
  - intros o x o' ch Hx Hch. destruct (Gc o' ch Hch) as [(c & Hc & <-)|Hge]; [by eapply H3|]. specialize (H1 o x Hx). lia.
  - intros i sl Hsl. destruct (vget_fmap_eq free_fifos _ _ i sl Ef Hsl) as (sl0 & H0 & <-). by apply H4.
  - intros o i Ho. apply (f_equal length) in Ef. rewrite !length_fmap in Ef. specialize (H8 o i Ho). unfold vlen in *. lia.
Qed.

Lemma fmap_rest {A C D : Type} (p : A -> C) (q : C -> D) (l l' : list A) : p <$> l' = p <$> l -> (fun x => q (p x)) <$> l' = (fun x => q (p x)) <$> l.
Proof. intros E. rewrite !(list_fmap_compose p q). by rewrite E. Qed.

Record pushed g fr g' fr' (o : Z) : Prop := {
  ph_headers : headers g' = headers g;
  ph_active : n_active_fifos g' = n_active_fifos g;
  ph_chunk : exists nxt, chunks g' = alter (set_c_next nxt) o (chunks g);
  ph_free x : is_free fr' x <-> is_free fr x \/ x = o;
  ph_apart off own : apart off (o :: own) own g fr g' fr'
}.

Lemma push_chunk_spec s fr hf slice o (ch : SvmFifoChunk) :
  seg_inv s fr hf -> 0 <= slice < n_slices s -> chunks (seg s) !! o = Some ch -> ~ is_free fr o ->
  exists g' fr', push_chunk s slice (fs_chunk_class (c_length ch)) o = Some (set_seg g' s, inl tt) /\ pushed (seg s) fr g' fr' o /\ seg_inv (set_seg g' s) fr' hf.
Proof.
  intros H Hs Hch Hf. destruct (shared_slice_spec s fr hf slice H Hs) as (sl & Esl & Hsl). pose proof (vget_Some_bounds _ _ _ Hsl) as Hb.
  destruct (release_chunk_spec (seg s) fr slice o ch (si_seg _ _ _ H) Hb Hch Hf) as (g1 & fr1 & E & R). pose proof (offset_valid _ _ _ _ (si_seg _ _ _ H) Hch) as Hv.
  pose proof (class_range (c_length ch)) as Hk. unfold push_chunk, push_chunk_list. rewrite (si_max _ _ _ H), Hv. cbn [negb]. unfold chunk_at. rewrite Hch. cbn [mbind option_bind negb orb].
  unfold FS_CHUNK_VEC_LEN, FS_MAX_LOG2_CHUNK_SIZE, FS_MIN_LOG2_CHUNK_SIZE. rewrite (proj2 (Z.leb_gt _ _)) by lia. rewrite Esl.
  unfold release_chunk in E. rewrite Hsl in E. unfold chunk_at at 1 in E. rewrite Hch in E. cbn [mbind option_bind] in E. rewrite Hv in E. cbn [negb] in E.
  destruct (vget (free_chunks sl) _) as [hd|]; [|done]. cbn [mbind option_bind] in E |- *. destruct (chunk_upd _ _ _) as [g0|]; [|done]. cbn [mbind option_bind] in E |- *.
  destruct (fs_head_with_next hd o) as [nh|]; [|done]. cbn [mbind option_bind] in E |- *. rewrite E. cbn [mbind option_bind].
  pose proof (si_counts _ _ _ H slice sl Hsl) as Hn. destruct (vget_in_range (num_chunks sl) (fs_chunk_class (c_length ch)) ltac:(lia)) as [n Hnn]. rewrite Hnn. cbn [mbind option_bind].
  destruct (vset_total (num_chunks sl) (fs_chunk_class (c_length ch)) (wrap 32 (n + 1)) ltac:(by eapply vget_Some_bounds)) as [counts Hcs]. rewrite Hcs. cbn [mbind option_bind].
  pose proof (rl_rest _ _ _ _ _ _ R) as [R1 R2 R3 R4 Rm R5 R6]. injection Rm as Ra Rm. destruct (vget_in_range (slices g1) slice ltac:(by rewrite R4)) as [sl1 Hsl1].
  destruct (set_slice_spec g1 slice sl1 (set_num_chunks counts) 0 Hsl1 eq_refl) as (g' & E' & D & Eh & Eb & Ea & Hs1 & Hs2). rewrite E'. cbn [mbind option_bind].
  pose proof D as [D1 D2 D3 D4 D5 D6 D7 D8 D9]. exists g', fr1. split; [done|]. split.
  - constructor; [congruence|congruence| | |].
    + destruct (rl_chunk _ _ _ _ _ _ R) as (nxt & En). exists nxt. congruence.
    + intros x. split; [intros (i & k & [Hx|(Hx & _)]%(rl_free _ _ _ _ _ _ R)); [left; by exists i, k|by right]|].
      intros [(i & k & Hx)| ->]; [exists i, k; apply (rl_free _ _ _ _ _ _ R); by left|]. eexists slice, _. apply (rl_free _ _ _ _ _ _ R). right. split_and!; [done|done|reflexivity].
    + intros off own. eapply apart_trans; [apply fm_apart, frame_moved, (moved_release own _ _ _ _ _ _ R)|]. apply apart_hdr. destruct D. constructor; try done. intros y _. by rewrite Eh.
  - destruct H as [I1 I2 I3 I4 I5 I6 I7]. constructor; cbn [seg set_seg max_byte_index_ n_slices ssvm_offset ssvm_size].
    + eapply seg_ok_hdr; [exact D|apply (rl_seg _ _ _ _ _ _ R)].
    + apply (hdrs_ok_rest (seg s)); [done|congruence| |].
      * assert (free_fifos <$> slices g' = free_fifos <$> slices g1) as -> by (unfold set_slice, vupd in E'; rewrite Hsl1 in E'; cbn [mbind option_bind] in E';
          destruct (vset _ _ _) as [ss|] eqn:Ess in E'; [|done]; injection E' as <-; by eapply vset_fmap).
        apply (fmap_rest slice_rest (fun x => x.1.1) _ _ Rm).
      * etransitivity; [apply (rl_grows _ _ _ _ _ _ R)|]. apply grows_kept; [lia|]. rewrite D2. intros x c Hc. by exists c.
    + congruence.
    + assert (vlen (slices g') = vlen (slices g1)) as E1 by (apply (f_equal length) in D7; rewrite !length_fmap in D7; unfold vlen; lia). lia.
    + intros i sl' Hsl'. destruct (decide (i = slice)) as [->|Hne]; [rewrite Hs1 in Hsl'; injection Hsl' as <-; cbn; rewrite (vset_len _ _ _ _ Hcs); lia|].
      rewrite Hs2 in Hsl' by done. destruct (vget_fmap_eq slice_rest _ _ i sl' Rm Hsl') as (sl0 & H0 & E0). injection E0 as _ _ <-. by eapply I5.
    + by rewrite D9, R6.
    + by rewrite D5, R3.
Qed.


(** Chunks [os] went to the free lists. *)
Record returned g fr g' fr' (os : list Z) : Prop := {
  rt_headers : headers g' = headers g;
  rt_active : n_active_fifos g' = n_active_fifos g;
  rt_free x : is_free fr' x <-> is_free fr x \/ x ∈ os;
  rt_apart off own : apart off (os ++ own) own g fr g' fr'
}.

Lemma returned_nil g fr : returned g fr g fr [].
Proof. constructor; try done. intros x. split; [tauto|]. intros [?|Hx]; [done|by apply not_elem_of_nil in Hx]. Qed.
Lemma returned_cons g fr g1 fr1 g' fr' o os : pushed g fr g1 fr1 o -> returned g1 fr1 g' fr' os -> returned g fr g' fr' (o :: os).
Proof.
  intros [P1 P2 P3 P4 P5] [R1 R2 R3 R4]. constructor; [congruence|congruence| |].
  - intros x. rewrite R3, P4, elem_of_cons. tauto.
  - intros off own. cbn. eapply apart_trans; [apply P5|apply R4].
Qed.

Lemma laid_push s fr hf g' fr' c cs : laid (seg s) fr (c :: cs) -> pushed (seg s) fr g' fr' (coff c) -> seg_inv (set_seg g' s) fr' hf -> laid g' fr' cs.
Proof.
  intros [L1 [Hnc L2]%NoDup_cons L3 L4] [P1 P2 (nxt & Ec) P4 P5] H. assert (forall d, d ∈ cs -> coff d <> coff c) as Hne by (intros d Hd E; apply Hnc; rewrite <- E; apply list_elem_of_fmap; by exists d).
  constructor; [apply (si_seg _ _ _ H)|done| |].
  - intros d Hd [Hf|Hf]%P4; [by apply (L3 d); [right|]|by apply (Hne d)].
  - intros d Hd. destruct (L4 d ltac:(by right)) as (dh & Hdh & E). exists dh. rewrite Ec, lookup_alter_ne by (intros E'; by apply (Hne d)). done.
Qed.

Lemma release_chunks_spec s fr hf slice cs :
  seg_inv s fr hf -> 0 <= slice < n_slices s -> laid (seg s) fr cs ->
  exists g' fr', release_chunks s slice (offs cs) = Some (set_seg g' s, inl tt) /\ returned (seg s) fr g' fr' (offs cs) /\ seg_inv (set_seg g' s) fr' hf.
Proof.
  revert s fr. induction cs as [|c cs IH]; intros s fr H Hs L.
  { exists (seg s), fr. assert (set_seg (seg s) s = s) as -> by (by destruct s). split_and!; [done|apply returned_nil|done]. }
  cbn [release_chunks fmap list_fmap]. destruct (ld_chunk _ _ _ L c ltac:(left)) as (ch & Hch & _). rewrite (si_max _ _ _ H), (offset_valid _ _ _ _ (si_seg _ _ _ H) Hch). cbn [negb].
  unfold chunk_at. rewrite Hch. cbn [mbind option_bind]. destruct (push_chunk_spec s fr hf slice (coff c) ch H Hs Hch (ld_own _ _ _ L c ltac:(left))) as (g1 & fr1 & -> & P & H1).
  cbn [and_then mbind option_bind]. destruct (IH (set_seg g1 s) fr1 H1 Hs (laid_push _ _ _ _ _ _ _ L P H1)) as (g' & fr' & -> & R & H').
  exists g', fr'. split_and!; [done| |done]. eapply returned_cons; [exact P|exact R].
Qed.

Lemma loose_push s fr hf g' fr' c cs : loose (seg s) fr (c :: cs) -> pushed (seg s) fr g' fr' (coff c) -> seg_inv (set_seg g' s) fr' hf -> loose g' fr' cs.
Proof.
  intros [L1 [_ L2] [Hnc L3]%NoDup_cons L4] [P1 P2 (nxt & Ec) P4 P5] H. constructor; [apply (si_seg _ _ _ H)| |done|].
  - rewrite Ec. by apply links_alter.
  - intros d Hd [Hf|Hf]%P4; [by apply (L4 d); [right|]|]. apply Hnc. rewrite <- Hf. apply list_elem_of_fmap. by exists d.
Qed.

Lemma return_chunks_spec n s fr hf slice cs :
  seg_inv s fr hf -> 0 <= slice < n_slices s -> loose (seg s) fr cs -> (length cs < n)%nat ->
  exists g' fr', return_chunks n s slice (first_off cs 0) = Some (set_seg g' s) /\ returned (seg s) fr g' fr' (offs cs) /\ seg_inv (set_seg g' s) fr' hf.
Proof.
  revert s fr cs. induction n as [|n IH]; intros s fr cs H Hs L Hn; [lia|]. cbn [return_chunks]. destruct cs as [|c cs]; cbn [first_off].
  { exists (seg s), fr. assert (set_seg (seg s) s = s) as -> by (by destruct s). split_and!; [done|apply returned_nil|done]. }
  pose proof (loose_bounds _ _ _ c L ltac:(left)) as (Bo & _). rewrite (proj2 (Z.eqb_neq (coff c) 0)) by lia.
  pose proof (lc_links _ _ _ L) as [(ch & Hch & _ & _ & Hnx) _]. unfold chunk_at. rewrite Hch. cbn [mbind option_bind].
  destruct (push_chunk_spec s fr hf slice (coff c) ch H Hs Hch (lc_own _ _ _ L c ltac:(left))) as (g1 & fr1 & -> & P & H1). cbn [expect mbind option_bind].
  rewrite Hnx. assert (fs_head_offset (first_off cs 0) = first_off cs 0) as ->.
  { apply head_offset_small. unfold FS_CHUNK_OFFSET_MASK. destruct cs as [|d cs']; cbn [first_off]; [lia|]. pose proof (loose_bounds _ _ _ d L ltac:(right; left)). lia. }
  destruct (IH (set_seg g1 s) fr1 cs H1 Hs (loose_push _ _ _ _ _ _ _ L P H1) ltac:(cbn in Hn; lia)) as (g' & fr' & -> & R & H').
  exists g', fr'. split_and!; [done| |done]. eapply returned_cons; [exact P|exact R].
Qed.

(** The invariant across operations that only move chunks. *)
Lemma seg_inv_moved s fr hf g' fr' own own' : seg_inv s fr hf -> moved own own' (seg s) fr g' fr' -> seg_ok g' fr' -> seg_inv (set_seg g' s) fr' hf.
Proof.
  intros [I1 I2 I3 I4 I5 I6 I7] [[R1 R2 R3 R4 Rm R5 R6] G _ _] Hok. injection Rm as _ Rm. constructor; cbn; try done; try congruence.
  - apply (hdrs_ok_rest (seg s)); try done. apply (fmap_rest slice_rest (fun x => x.1.1) _ _ Rm).
  - intros i sl Hsl. destruct (vget_fmap_eq slice_rest _ _ i sl Rm Hsl) as (sl0 & H0 & E0). injection E0 as _ _ <-. by eapply I5.
Qed.

(** The invariant across operations of a FIFO. *)
Lemma seg_inv_frame s fr hf g' fr' off own own' :
  seg_inv s fr hf -> frame off own own' (seg s) fr g' fr' -> seg_ok g' fr' -> is_Some (headers (seg s) !! off) -> (forall i, off ∉ hf i) -> is_Some (headers g' !! off) ->
  seg_inv (set_seg g' s) fr' hf.
Proof.
  intros [I1 I2 I3 I4 I5 I6 I7] F Hok Hx Hoff Hx'. pose proof (hdrs_ok_frame _ _ _ _ _ _ _ _ I2 F Hx Hoff Hx') as Hh. destruct F as [[A1 A2 A3 A4 A5 A6 A7 A8] Em]. injection Em as _ Rm.
  constructor; cbn; try done; try congruence.
  - intros i sl Hsl. destruct (vget_fmap_eq slice_rest _ _ i sl Rm Hsl) as (sl0 & H0 & E0). injection E0 as _ _ <-. by eapply I5.
Qed.

End SvmSegmentProofs.
