(* ===== verification/SvmLifeBudget.v ===== *)
(** * What making and freeing a FIFO takes of a segment

    A new FIFO takes at most [fifo_cost] of its capacity; when that much is
    left, its header and its chunks are there.  Freeing a FIFO takes
    nothing. *)

From S2P Require Import Prelude Ranges InfraBitmap InfraPool InfraRbTree SvmOoo SvmMemory SvmMemoryProofs SvmFifo SvmBudget SvmSegment SvmSegmentProofs.

Module SvmLifeBudget.
Import SvmOoo SvmMemory SvmMemoryProofs SvmFifo SvmBudget SvmSegment SvmSegmentProofs.

Implicit Types (g : segment) (s : SvmFifoSegment) (f : Fifo).

(** The header with its alignment. *)
Definition HEADER_COST : Z := 256 + 63.
(** The header and the chunks. *)
Definition fifo_cost (capacity : Z) : Z := HEADER_COST + (capacity + 2 ^ 22) + 31 * (capacity / 2 ^ 12 + 1).

Ltac seg_inv_bind H := unfold and_then, expect, ok, err in H; bind_inv.

(** ** Operations that take nothing *)

Lemma set_slice_top g slice u g' : set_slice g slice u = Some g' -> top g' = top g.
Proof. unfold set_slice. intros H. bind_inv. done. Qed.
Lemma set_slice_index_top g f slice g' : set_slice_index g f slice = Some g' -> top g' = top g.
Proof. unfold set_slice_index. intros H. bind_inv. by eapply hdr_upd_top. Qed.
Lemma link_chunks_top g l g' : link_chunks g l = Some g' -> top g' = top g.
Proof. revert g. induction l as [|o l IH]; intros g H; cbn [link_chunks] in H; bind_inv; [done|]. apply IH in H. rewrite H. by eapply chunk_upd_top. Qed.
Lemma init_top g a b o capacity st e g' r : init_at_svm_shared g a b o capacity st e = Some (g', r) -> top g' = top g.
Proof. unfold init_at_svm_shared. intros H. bind_inv; done. Qed.

Ltac seg_top H := first [apply chunk_upd_top in H | apply hdr_upd_top in H | apply set_free_head_top in H | apply set_slice_top in H].
Ltac seg_tops := repeat match goal with H : _ = Some _ |- _ => seg_top H end; cbn [seg set_seg] in *; congruence.

Lemma pop_header_top s slice s' r : pop_fifo_header s slice = Some (s', r) -> top (seg s') = top (seg s).
Proof. unfold pop_fifo_header. intros H. seg_inv_bind H; try done. seg_tops. Qed.
Lemma push_header_top s slice o s' r : push_fifo_header s slice o = Some (s', r) -> top (seg s') = top (seg s).
Proof. unfold push_fifo_header. intros H. seg_inv_bind H; try done. seg_tops. Qed.
Lemma push_chunk_top s slice class o s' r : push_chunk s slice class o = Some (s', r) -> top (seg s') = top (seg s).
Proof. unfold push_chunk, push_chunk_list. intros H. seg_inv_bind H; try done. seg_tops. Qed.

Lemma return_chunks_top n s slice o s' : return_chunks n s slice o = Some s' -> top (seg s') = top (seg s).
Proof.
  revert s o. induction n as [|n IH]; intros s o H; [done|]. cbn [return_chunks] in H. seg_inv_bind H; [done|]. apply IH in H. rewrite H. by eapply push_chunk_top.
Qed.
Lemma release_value_top s slice f s' : release_fifo_value s slice f = Some s' -> top (seg s') = top (seg s).
Proof.
  unfold release_fifo_value. intros H. seg_inv_bind H.
  match goal with E : return_chunks _ _ _ _ = Some _ |- _ => apply return_chunks_top in E end. match goal with E : push_fifo_header _ _ _ = Some _ |- _ => apply push_header_top in E end.
  repeat match goal with H : _ = Some _ |- _ => seg_top H end. cbn [seg set_seg] in *. unfold top in *. cbn in *. congruence.
Qed.

Lemma remove_active_seg s slice index : seg (remove_active s slice index) = seg s.
Proof. unfold remove_active. repeat case_match; done. Qed.
Lemma free_top s slice index s' r : free_server_fifo s slice index = Some (s', r) -> top (seg s') = top (seg s).
Proof.
  unfold free_server_fifo. intros H. seg_inv_bind H; try done. match goal with E : release_fifo_value _ _ _ = Some _ |- _ => apply release_value_top in E; rewrite E end.
  by rewrite remove_active_seg.
Qed.

Lemma record_top s slice capacity s' : record_fifo_allocation s slice capacity = Some s' -> top (seg s') = top (seg s).
Proof. unfold record_fifo_allocation. intros H. bind_inv. match goal with E : set_slice _ _ _ = Some _ |- _ => by apply set_slice_top in E end. Qed.

(** ** Making a FIFO *)

Lemma allocate_block_took s s' r :
  allocate_block s FIFO_HEADER_SIZE FIFO_SEGMENT_ALIGN = Some (s', r) -> max_byte_index_ s = max_byte_index (seg s) -> room (seg s) HEADER_COST ->
  (exists o, r = inl o) /\ took HEADER_COST (seg s) (seg s').
Proof.
  unfold allocate_block, HEADER_COST, FIFO_HEADER_SIZE. change FIFO_SEGMENT_ALIGN with 64. intros H Hm (R0 & R1 & R2). cbn [Z.eqb negb is_power_of_two orb] in H.
  pose proof (align_up (byte_index (seg s)) 64 6 ltac:(lia) eq_refl R0) as Ha. change (64 - 1) with 63 in *. change (negb (is_power_of_two 64)) with false in H.
  unfold checked_add, FS_CHUNK_OFFSET_MASK in H. rewrite (proj2 (Z.ltb_lt (byte_index (seg s) + 63) _)) in H by lia. cbv zeta in H. rewrite (proj2 (Z.ltb_lt (Z.ldiff _ _ + _) _)) in H by lia.
  rewrite Hm, (proj2 (Z.leb_gt (max_byte_index (seg s)) _)), (proj2 (Z.ltb_ge _ (Z.ldiff _ _ + _))) in H by lia. cbn [orb] in H. unfold ok in H. bind_inv.
  split; [by eexists|]. split; cbn; lia.
Qed.

Lemma header_took s slice sl s' r :
  allocate_fifo_header s slice = Some (s', r) -> shared_slice s slice = inl sl -> max_byte_index_ s = max_byte_index (seg s) -> room (seg s) HEADER_COST ->
  (exists o, r = inl o) /\ took HEADER_COST (seg s) (seg s').
Proof.
  intros H Hsl Hm Hr. unfold allocate_fifo_header, and_then in H. apply bind_Some in H as ([s1 r1] & Ep & H). pose proof (pop_header_top _ _ _ _ Ep) as Et.
  unfold pop_fifo_header in Ep. rewrite Hsl in Ep. unfold ok, err in *. destruct (free_fifos sl =? 0).
  - injection Ep as <- <-. apply bind_Some in H as ([s2 r2] & E & H). destruct (allocate_block_took _ _ _ E Hm Hr) as [[o ->] Ht]. bind_inv. by split; [eexists|].
  - destruct (negb _); [done|]. apply bind_Some in Ep as (hd & _ & Ep). apply bind_Some in Ep as (g1 & _ & Ep). apply bind_Some in Ep as (g2 & _ & [= <- <-]).
    bind_inv. split; [by eexists|]. eapply took_weaken, top_took; [done|exact Et].
Qed.

Lemma alloc_chunks_took n g slice size index g' l e :
  alloc_chunks n g slice (chunk_size size) index = Some (g', (l, e)) -> room g (Z.of_nat n * (31 + chunk_size size)) -> e = None /\ took (Z.of_nat n * (31 + chunk_size size)) g g'.
Proof.
  pose proof (class_size_range _ (class_range size)) as Hc. rewrite <- chunk_size_class in Hc.
  revert g index l. induction n as [|n IH]; intros g index l H Hr; cbn [alloc_chunks] in H; [bind_inv; split; [done|by apply top_took]|].
  apply bind_Some in H as ([g1 r] & Ea & H). replace (Z.of_nat (S n) * (31 + chunk_size size)) with (31 + chunk_size size + Z.of_nat n * (31 + chunk_size size)) in * by lia.
  destruct (allocate_chunk_took _ _ _ _ _ _ Ea) as (o & c & -> & Ht & _); rewrite chunk_size_idem in *; [eapply room_weaken, Hr; nia|].
  apply bind_Some in H as ([g2 [l2 e2]] & E2 & H). bind_inv. destruct (IH _ _ _ E2) as [-> Ht2]; [by eapply room_took|]. split; [done|]. by eapply took_trans.
Qed.

Lemma fifo_cost_covers capacity physical :
  0 <= capacity -> 2 ^ 12 <= physical <= 2 ^ 22 -> HEADER_COST + (capacity + physical - 1) / physical * (31 + physical) <= fifo_cost capacity.
Proof.
  intros H0 Hp. unfold fifo_cost. set (n := (capacity + physical - 1) / physical).
  assert (n * physical <= capacity + physical - 1) as H1 by (unfold n; pose proof (Z.mul_div_le (capacity + physical - 1) physical ltac:(lia)); lia).
  assert (n <= capacity / 2 ^ 12 + 1) as H2.
  { unfold n. replace (capacity + physical - 1) with (capacity - 1 + 1 * physical) by lia. rewrite Z.div_add by lia.
    pose proof (Z.div_le_compat_l capacity (2 ^ 12) physical ltac:(lia) ltac:(lia)). pose proof (Z.div_le_mono (capacity - 1) capacity physical ltac:(lia) ltac:(lia)). lia. }
  nia.
Qed.

End SvmLifeBudget.
