(* ===== verification/SvmFifoLife.v ===== *)
(** * Making and freeing the FIFOs of a segment

    A new FIFO is empty, has a header no other FIFO uses and a chain of chunks
    of its own; freeing it returns all of them. *)

From S2P Require Import Prelude Ranges InfraBitmap InfraPool InfraRbTree InfraRbOps InfraRbMap.
From S2P Require Import SvmOoo SvmOooProofs SvmMemory SvmMemoryProofs SvmFifo SvmBudget SvmChain SvmGrow SvmFifoInv SvmFifoOps SvmSegment SvmSegmentProofs SvmLifeBudget.

Module SvmFifoLife.
Import Ranges SvmOoo SvmOooProofs SvmMemory SvmMemoryProofs SvmFifo SvmBudget SvmChain SvmGrow SvmFifoInv SvmFifoOps SvmSegment SvmSegmentProofs SvmLifeBudget.

#[local] Existing Instance RbOps.Z_key_order.
Implicit Types (g : segment) (fr : frees) (hf : hfrees) (s : SvmFifoSegment) (f : Fifo) (v : view) (c d : cnode) (cs : list cnode) (B : Z -> Z).

(** ** Initialisation of the shared header *)

Lemma new_state_spec off : exists f, new_state off = Some f /\ hdr_off f = off /\ (exists m, holds (ooo_enq_lookup f) m) /\ (exists m, holds (ooo_deq_lookup f) m) /\ ooo_list f = ooo_new.
Proof.
  unfold new_state. destruct (RbMap.holds_new Z.compare (fun _ : Z => True) 0 0 4) as (t & Et & Ht). rewrite Et. cbn [mbind option_bind]. eexists. split; [done|].
  split_and!; try done; by exists ∅.
Qed.

(** The header of a new FIFO. *)
Definition fresh_header (capacity min_alloc slice start end_ : Z) : SvmFifoShared :=
  fifo_shared start end_ min_alloc capacity slice 0 signals_new start 0 start 0.

Lemma init_at_svm_shared_spec g fr c cs e off x capacity fs_offset size :
  chain_ok g fr (c :: cs) 0 e -> headers g !! off = Some x -> 0 < off -> off + FIFO_HEADER_SIZE <= byte_index g -> 0 < capacity < 2 ^ 32 ->
  0 <= fs_offset -> fs_offset + max_byte_index g <= size -> size < 2 ^ 63 ->
  exists f me md g', init_at_svm_shared g fs_offset size off capacity (coff c) (last_off (c :: cs)) = Some (g', inl f) /\ hdr_off f = off /\
    g' = set_headers (<[off := fresh_header capacity (clen c) 0 (coff c) (last_off (c :: cs))]> (headers g)) g /\
    holds (ooo_enq_lookup f) me /\ holds (ooo_deq_lookup f) md /\ indexes (c :: cs) me /\ ooo_list f = ooo_new.
Proof.
  intros Hok Hx Ho Hoe Hcap Hfs Hsz Hsz2. unfold init_at_svm_shared. rewrite (proj2 (Z.eqb_neq capacity 0)), (proj2 (Z.ltb_ge u32_max capacity)) by (unfold u32_max; lia). cbn [orb].
  pose proof (sk_index _ _ (ch_seg _ _ _ _ _ Hok)) as Hi. pose proof (sk_max _ _ (ch_seg _ _ _ _ _ Hok)) as Hm. destruct (last_off_elem (c :: cs) ltac:(done)) as (l & d & El & ->).
  assert (forall a, a ∈ c :: cs -> fs_offset_is_valid (coff a) (max_byte_index g) = true) as Hv.
  { intros a Ha. destruct (chain_elem _ _ _ _ _ Hok a Ha) as (ah & Hah & _). by apply (offset_valid _ _ _ _ (ch_seg _ _ _ _ _ Hok) Hah). }
  assert (d ∈ c :: cs) as Hd by (rewrite El; apply elem_of_app; right; left). rewrite (Hv c ltac:(left)), (Hv d Hd).
  assert (fs_offset_is_valid off (max_byte_index g) = true) as ->.
  { unfold fs_offset_is_valid, FS_CHUNK_OFFSET_MASK, FIFO_HEADER_SIZE in *. rewrite (proj2 (Z.eqb_neq off 0)), (proj2 (Z.leb_le off _)), (proj2 (Z.ltb_lt off _)) by lia. done. }
  cbn [negb orb]. unfold checked_add. unfold FIFO_HEADER_SIZE in *. rewrite (proj2 (Z.ltb_lt (off + 256) _)), (proj2 (Z.ltb_ge (max_byte_index g) _)) by lia.
  destruct (chain_at _ _ _ _ _ Hok [] c cs eq_refl) as (ch & Hch & Hhd). rewrite Hch. cbn [mbind option_bind]. destruct Hhd as (_ & -> & _).
  pose proof (chain_bounds _ _ _ _ _ Hok c ltac:(left)) as Bc. pose proof (chain_bounds _ _ _ _ _ Hok d Hd) as Bd. rewrite (proj2 (Z.eqb_neq (clen c) 0)) by lia.
  destruct (chain_elem _ _ _ _ _ Hok d Hd) as (dh & Hdh & _ & Edl). pose proof (sk_chunk _ _ (ch_seg _ _ _ _ _ Hok) _ _ Hdh) as (_ & Hde & _). unfold CHUNK_HEADER_SIZE in *.
  rewrite (proj2 (Z.ltb_lt (fs_offset + coff d) _)) by lia. cbn [mbind option_bind]. rewrite (proj2 (Z.ltb_lt (fs_offset + coff d + 24) _)), (proj2 (Z.ltb_ge size _)) by lia.
  rewrite (wrap_small 32 capacity) by (unfold in_word; lia). set (hd := fifo_shared _ _ _ _ _ _ _ _ _ _ _). set (g1 := set_headers _ g).
  destruct (new_state_spec off) as (f0 & -> & Eo & Hq1 & Hq2 & Eooo). cbn [mbind option_bind].
  assert (chain_ok g1 fr (c :: cs) 0 e) as Hok1 by (eapply (chain_ok_data off); [|exact Hok]; constructor; try done; intros o Hne; cbn; by rewrite lookup_insert_ne).
  destruct (initialize_spec g1 fr (c :: cs) 0 e f0 hd Hok1) as (enq & deq & me & md & -> & H1 & H2 & H3 & _); try done; [unfold hdr_at; rewrite Eo; apply lookup_insert_eq|].
  cbn [mbind option_bind]. eexists _, me, md, _. split; [done|]. by split_and!.
Qed.

Lemma upd_hfree_cons hf slice off y : (exists i, y ∈ upd_hfree hf slice (off :: hf slice) i) <-> (exists i, y ∈ hf i) \/ y = off.
Proof.
  unfold upd_hfree. split.
  - intros (i & Hi). case_decide; [apply elem_of_cons in Hi as [->|Hi]; [by right|left; by exists slice]|left; by exists i].
  - intros [(i & Hi)| ->]; [exists i; case_decide; [subst; by right|done]|]. exists slice. rewrite decide_True by done. left.
Qed.

(** ** Making a FIFO *)

(** [s'] is [s] with the new FIFO [f], whose view is [v]. *)
Record made s fr hf s' fr' hf' f v (capacity : Z) : Prop := {
  md_inv : seg_inv s' fr' hf';
  md_ok B : fifo_ok (seg s') fr' f v B;
  md_fresh : exists c cs e, v = fresh_view capacity c cs e /\ capacity <= e;
  md_header : headers (seg s) !! hdr_off f = None \/ exists i, hdr_off f ∈ hf i;
  md_hfree i y : y ∈ hf' i <-> y ∈ hf i /\ y <> hdr_off f;
  md_apart : apart (hdr_off f) [] (offs (chain v)) (seg s) fr (seg s') fr';
  md_active : n_active_fifos (seg s') = n_active_fifos (seg s)
}.

(** [s'] is [s] after an allocation was undone; [off] is a header that was
    taken and put back. *)
Record undone s fr hf s' fr' hf' (off : Z) : Prop := {
  un_inv : seg_inv s' fr' hf';
  un_header : headers (seg s) !! off = None \/ exists i, off ∈ hf i;
  un_hfree y : (exists i, y ∈ hf' i) <-> (exists i, y ∈ hf i) \/ y = off;
  un_apart : apart off [] [] (seg s) fr (seg s') fr';
  un_active : n_active_fifos (seg s') = n_active_fifos (seg s)
}.

Lemma abandon_fifo_spec s fr hf slice off x cs er :
  seg_inv s fr hf -> 0 <= slice < n_slices s -> laid (seg s) fr cs -> headers (seg s) !! off = Some x -> (forall i, off ∉ hf i) ->
  exists g' fr' hf', abandon_fifo s slice off (offs cs) er = Some (set_seg g' s, inr (FifoFailed er)) /\ seg_inv (set_seg g' s) fr' hf' /\
    (forall y, (exists i, y ∈ hf' i) <-> (exists i, y ∈ hf i) \/ y = off) /\ apart off (offs cs) [] (seg s) fr g' fr' /\ n_active_fifos g' = n_active_fifos (seg s).
Proof.
  intros H Hs L Hx Hfree. unfold abandon_fifo. destruct (release_chunks_spec s fr hf slice cs H Hs L) as (g1 & fr1 & -> & [R1 R2 R3 R4] & H1). cbn [and_then mbind option_bind].
  destruct (push_fifo_header_spec (set_seg g1 s) fr1 hf slice off x H1 Hs ltac:(cbn; by rewrite R1) Hfree) as (g2 & -> & H2 & D & Ea). cbn [and_then mbind option_bind].
  exists g2, fr1. eexists. split; [done|]. split; [exact H2|]. split_and!.
  - apply upd_hfree_cons.
  - specialize (R4 off []). rewrite app_nil_r in R4. eapply apart_trans; [exact R4|]. by apply apart_hdr.
  - cbn in Ea. congruence.
Qed.

(** Linking the chunks that were allocated. *)
Lemma linked_chain s fr hf cs e :
  seg_inv s fr hf -> laid (seg s) fr cs -> contig 0 cs e -> e < 2 ^ 31 ->
  exists g', link_chunks (seg s) (offs cs) = Some g' /\ chain_ok g' fr cs 0 e /\ moved (offs cs) (offs cs) (seg s) fr g' fr /\ seg_inv (set_seg g' s) fr hf /\ laid g' fr cs.
Proof.
  intros H L Hct He. destruct (link_chunks_spec (seg s) fr (offs cs) [] cs L ltac:(done)) as (g' & E & L' & Hl & M & _). cbn [app] in *.
  exists g'. pose proof L' as [L1 L2 L3 L4]. split_and!; try done; [constructor; try done; lia|]. by eapply seg_inv_moved.
Qed.

(** The shared header of the new FIFO is written and gets its slice. *)
Lemma init_fifo_spec s fr hf slice off x capacity c cs e :
  seg_inv s fr hf -> 0 <= slice < n_slices s -> chain_ok (seg s) fr (c :: cs) 0 e -> headers (seg s) !! off = Some x -> (forall i, off ∉ hf i) ->
  0 < capacity <= 2 ^ 31 - 2 ^ 24 -> capacity <= e ->
  exists f g1 g2, init_at_svm_shared (seg s) (ssvm_offset s) (ssvm_size s) off capacity (coff c) (last_off (c :: cs)) = Some (g1, inl f) /\
    set_slice_index g1 f slice = Some g2 /\ hdr_off f = off /\ seg_inv (set_seg g2 s) fr hf /\ (forall B, fifo_ok g2 fr f (fresh_view capacity c cs e) B) /\
    hdr_step off (seg s) g2 /\ n_active_fifos g2 = n_active_fifos (seg s).
Proof.
  intros H Hs Hok Hx Hfree Hcap Hce. destruct (hd_at _ _ (si_hdrs _ _ _ H) off x Hx) as [Ho Hoe]. destruct (si_map _ _ _ H) as (M1 & M2 & M3).
  destruct (init_at_svm_shared_spec (seg s) fr c cs e off x capacity (ssvm_offset s) (ssvm_size s) Hok Hx Ho Hoe ltac:(lia) M1 M2 M3) as (f & me & md & g1 & E0 & Eo & Eg & He & Hd & Hi & Eooo).
  destruct (si_slices _ _ _ H) as [En Hn].
  set (hd := fresh_header _ _ _ _ _) in *. assert (hdr_at g1 off = Some hd) as Hh1 by (rewrite Eg; unfold hdr_at; cbn; apply lookup_insert_eq).
  assert (hdr_step off (seg s) g1) as D1 by (rewrite Eg; constructor; cbn; try done; try lia; intros o Hne; by rewrite lookup_insert_ne).
  destruct (hdr_upd_step g1 off hd (set_slice_index_ slice) Hh1) as (g2 & E2 & D2 & Eh2 & Es2 & Eb2 & Ea2). assert (hdr_step off (seg s) g2) as D by (by etransitivity).
  assert (slices g1 = slices (seg s) /\ n_active_fifos g1 = n_active_fifos (seg s)) as [Es1 Ea1] by (by rewrite Eg).
  exists f, g1, g2. split_and!; try done; [| | |congruence].
  - unfold set_slice_index. rewrite (proj2 (Z.ltb_ge u8_max slice)) by (unfold u8_max; lia). by rewrite Eo.
  - eapply seg_inv_hdr; [done|exact D|by rewrite Es2, Es1|]. eapply (hdrs_ok_frame (seg s) fr hf g2 fr off [] []); [apply (si_hdrs _ _ _ H)| |by eexists|done|rewrite Eh2, lookup_insert_eq; by eexists].
    constructor; [by apply apart_hdr|]. unfold seg_meta. by rewrite Es2, Es1, Ea2, Ea1.
  - intros B. assert (hdr_at g2 (hdr_off f) = Some (set_slice_index_ slice hd)) as Hh2 by (unfold hdr_at; rewrite Eo, Eh2; apply lookup_insert_eq).
    eapply fifo_ok_fresh; try done; [|rewrite Es2, Es1; cbn [h_slice_index set_slice_index_]; lia|rewrite Eooo; apply ooo_new_ok].
    eapply (chain_ok_data off); [|exact Hok]. destruct D. constructor; try done; [|by rewrite Es2|congruence]. rewrite Eb2, Eg. done.
Qed.

(** What is left to do once the FIFO has its header. *)
Definition assemble (slice capacity physical : Z) (n : nat) s (off : Z) : option (SvmFifoSegment * (Fifo + FifoSegmentError)) :=
  '(g, (chunks, failed)) ← alloc_chunks n (seg s) slice physical 0;
  match failed with
  | Some e => abandon_fifo (set_memory_limit true (set_seg g s)) slice off chunks e
  | None =>
    g ← link_chunks g chunks;
    start ← vget chunks 0;
    last ← list.last chunks;
    '(g, r) ← init_at_svm_shared g (ssvm_offset s) (ssvm_size s) off capacity start last;
    match r with
    | inr e => abandon_fifo (set_seg g s) slice off chunks e
    | inl fifo => g ← set_slice_index g fifo slice; ok (set_seg g s) fifo
    end
  end.

Lemma assemble_spec s fr hf s1 hf1 slice capacity size physical n off x :
  seg_inv s1 fr hf1 -> 0 <= slice < n_slices s1 -> 4096 <= capacity <= 2 ^ 31 - 2 ^ 24 -> physical = chunk_size size -> n = Z.to_nat ((capacity + physical - 1) / physical) ->
  hdr_step off (seg s) (seg s1) -> n_active_fifos (seg s1) = n_active_fifos (seg s) -> headers (seg s1) !! off = Some x ->
  (headers (seg s) !! off = None \/ exists i, off ∈ hf i) -> (forall i y, y ∈ hf1 i <-> y ∈ hf i /\ y <> off) ->
  exists s' r, assemble slice capacity physical n s1 off = Some (s', r) /\ same_handle s1 s' /\
    match r with
    | inl f => exists fr' hf' v, made s fr hf s' fr' hf' f v capacity
    | inr e => e = FifoFailed SegmentExhausted /\ (seg s' = seg s \/ exists fr' hf' off, undone s fr hf s' fr' hf' off)
    end /\
    (room (seg s1) (Z.of_nat n * (31 + physical)) -> (exists f, r = inl f) /\ took (Z.of_nat n * (31 + physical)) (seg s1) (seg s')).
Proof.
  intros H1 Hs1 Hcap Eph Hn D1 Ea1 Hx Hnew Hhf. unfold assemble.
  assert (2 ^ 12 <= physical <= 2 ^ 22) as Bph by (rewrite Eph, chunk_size_class; apply class_size_range, class_range).
  assert (forall i, off ∉ hf1 i) as Hoff by (intros i [_ ?]%Hhf; done).
  destruct (alloc_chunks_spec n (seg s1) fr [] slice _ 0 physical Eph (laid_nil _ _ (si_seg _ _ _ H1))) as (g2 & fr2 & cs & e & Ea & L2 & Hct & M2 & He); [by destruct (si_slices _ _ _ H1) as [<- _]|].
  pose proof Ea as Ha. rewrite Eph in Ha. pose proof (fun R => alloc_chunks_took _ _ _ _ _ _ _ _ Ha R) as Hroom. rewrite <- Eph in Hroom. clear Ha. rewrite Ea.
  cbn [app mbind option_bind] in *. pose proof (seg_inv_moved _ _ _ _ _ _ _ H1 M2 (ld_seg _ _ _ L2)) as H2. pose proof (mv_rest _ _ _ _ _ _ M2) as [R1 _ _ _ Rm _ _]. injection Rm as Ra2 _.
  assert (apart off [] (offs cs) (seg s) fr g2 fr2) as A2 by (eapply apart_trans; [by apply (apart_hdr _ _ _ _ [] D1)|apply fm_apart, frame_moved, M2]).
  assert (headers g2 !! off = Some x) as Hx2 by (by rewrite R1). destruct e as [er|].
  - destruct He as [-> _]. destruct (abandon_fifo_spec (set_memory_limit true (set_seg g2 s1)) fr2 hf1 slice off x cs SegmentExhausted) as (g3 & fr3 & hf3 & -> & H3 & Hhf3 & A3 & Ea3); try done.
    { destruct H2. by constructor. }
    eexists _, (inr _). split; [done|]. split; [done|]. split; [|by intros [? _]%Hroom]. split; [done|]. right. exists fr3, hf3, off. constructor; try done.
    + intros y. rewrite Hhf3. split; [intros [(i & [Hi _]%Hhf)| ->]; [left; by exists i|by right]|]. intros [(i & Hi)| ->]; [|by right]. destruct (decide (y = off)); [by right|left; exists i; by apply Hhf].
    + eapply apart_trans; [exact A2|exact A3].
    + cbn in Ea3 |- *. congruence.
  - change ((0 + vlen cs) * physical) with (vlen cs * physical) in Hct. assert (vlen cs = (capacity + physical - 1) / physical) as Hcn.
    { unfold vlen. rewrite He, Hn. apply Z2Nat.id, Z.div_pos; lia. }
    assert (capacity <= vlen cs * physical < capacity + physical) as Hspan.
    { rewrite Hcn. pose proof (Z.div_mod (capacity + physical - 1) physical ltac:(lia)). pose proof (Z.mod_pos_bound (capacity + physical - 1) physical ltac:(lia)). lia. }
    destruct (linked_chain (set_seg g2 s1) fr2 hf1 cs (vlen cs * physical) H2 L2 Hct ltac:(lia)) as (g3 & E3 & Hok3 & M3 & H3 & L3). cbn [seg set_seg] in E3. rewrite E3. cbn [mbind option_bind].
    destruct cs as [|c cs]; [change (vlen (@nil cnode)) with 0 in Hspan; lia|]. change (vget (offs (c :: cs)) 0) with (Some (coff c)). cbn [mbind option_bind].
    assert (list.last (offs (c :: cs)) = Some (last_off (c :: cs))) as ->.
    { destruct (last_off_elem (c :: cs) ltac:(done)) as (l & d & -> & ->). rewrite fmap_app. apply last_snoc. }
    cbn [mbind option_bind]. pose proof (mv_rest _ _ _ _ _ _ M3) as [R3 _ _ _ Rm3 _ _]. injection Rm3 as Ra3 _.
    destruct (init_fifo_spec (set_seg g3 s1) fr2 hf1 slice off x capacity c cs (vlen (c :: cs) * physical) H3 Hs1 Hok3) as (f & g4 & g5 & E4 & E5 & Eo & H5 & Hfk & D5 & Ea5); try done; try lia.
    { cbn. cbn in R3. congruence. }
    cbn [seg set_seg ssvm_offset ssvm_size] in E4. rewrite E4. cbn [mbind option_bind]. rewrite E5. cbn [mbind option_bind].
    eexists _, (inl f). split; [done|]. split; [done|].
    split; [|intros [_ Ht]%Hroom; split; [by eexists|]; eapply took_top; [exact Ht|]; apply link_chunks_top in E3; apply init_top in E4; apply set_slice_index_top in E5; cbn; congruence].
    exists fr2, hf1, (fresh_view capacity c cs (vlen (c :: cs) * physical)). constructor; try done.
    + eexists c, cs, _. split; [done|]. lia.
    + by rewrite Eo.
    + intros i y. rewrite Eo. apply Hhf.
    + rewrite Eo. eapply apart_trans; [exact A2|]. eapply apart_trans; [apply fm_apart, frame_moved, M3|]. by apply apart_hdr.
    + cbn in Ea5, Ra3 |- *. congruence.
Qed.

Lemma allocate_fifo_value_spec s fr hf slice capacity ftype :
  seg_inv s fr hf -> 0 <= slice < n_slices s -> 4096 <= capacity <= 2 ^ 31 - 2 ^ 24 -> capacity <= max_capacity s -> ftype <> FtypeNone ->
  exists s' r, allocate_fifo_value s slice capacity ftype = Some (s', r) /\ same_handle s s' /\
    match r with
    | inl f => exists fr' hf' v, made s fr hf s' fr' hf' f v capacity
    | inr e => e = FifoFailed SegmentExhausted /\ (seg s' = seg s \/ exists fr' hf' off, undone s fr hf s' fr' hf' off)
    end /\
    (room (seg s) (fifo_cost capacity) -> (exists f, r = inl f) /\ took (fifo_cost capacity) (seg s) (seg s')).
Proof.
  intros H Hs Hcap Hmax Hft. unfold allocate_fifo_value, validate_fifo_capacity. change FIFO_SEGMENT_MIN_FIFO_SIZE with 4096. rewrite (proj2 (Z.ltb_ge capacity _)), (proj2 (Z.ltb_ge (max_capacity s) _)) by lia.
  cbn [orb]. destruct (shared_slice_spec s fr hf slice H Hs) as (sl & Esl & Hsl). rewrite Esl.
  destruct (allocate_fifo_header_spec s fr hf slice H Hs) as (s1 & r & Eh & Hsame & Hr). pose proof (fun R => header_took _ _ _ _ _ Eh Esl (si_max _ _ _ H) R) as Hht. rewrite Eh. cbn [and_then mbind option_bind].
  set (physical := chunk_size (Z.max (capacity * pct_first_alloc (seg s1) / 100) 4096)). set (n := Z.to_nat ((capacity + physical - 1) / physical)).
  assert (2 ^ 12 <= physical <= 2 ^ 22) as Bph by (unfold physical; rewrite chunk_size_class; apply class_size_range, class_range).
  pose proof (fifo_cost_covers capacity physical ltac:(lia) Bph) as Hcost. assert (Z.of_nat n = (capacity + physical - 1) / physical) as En by (apply Z2Nat.id, Z.div_pos; lia). rewrite <- En in Hcost.
  assert (0 <= Z.of_nat n * (31 + physical)) as Hpos by nia. destruct r as [off|er].
  2:{ destruct Hr as [-> ->]. exists (set_memory_limit true s), (inr (FifoFailed SegmentExhausted)). split; [by destruct ftype|]. split_and!; [done|done|by left|].
    intros Hroom. destruct Hht as [[? ?] _]; [eapply room_weaken, Hroom; lia|done]. }
  destruct Hr as (hf1 & x & H1 & D1 & Hx & Ea1 & Hhf & Hnew). assert (0 <= slice < n_slices s1) as Hs1 by (by rewrite (sh_slices _ _ Hsame)).
  destruct (assemble_spec s fr hf s1 hf1 slice capacity _ physical n off x H1 Hs1 Hcap eq_refl eq_refl D1 Ea1 Hx Hnew Hhf) as (s' & r & E & Hsame' & Hr & Hroom).
  exists s', r. split; [by destruct ftype|]. split; [by etransitivity|]. split; [done|]. intros R. destruct Hht as [_ Ht]; [eapply room_weaken, R; lia|].
  destruct Hroom as [Hf Ht2]; [eapply room_took, Ht; eapply room_weaken, R; lia|]. split; [done|]. eapply took_weaken, took_trans; [exact Hcost|exact Ht|exact Ht2].
Qed.


(** ** Freeing a FIFO *)

Lemma validate_chunks_spec n g fr cs lo e l0 l max :
  chain_ok g fr cs lo e -> cs = l0 ++ l -> max = max_byte_index g -> (length l < n)%nat -> validate_chunks n g max (first_off l 0) = Some (inl tt).
Proof.
  intros Hok. revert l0 l. induction n as [|n IH]; intros l0 l E -> Hn; [lia|]. cbn [validate_chunks]. destruct l as [|c l]; cbn [first_off]; [done|].
  assert (c ∈ cs) as Hc by (rewrite E; apply elem_of_app; right; left). rewrite (chain_nonzero _ _ _ _ _ Hok c Hc). destruct (chain_at _ _ _ _ _ Hok l0 c l E) as (ch & Hch & _ & _ & Hnx).
  rewrite (offset_valid _ _ _ _ (ch_seg _ _ _ _ _ Hok) Hch), Hch. cbn [negb mbind option_bind]. rewrite Hnx. rewrite head_offset_small.
  - apply (IH (l0 ++ [c])); [by rewrite <- app_assoc|done|cbn in Hn; lia].
  - unfold FS_CHUNK_OFFSET_MASK. destruct l as [|d l]; cbn [first_off]; [lia|]. assert (d ∈ cs) as Hd by (rewrite E; apply elem_of_app; right; right; left).
    pose proof (chain_bounds _ _ _ _ _ Hok d Hd). lia.
Qed.

Lemma validate_fifo_chunks_spec s fr hf f v B : seg_inv s fr hf -> fifo_ok (seg s) fr f v B -> validate_fifo_chunks s f = Some (inl tt).
Proof.
  intros H [(hd & HM & _) _]. unfold validate_fifo_chunks. rewrite (fk_at _ _ _ _ _ HM). cbn [mbind option_bind]. rewrite (hk_start _ _ _ (fk_hdr _ _ _ _ _ HM)), <- (first_off_chain v 0).
  pose proof (fk_chain _ _ _ _ _ HM) as Hok. eapply (validate_chunks_spec _ _ _ _ _ _ []); [exact Hok|done|apply (si_max _ _ _ H)|apply (chain_fuel _ _ _ _ _ Hok)].
Qed.

(** [s'] is [s] without the FIFO whose header is at [off] and whose chunks are
    [own]. *)
Record freed s fr hf s' fr' hf' (off : Z) (own : list Z) : Prop := {
  fd_inv : seg_inv s' fr' hf';
  fd_hfree y : (exists i, y ∈ hf' i) <-> (exists i, y ∈ hf i) \/ y = off;
  fd_free x : is_free fr' x <-> is_free fr x \/ x ∈ own;
  fd_apart : apart off own [] (seg s) fr (seg s') fr'
}.

(** Counters of FIFOs. *)
Lemma count_fifo_spec s fr hf slice n delta :
  seg_inv s fr hf -> 0 <= slice < n_slices s ->
  exists g', set_slice (set_active n (seg s)) slice (add_virtual_mem delta) = Some g' /\ seg_inv (set_seg g' s) fr hf /\ n_active_fifos g' = n /\
    headers g' = headers (seg s) /\ chunks g' = chunks (seg s) /\ bytes g' = bytes (seg s) /\ (forall off own, apart off own own (seg s) fr g' fr).
Proof.
  intros H Hs. destruct (shared_slice_spec s fr hf slice H Hs) as (sl & _ & Hsl).
  destruct (set_slice_spec (set_active n (seg s)) slice sl (add_virtual_mem delta) 0 Hsl eq_refl) as (g' & E & D & Eh & Eb & Ea & Hs1 & Hs2).
  assert (forall off, hdr_step off (seg s) g') as D' by (intros off; destruct D; constructor; try done; intros y _; by rewrite Eh).
  exists g'. split_and!; try done; [|apply (hs_chunks _ _ _ D)|apply (hs_bytes _ _ _ D)|intros off own; by apply (apart_hdr off)].
  eapply (seg_inv_hdr s fr hf g' 0 H (D' 0)); [by apply (set_slice_counts (set_active n (seg s)) slice sl (add_virtual_mem delta) g' Hsl eq_refl E)|].
  apply (hdrs_ok_rest (seg s)); [apply (si_hdrs _ _ _ H)|done| |apply (fm_grows _ _ _ _ _ _ _ (apart_hdr 0 (seg s) g' fr [] (D' 0)))].
  unfold set_slice, vupd in E. cbn [slices set_active] in E. rewrite Hsl in E. cbn [mbind option_bind] in E. destruct (vset _ _ _) as [ss|] eqn:Ess in E; [|done]. injection E as <-.
  by eapply vset_fmap.
Qed.

Lemma release_fifo_value_spec s fr hf slice f v B :
  seg_inv s fr hf -> 0 <= slice < n_slices s -> fifo_ok (seg s) fr f v B -> (forall i, hdr_off f ∉ hf i) ->
  exists s' fr' hf', release_fifo_value s slice f = Some s' /\ same_handle s s' /\ freed s fr hf s' fr' hf' (hdr_off f) (offs (chain v)) /\
    n_active_fifos (seg s') = wrap 32 (n_active_fifos (seg s) - 1).
Proof.
  intros H Hs [(hd & HM & _) _] Hfree. unfold release_fifo_value. rewrite (fk_at _ _ _ _ _ HM). cbn [mbind option_bind]. rewrite (hk_start _ _ _ (fk_hdr _ _ _ _ _ HM)), <- (first_off_chain v 0).
  pose proof (fk_chain _ _ _ _ _ HM) as Hok. assert (loose (seg s) fr (chain v)) as L by (destruct Hok; by constructor).
  destruct (return_chunks_spec (chunk_fuel (seg s)) s fr hf slice (chain v) H Hs L (chain_fuel _ _ _ _ _ Hok)) as (g1 & fr1 & -> & [R1 R2 R3 R4] & H1). cbn [mbind option_bind seg set_seg].
  set (u := fun x => set_tail_chunk 0 _). assert (hdr_at g1 (hdr_off f) = Some hd) as Hh1 by (unfold hdr_at; rewrite R1; apply (fk_at _ _ _ _ _ HM)).
  destruct (hdr_upd_step g1 (hdr_off f) hd u Hh1) as (g2 & -> & D2 & Eh2 & Es2 & Eb2 & Ea2). cbn [mbind option_bind].
  assert (seg_inv (set_seg g2 s) fr1 hf) as H2.
  { eapply (seg_inv_hdr (set_seg g1 s)); [done|exact D2|cbn; by rewrite Es2|]. eapply (hdrs_ok_frame g1 fr1 hf g2 fr1 (hdr_off f) [] []); [apply (si_hdrs _ _ _ H1)| |by eexists|done|rewrite Eh2, lookup_insert_eq; by eexists].
    constructor; [by apply apart_hdr|]. unfold seg_meta. by rewrite Es2, Ea2. }
  change (set_seg g2 (set_seg g1 s)) with (set_seg g2 s).
  destruct (push_fifo_header_spec (set_seg g2 s) fr1 hf slice (hdr_off f) (u hd) H2 Hs ltac:(cbn; rewrite Eh2; apply lookup_insert_eq) Hfree) as (g3 & -> & H3 & D3 & Ea3). cbn [expect mbind option_bind].
  change (set_seg g3 (set_seg g2 s)) with (set_seg g3 s) in *. destruct (shared_slice_spec _ _ _ slice H3 Hs) as (sl & -> & _). cbn [seg set_seg] in *.
  destruct (count_fifo_spec (set_seg g3 s) fr1 _ slice (wrap 32 (n_active_fifos g3 - 1)) (- h_size hd) H3 Hs) as (g4 & E4 & H4 & Ea4 & _ & _ & _ & A4). cbn [seg set_seg] in E4. rewrite E4. cbn [mbind option_bind].
  eexists _, fr1, _. split; [done|]. split; [done|]. split; [|cbn in Ea3 |- *; congruence]. constructor; [exact H4| |done|].
  - apply upd_hfree_cons.
  - specialize (R4 (hdr_off f) []). rewrite app_nil_r in R4. eapply apart_trans; [exact R4|]. eapply apart_trans; [by apply (apart_hdr _ _ _ _ [] D2)|].
    eapply apart_trans; [by apply (apart_hdr _ _ _ _ [] D3)|]. apply A4.
Qed.

End SvmFifoLife.
