(* ===== verification/SvmQueues.v ===== *)
(** * Byte queues: what a FIFO promises

    A queue is a stream of bytes with a read and a write position, and bytes
    that are known ahead of the write position.  Every operation of a FIFO
    that satisfies the invariant is a step of its queue. *)

From S2P Require Import Prelude Ranges InfraBitmap InfraPool InfraRbTree InfraRbOps InfraRbMap.
From S2P Require Import SvmOoo SvmOooProofs SvmMemory SvmMemoryProofs SvmFifo SvmBudget SvmChain SvmGrow SvmFifoInv SvmFifoOps SvmFifoRead SvmSegment SvmSegmentProofs.

Module SvmQueues.
Import Ranges SvmOoo SvmOooProofs SvmMemory SvmMemoryProofs SvmFifo SvmBudget SvmChain SvmGrow SvmFifoInv SvmFifoOps SvmFifoRead SvmSegment SvmSegmentProofs.

(** ** Queues *)

(** [q_bytes] holds the bytes not read yet by their position in the stream. *)
Record queue : Type := mk_queue { q_read : Z; q_write : Z; q_cap : Z; q_bytes : gmap Z Z }.

Definition q_new (capacity : Z) : queue := mk_queue 0 0 capacity ∅.
Definition q_len (q : queue) : Z := q_write q - q_read q.
Definition q_free (q : queue) : Z := q_cap q - q_len q.

(** The first position from [x] on whose byte is not known. *)
Fixpoint gap (n : nat) (m : gmap Z Z) (x : Z) : Z :=
  match n with
  | O => x
  | S n' => match m !! x with Some _ => gap n' m (x + 1) | None => x end
  end.

(** Writes at the write position, which moves past every byte known there. *)
Definition q_put (q : queue) (src : list Z) : queue :=
  let m := store_list (q_bytes q) (q_write q) src in
  mk_queue (q_read q) (gap (S (base.size m)) m (q_write q + vlen src)) (q_cap q) m.
(** Writes [offset] bytes ahead of the write position. *)
Definition q_put_at (q : queue) (offset : Z) (src : list Z) : queue :=
  mk_queue (q_read q) (q_write q) (q_cap q) (store_list (q_bytes q) (q_write q + offset) src).
Definition q_peek (q : queue) (offset : Z) (n : nat) : list Z := load_list (q_bytes q) (q_read q + offset) n.
Definition q_drop (q : queue) (n : Z) : queue :=
  mk_queue (q_read q + n) (q_write q) (q_cap q) (filter (fun p => q_read q + n <= p.1) (q_bytes q)).

(** ** Operations *)

Inductive fifo_op : Type :=
| Enqueue (src : list Z)
| EnqueueOoo (offset : Z) (src : list Z)
| EnqueueSegments (segments : list (list Z))
| Peek (offset len : Z) (dst : list Z)
| Dequeue (len : Z) (dst : list Z)
| DropDequeue (len : Z)
| MaxDequeue
| MaxEnqueue.

Inductive fifo_out : Type :=
| Count (n : Z)
| Ooo (r : OooResult)
| Data (dst : list Z) (n : Z)
| Failed (e : FifoError).

(** A scattered write is called with the total length of its pieces. *)
Definition run_op (avx2 : bool) (g : segment) (f : Fifo) (op : fifo_op) : option (segment * Fifo * fifo_out) :=
  match op with
  | Enqueue src => '(g, f, n) ← enqueue avx2 g f src; Some (g, f, Count n)
  | EnqueueOoo offset src => '(g, f, r) ← enqueue_ooo avx2 g f offset src; Some (g, f, match r with inl r => Ooo r | inr e => Failed e end)
  | EnqueueSegments segments =>
    '(g, f, r) ← enqueue_segments avx2 g f (vlen (concat segments)) segments; Some (g, f, match r with inl n => Count n | inr e => Failed e end)
  | Peek offset len dst => '(dst, n) ← peek avx2 g f offset len dst; Some (g, f, Data dst n)
  | Dequeue len dst => '(g, f, (dst, n)) ← dequeue avx2 g f len dst; Some (g, f, Data dst n)
  | DropDequeue len => '(g, f, n) ← drop_dequeue g f len; Some (g, f, Count n)
  | MaxDequeue => n ← max_dequeue g f; Some (g, f, Count n)
  | MaxEnqueue => n ← max_enqueue g f; Some (g, f, Count n)
  end.

(** The most an operation takes of the segment. *)
Definition op_cost (op : fifo_op) : Z :=
  match op with
  | Enqueue src => grow_cost (vlen src)
  | EnqueueOoo offset src => grow_cost (offset + vlen src)
  | EnqueueSegments segments => grow_cost (vlen (concat segments))
  | _ => 0
  end.

(** The range an out-of-order write reports: the known bytes around those
    written, relative to the write position, or nothing when all of them were
    known before. *)
Definition q_newest (q : queue) (offset : Z) (src : list Z) (r : OooResult) : Prop :=
  match res_start r with
  | None => forall y, q_write q + offset <= y < q_write q + offset + vlen src -> is_Some (q_bytes q !! y)
  | Some start =>
    0 < start <= offset /\ offset + vlen src <= start + res_len r <= q_free q /\ 0 < res_len r /\
    forall y, q_write q + start <= y < q_write q + start + res_len r -> is_Some (q_bytes (q_put_at q offset src) !! y)
  end.

(** What a queue answers.  Only when memory runs [short], a write may take
    fewer bytes than there is space for, or be refused with
    [SegmentExhausted]. *)
Inductive q_step (short : bool) (q : queue) : fifo_op -> fifo_out -> queue -> Prop :=
| q_enqueue src w q' :
    0 <= w <= Z.min (vlen src) (q_free q) -> (short = false -> w = Z.min (vlen src) (q_free q)) -> q' = q_put q (take (Z.to_nat w) src) ->
    q_step short q (Enqueue src) (Count (q_write q' - q_write q)) q'
| q_ooo_in_order src w q' :
    0 <= w <= Z.min (vlen src) (q_free q) -> (short = false -> w = Z.min (vlen src) (q_free q)) -> q' = q_put q (take (Z.to_nat w) src) ->
    q_step short q (EnqueueOoo 0 src) (Ooo (ooo_result w (q_write q' - q_write q - w) None 0)) q'
| q_ooo offset src r :
    0 < offset -> offset + vlen src <= q_free q -> accepted r = vlen src -> delivered r = 0 -> q_newest q offset src r ->
    q_step short q (EnqueueOoo offset src) (Ooo r) (q_put_at q offset src)
| q_ooo_full offset src :
    0 < offset -> q_free q < offset + vlen src ->
    q_step short q (EnqueueOoo offset src) (Failed (OutOfOrderCapacityExceeded (wrap 32 (offset + vlen src)) (q_free q))) q
| q_ooo_exhausted offset src : 0 < offset -> short = true -> q_step short q (EnqueueOoo offset src) (Failed SegmentExhausted) q
| q_ooo_long offset src : u32_max < vlen src -> q_step short q (EnqueueOoo offset src) (Failed (OutOfOrderLengthOutOfRange (vlen src))) q
| q_segments segments :
    vlen (concat segments) <= q_free q ->
    q_step short q (EnqueueSegments segments) (Count (vlen (concat segments))) (q_put q (concat segments))
| q_segments_full segments :
    q_free q < vlen (concat segments) ->
    q_step short q (EnqueueSegments segments) (Failed (InsufficientCapacity (vlen (concat segments)) (q_free q))) q
| q_segments_exhausted segments : short = true -> q_step short q (EnqueueSegments segments) (Failed SegmentExhausted) q
| q_peeked offset len dst n :
    n = Z.max 0 (Z.min (Z.min len (vlen dst)) (q_len q - offset)) ->
    q_step short q (Peek offset len dst) (Data (q_peek q offset (Z.to_nat n) ++ drop (Z.to_nat n) dst) n) q
| q_dequeued len dst n :
    n = Z.min (Z.min len (vlen dst)) (q_len q) ->
    q_step short q (Dequeue len dst) (Data (q_peek q 0 (Z.to_nat n) ++ drop (Z.to_nat n) dst) n) (q_drop q n)
| q_dropped len n : n = Z.min len (q_len q) -> q_step short q (DropDequeue len) (Count n) (q_drop q n)
| q_max_dequeue : q_step short q MaxDequeue (Count (q_len q)) q
| q_max_enqueue : q_step short q MaxEnqueue (Count (q_free q)) q.

(** Arguments as the callers' types have them. *)
Definition op_ok (op : fifo_op) : bool :=
  match op with
  | EnqueueOoo offset _ => (0 <=? offset) && (offset <=? u32_max)
  | Peek offset len _ => (0 <=? offset) && (0 <=? len)
  | Dequeue len _ => 0 <=? len
  | DropDequeue len => 0 <=? len
  | _ => true
  end.

(** ** The queue of a FIFO *)

Implicit Types (g : segment) (fr : frees) (f : Fifo) (v : view) (B : Z -> Z) (q : queue).

Record qrep q v B : Prop := {
  qr_read : q_read q = vh v;
  qr_write : q_write q = vt v;
  qr_cap : q_cap q = vsize v;
  qr_bytes y b : q_bytes q !! y = Some b <-> live v y /\ b = B y
}.

Lemma qrep_live q v B y : qrep q v B -> live v y <-> is_Some (q_bytes q !! y).
Proof. intros Q. split; [intros H; exists (B y); by apply (qr_bytes _ _ _ Q)|]. intros [b Hb]. by apply (qr_bytes _ _ _ Q) in Hb as [? _]. Qed.

Lemma q_free_eq q v B : qrep q v B -> q_free q = vsize v - (vt v - vh v).
Proof. intros [E1 E2 E3 _]. unfold q_free, q_len. lia. Qed.
Lemma q_len_eq q v B : qrep q v B -> q_len q = vt v - vh v.
Proof. intros [E1 E2 E3 _]. unfold q_len. lia. Qed.

Lemma store_lookup m a l y : store_list m a l !! y = if decide (a <= y < a + vlen l) then l !! Z.to_nat (y - a) else m !! y.
Proof.
  revert m a. induction l as [|b l IH]; intros m a; cbn [store_list]; [rewrite decide_False; [done|]; unfold vlen; cbn; lia|]. rewrite IH.
  assert (vlen (b :: l) = vlen l + 1) as -> by (unfold vlen; cbn; lia). pose proof (vlen_nonneg l). destruct (decide (y = a)) as [->|Hne].
  - rewrite decide_False, decide_True by lia. by rewrite lookup_insert_eq, Z.sub_diag.
  - destruct (decide (a + 1 <= y < a + 1 + vlen l)).
    + rewrite decide_True by lia. replace (Z.to_nat (y - a)) with (S (Z.to_nat (y - (a + 1)))) by lia. done.
    + rewrite decide_False by lia. by rewrite lookup_insert_ne.
Qed.

(** The bytes after a write at [x]. *)
Lemma store_over q v B x l y b :
  qrep q v B -> store_list (q_bytes q) x l !! y = Some b <-> (live v y \/ x <= y < x + vlen l) /\ b = over B x l y.
Proof.
  intros Q. rewrite store_lookup. unfold over. destruct (decide (x <= y < x + vlen l)) as [Hin|Hout].
  - destruct (l !! Z.to_nat (y - x)) as [b'|] eqn:E; [|apply lookup_ge_None in E; unfold vlen in *; lia]. cbn. split; [intros [= ->]; tauto|intros [_ ->]; done].
  - rewrite (qr_bytes _ _ _ Q). tauto.
Qed.

Lemma size_interval (m : gmap Z Z) x n : (forall y, x <= y < x + Z.of_nat n -> is_Some (m !! y)) -> (n <= base.size m)%nat.
Proof.
  intros H. rewrite <- (length_zseq x n), <- size_dom. change (base.size (dom m)) with (length (elements (dom m))). apply submseteq_length, NoDup_submseteq; [apply zseq_NoDup|].
  intros y Hy%elem_of_zseq. apply elem_of_elements, elem_of_dom. by apply H.
Qed.

Lemma gap_spec n m x t : (forall y, x <= y < t -> is_Some (m !! y)) -> m !! t = None -> x <= t -> (Z.to_nat (t - x) < n)%nat -> gap n m x = t.
Proof.
  revert x. induction n as [|n IH]; intros x H Ht Hx Hn; [lia|]. cbn [gap]. destruct (decide (x = t)) as [->|Hne]; [by rewrite Ht|].
  destruct (H x ltac:(lia)) as [b ->]. apply IH; [intros y Hy; apply H; lia|done|lia|lia].
Qed.

Lemma peek_bytes q v B offset n : qrep q v B -> 0 <= offset -> offset + Z.of_nat n <= vt v - vh v -> q_peek q offset n = bytes_of B (vh v + offset) (Z.of_nat n).
Proof.
  intros Q Ho Hn. unfold q_peek, bytes_of. rewrite Nat2Z.id, (qr_read _ _ _ Q). apply load_list_bytes. intros i Hi. unfold load.
  assert (q_bytes q !! (vh v + offset + i) = Some (B (vh v + offset + i))) as ->; [|done]. apply (qr_bytes _ _ _ Q). split; [left; lia|done].
Qed.

(** *** Writes *)

Lemma covered_ahead v y : positions v -> covered (vooo v) y -> vt v < y.
Proof. intros P (r & (n & -> & Hn)%list_elem_of_fmap & Hr). pose proof (ps_ahead _ P n Hn). cbn in Hr. lia. Qed.

Lemma qrep_put off g fr v B src w g' fr' f' v' q f hd :
  fifo_mid g fr f v hd -> qrep q v B -> enqueued off g fr v B src w g' fr' f' v' -> 0 <= w <= vlen src ->
  qrep (q_put q (take (Z.to_nat w) src)) v' (over B (vt v) (take (Z.to_nat w) src)).
Proof.
  intros HM Q [E1 E2 E3 E4 _ _ _ _] Hw. set (l := take _ _). assert (vlen l = w) as El by (apply vlen_take; lia). pose proof (fk_pos _ _ _ _ _ HM) as P.
  destruct (promote_spec (vooo v) (vt v + w) (oo_ordered _ _ _ (fk_ooo _ _ _ _ _ HM))) as (A1 & A2 & _ & _ & A5 & A6 & _).
  { intros n Hn. pose proof (inside_elem _ _ n (oo_inside _ _ _ (fk_ooo _ _ _ _ _ HM)) Hn). lia. }
  assert (forall y, live v' y <-> live v y \/ vt v <= y < vt v + w) as Hlive.
  { intros y. unfold live. rewrite E1, E3, E4, A6. pose proof (ps_used _ P). split.
    - intros [Hy|[Hy _]]; [|left; by right]. destruct (decide (y < vt v)); [left; left; lia|]. destruct (decide (y < vt v + w)); [right; lia|left; right; apply A5; lia].
    - intros [[Hy|Hy]|Hy]; [left; lia| |left; lia]. pose proof (covered_ahead v y P Hy). destruct (decide (y < snd (promote (vooo v) (vt v + w)))); [left; lia|right; split; [done|lia]]. }
  assert (forall y b, store_list (q_bytes q) (q_write q) l !! y = Some b <-> live v' y /\ b = over B (vt v) l y) as Hb.
  { intros y b. rewrite (qr_write _ _ _ Q), (store_over q v B), Hlive, El by done. done. }
  assert (forall y, is_Some (store_list (q_bytes q) (q_write q) l !! y) <-> live v' y) as Hsome.
  { intros y. split; [by intros [b [? _]%Hb]|]. intros Hy. exists (over B (vt v) l y). by apply Hb. }
  assert (~ live v' (vt v')) as Hno.
  { intros [Hy|(r & (n & -> & Hn)%list_elem_of_fmap & Hr)]; [lia|]. rewrite E4 in Hn. specialize (A2 n Hn). rewrite E3 in Hr. cbn in Hr. lia. }
  unfold q_put. set (m := store_list _ _ _) in *. assert (forall y, vt v + w <= y < vt v' -> is_Some (m !! y)) as Hr.
  { intros y Hy. apply Hsome. left. pose proof (ps_used _ P). rewrite E1. lia. }
  constructor; cbn [q_read q_write q_cap q_bytes]; [rewrite E1; apply (qr_read _ _ _ Q)| |rewrite E2; apply (qr_cap _ _ _ Q)|done].
  rewrite (qr_write _ _ _ Q), El. rewrite E3 in Hr |- *. apply gap_spec; [done| |lia|].
  - rewrite <- E3. destruct (m !! vt v') eqn:E; [|done]. destruct Hno. apply Hsome. by eexists.
  - apply Nat.lt_succ_r, (size_interval m (vt v + w)). intros y Hy. apply Hr. lia.
Qed.

Lemma qrep_put_at off g fr v B offset src g' fr' f' v' q :
  qrep q v B -> ooo_written off g fr v B (vt v + offset) src g' fr' f' v' -> qrep (q_put_at q offset src) v' (over B (vt v + offset) src).
Proof.
  intros Q [E1 E2 E3 _ E5 _ _ _]. constructor; cbn; [rewrite E1; apply (qr_read _ _ _ Q)|rewrite E2; apply (qr_write _ _ _ Q)|rewrite E3; apply (qr_cap _ _ _ Q)|].
  intros y b. rewrite (qr_write _ _ _ Q), (store_over q v B) by done. unfold live. rewrite E1, E2, E5. tauto.
Qed.

Lemma qrep_drop off g fr v B k g' fr' f' v' q f hd :
  fifo_mid g fr f v hd -> qrep q v B -> dropped off g fr v B k g' fr' f' v' -> 0 <= k <= vt v - vh v -> qrep (q_drop q k) v' B.
Proof.
  intros HM Q [E1 E2 E3 E4 _ _ _ _] Hk. constructor; cbn; rewrite ?E1, ?E2, ?E3; [pose proof (qr_read _ _ _ Q); lia|apply (qr_write _ _ _ Q)|apply (qr_cap _ _ _ Q)|].
  intros y b. rewrite map_lookup_filter_Some, (qr_bytes _ _ _ Q), (qr_read _ _ _ Q). cbn. unfold live. rewrite E1, E2, E4.
  pose proof (covered_ahead v y (fk_pos _ _ _ _ _ HM)) as Hc. split; [intros [[[Hy|Hy] ->] Hr]; split; [left; lia|done|by right|done]|].
  intros [[Hy|Hy] ->]; [split; [split; [left; lia|done]|lia]|]. specialize (Hc Hy). split; [split; [by right|done]|lia].
Qed.

Lemma qrep_steady q v v' B : qrep q v B -> steady v v' -> qrep q v' B.
Proof. intros [Q1 Q2 Q3 Q4] [S1 S2 S3 S4 _]. constructor; try congruence. intros y b. rewrite Q4. unfold live. by rewrite S1, S2, S4. Qed.

(** *** Operations *)

Lemma newest_ok off g fr v B offset src g' fr' f' v' q r :
  qrep q v B -> ooo_written off g fr v B (vt v + offset) src g' fr' f' v' ->
  (0 < vlen src -> exists newest, added (vt v) (vt v + offset) (vt v + offset + vlen src) (vooo v) (vooo v') newest /\
    res_start r = option_map fst newest /\ res_len r = match newest with Some (_, len) => len | None => 0 end) ->
  (vlen src = 0 -> res_start r = None) -> q_newest q offset src r.
Proof.
  intros Q W Hpos Hnone. unfold q_newest. pose proof (vlen_nonneg src). destruct (decide (vlen src = 0)) as [Ez|Hnz]; [rewrite (Hnone Ez); intros y Hy; lia|].
  destruct (Hpos ltac:(lia)) as ([[st len]|] & Ha & -> & ->); cbn [option_map fst].
  - destruct Ha as (n & Hn & -> & -> & H1 & H2). pose proof (ow_ok _ _ _ _ _ _ _ _ _ _ _ W) as [(h & HM & _) _]. pose proof (ps_ahead _ (fk_pos _ _ _ _ _ HM) n Hn) as Pa.
    pose proof (inside_elem _ _ n (oo_inside _ _ _ (fk_ooo _ _ _ _ _ HM)) Hn). pose proof (q_free_eq _ _ _ Q). rewrite (qr_write _ _ _ Q).
    pose proof (qrep_put_at _ _ _ _ _ _ _ _ _ _ _ _ Q W) as Q'. destruct W as [E1 E2 E3 _ _ _ _ _]. rewrite E1, E2, E3 in *. split_and!; [lia..|]. intros y Hy.
    apply (qrep_live _ _ _ _ Q'). right. exists (lo n, hi n). split; [apply list_elem_of_fmap; by exists n|cbn; lia].
  - cbn in Ha. rewrite (qr_write _ _ _ Q). intros y Hy. apply (qrep_live _ _ _ _ Q). right. apply Ha. lia.
Qed.

(** A FIFO is written either with ranges ahead of the tail or with scattered
    data. *)
Definition op_mode (ahead : bool) (op : fifo_op) : bool :=
  match op with
  | EnqueueOoo _ _ => ahead
  | EnqueueSegments _ => negb ahead
  | _ => true
  end.

Section Ops.
Context (avx2 short : bool).

(** Carrying a FIFO and its queue through one operation. *)
Record step_ok off g fr v q op g' fr' f' v' B' q' (out : fifo_out) : Prop := {
  so_step : q_step short q op out q';
  so_ok : fifo_ok g' fr' f' v' B';
  so_queue : qrep q' v' B';
  so_off : hdr_off f' = off;
  so_frame : frame off (offs (chain v)) (offs (chain v')) g fr g' fr';
  so_mode : vix v' = vix v;
  so_took : short = false -> took (op_cost op) g g'
}.

Lemma op_cost_nonneg op : op_ok op = true -> 0 <= op_cost op.
Proof.
  destruct op; cbn [op_cost op_ok]; try done; intros H; apply grow_cost_nonneg; try apply vlen_nonneg.
  apply andb_true_iff in H as [H%Z.leb_le _]. pose proof (vlen_nonneg src). lia.
Qed.

Lemma step_same g fr f v B q op out : fifo_ok g fr f v B -> qrep q v B -> op_ok op = true -> q_step short q op out q -> step_ok (hdr_off f) g fr v q op g fr f v B q out.
Proof. intros ? ? Hop ?. constructor; try done. intros _. eapply took_weaken, top_took; [by apply op_cost_nonneg|done]. Qed.

Lemma enqueue_step g fr f v B q src :
  fifo_ok g fr f v B -> qrep q v B -> (short = false -> room g (grow_cost (vlen src))) ->
  exists g' fr' f' v' B' q' w, enqueue_in_order avx2 g f src = Some (g', f', (w, q_write q' - q_write q - w)) /\
    q' = q_put q (take (Z.to_nat w) src) /\ 0 <= w <= Z.min (vlen src) (q_free q) /\ (short = false -> w = Z.min (vlen src) (q_free q)) /\ vt v <= q_write q' - w /\ q_write q' <= vt v + vsize v + vlen src /\
    forall op out, q_step short q op out q' -> op_cost op = grow_cost (vlen src) -> step_ok (hdr_off f) g fr v q op g' fr' f' v' B' q' out.
Proof.
  intros Hok Q Hroom. destruct (enqueue_in_order_spec avx2 g fr f v B src Hok) as (g' & f' & fr' & v' & w & E & H & Hw & _ & Hr). pose proof Hok as [(hd & HM & _) _].
  pose proof (qrep_put _ _ _ _ _ _ _ _ _ _ _ q _ _ HM Q H ltac:(lia)) as Q'. pose proof H as [E1 E2 E3 E4 E5 E6 E7 E8].
  eexists g', fr', f', v', _, (q_put q (take (Z.to_nat w) src)), w. rewrite (qr_write _ _ _ Q'), (qr_write _ _ _ Q), (q_free_eq _ _ _ Q).
  pose proof E6 as [(hd' & HM' & _) _]. pose proof (ps_used _ (fk_pos _ _ _ _ _ HM')) as Pu. pose proof (ps_used _ (fk_pos _ _ _ _ _ HM)) as Pu0.
  destruct (promote_spec (vooo v) (vt v + w) (oo_ordered _ _ _ (fk_ooo _ _ _ _ _ HM))) as (A1 & _).
  { intros n Hn. pose proof (inside_elem _ _ n (oo_inside _ _ _ (fk_ooo _ _ _ _ _ HM)) Hn). lia. }
  split; [rewrite E; do 3 f_equal; lia|]. split_and!; [done|lia|lia|by intros [? _]%Hroom%Hr|lia|lia|]. intros op out Hq Ec. constructor; try done. rewrite Ec. by intros [_ ?]%Hroom%Hr.
Qed.

Lemma ooo_step g fr f v B q offset src :
  fifo_ok g fr f v B -> qrep q v B -> vix v = true -> 0 <= offset <= u32_max -> (short = false -> room g (op_cost (EnqueueOoo offset src))) ->
  exists g' fr' f' v' B' q' out, run_op avx2 g f (EnqueueOoo offset src) = Some (g', f', out) /\ step_ok (hdr_off f) g fr v q (EnqueueOoo offset src) g' fr' f' v' B' q' out.
Proof.
  intros Hok Q Hix Hoff Hroom. cbn [run_op op_cost] in *. assert (op_ok (EnqueueOoo offset src) = true) as Hop by (cbn; lia). destruct (decide (u32_max < vlen src)) as [Hlong|Hlen].
  { unfold enqueue_ooo. rewrite (proj2 (Z.ltb_lt _ _) Hlong). cbn [mbind option_bind]. eexists g, fr, f, v, B, q, _. split; [done|]. apply step_same; [done..|]. by constructor. }
  destruct (decide (offset = 0)) as [->|Hnz].
  - unfold enqueue_ooo. rewrite (proj2 (Z.ltb_ge u32_max (vlen src))) by lia. rewrite Z.eqb_refl.
    destruct (enqueue_step g fr f v B q src Hok Q Hroom) as (g' & fr' & f' & v' & B' & q' & w & -> & Eq & Hw & Hall & Hlo & Hhi & Hstep). cbn [mbind option_bind].
    pose proof Hok as [(hd & HM & _) _]. pose proof (ps_size _ (fk_pos _ _ _ _ _ HM)). pose proof (qr_write _ _ _ Q). unfold u32_max in *.
    pose proof (q_free_eq _ _ _ Q). pose proof (ps_used _ (fk_pos _ _ _ _ _ HM)).
    assert (0 <= w < 2 ^ 32 /\ 0 <= q_write q' - q_write q - w < 2 ^ 32) as [B1 B2].
    { split; [lia|]. destruct (Hstep (Enqueue src) _ (q_enqueue short q src w q' Hw Hall Eq) eq_refl) as [_ Hok' Q' _ _ _ _]. pose proof Hok' as [(hd' & HM' & _) _].
      pose proof (ps_used _ (fk_pos _ _ _ _ _ HM')). pose proof (ps_size _ (fk_pos _ _ _ _ _ HM')). rewrite (qr_write _ _ _ Q') in *.
      pose proof (qr_cap _ _ _ Q') as C1. pose proof (qr_read _ _ _ Q') as C2. rewrite Eq in C1, C2. cbn in C1, C2. pose proof (qr_cap _ _ _ Q). pose proof (qr_read _ _ _ Q). lia. }
    rewrite (wrap_small 32 w), (wrap_small 32 (q_write q' - q_write q - w)) by (unfold in_word; lia).
    eexists g', fr', f', v', B', q', _. split; [done|]. apply Hstep; [|done]. by constructor.
  - destruct (enqueue_ooo_spec avx2 g fr f v B offset src Hok Hix ltac:(lia) ltac:(lia)) as (g' & f' & fr' & v' & r & -> & F & Hr & Hno). cbn [mbind option_bind]. destruct r as [r|er].
    + destruct Hr as (Hfit & W & Ha & Hd & Hnew & Hnone). eexists g', fr', f', v', _, (q_put_at q offset src), _. split; [done|]. pose proof W as [W1 W2 W3 W4 W5 W6 W7 W8].
      constructor; try done; [|by eapply qrep_put_at|by intros [_ ?]%Hroom%Hno]. constructor; try done; [lia|by rewrite (q_free_eq _ _ _ Q)|by eapply newest_ok].
    + rewrite <- (q_free_eq _ _ _ Q) in Hr. destruct er; try (destruct Hr as (Hr & _); discriminate Hr).
      * destruct Hr as (_ & -> & -> & _ & Hok'). eexists g', fr', f, v, B, q, _. split; [done|]. constructor; try done; [|by intros [_ ?]%Hroom%Hno]. constructor; [lia|]. destruct short; [done|by destruct (Hno (Hroom eq_refl))].
      * destruct Hr as (-> & -> & -> & -> & -> & Hlt & ->). eexists g, fr, f, v, B, q, _. split; [done|]. apply step_same; [done..|]. constructor; lia.
Qed.

Lemma segments_step g fr f v B q segments :
  fifo_ok g fr f v B -> qrep q v B -> vix v = false -> (short = false -> room g (op_cost (EnqueueSegments segments))) ->
  exists g' fr' f' v' B' q' out, run_op avx2 g f (EnqueueSegments segments) = Some (g', f', out) /\ step_ok (hdr_off f) g fr v q (EnqueueSegments segments) g' fr' f' v' B' q' out.
Proof.
  intros Hok Q Hix Hroom. cbn [run_op op_cost] in *. destruct (enqueue_segments_spec avx2 g fr f v B _ segments Hok Hix eq_refl) as (g' & f' & fr' & v' & r & -> & Hr & Hno). cbn [mbind option_bind].
  pose proof Hok as [(hd & HM & _) _]. pose proof (vlen_nonneg (concat segments)) as Hn. rewrite <- (q_free_eq _ _ _ Q) in Hr. destruct r as [n|er].
  - destruct Hr as (-> & Hfit & H). pose proof (qrep_put _ _ _ _ _ _ _ _ _ _ _ q _ _ HM Q H ltac:(lia)) as Q'. destruct H as [E1 E2 E3 E4 E5 E6 E7 E8].
    eexists g', fr', f', v', _, _, _. split; [done|]. assert (take (Z.to_nat (vlen (concat segments))) (concat segments) = concat segments) as Et by (unfold vlen; by rewrite Nat2Z.id, firstn_all).
    rewrite Et in *. constructor; try done; [by constructor|by intros [_ ?]%Hroom%Hno].
  - destruct er; try (destruct Hr as (Hr & _); discriminate Hr).
    + destruct Hr as (_ & -> & S & Hok' & F & _). eexists g', fr', f, v', B, q, _. split; [done|]. constructor; try done; [constructor|by eapply qrep_steady|apply (st_ix _ _ S)|by intros [_ ?]%Hroom%Hno].
      destruct short; [done|by destruct (Hno (Hroom eq_refl))].
    + destruct Hr as (-> & -> & -> & -> & -> & -> & Hlt). eexists g, fr, f, v, B, q, _. split; [done|]. apply step_same; [done..|]. by constructor.
Qed.

(** Every operation of a FIFO is a step of its queue. *)
Lemma op_step g fr f v B q op :
  fifo_ok g fr f v B -> qrep q v B -> op_ok op = true -> op_mode (vix v) op = true -> (short = false -> room g (op_cost op)) ->
  exists g' fr' f' v' B' q' out, run_op avx2 g f op = Some (g', f', out) /\ step_ok (hdr_off f) g fr v q op g' fr' f' v' B' q' out.
Proof.
  intros Hok Q Ha Hm Hroom. pose proof Ha as Hop. pose proof Hok as [(hd & HM & _) _]. pose proof (ps_used _ (fk_pos _ _ _ _ _ HM)) as Pu. destruct op; cbn [run_op op_ok op_mode] in *.
  - unfold enqueue. destruct (enqueue_step g fr f v B q src Hok Q Hroom) as (g' & fr' & f' & v' & B' & q' & w & -> & Eq & Hw & Hall & _ & _ & Hstep). cbn [mbind option_bind].
    eexists g', fr', f', v', B', q', _. split; [done|]. replace (w + (q_write q' - q_write q - w)) with (q_write q' - q_write q) by lia. apply Hstep; [|done]. by econstructor.
  - apply andb_true_iff in Ha as [Ha1%Z.leb_le Ha2%Z.leb_le]. by eapply ooo_step.
  - apply negb_true_iff in Hm. by eapply segments_step.
  - apply andb_true_iff in Ha as [Ha1%Z.leb_le Ha2%Z.leb_le]. rewrite (peek_spec avx2 g fr f v B offset len dst Hok Ha1 Ha2). cbn [mbind option_bind].
    eexists g, fr, f, v, B, q, _. split; [done|]. apply step_same; [done..|]. set (n := Z.max 0 _).
    assert (bytes_of B (vh v + offset) n = q_peek q offset (Z.to_nat n)) as ->.
    { destruct (decide (n = 0)) as [E|Hn]; [by rewrite E|]. rewrite (peek_bytes q v B) by (done || lia). f_equal. lia. }
    constructor. rewrite (q_len_eq _ _ _ Q). done.
  - apply Z.leb_le in Ha. destruct (dequeue_spec avx2 g fr f v B len dst Hok Ha) as (g' & fr' & f' & v' & E & D). pose proof (dequeue_top _ _ _ _ _ _ _ _ E) as Ht%top_took. rewrite E. cbn [mbind option_bind]. pose proof (vlen_nonneg dst) as Hdst. set (n := Z.min (Z.min len (vlen dst)) (vt v - vh v)) in *.
    pose proof (qrep_drop _ _ _ _ _ _ _ _ _ _ q _ _ HM Q D ltac:(lia)) as Q'. destruct D as [D1 D2 D3 D4 D5 D6 D7 D8]. eexists g', fr', f', v', B, _, _. split; [done|]. constructor; try done.
    replace (bytes_of B (vh v) n) with (q_peek q 0 (Z.to_nat n)) by (rewrite (peek_bytes q v B) by (done || lia); f_equal; lia). constructor. rewrite (q_len_eq _ _ _ Q). lia.
  - apply Z.leb_le in Ha. destruct (drop_dequeue_spec g fr f v B len Hok Ha) as (g' & fr' & f' & v' & E & D). pose proof (drop_top _ _ _ _ _ _ E) as Ht%top_took. rewrite E. cbn [mbind option_bind]. set (n := Z.min len (vt v - vh v)) in *.
    pose proof (qrep_drop _ _ _ _ _ _ _ _ _ _ q _ _ HM Q D ltac:(lia)) as Q'. destruct D as [D1 D2 D3 D4 D5 D6 D7 D8]. eexists g', fr', f', v', B, _, _. split; [done|]. constructor; try done.
    constructor. rewrite (q_len_eq _ _ _ Q). lia.
  - rewrite (max_dequeue_spec _ _ _ _ _ Hok). cbn [mbind option_bind]. eexists g, fr, f, v, B, q, _. split; [done|]. apply step_same; [done..|]. rewrite <- (q_len_eq _ _ _ Q). constructor.
  - rewrite (max_enqueue_spec _ _ _ _ _ Hok). cbn [mbind option_bind]. eexists g, fr, f, v, B, q, _. split; [done|]. apply step_same; [done..|]. rewrite <- (q_free_eq _ _ _ Q). constructor.
Qed.
End Ops.

End SvmQueues.
