(* ===== verification/SvmFamily.v ===== *)
(** * A segment as a family of independent byte queues

    The FIFOs a process makes in a segment share its memory: their chunks come
    from the same free lists and move from one FIFO to another as they are
    read.  Seen through the segment's interface they are queues that do not
    affect each other. *)

From S2P Require Import Prelude Ranges InfraBitmap InfraPool InfraRbTree InfraRbOps InfraRbMap.
From S2P Require Import SvmOoo SvmOooProofs SvmMemory SvmMemoryProofs SvmFifo SvmBudget SvmChain SvmGrow SvmFifoInv SvmFifoOps SvmFifoRead SvmSegment SvmSegmentProofs.
From S2P Require Import SvmLifeBudget SvmFifoLife SvmQueues.

Module SvmFamily.
Import Ranges SvmOoo SvmOooProofs SvmMemory SvmMemoryProofs SvmFifo SvmBudget SvmChain SvmGrow SvmFifoInv SvmFifoOps SvmFifoRead SvmSegment SvmSegmentProofs SvmLifeBudget SvmFifoLife SvmQueues.

(** ** Using a segment *)

Inductive action : Type :=
| Allocate (slice capacity : Z) (ftype : FifoSegmentFtype)
| Free (slice index : Z)
| Use (slice index : Z) (op : fifo_op).

Inductive answer : Type :=
| Allocated (index : Z)
| Freed
| Used (out : fifo_out)
| Refused (e : FifoSegmentError)
| NoFifo.

(** [fifo_mut] and a call of the FIFO it returns. *)
Definition use_fifo (avx2 : bool) (s : SvmFifoSegment) (slice index : Z) (op : fifo_op) : option (SvmFifoSegment * answer) :=
  f ← fifo s slice index;
  match f with
  | None => Some (s, NoFifo)
  | Some f =>
    '(g, f, out) ← run_op avx2 (seg s) f op;
    '(s, _) ← with_private (set_seg g s) slice (fun p => '(pool, b) ← Pool.get_mut (fifos p) index (fun _ => f); Some (set_fifos pool p, b));
    Some (s, Used out)
  end.

Definition run_action (avx2 : bool) (s : SvmFifoSegment) (a : action) : option (SvmFifoSegment * answer) :=
  match a with
  | Allocate slice capacity ftype => '(s, r) ← allocate_fifo s slice capacity ftype; Some (s, match r with inl i => Allocated i | inr e => Refused e end)
  | Free slice index => '(s, r) ← free_server_fifo s slice index; Some (s, match r with inl _ => Freed | inr e => Refused e end)
  | Use slice index op => use_fifo avx2 s slice index op
  end.

Fixpoint run_actions (avx2 : bool) (s : SvmFifoSegment) (l : list action) : option (SvmFifoSegment * list answer) :=
  match l with
  | [] => Some (s, [])
  | a :: l' => '(s, r) ← run_action avx2 s a; '(s, rs) ← run_actions avx2 s l'; Some (s, r :: rs)
  end.

(** ** A family of queues *)

Notation "'family'" := (gmap (Z * Z) queue).

(** The most an action takes of the segment. *)
Definition action_cost (a : action) : Z :=
  match a with
  | Allocate _ capacity _ => fifo_cost capacity
  | Free _ _ => 0
  | Use _ _ op => op_cost op
  end.
Definition actions_cost (l : list action) : Z := foldr (fun a n => action_cost a + n) 0 l.

(** Only when memory runs [short], a FIFO may be refused. *)
Inductive f_step (short : bool) (Q : family) : action -> answer -> family -> Prop :=
| f_allocate slice capacity ftype index :
    Q !! (slice, index) = None -> f_step short Q (Allocate slice capacity ftype) (Allocated index) (<[(slice, index) := q_new capacity]> Q)
| f_exhausted slice capacity ftype : short = true -> f_step short Q (Allocate slice capacity ftype) (Refused (FifoFailed SegmentExhausted)) Q
| f_free slice index : is_Some (Q !! (slice, index)) -> f_step short Q (Free slice index) Freed (delete (slice, index) Q)
| f_free_none slice index : Q !! (slice, index) = None -> f_step short Q (Free slice index) (Refused (InvalidFifo index)) Q
| f_use slice index op q out q' :
    Q !! (slice, index) = Some q -> q_step short q op out q' -> f_step short Q (Use slice index op) (Used out) (<[(slice, index) := q']> Q)
| f_use_none slice index op : Q !! (slice, index) = None -> f_step short Q (Use slice index op) NoFifo Q.

Inductive f_run (short : bool) (Q : family) : list action -> list answer -> family -> Prop :=
| f_done : f_run short Q [] [] Q
| f_next a r Q1 l rs Q' : f_step short Q a r Q1 -> f_run short Q1 l rs Q' -> f_run short Q (a :: l) (r :: rs) Q'.

(** Actions whose arguments are in range; [ahead] says which of the two ways of
    writing past the tail is used. *)
Definition action_ok (ahead : bool) (s : SvmFifoSegment) (a : action) : bool :=
  match a with
  | Allocate slice capacity ftype =>
    (0 <=? slice) && (slice <? n_slices s) && (4096 <=? capacity) && (capacity <=? Z.min (max_capacity s) (2 ^ 31 - 2 ^ 24)) &&
    match ftype with FtypeNone => false | _ => true end
  | Free slice index => (0 <=? slice) && (slice <? n_slices s) && (0 <=? index)
  | Use slice index op => (0 <=? slice) && (slice <? n_slices s) && (0 <=? index) && op_ok op && op_mode ahead op
  end.

(** ** Representation *)

Implicit Types (g : segment) (fr : frees) (hf : hfrees) (s : SvmFifoSegment) (f : Fifo) (v : view) (B : Z -> Z) (q : queue) (Q : family).

Record entry : Type := mk_entry { e_fifo : Fifo; e_view : view; e_bytes : Z -> Z }.
Definition e_off (e : entry) : Z := hdr_off (e_fifo e).
Definition e_chunks (e : entry) : list Z := offs (chain (e_view e)).
Implicit Types (e : entry) (W : gmap (Z * Z) entry).

Record world s fr hf (ahead : bool) W Q : Prop := {
  wd_inv : seg_inv s fr hf;
  wd_private : vlen (slices_ s) = n_slices s;
  wd_pool i p : vget (slices_ s) i = Some p ->
    Pool.max_elts (fifos p) = None /\ exists pm, Pool.represents (fifos p) pm /\ forall k, pm !! k = e_fifo <$> W !! (i, k);
  wd_keys i k e : W !! (i, k) = Some e -> 0 <= i < n_slices s;
  wd_ok k e : W !! k = Some e -> fifo_ok (seg s) fr (e_fifo e) (e_view e) (e_bytes e) /\ (forall i, e_off e ∉ hf i) /\ vix (e_view e) = ahead;
  wd_queue k : match W !! k, Q !! k with Some e, Some q => qrep q (e_view e) (e_bytes e) | None, None => True | _, _ => False end;
  wd_apart k k' e e' : W !! k = Some e -> W !! k' = Some e' -> k <> k' -> e_off e <> e_off e' /\ forall o, o ∈ e_chunks e -> o ∉ e_chunks e';
  wd_chunks o : is_Some (chunks (seg s) !! o) -> is_free fr o \/ exists k e, W !! k = Some e /\ o ∈ e_chunks e;
  wd_headers o : is_Some (headers (seg s) !! o) -> (exists i, o ∈ hf i) \/ exists k e, W !! k = Some e /\ o = e_off e;
  wd_active : n_active_fifos (seg s) = Z.of_nat (base.size W)
}.

(** ** Other FIFOs *)

Lemma fifo_ok_other g fr f v B g' fr' off own own' :
  fifo_ok g fr f v B -> seg_ok g' fr' -> apart off own own' g fr g' fr' -> hdr_off f <> off -> (forall o, o ∈ offs (chain v) -> o ∉ own) ->
  fifo_ok g' fr' f v B /\ (forall o, o ∈ offs (chain v) -> o ∉ own').
Proof.
  intros [(hd & [M1 M2 [K1 K2 K3 K4 K5 K6 K7] M4 M5 M6 M7] & Htc) HB] Hok A Hne Hdis.
  destruct (chain_ok_apart _ _ _ _ _ _ _ _ _ _ M1 Hok A) as (C1 & C2 & C3); [intros c Hc; apply Hdis, list_elem_of_fmap; by exists c|]. split.
  - constructor; [|by apply C3]. exists hd. split; [|done]. constructor; try done; [by unfold hdr_at; rewrite (fm_headers _ _ _ _ _ _ _ A)|].
    constructor; try done. by rewrite (fm_slices _ _ _ _ _ _ _ A).
  - intros o (c & -> & Hc)%list_elem_of_fmap. by apply C2.
Qed.

(** The chunks of a live FIFO are known. *)
Lemma chain_known g fr f v B o : fifo_ok g fr f v B -> o ∈ offs (chain v) -> is_Some (chunks g !! o) /\ ~ is_free fr o.
Proof.
  intros [(hd & HM & _) _] (c & -> & Hc)%list_elem_of_fmap. destruct (chain_elem _ _ _ _ _ (fk_chain _ _ _ _ _ HM) c Hc) as (ch & Hch & _).
  split; [by eexists|by apply (ch_own _ _ _ _ _ (fk_chain _ _ _ _ _ HM))].
Qed.
Lemma header_known g fr f v B : fifo_ok g fr f v B -> is_Some (headers g !! hdr_off f).
Proof. intros [(hd & HM & _) _]. exists hd. apply (fk_at _ _ _ _ _ HM). Qed.

(** ** How many FIFOs there can be *)

Lemma bounded_size {K V : Type} `{Countable K} (m : gmap K V) (p : V -> Z) :
  (forall k x, m !! k = Some x -> 0 < p x < 2 ^ 32) -> (forall k k' x x', m !! k = Some x -> m !! k' = Some x' -> p x = p x' -> k = k') -> Z.of_nat (base.size m) < 2 ^ 32.
Proof.
  intros Hb Hi. set (l := (fun kx => p kx.2) <$> map_to_list m). assert (NoDup l) as Hnd.
  { apply NoDup_fmap_2_strong; [|apply NoDup_map_to_list]. intros [k x] [k' x'] Hk%elem_of_map_to_list Hk'%elem_of_map_to_list E. cbn in E.
    assert (k = k') as <- by (by eapply Hi). congruence. }
  assert (forall n : nat, Z.of_nat n = 2 ^ 32 - 1 -> (length l <= n)%nat) as Hlen.
  { intros n Hn. rewrite <- (length_zseq 1 n). apply submseteq_length, NoDup_submseteq; [done|]. intros y ([k x] & -> & Hk%elem_of_map_to_list)%list_elem_of_fmap.
    apply elem_of_zseq. specialize (Hb k x Hk). cbn. lia. }
  specialize (Hlen (Z.to_nat (2 ^ 32 - 1)) ltac:(rewrite Z2Nat.id; lia)). unfold l in Hlen. rewrite length_fmap, length_map_to_list in Hlen. lia.
Qed.

Lemma header_range s fr hf ahead W Q k e : world s fr hf ahead W Q -> W !! k = Some e -> 0 < e_off e < 2 ^ 32.
Proof.
  intros H He. destruct (wd_ok _ _ _ _ _ _ H k e He) as (Hok & _). destruct (header_known _ _ _ _ _ Hok) as [x Hx]. pose proof (wd_inv _ _ _ _ _ _ H) as I.
  pose proof (hd_at _ _ (si_hdrs _ _ _ I) _ x Hx). pose proof (sk_index _ _ (si_seg _ _ _ I)). pose proof (sk_max _ _ (si_seg _ _ _ I)). unfold e_off, FIFO_HEADER_SIZE in *. lia.
Qed.

Lemma header_unique s fr hf ahead W Q k k' e e' : world s fr hf ahead W Q -> W !! k = Some e -> W !! k' = Some e' -> e_off e = e_off e' -> k = k'.
Proof. intros H He He' E. destruct (decide (k = k')) as [|Hne]; [done|]. by destruct (wd_apart _ _ _ _ _ _ H k k' e e' He He' Hne) as [? _]. Qed.

Lemma world_size s fr hf ahead W Q : world s fr hf ahead W Q -> Z.of_nat (base.size W) < 2 ^ 32.
Proof.
  intros H. apply (bounded_size W e_off); [intros k e He; by eapply header_range|intros k k' e e' He He' E; by eapply header_unique].
Qed.

Lemma world_can_insert s fr hf ahead W Q i p : world s fr hf ahead W Q -> vget (slices_ s) i = Some p -> Pool.can_insert (fifos p).
Proof.
  intros H Hp. destruct (wd_pool _ _ _ _ _ _ H i p Hp) as (Hm & pm & Hr & Hpm). destruct (Pool.free_indices (fifos p)) as [|j l] eqn:Ef; [|left; by rewrite Ef].
  right. split; [done|]. pose proof (Pool.pool_len_size _ _ Hr) as Hl. unfold Pool.len in Hl. rewrite Ef in Hl. unfold saturating_sub in Hl. change (vlen []) with 0 in Hl.
  pose proof (vlen_nonneg (Pool.vector (fifos p))). assert (Z.of_nat (base.size pm) < 2 ^ 32); [|lia].
  assert (forall k x, pm !! k = Some x -> exists e, W !! (i, k) = Some e /\ x = e_fifo e) as Hx.
  { intros k x. rewrite Hpm. destruct (W !! (i, k)) as [e|]; [|done]. intros [= <-]. by exists e. }
  apply (bounded_size pm hdr_off).
  - intros k x (e & He & ->)%Hx. by eapply header_range.
  - intros k k' x x' (e & He & ->)%Hx (e' & He' & ->)%Hx E. assert ((i, k) = (i, k')) as [= ->]; [|done]. by eapply header_unique.
Qed.

(** ** One entry changes *)

Definition chunks_of (o : option entry) : list Z := match o with Some e => e_chunks e | None => [] end.

Section Alter.
Context s fr hf ahead W Q (H : world s fr hf ahead W Q).
Context s' fr' hf' (k : Z * Z) (new : option entry) (qnew : option queue) (off : Z).
Let W' := partial_alter (fun _ => new) k W.
Let Q' := partial_alter (fun _ => qnew) k Q.

(** The segment changed for the FIFO at [k], whose header is at [off]. *)
Hypothesis HI : seg_inv s' fr' hf'.
Hypothesis HA : apart off (chunks_of (W !! k)) (chunks_of new) (seg s) fr (seg s') fr'.
Hypothesis Hold : forall e, W !! k = Some e -> e_off e = off.
Hypothesis Hoff : forall k' e, k' <> k -> W !! k' = Some e -> e_off e <> off.
Hypothesis Hnew : forall e, new = Some e -> fifo_ok (seg s') fr' (e_fifo e) (e_view e) (e_bytes e) /\ (forall i, e_off e ∉ hf' i) /\ vix (e_view e) = ahead /\ e_off e = off.
Hypothesis Hqueue : match new, qnew with Some e, Some q => qrep q (e_view e) (e_bytes e) | None, None => True | _, _ => False end.
Hypothesis Hhf : forall i y, y ∈ hf' i -> (exists j, y ∈ hf j) \/ y = off.
Hypothesis Hhf' : forall j y, y ∈ hf j -> y <> off -> exists i, y ∈ hf' i.
Hypothesis Hgone : new = None -> exists i, off ∈ hf' i.
(** The private part of the segment. *)
Hypothesis Hpriv : vlen (slices_ s') = vlen (slices_ s) /\ n_slices s' = n_slices s.
Hypothesis Hkey : 0 <= k.1 < n_slices s.
Hypothesis Hpools : forall i p, vget (slices_ s') i = Some p ->
  Pool.max_elts (fifos p) = None /\ exists pm, Pool.represents (fifos p) pm /\ forall j, pm !! j = e_fifo <$> W' !! (i, j).
Hypothesis Hactive : n_active_fifos (seg s') = Z.of_nat (base.size W').

Lemma other_entry k' e : k' <> k -> W !! k' = Some e ->
  fifo_ok (seg s') fr' (e_fifo e) (e_view e) (e_bytes e) /\ (forall o, o ∈ e_chunks e -> o ∉ chunks_of new).
Proof.
  intros Hne He. destruct (wd_ok _ _ _ _ _ _ H k' e He) as (Hok & _). apply (fifo_ok_other (seg s) fr _ _ _ _ _ off (chunks_of (W !! k))); try done.
  - apply (si_seg _ _ _ HI).
  - by apply (Hoff k').
  - intros o Ho. destruct (W !! k) as [e0|] eqn:E0; [|apply not_elem_of_nil]. by apply (wd_apart _ _ _ _ _ _ H k' k e e0 He E0 Hne).
Qed.

Lemma lookup_alter' k' e : W' !! k' = Some e -> (k' = k /\ new = Some e) \/ (k' <> k /\ W !! k' = Some e).
Proof. unfold W'. destruct (decide (k' = k)) as [->|Hne]; [rewrite lookup_partial_alter_eq; by left|rewrite lookup_partial_alter_ne by done; by right]. Qed.

Lemma world_alter : world s' fr' hf' ahead W' Q'.
Proof.
  assert (forall k' e, k' <> k -> W !! k' = Some e -> W' !! k' = Some e) as Hkeep by (intros k' e Hne He; unfold W'; by rewrite lookup_partial_alter_ne).
  constructor; try done.
  - destruct Hpriv as [-> ->]. apply (wd_private _ _ _ _ _ _ H).
  - intros i j e [[E _]|[_ He]]%lookup_alter'; [subst k; rewrite (proj2 Hpriv); apply Hkey|]. rewrite (proj2 Hpriv). by eapply (wd_keys _ _ _ _ _ _ H).
  - intros k' e [[-> E]|[Hne He]]%lookup_alter'; [destruct (Hnew e E) as (H1 & H2 & H3 & _); by split_and!|].
    destruct (other_entry k' e Hne He) as [Hok _]. destruct (wd_ok _ _ _ _ _ _ H k' e He) as (_ & Hf & Hm). split_and!; try done.
    intros i [[j Hj]| Ho]%Hhf; [by apply (Hf j)|by apply (Hoff k' e)].
  - intros k'. unfold W', Q'. destruct (decide (k' = k)) as [->|Hne]; [by rewrite !lookup_partial_alter_eq|]. rewrite !lookup_partial_alter_ne by done. apply (wd_queue _ _ _ _ _ _ H).
  - intros k1 k2 e1 e2 [[-> E1]|[N1 E1]]%lookup_alter' [[-> E2]|[N2 E2]]%lookup_alter' Hne; [done| | |].
    + destruct (Hnew e1 E1) as (_ & _ & _ & ->). split; [intros E; by apply (Hoff k2 e2)|]. destruct (other_entry k2 e2 N2 E2) as [_ Hd]. rewrite E1 in Hd.
      intros o Ho Ho2. by apply (Hd o).
    + destruct (Hnew e2 E2) as (_ & _ & _ & ->). split; [by apply (Hoff k1 e1)|]. destruct (other_entry k1 e1 N1 E1) as [_ Hd]. by rewrite E2 in Hd.
    + by apply (wd_apart _ _ _ _ _ _ H k1 k2).
  - intros o Ho. assert (o ∈ chunks_of new \/ is_free fr' o -> is_free fr' o \/ exists k' e, W' !! k' = Some e /\ o ∈ e_chunks e) as Hdone.
    { intros [Hin|?]; [right|by left]. destruct new as [e|] eqn:E; [|by apply not_elem_of_nil in Hin]. exists k, e. unfold W'. by rewrite lookup_partial_alter_eq. }
    destruct (chunks (seg s) !! o) as [ch|] eqn:Ech; [|apply Hdone, (fm_live _ _ _ _ _ _ _ HA o Ho); by right; right].
    destruct (wd_chunks _ _ _ _ _ _ H o ltac:(by eexists)) as [Hf|(k' & e & He & Hin)]; [apply Hdone, (fm_live _ _ _ _ _ _ _ HA o Ho); by right; left|].
    destruct (decide (k' = k)) as [->|Hne]; [|right; exists k', e; split; [by apply Hkeep|done]]. apply Hdone, (fm_live _ _ _ _ _ _ _ HA o Ho). left. by rewrite He.
  - intros o Ho. destruct (decide (o = off)) as [->|Hne].
    + destruct new as [e|] eqn:E; [|left; by apply Hgone]. right. exists k, e. unfold W'. rewrite lookup_partial_alter_eq. by destruct (Hnew e eq_refl) as (_ & _ & _ & ->).
    + rewrite (fm_headers _ _ _ _ _ _ _ HA) in Ho by done. destruct (wd_headers _ _ _ _ _ _ H o Ho) as [[j Hj]|(k' & e & He & ->)]; [left; by eapply Hhf'|].
      right. exists k', e. split; [|done]. apply Hkeep; [|done]. intros ->. by apply Hne, Hold.
Qed.
End Alter.


(** ** Pools *)

Lemma world_lookup s fr hf ahead W Q slice p index :
  world s fr hf ahead W Q -> vget (slices_ s) slice = Some p -> 0 <= index -> fifo s slice index = Some (e_fifo <$> W !! (slice, index)).
Proof.
  intros H Hp Hi. unfold fifo. rewrite Hp. destruct (wd_pool _ _ _ _ _ _ H slice p Hp) as (_ & pm & [Hwf Hs] & Hpm).
  rewrite Pool.pool_get_slot by done. by rewrite <- Hs, Hpm.
Qed.

Lemma world_slice s fr hf ahead W Q slice : world s fr hf ahead W Q -> 0 <= slice < n_slices s -> exists p, vget (slices_ s) slice = Some p.
Proof. intros H Hs. rewrite <- (wd_private _ _ _ _ _ _ H) in Hs. destruct (vget_in_range _ _ Hs) as [p Hp]. by exists p. Qed.

(** The pools after the one of a slice changed. *)
Lemma pools_alter s fr hf ahead W Q slice index new (ps : list FifoSlicePrivate) pool pm :
  world s fr hf ahead W Q -> (forall i p, vget ps i = Some p -> if decide (i = slice) then fifos p = pool else vget (slices_ s) i = Some p) ->
  Pool.max_elts pool = None -> Pool.represents pool pm -> (forall j, pm !! j = e_fifo <$> partial_alter (fun _ => new) (slice, index) W !! (slice, j)) ->
  forall i p, vget ps i = Some p -> Pool.max_elts (fifos p) = None /\ exists pm, Pool.represents (fifos p) pm /\ forall j, pm !! j = e_fifo <$> partial_alter (fun _ => new) (slice, index) W !! (i, j).
Proof.
  intros H Hps Hm Hr Hpm i p Hp. specialize (Hps i p Hp). case_decide as E; [subst; split; [done|by exists pm]|].
  destruct (wd_pool _ _ _ _ _ _ H i p Hps) as (H1 & pm0 & H2 & H3). split; [done|]. exists pm0. split; [done|]. intros j. rewrite lookup_partial_alter_ne; [done|congruence].
Qed.

Lemma pm_alter s fr hf ahead W Q slice index p (new : option entry) (pm pm' : gmap Z Fifo) :
  world s fr hf ahead W Q -> (forall k, pm !! k = e_fifo <$> W !! (slice, k)) -> vget (slices_ s) slice = Some p ->
  (forall j, pm' !! j = if decide (j = index) then e_fifo <$> new else pm !! j) -> forall j, pm' !! j = e_fifo <$> partial_alter (fun _ => new) (slice, index) W !! (slice, j).
Proof.
  intros H Hpm Hp Hpm' j. rewrite Hpm'. case_decide as E; [subst; by rewrite lookup_partial_alter_eq|]. rewrite lookup_partial_alter_ne by congruence. apply Hpm.
Qed.

Lemma with_private_spec {A : Type} s slice p p' (x : A) (u : FifoSlicePrivate -> option (FifoSlicePrivate * A)) :
  vget (slices_ s) slice = Some p -> u p = Some (p', x) ->
  exists ps, with_private s slice u = Some (set_slices_ ps s, x) /\ vlen ps = vlen (slices_ s) /\
    forall i p0, vget ps i = Some p0 -> if decide (i = slice) then p0 = p' else vget (slices_ s) i = Some p0.
Proof.
  intros Hp Hu. unfold with_private. rewrite Hp. cbn [mbind option_bind]. rewrite Hu. cbn [mbind option_bind].
  destruct (vset_total (slices_ s) slice p') as [ps Hps]; [by eapply vget_Some_bounds|]. rewrite Hps. cbn [mbind option_bind]. exists ps. split_and!; [done|by eapply vset_len|].
  intros i p0. rewrite (vget_vset _ _ _ i _ Hps). destruct (decide (i = slice)) as [->|Hne]; [rewrite decide_True by done; by intros [= <-]|by rewrite decide_False].
Qed.

Lemma seg_inv_private s fr hf ps : seg_inv s fr hf -> seg_inv (set_slices_ ps s) fr hf.
Proof. intros []. by constructor. Qed.

(** ** Using a FIFO *)

Section Actions.
Context (avx2 short : bool).

Lemma use_step s fr hf ahead W Q slice index op :
  world s fr hf ahead W Q -> 0 <= slice < n_slices s -> 0 <= index -> op_ok op = true -> op_mode ahead op = true -> (short = false -> room (seg s) (op_cost op)) ->
  exists s' fr' W' Q' r, use_fifo avx2 s slice index op = Some (s', r) /\ f_step short Q (Use slice index op) r Q' /\ world s' fr' hf ahead W' Q' /\
    n_slices s' = n_slices s /\ max_capacity s' = max_capacity s /\ (short = false -> took (op_cost op) (seg s) (seg s')).
Proof.
  intros H Hs Hi Ho Hm Hroom. destruct (world_slice _ _ _ _ _ _ slice H Hs) as [p Hp]. unfold use_fifo. rewrite (world_lookup _ _ _ _ _ _ slice p index H Hp Hi). cbn [mbind option_bind].
  pose proof (wd_queue _ _ _ _ _ _ H (slice, index)) as Hq. destruct (W !! (slice, index)) as [e|] eqn:He; cbn [fmap option_fmap option_map].
  2:{ destruct (Q !! (slice, index)) eqn:Eq; [done|]. exists s, fr, W, Q, NoFifo. split_and!; try done; [by constructor|]. intros _. eapply took_weaken, top_took; [by apply op_cost_nonneg|done]. }
  destruct (Q !! (slice, index)) as [q|] eqn:Eq; [|done]. destruct (wd_ok _ _ _ _ _ _ H _ e He) as (Hok & Hf & Hv).
  destruct (op_step avx2 short (seg s) fr (e_fifo e) (e_view e) (e_bytes e) q op Hok Hq Ho ltac:(by rewrite Hv) Hroom) as (g' & fr' & f' & v' & B' & q' & out & -> & [S1 S2 S3 S4 S5 S6 S7]). cbn [mbind option_bind].
  destruct (wd_pool _ _ _ _ _ _ H slice p Hp) as (Hmax & pm & Hr & Hpm). destruct (Pool.pool_get_mut_repr (fifos p) pm index (fun _ => f') Hr Hi) as (pool & Eg & Hr').
  destruct (Pool.get_mut_frame _ _ _ _ _ Eg) as (_ & Emax & _).
  destruct (with_private_spec (set_seg g' s) slice p (set_fifos pool p) (bool_decide (is_Some (pm !! index)))
    (fun p => '(pool, b) ← Pool.get_mut (fifos p) index (fun _ => f'); Some (set_fifos pool p, b)) Hp ltac:(cbn beta; by rewrite Eg)) as (ps & -> & Hlen & Hps). cbn [mbind option_bind].
  set (s' := set_slices_ ps (set_seg g' s)). pose proof S5 as [A Em]. injection Em as Ea Em. pose proof (header_known _ _ _ _ _ S2) as Hk'. rewrite S4 in Hk'.
  assert (seg_ok g' fr') as Hseg by (destruct S2 as [(hd & HM & _) _]; apply (ch_seg _ _ _ _ _ (fk_chain _ _ _ _ _ HM))).
  assert (base.size (<[(slice, index) := mk_entry f' v' B']> W) = base.size W) as Esz by (rewrite map_size_insert, He; done).
  exists s', fr', (<[(slice, index) := mk_entry f' v' B']> W), (<[(slice, index) := q']> Q), (Used out). split; [done|]. split; [by econstructor|]. split.
  - apply (world_alter s fr hf ahead W Q H s' fr' hf (slice, index) (Some (mk_entry f' v' B')) (Some q') (e_off e)); try done.
    + apply seg_inv_private. eapply seg_inv_frame; [apply (wd_inv _ _ _ _ _ _ H)|exact S5|done|by apply header_known in Hok|done|done].
    + cbn [chunks_of]. rewrite He. exact A.
    + intros e' He'. congruence.
    + intros k' e' Hne He'. intros E. apply Hne. by eapply header_unique.
    + intros e' [= <-]. unfold e_off. cbn. rewrite S4, S6. by split_and!.
    + intros i y Hy. left. by exists i.
    + intros j y Hy _. by exists j.
    + apply (pools_alter s fr hf ahead W Q slice index (Some (mk_entry f' v' B')) ps pool (alter (fun _ => f') index pm)); try done; [|congruence|].
      * intros i p0 Hp0. specialize (Hps i p0 Hp0). case_decide; [by subst|done].
      * eapply pm_alter; try done. intros j. case_decide as E; [subst; rewrite lookup_alter_eq, Hpm, He; done|by rewrite lookup_alter_ne].
    + cbn. rewrite Ea, (wd_active _ _ _ _ _ _ H). by rewrite <- Esz.
  - split; [done|]. unfold max_capacity. cbn. by rewrite (fm_log2 _ _ _ _ _ _ _ A).
Qed.

(** ** Making a FIFO *)

Definition with_ix (b : bool) v : view := mk_view (vh v) (vt v) (vsize v) (vpre v) (vtail v) (vpost v) (vooo v) (vs v) (ve v) b.

Lemma fifo_ok_ix g fr f v B b : fifo_ok g fr f v B -> (b = true -> vix v = true) -> fifo_ok g fr f (with_ix b v) B.
Proof.
  intros [(hd & [M1 M2 [K1 K2 K3 K4 K5 K6 K7] [P1 P2 P3 P4 P5] M5 (m & Hm & Hi) M7] & Htc) HB] Hb. constructor; [|done]. exists hd. split; [|done].
  constructor; try done. exists m. split; [done|]. intros E. apply Hi, Hb, E.
Qed.

Lemma qrep_new capacity c cs stop B b : qrep (q_new capacity) (with_ix b (fresh_view capacity c cs stop)) B.
Proof.
  constructor; try done. intros y x. cbn. rewrite lookup_empty. split; [done|]. intros [[Hy|(r & Hr & _)] _]; [cbn in Hy; lia|by apply not_elem_of_nil in Hr].
Qed.

(** Only the free lists changed: an allocation that was undone. *)
Lemma world_undone s fr hf ahead W Q s' fr' hf' off slice p :
  world s fr hf ahead W Q -> same_handle s s' -> undone s fr hf s' fr' hf' off -> vget (slices_ s) slice = Some p -> 0 <= slice < n_slices s -> world s' fr' hf' ahead W Q.
Proof.
  intros H Hh [U1 U2 U3 U4 U5] Hp Hs. destruct (wd_pool _ _ _ _ _ _ H slice p Hp) as (_ & pm & [_ Hsl] & Hpm).
  assert (W !! (slice, -1) = None) as Hnone by (specialize (Hpm (-1)); rewrite Hsl in Hpm; unfold Pool.slot in Hpm; cbn in Hpm; by destruct (W !! (slice, -1))).
  pose proof (wd_queue _ _ _ _ _ _ H (slice, -1)) as Hq. rewrite Hnone in Hq. assert (Q !! (slice, -1) = None) as HnQ by (by destruct (Q !! (slice, -1))).
  assert (forall k e, W !! k = Some e -> e_off e <> off) as Hne.
  { intros k e He <-. destruct (wd_ok _ _ _ _ _ _ H k e He) as (Hok & Hf & _). destruct U2 as [U2|[i Hi]]; [|by apply (Hf i)].
    destruct (header_known _ _ _ _ _ Hok) as [x Hx]. unfold e_off in U2. congruence. }
  rewrite <- (delete_id W (slice, -1) Hnone), <- (delete_id Q (slice, -1) HnQ).
  apply (world_alter s fr hf ahead W Q H s' fr' hf' (slice, -1) None None off); try done.
  - by rewrite Hnone.
  - intros e He. congruence.
  - intros k' e _ He. by apply (Hne k').
  - intros i y Hy. apply U3. by exists i.
  - intros j y Hy _. apply U3. left. by exists j.
  - intros _. apply U3. by right.
  - by rewrite (sh_private _ _ Hh), (sh_slices _ _ Hh).
  - rewrite (sh_private _ _ Hh). intros i p0 Hp0. change (partial_alter (fun _ => None) (slice, -1) W) with (delete (slice, -1) W). rewrite (delete_id W _ Hnone). by apply (wd_pool _ _ _ _ _ _ H).
  - change (partial_alter (fun _ => None) (slice, -1) W) with (delete (slice, -1) W). rewrite (delete_id W _ Hnone), U5. apply (wd_active _ _ _ _ _ _ H).
Qed.

Lemma world_limit s fr hf ahead W Q s' : world s fr hf ahead W Q -> same_handle s s' -> seg s' = seg s -> world s' fr hf ahead W Q.
Proof.
  intros [[I1 I2 I3 I4 I5 I6 I7] W2 W3 W4 W5 W6 W7 W8 W9 W10] [H1 H2 H3 H4 H5 H6] E. constructor; rewrite ?E, ?H3, ?H5; try done. constructor; rewrite ?E, ?H1, ?H2, ?H4, ?H5; done.
Qed.

Section Made.
Context s fr hf ahead W Q s1 fr' hf' f v capacity (H : world s fr hf ahead W Q) (M : made s fr hf s1 fr' hf' f v capacity).

(** Its header is not the one of another FIFO. *)
Lemma made_fresh k e : W !! k = Some e -> e_off e <> hdr_off f.
Proof.
  intros He E. destruct (wd_ok _ _ _ _ _ _ H k e He) as (Hok & Hf & _). unfold e_off in *. destruct (header_known _ _ _ _ _ Hok) as [x Hx].
  destruct (md_header _ _ _ _ _ _ _ _ _ M) as [Hn|[i Hi]]; [congruence|]. apply (Hf i). by rewrite E.
Qed.

Lemma made_size k en : W !! k = None -> e_fifo en = f -> Z.of_nat (base.size (<[k := en]> W)) < 2 ^ 32.
Proof.
  intros Hk Hen. apply (bounded_size _ e_off).
  - intros k' e [[<- <-]|[_ He]]%lookup_insert_Some; [|by eapply header_range]. pose proof (md_inv _ _ _ _ _ _ _ _ _ M) as I. destruct (header_known _ _ _ _ _ (md_ok _ _ _ _ _ _ _ _ _ M (fun _ => 0))) as [x Hx].
    pose proof (hd_at _ _ (si_hdrs _ _ _ I) _ x Hx). pose proof (sk_index _ _ (si_seg _ _ _ I)). pose proof (sk_max _ _ (si_seg _ _ _ I)). unfold e_off, FIFO_HEADER_SIZE in *. rewrite Hen. lia.
  - intros k1 k2 e1 e2 [[<- <-]|[_ H1]]%lookup_insert_Some [[<- <-]|[_ H2]]%lookup_insert_Some E; [done| | |by eapply header_unique]; exfalso; unfold e_off in E.
    + apply (made_fresh k2 e2 H2). unfold e_off. by rewrite <- E, Hen.
    + apply (made_fresh k1 e1 H1). unfold e_off. by rewrite E, Hen.
Qed.
End Made.

(** Counters do not matter to a FIFO. *)
Lemma fifo_ok_same g fr f v B g' :
  fifo_ok g fr f v B -> seg_ok g' fr -> headers g' = headers g -> chunks g' = chunks g -> bytes g' = bytes g -> vlen (slices g') = vlen (slices g) -> fifo_ok g' fr f v B.
Proof.
  intros [(hd & [N1 N2 [K1 K2 K3 K4 K5 K6 K7] N4 N5 N6 N7] & Htc) HB] Hok Eh Ec Eb Es. constructor; [|by rewrite Eb]. exists hd. split; [|done]. constructor; try done.
  - destruct N1 as [C1 C2 C3 C4 C5 C6]. constructor; try done. by rewrite Ec.
  - unfold hdr_at. by rewrite Eh.
  - constructor; try done. by rewrite Es.
Qed.

(** The new FIFO joins the pool of its slice and is counted. *)
Lemma world_made s fr hf ahead W Q s1 fr' hf' f v capacity slice p active :
  world s fr hf ahead W Q -> same_handle s s1 -> made s fr hf s1 fr' hf' f v capacity -> vget (slices_ s) slice = Some p -> 0 <= slice < n_slices s ->
  exists s' index W', ('(s, index) ← with_private s1 slice (fun p => private_insert p f active); s ← record_fifo_allocation s slice capacity; ok s index) = Some (s', inl index) /\
    Q !! (slice, index) = None /\ world s' fr' hf' ahead W' (<[(slice, index) := q_new capacity]> Q) /\ n_slices s' = n_slices s /\ max_capacity s' = max_capacity s.
Proof.
  intros H Hh M Hp Hs. destruct (wd_pool _ _ _ _ _ _ H slice p Hp) as (Hmax & pm & Hr & Hpm). destruct (Pool.pool_insert_repr (fifos p) pm f Hr (world_can_insert _ _ _ _ _ _ slice p H Hp)) as (pool & index & Ei & Hnone & Hir & Hr').
  destruct (Pool.insert_frame _ _ _ _ Ei) as (_ & Emax & _).
  assert (exists p', private_insert p f active = Some (p', index) /\ fifos p' = pool) as (p' & Eins & Ep').
  { unfold private_insert. rewrite Ei. cbn [mbind option_bind]. eexists. split; [done|]. by destruct active. }
  assert (vget (slices_ s1) slice = Some p) as Hp1 by (by rewrite (sh_private _ _ Hh)).
  destruct (with_private_spec s1 slice p p' index (fun p => private_insert p f active) Hp1 Eins) as (ps & -> & Hlen & Hps). cbn [mbind option_bind].
  pose proof M as [M1 M2 (c & cs & stop & Ev & _) M4 M5 M6 M7]. pose proof (seg_inv_private _ _ _ ps M1) as I1. assert (0 <= slice < n_slices (set_slices_ ps s1)) as Hs1 by (cbn; by rewrite (sh_slices _ _ Hh)).
  unfold record_fifo_allocation. destruct (shared_slice_spec _ _ _ slice I1 Hs1) as (sl & -> & _).
  destruct (count_fifo_spec (set_slices_ ps s1) fr' hf' slice (wrap 32 (n_active_fifos (seg s1) + 1)) capacity I1 Hs1) as (g' & E' & I' & Ea & Eh & Ec & Eb & A'). cbn [seg set_slices_] in E', Eh, Ec, Eb, A' |- *. rewrite E'. cbn [mbind option_bind].
  assert (W !! (slice, index) = None) as HW by (rewrite Hpm in Hnone; by destruct (W !! (slice, index))).
  pose proof (wd_queue _ _ _ _ _ _ H (slice, index)) as Hq. rewrite HW in Hq. assert (Q !! (slice, index) = None) as HQ by (by destruct (Q !! (slice, index))).
  set (en := mk_entry f (with_ix ahead v) (fun _ => 0)). exists (set_seg g' (set_slices_ ps s1)), index, (<[(slice, index) := en]> W). split; [done|]. split; [done|].
  assert (apart (hdr_off f) [] (offs (chain v)) (seg s) fr g' fr') as A by (eapply apart_trans; [exact M6|apply A']).
  split; [|split; [cbn; apply (sh_slices _ _ Hh)|unfold max_capacity; cbn; by rewrite (fm_log2 _ _ _ _ _ _ _ A)]].
  apply (world_alter s fr hf ahead W Q H (set_seg g' (set_slices_ ps s1)) fr' hf' (slice, index) (Some en) (Some (q_new capacity)) (hdr_off f)); try done.
  - by rewrite HW.
  - intros e He. congruence.
  - intros k' e _ He. by eapply made_fresh.
  - intros e [= <-]. unfold e_off, en. cbn. split_and!; try done; [|by intros i [_ ?]%M5]. apply fifo_ok_ix; [|intros _; by rewrite Ev].
    eapply fifo_ok_same; [apply M2|apply (si_seg _ _ _ I')|done..|apply (fm_slices _ _ _ _ _ _ _ (A' 0 []))].
  - cbn. rewrite Ev. apply qrep_new.
  - intros i y [Hy _]%M5. left. by exists i.
  - intros j y Hy Hne. exists j. by apply M5.
  - cbn. rewrite Hlen, (sh_private _ _ Hh), (sh_slices _ _ Hh). done.
  - apply (pools_alter s fr hf ahead W Q slice index (Some en) ps pool (<[index := f]> pm)); try done; [|congruence|].
    + intros i p0 Hp0. specialize (Hps i p0 Hp0). rewrite (sh_private _ _ Hh) in Hps. case_decide; [by subst|done].
    + eapply pm_alter; try done. intros j. case_decide as E; [subst; by rewrite lookup_insert_eq|by rewrite lookup_insert_ne].
  - change (partial_alter (fun _ => Some en) (slice, index) W) with (<[(slice, index) := en]> W). pose proof (made_size _ _ _ _ _ _ _ _ _ _ _ _ H M (slice, index) en HW eq_refl) as Hsz.
    rewrite map_size_insert_None in * by done. cbn [seg set_seg]. rewrite Ea, M7, (wd_active _ _ _ _ _ _ H), wrap_small by (unfold in_word; lia). lia.
Qed.

(** Entering the FIFO in the pool and in the counters takes nothing. *)
Lemma made_top s slice (u : FifoSlicePrivate -> option (FifoSlicePrivate * Z)) s' r capacity :
  ('(s, index) ← with_private s slice u; s ← record_fifo_allocation s slice capacity; ok s index) = Some (s', r) -> top (seg s') = top (seg s).
Proof. unfold with_private, ok. intros H. bind_inv. match goal with E : record_fifo_allocation _ _ _ = Some _ |- _ => by apply record_top in E end. Qed.

Lemma allocate_step s fr hf ahead W Q slice capacity ftype :
  world s fr hf ahead W Q -> 0 <= slice < n_slices s -> 4096 <= capacity <= 2 ^ 31 - 2 ^ 24 -> capacity <= max_capacity s -> ftype <> FtypeNone -> (short = false -> room (seg s) (fifo_cost capacity)) ->
  exists s' fr' hf' W' Q' r, run_action avx2 s (Allocate slice capacity ftype) = Some (s', r) /\ f_step short Q (Allocate slice capacity ftype) r Q' /\ world s' fr' hf' ahead W' Q' /\
    n_slices s' = n_slices s /\ max_capacity s' = max_capacity s /\ (short = false -> took (fifo_cost capacity) (seg s) (seg s')).
Proof.
  intros H Hs Hcap Hmax Hft Hroom. cbn [run_action]. unfold allocate_fifo. destruct (world_slice _ _ _ _ _ _ slice H Hs) as [p Hp]. rewrite Hp.
  destruct (allocate_fifo_value_spec s fr hf slice capacity ftype (wd_inv _ _ _ _ _ _ H) Hs Hcap Hmax Hft) as (s1 & r & -> & Hh & Hr & Hok). cbn [and_then mbind option_bind]. destruct r as [f|er].
  - destruct Hr as (fr' & hf' & v & M). destruct (world_made _ _ _ _ _ _ _ _ _ _ _ _ slice p (is_rx ftype) H Hh M Hp Hs) as (s' & index & W' & E & HQ & HW & E1 & E2).
    cbn [mbind option_bind] in E |- *. rewrite E. cbn [mbind option_bind]. eexists s', fr', hf', W', _, _. split; [done|]. split_and!; try done; [by constructor|].
    intros [_ Ht]%Hroom%Hok. eapply took_top; [exact Ht|]. by eapply made_top.
  - assert (short = true) as Hshort by (destruct short; [done|by destruct (Hok (Hroom eq_refl)) as [[? ?] _]]).
    destruct Hr as (-> & [Hseg|(fr' & hf' & off & U)]); cbn [err mbind option_bind].
    + eexists s1, fr, hf, W, Q, _. split; [done|]. split_and!; [by constructor|by eapply world_limit|apply (sh_slices _ _ Hh)|unfold max_capacity; by rewrite Hseg|by rewrite Hshort].
    + eexists s1, fr', hf', W, Q, _. split; [done|]. split_and!; [by constructor|by eapply world_undone|apply (sh_slices _ _ Hh)|unfold max_capacity; by rewrite (fm_log2 _ _ _ _ _ _ _ (un_apart _ _ _ _ _ _ _ U))|by rewrite Hshort].
Qed.


(** ** Freeing a FIFO *)

Lemma remove_active_spec s slice index p : vget (slices_ s) slice = Some p ->
  exists ps, remove_active s slice index = set_slices_ ps s /\ vlen ps = vlen (slices_ s) /\
    forall i p0, vget ps i = Some p0 -> if decide (i = slice) then fifos p0 = fifos p else vget (slices_ s) i = Some p0.
Proof.
  intros Hp. unfold remove_active. rewrite Hp. destruct (vset_total (slices_ s) slice (without_active index p)) as [ps Hps]; [by eapply vget_Some_bounds|]. rewrite Hps.
  exists ps. split_and!; [done|by eapply vset_len|]. intros i p0. rewrite (vget_vset _ _ _ i _ Hps). destruct (decide (i = slice)) as [->|Hne]; [|by rewrite decide_False].
  rewrite decide_True by done. intros [= <-]. unfold without_active. by destruct (position _ _).
Qed.

Lemma free_step s fr hf ahead W Q slice index :
  world s fr hf ahead W Q -> 0 <= slice < n_slices s -> 0 <= index ->
  exists s' fr' hf' W' Q' r, run_action avx2 s (Free slice index) = Some (s', r) /\ f_step short Q (Free slice index) r Q' /\ world s' fr' hf' ahead W' Q' /\
    n_slices s' = n_slices s /\ max_capacity s' = max_capacity s.
Proof.
  intros H Hs Hi. cbn [run_action]. unfold free_server_fifo. destruct (world_slice _ _ _ _ _ _ slice H Hs) as [p Hp]. rewrite Hp, (world_lookup _ _ _ _ _ _ slice p index H Hp Hi). cbn [mbind option_bind].
  pose proof (wd_queue _ _ _ _ _ _ H (slice, index)) as Hq. destruct (W !! (slice, index)) as [e|] eqn:He; cbn [fmap option_fmap option_map].
  2:{ destruct (Q !! (slice, index)) eqn:Eq; [done|]. cbn [err mbind option_bind]. eexists s, fr, hf, W, Q, _. split; [done|]. split_and!; try done. by constructor. }
  destruct (Q !! (slice, index)) as [q|] eqn:Eq; [|done]. destruct (wd_ok _ _ _ _ _ _ H _ e He) as (Hok & Hf & Hv).
  rewrite (validate_fifo_chunks_spec _ _ _ _ _ _ (wd_inv _ _ _ _ _ _ H) Hok). cbn [mbind option_bind]. destruct (wd_pool _ _ _ _ _ _ H slice p Hp) as (Hmax & pm & Hr & Hpm).
  destruct (Pool.pool_remove_repr (fifos p) pm index Hr Hi) as (pool & Er & Hr'). destruct (Pool.remove_frame _ _ _ _ Er) as (_ & Emax & _). rewrite Er. cbn [mbind option_bind].
  rewrite Hpm, He. cbn [fmap option_fmap option_map]. destruct (vset_total (slices_ s) slice (set_fifos pool p)) as [ps Hps]; [by eapply vget_Some_bounds|]. rewrite Hps. cbn [mbind option_bind].
  assert (vget (slices_ (set_slices_ ps s)) slice = Some (set_fifos pool p)) as Hp1 by (cbn; rewrite (vget_vset _ _ _ slice _ Hps), decide_True by done; done).
  destruct (remove_active_spec (set_slices_ ps s) slice index _ Hp1) as (ps2 & -> & Hlen2 & Hps2). cbn [slices_ set_slices_] in Hlen2, Hps2. change (set_slices_ ps2 (set_slices_ ps s)) with (set_slices_ ps2 s).
  pose proof (seg_inv_private _ _ _ ps2 (wd_inv _ _ _ _ _ _ H)) as I1.
  destruct (release_fifo_value_spec (set_slices_ ps2 s) fr hf slice (e_fifo e) (e_view e) (e_bytes e) I1 Hs Hok Hf) as (s' & fr' & hf' & -> & Hh & [F1 F2 F3 F4] & Ea). cbn [mbind option_bind ok].
  assert (base.size W <> 0%nat) as Hnz by (intros E; apply map_size_empty_inv in E; by rewrite E, lookup_empty in He).
  eexists s', fr', hf', (delete (slice, index) W), (delete (slice, index) Q), _. split; [done|]. split; [by constructor|]. split.
  - apply (world_alter s fr hf ahead W Q H s' fr' hf' (slice, index) None None (e_off e)); try done.
    + by rewrite He.
    + intros e' He'. congruence.
    + intros k' e' Hne He' E. apply Hne. by eapply header_unique.
    + intros i y Hy. apply F2. by exists i.
    + intros j y Hy _. apply F2. left. by exists j.
    + intros _. apply F2. by right.
    + rewrite (sh_private _ _ Hh), (sh_slices _ _ Hh). cbn. rewrite Hlen2, (vset_len _ _ _ _ Hps). done.
    + rewrite (sh_private _ _ Hh). apply (pools_alter s fr hf ahead W Q slice index None ps2 pool (delete index pm)); try done; [|congruence|].
      * intros i p0 Hp0. specialize (Hps2 i p0 Hp0). destruct (decide (i = slice)) as [->|Hne]; [by rewrite Hps2|]. rewrite (vget_vset _ _ _ i _ Hps), decide_False in Hps2 by done. done.
      * eapply pm_alter; try done. intros j. case_decide as E; [subst; by rewrite lookup_delete_eq|by rewrite lookup_delete_ne].
    + change (partial_alter (fun _ => None) (slice, index) W) with (delete (slice, index) W). rewrite map_size_delete, He, Ea. cbn. rewrite (wd_active _ _ _ _ _ _ H).
      pose proof (world_size _ _ _ _ _ _ H). rewrite wrap_small by (unfold in_word; lia). lia.
  - split; [apply (sh_slices _ _ Hh)|]. unfold max_capacity. by rewrite (fm_log2 _ _ _ _ _ _ _ F4).
Qed.

(** ** Runs *)

Lemma action_step s fr hf ahead W Q a :
  world s fr hf ahead W Q -> action_ok ahead s a = true -> (short = false -> room (seg s) (action_cost a)) ->
  exists s' fr' hf' W' Q' r, run_action avx2 s a = Some (s', r) /\ f_step short Q a r Q' /\ world s' fr' hf' ahead W' Q' /\
    n_slices s' = n_slices s /\ max_capacity s' = max_capacity s /\ (short = false -> took (action_cost a) (seg s) (seg s')).
Proof.
  intros H Ha Hroom. destruct a as [slice capacity ftype|slice index|slice index op]; cbn [action_ok action_cost] in *; rewrite ?andb_true_iff, ?Z.leb_le, ?Z.ltb_lt in Ha.
  - destruct Ha as [Ha Hft]. apply (allocate_step s fr hf ahead W Q); [done|lia..|by intros ->|done].
  - destruct (free_step s fr hf ahead W Q slice index) as (s' & fr' & hf' & W' & Q' & r & E & Hst & H' & E1 & E2); [done|lia..|]. exists s', fr', hf', W', Q', r. split_and!; try done.
    intros _. apply top_took. cbn [run_action] in E. bind_inv. by eapply free_top.
  - destruct (use_step s fr hf ahead W Q slice index op) as (s' & fr' & W' & Q' & r & H'); [done|lia|lia|apply Ha|apply Ha|done|]. by exists s', fr', hf, W', Q', r.
Qed.

Lemma action_cost_nonneg ahead s a : action_ok ahead s a = true -> 0 <= action_cost a.
Proof.
  destruct a; cbn [action_ok action_cost]; [|done|]; rewrite ?andb_true_iff, ?Z.leb_le; intros H; [|apply op_cost_nonneg, H].
  unfold fifo_cost, HEADER_COST. pose proof (Z.div_pos capacity (2 ^ 12)). lia.
Qed.
Lemma actions_cost_nonneg ahead s l : forallb (action_ok ahead s) l = true -> 0 <= actions_cost l.
Proof.
  induction l as [|a l IH]; [done|]. cbn [forallb]. intros [Ha Hl]%andb_true_iff. pose proof (action_cost_nonneg _ _ _ Ha). specialize (IH Hl). cbn [actions_cost foldr] in *. unfold actions_cost in IH. lia.
Qed.

Lemma run_step s fr hf ahead W Q l :
  world s fr hf ahead W Q -> forallb (action_ok ahead s) l = true -> (short = false -> room (seg s) (actions_cost l)) ->
  exists s' fr' hf' W' Q' rs, run_actions avx2 s l = Some (s', rs) /\ f_run short Q l rs Q' /\ world s' fr' hf' ahead W' Q'.
Proof.
  revert s fr hf W Q. induction l as [|a l IH]; intros s fr hf W Q H Hl Hroom.
  { exists s, fr, hf, W, Q, []. split_and!; [done|constructor|done]. }
  cbn [forallb] in Hl. apply andb_true_iff in Hl as [Ha Hl]. cbn [run_actions]. change (actions_cost (a :: l)) with (action_cost a + actions_cost l) in Hroom.
  assert (0 <= actions_cost l) as Hc by (eapply actions_cost_nonneg; exact Hl).
  destruct (action_step s fr hf ahead W Q a H Ha) as (s1 & fr1 & hf1 & W1 & Q1 & r & -> & Hst & H1 & E1 & E2 & Ht); [intros R%Hroom; eapply room_weaken, R; lia|]. cbn [mbind option_bind].
  destruct (IH s1 fr1 hf1 W1 Q1 H1) as (s' & fr' & hf' & W' & Q' & rs & -> & Hr & H').
  2:{ intros Es. eapply room_took; [exact (Hroom Es)|exact (Ht Es)]. }
  { rewrite forallb_forall in *. intros b Hb. specialize (Hl b Hb). unfold action_ok in *. by rewrite E1, E2. }
  cbn [mbind option_bind]. eexists s', fr', hf', W', Q', _. split; [done|]. split; [by econstructor|done].
Qed.


(** ** A new segment *)

Lemma validate_config_spec config : 0 <= cfg_slices config -> 0 <= first_allocation_percent config -> validate_config config = inl () ->
  1 <= cfg_slices config <= 255 /\ 1 <= first_allocation_percent config <= 100 /\ 4096 <= max_fifo_size config <= 2 ^ 31.
Proof.
  intros H1 H2. unfold validate_config. change (Z.shiftl 1 31) with (2 ^ 31).
  destruct (_ =? 0) eqn:Ea; [done|]. destruct (u8_max <? _) eqn:Eb; [done|]. destruct (first_allocation_percent config =? 0) eqn:Ec; [done|]. destruct (100 <? _) eqn:Ed; [done|].
  destruct (_ <? FIFO_SEGMENT_MIN_FIFO_SIZE) eqn:Ee; [done|]. destruct (2 ^ 31 <? _) eqn:Ef; [done|]. intros _.
  change FIFO_SEGMENT_MIN_FIFO_SIZE with 4096 in *. change u8_max with 255 in *. lia.
Qed.

Definition no_frees : frees := fun _ _ => [].
Definition no_headers : hfrees := fun _ => [].

Lemma vget_replicate_Some {A : Type} n (x : A) i y : vget (replicate n x) i = Some y -> y = x.
Proof. unfold vget. destruct (i <? 0); [done|]. intros H. by apply lookup_replicate in H as [-> _]. Qed.

Lemma segment_new_inv base page size config s :
  segment_new base page size config = inl s -> 0 <= cfg_slices config -> 0 <= first_allocation_percent config -> 0 <= page -> size - 2 * page <= 2 ^ 32 -> size < 2 ^ 63 ->
  seg_inv s no_frees no_headers.
Proof.
  unfold segment_new. destruct (validate_config config) as [[]|] eqn:Hc; [|done]. intros E H1 H2 Hp Hs Hs2. destruct (validate_config_spec _ H1 H2 Hc) as (C1 & C2 & _).
  destruct (page * 2 <? 2 ^ 64); [|done]. unfold checked_add in E. destruct (_ <? _); [|done]. destruct (_ || _) eqn:Eb; [done|]. injection E as <-.
  apply orb_false_iff in Eb as [Eb _]. apply Z.leb_gt in Eb. assert (0 < layout_bytes (cfg_slices config)) as Hl by (unfold layout_bytes, SEGMENT_HEADER_SIZE, SEGMENT_SLICE_SIZE; lia).
  assert (vlen (replicate (Z.to_nat (cfg_slices config)) slice_new) = cfg_slices config) as Hn by (unfold vlen; rewrite length_replicate; lia).
  split; cbn [seg max_byte_index_ n_slices ssvm_offset ssvm_size slices max_byte_index byte_index pct_first_alloc]; try lia; try done.
  - split; cbn [chunks byte_index max_byte_index slices]; try (intros; done); try (intros *; by rewrite lookup_empty); try lia.
    + intros i sl k Hsl Hk. apply vget_replicate_Some in Hsl as ->. exists 0. split; [|done]. unfold slice_new. cbn [free_chunks]. change (Z.to_nat FS_CHUNK_VEC_LEN) with 11%nat. unfold vget. rewrite (proj2 (Z.ltb_ge k 0)) by lia. apply lookup_replicate. split; [done|lia].
    + intros *. unfold no_frees. constructor.
    + intros *. unfold no_frees. set_solver.
    + intros *. unfold no_frees. set_solver.
    + intros *. unfold no_frees. set_solver.
  - split; cbn [headers slices]; try (intros *; by rewrite lookup_empty); try (intros *; unfold no_headers; set_solver).
    + intros i sl Hsl. by apply vget_replicate_Some in Hsl as ->.
    + intros. constructor.
  - intros i sl Hsl. by apply vget_replicate_Some in Hsl as ->.
Qed.

Lemma segment_new_world base page size config s ahead :
  segment_new base page size config = inl s -> 0 <= cfg_slices config -> 0 <= first_allocation_percent config -> 0 <= page -> size - 2 * page <= 2 ^ 32 -> size < 2 ^ 63 ->
  world s no_frees no_headers ahead ∅ ∅.
Proof.
  intros E H1 H2 Hp Hs Hs2. pose proof (segment_new_inv _ _ _ _ _ E H1 H2 Hp Hs Hs2) as I. revert E. unfold segment_new. destruct (validate_config config) as [[]|] eqn:Hc; [|done].
  destruct (page * 2 <? 2 ^ 64); [|done]. unfold checked_add. destruct (_ <? _); [|done]. destruct (_ || _) eqn:Eb; [done|]. intros [= <-].
  split; cbn [seg slices_ n_slices n_active_fifos chunks headers] in *; try (intros *; by rewrite ?lookup_empty); try done.
  - unfold initialize_slices, vlen. rewrite length_fmap, length_zseq. lia.
  - intros i p Hi. unfold initialize_slices, vget in Hi. destruct (i <? 0) eqn:Ei; [done|]. rewrite list_lookup_fmap in Hi. destruct (zseq _ _ !! _); [|done]. injection Hi as <-. cbn. split; [done|].
    exists ∅. split; [by apply Pool.pool_empty_dynamic_repr; constructor|]. intros k. by rewrite !lookup_empty.
Qed.

End Actions.

End SvmFamily.
