(* ===== verification/SvmTheorems.v ===== *)
(** * Correctness of the shared-memory FIFOs

    Runs of actions on a fresh segment: what they answer, and where the memory
    of the segment is afterwards. *)

From S2P Require Import Prelude Ranges InfraBitmap InfraPool InfraRbTree InfraRbOps InfraRbMap.
From S2P Require Import SvmOoo SvmOooProofs SvmMemory SvmMemoryProofs SvmFifo SvmBudget SvmChain SvmGrow SvmFifoInv SvmFifoOps SvmFifoRead SvmSegment SvmSegmentProofs.
From S2P Require Import SvmLifeBudget SvmFifoLife SvmQueues SvmFamily.

Module SvmTheorems.
Import Ranges SvmOoo SvmOooProofs SvmMemory SvmMemoryProofs SvmFifo SvmBudget SvmChain SvmGrow SvmFifoInv SvmFifoOps SvmFifoRead SvmSegment SvmSegmentProofs
  SvmLifeBudget SvmFifoLife SvmQueues SvmFamily.

(** Arguments of [segment_new] as their types have them, and a mapping whose
    offsets fit the 32 bits the lookup trees give them. *)
Definition mapping_ok (page size : Z) (config : SvmFifoSegmentConfig) : bool :=
  (0 <=? cfg_slices config) && (0 <=? first_allocation_percent config) && (0 <=? page) && (size - 2 * page <=? 2 ^ 32) && (size <? 2 ^ 63).

(** *** Where the memory is *)

(** The chunks from [off] on. *)
Fixpoint chain_from (n : nat) (g : segment) (off : Z) : option (list Z) :=
  match n with
  | O => None
  | S n' => if off =? 0 then Some [] else c ← chunk_at g off; l ← chain_from n' g (c_next c); Some (off :: l)
  end.
Fixpoint headers_from (n : nat) (g : segment) (off : Z) : option (list Z) :=
  match n with
  | O => None
  | S n' => if off =? 0 then Some [] else h ← hdr_at g off; l ← headers_from n' g (h_next h); Some (off :: l)
  end.

(** The free lists: slices and classes. *)
Definition slots_of (g : segment) : list (Z * Z) := zseq 0 (length (slices g)) ≫= fun i => pair i <$> zseq 0 (Z.to_nat FS_CHUNK_VEC_LEN).
(** The chunks on the free lists. *)
Definition free_chunk_lists (g : segment) : option (list (list Z)) :=
  mapM (fun ik => sl ← vget (slices g) ik.1; head ← vget (free_chunks sl) ik.2; chain_from (chunk_fuel g) g (fs_head_offset head))
    (slots_of g).
(** The headers on the free lists of all slices. *)
Definition free_header_lists (g : segment) : option (list (list Z)) :=
  mapM (fun i => sl ← vget (slices g) i; headers_from (S (base.size (headers g))) g (free_fifos sl)) (zseq 0 (length (slices g))).
(** The header and the chunks of a FIFO of the process. *)
Definition fifo_memory (s : SvmFifoSegment) (key : Z * Z) : option (Z * list Z) :=
  f ← fifo s key.1 key.2;
  f ← f;
  h ← hdr_at (seg s) (hdr_off f);
  l ← chain_from (chunk_fuel (seg s)) (seg s) (h_start_chunk h);
  Some (hdr_off f, l).

Implicit Types (g : segment) (fr : frees) (hf : hfrees) (s : SvmFifoSegment) (f : Fifo) (v : view) (B : Z -> Z) (q : queue) (Q : family).

(** ** Where the memory is *)

Lemma mapM_all {A C : Type} (u : A -> option C) (h : A -> C) l : (forall x, x ∈ l -> u x = Some (h x)) -> mapM u l = Some (h <$> l).
Proof.
  induction l as [|x l IH]; intros H; [done|]. cbn. rewrite H by left. cbn [mbind option_bind]. rewrite IH; [done|]. intros y Hy. apply H. by right.
Qed.

Lemma size_nodup {V : Type} (m : gmap Z V) l : NoDup l -> (forall o, o ∈ l -> is_Some (m !! o)) -> (length l <= base.size m)%nat.
Proof.
  intros Hnd H. rewrite <- size_dom. rewrite <- (size_list_to_set (C := gset Z) l Hnd). apply subseteq_size. intros o Ho%elem_of_list_to_set. by apply elem_of_dom, H.
Qed.

Lemma perm_keys {V : Type} (m : gmap Z V) l : NoDup l -> (forall o, o ∈ l <-> is_Some (m !! o)) -> l ≡ₚ (map_to_list m).*1.
Proof.
  intros Hnd H. apply NoDup_Permutation; [done|apply NoDup_fst_map_to_list|]. intros o. rewrite H. split.
  - intros [x Hx]. apply list_elem_of_fmap. exists (o, x). split; [done|]. by apply elem_of_map_to_list.
  - intros ([o' x] & -> & Hx%elem_of_map_to_list)%list_elem_of_fmap. by exists x.
Qed.

Lemma chain_from_free n g fr k head l : seg_ok g fr -> free_chain (chunks g) k head l -> (length l < n)%nat -> chain_from n g head = Some l.
Proof.
  intros H. revert head l. induction n as [|n IH]; intros head l Hl Hn; [lia|]. cbn [chain_from]. destruct l as [|o l]; cbn [free_chain] in Hl; [by rewrite Hl|].
  destruct Hl as (-> & c & Hc & _ & Hl). pose proof (sk_offset g fr o c H Hc) as (Ho & _). rewrite (proj2 (Z.eqb_neq o 0)) by lia. unfold chunk_at. rewrite Hc. cbn [mbind option_bind].
  rewrite (IH _ l Hl) by (cbn in Hn; lia). done.
Qed.
Lemma chain_from_links n g fr cs a e l0 l : chain_ok g fr cs a e -> cs = l0 ++ l -> (length l < n)%nat -> chain_from n g (first_off l 0) = Some (offs l).
Proof.
  intros Hok. revert l0 l. induction n as [|n IH]; intros l0 l E Hn; [lia|]. cbn [chain_from]. destruct l as [|c l]; cbn [first_off]; [done|].
  assert (c ∈ cs) as Hc by (rewrite E; apply elem_of_app; right; left). rewrite (chain_nonzero _ _ _ _ _ Hok c Hc). destruct (chain_at _ _ _ _ _ Hok l0 c l E) as (ch & -> & _ & _ & En).
  cbn [mbind option_bind]. rewrite En, (IH (l0 ++ [c]) l); [done|by rewrite <- app_assoc|cbn in Hn; lia].
Qed.
Lemma headers_from_spec n g hf head l : hdrs_ok g hf -> hdr_chain (headers g) head l -> (length l < n)%nat -> headers_from n g head = Some l.
Proof.
  intros H. revert head l. induction n as [|n IH]; intros head l Hl Hn; [lia|]. cbn [headers_from]. destruct l as [|o l]; cbn [hdr_chain] in Hl; [by rewrite Hl|].
  destruct Hl as (-> & x & Hx & Hl). pose proof (hd_at _ _ H o x Hx) as (Ho & _). rewrite (proj2 (Z.eqb_neq o 0)) by lia. unfold hdr_at. rewrite Hx. cbn [mbind option_bind].
  rewrite (IH _ l Hl) by (cbn in Hn; lia). done.
Qed.

Lemma elem_of_slots g i k : (i, k) ∈ slots_of g <-> 0 <= i < vlen (slices g) /\ 0 <= k < 11.
Proof.
  unfold slots_of. rewrite list_elem_of_bind. setoid_rewrite list_elem_of_fmap. change (Z.to_nat FS_CHUNK_VEC_LEN) with 11%nat. unfold vlen. split.
  - intros (i' & (k' & [= -> ->] & Hk%elem_of_zseq) & Hi%elem_of_zseq). lia.
  - intros [Hi Hk]. exists i. split; [|apply elem_of_zseq; lia]. exists k. split; [done|]. apply elem_of_zseq. lia.
Qed.
Lemma slots_NoDup g : NoDup (slots_of g).
Proof.
  apply NoDup_bind; [|intros i _; apply NoDup_fmap_2; [by intros ? ? [=]|apply zseq_NoDup]|apply zseq_NoDup].
  intros i i' ik _ _ (k & -> & _)%list_elem_of_fmap (k' & [= ->] & _)%list_elem_of_fmap. done.
Qed.

Lemma free_chunk_lists_spec g fr : seg_ok g fr -> free_chunk_lists g = Some ((fun ik => fr ik.1 ik.2) <$> slots_of g).
Proof.
  intros H. apply mapM_all. intros [i k] [Hi Hk]%elem_of_slots. cbn [fst snd]. destruct (vget_in_range _ _ Hi) as [sl Hsl]. rewrite Hsl. cbn [mbind option_bind].
  destruct (sk_free _ _ H i sl k Hsl Hk) as (hd & -> & Hc). cbn [mbind option_bind]. eapply chain_from_free; [done..|]. unfold chunk_fuel.
  pose proof (size_nodup (chunks g) (fr i k) (sk_nodup _ _ H i k) (fun o Ho => sk_known _ _ H o i k Ho)). lia.
Qed.
Lemma free_header_lists_spec g hf : hdrs_ok g hf -> free_header_lists g = Some (hf <$> zseq 0 (length (slices g))).
Proof.
  intros H. apply mapM_all. intros i Hi%elem_of_zseq. destruct (vget_in_range (slices g) i ltac:(unfold vlen; lia)) as [sl Hsl]. rewrite Hsl. cbn [mbind option_bind].
  eapply headers_from_spec; [done|by apply (hd_free _ _ H)|]. pose proof (size_nodup (headers g) (hf i) (hd_nodup _ _ H i) (fun o Ho => hd_known _ _ H o i Ho)). lia.
Qed.

Lemma fifo_at s fr hf ahead W Q i k e : world s fr hf ahead W Q -> W !! (i, k) = Some e -> fifo s i k = Some (Some (e_fifo e)).
Proof.
  intros H He. destruct (world_slice _ _ _ _ _ _ i H (wd_keys _ _ _ _ _ _ H i k e He)) as [p Hp]. destruct (decide (0 <= k)) as [Hk|Hk]; [by rewrite (world_lookup _ _ _ _ _ _ i p k H Hp Hk), He|].
  exfalso. destruct (wd_pool _ _ _ _ _ _ H i p Hp) as (_ & pm & [_ Hr] & Hpm). specialize (Hr k). rewrite Hpm, He in Hr. cbn in Hr. unfold Pool.slot in Hr. rewrite (proj2 (Z.leb_gt 0 k)) in Hr by lia. done.
Qed.

Lemma fifo_memory_spec s fr hf ahead W Q key e : world s fr hf ahead W Q -> W !! key = Some e -> fifo_memory s key = Some (e_off e, e_chunks e).
Proof.
  intros H He. destruct key as [i k]. unfold fifo_memory. cbn [fst snd]. rewrite (fifo_at _ _ _ _ _ _ _ _ _ H He). cbn [mbind option_bind]. destruct (wd_ok _ _ _ _ _ _ H _ e He) as ([(hd & HM & _) _] & _).
  rewrite (fk_at _ _ _ _ _ HM). cbn [mbind option_bind]. rewrite (hk_start _ _ _ (fk_hdr _ _ _ _ _ HM)), <- (first_off_chain _ 0).
  rewrite (chain_from_links _ _ fr (chain (e_view e)) _ _ [] (chain (e_view e)) (fk_chain _ _ _ _ _ HM)); [done|done|apply (chain_fuel _ _ _ _ _ (fk_chain _ _ _ _ _ HM))].
Qed.


Lemma segment_new_top base page size config s :
  segment_new base page size config = inl s -> byte_index (seg s) = layout_bytes (cfg_slices config) /\ max_byte_index (seg s) = size - 2 * page.
Proof.
  unfold segment_new. destruct (validate_config config); [|done]. destruct (page * 2 <? 2 ^ 64); [|done]. unfold checked_add. destruct (_ <? _); [|done]. destruct (_ || _); [done|].
  intros [= <-]. cbn. split; [done|lia].
Qed.

Definition own (W : gmap (Z * Z) entry) (key : Z * Z) : Z * list Z :=
  match W !! key with Some e => (e_off e, e_chunks e) | None => (0, []) end.

Lemma same_keys s fr hf ahead W Q key : world s fr hf ahead W Q -> key ∈ (map_to_list Q).*1 <-> is_Some (W !! key).
Proof.
  intros H. rewrite list_elem_of_fmap. pose proof (wd_queue _ _ _ _ _ _ H key) as Hq. split.
  - intros ([key' q] & -> & Hq'%elem_of_map_to_list). cbn in *. rewrite Hq' in Hq. destruct (W !! key'); [by eexists|done].
  - intros [e He]. rewrite He in Hq. destruct (Q !! key) as [q|] eqn:E; [|done]. exists (key, q). split; [done|]. by apply elem_of_map_to_list.
Qed.

Lemma fifo_memories s fr hf ahead W Q : world s fr hf ahead W Q -> mapM (fifo_memory s) (map_to_list Q).*1 = Some (own W <$> (map_to_list Q).*1).
Proof.
  intros H. apply mapM_all. intros key [e He]%(same_keys _ _ _ _ _ _ _ H). unfold own. rewrite He. by eapply fifo_memory_spec.
Qed.

Lemma concat_fmap {A C : Type} (h : A -> list C) l : concat (h <$> l) = l ≫= h.
Proof. induction l as [|x l IH]; [done|]. cbn. by rewrite IH. Qed.

(** Every chunk is on one free list or in one chain. *)
Lemma chunks_partition s fr hf ahead W Q :
  world s fr hf ahead W Q ->
  (slots_of (seg s) ≫= fun ik => fr ik.1 ik.2) ++ ((map_to_list Q).*1 ≫= fun key => (own W key).2) ≡ₚ (map_to_list (chunks (seg s))).*1.
Proof.
  intros H. pose proof (si_seg _ _ _ (wd_inv _ _ _ _ _ _ H)) as Hseg.
  assert (forall key o, o ∈ (own W key).2 <-> exists e, W !! key = Some e /\ o ∈ e_chunks e) as Hown.
  { intros key o. unfold own. destruct (W !! key) as [e|]; cbn; [split; [intros Ho; by exists e|by intros (e' & [= <-] & Ho)]|]. split; [by intros ?%not_elem_of_nil|by intros (? & ? & _)]. }
  assert (forall o, o ∈ (slots_of (seg s) ≫= fun ik => fr ik.1 ik.2) <-> is_free fr o) as Hfree.
  { intros o. rewrite list_elem_of_bind. split; [intros ([i k] & Ho & _); by exists i, k|]. intros (i & k & Ho). exists (i, k). split; [done|]. apply elem_of_slots. by apply (sk_range _ _ Hseg o). }
  apply perm_keys.
  - apply NoDup_app. split_and!.
    + apply NoDup_bind; [|intros ik _; apply (sk_nodup _ _ Hseg)|apply slots_NoDup].
      intros [i k] [i' k'] o _ _ Ho Ho'. destruct (sk_once _ _ Hseg o i k i' k' Ho Ho') as [-> ->]. done.
    + intros o Ho%Hfree Ho'. apply list_elem_of_bind in Ho' as (key & (e & He & Ho')%Hown & _). by destruct (wd_ok _ _ _ _ _ _ H _ e He) as (Hok & _); destruct (chain_known _ _ _ _ _ o Hok Ho') as [_ []].
    + apply NoDup_bind; [| |apply NoDup_fst_map_to_list].
      * intros key key' o _ _ (e & He & Ho)%Hown (e' & He' & Ho')%Hown. destruct (decide (key = key')) as [|Hne]; [done|]. by destruct (wd_apart _ _ _ _ _ _ H key key' e e' He He' Hne) as [_ Ha]; destruct (Ha o Ho).
      * intros key _. unfold own. destruct (W !! key) as [e|] eqn:He; [|constructor]. destruct (wd_ok _ _ _ _ _ _ H _ e He) as ([(hd & HM & _) _] & _). apply (ch_nodup _ _ _ _ _ (fk_chain _ _ _ _ _ HM)).
  - intros o. rewrite elem_of_app, Hfree, list_elem_of_bind. split.
    + intros [(i & k & Ho)|(key & (e & He & Ho)%Hown & _)]; [by eapply (sk_known _ _ Hseg)|]. destruct (wd_ok _ _ _ _ _ _ H _ e He) as (Hok & _). by apply (chain_known _ _ _ _ _ o Hok Ho).
    + intros [Ho|(key & e & He & Ho)]%(wd_chunks _ _ _ _ _ _ H); [by left|]. right. exists key. split; [apply Hown; by exists e|]. apply (same_keys _ _ _ _ _ _ _ H). by eexists.
Qed.

(** Every header is on one free list or that of one FIFO. *)
Lemma headers_partition s fr hf ahead W Q :
  world s fr hf ahead W Q ->
  (zseq 0 (length (slices (seg s))) ≫= hf) ++ ((fun key => (own W key).1) <$> (map_to_list Q).*1) ≡ₚ (map_to_list (headers (seg s))).*1.
Proof.
  intros H. pose proof (si_hdrs _ _ _ (wd_inv _ _ _ _ _ _ H)) as Hh. pose proof (fun key => same_keys _ _ _ _ _ _ key H) as Hk.
  assert (forall o, o ∈ (zseq 0 (length (slices (seg s))) ≫= hf) <-> exists i, o ∈ hf i) as Hfree.
  { intros o. rewrite list_elem_of_bind. split; [intros (i & Ho & _); by exists i|]. intros (i & Ho). exists i. split; [done|]. apply elem_of_zseq. pose proof (hd_range _ _ Hh o i Ho). unfold vlen in *. lia. }
  assert (forall o, o ∈ ((fun key => (own W key).1) <$> (map_to_list Q).*1) <-> exists key e, W !! key = Some e /\ o = e_off e) as Hown.
  { intros o. rewrite list_elem_of_fmap. unfold own. split.
    - intros (key & -> & [e He]%Hk). exists key, e. by rewrite He.
    - intros (key & e & He & ->). exists key. rewrite He. split; [done|]. apply Hk. by eexists. }
  apply perm_keys.
  - apply NoDup_app. split_and!.
    + apply NoDup_bind; [|intros i _; apply (hd_nodup _ _ Hh)|apply zseq_NoDup]. intros i i' o _ _ Ho Ho'. by apply (hd_once _ _ Hh o).
    + intros o (i & Ho)%Hfree (key & e & He & ->)%Hown. by destruct (wd_ok _ _ _ _ _ _ H _ e He) as (_ & Hf & _); destruct (Hf i).
    + apply NoDup_fmap_2_strong; [|apply NoDup_fst_map_to_list]. intros key key' [e He]%Hk [e' He']%Hk. unfold own. rewrite He, He'. cbn. intros E.
      destruct (decide (key = key')) as [|Hne]; [done|]. by destruct (wd_apart _ _ _ _ _ _ H key key' e e' He He' Hne) as [[] _].
  - intros o. rewrite elem_of_app, Hfree, Hown. split.
    + intros [(i & Ho)|(key & e & He & ->)]; [by eapply (hd_known _ _ Hh)|]. destruct (wd_ok _ _ _ _ _ _ H _ e He) as (Hok & _). by apply header_known in Hok.
    + intros Ho%(wd_headers _ _ _ _ _ _ H). done.
Qed.

(** ** Runs *)


(** ** The byte stream of one FIFO *)

(** Actions that leave the FIFO [key] a plain stream: it is not freed and is
    written and read in order only. *)
Definition stream_only (key : Z * Z) (a : action) : bool :=
  match a with
  | Allocate _ _ _ => true
  | Free slice index => negb (bool_decide ((slice, index) = key))
  | Use slice index op =>
    if bool_decide ((slice, index) = key) then
      match op with Dequeue len _ => 0 <=? len | Enqueue _ | Peek _ _ _ | MaxDequeue | MaxEnqueue => true | _ => false end
    else true
  end.

(** The bytes a call adds to the stream of [key], and those it takes out. *)
Definition accepted_by (key : Z * Z) (a : action) (r : answer) : list Z :=
  match a, r with
  | Use slice index (Enqueue src), Used (Count n) => if bool_decide ((slice, index) = key) then take (Z.to_nat n) src else []
  | _, _ => []
  end.
Definition delivered_by (key : Z * Z) (a : action) (r : answer) : list Z :=
  match a, r with
  | Use slice index (Dequeue _ _), Used (Data dst n) => if bool_decide ((slice, index) = key) then take (Z.to_nat n) dst else []
  | _, _ => []
  end.
Definition sent (key : Z * Z) (l : list action) (rs : list answer) : list Z := concat (zip_with (accepted_by key) l rs).
Definition got (key : Z * Z) (l : list action) (rs : list answer) : list Z := concat (zip_with (delivered_by key) l rs).

(** A queue with nothing known past its write position. *)
Definition plain q : Prop := q_read q <= q_write q /\ forall y, is_Some (q_bytes q !! y) <-> q_read q <= y < q_write q.
Definition contents q : list Z := q_peek q 0 (Z.to_nat (q_len q)).

Lemma load_stored m a l : load_list (store_list m a l) a (length l) = l.
Proof.
  revert m a. induction l as [|b l IH]; intros m a; [done|]. cbn [store_list length load_list]. rewrite IH, load_store, decide_False by lia. unfold load. by rewrite lookup_insert_eq.
Qed.
Lemma load_list_ext m m' a n : (forall y, a <= y < a + Z.of_nat n -> m' !! y = m !! y) -> load_list m' a n = load_list m a n.
Proof. revert a. induction n as [|n IH]; intros a H; [done|]. cbn. unfold load. rewrite H, IH by (lia || (intros; apply H; lia)). done. Qed.

Lemma plain_put q l : plain q -> plain (q_put q l) /\ q_write (q_put q l) = q_write q + vlen l /\ contents (q_put q l) = contents q ++ l.
Proof.
  intros [Hle Hk]. pose proof (vlen_nonneg l) as Hl. set (m := store_list (q_bytes q) (q_write q) l).
  assert (forall y, is_Some (m !! y) <-> q_read q <= y < q_write q + vlen l) as Hm.
  { intros y. unfold m. rewrite store_lookup. case_decide as Hy.
    - split; [lia|]. intros _. apply lookup_lt_is_Some. unfold vlen in *. lia.
    - rewrite Hk. lia. }
  assert (gap (S (base.size m)) m (q_write q + vlen l) = q_write q + vlen l) as Hg.
  { cbn [gap]. destruct (m !! (q_write q + vlen l)) eqn:E; [|done]. assert (is_Some (m !! (q_write q + vlen l))) as ?%Hm by (by rewrite E). lia. }
  unfold q_put. fold m. rewrite Hg. split_and!; [split; cbn; [lia|done]|done|]. unfold contents, q_peek, q_len. cbn [q_read q_write q_bytes]. rewrite !Z.add_0_r.
  replace (Z.to_nat (q_write q + vlen l - q_read q)) with (Z.to_nat (q_write q - q_read q) + length l)%nat by (unfold vlen; lia). rewrite load_list_app. f_equal.
  - apply load_list_ext. intros y Hy. unfold m. rewrite store_lookup, decide_False by lia. done.
  - replace (q_read q + Z.of_nat (Z.to_nat (q_write q - q_read q))) with (q_write q) by lia. apply load_stored.
Qed.

Lemma plain_drop q n : plain q -> 0 <= n <= q_len q -> plain (q_drop q n) /\ contents q = q_peek q 0 (Z.to_nat n) ++ contents (q_drop q n).
Proof.
  intros [Hle Hk] Hn. unfold q_len in *. split.
  - split; cbn; [lia|]. intros y. split.
    + intros [b [Hb Hy]%map_lookup_filter_Some]. cbn in Hy. assert (is_Some (q_bytes q !! y)) as ?%Hk by (by eexists). lia.
    + intros Hy. destruct (proj2 (Hk y) ltac:(lia)) as [b Hb]. exists b. apply map_lookup_filter_Some. split; [done|cbn; lia].
  - unfold contents, q_peek, q_len. cbn [q_drop q_read q_write q_bytes]. rewrite !Z.add_0_r.
    replace (Z.to_nat (q_write q - q_read q)) with (Z.to_nat n + Z.to_nat (q_write q - (q_read q + n)))%nat by lia. rewrite load_list_app. f_equal.
    replace (q_read q + Z.of_nat (Z.to_nat n)) with (q_read q + n) by lia. symmetry. apply load_list_ext. intros y Hy. rewrite map_lookup_filter. destruct (q_bytes q !! y); [|done].
    cbn. rewrite option_guard_True by (cbn; lia). done.
Qed.
Lemma plain_new c : plain (q_new c) /\ contents (q_new c) = [].
Proof. split; [|done]. split; [done|]. intros y. cbn. rewrite lookup_empty. split; [by intros [? ?]|lia]. Qed.

Lemma take_load m a (n : nat) k dst : n = k -> take n (load_list m a k ++ dst) = load_list m a k.
Proof. intros ->. by rewrite take_app_length' by (by rewrite length_load_list). Qed.

(** One step of the family, seen from a FIFO that stays a plain stream. *)
Lemma stream_step short Q a r Q' key q :
  f_step short Q a r Q' -> Q !! key = Some q -> plain q -> stream_only key a = true ->
  exists q', Q' !! key = Some q' /\ plain q' /\ contents q ++ accepted_by key a r = delivered_by key a r ++ contents q'.
Proof.
  intros H Hq Hp Ha. assert (forall Q2, Q2 !! key = Q !! key -> exists q', Q2 !! key = Some q' /\ plain q' /\ contents q ++ [] = [] ++ contents q') as Hsame.
  { intros Q2 ->. exists q. by rewrite app_nil_r. }
  inversion H as [slice cap ft index Hn|slice cap ft|slice index Hs|slice index Hn|slice index op q0 out q1 Hq0 Hst|slice index op Hn]; subst; cbn [accepted_by delivered_by]; try (by apply Hsame).
  - apply Hsame. rewrite lookup_insert_ne; [done|]. intros <-. congruence.
  - apply Hsame. cbn [stream_only] in Ha. apply negb_true_iff, bool_decide_eq_false in Ha. by rewrite lookup_delete_ne.
  - cbn [stream_only] in Ha. destruct (decide ((slice, index) = key)) as [E|Hne].
    2:{ rewrite !bool_decide_eq_false_2 by done. rewrite lookup_insert_ne by done. destruct (Hsame Q eq_refl) as (q' & Hq' & Hp' & Ec). exists q'. split_and!; try done. by destruct op, out. }
    rewrite E in *. rewrite bool_decide_eq_true_2 in * by done. rewrite lookup_insert_eq. assert (q0 = q) as -> by congruence.
    destruct op; try discriminate Ha; inversion Hst; subst; cbn [accepted_by delivered_by].
    + set (l := take (Z.to_nat w) src). destruct (plain_put q l Hp) as (Hp' & Ew & Ec). exists (q_put q l). split_and!; try done. rewrite Ec. cbn [app]. do 2 f_equal.
      rewrite Ew. assert (vlen l = w) as El by (apply vlen_take; lia). lia.
    + exists q1. split_and!; try done. by rewrite app_nil_r.
    + set (n := Z.min _ _) in *. destruct Hp as [Hle Hk]. destruct (plain_drop q n) as [Hp' Ec]; [done|apply Z.leb_le in Ha; unfold n, q_len; pose proof (vlen_nonneg dst); lia|].
      exists (q_drop q n). split_and!; try done. unfold q_peek at 1. rewrite take_load by done. rewrite app_nil_r. exact Ec.
    + exists q1. split_and!; try done. by rewrite app_nil_r.
    + exists q1. split_and!; try done. by rewrite app_nil_r.
  - destruct op; by apply Hsame.
Qed.

Lemma stream_run short Q l rs Q' key q :
  f_run short Q l rs Q' -> Q !! key = Some q -> plain q -> forallb (stream_only key) l = true ->
  exists q', Q' !! key = Some q' /\ plain q' /\ contents q ++ sent key l rs = got key l rs ++ contents q'.
Proof.
  intros H. revert q. induction H as [Q|Q a r Q1 l rs Q' Hst Hrun IH]; intros q Hq Hp Ha; [exists q; by rewrite app_nil_r|]. cbn [forallb] in Ha. apply andb_true_iff in Ha as [Ha Hl].
  destruct (stream_step _ _ _ _ _ _ _ Hst Hq Hp Ha) as (q1 & Hq1 & Hp1 & E1). destruct (IH q1 Hq1 Hp1 Hl) as (q' & Hq' & Hp' & E2). exists q'. split_and!; try done.
  unfold sent, got in *. cbn [zip_with concat]. rewrite app_assoc, E1, <- !app_assoc. by rewrite E2.
Qed.

Section Runs.
Context (avx2 : bool) (base page size : Z) (config : SvmFifoSegmentConfig) (s : SvmFifoSegment) (ahead : bool) (l : list action).
Context (Hnew : segment_new base page size config = inl s) (Hmap : mapping_ok page size config = true) (Hl : forallb (action_ok ahead s) l = true).

Lemma reached short : (short = false -> layout_bytes (cfg_slices config) + actions_cost l < size - 2 * page) ->
  exists s' rs fr hf W Q, run_actions avx2 s l = Some (s', rs) /\ f_run short ∅ l rs Q /\ world s' fr hf ahead W Q.
Proof.
  intros Hc. unfold mapping_ok in Hmap. rewrite !andb_true_iff, !Z.leb_le, Z.ltb_lt in Hmap. destruct Hmap as ((((H1 & H2) & H3) & H4) & H5).
  pose proof (segment_new_world base page size config s ahead Hnew H1 H2 H3 H4 H5) as Hw.
  destruct (run_step avx2 short s _ _ ahead ∅ ∅ l Hw Hl) as (s' & fr & hf & W & Q & rs & Hrun & Hf & H).
  { intros E. specialize (Hc E). destruct (segment_new_top _ _ _ _ _ Hnew) as [E1 E2]. pose proof (sk_index _ _ (si_seg _ _ _ (wd_inv _ _ _ _ _ _ Hw))). unfold room. lia. }
  by exists s', rs, fr, hf, W, Q.
Qed.

End Runs.


Lemma f_run_app short Q l1 a l2 rs1 r rs2 Q' :
  f_run short Q (l1 ++ a :: l2) (rs1 ++ r :: rs2) Q' -> length rs1 = length l1 -> exists Q1 Q2, f_run short Q l1 rs1 Q1 /\ f_step short Q1 a r Q2 /\ f_run short Q2 l2 rs2 Q'.
Proof.
  revert Q rs1. induction l1 as [|b l1 IH]; intros Q [|r1 rs1] H Hlen; try done; cbn [app] in H; inversion H; subst.
  - eexists Q, _. split_and!; [constructor|done|done].
  - injection Hlen as Hlen. edestruct IH as (Q1' & Q2 & H1 & H2 & H3); [eassumption|exact Hlen|]. exists Q1', Q2. split_and!; try done. by econstructor.
Qed.

Lemma same_size s fr hf ahead W Q : world s fr hf ahead W Q -> base.size W = base.size Q.
Proof.
  intros H. rewrite <- !size_dom. f_equal. apply set_eq. intros key. rewrite !elem_of_dom. pose proof (wd_queue _ _ _ _ _ _ H key) as Hq.
  destruct (W !! key), (Q !! key); try done; split; intros []; by eexists.
Qed.

(** A FIFO of the family is one of the process. *)
Lemma live_fifo s fr hf ahead W Q slice i q :
  world s fr hf ahead W Q -> Q !! (slice, i) = Some q -> exists e, fifo s slice i = Some (Some (e_fifo e)) /\ fifo_ok (seg s) fr (e_fifo e) (e_view e) (e_bytes e) /\ qrep q (e_view e) (e_bytes e) /\ vix (e_view e) = ahead.
Proof.
  intros H Hq. pose proof (wd_queue _ _ _ _ _ _ H (slice, i)) as Hw. rewrite Hq in Hw. destruct (W !! (slice, i)) as [e|] eqn:He; [|done]. exists e.
  destruct (wd_ok _ _ _ _ _ _ H _ e He) as (Hok & _ & Hix). split_and!; try done. by eapply fifo_at.
Qed.


(** C12: No memory of a segment is lost or shared.  After any run, every chunk
    that was ever carved out of the segment is on exactly one free list or in
    the chain of exactly one live FIFO, exactly once, and every FIFO header is
    on exactly one free list or that of exactly one live FIFO. *)
Theorem segment_memory_partitioned avx2 base page size config s ahead l :
  segment_new base page size config = inl s -> mapping_ok page size config = true -> forallb (action_ok ahead s) l = true ->
  exists s' rs Q lc lh M, run_actions avx2 s l = Some (s', rs) /\ f_run true ∅ l rs Q /\
    free_chunk_lists (seg s') = Some lc /\ free_header_lists (seg s') = Some lh /\ mapM (fifo_memory s') (map_to_list Q).*1 = Some M /\
    concat lc ++ concat M.*2 ≡ₚ (map_to_list (chunks (seg s'))).*1 /\ concat lh ++ M.*1 ≡ₚ (map_to_list (headers (seg s'))).*1.
Proof.
  intros Hnew Hmap Hl. destruct (reached avx2 base page size config s ahead l Hnew Hmap Hl true ltac:(done)) as (s' & rs & fr & hf & W & Q & Hrun & Hf & H).
  pose proof (wd_inv _ _ _ _ _ _ H) as I. eexists s', rs, Q, _, _, _. split_and!; [done|done|apply (free_chunk_lists_spec _ _ (si_seg _ _ _ I))|apply (free_header_lists_spec _ _ (si_hdrs _ _ _ I))|by eapply fifo_memories|..].
  - rewrite <- list_fmap_compose, !concat_fmap. by apply (chunks_partition _ _ _ _ _ _ H).
  - rewrite <- list_fmap_compose, concat_fmap. by apply (headers_partition _ _ _ _ _ _ H).
Qed.


(** C24: [readable_segments] names the readable bytes without copying them.  In
    any reachable state, the slices returned for a live FIFO read, in order,
    the bytes [peek] would copy from the offset on: all of them, or as many as
    fit the caller's output.  The position [head + offset] must not overflow
    32 bits. *)
Theorem readable_segments_correct avx2 base page size config s ahead l :
  segment_new base page size config = inl s -> mapping_ok page size config = true -> forallb (action_ok ahead s) l = true ->
  exists s' rs Q, run_actions avx2 s l = Some (s', rs) /\ f_run true ∅ l rs Q /\
    forall slice i q offset output_len, Q !! (slice, i) = Some q -> 0 <= offset < q_len q -> 0 < output_len -> wrap 32 (q_read q) + offset < 2 ^ 32 ->
    exists f sl n, fifo s' slice i = Some (Some f) /\ readable_segments (seg s') f offset output_len = Some (inl sl) /\
      (0 < n)%nat /\ slices_bytes (seg s') sl = q_peek q offset n /\ vlen sl <= output_len /\ (Z.of_nat n = q_len q - offset \/ vlen sl = output_len).
Proof.
  intros Hnew Hmap Hl. destruct (reached avx2 base page size config s ahead l Hnew Hmap Hl true ltac:(done)) as (s' & rs & fr & hf & W & Q & Hrun & Hf & H).
  exists s', rs, Q. split_and!; try done. intros slice i q offset output_len Hq Ho Hout Hov. destruct (live_fifo _ _ _ _ _ _ _ _ _ H Hq) as (e & Hfifo & Hok & Hqr & _).
  rewrite (q_len_eq _ _ _ Hqr) in *. rewrite (qr_read _ _ _ Hqr) in Hov.
  destruct (readable_segments_spec _ _ _ _ _ offset output_len Hok Ho Hout Hov) as (sl & j & E & Hj & Eb & Hlen & Hall). exists (e_fifo e), sl, (Z.to_nat j). split_and!; try done; [lia| |].
  - rewrite Eb, (peek_bytes q (e_view e) (e_bytes e)) by (done || lia). f_equal. lia.
  - destruct (decide (j < vt (e_view e) - vh (e_view e) - offset)); [right; by apply Hall|left; lia].
Qed.

(** The vector and the scalar copy routines are interchangeable: whichever
    the processor selects, copying to and from a chain of chunks has the same
    effect, result and panics. *)
Theorem copy_variants_equal g chunk pos src len last :
  svm_fifo_copy_to_chunk_avx2 g chunk pos src len last = svm_fifo_copy_to_chunk_scalar g chunk pos src len last /\
  svm_fifo_copy_from_chunk_avx2 g chunk pos len last = svm_fifo_copy_from_chunk_scalar g chunk pos len last.
Proof. split; [apply (copy_to_selected true)|apply (copy_from_selected true)]. Qed.

(** ** Examples *)

(** Two slices in a mapping of a megabyte. *)
Definition example_config : SvmFifoSegmentConfig := segment_config 2 65536 50 0 0.
Definition example_segment : SvmFifoSegment + FifoSegmentError := segment_new 0 4096 (2 ^ 24 + 2 ^ 23) example_config.
Definition example_start : SvmFifoSegment :=
  match example_segment with
  | inl s => s
  | inr _ => fifo_segment (mk_segment 0 0 0 0 0 0 0 0 [] ∅ ∅ ∅) 0 0 0 [] 0 0 false 0 0 false
  end.
Definition example_before : list action := [Allocate 1 4096 TxFifo; Use 1 0 (Enqueue [7; 8; 9])].
Definition example_after : list action :=
  [Use 0 0 (Enqueue [1; 2; 3; 4]); Use 1 0 (Dequeue 2 [0; 0]); Use 0 0 (Dequeue 3 [0; 0; 0]); Free 1 0; Use 1 0 MaxDequeue; Use 0 0 (Enqueue [5])].
Definition example_actions : list action := example_before ++ Allocate 0 8192 RxFifo :: example_after.
Definition example_end : SvmFifoSegment :=
  match run_actions true example_start example_actions with Some (s, _) => s | None => example_start end.


Lemma segment_memory_partitioned_witness :
  exists s' rs Q lc lh M, run_actions true example_start example_actions = Some (s', rs) /\ f_run true ∅ example_actions rs Q /\
    free_chunk_lists (seg s') = Some lc /\ free_header_lists (seg s') = Some lh /\ mapM (fifo_memory s') (map_to_list Q).*1 = Some M /\
    concat lc ++ concat M.*2 ≡ₚ (map_to_list (chunks (seg s'))).*1 /\ concat lh ++ M.*1 ≡ₚ (map_to_list (headers (seg s'))).*1.
Proof. apply (segment_memory_partitioned true 0 4096 (2 ^ 24 + 2 ^ 23) example_config example_start false); vm_compute; reflexivity. Defined.


Lemma readable_segments_correct_witness :
  exists s' rs Q, run_actions true example_start example_actions = Some (s', rs) /\ f_run true ∅ example_actions rs Q /\
    forall slice i q offset output_len, Q !! (slice, i) = Some q -> 0 <= offset < q_len q -> 0 < output_len -> wrap 32 (q_read q) + offset < 2 ^ 32 ->
    exists f sl n, fifo s' slice i = Some (Some f) /\ readable_segments (seg s') f offset output_len = Some (inl sl) /\
      (0 < n)%nat /\ slices_bytes (seg s') sl = q_peek q offset n /\ vlen sl <= output_len /\ (Z.of_nat n = q_len q - offset \/ vlen sl = output_len).
Proof. apply (readable_segments_correct true 0 4096 (2 ^ 24 + 2 ^ 23) example_config example_start false); vm_compute; reflexivity. Defined.

End SvmTheorems.
