(* ===== verification/SvmPeers.v ===== *)
(** * A producer and a consumer in different processes

    A process that maps the segment attaches to a FIFO of another one: it
    builds its own lookup trees over the shared header and chunks.  One process
    writes through its state and the other reads through its own; neither sees
    the other's.  Operations interleave as wholes. *)

From S2P Require Import Prelude Ranges InfraBitmap InfraPool InfraRbTree InfraRbOps InfraRbMap.
From S2P Require Import SvmOoo SvmOooProofs SvmMemory SvmMemoryProofs SvmFifo SvmBudget SvmChain SvmGrow SvmFifoInv SvmFifoOps SvmFifoRead SvmSegment SvmSegmentProofs.
From S2P Require Import SvmLifeBudget SvmFifoLife SvmQueues SvmFamily SvmTheorems.

Module SvmPeers.
Import Ranges SvmOoo SvmOooProofs SvmMemory SvmMemoryProofs SvmFifo SvmBudget SvmChain SvmGrow SvmFifoInv SvmFifoOps SvmFifoRead SvmSegment SvmSegmentProofs
  SvmLifeBudget SvmFifoLife SvmQueues SvmFamily SvmTheorems.

#[local] Existing Instance RbOps.Z_key_order.

(** Operations of the consumer; the others are the producer's. *)
Definition consumes (op : fifo_op) : bool :=
  match op with Peek _ _ _ | Dequeue _ _ | DropDequeue _ | MaxDequeue => true | _ => false end.

(** The state of the producer's process is [fp], that of the consumer's [fc]. *)
Definition peer_op (avx2 : bool) (g : segment) (fp fc : Fifo) (op : fifo_op) : option (segment * Fifo * Fifo * fifo_out) :=
  if consumes op then '(g, fc, out) ← run_op avx2 g fc op; Some (g, fp, fc, out)
  else '(g, fp, out) ← run_op avx2 g fp op; Some (g, fp, fc, out).
Fixpoint run_peers (avx2 : bool) (g : segment) (fp fc : Fifo) (l : list fifo_op) : option (segment * Fifo * Fifo * list fifo_out) :=
  match l with
  | [] => Some (g, fp, fc, [])
  | op :: l' => '(g, fp, fc, out) ← peer_op avx2 g fp fc op; '(g, fp, fc, outs) ← run_peers avx2 g fp fc l'; Some (g, fp, fc, out :: outs)
  end.

(** One queue answers both. *)
Inductive q_run (short : bool) (q : queue) : list fifo_op -> list fifo_out -> queue -> Prop :=
| q_done : q_run short q [] [] q
| q_next op out q1 l outs q' : q_step short q op out q1 -> q_run short q1 l outs q' -> q_run short q (op :: l) (out :: outs) q'.

Implicit Types (g : segment) (fr : frees) (f : Fifo) (v : view) (B : Z -> Z) (q : queue) (Q : family).

(** ** Reading from another process *)

(** What the process of [f] keeps beside the trees plays no part in reading. *)
Definition peer f fc : Prop := hdr_off fc = hdr_off f /\ exists m, holds (ooo_deq_lookup fc) m.

Lemma peer_remove f fc k : peer f fc -> exists t, lookup_remove (ooo_deq_lookup fc) k = Some t /\ forall f', hdr_off f' = hdr_off f -> peer f' (set_deq_lookup t fc).
Proof.
  intros [E (m & Hm)]. unfold lookup_remove. destruct (RbMap.holds_remove Z.compare (fun _ => True) _ m k Hm I) as (t & -> & Ht). exists t. split; [done|]. intros f' Ef. split; [cbn; congruence|by eexists].
Qed.

Lemma drop_loop_peer n g f fc c hd t g' f' :
  drop_loop n g f c hd t = Some (g', f') -> peer f fc -> exists fc' u, drop_loop n g fc c hd t = Some (g', fc') /\ peer f' fc' /\ f' = set_deq_lookup u f.
Proof.
  revert g f fc c. induction n as [|n IH]; intros g f fc c H P; [done|]. cbn [drop_loop] in *. pose proof (proj1 P) as E. rewrite E in *.
  assert (forall f0, Some (g, f) = Some (g', f0) -> f0 = f' -> exists fc' u, Some (g, fc) = Some (g', fc') /\ peer f' fc' /\ f' = set_deq_lookup u f) as Hstop.
  { intros f0 [= -> ->] ->. exists fc, (ooo_deq_lookup f'). split_and!; try done. by destruct f'. }
  destruct (c =? 0); [by eapply Hstop|]. destruct (chunk_at g c) as [ch|]; [|done]. cbn [mbind option_bind] in *. destruct (f_pos_geq _ _); [|by eapply Hstop].
  destruct (negb _); [by eapply Hstop|]. destruct (hdr_at _ _) as [h|]; [|done]. cbn [mbind option_bind] in *. destruct (c =? h_tail_chunk h); [by eapply Hstop|]. destruct (c_next ch =? 0); [by eapply Hstop|].
  destruct (hdr_upd _ _ _) as [g1|]; [|done]. cbn [mbind option_bind] in *. destruct (peer_remove f fc (c_start_byte ch) P) as (t2 & -> & P2). cbn [mbind option_bind].
  destruct (lookup_remove (ooo_deq_lookup f) _) as [t1|]; [|done]. cbn [mbind option_bind] in *. destruct (release_chunk _ _ _) as [g2|]; [|done]. cbn [mbind option_bind] in *.
  destruct (IH _ _ (set_deq_lookup t2 fc) _ H) as (fc' & u & E2 & P' & ->); [by apply P2|]. by exists fc', u.
Qed.

Lemma drop_peer g f fc len g' f' n :
  drop_dequeue g f len = Some (g', f', n) -> peer f fc -> exists fc' u, drop_dequeue g fc len = Some (g', fc', n) /\ peer f' fc' /\ f' = set_deq_lookup u f.
Proof.
  intros H P. unfold drop_dequeue in *. pose proof (proj1 P) as E. rewrite E. destruct (hdr_at _ _) as [h|]; [|done]. cbn [mbind option_bind] in *. destruct (_ =? 0).
  { injection H as <- <- <-. exists fc, (ooo_deq_lookup f). split_and!; try done. by destruct f. }
  destruct (drop_loop _ _ f _ _ _) as [[g1 f1]|] eqn:Ed; [|done]. destruct (drop_loop_peer _ _ _ _ _ _ _ _ _ Ed P) as (fc' & u & -> & P' & ->). cbn [mbind option_bind] in *.
  rewrite (proj1 P'). destruct (hdr_upd _ _ _) as [g2|]; [|done]. cbn [mbind option_bind] in *. injection H as <- <- <-. by exists fc', u.
Qed.

(** A consumer operation does the same to the shared memory from any process. *)
Lemma consume_peer avx2 g f fc op g' f' out :
  run_op avx2 g f op = Some (g', f', out) -> consumes op = true -> peer f fc -> exists fc' u, run_op avx2 g fc op = Some (g', fc', out) /\ peer f' fc' /\ f' = set_deq_lookup u f.
Proof.
  intros H Hc P. assert (f = set_deq_lookup (ooo_deq_lookup f) f) as Eself by (by destruct f). destruct op; try discriminate Hc; cbn [run_op] in *.
  - unfold peek in *. rewrite (proj1 P). destruct (_ ← hdr_at _ _; _) as [[d n]|]; [|done]. cbn [mbind option_bind] in *. injection H as <- <- <-. by exists fc, (ooo_deq_lookup f).
  - unfold dequeue, peek in *. rewrite (proj1 P). destruct (_ ← hdr_at _ _; _) as [[d n]|]; [|done]. cbn [mbind option_bind] in *.
    destruct (drop_dequeue g f n) as [[[g1 f1] k]|] eqn:Ed; [|done]. destruct (drop_peer _ _ _ _ _ _ _ Ed P) as (fc' & u & -> & P' & ->). cbn [mbind option_bind] in *. injection H as <- <- <-. by exists fc', u.
  - destruct (drop_dequeue g f len) as [[[g1 f1] k]|] eqn:Ed; [|done]. destruct (drop_peer _ _ _ _ _ _ _ Ed P) as (fc' & u & -> & P' & ->). cbn [mbind option_bind] in *. injection H as <- <- <-. by exists fc', u.
  - unfold max_dequeue in *. rewrite (proj1 P). destruct (hdr_at _ _) as [h|]; [|done]. cbn [mbind option_bind] in *. injection H as <- <- <-. by exists fc, (ooo_deq_lookup f).
Qed.

(** The producer's invariant does not depend on its own consumer tree. *)
Lemma fifo_ok_deq g fr f v B u : (exists m, holds (ooo_deq_lookup f) m) -> fifo_ok g fr (set_deq_lookup u f) v B -> fifo_ok g fr f v B.
Proof. intros Hm [(h & [H1 H2 H3 H4 H5 H6 H7] & Ht) HB]. constructor; [|done]. exists h. split; [|done]. by constructor. Qed.

(** ** Runs *)

Section Runs.
Context (avx2 short : bool).

Definition ops_cost (l : list fifo_op) : Z := foldr (fun op n => op_cost op + n) 0 l.

Lemma peer_step g fr f fc v B q op :
  fifo_ok g fr f v B -> qrep q v B -> peer f fc -> op_ok op = true -> op_mode (vix v) op = true -> (short = false -> room g (op_cost op)) ->
  exists g' fr' f' fc' v' B' q' out, peer_op avx2 g f fc op = Some (g', f', fc', out) /\ q_step short q op out q' /\
    fifo_ok g' fr' f' v' B' /\ qrep q' v' B' /\ peer f' fc' /\ vix v' = vix v /\ (short = false -> took (op_cost op) g g').
Proof.
  intros Hok Hq P Ho Hm Hroom. destruct (op_step avx2 short g fr f v B q op Hok Hq Ho Hm Hroom) as (g' & fr' & f' & v' & B' & q' & out & E & [S1 S2 S3 S4 S5 S6 S7]).
  unfold peer_op. destruct (consumes op) eqn:Hc.
  - destruct (consume_peer _ _ _ _ _ _ _ _ E Hc P) as (fc' & u & -> & P' & ->). cbn [mbind option_bind]. exists g', fr', f, fc', v', B', q', out. split_and!; try done.
    apply (fifo_ok_deq _ _ _ _ _ u); [|done]. destruct Hok as [(h & HM & _) _]. apply (fk_deq _ _ _ _ _ HM).
  - rewrite E. cbn [mbind option_bind]. exists g', fr', f', fc, v', B', q', out. split_and!; try done. split; [rewrite S4; apply P|apply P].
Qed.

Lemma peers_run g fr f fc v B q l :
  fifo_ok g fr f v B -> qrep q v B -> peer f fc -> forallb (fun op => op_ok op && op_mode (vix v) op) l = true -> (short = false -> room g (ops_cost l)) ->
  exists g' f' fc' outs q', run_peers avx2 g f fc l = Some (g', f', fc', outs) /\ q_run short q l outs q'.
Proof.
  revert g fr f fc v B q. induction l as [|op l IH]; intros g fr f fc v B q Hok Hq P Hl Hroom; [eexists g, f, fc, [], q; split; [done|constructor]|].
  cbn [forallb] in Hl. rewrite !andb_true_iff in Hl. destruct Hl as [[Ho Hm] Hl]. cbn [run_peers]. change (ops_cost (op :: l)) with (op_cost op + ops_cost l) in Hroom.
  assert (0 <= ops_cost l) as Hc.
  { clear -Hl. induction l as [|op l IH]; [done|]. cbn [forallb] in Hl. rewrite !andb_true_iff in Hl. destruct Hl as [[Ho _] Hl]. pose proof (op_cost_nonneg op Ho). specialize (IH Hl). cbn. unfold ops_cost in IH. lia. }
  destruct (peer_step g fr f fc v B q op Hok Hq P Ho Hm) as (g1 & fr1 & f1 & fc1 & v1 & B1 & q1 & out & -> & Hst & Hok1 & Hq1 & P1 & Ev & Ht); [intros E; eapply room_weaken, (Hroom E); lia|].
  cbn [mbind option_bind]. destruct (IH g1 fr1 f1 fc1 v1 B1 q1 Hok1 Hq1 P1) as (g' & f' & fc' & outs & q' & -> & Hr).
  - by rewrite Ev.
  - intros E. eapply room_took; [exact (Hroom E)|exact (Ht E)].
  - cbn [mbind option_bind]. eexists g', f', fc', _, q'. split; [done|]. by econstructor.
Qed.

End Runs.

(** ** Attaching *)

Lemma attach_spec s fr hf f v B : seg_inv s fr hf -> fifo_ok (seg s) fr f v B -> exists fc, attach_at_svm_shared (seg s) (hdr_off f) = Some (inl fc) /\ peer f fc.
Proof.
  intros I [(h & HM & _) _]. pose proof (fk_at _ _ _ _ _ HM) as Hh. unfold attach_at_svm_shared. pose proof (header_valid _ _ _ _ _ I Hh) as Hv. rewrite (si_max _ _ _ I) in Hv. rewrite Hv. cbn [negb].
  destruct (hd_at _ _ (si_hdrs _ _ _ I) _ _ Hh) as [Ho Hoe]. pose proof (sk_index _ _ (si_seg _ _ _ I)) as Hi. pose proof (sk_max _ _ (si_seg _ _ _ I)) as Hm.
  unfold checked_add. rewrite (proj2 (Z.ltb_lt (hdr_off f + FIFO_HEADER_SIZE) _)), (proj2 (Z.ltb_ge (max_byte_index (seg s)) _)) by lia. rewrite Hh. cbn [mbind option_bind].
  pose proof (fk_hdr _ _ _ _ _ HM) as [K1 _ K3 _ _ K6 _]. rewrite K1, K3, K6. pose proof (ps_size _ (fk_pos _ _ _ _ _ HM)) as Psz. rewrite (proj2 (Z.eqb_neq (vsize v) 0)) by lia. cbn [orb].
  pose proof (fk_chain _ _ _ _ _ HM) as Hok.
  assert (forall c, c ∈ chain v -> fs_offset_is_valid (coff c) (max_byte_index (seg s)) = true) as Hval.
  { intros c Hc. destruct (chain_elem _ _ _ _ _ Hok c Hc) as (ch & Hch & _). by apply (offset_valid _ _ _ _ (ch_seg _ _ _ _ _ Hok) Hch). }
  destruct (last_off_elem _ (chain_nonempty v)) as (l & c & Ec & ->). rewrite (Hval (vfirst v)) by (destruct (chain_first v) as [l' ->]; left). rewrite (Hval c) by (rewrite Ec; apply elem_of_app; right; left). cbn [negb orb].
  destruct (new_state_spec (hdr_off f)) as (f0 & -> & Eo & Hq1 & Hq2 & _). cbn [mbind option_bind].
  destruct (initialize_spec (seg s) fr (chain v) (vs v) (ve v) f0 h Hok) as (enq & deq & me & md & -> & _ & H2 & _); try done; [by rewrite Eo|by rewrite first_off_chain|].
  cbn [mbind option_bind]. eexists. split; [done|]. split; [done|]. by exists md.
Qed.




End SvmPeers.
