(* ===== verification/SvmDefects.v ===== *)
(** * Behaviours of the FIFO outside its contract

    Runs of the model that show where the code of [svm/fifo.rs] and
    [svm/fifo_segment.rs] does not do what it means to; they are why the
    theorems about segments fix one way of writing past the tail and leave
    [set_size] and [overwrite_head] out. *)

From S2P Require Import Prelude Ranges InfraBitmap InfraPool InfraRbTree SvmOoo SvmMemory SvmFifo SvmSegment SvmQueues SvmFamily.

Module SvmDefects.
Import SvmOoo SvmMemory SvmFifo SvmSegment SvmQueues SvmFamily.

(** One slice in a mapping of a megabyte; a FIFO starts with chunks of half its
    capacity. *)
Definition small_segment (l : list action) : option (SvmFifoSegment * list answer) :=
  match segment_new 0 4096 (2 ^ 20) (segment_config 1 65536 50 0 0) with
  | inl s => run_actions false s l
  | inr _ => None
  end.
(** Calls on the FIFO of index 0. *)
Definition on_fifo {A} (l : list action) (k : segment -> Fifo -> option A) : option A :=
  '(s, _) ← small_segment l; f ← fifo s 0 0; f ← f; k (seg s) f.
Definition filled (n : nat) (b : Z) : list Z := replicate n b.

(** A scattered write followed by a write ahead of the tail changes the bytes
    of another FIFO.  The scattered write crosses into the second chunk without
    dropping the first from the producer's lookup tree; when that chunk has
    been read, released and given to the second FIFO, the write ahead finds it
    under its old key. *)
Example scattered_write_corrupts_neighbour :
  (rs ← snd <$> small_segment
    [Allocate 0 8192 RxFifo; Allocate 0 4096 RxFifo; Use 0 0 (EnqueueSegments [filled 5000 1]); Use 0 0 (DropDequeue 5000);
     Use 0 1 (Enqueue (filled 4000 7)); Use 0 1 (DropDequeue 4000); Use 0 1 (Enqueue (filled 4000 7)); Use 0 0 (EnqueueOoo 100 [255; 254]);
     Use 0 1 (Dequeue 4000 (filled 4000 0))];
   r ← list.last rs;
   match r with Used (Data d n) => Some (n, take 4 (drop 1099 d)) | _ => None end) = Some (4000, [7; 255; 254; 7]).
Proof. vm_compute. reflexivity. Qed.

(** [overwrite_head] starts at the tail chunk and finds nothing when the head
    is in an earlier one. *)
Example overwrite_head_misses_head :
  on_fifo [Allocate 0 8192 RxFifo; Use 0 0 (Enqueue (filled 5000 1))] (fun g f => snd <$> overwrite_head false g f [9; 9; 9]) = Some 0.
Proof. vm_compute. reflexivity. Qed.

(** [set_size] accepts a size below what is written ahead of the tail; once
    those bytes are promoted the queue is larger than its size, and
    [max_enqueue] underflows. *)
Example set_size_ignores_ahead :
  on_fifo [Allocate 0 8192 RxFifo; Use 0 0 (EnqueueOoo 4000 (filled 3000 1))] (fun g f =>
    '(g, r) ← set_size g f 4096;
    '(g, f, n) ← enqueue false g f (filled 4000 2);
    Some (r, n, max_enqueue g f)) = Some (inl tt, 7000, None).
Proof. vm_compute. reflexivity. Qed.

(** [readable_segments] adds the offset to the head without wrapping. *)
Example readable_segments_overflows :
  on_fifo [Allocate 0 8192 RxFifo] (fun g f =>
    '(g, f) ← init_pointers g f (2 ^ 32 - 10) (2 ^ 32 - 10);
    '(g, f, n) ← enqueue false g f (filled 100 1);
    Some (n, readable_segments g f 50 4)) = Some (100, None).
Proof. vm_compute. reflexivity. Qed.

(** A scattered write that is refused because its pieces do not add up has
    already moved the tail chunk: the next write goes to the second chunk and
    the reader finds the refused bytes. *)
Example refused_write_is_read :
  on_fifo [Allocate 0 8192 RxFifo] (fun g f =>
    '(g, f, r) ← enqueue_segments false g f 5001 [filled 5000 1];
    '(g, f, n) ← enqueue false g f [2; 3; 4];
    '(d, k) ← peek false g f 0 3 [0; 0; 0];
    Some (r, n, d, k)) = Some (inr SegmentExhausted, 3, [1; 1; 1], 3).
Proof. vm_compute. reflexivity. Qed.

(** Freeing a FIFO subtracts its current size from the slice's [virtual_mem],
    allocating it added the original one. *)
Example virtual_mem_drifts :
  ('(s, _) ← small_segment [Allocate 0 4096 RxFifo];
   f ← fifo s 0 0; f ← f;
   '(g, _) ← set_size (seg s) f 8192;
   '(s, _) ← free_server_fifo (set_seg g s) 0 0;
   Some (virtual_mem <$> slices (seg s))) = Some [2 ^ 64 - 4096].
Proof. vm_compute. reflexivity. Qed.

End SvmDefects.
