(* ===== verification/SessionRx.v ===== *)
(** * Delivery of received payload to a session ([hammer-service/src/session/core.rs])

    [enqueue_rx] copies the bytes of a packet, a chain of buffers, into the
    receive FIFO of a session: in order when the packet continues the stream,
    ahead of it when [offset] is not zero.  It is the only place where packet
    bytes become application bytes.

    A session is its receive FIFO and the flag [rx_event]; the other fields of
    [Session] and [SessionWorker] play no part here.  The FIFO is shared ([Rc])
    and changed in place, so its state is written back to the session on every
    path.  A chain is the list of the current bytes of its buffers. *)

From S2P Require Import Prelude InfraPool SvmMemory SvmFifo.

Module SessionRx.
Import SvmMemory SvmFifo.

Record SessionHandle : Type := session_handle { worker_index : Z; session_index : Z }.

Record Session : Type := session_ { rx_fifo : option Fifo; rx_event : bool }.
Definition set_fifo (f : Fifo) (s : Session) : Session := session_ (Some f) (rx_event s).
Definition set_rx_event (s : Session) : Session := session_ (rx_fifo s) true.

Record SessionWorker : Type := session_worker {
  sw_index : Z;
  sessions : Pool.t Session;
  sessions_to_enqueue : list SessionHandle
}.
Definition set_sessions (p : Pool.t Session) (w : SessionWorker) : SessionWorker :=
  session_worker (sw_index w) p (sessions_to_enqueue w).

Inductive SessionError : Type :=
| NoSession
| Invalid
| RxOutOfOrderOffsetOverflow (session_id offset buffered_len : Z)
| RxOutOfOrderEnqueue (session_id offset : Z) (source : FifoError).

Inductive RxDelivery : Type :=
| NotAccepted (rx_available : Z)
| InOrder (accepted promoted rx_available : Z)
| OutOfOrder (accepted : Z) (newest : option (Z * Z)) (rx_available : Z).

Definition session_from_handle (w : SessionWorker) (handle : SessionHandle) : option (option Session) :=
  if negb (worker_index handle =? sw_index w) then Some None else Pool.get (sessions w) (session_index handle).

(** The local variables of [enqueue_rx]. *)
Record rx_locals : Type := mk_locals {
  rl_accepted : Z;
  rl_promoted : Z;
  rl_buffered : Z;
  rl_skip : Z;
  rl_newest : option (Z * Z)
}.

Section rx.
Context (avx2 : bool).

(** A buffer that continues the stream; [true] goes on with the next one. *)
Definition rx_in_order (session_id : Z) (g : segment) (f : Fifo) (l : rx_locals) (bytes : list Z) :
    option (segment * Fifo * (rx_locals * bool + SessionError)) :=
  let skip := Z.min (rl_skip l) (vlen bytes) in
  let left := rl_skip l - skip in
  let bytes := drop (Z.to_nat skip) bytes in
  if vlen bytes =? 0 then Some (g, f, inl (mk_locals (rl_accepted l) (rl_promoted l) (rl_buffered l) left (rl_newest l), true)) else
  free ← max_enqueue g f;
  g ← (if free <=? vlen bytes then want_deq_notification g f else Some g);
  '(g, f, r) ← enqueue_ooo avx2 g f 0 bytes;
  match r with
  | inr source => Some (g, f, inr (RxOutOfOrderEnqueue session_id 0 source))
  | inl r =>
    a ← checked_add 32 (rl_accepted l) (accepted r);
    p ← checked_add 32 (rl_promoted l) (delivered r);
    Some (g, f, inl (mk_locals a p (rl_buffered l) (left + delivered r) (rl_newest l), accepted r =? vlen bytes))
  end.

(** A buffer ahead of the stream. *)
Definition rx_ahead (session_id offset : Z) (g : segment) (f : Fifo) (l : rx_locals) (bytes : list Z) :
    option (segment * Fifo * (rx_locals * bool + SessionError)) :=
  match checked_add 32 offset (rl_buffered l) with
  | None => Some (g, f, inr (RxOutOfOrderOffsetOverflow session_id offset (rl_buffered l)))
  | Some chunk_offset =>
    '(g, f, r) ← enqueue_ooo avx2 g f chunk_offset bytes;
    match r with
    | inr (OutOfOrderCapacityExceeded _ _) | inr SegmentExhausted => Some (g, f, inl (l, false))
    | inr source => Some (g, f, inr (RxOutOfOrderEnqueue session_id chunk_offset source))
    | inl r =>
      a ← checked_add 32 (rl_accepted l) (accepted r);
      p ← checked_add 32 (rl_promoted l) (delivered r);
      let newest := start ← res_start r; if res_len r =? 0 then None else Some (start, res_len r) in
      Some (g, f, inl (mk_locals a p (rl_buffered l) (rl_skip l) newest, true))
    end
  end.

Fixpoint rx_loop (session_id offset : Z) (g : segment) (f : Fifo) (l : rx_locals) (chain : list (list Z)) :
    option (segment * Fifo * (rx_locals + SessionError)) :=
  match chain with
  | [] => Some (g, f, inl l)
  | bytes :: chain =>
    if u32_max <? vlen bytes then None else
    '(g, f, r) ← (if offset =? 0 then rx_in_order session_id g f l bytes else rx_ahead session_id offset g f l bytes);
    match r with
    | inr e => Some (g, f, inr e)
    | inl (l, false) => Some (g, f, inl l)
    | inl (l, true) =>
      n ← checked_add 32 (rl_buffered l) (vlen bytes);
      rx_loop session_id offset g f (mk_locals (rl_accepted l) (rl_promoted l) n (rl_skip l) (rl_newest l)) chain
    end
  end.

Definition store_fifo (w : SessionWorker) (index : Z) (f : Fifo) : option SessionWorker :=
  '(p, _) ← Pool.get_mut (sessions w) index (set_fifo f); Some (set_sessions p w).

(** The first in-order delivery since the last flush queues the session. *)
Definition note_rx_event (w : SessionWorker) (handle : SessionHandle) : option SessionWorker :=
  s ← Pool.get (sessions w) (session_index handle);
  s ← s;
  if rx_event s then Some w else
  '(p, _) ← Pool.get_mut (sessions w) (session_index handle) set_rx_event;
  Some (session_worker (sw_index w) p (sessions_to_enqueue w ++ [handle])).

Definition enqueue_rx (g : segment) (w : SessionWorker) (handle : SessionHandle) (chain : list (list Z)) (offset : Z) :
    option (segment * SessionWorker * (RxDelivery + SessionError)) :=
  session ← session_from_handle w handle;
  match session with
  | None => Some (g, w, inr NoSession)
  | Some session =>
    match rx_fifo session with
    | None => Some (g, w, inr Invalid)
    | Some f =>
      '(g, f, r) ← rx_loop (session_index handle) offset g f (mk_locals 0 0 0 0 None) chain;
      w ← store_fifo w (session_index handle) f;
      match r with
      | inr e => Some (g, w, inr e)
      | inl l =>
        free ← max_enqueue g f;
        let rx_available := Z.min free u32_max in
        g ← (if rx_available =? 0 then want_deq_notification g f else Some g);
        w ← (if offset =? 0 then note_rx_event w handle else Some w);
        Some (g, w, inl (
          if rl_accepted l =? 0 then NotAccepted rx_available
          else if offset =? 0 then InOrder (rl_accepted l) (rl_promoted l) rx_available
          else OutOfOrder (rl_accepted l) (rl_newest l) rx_available))
      end
    end
  end.

End rx.

End SessionRx.
