(* ===== verification/SessionRxProofs.v ===== *)
(** * What delivering to a session does to its queue

    Proofs about [SessionRx] against the queue a FIFO holds ([SvmQueues]).  A
    chain that carries bytes of a stream at their place leaves a queue that
    agrees with the stream: delivering it buffer by buffer, skipping what was
    promoted on the way, is the same as delivering it at once. *)

From S2P Require Import Prelude Ranges InfraBitmap InfraPool InfraRbTree InfraRbOps InfraRbMap.
From S2P Require Import SvmOoo SvmOooProofs SvmMemory SvmMemoryProofs SvmFifo SvmBudget SvmChain SvmGrow SvmFifoInv SvmFifoOps SvmFifoRead SvmSegment SvmSegmentProofs.
From S2P Require Import SvmQueues SvmPeers SessionRx.

Module SessionRxProofs.
Import Ranges SvmOoo SvmOooProofs SvmMemory SvmMemoryProofs SvmFifo SvmBudget SvmChain SvmGrow SvmFifoInv SvmFifoOps SvmFifoRead SvmQueues SvmPeers SessionRx.

Implicit Types (g : segment) (f fc : Fifo) (q : queue) (S : Z -> Z).

(** ** A FIFO shared by the stack and an application *)

(** The state of the stack is [f], that of the application [fc]. *)
Definition shared g f fc q : Prop := (exists fr v B, fifo_ok g fr f v B /\ qrep q v B /\ vix v = true) /\ peer f fc.

Definition known q (y : Z) : Prop := is_Some (q_bytes q !! y).

Record q_wf q : Prop := {
  qw_cap : 0 < q_cap q <= 2 ^ 31 - 2 ^ 24;
  qw_pos : q_read q <= q_write q <= q_read q + q_cap q;
  qw_readable y : q_read q <= y < q_write q -> known q y;
  qw_gap : ~ known q (q_write q);
  qw_inside y : known q y -> q_read q <= y < q_read q + q_cap q
}.

Lemma shared_wf g f fc q : shared g f fc q -> q_wf q.
Proof.
  intros [(fr & v & B & Hok & Q & _) _]. pose proof Hok as [(h & HM & _) _]. pose proof (fk_pos _ _ _ _ _ HM) as P. pose proof (ps_used _ P) as Pu. pose proof (ps_size _ P) as Ps.
  destruct (Q) as [Q1 Q2 Q3 _]. constructor; rewrite ?Q1, ?Q2, ?Q3; try done.
  - intros y Hy. apply (qrep_live _ _ _ _ Q). by left.
  - intros [Hy|Hy]%(qrep_live _ _ _ _ Q); [lia|]. pose proof (covered_ahead v _ P Hy). lia.
  - intros y [Hy|Hy]%(qrep_live _ _ _ _ Q); [lia|]. pose proof (covered_ahead v _ P Hy). destruct Hy as (r & (n & -> & Hn)%list_elem_of_fmap & Hr). pose proof (ps_ahead _ P n Hn). cbn in Hr. lia.
Qed.

Section Queue.
Context (avx2 short : bool).

Lemma shared_produce g f fc q op :
  shared g f fc q -> consumes op = false -> op_ok op = true -> op_mode true op = true -> (short = false -> room g (op_cost op)) ->
  exists g' f' q' out, run_op avx2 g f op = Some (g', f', out) /\ q_step short q op out q' /\ shared g' f' fc q' /\ (short = false -> took (op_cost op) g g').
Proof.
  intros [(fr & v & B & Hok & Q & Hix) P] Hc Ho Hm Hr. assert (op_mode (vix v) op = true) as Hm' by (by rewrite Hix).
  destruct (peer_step avx2 short g fr f fc v B q op Hok Q P Ho Hm' Hr) as (g' & fr' & f' & fc' & v' & B' & q' & out & E & Hs & Hok' & Q' & P' & Ev & Ht).
  unfold peer_op in E. rewrite Hc in E. destruct (run_op avx2 g f op) as [[[g1 f1] o]|]; [|done]. cbn [mbind option_bind] in E. injection E as -> -> -> ->.
  exists g', f', q', out. split_and!; try done. split; [|done]. exists fr', v', B'. split_and!; congruence.
Qed.

Lemma shared_consume g f fc q op :
  shared g f fc q -> consumes op = true -> op_ok op = true -> (short = false -> room g (op_cost op)) ->
  exists g' fc' q' out, run_op avx2 g fc op = Some (g', fc', out) /\ q_step short q op out q' /\ shared g' f fc' q' /\ (short = false -> took (op_cost op) g g').
Proof.
  intros [(fr & v & B & Hok & Q & Hix) P] Hc Ho Hr. assert (op_mode (vix v) op = true) as Hm' by (by destruct op).
  destruct (peer_step avx2 short g fr f fc v B q op Hok Q P Ho Hm' Hr) as (g' & fr' & f' & fc' & v' & B' & q' & out & E & Hs & Hok' & Q' & P' & Ev & Ht).
  unfold peer_op in E. rewrite Hc in E. destruct (run_op avx2 g fc op) as [[[g1 f1] o]|]; [|done]. cbn [mbind option_bind] in E. injection E as -> <- -> ->.
  exists g', fc', q', out. split_and!; try done. split; [|done]. exists fr', v', B'. split_and!; congruence.
Qed.

(** Signals are not part of the queue. *)
Lemma shared_notify g f fc q : shared g f fc q -> exists g', want_deq_notification g f = Some g' /\ shared g' f fc q /\ top g' = top g.
Proof.
  intros [(fr & v & B & [(h & HM & Htc) HB] & Q & Hix) P]. unfold want_deq_notification, sig_upd.
  destruct (hdr_upd_spec g (hdr_off f) h (fun h => set_signals (set_want_ntf 1 (h_signals h)) h) (fk_at _ _ _ _ _ HM)) as (g' & E & D & Hh & Eb).
  exists g'. split; [done|]. split; [|by eapply hdr_upd_top]. split; [|done]. exists fr, v, B. split_and!; try done. constructor; [|by rewrite Eb]. exists (set_signals (set_want_ntf 1 (h_signals h)) h). split; [|exact Htc].
  destruct HM as [M1 M2 [K1 K2 K3 K4 K5 K6 K7] M4 M5 M6 M7]. constructor; try done; [by eapply chain_ok_data|]. constructor; try done. by rewrite (ds_slices _ _ _ D).
Qed.

Lemma shared_max_enqueue g f fc q : shared g f fc q -> max_enqueue g f = Some (q_free q).
Proof. intros [(fr & v & B & Hok & Q & _) _]. by rewrite (max_enqueue_spec _ _ _ _ _ Hok), (q_free_eq _ _ _ Q). Qed.

(** ** Queues that agree with a stream *)

(** Position [y] of the queue is position [y + D] of the stream. *)
Definition agrees S (D : Z) q : Prop := forall y b, q_bytes q !! y = Some b -> b = S (y + D).

Lemma vlen_bytes_of S x n : 0 <= n -> vlen (bytes_of S x n) = n.
Proof. intros H. unfold vlen. rewrite length_bytes_of. lia. Qed.

Lemma bytes_of_lookup S x n i : 0 <= i < n -> bytes_of S x n !! Z.to_nat i = Some (S (x + i)).
Proof.
  intros H. unfold bytes_of. rewrite list_lookup_fmap, lookup_zseq_lt by lia. cbn. do 2 f_equal. lia.
Qed.

Lemma agrees_store S D q x n : agrees S D q -> 0 <= n -> forall y b, store_list (q_bytes q) x (bytes_of S (x + D) n) !! y = Some b -> b = S (y + D).
Proof.
  intros H Hn y b. rewrite store_lookup, vlen_bytes_of by done. destruct (decide _) as [Hy|]; [|by apply H].
  rewrite (bytes_of_lookup _ _ _ (y - x)) by lia. intros [= <-]. f_equal. lia.
Qed.

Lemma known_store q x l y : is_Some (store_list (q_bytes q) x l !! y) <-> known q y \/ x <= y < x + vlen l.
Proof.
  rewrite store_lookup. destruct (decide _) as [Hy|Hy]; [|unfold known; tauto]. split; [tauto|]. intros _. apply lookup_lt_is_Some. unfold vlen in Hy. lia.
Qed.

Lemma bytes_of_take S x n w : 0 <= w <= n -> take (Z.to_nat w) (bytes_of S x n) = bytes_of S x w.
Proof. intros H. replace n with (w + (n - w)) by lia. rewrite bytes_of_app by lia. rewrite take_app_length'; [done|]. rewrite length_bytes_of. lia. Qed.
Lemma bytes_of_drop S x n w : 0 <= w <= n -> drop (Z.to_nat w) (bytes_of S x n) = bytes_of S (x + w) (n - w).
Proof. intros H. replace n with (w + (n - w)) at 1 by lia. rewrite bytes_of_app by lia. rewrite drop_app_length'; [done|]. rewrite length_bytes_of. lia. Qed.
Lemma bytes_of_split S x b rest : b ++ rest = bytes_of S x (vlen (b ++ rest)) -> b = bytes_of S x (vlen b) /\ rest = bytes_of S (x + vlen b) (vlen rest).
Proof.
  intros H. pose proof (vlen_nonneg b). pose proof (vlen_nonneg rest). rewrite vlen_app, bytes_of_app in H by done. apply app_inj_1 in H as [? ?]; [by split|]. rewrite length_bytes_of. unfold vlen. lia.
Qed.

(** The queue after the packet bytes from [x] to [x + n] were offered to it. *)
Record offered S (D cost : Z) g fc q (x n : Z) g' f' q' : Prop := {
  of_shared : shared g' f' fc q';
  of_agrees : agrees S D q';
  of_read : q_read q' = q_read q;
  of_cap : q_cap q' = q_cap q;
  of_write : q_write q <= q_write q';
  of_old y : known q y -> known q' y;
  of_new y : known q' y -> known q y \/ x <= y < x + n;
  of_took : short = false -> took cost g g'
}.

Lemma offered_none S D g f fc q x n cost : shared g f fc q -> agrees S D q -> 0 <= cost -> offered S D cost g fc q x n g f q.
Proof. intros. constructor; try done; [tauto|]. intros _. by eapply took_weaken, top_took. Qed.

Lemma offered_trans S D c1 c2 g fc q x n m g1 f1 q1 g2 f2 q2 :
  offered S D c1 g fc q x n g1 f1 q1 -> offered S D c2 g1 fc q1 (x + n) m g2 f2 q2 -> 0 <= n -> 0 <= m -> offered S D (c1 + c2) g fc q x (n + m) g2 f2 q2.
Proof.
  intros [A1 A2 A3 A4 A5 A6 A7 A8] [B1 B2 B3 B4 B5 B6 B7 B8] Hn Hm. constructor; try done; try congruence; try lia; [auto| |].
  - intros y Hy. destruct (B7 y Hy) as [Hy1|]; [destruct (A7 y Hy1); [tauto|right; lia]|right; lia].
  - intros E. eapply took_trans; eauto.
Qed.

(** Offering more than was used. *)
Lemma offered_more S D c1 c2 g fc q x n y m g' f' q' : offered S D c1 g fc q x n g' f' q' -> c1 <= c2 -> y <= x -> x + n <= y + m -> offered S D c2 g fc q y m g' f' q'.
Proof.
  intros [A1 A2 A3 A4 A5 A6 A7 A8] Hc Hy Hm. constructor; try done.
  - intros z Hz. destruct (A7 z Hz); [tauto|right; lia].
  - intros E. eapply took_weaken; eauto.
Qed.

Lemma put_in_order S D g f fc q n :
  shared g f fc q -> agrees S D q -> 0 < n <= u32_max -> (short = false -> room g (grow_cost n)) ->
  exists g' f' q' w, enqueue_ooo avx2 g f 0 (bytes_of S (q_write q + D) n) = Some (g', f', inl (ooo_result w (q_write q' - q_write q - w) None 0)) /\
    offered S D (grow_cost n) g fc q (q_write q) n g' f' q' /\ 0 <= w <= n /\ q_write q + w <= q_write q' /\ (w = 0 -> q_write q' = q_write q) /\
    (short = false -> w = Z.min n (q_free q)).
Proof.
  intros Hs Ha Hn Hroom. remember (bytes_of S (q_write q + D) n) as src eqn:Es. assert (vlen src = n) as El by (rewrite Es; apply vlen_bytes_of; lia).
  destruct (shared_produce g f fc q (EnqueueOoo 0 src) Hs) as (g' & f' & q' & out & E & St & Hs' & Ht); try done; [cbn; by rewrite El|]. cbn [op_cost] in Ht. rewrite Z.add_0_l, El in Ht.
  pose proof (shared_wf _ _ _ _ Hs) as W. pose proof (shared_wf _ _ _ _ Hs') as W'. cbn [run_op] in E. destruct (enqueue_ooo _ _ _ _ _) as [[[g1 f1] r]|]; [|done]. cbn [mbind option_bind] in E. injection E as -> -> E.
  inversion St as [|src' w q1 Hw Hall Eq|? ? ? Hp|? ? Hp|? ? Hp|? ? Hp| | | | | | | |]; clear St; simplify_eq; try lia. destruct r as [r|]; [|done]. simplify_eq.
  rewrite El in *. eexists g', f', (q_put q (take (Z.to_nat w) _)), w. split; [done|]. rewrite bytes_of_take in * by lia. set (l := bytes_of S _ w) in *. assert (vlen l = w) as Ew by (apply vlen_bytes_of; lia).
  assert (forall y, known (q_put q l) y <-> known q y \/ q_write q <= y < q_write q + w) as Hk by (intros y; rewrite <- Ew; apply known_store).
  assert (q_write q + w <= q_write (q_put q l)) as Hge.
  { destruct (decide (q_write (q_put q l) < q_write q + w)) as [Hlt|]; [|lia]. destruct (qw_gap _ W'). apply Hk. pose proof (qw_pos _ W). pose proof (qw_pos _ W').
    destruct (decide (q_write (q_put q l) < q_write q)); [left; apply (qw_readable _ W); cbn in *; lia|right; lia]. }
  split_and!; try done; try lia.
  - constructor; try done; [|lia|intros y Hy; apply Hk; tauto|intros y Hy%Hk; destruct Hy; [tauto|right; lia]]. intros y b Hy. apply (agrees_store S D q (q_write q) w Ha ltac:(lia) y b Hy).
  - intros ->. assert (~ known (q_put q l) (q_write q)) as Hno by (rewrite Hk; intros [?|?]; [by apply (qw_gap _ W)|lia]).
    destruct (decide (q_write q < q_write (q_put q l))); [|lia]. destruct Hno. apply (qw_readable _ W'). pose proof (qw_pos _ W). cbn in *. lia.
Qed.

Lemma put_ahead S D g f fc q offset n :
  shared g f fc q -> agrees S D q -> 0 < offset <= u32_max -> 0 <= n <= u32_max -> (short = false -> room g (grow_cost (offset + n))) ->
  exists g' f' q' r, enqueue_ooo avx2 g f offset (bytes_of S (q_write q + offset + D) n) = Some (g', f', r) /\
    offered S D (grow_cost (offset + n)) g fc q (q_write q + offset) n g' f' q' /\ q_write q' = q_write q /\
    match r with
    | inl r => accepted r = n /\ delivered r = 0 /\ (forall y, q_write q + offset <= y < q_write q + offset + n -> known q' y) /\
        (forall start, res_start r = Some start -> 0 < start /\ start + res_len r <= q_free q /\ 0 < res_len r /\ forall y, q_write q + start <= y < q_write q + start + res_len r -> known q' y)
    | inr (OutOfOrderCapacityExceeded _ _) => q_free q < offset + n
    | inr e => e = SegmentExhausted /\ short = true
    end.
Proof.
  intros Hs Ha Hoff Hn Hroom. remember (bytes_of S (q_write q + offset + D) n) as src eqn:Es. assert (vlen src = n) as El by (rewrite Es; apply vlen_bytes_of; lia).
  destruct (shared_produce g f fc q (EnqueueOoo offset src) Hs) as (g' & f' & q' & out & E & St & Hs' & Ht); try done; [cbn; lia|cbn; by rewrite El|]. cbn [op_cost] in Ht. rewrite El in Ht.
  cbn [run_op] in E. destruct (enqueue_ooo _ _ _ _ _) as [[[g1 f1] r]|]; [|done]. cbn [mbind option_bind] in E. injection E as -> -> E. assert (0 <= grow_cost (offset + n)) as Hgc by (apply grow_cost_nonneg; lia).
  inversion St as [|? ? ? ? ? Eq|? ? r' Hp Hfit Ea Ed Hnew|? ? Hp Hfull|? ? Hp Hsh|? ? Hp| | | | | | | |]; clear St; simplify_eq; try lia.
  - destruct r as [r|]; [|done]. simplify_eq. eexists g', f', (q_put_at q offset _), _. split; [done|].
    assert (forall y, known (q_put_at q offset (bytes_of S (q_write q + offset + D) n)) y <-> known q y \/ q_write q + offset <= y < q_write q + offset + n) as Hk by (intros y; pose proof (known_store q (q_write q + offset) (bytes_of S (q_write q + offset + D) n) y) as Hks; by rewrite El in Hks).
    split_and!; try done; [|by rewrite Ea|intros y Hy; apply Hk; tauto|].
    + constructor; try done; [|intros y Hy; apply Hk; tauto|intros y Hy; by apply Hk]. intros y b Hy. apply (agrees_store S D q (q_write q + offset) n Ha ltac:(lia) y b Hy).
    + intros start Est. unfold q_newest in Hnew. rewrite Est in Hnew. rewrite El in *. destruct Hnew as (N1 & N2 & N3 & N4). split_and!; try lia. done.
  - destruct r as [|er]; [done|]. simplify_eq. eexists g', f', q', _. split; [done|]. split_and!; [by constructor; try done; tauto|done|lia].
  - destruct r as [|er]; [done|]. simplify_eq. eexists g', f', q', _. split; [done|]. split_and!; [by constructor; try done; tauto|done|done..].
Qed.

(** ** Chains *)

Lemma vlen_cons {A} (a : A) l : vlen (a :: l) = vlen l + 1.
Proof. unfold vlen. cbn [length]. lia. Qed.

(** Bounds of the counters: what was accepted and promoted is in the queue. *)
Definition locals_ok q (l : rx_locals) : Prop :=
  0 <= rl_accepted l /\ 0 <= rl_promoted l /\ rl_accepted l + rl_promoted l <= q_write q - q_read q.

Lemma checked_add_small a b : a + b <= u32_max -> checked_add 32 a b = Some (a + b).
Proof. intros H. unfold checked_add. rewrite (proj2 (Z.ltb_lt _ _)); [done|]. unfold u32_max in H. lia. Qed.

(** What a chain that continues the stream at [x] leaves. *)
Record in_order_done S (D cost : Z) g fc q (l : rx_locals) (x n : Z) g' f' q' (l' : rx_locals) : Prop := {
  io_offered : offered S D cost g fc q x n g' f' q';
  io_locals : locals_ok q' l';
  io_count : rl_accepted l' + rl_promoted l' - (rl_accepted l + rl_promoted l) = q_write q' - q_write q;
  io_mono : rl_accepted l <= rl_accepted l' /\ rl_promoted l <= rl_promoted l';
  io_none : rl_accepted l' = rl_accepted l -> q_write q' = q_write q;
  io_full : short = false -> Z.min (x + n) (q_read q + q_cap q) <= q_write q'
}.

Lemma in_order_buffer S D sid g f fc q l x bytes :
  shared g f fc q -> agrees S D q -> locals_ok q l -> bytes = bytes_of S (x + D) (vlen bytes) -> vlen bytes <= u32_max ->
  rl_skip l = q_write q - x -> x <= q_write q -> (short = false -> room g (grow_cost (vlen bytes))) ->
  exists g' f' q' l' b, rx_in_order avx2 sid g f l bytes = Some (g', f', inl (l', b)) /\ in_order_done S D (grow_cost (vlen bytes)) g fc q l x (vlen bytes) g' f' q' l' /\
    rl_buffered l' = rl_buffered l /\ (b = true -> x + vlen bytes <= q_write q' /\ rl_skip l' = q_write q' - (x + vlen bytes)) /\ (b = false -> short = false -> q_read q + q_cap q <= q_write q').
Proof.
  intros Hs Ha Hl Eb Hm Esk Hx Hroom. pose proof (shared_wf _ _ _ _ Hs) as W. pose proof (qw_pos _ W) as Wp. pose proof (qw_cap _ W) as Wc. pose proof (vlen_nonneg bytes) as Hn. set (m := vlen bytes) in *. unfold rx_in_order. fold m. rewrite Esk.
  pose proof (grow_cost_nonneg m Hn) as Hgc. set (skip := Z.min _ _). assert (drop (Z.to_nat skip) bytes = bytes_of S (x + skip + D) (m - skip)) as -> by (rewrite Eb, bytes_of_drop by lia; f_equal; lia).
  rewrite vlen_bytes_of by lia. destruct (Z.eqb_spec (m - skip) 0) as [Ez|Hnz].
  { eexists g, f, q, _, true. split; [done|]. split; [|cbn; split_and!; [done|lia|done]]. constructor; cbn; try lia; [by apply offered_none|done]. }
  assert (x + skip = q_write q) as Ew by lia. rewrite Ew, (shared_max_enqueue _ _ _ _ Hs). cbn [mbind option_bind].
  assert (exists g1, (if q_free q <=? m - skip then want_deq_notification g f else Some g) = Some g1 /\ shared g1 f fc q /\ top g1 = top g) as (g1 & -> & Hs1 & Et).
  { destruct (_ <=? _); [by apply shared_notify|by exists g]. }
  cbn [mbind option_bind]. destruct (put_in_order S D g1 f fc q (m - skip) Hs1 Ha ltac:(lia)) as (g' & f' & q' & w & -> & O & Hw & Hge & Hz & Hall).
  { intros E. eapply top_room; [exact Et|]. eapply room_weaken, (Hroom E). apply grow_cost_mono. lia. }
  cbn [mbind option_bind accepted delivered]. pose proof (shared_wf _ _ _ _ (of_shared _ _ _ _ _ _ _ _ _ _ _ O)) as W'. pose proof (qw_pos _ W') as Wp'. pose proof (of_read _ _ _ _ _ _ _ _ _ _ _ O) as Er. pose proof (of_cap _ _ _ _ _ _ _ _ _ _ _ O) as Ec.
  destruct Hl as (L1 & L2 & L3). rewrite !checked_add_small by (unfold u32_max; lia). cbn [mbind option_bind].
  eexists g', f', q', _, (w =? m - skip). split; [done|]. cbn [rl_buffered rl_skip]. unfold q_free, q_len in *. split.
  - constructor; cbn; unfold locals_ok; cbn; try lia; [|intros E; specialize (Hall E); lia].
    apply (offered_more S D (grow_cost (m - skip)) _ g fc q (q_write q) (m - skip)); [|apply grow_cost_mono; lia|lia..]. destruct O. constructor; try done. intros E. eapply took_from; eauto.
  - split; [done|]. split; [intros Hb%Z.eqb_eq; lia|intros Hb%Z.eqb_neq E; specialize (Hall E); lia].
Qed.

Lemma in_order_loop S D sid N chain : forall g f fc q l x,
  shared g f fc q -> agrees S D q -> locals_ok q l -> concat chain = bytes_of S (x + D) (vlen (concat chain)) ->
  rl_skip l = q_write q - x -> x <= q_write q -> 0 <= rl_buffered l -> rl_buffered l + vlen (concat chain) <= u32_max -> vlen (concat chain) <= N ->
  (short = false -> room g (vlen chain * grow_cost N)) ->
  exists g' f' q' l', rx_loop avx2 sid 0 g f l chain = Some (g', f', inl l') /\ in_order_done S D (vlen chain * grow_cost N) g fc q l x (vlen (concat chain)) g' f' q' l'.
Proof.
  induction chain as [|b chain IH]; intros g f fc q l x Hs Ha Hl Eb Esk Hx Hb Hbn HN Hroom; cbn [rx_loop concat].
  { exists g, f, q, l. split; [done|]. change (@vlen Z []) with 0. constructor; try done; try (intros; lia). by apply offered_none. }
  cbn [concat] in *. apply bytes_of_split in Eb as [Eb Ec]. rewrite vlen_app, vlen_cons in *. pose proof (vlen_nonneg b) as Hn. pose proof (vlen_nonneg (concat chain)) as Hn'. pose proof (vlen_nonneg chain) as Hk.
  pose proof (grow_cost_mono (vlen b) N ltac:(lia)) as [Hg0 Hg]. assert (0 <= vlen chain * grow_cost N) as Hg1 by nia.
  rewrite (proj2 (Z.ltb_ge u32_max (vlen b))) by lia. cbn [Z.eqb].
  destruct (in_order_buffer S D sid g f fc q l x b Hs Ha Hl Eb ltac:(lia) Esk Hx) as (g1 & f1 & q1 & l1 & go & -> & [O1 L1 C1 M1 Z1 F1] & Eb1 & Hgo & Hstop).
  { intros E. eapply room_weaken, (Hroom E). lia. }
  cbn [mbind option_bind]. destruct go.
  - destruct (Hgo eq_refl) as [Hx1 Esk1]. rewrite checked_add_small by lia. cbn [mbind option_bind]. pose proof O1 as [A1 A2 A3 A4 A5 A6 A7 A8].
    destruct (IH g1 f1 fc q1 (mk_locals (rl_accepted l1) (rl_promoted l1) (rl_buffered l1 + vlen b) (rl_skip l1) (rl_newest l1)) (x + vlen b)) as (g' & f' & q' & l' & -> & [O2 L2 C2 M2 Z2 F2]); cbn; try done; try lia.
    { rewrite Ec at 1. f_equal. lia. }
    { intros E. eapply (room_took (grow_cost N)); [|eapply took_weaken, (A8 E); lia]. eapply room_weaken, (Hroom E). lia. }
    cbn in *. exists g', f', q', l'. split; [done|]. constructor; try done; try lia; [|intros E; specialize (F2 E); lia].
    eapply offered_more; [eapply offered_trans; [exact O1|exact O2|lia|lia]|lia..].
  - exists g1, f1, q1, l1. split; [done|]. constructor; try done; try lia.
    + eapply offered_more; [exact O1|lia..].
    + intros E. specialize (Hstop eq_refl E). lia.
Qed.

(** A range reported as received lies ahead of the stream and is known. *)
Definition reported q (newest : option (Z * Z)) : Prop :=
  forall start len, newest = Some (start, len) ->
    0 < start /\ 0 < len /\ start + len <= q_free q /\ forall y, q_write q + start <= y < q_write q + start + len -> known q y.

(** What a chain ahead of the stream leaves. *)
Record ahead_done S (D cost : Z) g fc q (l : rx_locals) (x n : Z) g' f' q' (l' : rx_locals) : Prop := {
  ad_offered : offered S D cost g fc q x n g' f' q';
  ad_write : q_write q' = q_write q;
  ad_accepted : rl_accepted l <= rl_accepted l' <= rl_accepted l + n;
  ad_newest : reported q' (rl_newest l');
  ad_full : short = false -> x + n <= q_read q + q_cap q -> forall y, x <= y < x + n -> known q' y
}.

Lemma reported_offered S D cost g fc q x n g' f' q' newest :
  reported q newest -> offered S D cost g fc q x n g' f' q' -> q_write q' = q_write q -> reported q' newest.
Proof.
  intros H [_ _ E1 E2 _ Hold _ _] Ew start len E. destruct (H start len E) as (H1 & H2 & H3 & H4). unfold q_free, q_len in *. split_and!; try lia. intros y Hy. apply Hold, H4. lia.
Qed.

Lemma ahead_buffer S D sid g f fc q l offset bytes :
  shared g f fc q -> agrees S D q -> reported q (rl_newest l) -> 0 < offset -> 0 <= rl_accepted l <= rl_buffered l -> rl_promoted l = 0 ->
  let x := q_write q + offset + rl_buffered l in
  bytes = bytes_of S (x + D) (vlen bytes) -> offset + rl_buffered l + vlen bytes <= u32_max -> (short = false -> room g (grow_cost (offset + rl_buffered l + vlen bytes))) ->
  exists g' f' q' l' b, rx_ahead avx2 sid offset g f l bytes = Some (g', f', inl (l', b)) /\
    ahead_done S D (grow_cost (offset + rl_buffered l + vlen bytes)) g fc q l x (vlen bytes) g' f' q' l' /\
    rl_buffered l' = rl_buffered l /\ rl_promoted l' = 0 /\ (b = false -> short = false -> q_read q + q_cap q < x + vlen bytes).
Proof.
  intros Hs Ha Hrep Hoff Hacc Hprom x Eb Hmax Hroom. pose proof (vlen_nonneg bytes) as Hn. unfold rx_ahead. rewrite checked_add_small by lia.
  destruct (put_ahead S D g f fc q (offset + rl_buffered l) (vlen bytes) Hs Ha ltac:(lia) ltac:(lia) Hroom) as (g' & f' & q' & r & E & O & Ew & Hr).
  replace (bytes_of S (q_write q + (offset + rl_buffered l) + D) (vlen bytes)) with bytes in E by (rewrite Eb at 1; f_equal; lia). rewrite E. cbn [mbind option_bind].
  replace (q_write q + (offset + rl_buffered l)) with x in O by lia. destruct r as [r|er].
  - destruct Hr as (-> & -> & Hk & Hst). rewrite !checked_add_small by (unfold u32_max in *; lia). cbn [mbind option_bind]. eexists g', f', q', _, true. split; [done|]. split; [|cbn; split_and!; try done; lia].
    constructor; cbn; try done; [lia| |intros _ _ y Hy; apply Hk; lia]. intros start len. destruct (res_start r) as [st|]; [|done]. cbn. destruct (Z.eqb_spec (res_len r) 0); [done|]. intros [= <- <-].
    destruct (Hst st eq_refl) as (S1 & S2 & S3 & S4). rewrite Ew. split_and!; try done. pose proof (of_read _ _ _ _ _ _ _ _ _ _ _ O). pose proof (of_cap _ _ _ _ _ _ _ _ _ _ _ O). unfold q_free, q_len in *. lia.
  - assert (forall b : bool, (b = false -> short = false -> q_read q + q_cap q < x + vlen bytes) -> exists g0 f0 q0 l' b0, Some (g', f', inl (B := SessionError) (l, b)) = Some (g0, f0, inl (l', b0)) /\
      ahead_done S D (grow_cost (offset + rl_buffered l + vlen bytes)) g fc q l x (vlen bytes) g0 f0 q0 l' /\ rl_buffered l' = rl_buffered l /\ rl_promoted l' = 0 /\
      (b0 = false -> short = false -> q_read q + q_cap q < x + vlen bytes)) as Hstop.
    { intros b Hb. exists g', f', q', l, b. split; [done|]. split_and!; try done. constructor; try done; [lia|by eapply reported_offered|]. intros Esh Hfit. exfalso.
      destruct er; try (destruct Hr as [_ Hr]; congruence). unfold q_free, q_len in Hr. lia. }
    destruct er; try (destruct Hr as [Hr _]; discriminate Hr); apply Hstop; intros _ Esh; [destruct Hr as [_ Hr]; congruence|]. unfold q_free, q_len in Hr. lia.
Qed.

Lemma ahead_loop S D sid offset N chain : forall g f fc q l,
  shared g f fc q -> agrees S D q -> reported q (rl_newest l) -> 0 < offset -> 0 <= rl_accepted l <= rl_buffered l -> rl_promoted l = 0 ->
  let x := q_write q + offset + rl_buffered l in
  concat chain = bytes_of S (x + D) (vlen (concat chain)) -> offset + rl_buffered l + vlen (concat chain) <= N -> N <= u32_max ->
  (short = false -> room g (vlen chain * grow_cost N)) ->
  exists g' f' q' l', rx_loop avx2 sid offset g f l chain = Some (g', f', inl l') /\ ahead_done S D (vlen chain * grow_cost N) g fc q l x (vlen (concat chain)) g' f' q' l'.
Proof.
  induction chain as [|b chain IH]; intros g f fc q l Hs Ha Hrep Hoff Hacc Hprom x Eb HN Hmax Hroom; cbn [rx_loop concat].
  { exists g, f, q, l. split; [done|]. change (@vlen Z []) with 0. constructor; try done; try (intros; lia). by apply offered_none. }
  cbn [concat] in *. apply bytes_of_split in Eb as [Eb Ec]. rewrite vlen_app, vlen_cons in *. pose proof (vlen_nonneg b) as Hn. pose proof (vlen_nonneg (concat chain)) as Hn'. pose proof (vlen_nonneg chain) as Hk.
  pose proof (grow_cost_mono (offset + rl_buffered l + vlen b) N ltac:(lia)) as [Hg0 Hg]. assert (0 <= vlen chain * grow_cost N) as Hg1 by nia.
  rewrite (proj2 (Z.ltb_ge u32_max (vlen b))), (proj2 (Z.eqb_neq offset 0)) by lia.
  destruct (ahead_buffer S D sid g f fc q l offset b Hs Ha Hrep Hoff Hacc Hprom Eb ltac:(lia)) as (g1 & f1 & q1 & l1 & go & -> & [O1 W1 A1 N1 F1] & Eb1 & Ep1 & Hstop).
  { intros E. eapply room_weaken, (Hroom E). lia. }
  cbn [mbind option_bind]. pose proof O1 as [B1 B2 B3 B4 B5 B6 B7 B8]. destruct go.
  - rewrite checked_add_small by lia. cbn [mbind option_bind].
    destruct (IH g1 f1 fc q1 (mk_locals (rl_accepted l1) (rl_promoted l1) (rl_buffered l1 + vlen b) (rl_skip l1) (rl_newest l1))) as (g' & f' & q' & l' & -> & [O2 W2 A2 N2 F2]); cbn [rl_buffered rl_accepted rl_promoted rl_newest]; try done; try lia.
    { rewrite Ec at 1. f_equal. lia. }
    { intros E. eapply (room_took (grow_cost N)); [|eapply took_weaken, (B8 E); lia]. eapply room_weaken, (Hroom E). lia. }
    cbn [rl_buffered rl_accepted rl_promoted rl_newest] in *. replace (q_write q1 + offset + (rl_buffered l1 + vlen b)) with (x + vlen b) in * by lia. exists g', f', q', l'. split; [done|]. constructor; try done; try lia.
    + eapply offered_more; [eapply offered_trans; [exact O1|exact O2|lia|lia]|lia..].
    + intros E Hfit y Hy. destruct (decide (y < x + vlen b)); [apply (of_old _ _ _ _ _ _ _ _ _ _ _ O2), F1; try done; lia|apply F2; try done; lia].
  - exists g1, f1, q1, l1. split; [done|]. constructor; try done; try lia.
    + eapply offered_more; [exact O1|lia..].
    + intros E. specialize (Hstop eq_refl E). lia.
Qed.

(** ** The session of a handle *)

Definition holds_fifo (w : SessionWorker) (handle : SessionHandle) f : Prop :=
  worker_index handle = sw_index w /\ 0 <= session_index handle /\
  exists m ev, Pool.represents (sessions w) m /\ m !! session_index handle = Some (session_ (Some f) ev).

Lemma holds_fifo_get w handle f : holds_fifo w handle f -> exists ev, session_from_handle w handle = Some (Some (session_ (Some f) ev)).
Proof.
  intros (E & Hi & m & ev & [Hwf Hm] & Hl). exists ev. unfold session_from_handle. rewrite E, Z.eqb_refl. cbn [negb]. rewrite (Pool.pool_get_slot _ _ Hwf Hi). by rewrite <- Hm, Hl by done.
Qed.

Lemma store_fifo_spec w handle f f' : holds_fifo w handle f -> exists w', store_fifo w (session_index handle) f' = Some w' /\ holds_fifo w' handle f'.
Proof.
  intros (E & Hi & m & ev & R & Hl). unfold store_fifo. destruct (Pool.pool_get_mut_repr _ m _ (set_fifo f') R Hi) as (p & -> & R'). cbn [mbind option_bind].
  eexists. split; [done|]. split_and!; [done|done|]. exists (alter (set_fifo f') (session_index handle) m), ev. split; [done|]. by rewrite lookup_alter_eq, Hl.
Qed.

Lemma note_rx_event_spec w handle f : holds_fifo w handle f -> exists w', note_rx_event w handle = Some w' /\ holds_fifo w' handle f.
Proof.
  intros H. pose proof H as (E & Hi & m & ev & R & Hl). unfold note_rx_event. rewrite (Pool.pool_get_slot _ _ (proj1 R) Hi), <- (proj2 R), Hl by done. cbn [mbind option_bind rx_event].
  destruct ev; [by exists w|]. destruct (Pool.pool_get_mut_repr _ m _ set_rx_event R Hi) as (p & -> & R'). cbn [mbind option_bind].
  eexists. split; [done|]. split_and!; [done|done|]. eexists (alter set_rx_event (session_index handle) m), true. split; [done|]. by rewrite lookup_alter_eq, Hl.
Qed.

(** What an outcome says of the queue before and after. *)
Definition delivery_ok q q' (d : RxDelivery) : Prop :=
  match d with
  | NotAccepted a => q_write q' = q_write q /\ a = q_free q'
  | InOrder a p av => 0 < a /\ 0 <= p /\ a + p = q_write q' - q_write q /\ av = q_free q'
  | OutOfOrder a newest av => 0 < a /\ q_write q' = q_write q /\ reported q' newest /\ av = q_free q'
  end.

Lemma offered_notify S D cost g fc q x n g1 f1 q1 g2 : offered S D cost g fc q x n g1 f1 q1 -> shared g2 f1 fc q1 -> top g2 = top g1 -> offered S D cost g fc q x n g2 f1 q1.
Proof. intros [] H E. constructor; try done. intros Esh. eapply took_top; eauto. Qed.

(** Delivering a chain with the bytes of the stream from [offset] behind the
    write position on. *)
Lemma enqueue_rx_spec S D N g w handle f fc q chain offset :
  holds_fifo w handle f -> shared g f fc q -> agrees S D q -> 0 <= offset ->
  let x := q_write q + offset in let n := vlen (concat chain) in
  concat chain = bytes_of S (x + D) n -> offset + n <= N -> N <= u32_max -> (short = false -> room g (vlen chain * grow_cost N)) ->
  exists g' w' f' q' d, enqueue_rx avx2 g w handle chain offset = Some (g', w', inl d) /\ holds_fifo w' handle f' /\
    offered S D (vlen chain * grow_cost N) g fc q x n g' f' q' /\ delivery_ok q q' d /\ (0 < offset -> q_write q' = q_write q) /\
    (short = false -> x + n <= q_read q + q_cap q -> forall y, x <= y < x + n -> known q' y).
Proof.
  intros Hf Hs Ha Hoff x n Eb HN Hmax Hroom. pose proof (shared_wf _ _ _ _ Hs) as W. pose proof (qw_pos _ W) as Wp. unfold enqueue_rx. destruct (holds_fifo_get w handle f Hf) as (ev & ->). cbn [mbind option_bind rx_fifo].
  assert (exists g1 f1 q1 l, rx_loop avx2 (session_index handle) offset g f (mk_locals 0 0 0 0 None) chain = Some (g1, f1, inl l) /\ offered S D (vlen chain * grow_cost N) g fc q x n g1 f1 q1 /\
    0 <= rl_accepted l /\ (if decide (offset = 0) then 0 <= rl_promoted l /\ rl_accepted l + rl_promoted l = q_write q1 - q_write q /\ (rl_accepted l = 0 -> q_write q1 = q_write q)
      else q_write q1 = q_write q /\ reported q1 (rl_newest l)) /\
    (short = false -> x + n <= q_read q + q_cap q -> forall y, x <= y < x + n -> known q1 y)) as (g1 & f1 & q1 & l & -> & O & Hl & Hd & Hfull).
  { destruct (decide (offset = 0)) as [->|Hnz].
    - replace x with (q_write q) in * by lia. destruct (in_order_loop S D (session_index handle) N chain g f fc q (mk_locals 0 0 0 0 None) (q_write q)) as (g1 & f1 & q1 & l & -> & [I1 I2 I3 I4 I5 I6]); cbn; try done; try lia; [unfold locals_ok; cbn; lia|].
      cbn in *. exists g1, f1, q1, l. split_and!; try done; try lia. intros E Hfit y Hy. specialize (I6 E). apply (qw_readable _ (shared_wf _ _ _ _ (of_shared _ _ _ _ _ _ _ _ _ _ _ I1))). rewrite (of_read _ _ _ _ _ _ _ _ _ _ _ I1). lia.
    - destruct (ahead_loop S D (session_index handle) offset N chain g f fc q (mk_locals 0 0 0 0 None)) as (g1 & f1 & q1 & l & -> & [I1 I2 I3 I4 I5]); cbn [rl_buffered rl_accepted rl_promoted rl_newest]; try done; try lia; [rewrite Z.add_0_r; done|].
      cbn [rl_buffered rl_accepted rl_promoted rl_newest] in *. rewrite Z.add_0_r in *. exists g1, f1, q1, l. split_and!; try done; lia. }
  cbn [mbind option_bind]. destruct (store_fifo_spec w handle f f1 Hf) as (w1 & -> & Hf1). cbn [mbind option_bind]. pose proof (of_shared _ _ _ _ _ _ _ _ _ _ _ O) as Hs1. rewrite (shared_max_enqueue _ _ _ _ Hs1). cbn [mbind option_bind].
  pose proof (shared_wf _ _ _ _ Hs1) as W1. pose proof (qw_pos _ W1). pose proof (qw_cap _ W1). assert (Z.min (q_free q1) u32_max = q_free q1) as -> by (unfold q_free, q_len, u32_max; lia).
  assert (exists g2, (if q_free q1 =? 0 then want_deq_notification g1 f1 else Some g1) = Some g2 /\ shared g2 f1 fc q1 /\ top g2 = top g1) as (g2 & -> & Hs2 & Et) by (destruct (_ =? _); [by apply shared_notify|by exists g1]).
  cbn [mbind option_bind]. assert (exists w2, (if offset =? 0 then note_rx_event w1 handle else Some w1) = Some w2 /\ holds_fifo w2 handle f1) as (w2 & -> & Hf2) by (destruct (_ =? _); [by apply note_rx_event_spec|by exists w1]).
  cbn [mbind option_bind]. eexists g2, w2, f1, q1, _. split; [done|]. split; [done|]. split; [by eapply offered_notify|]. split; [|split; [|done]].
  - destruct (decide (offset = 0)) as [->|Hnz].
    + destruct (Z.eqb_spec (rl_accepted l) 0); cbn; [split; [apply Hd; done|done]|lia].
    + rewrite (proj2 (Z.eqb_neq offset 0)) by done. destruct (Z.eqb_spec (rl_accepted l) 0); cbn; split_and!; try apply Hd; try done; lia.
  - intros Hp. rewrite decide_False in Hd by lia. apply Hd.
Qed.

End Queue.
End SessionRxProofs.
