(* ===== verification/TcpReceive.v ===== *)
(** * The receive path of a TCP connection

    Models how the payload of a segment reaches the application: the decision
    of a connection which part of a segment is new, trimming the buffer chain to
    it, copying it into the receive FIFO of the session, and moving [rcv_nxt]
    and the selective acknowledgment along ([connection.rs], [lib.rs],
    [established.rs], [rcv_process.rs], [syn_sent.rs] of the TCP plugin).

    A connection has the fields the receive path works on.  [None] is a panic. *)

From S2P Require Import Prelude InfraPool TcpProtocol TcpOptions TcpPacket TcpSack SvmMemory SvmFifo SessionRx.

Module TcpReceive.
Import TcpProtocol TcpPacket TcpSack SvmMemory SvmFifo SessionRx.

Record TcpConnection : Type := tcp_connection {
  rcv_nxt : Z;
  rcv_wnd : Z;
  (** [negotiated_options.sack] *)
  opt_sack : bool;
  send_mss : Z;
  sack : TcpSackState
}.
Definition set_rcv_nxt (x : Z) (c : TcpConnection) : TcpConnection := tcp_connection x (rcv_wnd c) (opt_sack c) (send_mss c) (sack c).
Definition set_sack (x : TcpSackState) (c : TcpConnection) : TcpConnection := tcp_connection (rcv_nxt c) (rcv_wnd c) (opt_sack c) (send_mss c) x.
Definition set_rcv_wnd (available : Z) (c : TcpConnection) : TcpConnection :=
  tcp_connection (rcv_nxt c) (Z.min available u32_max) (opt_sack c) (send_mss c) (sack c).

(** The part of a payload that is new: how much to cut off its front and how
    far ahead of [rcv_nxt] the rest lies. *)
Definition accept_payload_from (c : TcpConnection) (sequence payload_len : Z) : option (Z * Z) :=
  if payload_len =? 0 then None else
  let end_sequence := advance sequence (wrap 32 payload_len) in
  if seq_le end_sequence (rcv_nxt c) then None else
  if seq_lt sequence (rcv_nxt c) then Some (distance_to sequence (rcv_nxt c), 0)
  else Some (0, distance_to (rcv_nxt c) sequence).
Definition accept_payload (c : TcpConnection) (packet : TcpPacket) : option (Z * Z) :=
  accept_payload_from c (pkt_sequence packet) (pkt_payload_len packet).

Definition receive_payload (c : TcpConnection) (sequence trim : Z) (delivery : RxDelivery) : option TcpConnection :=
  let c := if negb (trim =? 0) then set_sack (set_duplicate (sack c) (opt_sack c) sequence (rcv_nxt c)) c else c in
  let update c left right := s ← update_range (sack c) (opt_sack c) (rcv_nxt c) left right; Some (set_sack s c) in
  match delivery with
  | NotAccepted _ => update c (rcv_nxt c) (rcv_nxt c)
  | InOrder accepted promoted _ =>
    let c := set_rcv_nxt (advance (rcv_nxt c) (Z.min (accepted + promoted) u32_max)) c in
    update c (rcv_nxt c) (rcv_nxt c)
  | OutOfOrder _ (Some (start, length)) _ =>
    let left := advance (rcv_nxt c) start in
    update c left (advance left length)
  | OutOfOrder _ None _ => Some c
  end.

Definition observe_duplicate_payload (c : TcpConnection) (sequence end_sequence : Z) : TcpConnection :=
  set_sack (set_duplicate (sack c) (opt_sack c) sequence end_sequence) c.

(** ** Trimming the chain *)

Fixpoint expose_loop (prefix_left payload_left : Z) (chain : list (list Z)) : list (list Z) * Z * Z :=
  match chain with
  | [] => ([], prefix_left, payload_left)
  | buffer :: chain =>
    let skip := Z.min prefix_left (vlen buffer) in
    let buffer := drop (Z.to_nat skip) buffer in
    let keep := Z.min payload_left (vlen buffer) in
    let '(rest, p, k) := expose_loop (prefix_left - skip) (payload_left - keep) chain in
    (take (Z.to_nat keep) buffer :: rest, p, k)
  end.
(** [truncate] is called with at most the current length and does not fail. *)
Definition expose_payload (chain : list (list Z)) (packet : TcpPacket) (trim : Z) : option (list (list Z)) :=
  if pkt_payload_len packet <? trim then None else
  let '(chain, p, k) := expose_loop (pkt_payload_offset packet + trim) (pkt_payload_len packet - trim) chain in
  if (p =? 0) && (k =? 0) then Some chain else None.

(** ** The node errors of a payload *)

Inductive TcpNodeError : Type := Enqueued | EnqueuedOoo | FifoFull | PartiallyEnqueued | SegmentOld | ZeroRwnd.

Definition payload_node_error (delivery : RxDelivery) (requested send_mss offset : Z) : TcpNodeError :=
  match delivery with
  | NotAccepted rx_available => if (offset =? 0) && (rx_available <? send_mss) then ZeroRwnd else FifoFull
  | InOrder accepted _ _ => if accepted =? requested then Enqueued else PartiallyEnqueued
  | OutOfOrder accepted _ _ => if accepted =? requested then EnqueuedOoo else FifoFull
  end.

Definition delivery_rx_available (d : RxDelivery) : Z :=
  match d with NotAccepted a | InOrder _ _ a | OutOfOrder _ _ a => a end.

(** ** Handlers *)

Section handlers.
Context (avx2 : bool).

(** What the handlers share: trim, copy, account. *)
Definition deliver_payload (g : segment) (w : SessionWorker) (c : TcpConnection) (handle : SessionHandle) (packet : TcpPacket) (chain : list (list Z))
    (sequence trim offset : Z) : option (segment * SessionWorker * TcpConnection * (TcpNodeError * RxDelivery + SessionError)) :=
  chain ← expose_payload chain packet trim;
  '(g, w, r) ← enqueue_rx avx2 g w handle chain offset;
  match r with
  | inr e => Some (g, w, c, inr e)
  | inl delivery =>
    let error := payload_node_error delivery (wrap 32 (saturating_sub (pkt_payload_len packet) trim)) (send_mss c) offset in
    c ← receive_payload c sequence (wrap 32 trim) delivery;
    Some (g, w, c, inl (error, delivery))
  end.

(** The acknowledgment a handler asks for: whether to send one, and whether it
    counts as a duplicate. *)
Record ack_request : Type := mk_ack { immediate_ack : bool; duplicate_ack : bool; node_error : option TcpNodeError }.

Definition established_payload (g : segment) (w : SessionWorker) (c : TcpConnection) (handle : SessionHandle) (packet : TcpPacket) (chain : list (list Z)) :
    option (segment * SessionWorker * TcpConnection * (ack_request + SessionError)) :=
  match accept_payload c packet with
  | Some (trim, offset) =>
    '(g, w, c, r) ← deliver_payload g w c handle packet chain (pkt_sequence packet) trim offset;
    match r with
    | inr e => Some (g, w, c, inr e)
    | inl (error, delivery) => Some (g, w, set_rcv_wnd (delivery_rx_available delivery) c, inl (mk_ack true (negb (offset =? 0)) (Some error)))
    end
  | None =>
    if pkt_payload_len packet =? 0 then Some (g, w, c, inl (mk_ack false false None)) else
    let c := observe_duplicate_payload c (pkt_sequence packet) (advance (pkt_sequence packet) (wrap 32 (pkt_payload_len packet))) in
    Some (g, w, c, inl (mk_ack true true (Some SegmentOld)))
  end.

(** In the half-closed states; [receive_payload] of the source holds for a
    packet with payload in the states Established, FinWait1 and FinWait2. *)
Definition rcv_process_payload (g : segment) (w : SessionWorker) (c : TcpConnection) (handle : SessionHandle) (packet : TcpPacket) (chain : list (list Z)) :
    option (segment * SessionWorker * TcpConnection * (ack_request + SessionError)) :=
  if pkt_payload_len packet =? 0 then Some (g, w, c, inl (mk_ack false false None)) else
  match accept_payload c packet with
  | Some (trim, offset) =>
    '(g, w, c, r) ← deliver_payload g w c handle packet chain (pkt_sequence packet) trim offset;
    match r with
    | inr e => Some (g, w, c, inr e)
    | inl (error, _) => Some (g, w, c, inl (mk_ack true (negb (offset =? 0)) (Some error)))
    end
  | None => Some (g, w, c, inl (mk_ack true true (Some SegmentOld)))
  end.

(** The payload of the packet that completes the handshake of the active side
    starts behind its SYN; the acknowledgment is part of the reply. *)
Definition syn_sent_payload (g : segment) (w : SessionWorker) (c : TcpConnection) (handle : SessionHandle) (packet : TcpPacket) (chain : list (list Z)) :
    option (segment * SessionWorker * TcpConnection * (ack_request + SessionError)) :=
  if pkt_payload_len packet =? 0 then Some (g, w, c, inl (mk_ack false false None)) else
  let payload_sequence := advance (pkt_sequence packet) 1 in
  match accept_payload_from c payload_sequence (pkt_payload_len packet) with
  | Some (trim, offset) =>
    '(g, w, c, r) ← deliver_payload g w c handle packet chain payload_sequence trim offset;
    match r with
    | inr e => Some (g, w, c, inr e)
    | inl (error, _) => Some (g, w, c, inl (mk_ack true false (Some error)))
    end
  | None => Some (g, w, c, inl (mk_ack true false (Some SegmentOld)))
  end.

End handlers.

End TcpReceive.
