(* ===== verification/TcpReceiveProofs.v ===== *)
(** * Reliable delivery of a received stream

    The peer sends a stream of bytes; the network may lose, repeat, split and
    reorder its segments.  These proofs follow the payload of arbitrary such
    segments through [TcpReceive] and [SessionRx] into the shared FIFO and out
    to an application that reads in another process.  Sequence numbers are
    32-bit counters; the position of a segment in the stream is the one nearest
    to the position the receiver expects. *)

From S2P Require Import Prelude Ranges InfraBitmap InfraPool InfraRbTree InfraRbOps InfraRbMap TcpProtocol TcpOptions TcpPacket TcpSack TcpSackProofs.
From S2P Require Import SvmOoo SvmOooProofs SvmMemory SvmMemoryProofs SvmFifo SvmBudget SvmChain SvmGrow SvmFifoInv SvmFifoOps SvmFifoRead SvmSegment SvmSegmentProofs.
From S2P Require Import SvmLifeBudget SvmFifoLife SvmQueues SvmFamily SvmTheorems SvmPeers SessionRx SessionRxProofs TcpReceive.

Module TcpReceiveProofs.
Import Ranges TcpProtocol TcpPacket TcpSack TcpSackProofs SvmMemory SvmFifo SvmBudget SvmChain SvmMemoryProofs SvmSegment SvmSegmentProofs SvmQueues SvmFamily SvmTheorems SvmPeers SessionRx SessionRxProofs TcpReceive.

(** ** Runs *)

(** The node a packet is handled by. *)
Inductive rx_path : Type := EstablishedNode | RcvProcessNode | SynSentNode.

Inductive rx_input : Type :=
| Arrive (path : rx_path) (packet : TcpPacket) (chain : list (list Z))
| Read (len : Z) (dst : list Z).

(** The shared memory, the stack's two records, the application's FIFO. *)
Record rx_system : Type := mk_system { sys_mem : segment; sys_worker : SessionWorker; sys_conn : TcpConnection; sys_app : Fifo }.

Inductive rx_log : Type :=
| Arrived (x n : Z)
| Rejected (e : SessionError)
| Consumed (bs : list Z).

(** The position with counter value [s] nearest to [R]. *)
Definition near (R s : Z) : Z := let d := wrap 32 (s - R) in if d <? 2 ^ 31 then R + d else R + d - 2 ^ 32.

Definition payload_sequence (path : rx_path) (packet : TcpPacket) : Z :=
  match path with SynSentNode => advance (pkt_sequence packet) 1 | _ => pkt_sequence packet end.

Definition on_payload (avx2 : bool) (path : rx_path) :=
  match path with
  | EstablishedNode => established_payload avx2
  | RcvProcessNode => rcv_process_payload avx2
  | SynSentNode => syn_sent_payload avx2
  end.

(** [R] is the position [rcv_nxt] stands for. *)
Definition rx_step (avx2 : bool) (handle : SessionHandle) (sys : rx_system) (R : Z) (i : rx_input) : option (rx_system * Z * rx_log) :=
  match i with
  | Arrive path packet chain =>
    '(g, w, c, r) ← on_payload avx2 path (sys_mem sys) (sys_worker sys) (sys_conn sys) handle packet chain;
    Some (mk_system g w c (sys_app sys), R + distance_to (rcv_nxt (sys_conn sys)) (rcv_nxt c),
      match r with inl _ => Arrived (near R (payload_sequence path packet)) (pkt_payload_len packet) | inr e => Rejected e end)
  | Read len dst =>
    '(g, fc, (dst, n)) ← dequeue avx2 (sys_mem sys) (sys_app sys) len dst;
    Some (mk_system g (sys_worker sys) (sys_conn sys) fc, R, Consumed (take (Z.to_nat n) dst))
  end.
Fixpoint rx_run (avx2 : bool) (handle : SessionHandle) (sys : rx_system) (R : Z) (l : list rx_input) : option (rx_system * Z * list rx_log) :=
  match l with
  | [] => Some (sys, R, [])
  | i :: l => '(sys, R, e) ← rx_step avx2 handle sys R i; '(sys, R, log) ← rx_run avx2 handle sys R l; Some (sys, R, e :: log)
  end.

(** A segment of the stream [S], at most half the counter space away. *)
Definition honest (S : Z -> Z) (R : Z) (i : rx_input) : bool :=
  match i with
  | Arrive path packet chain =>
    let x := near R (payload_sequence path packet) in
    let n := pkt_payload_len packet in
    (0 <=? pkt_sequence packet) && (pkt_sequence packet <? 2 ^ 32) && (0 <=? n) && (0 <=? pkt_payload_offset packet) && (pkt_payload_offset packet + n <=? vlen (concat chain)) && (R - 2 ^ 31 <? x) && (x + n <? R + 2 ^ 31) &&
    bool_decide (take (Z.to_nat n) (drop (Z.to_nat (pkt_payload_offset packet)) (concat chain)) = bytes_of S x n)
  | Read len _ => 0 <=? len
  end.
(** A segment inside the space left in the FIFO. *)
Definition in_window (sys : rx_system) (R : Z) (i : rx_input) : bool :=
  match i with
  | Arrive path packet _ => match max_enqueue (sys_mem sys) (sys_app sys) with Some free => near R (payload_sequence path packet) + pkt_payload_len packet <=? R + free | None => false end
  | Read _ _ => true
  end.
(** A condition on every input at the state it meets. *)
Fixpoint along (P : rx_system -> Z -> rx_input -> bool) (avx2 : bool) (handle : SessionHandle) (sys : rx_system) (R : Z) (l : list rx_input) : bool :=
  match l with
  | [] => true
  | i :: l => if P sys R i then match rx_step avx2 handle sys R i with Some (sys, R, _) => along P avx2 handle sys R l | None => true end else false
  end.

Definition received (log : list rx_log) (y : Z) : Prop := exists x n, Arrived x n ∈ log /\ x <= y < x + n.
Fixpoint consumed (log : list rx_log) : list Z :=
  match log with
  | [] => []
  | Consumed bs :: log => bs ++ consumed log
  | _ :: log => consumed log
  end.
Definition accepted_all (log : list rx_log) : bool := forallb (fun e => match e with Rejected _ => false | _ => true end) log.

(** A connection on a fresh FIFO of a segment that has been used before: its
    session, and the application that attaches to the FIFO.  The stream starts
    at position [P]. *)
Definition rx_handle : SessionHandle := session_handle 0 0.
Definition rx_start (avx2 : bool) (s : SvmFifoSegment) (before : list action) (slice capacity P wnd : Z) (sack_on : bool) (mss : Z) : option rx_system :=
  '(s, rs) ← run_actions avx2 s (before ++ [Allocate slice capacity RxFifo]);
  match list.last rs with
  | Some (Allocated i) =>
    f ← fifo s slice i;
    f ← f;
    a ← attach_at_svm_shared (seg s) (hdr_off f);
    match a with
    | inr _ => None
    | inl fc =>
      '(p, _) ← Pool.insert Pool.new (session_ (Some f) false);
      sk ← default_sack;
      Some (mk_system (seg s) (session_worker 0 p []) (tcp_connection (wr P) wnd sack_on mss sk) fc)
    end
  | _ => None
  end.

(** ** Positions *)

Lemma near_wr R s : wr (near R s) = wrap 32 s.
Proof.
  unfold near, wr, wrap. destruct (_ <? _); [|rewrite <- (Z_mod_plus_full (R + (s - R) mod 2 ^ 32 - 2 ^ 32) 1 (2 ^ 32)); rewrite Z.mul_1_l, Z.sub_add]; rewrite Z.add_mod_idemp_r by lia; f_equal; lia.
Qed.

Lemma distance_wr a b : distance_to (wr a) (wr b) = wrap 32 (b - a).
Proof. unfold distance_to, wr, wrap. by rewrite Zminus_mod_idemp_l, Zminus_mod_idemp_r. Qed.

(** What [accept_payload_from] decides for a segment from [x] to [x + n]. *)
Lemma accept_spec c R x n :
  rcv_nxt c = wr R -> R - 2 ^ 31 < x -> x + n < R + 2 ^ 31 -> 0 < n ->
  accept_payload_from c (wr x) n = if x + n <=? R then None else if x <? R then Some (R - x, 0) else Some (0, x - R).
Proof.
  intros E Hlo Hhi Hn. unfold accept_payload_from. rewrite (proj2 (Z.eqb_neq n 0)) by lia. rewrite E.
  assert (advance (wr x) (wrap 32 n) = wr (x + n)) as -> by (unfold advance, wr, wrap; by rewrite <- Z.add_mod by lia).
  rewrite (seq_le_win (Z.min (x + n) R)), (seq_lt_win (Z.min x R)) by (unfold win; lia).
  rewrite !distance_wr. destruct (Z.leb_spec (x + n) R); [done|]. destruct (Z.ltb_spec x R); do 2 f_equal; apply wrap_small; unfold in_word; lia.
Qed.

(** ** Trimming *)

Lemma expose_loop_spec chain : forall p k, 0 <= p -> 0 <= k -> p + k <= vlen (concat chain) ->
  exists chain', expose_loop p k chain = (chain', 0, 0) /\ concat chain' = take (Z.to_nat k) (drop (Z.to_nat p) (concat chain)) /\ vlen chain' = vlen chain.
Proof.
  induction chain as [|b chain IH]; intros p k Hp Hk Hle; cbn [expose_loop concat] in *.
  { unfold vlen in Hle. cbn [length] in Hle. assert (p = 0) as -> by lia. assert (k = 0) as -> by lia. by exists []. }
  rewrite vlen_app in Hle. pose proof (vlen_nonneg b). pose proof (vlen_nonneg (concat chain)). set (skip := Z.min p (vlen b)). assert (vlen (drop (Z.to_nat skip) b) = vlen b - skip) as El by (unfold vlen in *; rewrite length_drop; lia).
  rewrite El. set (keep := Z.min k (vlen b - skip)). destruct (IH (p - skip) (k - keep)) as (chain' & -> & Ec & En); [lia..|].
  eexists. split; [done|]. split; [|unfold vlen in *; cbn [length]; lia]. cbn [concat]. rewrite Ec.
  assert (drop (Z.to_nat p) (b ++ concat chain) = drop (Z.to_nat skip) b ++ drop (Z.to_nat (p - skip)) (concat chain)) as ->.
  { rewrite drop_app. unfold vlen in *. destruct (decide (p <= Z.of_nat (length b))); [f_equal; f_equal; lia|]. rewrite !(drop_ge b) by lia. cbn. f_equal. lia. }
  rewrite take_app. unfold vlen in El. rewrite length_drop in *. unfold vlen in *.
  assert (take (Z.to_nat keep) (drop (Z.to_nat skip) b) = take (Z.to_nat k) (drop (Z.to_nat skip) b)) as ->.
  { destruct (decide (k <= Z.of_nat (length b) - skip)); [f_equal; lia|]. rewrite !take_ge by (rewrite length_drop; lia). done. }
  do 2 f_equal. lia.
Qed.

Lemma expose_spec S chain packet x trim :
  0 <= trim <= pkt_payload_len packet -> 0 <= pkt_payload_offset packet -> pkt_payload_offset packet + pkt_payload_len packet <= vlen (concat chain) ->
  take (Z.to_nat (pkt_payload_len packet)) (drop (Z.to_nat (pkt_payload_offset packet)) (concat chain)) = bytes_of S x (pkt_payload_len packet) ->
  exists chain', expose_payload chain packet trim = Some chain' /\ concat chain' = bytes_of S (x + trim) (pkt_payload_len packet - trim) /\ vlen chain' = vlen chain.
Proof.
  intros Ht Ho Hle E. unfold expose_payload. rewrite (proj2 (Z.ltb_ge _ _)) by lia. set (n := pkt_payload_len packet) in *. set (o := pkt_payload_offset packet) in *.
  destruct (expose_loop_spec chain (o + trim) (n - trim)) as (chain' & -> & Ec & En); [lia..|]. cbn. exists chain'. split_and!; [done| |done].
  rewrite Ec, <- bytes_of_drop, <- E by lia. rewrite Z2Nat.inj_add, <- drop_drop, Z2Nat.inj_sub by lia. by rewrite <- skipn_firstn_comm.
Qed.

(** ** The invariant *)

Section Receive.
Context (avx2 short : bool) (handle : SessionHandle) (S : Z -> Z) (P : Z).
Implicit Types (q : queue) (log : list rx_log).

(** The blocks of the selective acknowledgment are in the queue, a duplicate
    report lies below what is acknowledged. *)
Definition sack_inv (s : TcpSackState) (R : Z) q : Prop :=
  (exists rs, sack_ok R s rs /\ (length rs <= 255)%nat /\ forall y, covers rs y -> known q (y - P)) /\
  (forall d, pending_dsack s = Some d -> exists l r, d = wire (l, r) /\ l < r <= R).

Record rx_inv (sys : rx_system) (R : Z) log f q : Prop := {
  ri_fifo : holds_fifo (sys_worker sys) handle f;
  ri_shared : shared (sys_mem sys) f (sys_app sys) q;
  ri_agrees : agrees S P q;
  ri_pos : R = q_write q + P;
  ri_nxt : rcv_nxt (sys_conn sys) = wr R;
  ri_sack : sack_inv (sack (sys_conn sys)) R q;
  ri_known y : known q y -> received log (y + P);
  ri_past y : P <= y < R -> received log y;
  ri_start : 0 <= q_read q;
  ri_read : consumed log = bytes_of S P (q_read q);
  ri_all : short = false -> forall y, received log y -> P <= y -> y < R \/ known q (y - P)
}.

Lemma sack_inv_mono s R q q' : sack_inv s R q -> (forall y, known q y -> known q' y) -> sack_inv s R q'.
Proof. intros [(rs & H1 & H2 & H3) Hd] H. split; [|done]. exists rs. split_and!; auto. Qed.

Lemma sack_inv_duplicate s enabled R q l r : sack_inv s R q -> l < r <= R -> sack_inv (set_duplicate s enabled (wr l) (wr r)) R q.
Proof.
  intros [(rs & [H1 H2 H3 H4 H5 H6] & Hn & Hk) Hd] Hlr. unfold set_duplicate. destruct enabled; cbn [negb]; (split; [exists rs; split_and!; try done; by constructor|]); cbn; [|done]. intros d [= <-]. by exists l, r.
Qed.

Lemma sack_inv_update s enabled R R' q q' l r :
  sack_inv s R q -> win R R' -> win R l -> win R r -> (forall y, known q y -> known q' y) -> (forall y, l <= y < r -> known q' (y - P)) ->
  exists s', update_range s enabled (wr R') (wr l) (wr r) = Some s' /\ sack_inv s' R' q'.
Proof.
  intros [(rs & H1 & H2 & H3) Hd] W1 W2 W3 Hold Hnew. destruct (update_step enabled R s rs R' l r H1 H2 W1 W2 W3) as (s' & rs' & E & H1' & H2' & Hc & Hp). exists s'. split; [done|]. split.
  - exists rs'. split_and!; try done. intros y Hy. destruct (Hc y Hy) as [_ [?|?]]; auto.
  - intros d Hd'. destruct Hp as [Ep|Ep]; [|congruence]. rewrite Ep in Hd'. destruct (Hd d Hd') as (a & b & ? & ?). exists a, b. split; [done|]. unfold win in W1. lia.
Qed.

(** ** Accounting for a delivery *)

Lemma advance_wr R k : advance (wr R) k = wr (R + k).
Proof. unfold advance, wr, wrap. by rewrite Z.add_mod_idemp_l by lia. Qed.

Lemma receive_payload_spec c R q q' x trim d :
  rcv_nxt c = wr R -> sack_inv (sack c) R q -> q_wf q' -> R = q_write q + P -> (forall y, known q y -> known q' y) -> q_read q <= q_read q' -> q_read q' <= q_write q ->
  delivery_ok q q' d -> 0 <= trim -> (trim = 0 \/ x < R) ->
  exists c', receive_payload c (wr x) trim d = Some c' /\ rcv_nxt c' = wr (q_write q' + P) /\ sack_inv (sack c') (q_write q' + P) q' /\ q_write q <= q_write q'.
Proof.
  intros En Hs W' ER Hold Hr1 Hr2 Hd Ht Hx. pose proof (qw_pos _ W') as Wp. pose proof (qw_cap _ W') as Wc. unfold receive_payload.
  set (c1 := if negb (trim =? 0) then _ else c). assert (rcv_nxt c1 = wr R /\ sack_inv (sack c1) R q) as [En1 Hs1].
  { unfold c1. destruct (Z.eqb_spec trim 0); cbn; [done|]. split; [done|]. rewrite En. apply sack_inv_duplicate; [done|lia]. }
  clearbody c1. destruct d as [a|a p av|a [[start len]|] av]; cbn [delivery_ok] in Hd; rewrite ?En1.
  - destruct Hd as [Ew _]. destruct (sack_inv_update (sack c1) (opt_sack c1) R R q q' R R Hs1) as (s' & -> & Hs'); [unfold win; lia..|done|intros; lia|].
    cbn [mbind option_bind]. eexists. split; [done|]. cbn. replace (q_write q' + P) with R by lia. split_and!; try done. lia.
  - destruct Hd as (Ha & Hp & Ew & _). cbn [rcv_nxt set_rcv_nxt sack opt_sack]. rewrite Z.min_l, advance_wr by (unfold u32_max; lia).
    destruct (sack_inv_update (sack c1) (opt_sack c1) R (R + (a + p)) q q' (R + (a + p)) (R + (a + p)) Hs1) as (s' & -> & Hs'); [unfold win; lia..|done|intros; lia|].
    cbn [mbind option_bind]. eexists. split; [done|]. cbn. replace (q_write q' + P) with (R + (a + p)) by lia. split_and!; try done. lia.
  - destruct Hd as (Ha & Ew & Hrep & _). destruct (Hrep start len eq_refl) as (R1 & R2 & R3 & R4). unfold q_free, q_len in R3. rewrite !advance_wr.
    destruct (sack_inv_update (sack c1) (opt_sack c1) R R q q' (R + start) (R + start + len) Hs1) as (s' & -> & Hs'); [unfold win; lia..|done|intros y Hy; apply R4; lia|].
    cbn [mbind option_bind]. eexists. split; [done|]. cbn. replace (q_write q' + P) with R by lia. split_and!; try done. lia.
  - destruct Hd as (Ha & Ew & _). exists c1. split; [done|]. replace (q_write q' + P) with R by lia. split_and!; try done; [by eapply sack_inv_mono|lia].
Qed.

(** ** A segment *)

Implicit Types (sys : rx_system) (c : TcpConnection) (w : SessionWorker) (g : segment).

(** Trimming a segment from [x] to [x + n], storing and accounting for it. *)
Lemma deliver_spec g w c f fc q packet chain R x trim offset :
  holds_fifo w handle f -> shared g f fc q -> agrees S P q -> R = q_write q + P -> rcv_nxt c = wr R -> sack_inv (sack c) R q ->
  let n := pkt_payload_len packet in
  0 <= trim <= n -> n <= u32_max -> 0 <= pkt_payload_offset packet -> pkt_payload_offset packet + n <= vlen (concat chain) ->
  take (Z.to_nat n) (drop (Z.to_nat (pkt_payload_offset packet)) (concat chain)) = bytes_of S x n ->
  x + trim = R + offset -> 0 <= offset -> (trim = 0 \/ x < R) -> offset + (n - trim) <= u32_max ->
  (short = false -> offset + (n - trim) <= q_free q /\ room g (vlen chain * grow_cost (q_cap q))) ->
  exists g' w' c' f' q' r, deliver_payload avx2 g w c handle packet chain (wr x) trim offset = Some (g', w', c', inl r) /\
    holds_fifo w' handle f' /\ offered short S P (if short then 0 else vlen chain * grow_cost (q_cap q)) g fc q (x + trim - P) (n - trim) g' f' q' /\
    rcv_nxt c' = wr (q_write q' + P) /\ sack_inv (sack c') (q_write q' + P) q' /\
    (short = false -> forall y, x + trim - P <= y < x + n - P -> known q' y).
Proof.
  intros Hf Hs Ha ER En Hsk n Ht Hnm Ho Hle Eb Hx Hoff Htx Hmax Hshort. pose proof (shared_wf _ _ _ _ Hs) as W. pose proof (qw_pos _ W) as Wp. pose proof (qw_cap _ W) as Wc. unfold deliver_payload.
  destruct (expose_spec S chain packet x trim Ht Ho Hle Eb) as (chain' & -> & Ec & En'). cbn [mbind option_bind]. fold n in Ec. fold n. assert (vlen (concat chain') = n - trim) as El by (rewrite Ec, vlen_bytes_of; lia).
  set (N := if short then u32_max else q_cap q). assert (offset + (n - trim) <= N /\ N <= u32_max) as [HN1 HN2].
  { unfold N. destruct short; [lia|]. destruct (Hshort eq_refl) as [Hfit _]. unfold q_free, q_len, u32_max in *. lia. }
  destruct (enqueue_rx_spec avx2 short S P N g w handle f fc q chain' offset) as (g' & w' & f' & q' & d & -> & Hf' & O & Hd & _ & Hfull); try done.
  { rewrite El, Ec. f_equal. lia. }
  { lia. }
  { intros E. rewrite En'. unfold N. rewrite E. by apply Hshort. }
  cbn [mbind option_bind]. pose proof O as [A1 A2 A3 A4 A5 A6 A7 A8]. rewrite (wrap_small 32 trim) by (unfold in_word, u32_max in *; lia).
  destruct (receive_payload_spec c R q q' x trim d) as (c' & -> & Hn' & Hs' & _); try done; try lia; [by eapply shared_wf|]. cbn [mbind option_bind].
  eexists g', w', c', f', q', _. split; [done|]. rewrite El in *. replace (q_write q + offset) with (x + trim - P) in * by lia. split_and!; try done.
  - constructor; try done. intros E. rewrite E. rewrite <- En'. unfold N in A8. rewrite E in A8. by apply A8.
  - intros E y Hy. destruct (Hshort E) as [Hfit _]. unfold q_free, q_len in Hfit. apply Hfull; [done|lia..].
Qed.

Lemma received_snoc log e y : received (log ++ [e]) y <-> received log y \/ received [e] y.
Proof. unfold received. setoid_rewrite elem_of_app. naive_solver. Qed.
Lemma received_one x n y : received [Arrived x n] y <-> x <= y < x + n.
Proof. unfold received. setoid_rewrite list_elem_of_singleton. split; [by intros (a & b & [= -> ->] & H)|]. intros H. by exists x, n. Qed.
Lemma consumed_app log e : consumed (log ++ e) = consumed log ++ consumed e.
Proof. induction log as [|[| |bs] log IH]; cbn; rewrite ?IH; try done. by rewrite app_assoc. Qed.

(** The invariant after a segment whose new part is from [lo] to [x + n]. *)
Lemma inv_arrived sys R log f q x n lo g' w' c' f' q' cost :
  rx_inv sys R log f q -> x <= lo <= x + n -> lo <= R \/ lo = x ->
  holds_fifo w' handle f' -> offered short S P cost (sys_mem sys) (sys_app sys) q (lo - P) (x + n - lo) g' f' q' ->
  rcv_nxt c' = wr (q_write q' + P) -> sack_inv (sack c') (q_write q' + P) q' -> (short = false -> forall y, lo - P <= y < x + n - P -> known q' y) ->
  rx_inv (mk_system g' w' c' (sys_app sys)) (q_write q' + P) (log ++ [Arrived x n]) f' q'.
Proof.
  intros [I1 I2 I3 I4 I5 I6 I7 I8 I9 I10 I11] Hx Hlo Hf' [A1 A2 A3 A4 A5 A6 A7 A8] Hn Hs Hall. constructor; cbn; try done.
  - intros y Hy. rewrite received_snoc, received_one. destruct (A7 y Hy) as [Hk|Hk]; [left; by apply I7|]. right. lia.
  - intros y Hy. rewrite received_snoc, received_one. destruct (decide (y < R)); [left; apply I8; lia|]. assert (known q' (y - P)) as Hk.
    { apply (qw_readable _ (shared_wf _ _ _ _ A1)). pose proof (qw_pos _ (shared_wf _ _ _ _ I2)). lia. }
    destruct (A7 _ Hk) as [Hk'|Hk']; [left; replace y with (y - P + P) by lia; by apply I7|]. right. lia.
  - by rewrite A3.
  - rewrite consumed_app, I10, A3. cbn. by rewrite app_nil_r.
  - intros E y. rewrite received_snoc, received_one. intros [Hy|Hy] HP.
    + destruct (I11 E y Hy HP) as [?|?]; [left; lia|right; auto].
    + destruct (decide (lo <= y)); [right; apply Hall; [done|lia]|]. left. lia.
Qed.

(** Segments that leave the queue alone. *)
Lemma inv_ignored sys R log f q x n c' :
  rx_inv sys R log f q -> 0 <= n -> (n = 0 \/ x + n <= R) -> rcv_nxt c' = wr R -> sack_inv (sack c') R q ->
  rx_inv (mk_system (sys_mem sys) (sys_worker sys) c' (sys_app sys)) R (log ++ [Arrived x n]) f q.
Proof.
  intros I Hn Hx Hc Hs. pose proof I as [I1 I2 I3 I4 I5 I6 I7 I8 I9 I10 I11]. rewrite I4 at 1. apply (inv_arrived sys R log f q x n (x + n) _ _ _ _ _ 0); try done; try lia; try (intros; lia).
  - by apply offered_none.
  - by rewrite <- I4.
  - by rewrite <- I4.
Qed.

Definition chain_cost q (chain : list (list Z)) : Z := vlen chain * grow_cost (q_cap q).

Lemma moved R R' c c' : rcv_nxt c = wr R -> rcv_nxt c' = wr R' -> R <= R' < R + 2 ^ 32 -> R + distance_to (rcv_nxt c) (rcv_nxt c') = R'.
Proof. intros -> -> H. rewrite distance_wr, wrap_small by (unfold in_word; lia). lia. Qed.

(** A handler kept the invariant. *)
Definition handled sys log q (x n : Z) (chain : list (list Z)) (res : option (segment * SessionWorker * TcpConnection * (ack_request + SessionError))) : Prop :=
  exists g' w' c' f' q' r, res = Some (g', w', c', inl r) /\ rx_inv (mk_system g' w' c' (sys_app sys)) (q_write q' + P) (log ++ [Arrived x n]) f' q' /\
    q_write q <= q_write q' /\ q_read q' = q_read q /\ q_cap q' = q_cap q /\ (short = false -> took (chain_cost q chain) (sys_mem sys) g').

Lemma handled_ignored sys R log f q x n chain c' r :
  rx_inv sys R log f q -> 0 <= n -> (n = 0 \/ x + n <= R) -> rcv_nxt c' = wr R -> sack_inv (sack c') R q -> handled sys log q x n chain (Some (sys_mem sys, sys_worker sys, c', inl r)).
Proof.
  intros I Hn Hx Hc Hs. pose proof I as [_ I2 _ I4 _ _ _ _ _ _ _]. eexists _, _, _, f, q, _. split; [done|]. rewrite <- I4. split_and!; try done; [by apply inv_ignored|]. intros _.
  eapply took_weaken, top_took; [|done]. pose proof (vlen_nonneg chain). pose proof (grow_cost_nonneg (q_cap q) ltac:(pose proof (qw_cap _ (shared_wf _ _ _ _ I2)); lia)). unfold chain_cost. nia.
Qed.

(** A segment with new bytes: what every handler does with it. *)
Lemma handled_stored sys R log f q packet chain x trim offset (k : TcpNodeError * RxDelivery -> TcpConnection -> TcpConnection * ack_request) :
  rx_inv sys R log f q -> let n := pkt_payload_len packet in
  0 <= pkt_payload_offset packet -> pkt_payload_offset packet + n <= vlen (concat chain) -> take (Z.to_nat n) (drop (Z.to_nat (pkt_payload_offset packet)) (concat chain)) = bytes_of S x n ->
  R < x + n < R + 2 ^ 31 -> trim = Z.max 0 (R - x) -> offset = Z.max 0 (x - R) -> 0 <= n <= u32_max -> (short = false -> x + n <= R + q_free q /\ room (sys_mem sys) (chain_cost q chain)) ->
  (forall r c, rcv_nxt (fst (k r c)) = rcv_nxt c /\ sack (fst (k r c)) = sack c) ->
  handled sys log q x n chain ('(g, w, c, r) ← deliver_payload avx2 (sys_mem sys) (sys_worker sys) (sys_conn sys) handle packet chain (wr x) trim offset;
    match r with inr e => Some (g, w, c, inr e) | inl r => Some (g, w, fst (k r c), inl (snd (k r c))) end).
Proof.
  intros I n H4 H5 H8 Hx -> -> Hmax Hsh Hk. pose proof I as [I1 I2 I3 I4 I5 I6 I7 I8 I9 I10 I11].
  destruct (deliver_spec (sys_mem sys) (sys_worker sys) (sys_conn sys) f (sys_app sys) q packet chain R x (Z.max 0 (R - x)) (Z.max 0 (x - R))) as (g' & w' & c' & f' & q' & r & -> & Hf' & O & Hn' & Hs' & Hall); try done; try (fold n; unfold u32_max in *; lia).
  { intros E. destruct (Hsh E) as [Hfit Hr]. split; [fold n; lia|done]. }
  cbn [mbind option_bind]. destruct (Hk r c') as [Ek1 Ek2]. eexists g', w', _, f', q', _. split; [done|]. fold n in O, Hall. pose proof O as [A1 A2 A3 A4 A5 A6 A7 A8]. split_and!; try done; [|intros E; specialize (A8 E); by rewrite E in A8].
  eapply (inv_arrived sys R log f q x n (x + Z.max 0 (R - x))); try done; try lia; try (by rewrite Ek1); try (by rewrite Ek2). replace (x + n - (x + Z.max 0 (R - x))) with (n - Z.max 0 (R - x)) by lia. exact O.
Qed.

Lemma window_free sys R f q path packet chain :
  shared (sys_mem sys) f (sys_app sys) q -> in_window sys R (Arrive path packet chain) = true -> near R (payload_sequence path packet) + pkt_payload_len packet <= R + q_free q.
Proof.
  intros Hs. cbn [in_window]. pose proof (shared_max_enqueue _ _ _ _ Hs) as E. destruct Hs as [_ [Eo _]]. unfold max_enqueue in *. rewrite Eo, E. by intros ?%Z.leb_le.
Qed.

(** Every handler keeps the invariant. *)
Lemma on_payload_spec sys R log f q path packet chain :
  rx_inv sys R log f q -> honest S R (Arrive path packet chain) = true ->
  (short = false -> in_window sys R (Arrive path packet chain) = true /\ room (sys_mem sys) (chain_cost q chain)) ->
  handled sys log q (near R (payload_sequence path packet)) (pkt_payload_len packet) chain (on_payload avx2 path (sys_mem sys) (sys_worker sys) (sys_conn sys) handle packet chain).
Proof.
  intros I H Hsh. cbn [honest] in H. rewrite !andb_true_iff, !Z.leb_le, !Z.ltb_lt, bool_decide_eq_true in H. destruct H as (((((((H1 & H2) & H3) & H4) & H5) & H6) & H7) & H8).
  pose proof I as [_ I2 _ _ I5 I6 _ _ _ _ _]. assert (short = false -> near R (payload_sequence path packet) + pkt_payload_len packet <= R + q_free q /\ room (sys_mem sys) (chain_cost q chain)) as Hsh'.
  { intros E. destruct (Hsh E). split; [by eapply window_free|done]. }
  set (n := pkt_payload_len packet) in *. set (x := near R (payload_sequence path packet)) in *.
  assert (payload_sequence path packet = wr x) as Ex.
  { unfold x. rewrite near_wr. symmetry. apply wrap_small. unfold in_word. destruct path; cbn; [lia|lia|]. unfold advance, wrap. apply Z.mod_pos_bound. lia. }
  destruct (decide (n = 0)) as [Ez|Hnz].
  { destruct path; cbn [on_payload]; unfold established_payload, rcv_process_payload, syn_sent_payload, accept_payload, accept_payload_from; fold n; rewrite Ez; cbn [Z.eqb]; (apply (handled_ignored sys R log f); [done..|by left|done|done]). }
  pose proof (accept_spec (sys_conn sys) R x n I5 H6 H7 ltac:(lia)) as Hacc.
  assert (n <= u32_max) as Hmax by (unfold u32_max; lia). pose proof (proj2 (Z.eqb_neq n 0) Hnz) as En.
  destruct (Z.leb_spec (x + n) R) as [Hold|Hnew].
  { destruct path; cbn [on_payload payload_sequence] in *; unfold established_payload, rcv_process_payload, syn_sent_payload, accept_payload; fold n; rewrite ?Ex, Hacc, En; (apply (handled_ignored sys R log f); try done; try by right).
    cbn. assert (advance (wr x) (wrap 32 n) = wr (x + n)) as -> by (rewrite advance_wr, wrap_small by (unfold in_word, u32_max in *; lia); done). apply sack_inv_duplicate; [done|lia]. }
  assert (exists trim offset, accept_payload_from (sys_conn sys) (wr x) n = Some (trim, offset) /\ trim = Z.max 0 (R - x) /\ offset = Z.max 0 (x - R)) as (trim & offset & Ea & Et & Eo).
  { destruct (Z.ltb_spec x R); rewrite Hacc; eexists _, _; (split; [done|]); lia. }
  pose proof (fun k => handled_stored sys R log f q packet chain x trim offset k I H4 H5 H8 ltac:(fold n; lia) Et Eo ltac:(fold n; lia) Hsh') as Hst. fold n in Hst.
  destruct path; cbn [on_payload payload_sequence] in *; unfold established_payload, rcv_process_payload, syn_sent_payload, accept_payload; fold n; rewrite ?Ex, Ea, ?En.
  - specialize (Hst (fun r c => (set_rcv_wnd (delivery_rx_available (snd r)) c, mk_ack true (negb (offset =? 0)) (Some (fst r)))) ltac:(done)).
    destruct (deliver_payload _ _ _ _ _ _ _ _ _ _) as [[[[g w] c] [[e d]|e]]|]; exact Hst.
  - specialize (Hst (fun r c => (c, mk_ack true (negb (offset =? 0)) (Some (fst r)))) ltac:(done)).
    destruct (deliver_payload _ _ _ _ _ _ _ _ _ _) as [[[[g w] c] [[e d]|e]]|]; exact Hst.
  - specialize (Hst (fun r c => (c, mk_ack true false (Some (fst r)))) ltac:(done)).
    destruct (deliver_payload _ _ _ _ _ _ _ _ _ _) as [[[[g w] c] [[e d]|e]]|]; exact Hst.
Qed.

(** ** Reading *)

Lemma known_drop q n y : known (q_drop q n) y <-> known q y /\ q_read q + n <= y.
Proof. unfold known, q_drop. cbn. split; [intros [b [H1 H2]%map_lookup_filter_Some]; split; [by exists b|done]|]. intros [[b Hb] Hy]. exists b. by apply map_lookup_filter_Some. Qed.

Lemma peek_stream q n : q_wf q -> agrees S P q -> 0 <= n <= q_len q -> q_peek q 0 (Z.to_nat n) = bytes_of S (q_read q + P) n.
Proof.
  intros W Ha Hn. unfold q_peek, bytes_of. apply load_list_bytes. intros i Hi. unfold load. destruct (qw_readable _ W (q_read q + 0 + i)) as [b Hb]; [unfold q_len in *; lia|]. rewrite Hb. cbn. rewrite (Ha _ _ Hb). f_equal. lia.
Qed.

Lemma inv_read sys R log f q n g' fc' :
  rx_inv sys R log f q -> 0 <= n <= q_len q -> shared g' f fc' (q_drop q n) ->
  rx_inv (mk_system g' (sys_worker sys) (sys_conn sys) fc') R (log ++ [Consumed (bytes_of S (q_read q + P) n)]) f (q_drop q n).
Proof.
  intros [I1 I2 I3 I4 I5 I6 I7 I8 I9 I10 I11] Hn Hs'. unfold q_len in Hn. assert (forall y, received (log ++ [Consumed (bytes_of S (q_read q + P) n)]) y <-> received log y) as Hr.
  { intros y. rewrite received_snoc. split; [|tauto]. intros [?|(a & b & Hab%list_elem_of_singleton & _)]; [done|discriminate]. }
  assert (forall y, R <= y -> known q (y - P) -> known (q_drop q n) (y - P)) as Hk by (intros y Hy Hky; apply known_drop; split; [done|lia]).
  constructor; cbn; try done.
  - intros y b [Hy _]%map_lookup_filter_Some. by apply I3.
  - destruct I6 as [(rs & S1 & S2 & S3) Hd]. split; [|done]. exists rs. split_and!; try done. intros y Hy. apply Hk; [|by apply S3]. destruct Hy as (b & Hb & Hy). pose proof (ok_valid _ _ _ S1) as Hv. rewrite Forall_forall in Hv. destruct (Hv b Hb). lia.
  - intros y [Hy _]%known_drop. apply Hr. by apply I7.
  - intros y Hy. apply Hr. by apply I8.
  - lia.
  - rewrite consumed_app, I10. cbn. rewrite app_nil_r, bytes_of_app by lia. do 2 f_equal. lia.
  - intros E y Hy HP. apply Hr in Hy. destruct (I11 E y Hy HP) as [?|?]; [by left|]. destruct (decide (y < R)); [by left|right; apply Hk; [lia|done]].
Qed.

(** ** Steps and runs *)

Definition input_cost q (i : rx_input) : Z := match i with Arrive _ _ chain => chain_cost q chain | Read _ _ => 0 end.

Lemma step_spec sys R log f q i :
  rx_inv sys R log f q -> honest S R i = true -> (short = false -> in_window sys R i = true /\ room (sys_mem sys) (input_cost q i)) ->
  exists sys' R' e f' q', rx_step avx2 handle sys R i = Some (sys', R', e) /\ accepted_all [e] = true /\ rx_inv sys' R' (log ++ [e]) f' q' /\ R <= R' /\ q_cap q' = q_cap q /\
    (short = false -> took (input_cost q i) (sys_mem sys) (sys_mem sys')).
Proof.
  intros I H Hsh. destruct i as [path packet chain|len dst]; cbn [rx_step input_cost] in *.
  - destruct (on_payload_spec sys R log f q path packet chain I H Hsh) as (g' & w' & c' & f' & q' & r & -> & I' & Hw & Er & Ec & Ht). cbn [mbind option_bind].
    pose proof (ri_pos _ _ _ _ _ I) as E. pose proof (qw_pos _ (shared_wf _ _ _ _ (ri_shared _ _ _ _ _ I'))). pose proof (qw_cap _ (shared_wf _ _ _ _ (ri_shared _ _ _ _ _ I'))). pose proof (qw_pos _ (shared_wf _ _ _ _ (ri_shared _ _ _ _ _ I))).
    rewrite (moved R (q_write q' + P)) by (apply (ri_nxt _ _ _ _ _ I) || apply (ri_nxt _ _ _ _ _ I') || lia).
    eexists _, _, _, f', q'. split; [done|]. split_and!; try done. lia.
  - pose proof I as [I1 I2 I3 I4 I5 I6 I7 I8 I9 I10 I11]. destruct (shared_consume avx2 short (sys_mem sys) f (sys_app sys) q (Dequeue len dst) I2 eq_refl H) as (g' & fc' & q' & out & E & St & Hs' & Ht); [intros E; by apply Hsh|].
    cbn [run_op] in E. destruct (dequeue _ _ _ _ _) as [[[g1 fc1] [d n]]|]; [|done]. cbn [mbind option_bind] in *. injection E as -> -> E. cbn [honest] in H. apply Z.leb_le in H.
    inversion St as [| | | | | | | | | |? ? n' En| | |]; clear St; simplify_eq. remember (Z.min (Z.min len (vlen dst)) (q_len q)) as n eqn:En.
    pose proof (shared_wf _ _ _ _ I2) as W. pose proof (qw_pos _ W) as Wp. pose proof (vlen_nonneg dst). assert (0 <= n <= q_len q) as Hn by (unfold q_len in *; lia).
    eexists _, _, _, f, (q_drop q n). split; [done|]. rewrite (peek_stream q n) by done. rewrite take_app_length' by (rewrite length_bytes_of; lia). split_and!; try done; by apply inv_read.
Qed.

Definition inputs_cost q (l : list rx_input) : Z := foldr (fun i n => input_cost q i + n) 0 l.

Lemma inputs_cost_cons q i l : inputs_cost q (i :: l) = input_cost q i + inputs_cost q l.
Proof. done. Qed.
Lemma inputs_cost_cap q q' l : q_cap q' = q_cap q -> inputs_cost q' l = inputs_cost q l.
Proof. intros E. induction l as [|[] l IH]; rewrite ?inputs_cost_cons; [done|cbn; unfold chain_cost; rewrite E; lia|cbn; lia]. Qed.
Lemma inputs_cost_nonneg q l : q_wf q -> 0 <= inputs_cost q l.
Proof.
  intros W. induction l as [|[path packet chain|] l IH]; [done| |]; rewrite inputs_cost_cons; cbn [input_cost]; [|lia]. pose proof (qw_cap _ W). pose proof (grow_cost_nonneg (q_cap q) ltac:(lia)).
  pose proof (vlen_nonneg chain). unfold chain_cost. nia.
Qed.

(** [short] allows for segments beyond the window and for memory to run out. *)
Definition run_ok (sys : rx_system) (R : Z) (l : list rx_input) : bool :=
  along (fun sys R i => honest S R i && (short || in_window sys R i)) avx2 handle sys R l.

Lemma run_spec l : forall sys R log f q, rx_inv sys R log f q -> run_ok sys R l = true -> (short = false -> room (sys_mem sys) (inputs_cost q l)) ->
  exists sys' R' log' f' q', rx_run avx2 handle sys R l = Some (sys', R', log') /\ accepted_all log' = true /\ rx_inv sys' R' (log ++ log') f' q' /\ R <= R'.
Proof.
  induction l as [|i l IH]; intros sys R log f q I H Hroom.
  { exists sys, R, [], f, q. split; [done|]. rewrite app_nil_r. by split_and!. }
  unfold run_ok in H. cbn [along] in H. destruct (honest S R i) eqn:Hh; [|done]. cbn [andb] in H. destruct (short || in_window sys R i) eqn:Hw; [|done].
  pose proof (shared_wf _ _ _ _ (ri_shared _ _ _ _ _ I)) as W. rewrite inputs_cost_cons in Hroom. pose proof (inputs_cost_nonneg q l W).
  destruct (step_spec sys R log f q i I Hh) as (sys1 & R1 & e & f1 & q1 & E & Ha & I1 & HR & Ec & Ht).
  { intros Es. split; [by rewrite Es in Hw|]. eapply room_weaken, (Hroom Es). lia. }
  cbn [rx_run]. rewrite E in *. cbn [mbind option_bind]. destruct (IH sys1 R1 _ f1 q1 I1 H) as (sys' & R' & log' & f' & q' & -> & Ha' & I' & HR').
  { intros Es. rewrite (inputs_cost_cap q q1 l Ec). eapply room_took; [exact (Hroom Es)|exact (Ht Es)]. }
  cbn [mbind option_bind]. eexists sys', R', (e :: log'), f', q'. split; [done|]. unfold accepted_all in *. cbn [forallb] in *. rewrite andb_true_r in Ha. rewrite Ha. split_and!; try done; [|lia]. by rewrite <- app_assoc in I'.
Qed.

End Receive.
(** ** The start *)

Lemma f_run_length short Q l rs Q' : f_run short Q l rs Q' -> length rs = length l.
Proof. induction 1; cbn; lia. Qed.

Lemma start_inv short avx2 base page size config s before slice capacity P S wnd sack_on mss sys :
  segment_new base page size config = inl s -> mapping_ok page size config = true -> forallb (action_ok true s) (before ++ [Allocate slice capacity RxFifo]) = true ->
  rx_start avx2 s before slice capacity P wnd sack_on mss = Some sys ->
  exists f, rx_inv short rx_handle S P sys P [] f (q_new capacity) /\ byte_index (sys_mem sys) >= 0 /\ max_byte_index (sys_mem sys) <= 2 ^ 32.
Proof.
  intros Hnew Hmap Hl Hst. unfold rx_start in Hst. destruct (reached avx2 base page size config s true _ Hnew Hmap Hl true ltac:(done)) as (s' & rs & fr & hf & W & Q & Hrun & Hf & H).
  rewrite Hrun in Hst. cbn [mbind option_bind] in Hst. destruct (list.last rs) as [[i| | | |]|] eqn:El; try done. apply last_Some in El as (rs1 & ->).
  assert (length rs1 = length before) as Hlen by (pose proof (f_run_length _ _ _ _ _ Hf) as E; rewrite !length_app in E; cbn in E; lia).
  destruct (f_run_app _ _ _ _ _ _ _ _ _ Hf Hlen) as (Q1 & Q2 & _ & Hs & H2). inversion H2; subst. inversion Hs; subst.
  destruct (live_fifo _ _ _ _ _ _ slice i (q_new capacity) H) as (e & Hfifo & Hok & Hqr & Hix); [apply lookup_insert_eq|]. rewrite Hfifo in Hst. cbn [mbind option_bind] in Hst.
  destruct (attach_spec s' fr hf _ _ _ (wd_inv _ _ _ _ _ _ H) Hok) as (fc & Ha & Hp). rewrite Ha in Hst. cbn [mbind option_bind] in Hst.
  destruct (Pool.pool_insert_repr Pool.new ∅ (session_ (Some (e_fifo e)) false)) as (p & k & Ei & _ & _ & Rp); [apply (Pool.pool_dynamic_empty_repr 0)|by right|].
  assert (k = 0) as -> by (pose proof Ei as Ek; unfold Pool.insert in Ek; vm_compute in Ek; congruence). rewrite Ei in Hst. cbn [mbind option_bind] in Hst. destruct (default_ok P) as (sk & Esk & Hsk & Hd). rewrite Esk in Hst. cbn [mbind option_bind] in Hst. injection Hst as <-.
  exists (e_fifo e). pose proof (si_seg _ _ _ (wd_inv _ _ _ _ _ _ H)) as Hseg. pose proof (sk_index _ _ Hseg). pose proof (sk_max _ _ Hseg). split; [|cbn; lia].
  assert (forall y, ~ received [] y) as Hno by (by intros y (x & n & []%not_elem_of_nil & _)). assert (forall y, ~ known (q_new capacity) y) as Hnk by (by intros y [b Hb]).
  constructor; cbn; try done; try lia.
  - split_and!; try done. exists (<[0:=session_ (Some (e_fifo e)) false]> ∅), false. split; [done|apply lookup_insert_eq].
  - split; [|done]. by exists fr, (e_view e), (e_bytes e).
  - split; [|intros d; by rewrite Hd]. exists []. split_and!; [done|cbn; lia|]. by intros y (b & []%not_elem_of_nil & _).
  - intros y Hy. by destruct (Hnk y).
  - intros _ y Hy. by destruct (Hno y).
Qed.

(** ** Delivery *)

Lemma along_impl (H1 H2 : rx_system -> Z -> rx_input -> bool) avx2 handle l : (forall sys R i, H1 sys R i = true -> H2 sys R i = true) ->
  forall sys R, along H1 avx2 handle sys R l = true -> along H2 avx2 handle sys R l = true.
Proof.
  intros Hi. induction l as [|i l IH]; intros sys R H; [done|]. cbn [along] in *. destruct (H1 sys R i) eqn:E; [|done]. rewrite (Hi _ _ _ E). destruct (rx_step _ _ _ _ _) as [[[sys' R'] e]|]; [by apply IH|done].
Qed.

(** The bytes the application has not read yet. *)
Lemma unread_spec avx2 short handle S P sys R log f q :
  rx_inv short handle S P sys R log f q -> let unread := bytes_of S (P + q_read q) (q_len q) in
  consumed log ++ unread = bytes_of S P (R - P) /\ max_dequeue (sys_mem sys) (sys_app sys) = Some (vlen unread) /\
  peek avx2 (sys_mem sys) (sys_app sys) 0 (vlen unread) (replicate (length unread) 0) = Some (unread, vlen unread).
Proof.
  intros [I1 I2 I3 I4 I5 I6 I7 I8 I9 I10 I11] unread. pose proof (shared_wf _ _ _ _ I2) as W. pose proof (qw_pos _ W) as Wp.
  assert (vlen unread = q_len q) as El by (apply vlen_bytes_of; unfold q_len; lia). split.
  { rewrite I10. unfold unread. rewrite <- bytes_of_app by (unfold q_len in *; lia). f_equal. unfold q_len. lia. }
  destruct (shared_consume avx2 true _ _ _ _ MaxDequeue I2 eq_refl eq_refl ltac:(done)) as (g1 & fc1 & q1 & out1 & E1 & St1 & _). cbn [run_op] in E1.
  destruct (shared_consume avx2 true _ _ _ _ (Peek 0 (vlen unread) (replicate (length unread) 0)) I2 eq_refl ltac:(cbn; apply Z.leb_le, vlen_nonneg) ltac:(done)) as (g2 & fc2 & q2 & out2 & E2 & St2 & _). cbn [run_op] in E2.
  destruct (max_dequeue _ _) as [k|]; [|done]. cbn [mbind option_bind] in E1. injection E1 as _ _ <-. destruct (peek _ _ _ _ _ _) as [[d k']|]; [|done]. cbn [mbind option_bind] in E2. injection E2 as _ _ <-.
  assert (k = q_len q) as -> by (by inversion St1). split; [by rewrite El|].
  assert (k' = q_len q /\ d = unread) as [-> ->]; [|by rewrite El].
  assert (k' = Z.max 0 (Z.min (Z.min (vlen unread) (vlen (replicate (length unread) 0))) (q_len q - 0)) /\ d = q_peek q 0 (Z.to_nat k') ++ drop (Z.to_nat k') (replicate (length unread) 0)) as [Ek Ed] by (inversion St2; subst; done).
  rewrite vlen_replicate in Ek. fold (vlen unread) in Ek. assert (k' = q_len q) as -> by (unfold q_len in *; lia). split; [done|].
  rewrite Ed, (peek_stream S P q (q_len q) W I3), drop_ge, app_nil_r by (rewrite ?length_replicate; unfold vlen, q_len in *; lia). unfold unread. f_equal. lia.
Qed.

(** C2: A TCP receiver delivers the byte stream its peer sent.  Whatever
    segments arrive, repeated, overlapping, out of order, split over buffers,
    beyond the window or while shared memory runs out, as long as each carries
    the bytes of the stream at its position: no handler panics or fails, and
    what the application has read so far, in another process and at any pace,
    followed by what it can still read, is exactly the stream up to the
    acknowledged position.  Every acknowledged byte has arrived. *)
Theorem tcp_receive_delivers_stream avx2 base page size config s before slice capacity S P wnd sack_on mss sys l :
  segment_new base page size config = inl s -> mapping_ok page size config = true -> forallb (action_ok true s) (before ++ [Allocate slice capacity RxFifo]) = true ->
  rx_start avx2 s before slice capacity P wnd sack_on mss = Some sys -> along (fun _ R i => honest S R i) avx2 rx_handle sys P l = true ->
  exists sys' R log unread, rx_run avx2 rx_handle sys P l = Some (sys', R, log) /\ accepted_all log = true /\ P <= R /\ rcv_nxt (sys_conn sys') = wr R /\
    consumed log ++ unread = bytes_of S P (R - P) /\ max_dequeue (sys_mem sys') (sys_app sys') = Some (vlen unread) /\
    peek avx2 (sys_mem sys') (sys_app sys') 0 (vlen unread) (replicate (length unread) 0) = Some (unread, vlen unread) /\
    forall y, P <= y < R -> received log y.
Proof.
  intros Hnew Hmap Hl Hst Hh. destruct (start_inv true avx2 base page size config s before slice capacity P S wnd sack_on mss sys Hnew Hmap Hl Hst) as (f & I & _).
  destruct (run_spec avx2 true rx_handle S P l sys P [] f _ I) as (sys' & R & log & f' & q & Hrun & Ha & I' & HR); [|done|].
  { eapply along_impl, Hh. intros sys0 R0 i0 E. cbn in *. by rewrite E. }
  exists sys', R, log, (bytes_of S (P + q_read q) (q_len q)). cbn [app] in I'. destruct (unread_spec avx2 _ _ _ _ _ _ _ _ _ I') as (U1 & U2 & U3). split_and!; try done; [apply (ri_nxt _ _ _ _ _ _ _ _ _ I')|apply (ri_past _ _ _ _ _ _ _ _ _ I')].
Qed.

(** C6: A TCP receiver never takes back what it acknowledged selectively.  At
    any time every byte of a SACK block has arrived, lies beyond [rcv_nxt] and is
    stored in the receive FIFO with its value in the stream, and a duplicate
    report names bytes that were acknowledged before. *)
Theorem tcp_sack_never_reneges avx2 base page size config s before slice capacity S P wnd sack_on mss sys l :
  segment_new base page size config = inl s -> mapping_ok page size config = true -> forallb (action_ok true s) (before ++ [Allocate slice capacity RxFifo]) = true ->
  rx_start avx2 s before slice capacity P wnd sack_on mss = Some sys -> along (fun _ R i => honest S R i) avx2 rx_handle sys P l = true ->
  exists sys' R log f q rs, rx_run avx2 rx_handle sys P l = Some (sys', R, log) /\ holds_fifo (sys_worker sys') rx_handle f /\ shared (sys_mem sys') f (sys_app sys') q /\
    sack_ok R (sack (sys_conn sys')) rs /\ (forall y, covers rs y -> R <= y /\ received log y /\ q_bytes q !! (y - P) = Some (S y)) /\
    (forall d, pending_dsack (sack (sys_conn sys')) = Some d -> exists a b, d = wire (a, b) /\ a < b <= R).
Proof.
  intros Hnew Hmap Hl Hst Hh. destruct (start_inv true avx2 base page size config s before slice capacity P S wnd sack_on mss sys Hnew Hmap Hl Hst) as (f & I & _).
  destruct (run_spec avx2 true rx_handle S P l sys P [] f _ I) as (sys' & R & log & f' & q & Hrun & Ha & I' & HR); [|done|].
  { eapply along_impl, Hh. intros sys0 R0 i0 E. cbn in *. by rewrite E. }
  cbn [app] in I'. pose proof I' as [I1 I2 I3 I4 I5 [(rs & K1 & K2 & K3) K4] I7 I8 I9 I10 I11]. exists sys', R, log, f', q, rs. split_and!; try done. intros y Hy. split_and!.
  - destruct Hy as (b & Hb & Hy). pose proof (ok_valid _ _ _ K1) as Hv. rewrite Forall_forall in Hv. destruct (Hv b Hb). lia.
  - replace y with (y - P + P) by lia. by apply I7, K3.
  - destruct (K3 y Hy) as [b Hb]. rewrite Hb. f_equal. rewrite (I3 _ _ Hb). f_equal. lia.
Qed.

(** C7: A TCP receiver makes progress.  While every segment lies inside the space
    left in the receive FIFO and the shared memory suffices, nothing that
    arrives is lost: [rcv_nxt] is exactly the first position of the stream that
    has not arrived, and every byte that arrived beyond it is kept. *)
Theorem tcp_receive_complete avx2 base page size config s before slice capacity S P wnd sack_on mss sys l :
  segment_new base page size config = inl s -> mapping_ok page size config = true -> forallb (action_ok true s) (before ++ [Allocate slice capacity RxFifo]) = true ->
  rx_start avx2 s before slice capacity P wnd sack_on mss = Some sys ->
  along (fun sys R i => honest S R i && in_window sys R i) avx2 rx_handle sys P l = true ->
  byte_index (sys_mem sys) + inputs_cost (q_new capacity) l < max_byte_index (sys_mem sys) ->
  exists sys' R log f q, rx_run avx2 rx_handle sys P l = Some (sys', R, log) /\ rcv_nxt (sys_conn sys') = wr R /\ P <= R /\ (forall y, P <= y < R -> received log y) /\ ~ received log R /\
    holds_fifo (sys_worker sys') rx_handle f /\ shared (sys_mem sys') f (sys_app sys') q /\ (forall y, received log y -> R < y -> q_bytes q !! (y - P) = Some (S y)).
Proof.
  intros Hnew Hmap Hl Hst Hh Hmem. destruct (start_inv false avx2 base page size config s before slice capacity P S wnd sack_on mss sys Hnew Hmap Hl Hst) as (f & I & Hb1 & Hb2).
  destruct (run_spec avx2 false rx_handle S P l sys P [] f _ I) as (sys' & R & log & f' & q & Hrun & Ha & I' & HR); [done|intros _; unfold room; lia|].
  cbn [app] in I'. pose proof I' as [I1 I2 I3 I4 I5 I6 I7 I8 I9 I10 I11]. exists sys', R, log, f', q. split_and!; try done.
  - intros Hr. destruct (I11 eq_refl R Hr HR) as [?|Hk]; [lia|]. apply (qw_gap _ (shared_wf _ _ _ _ I2)). by replace (q_write q) with (R - P) by lia.
  - intros y Hy HRy. destruct (I11 eq_refl y Hy ltac:(lia)) as [?|[b Hb]]; [lia|]. rewrite Hb. f_equal. rewrite (I3 _ _ Hb). f_equal. lia.
Qed.

(** ** An example *)

(** Sequence numbers wrap after six bytes. *)
Definition example_P : Z := 2 ^ 32 - 6.
Definition example_stream (y : Z) : Z := y mod 251.
(** Bytes [x] to [x + n], over two buffers behind a header of two bytes. *)
Definition example_arrival (path : rx_path) (x n : Z) : rx_input :=
  let bs := bytes_of example_stream x n in
  let seq := wr (match path with SynSentNode => x - 1 | _ => x end) in
  Arrive path (mk_packet (socket_addr (V4 1) 80) (socket_addr (V4 2) 90) seq None 0 0 TcpOptions.caps_default [] None None None 2 n) [[0; 0] ++ take 2 bs; drop 2 bs].
Definition example_inputs : list rx_input :=
  [example_arrival SynSentNode example_P 3; example_arrival EstablishedNode (example_P + 8) 4; example_arrival EstablishedNode example_P 2;
   example_arrival RcvProcessNode (example_P + 6) 4; Read 2 [0; 0]; example_arrival EstablishedNode (example_P + 2) 5; example_arrival EstablishedNode (example_P + 20) 3; Read 20 (replicate 20 0)].
Definition example_rx_segment : SvmFifoSegment := match segment_new 0 4096 (2 ^ 27) example_config with inl s => s | inr _ => example_start end.
Definition example_rx_before : list action := [Allocate 1 4096 TxFifo; Use 1 0 (Enqueue [7; 8; 9])].
Definition example_rx : option rx_system := rx_start true example_rx_segment example_rx_before 0 8192 example_P 65535 true 1460.

Lemma tcp_receive_delivers_stream_witness :
  exists sys sys' R log unread, example_rx = Some sys /\ rx_run true rx_handle sys example_P example_inputs = Some (sys', R, log) /\ accepted_all log = true /\
    rcv_nxt (sys_conn sys') = wr R /\ consumed log ++ unread = bytes_of example_stream example_P (R - example_P) /\ forall y, example_P <= y < R -> received log y.
Proof.
  assert (match example_rx with Some sys => along (fun _ R i => honest example_stream R i) true rx_handle sys example_P example_inputs | None => false end = true) as H by (vm_compute; reflexivity).
  destruct example_rx as [sys|] eqn:E; [|discriminate]. exists sys.
  destruct (tcp_receive_delivers_stream true 0 4096 (2 ^ 27) example_config example_rx_segment example_rx_before 0 8192 example_stream example_P 65535 true 1460 sys example_inputs)
    as (sys' & R & log & unread & H1 & H2 & H3 & H4 & H5 & _ & _ & H6); [vm_compute; reflexivity|vm_compute; reflexivity|vm_compute; reflexivity|exact E|exact H|].
  exists sys', R, log, unread. split; [reflexivity|]. split; [exact H1|]. split; [exact H2|]. split; [exact H4|]. split; [exact H5|exact H6].
Defined.

Lemma tcp_sack_never_reneges_witness :
  exists sys sys' R log f q rs, example_rx = Some sys /\ rx_run true rx_handle sys example_P example_inputs = Some (sys', R, log) /\ shared (sys_mem sys') f (sys_app sys') q /\
    sack_ok R (sack (sys_conn sys')) rs /\ forall y, covers rs y -> R <= y /\ received log y /\ q_bytes q !! (y - example_P) = Some (example_stream y).
Proof.
  assert (match example_rx with Some sys => along (fun _ R i => honest example_stream R i) true rx_handle sys example_P example_inputs | None => false end = true) as H by (vm_compute; reflexivity).
  destruct example_rx as [sys|] eqn:E; [|discriminate]. exists sys.
  destruct (tcp_sack_never_reneges true 0 4096 (2 ^ 27) example_config example_rx_segment example_rx_before 0 8192 example_stream example_P 65535 true 1460 sys example_inputs)
    as (sys' & R & log & f & q & rs & H1 & _ & H2 & H3 & H4 & _); [vm_compute; reflexivity|vm_compute; reflexivity|vm_compute; reflexivity|exact E|exact H|].
  exists sys', R, log, f, q, rs. split; [reflexivity|]. split; [exact H1|]. split; [exact H2|]. split; [exact H3|exact H4].
Defined.

Lemma tcp_receive_complete_witness :
  exists sys sys' R log, example_rx = Some sys /\ rx_run true rx_handle sys example_P example_inputs = Some (sys', R, log) /\ rcv_nxt (sys_conn sys') = wr R /\
    (forall y, example_P <= y < R -> received log y) /\ ~ received log R.
Proof.
  assert (match example_rx with Some sys => along (fun sys R i => honest example_stream R i && in_window sys R i) true rx_handle sys example_P example_inputs &&
    (byte_index (sys_mem sys) + inputs_cost (q_new 8192) example_inputs <? max_byte_index (sys_mem sys)) | None => false end = true) as H by (vm_compute; reflexivity).
  destruct example_rx as [sys|] eqn:E; [|discriminate]. exists sys. apply andb_true_iff in H as [H Hm%Z.ltb_lt].
  destruct (tcp_receive_complete true 0 4096 (2 ^ 27) example_config example_rx_segment example_rx_before 0 8192 example_stream example_P 65535 true 1460 sys example_inputs)
    as (sys' & R & log & f & q & H1 & H2 & _ & H3 & H4 & _); [vm_compute; reflexivity|vm_compute; reflexivity|vm_compute; reflexivity|exact E|exact H|exact Hm|].
  exists sys', R, log. split; [reflexivity|]. split; [exact H1|]. split; [exact H2|]. split; [exact H3|exact H4].
Defined.

(** The example ends twelve bytes into the stream with three bytes ahead. *)
Example example_delivery :
  (sys ← example_rx; '(sys, R, log) ← rx_run true rx_handle sys example_P example_inputs; Some (R - example_P, vlen (consumed log), block_count (sack (sys_conn sys)), rcv_nxt (sys_conn sys))) = Some (12, 12, 1, 6).
Proof. vm_compute. reflexivity. Qed.

(** Three bytes ahead of the stream in one buffer, alone or with more buffers
    behind it: the SACK blocks and the out-of-order segments afterwards. *)
Definition example_ahead (more : list (list Z)) : option (Z * Z) :=
  let bs := bytes_of example_stream (example_P + 20) 3 in
  let packet := mk_packet (socket_addr (V4 1) 80) (socket_addr (V4 2) 90) (wr (example_P + 20)) None 0 0 TcpOptions.caps_default [] None None None 2 3 in
  sys ← example_rx;
  '(sys, _, _) ← rx_run true rx_handle sys example_P [Arrive EstablishedNode packet (([0; 0] ++ bs) :: more)];
  s ← Pool.get (sessions (sys_worker sys)) 0;
  s ← s;
  f ← rx_fifo s;
  Some (block_count (sack (sys_conn sys)), n_ooo_segments f).

(** An empty buffer at the end of the chain makes [enqueue_rx] forget the range
    it stored, so the bytes are kept and never reported. *)
Example empty_buffer_hides_block : example_ahead [] = Some (1, 1) /\ example_ahead [[]] = Some (0, 1).
Proof. vm_compute. done. Qed.

End TcpReceiveProofs.
