(* ===== verification/TcpRecovery.v ===== *)
(** * Loss recovery of a TCP sender ([tcp/src/recovery.rs])

    A sender keeps a sample of every transmission that is not acknowledged: a
    pool of [TcpSentSample]s threaded into a list in sequence order and indexed
    by a red-black tree from sequence numbers to pool indices.  Cumulative and
    selective acknowledgments take samples out, splitting them where an edge
    falls inside one.  A scoreboard keeps the gaps below the highest selective
    acknowledgment.  Around them are the loss detectors: duplicate
    acknowledgments, RACK and tail loss probes.

    The fields of [TcpRecoveryState] are grouped into records by the part of the
    code that works on them.  [Instant] and [Duration] are nanoseconds; adding a
    duration to an instant does not overflow.  The congestion controller is a
    class with the methods of the trait [CongestionController].

    Loops over the list have the shape of [walk], their fuel is the number of
    slots of the pool.  [None] is a panic. *)

From S2P Require Import Prelude InfraPool InfraRbTree TcpProtocol TcpOptions TcpSack.

Module TcpRecovery.
Import TcpProtocol TcpOptions.

Definition Instant : Type := Z.
Definition Duration : Type := Z.
Definition saturating_duration_since (a b : Instant) : Duration := Z.max 0 (a - b).
Definition DURATION_MAX : Z := (2 ^ 64 - 1) * 10 ^ 9 + 999999999.

Definition TCP_MIN_TLP_TIMEOUT : Duration := 10 * 10 ^ 6.
Definition TCP_TLP_MAX_ACK_DELAY : Duration := 50 * 10 ^ 6.
Definition TCP_DUPACK_THRESHOLD : Z := 3.

(** [>] and [>=] of [TcpSeq]. *)
Definition seq_gt (a b : Z) : bool := negb (seq_le a b).
Definition seq_ge (a b : Z) : bool := negb (seq_lt a b).
Definition seq_max : Z -> Z -> Z := TcpSack.seq_max.
Definition seq_min : Z -> Z -> Z := TcpSack.seq_min.

Definition sat32 : Z -> Z -> Z := saturating_add 32.
Definition sat64 : Z -> Z -> Z := saturating_add 64.

(** ** Samples *)

Record TcpSentSample : Type := sent_sample_ {
  packet_number : Z;
  sequence : Z;
  end_sequence : Z;
  bytes : Z;
  payload_len : Z;
  retransmitted : bool;
  lost : bool;
  tx_lost : bool;
  delivered_at_send : Z;
  delivered_time_at_send : option Instant;
  first_tx_time_at_send : Instant;
  app_limited : bool;
  tx_in_flight : Z;
  tx_lost_bytes : Z;
  sample_deadline : option Instant;
  sent_at : Instant;
  prev : option Z;
  next : option Z
}.

Definition with_span (l r n p : Z) (s : TcpSentSample) : TcpSentSample :=
  sent_sample_ (packet_number s) l r n p (retransmitted s) (lost s) (tx_lost s) (delivered_at_send s)
    (delivered_time_at_send s) (first_tx_time_at_send s) (app_limited s) (tx_in_flight s) (tx_lost_bytes s)
    (sample_deadline s) (sent_at s) (prev s) (next s).
Definition with_links (p n : option Z) (s : TcpSentSample) : TcpSentSample :=
  sent_sample_ (packet_number s) (sequence s) (end_sequence s) (bytes s) (payload_len s) (retransmitted s) (lost s)
    (tx_lost s) (delivered_at_send s) (delivered_time_at_send s) (first_tx_time_at_send s) (app_limited s)
    (tx_in_flight s) (tx_lost_bytes s) (sample_deadline s) (sent_at s) p n.
Definition with_flags (again l t : bool) (d : option Instant) (at_ : Instant) (s : TcpSentSample) : TcpSentSample :=
  sent_sample_ (packet_number s) (sequence s) (end_sequence s) (bytes s) (payload_len s) again l t (delivered_at_send s)
    (delivered_time_at_send s) (first_tx_time_at_send s) (app_limited s) (tx_in_flight s) (tx_lost_bytes s) d at_
    (prev s) (next s).
Definition with_next (n : option Z) (s : TcpSentSample) : TcpSentSample := with_links (prev s) n s.
Definition with_prev (p : option Z) (s : TcpSentSample) : TcpSentSample := with_links p (next s) s.
Definition with_deadline (d : option Instant) (s : TcpSentSample) : TcpSentSample :=
  with_flags (retransmitted s) (lost s) (tx_lost s) d (sent_at s) s.
(** [lost] and [tx_lost] set. *)
Definition with_lost (d : option Instant) (s : TcpSentSample) : TcpSentSample :=
  with_flags (retransmitted s) true true d (sent_at s) s.

Definition covers (s : TcpSentSample) (sq : Z) : bool := seq_le (sequence s) sq && seq_gt (end_sequence s) sq.
Definition overlaps (s : TcpSentSample) (start end_ : Z) : bool := seq_gt (end_sequence s) start && seq_lt (sequence s) end_.

Definition proportional_payload_len (bytes_ payload portion : Z) : Z :=
  if (bytes_ =? 0) || (payload =? 0) || (portion =? 0) then 0 else Z.min (payload * portion / bytes_) payload.

Definition split (s : TcpSentSample) (at_ : Z) : option (TcpSentSample * TcpSentSample) :=
  if seq_le at_ (sequence s) || seq_ge at_ (end_sequence s) then None else
  let left_bytes := distance_to (sequence s) at_ in
  let left_payload_len := proportional_payload_len (bytes s) (payload_len s) left_bytes in
  let right_bytes := saturating_sub (bytes s) left_bytes in
  let right_payload_len := saturating_sub (payload_len s) left_payload_len in
  Some (with_span (sequence s) at_ left_bytes left_payload_len s, with_span at_ (end_sequence s) right_bytes right_payload_len s).

(** ** The state *)

Record TcpRecoveryAck : Type := recovery_ack {
  acknowledgment : Z;
  now : Instant;
  ack_app_limited : bool;
  ecn_ce_count : Z;
  reordering_window : Duration;
  duplicate_ack : bool
}.

Record TcpScoreboardHole : Type := hole_ { hole_end : Z; hole_lost : bool }.

Record TcpScoreboard : Type := scoreboard_ {
  holes : @RbTree.t Z TcpScoreboardHole;
  high_sacked : Z;
  high_rxt : Z;
  lost_bytes : Z;
  reorder : Z
}.
Definition hole_tree_new : option (@RbTree.t Z TcpScoreboardHole) := RbTree.with_capacity 0 (hole_ 0 false) 32.
Definition scoreboard_new : option TcpScoreboard := h ← hole_tree_new; Some (scoreboard_ h 0 0 0 TCP_DUPACK_THRESHOLD).
(** The capacity kept by the source has no effect on the content. *)
Definition scoreboard_clear (b : TcpScoreboard) : option TcpScoreboard := scoreboard_new.
Definition set_holes (h : @RbTree.t Z TcpScoreboardHole) (b : TcpScoreboard) : TcpScoreboard :=
  scoreboard_ h (high_sacked b) (high_rxt b) (lost_bytes b) (reorder b).
Definition set_high (sacked rxt : Z) (b : TcpScoreboard) : TcpScoreboard :=
  scoreboard_ (holes b) sacked rxt (lost_bytes b) (reorder b).
Definition set_lost_bytes (n : Z) (b : TcpScoreboard) : TcpScoreboard :=
  scoreboard_ (holes b) (high_sacked b) (high_rxt b) n (reorder b).

(** The outstanding samples. *)
Record sample_list : Type := mk_list {
  sent_samples : Pool.t TcpSentSample;
  sample_lookup : @RbTree.t Z Z;
  sample_head : option Z;
  sample_tail : option Z;
  bytes_in_flight : Z
}.
(** Delivery accounting. *)
Record rate_state : Type := mk_rate {
  delivered : Z;
  delivered_time : option Instant;
  first_tx_time : option Instant;
  lost_total : Z
}.
Record rack_state : Type := mk_rack {
  rack_deadline : option Instant;
  rack_reference_sent_at : option Instant;
  rack_reference_end : Z;
  rack_rtt : option Duration;
  rack_reordered : bool
}.
Record tlp_state : Type := mk_tlp {
  tlp_timer_armed : bool;
  tlp_probe_end : option Z;
  tlp_probe_retransmitted : bool;
  tlp_rtt_fresh : bool
}.
(** Proportional rate reduction. *)
Record prr_state : Type := mk_prr {
  recovery_active : bool;
  no_sack_first_pending : bool;
  recovery_window : Z;
  recovery_prev_window : Z;
  recovery_delivered : Z;
  recovery_prev_delivered : Z;
  recovery_retransmitted : Z;
  recovery_new_data : Z;
  recovery_end_sequence : Z
}.

Record TcpRecoveryState : Type := recovery_state {
  packets : Z;
  samples : sample_list;
  rate : rate_state;
  ack_floor : Z;
  scoreboard : TcpScoreboard;
  rack : rack_state;
  rack_enabled : bool;
  snd_nxt : Z;
  tlp : tlp_state;
  prr : prr_state
}.

Definition set_samples (x : sample_list) (s : TcpRecoveryState) : TcpRecoveryState :=
  recovery_state (packets s) x (rate s) (ack_floor s) (scoreboard s) (rack s) (rack_enabled s) (snd_nxt s) (tlp s) (prr s).
Definition set_rate (x : rate_state) (s : TcpRecoveryState) : TcpRecoveryState :=
  recovery_state (packets s) (samples s) x (ack_floor s) (scoreboard s) (rack s) (rack_enabled s) (snd_nxt s) (tlp s) (prr s).
Definition set_floor (x : Z) (s : TcpRecoveryState) : TcpRecoveryState :=
  recovery_state (packets s) (samples s) (rate s) x (scoreboard s) (rack s) (rack_enabled s) (snd_nxt s) (tlp s) (prr s).
Definition set_board (x : TcpScoreboard) (s : TcpRecoveryState) : TcpRecoveryState :=
  recovery_state (packets s) (samples s) (rate s) (ack_floor s) x (rack s) (rack_enabled s) (snd_nxt s) (tlp s) (prr s).
Definition set_rack (x : rack_state) (s : TcpRecoveryState) : TcpRecoveryState :=
  recovery_state (packets s) (samples s) (rate s) (ack_floor s) (scoreboard s) x (rack_enabled s) (snd_nxt s) (tlp s) (prr s).
Definition set_snd_nxt (x : Z) (s : TcpRecoveryState) : TcpRecoveryState :=
  recovery_state (packets s) (samples s) (rate s) (ack_floor s) (scoreboard s) (rack s) (rack_enabled s) x (tlp s) (prr s).
Definition set_tlp (x : tlp_state) (s : TcpRecoveryState) : TcpRecoveryState :=
  recovery_state (packets s) (samples s) (rate s) (ack_floor s) (scoreboard s) (rack s) (rack_enabled s) (snd_nxt s) x (prr s).
Definition set_prr (x : prr_state) (s : TcpRecoveryState) : TcpRecoveryState :=
  recovery_state (packets s) (samples s) (rate s) (ack_floor s) (scoreboard s) (rack s) (rack_enabled s) (snd_nxt s) (tlp s) x.
Definition set_rack_enabled (x : bool) (s : TcpRecoveryState) : TcpRecoveryState :=
  recovery_state (packets s) (samples s) (rate s) (ack_floor s) (scoreboard s) (rack s) x (snd_nxt s) (tlp s) (prr s).

Definition set_deadline (d : option Instant) (s : TcpRecoveryState) : TcpRecoveryState :=
  let r := rack s in
  set_rack (mk_rack d (rack_reference_sent_at r) (rack_reference_end r) (rack_rtt r) (rack_reordered r)) s.
Definition set_pool (p : Pool.t TcpSentSample) (s : TcpRecoveryState) : TcpRecoveryState :=
  let l := samples s in
  set_samples (mk_list p (sample_lookup l) (sample_head l) (sample_tail l) (bytes_in_flight l)) s.
Definition set_lookup (t : @RbTree.t Z Z) (s : TcpRecoveryState) : TcpRecoveryState :=
  let l := samples s in
  set_samples (mk_list (sent_samples l) t (sample_head l) (sample_tail l) (bytes_in_flight l)) s.
Definition set_head (h : option Z) (s : TcpRecoveryState) : TcpRecoveryState :=
  let l := samples s in
  set_samples (mk_list (sent_samples l) (sample_lookup l) h (sample_tail l) (bytes_in_flight l)) s.
Definition set_tail (h : option Z) (s : TcpRecoveryState) : TcpRecoveryState :=
  let l := samples s in
  set_samples (mk_list (sent_samples l) (sample_lookup l) (sample_head l) h (bytes_in_flight l)) s.
Definition set_in_flight (n : Z) (s : TcpRecoveryState) : TcpRecoveryState :=
  let l := samples s in
  set_samples (mk_list (sent_samples l) (sample_lookup l) (sample_head l) (sample_tail l) n) s.
Definition in_flight (s : TcpRecoveryState) : Z := bytes_in_flight (samples s).
Definition pool (s : TcpRecoveryState) : Pool.t TcpSentSample := sent_samples (samples s).
Definition lookup_tree (s : TcpRecoveryState) : @RbTree.t Z Z := sample_lookup (samples s).

Definition prr_idle : prr_state := mk_prr false false 0 0 0 0 0 0 0.

Definition new : option TcpRecoveryState :=
  t ← RbTree.with_capacity 0 0 32;
  b ← scoreboard_new;
  Some (recovery_state 1 (mk_list (Pool.with_capacity 32) t None None 0) (mk_rate 0 None None 0) 0 b
    (mk_rack None None 0 None false) false 0 (mk_tlp false None false false) prr_idle).

Definition next_packet_number (s : TcpRecoveryState) : TcpRecoveryState * Z :=
  (recovery_state (sat64 (packets s) 1) (samples s) (rate s) (ack_floor s) (scoreboard s) (rack s) (rack_enabled s) (snd_nxt s) (tlp s) (prr s), packets s).

(** ** Loops over the samples *)

Section walk.
Context {A : Type} (pool_of : A -> Pool.t TcpSentSample) (missing : A -> option A) (body : Z -> TcpSentSample -> A -> option (A * bool)).

(** [while let Some(index) = cursor], with [cursor = sample.next] taken from
    the sample as it was read; [body] answers whether to go on, [missing] is
    what happens when the index is not in the pool. *)
Fixpoint walk (n : nat) (cursor : option Z) (a : A) : option A :=
  match cursor with
  | None => Some a
  | Some index =>
    match n with
    | O => None
    | S n =>
      sample ← Pool.get (pool_of a) index;
      match sample with
      | None => missing a
      | Some sample =>
        '(a, go) ← body index sample a;
        if (go : bool) then walk n (next sample) a else Some a
      end
    end
  end.

End walk.

Definition fuel (s : TcpRecoveryState) : nat := S (length (Pool.vector (pool s))).

(** A loop that changes the state, leaving at a missing sample. *)
Definition walk_state (body : Z -> TcpSentSample -> TcpRecoveryState -> option (TcpRecoveryState * bool)) (cursor : option Z) (s : TcpRecoveryState) : option TcpRecoveryState :=
  walk pool Some body (fuel s) cursor s.
(** A loop that only reads the samples and computes a value. *)
Definition walk_read {X : Type} (s : TcpRecoveryState) (body : TcpSentSample -> X -> X * bool) (x : X) : option X :=
  walk (fun _ => pool s) Some (fun _ sample x => Some (body sample x)) (fuel s) (sample_head (samples s)) x.

Definition sent_sample (s : TcpRecoveryState) (index : Z) : option (option TcpSentSample) := Pool.get (pool s) index.
(** [if let Some(sample) = self.sent_sample_mut(index) { f(sample) }] and
    whether there was one. *)
Definition sent_sample_mut (s : TcpRecoveryState) (index : Z) (f : TcpSentSample -> TcpSentSample) : option (TcpRecoveryState * bool) :=
  '(p, found) ← Pool.get_mut (pool s) index f; Some (set_pool p s, found).

Definition sample_is_lost (sample : TcpSentSample) : bool := tx_lost sample.

(** ** The RACK deadline *)

Definition rack_note_deadline (s : TcpRecoveryState) (deadline : Instant) : TcpRecoveryState :=
  set_deadline (Some match rack_deadline (rack s) with None => deadline | Some current => Z.min current deadline end) s.

Definition rack_rescan_earliest (s : TcpRecoveryState) : option TcpRecoveryState :=
  earliest ← walk_read s (fun sample earliest =>
    (match sample_deadline sample with
     | Some deadline =>
       if negb (sample_is_lost sample) && match earliest with None => true | Some current => deadline <? current end
       then Some deadline else earliest
     | None => earliest
     end, true)) None;
  Some (set_deadline earliest s).

Definition rack_invalidate_cleared (s : TcpRecoveryState) (cleared : option Instant) : option TcpRecoveryState :=
  match cleared with
  | None => Some s
  | Some cleared => if bool_decide (rack_deadline (rack s) = Some cleared) then rack_rescan_earliest s else Some s
  end.

Definition has_pending_rack_deadline (s : TcpRecoveryState) : bool := bool_decide (is_Some (rack_deadline (rack s))).

Definition refresh_lost_bytes (s : TcpRecoveryState) : option TcpRecoveryState :=
  n ← walk_read s (fun sample n => (if lost sample then sat32 n (bytes sample) else n, true)) 0;
  Some (set_board (set_lost_bytes n (scoreboard s)) s).

(** ** Sending *)

Definition record_sent (s : TcpRecoveryState) (number sq end_ n payload flight : Z) (at_ : Instant) (limited : bool) : option TcpRecoveryState :=
  if n =? 0 then Some s else
  let r := rate s in
  let r := if flight =? 0 then mk_rate (delivered r) (Some at_) (Some at_) (lost_total r) else r in
  let s := set_rate r s in
  let first := match first_tx_time r with Some x => x | None => at_ end in
  let prev := sample_tail (samples s) in
  '(p, sample_index) ← Pool.insert (pool s)
    (sent_sample_ number sq end_ n payload false false false (delivered r) (delivered_time r) first limited
       (sat64 flight n) (lost_total r) None at_ prev None);
  let s := set_pool p s in
  '(t, _) ← RbTree.insert seq_cmp (lookup_tree s) sq sample_index;
  let s := set_lookup t s in
  s ← match prev with
      | Some prev_index => '(s, _) ← sent_sample_mut s prev_index (with_next (Some sample_index)); Some s
      | None => Some (set_head (Some sample_index) s)
      end;
  let s := set_tail (Some sample_index) s in
  let s := set_in_flight (sat32 (in_flight s) n) s in
  let s := set_snd_nxt end_ s in
  let t := tlp s in
  Some (set_tlp (mk_tlp (tlp_rtt_fresh t && negb (bool_decide (is_Some (tlp_probe_end t)))) (tlp_probe_end t) (tlp_probe_retransmitted t) (tlp_rtt_fresh t)) s).

Definition has_unacked_data (s : TcpRecoveryState) : bool := negb (in_flight s =? 0).
Definition in_recovery (s : TcpRecoveryState) : bool := recovery_active (prr s).

Fixpoint missing_loop (n : nat) (h : @RbTree.t Z TcpScoreboardHole) (cursor : option Z) (missing : Z) : option Z :=
  match cursor with
  | None => Some missing
  | Some start =>
    match n with
    | O => None
    | S n =>
      hole ← RbTree.get seq_cmp h start;
      hole ← hole;
      e ← RbTree.successor seq_cmp h start;
      missing_loop n h (option_map fst e) (sat32 missing (distance_to start (hole_end hole)))
    end
  end.
Definition sacked_bytes (s : TcpRecoveryState) : option Z :=
  let h := holes (scoreboard s) in
  e ← RbTree.first h;
  missing ← missing_loop (RbTree.fuel h) h (option_map fst e) 0;
  Some (saturating_sub (distance_to (ack_floor s) (high_sacked (scoreboard s))) missing).

Definition reorder_threshold (s : TcpRecoveryState) : Z := reorder (scoreboard s).

Definition rack_timeout (s : TcpRecoveryState) (t : Instant) : option Duration :=
  option_map (fun deadline => saturating_duration_since deadline t) (rack_deadline (rack s)).

Definition tlp_timeout (s : TcpRecoveryState) (srtt : option Duration) (rto : Duration) (mds : Z) : option Duration :=
  if negb (tlp_timer_armed (tlp s)) || negb (tlp_rtt_fresh (tlp s)) || bool_decide (is_Some (tlp_probe_end (tlp s))) ||
     negb (has_unacked_data s) || has_pending_rack_deadline s || recovery_active (prr s)
  then None else
  let timeout := match srtt with Some v => if 2 * v <=? DURATION_MAX then 2 * v else rto | None => rto end in
  let timeout := if in_flight s <=? mds then Z.min DURATION_MAX (timeout + TCP_TLP_MAX_ACK_DELAY) else timeout in
  Some (Z.min (Z.max timeout TCP_MIN_TLP_TIMEOUT) rto).

Definition tlp_probe_pending (s : TcpRecoveryState) : bool := bool_decide (is_Some (tlp_probe_end (tlp s))).

(** ** Finding samples *)

Definition sample_at_or_after (s : TcpRecoveryState) (sq : Z) (include_covering : bool) : option (option Z) :=
  found ← RbTree.get seq_cmp (lookup_tree s) sq;
  match found with
  | Some index => Some (Some index)
  | None =>
    succ ← RbTree.successor seq_cmp (lookup_tree s) sq;
    let succ := option_map snd succ in
    if negb include_covering then Some succ else
    pred ← RbTree.predecessor seq_cmp (lookup_tree s) sq;
    match pred with
    | None => Some succ
    | Some (_, index) =>
      sample ← sent_sample s index;
      match sample with
      | Some sample => Some (if covers sample sq then Some index else succ)
      | None => Some succ
      end
    end
  end.
Definition next_sample (s : TcpRecoveryState) (sq : Z) : option (option Z) :=
  e ← RbTree.successor seq_cmp (lookup_tree s) sq; Some (option_map snd e).

Definition retransmit_candidate (s : TcpRecoveryState) : option (option TcpSentSample) :=
  walk_read s (fun sample r => if tx_lost sample then (Some sample, false) else (r, true)) None.
Definition sample_covering (s : TcpRecoveryState) (sq : Z) : option (option TcpSentSample) :=
  walk_read s (fun sample r => if covers sample sq then (Some sample, false) else (r, true)) None.
Definition oldest_unacked (s : TcpRecoveryState) : option (option TcpSentSample) :=
  match sample_head (samples s) with None => Some None | Some index => sent_sample s index end.
Definition tail_loss_probe_candidate (s : TcpRecoveryState) : option (option TcpSentSample) :=
  match sample_tail (samples s) with None => Some None | Some index => sent_sample s index end.

(** The result is known to be false until a sample says otherwise. *)
Definition retransmitted_range_covered (s : TcpRecoveryState) (left right : Z) : option bool :=
  r ← walk_read s (fun sample x =>
    let '(cursor, _) := x in
    if seq_le (end_sequence sample) cursor then (x, true) else
    if seq_gt (sequence sample) cursor then ((cursor, false), false) else
    if negb (retransmitted sample) then ((cursor, false), false) else
    let cursor := seq_max cursor (end_sequence sample) in
    if seq_ge cursor right then ((cursor, true), false) else ((cursor, false), true)) (left, false);
  Some r.2.

(** ** Taking samples out and splitting them *)

(** [?] on a mutable sample that is not there leaves the function. *)
Definition or_leave {X : Type} (m : option (TcpRecoveryState * bool)) (k : TcpRecoveryState -> option (TcpRecoveryState * option X)) : option (TcpRecoveryState * option X) :=
  '(s, found) ← m; if (found : bool) then k s else Some (s, None).

Definition occupied (s : TcpRecoveryState) (link : option Z) : option bool :=
  match link with None => Some true | Some index => x ← Pool.get (pool s) index; Some (bool_decide (is_Some x)) end.

Definition take_sent (s : TcpRecoveryState) (index : Z) : option (TcpRecoveryState * option TcpSentSample) :=
  sample ← sent_sample s index;
  match sample with
  | None => Some (s, None)
  | Some sample =>
    found ← RbTree.get seq_cmp (lookup_tree s) (sequence sample);
    if negb (bool_decide (found = Some index)) then Some (s, None) else
    ok ← occupied s (prev sample);
    ok' ← occupied s (next sample);
    if negb ok || negb ok' then Some (s, None) else
    '(t, removed) ← RbTree.remove seq_cmp (lookup_tree s) (sequence sample);
    let s := set_lookup t s in
    if negb (bool_decide (is_Some removed)) then Some (s, None) else
    or_leave (match prev sample with
              | Some p => sent_sample_mut s p (with_next (next sample))
              | None => Some (set_head (next sample) s, true)
              end) (fun s =>
    or_leave (match next sample with
              | Some n => sent_sample_mut s n (with_prev (prev sample))
              | None => Some (set_tail (prev sample) s, true)
              end) (fun s =>
    '(p, removed) ← Pool.remove (pool s) index;
    let s := set_pool p s in
    match removed with
    | None => Some (s, None)
    | Some taken =>
      let s := set_in_flight (saturating_sub (in_flight s) (bytes taken)) s in
      s ← rack_invalidate_cleared s (sample_deadline sample);
      Some (s, Some taken)
    end))
  end.

Definition insert_sample_before (s : TcpRecoveryState) (next_index : Z) (sample : TcpSentSample) : option (TcpRecoveryState * option Z) :=
  next ← sent_sample s next_index;
  match next with
  | None => Some (s, None)
  | Some next =>
    present ← RbTree.contains_key seq_cmp (lookup_tree s) (sequence sample);
    if (present : bool) then Some (s, None) else
    ok ← occupied s (prev next);
    if negb ok then Some (s, None) else
    let sample := with_links (prev next) (Some next_index) sample in
    '(p, sample_index) ← Pool.insert (pool s) sample;
    let s := set_pool p s in
    '(t, old) ← RbTree.insert seq_cmp (lookup_tree s) (sequence sample) sample_index;
    let s := set_lookup t s in
    if bool_decide (is_Some old) then
      '(p, _) ← Pool.remove (pool s) sample_index; Some (set_pool p s, None)
    else
    or_leave (match prev next with
              | Some prev_index => sent_sample_mut s prev_index (with_next (Some sample_index))
              | None => Some (set_head (Some sample_index) s, true)
              end) (fun s =>
    or_leave (sent_sample_mut s next_index (with_prev (Some sample_index))) (fun s =>
    Some (s, Some sample_index)))
  end.

(** What [split_sample] and [take_sample_prefix] share: the sample at [index]
    becomes its suffix from [at_] on; answers the sample and the prefix. *)
Definition keep_suffix (s : TcpRecoveryState) (index at_ : Z) : option (TcpRecoveryState * option (TcpSentSample * TcpSentSample)) :=
  sample ← sent_sample s index;
  match sample with
  | None => Some (s, None)
  | Some sample =>
    match split sample at_ with
    | None => Some (s, None)
    | Some (prefix, suffix) =>
      found ← RbTree.get seq_cmp (lookup_tree s) (sequence sample);
      if negb (bool_decide (found = Some index)) then Some (s, None) else
      '(t, removed) ← RbTree.remove seq_cmp (lookup_tree s) (sequence sample);
      let s := set_lookup t s in
      if negb (bool_decide (is_Some removed)) then Some (s, None) else
      or_leave (sent_sample_mut s index (fun current =>
        with_deadline (sample_deadline sample) (with_span (sequence suffix) (end_sequence current) (bytes suffix) (payload_len suffix) current))) (fun s =>
      '(t, _) ← RbTree.insert seq_cmp (lookup_tree s) (sequence suffix) index;
      Some (set_lookup t s, Some (sample, prefix)))
    end
  end.

Definition split_sample (s : TcpRecoveryState) (index split_start : Z) : option (TcpRecoveryState * option unit) :=
  '(s, r) ← keep_suffix s index split_start;
  match r with
  | None => Some (s, None)
  | Some (sample, prefix) =>
    '(s, r) ← insert_sample_before s index prefix;
    match r with
    | None => Some (s, None)
    | Some prefix_index =>
      match sample_deadline sample with
      | Some deadline =>
        if sample_is_lost sample then Some (s, Some tt) else
        or_leave (sent_sample_mut s prefix_index (with_deadline (Some deadline))) (fun s => Some (rack_note_deadline s deadline, Some tt))
      | None => Some (s, Some tt)
      end
    end
  end.

Definition take_sample_prefix (s : TcpRecoveryState) (index split_end : Z) : option (TcpRecoveryState * option TcpSentSample) :=
  '(s, r) ← keep_suffix s index split_end;
  match r with
  | None => Some (s, None)
  | Some (sample, prefix) =>
    let s := set_in_flight (saturating_sub (in_flight s) (bytes prefix)) s in
    s ← rack_invalidate_cleared s (sample_deadline sample);
    Some (s, Some prefix)
  end.

(** ** The scoreboard *)

Definition mark_samples_in_range_lost (s : TcpRecoveryState) (range_start range_end : Z) : option TcpRecoveryState :=
  if seq_le range_end range_start then Some s else
  cursor ← sample_at_or_after s range_start true;
  walk_state (fun index sample s =>
    if seq_ge (sequence sample) range_end then Some (s, false) else
    if seq_gt (end_sequence sample) range_start && seq_lt (sequence sample) range_end then
      sent_sample_mut s index (fun current => with_lost (sample_deadline current) current)
    else Some (s, true)) cursor s.

(** The pass over the holes from the highest down. *)
Fixpoint loss_loop (n : nat) (limit threshold : Z) (s : TcpRecoveryState) (cursor : option Z) (sacked_ahead blocks_ahead : Z) (higher_start : option Z) : option TcpRecoveryState :=
  match cursor with
  | None => Some s
  | Some start =>
    match n with
    | O => None
    | S n =>
      let h := holes (scoreboard s) in
      e ← RbTree.predecessor seq_cmp h start;
      let cursor := option_map fst e in
      hole ← RbTree.get seq_cmp h start;
      match hole with
      | None => loss_loop n limit threshold s cursor sacked_ahead blocks_ahead higher_start
      | Some hole =>
        let should_mark_lost := (limit <=? blocks_ahead) || (threshold <? sacked_ahead) in
        '(h, _) ← RbTree.get_mut seq_cmp h start (fun x => hole_ (hole_end x) should_mark_lost);
        let s := set_board (set_holes h (scoreboard s)) s in
        s ← (if should_mark_lost then mark_samples_in_range_lost s start (hole_end hole) else Some s);
        match higher_start with
        | Some high_start =>
          loss_loop n limit threshold s cursor (sat32 sacked_ahead (distance_to (hole_end hole) high_start)) (sat32 blocks_ahead 1) (Some start)
        | None => loss_loop n limit threshold s cursor sacked_ahead blocks_ahead (Some start)
        end
      end
    end
  end.
Definition saturating_mul32 (a b : Z) : Z := Z.min u32_max (a * b).
Definition update_scoreboard_loss (s : TcpRecoveryState) (mds : Z) : option TcpRecoveryState :=
  let b := scoreboard s in
  let reorder_limit := Z.max (reorder b) TCP_DUPACK_THRESHOLD in
  let mss := Z.max mds 1 in
  let byte_threshold := saturating_mul32 (saturating_sub reorder_limit 1) mss in
  last ← RbTree.last (holes b);
  let trailing_sacked := match last with Some (_, hole) => distance_to (hole_end hole) (high_sacked b) | None => 0 end in
  s ← loss_loop (RbTree.fuel (holes b)) reorder_limit byte_threshold s (option_map fst last) trailing_sacked (if trailing_sacked =? 0 then 0 else 1) None;
  refresh_lost_bytes s.

(** The end both ways of updating the holes have in common. *)
Definition refresh_loss (s : TcpRecoveryState) (mds : Z) : option TcpRecoveryState :=
  s ← (if rack_enabled s then refresh_lost_bytes s else update_scoreboard_loss s (Z.max mds 1));
  rack_rescan_earliest s.

Definition insert_hole (h : @RbTree.t Z TcpScoreboardHole) (start end_ : Z) : option (@RbTree.t Z TcpScoreboardHole) :=
  '(h, _) ← RbTree.insert seq_cmp h start (hole_ end_ false); Some h.

(** A sample of the loop of [rebuild_scoreboard]; [x] is the tree of holes and
    the pending one. *)
Definition rebuild_body (ack high : Z) (sample : TcpSentSample) (x : @RbTree.t Z TcpScoreboardHole * option (Z * Z)) :
    option (@RbTree.t Z TcpScoreboardHole * option (Z * Z) * bool) :=
  let '(h, pending_hole) := x in
  if seq_le (end_sequence sample) ack then Some (x, true) else
  if seq_ge (sequence sample) high then Some (x, false) else
  let start := seq_max (sequence sample) ack in
  let end_ := seq_min (end_sequence sample) high in
  if seq_ge start end_ then Some (x, true) else
  match pending_hole with
  | Some (hole_start, hole_end) =>
    if seq_le start hole_end then Some (h, Some (hole_start, seq_max hole_end end_), true) else
    h ← insert_hole h hole_start hole_end;
    Some (h, Some (start, end_), true)
  | None => Some (h, Some (start, end_), true)
  end.

Definition rebuild_scoreboard (s : TcpRecoveryState) (ack sacked mds : Z) : option TcpRecoveryState :=
  let rxt := high_rxt (scoreboard s) in
  b ← scoreboard_clear (scoreboard s);
  let high := seq_max sacked ack in
  let b := set_high high (if recovery_active (prr s) then seq_max rxt ack else ack) b in
  let s := set_board b s in
  if bool_decide (sample_head (samples s) = None) || seq_le high ack then
    s ← refresh_lost_bytes s; rack_rescan_earliest s
  else
  '(h, pending_hole) ← walk (fun _ => pool s) Some (fun _ sample x => rebuild_body ack high sample x) (fuel s) (sample_head (samples s)) (holes b, None);
  h ← match pending_hole with Some (hole_start, hole_end) => insert_hole h hole_start hole_end | None => Some h end;
  refresh_loss (set_board (set_holes h b) s) mds.

Fixpoint drop_holes (n : nat) (h : @RbTree.t Z TcpScoreboardHole) : option (@RbTree.t Z TcpScoreboardHole) :=
  match n with
  | O => None
  | S n =>
    e ← RbTree.first h;
    match e with
    | None => Some h
    | Some (start, _) => '(h, _) ← RbTree.remove seq_cmp h start; drop_holes n h
    end
  end.
Fixpoint trim_holes (n : nat) (ack : Z) (h : @RbTree.t Z TcpScoreboardHole) : option (@RbTree.t Z TcpScoreboardHole) :=
  match n with
  | O => None
  | S n =>
    e ← RbTree.first h;
    match e with
    | None => Some h
    | Some (start, hole) =>
      if seq_le (hole_end hole) ack then '(h, _) ← RbTree.remove seq_cmp h start; trim_holes n ack h else
      if seq_lt start ack then
        '(h, _) ← RbTree.remove seq_cmp h start;
        '(h, _) ← RbTree.insert seq_cmp h ack (hole_ (hole_end hole) (hole_lost hole));
        Some h
      else Some h
    end
  end.
Definition hole_fuel (h : @RbTree.t Z TcpScoreboardHole) : nat := S (Z.to_nat (RbTree.len h)).

Definition advance_scoreboard_for_ack (s : TcpRecoveryState) (ack mds : Z) : option TcpRecoveryState :=
  let b := scoreboard s in
  let high := seq_max (high_sacked b) ack in
  let b := set_high high (seq_max (high_rxt b) ack) b in
  if bool_decide (sample_head (samples s) = None) || seq_le high ack then
    h ← drop_holes (hole_fuel (holes b)) (holes b);
    s ← refresh_lost_bytes (set_board (set_holes h b) s);
    rack_rescan_earliest s
  else
  h ← trim_holes (hole_fuel (holes b)) ack (holes b);
  refresh_loss (set_board (set_holes h b) s) mds.

(** The first hole, not below the acknowledged part: where [high_rxt] starts. *)
Definition first_gap (s : TcpRecoveryState) : option Z :=
  e ← RbTree.first (holes (scoreboard s));
  Some match e with Some (start, _) => seq_max start (ack_floor s) | None => ack_floor s end.

Definition set_high_rxt (x : Z) (s : TcpRecoveryState) : TcpRecoveryState :=
  set_board (set_high (high_sacked (scoreboard s)) x (scoreboard s)) s.
(** [high_rxt] after bytes up to [end_] were sent again. *)
Definition advance_high_rxt (s : TcpRecoveryState) (end_ : Z) : TcpRecoveryState :=
  set_high_rxt (if rack_enabled s then end_ else seq_max (high_rxt (scoreboard s)) end_) s.

(** ** Retransmissions and probes *)

Definition on_retransmit_sent (s : TcpRecoveryState) (n : Z) : TcpRecoveryState :=
  let p := prr s in
  if negb (recovery_active p) || (n =? 0) then s else
  set_prr (mk_prr (recovery_active p) (no_sack_first_pending p) (recovery_window p) (recovery_prev_window p) (recovery_delivered p)
    (recovery_prev_delivered p) (sat32 (recovery_retransmitted p) n) (recovery_new_data p) (recovery_end_sequence p)) s.
Definition on_new_data_sent (s : TcpRecoveryState) (n : Z) : TcpRecoveryState :=
  let p := prr s in
  if negb (recovery_active p) || (n =? 0) then s else
  set_prr (mk_prr (recovery_active p) (no_sack_first_pending p) (recovery_window p) (recovery_prev_window p) (recovery_delivered p)
    (recovery_prev_delivered p) (recovery_retransmitted p) (sat32 (recovery_new_data p) n) (recovery_end_sequence p)) s.
Definition on_recovery_burst_sent (s : TcpRecoveryState) : TcpRecoveryState :=
  let p := prr s in
  set_prr (mk_prr (recovery_active p) false (recovery_window p) (recovery_prev_window p) (recovery_delivered p)
    (recovery_delivered p) (recovery_retransmitted p) (recovery_new_data p) (recovery_end_sequence p)) s.

Definition recovery_send_space (s : TcpRecoveryState) (flight mds : Z) : option Z :=
  let p := prr s in
  if negb (recovery_active p) then None else
  let mds := Z.max mds 1 in
  let prr_out := sat32 (recovery_retransmitted p) (recovery_new_data p) in
  let space :=
    if recovery_window p <? flight then
      let allowed := recovery_delivered p * recovery_window p / Z.max (recovery_prev_window p) 1 in
      saturating_sub (Z.min allowed u32_max) prr_out
    else
      let conserved := saturating_sub (recovery_delivered p) prr_out in
      let delivered_since_send := saturating_sub (recovery_delivered p) (recovery_prev_delivered p) in
      let limit := sat32 (Z.max conserved delivered_since_send) mds in
      Z.min (saturating_sub (recovery_window p) flight) limit in
  Some (if prr_out =? 0 then Z.max space mds else space).

(** A round of [commit_retransmit]; the flag says that the sample was found. *)
Definition commit_body (sq : Z) (at_ : Instant) (index : Z) (sample : TcpSentSample) (x : TcpRecoveryState * bool) : option (TcpRecoveryState * bool * bool) :=
  let s := x.1 in
  if negb (sequence sample =? sq) then Some (x, true) else
  '(s, ok) ← sent_sample_mut s index (fun current => with_flags true (lost current) false None at_ current);
  if negb (ok : bool) then None else
  s ← rack_invalidate_cleared s (sample_deadline sample);
  s ← refresh_lost_bytes (advance_high_rxt s (end_sequence sample));
  Some (s, true, false).
(** A missing sample is a panic here, and so is a sequence no sample starts at. *)
Definition commit_retransmit (s : TcpRecoveryState) (sq : Z) (at_ : Instant) : option TcpRecoveryState :=
  '(s, found) ← walk (fun x => pool x.1) (fun _ => None) (commit_body sq at_) (fuel s) (sample_head (samples s)) (s, false);
  if (found : bool) then Some s else None.

Definition record_tlp_probe (s : TcpRecoveryState) (end_ : Z) (again : option (Z * Z)) : option TcpRecoveryState :=
  s ← match again with
      | Some (start, retransmit_end) =>
        s ← walk pool (fun _ => None) (fun index sample s =>
          if overlaps sample start retransmit_end then
            '(s, ok) ← sent_sample_mut s index (fun current => with_flags true (lost current) (tx_lost current) None (sent_at current) current);
            if (ok : bool) then Some (s, true) else None
          else Some (s, true)) (fuel s) (sample_head (samples s)) s;
        rack_rescan_earliest s
      | None => Some s
      end;
  Some (set_tlp (mk_tlp false (Some end_) (bool_decide (is_Some again)) false) s).

Definition disarm_tlp (s : TcpRecoveryState) : TcpRecoveryState :=
  let t := tlp s in set_tlp (mk_tlp false (tlp_probe_end t) (tlp_probe_retransmitted t) (tlp_rtt_fresh t)) s.

Definition queue_recovery_head (s : TcpRecoveryState) : option TcpRecoveryState :=
  match sample_head (samples s) with
  | None => Some s
  | Some head =>
    sample ← sent_sample s head;
    match sample with
    | None => Some s
    | Some sample =>
      if bool_decide (is_Some (sample_deadline sample)) || sample_is_lost sample then Some s else
      '(s, found) ← sent_sample_mut s head (with_lost None);
      if negb (found : bool) then Some s else
      s ← refresh_lost_bytes s;
      rack_rescan_earliest s
    end
  end.

(** ** The congestion controller *)

Record AckedPacket : Type := acked_packet {
  ap_packet_number : Z;
  ap_bytes : Z;
  ap_sent_at : Instant;
  ap_delivered : Z;
  ap_prior_delivered : Z;
  ap_interval : Duration;
  ap_tx_in_flight : Z;
  ap_tx_lost : Z;
  ap_lost : Z;
  ap_retransmitted : bool;
  ap_app_limited : bool;
  ap_ecn_ce_count : Z
}.
Record LostPacket : Type := lost_packet {
  lp_packet_number : Z;
  lp_bytes : Z;
  lp_bytes_in_flight : Z;
  lp_tx_in_flight : Z;
  lp_tx_lost : Z;
  lp_lost : Z;
  lp_sent_at : Instant
}.
Record RttSample : Type := rtt_sample { latest : Duration; min_rtt : Duration }.

Class CongestionController (C : Type) : Type := {
  max_datagram_size : C -> Z;
  congestion_window : C -> Z;
  cc_delivered : C -> Z;
  cc_on_packet_sent : Z -> Z -> Z -> Instant -> C -> C;
  cc_on_ack : Instant -> AckedPacket -> RttSample -> Z -> C -> C;
  cc_on_end_acks : Instant -> Z -> bool -> Z -> C -> C;
  cc_on_loss : Instant -> LostPacket -> bool -> C -> C;
  cc_on_recovery : C -> C;
  cc_on_recovered : C -> C;
  cc_on_undo_recovery : C -> C;
  cc_on_tail_loss_probe_ack : Instant -> Z -> Z -> C -> C
}.

Section control.
Context {C : Type} `{!CongestionController C}.
Implicit Types (s : TcpRecoveryState) (c : C) (ack : TcpRecoveryAck).

Definition maybe_finish_recovery s (acknowledgment : Z) c : TcpRecoveryState * C :=
  if negb (recovery_active (prr s)) then (s, c) else
  if seq_ge acknowledgment (recovery_end_sequence (prr s)) then (set_prr prr_idle s, cc_on_recovered c) else (s, c).

(** The packet a loss is reported with. *)
Definition lost_packet_of s (sample : TcpSentSample) : LostPacket :=
  lost_packet (packet_number sample) (bytes sample) (in_flight s) (tx_in_flight sample) (tx_lost_bytes sample)
    (sat64 (lost_total (rate s)) (bytes sample)) (sent_at sample).
Definition count_lost s (n : Z) : TcpRecoveryState :=
  let r := rate s in set_rate (mk_rate (delivered r) (delivered_time r) (first_tx_time r) (sat64 (lost_total r) n)) s.

(** Entering recovery, common to the RACK and the retransmission timeout. *)
Definition enter_recovery s c (prev_window snd_nxt : Z) (no_sack_first : bool) : option TcpRecoveryState :=
  gap ← first_gap s;
  let s := set_high_rxt gap s in
  Some (set_prr (mk_prr true no_sack_first (congestion_window c) (Z.max prev_window 1) 0 0 0 0 snd_nxt) s).
Definition limit_window s c : TcpRecoveryState :=
  let p := prr s in
  set_prr (mk_prr (recovery_active p) (no_sack_first_pending p) (Z.min (recovery_window p) (congestion_window c)) (recovery_prev_window p) (recovery_delivered p)
    (recovery_prev_delivered p) (recovery_retransmitted p) (recovery_new_data p) (recovery_end_sequence p)) s.
Definition clear_probe s : TcpRecoveryState :=
  let t := tlp s in set_tlp (mk_tlp (tlp_timer_armed t) None false (tlp_rtt_fresh t)) s.
Definition disarm_probe s : TcpRecoveryState :=
  let t := tlp s in set_tlp (mk_tlp false None false (tlp_rtt_fresh t)) s.

Record rack_locals : Type := mk_rack_locals { rk_state : TcpRecoveryState; rk_cc : C; recovery_started : bool; lost_any : bool }.

Definition rack_body (t : Instant) (index : Z) (sample : TcpSentSample) (x : rack_locals) : option (rack_locals * bool) :=
  let s := rk_state x in
  if sample_is_lost sample || match sample_deadline sample with None => true | Some deadline => t <? deadline end then Some (x, true) else
  let c := cc_on_loss t (lost_packet_of s sample) false (rk_cc x) in
  let s := count_lost s (bytes sample) in
  '(s, found) ← sent_sample_mut s index (with_lost None);
  if negb (found : bool) then Some (mk_rack_locals s c (recovery_started x) (lost_any x), false) else
  Some (mk_rack_locals s c (recovery_started x || negb (recovery_active (prr s))) true, true).

(** The first loss starts recovery, further ones lower its window. *)
Definition rack_recovery (x : rack_locals) (prev_window snd_nxt : Z) : option (TcpRecoveryState * C) :=
  let s := rk_state x in
  if recovery_started x then
    let c := cc_on_recovery (rk_cc x) in s ← enter_recovery s c prev_window snd_nxt true; Some (s, c)
  else Some (if recovery_active (prr s) then limit_window s (rk_cc x) else s, rk_cc x).

Definition on_rack_timeout s (t : Instant) (snd_nxt : Z) c : option (TcpRecoveryState * C) :=
  x ← walk (fun x => pool (rk_state x)) Some (rack_body t) (fuel s) (sample_head (samples s)) (mk_rack_locals s c false false);
  '(s, c) ← rack_recovery x (congestion_window c) snd_nxt;
  s ← refresh_lost_bytes s;
  s ← rack_rescan_earliest s;
  Some (if lost_any x then disarm_probe s else s, c).

Definition rto_recovery s c (prev_window snd_nxt : Z) : option (TcpRecoveryState * C) :=
  if negb (recovery_active (prr s)) then
    let c := cc_on_recovery c in
    s ← enter_recovery s c prev_window snd_nxt (no_sack_first_pending (prr s)); Some (s, c)
  else
    let s := limit_window s c in
    let p := prr s in
    Some (if seq_gt snd_nxt (recovery_end_sequence p) then
            set_prr (mk_prr (recovery_active p) (no_sack_first_pending p) (recovery_window p) (recovery_prev_window p) (recovery_delivered p)
              (recovery_prev_delivered p) (recovery_retransmitted p) (recovery_new_data p) snd_nxt) s
          else s, c).

Definition on_retransmission_timeout s (t : Instant) (snd_nxt : Z) c : option (TcpRecoveryState * C * option TcpSentSample) :=
  match sample_head (samples s) with
  | None => Some (s, c, None)
  | Some head =>
    sample ← sent_sample s head;
    match sample with
    | None => Some (s, c, None)
    | Some sample =>
      let prev_window := congestion_window c in
      let c := cc_on_loss t (lost_packet_of s sample) true c in
      let s := if negb (tx_lost sample) then count_lost s (bytes sample) else s in
      '(s, found) ← sent_sample_mut s head (fun current => with_lost (sample_deadline current) current);
      if negb (found : bool) then None else
      s ← refresh_lost_bytes s;
      '(s, c) ← rto_recovery s c prev_window snd_nxt;
      let p := prr s in
      let s := set_prr (mk_prr (recovery_active p) true (recovery_window p) (recovery_prev_window p) (recovery_delivered p)
                 (recovery_prev_delivered p) (recovery_retransmitted p) (recovery_new_data p) (recovery_end_sequence p)) s in
      Some (disarm_probe s, c, Some sample)
    end
  end.

Definition mark_rack_candidates s (highest_sacked_right : Z) (t : Instant) (window : Duration) (mds : Z) : option TcpRecoveryState :=
  match rack_reference_sent_at (rack s), rack_rtt (rack s) with
  | Some reference_sent_at, Some rtt =>
    sacked ← sacked_bytes s;
    let window := if negb (rack_reordered (rack s)) &&
                     (recovery_active (prr s) || (saturating_mul32 (reorder (scoreboard s)) mds <=? sacked)) then 0 else window in
    walk_state (fun index sample s =>
      if seq_le (end_sequence sample) highest_sacked_right &&
         ((sent_at sample <? reference_sent_at) || ((sent_at sample =? reference_sent_at) && seq_lt (end_sequence sample) (rack_reference_end (rack s)))) &&
         negb (sample_is_lost sample) && negb (bool_decide (is_Some (sample_deadline sample)))
      then
        let deadline := sent_at sample + rtt + window in
        '(s, _) ← sent_sample_mut s index (with_deadline (Some deadline));
        Some (rack_note_deadline s (Z.max deadline t), true)
      else Some (s, true)) (sample_head (samples s)) s
  | _, _ => Some s
  end.

(** ** Acknowledgments *)

(** The later of two transmissions, by time and then by sequence number. *)
Definition sent_later (segment : TcpSentSample) (at_ : Instant) (end_ : Z) : bool :=
  (at_ <? sent_at segment) || ((sent_at segment =? at_) && seq_gt (end_sequence segment) end_).

Definition deliver_sample s ack (segment : TcpSentSample) (rate_sample : option TcpSentSample) : TcpRecoveryState * option TcpSentSample * option Duration :=
  let p := prr s in
  let s := if recovery_active p then
             set_prr (mk_prr (recovery_active p) (no_sack_first_pending p) (recovery_window p) (recovery_prev_window p) (sat32 (recovery_delivered p) (bytes segment))
               (recovery_prev_delivered p) (recovery_retransmitted p) (recovery_new_data p) (recovery_end_sequence p)) s
           else s in
  let r := rate s in
  let s := set_rate (mk_rate (sat64 (delivered r) (bytes segment)) (Some (now ack)) (first_tx_time r) (lost_total r)) s in
  let rate_sample := if match rate_sample with None => true | Some current => sent_later segment (sent_at current) (end_sequence current) end then Some segment else rate_sample in
  let rtt := saturating_duration_since (now ack) (sent_at segment) in
  let k := rack s in
  let s := if negb (retransmitted segment) && negb (rtt =? 0) then
             let newer := match rack_reference_sent_at k with None => true | Some at_ => sent_later segment at_ (rack_reference_end k) end in
             set_rack (mk_rack (rack_deadline k) (if newer then Some (sent_at segment) else rack_reference_sent_at k)
               (if newer then end_sequence segment else rack_reference_end k) (Some rtt)
               (rack_reordered k || seq_lt (end_sequence segment) (high_sacked (scoreboard s)))) s
           else s in
  (s, rate_sample, if negb (retransmitted segment) then Some rtt else None).

Definition deliver_ack_batch s ack (acked_bytes : Z) (latest_rtt : option Duration) (rate_sample : option TcpSentSample) c : C :=
  match rate_sample with
  | None => c
  | Some segment =>
    let prior_time := match delivered_time_at_send segment with Some x => x | None => first_tx_time_at_send segment end in
    let delivered_interval := saturating_duration_since (now ack) prior_time in
    let tx_interval := saturating_duration_since (sent_at segment) (first_tx_time_at_send segment) in
    let rtt := match latest_rtt with Some x => x | None => 0 end in
    cc_on_ack (now ack)
      (acked_packet (packet_number segment) acked_bytes (sent_at segment) (saturating_sub (delivered (rate s)) (delivered_at_send segment))
         (delivered_at_send segment) (Z.max delivered_interval tx_interval) (tx_in_flight segment) (tx_lost_bytes segment)
         (saturating_sub (lost_total (rate s)) (tx_lost_bytes segment)) (retransmitted segment) (app_limited segment) (ecn_ce_count ack))
      (rtt_sample rtt rtt) (in_flight s) c
  end.

Definition notify_duplicate_ack s ack c : C :=
  cc_on_ack (now ack)
    (acked_packet 0 0 (now ack) 0 (cc_delivered c) 0 (in_flight s) 0 (lost_total (rate s)) true (ack_app_limited ack) (ecn_ce_count ack))
    (rtt_sample 0 0) (in_flight s) c.

(** The local variables of the two acknowledgment functions. *)
Record ack_locals : Type := mk_ack_locals {
  al_state : TcpRecoveryState;
  latest_rtt : option Duration;
  largest_acked : Z;
  any_acked : bool;
  acked_bytes : Z;
  rate_sample : option TcpSentSample
}.
Definition with_state s (x : ack_locals) : ack_locals :=
  mk_ack_locals s (latest_rtt x) (largest_acked x) (any_acked x) (acked_bytes x) (rate_sample x).
Definition note_acked ack (segment : TcpSentSample) (x : ack_locals) : ack_locals :=
  let '(s, r, rtt) := deliver_sample (al_state x) ack segment (rate_sample x) in
  mk_ack_locals s (match rtt with Some _ => rtt | None => latest_rtt x end) (Z.max (largest_acked x) (packet_number segment)) true
    (sat32 (acked_bytes x) (bytes segment)) r.
Definition acked_none s : ack_locals := mk_ack_locals s None 0 false 0 None.

(** The cumulative part: whole samples below the acknowledgment are taken, one
    that it falls into is cut. *)
Definition ack_body ack (index : Z) (sample : TcpSentSample) (x : ack_locals) : option (ack_locals * bool) :=
  let s := al_state x in
  if seq_le (acknowledgment ack) (sequence sample) then Some (x, false) else
  let partial := seq_lt (acknowledgment ack) (end_sequence sample) in
  '(s, segment) ← (if partial then take_sample_prefix s index (acknowledgment ack) else take_sent s index);
  match segment with
  | None => Some (with_state s x, false)
  | Some segment => Some (note_acked ack segment (with_state s x), negb partial)
  end.
Definition cumulative_ack s ack : option ack_locals :=
  walk (fun x => pool (al_state x)) Some (ack_body ack) (fuel s) (sample_head (samples s)) (acked_none s).

(** The controller hears of a batch once. *)
Definition finish_acks ack (x : ack_locals) c : C :=
  let s := al_state x in
  let limited := match rate_sample x with Some segment => app_limited segment | None => false end in
  let c := deliver_ack_batch s ack (acked_bytes x) (latest_rtt x) (rate_sample x) c in
  cc_on_end_acks (now ack) (in_flight s) (limited || ack_app_limited ack) (largest_acked x) c.

Definition process_ack s ack c : option (TcpRecoveryState * C * bool * option Duration) :=
  x ← cumulative_ack s ack;
  Some (al_state x, if any_acked x then finish_acks ack x c else c, any_acked x, latest_rtt x).

(** Losses of the samples below the highest selective acknowledgment. *)
Definition detect_losses s ack (highest_sacked_right : Z) c : option (TcpRecoveryState * C) :=
  s ← mark_rack_candidates s highest_sacked_right (now ack) (reordering_window ack) (max_datagram_size c);
  on_rack_timeout s (now ack) (snd_nxt s) c.

(** The state of the tail loss probe after an acknowledgment. *)
Definition update_probe s (acknowledgment : Z) (latest_rtt : option Duration) (resolved : bool) : TcpRecoveryState :=
  let t := tlp s in
  let s := set_tlp (mk_tlp (tlp_timer_armed t) (tlp_probe_end t) (tlp_probe_retransmitted t) (tlp_rtt_fresh t || bool_decide (is_Some latest_rtt))) s in
  let cleared := match tlp_probe_end (tlp s) with
                 | Some end_ => seq_gt acknowledgment end_ || (seq_ge acknowledgment end_ && negb (tlp_probe_retransmitted (tlp s)))
                 | None => false
                 end in
  let s := if cleared || resolved then clear_probe s else s in
  let t := tlp s in
  set_tlp (mk_tlp (has_unacked_data s && tlp_rtt_fresh t && negb (bool_decide (is_Some (tlp_probe_end t)))) (tlp_probe_end t) (tlp_probe_retransmitted t) (tlp_rtt_fresh t)) s.

(** The probe was sent again and its end compares so with the acknowledgment. *)
Definition probe_at s (test : Z -> bool) : bool :=
  tlp_probe_retransmitted (tlp s) && match tlp_probe_end (tlp s) with Some end_ => test end_ | None => false end.

Definition on_ack s ack c : option (TcpRecoveryState * C * option Duration) :=
  let s := set_floor (acknowledgment ack) s in
  let tlp_recovered := probe_at s (seq_gt (acknowledgment ack)) in
  let c := if tlp_recovered then cc_on_tail_loss_probe_ack (now ack) (in_flight s) (max_datagram_size c) c else c in
  let tlp_duplicate := probe_at s (Z.eqb (acknowledgment ack)) && duplicate_ack ack in
  '(s, c, advanced, latest_rtt) ← process_ack s ack c;
  let c := if negb advanced && duplicate_ack ack then notify_duplicate_ack s ack c else c in
  s ← advance_scoreboard_for_ack s (acknowledgment ack) (max_datagram_size c);
  let '(s, c) := maybe_finish_recovery s (acknowledgment ack) c in
  '(s, c) ← (if rack_enabled s && seq_gt (high_sacked (scoreboard s)) (acknowledgment ack)
             then detect_losses s ack (high_sacked (scoreboard s)) c else Some (s, c));
  s ← (if recovery_active (prr s) && (advanced : bool) then
         s ← queue_recovery_head s;
         let p := prr s in
         Some (set_prr (mk_prr (recovery_active p) true (recovery_window p) (recovery_prev_window p) (recovery_delivered p)
           (recovery_prev_delivered p) (recovery_retransmitted p) (recovery_new_data p) (recovery_end_sequence p)) s)
       else Some s);
  Some (update_probe s (acknowledgment ack) latest_rtt tlp_duplicate, c, latest_rtt).

(** *** Selective acknowledgments *)

Definition dsack_block (blocks : list TcpSackBlock) (acknowledgment : Z) : option TcpSackBlock :=
  match blocks with
  | [] => None
  | first :: rest =>
    if seq_ge (left_edge first) (right_edge first) then None else
    if seq_gt (left_edge first) acknowledgment then
      match rest with
      | [] => None
      | second :: _ =>
        if seq_lt (right_edge second) (right_edge first) || seq_gt (left_edge second) (left_edge first) then None else Some first
      end
    else if seq_gt (right_edge first) acknowledgment then None else Some first
  end.

(** A sample that overlaps a block: the part before it is split off, the part
    inside is taken. *)
Definition sack_sample ack (block : TcpSackBlock) (index : Z) (sample : TcpSentSample) (x : ack_locals) : option ack_locals :=
  let ack_start := seq_max (sequence sample) (left_edge block) in
  let ack_end := seq_min (end_sequence sample) (right_edge block) in
  '(s, ok) ← (if seq_gt ack_start (sequence sample) then
                '(s, r) ← split_sample (al_state x) index ack_start; Some (s, bool_decide (is_Some r))
              else Some (al_state x, true));
  let x := with_state s x in
  if negb (ok : bool) then Some x else
  current_index ← sample_at_or_after s ack_start false;
  match current_index with
  | None => Some x
  | Some current_index =>
    current ← sent_sample s current_index;
    match current with
    | None => Some x
    | Some current =>
      '(s, segment) ← (if seq_lt ack_end (end_sequence current) then take_sample_prefix s current_index ack_end else take_sent s current_index);
      let x := with_state s x in
      Some (match segment with None => x | Some segment => note_acked ack segment x end)
    end
  end.

Fixpoint sack_loop (n : nat) ack (block : TcpSackBlock) (cursor : option Z) (x : ack_locals) : option ack_locals :=
  match cursor with
  | None => Some x
  | Some index =>
    match n with
    | O => None
    | S n =>
      sample ← sent_sample (al_state x) index;
      match sample with
      | None => Some x
      | Some sample =>
        if seq_lt (right_edge block) (sequence sample) then Some x else
        cursor ← next_sample (al_state x) (sequence sample);
        x ← (if overlaps sample (left_edge block) (right_edge block) then sack_sample ack block index sample x else Some x);
        sack_loop n ack block cursor x
      end
    end
  end.

Definition block_eqb (a b : TcpSackBlock) : bool := (left_edge a =? left_edge b) && (right_edge a =? right_edge b).

(** The blocks that count: not the duplicate report, and inside what was sent. *)
Definition block_counts s ack (dsack : option TcpSackBlock) (first : bool) (block : TcpSackBlock) : bool :=
  negb (first && match dsack with Some d => block_eqb block d | None => false end) &&
  negb (seq_ge (left_edge block) (right_edge block) || seq_le (left_edge block) (acknowledgment ack) ||
        seq_ge (left_edge block) (snd_nxt s) || seq_gt (right_edge block) (snd_nxt s)).

Fixpoint sack_blocks_loop ack (dsack : option TcpSackBlock) (first : bool) (blocks : list TcpSackBlock) (highest_sacked_right : Z) (x : ack_locals) : option (Z * ack_locals) :=
  match blocks with
  | [] => Some (highest_sacked_right, x)
  | block :: blocks =>
    if negb (block_counts (al_state x) ack dsack first block) then sack_blocks_loop ack dsack false blocks highest_sacked_right x else
    cursor ← sample_at_or_after (al_state x) (left_edge block) true;
    x ← sack_loop (fuel (al_state x)) ack block cursor x;
    sack_blocks_loop ack dsack false blocks (seq_max highest_sacked_right (right_edge block)) x
  end.

Definition on_sack_blocks s ack (blocks : list TcpSackBlock) c : option (TcpRecoveryState * C * option Duration) :=
  let s := set_floor (acknowledgment ack) s in
  let dsack := dsack_block blocks (acknowledgment ack) in
  let tlp_dsack := probe_at s (fun end_ =>
    match dsack with
    | Some block => (right_edge block =? end_) && (distance_to (left_edge block) (right_edge block) <=? max_datagram_size c)
    | None => false
    end) in
  let tlp_recovered := probe_at s (seq_gt (acknowledgment ack)) && negb tlp_dsack in
  let c := if tlp_recovered then cc_on_tail_loss_probe_ack (now ack) (in_flight s) (max_datagram_size c) c else c in
  let tlp_duplicate := probe_at s (Z.eqb (acknowledgment ack)) && duplicate_ack ack && match blocks with [] => true | _ => false end in
  dsack_spurious ← (if tlp_dsack then Some false else
                    match dsack with
                    | Some block => retransmitted_range_covered s (left_edge block) (right_edge block)
                    | None => Some false
                    end);
  x ← cumulative_ack s ack;
  '(highest_sacked_right, x) ← sack_blocks_loop ack dsack true blocks (seq_max (high_sacked (scoreboard (al_state x))) (acknowledgment ack)) x;
  let s := al_state x in
  let c := if any_acked x then finish_acks ack x c else if duplicate_ack ack then notify_duplicate_ack s ack c else c in
  s ← rebuild_scoreboard s (acknowledgment ack) highest_sacked_right (max_datagram_size c);
  let '(s, c) := if (dsack_spurious : bool) then
                   (if recovery_active (prr s) then set_prr prr_idle s else s, cc_on_undo_recovery c)
                 else (s, c) in
  let '(s, c) := maybe_finish_recovery s (acknowledgment ack) c in
  '(s, c) ← (if rack_enabled s && negb (highest_sacked_right =? acknowledgment ack)
             then detect_losses s ack highest_sacked_right c else Some (s, c));
  Some (update_probe s (acknowledgment ack) (latest_rtt x) (tlp_dsack || tlp_duplicate), c, latest_rtt x).

End control.

End TcpRecovery.
