(* ===== verification/TcpSamples.v ===== *)
(** * The outstanding samples as a list

    A sender's samples stand for a list of [item]s in sequence order: the pool
    index of a sample, the positions [lo] to [hi] it covers, written without
    wrap-around, and the sample up to its links.  The pool holds each sample
    with its neighbours in that list, the lookup tree its index under its first
    sequence number.  This file has what finding, changing, splitting and taking
    a sample does to the list, and the rule for loops over it. *)

From S2P Require Import Prelude Ranges InfraPool InfraRbTree InfraRbOps TcpProtocol TcpSack TcpSackProofs TcpRecovery.

Module TcpSamples.
Import Ranges TcpProtocol TcpSackProofs RbOps TcpRecovery.

Record item : Type := mk_item { idx : Z; lo : Z; hi : Z; smp : TcpSentSample }.
Implicit Types (it : item) (L : list item) (p : Pool.t TcpSentSample) (s : TcpRecoveryState).

Definition first_index L (n : option Z) : option Z := match L with [] => n | it :: _ => Some (idx it) end.
Definition last_index (q : option Z) L : option Z := foldl (fun _ it => Some (idx it)) q L.
Fixpoint linked (q : option Z) L (n : option Z) : list (Z * TcpSentSample) :=
  match L with
  | [] => []
  | it :: L => (idx it, with_links q (first_index L n) (smp it)) :: linked (Some (idx it)) L n
  end.

Lemma linked_items_app q L1 L2 n : linked q (L1 ++ L2) n = linked q L1 (first_index L2 n) ++ linked (last_index q L1) L2 n.
Proof. revert q. induction L1 as [|it L1 IH]; intros q; cbn; [done|]. rewrite IH. do 3 f_equal. by destruct L1. Qed.
Lemma linked_indices q L n : (linked q L n).*1 = idx <$> L.
Proof. revert q. induction L as [|it L IH]; intros q; cbn; [done|]. by rewrite IH. Qed.
Lemma last_index_app q L1 L2 : last_index q (L1 ++ L2) = last_index (last_index q L1) L2.
Proof. apply foldl_app. Qed.
Lemma last_index_snoc q L it : last_index q (L ++ [it]) = Some (idx it).
Proof. by rewrite last_index_app. Qed.
Lemma first_index_app L1 L2 n : first_index (L1 ++ L2) n = first_index L1 (first_index L2 n).
Proof. by destruct L1. Qed.

Lemma with_links_links a b c d x : with_links a b (with_links c d x) = with_links a b x.
Proof. done. Qed.
Lemma sequence_links a b x : sequence (with_links a b x) = sequence x.
Proof. done. Qed.
Lemma prev_links a b x : prev (with_links a b x) = a.
Proof. done. Qed.

(** ** The pool *)

Definition slots_max : Z := 2 ^ 31.
Record pool_ok p L : Prop := mk_pool_ok {
  po_repr : Pool.represents p (list_to_map (linked None L None));
  po_nodup : NoDup (idx <$> L);
  po_idx : Forall (Z.le 0) (idx <$> L);
  po_grows : Pool.max_elts p = None;
  po_slots : vlen (Pool.vector p) <= slots_max
}.

Lemma nodup_middle L1 it L2 : NoDup (idx <$> L1 ++ it :: L2) ->
  (idx it ∉ idx <$> L1) /\ (idx it ∉ idx <$> L2) /\ NoDup (idx <$> L1 ++ L2) /\ (forall k, k ∈ idx <$> L1 -> k ∉ idx <$> L2).
Proof.
  rewrite !fmap_app. cbn. rewrite NoDup_app, NoDup_cons, NoDup_app. intros (H1 & H2 & H3 & H4). split_and!; try done.
  - intros Hin. by apply (H2 _ Hin), list_elem_of_here.
  - intros k Hk Hk'. apply (H2 k Hk). by right.
  - intros k Hk Hk'. apply (H2 k Hk). by right.
Qed.

Lemma pool_lookup p L1 it L2 : pool_ok p (L1 ++ it :: L2) ->
  (list_to_map (linked None (L1 ++ it :: L2) None) : gmap Z TcpSentSample) !! idx it = Some (with_links (last_index None L1) (first_index L2 None) (smp it)).
Proof.
  intros H. destruct (nodup_middle L1 it L2 (po_nodup _ _ H)) as (Hn & _). rewrite linked_items_app. cbn [linked]. apply lookup_middle. by rewrite linked_indices.
Qed.
Lemma pool_idx p L1 it L2 : pool_ok p (L1 ++ it :: L2) -> 0 <= idx it.
Proof. intros [_ _ H _ _]. rewrite fmap_app in H. apply Forall_app in H as [_ [H _]%Forall_cons]. done. Qed.
Lemma pool_get p L1 it L2 : pool_ok p (L1 ++ it :: L2) -> Pool.get p (idx it) = Some (Some (with_links (last_index None L1) (first_index L2 None) (smp it))).
Proof.
  intros H. destruct (po_repr _ _ H) as [Hw Hm]. rewrite Pool.pool_get_slot; [|done|by eapply pool_idx]. by rewrite <- Hm, (pool_lookup p).
Qed.

(** Changing a sample in place, its links apart. *)
Lemma pool_change p L1 it x L2 f : pool_ok p (L1 ++ it :: L2) ->
  (forall a b, f (with_links a b (smp it)) = with_links a b x) ->
  exists p', Pool.get_mut p (idx it) f = Some (p', true) /\ pool_ok p' (L1 ++ mk_item (idx it) (lo it) (hi it) x :: L2).
Proof.
  intros H Hf. destruct (Pool.pool_get_mut_repr p _ (idx it) f (po_repr _ _ H) ltac:(by eapply pool_idx)) as (p' & E & Hr). exists p'.
  destruct (Pool.get_mut_frame _ _ _ _ _ E) as (_ & F1 & F2). destruct (nodup_middle L1 it L2 (po_nodup _ _ H)) as (Hn & _).
  rewrite (pool_lookup p) in E by done. split; [done|]. destruct H as [H1 H2 H3 H4 H5]. constructor; [| | |congruence|lia].
  - rewrite linked_items_app in Hr. cbn [linked first_index] in Hr. rewrite alter_middle in Hr by (by rewrite linked_indices). rewrite Hf in Hr. by rewrite linked_items_app.
  - rewrite fmap_app in *. done.
  - rewrite fmap_app in *. done.
Qed.

(** The span of an item is not in the pool. *)
Lemma pool_ext p L L' : pool_ok p L -> linked None L None = linked None L' None -> pool_ok p L'.
Proof.
  intros [H1 H2 H3 H4 H5] E. assert (idx <$> L = idx <$> L') as Ei by (by rewrite <- !(linked_indices None _ None), E). constructor; try done.
  - by rewrite <- E.
  - by rewrite <- Ei.
  - by rewrite <- Ei.
Qed.

(** ** Relinking *)

Lemma last_index_in L k : last_index None L = Some k -> k ∈ idx <$> L.
Proof. destruct L as [|it L _] using rev_ind; [done|]. rewrite last_index_snoc. intros [= <-]. rewrite fmap_app. apply elem_of_app. right. apply list_elem_of_here. Qed.
Lemma first_index_in L k : first_index L None = Some k -> k ∈ idx <$> L.
Proof. destruct L as [|it L]; [done|]. intros [= <-]. apply list_elem_of_here. Qed.

(** What [with_next] and [with_prev] do to a segment of the pool. *)
Definition pool_holds p (l : list (Z * TcpSentSample)) : Prop :=
  Pool.represents p (list_to_map l) /\ Pool.max_elts p = None /\ vlen (Pool.vector p) <= slots_max.

Lemma holds_mut p l1 k x l2 f : pool_holds p (l1 ++ (k, x) :: l2) -> 0 <= k -> k ∉ l1.*1 ->
  exists p', Pool.get_mut p k f = Some (p', true) /\ pool_holds p' (l1 ++ (k, f x) :: l2).
Proof.
  intros (H1 & H2 & H3) Hk Hn. destruct (Pool.pool_get_mut_repr p _ k f H1 Hk) as (p' & E & Hr). destruct (Pool.get_mut_frame _ _ _ _ _ E) as (_ & F1 & F2).
  rewrite lookup_middle in E by done. rewrite alter_middle in Hr by done. exists p'. split; [done|]. split_and!; [done|congruence|lia].
Qed.

(** The two places a neighbour is named in: a sample or an end of the list. *)
Definition link_next s (k : option Z) (n : option Z) : option (TcpRecoveryState * bool) :=
  match k with Some k => sent_sample_mut s k (with_next n) | None => Some (set_head n s, true) end.
Definition link_prev s (k : option Z) (q : option Z) : option (TcpRecoveryState * bool) :=
  match k with Some k => sent_sample_mut s k (with_prev q) | None => Some (set_tail q s, true) end.

Lemma link_next_spec s L1 x n l2 : pool_holds (pool s) (linked None L1 x ++ l2) -> NoDup (idx <$> L1) -> Forall (Z.le 0) (idx <$> L1) ->
  exists p', link_next s (last_index None L1) n = Some (set_pool p' (match L1 with [] => set_head n s | _ => s end), true) /\ pool_holds p' (linked None L1 n ++ l2).
Proof.
  intros H Hn Hp. destruct L1 as [|it L1 _] using rev_ind.
  - exists (pool s). split; [|done]. cbn. by destruct s as [? []].
  - rewrite last_index_snoc, !linked_items_app, <- !app_assoc, fmap_app in *. cbn [linked app first_index fmap list_fmap] in *.
    apply NoDup_app in Hn as (_ & Hn & _). apply Forall_app in Hp as [_ [Hp _]%Forall_cons].
    destruct (holds_mut (pool s) _ _ _ _ (with_next n) H Hp) as (p' & E & H'); [rewrite linked_indices; intros Hin; by apply (Hn (idx it)), list_elem_of_here|].
    exists p'. unfold link_next, sent_sample_mut. rewrite E. split; [|done]. cbn. by destruct L1.
Qed.
Lemma link_prev_spec s l1 q q' L2 : pool_holds (pool s) (l1 ++ linked q L2 None) -> (forall k, k ∈ l1.*1 -> k ∉ idx <$> L2) -> Forall (Z.le 0) (idx <$> L2) ->
  exists p', link_prev s (first_index L2 None) q' = Some (set_pool p' (match L2 with [] => set_tail q' s | _ => s end), true) /\ pool_holds p' (l1 ++ linked q' L2 None).
Proof.
  intros H Hn Hp. destruct L2 as [|it L2].
  - exists (pool s). split; [|done]. cbn. by destruct s as [? []].
  - cbn [first_index linked fmap list_fmap] in *. apply Forall_cons in Hp as [Hp _].
    destruct (holds_mut (pool s) _ _ _ _ (with_prev q') H Hp) as (p' & E & H'); [intros Hin; by apply (Hn (idx it)), list_elem_of_here|].
    exists p'. unfold link_prev, sent_sample_mut. rewrite E. done.
Qed.

Lemma pool_ok_holds p L : pool_ok p L <-> pool_holds p (linked None L None) /\ NoDup (idx <$> L) /\ Forall (Z.le 0) (idx <$> L).
Proof. split; [intros [? ? ? ? ?]; split_and!; try done|intros ((? & ? & ?) & ? & ?); by constructor]. Qed.

(** ** Positions *)

Fixpoint spans (a : Z) L (b : Z) : Prop :=
  match L with [] => a <= b | it :: L => a <= lo it < hi it /\ spans (hi it) L b end.

Lemma spans_le a L b : spans a L b -> a <= b.
Proof. revert a. induction L as [|it L IH]; intros a; cbn; [done|]. intros [H1 H2%IH]. lia. Qed.
Lemma spans_weaken a a' L b b' : spans a L b -> a' <= a -> b <= b' -> spans a' L b'.
Proof. revert a a'. induction L as [|it L IH]; intros a a'; cbn; [lia|]. intros [H1 H2] Ha Hb. split; [lia|]. by apply (IH (hi it)). Qed.
Lemma spans_app a L1 L2 b : spans a (L1 ++ L2) b <-> exists m, spans a L1 m /\ spans m L2 b.
Proof.
  revert a. induction L1 as [|it L1 IH]; intros a; cbn.
  - split; [intros H; exists a; done|]. intros (m & H1 & H2). by apply (spans_weaken m a L2 b b).
  - rewrite IH. naive_solver.
Qed.
Lemma spans_in a L b it : spans a L b -> it ∈ L -> a <= lo it < hi it /\ hi it <= b.
Proof.
  intros H (L1 & L2 & ->)%list_elem_of_split. apply spans_app in H as (m & H1 & H2). cbn in H2. destruct H2 as [H2 H3].
  apply spans_le in H1. apply spans_le in H3. lia.
Qed.
Lemma spans_middle a L1 it L2 b : spans a (L1 ++ it :: L2) b ->
  (forall x, x ∈ L1 -> a <= lo x < hi x /\ hi x <= lo it) /\ a <= lo it < hi it /\ hi it <= b /\ (forall x, x ∈ L2 -> hi it <= lo x < hi x /\ hi x <= b).
Proof.
  intros (m & H1 & [H2 H3])%spans_app. pose proof (spans_le _ _ _ H1). pose proof (spans_le _ _ _ H3). split_and!; [|lia..|].
  - intros x Hx. pose proof (spans_in _ _ _ x H1 Hx). lia.
  - intros x Hx. pose proof (spans_in _ _ _ x H3 Hx). lia.
Qed.

Fixpoint total L : Z := match L with [] => 0 | it :: L => hi it - lo it + total L end.
Lemma total_app L1 L2 : total (L1 ++ L2) = total L1 + total L2.
Proof. induction L1 as [|it L1 IH]; cbn; lia. Qed.
Lemma total_bound a L b : spans a L b -> vlen L <= total L <= b - a.
Proof.
  revert a. induction L as [|it L IH]; intros a; [cbn; change (@vlen item []) with 0; lia|]. cbn [spans total]. intros [H1 H2%IH]. unfold vlen in *. cbn [length]. lia.
Qed.

Definition outstanding L (y : Z) : Prop := exists it, it ∈ L /\ lo it <= y < hi it.
Lemma outstanding_app L1 L2 y : outstanding (L1 ++ L2) y <-> outstanding L1 y \/ outstanding L2 y.
Proof. unfold outstanding. setoid_rewrite elem_of_app. naive_solver. Qed.
Lemma outstanding_cons it L y : outstanding (it :: L) y <-> lo it <= y < hi it \/ outstanding L y.
Proof. unfold outstanding. setoid_rewrite elem_of_cons. naive_solver. Qed.
Lemma outstanding_nil y : outstanding [] y <-> False.
Proof. unfold outstanding. split; [|done]. by intros (it & []%not_elem_of_nil & _). Qed.

(** ** The lookup tree *)

Definition key it : Z * Z := (wr (lo it), idx it).
Definition tree_ok (U : Z) (t : @RbTree.t Z Z) L : Prop := entries_of seq_cmp (dom U) t (key <$> L).

Section tree.
Context (U : Z).

Lemma key_cmp y it : win U y -> win U (lo it) -> seq_cmp (wr y) (key it).1 = (y ?= lo it).
Proof. apply seq_cmp_win. Qed.

Lemma keys_below y L : win U y -> Forall (fun it => win U (lo it) /\ lo it < y) L -> below seq_cmp (wr y) (key <$> L).
Proof.
  intros Hy H. apply Forall_fmap. eapply Forall_impl; [exact H|]. intros it [H1 H2]. cbn. rewrite (seq_cmp_win U) by done. by apply Z.compare_gt_iff.
Qed.
Lemma keys_above y L : win U y -> Forall (fun it => win U (lo it) /\ y < lo it) L -> above seq_cmp (wr y) (key <$> L).
Proof.
  intros Hy H. apply Forall_fmap. eapply Forall_impl; [exact H|]. intros it [H1 H2]. cbn. rewrite (seq_cmp_win U) by done. by apply Z.compare_lt_iff.
Qed.

Lemma keys_greater y L1 L2 : win U y -> Forall (fun it => win U (lo it) /\ lo it <= y) L1 -> Forall (fun it => win U (lo it) /\ y < lo it) L2 ->
  greater_in seq_cmp (wr y) (key <$> L1 ++ L2) = key <$> L2.
Proof.
  intros Hy H1 H2. unfold greater_in. rewrite fmap_app, filter_app. apply (keys_above y L2 Hy) in H2. induction H1 as [|it L1 [Hw Hl] _ IH].
  - cbn. clear -H2. induction H2 as [|e l He _ IH]; [done|]. by rewrite filter_cons_True, IH.
  - cbn [fmap list_fmap]. rewrite filter_cons_False; [done|]. rewrite key_cmp by done. rewrite Z.compare_lt_iff. lia.
Qed.
Lemma keys_less y L1 L2 : win U y -> Forall (fun it => win U (lo it) /\ lo it < y) L1 -> Forall (fun it => win U (lo it) /\ y <= lo it) L2 ->
  less_in seq_cmp (wr y) (key <$> L1 ++ L2) = key <$> L1.
Proof.
  intros Hy H1 H2. unfold less_in. rewrite fmap_app, filter_app. apply (keys_below y L1 Hy) in H1.
  assert (filter (fun e => seq_cmp (wr y) e.1 = Gt) (key <$> L2) = []) as ->.
  { induction H2 as [|it L2 [Hw Hl] _ IH]; [done|]. cbn [fmap list_fmap]. rewrite filter_cons_False; [done|]. rewrite key_cmp by done. rewrite Z.compare_gt_iff. lia. }
  rewrite app_nil_r. induction H1 as [|e l He _ IH]; [done|]. by rewrite filter_cons_True, IH.
Qed.
Lemma keys_found L1 it L2 : win U (lo it) -> Forall (fun x => win U (lo x) /\ lo x < lo it) L1 -> lookup_in seq_cmp (wr (lo it)) (key <$> L1 ++ it :: L2) = Some (idx it).
Proof.
  intros Hw H1. rewrite fmap_app, lookup_in_skip by (by apply keys_below). cbn. rewrite (seq_cmp_win U), Z.compare_refl by done. done.
Qed.
Lemma keys_absent y L : win U y -> Forall (fun it => win U (lo it) /\ lo it <> y) L -> lookup_in seq_cmp (wr y) (key <$> L) = None.
Proof.
  intros Hy H. induction H as [|it L [Hw Hn] _ IH]; [done|]. cbn. rewrite (seq_cmp_win U) by done. destruct (Z.compare_spec y (lo it)); [lia|done|done].
Qed.

End tree.

(** ** The invariant *)

Definition item_ok it : Prop :=
  sequence (smp it) = wr (lo it) /\ end_sequence (smp it) = wr (hi it) /\ bytes (smp it) = hi it - lo it /\ payload_len (smp it) = hi it - lo it.

(** All but the byte count, for the middle of an operation. *)
Record list_core (U N : Z) (l : sample_list) L : Prop := mk_list_core {
  lc_pool : pool_ok (sent_samples l) L;
  lc_tree : tree_ok U (sample_lookup l) L;
  lc_head : sample_head l = first_index L None;
  lc_tail : sample_tail l = last_index None L;
  lc_items : Forall item_ok L;
  lc_spans : spans U L N;
  lc_window : N < U + 2 ^ 31
}.
Definition list_ok (U N : Z) (l : sample_list) L : Prop := list_core U N l L /\ bytes_in_flight l = total L.

Section ops.
Context (U N : Z).

Lemma core_middle l L1 it L2 : list_core U N l (L1 ++ it :: L2) ->
  item_ok it /\ win U (lo it) /\ win U (hi it) /\ lo it < hi it /\
  Forall (fun x => win U (lo x) /\ lo x < lo it) L1 /\ Forall (fun x => win U (lo x) /\ hi it <= lo x) L2 /\
  Forall (fun x => win U (lo x) /\ lo it < lo x) L2 /\ Forall (fun x => win U (hi x) /\ hi x <= lo it) L1.
Proof.
  intros [_ _ _ _ Hi Hs Hw]. apply spans_middle in Hs as (H1 & H2 & H3 & H4). apply Forall_app in Hi as [_ [Hi _]%Forall_cons].
  unfold win. split_and!; try done; try lia; apply Forall_forall; intros x Hx; [specialize (H1 x Hx)|specialize (H4 x Hx)|specialize (H4 x Hx)|specialize (H1 x Hx)]; lia.
Qed.

Lemma core_get s L1 it L2 : list_core U N (samples s) (L1 ++ it :: L2) ->
  sent_sample s (idx it) = Some (Some (with_links (last_index None L1) (first_index L2 None) (smp it))).
Proof. intros H. apply (pool_get _ L1 it L2), (lc_pool _ _ _ _ H). Qed.

Lemma core_lookup l L1 it L2 : list_core U N l (L1 ++ it :: L2) -> RbTree.get seq_cmp (sample_lookup l) (wr (lo it)) = Some (Some (idx it)).
Proof.
  intros H. destruct (core_middle _ _ _ _ H) as (_ & Hw & _ & _ & H1 & _). rewrite (rb_get_spec seq_cmp (dom U) _ _ _ (lc_tree _ _ _ _ H)) by (by exists (lo it)).
  by rewrite (keys_found U).
Qed.

(** Changing the flags of a sample. *)
Definition same_span (x y : TcpSentSample) : Prop := sequence x = sequence y /\ end_sequence x = end_sequence y /\ bytes x = bytes y /\ payload_len x = payload_len y.

Lemma core_change s L1 it x L2 f : list_core U N (samples s) (L1 ++ it :: L2) ->
  (forall a b, f (with_links a b (smp it)) = with_links a b x) -> same_span x (smp it) ->
  exists p, sent_sample_mut s (idx it) f = Some (set_pool p s, true) /\ list_core U N (samples (set_pool p s)) (L1 ++ mk_item (idx it) (lo it) (hi it) x :: L2).
Proof.
  intros [H1 H2 H3 H4 H5 H6 H7] Hf (E1 & E2 & E3 & E4). destruct (pool_change _ L1 it x L2 f H1 Hf) as (p & E & Hp). exists p. unfold sent_sample_mut, pool. rewrite E. split; [done|].
  constructor; cbn; try done.
  - unfold tree_ok in *. rewrite fmap_app in *. done.
  - rewrite H3, !first_index_app. done.
  - rewrite H4, !last_index_app. done.
  - apply Forall_app in H5 as [I1 [I2 I3]%Forall_cons]. apply Forall_app. split; [done|]. constructor; [|done]. unfold item_ok in *. cbn. by rewrite E1, E2, E3, E4.
  - apply spans_app in H6 as (m & ? & ?). apply spans_app. by exists m.
Qed.

(** ** Finding samples *)

Lemma item_win l L it : list_core U N l L -> it ∈ L -> item_ok it /\ win U (lo it) /\ win U (hi it) /\ lo it < hi it.
Proof. intros H (L1 & L2 & ->)%list_elem_of_split. destruct (core_middle _ _ _ _ H) as (? & ? & ? & ? & _). done. Qed.

Lemma covers_pos it y a b : item_ok it -> win U (lo it) -> win U (hi it) -> win U y -> covers (with_links a b (smp it)) (wr y) = (lo it <=? y) && (y <? hi it).
Proof.
  intros (E1 & E2 & _) H1 H2 H3. unfold covers. cbn [with_links sequence end_sequence]. rewrite E1, E2. unfold seq_gt. rewrite !(seq_le_win U) by done.
  by rewrite Z.ltb_antisym.
Qed.
Lemma overlaps_pos it x y a b : item_ok it -> win U (lo it) -> win U (hi it) -> win U x -> win U y ->
  overlaps (with_links a b (smp it)) (wr x) (wr y) = (x <? hi it) && (lo it <? y).
Proof.
  intros (E1 & E2 & _) H1 H2 H3 H4. unfold overlaps. cbn [with_links sequence end_sequence]. rewrite E1, E2. unfold seq_gt. rewrite (seq_le_win U), (seq_lt_win U) by done.
  by rewrite (Z.ltb_antisym (hi it) x).
Qed.

Lemma next_sample_spec s L1 it L2 : list_core U N (samples s) (L1 ++ it :: L2) -> next_sample s (wr (lo it)) = Some (first_index L2 None).
Proof.
  intros H. destruct (core_middle _ _ _ _ H) as (_ & Hw & _ & _ & H1 & _ & H2 & _). unfold next_sample, lookup_tree.
  rewrite (rb_successor_spec seq_cmp (dom U) _ _ _ (lc_tree _ _ _ _ H)) by (by exists (lo it)). cbn [mbind option_bind].
  rewrite cons_middle, app_assoc, (keys_greater U); [by destruct L2|done| |done]. apply Forall_app. split; [|constructor; [split; [done|lia]|done]].
  eapply Forall_impl; [exact H1|]. intros x [? ?]. split; [done|lia].
Qed.

(** The first sample that covers [y] or lies behind it. *)
Lemma at_or_after_spec s L1 L2 y : list_core U N (samples s) (L1 ++ L2) -> win U y ->
  (forall it, it ∈ L1 -> hi it <= y) -> match L2 with [] => True | it :: _ => y < hi it end ->
  sample_at_or_after s (wr y) true = Some (first_index L2 None).
Proof.
  intros H Hy Hl Hr. unfold sample_at_or_after, lookup_tree.
  assert (forall it, it ∈ L1 ++ L2 -> item_ok it /\ win U (lo it) /\ win U (hi it) /\ lo it < hi it) as Hin by (intros it; by apply (item_win (samples s))).
  assert (dom U (wr y)) as Hd by (by exists y).
  rewrite (rb_get_spec seq_cmp (dom U) _ _ _ (lc_tree _ _ _ _ H)) by done.
  rewrite (rb_successor_spec seq_cmp (dom U) _ _ _ (lc_tree _ _ _ _ H)), (rb_predecessor_spec seq_cmp (dom U) _ _ _ (lc_tree _ _ _ _ H)) by done.
  cbn [mbind option_bind negb].
  assert (Forall (fun it => win U (lo it) /\ lo it < y) L1) as Hl'.
  { apply Forall_forall. intros it Hit. destruct (Hin it) as (_ & ? & _ & ?); [apply elem_of_app; by left|]. specialize (Hl it Hit). split; [done|lia]. }
  assert (Forall (fun it => win U (lo it) /\ lo it <= y) L1) as Hl''.
  { eapply Forall_impl; [exact Hl'|]. cbn. intros it [? ?]. split; [done|lia]. }
  (* nothing covers [y]: the last sample before it ends before it *)
  assert (forall succ, match list.last (key <$> L1) with
    | None => Some succ
    | Some (_, index) => sample ← sent_sample s index; match sample with Some sample => Some (if covers sample (wr y) then Some index else succ) | None => Some succ end
    end = Some succ) as Hpred.
  { intros succ. destruct L1 as [|it L1 _] using rev_ind; [done|]. rewrite fmap_app. cbn [fmap list_fmap]. rewrite last_snoc. cbn [key]. rewrite <- app_assoc in H. rewrite (core_get s L1 it L2 H). cbn [mbind option_bind].
    destruct (Hin it) as (Hok & W1 & W2 & _); [set_solver|]. rewrite covers_pos by done. specialize (Hl it ltac:(set_solver)).
    rewrite (proj2 (Z.ltb_ge y (hi it))) by lia. by rewrite andb_false_r. }
  destruct L2 as [|it L2].
  - rewrite app_nil_r in *. rewrite (keys_absent U) by (done || (eapply Forall_impl; [exact Hl'|]; cbn; intros ? [? ?]; split; [done|lia])).
    rewrite <- (app_nil_r L1), (keys_greater U), (keys_less U) by (done || constructor). cbn [head fmap list_fmap option_map first_index]. apply Hpred.
  - destruct (core_middle _ _ _ _ H) as (Hok & W1 & W2 & W3 & _ & G1 & _).
    assert (Forall (fun it => win U (lo it) /\ y < lo it) L2) as G2 by (eapply Forall_impl; [exact G1|]; cbn; intros ? [? ?]; split; [done|lia]).
    destruct (Z.compare_spec y (lo it)) as [->|Hlt|Hgt].
    + by rewrite (keys_found U).
    + rewrite (keys_absent U); [|done|]. 2: { apply Forall_app. split; [eapply Forall_impl; [exact Hl'|]; cbn; intros ? [? ?]; split; [done|lia]|].
        constructor; [split; [done|lia]|]. eapply Forall_impl; [exact G2|]. cbn. intros ? [? ?]. split; [done|lia]. }
      rewrite (keys_greater U), (keys_less U); [|done..| |done|done|]; [cbn [head fmap list_fmap option_map first_index]; apply Hpred| |].
      * constructor; [split; [done|lia]|]. eapply Forall_impl; [exact G2|]. cbn. intros ? [? ?]. split; [done|lia].
      * constructor; [split; [done|lia]|done].
    + rewrite (keys_absent U); [|done|]. 2: { apply Forall_app. split; [eapply Forall_impl; [exact Hl'|]; cbn; intros ? [? ?]; split; [done|lia]|].
        constructor; [split; [done|lia]|]. eapply Forall_impl; [exact G2|]. cbn. intros ? [? ?]. split; [done|lia]. }
      rewrite (cons_middle it L1 L2), app_assoc. rewrite (keys_less U); [|done| |].
      * rewrite fmap_app. cbn [fmap list_fmap]. rewrite last_snoc. cbn [key]. rewrite (core_get s L1 it L2 H). cbn [mbind option_bind]. rewrite covers_pos by done.
        rewrite (proj2 (Z.leb_le (lo it) y)), (proj2 (Z.ltb_lt y (hi it))) by lia. done.
      * apply Forall_app. split; [done|]. constructor; [split; [done|lia]|done].
      * eapply Forall_impl; [exact G2|]. cbn. intros ? [? ?]. split; [done|lia].
Qed.

End ops.

(** ** Loops *)

(** A loop keeps an invariant that relates the rest of the list to the values
    it works on. *)
Lemma walk_rule {A : Type} (pool_of : A -> Pool.t TcpSentSample) missing body (I : list item -> A -> Prop) (Q : A -> Prop) n L a :
  (forall it L a, I (it :: L) a -> exists sample a' (go : bool), Pool.get (pool_of a) (idx it) = Some (Some sample) /\ next sample = first_index L None /\
     body (idx it) sample a = Some (a', go) /\ (if go then I L a' else Q a')) ->
  (forall a, I [] a -> Q a) -> (length L <= n)%nat -> I L a ->
  exists a', walk pool_of missing body n (first_index L None) a = Some a' /\ Q a'.
Proof.
  intros Hstep Hend. revert n a. induction L as [|it L IH]; intros n a Hn HI.
  - exists a. destruct n; cbn; auto.
  - destruct n as [|n]; [cbn in Hn; lia|]. destruct (Hstep it L a HI) as (sample & a' & go & E1 & E2 & E3 & H). cbn. rewrite E1. cbn [mbind option_bind]. rewrite E3. cbn [mbind option_bind].
    destruct go; [|by exists a']. rewrite E2. apply IH; [cbn in Hn; lia|done].
Qed.

(** A loop that only reads is a fold that can stop early. *)
Fixpoint fold_go {X : Type} (f : TcpSentSample -> X -> X * bool) (l : list TcpSentSample) (x : X) : X :=
  match l with [] => x | sample :: l => let '(x, go) := f sample x in if (go : bool) then fold_go f l x else x end.

Lemma pool_fuel p L : pool_ok p L -> (length L <= S (length (Pool.vector p)))%nat.
Proof.
  intros H. pose proof (Pool.pool_len_size p _ (po_repr _ _ H)) as E. rewrite map_size_list_to_map in E by (rewrite linked_indices; apply (po_nodup _ _ H)).
  rewrite <- (length_fmap fst), linked_indices, length_fmap in E. unfold Pool.len, saturating_sub, vlen in E. lia.
Qed.

Lemma walk_read_spec {X : Type} s L (f : TcpSentSample -> X -> X * bool) x :
  pool_ok (pool s) L -> sample_head (samples s) = first_index L None -> walk_read s f x = Some (fold_go f (linked None L None).*2 x).
Proof.
  intros Hp Hh. unfold walk_read. rewrite Hh. pose proof (pool_fuel _ _ Hp) as Hf. fold (fuel s) in Hf.
  enough (forall L1 L2 n x, L = L1 ++ L2 -> (length L2 <= n)%nat ->
    walk (fun _ => pool s) Some (fun _ sample x => Some (f sample x)) n (first_index L2 None) x = Some (fold_go f (linked (last_index None L1) L2 None).*2 x)) as H.
  { apply (H []); [done|]. unfold fuel, pool in *. lia. }
  intros L1 L2. revert L1. induction L2 as [|it L2 IH]; intros L1 n y -> Hn; [by destruct n|].
  destruct n as [|n]; [cbn in Hn; lia|]. cbn -[with_links]. rewrite (pool_get _ L1 it L2 Hp). cbn -[with_links]. destruct (f _ y) as [z []]; [|done]. cbn [next with_links].
  rewrite (IH (L1 ++ [it])) by (by rewrite <- app_assoc || (cbn in Hn; lia)). by rewrite last_index_snoc.
Qed.

Section reads.
Context (U N : Z).

Lemma rescan_spec s L : list_core U N (samples s) L -> exists d, rack_rescan_earliest s = Some (set_deadline d s).
Proof. intros H. unfold rack_rescan_earliest. rewrite (walk_read_spec s L) by apply H. eexists. done. Qed.
Lemma refresh_spec s L : list_core U N (samples s) L -> exists n, refresh_lost_bytes s = Some (set_board (set_lost_bytes n (scoreboard s)) s).
Proof. intros H. unfold refresh_lost_bytes. rewrite (walk_read_spec s L) by apply H. eexists. done. Qed.
Lemma invalidate_spec s L c : list_core U N (samples s) L -> exists d, rack_invalidate_cleared s c = Some (set_deadline d s).
Proof.
  intros H. unfold rack_invalidate_cleared. assert (Some s = Some (set_deadline (rack_deadline (rack s)) s)) as E by (by destruct s as [? ? ? ? ? []]).
  destruct c as [c|]; [|by eexists]. destruct (bool_decide _); [by apply (rescan_spec s L)|by eexists].
Qed.

End reads.

(** ** Taking a sample out *)

Section change.
Context (U N : Z).

Lemma occupied_prev s L1 L2 : pool_ok (pool s) (L1 ++ L2) -> occupied s (last_index None L1) = Some true.
Proof.
  intros H. destruct L1 as [|it L1 _] using rev_ind; [done|]. rewrite last_index_snoc. rewrite <- app_assoc in H. cbn [occupied]. rewrite (pool_get _ L1 it L2 H). done.
Qed.
Lemma occupied_next s L1 L2 : pool_ok (pool s) (L1 ++ L2) -> occupied s (first_index L2 None) = Some true.
Proof. intros H. destruct L2 as [|it L2]; [done|]. cbn [occupied first_index]. rewrite (pool_get _ L1 it L2 H). done. Qed.

Lemma tree_remove l L1 it L2 : list_core U N l (L1 ++ it :: L2) ->
  exists t, RbTree.remove seq_cmp (sample_lookup l) (wr (lo it)) = Some (t, Some (idx it)) /\ tree_ok U t (L1 ++ L2).
Proof.
  intros H. destruct (core_middle _ _ _ _ _ _ H) as (_ & Hw & _ & _ & H1 & _ & H2 & _). assert (dom U (wr (lo it))) as Hd by (by exists (lo it)).
  destruct (rb_remove_spec seq_cmp (dom U) _ _ _ (lc_tree _ _ _ _ H) Hd) as (t & E & _ & H'). exists t. rewrite (keys_found U) in E by done. split; [done|].
  unfold tree_ok. rewrite fmap_app in *. cbn [fmap list_fmap] in H'. unfold key at 2 in H'. rewrite (remove_in_split seq_cmp (dom U)) in H'; [done|done|by apply (keys_below U)|by apply (keys_above U)].
Qed.

Lemma samples_eta s : set_samples (samples s) s = s.
Proof. by destruct s. Qed.

(** Unlinking: the neighbours are joined and the slot is given back. *)
Lemma unlink_sample_spec s L1 it L2 : pool_ok (pool s) (L1 ++ it :: L2) ->
  exists s1 s2 p, link_next s (last_index None L1) (first_index L2 None) = Some (s1, true) /\
    link_prev s1 (first_index L2 None) (last_index None L1) = Some (s2, true) /\
    Pool.remove (pool s2) (idx it) = Some (p, Some (with_links (last_index None L1) (first_index L2 None) (smp it))) /\ pool_ok p (L1 ++ L2) /\
    s2 = set_samples (samples s2) s /\ sample_lookup (samples s2) = sample_lookup (samples s) /\ bytes_in_flight (samples s2) = bytes_in_flight (samples s) /\
    sample_head (samples s2) = match L1 with [] => first_index L2 None | _ => sample_head (samples s) end /\
    sample_tail (samples s2) = match L2 with [] => last_index None L1 | _ => sample_tail (samples s) end.
Proof.
  intros H. destruct (nodup_middle _ _ _ (po_nodup _ _ H)) as (N1 & N2 & N3 & N4). pose proof (pool_idx _ _ _ _ H) as Hidx.
  pose proof (po_idx _ _ H) as Hp. rewrite fmap_app in Hp, N3. apply Forall_app in Hp as [Hp1 [_ Hp2]%Forall_cons]. pose proof N3 as (N5 & _ & N6)%NoDup_app.
  pose proof H as [Hh _]%pool_ok_holds. rewrite linked_items_app in Hh. cbn [linked first_index] in Hh.
  destruct (link_next_spec s L1 _ (first_index L2 None) _ Hh N5 Hp1) as (p1 & E1 & H1). set (s1 := set_pool p1 _) in E1.
  rewrite cons_middle, app_assoc in H1. assert (pool s1 = p1) as Es1 by (unfold s1; by destruct L1). rewrite <- Es1 in H1.
  destruct (link_prev_spec s1 _ _ (last_index None L1) L2 H1) as (p2 & E2 & H2); [|done|].
  { rewrite fmap_app, linked_indices. intros k [?|?%list_elem_of_singleton]%elem_of_app; [by apply N4|by subst k]. }
  set (s2 := set_pool p2 _) in E2. assert (pool s2 = p2) as Es2 by (unfold s2; by destruct L2). rewrite <- app_assoc in H2. cbn [app] in H2. destruct H2 as (R & G1 & G2).
  destruct (Pool.pool_remove_repr p2 _ (idx it) R Hidx) as (p3 & E3 & R3). destruct (Pool.remove_frame _ _ _ _ E3) as (_ & F1 & F2).
  rewrite lookup_middle in E3 by (by rewrite linked_indices). rewrite delete_middle in R3 by (by rewrite linked_indices).
  exists s1, s2, p3. rewrite Es2. split_and!; try done.
  - constructor; [by rewrite linked_items_app|by rewrite fmap_app| |congruence|lia]. rewrite fmap_app. by apply Forall_app.
  - unfold s2, s1. by destruct L1, L2.
  - unfold s2, s1. by destruct L1, L2.
  - unfold s2, s1. by destruct L1, L2.
  - unfold s2, s1. by destruct L1, L2.
  - unfold s2, s1. by destruct L1, L2.
Qed.

Lemma take_sent_spec s L1 it L2 : list_ok U N (samples s) (L1 ++ it :: L2) ->
  exists l d, take_sent s (idx it) = Some (set_deadline d (set_samples l s), Some (with_links (last_index None L1) (first_index L2 None) (smp it))) /\ list_ok U N l (L1 ++ L2).
Proof.
  intros [H Hb]. destruct (core_middle _ _ _ _ _ _ H) as ((I1 & I2 & I3 & _) & Hw & _ & _). unfold take_sent. rewrite (core_get U N s L1 it L2 H). cbn [mbind option_bind].
  cbn [with_links sequence prev next sample_deadline]. rewrite I1. unfold lookup_tree. rewrite (core_lookup U N _ L1 it L2 H). cbn [mbind option_bind]. rewrite bool_decide_true by done. cbn [negb].
  pose proof (lc_pool _ _ _ _ H) as Hp. rewrite (occupied_prev s L1 (it :: L2) Hp), (occupied_next s (L1 ++ [it]) L2) by (by rewrite <- app_assoc). cbn [mbind option_bind negb orb].
  destruct (tree_remove _ _ _ _ H) as (t & E & Ht). rewrite E. cbn [mbind option_bind is_Some]. rewrite bool_decide_true by (by eexists). cbn [negb].
  destruct (unlink_sample_spec (set_lookup t s) L1 it L2 Hp) as (s1 & s2 & p & E1 & E2 & E3 & Hp' & Es & El & Eb & Eh & Et). fold (link_next (set_lookup t s) (last_index None L1) (first_index L2 None)).
  unfold or_leave. rewrite E1. cbn [mbind option_bind]. fold (link_prev s1 (first_index L2 None) (last_index None L1)). rewrite E2. cbn [mbind option_bind]. rewrite E3. cbn [mbind option_bind].
  cbn [with_links bytes]. set (s3 := set_in_flight _ (set_pool p s2)).
  assert (list_ok U N (samples s3) (L1 ++ L2)) as H3.
  { destruct H as [P1 P2 P3 P4 P5 P6 P7]. apply Forall_app in P5 as [Q1 [Q2 Q3]%Forall_cons]. pose proof (total_bound _ _ _ P6) as B. pose proof P6 as (_ & B2 & _)%spans_middle.
    apply spans_app in P6 as (m & S1 & [S2 S3]). split; [constructor; cbn; try done|].
    - by rewrite El.
    - rewrite Eh. cbn. rewrite P3, first_index_app. by destruct L1.
    - rewrite Et. cbn. rewrite P4, !last_index_app. by destruct L2.
    - by apply Forall_app.
    - apply spans_app. exists m. split; [done|]. apply (spans_weaken (hi it) m L2 N N); [done|lia|lia].
    - cbn. unfold in_flight. cbn. rewrite Eb. cbn. rewrite Hb, I3, !total_app. cbn [total]. rewrite total_app in B. cbn [total] in B. unfold saturating_sub.
      pose proof (total_bound _ _ _ S1). pose proof (total_bound _ _ _ S3). pose proof (vlen_nonneg L1). pose proof (vlen_nonneg L2). lia. }
  destruct (invalidate_spec U N s3 _ (sample_deadline (smp it)) (proj1 H3)) as (d & ->). cbn [mbind option_bind]. exists (samples s3), d. split; [|done].
  do 3 f_equal. unfold s3. rewrite Es. done.
Qed.

(** ** Cutting a sample *)

Definition front_payload it (y : Z) : Z := proportional_payload_len (bytes (smp it)) (payload_len (smp it)) (y - lo it).
Definition front it (y : Z) : TcpSentSample := with_span (wr (lo it)) (wr y) (y - lo it) (front_payload it y) (smp it).
Definition back it (y : Z) : TcpSentSample := with_span (wr y) (wr (hi it)) (hi it - y) (saturating_sub (payload_len (smp it)) (front_payload it y)) (smp it).
Definition back_item it (y : Z) : item := mk_item (idx it) y (hi it) (back it y).

Lemma split_pos it y a b : item_ok it -> win U (lo it) -> win U (hi it) -> lo it < y < hi it ->
  split (with_links a b (smp it)) (wr y) = Some (with_links a b (front it y), with_links a b (back it y)).
Proof.
  intros (E1 & E2 & E3 & E4) H1 H2 Hy. unfold split. cbn [with_links sequence end_sequence bytes payload_len]. rewrite E1, E2. unfold seq_ge.
  rewrite (seq_le_win U), (seq_lt_win U) by (done || (unfold win in *; lia)).
  rewrite (proj2 (Z.leb_gt y (lo it))), (proj2 (Z.ltb_lt y (hi it))) by lia. cbn [orb negb].
  assert (distance_to (wr (lo it)) (wr y) = y - lo it) as ->.
  { unfold distance_to, wr, wrap. rewrite <- Zminus_mod. apply Z.mod_small. unfold win in *. lia. }
  unfold front, back, front_payload. rewrite E3. replace (saturating_sub (hi it - lo it) (y - lo it)) with (hi it - y) by (unfold saturating_sub; lia). done.
Qed.

Lemma tree_insert t L1 it L2 : tree_ok U t (L1 ++ L2) -> win U (lo it) -> Forall (fun x => win U (lo x) /\ lo x < lo it) L1 -> Forall (fun x => win U (lo x) /\ lo it < lo x) L2 ->
  vlen (L1 ++ L2) < 2 ^ 31 -> exists t', RbTree.insert seq_cmp t (wr (lo it)) (idx it) = Some (t', None) /\ tree_ok U t' (L1 ++ it :: L2).
Proof.
  intros Ht Hw H1 H2 Hn. assert (dom U (wr (lo it))) as Hd by (by exists (lo it)).
  destruct (rb_insert_spec seq_cmp (dom U) t _ (wr (lo it)) (idx it) Ht Hd) as (t' & E & _ & H'); [unfold vlen in *; rewrite length_fmap; lia|].
  exists t'. rewrite (keys_absent U) in E; [|done|].
  2: { apply Forall_app. split; [eapply Forall_impl; [exact H1|]|eapply Forall_impl; [exact H2|]]; cbn; intros ? [? ?]; split; done || lia. }
  split; [done|]. unfold tree_ok. rewrite fmap_app in *. rewrite insert_in_skip in H' by (by apply (keys_below U)). by rewrite insert_in_above in H' by (by apply (keys_above U)).
Qed.

Lemma core_len l L : list_core U N l L -> vlen L < 2 ^ 31.
Proof. intros [_ _ _ _ _ H1 H2]. pose proof (total_bound _ _ _ H1). lia. Qed.

Lemma front_payload_pos it y : item_ok it -> lo it < y < hi it -> front_payload it y = y - lo it.
Proof.
  intros (_ & _ & E1 & E2) Hy. unfold front_payload, proportional_payload_len. rewrite E1, E2. rewrite !(proj2 (Z.eqb_neq _ 0)) by lia. cbn [orb]. rewrite Z.mul_comm, Z.div_mul by lia. lia.
Qed.
Lemma back_ok it y : item_ok it -> lo it < y < hi it -> item_ok (back_item it y).
Proof. intros Hi Hy. pose proof (front_payload_pos it y Hi Hy) as Ef. destruct Hi as (_ & _ & _ & E2). split_and!; try done. cbn. rewrite Ef, E2. unfold saturating_sub. lia. Qed.

Lemma keep_suffix_spec s L1 it L2 y : list_core U N (samples s) (L1 ++ it :: L2) -> lo it < y < hi it ->
  exists l, keep_suffix s (idx it) (wr y) = Some (set_samples l s, Some (with_links (last_index None L1) (first_index L2 None) (smp it), with_links (last_index None L1) (first_index L2 None) (front it y))) /\
    list_core U N l (L1 ++ back_item it y :: L2) /\ bytes_in_flight l = in_flight s.
Proof.
  intros H Hy. destruct (core_middle _ _ _ _ _ _ H) as (Hi & W1 & W2 & _ & G1 & G2 & _ & _). pose proof Hi as (I1 & I2 & I3 & I4). unfold keep_suffix. rewrite (core_get U N s L1 it L2 H). cbn [mbind option_bind].
  rewrite split_pos by done. cbn [with_links sequence sample_deadline bytes payload_len]. rewrite I1. unfold lookup_tree. rewrite (core_lookup U N _ L1 it L2 H). cbn [mbind option_bind]. rewrite bool_decide_true by done. cbn [negb].
  destruct (tree_remove _ _ _ _ H) as (t & E & Ht). rewrite E. cbn [mbind option_bind]. rewrite bool_decide_true by (by eexists). cbn [negb].
  pose proof H as [P1 P2 P3 P4 P5 P6 P7]. unfold or_leave, sent_sample_mut.
  match goal with |- context [Pool.get_mut _ _ ?f] => destruct (pool_change _ L1 it (back it y) L2 f P1) as (p & Ep & Hp) end.
  { intros a b. unfold back. rewrite <- I2. by destruct it as [? ? ? []]. }
  change (pool (set_lookup t s)) with (sent_samples (samples s)). rewrite Ep. cbn [mbind option_bind].
  pose proof (core_len _ _ H) as Hlen. destruct (tree_insert t L1 (back_item it y) L2 Ht) as (t' & E' & Ht').
  - unfold win in *. cbn. lia.
  - eapply Forall_impl; [exact G1|]. cbn. intros ? [? ?]. split; [done|lia].
  - eapply Forall_impl; [exact G2|]. cbn. intros ? [? ?]. split; [done|lia].
  - unfold vlen in *. rewrite length_app in *. cbn in Hlen. lia.
  - cbn [set_pool set_lookup samples set_samples sample_lookup back_item lo idx] in E' |- *. cbn [back with_span sequence]. rewrite E'. cbn [mbind option_bind]. eexists. split; [done|]. split; [|done].
    constructor; cbn; try done.
    + eapply pool_ext; [exact Hp|]. by rewrite !linked_items_app.
    + rewrite P3, !first_index_app. done.
    + rewrite P4, !last_index_app. done.
    + apply Forall_app in P5 as [? [? ?]%Forall_cons]. apply Forall_app. split; [done|]. constructor; [by apply back_ok|done].
    + apply spans_app in P6 as (m & S1 & [S2 S3]). apply spans_app. exists m. split; [done|]. cbn. split; [lia|done].
Qed.

Lemma take_prefix_spec s L1 it L2 y : list_ok U N (samples s) (L1 ++ it :: L2) -> lo it < y < hi it ->
  exists l d, take_sample_prefix s (idx it) (wr y) = Some (set_deadline d (set_samples l s), Some (with_links (last_index None L1) (first_index L2 None) (front it y))) /\
    list_ok U N l (L1 ++ back_item it y :: L2).
Proof.
  intros [H Hb] Hy. unfold take_sample_prefix. destruct (keep_suffix_spec s L1 it L2 y H Hy) as (l & -> & Hl & Eb). cbn [mbind option_bind].
  set (s1 := set_in_flight _ _). assert (list_ok U N (samples s1) (L1 ++ back_item it y :: L2)) as H1.
  { split; [destruct Hl as [? ? ? ? ? ? ?]; by constructor|]. unfold s1, in_flight. cbn. rewrite Eb. unfold in_flight. rewrite Hb, !total_app. cbn [total back_item lo hi].
    pose proof (lc_spans _ _ _ _ Hl) as (m & S1 & [_ S3])%spans_app. pose proof (total_bound _ _ _ S1). pose proof (total_bound _ _ _ S3). pose proof (vlen_nonneg L1). pose proof (vlen_nonneg L2).
    cbn in *. unfold saturating_sub. lia. }
  destruct (invalidate_spec U N s1 _ (sample_deadline (with_links (last_index None L1) (first_index L2 None) (smp it))) (proj1 H1)) as (d & ->). cbn [mbind option_bind].
  exists (samples s1), d. split; [|done]. done.
Qed.

(** ** Putting a sample in *)

Lemma pool_add p L1 L2 v : pool_ok p (L1 ++ L2) -> vlen (L1 ++ L2) < slots_max ->
  exists p' i, Pool.insert p v = Some (p', i) /\ 0 <= i /\ (i ∉ idx <$> L1 ++ L2) /\
    pool_holds p' (linked None L1 (first_index L2 None) ++ (i, v) :: linked (last_index None L1) L2 None).
Proof.
  intros H Hn. pose proof (po_slots _ _ H) as Hs. destruct (Pool.pool_insert_repr p _ v (po_repr _ _ H)) as (p' & i & E & Hi & Hb & Hr); [right; split; [apply (po_grows _ _ H)|unfold slots_max in *; lia]|].
  destruct (Pool.insert_frame _ _ _ _ E) as (_ & F1 & F2 & _). rewrite linked_items_app in Hi, Hr.
  pose proof (Pool.pool_len_size p _ (po_repr _ _ H)) as El. rewrite map_size_list_to_map in El by (rewrite linked_indices; apply (po_nodup _ _ H)).
  rewrite <- (length_fmap fst), linked_indices, length_fmap in El.
  apply not_elem_of_list_to_map_2 in Hi. rewrite fmap_app, !linked_indices, <- fmap_app in Hi. exists p', i. split; [done|]. split; [lia|]. split; [done|].
  split_and!; [|rewrite F1; apply (po_grows _ _ H)|unfold vlen, slots_max in *; lia].
  rewrite insert_middle in Hr; [done|]. rewrite linked_indices. rewrite fmap_app in Hi. set_solver.
Qed.

Lemma insert_before_spec s L1 it L2 l0 y0 x a b : list_core U N (samples s) (L1 ++ it :: L2) -> item_ok (mk_item 0 l0 y0 x) -> spans U L1 l0 -> U <= l0 < y0 -> y0 <= lo it -> vlen (L1 ++ it :: L2) < slots_max ->
  exists l i, insert_sample_before s (idx it) (with_links a b x) = Some (set_samples l s, Some i) /\ list_core U N l (L1 ++ mk_item i l0 y0 x :: it :: L2) /\ bytes_in_flight l = in_flight s.
Proof.
  intros H Hx Hs1 Hl0 Hy0 Hn. destruct (core_middle _ _ _ _ _ _ H) as (Hi & W1 & W2 & W3 & G1 & _ & G2 & G3). pose proof Hx as (X1 & X2 & X3).
  assert (win U l0) as W0 by (unfold win in *; lia).
  assert (Forall (fun x => win U (lo x) /\ lo x < l0) L1) as G4.
  { apply Forall_forall. intros z Hz. rewrite Forall_forall in G1. destruct (G1 z Hz). pose proof (spans_in _ _ _ z Hs1 Hz). split; [done|lia]. }
  assert (Forall (fun x => win U (lo x) /\ l0 < lo x) (it :: L2)) as G5.
  { constructor; [split; [done|lia]|]. eapply Forall_impl; [exact G2|]. cbn. intros ? [? ?]. split; [done|lia]. }
  pose proof H as [P1 P2 P3 P4 P5 P6 P7]. unfold insert_sample_before. rewrite (core_get U N s L1 it L2 H). cbn [mbind option_bind]. rewrite ?prev_links, ?sequence_links.
  cbn in X1. rewrite X1. unfold lookup_tree at 1. rewrite (rb_contains_key_spec seq_cmp (dom U) _ _ _ P2) by (by exists l0).
  rewrite (keys_absent U); [|done|]. 2: { apply Forall_app. split; [eapply Forall_impl; [exact G4|]|eapply Forall_impl; [exact G5|]]; cbn; intros ? [? ?]; split; done || lia. }
  rewrite bool_decide_false by (by intros [? ?]). cbn [mbind option_bind]. rewrite (occupied_prev s L1 (it :: L2) P1). cbn [mbind option_bind negb].
  rewrite with_links_links. destruct (pool_add _ L1 (it :: L2) (with_links (last_index None L1) (Some (idx it)) x) P1 Hn) as (p & i & E & Hi0 & Hfresh & Hp). cbn [linked first_index] in Hp.
  change (pool s) with (sent_samples (samples s)). rewrite E. cbn [mbind option_bind]. rewrite ?sequence_links, ?X1.
  destruct (tree_insert _ L1 (mk_item i l0 y0 x) (it :: L2) P2 W0 G4 G5 Hn) as (t & Et & Ht). cbn [lo idx] in Et. unfold lookup_tree. cbn [set_pool set_samples samples sample_lookup]. rewrite Et. cbn [mbind option_bind].
  rewrite bool_decide_false by (by intros [? ?]). set (s1 := set_lookup t (set_pool p s)).
  destruct (nodup_middle _ _ _ (po_nodup _ _ P1)) as (N1 & N2 & N3 & N4). pose proof (po_idx _ _ P1) as Hpi. rewrite fmap_app in Hpi, N3, Hfresh. apply Forall_app in Hpi as [Hp1 Hp2]. pose proof N3 as (N5 & _ & N6)%NoDup_app.
  unfold or_leave. fold (link_next s1 (last_index None L1) (Some i)).
  destruct (link_next_spec s1 L1 _ (Some i) _ Hp N5 Hp1) as (p1 & E1 & H1). rewrite E1. cbn [mbind option_bind]. set (s2 := set_pool p1 _).
  rewrite cons_middle, app_assoc in H1. change ((idx it, _) :: linked (Some (idx it)) L2 None) with (linked (last_index None L1) (it :: L2) None) in H1.
  assert (pool s2 = p1) as Es2 by (unfold s2; by destruct L1). rewrite <- Es2 in H1. change (sent_sample_mut s2 (idx it) (with_prev (Some i))) with (link_prev s2 (first_index (it :: L2) None) (Some i)).
  destruct (link_prev_spec s2 _ _ (Some i) (it :: L2) H1) as (p2 & E2 & H2); [|done|].
  { rewrite fmap_app, linked_indices. intros k [Hk|Hk%list_elem_of_singleton]%elem_of_app; [|subst k; set_solver]. cbn. rewrite not_elem_of_cons. split; [by intros ->|by apply N4]. }
  rewrite E2. cbn [mbind option_bind]. exists (samples (set_pool p2 s2)), i. rewrite <- app_assoc in H2. cbn [app] in H2. split; [unfold s2, s1; by destruct L1|]. split; [|unfold s2, s1; by destruct L1].
  assert (sample_lookup (samples s2) = t /\ sample_head (samples s2) = first_index (L1 ++ [mk_item i l0 y0 x]) None /\ sample_tail (samples s2) = last_index None (L1 ++ it :: L2)) as (Q1 & Q2 & Q3).
  { unfold s2, s1. destruct L1; cbn; rewrite ?P3, ?P4; done. }
  clearbody s2. constructor; cbn; try done.
  - apply pool_ok_holds. rewrite linked_items_app. cbn [linked first_index smp idx]. split; [done|]. rewrite fmap_app. cbn [fmap list_fmap idx].
    pose proof (po_nodup _ _ P1) as Hnd. rewrite fmap_app in Hnd. apply NoDup_app in Hnd as (D1 & D2 & D3). cbn in D2, D3, Hp2. split.
    + apply NoDup_app. split_and!; [done| |by apply NoDup_cons; set_solver]. intros k Hk. rewrite not_elem_of_cons. split; [intros ->; set_solver|by apply D2].
    + apply Forall_app. split; [done|]. by constructor.
  - by rewrite Q1.
  - rewrite Q2, !first_index_app. done.
  - rewrite Q3, !last_index_app. done.
  - apply Forall_app in P5 as [? ?]. apply Forall_app. split; [done|]. by constructor.
  - apply spans_app in P6 as (m & S1 & [S2 S3]). apply spans_app. exists l0. split; [done|]. cbn. split_and!; lia || done.
Qed.

Lemma deadline_same d x : sample_deadline x = d -> with_deadline d x = x.
Proof. intros <-. by destruct x. Qed.

Lemma split_sample_spec s L1 it L2 y : list_ok U N (samples s) (L1 ++ it :: L2) -> lo it < y < hi it ->
  exists l d i, split_sample s (idx it) (wr y) = Some (set_deadline d (set_samples l s), Some tt) /\ list_ok U N l (L1 ++ mk_item i (lo it) y (front it y) :: back_item it y :: L2).
Proof.
  intros [H Hb] Hy. destruct (core_middle _ _ _ _ _ _ H) as ((I1 & I2 & I3 & I4) & W1 & W2 & _). unfold split_sample. destruct (keep_suffix_spec s L1 it L2 y H Hy) as (l & -> & Hl & Eb). cbn [mbind option_bind].
  pose proof (lc_spans _ _ _ _ H) as (m & S1 & [S2 S3])%spans_app.
  destruct (insert_before_spec (set_samples l s) L1 (back_item it y) L2 (lo it) y (front it y) (last_index None L1) (first_index L2 None) Hl) as (l' & i & E & Hl' & Eb'); [split_and!; [done..|exact (front_payload_pos it y (conj I1 (conj I2 (conj I3 I4))) Hy)]|by apply (spans_weaken U U L1 m (lo it)); lia || done|pose proof (spans_le _ _ _ S1); lia|cbn; lia| |].
  { pose proof (core_len _ _ Hl). unfold slots_max. lia. }
  cbn [back_item idx] in E. rewrite E. cbn [mbind option_bind]. set (s1 := set_samples l' _) in *.
  assert (bytes_in_flight l' = total (L1 ++ mk_item i (lo it) y (front it y) :: back_item it y :: L2)) as Eb1.
  { rewrite Eb'. unfold in_flight. cbn. rewrite Eb. unfold in_flight. rewrite Hb, !total_app. cbn. lia. }
  assert (exists d, (Some (s1, Some tt) : option (TcpRecoveryState * option unit)) = Some (set_deadline d (set_samples l' s), Some tt)) as (d0 & Ed) by (exists (rack_deadline (rack s)); by destruct s as [? ? ? ? ? []]).
  cbn [with_links sample_deadline]. destruct (sample_deadline (smp it)) as [dl|] eqn:Edl; [|by exists l', d0, i].
  destruct (sample_is_lost _); [by exists l', d0, i|]. unfold or_leave.
  destruct (core_change U N s1 L1 (mk_item i (lo it) y (front it y)) (front it y) (back_item it y :: L2) (with_deadline (Some dl)) Hl') as (p & Ep & Hp).
  { intros a b. by apply deadline_same. }
  { done. }
  cbn [idx] in Ep. rewrite Ep. cbn [mbind option_bind]. unfold rack_note_deadline.
  eexists (samples (set_pool p s1)), _, i. split; [done|]. split; done.
Qed.

Lemma record_sent_spec s L a n number flight at_ limited : list_ok U N (samples s) L -> N <= a -> 0 < n -> a + n < U + 2 ^ 31 ->
  exists l r t i x, record_sent s number (wr a) (wr (a + n)) n n flight at_ limited = Some (set_tlp t (set_snd_nxt (wr (a + n)) (set_samples l (set_rate r s)))) /\
    list_ok U (a + n) l (L ++ [mk_item i a (a + n) x]) /\ delivered r = delivered (rate s).
Proof.
  intros [H Hb] Ha Hn Hw. pose proof H as [P1 P2 P3 P4 P5 P6 P7]. unfold record_sent. rewrite (proj2 (Z.eqb_neq n 0)) by lia.
  set (r := if flight =? 0 then _ else _). assert (delivered r = delivered (rate s)) as Er by (unfold r; by destruct (flight =? 0)). clearbody r.
  set (s0 := set_rate r s). set (x := sent_sample_ _ _ _ _ _ _ _ _ _ _ _ _ _ _ _ _ _ _). cbn [set_rate samples] in *. pose proof (core_len _ _ H) as Hlen. pose proof (total_bound _ _ _ P6) as B.
  rewrite <- (app_nil_r L) in P1. destruct (pool_add _ L [] x P1) as (p & i & E & Hi & Hf & Hp); [rewrite app_nil_r; unfold slots_max; lia|]. rewrite app_nil_r in Hf, P1. cbn [linked first_index] in Hp.
  change (pool s0) with (sent_samples (samples s)). rewrite E. cbn [mbind option_bind].
  assert (spans U L N) as Hsp by done. pose proof (spans_le _ _ _ P6) as HUN.
  destruct (tree_insert (sample_lookup (samples s)) L (mk_item i a (a + n) x) []) as (t & Et & Ht).
  { by rewrite app_nil_r. }
  { unfold win. cbn. lia. }
  { apply Forall_forall. intros z Hz. pose proof (spans_in _ _ _ z P6 Hz). unfold win. cbn. lia. }
  { done. }
  { rewrite app_nil_r. lia. }
  cbn [lo idx] in Et. change (lookup_tree (set_pool p s0)) with (sample_lookup (samples s)). rewrite Et. cbn [mbind option_bind]. set (s1 := set_lookup t (set_pool p s0)).
  pose proof (po_nodup _ _ P1) as Hnd. pose proof (po_idx _ _ P1) as Hix.
  destruct (link_next_spec s1 L None (Some i) _ Hp Hnd Hix) as (p1 & E1 & H1).
  change (sample_tail (samples s0)) with (sample_tail (samples s)).
  assert ((match sample_tail (samples s) with Some prev_index => '(s, _) ← sent_sample_mut s1 prev_index (with_next (Some i)); Some s | None => Some (set_head (Some i) s1) end) =
    Some (set_pool p1 (match L with [] => set_head (Some i) s1 | _ => s1 end))) as ->.
  { rewrite P4. unfold link_next in E1. destruct (last_index None L) as [k|]; [by rewrite E1|]. exact (f_equal (option_map fst) E1). }
  cbn [mbind option_bind]. set (s2 := set_pool p1 _).
  assert (x = with_links (last_index None L) None x) as Ex by (rewrite <- P4; done).
  assert (sample_lookup (samples s2) = t /\ sample_head (samples s2) = first_index (L ++ [mk_item i a (a + n) x]) None /\ in_flight s2 = in_flight s /\ pool s2 = p1 /\ s2 = set_samples (samples s2) s0) as (Q1 & Q2 & Q3 & Q4 & Q5).
  { unfold s2, s1, s0. by destruct L. }
  eexists (samples (set_in_flight (sat32 (in_flight s2) n) (set_tail (Some i) s2))), r, _, i, x. split; [rewrite Q5; done|]. split; [|done].
  assert (total (L ++ [mk_item i a (a + n) x]) = total L + n) as Etot by (rewrite total_app; cbn; lia).
  assert (sat32 (in_flight s2) n = total L + n) as Esat by (rewrite Q3; unfold in_flight; rewrite Hb; unfold sat32, saturating_add; lia).
  assert (item_ok (mk_item i a (a + n) x)) as Hx by (split_and!; [done|done|cbn; lia|cbn; lia]).
  clearbody s2 x. split; [constructor; cbn; try done|cbn; by rewrite Esat].
  - rewrite <- Q4 in H1. apply pool_ok_holds. rewrite linked_items_app. cbn [linked first_index smp idx]. rewrite <- Ex. split; [done|]. rewrite !fmap_app. cbn [fmap list_fmap idx]. split.
    + apply NoDup_app. split_and!; [done| |apply NoDup_singleton]. set_solver.
    + apply Forall_app. split; [done|]. by constructor.
  - by rewrite Q1.
  - by rewrite last_index_snoc.
  - apply Forall_app. split; [done|]. by constructor.
  - apply spans_app. exists N. split; [done|]. cbn. lia.
Qed.

End change.

End TcpSamples.
