(* ===== verification/TcpRecoveryOps.v ===== *)
(** * What the operations of loss recovery do to the outstanding samples

    Timers, retransmissions, probes and loss marks change flags and counters
    and leave the spans of the samples and of the holes alone ([keeps]).  A
    cumulative acknowledgment takes out what lies below it, a selective one what
    lies inside its blocks.  No operation panics. *)

From S2P Require Import Prelude Ranges InfraPool InfraRbTree InfraRbOps TcpProtocol TcpOptions TcpSack TcpSackProofs TcpRecovery TcpSamples.

Module TcpRecoveryOps.
Import Ranges TcpProtocol TcpOptions TcpSackProofs RbOps TcpRecovery TcpSamples.

Definition hole_entries : Type := list (Z * TcpScoreboardHole).
Implicit Types (it : item) (L : list item) (s : TcpRecoveryState) (es : hole_entries) (t : @RbTree.t Z TcpScoreboardHole).

Definition same_shape L L' : Prop := Forall2 (fun a b => idx a = idx b /\ lo a = lo b /\ hi a = hi b) L L'.
Definition hole_shape es es' : Prop := Forall2 (fun e f => e.1 = f.1 /\ hole_end e.2 = hole_end f.2) es es'.

#[export] Instance same_shape_refl : Reflexive same_shape.
Proof. intros L. induction L; by constructor. Qed.
#[export] Instance same_shape_trans : Transitive same_shape.
Proof. intros L1 L2 L3 H. revert L3. induction H as [|a b L1 L2 (? & ? & ?) _ IH]; intros L3 H'; [done|]. inversion H' as [|? c ? ? (? & ? & ?) H'']; subst. constructor; [split_and!; congruence|by apply IH]. Qed.
#[export] Instance hole_shape_refl : Reflexive hole_shape.
Proof. intros es. induction es; by constructor. Qed.
#[export] Instance hole_shape_trans : Transitive hole_shape.
Proof. intros e1 e2 e3 H. revert e3. induction H as [|a b e1 e2 [? ?] _ IH]; intros e3 H'; [done|]. inversion H' as [|? c ? ? [? ?] H'']; subst. constructor; [split; congruence|by apply IH]. Qed.

Lemma shape_outstanding L L' y : same_shape L L' -> outstanding L y <-> outstanding L' y.
Proof. induction 1 as [|a b L L' (E1 & E2 & E3) _ IH]; [done|]. rewrite !outstanding_cons, IH, E2, E3. done. Qed.
Lemma shape_total L L' : same_shape L L' -> total L = total L'.
Proof. induction 1 as [|a b L L' (E1 & E2 & E3) _ IH]; [done|]. cbn. lia. Qed.

Record sane (U N : Z) s L es : Prop := mk_sane {
  sn_list : list_ok U N (samples s) L;
  sn_holes : entries_of seq_cmp (dom U) (holes (scoreboard s)) es;
  sn_few : vlen es < 2 ^ 31
}.

(** The rest of what matters. *)
Record same_scalars s s' : Prop := mk_same {
  ss_delivered : delivered (rate s') = delivered (rate s);
  ss_nxt : snd_nxt s' = snd_nxt s;
  ss_floor : ack_floor s' = ack_floor s;
  ss_rack : rack_enabled s' = rack_enabled s;
  ss_high : high_sacked (scoreboard s') = high_sacked (scoreboard s)
}.
#[export] Instance same_scalars_refl : Reflexive same_scalars.
Proof. by constructor. Qed.
#[export] Instance same_scalars_trans : Transitive same_scalars.
Proof. intros a b c [? ? ? ? ?] [? ? ? ? ?]. constructor; congruence. Qed.

Definition keeps (U N : Z) s L es s' : Prop :=
  exists L' es', sane U N s' L' es' /\ same_shape L L' /\ hole_shape es es' /\ same_scalars s s'.

Section keeps.
Context (U N : Z).

Lemma keeps_same s L es s' : sane U N s L es -> samples s' = samples s -> holes (scoreboard s') = holes (scoreboard s) -> same_scalars s s' -> keeps U N s L es s'.
Proof. intros [H1 H2 H3] E1 E2 Hs. exists L, es. split_and!; try done. constructor; [by rewrite E1|by rewrite E2|done]. Qed.
Lemma keeps_refl s L es : sane U N s L es -> keeps U N s L es s.
Proof. intros H. by apply keeps_same. Qed.
Lemma keeps_then s L es s1 s2 : keeps U N s L es s1 -> (forall L1 es1, sane U N s1 L1 es1 -> keeps U N s1 L1 es1 s2) -> keeps U N s L es s2.
Proof.
  intros (L1 & es1 & H1 & A1 & B1 & C1) H. destruct (H L1 es1 H1) as (L2 & es2 & H2 & A2 & B2 & C2). exists L2, es2. split_and!; [done|by etrans..].
Qed.

(** A computation that ends in such a state. *)
Definition safe s L es (m : option TcpRecoveryState) : Prop := exists s', m = Some s' /\ keeps U N s L es s'.

Lemma safe_some s L es s' : keeps U N s L es s' -> safe s L es (Some s').
Proof. intros H. by exists s'. Qed.
Lemma safe_then s L es m k : safe s L es m -> (forall s1 L1 es1, m = Some s1 -> sane U N s1 L1 es1 -> same_scalars s s1 -> safe s1 L1 es1 (k s1)) -> safe s L es (m ≫= k).
Proof.
  intros (s1 & -> & L1 & es1 & Hs1 & A & B & C) H. cbn. destruct (H s1 L1 es1 eq_refl Hs1 C) as (s2 & E & L2 & es2 & Hs2 & A' & B' & C'). exists s2. split; [done|].
  exists L2, es2. split_and!; [done|by etrans..].
Qed.

Lemma sane_core s L es : sane U N s L es -> list_core U N (samples s) L.
Proof. by intros [[H _] _ _]. Qed.

Lemma refresh_safe s L es : sane U N s L es -> safe s L es (refresh_lost_bytes s).
Proof. intros H. destruct (refresh_spec U N s L (sane_core _ _ _ H)) as (n & ->). apply safe_some. by apply keeps_same. Qed.
Lemma rescan_safe s L es : sane U N s L es -> safe s L es (rack_rescan_earliest s).
Proof. intros H. destruct (rescan_spec U N s L (sane_core _ _ _ H)) as (d & ->). apply safe_some. by apply keeps_same. Qed.
Lemma invalidate_safe s L es c : sane U N s L es -> safe s L es (rack_invalidate_cleared s c).
Proof. intros H. destruct (invalidate_spec U N s L c (sane_core _ _ _ H)) as (d & ->). apply safe_some. by apply keeps_same. Qed.

(** ** Changing flags *)

(** [it'] is [it] with other flags. *)
Definition reflagged it it' : Prop := idx it' = idx it /\ lo it' = lo it /\ hi it' = hi it.

Lemma mut_keeps s L1 it L2 es f x : sane U N s (L1 ++ it :: L2) es -> (forall a b, f (with_links a b (smp it)) = with_links a b x) -> same_span x (smp it) ->
  exists s' it', sent_sample_mut s (idx it) f = Some (s', true) /\ reflagged it it' /\ sane U N s' (L1 ++ it' :: L2) es /\ same_scalars s s' /\ scoreboard s' = scoreboard s.
Proof.
  intros [[H Hb] H2 H3] Hf Hx. destruct (core_change U N s L1 it x L2 f H Hf Hx) as (p & E & H'). exists (set_pool p s), (mk_item (idx it) (lo it) (hi it) x). split_and!; try done.
  constructor; [|done..]. split; [done|]. cbn. rewrite Hb, !total_app. done.
Qed.

Lemma reflag_shape L1 it it' L2 : reflagged it it' -> same_shape (L1 ++ it :: L2) (L1 ++ it' :: L2).
Proof. intros (? & ? & ?). apply Forall2_app; [reflexivity|]. constructor; [split_and!; congruence|reflexivity]. Qed.

(** A loop whose rounds change nothing but flags. *)
Lemma walk_keeps {A : Type} (st : A -> TcpRecoveryState) missing body es n a L1 L2 :
  (forall a L1 it L2, sane U N (st a) (L1 ++ it :: L2) es -> exists a' (go : bool) it', body (idx it) (with_links (last_index None L1) (first_index L2 None) (smp it)) a = Some (a', go) /\
     reflagged it it' /\ sane U N (st a') (L1 ++ it' :: L2) es /\ same_scalars (st a) (st a')) ->
  sane U N (st a) (L1 ++ L2) es -> (length L2 <= n)%nat ->
  exists a', walk (fun a => pool (st a)) missing body n (first_index L2 None) a = Some a' /\ keeps U N (st a) (L1 ++ L2) es (st a').
Proof.
  intros Hbody. revert n a L1. induction L2 as [|it L2 IH]; intros n a L1 Hs Hn.
  - exists a. split; [by destruct n|]. by apply keeps_refl.
  - destruct n as [|n]; [cbn in Hn; lia|]. cbn -[with_links]. change (Pool.get (pool (st a)) (idx it)) with (sent_sample (st a) (idx it)).
    rewrite (core_get U N (st a) L1 it L2 (sane_core _ _ _ Hs)). cbn [mbind option_bind]. destruct (Hbody a L1 it L2 Hs) as (a1 & go & it' & -> & Hr & Hs1 & Hc1). cbn [mbind option_bind].
    assert (same_shape (L1 ++ it :: L2) (L1 ++ it' :: L2)) as Hsh by (by apply reflag_shape).
    destruct go; [|exists a1; split; [done|]; exists (L1 ++ it' :: L2), es; by split_and!].
    change (next (with_links _ _ (smp it))) with (first_index L2 None). rewrite cons_middle, app_assoc in Hs1. destruct (IH n a1 (L1 ++ [it']) Hs1 ltac:(cbn in Hn; lia)) as (a2 & E & L' & es' & H' & A' & B' & C').
    exists a2. split; [done|]. rewrite <- app_assoc in A'. exists L', es'. split_and!; [done|by etrans|done|by etrans].
Qed.

Lemma sane_fuel s L1 L2 es : sane U N s (L1 ++ L2) es -> (length L2 <= fuel s)%nat.
Proof. intros H. pose proof (pool_fuel _ _ (lc_pool _ _ _ _ (sane_core _ _ _ H))) as Hf. rewrite length_app in Hf. unfold fuel, pool. lia. Qed.
Lemma sane_head s L es : sane U N s L es -> sample_head (samples s) = first_index L None.
Proof. intros H. apply (lc_head _ _ _ _ (sane_core _ _ _ H)). Qed.

(** A function that only changes flags. *)
Definition flag_fn (f : TcpSentSample -> TcpSentSample) : Prop := (forall a b x, f (with_links a b x) = with_links a b (f x)) /\ forall x, same_span (f x) x.

Lemma flag_keeps s L1 it L2 es f : sane U N s (L1 ++ it :: L2) es -> flag_fn f ->
  exists s' it', sent_sample_mut s (idx it) f = Some (s', true) /\ reflagged it it' /\ sane U N s' (L1 ++ it' :: L2) es /\ same_scalars s s' /\ scoreboard s' = scoreboard s.
Proof. intros H [Hf Hx]. by apply (mut_keeps s L1 it L2 es f (f (smp it))). Qed.

Lemma reflagged_refl it : reflagged it it.
Proof. done. Qed.

(** The list around a position. *)
Lemma split_at a L b y : spans a L b -> exists L1 L2, L = L1 ++ L2 /\ (forall it, it ∈ L1 -> hi it <= y) /\ match L2 with [] => True | it :: _ => y < hi it end.
Proof.
  revert a. induction L as [|it L IH]; intros a; cbn.
  - intros _. exists [], []. split_and!; try done. by intros it ?%not_elem_of_nil.
  - intros [H1 H2]. destruct (Z.le_gt_cases (hi it) y).
    + destruct (IH (hi it) H2) as (L1 & L2 & -> & A & B). exists (it :: L1), L2. split_and!; try done. intros x [->|?]%elem_of_cons; auto.
    + exists [], (it :: L). split_and!; try done. by intros x ?%not_elem_of_nil.
Qed.

Lemma mark_samples_safe s L es y b : sane U N s L es -> win U y -> safe s L es (mark_samples_in_range_lost s (wr y) b).
Proof.
  intros H Hy. unfold mark_samples_in_range_lost. destruct (seq_le b (wr y)); [by apply safe_some, keeps_refl|].
  destruct (split_at _ _ _ y (lc_spans _ _ _ _ (sane_core _ _ _ H))) as (L1 & L2 & -> & A & B).
  rewrite (at_or_after_spec U N s L1 L2 y (sane_core _ _ _ H) Hy A B). cbn [mbind option_bind]. unfold walk_state.
  eapply (walk_keeps (fun s => s)); [|exact H|by eapply sane_fuel].
  intros s1 M1 it M2 H1. destruct (seq_ge _ b); [by exists s1, false, it|]. destruct (_ && _); [|by exists s1, true, it].
  destruct (flag_keeps s1 M1 it M2 es (fun current => with_lost (sample_deadline current) current) H1 ltac:(done)) as (s2 & it' & E & ? & ? & ? & _). by exists s2, true, it'.
Qed.

(** ** The holes *)

Lemma entries_split (t : @RbTree.t Z TcpScoreboardHole) e1 k v e2 : entries_of seq_cmp (dom U) t (e1 ++ (k, v) :: e2) ->
  dom U k /\ below seq_cmp k e1 /\ above seq_cmp k e2.
Proof. intros (a & q & h & _ & _ & _ & Hs & Hd). by apply (split_found seq_cmp (dom U) k v). Qed.

Lemma holes_get t e1 k v e2 : entries_of seq_cmp (dom U) t (e1 ++ (k, v) :: e2) -> RbTree.get seq_cmp t k = Some (Some v).
Proof.
  intros H. destruct (entries_split _ _ _ _ _ H) as (Hk & Hb & _). rewrite (rb_get_spec seq_cmp (dom U) _ _ _ H Hk), lookup_in_skip by done. cbn. by rewrite (cmp_refl seq_cmp (dom U)).
Qed.
Lemma below_filter k e1 : below seq_cmp k e1 -> filter (fun e : Z * TcpScoreboardHole => seq_cmp k e.1 = Gt) e1 = e1 /\ filter (fun e : Z * TcpScoreboardHole => seq_cmp k e.1 = Lt) e1 = [].
Proof. induction 1 as [|e l He _ [IH1 IH2]]; [done|]. rewrite filter_cons_True, filter_cons_False by (done || by rewrite He). split; congruence. Qed.
Lemma above_filter k e2 : above seq_cmp k e2 -> filter (fun e : Z * TcpScoreboardHole => seq_cmp k e.1 = Lt) e2 = e2 /\ filter (fun e : Z * TcpScoreboardHole => seq_cmp k e.1 = Gt) e2 = [].
Proof. induction 1 as [|e l He _ [IH1 IH2]]; [done|]. rewrite filter_cons_True, filter_cons_False by (done || by rewrite He). split; congruence. Qed.
Lemma holes_around t e1 k v e2 : entries_of seq_cmp (dom U) t (e1 ++ (k, v) :: e2) ->
  RbTree.predecessor seq_cmp t k = Some (list.last e1) /\ RbTree.successor seq_cmp t k = Some (head e2).
Proof.
  intros H. destruct (entries_split _ _ _ _ _ H) as (Hk & [B1 B2]%below_filter & [A1 A2]%above_filter).
  rewrite (rb_predecessor_spec seq_cmp (dom U) _ _ _ H Hk), (rb_successor_spec seq_cmp (dom U) _ _ _ H Hk). unfold less_in, greater_in. rewrite !filter_app.
  rewrite !(filter_cons_False _ (k, v)) by (cbn; by rewrite (cmp_refl seq_cmp (dom U))). by rewrite A1, A2, B1, B2, app_nil_r.
Qed.
Lemma holes_mut t e1 k v e2 f : entries_of seq_cmp (dom U) t (e1 ++ (k, v) :: e2) ->
  exists t', RbTree.get_mut seq_cmp t k f = Some (t', true) /\ entries_of seq_cmp (dom U) t' (e1 ++ (k, f v) :: e2).
Proof.
  intros H. destruct (entries_split _ _ _ _ _ H) as (Hk & Hb & _). destruct (rb_get_mut_spec seq_cmp (dom U) _ _ k f H Hk) as (t' & E & _ & H'). exists t'.
  rewrite lookup_in_skip in E by done. cbn [lookup_in] in E. rewrite (cmp_refl seq_cmp (dom U)) in E by done. rewrite update_in_skip in H' by done. cbn [update_in] in H'. rewrite (cmp_refl seq_cmp (dom U)) in H' by done.
  by rewrite E.
Qed.

Lemma shape_last es es' : hole_shape es es' -> option_map fst (list.last es) = option_map fst (list.last es').
Proof.
  intros H. destruct es as [|e es _] using rev_ind; [by inversion H|]. apply Forall2_app_inv_l in H as (f1 & f2 & _ & H2 & ->). inversion H2 as [|? f ? ? [E _] Hn]; subst. inversion Hn; subst.
  rewrite !last_snoc. cbn. by rewrite E.
Qed.

(** A round of the loss pass: the hole gets its flag, its samples theirs. *)
Definition loss_round (mark : bool) s (t : @RbTree.t Z TcpScoreboardHole) (start end_ : Z) : option TcpRecoveryState :=
  let s := set_board (set_holes t (scoreboard s)) s in
  if mark then mark_samples_in_range_lost s start end_ else Some s.
Lemma loss_round_safe mark s L e1 k v e2 : sane U N s L (e1 ++ (k, v) :: e2) ->
  exists t, RbTree.get_mut seq_cmp (holes (scoreboard s)) k (fun x => hole_ (hole_end x) mark) = Some (t, true) /\ safe s L (e1 ++ (k, v) :: e2) (loss_round mark s t k (hole_end v)).
Proof.
  intros H. pose proof (sn_holes _ _ _ _ _ H) as He. destruct (holes_mut _ e1 k v e2 (fun x => hole_ (hole_end x) mark) He) as (t & -> & Ht). exists t. split; [done|].
  unfold loss_round. set (s1 := set_board _ s). assert (sane U N s1 L (e1 ++ (k, hole_ (hole_end v) mark) :: e2)) as H1.
  { destruct H as [G1 G2 G3]. constructor; try done. unfold vlen in *. rewrite length_app in *. done. }
  assert (keeps U N s L (e1 ++ (k, v) :: e2) s1) as K1.
  { exists L, (e1 ++ (k, hole_ (hole_end v) mark) :: e2). split_and!; [done|done| |done]. apply Forall2_app; [apply hole_shape_refl|]. constructor; [done|apply hole_shape_refl]. }
  destruct mark; [|by apply safe_some]. destruct (entries_split _ _ _ _ _ He) as ((y & Hy & ->) & _).
  destruct (mark_samples_safe s1 L _ y (hole_end v) H1 Hy) as (s2 & -> & K2). apply safe_some. destruct K2 as (L2 & es2 & H2 & A2 & B2 & C2). exists L2, es2. split_and!; [done|done| |etrans; [|exact C2]; by constructor].
  etrans; [|exact B2]. apply Forall2_app; [apply hole_shape_refl|]. constructor; [done|apply hole_shape_refl].
Qed.

Lemma loss_loop_safe m : forall e1 n limit threshold s L e2 sa ba hs, length e1 = m -> sane U N s L (e1 ++ e2) -> (m <= n)%nat ->
  safe s L (e1 ++ e2) (loss_loop n limit threshold s (option_map fst (list.last e1)) sa ba hs).
Proof.
  induction m as [|m IH]; intros e1 n limit threshold s L e2 sa ba hs Em H Hn.
  - apply nil_length_inv in Em as ->. destruct n; by apply safe_some, keeps_refl.
  - destruct e1 as [|[k v] e1 _] using rev_ind; [done|]. rewrite length_app in Em. cbn in Em. rewrite last_snoc. destruct n as [|n]; [lia|]. rewrite <- app_assoc in H |- *. cbn [app] in H |- *. cbn [option_map fst loss_loop].
    pose proof (sn_holes _ _ _ _ _ H) as He. rewrite (proj1 (holes_around _ _ _ _ _ He)). cbn [mbind option_bind]. rewrite (holes_get _ _ _ _ _ He). cbn [mbind option_bind].
    set (mark := (limit <=? ba) || (threshold <? sa)). destruct (loss_round_safe mark s L e1 k v e2 H) as (t & -> & Sr). cbn [mbind option_bind]. fold (loss_round mark s t k (hole_end v)).
    destruct Sr as (s2 & -> & L2 & es2 & H2 & A2 & B2 & C2). cbn [mbind option_bind].
    apply Forall2_app_inv_l in B2 as (f1 & f2 & Hf1 & Hf2 & ->). rewrite (shape_last _ _ Hf1). pose proof (Forall2_length _ _ _ Hf1) as El.
    assert (forall hs' sa' ba', safe s L (e1 ++ (k, v) :: e2) (loss_loop n limit threshold s2 (option_map fst (list.last f1)) sa' ba' hs')) as Hgo; [|destruct hs; apply Hgo].
    intros hs' sa' ba'. destruct (IH f1 n limit threshold s2 L2 f2 sa' ba' hs' ltac:(lia) H2 ltac:(lia)) as (s3 & -> & L3 & es3 & H3 & A3 & B3 & C3).
    apply safe_some. exists L3, es3. split_and!; [done|by etrans| |by etrans]. etrans; [|exact B3]. by apply Forall2_app.
Qed.

Lemma tree_fuel t es : entries_of seq_cmp (dom U) t es -> (length es <= RbTree.fuel t)%nat.
Proof.
  intros H. pose proof (entries_len seq_cmp (dom U) t es H) as (El & _). unfold RbTree.fuel. unfold Pool.len, saturating_sub, vlen in El. lia.
Qed.

Lemma update_loss_safe s L es mds : sane U N s L es -> safe s L es (update_scoreboard_loss s mds).
Proof.
  intros H. unfold update_scoreboard_loss. pose proof (sn_holes _ _ _ _ _ H) as He. rewrite (rb_last_spec seq_cmp (dom U) _ _ He). cbn [mbind option_bind].
  eapply safe_then; [|intros; by apply refresh_safe]. pose proof (fun n l m sa ba hs => loss_loop_safe (length es) es n l m s L [] sa ba hs eq_refl) as G. rewrite app_nil_r in G. by apply G, tree_fuel.
Qed.
Lemma refresh_loss_safe s L es mds : sane U N s L es -> safe s L es (refresh_loss s mds).
Proof.
  intros H. unfold refresh_loss. eapply safe_then; [|intros; by apply rescan_safe]. destruct (rack_enabled s); [by apply refresh_safe|by apply update_loss_safe].
Qed.

Lemma missing_spec t e2 : forall e1 n x, entries_of seq_cmp (dom U) t (e1 ++ e2) -> (length e2 <= n)%nat -> exists y, missing_loop n t (option_map fst (head e2)) x = Some y.
Proof.
  induction e2 as [|[k v] e2 IH]; intros e1 n x H Hn; [exists x; by destruct n|]. destruct n as [|n]; [cbn in Hn; lia|]. cbn [head option_map fst missing_loop].
  rewrite (holes_get _ _ _ _ _ H). cbn [mbind option_bind]. rewrite (proj2 (holes_around _ _ _ _ _ H)). cbn [mbind option_bind].
  apply (IH (e1 ++ [(k, v)])); [by rewrite <- app_assoc|cbn in Hn; lia].
Qed.
Lemma sacked_bytes_total s L es : sane U N s L es -> exists n, sacked_bytes s = Some n.
Proof.
  intros H. unfold sacked_bytes. pose proof (sn_holes _ _ _ _ _ H) as He. rewrite (rb_first_spec seq_cmp (dom U) _ _ He). cbn [mbind option_bind].
  destruct (missing_spec _ es [] (RbTree.fuel (holes (scoreboard s))) 0 He (tree_fuel _ _ He)) as (y & ->). by eexists.
Qed.
Lemma first_gap_total s L es : sane U N s L es -> exists n, first_gap s = Some n.
Proof. intros H. unfold first_gap. rewrite (rb_first_spec seq_cmp (dom U) _ _ (sn_holes _ _ _ _ _ H)). by eexists. Qed.

(** ** Retransmissions, probes and timers *)

Lemma queue_head_safe s L es : sane U N s L es -> safe s L es (queue_recovery_head s).
Proof.
  intros H. unfold queue_recovery_head. rewrite (sane_head _ _ _ H). destruct L as [|it L]; [by apply safe_some, keeps_refl|]. cbn [first_index].
  rewrite (core_get U N s [] it L (sane_core _ _ _ H)). cbn [mbind option_bind]. destruct (_ || _); [by apply safe_some, keeps_refl|].
  destruct (flag_keeps s [] it L es (with_lost None) H ltac:(done)) as (s1 & it' & -> & Hr & H1 & Hc & _). cbn [mbind option_bind negb].
  assert (safe s1 (it' :: L) es (s' ← refresh_lost_bytes s1; rack_rescan_earliest s')) as (s2 & -> & L2 & es2 & H2 & A2 & B2 & C2).
  { eapply safe_then; [by apply refresh_safe|]. intros. by apply rescan_safe. }
  apply safe_some. exists L2, es2. split_and!; [done| |done|by etrans]. etrans; [|exact A2]. by apply (reflag_shape [] it it' L).
Qed.

Lemma mark_rack_safe s L es right at_ window mds : sane U N s L es -> safe s L es (mark_rack_candidates s right at_ window mds).
Proof.
  intros H. unfold mark_rack_candidates. destruct (rack_reference_sent_at (rack s)) as [r|]; [|by apply safe_some, keeps_refl]. destruct (rack_rtt (rack s)) as [rtt|]; [|by apply safe_some, keeps_refl].
  destruct (sacked_bytes_total s L es H) as (n & ->). cbn [mbind option_bind]. rewrite (sane_head _ _ _ H). unfold walk_state.
  eapply (walk_keeps (fun s => s) Some _ es _ s [] L); [|exact H|by apply (sane_fuel s [] L es)].
  intros s1 M1 it M2 H1. destruct (_ && _); [|by exists s1, true, it].
  match goal with |- context [with_deadline (Some ?d)] => destruct (flag_keeps s1 M1 it M2 es (with_deadline (Some d)) H1 ltac:(done)) as (s2 & it' & -> & Hr & H2 & Hc & _) end.
  cbn [mbind option_bind]. eexists _, true, it'. split; [done|]. split; [done|]. unfold rack_note_deadline. split; [|etrans; [exact Hc|by constructor]].
  destruct H2 as [? ? ?]. by constructor.
Qed.

Lemma commit_hit s L1 it L2 es at_ : sane U N s (L1 ++ it :: L2) es ->
  exists s', commit_body (wr (lo it)) at_ (idx it) (with_links (last_index None L1) (first_index L2 None) (smp it)) (s, false) = Some (s', true, false) /\ keeps U N s (L1 ++ it :: L2) es s'.
Proof.
  intros H. unfold commit_body. destruct (core_middle _ _ _ _ _ _ (sane_core _ _ _ H)) as ((I1 & I2 & I3 & _) & _). rewrite sequence_links, I1, Z.eqb_refl. cbn [negb fst].
  destruct (flag_keeps s L1 it L2 es (fun current => with_flags true (lost current) false None at_ current) H ltac:(done)) as (s1 & it' & -> & Hr & H1 & Hc & _). cbn [mbind option_bind negb].
  destruct (invalidate_safe s1 _ _ (sample_deadline (with_links (last_index None L1) (first_index L2 None) (smp it))) H1) as (s2 & -> & M3 & es2 & H2 & A2 & B2 & C2). cbn [mbind option_bind].
  match goal with |- context [refresh_lost_bytes ?x] => assert (sane U N x M3 es2) as H3 by (destruct H2; by constructor); destruct (refresh_safe x _ _ H3) as (s3 & -> & M4 & es4 & H4 & A4 & B4 & C4) end.
  cbn [mbind option_bind]. exists s3. split; [done|]. exists M4, es4. split_and!; [done| |by etrans|].
  - etrans; [by apply (reflag_shape L1 it it' L2)|]. by etrans.
  - etrans; [exact Hc|]. etrans; [exact C2|]. etrans; [|exact C4]. by constructor.
Qed.

Lemma commit_safe s L1 it L2 es at_ : sane U N s (L1 ++ it :: L2) es -> safe s (L1 ++ it :: L2) es (commit_retransmit s (wr (lo it)) at_).
Proof.
  intros H. unfold commit_retransmit. rewrite (sane_head _ _ _ H). destruct (commit_hit s L1 it L2 es at_ H) as (s' & Ehit & K).
  assert (forall M1 M2 n, M1 ++ M2 = L1 -> (length (M2 ++ it :: L2) <= n)%nat ->
    walk (fun x : TcpRecoveryState * bool => pool x.1) (fun _ => None) (commit_body (wr (lo it)) at_) n (first_index (M2 ++ it :: L2) None) (s, false) = Some (s', true)) as Hw.
  { intros M1 M2. revert M1. induction M2 as [|jt M2 IH]; intros M1 n E Hn; (destruct n as [|n]; [cbn in Hn; lia|]).
    - rewrite app_nil_r in E. subst M1. cbn -[with_links commit_body]. change (Pool.get (pool s) (idx it)) with (sent_sample s (idx it)).
      rewrite (core_get U N s L1 it L2 (sane_core _ _ _ H)). cbn [mbind option_bind]. by rewrite Ehit.
    - cbn -[with_links commit_body]. change (Pool.get (pool s) (idx jt)) with (sent_sample s (idx jt)).
      rewrite <- E, <- app_assoc in H. rewrite (core_get U N s M1 jt (M2 ++ it :: L2) (sane_core _ _ _ H)). cbn [mbind option_bind].
      destruct (core_middle _ _ _ _ _ _ (sane_core _ _ _ H)) as ((I1 & I2 & I3 & _) & W1 & _ & _ & _ & _ & G & _). rewrite Forall_forall in G. destruct (G it) as [W2 Hlt]; [set_solver|].
      assert (commit_body (wr (lo it)) at_ (idx jt) (with_links (last_index None M1) (first_index (M2 ++ it :: L2) None) (smp jt)) (s, false) = Some (s, false, true)) as ->.
      { unfold commit_body. rewrite sequence_links, I1. rewrite (proj2 (Z.eqb_neq (wr (lo jt)) (wr (lo it)))); [done|]. intros E'%(wr_inj U); [lia|done|done]. }
      cbn [mbind option_bind]. apply (IH (M1 ++ [jt])); [by rewrite <- app_assoc|cbn in Hn; lia]. }
  rewrite (Hw [] L1 (fuel s) eq_refl) by (by apply (sane_fuel s [] _ es)). cbn [mbind option_bind]. by apply safe_some.
Qed.

Lemma tlp_probe_safe s L es e again : sane U N s L es -> safe s L es (record_tlp_probe s e again).
Proof.
  intros H. unfold record_tlp_probe. eapply safe_then; [|intros; apply safe_some; by apply keeps_same].
  destruct again as [[x y]|]; [|by apply safe_some, keeps_refl]. eapply safe_then; [|intros; by apply rescan_safe]. rewrite (sane_head _ _ _ H).
  eapply (walk_keeps (fun s => s) _ _ es _ s [] L); [|exact H|by apply (sane_fuel s [] L es)].
  intros s1 M1 it M2 H1. destruct (overlaps _ _ _); [|by exists s1, true, it].
  destruct (flag_keeps s1 M1 it M2 es (fun current => with_flags true (lost current) (tx_lost current) None (sent_at current) current) H1 ltac:(done)) as (s2 & it' & -> & Hr & H2 & Hc & _).
  by exists s2, true, it'.
Qed.

Context {C : Type} `{!CongestionController C}.

(** The same for a computation that also moves the controller on. *)
Definition safe_cc s L es (m : option (TcpRecoveryState * C)) : Prop := exists s' c', m = Some (s', c') /\ keeps U N s L es s'.

Lemma enter_recovery_safe s L es (c : C) w nxt first : sane U N s L es -> safe s L es (enter_recovery s c w nxt first).
Proof. intros H. unfold enter_recovery. destruct (first_gap_total s L es H) as (gap & ->). apply safe_some. by apply keeps_same. Qed.

Lemma rack_timeout_safe s L es at_ nxt (c : C) : sane U N s L es -> safe_cc s L es (on_rack_timeout s at_ nxt c).
Proof.
  intros H. unfold on_rack_timeout. rewrite (sane_head _ _ _ H).
  destruct (walk_keeps rk_state Some (rack_body at_) es (fuel s) (mk_rack_locals s c false false) [] L) as (x & -> & K).
  { intros x M1 it M2 H1. unfold rack_body. destruct (_ || _); [by exists x, true, it|].
    match goal with |- context [count_lost _ ?n] => assert (sane U N (count_lost (rk_state x) n) (M1 ++ it :: M2) es) as H2 by (destruct H1; by constructor) end.
    destruct (flag_keeps _ M1 it M2 es (with_lost None) H2 ltac:(done)) as (s2 & it' & -> & Hr & H3 & Hc & _). cbn [mbind option_bind negb].
    eexists _, true, it'. split; [done|]. split; [done|]. cbn. split; [done|]. etrans; [|exact Hc]. by constructor. }
  { done. }
  { by apply (sane_fuel s [] L es). }
  cbn [mbind option_bind]. cbn [rk_state app] in K. destruct K as (L1 & es1 & H1 & A1 & B1 & C1).
  assert (safe_cc (rk_state x) L1 es1 (rack_recovery x (congestion_window c) nxt)) as (s2 & c2 & -> & L2 & es2 & H2 & A2 & B2 & C2).
  { unfold rack_recovery. destruct (recovery_started x).
    - destruct (enter_recovery_safe _ _ _ (cc_on_recovery (rk_cc x)) (congestion_window c) nxt true H1) as (s2 & -> & K). by exists s2, (cc_on_recovery (rk_cc x)).
    - eexists _, _. split; [done|]. destruct (recovery_active _); by apply keeps_same. }
  cbn [mbind option_bind]. destruct (refresh_safe _ _ _ H2) as (s3 & -> & L3 & es3 & H3 & A3 & B3 & C3). cbn [mbind option_bind].
  destruct (rescan_safe _ _ _ H3) as (s4 & -> & L4 & es4 & H4 & A4 & B4 & C4). cbn [mbind option_bind]. eexists _, c2. split; [done|]. exists L4, es4.
  assert (same_scalars s s4) as Cs by (etrans; [exact C1|]; etrans; [exact C2|]; by etrans).
  split_and!; [destruct (lost_any x); [destruct H4; by constructor|done]|etrans; [exact A1|]; etrans; [exact A2|]; by etrans|etrans; [exact B1|]; etrans; [exact B2|]; by etrans|].
  destruct (lost_any x); [|done]. etrans; [exact Cs|]. by constructor.
Qed.

Lemma rto_safe s L es at_ nxt (c : C) : sane U N s L es -> exists s' c' r, on_retransmission_timeout s at_ nxt c = Some (s', c', r) /\ keeps U N s L es s' /\
  match r with Some sample => exists it L0, L = it :: L0 /\ sample = with_links None (first_index L0 None) (smp it) | None => L = [] end.
Proof.
  intros H. unfold on_retransmission_timeout. rewrite (sane_head _ _ _ H). destruct L as [|it L]; [eexists _, _, _; split; [done|]; split; [by apply keeps_refl|done]|]. cbn [first_index].
  rewrite (core_get U N s [] it L (sane_core _ _ _ H)). cbn [mbind option_bind]. set (s0 := if negb _ then _ else s).
  assert (sane U N s0 (it :: L) es /\ same_scalars s s0) as [H0 C0] by (unfold s0; destruct (negb _); [split; [destruct H; by constructor|by constructor]|done]).
  destruct (flag_keeps s0 [] it L es (fun current => with_lost (sample_deadline current) current) H0 ltac:(done)) as (s1 & it' & -> & Hr & H1 & C1 & _). cbn [mbind option_bind negb].
  destruct (refresh_safe _ _ _ H1) as (s2 & -> & L2 & es2 & H2 & A2 & B2 & C2). cbn [mbind option_bind]. set (c1 := cc_on_loss _ _ _ _).
  assert (safe_cc s2 L2 es2 (rto_recovery s2 c1 (congestion_window c) nxt)) as (s3 & c3 & -> & L3 & es3 & H3 & A3 & B3 & C3).
  { unfold rto_recovery. destruct (negb (recovery_active (prr s2))).
    - destruct (enter_recovery_safe _ _ _ (cc_on_recovery c1) (congestion_window c) nxt (no_sack_first_pending (prr s2)) H2) as (s3 & -> & K). by exists s3, (cc_on_recovery c1).
    - eexists _, _. split; [done|]. destruct (seq_gt _ _); by apply keeps_same. }
  cbn [mbind option_bind]. eexists _, c3, _. split; [done|]. split; [|by exists it, L]. exists L3, es3. split_and!.
  - destruct H3. by constructor.
  - etrans; [by apply (reflag_shape [] it it' L)|]. by etrans.
  - by etrans.
  - etrans; [exact C0|]. etrans; [exact C1|]. etrans; [exact C2|]. etrans; [exact C3|]. by constructor.
Qed.

Lemma detect_losses_safe s L es ack right (c : C) : sane U N s L es -> safe_cc s L es (detect_losses s ack right c).
Proof.
  intros H. unfold detect_losses. destruct (mark_rack_safe s L es right (now ack) (reordering_window ack) (max_datagram_size c) H) as (s1 & -> & L1 & es1 & H1 & A1 & B1 & C1). cbn [mbind option_bind].
  destruct (rack_timeout_safe s1 L1 es1 (now ack) (snd_nxt s1) c H1) as (s2 & c2 & -> & L2 & es2 & H2 & A2 & B2 & C2). exists s2, c2. split; [done|]. exists L2, es2. split_and!; [done|by etrans..].
Qed.

Lemma finish_keeps s L es a (c : C) s' c' : sane U N s L es -> maybe_finish_recovery s a c = (s', c') -> keeps U N s L es s'.
Proof.
  intros H. unfold maybe_finish_recovery. destruct (negb _); [intros [= <- <-]; by apply keeps_refl|]. destruct (seq_ge _ _); intros [= <- <-]; by apply keeps_same.
Qed.
Lemma probe_keeps s L es a rtt resolved : sane U N s L es -> keeps U N s L es (update_probe s a rtt resolved).
Proof. intros H. unfold update_probe. destruct (_ || resolved); by apply keeps_same. Qed.


End keeps.

End TcpRecoveryOps.
