(* ===== verification/TcpAckOps.v ===== *)
(** * Acknowledgments against the outstanding samples

    A cumulative acknowledgment at position [A] leaves [after A] of the list of
    samples, a selective one cuts its blocks out of it.  Every byte that leaves
    is counted as delivered once.  The holes of the scoreboard are kept as
    separated ranges: a rebuild makes them the runs of outstanding bytes below
    the highest selective acknowledgment, an advance prunes them. *)

From S2P Require Import Prelude Ranges InfraPool InfraRbTree InfraRbOps TcpProtocol TcpOptions TcpSack TcpSackProofs TcpRecovery TcpSamples TcpRecoveryOps.

Module TcpAckOps.
Import Ranges TcpProtocol TcpOptions TcpSackProofs RbOps TcpRecovery TcpSamples TcpRecoveryOps.

Implicit Types (it : item) (L : list item) (s : TcpRecoveryState) (es : hole_entries) (hs : list rng).

(** ** Moving the window *)

Lemma entries_rebase {V : Type} (U A : Z) (t : @RbTree.t Z V) (l : list (Z * V)) : entries_of seq_cmp (dom U) t l -> Forall (fun e => dom A e.1) l -> entries_of seq_cmp (dom A) t l.
Proof. intros (a & q & h & H1 & H2 & H3 & H4 & _) Hd. exists a, q, h. by split_and!. Qed.

Lemma spans_from U L N A : spans U L N -> (forall it, it ∈ L -> A <= lo it) -> A <= N -> spans A L N.
Proof. destruct L as [|it L]; cbn; [done|]. intros [H1 H2] H _. split; [|done]. specialize (H it ltac:(set_solver)). lia. Qed.

Lemma list_rebase U N A l L : list_ok U N l L -> spans A L N -> U <= A -> list_ok A N l L.
Proof.
  intros [[H1 H2 H3 H4 H5 H6 H7] Hb] Hs HA. split; [|done]. constructor; try done; [|lia]. apply (entries_rebase U); [done|].
  apply Forall_fmap, Forall_forall. intros it Hit. pose proof (spans_in _ _ _ it Hs Hit). exists (lo it). split; [unfold win; lia|done].
Qed.
(** An empty list has no window. *)
Lemma list_empty U N A M l : list_ok U N l [] -> A <= M < A + 2 ^ 31 -> list_ok A M l [].
Proof.
  intros [[H1 H2 H3 H4 H5 H6 H7] Hb] HA. split; [|done]. constructor; try done; [|cbn; lia|lia]. by apply (entries_rebase U).
Qed.

(** ** Blocks as ranges *)

(** The range a block names, from position [A] on. *)
Definition block_range (A : Z) (b : TcpSackBlock) : rng :=
  let x := A + wrap 32 (left_edge b - A) in (x, x + wrap 32 (right_edge b - left_edge b)).
Definition block_inside (A M : Z) (b : TcpSackBlock) : bool :=
  let '(x, y) := block_range A b in (A <? x) && (x <? y) && (y <=? M).

(** ** Taking samples *)

(** What the acknowledgment loops leave alone. *)
Record ack_frame s s' : Prop := mk_frame {
  fr_board : scoreboard s' = scoreboard s;
  fr_nxt : snd_nxt s' = snd_nxt s;
  fr_floor : ack_floor s' = ack_floor s;
  fr_rack : rack_enabled s' = rack_enabled s
}.
#[export] Instance ack_frame_refl : Reflexive ack_frame.
Proof. by constructor. Qed.
#[export] Instance ack_frame_trans : Transitive ack_frame.
Proof. intros a b c [? ? ? ?] [? ? ? ?]. constructor; congruence. Qed.

Section acks.
Context (T : Z) (s0 : TcpRecoveryState) (ack : TcpRecoveryAck).
Hypothesis HT : T < 2 ^ 64.

Record acking (U N : Z) (x : ack_locals) L : Prop := mk_acking {
  ak_list : list_ok U N (samples (al_state x)) L;
  ak_frame : ack_frame s0 (al_state x);
  ak_sum : delivered (rate (al_state x)) + total L = T;
  ak_pos : 0 <= delivered (rate (al_state x))
}.

Lemma note_taken U N x L l d segment L' : acking U N x L -> list_ok U N l L' -> total L' + bytes segment = total L -> 0 <= bytes segment ->
  acking U N (note_acked ack segment (with_state (set_deadline d (set_samples l (al_state x))) x)) L'.
Proof.
  intros [H1 H2 H3 H4] Hl Ht Hb. unfold note_acked. destruct (deliver_sample _ _ _ _) as [[s r] rtt] eqn:E. unfold deliver_sample in E. injection E as E _ _.
  pose proof (total_bound _ _ _ (lc_spans _ _ _ _ (proj1 Hl))) as B. pose proof (vlen_nonneg L') as Bn.
  assert (samples s = l /\ ack_frame s0 s /\ delivered (rate s) = delivered (rate (al_state x)) + bytes segment) as (E1 & E2 & E3).
  { subst s. destruct H2 as [F1 F2 F3 F4]. destruct (al_state x) as [p0 l0 r0 f0 b0 k0 e0 n0 t0 q0]. cbn in *.
    assert (sat64 (delivered r0) (bytes segment) = delivered r0 + bytes segment) as Es by (unfold sat64, saturating_add; lia).
    destruct (recovery_active q0), (negb _ && negb _); cbn; rewrite ?Es; by split_and!. }
  constructor; cbn; [by rewrite E1|done|lia|lia].
Qed.

(** The samples from position [A] on. *)
Fixpoint after (A : Z) L : list item :=
  match L with
  | [] => []
  | it :: L => if hi it <=? A then after A L else if lo it <? A then back_item it A :: L else it :: L
  end.

Lemma after_spans a A L b : spans a L b -> a <= A -> A <= b -> spans A (after A L) b.
Proof.
  revert a. induction L as [|it L IH]; intros a; cbn [spans after]; [lia|]. intros [H1 H2] Ha Hb. destruct (Z.leb_spec (hi it) A); [by apply (IH (hi it))|].
  destruct (Z.ltb_spec (lo it) A); cbn; (split; [lia|done]).
Qed.
Lemma after_outstanding a A L b y : spans a L b -> outstanding (after A L) y <-> outstanding L y /\ A <= y.
Proof.
  revert a. induction L as [|it L IH]; intros a; cbn [spans after]; [rewrite outstanding_nil; naive_solver|]. intros [H1 H2].
  assert (forall y, outstanding L y -> hi it <= y) as Hl. { intros z (jt & Hj & Hz). pose proof (spans_in _ _ _ jt H2 Hj). lia. }
  destruct (Z.leb_spec (hi it) A); [|destruct (Z.ltb_spec (lo it) A)]; rewrite !outstanding_cons; [rewrite (IH _ H2)|cbn [lo hi back_item]|].
  - split; [intros [? ?]; auto|]. intros [[?|?] ?]; [lia|done].
  - split; [intros [?|Hy]; [split; [left|]; lia|split; [by right|specialize (Hl y Hy); lia]]|]. intros [[?|?] ?]; [left; lia|by right].
  - split; [|by intros [? _]]. intros Hy. split; [done|]. destruct Hy as [?|Hy]; [lia|specialize (Hl y Hy); lia].
Qed.

Lemma cumulative_spec U N A L : list_ok U N (samples s0) L -> acknowledgment ack = wr A -> U <= A <= N -> delivered (rate s0) + total L = T -> 0 <= delivered (rate s0) ->
  exists x, cumulative_ack s0 ack = Some x /\ acking U N x (after A L).
Proof.
  intros H EA HA Hs Hd. unfold cumulative_ack. rewrite (lc_head _ _ _ _ (proj1 H)).
  apply (walk_rule _ _ _ (fun R x => acking U N x R /\ after A R = after A L) (fun x => acking U N x (after A L))).
  - intros it R x [HR ER]. pose proof (ak_list _ _ _ _ HR) as [Hc Hb]. destruct (core_middle _ _ _ [] _ _ Hc) as ((I1 & I2 & I3 & _) & W1 & W2 & W3 & _). cbn [app] in *.
    exists (with_links None (first_index R None) (smp it)). assert (win U A) as WA by (pose proof (lc_window _ _ _ _ Hc); unfold win in *; lia).
    cbn [after] in ER. unfold ack_body. rewrite !sequence_links. change (end_sequence (with_links None (first_index R None) (smp it))) with (end_sequence (smp it)). rewrite EA, I1, I2.
    rewrite (seq_le_win U), (seq_lt_win U) by done. pose proof (core_get U N (al_state x) [] it R Hc) as Eg. destruct (Z.leb_spec A (lo it)).
    + exists x, false. split_and!; [exact Eg|done|done|]. rewrite (proj2 (Z.leb_gt (hi it) A)), (proj2 (Z.ltb_ge (lo it) A)) in ER by lia. by rewrite <- ER.
    + destruct (Z.ltb_spec A (hi it)).
      * destruct (take_prefix_spec U N (al_state x) [] it R A (ak_list _ _ _ _ HR) ltac:(lia)) as (l & d & -> & Hl). cbn [mbind option_bind]. eexists _, false. split_and!; [exact Eg|done|done|].
        rewrite (proj2 (Z.leb_gt (hi it) A)), (proj2 (Z.ltb_lt (lo it) A)) in ER by lia. rewrite <- ER. apply (note_taken U N x (it :: R)); [done|done|cbn; lia|cbn; lia].
      * destruct (take_sent_spec U N (al_state x) [] it R (ak_list _ _ _ _ HR)) as (l & d & -> & Hl). cbn [mbind option_bind]. eexists _, true. split; [exact Eg|]. split; [done|]. split; [done|].
        rewrite (proj2 (Z.leb_le (hi it) A)) in ER by lia. split; [|done]. apply (note_taken U N x (it :: R)); [done|done|cbn; lia|cbn; lia].
  - intros x [HR ER]. by rewrite <- ER.
  - pose proof (pool_fuel _ _ (lc_pool _ _ _ _ (proj1 H))). unfold fuel, pool. lia.
  - split; [|done]. by constructor.
Qed.

(** *** Blocks *)

Lemma at_exact U N s L1 it L2 b : list_core U N (samples s) (L1 ++ it :: L2) -> sample_at_or_after s (wr (lo it)) b = Some (Some (idx it)).
Proof. intros H. unfold sample_at_or_after, lookup_tree. rewrite (core_lookup U N _ L1 it L2 H). done. Qed.

(** The second half of [sack_sample]: the front of a sample up to [e]. *)
Definition take_front (s : TcpRecoveryState) (x : ack_locals) (index ack_end : Z) : option ack_locals :=
  current ← sent_sample s index;
  match current with
  | None => Some x
  | Some current =>
    '(s, segment) ← (if seq_lt ack_end (end_sequence current) then take_sample_prefix s index ack_end else take_sent s index);
    let x := with_state s x in
    Some (match segment with None => x | Some segment => note_acked ack segment x end)
  end.
Lemma take_front_spec U N x L1 it L2 e : acking U N x (L1 ++ it :: L2) -> lo it < e <= hi it ->
  exists x' K, take_front (al_state x) x (idx it) (wr e) = Some x' /\ acking U N x' (L1 ++ K ++ L2) /\ forall z, outstanding K z <-> e <= z < hi it.
Proof.
  intros H He. pose proof (ak_list _ _ _ _ H) as [Hc Hb]. destruct (core_middle _ _ _ _ _ _ Hc) as ((I1 & I2 & I3 & _) & W1 & W2 & W3 & _). unfold take_front.
  rewrite (core_get U N (al_state x) L1 it L2 Hc). cbn [mbind option_bind]. change (end_sequence (with_links _ _ (smp it))) with (end_sequence (smp it)). rewrite I2, (seq_lt_win U) by (done || (unfold win in *; lia)).
  destruct (Z.ltb_spec e (hi it)).
  - destruct (take_prefix_spec U N (al_state x) L1 it L2 e (ak_list _ _ _ _ H) ltac:(lia)) as (l & d & -> & Hl). cbn [mbind option_bind]. eexists _, [back_item it e]. split; [done|]. split.
    + apply (note_taken U N x (L1 ++ it :: L2)); [done|done|rewrite !total_app; cbn; lia|cbn; lia].
    + intros z. rewrite outstanding_cons, outstanding_nil. cbn. naive_solver.
  - destruct (take_sent_spec U N (al_state x) L1 it L2 (ak_list _ _ _ _ H)) as (l & d & -> & Hl). cbn [mbind option_bind]. eexists _, []. split; [done|]. split.
    + apply (note_taken U N x (L1 ++ it :: L2)); [done|done|rewrite !total_app; cbn; lia|cbn; lia].
    + intros z. rewrite outstanding_nil. lia.
Qed.

Lemma with_state_id x : with_state (al_state x) x = x.
Proof. by destruct x. Qed.

Lemma sack_sample_spec U N x L1 it L2 bx by_ : acking U N x (L1 ++ it :: L2) -> win U bx -> win U by_ -> bx < by_ -> bx < hi it -> lo it < by_ ->
  exists x' K, sack_sample ack (sack_block (wr bx) (wr by_)) (idx it) (with_links (last_index None L1) (first_index L2 None) (smp it)) x = Some x' /\ acking U N x' (L1 ++ K ++ L2) /\
    forall z, outstanding K z <-> lo it <= z < hi it /\ ~ bx <= z < by_.
Proof.
  intros H Wx Wy Hxy H1 H2. pose proof (ak_list _ _ _ _ H) as [Hc Hb]. destruct (core_middle _ _ _ _ _ _ Hc) as ((I1 & I2 & I3 & _) & W1 & W2 & W3 & _).
  unfold sack_sample. rewrite sequence_links. change (end_sequence (with_links _ _ (smp it))) with (end_sequence (smp it)). cbn [left_edge right_edge]. rewrite I1, I2. unfold seq_max, seq_min.
  rewrite (seq_max_win U), (seq_min_win U) by done. unfold seq_gt. rewrite (seq_le_win U) by (done || (unfold win in *; lia)).
  destruct (Z.leb_spec (Z.max (lo it) bx) (lo it)) as [Hle|Hgt]; cbn [negb].
  - cbn [mbind option_bind negb]. rewrite with_state_id. replace (Z.max (lo it) bx) with (lo it) by lia. rewrite (at_exact U N _ L1 it L2) by done. cbn [mbind option_bind].
    destruct (take_front_spec U N x L1 it L2 (Z.min (hi it) by_) H ltac:(lia)) as (x' & K & E & Hx & HK). exists x', K. split_and!; [exact E|done|]. intros z. rewrite HK. lia.
  - replace (Z.max (lo it) bx) with bx by lia. destruct (split_sample_spec U N (al_state x) L1 it L2 bx (ak_list _ _ _ _ H) ltac:(lia)) as (l & d & i & -> & Hl). cbn [mbind option_bind]. rewrite bool_decide_true by (by eexists). cbn [negb].
    set (s1 := set_deadline d _). set (pre := mk_item i _ _ _) in *. rewrite (cons_middle pre), app_assoc in Hl.
    assert (acking U N (with_state s1 x) ((L1 ++ [pre]) ++ back_item it bx :: L2)) as Ha.
    { destruct H as [_ G2 G3 G4]. constructor; [done|destruct G2; by constructor| |done]. cbn. rewrite <- G3, !total_app. cbn. lia. }
    pose proof (at_exact U N s1 (L1 ++ [pre]) (back_item it bx) L2 false (proj1 Hl)) as Ex. cbn [back_item lo idx] in Ex. rewrite Ex. cbn [mbind option_bind].
    destruct (take_front_spec U N (with_state s1 x) (L1 ++ [pre]) (back_item it bx) L2 (Z.min (hi it) by_) Ha) as (x' & K & E & Hx & HK); [cbn; lia|].
    exists x', (pre :: K). split_and!; [exact E|by rewrite <- app_assoc in Hx|]. intros z. rewrite outstanding_cons, HK. cbn. lia.
Qed.

Lemma sack_loop_spec U N bx by_ : win U bx -> win U by_ -> bx < by_ -> forall L2 n L1 x, acking U N x (L1 ++ L2) -> (length L2 <= n)%nat -> (forall z, outstanding L1 z -> ~ bx <= z < by_) ->
  exists x' L', sack_loop n ack (sack_block (wr bx) (wr by_)) (first_index L2 None) x = Some x' /\ acking U N x' L' /\ forall z, outstanding L' z <-> outstanding (L1 ++ L2) z /\ ~ bx <= z < by_.
Proof.
  intros Wx Wy Hxy. induction L2 as [|it L2 IH]; intros n L1 x H Hn HL.
  - exists x, (L1 ++ []). rewrite app_nil_r in *. split; [by destruct n|]. split; [done|]. intros z. naive_solver.
  - destruct n as [|n]; [cbn in Hn; lia|]. pose proof (ak_list _ _ _ _ H) as [Hc Hb]. destruct (core_middle _ _ _ _ _ _ Hc) as (Hi & W1 & W2 & W3 & _ & G & _). pose proof Hi as (I1 & I2 & I3).
    cbn [first_index sack_loop]. rewrite (core_get U N (al_state x) L1 it L2 Hc). cbn [mbind option_bind]. rewrite sequence_links, I1. cbn [left_edge right_edge]. rewrite (seq_lt_win U) by done.
    rewrite Forall_forall in G. destruct (Z.ltb_spec by_ (lo it)) as [Hb1|Hb1].
    + exists x, (L1 ++ it :: L2). split_and!; [done|done|]. intros z. split; [|by intros [? _]]. intros Hz. split; [done|]. apply outstanding_app in Hz as [Hz|Hz]; [by apply HL|].
      apply outstanding_cons in Hz as [?|(jt & Hj & ?)]; [lia|]. destruct (G jt Hj). lia.
    + rewrite (next_sample_spec U N (al_state x) L1 it L2 Hc). cbn [mbind option_bind]. rewrite (overlaps_pos U) by done.
      destruct (Z.ltb_spec bx (hi it)) as [Hb2|Hb2]; [destruct (Z.ltb_spec (lo it) by_) as [Hb3|Hb3]|]; cbn [andb].
      * destruct (sack_sample_spec U N x L1 it L2 bx by_ H Wx Wy Hxy ltac:(lia) ltac:(lia)) as (x1 & K & -> & H1 & HK). cbn [mbind option_bind]. rewrite app_assoc in H1.
        destruct (IH n (L1 ++ K) x1 H1 ltac:(cbn in Hn; lia)) as (x2 & L' & -> & H2 & HL'); [intros z [?|Hz%HK]%outstanding_app; [by apply HL|tauto]|].
        exists x2, L'. split_and!; [done|done|]. intros z. rewrite HL', !outstanding_app, outstanding_cons, HK. tauto.
      * cbn [mbind option_bind]. rewrite (cons_middle it), app_assoc in H. destruct (IH n (L1 ++ [it]) x H ltac:(cbn in Hn; lia)) as (x2 & L' & -> & H2 & HL').
        { intros z [?|Hz]%outstanding_app; [by apply HL|]. rewrite outstanding_cons, outstanding_nil in Hz. lia. }
        exists x2, L'. split_and!; [done|done|]. intros z. rewrite HL', <- app_assoc. done.
      * cbn [mbind option_bind]. rewrite (cons_middle it), app_assoc in H. destruct (IH n (L1 ++ [it]) x H ltac:(cbn in Hn; lia)) as (x2 & L' & -> & H2 & HL').
        { intros z [?|Hz]%outstanding_app; [by apply HL|]. rewrite outstanding_cons, outstanding_nil in Hz. lia. }
        exists x2, L'. split_and!; [done|done|]. intros z. rewrite HL', <- app_assoc. done.
Qed.

Definition is_dsack (dsack : option TcpSackBlock) (first : bool) (b : TcpSackBlock) : bool :=
  first && match dsack with Some d => block_eqb b d | None => false end.

Lemma lt_distance r : match (if r =? 0 then Eq else if r <=? 2 ^ 31 then Lt else Gt) with Lt => true | _ => false end = negb (r =? 0) && (r <=? 2 ^ 31).
Proof. by destruct (r =? 0), (r <=? 2 ^ 31). Qed.
Lemma le_distance r : match (if r =? 0 then Eq else if r <=? 2 ^ 31 then Lt else Gt) with Gt => false | _ => true end = (r =? 0) || (r <=? 2 ^ 31).
Proof. by destruct (r =? 0), (r <=? 2 ^ 31). Qed.

Lemma block_counts_pos s A M dsack first b : acknowledgment ack = wr A -> snd_nxt s = wr M -> A <= M < A + 2 ^ 31 -> in_word 32 (left_edge b) -> in_word 32 (right_edge b) ->
  block_counts s ack dsack first b = negb (is_dsack dsack first b) && block_inside A M b.
Proof.
  intros EA EM HM Hl Hr. unfold block_counts, is_dsack. f_equal. rewrite EA, EM. unfold block_inside, block_range. cbn [fst snd].
  pose proof (wrap_bounds 32 A ltac:(lia)) as BA. pose proof (wrap_bounds 32 M ltac:(lia)) as BM. unfold seq_ge, seq_gt, seq_lt, seq_le. rewrite !seq_cmp_distance by done.
  unfold distance_to, wr in *. set (d1 := wrap 32 (left_edge b - A)). set (d2 := wrap 32 (right_edge b - left_edge b)).
  pose proof (wrap_bounds 32 (left_edge b - A) ltac:(lia)) as B1. pose proof (wrap_bounds 32 (right_edge b - left_edge b) ltac:(lia)) as B2. fold d1 in B1. fold d2 in B2. unfold in_word in *.
  assert (wrap 32 (wrap 32 A - left_edge b) = wrap 32 (- d1)) as ->. { unfold d1, wrap. zdm. }
  assert (wrap 32 (wrap 32 M - left_edge b) = wrap 32 (M - A - d1)) as ->. { unfold d1, wrap. zdm. }
  assert (wrap 32 (wrap 32 M - right_edge b) = wrap 32 (M - A - d1 - d2)) as ->. { unfold d1, d2, wrap. zdm. }
  clearbody d1 d2. set (r1 := wrap 32 (- d1)). set (r2 := wrap 32 (M - A - d1)). set (r3 := wrap 32 (M - A - d1 - d2)).
  assert (r1 = if d1 =? 0 then 0 else 2 ^ 32 - d1) as Hr1 by (unfold r1, wrap; destruct (Z.eqb_spec d1 0); zdm).
  assert (r2 = if M - A <? d1 then M - A - d1 + 2 ^ 32 else M - A - d1) as Hr2 by (unfold r2, wrap; destruct (Z.ltb_spec (M - A) d1); zdm).
  assert (0 <= r3 < 2 ^ 32 /\ (r3 = M - A - d1 - d2 \/ r3 = M - A - d1 - d2 + 2 ^ 32 \/ r3 = M - A - d1 - d2 + 2 * 2 ^ 32)) as Hr3 by (unfold r3, wrap; zdm).
  clearbody r1 r2 r3. apply eq_bool_prop_intro. rewrite !lt_distance, !le_distance.
  rewrite negb_True, !orb_True, !negb_True, !andb_True, !orb_True, !negb_True, !Is_true_true, !Z.eqb_eq, !Z.leb_le, !Z.ltb_lt.
  destruct (Z.eqb_spec d1 0), (Z.ltb_spec (M - A) d1); lia.
Qed.

(** The ranges that are acknowledged selectively. *)
Fixpoint sack_ranges (A M : Z) (dsack : option TcpSackBlock) (first : bool) (blocks : list TcpSackBlock) : list rng :=
  match blocks with
  | [] => []
  | b :: blocks => (if negb (is_dsack dsack first b) && block_inside A M b then [block_range A b] else []) ++ sack_ranges A M dsack false blocks
  end.
(** The highest of their ends. *)
Definition top (H : Z) (rs : list rng) : Z := foldl (fun h r => Z.max h r.2) H rs.

Definition block_words (b : TcpSackBlock) : Prop := in_word 32 (left_edge b) /\ in_word 32 (right_edge b).

Lemma range_wire A b : block_words b -> left_edge b = wr (block_range A b).1 /\ right_edge b = wr (block_range A b).2.
Proof. intros [Hl Hr]. unfold block_range, wr, wrap, in_word in *. cbn. zdm. Qed.

Lemma blocks_loop_spec A N M dsack : acknowledgment ack = wr A -> snd_nxt s0 = wr M -> A <= M < A + 2 ^ 31 ->
  forall blocks first hr x L, Forall block_words blocks -> acking A N x L ->
  exists hr' x' L', sack_blocks_loop ack dsack first blocks hr x = Some (hr', x') /\ acking A N x' L' /\
    (forall z, outstanding L' z <-> outstanding L z /\ ~ Ranges.covers (sack_ranges A M dsack first blocks) z) /\
    forall H, win A H -> hr = wr H -> hr' = wr (top H (sack_ranges A M dsack first blocks)).
Proof.
  intros EA EM HM. induction blocks as [|b blocks IH]; intros first hr x L Hw H; cbn [sack_blocks_loop sack_ranges].
  - exists hr, x, L. split_and!; try done. intros z. split; [|by intros [? _]]. intros Hz. split; [done|]. by intros (r & []%not_elem_of_nil & _).
  - apply Forall_cons in Hw as [Hb Hw]. pose proof (ak_frame _ _ _ _ H) as F. rewrite (block_counts_pos _ A M) by (done || apply Hb || by rewrite (fr_nxt _ _ F)).
    destruct (negb (is_dsack dsack first b) && block_inside A M b) eqn:Ec; cbn [negb app].
    + apply andb_true_iff in Ec as [_ Ec]. unfold block_inside in Ec. destruct (range_wire A b Hb) as [E1 E2]. destruct (block_range A b) as [bx by_] eqn:Er. cbn [fst snd] in E1, E2.
      rewrite !andb_true_iff, !Z.ltb_lt, Z.leb_le in Ec. destruct Ec as [[G1 G2] G3]. assert (b = sack_block (wr bx) (wr by_)) as -> by (destruct b; cbn in *; congruence). cbn [left_edge right_edge].
      pose proof (ak_list _ _ _ _ H) as Hl. assert (win A bx /\ win A by_) as [Wx Wy] by (unfold win; lia).
      destruct (split_at _ _ _ bx (lc_spans _ _ _ _ (proj1 Hl))) as (L1 & L2 & -> & S1 & S2). rewrite (at_or_after_spec A N (al_state x) L1 L2 bx (proj1 Hl) Wx S1 S2). cbn [mbind option_bind].
      destruct (sack_loop_spec A N bx by_ Wx Wy G2 L2 (fuel (al_state x)) L1 x H) as (x1 & L' & -> & H1 & HL').
      { pose proof (pool_fuel _ _ (lc_pool _ _ _ _ (proj1 Hl))) as Hf. rewrite length_app in Hf. unfold fuel, pool. lia. }
      { intros z (it & Hit & Hz). specialize (S1 it Hit). lia. }
      cbn [mbind option_bind]. destruct (IH false (seq_max hr (wr by_)) x1 L' Hw H1) as (hr' & x' & L'' & -> & H2 & HL'' & Hh). exists hr', x', L''. split_and!; try done.
      * intros z. rewrite HL'', HL'. unfold Ranges.covers. setoid_rewrite elem_of_cons. split.
        -- intros [[? Hn] Hc]. split; [done|]. intros (r & [->|Hr] & Hz); [by apply Hn|]. apply Hc. by exists r.
        -- intros [? Hn]. split_and!; [done| |]; [intros Hz; apply Hn; exists (bx, by_); split; [by left|done]|]. intros (r & Hr & Hz). apply Hn. exists r. split; [by right|done].
      * intros h Wh Eh. cbn [top foldl]. apply Hh; [unfold win in *; cbn; lia|]. unfold seq_max. rewrite Eh. by rewrite (seq_max_win A).
    + destruct (IH false hr x L Hw H) as (hr' & x' & L' & -> & H2 & HL' & Hh). exists hr', x', L'. by split_and!.
Qed.

(** Without samples the blocks have nothing to take. *)
Lemma blocks_loop_empty A N dsack : forall blocks first hr x, Forall block_words blocks -> acking A N x [] -> exists hr', sack_blocks_loop ack dsack first blocks hr x = Some (hr', x).
Proof.
  induction blocks as [|b blocks IH]; intros first hr x Hw H; cbn [sack_blocks_loop]; [by exists hr|]. apply Forall_cons in Hw as [Hb Hw].
  destruct (negb _); [by apply IH|]. pose proof (list_empty A N (left_edge b) (left_edge b) _ (ak_list _ _ _ _ H) ltac:(lia)) as He.
  pose proof (at_or_after_spec _ _ (al_state x) [] [] (left_edge b) (proj1 He)) as E. assert (wr (left_edge b) = left_edge b) as Ew by (destruct Hb; by apply wrap_small).
  rewrite Ew in E. rewrite E; [|unfold win; lia|by intros it ?%not_elem_of_nil|done]. cbn [mbind option_bind first_index]. destruct (fuel (al_state x)); by apply IH.
Qed.

End acks.

End TcpAckOps.
