(* ===== verification/TcpScoreboard.v ===== *)
(** * The scoreboard

    The holes stand for separated ranges of positions ([holes_as]).
    [rebuild_scoreboard] makes them the runs of outstanding bytes below the
    highest selective acknowledgment; [advance_scoreboard_for_ack] prunes them
    at the cumulative one. *)

From S2P Require Import Prelude Ranges InfraPool InfraRbTree InfraRbOps TcpProtocol TcpOptions TcpSack TcpSackProofs TcpRecovery TcpSamples TcpRecoveryOps TcpAckOps.

Module TcpScoreboardProofs.
Import Ranges TcpProtocol TcpOptions TcpSackProofs RbOps TcpRecovery TcpSamples TcpRecoveryOps TcpAckOps.

Implicit Types (it : item) (L : list item) (s : TcpRecoveryState) (es : hole_entries) (hs : list rng) (t : @RbTree.t Z TcpScoreboardHole).

Fixpoint holes_in (a : Z) hs (b : Z) : Prop :=
  match hs with [] => True | h :: hs => a <= h.1 < h.2 /\ h.2 <= b /\ holes_in (h.2 + 1) hs b end.
Definition hole_is (h : rng) (e : Z * TcpScoreboardHole) : Prop := e.1 = wr h.1 /\ hole_end e.2 = wr h.2.
Definition holes_as (a b : Z) es hs : Prop := Forall2 hole_is hs es /\ holes_in a hs b.

Lemma holes_in_elem a hs b h : holes_in a hs b -> h ∈ hs -> a <= h.1 < h.2 /\ h.2 <= b.
Proof. revert a. induction hs as [|k hs IH]; intros a; [by intros _ ?%not_elem_of_nil|]. cbn. intros (H1 & H2 & H3) [->|Hh]%elem_of_cons; [lia|]. specialize (IH _ H3 Hh). lia. Qed.
Lemma holes_in_app a hs1 hs2 b : holes_in a (hs1 ++ hs2) b <-> holes_in a hs1 b /\ holes_in a hs2 b /\ forall h k, h ∈ hs1 -> k ∈ hs2 -> h.2 < k.1.
Proof.
  revert a. induction hs1 as [|h hs1 IH]; intros a; cbn.
  - split; [intros H; split_and!; [done|done|]; by intros ? ? ?%not_elem_of_nil|tauto].
  - rewrite IH. split.
    + intros (H1 & H2 & H3 & H4 & H5). split_and!; [lia..|done| |].
      * destruct hs2 as [|k hs2]; [done|]. cbn in *. split_and!; [lia..|tauto].
      * intros x k [->|Hx]%elem_of_cons Hk; [|by apply H5]. pose proof (holes_in_elem _ _ _ k H4 Hk). lia.
    + intros ((H1 & H2 & H3) & H4 & H5). split_and!; [lia..|done| |].
      * destruct hs2 as [|k hs2]; [done|]. cbn in *. pose proof (H5 h k ltac:(set_solver) ltac:(set_solver)). split_and!; [lia..|tauto].
      * intros x k Hx Hk. apply H5; [set_solver|done].
Qed.
Lemma holes_in_weaken a a' hs b b' : holes_in a hs b -> a' <= a -> b <= b' -> holes_in a' hs b'.
Proof. revert a a'. induction hs as [|h hs IH]; intros a a'; cbn; [done|]. intros (H1 & H2 & H3) Ha Hb. split_and!; [lia..|]. by apply (IH (h.2 + 1)). Qed.

Lemma shape_holes a b es es' hs : holes_as a b es hs -> hole_shape es es' -> holes_as a b es' hs.
Proof.
  intros [H1 H2] Hs. split; [|done]. clear H2. revert es' Hs. induction H1 as [|h e hs es [E1 E2] _ IH]; intros es' Hs; inversion Hs as [|? e' ? ? [E3 E4] Hs']; subst; constructor; [|by apply IH].
  split; congruence.
Qed.
Lemma holes_len a b es hs : holes_as a b es hs -> vlen es = vlen hs.
Proof. intros [H _]. unfold vlen. by rewrite (Forall2_length _ _ _ H). Qed.
Lemma holes_few a b hs : holes_in a hs b -> a <= b -> 2 * vlen hs <= b - a + 1.
Proof.
  revert a. induction hs as [|h hs IH]; intros a; cbn [holes_in]; [change (@vlen rng []) with 0; lia|]. intros (H1 & H2 & H3) Hab. assert (vlen (h :: hs) = vlen hs + 1) as -> by (unfold vlen; cbn [length]; lia). destruct (Z.le_gt_cases (h.2 + 1) b) as [Hb|Hb]; [specialize (IH _ H3 Hb); lia|].
  destruct hs as [|k hs]; [change (@vlen rng []) with 0; lia|]. cbn in H3. lia.
Qed.

Lemma covers_nil z : Ranges.covers [] z <-> False.
Proof. split; [|done]. by intros (r & ?%not_elem_of_nil & _). Qed.
Lemma covers_app rs1 rs2 z : Ranges.covers (rs1 ++ rs2) z <-> Ranges.covers rs1 z \/ Ranges.covers rs2 z.
Proof. unfold Ranges.covers. setoid_rewrite elem_of_app. naive_solver. Qed.
Lemma covers_one x y z : Ranges.covers [(x, y)] z <-> x <= z < y.
Proof. unfold Ranges.covers. setoid_rewrite list_elem_of_singleton. naive_solver. Qed.

(** The highest selective acknowledgment is above the cumulative one or does
    not count. *)
Lemma high_cases A k : in_word 32 k -> seq_le k (wr A) = true \/ exists H, A < H < A + 2 ^ 31 /\ k = wr H.
Proof.
  intros Hk. pose proof (wrap_bounds 32 A ltac:(lia)) as BA. fold (wr A) in BA. unfold seq_le. rewrite seq_cmp_distance, le_distance by done.
  destruct (_ || _) eqn:E; [by left|right]. rewrite orb_false_iff, Z.eqb_neq, Z.leb_gt in E. unfold distance_to, wr, wrap, in_word in *.
  exists (A + (k - A) mod 2 ^ 32). change (2 ^ 32) with 4294967296 in *. change (2 ^ 31) with 2147483648 in *. zdm.
Qed.

(** ** Rebuilding *)

Lemma insert_hole_spec A N t es hs x y : N < A + 2 ^ 31 -> entries_of seq_cmp (dom A) t es -> Forall2 hole_is hs es -> holes_in A (hs ++ [(x, y)]) N -> vlen es < 2 ^ 31 ->
  exists t' es', insert_hole t (wr x) (wr y) = Some t' /\ entries_of seq_cmp (dom A) t' es' /\ Forall2 hole_is (hs ++ [(x, y)]) es'.
Proof.
  intros HN He Hf Hi Hn. apply holes_in_app in Hi as (H1 & (H2 & H3 & _) & H4). cbn [fst snd] in H2, H3. assert (win A x) as Wx by (unfold win; lia).
  unfold insert_hole. destruct (rb_insert_spec seq_cmp (dom A) t es (wr x) (hole_ (wr y) false) He ltac:(by exists x) ltac:(lia)) as (t' & -> & _ & H').
  cbn [mbind option_bind]. exists t'. eexists. split; [done|]. split; [exact H'|]. rewrite <- (app_nil_r es), insert_in_skip.
  - apply Forall2_app; [done|]. by constructor.
  - apply Forall_forall. intros e Hein. apply list_elem_of_lookup in Hein as (i & Hein). destruct (Forall2_lookup_r _ _ _ _ _ Hf Hein) as (h & Hh & [E _]). apply list_elem_of_lookup_2 in Hh.
    pose proof (holes_in_elem _ _ _ h H1 Hh). specialize (H4 h (x, y) Hh ltac:(set_solver)). cbn in H4. rewrite E, (seq_cmp_win A) by (done || (unfold win in *; lia)). apply Z.compare_gt_iff. lia.
Qed.

Section rebuild.
Context (A N H : Z) (L : list item).
Hypothesis HH : A < H < A + 2 ^ 31.
Hypothesis HL : spans A L N.
Hypothesis Hlen : vlen L < 2 ^ 31.
Hypothesis HN : N < A + 2 ^ 31.
Hypothesis Hok : Forall item_ok L.

Definition in_last (last : option rng) (z : Z) : Prop := match last with Some r => r.1 <= z < r.2 | None => False end.

(** The holes found in the samples [D] of the list. *)
Record rebuilt (D : list item) (x : @RbTree.t Z TcpScoreboardHole * option (Z * Z)) hs (last : option rng) : Prop := mk_rebuilt {
  rb_tree : exists es, entries_of seq_cmp (dom A) x.1 es /\ Forall2 hole_is hs es;
  rb_pending : x.2 = option_map (fun r => (wr r.1, wr r.2)) last;
  rb_in : holes_in A (hs ++ option_list last) N;
  rb_covers : forall z, (Ranges.covers hs z \/ in_last last z) <-> outstanding D z /\ z < H;
  rb_start : last = None -> hs = [];
  rb_end : forall r, r ∈ hs ++ option_list last -> exists it, it ∈ D /\ r.2 <= hi it;
  rb_few : vlen hs <= vlen D
}.

Lemma rebuild_step D it R x hs last : L = D ++ it :: R -> rebuilt D x hs last ->
  exists x' (go : bool), rebuild_body (wr A) (wr H) (with_links (last_index None D) (first_index R None) (smp it)) x = Some (x', go) /\
    if go then exists hs' last', rebuilt (D ++ [it]) x' hs' last' else x' = x /\ H <= lo it.
Proof.
  intros E [[es [R1 R1']] R2 R3 R4 R5 R6 R7]. rewrite E in HL, Hok. apply spans_middle in HL as (S1 & S2 & S3 & S4). apply Forall_app in Hok as [_ [(I1 & I2 & _) _]%Forall_cons].
  destruct x as [t pend]. cbn [fst snd] in *. unfold rebuild_body. rewrite sequence_links. change (end_sequence (with_links _ _ (smp it))) with (end_sequence (smp it)). rewrite I1, I2.
  assert (win A A /\ win A (lo it) /\ win A (hi it) /\ win A H) as (W0 & W1 & W2 & W3) by (unfold win; lia). unfold seq_ge, seq_max, seq_min.
  rewrite (seq_le_win A), (seq_lt_win A) by done. rewrite (proj2 (Z.leb_gt (hi it) A)) by lia. destruct (Z.ltb_spec (lo it) H); cbn [negb]; [|exists (t, pend), false; by split_and!].
  rewrite (seq_max_win A), (seq_min_win A), (seq_lt_win A) by (done || (unfold win in *; lia)). replace (Z.max (lo it) A) with (lo it) by lia. rewrite (proj2 (Z.ltb_lt (lo it) (Z.min (hi it) H))) by lia. cbn [negb].
  assert (forall r, r ∈ hs ++ option_list last -> A <= r.1 < r.2 /\ r.2 <= lo it) as Hle.
  { intros r Hr. pose proof (holes_in_elem _ _ _ r R3 Hr). destruct (R6 r Hr) as (jt & Hj & ?). destruct (S1 jt Hj). lia. }
  assert (vlen (D ++ [it]) = vlen D + 1) as Elen by (rewrite vlen_app; done). assert (vlen D < 2 ^ 31) as HD by (rewrite E, vlen_app in Hlen; pose proof (vlen_nonneg (it :: R)); lia).
  destruct last as [[x y]|]; cbn [option_map fst snd option_list] in *; subst pend.
  - destruct (Hle (x, y) ltac:(set_solver)) as [Hx Hy]. cbn [fst snd] in Hx, Hy. rewrite (seq_le_win A) by (done || (unfold win in *; lia)). pose proof R3 as (R3a & R3b & R3c)%holes_in_app. destruct (Z.leb_spec (lo it) y) as [Hly|Hly].
    + eexists _, true. split; [done|]. exists hs, (Some (x, Z.min (hi it) H)). constructor; cbn [fst snd option_map option_list].
      * by exists es.
      * rewrite (seq_max_win A) by (unfold win in *; lia). do 3 f_equal. lia.
      * apply holes_in_app. split_and!; [done|cbn in *; lia|]. intros h k Hh [= ->]%list_elem_of_singleton. cbn. apply (R3c h (x, y)); set_solver.
      * intros z. specialize (R4 z). cbn [in_last fst snd] in *. rewrite outstanding_app, outstanding_cons, outstanding_nil. assert (y = lo it) by lia. subst y. split; [intros [Hc|Hz]|].
        -- destruct (proj1 R4 (or_introl Hc)). auto.
        -- destruct (Z.lt_ge_cases z (lo it)); [destruct (proj1 R4 ltac:(right; lia)); auto|]. split; [right; left; lia|lia].
        -- intros [[Hz|[Hz|[]]] Hlt]; [destruct (proj2 R4 (conj Hz Hlt)) as [?|?]; [by left|right; lia]|right; lia].
      * done.
      * intros r Hr. destruct (decide (r = (x, Z.min (hi it) H))) as [->|Hne]; [exists it; split; [set_solver|cbn; lia]|]. destruct (R6 r ltac:(set_solver)) as (jt & ? & ?). exists jt. split; [set_solver|done].
      * lia.
    + destruct (insert_hole_spec A N t es hs x y HN R1 R1' R3) as (t' & es' & -> & R1'' & Hf).
      { unfold vlen in *. rewrite <- (Forall2_length _ _ _ R1'). lia. }
      cbn [mbind option_bind]. eexists _, true. split; [done|]. exists (hs ++ [(x, y)]), (Some (lo it, Z.min (hi it) H)). constructor; cbn [fst snd option_map option_list].
      * by exists es'.
      * done.
      * apply holes_in_app. split_and!; [done|cbn; lia|]. intros h k Hh ->%list_elem_of_singleton. cbn. apply elem_of_app in Hh as [Hh| ->%list_elem_of_singleton]; [|done].
        specialize (R3c h (x, y) Hh ltac:(set_solver)). cbn in R3c. lia.
      * intros z. specialize (R4 z). cbn [in_last fst snd] in *. rewrite covers_app, covers_one, outstanding_app, outstanding_cons, outstanding_nil. split; [intros [Hc|Hz]|].
        -- destruct (proj1 R4 Hc). auto.
        -- split; [right; left; lia|lia].
        -- intros [[Hz|[Hz|[]]] Hlt]; [left; by apply R4|right; lia].
      * done.
      * intros r Hr. apply elem_of_app in Hr as [Hr| ->%list_elem_of_singleton]; [destruct (R6 r Hr) as (jt & ? & ?); exists jt; split; [set_solver|done]|]. exists it. split; [set_solver|cbn; lia].
      * rewrite vlen_app. change (vlen [(x, y)]) with 1. lia.
  - rewrite (R5 eq_refl) in *. eexists _, true. split; [done|]. exists [], (Some (lo it, Z.min (hi it) H)). constructor; cbn [fst snd option_map option_list app].
    + by exists es.
    + done.
    + cbn. lia.
    + intros z. specialize (R4 z). cbn [in_last fst snd] in *. rewrite outstanding_app, outstanding_cons, outstanding_nil. split; [intros [Hc|Hz]|].
      * destruct (proj1 R4 (or_introl Hc)). auto.
      * split; [right; left; lia|lia].
      * intros [[Hz|[Hz|[]]] Hlt]; [left; destruct (proj2 R4 (conj Hz Hlt)); [done|done]|right; lia].
    + done.
    + intros r ->%list_elem_of_singleton. exists it. split; [set_solver|cbn; lia].
    + pose proof (vlen_nonneg D). change (@vlen rng []) with 0. lia.
Qed.

Lemma rebuild_walk s t : list_core A N (samples s) L -> entries_of seq_cmp (dom A) t [] ->
  exists x, walk (fun _ => pool s) Some (fun _ sample x => rebuild_body (wr A) (wr H) sample x) (fuel s) (first_index L None) (t, None) = Some x /\ exists hs last, rebuilt L x hs last.
Proof.
  intros Hc Ht. apply (walk_rule _ _ _ (fun R x => exists D hs last, L = D ++ R /\ rebuilt D x hs last) (fun x => exists hs last, rebuilt L x hs last)).
  - intros it R x (D & hs & last & E & HD). destruct (rebuild_step D it R x hs last E HD) as (x' & go & Eb & Hgo). eexists _, x', go. split; [rewrite E in Hc; apply (pool_get _ D it R), Hc|].
    split; [done|]. split; [exact Eb|]. destruct go.
    + destruct Hgo as (hs' & last' & HD'). exists (D ++ [it]), hs', last'. split; [by rewrite <- app_assoc|done].
    + destruct Hgo as [-> Hlo]. exists hs, last. destruct HD as [R1 R2 R3 R4 R5 R6 R7]. rewrite E in HL. apply spans_middle in HL as (_ & S2 & _ & S4). constructor; try done.
      * intros z. rewrite R4, E, outstanding_app, outstanding_cons. split; [tauto|]. intros [[?|[?|(jt & Hj & ?)]] ?]; [done|lia|]. destruct (S4 jt Hj). lia.
      * intros r Hr. destruct (R6 r Hr) as (jt & ? & ?). exists jt. split; [rewrite E; set_solver|done].
      * rewrite E, vlen_app. pose proof (vlen_nonneg (it :: R)). lia.
  - intros x (D & hs & last & E & HD). rewrite app_nil_r in E. subst D. by exists hs, last.
  - pose proof (pool_fuel _ _ (lc_pool _ _ _ _ Hc)). unfold fuel, pool. lia.
  - exists [], [], None. split; [done|]. constructor; cbn; try done.
    + exists []. by split.
    + intros z. rewrite covers_nil, outstanding_nil. tauto.
    + by intros r ?%not_elem_of_nil.
Qed.

End rebuild.

(** What both ways of updating the holes keep. *)
Record same_but_holes s s' : Prop := mk_but {
  bh_delivered : delivered (rate s') = delivered (rate s);
  bh_nxt : snd_nxt s' = snd_nxt s;
  bh_floor : ack_floor s' = ack_floor s;
  bh_rack : rack_enabled s' = rack_enabled s
}.
Lemma scalars_but s s' : same_scalars s s' -> same_but_holes s s'.
Proof. intros [? ? ? ? ?]. by constructor. Qed.
#[export] Instance same_but_trans : Transitive same_but_holes.
Proof. intros a b c [? ? ? ?] [? ? ? ?]. constructor; congruence. Qed.

Lemma clear_spec (A : Z) (b : TcpScoreboard) : exists t, scoreboard_clear b = Some (scoreboard_ t 0 0 0 TCP_DUPACK_THRESHOLD) /\ entries_of seq_cmp (dom A) t [].
Proof. unfold scoreboard_clear, scoreboard_new, hole_tree_new. destruct (rb_with_capacity_spec seq_cmp (dom A) 0 (hole_ 0 false) 32) as (t & -> & _ & H). by exists t. Qed.

(** The end of an update: marks and counters. *)
Definition updated (A N : Z) s L s' hs : Prop :=
  exists L' es', sane A N s' L' es' /\ same_shape L L' /\ holes_as A N es' hs /\ same_but_holes s s'.

Lemma refresh_updated A N s s1 L es hs mds : sane A N s1 L es -> holes_as A N es hs -> same_but_holes s s1 ->
  exists s', refresh_loss s1 mds = Some s' /\ updated A N s L s' hs /\ high_sacked (scoreboard s') = high_sacked (scoreboard s1).
Proof.
  intros H Hh Hb. destruct (refresh_loss_safe A N s1 L es mds H) as (s' & E & L' & es' & H' & Sh & Hs & Sc). exists s'. split; [done|]. split; [|apply (ss_high _ _ Sc)].
  exists L', es'. split_and!; [done|done|by eapply shape_holes|]. etrans; [exact Hb|by apply scalars_but].
Qed.
Lemma refresh_plain A N s s1 L es hs : sane A N s1 L es -> holes_as A N es hs -> same_but_holes s s1 ->
  exists s', (s ← refresh_lost_bytes s1; rack_rescan_earliest s) = Some s' /\ updated A N s L s' hs /\ high_sacked (scoreboard s') = high_sacked (scoreboard s1).
Proof.
  intros H Hh Hb. destruct (refresh_safe A N s1 L es H) as (s2 & -> & L2 & es2 & H2 & A2 & B2 & C2). cbn [mbind option_bind]. destruct (rescan_safe A N s2 L2 es2 H2) as (s3 & -> & L3 & es3 & H3 & A3 & B3 & C3).
  exists s3. split; [done|]. split; [|rewrite (ss_high _ _ C3); apply (ss_high _ _ C2)]. exists L3, es3. split_and!; [done|by etrans|eapply shape_holes; [by eapply shape_holes|done]|].
  etrans; [exact Hb|]. etrans; by apply scalars_but.
Qed.

Lemma rebuild_spec A N s L hr mds : list_ok A N (samples s) L -> in_word 32 hr ->
  exists s' hs, rebuild_scoreboard s (wr A) hr mds = Some s' /\ updated A N s L s' hs /\ high_sacked (scoreboard s') = seq_max hr (wr A) /\
    forall H, A <= H < A + 2 ^ 31 -> seq_max hr (wr A) = wr H -> forall z, Ranges.covers hs z <-> outstanding L z /\ z < H.
Proof.
  intros Hl Hw. unfold rebuild_scoreboard. destruct (clear_spec A (scoreboard s)) as (t & -> & Ht). cbn [mbind option_bind]. set (high := seq_max hr (wr A)). set (rxt := if recovery_active (prr s) then _ else _).
  set (b := set_high high rxt _). set (s1 := set_board b s). assert (sane A N s1 L []) as H1 by (by constructor). assert (same_but_holes s s1) as Hb1 by (by constructor).
  pose proof (lc_spans _ _ _ _ (proj1 Hl)) as Hsp. pose proof (lc_window _ _ _ _ (proj1 Hl)) as HN. change (samples s1) with (samples s). rewrite (lc_head _ _ _ _ (proj1 Hl)).
  assert (in_word 32 high) as Hh by (unfold high, seq_max, TcpSack.seq_max; destruct (seq_lt _ _); [done|apply wrap_bounds; lia]).
  destruct (bool_decide (first_index L None = None) || seq_le high (wr A)) eqn:E.
  - destruct (refresh_plain A N s s1 L [] [] H1 ltac:(done) Hb1) as (s' & -> & Hu & Eh). exists s', []. split_and!; try done. intros H HH EH z. rewrite covers_nil. split; [done|]. intros [Hz Hlt].
    apply orb_true_iff in E as [E%bool_decide_eq_true|E]; [destruct L; [by apply outstanding_nil in Hz|done]|]. destruct Hz as (it & Hit & Hz). pose proof (spans_in _ _ _ it Hsp Hit).
    rewrite EH in E. rewrite (seq_le_win A) in E by (unfold win; lia). apply Z.leb_le in E. lia.
  - apply orb_false_iff in E as [_ E]. destruct (high_cases A high Hh) as [E'|(H & HH & EH)]; [congruence|]. rewrite EH.
    destruct (rebuild_walk A N H L HH Hsp (core_len A N _ _ (proj1 Hl)) HN (lc_items _ _ _ _ (proj1 Hl)) s1 t (proj1 Hl) Ht) as ([t1 pend] & Ew & hs & last & [(es & R1 & R1') R2 R3 R4 R5 R6 R7]). cbn [fst snd] in *.
    change (holes b) with t. rewrite Ew. cbn [mbind option_bind]. pose proof (core_len A N _ _ (proj1 Hl)) as Hn.
    assert (exists t2 es2, match pend with Some (x, y) => insert_hole t1 x y | None => Some t1 end = Some t2 /\ entries_of seq_cmp (dom A) t2 es2 /\ Forall2 hole_is (hs ++ option_list last) es2) as (t2 & es2 & -> & R8 & R9).
    { subst pend. destruct last as [[x y]|]; cbn [option_map option_list fst snd] in *; [|exists t1, es; by rewrite app_nil_r].
      apply (insert_hole_spec A N t1 es hs x y HN R1 R1' R3). unfold vlen in *. rewrite <- (Forall2_length _ _ _ R1'). lia. }
    cbn [mbind option_bind]. set (s2 := set_board _ _). assert (sane A N s2 L es2) as H2.
    { constructor; [done|done|]. rewrite (holes_len _ _ _ _ (conj R9 R3)). pose proof (holes_few _ _ _ R3 (spans_le _ _ _ Hsp)). lia. }
    destruct (refresh_updated A N s s2 L es2 (hs ++ option_list last) mds H2 ltac:(done) ltac:(by constructor)) as (s' & -> & Hu & Eh). exists s', (hs ++ option_list last). split_and!; [done|done|rewrite Eh; exact EH|].
    intros H' HH' EH' z. assert (H' = H) as ->. { apply (wr_inj A); [unfold win; lia|unfold win; lia|done]. } rewrite <- R4, covers_app. destruct last as [[x y]|]; [exact (or_iff_compat_l _ (covers_one x y z))|exact (or_iff_compat_l _ (covers_nil z))].
Qed.

(** ** Trimming *)

Lemma holes_above U N a es hs x : Forall2 hole_is hs es -> holes_in a hs N -> U <= x < a -> N < U + 2 ^ 31 -> above seq_cmp (wr x) es.
Proof.
  intros Hf Hi Hx HN. apply Forall_forall. intros e He. apply list_elem_of_lookup in He as (i & He). destruct (Forall2_lookup_r _ _ _ _ _ Hf He) as (h & Hh & [-> _]). apply list_elem_of_lookup_2 in Hh.
  pose proof (holes_in_elem _ _ _ h Hi Hh). rewrite (seq_cmp_win U) by (unfold win; lia). apply Z.compare_lt_iff. lia.
Qed.
(** Taking out the first hole. *)
Lemma remove_first U N t e es h hs : entries_of seq_cmp (dom U) t (e :: es) -> holes_as U N (e :: es) (h :: hs) -> N < U + 2 ^ 31 ->
  exists t' o, RbTree.remove seq_cmp t e.1 = Some (t', o) /\ entries_of seq_cmp (dom U) t' es.
Proof.
  intros He [Hf Hi] HN. inversion Hf as [|? ? ? ? [E1 E2] Hf']; subst. destruct Hi as (H1 & H2 & H3). assert (dom U e.1) as Hd by (exists h.1; split; [unfold win; lia|done]).
  destruct (rb_remove_spec seq_cmp (dom U) t (e :: es) e.1 He Hd) as (t' & E & _ & H'). exists t'. eexists. split; [exact E|]. destruct e as [k v]. cbn [fst] in *.
  change ((k, v) :: es) with ([] ++ (k, v) :: es) in H'. rewrite (remove_in_split seq_cmp (dom U) k v [] es Hd (List.Forall_nil _)) in H'; [done|]. rewrite E1. apply (holes_above U N (h.2 + 1) es hs); (done || lia).
Qed.

Lemma drop_spec U N n t es hs : entries_of seq_cmp (dom U) t es -> holes_as U N es hs -> N < U + 2 ^ 31 -> (length es < n)%nat ->
  exists t', drop_holes n t = Some t' /\ entries_of seq_cmp (dom U) t' [].
Proof.
  revert t es hs. induction n as [|n IH]; intros t es hs He Hh HN Hn; [lia|]. cbn [drop_holes]. rewrite (rb_first_spec seq_cmp (dom U) t es He). cbn [mbind option_bind].
  destruct es as [|[k v] es]; [by exists t|]. cbn [head]. destruct hs as [|h hs]; [by inversion Hh as [Hf _]; inversion Hf|].
  destruct (remove_first U N t (k, v) es h hs He Hh HN) as (t' & o & E & H'). cbn [fst] in E. rewrite E. cbn [mbind option_bind]. apply (IH t' es hs); [done| |done|cbn in Hn; lia].
  destruct Hh as [Hf Hi]. inversion Hf; subst. split; [done|]. destruct Hi as (? & ? & Hi). eapply holes_in_weaken; [done|lia|lia].
Qed.

Lemma prune_cons A h hs : prune A (h :: hs) = if h.2 <=? A then prune A hs else (Z.max h.1 A, h.2) :: prune A hs.
Proof. unfold prune. cbn. unfold cut at 1. by destruct (h.2 <=? A). Qed.
Lemma prune_in U N A hs : holes_in U hs N -> U <= A -> holes_in A (prune A hs) N.
Proof.
  revert U. induction hs as [|h hs IH]; intros U; [done|]. intros (H1 & H2 & H3) HA. rewrite prune_cons. destruct (Z.leb_spec h.2 A) as [Hle|Hgt].
  - destruct (Z.le_gt_cases (h.2 + 1) A); [by apply (IH (h.2 + 1))|]. rewrite prune_id; [eapply holes_in_weaken; [done|lia|done]|]. apply Forall_forall. intros b Hb. pose proof (holes_in_elem _ _ _ b H3 Hb). lia.
  - cbn [holes_in fst snd]. split_and!; [lia..|]. rewrite prune_id; [done|]. apply Forall_forall. intros b Hb. pose proof (holes_in_elem _ _ _ b H3 Hb). lia.
Qed.

Lemma trim_spec U N A n t es hs : entries_of seq_cmp (dom U) t es -> holes_as U N es hs -> N < U + 2 ^ 31 -> U <= A < U + 2 ^ 31 -> (length es < n)%nat -> vlen es < 2 ^ 31 ->
  exists t' es', trim_holes n (wr A) t = Some t' /\ entries_of seq_cmp (dom U) t' es' /\ Forall2 hole_is (prune A hs) es'.
Proof.
  intros He Hh HN HA Hn Hc. revert t es hs He Hh Hn Hc. induction n as [|n IH]; intros t es hs He Hh Hn Hc; [lia|]. cbn [trim_holes]. rewrite (rb_first_spec seq_cmp (dom U) t es He). cbn [mbind option_bind].
  pose proof Hh as [Hf Hi]. destruct es as [|[k v] es]; inversion Hf as [|h ? hs0 ? [E1 E2] Hf']; subst; [by exists t, []|]. rename hs0 into hs. cbn [head fst snd] in *. destruct Hi as (H1 & H2 & H3).
  assert (vlen ((k, v) :: es) = vlen es + 1) as Ec by (unfold vlen; cbn [length]; lia). rewrite E2, E1, (seq_le_win U), (seq_lt_win U) by (unfold win; lia).
  destruct (remove_first U N t (k, v) es h hs He Hh HN) as (t1 & o & E & Ht1). cbn [fst] in E. rewrite E1 in E. rewrite prune_cons. destruct (Z.leb_spec h.2 A) as [Hle|Hgt].
  - rewrite E. cbn [mbind option_bind]. apply (IH t1 es hs Ht1); [|cbn in Hn; lia|lia]. split; [done|]. eapply holes_in_weaken; [done|lia|lia].
  - rewrite prune_id by (apply Forall_forall; intros b Hb; pose proof (holes_in_elem _ _ _ b H3 Hb); lia). destruct (Z.ltb_spec h.1 A) as [Hlt|Hge].
    + rewrite E. cbn [mbind option_bind]. destruct (rb_insert_spec seq_cmp (dom U) t1 es (wr A) (hole_ (wr h.2) (hole_lost v)) Ht1) as (t2 & -> & _ & Ht2); [exists A; split; [unfold win; lia|done]|lia|].
      cbn [mbind option_bind]. exists t2. eexists. split; [done|]. split; [exact Ht2|]. rewrite insert_in_above by (apply (holes_above U N (h.2 + 1) es hs); (done || lia)). constructor; [|done]. split; cbn; [f_equal; lia|done].
    + exists t, ((k, v) :: es). split; [done|]. split; [done|]. constructor; [|done]. split; cbn; [rewrite E1; f_equal; lia|done].
Qed.

(** The holes after a cumulative acknowledgment of [A]. *)
Definition advanced (A : Z) L (high : Z) hs : list rng :=
  if bool_decide (L = []) || seq_le high (wr A) then [] else prune A hs.

Lemma scoreboard_advance_spec U M A s L es hs mds : list_ok A M (samples s) L -> entries_of seq_cmp (dom U) (holes (scoreboard s)) es -> holes_as U M es hs -> U <= A -> M < U + 2 ^ 31 ->
  exists s', advance_scoreboard_for_ack s (wr A) mds = Some s' /\ updated A M s L s' (advanced A L (seq_max (high_sacked (scoreboard s)) (wr A)) hs) /\
    high_sacked (scoreboard s') = seq_max (high_sacked (scoreboard s)) (wr A).
Proof.
  intros Hl He Hh HU HM. pose proof (spans_le _ _ _ (lc_spans _ _ _ _ (proj1 Hl))) as HA. pose proof (lc_head _ _ _ _ (proj1 Hl)) as EL.
  pose proof (entries_len seq_cmp (dom U) _ _ He) as (_ & Elen & _). assert (length es < hole_fuel (holes (scoreboard s)))%nat as Hf by (unfold hole_fuel; rewrite Elen; unfold vlen; lia).
  assert (vlen es < 2 ^ 31) as Hc by (rewrite (holes_len _ _ _ _ Hh); pose proof (holes_few _ _ _ (proj2 Hh) ltac:(lia)); lia).
  unfold advance_scoreboard_for_ack, advanced. set (high := seq_max _ _). set (b := set_high _ _ _). change (holes b) with (holes (scoreboard s)). rewrite EL.
  replace (bool_decide (first_index L None = None)) with (bool_decide (L = [])) by (apply bool_decide_ext; by destruct L). destruct (_ || _).
  - destruct (drop_spec U M (hole_fuel (holes (scoreboard s))) _ es hs He Hh HM Hf) as (t' & -> & Ht'). cbn [mbind option_bind]. apply (entries_rebase U A) in Ht'; [|done].
    destruct (refresh_plain A M s (set_board (set_holes t' b) s) L [] []) as (s' & -> & Hu & Eh); [by constructor|done|by constructor|]. by exists s'.
  - destruct (trim_spec U M A (hole_fuel (holes (scoreboard s))) _ es hs He Hh HM ltac:(lia) Hf Hc) as (t' & es' & -> & Ht' & Hf'). cbn [mbind option_bind]. pose proof (prune_in _ _ A _ (proj2 Hh) HU) as Hi.
    apply (entries_rebase U A) in Ht'.
    2:{ apply Forall_forall. intros e Hein. apply list_elem_of_lookup in Hein as (i & Hein). destruct (Forall2_lookup_r _ _ _ _ _ Hf' Hein) as (h & Hin & [-> _]). apply list_elem_of_lookup_2 in Hin.
        pose proof (holes_in_elem _ _ _ h Hi Hin). exists h.1. split; [unfold win; lia|done]. }
    destruct (refresh_updated A M s (set_board (set_holes t' b) s) L es' (prune A hs) mds) as (s' & -> & Hu & Eh); [|done|by constructor|by exists s'].
    constructor; [done|done|]. rewrite (holes_len _ _ _ _ (conj Hf' Hi)). pose proof (holes_few _ _ _ Hi HA). lia.
Qed.

End TcpScoreboardProofs.
