(* ===== verification/TcpAcks.v ===== *)
(** * Acknowledgments as a whole

    [on_ack] and [on_sack_blocks] on a state that tracks positions: they
    return, the samples left are those the acknowledgment does not cover, and
    the holes are pruned or rebuilt. *)

From S2P Require Import Prelude Ranges InfraPool InfraRbTree InfraRbOps TcpProtocol TcpOptions TcpSack TcpSackProofs TcpRecovery TcpSamples TcpRecoveryOps TcpAckOps TcpScoreboard.

Module TcpAcks.
Import Ranges TcpProtocol TcpOptions TcpSackProofs RbOps TcpRecovery TcpSamples TcpRecoveryOps TcpAckOps TcpScoreboardProofs.

Implicit Types (it : item) (L : list item) (s : TcpRecoveryState) (es : hole_entries) (hs : list rng).

(** [U] is the oldest position not acknowledged, [N] the next one to be sent,
    [P] the end of the last data and [T] the number of bytes sent. *)
Record tracked (U N P T : Z) s L es hs : Prop := mk_tracked {
  tr_sane : sane U N s L es;
  tr_holes : holes_as U N es hs;
  tr_sum : delivered (rate s) + total L = T;
  tr_pos : 0 <= delivered (rate s);
  tr_small : T < 2 ^ 64;
  tr_high : in_word 32 (high_sacked (scoreboard s));
  tr_end : L <> [] -> snd_nxt s = wr P;
  tr_below : forall z, outstanding L z -> z < P;
  tr_le : P <= N
}.

Lemma tracked_keeps U N P T s L es hs s' : tracked U N P T s L es hs -> keeps U N s L es s' ->
  exists L' es', tracked U N P T s' L' es' hs /\ same_shape L L' /\ same_scalars s s'.
Proof.
  intros [H1 H2 H3 H4 H5 H6 H7 H8 H9] (L' & es' & K1 & K2 & K3 & K4). pose proof K4 as [S1 S2 S3 S4 S5]. exists L', es'. split; [|by split]. constructor; try done.
  - by eapply shape_holes.
  - rewrite S1, <- (shape_total _ _ K2). done.
  - by rewrite S1.
  - by rewrite S5.
  - intros Hn. rewrite S2. apply H7. intros ->. inversion K2. by subst.
  - intros z Hz. apply H8. by apply (shape_outstanding _ _ _ K2).
Qed.

Lemma read_total U N s L es {X : Type} (body : TcpSentSample -> X -> X * bool) (x : X) : sane U N s L es -> exists y, walk_read s body x = Some y.
Proof. intros H. eexists. pose proof (sane_core _ _ _ _ _ H) as Hc. apply (walk_read_spec s L body x); apply Hc. Qed.

Section acks.
Context {C : Type} `{!CongestionController C}.
Context (U N P T : Z) (s : TcpRecoveryState) (L : list item) (es : hole_entries) (hs : list rng) (ack : TcpRecoveryAck) (A : Z).
Hypothesis Htr : tracked U N P T s L es hs.
Hypothesis EA : acknowledgment ack = wr A.
Hypothesis HA : U <= A <= N.

(** The part of the state the scoreboard is updated in. *)
Let s0 : TcpRecoveryState := set_floor (acknowledgment ack) s.

Lemma cumulative_here : exists x, cumulative_ack s0 ack = Some x /\ acking T s0 A N x (after A L).
Proof.
  destruct Htr as [[Hl _ _] _ Hs Hp Ht _ _ _ _]. destruct (cumulative_spec T s0 ack Ht U N A L Hl EA HA Hs Hp) as (x & E & H). exists x. split; [done|].
  destruct H as [H1 H2 H3 H4]. constructor; try done. apply (list_rebase U); [done| |lia]. apply (after_spans U); [apply (proj1 Hl)|lia|lia].
Qed.

(** The samples left, the holes and what does not change. *)
Definition settled s' L' es' hs' : Prop :=
  tracked A N P T s' L' es' hs' /\ ack_floor s' = wr A /\ snd_nxt s' = snd_nxt s /\ rack_enabled s' = rack_enabled s.

Lemma settle x L1 s2 hs2 : acking T s0 A N x L1 -> (forall z, outstanding L1 z -> outstanding L z) -> in_word 32 (high_sacked (scoreboard s2)) -> updated A N (al_state x) L1 s2 hs2 ->
  exists L2 es2, settled s2 L2 es2 hs2 /\ same_shape L1 L2.
Proof.
  intros [H1 [F1 F2 F3 F4] H3 H4] Hsub Hh (L2 & es2 & K1 & K2 & K3 & [B1 B2 B3 B4]). exists L2, es2. split; [|done]. destruct Htr as [_ _ _ _ T5 _ T7 T8 T9].
  split_and!; [|rewrite B3, F3; exact EA|rewrite B2, F2; done|rewrite B4, F4; done]. constructor; try done.
  - by rewrite B1, <- (shape_total _ _ K2).
  - by rewrite B1.
  - intros Hn. rewrite B2, F2. apply T7. intros ->. destruct L1 as [|it L1]; [inversion K2; by subst|]. pose proof (lc_spans _ _ _ _ (proj1 H1)) as Hs. cbn in Hs.
    destruct (proj1 (outstanding_nil (lo it)) (Hsub (lo it) ltac:(apply outstanding_cons; left; lia))).
  - intros z Hz. apply T8, Hsub. by apply (shape_outstanding _ _ _ K2).
Qed.

Lemma settled_keeps s2 L2 es2 hs2 s3 : settled s2 L2 es2 hs2 -> keeps A N s2 L2 es2 s3 ->
  exists L3 es3, settled s3 L3 es3 hs2 /\ same_shape L2 L3 /\ high_sacked (scoreboard s3) = high_sacked (scoreboard s2).
Proof.
  intros (H1 & H2 & H3 & H4) K. destruct (tracked_keeps _ _ _ _ _ _ _ _ _ H1 K) as (L3 & es3 & H5 & Sh & [? ? ? ? ?]). exists L3, es3. split; [|by split]. split_and!; [done|congruence..].
Qed.

Definition queue_in_recovery s (adv : bool) : option TcpRecoveryState :=
  if recovery_active (prr s) && adv then
    s ← queue_recovery_head s;
    let p := prr s in
    Some (set_prr (mk_prr (recovery_active p) true (recovery_window p) (recovery_prev_window p) (recovery_delivered p)
      (recovery_prev_delivered p) (recovery_retransmitted p) (recovery_new_data p) (recovery_end_sequence p)) s)
  else Some s.
(** [on_ack] after the scoreboard. *)
Definition ack_rest s (c : C) (adv dup : bool) rtt : option (TcpRecoveryState * C * option Duration) :=
  let '(s, c) := maybe_finish_recovery s (acknowledgment ack) c in
  '(s, c) ← (if rack_enabled s && seq_gt (high_sacked (scoreboard s)) (acknowledgment ack) then detect_losses s ack (high_sacked (scoreboard s)) c else Some (s, c));
  s ← queue_in_recovery s adv;
  Some (update_probe s (acknowledgment ack) rtt dup, c, rtt).

Lemma ack_rest_safe s2 L2 es2 (c : C) (adv dup : bool) rtt : sane A N s2 L2 es2 ->
  exists s' c', ack_rest s2 c adv dup rtt = Some (s', c', rtt) /\ keeps A N s2 L2 es2 s'.
Proof.
  intros H. unfold ack_rest. destruct (maybe_finish_recovery _ _ _) as [s3 c3] eqn:E3. pose proof (finish_keeps A N _ _ _ _ _ _ _ H E3) as K3. destruct K3 as (L3 & es3 & H3 & A3 & B3 & C3).
  assert (safe_cc A N s3 L3 es3 (if rack_enabled s3 && seq_gt (high_sacked (scoreboard s3)) (acknowledgment ack) then detect_losses s3 ack (high_sacked (scoreboard s3)) c3 else Some (s3, c3))) as (s4 & c4 & -> & L4 & es4 & H4 & A4 & B4 & C4).
  { destruct (_ && _); [by apply detect_losses_safe|]. exists s3, c3. split; [done|]. by apply keeps_refl. }
  cbn [mbind option_bind].
  assert (safe A N s4 L4 es4 (queue_in_recovery s4 adv)) as (s5 & -> & L5 & es5 & H5 & A5 & B5 & C5).
  { unfold queue_in_recovery. destruct (_ && _); [|by apply safe_some, keeps_refl]. eapply safe_then; [by apply queue_head_safe|]. intros. apply safe_some. by apply keeps_same. }
  cbn [mbind option_bind]. eexists _, c4. split; [done|]. destruct (probe_keeps A N s5 L5 es5 (acknowledgment ack) rtt dup H5) as (L6 & es6 & H6 & A6 & B6 & C6).
  exists L6, es6. split_and!; [done| | |]; (etrans; [eassumption|etrans; [eassumption|by etrans]]).
Qed.

Lemma high_word k : in_word 32 k -> in_word 32 (seq_max k (wr A)).
Proof. intros Hk. unfold seq_max, TcpSack.seq_max. destruct (seq_lt _ _); [done|apply wrap_bounds; lia]. Qed.

Lemma on_ack_spec (c : C) : exists s' c' r L' es', on_ack s ack c = Some (s', c', r) /\
  settled s' L' es' (advanced A (after A L) (seq_max (high_sacked (scoreboard s)) (wr A)) hs) /\
  (forall z, outstanding L' z <-> outstanding L z /\ A <= z) /\ high_sacked (scoreboard s') = seq_max (high_sacked (scoreboard s)) (wr A).
Proof.
  unfold on_ack, process_ack. fold s0. set (c1 := if probe_at _ _ then _ else c). destruct cumulative_here as (x & -> & Hx). cbn [mbind option_bind].
  set (c2 := if negb (any_acked x) && _ then _ else _). pose proof (ak_frame _ _ _ _ _ _ Hx) as [F1 _ _ _]. pose proof Htr as [[H1 H2 H3] Hh _ _ _ T6 _ _ _].
  destruct (scoreboard_advance_spec U N A (al_state x) (after A L) es hs (max_datagram_size c2)) as (s2 & E2 & Hu & Eh); [apply Hx|by rewrite F1|done|lia|apply (proj1 H1)|].
  rewrite F1 in Hu, Eh. cbn [s0 set_floor scoreboard] in Hu, Eh. rewrite <- EA in E2. rewrite E2. cbn [mbind option_bind].
  assert (forall z, outstanding (after A L) z -> outstanding L z) as Hsub by (intros z Hz; by apply (after_outstanding U A L N z (lc_spans _ _ _ _ (proj1 H1)))).
  destruct (fun Hw => settle x (after A L) s2 _ Hx Hsub Hw Hu) as (L2 & es2 & Hs2 & Sh2); [rewrite Eh; by apply high_word|].
  match goal with |- context [update_probe _ _ _ ?d] => change (exists s' c' r L' es', ack_rest s2 c2 (any_acked x) d (latest_rtt x) = Some (s', c', r) /\
    settled s' L' es' (advanced A (after A L) (seq_max (high_sacked (scoreboard s)) (wr A)) hs) /\
    (forall z, outstanding L' z <-> outstanding L z /\ A <= z) /\ high_sacked (scoreboard s') = seq_max (high_sacked (scoreboard s)) (wr A));
    destruct (ack_rest_safe s2 L2 es2 c2 (any_acked x) d (latest_rtt x) (tr_sane _ _ _ _ _ _ _ _ (proj1 Hs2))) as (s3 & c3 & E3 & K3) end.
  destruct (settled_keeps _ _ _ _ _ Hs2 K3) as (L3 & es3 & Hs3 & Sh3 & Eh3). exists s3, c3, (latest_rtt x), L3, es3. split_and!; [done|done| |by rewrite Eh3].
  intros z. rewrite <- (shape_outstanding _ _ _ Sh3), <- (shape_outstanding _ _ _ Sh2). apply (after_outstanding U A L N z (lc_spans _ _ _ _ (proj1 H1))).
Qed.

(** *** Selective acknowledgments *)

Lemma top_bounds a m dsack first blocks h : h <= top h (sack_ranges a m dsack first blocks) <= Z.max h m.
Proof.
  revert first h. induction blocks as [|b blocks IH]; intros first h; cbn [sack_ranges]; [cbn; lia|]. destruct (_ && _) eqn:E; [|apply IH]. apply andb_true_iff in E as [_ E].
  unfold block_inside in E. destruct (block_range a b) as [x y]. rewrite !andb_true_iff, !Z.ltb_lt, Z.leb_le in E. cbn [app top foldl fst snd]. specialize (IH false (Z.max h y)). unfold top in IH. cbn in *. lia.
Qed.

Lemma blocks_word dsack blocks : forall first hr x hr' x', Forall block_words blocks -> in_word 32 hr -> sack_blocks_loop ack dsack first blocks hr x = Some (hr', x') -> in_word 32 hr'.
Proof.
  induction blocks as [|b blocks IH]; intros first hr x hr' x' Hw Hh; cbn [sack_blocks_loop]; [by intros [= <- _]|]. apply Forall_cons in Hw as [[Hb1 Hb2] Hw]. destruct (negb _); [by apply IH|].
  destruct (sample_at_or_after _ _ _) as [cursor|]; [|done]. cbn [mbind option_bind]. destruct (sack_loop _ _ _ _ _) as [x1|]; [|done]. cbn [mbind option_bind]. apply IH; [done|].
  unfold seq_max, TcpSack.seq_max. by destruct (seq_lt _ _).
Qed.

Definition dsack_of (blocks : list TcpSackBlock) : option TcpSackBlock := dsack_block blocks (acknowledgment ack).
Definition ranges_of (blocks : list TcpSackBlock) : list rng := sack_ranges A P (dsack_of blocks) true blocks.

Lemma after_empty : ~ (snd_nxt s = wr P /\ A <= P) -> after A L = [].
Proof.
  intros Hn. pose proof Htr as [[H1 _ _] _ _ _ _ _ T7 T8 _]. pose proof (lc_spans _ _ _ _ (proj1 H1)) as Hs. destruct L as [|jt L0] eqn:EL; [done|]. rewrite <- EL in *. clear jt L0 EL.
  destruct (after A L) as [|it L1] eqn:E; [done|exfalso]. pose proof (after_spans U A L N Hs ltac:(lia) ltac:(lia)) as Ha. rewrite E in Ha. cbn in Ha.
  assert (outstanding (after A L) (lo it)) as Ho by (rewrite E; apply outstanding_cons; left; lia). apply (after_outstanding U A L N (lo it) Hs) in Ho as [Ho _].
  apply Hn. split; [apply T7; intros ->; by apply outstanding_nil in Ho|]. pose proof (T8 _ Ho). lia.
Qed.

(** The loop over the blocks. *)
Lemma blocks_here blocks x : Forall block_words blocks -> acking T s0 A N x (after A L) ->
  exists hr' x' L', sack_blocks_loop ack (dsack_of blocks) true blocks (seq_max (high_sacked (scoreboard s)) (wr A)) x = Some (hr', x') /\ acking T s0 A N x' L' /\ in_word 32 hr' /\
    (forall z, outstanding L' z <-> outstanding L z /\ A <= z /\ ~ Ranges.covers (ranges_of blocks) z) /\
    (snd_nxt s = wr P /\ A <= P \/ blocks = [] -> forall H, win A H -> seq_max (high_sacked (scoreboard s)) (wr A) = wr H -> hr' = wr (top H (ranges_of blocks))).
Proof.
  intros Hw Hx. pose proof Htr as [[H1 _ _] _ _ _ T5 T6 T7 T8 T9]. pose proof (lc_window _ _ _ _ (proj1 H1)) as HN. pose proof (lc_spans _ _ _ _ (proj1 H1)) as Hs.
  destruct (decide (snd_nxt s = wr P /\ A <= P)) as [[EP HP]|Hn].
  - destruct (blocks_loop_spec T s0 ack T5 A N P (dsack_of blocks) EA EP ltac:(lia) blocks true (seq_max (high_sacked (scoreboard s)) (wr A)) x (after A L) Hw Hx) as (hr' & x' & L' & E & H2 & H3 & H4).
    exists hr', x', L'. split_and!; [done|done| | |by intros _]; [eapply blocks_word; [exact Hw| |exact E]; by apply high_word|].
    intros z. rewrite H3, (after_outstanding U A L N z Hs). tauto.
  - pose proof (after_empty Hn) as Ee. rewrite Ee in Hx. destruct (blocks_loop_empty T s0 ack A N (dsack_of blocks) blocks true (seq_max (high_sacked (scoreboard s)) (wr A)) x Hw Hx) as (hr' & E).
    exists hr', x, []. split_and!; [done|done| | |]; [eapply blocks_word; [exact Hw| |exact E]; by apply high_word| |].
    2:{ intros [?| ->] K _ EK; [done|]. cbn in E. injection E as <-. by rewrite EK. }
    intros z. rewrite outstanding_nil. split; [done|]. intros (H2 & H3 & _). pose proof (proj2 (after_outstanding U A L N z Hs) (conj H2 H3)) as H4. rewrite Ee in H4. by apply outstanding_nil in H4.
Qed.

(** [on_sack_blocks] after the scoreboard. *)
Definition sack_rest s (c : C) (spurious dup : bool) (right : Z) rtt : option (TcpRecoveryState * C * option Duration) :=
  let '(s, c) := if spurious then (if recovery_active (prr s) then set_prr prr_idle s else s, cc_on_undo_recovery c) else (s, c) in
  let '(s, c) := maybe_finish_recovery s (acknowledgment ack) c in
  '(s, c) ← (if rack_enabled s && negb (right =? acknowledgment ack) then detect_losses s ack right c else Some (s, c));
  Some (update_probe s (acknowledgment ack) rtt dup, c, rtt).

Lemma sack_rest_safe s2 L2 es2 (c : C) (spurious dup : bool) right rtt : sane A N s2 L2 es2 ->
  exists s' c', sack_rest s2 c spurious dup right rtt = Some (s', c', rtt) /\ keeps A N s2 L2 es2 s'.
Proof.
  intros H. unfold sack_rest. set (m := if spurious then _ else _). assert (keeps A N s2 L2 es2 m.1) as (L3 & es3 & H3 & A3 & B3 & C3) by (unfold m; destruct spurious; [destruct (recovery_active _)|]; by apply keeps_same).
  destruct m as [s3 c3]. cbn [fst] in *. destruct (maybe_finish_recovery _ _ _) as [s4 c4] eqn:E4. destruct (finish_keeps A N _ _ _ _ _ _ _ H3 E4) as (L4 & es4 & H4 & A4 & B4 & C4).
  assert (safe_cc A N s4 L4 es4 (if rack_enabled s4 && negb (right =? acknowledgment ack) then detect_losses s4 ack right c4 else Some (s4, c4))) as (s5 & c5 & -> & L5 & es5 & H5 & A5 & B5 & C5).
  { destruct (_ && _); [by apply detect_losses_safe|]. exists s4, c4. split; [done|]. by apply keeps_refl. }
  cbn [mbind option_bind]. eexists _, c5. split; [done|]. destruct (probe_keeps A N s5 L5 es5 (acknowledgment ack) rtt dup H5) as (L6 & es6 & H6 & A6 & B6 & C6).
  exists L6, es6. split_and!; [done| | |]; (etrans; [eassumption|etrans; [eassumption|by etrans]]).
Qed.

Lemma on_sack_spec blocks (c : C) : Forall block_words blocks -> exists s' c' r L' es' hs', on_sack_blocks s ack blocks c = Some (s', c', r) /\
  settled s' L' es' hs' /\ (forall z, outstanding L' z <-> outstanding L z /\ A <= z /\ ~ Ranges.covers (ranges_of blocks) z) /\
  (forall H, A <= H < A + 2 ^ 31 -> high_sacked (scoreboard s') = wr H -> forall z, Ranges.covers hs' z <-> outstanding L' z /\ z < H) /\
  (snd_nxt s = wr P /\ A <= P \/ blocks = [] -> forall H, win A H -> seq_max (high_sacked (scoreboard s)) (wr A) = wr H -> high_sacked (scoreboard s') = wr (top H (ranges_of blocks))).
Proof.
  intros Hw. unfold on_sack_blocks. fold s0. fold (dsack_of blocks). match goal with |- context [if ?d then Some false else match dsack_of blocks with Some _ => _ | None => _ end] => set (tlp_dsack := d) end.
  assert (exists b : bool, (if tlp_dsack then Some false else match dsack_of blocks with Some block => retransmitted_range_covered s0 (left_edge block) (right_edge block) | None => Some false end) = Some b) as (spurious & ->).
  { destruct tlp_dsack; [by exists false|]. destruct (dsack_of blocks) as [b|]; [|by exists false]. unfold retransmitted_range_covered.
    match goal with |- context [walk_read s0 ?f ?x] => destruct (read_total U N s0 L es f x) as (y & ->); [|by exists y.2] end. destruct Htr as [[H1 H2 H3] _ _ _ _ _ _ _ _]. by constructor. }
  cbn [mbind option_bind]. destruct cumulative_here as (x & -> & Hx). cbn [mbind option_bind]. pose proof (ak_frame _ _ _ _ _ _ Hx) as [F1 _ _ _].
  rewrite F1. change (scoreboard s0) with (scoreboard s). destruct (blocks_here blocks x Hw Hx) as (hr & x' & L' & E1 & Hx' & Hhr & HL' & Hhigh). rewrite <- EA in E1. rewrite E1. cbn [mbind option_bind].
  match goal with |- context [rebuild_scoreboard _ _ _ (max_datagram_size ?d)] => set (c2 := d) end. pose proof (ak_list _ _ _ _ _ _ Hx') as Hl'.
  destruct (rebuild_spec A N (al_state x') L' hr (max_datagram_size c2) Hl' Hhr) as (s2 & hs2 & E2 & Hu & Eh & Hcov). rewrite <- EA in E2. rewrite E2. cbn [mbind option_bind].
  destruct (fun Hin => settle x' L' s2 hs2 Hx' Hin ltac:(rewrite Eh; by apply high_word) Hu) as (L2 & es2 & Hs2 & Sh2); [intros z Hz; by apply HL' in Hz as [? _]|].
  match goal with |- context [update_probe _ _ _ ?d] => destruct (sack_rest_safe s2 L2 es2 c2 spurious d hr (latest_rtt x') (tr_sane _ _ _ _ _ _ _ _ (proj1 Hs2))) as (s3 & c3 & E3 & K3) end.
  destruct (settled_keeps _ _ _ _ _ Hs2 K3) as (L3 & es3 & Hs3 & Sh3 & Eh3). assert (forall z, outstanding L3 z <-> outstanding L' z) as Ho by (intros z; by rewrite <- (shape_outstanding _ _ _ Sh3), <- (shape_outstanding _ _ _ Sh2)).
  exists s3, c3, (latest_rtt x'), L3, es3, hs2. split; [exact E3|]. split; [done|]. split; [intros z; by rewrite Ho, HL'|]. split.
  - intros H HH EH z. rewrite Ho. apply Hcov; [done|]. by rewrite <- Eh, <- Eh3.
  - intros HP H WH EH. rewrite Eh3, Eh, (Hhigh HP H WH EH). pose proof (top_bounds A P (dsack_of blocks) true blocks H) as B. fold (ranges_of blocks) in B. pose proof Htr as [[[H1 _] _ _] _ _ _ _ _ _ _ T9].
    pose proof (lc_window _ _ _ _ H1). unfold win in WH. rewrite (seq_max_win A) by (unfold win; lia). f_equal. lia.
Qed.

End acks.

End TcpAcks.
