(* ===== verification/TcpSenderInv.v ===== *)
(** * What the recovery state of a sender knows

    [recovers] relates the recovery state of a connection to positions of the
    byte stream: the samples cover exactly the bytes sent that are neither
    acknowledged nor in a block that was acknowledged selectively, and, with
    [exact], the holes are the runs of such bytes below the highest block.
    Sending and acknowledging keep it, and so does everything that only marks
    samples. *)

From S2P Require Import Prelude Ranges InfraPool InfraRbTree InfraRbOps TcpProtocol TcpOptions TcpSack TcpSackProofs TcpRecovery TcpSamples TcpRecoveryOps TcpAckOps TcpScoreboard TcpAcks.

Module TcpSenderInv.
Import Ranges TcpProtocol TcpOptions TcpSackProofs RbOps TcpRecovery TcpSamples TcpRecoveryOps TcpAckOps TcpScoreboardProofs TcpAcks.

Implicit Types (L : list item) (r : TcpRecoveryState) (es : hole_entries) (hs sacked : list rng).

(** The largest window a peer can advertise. *)
Definition window_max : Z := 65535 * 2 ^ 14.

(** [H] is the highest position acknowledged; before the first acknowledgment
    it is 0, below the first byte at [P0]. *)
Record exact_board (P0 U N H : Z) L hs r : Prop := mk_exact {
  eb_high : high_sacked (scoreboard r) = wr H;
  eb_top : H <= N;
  eb_before : H < U -> H = 0 /\ U = P0 /\ ack_floor r = 0;
  eb_floor : U <= H -> ack_floor r = wr U;
  eb_holes : forall z, Ranges.covers hs z <-> outstanding L z /\ z < H;
  eb_nxt : N = P0 \/ snd_nxt r = wr N
}.

Definition recovers (exact : bool) (P0 U N H : Z) sacked r : Prop :=
  exists L es hs, tracked U N N (N - P0) r L es hs /\ (forall z, outstanding L z <-> U <= z < N /\ ~ Ranges.covers sacked z) /\
    (exact = true -> exact_board P0 U N H L hs r).

Section inv.
Context (exact : bool) (P0 U N H : Z) (sacked : list rng).

Lemma exact_shape r r' L L' hs : exact_board P0 U N H L hs r -> same_scalars r r' -> same_shape L L' -> exact_board P0 U N H L' hs r'.
Proof.
  intros [B1 B2 B3 B4 B5 B6] [S1 S2 S3 S4 S5] Sh. constructor; [congruence|done| | | |].
  - intros HU. destruct (B3 HU) as (? & ? & ?). split_and!; congruence.
  - intros HU. rewrite S3. auto.
  - intros z. rewrite <- (shape_outstanding _ _ _ Sh). apply B5.
  - rewrite S2. done.
Qed.
Lemma recovers_at r r' L es hs : tracked U N N (N - P0) r L es hs -> (forall z, outstanding L z <-> U <= z < N /\ ~ Ranges.covers sacked z) -> (exact = true -> exact_board P0 U N H L hs r) ->
  keeps U N r L es r' -> recovers exact P0 U N H sacked r' /\ in_flight r' = in_flight r.
Proof.
  intros H1 H2 H3 K. destruct (tracked_keeps _ _ _ _ _ _ _ _ _ H1 K) as (L' & es' & H4 & Sh & Sc). split.
  - exists L', es', hs. split; [done|]. split; [intros z; rewrite <- (shape_outstanding _ _ _ Sh); apply H2|]. intros E. by eapply exact_shape; [apply H3|..].
  - destruct (sn_list _ _ _ _ _ (tr_sane _ _ _ _ _ _ _ _ H1)) as [_ E1]. destruct (sn_list _ _ _ _ _ (tr_sane _ _ _ _ _ _ _ _ H4)) as [_ E2]. unfold in_flight. rewrite E1, E2. symmetry. by apply shape_total.
Qed.
Lemma recovers_keeps r r' : recovers exact P0 U N H sacked r -> (forall L es, sane U N r L es -> keeps U N r L es r') -> recovers exact P0 U N H sacked r' /\ in_flight r' = in_flight r.
Proof. intros (L & es & hs & H1 & H2 & H3) K. apply (recovers_at r r' L es hs H1 H2 H3). apply K, H1. Qed.
(** A computation that only marks samples. *)
Lemma recovers_safe r m : recovers exact P0 U N H sacked r -> (forall L es, sane U N r L es -> safe U N r L es m) -> exists r', m = Some r' /\ recovers exact P0 U N H sacked r' /\ in_flight r' = in_flight r.
Proof.
  intros (L & es & hs & H1 & H2 & H3) Hs. destruct (Hs L es (tr_sane _ _ _ _ _ _ _ _ H1)) as (r' & E & K). exists r'. split; [done|]. by apply (recovers_at r r' L es hs).
Qed.
Lemma recovers_cc {C : Type} r (m : option (TcpRecoveryState * C)) : recovers exact P0 U N H sacked r -> (forall L es, sane U N r L es -> safe_cc U N r L es m) ->
  exists r' c', m = Some (r', c') /\ recovers exact P0 U N H sacked r' /\ in_flight r' = in_flight r.
Proof.
  intros (L & es & hs & H1 & H2 & H3) Hs. destruct (Hs L es (tr_sane _ _ _ _ _ _ _ _ H1)) as (r' & c' & E & K). exists r', c'. split; [done|]. by apply (recovers_at r r' L es hs).
Qed.

Lemma list_extend l L M : list_ok U N l L -> N <= M < U + 2 ^ 31 -> list_ok U M l L.
Proof. intros [[? ? ? ? ? Hs ?] Hb] HM. split; [|done]. constructor; try done; [|lia]. eapply spans_weaken; [exact Hs|lia|lia]. Qed.

Lemma recovers_sent r n number flight at_ limited : recovers exact P0 U N H sacked r -> (forall x, x ∈ sacked -> x.2 <= N) -> 0 < n -> N + n - U <= window_max -> N + n - P0 < 2 ^ 64 ->
  exists r', record_sent r number (wr N) (wr (N + n)) n n flight at_ limited = Some r' /\ recovers exact P0 U (N + n) H sacked r'.
Proof.
  intros (L & es & hs & [T1 T2 T3 T4 T5 T6 T7 T8 T9] & H2 & H3) Hsk Hn Hw Ht. pose proof T1 as [Hl He Hf]. change window_max with 1073725440 in Hw.
  destruct (record_sent_spec U N r L N n number flight at_ limited Hl ltac:(lia) Hn ltac:(lia)) as (l & rt & t & i & x & E & Hl' & Ed). eexists. split; [exact E|].
  pose proof (spans_le _ _ _ (lc_spans _ _ _ _ (proj1 Hl))) as HUN.
  assert (forall z, outstanding (L ++ [mk_item i N (N + n) x]) z <-> outstanding L z \/ N <= z < N + n) as Ho.
  { intros z. rewrite outstanding_app, outstanding_cons, outstanding_nil. cbn [lo hi]. tauto. }
  exists (L ++ [mk_item i N (N + n) x]), es, hs. split; [|split].
  - constructor; cbn [scoreboard rate snd_nxt set_tlp set_snd_nxt set_samples set_rate]; try done.
    + destruct T2 as [F1 F2]. split; [done|]. eapply holes_in_weaken; [exact F2|lia|lia].
    + rewrite Ed, total_app. cbn [total lo hi]. lia.
    + by rewrite Ed.
    + intros z. rewrite Ho. intros [Hz%T8|?]; lia.
  - intros z. rewrite Ho, H2. split.
    + intros [[? ?]|Hz]; [split; [lia|done]|]. split; [lia|]. intros (b & Hb & Hz'). specialize (Hsk b Hb). lia.
    + intros [Hz Hc]. destruct (Z.lt_ge_cases z N); [left; split; [lia|done]|right; lia].
  - intros Ex. destruct (H3 Ex) as [B1 B2 B3 B4 B5 B6]. constructor; cbn [scoreboard ack_floor snd_nxt set_tlp set_snd_nxt set_samples set_rate]; try done; [lia| |by right].
    intros z. rewrite B5, Ho. split; [intros [? ?]; auto|]. intros [[?|?] ?]; [done|lia].
Qed.

(** *** Acknowledgments *)

Section acks.
Context {C : Type} `{!CongestionController C}.
Context (r : TcpRecoveryState) (ack : TcpRecoveryAck) (A : Z).
Hypothesis Hr : recovers exact P0 U N H sacked r.
Hypothesis EA : acknowledgment ack = wr A.
Hypothesis HA : U <= A <= N.
Hypothesis HW : N - U <= window_max.
Hypothesis HP : exact = true -> 0 < P0 <= 2 ^ 30.

(** The highest position is compared as a number. *)
Lemma high_max L hs : exact = true -> exact_board P0 U N H L hs r -> seq_max (high_sacked (scoreboard r)) (wr A) = wr (Z.max H A) /\ A <= Z.max H A <= N.
Proof.
  intros Ex [B1 B2 B3 B4 B5 B6]. specialize (HP Ex). change window_max with 1073725440 in HW. split; [|lia]. rewrite B1. unfold seq_max. destruct (Z.lt_ge_cases H U) as [Hlt|Hge].
  - destruct (B3 Hlt) as (-> & EU & _). apply (seq_max_win 0); unfold win; lia.
  - apply (seq_max_win U); unfold win; lia.
Qed.

(** The holes after a cumulative acknowledgment. *)
Lemma advanced_covers L hs : exact = true -> exact_board P0 U N H L hs r -> spans U L N ->
  forall z, Ranges.covers (advanced A (after A L) (seq_max (high_sacked (scoreboard r)) (wr A)) hs) z <-> (outstanding L z /\ A <= z) /\ z < Z.max H A.
Proof.
  intros Ex B Hs z. destruct (high_max L hs Ex B) as [Em Hm]. destruct B as [B1 B2 B3 B4 B5 B6]. unfold advanced. rewrite Em, (seq_le_win A) by (change window_max with 1073725440 in HW; unfold win; lia).
  pose proof (after_outstanding U A L N z Hs) as Ha. destruct (bool_decide_reflect (after A L = [])) as [En|_]; cbn [orb].
  { rewrite En, outstanding_nil in Ha. rewrite covers_nil. tauto. }
  destruct (Z.leb_spec (Z.max H A) A) as [Hle|Hgt]; [rewrite covers_nil; split; [done|]; intros [[? ?] ?]; lia|]. rewrite prune_covers, B5. replace (Z.max H A) with H by lia. tauto.
Qed.

Lemma recovers_ack (c : C) : exists r' c' rtt, on_ack r ack c = Some (r', c', rtt) /\ recovers exact P0 A N (Z.max H A) sacked r'.
Proof.
  destruct Hr as (L & es & hs & T & Ho & He). pose proof (lc_spans _ _ _ _ (proj1 (sn_list _ _ _ _ _ (tr_sane _ _ _ _ _ _ _ _ T)))) as Hs.
  destruct (on_ack_spec U N N (N - P0) r L es hs ack A T EA HA c) as (r' & c' & rtt & L' & es' & E & (T' & F1 & F2 & F3) & Ho' & Eh). exists r', c', rtt. split; [done|].
  eexists L', es', _. split; [exact T'|]. split; [intros z; rewrite Ho', Ho; split; [intros [[? ?] ?]; split; [lia|done]|intros [? ?]; split_and!; [lia..|done|lia]]|].
  intros Ex. pose proof (He Ex) as B. destruct (high_max L hs Ex B) as [Em Hm]. pose proof (advanced_covers L hs Ex B Hs) as Hcv. destruct B as [B1 B2 B3 B4 B5 B6]. constructor; [congruence|lia|lia|done| |by rewrite F2].
  intros z. by rewrite Ho', Hcv.
Qed.

Lemma recovers_sack blocks (c : C) : Forall block_words blocks -> (exact = true -> N = P0 -> blocks = []) ->
  let ranges := sack_ranges A N (dsack_block blocks (acknowledgment ack)) true blocks in
  exists r' c' rtt, on_sack_blocks r ack blocks c = Some (r', c', rtt) /\ recovers exact P0 A N (top (Z.max H A) ranges) (sacked ++ ranges) r'.
Proof.
  intros Hb Hn ranges. destruct Hr as (L & es & hs & T & Ho & He).
  destruct (on_sack_spec U N N (N - P0) r L es hs ack A T EA HA blocks c Hb) as (r' & c' & rtt & L' & es' & hs' & E & (T' & F1 & F2 & F3) & Ho' & Hh & Et). change (ranges_of N ack A blocks) with ranges in *. exists r', c', rtt. split; [done|].
  exists L', es', hs'. split; [exact T'|]. split; [intros z; rewrite Ho', Ho, covers_app; split; [intros ([? ?] & ? & ?); split; [lia|tauto]|intros [? ?]; split_and!; [lia..|tauto|lia|tauto]]|].
  intros Ex. pose proof (He Ex) as B. destruct (high_max L hs Ex B) as [Em Hm]. destruct B as [B1 B2 B3 B4 B5 B6]. pose proof (top_bounds A N (dsack_block blocks (acknowledgment ack)) true blocks (Z.max H A)) as Bt. fold ranges in Bt.
  assert (high_sacked (scoreboard r') = wr (top (Z.max H A) ranges)) as Eh.
  { apply Et; [|change window_max with 1073725440 in HW; unfold win; lia|done]. destruct B6 as [EN|EN]; [right; by apply Hn|left; split; [done|lia]]. }
  constructor; [done|lia|lia|done| |by rewrite F2]. apply Hh; [change window_max with 1073725440 in HW; lia|done].
Qed.

End acks.

End inv.

End TcpSenderInv.
