(* ===== verification/TcpSender.v ===== *)
(** * The send path of a TCP connection

    Models how payload leaves a connection: what the session layer may send and
    how it is cut into segments ([lib.rs] of the TCP plugin, [session/core.rs]),
    how a segment is numbered and recorded ([connection.rs], [worker.rs]),
    acknowledgments ([connection.rs], [established.rs]), the retransmission of a
    worker ([worker.rs]) and the timers that lead to it ([connection.rs],
    [lib.rs]).  The recovery state is that of [TcpRecovery].

    A connection has the fields the send path works on.  The TX FIFO is given by
    its content from the front on; a segment on the wire by its sequence number
    and its bytes.  The clock, the pacer's budget, the answers of the buffer
    allocator and of the round-trip estimator are arguments.  [None] is a panic. *)

From S2P Require Import Prelude InfraPool TcpProtocol TcpOptions TcpSack TcpRecovery.

Module TcpSender.
Import TcpProtocol TcpOptions TcpRecovery.

Record send_seqs : Type := mk_seqs { iss : Z; snd_una : Z; snd_nxt : Z; snd_wnd : Z }.
Record tx_intent : Type := mk_intent { tx_intent_sequence : option Z; tx_intent_payload_len : Z }.
Record keepalive : Type := mk_keepalive { last_activity_at : Instant; probes_sent : Z }.
(** [negotiated_options.sack] and [.send_window_scale] *)
Record send_options : Type := mk_options { opt_sack : bool; send_window_scale : option Z }.

Inductive TcpConnectionError : Type := InvalidState | PayloadLengthOverflow.

(** A segment with payload. *)
Record wire : Type := mk_wire { w_sequence : Z; w_bytes : list Z }.

Section sender.
Context {C : Type} `{!CongestionController C}.

Record TcpConnection : Type := tcp_connection {
  state : TcpState;
  seqs : send_seqs;
  intent : tx_intent;
  keep : keepalive;
  opts : send_options;
  fin_pending : bool;
  fin_sent : bool;
  fast_open_syn_payload_len : Z;
  bytes_in_flight_cached : Z;
  send_mss : Z;
  cwnd_limited_sequence : Z;
  limited_transmit : Z;
  received_dupacks : Z;
  persist_attempts : Z;
  pacing_ready : bool;
  retransmit_pending : bool;
  congestion : C;
  recovery : TcpRecoveryState
}.
Definition set_seqs (x : send_seqs) (c : TcpConnection) : TcpConnection :=
  tcp_connection (state c) x (intent c) (keep c) (opts c) (fin_pending c) (fin_sent c) (fast_open_syn_payload_len c) (bytes_in_flight_cached c) (send_mss c) (cwnd_limited_sequence c) (limited_transmit c) (received_dupacks c) (persist_attempts c) (pacing_ready c) (retransmit_pending c) (congestion c) (recovery c).
Definition set_intent (x : tx_intent) (c : TcpConnection) : TcpConnection :=
  tcp_connection (state c) (seqs c) x (keep c) (opts c) (fin_pending c) (fin_sent c) (fast_open_syn_payload_len c) (bytes_in_flight_cached c) (send_mss c) (cwnd_limited_sequence c) (limited_transmit c) (received_dupacks c) (persist_attempts c) (pacing_ready c) (retransmit_pending c) (congestion c) (recovery c).
Definition set_keep (x : keepalive) (c : TcpConnection) : TcpConnection :=
  tcp_connection (state c) (seqs c) (intent c) x (opts c) (fin_pending c) (fin_sent c) (fast_open_syn_payload_len c) (bytes_in_flight_cached c) (send_mss c) (cwnd_limited_sequence c) (limited_transmit c) (received_dupacks c) (persist_attempts c) (pacing_ready c) (retransmit_pending c) (congestion c) (recovery c).
Definition set_fast_open (x : Z) (c : TcpConnection) : TcpConnection :=
  tcp_connection (state c) (seqs c) (intent c) (keep c) (opts c) (fin_pending c) (fin_sent c) x (bytes_in_flight_cached c) (send_mss c) (cwnd_limited_sequence c) (limited_transmit c) (received_dupacks c) (persist_attempts c) (pacing_ready c) (retransmit_pending c) (congestion c) (recovery c).
Definition set_cached (x : Z) (c : TcpConnection) : TcpConnection :=
  tcp_connection (state c) (seqs c) (intent c) (keep c) (opts c) (fin_pending c) (fin_sent c) (fast_open_syn_payload_len c) x (send_mss c) (cwnd_limited_sequence c) (limited_transmit c) (received_dupacks c) (persist_attempts c) (pacing_ready c) (retransmit_pending c) (congestion c) (recovery c).
Definition set_mss (x : Z) (c : TcpConnection) : TcpConnection :=
  tcp_connection (state c) (seqs c) (intent c) (keep c) (opts c) (fin_pending c) (fin_sent c) (fast_open_syn_payload_len c) (bytes_in_flight_cached c) x (cwnd_limited_sequence c) (limited_transmit c) (received_dupacks c) (persist_attempts c) (pacing_ready c) (retransmit_pending c) (congestion c) (recovery c).
Definition set_cwnd_limited (x : Z) (c : TcpConnection) : TcpConnection :=
  tcp_connection (state c) (seqs c) (intent c) (keep c) (opts c) (fin_pending c) (fin_sent c) (fast_open_syn_payload_len c) (bytes_in_flight_cached c) (send_mss c) x (limited_transmit c) (received_dupacks c) (persist_attempts c) (pacing_ready c) (retransmit_pending c) (congestion c) (recovery c).
Definition set_limited (x : Z) (c : TcpConnection) : TcpConnection :=
  tcp_connection (state c) (seqs c) (intent c) (keep c) (opts c) (fin_pending c) (fin_sent c) (fast_open_syn_payload_len c) (bytes_in_flight_cached c) (send_mss c) (cwnd_limited_sequence c) x (received_dupacks c) (persist_attempts c) (pacing_ready c) (retransmit_pending c) (congestion c) (recovery c).
Definition set_dupacks (x : Z) (c : TcpConnection) : TcpConnection :=
  tcp_connection (state c) (seqs c) (intent c) (keep c) (opts c) (fin_pending c) (fin_sent c) (fast_open_syn_payload_len c) (bytes_in_flight_cached c) (send_mss c) (cwnd_limited_sequence c) (limited_transmit c) x (persist_attempts c) (pacing_ready c) (retransmit_pending c) (congestion c) (recovery c).
Definition set_persist (x : Z) (c : TcpConnection) : TcpConnection :=
  tcp_connection (state c) (seqs c) (intent c) (keep c) (opts c) (fin_pending c) (fin_sent c) (fast_open_syn_payload_len c) (bytes_in_flight_cached c) (send_mss c) (cwnd_limited_sequence c) (limited_transmit c) (received_dupacks c) x (pacing_ready c) (retransmit_pending c) (congestion c) (recovery c).
Definition set_ready (x : bool) (c : TcpConnection) : TcpConnection :=
  tcp_connection (state c) (seqs c) (intent c) (keep c) (opts c) (fin_pending c) (fin_sent c) (fast_open_syn_payload_len c) (bytes_in_flight_cached c) (send_mss c) (cwnd_limited_sequence c) (limited_transmit c) (received_dupacks c) (persist_attempts c) x (retransmit_pending c) (congestion c) (recovery c).
Definition set_retransmit_pending (x : bool) (c : TcpConnection) : TcpConnection :=
  tcp_connection (state c) (seqs c) (intent c) (keep c) (opts c) (fin_pending c) (fin_sent c) (fast_open_syn_payload_len c) (bytes_in_flight_cached c) (send_mss c) (cwnd_limited_sequence c) (limited_transmit c) (received_dupacks c) (persist_attempts c) (pacing_ready c) x (congestion c) (recovery c).
Definition set_cc (x : C) (c : TcpConnection) : TcpConnection :=
  tcp_connection (state c) (seqs c) (intent c) (keep c) (opts c) (fin_pending c) (fin_sent c) (fast_open_syn_payload_len c) (bytes_in_flight_cached c) (send_mss c) (cwnd_limited_sequence c) (limited_transmit c) (received_dupacks c) (persist_attempts c) (pacing_ready c) (retransmit_pending c) x (recovery c).
Definition set_recovery (x : TcpRecoveryState) (c : TcpConnection) : TcpConnection :=
  tcp_connection (state c) (seqs c) (intent c) (keep c) (opts c) (fin_pending c) (fin_sent c) (fast_open_syn_payload_len c) (bytes_in_flight_cached c) (send_mss c) (cwnd_limited_sequence c) (limited_transmit c) (received_dupacks c) (persist_attempts c) (pacing_ready c) (retransmit_pending c) (congestion c) x.

Implicit Types (c : TcpConnection) (fifo : list Z).

Definition una c : Z := snd_una (seqs c).
Definition nxt c : Z := snd_nxt (seqs c).
Definition wnd c : Z := snd_wnd (seqs c).
Definition set_snd_nxt (x : Z) c : TcpConnection := let q := seqs c in set_seqs (mk_seqs (iss q) (snd_una q) x (snd_wnd q)) c.
Definition intent_sequence c : option Z := tx_intent_sequence (intent c).
Definition set_intent_sequence (x : option Z) c : TcpConnection := set_intent (mk_intent x (tx_intent_payload_len (intent c))) c.

Definition clear_tx_intent c : TcpConnection := set_intent (mk_intent None 0) c.
Definition tx_payload_sequence c : Z :=
  match intent_sequence c with
  | Some q => q
  | None => match state c with SynSent => iss (seqs c) | _ => nxt c end
  end.

(** The states payload may be sent in after the handshake. *)
Definition sendable c : bool :=
  match state c with Established | CloseWait => true | FinWait1 => fin_pending c | _ => false end.

(** ** Windows *)

Definition TCP_MAX_WINDOW_SCALE : Z := 14.
Definition tcp_window_scale (w : option Z) : Z := Z.min (match w with Some x => x | None => 0 end) TCP_MAX_WINDOW_SCALE.
Definition scaled_window_from_advertised (advertised scale : Z) : Z := saturating_mul32 advertised (2 ^ tcp_window_scale (Some scale)).
Definition effective_send_window c (advertised : Z) : Z := scaled_window_from_advertised advertised (tcp_window_scale (send_window_scale (opts c))).

Definition outstanding_bytes c : Z := distance_to (una c) (nxt c).

Definition app_limited_for_send c (available_bytes : Z) : bool :=
  (available_bytes <? send_mss c) && (outstanding_bytes c <? congestion_window (congestion c)) && negb (in_recovery (recovery c)).

Definition update_cwnd_limited c (max_dequeue : Z) : TcpConnection :=
  let c := if seq_lt (cwnd_limited_sequence c) (una c) then set_cwnd_limited (una c) c else c in
  let cwnd := congestion_window (congestion c) in
  if wnd c <? cwnd then c else
  let outstanding := outstanding_bytes c in
  if (cwnd <=? max_dequeue) || (cwnd <=? outstanding) || ((saturating_sub cwnd outstanding <? send_mss c) && (outstanding <? max_dequeue))
  then set_cwnd_limited (nxt c) c else c.

(** [limited_transmit] moves to [snd_nxt] when it lies outside the last
    [limit] bytes. *)
Definition refresh_limited c (limit : Z) : TcpConnection :=
  if seq_lt (limited_transmit c) (advance (nxt c) (wrap 32 (0 - limit))) || seq_gt (limited_transmit c) (nxt c)
  then set_limited (nxt c) c else c.
Definition round_space c (available cwnd : Z) : Z :=
  if wnd c <? send_mss c then (if wnd c <=? available then wnd c else 0) else
  if available <? send_mss c then (if available <? cwnd then 0 else available) else
  available - available mod send_mss c.
Definition send_space c : option (TcpConnection * Z) :=
  if in_recovery (recovery c) || match state c with Closed => true | _ => false end then Some (c, 0) else
  let cwnd := congestion_window (congestion c) in
  sacked ← (if negb (received_dupacks c =? 0) then Some 1 else sacked_bytes (recovery c));
  let '(c, available) :=
    if negb (sacked =? 0) then
      let packets := if opt_sack (opts c) then saturating_sub (reorder_threshold (recovery c)) 1 else 2 in
      let limit := saturating_mul32 packets (send_mss c) in
      let c := refresh_limited c limit in
      (c, saturating_sub limit (distance_to (limited_transmit c) (nxt c)))
    else (c, saturating_sub cwnd (outstanding_bytes c)) in
  Some (c, round_space c available cwnd).

Definition tlp_new_data_space c (unsent : Z) : Z :=
  let outstanding := outstanding_bytes c in
  let available := Z.min (Z.min unsent (saturating_sub (wnd c) outstanding)) (send_mss c) in
  if available <=? saturating_sub (congestion_window (congestion c)) outstanding then available else 0.

(** ** Recording what is sent *)

Definition refresh_bytes_in_flight_cached c : TcpConnection := set_cached (in_flight (recovery c)) c.

Definition commit_payload_tx c (payload_len : Z) (now : Instant) (app_limited : bool) : option (TcpConnection * option TcpConnectionError) :=
  let flight := bytes_in_flight_cached c in
  match state c with
  | SynSent =>
    if bool_decide (is_Some (intent_sequence c)) then Some (clear_tx_intent c, None) else
    if u32_max <? payload_len then Some (c, Some PayloadLengthOverflow) else
    let sequence := iss (seqs c) in
    let end_sequence := advance sequence (sat32 payload_len 1) in
    let '(r, number) := next_packet_number (recovery c) in
    r ← record_sent r number sequence end_sequence payload_len payload_len flight now false;
    let c := refresh_bytes_in_flight_cached (set_recovery r c) in
    let c := set_cc (cc_on_packet_sent number (sat32 payload_len 1) flight now (congestion c)) c in
    Some (set_ready false (set_snd_nxt end_sequence (set_fast_open payload_len c)), None)
  | _ =>
    if negb (sendable c) then Some (c, Some InvalidState) else
    if match intent_sequence c with Some q => negb (q =? nxt c) | None => false end then Some (clear_tx_intent c, None) else
    let c := if bool_decide (is_Some (intent_sequence c)) then clear_tx_intent c else c in
    if u32_max <? payload_len then Some (c, Some PayloadLengthOverflow) else
    let sequence := nxt c in
    let end_sequence := advance sequence payload_len in
    let '(r, number) := next_packet_number (recovery c) in
    r ← record_sent r number sequence end_sequence payload_len payload_len flight now app_limited;
    let c := refresh_bytes_in_flight_cached (set_recovery (on_new_data_sent r payload_len) c) in
    let c := set_cc (cc_on_packet_sent number payload_len flight now (congestion c)) c in
    Some (set_keep (mk_keepalive now 0) (set_ready false (set_snd_nxt end_sequence c)), None)
  end.

(** ** Bursts of the session layer *)

Definition div_ceil (a b : Z) : Z := (a + b - 1) / b.
(** The lengths of the segments of one burst. *)
Definition burst_lengths (available space mss packets : Z) : list Z :=
  let max_len := if available <? space then (if mss <? available then available - available mod mss else available) else space in
  let segments := Z.min (div_ceil max_len mss) packets in
  let send_len := Z.min max_len (segments * mss) in
  if send_len =? 0 then [] else replicate (Z.to_nat (segments - 1)) mss ++ [send_len - (segments - 1) * mss].

(** The part of [send_params] that matters here: the segment size and the
    space of a burst. *)
Definition send_params c (mss : Z) : option (TcpConnection * Z) :=
  if negb (match state c with SynSent => true | _ => sendable c end) then Some (c, 0) else
  if mss =? 0 then None else
  let c := set_mss mss c in
  let flight := outstanding_bytes c in
  '(c, space) ← send_space c;
  Some (c, Z.min space (saturating_sub (wnd c) flight)).

(** The header takes [snd_nxt], the payload is what was filled in. *)
Definition push_one_header c (payload : list Z) (now : Instant) (app_limited : bool) : option (TcpConnection * wire) :=
  let sequence := nxt c in
  '(c, e) ← commit_payload_tx c (vlen payload) now app_limited;
  match e with Some _ => None | None => Some (c, mk_wire sequence payload) end.

Fixpoint push_headers c (payloads : list (list Z)) (now : Instant) (app_limited : bool) : option (TcpConnection * list wire) :=
  match payloads with
  | [] => Some (c, [])
  | payload :: payloads =>
    '(c, w) ← push_one_header c payload now app_limited;
    '(c, ws) ← push_headers c payloads now app_limited;
    Some (c, w :: ws)
  end.

Definition push_header c (payloads : list (list Z)) (available_bytes : Z) (now : Instant) : option (TcpConnection * list wire) :=
  let max_dequeue := outstanding_bytes c + available_bytes in
  if u32_max <? max_dequeue then None else
  '(c, ws) ← push_headers c payloads now (app_limited_for_send c available_bytes);
  Some (match payloads with [] => c | _ => update_cwnd_limited c max_dequeue end, ws).

(** [tx_fill_buffer] per segment: consecutive bytes from [offset] on. *)
Fixpoint fill_segments fifo (offset : Z) (lens : list Z) : list (list Z) :=
  match lens with
  | [] => []
  | n :: lens => take (Z.to_nat n) (drop (Z.to_nat offset) fifo) :: fill_segments fifo (offset + n) lens
  end.

Definition session_tx c fifo (mss packets : Z) (pace : option Z) (alloc : bool) (now : Instant) : option (TcpConnection * list wire) :=
  '(c, space) ← send_params c mss;
  if space =? 0 then Some (c, []) else
  let space := match pace with
               | Some burst => if burst <? 1460 then 0 else let paced := Z.min space burst in if mss <=? paced then paced - paced mod mss else paced
               | None => space
               end in
  let tx_offset := outstanding_bytes c in
  let available := saturating_sub (vlen fifo) tx_offset in
  match burst_lengths available space mss packets with
  | [] => Some (c, [])
  | lens => if negb alloc then Some (c, []) else push_header c (fill_segments fifo tx_offset lens) (Z.min available u32_max) now
  end.

(** ** Segments a worker prepares itself *)

Definition prepare_segment c fifo (offset max_bytes : Z) (retransmit alloc : bool) (now : Instant) : option (TcpConnection * option wire) :=
  let available := saturating_sub (vlen fifo) offset in
  let requested := Z.min (Z.min available max_bytes) (send_mss c) in
  if (requested =? 0) || negb alloc then Some (c, None) else
  if negb retransmit && (u32_max <? available) then None else
  let app_limited := negb retransmit && app_limited_for_send c available in
  let c := if retransmit then set_intent_sequence (Some (advance (una c) offset)) c else c in
  if negb (match state c with SynSent => true | _ => sendable c end) then None else
  let sequence := tx_payload_sequence c in
  '(c, e) ← commit_payload_tx c requested now app_limited;
  match e with
  | Some _ => None
  | None => Some (c, Some (mk_wire sequence (take (Z.to_nat requested) (drop (Z.to_nat offset) fifo))))
  end.

(** The answers of the allocator, one per segment. *)
Definition next_alloc (allocs : list bool) : bool * list bool :=
  match allocs with [] => (false, []) | a :: allocs => (a, allocs) end.

Fixpoint transmit_loop (n : nat) c fifo (offset : Z) (allocs : list bool) (now : Instant) : option (TcpConnection * list wire * list bool) :=
  match n with
  | O => Some (c, [], allocs)
  | S n =>
    let '(alloc, allocs) := next_alloc allocs in
    '(c, w) ← prepare_segment c fifo offset (send_mss c) false alloc now;
    match w with
    | None => Some (c, [], allocs)
    | Some w =>
      let offset := offset + vlen (w_bytes w) in
      if u32_max <? offset then None else
      '(c, ws, allocs) ← transmit_loop n c fifo offset allocs now;
      Some (c, w :: ws, allocs)
    end
  end.
Definition transmit_unsent c fifo (burst_size available_bytes : Z) (allocs : list bool) (now : Instant) : option (TcpConnection * list wire * list bool) :=
  let offset := outstanding_bytes c in
  let max_dequeue := offset + available_bytes in
  if u32_max <? max_dequeue then None else
  let peer_space := saturating_sub (wnd c) offset in
  let max_burst := Z.min burst_size (peer_space / send_mss c) in
  '(c, ws, allocs) ← transmit_loop (Z.to_nat max_burst) c fifo offset allocs now;
  Some (match ws with [] => c | _ => update_cwnd_limited c max_dequeue end, ws, allocs).

(** ** Retransmission *)

Definition program_retransmit c : TcpConnection := set_retransmit_pending true c.

Record burst : Type := mk_burst {
  b_conn : TcpConnection;
  b_sent : Z;
  b_space : Z;
  (** [no_sack_sequence] *)
  b_next : Z;
  buffer_exhausted : bool;
  b_out : list wire;
  b_allocs : list bool
}.
Definition with_conn (c : TcpConnection) (x : burst) : burst := mk_burst c (b_sent x) (b_space x) (b_next x) (buffer_exhausted x) (b_out x) (b_allocs x).

Section retransmit.
Context (fifo : list Z) (sack no_sack_first : bool) (no_sack_end : Z) (now : Instant).

(** The sample a round works on. *)
Definition round_sample (x : burst) : option (option TcpSentSample) :=
  let c := b_conn x in
  match intent_sequence c with
  | Some q => sample_covering (recovery c) q
  | None =>
    if sack then retransmit_candidate (recovery c) else
    if no_sack_first && seq_lt (b_next x) no_sack_end then sample_covering (recovery c) (b_next x) else Some None
  end.

(** After [written] bytes of [sample] from [from] on were sent again. *)
Definition account_retransmit (x : burst) (c : TcpConnection) (sample : TcpSentSample) (from remaining written : Z) : option (burst * bool) :=
  let next := if sack then b_next x else advance from written in
  let r := on_retransmit_sent (recovery c) written in
  let r := if sack then advance_high_rxt r (advance from written) else r in
  let sample_complete := advance from written =? end_sequence sample in
  let recovery_end := negb sack && seq_ge next no_sack_end in
  let done c := mk_burst c (b_sent x + 1) (saturating_sub (b_space x) written) next (buffer_exhausted x) (b_out x) (b_allocs x) in
  if sample_complete || recovery_end then
    r ← (if sample_complete then commit_retransmit r (sequence sample) now else Some r);
    Some (done (clear_tx_intent (set_recovery r c)), true)
  else
    let c := set_intent (mk_intent (Some (advance from written)) (remaining - written)) (set_recovery r c) in
    if sack || negb no_sack_first || seq_ge next no_sack_end then Some (done (program_retransmit c), false) else Some (done c, true).

(** One round of the loop; the flag says whether it goes on. *)
Definition retransmit_round (x : burst) : option (burst * bool) :=
  let c := b_conn x in
  if sack && (b_space x <? send_mss c) then Some (x, false) else
  sample ← round_sample x;
  match sample with
  | None => if bool_decide (is_Some (intent_sequence c)) then Some (with_conn (clear_tx_intent c) x, true) else Some (x, false)
  | Some sample =>
    let from := match intent_sequence c with Some q => q | None => if sack then sequence sample else b_next x end in
    let offset := distance_to (una c) from in
    let remaining := Z.min (distance_to from (end_sequence sample)) (if sack then u32_max else distance_to from no_sack_end) in
    let requested := Z.min (Z.min remaining (send_mss c)) (b_space x) in
    if requested =? 0 then Some (x, false) else
    let '(alloc, allocs) := next_alloc (b_allocs x) in
    '(c, w) ← prepare_segment c fifo offset requested true alloc now;
    match w with
    | None => Some (mk_burst (program_retransmit c) (b_sent x) (b_space x) (b_next x) true (b_out x) allocs, false)
    | Some w => account_retransmit (mk_burst c (b_sent x) (b_space x) (b_next x) (buffer_exhausted x) (b_out x ++ [w]) allocs) c sample from remaining (vlen (w_bytes w))
    end
  end.

Fixpoint retransmit_loop (n : nat) (max_segments : Z) (x : burst) : option burst :=
  if negb ((b_sent x <? max_segments) && negb (b_space x =? 0)) then Some x else
  match n with
  | O => None
  | S n => '(x, go) ← retransmit_round x; if (go : bool) then retransmit_loop n max_segments x else Some x
  end.

End retransmit.

(** A round sends a segment or drops the intent. *)
Definition retransmit_fuel (max_segments : Z) : nat := 2 * Z.to_nat max_segments + 2.

(** How many segments of new data may follow. *)
Definition new_data_burst c (sack : bool) (max_segments sent space outstanding available : Z) : Z :=
  let peer_space := saturating_sub (wnd c) outstanding in
  let permitted := if sack then Z.min (Z.min space (saturating_sub peer_space (send_mss c))) (Z.max available (send_mss c))
                   else Z.min (Z.min space peer_space) available in
  let n := Z.min (max_segments - sent) (permitted / send_mss c) in
  if sack then Z.min n 10 else n.

(** The loop over lost samples. *)
Definition retransmit_lost c fifo (max_segments burst_bytes : Z) (allocs : list bool) (now : Instant) : option burst :=
  let mss := send_mss c in
  let recovery_space := match recovery_send_space (recovery c) (in_flight (recovery c)) mss with Some n => n | None => mss end in
  let first := match intent_sequence c with Some q => q | None => una c end in
  retransmit_loop fifo (opt_sack (opts c)) (no_sack_first_pending (prr (recovery c))) (recovery_end_sequence (prr (recovery c))) now (retransmit_fuel max_segments) max_segments
    (mk_burst c 0 (Z.min recovery_space burst_bytes) first false [] allocs).

(** [burst_bytes] is what the pacer allows. *)
Definition retransmit c fifo (burst_size burst_bytes : Z) (allocs : list bool) (now : Instant) : option (TcpConnection * list wire) :=
  let mss := send_mss c in
  if mss =? 0 then None else
  let max_segments := Z.min burst_size (burst_bytes / mss) in
  if max_segments =? 0 then Some (program_retransmit c, []) else
  let outstanding := outstanding_bytes c in
  let available := saturating_sub (vlen fifo) outstanding in
  let sack := opt_sack (opts c) in
  x ← retransmit_lost c fifo max_segments burst_bytes allocs now;
  let c := b_conn x in
  '(c, ws) ← (if negb (buffer_exhausted x) && (b_sent x <? max_segments) && (mss <=? b_space x) && negb (available =? 0) then
                if u32_max <? available then None else
                '(c, ws, _) ← transmit_unsent c fifo (new_data_burst c sack max_segments (b_sent x) (b_space x) outstanding available) available (b_allocs x) now;
                Some (c, ws)
              else Some (c, []));
  let new_bytes := distance_to (nxt (b_conn x)) (nxt c) in
  candidate ← retransmit_candidate (recovery c);
  let has_more := bool_decide (is_Some (intent_sequence c)) || (negb (bool_decide (ws = [])) && (new_bytes <? available)) || (sack && bool_decide (is_Some candidate)) in
  let c := if has_more then program_retransmit c else c in
  Some (if b_sent x + vlen ws =? 0 then c else set_recovery (on_recovery_burst_sent (recovery c)) c, b_out x ++ ws).

(** The retransmission part of [custom_tx]. *)
Definition custom_tx c fifo (burst_size burst_bytes : Z) (allocs : list bool) (now : Instant) : option (TcpConnection * list wire) :=
  if in_recovery (recovery c) && retransmit_pending c
  then retransmit (set_retransmit_pending false c) fifo burst_size burst_bytes allocs now
  else Some (c, []).

(** ** Acknowledgments *)

Definition accepts_ack c (acknowledgment : Z) : bool := seq_ge acknowledgment (una c) && seq_le acknowledgment (nxt c).

Definition apply_ack c (acknowledgment advertised_window : Z) : TcpConnection :=
  if negb (accepts_ack c acknowledgment) then c else
  let q := seqs c in
  let c := set_seqs (mk_seqs (iss q) acknowledgment (snd_nxt q) (effective_send_window c advertised_window)) c in
  if 0 <? wnd c then set_persist 0 c else c.

(** What an acknowledgment carries and when it is handled. *)
Record ack_input : Type := mk_ack_input {
  ai_acknowledgment : Z;
  ai_window : Z;
  ai_payload_len : Z;
  ai_blocks : list TcpSackBlock;
  ai_now : Instant;
  ai_ecn_ce_count : Z;
  ai_reordering_window : Duration
}.

Definition make_recovery_ack (i : ack_input) (duplicate : bool) : TcpRecoveryAck :=
  recovery_ack (ai_acknowledgment i) (ai_now i) false (ai_ecn_ce_count i) (ai_reordering_window i) duplicate.

(** The window is compared with itself: it has not been updated yet. *)
Definition observe_ack_progress c (i : ack_input) : option TcpConnection :=
  if negb (accepts_ack c (ai_acknowledgment i)) then Some c else
  let advanced := seq_gt (ai_acknowledgment i) (una c) in
  let duplicate := (ai_acknowledgment i =? una c) && (ai_payload_len i =? 0) && (wnd c =? wnd c) && has_unacked_data (recovery c) in
  let ack := make_recovery_ack i duplicate in
  '(r, cc) ← (if opt_sack (opts c) then '(r, cc, _) ← on_sack_blocks (recovery c) ack (ai_blocks i) (congestion c); Some (r, cc)
              else if advanced || tlp_probe_pending (recovery c) then '(r, cc, _) ← on_ack (recovery c) ack (congestion c); Some (r, cc)
              else Some (recovery c, congestion c));
  Some (refresh_bytes_in_flight_cached (set_cc cc (set_recovery r c))).

Definition receive_ack c (i : ack_input) : option TcpConnection :=
  let before := c in
  c ← observe_ack_progress c i;
  let c := apply_ack c (ai_acknowledgment i) (ai_window i) in
  let accepted := accepts_ack before (ai_acknowledgment i) in
  let c := if accepted && negb (una c =? una before) then set_dupacks 0 c
           else if accepted && (ai_payload_len i =? 0) && (wnd c =? wnd before) && has_unacked_data (recovery c) then set_dupacks (sat32 (received_dupacks c) 1) c
           else c in
  Some (set_keep (mk_keepalive (ai_now i) 0) c).

Definition take_acked_tx_len c (previous_snd_una : Z) : TcpConnection * Z :=
  let acked := distance_to previous_snd_una (una c) in
  if acked =? 0 then (c, 0) else
  let syn_control := if (previous_snd_una =? iss (seqs c)) && negb (una c =? previous_snd_una) then 1 else 0 in
  let fin_control := if fin_sent c && seq_lt previous_snd_una (nxt c) && (una c =? nxt c) then 1 else 0 in
  let payload_acked := saturating_sub acked (syn_control + fin_control) in
  let fast_open_acked := Z.min payload_acked (fast_open_syn_payload_len c) in
  (set_fast_open (saturating_sub (fast_open_syn_payload_len c) fast_open_acked) c, payload_acked).

(** Whether lost samples are waiting after an acknowledgment. *)
Definition retransmit_wanted c : option bool :=
  let r := recovery c in
  if negb (in_recovery r) then Some false else
  candidate ← retransmit_candidate r;
  if bool_decide (is_Some candidate) then Some true else
  if opt_sack (opts c) then Some false else
  oldest ← oldest_unacked r;
  Some (match oldest with Some sample => negb (retransmitted sample) | None => false end).

(** An acknowledgment in the established node, and the bytes it takes out of
    the FIFO afterwards. *)
Definition established_ack c fifo (i : ack_input) : option (TcpConnection * list Z) :=
  let previous_snd_una := una c in
  c ← receive_ack c i;
  let '(c, acked) := take_acked_tx_len c previous_snd_una in
  wanted ← retransmit_wanted c;
  Some (if (wanted : bool) then program_retransmit c else c, drop (Z.to_nat acked) fifo).

(** ** Timers *)

(** The payload arm of [on_retransmit_timer_expiry]. *)
Definition on_retransmit_timer c (now : Instant) : option (TcpConnection * bool) :=
  if negb (match state c with Established | CloseWait | FinWait1 => negb (fin_sent c) | _ => false end) then Some (c, false) else
  '(r, cc, sample) ← on_retransmission_timeout (recovery c) now (nxt c) (congestion c);
  let c := set_cc cc (set_recovery r c) in
  match sample with
  | None => Some (c, false)
  | Some sample => Some (set_ready true (set_intent (mk_intent (Some (sequence sample)) (payload_len sample)) c), true)
  end.
(** The segment it asks for. *)
Definition rto_retransmit c fifo (alloc : bool) (now : Instant) : option (TcpConnection * list wire) :=
  match intent_sequence c with
  | None => None
  | Some from =>
    let offset := distance_to (una c) from in
    let length := Z.min (tx_intent_payload_len (intent c)) (send_mss c) in
    '(c, w) ← prepare_segment c fifo offset length true alloc now;
    match w with
    | None => Some (c, [])
    | Some w =>
      r ← commit_retransmit (on_retransmit_sent (recovery c) (vlen (w_bytes w))) from now;
      Some (program_retransmit (set_recovery r c), [w])
    end
  end.
Definition rto_timer c fifo (alloc : bool) (now : Instant) : option (TcpConnection * list wire) :=
  '(c, acted) ← on_retransmit_timer c now;
  if (acted : bool) then rto_retransmit c fifo alloc now else Some (c, []).

Definition on_rack_timer c (now : Instant) : option (TcpConnection * bool) :=
  if negb (match state c with Established => true | _ => false end) then Some (c, false) else
  '(r, cc) ← on_rack_timeout (recovery c) now (nxt c) (congestion c);
  let c := set_cc cc (set_recovery r c) in
  candidate ← retransmit_candidate r;
  if negb (bool_decide (is_Some candidate)) then Some (c, false) else Some (set_ready true c, true).
Definition rack_timer c (now : Instant) : option TcpConnection :=
  '(c, acted) ← on_rack_timer c now;
  Some (if (acted : bool) then program_retransmit c else c).

(** New data first, otherwise the tail again. *)
Definition send_tlp_probe c fifo (alloc_new alloc_tail : bool) (now : Instant) : option (TcpConnection * list wire) :=
  let outstanding := outstanding_bytes c in
  let unsent := Z.min (saturating_sub (vlen fifo) outstanding) u32_max in
  let new_space := tlp_new_data_space c unsent in
  '(c, w) ← (if negb (new_space =? 0) then prepare_segment c fifo outstanding new_space false alloc_new now else Some (c, None));
  match w with
  | Some w =>
    r ← record_tlp_probe (recovery c) (nxt c) None;
    if u32_max <? vlen fifo then None else
    Some (update_cwnd_limited (set_recovery r c) (vlen fifo), [w])
  | None =>
    if outstanding =? 0 then Some (c, []) else
    let probe_len := Z.min outstanding (send_mss c) in
    '(c, w) ← prepare_segment c fifo (outstanding - probe_len) probe_len true alloc_tail now;
    match w with
    | None => Some (c, [])
    | Some w =>
      let start := advance (una c) (outstanding - probe_len) in
      r ← record_tlp_probe (recovery c) (nxt c) (Some (start, advance start (vlen (w_bytes w))));
      Some (set_recovery r c, [w])
    end
  end.
Definition tlp_timer c fifo (srtt : option Duration) (rto : Duration) (alloc_new alloc_tail : bool) (now : Instant) : option (TcpConnection * list wire) :=
  let acted := match state c with Established => bool_decide (is_Some (tlp_timeout (recovery c) srtt rto (max_datagram_size (congestion c)))) | _ => false end in
  let c := set_recovery (disarm_tlp (recovery c)) c in
  if acted then send_tlp_probe c fifo alloc_new alloc_tail now else Some (c, []).

Definition on_persist_timer_expiry c : TcpConnection :=
  if negb (match state c with Established => true | _ => false end) then c else
  if negb (wnd c =? 0) then set_persist 0 c else
  let c := set_persist (Z.min 255 (persist_attempts c + 1)) c in
  if bool_decide (is_Some (intent_sequence c)) then c else
  set_ready true (set_intent (mk_intent (Some (una c)) 1) c).

(** The retransmission a smaller path MTU asks for. *)
Definition request_mtu_retransmit c (mss : Z) : TcpConnection :=
  if negb (has_unacked_data (recovery c)) then c else
  let unacked := distance_to (una c) (nxt c) in
  set_ready true (set_intent (mk_intent (Some (una c)) (Z.max (Z.min mss unacked) 1)) c).

End sender.

Arguments TcpConnection : clear implicits.

End TcpSender.
