(* ===== verification/TcpSenderConn.v ===== *)
(** * Sending and retransmitting on a connection

    [tracks] relates a connection to positions.  New data, segments sent again
    and the timers keep it, and nothing panics; what goes out carries the bytes
    of the FIFO at its sequence number. *)

From S2P Require Import Prelude Ranges InfraPool InfraRbTree InfraRbOps SvmChain SessionRxProofs TcpProtocol TcpOptions TcpSack TcpSackProofs TcpRecovery TcpSamples TcpRecoveryOps TcpAckOps TcpScoreboard TcpAcks TcpSenderInv TcpSender.

Module TcpSenderConn.
Import Ranges SvmChain SessionRxProofs TcpProtocol TcpOptions TcpSackProofs RbOps TcpRecovery TcpSamples TcpRecoveryOps TcpAckOps TcpScoreboardProofs TcpAcks TcpSenderInv TcpSender.

(** ** Finding samples *)

Definition linked_sample (L1 : list item) (it : item) (L2 : list item) : TcpSentSample := with_links (last_index None L1) (first_index L2 None) (smp it).

Lemma find_sample U N r L es (p : TcpSentSample -> bool) : sane U N r L es ->
  (exists L1 it L2, L = L1 ++ it :: L2 /\ p (linked_sample L1 it L2) = true /\
     walk_read r (fun sample x => if p sample then (Some sample, false) else (x, true)) None = Some (Some (linked_sample L1 it L2))) \/
  (walk_read r (fun sample x => if p sample then (Some sample, false) else (x, true)) None = Some None /\ forall L1 it L2, L = L1 ++ it :: L2 -> p (linked_sample L1 it L2) = false).
Proof.
  intros Hs. pose proof (sane_core _ _ _ _ _ Hs) as Hc. unfold walk_read. rewrite (lc_head _ _ _ _ Hc).
  enough (exists x, walk (fun _ => pool r) Some (fun _ sample x => Some (if p sample then (Some sample, false) else (x, true))) (fuel r) (first_index L None) None = Some x /\
    ((exists L1 it L2, L = L1 ++ it :: L2 /\ p (linked_sample L1 it L2) = true /\ x = Some (linked_sample L1 it L2)) \/ (x = None /\ forall L1 it L2, L = L1 ++ it :: L2 -> p (linked_sample L1 it L2) = false))) as (x & -> & [(L1 & it & L2 & E1 & E2 & ->)|[-> H]]).
  { left. by exists L1, it, L2. }
  { by right. }
  apply (walk_rule _ _ _ (fun R x => x = None /\ exists D, L = D ++ R /\ forall L1 it L2, L = L1 ++ it :: L2 -> (length L1 < length D)%nat -> p (linked_sample L1 it L2) = false)
    (fun x => (exists L1 it L2, L = L1 ++ it :: L2 /\ p (linked_sample L1 it L2) = true /\ x = Some (linked_sample L1 it L2)) \/ (x = None /\ forall L1 it L2, L = L1 ++ it :: L2 -> p (linked_sample L1 it L2) = false))).
  - intros it R x [-> (D & E & HD)]. exists (linked_sample D it R). rewrite E in Hc. destruct (p (linked_sample D it R)) eqn:Ep.
    + exists (Some (linked_sample D it R)), false. split; [apply (core_get U N r D it R Hc)|]. split; [done|]. split; [done|]. left. by exists D, it, R.
    + exists None, true. split; [apply (core_get U N r D it R Hc)|]. split; [done|]. split; [done|]. split; [done|]. exists (D ++ [it]). split; [by rewrite <- app_assoc|].
      intros L1 jt L2 E' Hn. rewrite length_app in Hn. cbn in Hn. destruct (decide (length L1 = length D)) as [En|En]; [|apply HD; [done|lia]].
      rewrite E in E'. apply app_inj_1 in E' as [<- E']; [|done]. injection E' as <- <-. done.
  - intros x [-> (D & E & HD)]. right. split; [done|]. intros L1 it L2 E'. apply HD; [done|]. rewrite app_nil_r in E. subst D. rewrite E', length_app. cbn. lia.
  - pose proof (pool_fuel _ _ (lc_pool _ _ _ _ Hc)). unfold fuel, pool. lia.
  - split; [done|]. exists []. split; [done|]. intros L1 it L2 _ Hn. cbn in Hn. lia.
Qed.

(** A sequence number covered by a sample is that of one of its positions. *)
Lemma covers_position U N r L1 it L2 es q : sane U N r (L1 ++ it :: L2) es -> in_word 32 q -> covers (linked_sample L1 it L2) q = true -> exists z, lo it <= z < hi it /\ q = wr z.
Proof.
  intros Hs Hq Hc. destruct (core_middle _ _ _ _ _ _ (sane_core _ _ _ _ _ Hs)) as ((I1 & I2 & _) & W1 & W2 & W3 & _). unfold covers in Hc. cbn [linked_sample with_links sequence end_sequence] in Hc. rewrite I1, I2 in Hc.
  pose proof (wrap_bounds 32 (lo it) ltac:(lia)) as B1. pose proof (wrap_bounds 32 (hi it) ltac:(lia)) as B2. fold (wr (lo it)) in B1. fold (wr (hi it)) in B2.
  apply andb_true_iff in Hc as [H1 H2]. unfold seq_gt, seq_le in *. rewrite seq_cmp_distance, le_distance in H1, H2 by done. apply negb_true_iff, orb_false_iff in H2 as [H2 H3].
  rewrite orb_true_iff, Z.eqb_eq, Z.leb_le in H1. rewrite Z.eqb_neq in H2. rewrite Z.leb_gt in H3. exists (lo it + (q - lo it) mod 2 ^ 32). unfold distance_to, wr, wrap, in_word, win in *.
  change (2 ^ 32) with 4294967296 in *. change (2 ^ 31) with 2147483648 in *. zdm.
Qed.

(** ** The invariant of a connection *)

Section conn.
Context {C : Type} `{!CongestionController C}.
Implicit Types (c : TcpConnection C) (sacked : list rng).

Record tracks (exact : bool) (P0 U N H : Z) sacked c : Prop := mk_tracks {
  tk_state : state c = Established;
  tk_fin : fin_sent c = false;
  tk_una : una c = wr U;
  tk_nxt : nxt c = wr N;
  tk_order : P0 <= U <= N;
  tk_wnd : 0 <= wnd c <= window_max;
  tk_window : N - U <= window_max;
  tk_mss : 0 < send_mss c;
  tk_intent : match intent_sequence c with Some q => in_word 32 q | None => True end;
  tk_cached : bytes_in_flight_cached c = in_flight (recovery c);
  tk_recovery : recovers exact P0 U N H sacked (recovery c);
  tk_sacked : forall x, x ∈ sacked -> x.2 <= N
}.

(** What sending leaves alone. *)
Record frame c c' : Prop := mk_frame {
  fr_state : state c' = state c;
  fr_iss : iss (seqs c') = iss (seqs c);
  fr_una : una c' = una c;
  fr_wnd : wnd c' = wnd c;
  fr_mss : send_mss c' = send_mss c;
  fr_opts : opts c' = opts c;
  fr_fin : fin_sent c' = fin_sent c
}.
#[export] Instance frame_refl : Reflexive frame.
Proof. by constructor. Qed.
#[export] Instance frame_trans : Transitive frame.
Proof. intros a b c [? ? ? ? ? ? ?] [? ? ? ? ? ? ?]. constructor; congruence. Qed.

(** A segment that carries the bytes of the stream [S] from its position on,
    between [a] and [b]. *)
Definition wire_ok (S : Z -> Z) (a b : Z) (w : wire) : Prop :=
  exists x, a <= x /\ x + vlen (w_bytes w) <= b /\ w_sequence w = wr x /\ w_bytes w = bytes_of S x (vlen (w_bytes w)).

Section send.
Context (exact : bool) (P0 U H : Z) (sacked : list rng).
#[local] Abbreviation tracks := (tracks exact P0 U).

Lemma tracks_frame N c c' : tracks N H sacked c -> frame c c' -> nxt c' = nxt c -> match intent_sequence c' with Some q => in_word 32 q | None => True end -> bytes_in_flight_cached c' = in_flight (recovery c') ->
  recovers exact P0 U N H sacked (recovery c') -> tracks N H sacked c'.
Proof. intros [H1 H2 H3 H4 H5 H6 H7 H8 H9 H10 H11 H12] [? ? ? ? ? ? ?] ? ? ? ?. constructor; congruence || done. Qed.

(** Marking samples. *)
Lemma tracks_recovery N c r' : tracks N H sacked c -> recovers exact P0 U N H sacked r' -> in_flight r' = in_flight (recovery c) -> tracks N H sacked (set_recovery r' c).
Proof. intros [T1 T2 T3 T4 T5 T6 T7 T8 T9 T10 T11 T12] Hr Hf. constructor; try done. cbn. congruence. Qed.
Lemma tracks_keeps N c r' : tracks N H sacked c -> (forall L es, sane U N (recovery c) L es -> keeps U N (recovery c) L es r') -> tracks N H sacked (set_recovery r' c).
Proof. intros T K. destruct (recovers_keeps exact P0 U N H sacked _ r' (tk_recovery _ _ _ _ _ _ _ T) K). by apply tracks_recovery. Qed.

(** A segment of new data. *)
Lemma commit_new N c n now limited : tracks N H sacked c -> match intent_sequence c with Some q => q = nxt c | None => True end -> 0 < n -> N + n - U <= window_max -> N + n - P0 < 2 ^ 64 ->
  exists c', commit_payload_tx c n now limited = Some (c', None) /\ tracks (N + n) H sacked c' /\ frame c c' /\ intent_sequence c' = None.
Proof.
  intros [T1 T2 T3 T4 T5 T6 T7 T8 T9 T10 T11 T12] Hi Hn Hw Ht. unfold commit_payload_tx. rewrite T1. unfold sendable. rewrite T1. cbn [negb].
  replace (match intent_sequence c with Some q => negb (q =? nxt c) | None => false end) with false by (destruct (intent_sequence c); [rewrite Hi, Z.eqb_refl|]; done).
  set (c0 := if bool_decide _ then _ else c). assert (frame c c0 /\ nxt c0 = nxt c /\ recovery c0 = recovery c /\ intent_sequence c0 = None) as (F0 & E1 & E2 & E3).
  { unfold c0. destruct (intent_sequence c) as [q|] eqn:Ei; [rewrite bool_decide_true by (by eexists)|rewrite bool_decide_false by (by intros [? ?])]; by split_and!. }
  clearbody c0. change window_max with 1073725440 in *. change u32_max with 4294967295. rewrite (proj2 (Z.ltb_ge 4294967295 n)) by lia. rewrite E1, E2, T4. unfold next_packet_number.
  assert (advance (wr N) n = wr (N + n)) as -> by (unfold advance, wr, wrap; apply Zplus_mod_idemp_l). set (r0 := recovery_state _ _ _ _ _ _ _ _ _ _).
  assert (recovers exact P0 U N H sacked r0) as Hr0 by (eapply recovers_keeps; [exact T11|]; intros; by apply keeps_same).
  destruct (recovers_sent exact P0 U N H sacked r0 n (packets (recovery c)) (bytes_in_flight_cached c) now limited Hr0 T12 Hn) as (r1 & -> & Hr1); [change window_max with 1073725440; lia|done|]. cbn [mbind option_bind].
  eexists. split; [done|]. split; [|split].
  - destruct F0 as [F1 F2 F3 F4 F5 F6 F7]. constructor; [exact (eq_trans F1 T1)|exact (eq_trans F7 T2)|exact (eq_trans F3 T3)|done|lia| |change window_max with 1073725440; lia| | |done| |].
    + change (0 <= wnd c0 <= window_max). by rewrite F4.
    + change (0 < send_mss c0). by rewrite F5.
    + change (match intent_sequence c0 with Some q => in_word 32 q | None => True end). by rewrite E3.
    + eapply recovers_keeps; [exact Hr1|]. intros. unfold on_new_data_sent. destruct (_ || _); by apply keeps_same.
    + intros x Hx. specialize (T12 x Hx). lia.
  - destruct F0 as [? ? ? ? ? ? ?]. by constructor.
  - exact E3.
Qed.

(** A segment sent again. *)
Lemma commit_again N c q n now limited : tracks N H sacked c -> intent_sequence c = Some q -> q <> nxt c -> commit_payload_tx c n now limited = Some (clear_tx_intent c, None).
Proof.
  intros [T1 _ _ _ _ _ _ _ _ _ _ _] Ei Hq. unfold commit_payload_tx. rewrite T1. unfold sendable. rewrite T1. cbn [negb]. rewrite Ei. by rewrite (proj2 (Z.eqb_neq _ _) Hq).
Qed.

(** *** Segments cut from the FIFO *)

Section fifo.
Context (strict : bool) (S : Z -> Z) (E : Z) (fifo : list Z).
Hypothesis Hlen : vlen fifo <= u32_max.
Hypothesis Hfifo : strict = true -> fifo = bytes_of S U (E - U) /\ U <= E.

Lemma slice_len k n : 0 <= k -> 0 <= n -> k + n <= vlen fifo -> vlen (take (Z.to_nat n) (drop (Z.to_nat k) fifo)) = n.
Proof. intros Hk Hn H1. unfold vlen in *. rewrite length_take, length_drop. lia. Qed.
Lemma slice_bytes x n : strict = true -> U <= x -> 0 <= n -> x - U + n <= vlen fifo -> take (Z.to_nat n) (drop (Z.to_nat (x - U)) fifo) = bytes_of S x n /\ x + n <= E.
Proof.
  intros Es Hx Hn Hl. destruct (Hfifo Es) as [Ef HE]. rewrite Ef in Hl |- *. rewrite vlen_bytes_of in Hl by lia. rewrite bytes_of_drop, bytes_of_take by lia. split; [f_equal; lia|lia].
Qed.

(** What a segment is worth: its length, and with [strict] its content. *)
Definition segment_ok (a b n : Z) (w : wire) : Prop := vlen (w_bytes w) = n /\ 0 < n /\ (strict = true -> wire_ok S a b w).

(** New data; without a pending intent it goes out and is recorded. *)
Lemma prepare_fresh N c k max_bytes alloc now : tracks N H sacked c -> 0 <= k -> 0 <= max_bytes -> N + max_bytes - U <= window_max -> N + max_bytes - P0 < 2 ^ 64 ->
  exists c' w n, prepare_segment c fifo k max_bytes false alloc now = Some (c', w) /\ 0 <= n <= max_bytes /\ tracks (N + n) H sacked c' /\ frame c c' /\
    match w with Some w => 0 < vlen (w_bytes w) <= max_bytes | None => c' = c /\ n = 0 end /\
    (intent_sequence c = None -> intent_sequence c' = None /\ match w with Some w => vlen (w_bytes w) = n | None => n = 0 end /\
       (strict = true -> k = N - U -> N <= E -> N + n <= E /\ match w with Some w => wire_ok S N (N + n) w | None => True end)).
Proof.
  intros T Hk Hm Hw Ht. pose proof T as [T1 T2 T3 T4 T5 T6 T7 T8 T9 T10 T11 T12]. unfold prepare_segment. set (available := saturating_sub (vlen fifo) k). set (n := Z.min (Z.min available max_bytes) (send_mss c)).
  assert (0 <= available /\ (0 < available -> available = vlen fifo - k) /\ available <= vlen fifo) as (Ha1 & Ha2 & Ha3) by (unfold available, saturating_sub; pose proof (vlen_nonneg fifo); lia).
  destruct ((n =? 0) || negb alloc) eqn:En.
  { exists c, None, 0. rewrite Z.add_0_r. split_and!; try done; try lia. }
  apply orb_false_iff in En as [En _]. rewrite Z.eqb_neq in En. cbn [negb andb]. rewrite (proj2 (Z.ltb_ge u32_max available)) by lia. rewrite T1. unfold sendable. rewrite T1. cbn [negb].
  assert (vlen (take (Z.to_nat n) (drop (Z.to_nat k) fifo)) = n) as Evl by (apply slice_len; lia).
  assert ((match intent_sequence c with Some q => q = nxt c | None => True end) \/ exists q, intent_sequence c = Some q /\ q <> nxt c) as [Hi|(q & Ei & Hi)] by (destruct (intent_sequence c) as [q|]; [destruct (decide (q = nxt c)); eauto|by left]).
  - destruct (commit_new N c n now (app_limited_for_send c available) T Hi ltac:(lia) ltac:(lia) ltac:(lia)) as (c' & -> & T' & F' & I'). cbn [mbind option_bind].
    eexists c', _, n. split; [done|]. cbn [w_bytes]. rewrite Evl. split_and!; try done; try lia. intros Ei. split; [done|]. split; [done|]. intros Es -> HE. destruct (slice_bytes N n Es) as [Sb1 Sb2]; [lia..|]. split; [done|].
    exists N. cbn [w_bytes w_sequence]. rewrite Evl. split_and!; [lia|lia| |done]. unfold tx_payload_sequence. rewrite Ei, T1. done.
  - rewrite (commit_again N c q n now _ T Ei Hi). cbn [mbind option_bind]. eexists (clear_tx_intent c), _, 0. split; [done|]. cbn [w_bytes]. rewrite Evl, Z.add_0_r.
    split_and!; try done; try lia. by rewrite Ei.
Qed.

(** Bytes sent again. *)
Lemma prepare_again N c z max_bytes alloc now : tracks N H sacked c -> U <= z < N -> 0 <= max_bytes -> z + max_bytes <= N ->
  exists w, prepare_segment c fifo (z - U) max_bytes true alloc now = Some (match w with Some _ => clear_tx_intent c | None => c end, w) /\
    match w with Some w => w_sequence w = wr z /\ vlen (w_bytes w) <= max_bytes /\ segment_ok U N (vlen (w_bytes w)) w | None => alloc = false \/ max_bytes = 0 \/ vlen fifo <= z - U end.
Proof.
  intros T Hz Hm Hb. pose proof T as [T1 T2 T3 T4 T5 T6 T7 T8 T9 T10 T11 T12]. unfold prepare_segment. set (available := saturating_sub (vlen fifo) (z - U)). set (n := Z.min (Z.min available max_bytes) (send_mss c)).
  assert (0 <= available /\ (0 < available -> available = vlen fifo - (z - U))) as (Ha1 & Ha2) by (unfold available, saturating_sub; lia).
  destruct ((n =? 0) || negb alloc) eqn:En.
  { exists None. split; [done|]. apply orb_true_iff in En as [En%Z.eqb_eq|En%negb_true_iff]; [|by left]. right. unfold n, available, saturating_sub in En. lia. }
  apply orb_false_iff in En as [En _]. rewrite Z.eqb_neq in En. cbn [negb andb].
  assert (advance (una c) (z - U) = wr z) as Ez by (rewrite T3; unfold advance, wr, wrap; rewrite Zplus_mod_idemp_l; f_equal; lia). rewrite Ez. set (c1 := set_intent_sequence (Some (wr z)) c).
  assert (tracks N H sacked c1) as Tc1 by (apply (tracks_frame N c); try done; apply wrap_bounds; lia). assert (wr z <> nxt c1) as Hne.
  { change (nxt c1) with (nxt c). rewrite T4. intros Eq%(wr_inj U); [lia|unfold win; change window_max with 1073725440 in *; lia..]. }
  change (state c1) with (state c). change (sendable c1) with (sendable c). unfold sendable. rewrite T1. cbn [negb]. rewrite (commit_again N c1 (wr z) n now _ Tc1 eq_refl Hne). cbn [mbind option_bind].
  assert (vlen (take (Z.to_nat n) (drop (Z.to_nat (z - U)) fifo)) = n) as Evl by (apply slice_len; lia). eexists (Some _). split; [done|]. cbn [w_bytes w_sequence]. rewrite Evl. split; [done|]. split; [lia|].
  split; [done|]. split; [lia|]. intros Es. exists z. cbn [w_bytes w_sequence]. rewrite Evl. split_and!; [lia|lia|done|]. apply (slice_bytes z n Es); lia.
Qed.

(** *** Bursts *)

Lemma outstanding_pos N c : tracks N H sacked c -> outstanding_bytes c = N - U.
Proof. intros [_ _ T3 T4 T5 _ T7 _ _ _ _ _]. unfold outstanding_bytes, distance_to. rewrite T3, T4. unfold wr, wrap. rewrite <- Zminus_mod. apply Z.mod_small. change window_max with 1073725440 in *. lia. Qed.

Definition sum (l : list Z) : Z := foldr Z.add 0 l.
Lemma sum_replicate n x : sum (replicate n x) = Z.of_nat n * x.
Proof. induction n as [|n IH]; [done|]. cbn [replicate sum foldr]. unfold sum in IH. rewrite IH. lia. Qed.
Lemma sum_app l1 l2 : sum (l1 ++ l2) = sum l1 + sum l2.
Proof. unfold sum. induction l1 as [|x l1 IH]; cbn; lia. Qed.

Lemma burst_lengths_spec available space mss packets : 0 <= available -> 0 <= space -> 0 < mss -> 0 <= packets ->
  Forall (fun n => 0 < n <= mss) (burst_lengths available space mss packets) /\ sum (burst_lengths available space mss packets) <= Z.min available space.
Proof.
  intros Ha Hs Hm Hp. unfold burst_lengths. set (max_len := if available <? space then _ else space).
  assert (0 <= max_len <= Z.min available space) as Hl.
  { unfold max_len. destruct (Z.ltb_spec available space); [|lia]. destruct (Z.ltb_spec mss available); [|lia]. pose proof (Z.mod_pos_bound available mss Hm). pose proof (Z.mod_le available mss ltac:(lia) Hm). lia. }
  clearbody max_len. assert (div_ceil max_len mss * mss < max_len + mss /\ max_len <= div_ceil max_len mss * mss) as [D1 D2] by (unfold div_ceil; pose proof (Z.div_mod (max_len + mss - 1) mss ltac:(lia)); pose proof (Z.mod_pos_bound (max_len + mss - 1) mss Hm); nia).
  set (segments := Z.min (div_ceil max_len mss) packets). destruct (Z.eqb_spec (Z.min max_len (segments * mss)) 0) as [|Hz]; [split; [done|cbn; lia]|].
  assert (1 <= segments) as H1 by nia. split.
  - apply Forall_app. split; [apply Forall_replicate; lia|]. constructor; [|done]. nia.
  - rewrite sum_app, sum_replicate. cbn. nia.
Qed.

Lemma push_headers_spec now limited : forall payloads N c, tracks N H sacked c -> Forall (fun p => 0 < vlen p) payloads ->
  N + sum (vlen <$> payloads) - U <= window_max -> N + sum (vlen <$> payloads) - P0 < 2 ^ 64 ->
  exists c' ws n, push_headers c payloads now limited = Some (c', ws) /\ 0 <= n <= sum (vlen <$> payloads) /\ tracks (N + n) H sacked c' /\ frame c c' /\
    (intent_sequence c = None -> intent_sequence c' = None /\ n = sum (vlen <$> payloads) /\
       (strict = true -> forall lens, payloads = fill_segments fifo (N - U) lens -> Forall (Z.lt 0) lens -> N - U + sum lens <= vlen fifo -> Forall (wire_ok S N (N + n)) ws)).
Proof.
  induction payloads as [|p payloads IH]; intros N c T Hp Hw Ht.
  { exists c, [], 0. rewrite Z.add_0_r. split_and!; try done. }
  apply Forall_cons in Hp as [Hp0 Hp]. cbn [fmap list_fmap sum foldr] in Hw, Ht. change (foldr Z.add 0 (vlen <$> payloads)) with (sum (vlen <$> payloads)) in *.
  assert (0 <= sum (vlen <$> payloads)) as Hs by (clear -Hp; induction Hp as [|x l ? _ IH]; [done|]; cbn [fmap list_fmap sum foldr]; unfold sum in IH; lia).
  cbn [push_headers]. unfold push_one_header. assert ((match intent_sequence c with Some q => q = nxt c | None => True end) \/ exists q, intent_sequence c = Some q /\ q <> nxt c) as [Hi|(q & Ei & Hi)] by (destruct (intent_sequence c) as [q|]; [destruct (decide (q = nxt c)); eauto|by left]).
  - destruct (commit_new N c (vlen p) now limited T Hi Hp0 ltac:(lia) ltac:(lia)) as (c1 & -> & T1 & F1 & I1). cbn [mbind option_bind].
    destruct (IH (N + vlen p) c1 T1 Hp ltac:(lia) ltac:(lia)) as (c2 & ws & n & -> & Hn & T2 & F2 & Hq). cbn [mbind option_bind]. destruct (Hq I1) as (I2 & En & Hal).
    eexists c2, _, (vlen p + n). split; [done|]. cbn [fmap list_fmap sum foldr]. change (foldr Z.add 0 (vlen <$> payloads)) with (sum (vlen <$> payloads)).
    split; [lia|]. rewrite Z.add_assoc. split; [done|]. split; [by etrans|]. intros Ei. split; [done|]. split; [lia|]. intros Es lens El Hl Hf.
    destruct lens as [|m lens]; [done|]. injection El as Ep El. apply Forall_cons in Hl as [Hm Hl]. cbn [sum foldr] in Hf. change (foldr Z.add 0 lens) with (sum lens) in Hf.
    assert (0 <= sum lens) as Hsl by (clear -Hl; induction Hl as [|x l ? _ IH]; [done|]; cbn [sum foldr]; unfold sum in IH; lia). pose proof (tk_order _ _ _ _ _ _ _ T) as HO.
    assert (vlen p = m) as Evp by (rewrite Ep; apply slice_len; lia). constructor.
    + exists N. cbn [w_bytes w_sequence]. split_and!; [lia|lia|apply (tk_nxt _ _ _ _ _ _ _ T)|]. rewrite Evp, Ep. apply (slice_bytes N m Es); lia.
    + eapply Forall_impl; [apply (Hal Es lens); [rewrite El; f_equal; lia|done|lia]|]. intros w (x & ? & ? & ?). exists x. split_and!; [lia..|tauto|tauto].
  - rewrite (commit_again N c q (vlen p) now limited T Ei Hi). cbn [mbind option_bind]. assert (tracks N H sacked (clear_tx_intent c)) as T1 by (pose proof T as [? ? ? ? ? ? ? ? ? ? ? ?]; by apply (tracks_frame N c)).
    destruct (IH N (clear_tx_intent c) T1 Hp ltac:(lia) ltac:(lia)) as (c2 & ws & n & -> & Hn & T2 & F2 & Hq). cbn [mbind option_bind].
    eexists c2, _, n. split; [done|]. cbn [fmap list_fmap sum foldr]. change (foldr Z.add 0 (vlen <$> payloads)) with (sum (vlen <$> payloads)). split_and!; [lia|lia|done|etrans; [|exact F2]; done|by rewrite Ei].
Qed.

Lemma send_space_spec N c : tracks N H sacked c ->
  exists c' space, send_space c = Some (c', space) /\ 0 <= space /\ tracks N H sacked c' /\ frame c c' /\ intent_sequence c' = intent_sequence c.
Proof.
  intros T. pose proof T as [T1 T2 T3 T4 T5 T6 T7 T8 T9 T10 T11 T12]. unfold send_space. rewrite T1, orb_false_r. destruct (in_recovery _); [by exists c, 0|].
  assert (exists n, (if negb (received_dupacks c =? 0) then Some 1 else sacked_bytes (recovery c)) = Some n) as (n & ->).
  { destruct (negb _); [by exists 1|]. destruct T11 as (L & es & hs & Ht & _). eapply sacked_bytes_total. apply Ht. }
  cbn [mbind option_bind].
  assert (forall d a, frame c d -> wnd d = wnd c -> 0 <= a -> 0 <= round_space d a (congestion_window (congestion c))) as Hr.
  { intros d a F Ew Ha. unfold round_space. rewrite Ew, (fr_mss _ _ F). destruct (wnd c <? send_mss c); [destruct (_ <=? _); lia|]. destruct (a <? send_mss c); [destruct (_ <? _); lia|]. pose proof (Z.mod_le a (send_mss c) Ha T8). lia. }
  destruct (negb (n =? 0)).
  - set (limit := saturating_mul32 _ _). assert (exists d, refresh_limited c limit = d /\ frame c d /\ tracks N H sacked d /\ intent_sequence d = intent_sequence c) as (d & -> & F & Td & Ei).
    { eexists. split; [done|]. unfold refresh_limited. destruct (_ || _); [|done]. by split_and!. }
    eexists d, _. split; [done|]. split_and!; try done. apply Hr; [done|apply F|unfold saturating_sub; lia].
  - eexists c, _. split; [done|]. split_and!; try done. apply Hr; [done|done|unfold saturating_sub; lia].
Qed.

Lemma fill_lens lens : forall k, 0 <= k -> Forall (Z.lt 0) lens -> k + sum lens <= vlen fifo -> vlen <$> fill_segments fifo k lens = lens.
Proof.
  induction lens as [|n lens IH]; intros k Hk Hl Hf; [done|]. apply Forall_cons in Hl as [Hn Hl]. cbn [sum foldr] in Hf. change (foldr Z.add 0 lens) with (sum lens) in Hf.
  assert (0 <= sum lens) as Hs by (clear -Hl; induction Hl as [|x l ? _ IH]; [done|]; cbn [sum foldr]; unfold sum in IH; lia).
  cbn [fill_segments fmap list_fmap]. rewrite slice_len by lia. f_equal. apply IH; [lia|done|lia].
Qed.

Lemma cwnd_limited_keeps N c m : tracks N H sacked c -> tracks N H sacked (update_cwnd_limited c m) /\ frame c (update_cwnd_limited c m) /\ intent_sequence (update_cwnd_limited c m) = intent_sequence c.
Proof.
  intros T. pose proof T as [T1 T2 T3 T4 T5 T6 T7 T8 T9 T10 T11 T12]. unfold update_cwnd_limited. destruct (seq_lt _ _), (_ <? _); try (destruct (_ || _)); (split_and!; [|done|done]); first [done|by apply (tracks_frame N c)].
Qed.

Lemma session_tx_spec N c mss packets pace alloc now : tracks N H sacked c -> 0 < mss -> 0 <= packets -> match pace with Some b => 0 <= b | None => True end -> N - P0 < 2 ^ 63 ->
  exists c' ws n, session_tx c fifo mss packets pace alloc now = Some (c', ws) /\ 0 <= n /\ (n = 0 \/ N + n - U <= wnd c) /\ tracks (N + n) H sacked c' /\ frame (set_mss mss c) c' /\
    (intent_sequence c = None -> intent_sequence c' = None /\ (strict = true -> N <= E -> N + n <= E /\ Forall (wire_ok S U (N + n)) ws)).
Proof.
  intros T Hm Hp Hpace Ht. pose proof T as [T1 T2 T3 T4 T5 T6 T7 T8 T9 T10 T11 T12]. unfold session_tx, send_params. rewrite T1. unfold sendable. rewrite T1. cbn [negb]. rewrite (proj2 (Z.eqb_neq mss 0)) by lia.
  set (c0 := set_mss mss c). assert (tracks N H sacked c0) as T0 by (by constructor). destruct (send_space_spec N c0 T0) as (c1 & sp & -> & Hsp & Tc1 & F1 & I1). cbn [mbind option_bind].
  rewrite (outstanding_pos N c0 T0), (fr_wnd _ _ F1). change (wnd c0) with (wnd c). change (intent_sequence c0) with (intent_sequence c) in I1.
  assert (forall ws, ws = [] -> exists c' ws' n, Some (c1, ws) = Some (c', ws') /\ 0 <= n /\ (n = 0 \/ N + n - U <= wnd c) /\ tracks (N + n) H sacked c' /\ frame c0 c' /\
    (intent_sequence c = None -> intent_sequence c' = None /\ (strict = true -> N <= E -> N + n <= E /\ Forall (wire_ok S U (N + n)) ws'))) as Hnone.
  { intros ws ->. exists c1, [], 0. rewrite Z.add_0_r. split_and!; try done; [by left|]. intros Ei. split; [congruence|done]. }
  destruct (Z.eqb_spec (Z.min sp (saturating_sub (wnd c) (N - U))) 0) as [|Hz]; [by apply Hnone|]. set (space := match pace with Some _ => _ | None => _ end).
  assert (0 <= space <= wnd c - (N - U)) as Hspace.
  { unfold saturating_sub in *. unfold space. destruct pace as [b|]; [|lia]. destruct (b <? 1460); [lia|]. destruct (mss <=? _); [|lia]. match goal with |- context [?x mod mss] => pose proof (Z.mod_pos_bound x mss Hm); pose proof (Z.mod_le x mss ltac:(lia) Hm) end. lia. }
  clearbody space. rewrite (outstanding_pos N c1 Tc1). set (available := saturating_sub (vlen fifo) (N - U)). assert (0 <= available) as Ha by (unfold available, saturating_sub; lia).
  destruct (burst_lengths_spec available space mss packets Ha ltac:(lia) Hm Hp) as [B1 B2]. destruct (burst_lengths _ _ _ _) as [|l0 lens] eqn:El; [by apply Hnone|]. destruct alloc; cbn [negb]; [|by apply Hnone]. rewrite <- El in *.
  set (lens' := burst_lengths available space mss packets) in *. assert (Forall (Z.lt 0) lens') as Hpos by (eapply Forall_impl; [exact B1|]; cbn; lia).
  assert (0 < sum lens') as Hsum. { rewrite El in Hpos |- *. apply Forall_cons in Hpos as [? Hq]. cbn [sum foldr]. enough (0 <= foldr Z.add 0 lens) by lia. clear -Hq. induction Hq as [|x l ? _ IH]; cbn; lia. }
  assert (N - U + sum lens' <= vlen fifo) as Hfit by (unfold available, saturating_sub in B2; lia). pose proof (fill_lens lens' (N - U) ltac:(lia) Hpos Hfit) as Ef.
  unfold push_header. rewrite (outstanding_pos N c1 Tc1). rewrite (proj2 (Z.ltb_ge u32_max _)) by (unfold available, saturating_sub in *; lia).
  destruct (push_headers_spec now (app_limited_for_send c1 (Z.min available u32_max)) (fill_segments fifo (N - U) lens') N c1 Tc1) as (c2 & ws & n & -> & Hn & T2' & F2 & Hq).
  { apply (proj1 (Forall_fmap vlen (Z.lt 0) _)). by rewrite Ef. }
  { rewrite Ef. lia. }
  { rewrite Ef. change window_max with 1073725440 in *. lia. }
  rewrite Ef in Hn, Hq. cbn [mbind option_bind]. destruct (cwnd_limited_keeps (N + n) c2 (N - U + Z.min available u32_max) T2') as (T3' & F3 & I3).
  eexists _, ws, n. split; [done|]. assert (fill_segments fifo (N - U) lens' <> []) as Hne by (by rewrite El). destruct (fill_segments fifo (N - U) lens') eqn:Efs; [done|]. rewrite <- Efs in *.
  split; [lia|]. split; [right; lia|]. split; [done|]. split; [etrans; [exact F1|by etrans]|]. intros Ei. rewrite Ei in I1. destruct (Hq I1) as (I2 & En & Hal). split; [congruence|]. intros Es HE. split.
  - apply (slice_bytes N n Es); lia.
  - eapply Forall_impl; [apply (Hal Es lens'); done|]. intros w (x & ? & ? & ?). exists x. split_and!; [lia..|tauto|tauto].
Qed.

End fifo.
End send.
End conn.

End TcpSenderConn.
