(* ===== verification/TcpRetransmit.v ===== *)
(** * Retransmission

    The bursts and timers of a worker on a connection that [tracks] positions:
    they return, what they send again lies between the oldest byte that is not
    acknowledged and the next one to be sent, and new data follows the window of
    the peer. *)

From S2P Require Import Prelude Ranges InfraPool InfraRbTree InfraRbOps SvmChain SessionRxProofs TcpProtocol TcpOptions TcpSack TcpSackProofs TcpRecovery TcpSamples TcpRecoveryOps TcpAckOps TcpScoreboard TcpAcks TcpSenderInv TcpSender TcpSenderConn.

Module TcpRetransmitProofs.
Import Ranges SvmChain SessionRxProofs TcpProtocol TcpOptions TcpSackProofs RbOps TcpRecovery TcpSamples TcpRecoveryOps TcpAckOps TcpScoreboardProofs TcpAcks TcpSenderInv TcpSender TcpSenderConn.

Section burst.
Context {C : Type} `{!CongestionController C}.
Context (exact : bool) (P0 U H : Z) (sacked : list rng).
Context (strict : bool) (S : Z -> Z) (E : Z) (fifo : list Z).
Hypothesis Hlen : vlen fifo <= u32_max.
Hypothesis Hfifo : strict = true -> fifo = bytes_of S U (E - U) /\ U <= E.
Implicit Types (c : TcpConnection C).
#[local] Abbreviation tracks N := (tracks exact P0 U N H sacked).

(** ** New data *)

(** What sending new data promises: [n] bytes were recorded. *)
Definition sent_new N c c' (ws : list wire) n : Prop :=
  0 <= n /\ tracks (N + n) c' /\ frame c c' /\
  (intent_sequence c = None -> intent_sequence c' = None /\ (strict = true -> N <= E -> N + n <= E /\ Forall (wire_ok S U (N + n)) ws)).

Lemma transmit_loop_spec now m : forall N c k allocs, tracks N c -> 0 <= k -> N + Z.of_nat m * send_mss c - U <= window_max -> N + Z.of_nat m * send_mss c - P0 < 2 ^ 64 -> k + Z.of_nat m * send_mss c <= u32_max ->
  exists c' ws al n, transmit_loop m c fifo k allocs now = Some (c', ws, al) /\ n <= Z.of_nat m * send_mss c /\ 0 <= n /\ tracks (N + n) c' /\ frame c c' /\
    (intent_sequence c = None -> intent_sequence c' = None /\ (strict = true -> k = N - U -> N <= E -> N + n <= E /\ Forall (wire_ok S U (N + n)) ws)).
Proof.
  induction m as [|m IH]; intros N c k allocs T Hk Hw Ht Ho.
  { exists c, [], allocs, 0. rewrite Z.add_0_r. split_and!; try done. }
  pose proof (tk_mss _ _ _ _ _ _ _ T) as Hm. pose proof (tk_order _ _ _ _ _ _ _ T) as HO. cbn [transmit_loop]. destruct (next_alloc allocs) as [alloc al0].
  destruct (prepare_fresh exact P0 U H sacked strict S E fifo Hlen Hfifo N c k (send_mss c) alloc now T Hk ltac:(lia) ltac:(lia) ltac:(lia)) as (c1 & w & n & -> & Hn & T1 & F1 & Hw1 & Hi). cbn [mbind option_bind].
  destruct w as [w|].
  - rewrite (proj2 (Z.ltb_ge u32_max _)) by lia. destruct (IH (N + n) c1 (k + vlen (w_bytes w)) al0 T1) as (c2 & ws & al & n2 & -> & Hn2 & Hn2' & T2 & F2 & Hi2); [lia|rewrite (fr_mss _ _ F1); lia..|]. rewrite (fr_mss _ _ F1) in Hn2.
    cbn [mbind option_bind]. eexists c2, _, al, (n + n2). split; [done|]. rewrite Z.add_assoc. split_and!; [lia|lia|done|by etrans|]. intros Ei. destruct (Hi Ei) as (I1 & En & Hs). destruct (Hi2 I1) as (I2 & Hs2). split; [done|].
    intros Es Ek HE. destruct (Hs Es Ek HE) as [HE1 Hok]. destruct (Hs2 Es ltac:(lia) HE1) as [HE2 Hws]. split; [done|]. constructor; [|done]. destruct Hok as (x & ? & ? & ?). exists x. split_and!; [lia..|tauto|tauto].
  - eexists c1, [], al0, n. split; [done|]. split_and!; [lia|lia|done|done|]. intros Ei. destruct (Hi Ei) as (I1 & En & Hs). split; [done|]. intros Es Ek HE. split; [by apply Hs|done].
Qed.

Lemma transmit_unsent_spec N c burst_size available allocs now : tracks N c -> N - U + available <= u32_max -> N - P0 < 2 ^ 63 ->
  exists c' ws al n, transmit_unsent c fifo burst_size available allocs now = Some (c', ws, al) /\ sent_new N c c' ws n /\ (n = 0 \/ N + n - U <= wnd c).
Proof.
  intros T Ha Ht. pose proof T as [T1 T2 T3 T4 T5 T6 T7 T8 T9 T10 T11 T12]. unfold transmit_unsent. rewrite (outstanding_pos exact P0 U H sacked N c T), (proj2 (Z.ltb_ge u32_max _)) by lia.
  set (m := Z.min burst_size _). assert (Z.of_nat (Z.to_nat m) * send_mss c <= saturating_sub (wnd c) (N - U)) as Hm.
  { pose proof (Z.mul_div_le (saturating_sub (wnd c) (N - U)) (send_mss c) T8). assert (0 <= saturating_sub (wnd c) (N - U) / send_mss c) by (apply Z.div_pos; [unfold saturating_sub; lia|lia]).
    assert (Z.of_nat (Z.to_nat m) <= saturating_sub (wnd c) (N - U) / send_mss c) by (unfold m; lia). nia. }
  assert (N + Z.of_nat (Z.to_nat m) * send_mss c - U <= window_max) as Hw by (unfold saturating_sub in Hm; lia).
  destruct (transmit_loop_spec now (Z.to_nat m) N c (N - U) allocs T ltac:(lia) Hw) as (c1 & ws & al & n & -> & Hn & Hn0 & Tc & F & Hi); [change window_max with 1073725440 in *; lia|change window_max with 1073725440 in *; change u32_max with 4294967295; lia|].
  cbn [mbind option_bind]. destruct (cwnd_limited_keeps exact P0 U H sacked (N + n) c1 (N - U + available) Tc) as (T3' & F3 & I3). set (c2 := match ws with [] => c1 | _ => _ end).
  assert (tracks (N + n) c2 /\ frame c1 c2 /\ intent_sequence c2 = intent_sequence c1) as (T4' & F4 & I4) by (unfold c2; by destruct ws). clearbody c2.
  exists c2, ws, al, n. split; [done|]. split; [|unfold saturating_sub in Hm; lia]. split_and!; [done|done|by etrans|]. intros Ei. destruct (Hi Ei) as (I1 & Hs). split; [congruence|]. intros Es HE. by apply Hs.
Qed.

(** ** Segments sent again *)

Lemma distance_pos a z : U <= a -> a <= z < U + 2 ^ 31 -> distance_to (wr a) (wr z) = z - a.
Proof. intros Ha Hz. unfold distance_to, wr, wrap. rewrite <- Zminus_mod. apply Z.mod_small. lia. Qed.
Lemma advance_pos z n : advance (wr z) n = wr (z + n).
Proof. unfold advance, wr, wrap. apply Zplus_mod_idemp_l. Qed.

Section round.
Context (N : Z) (c0 : TcpConnection C) (sack no_sack_first : bool) (no_sack_end : Z) (now : Instant).
Implicit Types (x : burst (C:=C)).

Record round_inv x : Prop := mk_round {
  ri_tracks : tracks N (b_conn x);
  ri_frame : frame c0 (b_conn x);
  ri_sent : 0 <= b_sent x;
  ri_space : 0 <= b_space x;
  ri_next : in_word 32 (b_next x);
  ri_out : strict = true -> Forall (wire_ok S U N) (b_out x)
}.

(** The sequence number a round starts at. *)
Definition round_from x (sample : TcpSentSample) : Z :=
  match intent_sequence (b_conn x) with Some q => q | None => if sack then sequence sample else b_next x end.

(** A sample of the connection and a position in it. *)
Definition sample_at (r : TcpRecoveryState) (sample : TcpSentSample) (hi_ z : Z) : Prop :=
  exists L1 it L2 es hs, tracked U N N (N - P0) r (L1 ++ it :: L2) es hs /\ (forall y, outstanding (L1 ++ it :: L2) y <-> U <= y < N /\ ~ Ranges.covers sacked y) /\
    (exact = true -> exact_board P0 U N H (L1 ++ it :: L2) hs r) /\ sample = linked_sample L1 it L2 /\ lo it <= z < hi it /\ hi_ = hi it.

Lemma round_sample_spec x : round_inv x ->
  round_sample sack no_sack_first no_sack_end x = Some None \/
  exists sample hi_ z, round_sample sack no_sack_first no_sack_end x = Some (Some sample) /\ sample_at (recovery (b_conn x)) sample hi_ z /\ round_from x sample = wr z.
Proof.
  intros [T _ _ _ Hx _]. destruct (tk_recovery _ _ _ _ _ _ _ T) as (L & es & hs & H1 & H2 & H3). pose proof (tr_sane _ _ _ _ _ _ _ _ H1) as Hs. pose proof (tk_intent _ _ _ _ _ _ _ T) as Hi.
  assert (forall q, in_word 32 q -> sample_covering (recovery (b_conn x)) q = Some None \/ exists sample hi_ z, sample_covering (recovery (b_conn x)) q = Some (Some sample) /\ sample_at (recovery (b_conn x)) sample hi_ z /\ q = wr z) as Hcov.
  { intros q Hq. destruct (find_sample U N _ L es (fun sample => covers sample q) Hs) as [(L1 & it & L2 & EL & Ec & Ew)|[Ew _]]; [right|by left]. subst L.
    destruct (covers_position U N _ L1 it L2 es q Hs Hq Ec) as (z & Hz & Eq). exists (linked_sample L1 it L2), (hi it), z. split; [exact Ew|]. split; [|done]. by exists L1, it, L2, es, hs. }
  unfold round_sample, round_from. destruct (intent_sequence (b_conn x)) as [q|]; [by apply Hcov|]. destruct sack.
  - destruct (find_sample U N _ L es tx_lost Hs) as [(L1 & it & L2 & EL & Ec & Ew)|[Ew _]]; [right|by left]. subst L. destruct (core_middle _ _ _ _ _ _ (sane_core _ _ _ _ _ Hs)) as ((I1 & _) & _ & _ & W3 & _).
    exists (linked_sample L1 it L2), (hi it), (lo it). split; [exact Ew|]. split; [|exact I1]. exists L1, it, L2, es, hs. split_and!; try done; lia.
  - destruct (no_sack_first && _); [by apply Hcov|by left].
Qed.

Lemma account_spec x sample hi_ z remaining n : round_inv x -> sample_at (recovery (b_conn x)) sample hi_ z -> 0 < n -> z + n <= hi_ ->
  exists x' go, account_retransmit sack no_sack_first no_sack_end now x (b_conn x) sample (wr z) remaining n = Some (x', go) /\ round_inv x' /\ b_sent x' = b_sent x + 1.
Proof.
  intros [T F Hs Hsp Hx Ho] (L1 & it & L2 & es & hs & H1 & H2 & H3 & -> & Hz & ->) Hn Hhi. set (c := b_conn x) in *. unfold account_retransmit. rewrite !advance_pos. set (next := if sack then _ else _).
  assert (in_word 32 next) as Hnext by (unfold next; destruct sack; [done|apply wrap_bounds; lia]).
  set (r := if sack then _ else on_retransmit_sent _ _). pose proof (tr_sane _ _ _ _ _ _ _ _ H1) as Hsn.
  assert (forall L es', sane U N (recovery c) L es' -> keeps U N (recovery c) L es' r) as Kr.
  { intros L es' Hl. unfold r, on_retransmit_sent. destruct sack, (_ || _); by apply keeps_same. }
  assert (samples r = samples (recovery c) /\ holes (scoreboard r) = holes (scoreboard (recovery c))) as [Er1 Er2] by (unfold r, on_retransmit_sent; destruct sack, (_ || _); done). clearbody r.
  pose (done_ := fun c : TcpConnection C => mk_burst c (b_sent x + 1) (saturating_sub (b_space x) n) next (buffer_exhausted x) (b_out x) (b_allocs x)). assert (forall c1, tracks N c1 -> frame c c1 -> round_inv (done_ c1) /\ b_sent (done_ c1) = b_sent x + 1) as Hd.
  { intros c1 T1 F1. split; [|done]. constructor; cbn; try done; [by etrans|lia|unfold saturating_sub; lia]. }
  pose proof (tracks_keeps exact P0 U H sacked N c r T Kr) as Tr. destruct ((wr (z + n) =? end_sequence (linked_sample L1 it L2)) || _).
  - assert (exists r2, (if wr (z + n) =? end_sequence (linked_sample L1 it L2) then commit_retransmit r (sequence (linked_sample L1 it L2)) now else Some r) = Some r2 /\ tracks N (set_recovery r2 c)) as (r2 & -> & T2).
    { destruct (_ =? _); [|by exists r]. destruct (core_middle _ _ _ _ _ _ (sane_core _ _ _ _ _ Hsn)) as ((I1 & _) & _). change (sequence (linked_sample L1 it L2)) with (sequence (smp it)). rewrite I1.
      destruct (commit_safe U N r L1 it L2 es now) as (r2 & E2 & K2); [destruct Hsn as [? ? ?]; constructor; [by rewrite Er1|by rewrite Er2|done]|]. exists r2. split; [done|].
      destruct (Kr _ _ Hsn) as (_ & _ & _ & _ & _ & Sc). destruct (recovers_at exact P0 U N H sacked (recovery c) r2 (L1 ++ it :: L2) es hs H1 H2 H3) as [Hr2 Hf2]; [|by apply tracks_recovery].
      destruct K2 as (L' & es' & K1 & K2 & K3 & K4). exists L', es'. split_and!; [done..|by etrans]. }
    cbn [mbind option_bind]. exists (done_ (clear_tx_intent (set_recovery r2 c))), true. split; [done|]. apply Hd; [|done]. pose proof T2 as [? ? ? ? ? ? ? ? ? ? ? ?]. by constructor.
  - set (c2 := set_intent _ _). assert (tracks N c2) as T2. { pose proof Tr as [? ? ? ? ? ? ? ? ? ? ? ?]. constructor; try done. apply wrap_bounds. lia. }
    destruct (sack || _ || _); [exists (done_ (program_retransmit c2)), false|exists (done_ c2), true]; (split; [done|]); apply Hd; try done. pose proof T2 as [? ? ? ? ? ? ? ? ? ? ? ?]. by constructor.
Qed.

(** Every round that goes on sends a segment or drops the intent. *)
Definition weight (max_segments : Z) x : Z := 2 * (max_segments - b_sent x) + (if bool_decide (is_Some (intent_sequence (b_conn x))) then 1 else 0).

Lemma retransmit_round_spec max_segments x : round_inv x ->
  exists x' go, retransmit_round fifo sack no_sack_first no_sack_end now x = Some (x', go) /\ round_inv x' /\ (go = true -> weight max_segments x' < weight max_segments x).
Proof.
  intros I. pose proof I as [T F Hs Hsp Hx Ho]. unfold retransmit_round. destruct (sack && _); [by exists x, false|]. destruct (round_sample_spec x I) as [->|(sample & hi_ & z & -> & Hat & Ef)]; cbn [mbind option_bind].
  - destruct (bool_decide_reflect (is_Some (intent_sequence (b_conn x)))) as [Hi|Hi]; [|by exists x, false]. exists (with_conn (clear_tx_intent (b_conn x)) x), true. split; [done|]. split.
    + constructor; cbn; try done; [|by (etrans; [exact F|])]. pose proof T as [? ? ? ? ? ? ? ? ? ? ? ?]. by constructor.
    + intros _. unfold weight. cbn [with_conn b_conn b_sent intent_sequence clear_tx_intent set_intent intent tx_intent_sequence]. rewrite (bool_decide_true (is_Some (intent_sequence (b_conn x)))) by done. cbn. lia.
  - fold (round_from x sample). rewrite Ef. pose proof Hat as (L1 & it & L2 & es & hs & H1 & H2 & H3 & Esm & Hz & Ehi). pose proof (sane_core _ _ _ _ _ (tr_sane _ _ _ _ _ _ _ _ H1)) as Hc.
    destruct (core_middle _ _ _ _ _ _ Hc) as ((I1 & I2 & _) & W1 & W2 & W3 & _). pose proof (spans_in _ _ _ it (lc_spans _ _ _ _ Hc) ltac:(set_solver)) as HiN. pose proof (lc_window _ _ _ _ Hc) as HNw.
    assert (distance_to (una (b_conn x)) (wr z) = z - U) as -> by (rewrite (tk_una _ _ _ _ _ _ _ T); apply distance_pos; lia).
    assert (distance_to (wr z) (end_sequence sample) = hi it - z) as -> by (rewrite Esm; change (end_sequence (linked_sample L1 it L2)) with (end_sequence (smp it)); rewrite I2; apply distance_pos; lia).
    set (remaining := Z.min (hi it - z) _). assert (0 <= remaining <= hi it - z) as Hrem.
    { unfold remaining. pose proof (wrap_bounds 32 (no_sack_end - wr z) ltac:(lia)) as B. unfold in_word in B. destruct sack; [change u32_max with 4294967295; lia|unfold distance_to; lia]. }
    set (requested := Z.min (Z.min remaining _) _). destruct (Z.eqb_spec requested 0) as [|Hreq]; [by exists x, false|]. pose proof (tk_mss _ _ _ _ _ _ _ T) as Hm.
    destruct (next_alloc (b_allocs x)) as [alloc al]. destruct (prepare_again exact P0 U H sacked strict S E fifo Hfifo N (b_conn x) z requested alloc now T ltac:(lia) ltac:(lia) ltac:(lia)) as (w & -> & Hw). cbn [mbind option_bind].
    destruct w as [w|].
    + destruct Hw as (Ews & Hwl & Hwv & Hwp & Hwok). set (x1 := mk_burst (clear_tx_intent (b_conn x)) _ _ _ _ _ _).
      assert (round_inv x1) as I1'. { constructor; cbn; try done; [pose proof T as [? ? ? ? ? ? ? ? ? ? ? ?]; by constructor|by (etrans; [exact F|])|]. intros Es. apply Forall_app. split; [by apply Ho|]. constructor; [by apply Hwok|done]. }
      destruct (account_spec x1 sample hi_ z remaining (vlen (w_bytes w)) I1') as (x' & go & E' & I' & Es'); [exact Hat|lia|lia|]. exists x', go. split; [exact E'|]. split; [done|]. intros _. unfold weight. rewrite Es'. cbn [x1 b_sent]. repeat case_bool_decide; lia.
    + eexists _, false. split; [done|]. split; [|done]. constructor; cbn; try done; [|by (etrans; [exact F|])]. pose proof T as [? ? ? ? ? ? ? ? ? ? ? ?]. by constructor.
Qed.

Lemma retransmit_loop_spec max_segments n : forall x, round_inv x -> weight max_segments x < Z.of_nat n -> exists x', retransmit_loop fifo sack no_sack_first no_sack_end now n max_segments x = Some x' /\ round_inv x'.
Proof.
  induction n as [|n IH]; intros x I Hw; cbn [retransmit_loop].
  - rewrite (proj2 (Z.ltb_ge (b_sent x) max_segments)); [by exists x|]. unfold weight in Hw. destruct (bool_decide _); lia.
  - destruct (negb _); [by exists x|]. destruct (retransmit_round_spec max_segments x I) as (x1 & go & -> & I1 & Hg). cbn [mbind option_bind]. destruct go; [|by exists x1]. apply IH; [done|]. specialize (Hg eq_refl). lia.
Qed.

End round.

Lemma tracks_set N c c' : tracks N c -> state c' = state c -> fin_sent c' = fin_sent c -> seqs c' = seqs c -> send_mss c' = send_mss c -> intent c' = intent c -> bytes_in_flight_cached c' = bytes_in_flight_cached c -> recovery c' = recovery c -> tracks N c'.
Proof.
  intros [T1 T2 T3 T4 T5 T6 T7 T8 T9 T10 T11 T12] E1 E2 E3 E4 E5 E6 E7. unfold una, nxt, wnd, intent_sequence in *. constructor; unfold una, nxt, wnd, intent_sequence; rewrite ?E1, ?E2, ?E3, ?E4, ?E5, ?E6, ?E7; done.
Qed.

(** *** The burst of a worker *)

Lemma retransmit_lost_spec N c max_segments burst_bytes allocs now : tracks N c -> 0 < max_segments -> 0 <= burst_bytes ->
  exists x, retransmit_lost c fifo max_segments burst_bytes allocs now = Some x /\ round_inv N c x.
Proof.
  intros T Hm Hb. unfold retransmit_lost. pose proof (tk_mss _ _ _ _ _ _ _ T) as Hmss. apply retransmit_loop_spec.
  - constructor; cbn; try done.
    + unfold recovery_send_space. destruct (negb _); [lia|]. cbn. destruct (_ =? 0), (_ <? _); unfold saturating_sub, sat32, saturating_add; lia.
    + pose proof (tk_intent _ _ _ _ _ _ _ T). destruct (intent_sequence c); [done|]. rewrite (tk_una _ _ _ _ _ _ _ T). apply wrap_bounds. lia.
  - unfold weight, retransmit_fuel. cbn. destruct (bool_decide _); lia.
Qed.

(** New data follows what was sent again, and no intent is left then. *)
Definition retransmit_quiet c (burst_size burst_bytes : Z) (allocs : list bool) (now : Instant) : bool :=
  let max_segments := Z.min burst_size (burst_bytes / send_mss c) in
  match retransmit_lost c fifo max_segments burst_bytes allocs now with
  | Some x => negb (negb (buffer_exhausted x) && (b_sent x <? max_segments) && (send_mss c <=? b_space x) && negb (saturating_sub (vlen fifo) (outstanding_bytes c) =? 0)) || bool_decide (intent_sequence (b_conn x) = None)
  | None => true
  end.

(** What an operation of the worker promises. *)
Definition sent_some N c c' (ws : list wire) (quiet : bool) : Prop :=
  exists n, 0 <= n /\ (n = 0 \/ N + n - U <= wnd c) /\ tracks (N + n) c' /\ frame c c' /\ (strict = true -> quiet = true -> N <= E -> N + n <= E /\ Forall (wire_ok S U (N + n)) ws).

Lemma wires_later a b ws : a <= b -> Forall (wire_ok S U a) ws -> Forall (wire_ok S U b) ws.
Proof. intros Hab Hw. eapply Forall_impl; [exact Hw|]. intros w (y & ? & ? & ?). exists y. split_and!; [lia..|tauto|tauto]. Qed.

Lemma candidate_total N r : recovers exact P0 U N H sacked r -> exists s, retransmit_candidate r = Some s.
Proof. intros (L & es & hs & T & _). apply (read_total U N r L es), T. Qed.

Lemma retransmit_spec N c burst_size burst_bytes allocs now : tracks N c -> 0 <= burst_size -> 0 <= burst_bytes -> N - P0 < 2 ^ 63 ->
  exists c' ws, retransmit c fifo burst_size burst_bytes allocs now = Some (c', ws) /\ sent_some N c c' ws (retransmit_quiet c burst_size burst_bytes allocs now).
Proof.
  intros T Hb1 Hb2 Ht. pose proof (tk_mss _ _ _ _ _ _ _ T) as Hm. unfold retransmit, retransmit_quiet. rewrite (proj2 (Z.eqb_neq (send_mss c) 0)) by lia. set (max := Z.min burst_size _).
  assert (0 <= max) as Hmax by (unfold max; pose proof (Z.div_pos burst_bytes (send_mss c) Hb2 Hm); lia). destruct (Z.eqb_spec max 0) as [|Hmz].
  { eexists _, []. split; [done|]. exists 0. rewrite Z.add_0_r. split_and!; try done; [by left|by apply (tracks_set N c)]. }
  destruct (retransmit_lost_spec N c max burst_bytes allocs now T ltac:(lia) Hb2) as (x & -> & [Tx Fx Hsx _ _ Hox]). cbn [mbind option_bind].
  rewrite (outstanding_pos exact P0 U H sacked N c T). set (available := saturating_sub (vlen fifo) (N - U)). set (follows := negb (buffer_exhausted x) && _ && _ && _).
  assert (exists c2 ws n, (if follows then if u32_max <? available then None else
      '(c1, ws, _) ← transmit_unsent (b_conn x) fifo (new_data_burst (b_conn x) (opt_sack (opts c)) max (b_sent x) (b_space x) (N - U) available) available (b_allocs x) now; Some (c1, ws)
    else Some (b_conn x, [])) = Some (c2, ws) /\ (if follows then sent_new N (b_conn x) c2 ws n else c2 = b_conn x /\ ws = [] /\ n = 0) /\ (n = 0 \/ N + n - U <= wnd c)) as (c2 & ws & n & -> & Hn & Hwin).
  { destruct follows eqn:Ef; [|exists (b_conn x), [], 0; split_and!; try done; by left]. assert (0 < available -> available = vlen fifo - (N - U)) as Ha by (unfold available, saturating_sub; lia). pose proof (tk_order _ _ _ _ _ _ _ T) as HO.
    unfold follows in Ef. rewrite !andb_true_iff, (negb_true_iff (available =? 0)), Z.eqb_neq in Ef. assert (0 <= available) by (unfold available, saturating_sub; lia). rewrite (proj2 (Z.ltb_ge u32_max available)) by lia.
    destruct (transmit_unsent_spec N (b_conn x) (new_data_burst (b_conn x) (opt_sack (opts c)) max (b_sent x) (b_space x) (N - U) available) available (b_allocs x) now Tx ltac:(lia) Ht) as (c2 & ws & al & n & -> & Hn & Hw).
    cbn [mbind option_bind]. exists c2, ws, n. rewrite (fr_wnd _ _ Fx) in Hw. by split_and!. }
  cbn [mbind option_bind]. assert (0 <= n /\ tracks (N + n) c2 /\ frame c c2) as (Hn0 & T2 & F2).
  { destruct follows; [destruct Hn as (? & ? & ? & _); split_and!; [done|done|by etrans]|]. destruct Hn as (-> & _ & ->). rewrite Z.add_0_r. by split_and!. }
  destruct (candidate_total (N + n) (recovery c2) (tk_recovery _ _ _ _ _ _ _ T2)) as (cand & ->). cbn [mbind option_bind]. eexists _, _. split; [done|]. set (c3 := if _ || _ then program_retransmit c2 else c2).
  assert (tracks (N + n) c3 /\ frame c2 c3 /\ recovery c3 = recovery c2) as (T3 & F3 & E3) by (unfold c3; destruct (_ || _); split_and!; try done; by apply (tracks_set (N + n) c2)). clearbody c3.
  exists n. split_and!; [done|done| | |].
  - destruct (b_sent x + vlen ws =? 0); [done|]. apply tracks_keeps; [done|]. intros. by apply keeps_same.
  - destruct (b_sent x + vlen ws =? 0); (etrans; [exact F2|]); [done|]. by (etrans; [exact F3|]).
  - intros Es Hq HE. specialize (Hox Es). destruct follows; [|destruct Hn as (_ & -> & ->); rewrite Z.add_0_r, app_nil_r; by split]. cbn [negb orb] in Hq. apply bool_decide_eq_true in Hq.
    destruct Hn as (_ & _ & _ & Hs). destruct (Hs Hq) as (_ & Hs2). destruct (Hs2 Es HE) as [HE2 Hws]. split; [done|]. apply Forall_app. split; [|done]. eapply wires_later, Hox. lia.
Qed.

Lemma custom_tx_spec N c burst_size burst_bytes allocs now : tracks N c -> 0 <= burst_size -> 0 <= burst_bytes -> N - P0 < 2 ^ 63 ->
  exists c' ws, custom_tx c fifo burst_size burst_bytes allocs now = Some (c', ws) /\ sent_some N c c' ws (retransmit_quiet (set_retransmit_pending false c) burst_size burst_bytes allocs now).
Proof.
  intros T Hb1 Hb2 Ht. unfold custom_tx. destruct (_ && _).
  - destruct (retransmit_spec N (set_retransmit_pending false c) burst_size burst_bytes allocs now) as (c' & ws & E' & (n & H1 & H2 & H3 & F & H4)); [by apply (tracks_set N c)|done..|]. exists c', ws. split; [done|]. exists n. split_and!; try done. by (etrans; [|exact F]).
  - exists c, []. split; [done|]. exists 0. rewrite Z.add_0_r. split_and!; try done. by left.
Qed.

(** ** Timers *)

(** What a timer that sends no new data promises. *)
Definition sent_again N c c' (ws : list wire) : Prop := tracks N c' /\ frame c c' /\ (strict = true -> Forall (wire_ok S U N) ws).

(** The first sample, sent again and recorded. *)
Lemma rto_send N c it L es hs alloc now : tracks N c -> tracked U N N (N - P0) (recovery c) (it :: L) es hs -> (forall y, outstanding (it :: L) y <-> U <= y < N /\ ~ Ranges.covers sacked y) ->
  (exact = true -> exact_board P0 U N H (it :: L) hs (recovery c)) -> intent_sequence c = Some (wr (lo it)) -> tx_intent_payload_len (intent c) = hi it - lo it ->
  exists c' ws, rto_retransmit c fifo alloc now = Some (c', ws) /\ sent_again N c c' ws /\ (alloc = true -> lo it - U < vlen fifo -> exists w, ws = [w] /\ w_sequence w = wr (lo it) /\ 0 < vlen (w_bytes w)).
Proof.
  intros T H1 H2 H3 Ei Ep. pose proof (tr_sane _ _ _ _ _ _ _ _ H1) as Hs. pose proof (sane_core _ _ _ _ _ Hs) as Hc. destruct (core_middle _ _ _ [] _ _ Hc) as ((I1 & I2 & _) & W1 & W2 & W3 & _).
  pose proof (spans_in _ _ _ it (lc_spans _ _ _ _ Hc) ltac:(set_solver)) as HiN. pose proof (lc_window _ _ _ _ Hc) as HNw. pose proof (tk_mss _ _ _ _ _ _ _ T) as Hm. unfold rto_retransmit. rewrite Ei, Ep.
  rewrite (tk_una _ _ _ _ _ _ _ T), distance_pos by lia. destruct (prepare_again exact P0 U H sacked strict S E fifo Hfifo N c (lo it) (Z.min (hi it - lo it) (send_mss c)) alloc now T ltac:(lia) ltac:(lia) ltac:(lia)) as (w & -> & Hw).
  cbn [mbind option_bind]. destruct w as [w|]; [|exists c, []; split; [done|]; split; [done|]; intros ->; lia]. destruct Hw as (Ew & _ & _ & Hpos & Hok). change (recovery (clear_tx_intent c)) with (recovery c). set (r := on_retransmit_sent _ _).
  assert (keeps U N (recovery c) (it :: L) es r) as Kr by (unfold r, on_retransmit_sent; destruct (_ || _); by apply keeps_same).
  assert (sane U N r ([] ++ it :: L) es) as Hsr by (destruct Hs as [? ? ?]; unfold r, on_retransmit_sent; destruct (_ || _); by constructor). clearbody r.
  destruct (commit_safe U N r [] it L es now Hsr) as (r2 & -> & L' & es' & K1 & K2 & K3 & K4). cbn [mbind option_bind]. destruct Kr as (_ & _ & _ & _ & _ & Sc).
  destruct (recovers_at exact P0 U N H sacked (recovery c) r2 (it :: L) es hs H1 H2 H3) as [Hr2 Hf2]; [exists L', es'; split_and!; [done..|by etrans]|].
  eexists _, [w]. split; [done|]. assert (tracks N (clear_tx_intent c)) as Tc by (pose proof T as [? ? ? ? ? ? ? ? ? ? ? ?]; by constructor). split; [|intros _ _; by exists w]. split; [|split; [done|]].
  - apply (tracks_set N (set_recovery r2 (clear_tx_intent c))); try done. by apply tracks_recovery.
  - intros Es. constructor; [by apply Hok|done].
Qed.

Lemma rto_timer_spec N c alloc now : tracks N c -> exists c' ws, rto_timer c fifo alloc now = Some (c', ws) /\ sent_again N c c' ws /\
  (alloc = true -> forall z, U <= z < N -> ~ Ranges.covers sacked z -> (forall y, U <= y < z -> Ranges.covers sacked y) -> z - U < vlen fifo -> exists w, ws = [w] /\ w_sequence w = wr z /\ 0 < vlen (w_bytes w)).
Proof.
  intros T. pose proof T as [T1 T2 T3 T4 T5 T6 T7 T8 T9 T10 T11 T12]. destruct T11 as (L & es & hs & H1 & H2 & H3). pose proof (tr_sane _ _ _ _ _ _ _ _ H1) as Hs. unfold rto_timer, on_retransmit_timer. rewrite T1, T2. cbn [negb].
  destruct (rto_safe U N (recovery c) L es now (nxt c) (congestion c) Hs) as (r & cc & sample & -> & K & Hsm). cbn [mbind option_bind]. destruct (recovers_at exact P0 U N H sacked (recovery c) r L es hs H1 H2 H3 K) as [Hr Hf].
  set (c1 := set_cc cc (set_recovery r c)). assert (tracks N c1) as Tc1 by (apply (tracks_set N (set_recovery r c)); try done; by apply tracks_recovery).
  destruct sample as [sample|]; cbn [mbind option_bind].
  2: { exists c1, []. split; [done|]. split; [done|]. intros _ z Hz Hn _ _. rewrite Hsm in H2. destruct (proj1 (outstanding_nil z)). by apply H2. }
  destruct Hsm as (it & L0 & -> & ->).
  destruct (core_middle _ _ _ [] _ _ (sane_core _ _ _ _ _ Hs)) as ((I1 & I2 & _ & I4) & _). cbn [with_links sequence payload_len]. rewrite I1, I4. set (c2 := set_ready true _).
  destruct (tracked_keeps _ _ _ _ _ _ _ _ _ H1 K) as (L' & es' & H1' & Sh & Sc). inversion Sh as [|? it' ? L0' (Ex1 & Ex2 & Ex3) Sh']; subst.
  assert (forall y, outstanding (it' :: L0') y <-> U <= y < N /\ ~ Ranges.covers sacked y) as H2' by (intros y; rewrite <- (shape_outstanding _ _ _ Sh); apply H2).
  destruct (rto_send N c2 it' L0' es' hs alloc now) as (c' & ws & -> & (Tc' & Fc' & Hws) & Hone); try done.
  - constructor; try apply Tc1. apply wrap_bounds. lia.
  - intros Ex. exact (exact_shape P0 U N H (recovery c) r (it :: L0) (it' :: L0') hs (H3 Ex) Sc Sh).
  - cbn. by rewrite Ex2.
  - cbn. by rewrite Ex2, Ex3.
  - exists c', ws. split; [done|]. split; [split; [done|]; split; [by (etrans; [|exact Fc'])|done]|]. intros Ea z Hz Hn Hlow Hl. pose proof (lc_spans _ _ _ _ (sane_core _ _ _ _ _ (tr_sane _ _ _ _ _ _ _ _ H1'))) as Hsp.
    assert (lo it' = z) as <-; [|by apply Hone]. destruct (spans_middle _ [] _ _ _ Hsp) as (_ & B1 & B2 & B3). destruct (proj2 (H2' z) (conj Hz Hn)) as (k & Hk & Hkz). destruct (proj1 (H2' (lo it')) ltac:(apply outstanding_cons; left; lia)) as [B4 B5].
    destruct (Z.lt_trichotomy (lo it') z) as [?|[?|?]]; [destruct B5; apply Hlow; lia|done|]. apply elem_of_cons in Hk as [->|Hk]; [lia|specialize (B3 k Hk); lia].
Qed.

Lemma rack_timer_spec N c now : tracks N c -> exists c', rack_timer c now = Some c' /\ tracks N c' /\ frame c c'.
Proof.
  intros T. unfold rack_timer, on_rack_timer. rewrite (tk_state _ _ _ _ _ _ _ T). cbn [negb].
  destruct (recovers_cc exact P0 U N H sacked (recovery c) (on_rack_timeout (recovery c) now (nxt c) (congestion c)) (tk_recovery _ _ _ _ _ _ _ T)) as (r & cc & -> & Hr & Hf); [intros; by apply rack_timeout_safe|].
  cbn [mbind option_bind]. destruct (candidate_total N r Hr) as (cand & ->). cbn [mbind option_bind]. assert (tracks N (set_recovery r c)) as Tr by (by apply tracks_recovery).
  destruct (negb _); cbn [mbind option_bind]; (eexists; split; [done|split; [|done]]); by apply (tracks_set N (set_recovery r c)).
Qed.

Lemma persist_spec N c : tracks N c -> tracks N (on_persist_timer_expiry c) /\ frame c (on_persist_timer_expiry c).
Proof.
  intros T. pose proof T as [T1 T2 T3 T4 T5 T6 T7 T8 T9 T10 T11 T12]. unfold on_persist_timer_expiry. rewrite T1. cbn [negb]. destruct (negb _); [split; [by apply (tracks_set N c)|done]|].
  destruct (bool_decide _); [split; [by apply (tracks_set N c)|done]|]. split; [|done]. constructor; try done. change (in_word 32 (una c)). rewrite T3. apply wrap_bounds. lia.
Qed.
Lemma mtu_spec N c mss : tracks N c -> tracks N (request_mtu_retransmit c mss) /\ frame c (request_mtu_retransmit c mss).
Proof.
  intros T. pose proof T as [T1 T2 T3 T4 T5 T6 T7 T8 T9 T10 T11 T12]. unfold request_mtu_retransmit. destruct (negb _); [done|]. split; [|done]. constructor; try done. change (in_word 32 (una c)). rewrite T3. apply wrap_bounds. lia.
Qed.

Lemma probe_recorded N c e again : tracks N c -> exists r, record_tlp_probe (recovery c) e again = Some r /\ tracks N (set_recovery r c).
Proof.
  intros T. destruct (recovers_safe exact P0 U N H sacked (recovery c) (record_tlp_probe (recovery c) e again) (tk_recovery _ _ _ _ _ _ _ T)) as (r & -> & Hr & Hf); [intros; by apply tlp_probe_safe|].
  exists r. split; [done|]. by apply tracks_recovery.
Qed.

Lemma tlp_probe_spec N c alloc1 alloc2 now : tracks N c -> N - P0 < 2 ^ 63 -> exists c' ws, send_tlp_probe c fifo alloc1 alloc2 now = Some (c', ws) /\ sent_some N c c' ws (bool_decide (intent_sequence c = None)).
Proof.
  intros T Ht. pose proof T as [T1 T2 T3 T4 T5 T6 T7 T8 T9 T10 T11 T12]. unfold send_tlp_probe. rewrite (outstanding_pos exact P0 U H sacked N c T). set (space := tlp_new_data_space _ _).
  assert (0 <= space /\ (space <> 0 -> space <= wnd c - (N - U))) as [Hs0 Hs1].
  { unfold space, tlp_new_data_space. rewrite (outstanding_pos exact P0 U H sacked N c T). change u32_max with 4294967295. destruct (_ <=? _); unfold saturating_sub; lia. }
  assert (exists c1 w n, (if negb (space =? 0) then prepare_segment c fifo (N - U) space false alloc1 now else Some (c, None)) = Some (c1, w) /\ 0 <= n /\ (n = 0 \/ N + n - U <= wnd c) /\ tracks (N + n) c1 /\ frame c c1 /\
    match w with Some w => intent_sequence c = None -> strict = true -> N <= E -> N + n <= E /\ wire_ok S N (N + n) w | None => c1 = c /\ n = 0 end) as (c1 & w & n & -> & Hn & Hwin & Tc1 & F1 & Hw).
  { destruct (Z.eqb_spec space 0) as [|Hz]; cbn [negb]; [exists c, None, 0; rewrite Z.add_0_r; split_and!; try done; by left|].
    destruct (prepare_fresh exact P0 U H sacked strict S E fifo Hlen Hfifo N c (N - U) space alloc1 now T ltac:(lia) Hs0) as (c1 & w & n & -> & Hn & Tc1 & F1 & Hw & Hi); [lia|change window_max with 1073725440 in *; lia|].
    exists c1, w, n. split_and!; try done; [lia|right; lia|]. destruct w as [w|]; [|done]. intros Ei Es HE. destruct (Hi Ei) as (_ & _ & Hc). by apply Hc. }
  cbn [mbind option_bind]. destruct w as [w|].
  - destruct (probe_recorded (N + n) c1 (nxt c1) None Tc1) as (r & -> & Tr). cbn [mbind option_bind]. rewrite (proj2 (Z.ltb_ge u32_max (vlen fifo))) by lia.
    destruct (cwnd_limited_keeps exact P0 U H sacked (N + n) (set_recovery r c1) (vlen fifo) Tr) as (T3' & F3 & _). eexists _, [w]. split; [done|]. exists n. split_and!; [done|done|done|etrans; [exact F1|]; by (etrans; [|exact F3])|].
    intros Es Hq HE. apply bool_decide_eq_true in Hq. destruct (Hw Hq Es HE) as (HE' & y & Hy). split; [done|]. constructor; [|done]. exists y. destruct Hy as (? & ? & ?). split_and!; [lia..|tauto|tauto].
  - destruct Hw as [-> ->]. rewrite Z.add_0_r in Tc1. destruct (Z.eqb_spec (N - U) 0) as [|Ho]; [exists c, []; split; [done|]; exists 0; rewrite Z.add_0_r; split_and!; try done; by left|].
    set (len := Z.min (N - U) (send_mss c)). replace (N - U - len) with ((N - len) - U) by lia.
    destruct (prepare_again exact P0 U H sacked strict S E fifo Hfifo N c (N - len) len alloc2 now T ltac:(lia) ltac:(lia) ltac:(lia)) as (w & -> & Hw). cbn [mbind option_bind]. destruct w as [w|].
    + assert (tracks N (clear_tx_intent c)) as Tc by (by constructor). destruct Hw as (_ & _ & _ & _ & Hok). destruct (probe_recorded N (clear_tx_intent c) (nxt (clear_tx_intent c)) (Some (advance (una (clear_tx_intent c)) (N - len - U), advance (advance (una (clear_tx_intent c)) (N - len - U)) (vlen (w_bytes w)))) Tc) as (r & -> & Tr).
      cbn [mbind option_bind]. eexists _, [w]. split; [done|]. exists 0. rewrite Z.add_0_r. split_and!; try done; [by left|]. intros Es _ HE. split; [done|]. constructor; [by apply Hok|done].
    + exists c, []. split; [done|]. exists 0. rewrite Z.add_0_r. split_and!; try done. by left.
Qed.

Lemma tlp_timer_spec N c srtt rto alloc1 alloc2 now : tracks N c -> N - P0 < 2 ^ 63 -> exists c' ws, tlp_timer c fifo srtt rto alloc1 alloc2 now = Some (c', ws) /\ sent_some N c c' ws (bool_decide (intent_sequence c = None)).
Proof.
  intros T Ht. unfold tlp_timer. set (c1 := set_recovery (disarm_tlp _) c). assert (tracks N c1) as T1 by (apply tracks_keeps; [done|]; intros; by apply keeps_same). destruct (match state c with Established => _ | _ => false end).
  - destruct (tlp_probe_spec N c1 alloc1 alloc2 now T1 Ht) as (c' & ws & E' & (n & H1 & H2 & H3 & F & H4)). exists c', ws. split; [done|]. exists n. split_and!; try done. by (etrans; [|exact F]).
  - exists c1, []. split; [done|]. exists 0. rewrite Z.add_0_r. split_and!; try done. by left.
Qed.

End burst.

End TcpRetransmitProofs.
