(* ===== verification/TcpSenderRun.v ===== *)
(** * Runs of a TCP sender

    A sender takes writes of the application, bursts of the session layer and of
    the worker, acknowledgments and timers in any order.  Ghost positions say
    where in the byte stream it is.  The theorems say what it keeps of what it
    sent, what it puts on the wire, and what its scoreboard knows. *)

From S2P Require Import Prelude Ranges InfraPool InfraRbTree InfraRbOps SvmChain SessionRxProofs TcpProtocol TcpOptions TcpSack TcpSackProofs TcpRecovery TcpSamples TcpRecoveryOps TcpAckOps TcpScoreboard TcpAcks.
From S2P Require Import TcpSenderInv TcpSender TcpSenderConn TcpRetransmit.

Module TcpSenderRun.
Import Ranges SvmChain SessionRxProofs TcpProtocol TcpOptions TcpSackProofs RbOps TcpRecovery TcpSamples TcpRecoveryOps TcpAckOps TcpScoreboardProofs TcpAcks TcpSenderInv TcpSender TcpSenderConn TcpRetransmitProofs.

Section run.
Context {C : Type} `{!CongestionController C}.
Implicit Types (c : TcpConnection C).

(** ** Runs *)

Inductive tx_input : Type :=
| Write (bs : list Z)
| SessionTx (mss max_burst : Z) (pace : option Z) (alloc : bool) (at_ : Instant)
| CustomTx (burst_size burst_bytes : Z) (allocs : list bool) (at_ : Instant)
| AckIn (i : ack_input)
| RtoTimer (alloc : bool) (at_ : Instant)
| RackTimer (at_ : Instant)
| TlpTimer (srtt : option Duration) (rto : Duration) (alloc_new alloc_tail : bool) (at_ : Instant)
| PersistTimer
| MtuShrunk (mss : Z).

Record tx_system : Type := mk_tx { tx_conn : TcpConnection C; tx_fifo : list Z }.

(** Positions: the oldest byte not acknowledged, the next one to be sent, the
    end of what was written, the highest one acknowledged, and the ranges that
    were acknowledged selectively. *)
Record tx_ghost : Type := mk_ghost { g_una : Z; g_nxt : Z; g_end : Z; g_high : Z; g_sacked : list rng }.

Definition g_sent (g : tx_ghost) c c' : tx_ghost := mk_ghost (g_una g) (g_nxt g + distance_to (nxt c) (nxt c')) (g_end g) (g_high g) (g_sacked g).
Definition g_acked (g : tx_ghost) c (i : ack_input) : tx_ghost :=
  let a := ai_acknowledgment i in
  if negb (accepts_ack c a) then g else
  let A := g_una g + distance_to (una c) a in
  let sack := opt_sack (opts c) in
  let ranges := if sack then sack_ranges A (g_nxt g) (dsack_block (ai_blocks i) a) true (ai_blocks i) else [] in
  mk_ghost A (g_nxt g) (g_end g) (if sack || (seq_gt a (una c) || tlp_probe_pending (recovery c)) then top (Z.max (g_high g) A) ranges else g_high g) (g_sacked g ++ ranges).

(** A segment sent while the positions from [U] to [N] were in flight. *)
Record sent : Type := mk_sent { at_una : Z; at_nxt : Z; segment : wire }.

Definition tx_step (sys : tx_system) (g : tx_ghost) (i : tx_input) : option (tx_system * tx_ghost * list wire) :=
  let c := tx_conn sys in
  let fifo := tx_fifo sys in
  let sends m := '(c', ws) ← m; Some (mk_tx c' fifo, g_sent g c c', ws) in
  match i with
  | Write bs => Some (mk_tx c (fifo ++ bs), mk_ghost (g_una g) (g_nxt g) (g_end g + vlen bs) (g_high g) (g_sacked g), [])
  | SessionTx mss max_burst pace alloc at_ => sends (session_tx c fifo mss max_burst pace alloc at_)
  | CustomTx burst_size burst_bytes allocs at_ => sends (custom_tx c fifo burst_size burst_bytes allocs at_)
  | AckIn a => '(c', fifo) ← established_ack c fifo a; Some (mk_tx c' fifo, g_acked g c a, [])
  | RtoTimer alloc at_ => sends (rto_timer c fifo alloc at_)
  | RackTimer at_ => c' ← rack_timer c at_; Some (mk_tx c' fifo, g, [])
  | TlpTimer srtt rto alloc_new alloc_tail at_ => sends (tlp_timer c fifo srtt rto alloc_new alloc_tail at_)
  | PersistTimer => Some (mk_tx (on_persist_timer_expiry c) fifo, g, [])
  | MtuShrunk mss => Some (mk_tx (request_mtu_retransmit c mss) fifo, g, [])
  end.
Fixpoint tx_run (sys : tx_system) (g : tx_ghost) (l : list tx_input) : option (tx_system * tx_ghost * list sent) :=
  match l with
  | [] => Some (sys, g, [])
  | i :: l =>
    '(sys, g, ws) ← tx_step sys g i;
    '(sys', g', log) ← tx_run sys g l;
    Some (sys', g', map (mk_sent (g_una g) (g_nxt g)) ws ++ log)
  end.

(** A condition on every input at the state it meets. *)
Fixpoint along (H : tx_system -> tx_ghost -> tx_input -> bool) (sys : tx_system) (g : tx_ghost) (l : list tx_input) : bool :=
  match l with
  | [] => true
  | i :: l => H sys g i && match tx_step sys g i with Some (sys, g, _) => along H sys g l | None => true end
  end.

(** Inputs in the range of their types; fewer than [2 ^ 63] bytes sent so far. *)
Definition word (x : Z) : bool := (0 <=? x) && (x <? 2 ^ 32).
Definition input_ok (P0 : Z) (sys : tx_system) (g : tx_ghost) (i : tx_input) : bool :=
  (g_nxt g - P0 <? 2 ^ 63) &&
  match i with
  | Write bs => vlen (tx_fifo sys) + vlen bs <=? u32_max
  | SessionTx mss max_burst pace _ _ => (0 <? mss) && (0 <=? max_burst) && match pace with Some b => 0 <=? b | None => true end
  | CustomTx burst_size burst_bytes _ _ => (0 <=? burst_size) && (0 <=? burst_bytes)
  | AckIn a => word (ai_acknowledgment a) && (0 <=? ai_window a) && (ai_window a <=? 65535) && forallb (fun b => word (left_edge b) && word (right_edge b)) (ai_blocks a)
  | _ => true
  end.
(** The application writes the stream [S]. *)
Definition writes (S : Z -> Z) (g : tx_ghost) (i : tx_input) : bool :=
  match i with Write bs => bool_decide (bs = bytes_of S (g_end g) (vlen bs)) | _ => true end.
(** New data is sent only while no retransmission is pending, and [snd_una] has
    not come round to the initial sequence number. *)
Definition quiet (sys : tx_system) (i : tx_input) : bool :=
  let c := tx_conn sys in
  match i with
  | SessionTx _ _ _ _ _ | TlpTimer _ _ _ _ _ => bool_decide (intent_sequence c = None)
  | CustomTx burst_size burst_bytes allocs at_ => retransmit_quiet (tx_fifo sys) (set_retransmit_pending false c) burst_size burst_bytes allocs at_
  | AckIn _ => negb (una c =? iss (seqs c))
  | _ => true
  end.
(** No block before the first byte was sent. *)
Definition timely (P0 : Z) (g : tx_ghost) (i : tx_input) : bool :=
  match i with AckIn a => negb (g_nxt g =? P0) || bool_decide (ai_blocks a = []) | _ => true end.

(** A connection an active open has just established: the first byte is at
    [P0], after the SYN, and the recovery state is new. *)
Definition tx_start (P0 mss window : Z) (o : send_options) (cc : C) : option tx_system :=
  r ← new;
  let r := recovery_state (packets r) (samples r) (rate r) (ack_floor r) (scoreboard r) (rack r) (opt_sack o) (TcpRecovery.snd_nxt r) (tlp r) (prr r) in
  Some (mk_tx (tcp_connection Established (mk_seqs (wr (P0 - 1)) (wr P0) (wr P0) window) (mk_intent None 0) (mk_keepalive 0 0) o false false 0 0 mss 0 0 0 0 false false cc r) []).
Definition ghost_start (P0 : Z) : tx_ghost := mk_ghost P0 P0 P0 0 [].
Definition start_ok (mss window : Z) (o : send_options) : bool :=
  (0 <? mss) && (0 <=? window) && (window <=? window_max) && match send_window_scale o with Some x => 0 <=? x | None => true end.

(** ** The invariant *)

Record tx_inv (exact strict : bool) (S : Z -> Z) (P0 : Z) (sys : tx_system) (g : tx_ghost) : Prop := mk_inv {
  ti_tracks : tracks exact P0 (g_una g) (g_nxt g) (g_high g) (g_sacked g) (tx_conn sys);
  ti_scale : match send_window_scale (opts (tx_conn sys)) with Some x => 0 <= x | None => True end;
  ti_len : vlen (tx_fifo sys) <= u32_max;
  ti_exact : exact = true -> 0 < P0 <= 2 ^ 30;
  ti_fifo : strict = true -> tx_fifo sys = bytes_of S (g_una g) (g_end g - g_una g) /\ g_nxt g <= g_end g
}.

(** *** Acknowledgments *)

Section ack.
Context (exact : bool) (P0 U N H : Z) (sacked : list rng).

Lemma accepts_position c a : tracks exact P0 U N H sacked c -> in_word 32 a -> accepts_ack c a = true -> exists A, U <= A <= N /\ a = wr A.
Proof.
  intros [_ _ T3 T4 T5 _ T7 _ _ _ _ _] Ha Hacc. unfold accepts_ack in Hacc. rewrite T3, T4 in Hacc. apply andb_true_iff in Hacc as [H1 H2]. unfold seq_ge, seq_lt, seq_le in *.
  pose proof (wrap_bounds 32 U ltac:(lia)) as B1. pose proof (wrap_bounds 32 N ltac:(lia)) as B2. fold (wr U) in B1. fold (wr N) in B2. rewrite seq_cmp_distance, lt_distance in H1 by done. rewrite seq_cmp_distance, le_distance in H2 by done.
  apply negb_true_iff, andb_false_iff in H1. rewrite negb_false_iff, Z.eqb_eq, Z.leb_gt in H1. rewrite orb_true_iff, Z.eqb_eq, Z.leb_le in H2. exists (U + (a - U) mod 2 ^ 32). change window_max with 1073725440 in *.
  unfold distance_to, wr, wrap, in_word in *. change (2 ^ 32) with 4294967296 in *. change (2 ^ 31) with 2147483648 in *. zdm.
Qed.

Lemma window_scaled c w : match send_window_scale (opts c) with Some x => 0 <= x | None => True end -> 0 <= w <= 65535 -> 0 <= effective_send_window c w <= window_max.
Proof.
  intros Hs Hw. unfold effective_send_window, scaled_window_from_advertised, saturating_mul32, tcp_window_scale, TCP_MAX_WINDOW_SCALE. set (k := Z.min (Z.min _ 14) 14).
  assert (0 <= k <= 14) as Hk by (unfold k; destruct (send_window_scale (opts c)); lia). pose proof (Z.pow_le_mono_r 2 k 14 ltac:(lia) ltac:(lia)) as Hp. pose proof (Z.pow_pos_nonneg 2 k ltac:(lia) ltac:(lia)) as Hq.
  unfold window_max. change (2 ^ 14) with 16384 in *. change u32_max with 4294967295. nia.
Qed.

Lemma ranges_below A dsack first blocks r : r ∈ sack_ranges A N dsack first blocks -> r.2 <= N.
Proof.
  revert first. induction blocks as [|b blocks IH]; intros first; cbn [sack_ranges]; [by intros ?%not_elem_of_nil|]. rewrite elem_of_app. intros [Hr|Hr]; [|by apply (IH false)].
  destruct (negb _ && block_inside A N b) eqn:E; [|by apply not_elem_of_nil in Hr]. apply list_elem_of_singleton in Hr as ->. apply andb_true_iff in E as [_ E]. unfold block_inside in E. destruct (block_range A b) as [x y].
  rewrite !andb_true_iff, Z.leb_le in E. cbn. tauto.
Qed.

Lemma oldest_total r : recovers exact P0 U N H sacked r -> exists s, oldest_unacked r = Some s.
Proof.
  intros (L & es & hs & T & _). pose proof (sane_core _ _ _ _ _ (tr_sane _ _ _ _ _ _ _ _ T)) as Hc. unfold oldest_unacked. rewrite (lc_head _ _ _ _ Hc). destruct L as [|it L]; [by exists None|]. cbn [first_index].
  rewrite (core_get U N r [] it L Hc). by eexists.
Qed.

(** The recovery state after an acknowledgment that is accepted. *)
Lemma observe_spec c i A : tracks exact P0 U N H sacked c -> (exact = true -> 0 < P0 <= 2 ^ 30) -> ai_acknowledgment i = wr A -> U <= A <= N -> accepts_ack c (wr A) = true -> Forall block_words (ai_blocks i) -> (exact = true -> N = P0 -> ai_blocks i = []) ->
  let sack := opt_sack (opts c) in
  let ranges := if sack then sack_ranges A N (dsack_block (ai_blocks i) (wr A)) true (ai_blocks i) else [] in
  let H' := if sack || (seq_gt (wr A) (una c) || tlp_probe_pending (recovery c)) then top (Z.max H A) ranges else H in
  exists r cc, observe_ack_progress c i = Some (refresh_bytes_in_flight_cached (set_cc cc (set_recovery r c))) /\ recovers exact P0 A N H' (sacked ++ ranges) r.
Proof.
  intros [T1 T2 T3 T4 T5 T6 T7 T8 T9 T10 T11 T12] HP EA HA Hacc Hb Hn sack ranges H'. unfold observe_ack_progress. rewrite EA, Hacc. cbn [negb]. set (dup := _ && has_unacked_data _). set (ack := make_recovery_ack i dup).
  assert (acknowledgment ack = wr A) as Eack by exact EA. unfold H', ranges. destruct (opt_sack (opts c)) eqn:Es; cbn [sack orb].
  - destruct (recovers_sack exact P0 U N H sacked (recovery c) ack A T11 Eack HA T7 HP (ai_blocks i) (congestion c) Hb Hn) as (r & cc & rtt & -> & Hr). cbn [mbind option_bind]. exists r, cc. split; [done|]. by rewrite Eack in Hr.
  - rewrite app_nil_r. destruct (seq_gt (wr A) (una c) || tlp_probe_pending (recovery c)) eqn:Eg.
    + destruct (recovers_ack exact P0 U N H sacked (recovery c) ack A T11 Eack HA T7 HP (congestion c)) as (r & cc & rtt & -> & Hr). cbn [mbind option_bind]. by exists r, cc.
    + cbn [mbind option_bind]. exists (recovery c), (congestion c). split; [done|]. apply orb_false_iff in Eg as [Eg _]. rewrite T3 in Eg. unfold seq_gt in Eg. change window_max with 1073725440 in *. rewrite (seq_le_win U) in Eg by (unfold win; lia).
      apply negb_false_iff, Z.leb_le in Eg. replace A with U by lia. done.
Qed.

Lemma wanted_total c : recovers exact P0 U N H sacked (recovery c) -> exists b, retransmit_wanted c = Some b.
Proof.
  intros Hr. unfold retransmit_wanted. destruct (negb _); [by eexists|]. destruct (candidate_total exact P0 U H sacked N (recovery c) Hr) as (s & ->). cbn [mbind option_bind]. destruct (bool_decide _); [by eexists|].
  destruct (opt_sack _); [by eexists|]. destruct (oldest_total (recovery c) Hr) as (o & ->). by eexists.
Qed.

(** What an acknowledgment does to the connection. *)
Lemma receive_ack_spec c i : tracks exact P0 U N H sacked c -> match send_window_scale (opts c) with Some x => 0 <= x | None => True end -> (exact = true -> 0 < P0 <= 2 ^ 30) -> in_word 32 (ai_acknowledgment i) -> 0 <= ai_window i <= 65535 ->
  Forall block_words (ai_blocks i) -> (exact = true -> N = P0 -> ai_blocks i = []) ->
  exists c', receive_ack c i = Some c' /\ iss (seqs c') = iss (seqs c) /\ opts c' = opts c /\ fin_sent c' = fin_sent c /\
    if accepts_ack c (ai_acknowledgment i) then exists A, U <= A <= N /\ ai_acknowledgment i = wr A /\
      let sack := opt_sack (opts c) in
      let ranges := if sack then sack_ranges A N (dsack_block (ai_blocks i) (wr A)) true (ai_blocks i) else [] in
      tracks exact P0 A N (if sack || (seq_gt (wr A) (una c) || tlp_probe_pending (recovery c)) then top (Z.max H A) ranges else H) (sacked ++ ranges) c'
    else tracks exact P0 U N H sacked c'.
Proof.
  intros T Hsc HP Ha Hw Hb Hn. unfold receive_ack. destruct (accepts_ack c (ai_acknowledgment i)) eqn:Hacc.
  - destruct (accepts_position c _ T Ha Hacc) as (A & HA & EA). destruct (observe_spec c i A T HP EA HA ltac:(by rewrite <- EA) Hb Hn) as (r & cc & -> & Hr). cbn [mbind option_bind].
    set (c1 := refresh_bytes_in_flight_cached _) in *. unfold apply_ack. change (accepts_ack c1 (ai_acknowledgment i)) with (accepts_ack c (ai_acknowledgment i)). rewrite Hacc, EA. cbn [negb]. change (effective_send_window c1 (ai_window i)) with (effective_send_window c (ai_window i)).
    pose proof (window_scaled c (ai_window i) Hsc Hw) as Hwin. set (c2 := set_seqs _ c1). set (ranges := if opt_sack (opts c) then _ else _) in *. set (H' := if _ || _ then _ else H) in *.
    assert (tracks exact P0 A N H' (sacked ++ ranges) c2) as T2.
    { destruct T as [T1 T2 T3 T4 T5 T6 T7 T8 T9 T10 T11 T12]. constructor; try done; [lia|lia|]. intros x. rewrite elem_of_app. intros [Hx|Hx]; [by apply T12|].
      unfold ranges in Hx. destruct (opt_sack (opts c)); [by eapply ranges_below|by apply not_elem_of_nil in Hx]. }
    set (c3 := if 0 <? wnd c2 then set_persist 0 c2 else c2). assert (tracks exact P0 A N H' (sacked ++ ranges) c3 /\ seqs c3 = seqs c2 /\ opts c3 = opts c /\ fin_sent c3 = fin_sent c) as (T3 & E1 & E2 & E3) by (unfold c3; destruct (_ <? _); split_and!; try done; destruct T2; by constructor).
    clearbody c3. eexists. split; [done|]. set (c4 := if true && _ then _ else _). assert (tracks exact P0 A N H' (sacked ++ ranges) c4 /\ seqs c4 = seqs c3 /\ opts c4 = opts c3 /\ fin_sent c4 = fin_sent c3) as (T4 & E4 & E5 & E6).
    { unfold c4. destruct (true && _); [|destruct (_ && has_unacked_data _)]; split_and!; try done; destruct T3; by constructor. }
    split; [cbn; rewrite E4, E1; done|]. split; [cbn; congruence|]. split; [cbn; congruence|]. exists A. split; [done|]. split; [done|]. destruct T4. by constructor.
  - unfold observe_ack_progress. rewrite Hacc. cbn [negb mbind option_bind andb]. unfold apply_ack. rewrite Hacc. cbn [negb]. eexists. split; [done|]. split_and!; try done. destruct T. by constructor.
Qed.

End ack.

(** *** Steps *)

Section steps.
Context (exact strict : bool) (S : Z -> Z) (P0 : Z).
Implicit Types (sys : tx_system) (g : tx_ghost).

(** What a step promises. *)
Definition step_ok sys g sys' g' (ws : list wire) : Prop :=
  tx_inv exact strict S P0 sys' g' /\ g_una g <= g_una g' /\ g_nxt g <= g_nxt g' /\ (g_nxt g' = g_nxt g \/ g_nxt g' - g_una g <= wnd (tx_conn sys)) /\
  (strict = true -> Forall (wire_ok S (g_una g') (g_nxt g')) ws).

(** Sending. *)
Lemma sent_step sys g c' ws n mss (q : bool) : tx_inv exact strict S P0 sys g -> 0 <= n -> (n = 0 \/ g_nxt g + n - g_una g <= wnd (tx_conn sys)) -> tracks exact P0 (g_una g) (g_nxt g + n) (g_high g) (g_sacked g) c' -> frame (set_mss mss (tx_conn sys)) c' ->
  (strict = true -> q = true) -> (strict = true -> q = true -> g_nxt g <= g_end g -> g_nxt g + n <= g_end g /\ Forall (wire_ok S (g_una g) (g_nxt g + n)) ws) -> step_ok sys g (mk_tx c' (tx_fifo sys)) (g_sent g (tx_conn sys) c') ws.
Proof.
  intros [I1 I2 I3 I4 I5] Hn Hwin T F Hq Hs. assert (distance_to (nxt (tx_conn sys)) (nxt c') = n) as En.
  { rewrite (tk_nxt _ _ _ _ _ _ _ I1), (tk_nxt _ _ _ _ _ _ _ T). unfold distance_to, wr, wrap. rewrite <- Zminus_mod. pose proof (tk_window _ _ _ _ _ _ _ T). pose proof (tk_order _ _ _ _ _ _ _ I1). change window_max with 1073725440 in *. rewrite Z.mod_small; lia. }
  unfold g_sent. rewrite En. split; [|split_and!; cbn; try lia].
  - constructor; cbn; try done; [by rewrite (fr_opts _ _ F)|]. intros Es. destruct (I5 Es) as [Ef He]. split; [done|]. by apply Hs; [|apply Hq|].
  - intros Es. destruct (I5 Es) as [_ He]. by apply Hs; [|apply Hq|].
Qed.
Lemma sent_some_step sys g c' ws q : tx_inv exact strict S P0 sys g -> (strict = true -> q = true) -> sent_some exact P0 (g_una g) (g_high g) (g_sacked g) strict S (g_end g) (g_nxt g) (tx_conn sys) c' ws q -> step_ok sys g (mk_tx c' (tx_fifo sys)) (g_sent g (tx_conn sys) c') ws.
Proof. intros I Hq (n & H1 & H2 & H3 & F & H4). apply (sent_step sys g c' ws n (send_mss (tx_conn sys)) q); try done. by (etrans; [|exact F]). Qed.
Lemma again_step sys g c' ws : tx_inv exact strict S P0 sys g -> sent_again exact P0 (g_una g) (g_high g) (g_sacked g) strict S (g_nxt g) (tx_conn sys) c' ws -> step_ok sys g (mk_tx c' (tx_fifo sys)) (g_sent g (tx_conn sys) c') ws.
Proof. intros I (H1 & F & H2). apply (sent_step sys g c' ws 0 (send_mss (tx_conn sys)) true); rewrite ?Z.add_0_r; try done; [by left|by (etrans; [|exact F])|]. intros Es _ He. split; [done|by apply H2]. Qed.
Lemma still_step sys g c' : tx_inv exact strict S P0 sys g -> tracks exact P0 (g_una g) (g_nxt g) (g_high g) (g_sacked g) c' -> frame (tx_conn sys) c' -> step_ok sys g (mk_tx c' (tx_fifo sys)) g [].
Proof. intros [I1 I2 I3 I4 I5] T F. split; [|split_and!; try done; by left]. constructor; cbn; try done. by rewrite (fr_opts _ _ F). Qed.

Lemma fifo_here sys g : tx_inv exact strict S P0 sys g -> strict = true -> tx_fifo sys = bytes_of S (g_una g) (g_end g - g_una g) /\ g_una g <= g_end g.
Proof. intros [I1 I2 I3 I4 I5] Es. destruct (I5 Es) as [? ?]. split; [done|]. pose proof (tk_order _ _ _ _ _ _ _ I1). lia. Qed.

Lemma ack_step sys g i : tx_inv exact strict S P0 sys g -> input_ok P0 sys g (AckIn i) = true -> (strict = true -> quiet sys (AckIn i) = true) -> (exact = true -> timely P0 g (AckIn i) = true) ->
  exists sys' g' ws, tx_step sys g (AckIn i) = Some (sys', g', ws) /\ step_ok sys g sys' g' ws.
Proof.
  intros I Hok Hq Htm. pose proof I as [I1 I2 I3 I4 I5]. unfold input_ok, word in Hok. rewrite !andb_true_iff, !Z.leb_le, !Z.ltb_lt in Hok. destruct Hok as (Hb & (((Ha1 & Ha2) & Hw1) & Hw2) & Hbl).
  assert (Forall block_words (ai_blocks i)) as Hblk. { apply Forall_forall. intros b Hb'. rewrite forallb_forall in Hbl. specialize (Hbl b ltac:(by apply list_elem_of_In)). rewrite !andb_true_iff, !Z.leb_le, !Z.ltb_lt in Hbl. split; unfold in_word; lia. }
  destruct (receive_ack_spec exact P0 (g_una g) (g_nxt g) (g_high g) (g_sacked g) (tx_conn sys) i I1 I2 I4) as (c1 & E1 & Ei & Eo & Ef & Hc1); [done|done|done| |].
  { intros Ex EN. specialize (Htm Ex). cbn in Htm. rewrite EN, Z.eqb_refl in Htm. by apply bool_decide_eq_true in Htm. }
  cbn [tx_step]. unfold established_ack. rewrite E1. cbn [mbind option_bind]. unfold take_acked_tx_len. rewrite Ef, (tk_fin _ _ _ _ _ _ _ I1), Ei. cbn [andb].
  pose proof (tk_una _ _ _ _ _ _ _ I1) as EU. destruct (accepts_ack (tx_conn sys) (ai_acknowledgment i)) eqn:Hacc.
  - destruct Hc1 as (A & HA & EA & T). cbn zeta in T. set (ranges := if opt_sack (opts (tx_conn sys)) then sack_ranges A (g_nxt g) _ true (ai_blocks i) else []) in T. match type of T with tracks _ _ _ _ ?h _ _ => set (H' := h) in T end. pose proof (tk_una _ _ _ _ _ _ _ T) as EU1. pose proof (tk_window _ _ _ _ _ _ _ I1) as Hwin.
    assert (distance_to (una (tx_conn sys)) (una c1) = A - g_una g) as Ed by (rewrite EU, EU1; unfold distance_to, wr, wrap; rewrite <- Zminus_mod; change window_max with 1073725440 in *; apply Z.mod_small; lia). rewrite Ed.
    set (m := if A - g_una g =? 0 then (c1, 0) else _).
    assert (tracks exact P0 A (g_nxt g) H' (g_sacked g ++ ranges) m.1 /\ opts m.1 = opts (tx_conn sys) /\ una m.1 = una c1 /\ (strict = true -> m.2 = A - g_una g)) as (T2 & E2 & E3 & E4).
    { unfold m. destruct (Z.eqb_spec (A - g_una g) 0) as [Ez|Ez]; cbn; [split_and!; try done; lia|]. split; [destruct T; by constructor|]. split_and!; try done. intros Es. specialize (Hq Es). cbn in Hq. apply negb_true_iff, Z.eqb_neq in Hq.
      rewrite (proj2 (Z.eqb_neq _ _) Hq). cbn. unfold saturating_sub. lia. }
    destruct m as [c2 acked]. cbn [fst snd] in *. destruct (wanted_total exact P0 A (g_nxt g) H' (g_sacked g ++ ranges) c2 (tk_recovery _ _ _ _ _ _ _ T2)) as (b & ->). cbn [mbind option_bind]. set (c3 := if b then _ else c2).
    assert (tracks exact P0 A (g_nxt g) H' (g_sacked g ++ ranges) c3 /\ opts c3 = opts c2 /\ una c3 = una c2) as (T3 & E5 & E6) by (unfold c3; destruct b; split_and!; try done; destruct T2; by constructor). clearbody c3.
    eexists _, _, []. split; [done|]. assert (g_acked g (tx_conn sys) i = mk_ghost A (g_nxt g) (g_end g) H' (g_sacked g ++ ranges)) as ->.
    { unfold g_acked. rewrite Hacc. cbn [negb]. rewrite EA. replace (distance_to (una (tx_conn sys)) (wr A)) with (A - g_una g) by (rewrite <- EU1; done). replace (g_una g + (A - g_una g)) with A by lia. done. }
    split; [|split_and!; cbn; try done; try lia]. constructor; cbn; try done; [by rewrite E5, E2|unfold vlen in *; rewrite length_drop; lia|].
    intros Es. destruct (I5 Es) as [Efi He]. rewrite (E4 Es), Efi, bytes_of_drop by lia. split; [f_equal; lia|done].
  - assert (una c1 = una (tx_conn sys)) as Eu by (rewrite (tk_una _ _ _ _ _ _ _ Hc1); done). rewrite Eu. assert (distance_to (una (tx_conn sys)) (una (tx_conn sys)) = 0) as -> by (unfold distance_to; by rewrite Z.sub_diag). cbn [Z.eqb].
    destruct (wanted_total exact P0 (g_una g) (g_nxt g) (g_high g) (g_sacked g) c1 (tk_recovery _ _ _ _ _ _ _ Hc1)) as (b & ->). cbn [mbind option_bind]. eexists _, _, []. split; [done|].
    assert (g_acked g (tx_conn sys) i = g) as Eg by (unfold g_acked; rewrite Hacc; done). rewrite Eg. split; [|split_and!; try done; by left].
    constructor; cbn; try done; destruct b; try done; [destruct Hc1; by constructor|cbn; by rewrite Eo..].
Qed.

Lemma tx_step_spec sys g i : tx_inv exact strict S P0 sys g -> input_ok P0 sys g i = true -> (strict = true -> writes S g i && quiet sys i = true) -> (exact = true -> timely P0 g i = true) ->
  exists sys' g' ws, tx_step sys g i = Some (sys', g', ws) /\ step_ok sys g sys' g' ws.
Proof.
  intros I Hok Hq Htm. assert (strict = true -> writes S g i = true) as Hwr by (intros Es; by destruct (proj1 (andb_true_iff _ _) (Hq Es))). assert (strict = true -> quiet sys i = true) as Hqu by (intros Es; by destruct (proj1 (andb_true_iff _ _) (Hq Es))).
  pose proof (fifo_here sys g I) as Hf. pose proof I as [I1 I2 I3 I4 I5]. pose proof Hok as Hok'. unfold input_ok in Hok'. apply andb_true_iff in Hok' as [Ht Hi]. apply Z.ltb_lt in Ht. destruct i; cbn [tx_step].
  - apply Z.leb_le in Hi. eexists _, _, []. split; [done|]. split; [|split_and!; cbn; try done; by left]. constructor; cbn; try done; [unfold vlen in *; rewrite length_app; lia|].
    intros Es. destruct (I5 Es) as [Ef He]. specialize (Hwr Es). apply bool_decide_eq_true in Hwr. pose proof (tk_order _ _ _ _ _ _ _ I1) as HO. assert (0 <= vlen bs) by apply vlen_nonneg. split; [|lia].
    rewrite Ef. replace (g_end g + vlen bs - g_una g) with ((g_end g - g_una g) + vlen bs) by lia. rewrite bytes_of_app by lia. f_equal. replace (g_una g + (g_end g - g_una g)) with (g_end g) by lia. exact Hwr.
  - rewrite !andb_true_iff, Z.ltb_lt, Z.leb_le in Hi. destruct Hi as [[Hm Hp] Hpace].
    destruct (session_tx_spec exact P0 (g_una g) (g_high g) (g_sacked g) strict S (g_end g) (tx_fifo sys) I3 Hf (g_nxt g) (tx_conn sys) mss max_burst pace alloc at_) as (c' & ws & n & -> & H1 & H2 & H3 & F & H4); [done..|destruct pace; [by apply Z.leb_le|done]|done|].
    cbn [mbind option_bind]. eexists _, _, _. split; [done|]. apply (sent_step sys g c' ws n mss (bool_decide (intent_sequence (tx_conn sys) = None))); try done. intros Es Hn He. apply bool_decide_eq_true in Hn. by apply H4.
  - rewrite andb_true_iff, !Z.leb_le in Hi. destruct Hi as [Hb1 Hb2].
    destruct (custom_tx_spec exact P0 (g_una g) (g_high g) (g_sacked g) strict S (g_end g) (tx_fifo sys) I3 Hf (g_nxt g) (tx_conn sys) burst_size burst_bytes allocs at_) as (c' & ws & -> & H1); [done..|].
    cbn [mbind option_bind]. eexists _, _, _. split; [done|]. eapply sent_some_step; [done| |exact H1]. done.
  - by apply ack_step.
  - destruct (rto_timer_spec exact P0 (g_una g) (g_high g) (g_sacked g) strict S (g_end g) (tx_fifo sys) I3 Hf (g_nxt g) (tx_conn sys) alloc at_) as (c' & ws & -> & H1 & _); [done..|].
    cbn [mbind option_bind]. eexists _, _, _. split; [done|]. by apply again_step.
  - destruct (rack_timer_spec exact P0 (g_una g) (g_high g) (g_sacked g) (g_nxt g) (tx_conn sys) at_) as (c' & -> & H1 & F); [done..|].
    cbn [mbind option_bind]. eexists _, _, _. split; [done|]. by apply still_step.
  - destruct (tlp_timer_spec exact P0 (g_una g) (g_high g) (g_sacked g) strict S (g_end g) (tx_fifo sys) I3 Hf (g_nxt g) (tx_conn sys) srtt rto alloc_new alloc_tail at_) as (c' & ws & -> & H1); [done..|].
    cbn [mbind option_bind]. eexists _, _, _. split; [done|]. eapply sent_some_step; [done| |exact H1]. done.
  - destruct (persist_spec exact P0 (g_una g) (g_high g) (g_sacked g) (g_nxt g) (tx_conn sys) I1) as [H1 F]. eexists _, _, _. split; [done|]. by apply still_step.
  - destruct (mtu_spec exact P0 (g_una g) (g_high g) (g_sacked g) (g_nxt g) (tx_conn sys) mss I1) as [H1 F]. eexists _, _, _. split; [done|]. by apply still_step.
Qed.

(** A segment of the stream, in flight when it was sent. *)
Definition sent_ok (x : sent) : Prop := wire_ok S (at_una x) (at_nxt x) (segment x).

Lemma tx_run_spec l : forall sys g, tx_inv exact strict S P0 sys g -> along (input_ok P0) sys g l = true -> (strict = true -> along (fun sys g i => writes S g i && quiet sys i) sys g l = true) -> (exact = true -> along (fun _ => timely P0) sys g l = true) ->
  exists sys' g' log, tx_run sys g l = Some (sys', g', log) /\ tx_inv exact strict S P0 sys' g' /\ (strict = true -> Forall sent_ok log).
Proof.
  induction l as [|i l IH]; intros sys g I Hok Hq Htm; cbn [tx_run along] in *; [by exists sys, g, []|]. apply andb_true_iff in Hok as [Hok1 Hok2].
  destruct (tx_step_spec sys g i) as (sys1 & g1 & ws & E & I' & _ & _ & _ & Hw); [done..|intros Es; by apply andb_true_iff in Hq as [? _]|intros Ex; by apply andb_true_iff in Htm as [? _]|]. rewrite E in *. cbn [mbind option_bind].
  destruct (IH sys1 g1) as (sys' & g' & log & -> & I2 & Hlog); [done..|intros Es; by apply andb_true_iff in Hq as [_ ?]|intros Ex; by apply andb_true_iff in Htm as [_ ?]|]. cbn [mbind option_bind].
  eexists _, _, _. split; [done|]. split; [done|]. intros Es. apply Forall_app. split; [|by apply Hlog]. apply Forall_fmap. eapply Forall_impl; [apply (Hw Es)|]. done.
Qed.

Lemma tx_start_inv mss window o (cc : C) : start_ok mss window o = true -> (exact = true -> 0 < P0 <= 2 ^ 30) -> exists sys, tx_start P0 mss window o cc = Some sys /\ tx_inv exact strict S P0 sys (ghost_start P0).
Proof.
  intros Hok HP. unfold start_ok in Hok. rewrite !andb_true_iff, Z.ltb_lt, !Z.leb_le in Hok. destruct Hok as [[[Hm Hw1] Hw2] Hs]. unfold tx_start, new, scoreboard_new, hole_tree_new.
  destruct (rb_with_capacity_spec seq_cmp (dom P0) 0 0 32) as (t & -> & _ & H1). destruct (rb_with_capacity_spec seq_cmp (dom P0) 0 (hole_ 0 false) 32) as (h & -> & _ & H2). cbn [mbind option_bind]. eexists. split; [done|].
  constructor; cbn; try done; [|destruct (send_window_scale o); [by apply Z.leb_le|done]|by rewrite Z.sub_diag]. constructor; cbn; try done; [change window_max with 1073725440; lia| |by intros x ?%not_elem_of_nil].
  exists [], [], []. split; [|split].
  - rewrite Z.sub_diag. constructor; cbn; try done; [|by intros z (? & ?%not_elem_of_nil & _)]. constructor; cbn; try done. split; [|done]. constructor; cbn; try done; try lia. constructor; cbn; try done; [apply Pool.pool_dynamic_empty_repr|constructor].
  - intros z. unfold outstanding. split; [|lia]. by intros (? & ?%not_elem_of_nil & _).
  - intros Ex. specialize (HP Ex). constructor; cbn; try done; try lia. by intros z; split; [intros (? & ?%not_elem_of_nil & _)|intros ((? & ?%not_elem_of_nil & _) & _)].
Qed.

End steps.

End run.

End TcpSenderRun.
