(* ===== verification/TcpSenderProps.v ===== *)
(** * What a TCP sender keeps

    Theorems about all runs of the sender of [TcpSenderRun]: the samples are the
    bytes in flight that were not acknowledged, the scoreboard's holes are those
    below the highest acknowledgment, segments carry the bytes of the stream,
    and new data stays within the window of the peer.  Examples at the end show
    where the conditions are needed. *)

From S2P Require Import Prelude Ranges InfraPool InfraRbTree InfraRbOps SvmChain SessionRxProofs TcpProtocol TcpOptions TcpSack TcpSackProofs TcpRecovery TcpSamples TcpRecoveryOps TcpAckOps TcpScoreboard TcpAcks.
From S2P Require Import TcpSenderInv TcpSender TcpSenderConn TcpRetransmit TcpSenderRun.

Module TcpSenderProps.
Import Ranges SvmChain SessionRxProofs TcpProtocol TcpOptions TcpSackProofs RbOps TcpRecovery TcpSamples TcpRecoveryOps TcpAckOps TcpScoreboardProofs TcpAcks TcpSenderInv TcpSender TcpSenderConn TcpRetransmitProofs TcpSenderRun.

(** ** Counting positions *)

Fixpoint count_from (p : Z -> bool) (a : Z) (n : nat) : Z :=
  match n with O => 0 | S n => (if p a then 1 else 0) + count_from p (a + 1) n end.
Definition count (p : Z -> bool) (a b : Z) : Z := count_from p a (Z.to_nat (b - a)).

Lemma count_from_add p a n k : count_from p a (n + k) = count_from p a n + count_from p (a + Z.of_nat n) k.
Proof. revert a. induction n as [|n IH]; intros a; cbn [Nat.add count_from]; [by rewrite Z.add_0_r|]. rewrite IH. replace (a + Z.of_nat (S n)) with (a + 1 + Z.of_nat n) by lia. lia. Qed.
Lemma count_split p a m b : a <= m <= b -> count p a b = count p a m + count p m b.
Proof. intros Hm. unfold count. replace (Z.to_nat (b - a)) with (Z.to_nat (m - a) + Z.to_nat (b - m))%nat by lia. rewrite count_from_add. do 2 f_equal. lia. Qed.
Lemma count_ext p q a b : (forall z, a <= z < b -> p z = q z) -> count p a b = count q a b.
Proof.
  unfold count. destruct (Z.le_gt_cases a b) as [Hab|Hab]; [|by replace (Z.to_nat (b - a)) with O by lia]. assert (b = a + Z.of_nat (Z.to_nat (b - a))) as Eb by lia. revert Eb. generalize (Z.to_nat (b - a)). clear Hab. intros n ->.
  revert a. induction n as [|n IH]; intros a H; [done|]. cbn [count_from]. rewrite (H a), (IH (a + 1)); [done| |lia]. intros z Hz. apply H. lia.
Qed.
Lemma count_true a b : a <= b -> count (fun _ => true) a b = b - a.
Proof.
  intros Hab. unfold count. assert (b - a = Z.of_nat (Z.to_nat (b - a))) as Eb by lia. rewrite Eb at 2. clear Eb Hab. generalize (Z.to_nat (b - a)). intros n. revert a. induction n as [|n IH]; intros a; cbn [count_from]; [done|]. rewrite IH. lia.
Qed.
Lemma count_negb p a b : a <= b -> count (fun z => negb (p z)) a b = b - a - count p a b.
Proof.
  intros Hab. rewrite <- (count_true a b Hab). unfold count. generalize (Z.to_nat (b - a)). intros n. clear Hab. revert a. induction n as [|n IH]; intros a; cbn [count_from]; [done|]. rewrite IH. destruct (p a); cbn [negb]; lia.
Qed.
Lemma count_none p a b : (forall z, a <= z < b -> p z = false) -> count p a b = 0.
Proof.
  intros H. destruct (Z.le_gt_cases a b) as [Hab|Hab]; [|unfold count; by replace (Z.to_nat (b - a)) with O by lia]. rewrite (count_ext p (fun z => negb true)) by done. rewrite (count_negb (fun _ => true)), count_true by done. lia.
Qed.
Lemma count_all p a b : a <= b -> (forall z, a <= z < b -> p z = true) -> count p a b = b - a.
Proof. intros Hab H. by rewrite (count_ext p (fun _ => true)), count_true. Qed.

(** Ranges in order. *)
Fixpoint runs (a : Z) (rs : list rng) (b : Z) : Prop :=
  match rs with [] => a <= b | r :: rs => a <= r.1 < r.2 /\ runs r.2 rs b end.
Fixpoint size (rs : list rng) : Z := match rs with [] => 0 | r :: rs => r.2 - r.1 + size rs end.

Lemma runs_le a rs b : runs a rs b -> a <= b.
Proof. revert a. induction rs as [|r rs IH]; intros a; cbn; [done|]. intros [H1 H2%IH]. lia. Qed.
Lemma runs_elem a rs b r : runs a rs b -> r ∈ rs -> a <= r.1 < r.2 /\ r.2 <= b.
Proof. revert a. induction rs as [|k rs IH]; intros a; [by intros _ ?%not_elem_of_nil|]. cbn. intros [H1 H2] [->|Hr]%elem_of_cons; [apply runs_le in H2; lia|]. specialize (IH _ H2 Hr). lia. Qed.
Lemma count_runs p a rs b : runs a rs b -> (forall z, a <= z < b -> p z = true <-> Ranges.covers rs z) -> count p a b = size rs.
Proof.
  revert a. induction rs as [|r rs IH]; intros a Hr H; cbn [runs size] in *.
  - apply count_none. intros z Hz. apply not_true_iff_false. rewrite H, covers_nil by done. tauto.
  - destruct Hr as [H1 H2]. pose proof (runs_le _ _ _ H2) as H3. assert (forall z, Ranges.covers (r :: rs) z <-> r.1 <= z < r.2 \/ Ranges.covers rs z) as Hc by (intros z; unfold Ranges.covers; setoid_rewrite elem_of_cons; naive_solver).
    rewrite (count_split p a r.1 b), (count_split p r.1 r.2 b) by lia. rewrite (count_none p a r.1), (count_all p r.1 r.2), (IH r.2 H2); [lia| |lia| |].
    + intros z Hz. rewrite H, Hc by lia. split; [|by right]. intros [?|?]; [lia|done].
    + intros z Hz. rewrite H, Hc by lia. by left.
    + intros z Hz. apply not_true_iff_false. rewrite H, Hc by lia. intros [?|(k & Hk & ?)]; [lia|]. pose proof (runs_elem _ _ _ k H2 Hk). lia.
Qed.

Lemma spans_runs a L b : spans a L b -> runs a ((fun it => (lo it, hi it)) <$> L) b.
Proof. revert a. induction L as [|it L IH]; intros a; cbn; [done|]. intros [? ?]. split; [done|]. by apply IH. Qed.
Lemma size_total L : size ((fun it => (lo it, hi it)) <$> L) = total L.
Proof. induction L as [|it L IH]; cbn; [done|]. by rewrite IH. Qed.
Lemma covers_spans L z : Ranges.covers ((fun it => (lo it, hi it)) <$> L) z <-> outstanding L z.
Proof. unfold Ranges.covers, outstanding. setoid_rewrite list_elem_of_fmap. split; [intros (r & (it & -> & ?) & ?); by exists it|intros (it & ? & ?); exists (lo it, hi it); split; [by exists it|done]]. Qed.
Lemma holes_runs a hs b : holes_in a hs b -> a <= b -> runs a hs b.
Proof. revert a. induction hs as [|h hs IH]; intros a; cbn; [done|]. intros (H1 & H2 & H3) Hab. split; [done|]. apply IH; [|lia]. eapply holes_in_weaken; [exact H3|lia|lia]. Qed.

Lemma runs_size a rs b : runs a rs b -> 0 <= size rs <= b - a.
Proof. revert a. induction rs as [|r rs IH]; intros a; cbn; [lia|]. intros [? H%IH]. lia. Qed.
Lemma holes_below a hs b m : holes_in a hs b -> (forall z, Ranges.covers hs z -> z < m) -> holes_in a hs m.
Proof.
  revert a. induction hs as [|h hs IH]; intros a; cbn; [done|]. intros (H1 & H2 & H3) Hm. split_and!; [lia..| |].
  - enough (h.2 - 1 < m) by lia. apply Hm. exists h. split; [by left|lia].
  - apply IH; [done|]. intros z (r & Hr & ?). apply Hm. exists r. split; [by right|done].
Qed.

(** Separated ranges are determined by what they cover. *)
Lemma holes_unique hs : forall a hs' b, holes_in a hs b -> holes_in a hs' b -> (forall z, Ranges.covers hs z <-> Ranges.covers hs' z) -> hs = hs'.
Proof.
  assert (forall (r : rng) rs z, Ranges.covers (r :: rs) z <-> r.1 <= z < r.2 \/ Ranges.covers rs z) as Hc by (intros r rs z; unfold Ranges.covers; setoid_rewrite elem_of_cons; naive_solver).
  assert (forall a rs b z, holes_in a rs b -> Ranges.covers rs z -> a <= z) as Hlow by (intros a rs b z Hi (r & Hr & ?); pose proof (holes_in_elem _ _ _ r Hi Hr); lia).
  induction hs as [|h hs IH]; intros a hs' b H1 H2 H.
  - destruct hs' as [|k hs']; [done|]. destruct H2 as (? & _). destruct (proj1 (covers_nil k.1)). apply H, Hc. left. lia.
  - destruct hs' as [|k hs']; [destruct H1 as (? & _); destruct (proj1 (covers_nil h.1)); apply H, Hc; left; lia|]. destruct H1 as (A1 & A2 & A3), H2 as (B1 & B2 & B3).
    assert (forall z, Ranges.covers hs z -> h.2 + 1 <= z) as L1 by (intros z; by apply (Hlow _ _ b)). assert (forall z, Ranges.covers hs' z -> k.2 + 1 <= z) as L2 by (intros z; by apply (Hlow _ _ b)).
    assert (h.1 = k.1) as E1. { pose proof (proj1 (H h.1) ltac:(apply Hc; left; lia)) as [?|?%L2]%Hc; pose proof (proj2 (H k.1) ltac:(apply Hc; left; lia)) as [?|?%L1]%Hc; lia. }
    assert (h.2 = k.2) as E2. { destruct (Z.lt_trichotomy h.2 k.2) as [Hlt|[?|Hgt]]; [|done|]; [pose proof (proj2 (H h.2) ltac:(apply Hc; left; lia)) as [?|?%L1]%Hc; lia|pose proof (proj1 (H k.2) ltac:(apply Hc; left; lia)) as [?|?%L2]%Hc; lia]. }
    f_equal; [by apply injective_projections|]. apply (IH (h.2 + 1) hs' b); [done|by rewrite E2|]. intros z. specialize (H z). rewrite !Hc in H. split; intros Hz; [pose proof (L1 z Hz); destruct (proj1 H (or_intror Hz))|pose proof (L2 z Hz); destruct (proj2 H (or_intror Hz))]; (lia || done).
Qed.

(** ** What is seen of a sender *)

(** The positions in flight that were not acknowledged. *)
Definition unacked (g : tx_ghost) (z : Z) : bool := (g_una g <=? z) && (z <? g_nxt g) && forallb (fun r => (z <? r.1) || (r.2 <=? z)) (g_sacked g).
Lemma unacked_spec g z : unacked g z = true <-> g_una g <= z < g_nxt g /\ ~ Ranges.covers (g_sacked g) z.
Proof.
  unfold unacked. rewrite !andb_true_iff, Z.leb_le, Z.ltb_lt, forallb_forall. split.
  - intros [Hz H]. split; [done|]. intros (r & Hr & ?). specialize (H r ltac:(by apply list_elem_of_In)). rewrite orb_true_iff, Z.ltb_lt, Z.leb_le in H. lia.
  - intros [Hz H]. split; [done|]. intros r Hr%list_elem_of_In. rewrite orb_true_iff, Z.ltb_lt, Z.leb_le. destruct (Z.lt_ge_cases z r.1); [by left|]. destruct (Z.le_gt_cases r.2 z); [by right|]. destruct H. by exists r.
Qed.

Lemma unacked_false g z : g_una g <= z < g_nxt g -> unacked g z = false -> Ranges.covers (g_sacked g) z.
Proof.
  intros Hz Hu. destruct (decide (Exists (fun r : rng => r.1 <= z < r.2) (g_sacked g))) as [Hc|Hc]; [by apply Exists_exists in Hc|]. apply not_true_iff_false in Hu. destruct Hu. apply unacked_spec. split; [done|]. intros Hcv. apply Hc, Exists_exists. exact Hcv.
Qed.

(** The ranges of the holes, lowest first. *)
Definition hole_list (r : TcpRecoveryState) : option (list (Z * Z)) :=
  es ← RbTree.entries (holes (scoreboard r)); Some (map (fun e => (e.1, hole_end e.2)) es).

Section seen.
Context {C : Type} `{!CongestionController C}.

Definition tx_from (P0 mss window : Z) (o : send_options) (cc : C) (l : list tx_input) : option (tx_system * tx_ghost * list sent) :=
  sys ← tx_start P0 mss window o cc; tx_run sys (ghost_start P0) l.
(** [H] holds of every input of a run from a state in the range of its types. *)
Definition allowed (H : tx_system -> tx_ghost -> tx_input -> bool) (P0 mss window : Z) (o : send_options) (cc : C) (l : list tx_input) : bool :=
  start_ok mss window o && match tx_start P0 mss window o cc with Some sys => along H sys (ghost_start P0) l | None => false end.

Lemma along_weaken (H H' : tx_system -> tx_ghost -> tx_input -> bool) : (forall sys g i, H sys g i = true -> H' sys g i = true) -> forall l (sys : tx_system (C := C)) g, along H sys g l = true -> along H' sys g l = true.
Proof.
  intros Hi l. induction l as [|i l IH]; intros sys g; [done|]. cbn [along]. rewrite !andb_true_iff. intros [H1 H2]. split; [by apply Hi|]. destruct (tx_step sys g i) as [[[? ?] ?]|]; [by apply IH|done].
Qed.

Lemma along_app_l H l l' : forall (sys : tx_system (C := C)) g, along H sys g (l ++ l') = true -> along H sys g l = true.
Proof. induction l as [|i l IH]; intros sys g; [done|]. cbn [app along]. rewrite !andb_true_iff. intros [H1 H2]. split; [done|]. destruct (tx_step sys g i) as [[[? ?] ?]|]; [by apply IH|done]. Qed.
Lemma along_app_r H l i : forall (sys : tx_system (C := C)) g sys' g' log, along H sys g (l ++ [i]) = true -> tx_run sys g l = Some (sys', g', log) -> H sys' g' i = true.
Proof.
  induction l as [|j l IH]; intros sys g sys' g' log; cbn [app along tx_run].
  - rewrite andb_true_iff. intros [H1 _]. by intros [= <- <- _].
  - rewrite andb_true_iff. intros [_ H2]. destruct (tx_step sys g j) as [[[s1 g1] ws]|]; [|done]. cbn [mbind option_bind]. destruct (tx_run s1 g1 l) as [[[s2 g2] log2]|] eqn:E; [|done]. cbn. intros [= <- <- _]. by eapply IH.
Qed.

Lemma from_inv exact strict S P0 mss window o cc l H : (exact = true -> 0 < P0 <= 2 ^ 30) -> (forall sys g i, H sys g i = true -> input_ok P0 sys g i = true) -> (strict = true -> forall sys g i, H sys g i = true -> writes S g i && quiet sys i = true) ->
  (exact = true -> forall sys g i, H sys g i = true -> timely P0 g i = true) -> allowed H P0 mss window o cc l = true ->
  exists sys g log, tx_from P0 mss window o cc l = Some (sys, g, log) /\ tx_inv exact strict S P0 sys g /\ (strict = true -> Forall (sent_ok S) log).
Proof.
  intros HP H1 H2 H3 Ha. apply andb_true_iff in Ha as [Hs Ha]. destruct (tx_start_inv exact strict S P0 mss window o cc Hs HP) as (sys0 & E0 & I0). unfold tx_from. rewrite E0 in *. cbn [mbind option_bind].
  apply (tx_run_spec exact strict S P0 l sys0 (ghost_start P0) I0); [by eapply along_weaken|intros Es; by eapply along_weaken, Ha; apply H2|intros Ex; by eapply (along_weaken H), Ha; apply H3].
Qed.

(** A sample is found for the positions that are not acknowledged. *)
Lemma covering_spec P0 U N H sacked r z : recovers false P0 U N H sacked r -> U <= z < U + 2 ^ 31 ->
  exists x, sample_covering r (wr z) = Some x /\ (is_Some x <-> U <= z < N /\ ~ Ranges.covers sacked z).
Proof.
  intros (L & es & hs & T & Ho & _) Hz. pose proof (tr_sane _ _ _ _ _ _ _ _ T) as Hs. unfold sample_covering. destruct (find_sample U N r L es (fun sample => covers sample (wr z)) Hs) as [(L1 & it & L2 & -> & Hp & ->)|[-> Hp]]; (eexists; split; [done|]).
  - split; [intros _|by eexists]. destruct (covers_position U N r L1 it L2 es (wr z) Hs (wrap_bounds 32 z ltac:(lia)) Hp) as (y & Hy & Ey). destruct (core_middle _ _ _ _ _ _ (sane_core _ _ _ _ _ Hs)) as (_ & W1 & W2 & _).
    apply (wr_inj U) in Ey; [|unfold win in *; lia..]. subst y. apply Ho, outstanding_app. right. apply outstanding_cons. by left.
  - split; [by intros [? ?]|]. intros Hu. apply Ho in Hu as (it & (L1 & L2 & ->)%list_elem_of_split & Hi). specialize (Hp L1 it L2 eq_refl). destruct (core_middle _ _ _ _ _ _ (sane_core _ _ _ _ _ Hs)) as ((I1 & I2 & _) & W1 & W2 & W3 & _).
    unfold covers, seq_gt in Hp. cbn [linked_sample with_links sequence end_sequence] in Hp. rewrite I1, I2, !(seq_le_win U) in Hp by (done || (unfold win in *; lia)). apply andb_false_iff in Hp as [Hp%Z.leb_gt|Hp%negb_false_iff%Z.leb_le]; lia.
Qed.
Lemma flight_count P0 U N H sacked r (p : Z -> bool) : recovers false P0 U N H sacked r -> (forall z, p z = true <-> U <= z < N /\ ~ Ranges.covers sacked z) -> in_flight r = count p U N /\ delivered (rate r) + in_flight r = N - P0.
Proof.
  intros (L & es & hs & T & Ho & _) Hp. destruct (sn_list _ _ _ _ _ (tr_sane _ _ _ _ _ _ _ _ T)) as [Hc Hb]. unfold in_flight. rewrite Hb. split; [|apply T]. rewrite <- size_total. symmetry. apply count_runs; [apply spans_runs, Hc|].
  intros z _. by rewrite Hp, covers_spans, Ho.
Qed.

Lemma hole_list_of U r es hs : entries_of seq_cmp (dom U) (holes (scoreboard r)) es -> Forall2 hole_is hs es -> hole_list r = Some (map (fun h => (wr h.1, wr h.2)) hs).
Proof. intros He Hf. unfold hole_list. rewrite (rb_entries_spec seq_cmp (dom U) _ _ He). cbn [mbind option_bind]. f_equal. clear - Hf. induction Hf as [|h e hs es [E1 E2] _ IH]; [done|]. cbn. by rewrite E1, E2, IH. Qed.

(** The bytes the holes are missing. *)
Lemma missing_size U t e2 : forall e1 hs n x, entries_of seq_cmp (dom U) t (e1 ++ e2) -> Forall2 hole_is hs e2 -> Forall (fun h : rng => 0 < h.2 - h.1 < 2 ^ 32) hs -> (length e2 <= n)%nat -> 0 <= x -> x + size hs <= u32_max ->
  missing_loop n t (option_map fst (head e2)) x = Some (x + size hs).
Proof.
  induction e2 as [|[k v] e2 IH]; intros e1 hs n x He Hf Hh Hn Hx Hs; inversion Hf as [|h ? hs0 ? [E1 E2] Hf']; subst; [destruct n; cbn; f_equal; lia|]. apply Forall_cons in Hh as [Hh Hh']. destruct n as [|n]; [cbn in Hn; lia|]. cbn [head option_map fst snd missing_loop size] in *.
  assert (0 <= size hs0) as Hp by (clear - Hh'; induction Hh'; cbn; lia). rewrite (holes_get _ _ _ _ _ _ He). cbn [mbind option_bind]. rewrite (proj2 (holes_around _ _ _ _ _ _ He)). cbn [mbind option_bind].
  assert (distance_to k (hole_end v) = h.2 - h.1) as -> by (rewrite E1, E2; unfold distance_to, wr, wrap; rewrite <- Zminus_mod; apply Z.mod_small; lia). unfold sat32, saturating_add. change (2 ^ 32 - 1) with u32_max in *.
  rewrite Z.min_r by lia. rewrite (IH (e1 ++ [(k, v)]) hs0); [f_equal; lia|by rewrite <- app_assoc|done|done|cbn in Hn; lia|lia|lia].
Qed.

(** What the scoreboard knows. *)
Lemma board_seen P0 U N H sacked r (p : Z -> bool) : recovers true P0 U N H sacked r -> N - U <= window_max -> (forall z, p z = true <-> U <= z < N /\ ~ Ranges.covers sacked z) ->
  exists hs, hole_list r = Some (map (fun h => (wr h.1, wr h.2)) hs) /\ holes_in U hs N /\ (forall z, Ranges.covers hs z <-> p z = true /\ z < H) /\ high_sacked (scoreboard r) = wr H /\ H <= N /\ sacked_bytes r = Some (count (fun z => negb (p z)) U H).
Proof.
  intros (L & es & hs & T & Ho & Hb) HW Hp. change window_max with 1073725440 in HW. destruct (Hb eq_refl) as [B1 B2 B3 B4 B5 B6]. pose proof (tr_sane _ _ _ _ _ _ _ _ T) as [Hl He Hfew]. destruct (tr_holes _ _ _ _ _ _ _ _ T) as [Hf Hi]. exists hs.
  assert (forall z, Ranges.covers hs z <-> p z = true /\ z < H) as Hc by (intros z; by rewrite B5, Ho, Hp). pose proof (spans_le _ _ _ (lc_spans _ _ _ _ (proj1 Hl))) as HUN.
  split_and!; try done.
  - by apply (hole_list_of U r es).
  - unfold sacked_bytes. rewrite (rb_first_spec seq_cmp (dom U) _ _ He). cbn [mbind option_bind]. destruct (Z.lt_ge_cases H U) as [Hlt|Hge].
    + destruct (B3 Hlt) as (-> & _ & Ef). destruct hs as [|h hs]; [|destruct Hi as (? & _); destruct (proj1 (Hc h.1)); [exists h; split; [by left|lia]|]; lia]. inversion Hf; subst. rewrite B1, Ef. unfold count. replace (Z.to_nat (0 - U)) with O by lia. by destruct (RbTree.fuel _).
    + assert (runs U hs H) as Hr. { apply holes_runs; [|lia]. apply (holes_below U hs N H Hi). intros z Hz. by apply Hc. }
      assert (count p U H = size hs) as Ec by (apply count_runs; [done|]; intros z Hz; rewrite Hc; split; [intros ?; split; [done|lia]|tauto]). assert (0 <= size hs <= H - U) as Hsz by (apply runs_size; done).
      rewrite (missing_size U _ es [] hs); [|done|done| |by apply (tree_fuel U)|lia|change u32_max with 4294967295; lia].
      * cbn [mbind option_bind]. rewrite B1, (B4 Hge), distance_pos with (U := U) by lia. rewrite count_negb, Ec by lia. unfold saturating_sub. f_equal. lia.
      * apply Forall_forall. intros h Hh. pose proof (holes_in_elem _ _ _ h Hi Hh). lia.
Qed.

(** Both ways to update the holes agree. *)
Lemma advance_rebuild P0 U N H sacked r ack A mds : recovers true P0 U N H sacked r -> N - U <= window_max -> 0 < P0 <= 2 ^ 30 -> acknowledgment ack = wr A -> U <= A <= N ->
  exists x s1 s2 hs, cumulative_ack (set_floor (acknowledgment ack) r) ack = Some x /\ advance_scoreboard_for_ack (al_state x) (wr A) mds = Some s1 /\ rebuild_scoreboard (al_state x) (wr A) (high_sacked (scoreboard r)) mds = Some s2 /\
    hole_list s1 = Some hs /\ hole_list s2 = Some hs /\ high_sacked (scoreboard s1) = high_sacked (scoreboard s2).
Proof.
  intros Hr HW HP EA HA. pose proof Hr as (L & es & hs & T & Ho & Hb). specialize (Hb eq_refl). destruct (cumulative_here U N N (N - P0) r L es hs ack A T EA HA) as (x & Ex & Hx). pose proof (ak_list _ _ _ _ _ _ Hx) as Hl. pose proof (ak_frame _ _ _ _ _ _ Hx) as [F1 _ _ _].
  pose proof T as [[G1 G2 G3] Gh _ _ _ T6 _ _ _]. pose proof (lc_spans _ _ _ _ (proj1 G1)) as Hsp. cbn [set_floor scoreboard] in F1.
  destruct (scoreboard_advance_spec U N A (al_state x) (after A L) es hs mds Hl ltac:(by rewrite F1) Gh ltac:(lia) (lc_window _ _ _ _ (proj1 G1))) as (s1 & E1 & (L1 & es1 & Q1 & _ & [Q2 Q3] & _) & Eh1). rewrite F1 in Q2, Q3, Eh1.
  destruct (rebuild_spec A N (al_state x) (after A L) (high_sacked (scoreboard r)) mds Hl T6) as (s2 & hs2 & E2 & (L2 & es2 & R1 & _ & [R2 R3] & _) & Eh2 & Hc2).
  destruct (high_max true P0 U N H sacked r A Hr HA HW (fun _ => HP) L hs eq_refl Hb) as [Em Hm]. pose proof (advanced_covers true P0 U N H sacked r A Hr HA HW (fun _ => HP) L hs eq_refl Hb Hsp) as Hc1.
  assert (advanced A (after A L) (seq_max (high_sacked (scoreboard r)) (wr A)) hs = hs2) as Eq.
  { apply (holes_unique _ A _ N); [done|done|]. intros z. rewrite Hc1, (Hc2 (Z.max H A)); [|change window_max with 1073725440 in HW; lia|done]. by rewrite (after_outstanding U A L N z Hsp). }
  exists x, s1, s2. eexists. split_and!; [done..| | |congruence]; [apply (hole_list_of A s1 es1); [apply Q1|exact Q2]|rewrite Eq; apply (hole_list_of A s2 es2); [apply R1|done]].
Qed.

(** ** Theorems *)

(** C3: whatever is written, sent, acknowledged (with any selective blocks) and timed out, the sender never fails, and its samples are exactly the bytes in flight that were not acknowledged: snd_una and snd_nxt are the ends of the window on the wire, a sample is found for a position above snd_una iff that byte was sent and neither acknowledged nor selectively acknowledged, bytes_in_flight is their number, and every byte ever sent is counted either as delivered or as in flight. *)
Theorem tcp_sender_tracks_unacked P0 mss window o (cc : C) l : allowed (input_ok P0) P0 mss window o cc l = true ->
  exists sys g log, tx_from P0 mss window o cc l = Some (sys, g, log) /\
    let c := tx_conn sys in
    una c = wr (g_una g) /\ nxt c = wr (g_nxt g) /\ P0 <= g_una g <= g_nxt g /\ g_nxt g - g_una g <= window_max /\
    (forall z, g_una g <= z < g_una g + 2 ^ 31 -> exists x, sample_covering (recovery c) (wr z) = Some x /\ (is_Some x <-> unacked g z = true)) /\
    in_flight (recovery c) = count (unacked g) (g_una g) (g_nxt g) /\ delivered (rate (recovery c)) + in_flight (recovery c) = g_nxt g - P0.
Proof.
  intros Ha. destruct (from_inv false false id P0 mss window o cc l (input_ok P0)) as (sys & g & log & E & [I1 _ _ _ _] & _); [done..|]. exists sys, g, log. split; [done|]. destruct I1 as [T1 T2 T3 T4 T5 T6 T7 T8 T9 T10 T11 T12].
  split_and!; try done; try lia; [|by apply (flight_count P0 _ _ _ _ _ (unacked g) T11); intros z; apply unacked_spec..].
  intros z Hz. destruct (covering_spec P0 _ _ _ _ _ z T11 Hz) as (x & Ex & Hx). exists x. split; [done|]. by rewrite unacked_spec.
Qed.



(** C5: for a first sequence number in the first quarter of the number space, and as long as no block comes before the first byte was sent, the scoreboard is exact after any run: its holes are separated ranges that cover the bytes in flight that were not acknowledged below the highest acknowledgment, high_sacked is that acknowledgment and sacked_bytes counts the bytes above snd_una that were selectively acknowledged. *)
Theorem tcp_scoreboard_exact P0 mss window o (cc : C) l : 0 < P0 <= 2 ^ 30 -> allowed (fun sys g i => input_ok P0 sys g i && timely P0 g i) P0 mss window o cc l = true ->
  exists sys g log hs, tx_from P0 mss window o cc l = Some (sys, g, log) /\
    let r := recovery (tx_conn sys) in
    hole_list r = Some (map (fun h => (wr h.1, wr h.2)) hs) /\ holes_in (g_una g) hs (g_nxt g) /\ (forall z, Ranges.covers hs z <-> unacked g z = true /\ z < g_high g) /\
    high_sacked (scoreboard r) = wr (g_high g) /\ g_high g <= g_nxt g /\ sacked_bytes r = Some (count (fun z => negb (unacked g z)) (g_una g) (g_high g)).
Proof.
  intros HP Ha. edestruct (from_inv true false id P0 mss window o cc l) as (sys & g & log & E & [I1 _ _ _ _] & _); [done| |done| |exact Ha|].
  - intros sys g i Hi. by apply andb_true_iff in Hi as [? _].
  - intros _ sys g i Hi. by apply andb_true_iff in Hi as [_ ?].
  - destruct (board_seen P0 _ _ _ _ _ (unacked g) (tk_recovery _ _ _ _ _ _ _ I1) (tk_window _ _ _ _ _ _ _ I1) (unacked_spec g)) as (hs & H). by exists sys, g, log, hs.
Qed.

(** C9: trimming the holes at a cumulative acknowledgment is equivalent to building them again from the samples: in every state of such a run and for every acceptable acknowledgment, both leave the same holes and the same high_sacked. *)
Theorem tcp_scoreboard_advance_matches_rebuild P0 mss window o (cc : C) l : 0 < P0 <= 2 ^ 30 -> allowed (fun sys g i => input_ok P0 sys g i && timely P0 g i) P0 mss window o cc l = true ->
  exists sys g log, tx_from P0 mss window o cc l = Some (sys, g, log) /\
    forall ack A mds, acknowledgment ack = wr A -> g_una g <= A <= g_nxt g -> let r := recovery (tx_conn sys) in
      exists x s1 s2 hs, cumulative_ack (set_floor (acknowledgment ack) r) ack = Some x /\ advance_scoreboard_for_ack (al_state x) (wr A) mds = Some s1 /\
        rebuild_scoreboard (al_state x) (wr A) (high_sacked (scoreboard r)) mds = Some s2 /\ hole_list s1 = Some hs /\ hole_list s2 = Some hs /\ high_sacked (scoreboard s1) = high_sacked (scoreboard s2).
Proof.
  intros HP Ha. edestruct (from_inv true false id P0 mss window o cc l) as (sys & g & log & E & [I1 _ _ _ _] & _); [done| |done| |exact Ha|].
  - intros sys g i Hi. by apply andb_true_iff in Hi as [? _].
  - intros _ sys g i Hi. by apply andb_true_iff in Hi as [_ ?].
  - exists sys, g, log. split; [done|]. intros ack A mds EA HA. exact (advance_rebuild P0 _ _ _ _ _ ack A mds (tk_recovery _ _ _ _ _ _ _ I1) (tk_window _ _ _ _ _ _ _ I1) HP EA HA).
Qed.

(** C10: after any run, a step that moves snd_nxt leaves it within the window the peer advertised last. *)
Theorem tcp_sender_respects_window P0 mss window o (cc : C) l i : allowed (input_ok P0) P0 mss window o cc (l ++ [i]) = true ->
  exists sys g log sys' g' ws, tx_from P0 mss window o cc l = Some (sys, g, log) /\ tx_step sys g i = Some (sys', g', ws) /\
    (nxt (tx_conn sys') = nxt (tx_conn sys) \/ distance_to (una (tx_conn sys)) (nxt (tx_conn sys')) <= wnd (tx_conn sys)).
Proof.
  intros Ha. assert (allowed (input_ok P0) P0 mss window o cc l = true) as Hl by (unfold allowed in *; apply andb_true_iff in Ha as [-> Ha]; destruct (tx_start _ _ _ _ _); [by eapply along_app_l|done]).
  destruct (from_inv false false id P0 mss window o cc l (input_ok P0)) as (sys & g & log & E & I & _); [done..|]. assert (input_ok P0 sys g i = true) as Hi.
  { unfold allowed, tx_from in *. apply andb_true_iff in Ha as [_ Ha]. destruct (tx_start _ _ _ _ _); [by eapply along_app_r|done]. }
  destruct (tx_step_spec false false id P0 sys g i I Hi) as (sys' & g' & ws & E' & [I' _ _ _ _] & Hu & Hn & Hw & _); [done..|]. exists sys, g, log, sys', g', ws. split_and!; [done..|]. pose proof I as [I1 _ _ _ _].
  rewrite (tk_nxt _ _ _ _ _ _ _ I1), (tk_nxt _ _ _ _ _ _ _ I'), (tk_una _ _ _ _ _ _ _ I1). destruct Hw as [->|Hw]; [by left|]. right. pose proof (tk_order _ _ _ _ _ _ _ I1). pose proof (tk_wnd _ _ _ _ _ _ _ I1). change window_max with 1073725440 in *.
  rewrite distance_pos with (U := g_una g); lia.
Qed.

End seen.

(** ** Examples *)

(** A window that is halved when recovery starts. *)
#[local] Instance fixed_window : CongestionController Z := {
  max_datagram_size := fun _ => 50; congestion_window := fun c => c; cc_delivered := fun _ => 0;
  cc_on_packet_sent := fun _ _ _ _ c => c; cc_on_ack := fun _ _ _ _ c => c; cc_on_end_acks := fun _ _ _ _ c => c; cc_on_loss := fun _ _ _ c => c;
  cc_on_recovery := fun c => c / 2; cc_on_recovered := fun c => c; cc_on_undo_recovery := fun c => c; cc_on_tail_loss_probe_ack := fun _ _ _ c => c
}.
Definition stream_example (z : Z) : Z := z mod 251.
Definition options_example : send_options := mk_options true (Some 2).
Definition ack_example (a : Z) (blocks : list TcpSackBlock) (t : Instant) : tx_input := AckIn (mk_ack_input a 65535 0 blocks t 0 1).
(** Four segments, a selective acknowledgment, a tail loss probe, a partial
    acknowledgment, a retransmission and a timeout. *)
Definition run_example : list tx_input :=
  [Write (bytes_of stream_example 1001 600); SessionTx 100 4 None true 1; ack_example 1001 [sack_block 1201 1301] 50; TlpTimer (Some 10) 200 true true 60; RackTimer 70;
   ack_example 1051 [sack_block 1201 1401] 80; CustomTx 10 10000 [true; true; true] 90; RtoTimer true 300; ack_example 1101 [sack_block 1201 1401] 310].
Lemma run_example_ghost : option_map (fun x => x.1.2) (tx_from 1001 100 65535 options_example 10000 run_example) = Some (mk_ghost 1101 1501 1601 1401 [(1201, 1301); (1201, 1401); (1201, 1401)]).
Proof. vm_compute. reflexivity. Qed.
Lemma run_example_ok : allowed (input_ok 1001) 1001 100 65535 options_example 10000 run_example = true.
Proof. vm_compute. reflexivity. Qed.
Lemma run_example_quiet : allowed (fun sys g i => input_ok 1001 sys g i && (writes stream_example g i && quiet sys i)) 1001 100 65535 options_example 10000 run_example = true.
Proof. vm_compute. reflexivity. Qed.
Lemma run_example_timely : allowed (fun sys g i => input_ok 1001 sys g i && timely 1001 g i) 1001 100 65535 options_example 10000 run_example = true.
Proof. vm_compute. reflexivity. Qed.
Lemma window_example_ok : allowed (input_ok 1001) 1001 100 65535 options_example 10000 ([Write (bytes_of stream_example 1001 600)] ++ [SessionTx 100 4 None true 1]) = true.
Proof. vm_compute. reflexivity. Qed.

Lemma tcp_sender_tracks_unacked_witness : allowed (input_ok 1001) 1001 100 65535 options_example 10000 run_example = true /\
  exists sys g log, tx_from 1001 100 65535 options_example 10000 run_example = Some (sys, g, log) /\ in_flight (recovery (tx_conn sys)) = count (unacked g) (g_una g) (g_nxt g).
Proof.
  split; [exact run_example_ok|]. destruct (tcp_sender_tracks_unacked 1001 100 65535 options_example 10000 run_example run_example_ok) as (sys & g & log & E & _ & _ & _ & _ & _ & H & _). exists sys, g, log. exact (conj E H).
Defined.
Lemma tcp_scoreboard_exact_witness : allowed (fun sys g i => input_ok 1001 sys g i && timely 1001 g i) 1001 100 65535 options_example 10000 run_example = true /\
  exists sys g log hs, tx_from 1001 100 65535 options_example 10000 run_example = Some (sys, g, log) /\ hole_list (recovery (tx_conn sys)) = Some (map (fun h => (wr h.1, wr h.2)) hs) /\ forall z, Ranges.covers hs z <-> unacked g z = true /\ z < g_high g.
Proof.
  split; [exact run_example_timely|]. destruct (tcp_scoreboard_exact 1001 100 65535 options_example 10000 run_example ltac:(lia) run_example_timely) as (sys & g & log & hs & E & H1 & _ & H2 & _). exists sys, g, log, hs. exact (conj E (conj H1 H2)).
Defined.
Lemma tcp_scoreboard_advance_matches_rebuild_witness : allowed (fun sys g i => input_ok 1001 sys g i && timely 1001 g i) 1001 100 65535 options_example 10000 run_example = true /\
  exists sys g log, tx_from 1001 100 65535 options_example 10000 run_example = Some (sys, g, log) /\
    exists x s1 s2, cumulative_ack (set_floor 1151 (recovery (tx_conn sys))) (recovery_ack 1151 400 false 0 1 false) = Some x /\ advance_scoreboard_for_ack (al_state x) (wr 1151) 50 = Some s1 /\
      rebuild_scoreboard (al_state x) (wr 1151) (high_sacked (scoreboard (recovery (tx_conn sys)))) 50 = Some s2 /\ hole_list s1 = hole_list s2.
Proof.
  split; [exact run_example_timely|]. destruct (tcp_scoreboard_advance_matches_rebuild 1001 100 65535 options_example 10000 run_example ltac:(lia) run_example_timely) as (sys & g & log & E & H). exists sys, g, log. split; [exact E|].
  pose proof run_example_ghost as Eg. rewrite E in Eg. injection Eg as ->.
  destruct (H (recovery_ack 1151 400 false 0 1 false) 1151 50 eq_refl ltac:(cbn; lia)) as (x & s1 & s2 & hs & E1 & E2 & E3 & E4 & E5 & _). exists x, s1, s2. exact (conj E1 (conj E2 (conj E3 (eq_trans E4 (eq_sym E5))))).
Defined.
Lemma tcp_sender_respects_window_witness : allowed (input_ok 1001) 1001 100 65535 options_example 10000 ([Write (bytes_of stream_example 1001 600)] ++ [SessionTx 100 4 None true 1]) = true /\
  exists sys g log sys' g' ws, tx_from 1001 100 65535 options_example 10000 [Write (bytes_of stream_example 1001 600)] = Some (sys, g, log) /\ tx_step sys g (SessionTx 100 4 None true 1) = Some (sys', g', ws) /\
    (nxt (tx_conn sys') = nxt (tx_conn sys) \/ distance_to (una (tx_conn sys)) (nxt (tx_conn sys')) <= wnd (tx_conn sys)).
Proof. split; [exact window_example_ok|]. exact (tcp_sender_respects_window 1001 100 65535 options_example 10000 [Write (bytes_of stream_example 1001 600)] (SessionTx 100 4 None true 1) window_example_ok). Defined.

(** *** Where the conditions are needed *)

(** The sequence numbers sent, and whether the bytes are those of the stream. *)
Definition faithful (x : sent) : Z * bool :=
  let w := segment x in (w_sequence w, bool_decide (w_bytes w = bytes_of stream_example (w_sequence w) (vlen (w_bytes w)))).
Definition sent_faithfully (l : list tx_input) : option (list (Z * bool)) :=
  '(_, _, log) ← tx_from 1001 100 65535 options_example 10000 l; Some (map faithful log).

(** A retransmission that the path MTU asked for is still pending when new data
    is sent: the data goes out behind its sequence number. *)
Example tcp_stale_intent_corrupts :
  sent_faithfully [Write (bytes_of stream_example 1001 200); SessionTx 100 10 None true 1; MtuShrunk 50; Write (bytes_of stream_example 1201 200); SessionTx 50 10 None true 2] =
  Some [(1001, true); (1101, true); (1201, true); (1201, false); (1251, false); (1301, false)].
Proof. vm_compute. reflexivity. Qed.

(** A lost segment is sent again in parts after the MSS shrank: the rest is
    still pending when the same burst goes on with new data. *)
Example tcp_partial_retransmission_corrupts :
  option_map (drop 20) (sent_faithfully [Write (bytes_of stream_example 1001 2000); SessionTx 100 20 None true 1; ack_example 1001 [sack_block 1101 1501] 50; ack_example 1001 [sack_block 1101 2701] 51;
    SessionTx 60 10 None false 52; Write (bytes_of stream_example 3001 500); CustomTx 10 100000 [true; true; true; true; true] 60]) =
  Some [(1001, true); (1061, false); (3001, false); (3061, false); (3121, false)].
Proof. vm_compute. reflexivity. Qed.

(** [high_sacked] starts at 0, which is above an initial sequence number of
    3,000,000,000: it stays there, and the count of bytes is off. *)
Example tcp_high_sacked_starts_at_zero :
  ('(sys, g, _) ← tx_from 3000000001 100 65535 options_example 10000 [Write (bytes_of stream_example 3000000001 200); SessionTx 100 20 None true 1; ack_example 3000000001 [sack_block 3000000101 3000000201] 50];
   n ← sacked_bytes (recovery (tx_conn sys)); Some (g_high g, high_sacked (scoreboard (recovery (tx_conn sys))), n)) = Some (3000000201, 0, 1294967195).
Proof. vm_compute. reflexivity. Qed.

(** Without RACK, 5,000 bytes acknowledged next above a hole do not make it
    lost at a threshold of 2 segments of 50 bytes. *)
Example tcp_nearest_gap_not_counted :
  (r ← new;
   r ← record_sent r 1 1000 2000 1000 1000 0 1 false;
   r ← record_sent r 2 2000 7000 5000 5000 1000 1 false;
   r ← record_sent r 3 7000 8000 1000 1000 6000 1 false;
   r ← record_sent r 4 8000 9000 1000 1000 7000 1 false;
   '(r, _, _) ← on_sack_blocks r (recovery_ack 1000 50 false 0 1 false) [sack_block 2000 7000; sack_block 8000 8100] 10000;
   RbTree.entries (holes (scoreboard r))) = Some [(1000, hole_ 2000 false); (7000, hole_ 8000 false)].
Proof. vm_compute. reflexivity. Qed.

End TcpSenderProps.
